(* ===== verification/_CoqProject ===== *)
-Q . S2P
Prelude.v
Text.v
Execution.v
Capability.v
Scheduling.v
Cron.v
Log.v
JournalBase.v
ManagedSecret.v
Trust.v
LogDelivery.v
Saga.v
Journal.v
JournalInvariant.v
JournalSession.v
JournalSafety.v
JournalReplay.v
JournalTheorems.v
FileJournal.v
Utf8.v
WorkflowCommand.v
CommandFile.v
StepApplication.v
Float64.v
ExpressionProgram.v
ExpressionAst.v
ExpressionValue.v
ExpressionFunctions.v
ExpressionEvaluator.v
ExpressionSafety.v
ExpressionFlow.v
ExpressionTheorems.v
ExpressionLexer.v
ExpressionParser.v
ExpressionGrammar.v
ExpressionCompiler.v
WorkflowTemplate.v
WorkflowStrategy.v
RuntimeContext.v
ContextTheorems.v
MatrixExpansion.v
GithubActivation.v
MatrixTheorems.v
WorkflowLogical.v
WorkflowGraph.v
JobActivation.v
ActivationTheorems.v
Permission.v
PlanEquality.v
ReusableWorkflow.v
ReusableExpansion.v
ReusableCallTree.v
ReusableTheorems.v
ReusableAnswers.v
ReusableLedger.v
