(* ===== verification/Prelude.v ===== *)
(** * Automata: a verification library for the control plane and the runner

    Automata is a continuous-integration system in Rust. A control plane
    compiles workflows into jobs, keeps job attempts and their leases, matches
    queued attempts with registered runners and evaluates schedules; runners
    execute leased attempts in sandboxes, keep a crash-safe journal of what
    they have done, and send logs and results back. This library models the
    parts of that system whose correctness is a matter of pure logic, as
    executable definitions translated from the sources under [src/crates], and
    proves what those parts promise.

    ** Files

    - [Prelude]: results and the [?] notation, the state monad of [&mut self]
      methods, machine integers, bounded integers, ordered types, [BTreeSet]
      as a sorted list, stable sorting, loops that may fail, hint database and
      tactics. The remaining files use nothing of the model's own beyond it
      and the components they call.
    - [Text]: the operations of Rust's [str] that the code calls, on lists of
      Unicode scalar values, with UTF-8 lengths.
    - [Execution]: [automata-ci-core] [id.rs], [execution/lifecycle.rs],
      [execution/lease.rs], [execution/attempt.rs]. State: [JobAttemptState];
      operations [acquire_lease], [apply_transition], [renew_lease],
      [verify_fence], [attempt_validate]. A mutation is a value of [stM], so
      the state a failing method leaves behind is part of the model.
    - [Capability]: [automata-ci-core] [capability/*.rs] and [digest.rs].
      Advertisements, requirements, resource arithmetic, quantity and
      identifier parsers, and [satisfies].
    - [Scheduling]: [automata-ci-control] [scheduling/*.rs]. Evidence and
      authorised effective runners, the capability intersection, the
      duplicate-free snapshot, the placement factory (references carry
      addresses, so pointer membership is modelled), the policy port as the
      class [SchedulerPolicy] and its deterministic instance.
    - [Cron]: [automata-ci-schedule] [lib.rs]. Parser, bit masks, spacing
      rule, matching and the calendar search. The [jiff] library is the class
      [Jiff] of operations with the class [JiffLaws] of what the search relies
      on; [Gregorian] is a concrete instance of both.
    - [Log]: [automata-ci-core] [log.rs]. Frames, groups, acknowledgements.
    - [JournalBase]: the limits, refusals and content references of
      [automata-ci-runner-journal] ([lib.rs], [error.rs], [model/content.rs]),
      the content identities of [automata-ci-runner-spool] and the command
      sequence and cursor of [automata-ci-protocol] [message/session.rs].
    - [ManagedSecret]: [automata-ci-protocol] [message/managed_secret.rs], the
      secret-binding overlay a lease offer carries. SHA-256 and UUID text are
      the classes [Sha256] and [Uuid].
    - [LogDelivery]: [automata-ci-runner-journal] [model/cursor.rs] and the
      stream checks of the slot operations in [model/state.rs]. The segmented
      delivery cursor and the outbound operation cursor.
    - [Saga]: [model/provider.rs], [model/endpoint.rs] and the provider recovery
      state of [model/state.rs]: the write-ahead records of sandbox and endpoint
      operations.
    - [Journal]: [model/state.rs], [model/command.rs] and [model/orphan.rs].
      State: [StoredJournal], with the session ([SessionSnapshot]) and the slots
      ([SlotSnapshot]); one definition per mutation, composed in [run_slot_op]
      and [run_journal_op]; the decoding checks ([journal_validate]) and the
      read-only views.
    - [JournalInvariant], [JournalSession], [JournalSafety], [JournalReplay]:
      the invariant [journal_inv], what the decoding checks say of it, that
      every mutation keeps it, and that accepted mutations recognise themselves.
    - [JournalTheorems]: what the journal promises, and a worked run.
    - [FileJournal]: [file/mod.rs], [file/codec.rs] and [file/platform/unix.rs]:
      the adapter that keeps the journal in one file. The operating system is
      the class [PosixDirectory] with [PosixLaws], the JSON library [Json] with
      [JsonLaws]; each has a concrete instance.
    - [Utf8]: what the step command protocol uses of [str] beyond [Text]:
      decoding, searching, replacing, lines; shared with the three files below.
    - [WorkflowCommand]: [automata-ci-actions-runtime] [workflow_command.rs].
      State: [ActionsWorkflowCommandSession]; [process_line] recognises and
      acts on the commands a step prints.
    - [CommandFile]: [file_command.rs] and [artifact.rs] of the same crate:
      [decode_command_file], from the bytes of the six files a step may leave.
    - [StepApplication]: [phase.rs], [environment.rs] and the job state of
      [model.rs]: [apply_completed_step] derives the [JobCommandState] the next
      step sees. The JSON encoder of the artifact list is a parameter.
    - [Float64]: Rust's [f64] as the expression language uses it, on the
      Standard Library's specification of IEEE-754: bits, comparison, correctly
      rounded parsing, exact formatting.
    - [ExpressionProgram]: [automata-ci-core] [job/expression.rs]: postfix
      programs and [program_validate], which runs them on a stack of shapes.
    - [ExpressionAst]: [Ast] of [automata-ci-workflow-actions] [expression.rs]
      with its metrics and emission, and the trees that programs encode.
    - [ExpressionValue], [ExpressionFunctions], [ExpressionEvaluator]:
      [automata-ci-expression-actions]: values with the marker of sensitive
      ones, coercions, limits; the text, format and JSON functions; the arena of
      nodes and its evaluation. Unicode upper case is the class [CaseTable], the
      JSON library the class [SerdeJson]; functions of a provider are part of
      the context. The addresses of arrays and objects, which comparison reads,
      are modelled as allocation sites.
    - [ExpressionSafety], [ExpressionFlow], [ExpressionTheorems]: that
      evaluation cannot go wrong, that marked values do not flow into public
      ones, and the claims of the evaluator.
    - [ExpressionLexer], [ExpressionParser]: the rest of [expression.rs] of the
      compiler: delimiters, tokens, precedence climbing, availability, limits,
      the status guard and [compile_condition].
    - [ExpressionGrammar]: the grammar as inductive relations, and that the
      parser implements it.
    - [ExpressionCompiler]: the claims of the compiler and of its composition
      with the evaluator.
    - [WorkflowTemplate]: [automata-ci-core] [workflow/source.rs],
      [validation.rs], [identifier.rs], [expression.rs] and [template.rs]:
      spans, the errors and the budget of a plan, keys, and the compiled
      templates with their phases and contexts.
    - [WorkflowStrategy]: [workflow/strategy.rs]: matrices, patches and the
      strategy of a job as the plan holds them.
    - [WorkflowLogical]: [workflow/logical.rs], [invocation.rs] and [value.rs]:
      steps, services, runners, outputs, jobs, calls of reusable workflows and
      the invocation contract, each with the validation its builder runs.
    - [WorkflowGraph]: the graph checks of [logical.rs], and [plan.rs] and
      [version.rs]: a whole [WorkflowPlan] and [workflow_plan_validate].
    - [RuntimeContext], [ContextTheorems]: [job/context.rs] and the identities
      of [job/instance.rs]: runtime values with the worklist that bounds them,
      prerequisites, secret bindings and the context of one job instance.
    - [MatrixExpansion], [MatrixTheorems]: the matrices of
      [automata-ci-workflow-service] [activation.rs]: resolution of axes and
      patches, and [expand_matrix]. The evaluator is the class
      [LogicalActivationSession].
    - [GithubActivation]: [github_activation.rs] of the same crate, the
      instance of that class over the expression evaluator. Lower case is the
      class [LowerCaseTable].
    - [JobActivation], [ActivationTheorems]: the rest of [activation.rs] and
      [capability/selector.rs]: requests, conditions, the instances of a job
      and [activate]. SHA-256, JSON and protobuf encoding and the lower case of
      a whole text are the classes [Sha256], [ActivationEncoding] and
      [StrLowercase].
    - [Trust]: [automata-ci-core] [trust.rs]: the evidence of an event, its
      validation, completeness and classification, the authority a policy leaves
      it and the canonical snapshot ([trust_evaluate], [from_canonical_bytes]).
    - [Permission]: the permission catalog of [automata-ci-actions-permissions],
      [job/permission.rs], the permission parts of [automata-ci-store]
      ([workflow_runtime_policy.rs], [reusable_workflow_runtime.rs]) and what
      [logical_projection.rs] of the workflow service does with permissions and
      trust ([resolved_permission_request], [validate_trust_runtime_authority]).
    - [PlanEquality]: the derived equality of plans, as decisions.
    - [ReusableWorkflow], [ReusableExpansion]: [reusable_workflow.rs] of the
      workflow service: limits, permissions, paths, the two catalogs, the loop
      over reachable workflows, the bindings of a call, the traversal (the trait
      of its policy is the class [CredentialTraversalPolicy]), the policy that
      materialises invocations, and the digest of the ledger. The front end is
      the class [WorkflowFrontend], the JSON of plans [PlanEncoding].
    - [ReusableCallTree], [ReusableTheorems], [ReusableAnswers],
      [ReusableLedger]: the tree of calls as an inductive relation, that the
      traversal computes it, that it always answers, and that the digest can be
      read back.

    ** How the parts interact

    A registered and an observed advertisement ([Capability]) are intersected
    and authorised into an effective runner, which the policy ([Scheduling])
    places a queued attempt on; the placement is claimed by acquiring the
    attempt's lease ([Execution]), whose fencing token guards every later
    mutation. The runner records the offer and everything it does under the
    lease in its journal ([Journal]): sandbox and endpoint operations ([Saga]),
    the log frames ([Log]) it publishes through the delivery cursor
    ([LogDelivery]), results and rejections; each mutation is committed to the
    journal's file ([FileJournal]) before it takes effect outside. Each step of
    the job prints lines, of which the session ([WorkflowCommand]) takes the
    commands, and leaves files, which are decoded ([CommandFile]) and applied
    to the job's state when the step has completed ([StepApplication]).
    A workflow is planned once ([WorkflowGraph]): validated templates of jobs
    and steps ([WorkflowLogical], [WorkflowStrategy], [WorkflowTemplate]). When
    the prerequisites of a job are over, the job is activated
    ([JobActivation]): its condition and strategy are evaluated, the matrix is
    expanded ([MatrixExpansion]) and every combination becomes an instance with
    its own runtime context ([RuntimeContext]), which then waits for a runner.
    Whether a job or step runs, and the deferred values in its inputs, are
    expressions: the compiler ([ExpressionParser]) turns their text into a
    postfix program, which travels validated ([ExpressionProgram]) and is
    evaluated against the contexts of the run ([ExpressionEvaluator]); activation
    does so through its GitHub evaluator ([GithubActivation]).
    Schedules ([Cron]) decide when workflows are queued. An event is admitted
    with a snapshot of its trust ([Trust]). The workflows its plan calls are
    compiled from the same revision and expanded into a ledger of invocations
    ([ReusableExpansion]), each with the permissions and secrets its caller
    hands down; the projection of an activated job resolves what it asks for
    under the ceiling of its call and the snapshot ([Permission]).

    ** What the theorems show

    - Fencing: tokens are issued consecutively and never wrap; a holder whose
      lease was superseded can never change the attempt; every reachable
      attempt validates; failures change nothing; terminal attempts are final;
      a holder can always finish, in a bounded number of transitions.
    - Matching: [satisfies] reports exactly the unmet requirements; builders
      keep requirements admissible; resource arithmetic, quantity parsing and
      digests are exact.
    - Scheduling: the intersection is a meet, authorisation never exceeds the
      evidence, a placement is the first usable one, a decline is fully
      explained, and neither depends on the order of the input.
    - Schedules: a field's mask is the denotation of its text, accepted
      schedules are at least five minutes apart, and the search returns the
      first matching instant where local dates do not step back; in any zone it
      goes by local dates first, so that a step back over midnight is passed over.
    - Log delivery: the cursor refines a stream of frames delivered once and
      in order, takes exactly the requests that move the stream or seal, knows
      exactly the repeated ones, and every reachable cursor validates.
    - The journal: of the mutations it accepts, the checks before a commit
      refuse exactly the named conditions; accepted mutations can be repeated
      without effect; commands are applied once and in order; mutations are
      fenced by session and lease and leave other slots alone; recorded
      operations only move forward; the provider record refines the life of one
      sandbox; nothing is released before it is delivered or abandoned with
      authority. Secret overlays are canonical.
    - The journal's file: its format is exact; a mutation is atomic across a
      crash at any point of its commit; opening returns what the file holds; no
      run of mutations, failing calls, crashes and restarts leads to a file that
      does not open as a valid journal of its runner.
    - Step commands: what a well-behaved writer prints or writes is read back
      exactly; a value cannot smuggle in another command or record; a stopped
      session does nothing until it sees its token; masks are registered, not
      printed; whatever bytes come, the session, the decoded files and the
      job's state stay within their limits.
    - Job state: reserved variables are never set; the environment is the map of
      last writes; outputs and saved state stay in their scope; paths are the
      newest first; artifact digests are permanent.
    - Expressions: the parser implements its grammar; what the compiler returns
      validates, and a validated program is the emission of a tree, which the
      evaluator recovers; evaluation always ends, within the limits and never in
      an internal error; a condition that asks for no status is false unless the
      job succeeds so far; secrets do not show in public values, with one
      exception that is proved; numbers mean the same as literals and as text.
    - Plans: validation always answers; the checks of the graph accept exactly
      the well-formed and acyclic ones; an accepted plan never comes to a
      stand while a job is left.
    - Activation: a runtime value is accepted exactly when it is within the
      limits; expansion gives exactly the product less the exclusions, extended
      by the patches that agree, which never change a value of a combination;
      every combination becomes one instance with its place and a valid
      context; outputs derived from secrets influence nothing; without a
      condition a job waits for the success of its prerequisites.
    - Trust: of the snapshots a policy evaluates exactly those of trusted events
      have full authority; decoding accepts exactly the snapshots some policy
      evaluates; a job keeps secrets and protected environments only with one of
      trusted evidence. The permissions of a job are exactly those it asks for,
      lowered to the ceiling and to what trust leaves.
    - Called workflows: an expansion succeeds exactly when the calls unfold into
      a tree within the limits, and lists it; permissions only shrink and
      secrets only come from the root down the calls; compilation and expansion
      always answer; the digest binds every field of the ledger.

    ** Bounds and fuel

    Integers are [Z] with the width's maximum written out where the code
    checks it; [Bounded] carries ranges the types enforce. Loops that are not
    structural use a counter: the value loop of a cron item runs [end - start + 1] passes, which
    [Cron.select_loop_spec] shows to be enough, the date search runs the
    3660 passes of the source, and the lines of a command file are read with as
    much fuel as it has characters, which [CommandFile.env_lines_unfold] shows
    to be enough. The evaluation of a node counts down from above its index,
    since operands precede it ([ExpressionSafety.node_fuel]); the template loop
    of [format] runs on the template's length and the worklist of
    [enforce_value_limits] on the limit of items, both covered by the claim that
    no internal error occurs; the parser runs on the tokens left, and
    [ExpressionGrammar.parse_sound] shows that no counter runs out. The search
    for cycles counts one above the number of jobs, enough by
    [WorkflowGraph.visit_spec]; the worklist of a runtime value runs on its
    number of nested values, enough by [ContextTheorems.charge_loop_Ok]. The loop
    over reachable workflows spends a unit for each new entry, of which the
    source allows 50, and the traversal of calls one for each level, two above
    the configured depth: enough by the claim [expansions_always_answer].

    ** Not modelled, and why

    Serialisation (serde, protobuf), SQL stores, asynchronous transport,
    sandbox providers, authentication, cryptography, the web interface and the
    command line are input and output, generated code or third-party services.
    UUIDs are numbers. Labels and groups of advertisements are text compared
    for equality; their normalisation is modelled where activation calls it.
    Names of Git objects are data, without their parser. The services around
    activation (admission, orchestration, projection of results) are
    transactions on stores behind asynchronous ports. Of the projection of jobs
    only permissions and trust are modelled, and the symbolic credential
    analysis of local archives, a second policy of the traversal of calls, is
    not; the canonical JSON of catalogs and policies is a parameter or left out. Of the file adapter, the
    opening and locking of the root directory, the validation of its path and
    the Windows directory are not modelled; the observer is the outcome that
    [mutate] returns, without times and sizes.

    ** Plan

    Further parts of the same kind: the credential analysis of local archives
    over the traversal of [ReusableWorkflow], the lease poll service that drives the
    policy port ([automata-ci-control] [lease/service.rs]), protocol
    negotiation, and the trigger filters of the workflow compiler. *)

From stdpp Require Export base tactics decidable option list numbers sorting sets.
From Stdlib Require Export ZArith Lia.

Open Scope Z_scope.

(** ** Results

    [Result<T, E>] of the source: the error type comes first, so that
    [result E] is a monad and stdpp's [x ← m; k] is Rust's [?]. *)

Inductive result (E A : Type) : Type :=
| Ok (a : A)
| Err (e : E).
Arguments Ok {E A} a.
Arguments Err {E A} e.

#[export] Instance result_eq_dec {E A : Type} `{!EqDecision E, !EqDecision A} :
  EqDecision (result E A).
Proof. solve_decision. Defined.

#[export] Instance result_ret (E : Type) : MRet (result E) := λ A a, Ok a.
#[export] Instance result_bind (E : Type) : MBind (result E) :=
  λ A B f m, match m with Ok a => f a | Err e => Err e end.

Definition map_err {E F A : Type} (f : E → F) (m : result E A) : result F A :=
  match m with Ok a => Ok a | Err e => Err (f e) end.

Definition ok_or {E A : Type} (o : option A) (e : E) : result E A :=
  match o with Some a => Ok a | None => Err e end.

Definition is_ok {E A : Type} (m : result E A) : bool :=
  match m with Ok _ => true | Err _ => false end.

(** A check that returns early: [if c { return Err(e); }]. *)
Definition reject {E : Type} (c : bool) (e : E) : result E unit :=
  if c then Err e else Ok tt.

Lemma bind_Ok {E A B : Type} (a : A) (f : A → result E B) : (x ← Ok a; f x) = f a.
Proof. done. Qed.

Lemma bind_Ok_inv {E A B : Type} (m : result E A) (f : A → result E B) (b : B) :
  (x ← m; f x) = Ok b → ∃ a, m = Ok a ∧ f a = Ok b.
Proof. destruct m; [by eauto|done]. Qed.

Lemma bind_Err_inv {E A B : Type} (m : result E A) (f : A → result E B) (e : E) :
  (x ← m; f x) = Err e → m = Err e ∨ ∃ a, m = Ok a ∧ f a = Err e.
Proof. destruct m as [a|e']; [by eauto|]. intros [= ->]. by left. Qed.

Lemma Ok_inj {E A : Type} (a b : A) : Ok (E := E) a = Ok b → a = b.
Proof. by intros [= ->]. Qed.

Lemma reject_passes {E : Type} (c : bool) (e : E) (u : unit) : reject c e = Ok u ↔ c = false.
Proof. destruct u, c; done. Qed.

Lemma reject_Err {E : Type} (c : bool) (e e' : E) : reject c e = Err e' ↔ c = true ∧ e' = e.
Proof. destruct c; simpl; naive_solver. Qed.

Lemma ok_or_Ok {E A : Type} (o : option A) (e : E) (a : A) : ok_or o e = Ok a ↔ o = Some a.
Proof. destruct o; simpl; naive_solver. Qed.

(** Inverts a successful sequence of checks, one bind at a time. *)
Ltac ok_inv := repeat match goal with
  | H : mbind _ _ = Ok _ |- _ =>
      let x := fresh "x" in let Hx := fresh "H" in
      apply bind_Ok_inv in H as (x & Hx & H); cbv beta in H
  | H : reject _ _ = Ok _ |- _ => apply reject_passes in H
  | H : ok_or _ _ = Ok _ |- _ => apply ok_or_Ok in H
  | H : Ok _ = Ok _ |- _ => apply Ok_inj in H; simplify_eq
  | H : Err _ = Ok _ |- _ => discriminate H
  | H : (let '(_, _) := ?p in _) = Ok _ |- _ => destruct p; cbv beta iota in H
  end.

(** ** Mutation

    A method on [&mut self] that returns a [Result]: the state it leaves
    behind is visible whether it succeeds or fails. *)

Definition stM (S E A : Type) : Type := S → S * result E A.

#[export] Instance stM_ret (S E : Type) : MRet (stM S E) := λ A a s, (s, Ok a).
#[export] Instance stM_bind (S E : Type) : MBind (stM S E) :=
  λ A B f m s,
    match m s with
    | (s', Ok a) => f a s'
    | (s', Err e) => (s', Err e)
    end.

Definition getM {S E : Type} : stM S E S := λ s, (s, Ok s).
Definition modifyM {S E : Type} (f : S → S) : stM S E unit := λ s, (f s, Ok tt).
Definition liftM {S E A : Type} (m : result E A) : stM S E A := λ s, (s, m).

(** Loops that mutate: [for item in items { f(item)?; }] with a variable the
    body assigns, the same without one, and
    [items.map(f).collect::<Result<Vec<_>, _>>()]. *)
Section Loops.
Context {S E X A B : Type}.

Definition fold_st (f : X → A → stM S E X) : X → list A → stM S E X :=
  fix go x l := match l with
  | [] => mret x
  | a :: l => y ← f x a; go y l
  end.

Definition for_each (f : A → stM S E unit) : list A → stM S E unit :=
  fix go l := match l with
  | [] => mret tt
  | a :: l => _ ← f a; go l
  end.

Definition collect_st (f : A → stM S E B) : list A → stM S E (list B) :=
  fix go l := match l with
  | [] => mret []
  | a :: l => b ← f a; bs ← go l; mret (b :: bs)
  end.

Definition if_some (o : option A) (f : A → stM S E unit) : stM S E unit :=
  match o with Some a => f a | None => mret tt end.
End Loops.

(** When a mutation succeeds, and with what. *)
Section Success.
Context {S E A B : Type}.
Implicit Types (s t : S) (a : A) (b : B).

Lemma bind_st_Ok (m : stM S E A) (k : A → stM S E B) s t b :
  (x ← m; k x) s = (t, Ok b) ↔ ∃ s' a, m s = (s', Ok a) ∧ k a s' = (t, Ok b).
Proof.
  unfold mbind, stM_bind. destruct (m s) as [s' [a|e]]; naive_solver.
Qed.

Lemma mret_st_Ok a s t (a' : A) : (mret a : stM S E A) s = (t, Ok a') ↔ t = s ∧ a' = a.
Proof. unfold mret, stM_ret. naive_solver. Qed.

Lemma liftM_Ok (m : result E A) s t a : liftM m s = (t, Ok a) ↔ t = s ∧ m = Ok a.
Proof. unfold liftM. naive_solver. Qed.

End Success.

Lemma liftM_reject_Ok {S E : Type} (c : bool) (e : E) (s t : S) (u : unit) :
  liftM (reject c e) s = (t, Ok u) ↔ t = s ∧ c = false.
Proof. by rewrite liftM_Ok, reject_passes. Qed.

(** A computation that, when it fails, leaves the state as it found it. *)
Definition atomic {S E A : Type} (m : stM S E A) : Prop :=
  ∀ s s' e, m s = (s', Err e) → s' = s.


(** ** Machine integers

    Integers are mathematical, with the width of the source's type written
    where an operation can leave it. *)

Definition u8_max : Z := 2 ^ 8 - 1.
Definition u16_max : Z := 2 ^ 16 - 1.
Definition u32_max : Z := 2 ^ 32 - 1.
Definition u64_max : Z := 2 ^ 64 - 1.
Definition i64_max : Z := 2 ^ 63 - 1.

Definition checked_add (max a b : Z) : option Z :=
  if a + b <=? max then Some (a + b) else None.

Definition checked_sub (a b : Z) : option Z :=
  if b <=? a then Some (a - b) else None.

Definition checked_mul (max a b : Z) : option Z :=
  if a * b <=? max then Some (a * b) else None.

Lemma checked_add_Some (max a b c : Z) :
  checked_add max a b = Some c ↔ c = a + b ∧ a + b <= max.
Proof. unfold checked_add. destruct (Z.leb_spec (a + b) max); split; intros; simplify_eq; try f_equal; lia. Qed.

Lemma checked_sub_Some (a b c : Z) :
  checked_sub a b = Some c ↔ c = a - b ∧ b <= a.
Proof. unfold checked_sub. destruct (Z.leb_spec b a); split; intros; simplify_eq; try f_equal; lia. Qed.

Lemma checked_mul_Some (max a b c : Z) :
  checked_mul max a b = Some c ↔ c = a * b ∧ a * b <= max.
Proof. unfold checked_mul. destruct (Z.leb_spec (a * b) max); split; intros; simplify_eq; try f_equal; lia. Qed.

(** An integer confined to an interval by its type: [NonZeroU16],
    [NonZeroU64] and the newtypes whose only constructor checks a range. *)

Record Bounded (lo hi : Z) : Type := MkBounded {
  bget :> Z;
  bget_ok : Is_true (andb (lo <=? bget) (bget <=? hi));
}.
Arguments MkBounded {lo hi} _ _.
Arguments bget {lo hi} _.
Arguments bget_ok {lo hi} _.

(** Replaces a proof of a true test by the canonical one, so that values
    carrying such proofs compute. *)
Definition canon_true {b : bool} : Is_true b → Is_true b :=
  match b with true => λ _, I | false => λ H, H end.

Definition bounded (lo hi z : Z) : option (Bounded lo hi) :=
  match decide (Is_true (andb (lo <=? z) (z <=? hi))) with
  | left H => Some (MkBounded z (canon_true H))
  | right _ => None
  end.

Lemma bounded_range {lo hi : Z} (b : Bounded lo hi) : lo <= bget b <= hi.
Proof. destruct b as [z H]; simpl. apply Is_true_eq_true in H. lia. Qed.

Lemma bounded_eq {lo hi : Z} (a b : Bounded lo hi) : bget a = bget b → a = b.
Proof.
  destruct a as [x Hx], b as [y Hy]; simpl. intros ->.
  f_equal. apply proof_irrel.
Qed.

#[export] Instance bounded_eq_dec (lo hi : Z) : EqDecision (Bounded lo hi).
Proof.
  intros a b. destruct (decide (bget a = bget b)) as [H|H].
  - left. by apply bounded_eq.
  - right. by intros ->.
Defined.

Lemma bounded_Some (lo hi z : Z) (b : Bounded lo hi) :
  bounded lo hi z = Some b → bget b = z.
Proof. unfold bounded. destruct (decide _); naive_solver. Qed.

Lemma bounded_in (lo hi z : Z) :
  lo <= z <= hi → ∃ b, bounded lo hi z = Some b ∧ bget b = z.
Proof.
  intros. unfold bounded. destruct (decide _) as [H'|H']; [eauto|].
  destruct H'. apply Is_true_eq_left. lia.
Qed.

Lemma bounded_None (lo hi z : Z) :
  bounded lo hi z = None ↔ ¬ (lo <= z <= hi).
Proof.
  split.
  - intros H Hr. destruct (bounded_in _ _ _ Hr) as (b & Hb & _). congruence.
  - intros H. destruct (bounded lo hi z) as [b|] eqn:E; [|done].
    pose proof (bounded_range b). apply bounded_Some in E. lia.
Qed.

(** ** The [Ord] trait *)

Class Ord (A : Type) := {
  cmp : A → A → comparison;
  cmp_eq_iff (x y : A) : cmp x y = Eq ↔ x = y;
  cmp_opp (x y : A) : cmp y x = CompOpp (cmp x y);
  cmp_lt_trans (x y z : A) : cmp x y = Lt → cmp y z = Lt → cmp x z = Lt;
}.

Definition ltb {A : Type} `{!Ord A} (x y : A) : bool :=
  match cmp x y with Lt => true | _ => false end.
Definition leb {A : Type} `{!Ord A} (x y : A) : bool :=
  match cmp x y with Gt => false | _ => true end.
Definition eqb {A : Type} `{!Ord A} (x y : A) : bool :=
  match cmp x y with Eq => true | _ => false end.
Definition lt {A : Type} `{!Ord A} (x y : A) : Prop := cmp x y = Lt.
Definition le {A : Type} `{!Ord A} (x y : A) : Prop := cmp x y ≠ Gt.
Definition ord_max {A : Type} `{!Ord A} (x y : A) : A :=
  if leb x y then y else x.
Definition ord_min {A : Type} `{!Ord A} (x y : A) : A :=
  if leb x y then x else y.

Section OrdLemmas.
Context {A : Type} `{!Ord A}.
Implicit Types x y z : A.

Lemma cmp_refl x : cmp x x = Eq.
Proof. by apply cmp_eq_iff. Qed.

Lemma eqb_eq x y : eqb x y = true ↔ x = y.
Proof.
  rewrite <- cmp_eq_iff. unfold eqb. destruct (cmp x y); done.
Qed.

Lemma eqb_neq x y : eqb x y = false ↔ x ≠ y.
Proof. rewrite <- eqb_eq. destruct (eqb x y); split; congruence. Qed.

Lemma ltb_lt x y : ltb x y = true ↔ lt x y.
Proof. unfold ltb, lt. destruct (cmp x y); done. Qed.

Lemma leb_le x y : leb x y = true ↔ le x y.
Proof. unfold leb, le. destruct (cmp x y); split; congruence. Qed.

Lemma lt_irrefl x : ¬ lt x x.
Proof. unfold lt. by rewrite cmp_refl. Qed.

Lemma lt_trans x y z : lt x y → lt y z → lt x z.
Proof. apply cmp_lt_trans. Qed.

Lemma not_le_lt x y : ¬ le x y ↔ lt y x.
Proof.
  unfold le, lt. rewrite (cmp_opp x y).
  destruct (cmp x y); simpl; intuition congruence.
Qed.

Lemma le_lt_eq x y : le x y ↔ lt x y ∨ x = y.
Proof.
  unfold le, lt. rewrite <- cmp_eq_iff.
  destruct (cmp x y); intuition congruence.
Qed.

Lemma le_refl x : le x x.
Proof. rewrite le_lt_eq. by right. Qed.

Lemma le_trans x y z : le x y → le y z → le x z.
Proof. rewrite !le_lt_eq. intros [?| ->] [?| ->]; eauto using lt_trans. Qed.

Lemma le_antisym x y : le x y → le y x → x = y.
Proof.
  rewrite !le_lt_eq. intros [Hxy|?] [Hyx|?]; try done.
  by destruct (lt_irrefl x); eapply lt_trans.
Qed.

Lemma le_total x y : le x y ∨ le y x.
Proof.
  unfold le. rewrite (cmp_opp x y). destruct (cmp x y); simpl; intuition congruence.
Qed.

Lemma ord_min_spec x y :
  le (ord_min x y) x ∧ le (ord_min x y) y ∧ (ord_min x y = x ∨ ord_min x y = y).
Proof.
  unfold ord_min. destruct (leb x y) eqn:E.
  - apply leb_le in E. auto using le_refl.
  - destruct (le_total x y) as [H|H]; [apply leb_le in H; congruence|].
    auto using le_refl.
Qed.
End OrdLemmas.

#[export] Instance le_preorder {A : Type} `{!Ord A} : PreOrder (le (A := A)).
Proof. split; [exact le_refl | exact le_trans]. Qed.

#[export] Instance le_dec {A : Type} `{!Ord A} (x y : A) : Decision (le x y).
Proof. unfold le. apply _. Defined.

#[export] Instance lt_dec {A : Type} `{!Ord A} (x y : A) : Decision (lt x y).
Proof. unfold lt. apply _. Defined.

#[export] Program Instance ord_Z : Ord Z := {| cmp := Z.compare |}.
Next Obligation. intros x y. apply Z.compare_eq_iff. Qed.
Next Obligation. intros x y. apply Z.compare_antisym. Qed.
Next Obligation. intros x y z. rewrite !Z.compare_lt_iff. lia. Qed.

(** Derived orders: a newtype or struct compares as the value it maps to. *)
Program Definition ord_inj {A B : Type} `{!Ord B} (f : A → B)
    (Hinj : ∀ x y, f x = f y → x = y) : Ord A :=
  {| cmp := λ x y, cmp (f x) (f y) |}.
Next Obligation.
  intros A B ? f Hinj x y. simpl. rewrite cmp_eq_iff. naive_solver.
Qed.
Next Obligation. intros. simpl. apply cmp_opp. Qed.
Next Obligation. intros A B ? f ? x y z. simpl. apply cmp_lt_trans. Qed.

Definition cmp_then (c d : comparison) : comparison :=
  match c with Eq => d | _ => c end.

#[export] Program Instance ord_prod {A B : Type} `{!Ord A, !Ord B} : Ord (A * B) :=
  {| cmp := λ p q, cmp_then (cmp p.1 q.1) (cmp p.2 q.2) |}.
Next Obligation.
  intros A B ?? [a b] [a' b']; simpl. unfold cmp_then.
  destruct (cmp a a') eqn:Ea.
  - apply cmp_eq_iff in Ea as ->. rewrite cmp_eq_iff. naive_solver.
  - split; [done|]. intros [= -> ->]. by rewrite cmp_refl in Ea.
  - split; [done|]. intros [= -> ->]. by rewrite cmp_refl in Ea.
Qed.
Next Obligation.
  intros A B ?? [a b] [a' b']; simpl.
  rewrite (cmp_opp a a'), (cmp_opp b b'). by destruct (cmp a a').
Qed.
Next Obligation.
  intros A B ?? [a b] [a' b'] [a'' b'']; simpl. unfold cmp_then.
  destruct (cmp a a') eqn:E1; [apply cmp_eq_iff in E1 as ->| |done];
    (destruct (cmp a' a'') eqn:E2; [apply cmp_eq_iff in E2 as <-| |done]);
    intros; try done.
  - by eapply cmp_lt_trans.
  - by rewrite E1.
  - by rewrite (cmp_lt_trans _ _ _ E1 E2).
Qed.

Fixpoint cmp_list {A : Type} `{!Ord A} (l k : list A) : comparison :=
  match l, k with
  | [], [] => Eq
  | [], _ :: _ => Lt
  | _ :: _, [] => Gt
  | x :: l, y :: k => cmp_then (cmp x y) (cmp_list l k)
  end.

#[export] Program Instance ord_list {A : Type} `{!Ord A} : Ord (list A) :=
  {| cmp := cmp_list |}.
Next Obligation.
  intros A ? l. induction l as [|x l IH]; intros [|y k]; simpl; try done.
  unfold cmp_then. destruct (cmp x y) eqn:E.
  - apply cmp_eq_iff in E as ->. rewrite IH. naive_solver.
  - split; [done|]. intros [= -> ->]. by rewrite cmp_refl in E.
  - split; [done|]. intros [= -> ->]. by rewrite cmp_refl in E.
Qed.
Next Obligation.
  intros A ? l. induction l as [|x l IH]; intros [|y k]; simpl; try done.
  rewrite (cmp_opp x y), IH. by destruct (cmp x y).
Qed.
Next Obligation.
  intros A ? l. induction l as [|x l IH]; intros [|y k] [|z m]; simpl; try done.
  unfold cmp_then.
  destruct (cmp x y) eqn:E1; [apply cmp_eq_iff in E1 as ->| |done];
    (destruct (cmp y z) eqn:E2; [apply cmp_eq_iff in E2 as <-| |done]); intros; try done.
  - eauto.
  - by rewrite E1.
  - by rewrite (cmp_lt_trans _ _ _ E1 E2).
Qed.

(** ** [BTreeSet]

    A strictly sorted list. The proof of sortedness is a boolean test, so
    two sets with the same elements are equal, and iteration is in order. *)

Fixpoint strict_sorted {A : Type} `{!Ord A} (l : list A) : bool :=
  match l with
  | [] => true
  | x :: l => forallb (ltb x) l && strict_sorted l
  end.

Record BTreeSet (A : Type) `{!Ord A} : Type := MkSet {
  elems : list A;
  elems_sorted : Is_true (strict_sorted elems);
}.
Arguments MkSet {A _} _ _.
Arguments elems {A _} _.
Arguments elems_sorted {A _} _.

Fixpoint insert_sorted {A : Type} `{!Ord A} (x : A) (l : list A) : list A :=
  match l with
  | [] => [x]
  | y :: l' =>
      match cmp x y with
      | Lt => x :: l
      | Eq => l
      | Gt => y :: insert_sorted x l'
      end
  end.

#[export] Instance bset_elem_of {A : Type} `{!Ord A} : ElemOf A (BTreeSet A) :=
  λ x s, x ∈ elems s.

Section SortedLists.
Context {A : Type} `{!Ord A}.
Implicit Types (x y : A) (l k : list A).

Lemma forallb_ltb x l : forallb (ltb x) l = true ↔ ∀ y, y ∈ l → lt x y.
Proof.
  rewrite forallb_forall. setoid_rewrite ltb_lt.
  by setoid_rewrite list_elem_of_In.
Qed.

Lemma strict_sorted_cons x l :
  strict_sorted (x :: l) = true ↔ (∀ y, y ∈ l → lt x y) ∧ strict_sorted l = true.
Proof. simpl. by rewrite andb_true_iff, forallb_ltb. Qed.

Lemma elem_of_insert_sorted x y l :
  y ∈ insert_sorted x l ↔ y = x ∨ y ∈ l.
Proof.
  induction l as [|z l IH]; simpl.
  - rewrite list_elem_of_singleton. set_solver.
  - destruct (cmp x z) eqn:E; rewrite ?elem_of_cons, ?IH.
    + apply cmp_eq_iff in E as ->. naive_solver.
    + naive_solver.
    + naive_solver.
Qed.

Lemma insert_sorted_ok x l :
  strict_sorted l = true → strict_sorted (insert_sorted x l) = true.
Proof.
  induction l as [|z l IH]; [done|].
  rewrite strict_sorted_cons. intros [Hz Hl]. simpl.
  destruct (cmp x z) eqn:E; rewrite !strict_sorted_cons.
  - done.
  - split; [|done]. intros y [->|Hy]%elem_of_cons; [done|].
    eapply lt_trans; [exact E|]. by apply Hz.
  - split; [|by apply IH]. intros y [->|Hy]%elem_of_insert_sorted; [|by apply Hz].
    unfold lt. by rewrite (cmp_opp x z), E.
Qed.

Lemma strict_sorted_filter (f : A → bool) l :
  strict_sorted l = true → strict_sorted (List.filter f l) = true.
Proof.
  induction l as [|x l IH]; [done|]. rewrite strict_sorted_cons. intros [Hx Hl].
  simpl. destruct (f x); [|by apply IH]. rewrite strict_sorted_cons.
  split; [|by apply IH]. intros y [Hy _]%list_elem_of_In%filter_In.
  apply Hx. by apply list_elem_of_In.
Qed.

Lemma strict_sorted_NoDup l : strict_sorted l = true → NoDup l.
Proof.
  induction l as [|x l IH]; [constructor|]. rewrite strict_sorted_cons.
  intros [Hx Hl]. constructor; [|by apply IH].
  intros Hin. by apply (lt_irrefl x), Hx.
Qed.

Lemma strict_sorted_ext l k :
  strict_sorted l = true → strict_sorted k = true →
  (∀ x, x ∈ l ↔ x ∈ k) → l = k.
Proof.
  revert k. induction l as [|x l IH]; intros [|y k] Hl Hk Hext; [done| | |].
  - set_solver.
  - set_solver.
  - apply strict_sorted_cons in Hl as [Hx Hl], Hk as [Hy Hk].
    assert (x = y) as ->.
    { destruct (proj1 (elem_of_cons _ _ _) (proj1 (Hext x) (list_elem_of_here _ _)))
        as [?|H1]; [done|].
      destruct (proj1 (elem_of_cons _ _ _) (proj2 (Hext y) (list_elem_of_here _ _)))
        as [?|H2]; [done|].
      destruct (lt_irrefl x). eapply lt_trans; [by apply Hx|by apply Hy]. }
    f_equal. apply IH; [done..|]. intros z. specialize (Hext z).
    rewrite !elem_of_cons in Hext.
    assert (z ∈ l → z ≠ y) by (intros Hz ->; by apply (lt_irrefl y), Hx).
    assert (z ∈ k → z ≠ y) by (intros Hz ->; by apply (lt_irrefl y), Hy).
    naive_solver.
Qed.
End SortedLists.

Definition mk_set {A : Type} `{!Ord A} (l : list A)
    (H : strict_sorted l = true) : BTreeSet A :=
  MkSet l (canon_true (Is_true_eq_left _ H)).

Definition bset_empty {A : Type} `{!Ord A} : BTreeSet A := MkSet [] I.
Definition bset_is_empty {A : Type} `{!Ord A} (s : BTreeSet A) : bool :=
  match elems s with [] => true | _ => false end.
Definition bset_contains {A : Type} `{!Ord A} (s : BTreeSet A) (x : A) : bool :=
  existsb (eqb x) (elems s).
Definition bset_insert {A : Type} `{!Ord A} (x : A) (s : BTreeSet A) : BTreeSet A :=
  mk_set (insert_sorted x (elems s))
    (insert_sorted_ok _ _ (Is_true_eq_true _ (elems_sorted s))).
Definition bset_filter {A : Type} `{!Ord A} (f : A → bool) (s : BTreeSet A) : BTreeSet A :=
  mk_set (List.filter f (elems s))
    (strict_sorted_filter _ _ (Is_true_eq_true _ (elems_sorted s))).
Definition bset_remove {A : Type} `{!Ord A} (x : A) (s : BTreeSet A) : BTreeSet A :=
  bset_filter (λ y, negb (eqb x y)) s.
Definition bset_difference {A : Type} `{!Ord A} (s t : BTreeSet A) : BTreeSet A :=
  bset_filter (λ x, negb (bset_contains t x)) s.
Definition bset_intersection {A : Type} `{!Ord A} (s t : BTreeSet A) : BTreeSet A :=
  bset_filter (bset_contains t) s.
Definition bset_is_subset {A : Type} `{!Ord A} (s t : BTreeSet A) : bool :=
  forallb (bset_contains t) (elems s).
Definition bset_is_disjoint {A : Type} `{!Ord A} (s t : BTreeSet A) : bool :=
  negb (existsb (bset_contains t) (elems s)).
Definition bset_first {A : Type} `{!Ord A} (s : BTreeSet A) : option A :=
  head (elems s).
Definition bset_from {A : Type} `{!Ord A} (l : list A) : BTreeSet A :=
  foldl (λ s x, bset_insert x s) bset_empty l.

Section SetLemmas.
Context {A : Type} `{!Ord A}.
Implicit Types (x y : A) (s t : BTreeSet A).

Lemma bset_sorted s : strict_sorted (elems s) = true.
Proof. apply Is_true_eq_true, elems_sorted. Qed.

Lemma bset_eq s t : elems s = elems t → s = t.
Proof.
  destruct s as [l Hl], t as [k Hk]; simpl. intros ->.
  f_equal. apply proof_irrel.
Qed.

Lemma bset_ext s t : (∀ x, x ∈ s ↔ x ∈ t) → s = t.
Proof. intros H. apply bset_eq, strict_sorted_ext; auto using bset_sorted. Qed.

Lemma not_elem_of_bset_empty x : ¬ x ∈ bset_empty (A := A).
Proof. unfold elem_of, bset_elem_of, bset_empty. simpl. set_solver. Qed.

Lemma bset_contains_spec s x : bset_contains s x = true ↔ x ∈ s.
Proof.
  unfold bset_contains, elem_of, bset_elem_of.
  rewrite existsb_exists, list_elem_of_In. setoid_rewrite eqb_eq. naive_solver.
Qed.

Lemma elem_of_bset_insert x y s : y ∈ bset_insert x s ↔ y = x ∨ y ∈ s.
Proof. apply elem_of_insert_sorted. Qed.

Lemma elem_of_bset_filter (f : A → bool) x s :
  x ∈ bset_filter f s ↔ x ∈ s ∧ f x = true.
Proof.
  unfold elem_of, bset_elem_of, bset_filter. simpl.
  by rewrite !list_elem_of_In, filter_In.
Qed.

Lemma elem_of_bset_remove x y s : y ∈ bset_remove x s ↔ y ≠ x ∧ y ∈ s.
Proof.
  unfold bset_remove. rewrite elem_of_bset_filter, negb_true_iff, eqb_neq.
  naive_solver.
Qed.

Lemma elem_of_bset_difference x s t :
  x ∈ bset_difference s t ↔ x ∈ s ∧ ¬ x ∈ t.
Proof.
  unfold bset_difference.
  rewrite elem_of_bset_filter, negb_true_iff, <- not_true_iff_false.
  by rewrite bset_contains_spec.
Qed.

Lemma elem_of_bset_intersection x s t :
  x ∈ bset_intersection s t ↔ x ∈ s ∧ x ∈ t.
Proof.
  unfold bset_intersection. by rewrite elem_of_bset_filter, bset_contains_spec.
Qed.

Lemma bset_is_subset_spec s t : bset_is_subset s t = true ↔ ∀ x, x ∈ s → x ∈ t.
Proof.
  unfold bset_is_subset. rewrite forallb_forall.
  setoid_rewrite bset_contains_spec. unfold elem_of at 2, bset_elem_of at 2.
  by setoid_rewrite list_elem_of_In.
Qed.

Lemma bset_is_disjoint_false s t :
  bset_is_disjoint s t = false ↔ ∃ x, x ∈ s ∧ x ∈ t.
Proof.
  unfold bset_is_disjoint. rewrite negb_false_iff, existsb_exists.
  setoid_rewrite bset_contains_spec. unfold elem_of at 2, bset_elem_of at 2.
  by setoid_rewrite list_elem_of_In.
Qed.

Lemma bset_is_empty_spec s : bset_is_empty s = true ↔ s = bset_empty.
Proof.
  unfold bset_is_empty. split.
  - intros H. apply bset_eq. destruct (elems s); done.
  - by intros ->.
Qed.

Lemma bset_first_None s : bset_first s = None ↔ ∀ x, ¬ x ∈ s.
Proof.
  unfold bset_first, elem_of, bset_elem_of.
  destruct (elems s) as [|y l]; simpl; split; try done.
  - set_solver.
  - intros H. destruct (H y). apply list_elem_of_here.
Qed.

Lemma bset_first_Some s x :
  bset_first s = Some x → x ∈ s ∧ ∀ y, y ∈ s → le x y.
Proof.
  unfold bset_first, elem_of, bset_elem_of. pose proof (bset_sorted s) as Hs.
  destruct (elems s) as [|z l]; simpl; [done|]. intros [= ->].
  apply strict_sorted_cons in Hs as [Hs _]. split; [set_solver|].
  intros y [->|Hy]%elem_of_cons; rewrite le_lt_eq; auto.
Qed.

Lemma elem_of_bset_foldl l s x :
  x ∈ foldl (λ s x, bset_insert x s) s l ↔ x ∈ l ∨ x ∈ s.
Proof.
  revert s. induction l as [|y l IH]; intros s; simpl.
  - set_solver.
  - rewrite IH, elem_of_bset_insert, elem_of_cons. naive_solver.
Qed.

Lemma elem_of_bset_from (l : list A) x : x ∈ bset_from l ↔ x ∈ l.
Proof.
  unfold bset_from. rewrite elem_of_bset_foldl.
  pose proof (not_elem_of_bset_empty x). naive_solver.
Qed.

Lemma bset_from_elems s : bset_from (elems s) = s.
Proof. apply bset_ext. intros x. by rewrite elem_of_bset_from. Qed.
End SetLemmas.

#[export] Instance bset_eq_dec {A : Type} `{!Ord A, !EqDecision A} : EqDecision (BTreeSet A).
Proof.
  intros s t. destruct (decide (elems s = elems t)) as [H|H].
  - left. by apply bset_eq.
  - right. by intros ->.
Defined.

(** ** [sort_by_key]

    A stable sort: equal keys keep their order. *)

Fixpoint insert_by_key {A K : Type} `{!Ord K} (key : A → K) (x : A) (l : list A) : list A :=
  match l with
  | [] => [x]
  | y :: l' => if leb (key x) (key y) then x :: l else y :: insert_by_key key x l'
  end.

Definition sort_by_key {A K : Type} `{!Ord K} (key : A → K) (l : list A) : list A :=
  foldr (insert_by_key key) [] l.

Section SortLemmas.
Context {A K : Type} `{!Ord K} (key : A → K).
Implicit Types (x y : A) (l k : list A).

Definition key_le x y : Prop := le (key x) (key y).

Lemma insert_by_key_perm x l : insert_by_key key x l ≡ₚ x :: l.
Proof.
  induction l as [|y l IH]; simpl; [done|].
  destruct (leb (key x) (key y)); [done|]. rewrite IH. by apply perm_swap.
Qed.

Lemma sort_by_key_perm l : sort_by_key key l ≡ₚ l.
Proof.
  induction l as [|x l IH]; simpl; [done|].
  by rewrite insert_by_key_perm, IH.
Qed.

Lemma insert_by_key_sorted x l :
  StronglySorted key_le l → StronglySorted key_le (insert_by_key key x l).
Proof.
  induction 1 as [|y l Hl IH Hy]; simpl; [repeat constructor|].
  destruct (leb (key x) (key y)) eqn:E.
  - apply leb_le in E. constructor; [by constructor|].
    constructor; [done|]. eapply Forall_impl; [exact Hy|].
    intros z Hz. unfold key_le in *. by eapply le_trans.
  - constructor; [done|]. rewrite insert_by_key_perm.
    constructor; [|done]. unfold key_le.
    destruct (le_total (key x) (key y)) as [H|H]; [|done].
    apply leb_le in H. congruence.
Qed.

Lemma sort_by_key_sorted l : StronglySorted key_le (sort_by_key key l).
Proof.
  induction l as [|x l IH]; simpl; [constructor|].
  by apply insert_by_key_sorted.
Qed.

(** With distinct keys the sorted list depends on the elements only, not
    on the order they came in. *)
Lemma sort_by_key_unique l k :
  (∀ x y, x ∈ l → y ∈ l → key x = key y → x = y) → l ≡ₚ k →
  sort_by_key key l = sort_by_key key k.
Proof.
  intros Hinj Hp.
  apply (StronglySorted_unique_strong key_le); [|apply sort_by_key_sorted..|].
  - intros x y Hx Hy Hxy Hyx. apply Hinj.
    + by rewrite <- (sort_by_key_perm l).
    + by rewrite Hp, <- (sort_by_key_perm k).
    + by apply le_antisym.
  - by rewrite !sort_by_key_perm.
Qed.

Lemma elem_of_sort_by_key x l : x ∈ sort_by_key key l ↔ x ∈ l.
Proof. by rewrite sort_by_key_perm. Qed.
End SortLemmas.

Lemma sort_by_key_fmap {A B K : Type} `{!Ord K} (key : B → K) (f : A → B) (l : list A) :
  f <$> sort_by_key (λ x, key (f x)) l = sort_by_key key (f <$> l).
Proof.
  unfold sort_by_key. induction l as [|x l IH]; csimpl; [done|]. rewrite <- IH. clear IH.
  generalize (foldr (insert_by_key (λ x, key (f x))) [] l). intros k.
  induction k as [|y k IH]; csimpl; [done|].
  destruct (leb (key (f x)) (key (f y))); csimpl; [done|]. by rewrite IH.
Qed.

(** ** Generic lemmas and automation *)

(** Folds a check over a list, stopping at the first error: the shape of
    [for x in xs { f(x)?; }]. *)
Fixpoint try_for {E A : Type} (f : A → result E unit) (l : list A) : result E unit :=
  match l with
  | [] => Ok tt
  | x :: l => match f x with Ok _ => try_for f l | Err e => Err e end
  end.

Lemma try_for_Ok {E A : Type} (f : A → result E unit) (l : list A) :
  try_for f l = Ok tt ↔ ∀ x, x ∈ l → f x = Ok tt.
Proof.
  induction l as [|x l IH]; simpl; [set_solver|].
  destruct (f x) as [[]|e] eqn:E1.
  - rewrite IH. set_solver.
  - split; [done|]. intros H. rewrite <- E1. apply H. set_solver.
Qed.

(** [for x in xs { s = f(s, x)?; }]: a loop that updates [s] and may fail. *)
Fixpoint try_fold {E S A : Type} (f : S → A → result E S) (s : S) (l : list A) : result E S :=
  match l with
  | [] => Ok s
  | x :: l => s ← f s x; try_fold f s l
  end.

(** Loop invariants, indexed by the elements already visited. *)
Lemma try_fold_inv {E S A : Type} (Inv : list A → S → Prop) (f : S → A → result E S)
    (s s' : S) (l : list A) :
  Inv [] s →
  (∀ visited x t t', x ∈ l → Inv visited t → f t x = Ok t' → Inv (visited ++ [x]) t') →
  try_fold f s l = Ok s' → Inv l s'.
Proof.
  intros H0 Hstep.
  cut (∀ k visited t, (∀ x, x ∈ k → x ∈ l) → Inv visited t → try_fold f t k = Ok s' →
         Inv (visited ++ k) s').
  { intros H. exact (H l [] s (λ _ Hx, Hx) H0). }
  induction k as [|x k IH]; simpl; intros visited t Hk Ht.
  - intros [= <-]. by rewrite app_nil_r.
  - unfold mbind, result_bind. destruct (f t x) as [t'|e] eqn:Ef; [|done]. intros Hl.
    rewrite (cons_middle x visited k), app_assoc. eapply IH; [| |exact Hl].
    + intros y Hy. apply Hk. by right.
    + eapply Hstep; [|done..]. apply Hk. left.
Qed.

Lemma try_fold_Err {E S A : Type} (P : E → Prop) (f : S → A → result E S) (s : S)
    (l : list A) (e : E) :
  (∀ t x e, f t x = Err e → P e) → try_fold f s l = Err e → P e.
Proof.
  intros Hf. revert s. induction l as [|x l IH]; simpl; intros s; [done|].
  unfold mbind, result_bind. destruct (f s x) as [t|e'] eqn:Ef; [apply IH|].
  intros [= <-]. by eapply Hf.
Qed.

(** [xs.map(f).collect::<Result<Vec<_>, _>>()] and [x.map(f).transpose()]. *)
Definition try_map {E A B : Type} (f : A → result E B) : list A → result E (list B) :=
  fix go l := match l with
  | [] => Ok []
  | x :: l => y ← f x; ys ← go l; Ok (y :: ys)
  end.

Definition try_option {E A B : Type} (f : A → result E B) (o : option A) :
    result E (option B) :=
  match o with
  | Some x => y ← f x; Ok (Some y)
  | None => Ok None
  end.

Lemma try_map_Ok {E A B : Type} (f : A → result E B) (l : list A) (k : list B) :
  try_map f l = Ok k ↔ Forall2 (λ x y, f x = Ok y) l k.
Proof.
  revert k. induction l as [|x l IH]; intros k; cbn.
  { split; [by intros [= <-]|]. by intros ->%Forall2_nil_inv_l. }
  split.
  - intros (y & Hy & (ys & Hys & [= <-])%bind_Ok_inv)%bind_Ok_inv.
    constructor; [done|]. by apply IH.
  - intros (y & ys & Hy & Hys%IH & ->)%Forall2_cons_inv_l. rewrite Hy. cbn. by rewrite Hys.
Qed.

Lemma try_map_ext {E A B : Type} (f g : A → result E B) (l : list A) :
  (∀ x, f x = g x) → try_map f l = try_map g l.
Proof. intros Hfg. induction l as [|x l IH]; cbn; [done|]. by rewrite Hfg, IH. Qed.

Lemma try_option_ext {E A B : Type} (f g : A → result E B) (o : option A) :
  (∀ x, f x = g x) → try_option f o = try_option g o.
Proof. intros Hfg. destruct o; cbn; [by rewrite Hfg|done]. Qed.

Lemma try_fold_ext {E S A : Type} (f g : S → A → result E S) (s : S) (l : list A) :
  (∀ t x, f t x = g t x) → try_fold f s l = try_fold g s l.
Proof.
  intros Hfg. revert s. induction l as [|x l IH]; intros s; cbn; [done|]. rewrite Hfg.
  destruct (g s x); [apply IH|done].
Qed.

(** Records a key, reporting whether it was new: [set.insert(k)]. The
    traversal [for x in xs { if !set.insert(key(x)) { return Err(..) } }]
    returns the first element whose key repeats an earlier one. *)
Fixpoint first_repeat {A K : Type} `{!Ord K} (key : A → K) (seen : BTreeSet K)
    (l : list A) : option A :=
  match l with
  | [] => None
  | x :: l =>
      if bset_contains seen (key x) then Some x
      else first_repeat key (bset_insert (key x) seen) l
  end.

Lemma first_repeat_None {A K : Type} `{!Ord K} (key : A → K) (seen : BTreeSet K)
    (l : list A) :
  first_repeat key seen l = None ↔
  NoDup (key <$> l) ∧ ∀ x, x ∈ l → ¬ key x ∈ seen.
Proof.
  revert seen. induction l as [|x l IH]; intros seen; simpl.
  - split; [|done]. intros _. split; [constructor|set_solver].
  - rewrite NoDup_cons. destruct (bset_contains seen (key x)) eqn:E.
    + apply bset_contains_spec in E. split; [done|]. intros [_ H].
      destruct (H x); [set_solver|done].
    + rewrite IH. rewrite <- not_true_iff_false, bset_contains_spec in E.
      setoid_rewrite elem_of_bset_insert. rewrite list_elem_of_fmap.
      setoid_rewrite elem_of_cons. split.
      * intros [Hnd Hs]. repeat split; [|done|].
        -- intros (y & Hy & Hyl). apply (Hs y Hyl). auto.
        -- intros y [->|Hy]; [done|]. naive_solver.
      * intros [[Hx Hnd] Hs]. split; [done|]. intros y Hy [Hk|Hk]; [|naive_solver].
        apply Hx. eauto.
Qed.

Lemma NoDup_fmap_inj {A K : Type} (key : A → K) (l : list A) (x y : A) :
  NoDup (key <$> l) → x ∈ l → y ∈ l → key x = key y → x = y.
Proof.
  induction l as [|z l IH]; simpl; [set_solver|].
  rewrite NoDup_cons, list_elem_of_fmap. intros [Hz Hnd].
  rewrite !elem_of_cons. intros [->|Hx] [->|Hy] Hk; [done| | |eauto].
  - destruct Hz. eauto.
  - destruct Hz. eauto.
Qed.

Definition is_some {A : Type} (o : option A) : bool :=
  match o with Some _ => true | None => false end.

(** ** Slices sorted by an integer key

    [binary_search_by_key] on a slice whose keys ascend: the index of the
    element with the key, or the index at which it would be inserted. *)
Fixpoint search_by_key {A : Type} (key : A → Z) (k : Z) (l : list A) : result nat nat :=
  match l with
  | [] => Err 0%nat
  | x :: l =>
      if key x =? k then Ok 0%nat
      else if k <? key x then Err 0%nat
      else match search_by_key key k l with Ok i => Ok (S i) | Err i => Err (S i) end
  end.

(** [Vec::insert]. *)
Definition insert_at {A : Type} (i : nat) (x : A) (l : list A) : list A :=
  take i l ++ x :: drop i l.

Lemma lt_Z (x y : Z) : lt x y ↔ x < y.
Proof. apply Z.compare_lt_iff. Qed.

Section SortedSlices.
Context {A : Type} (key : A → Z).
Implicit Types (x y : A) (l : list A) (k : Z) (i : nat).

Lemma search_by_key_Ok l k i :
  search_by_key key k l = Ok i → ∃ x, l !! i = Some x ∧ key x = k.
Proof.
  revert i. induction l as [|x l IH]; intros i; simpl; [done|].
  destruct (Z.eqb_spec (key x) k); [intros [= <-]; by exists x|].
  destruct (k <? key x); [done|].
  destruct (search_by_key key k l) as [j|]; [|done]. intros [= <-]. by apply IH.
Qed.

(** The search reads the keys only. *)
Lemma search_by_key_keys l l' k :
  (key <$> l) = (key <$> l') → search_by_key key k l = search_by_key key k l'.
Proof.
  revert l'. induction l as [|x l IH]; intros [|x' l']; try done.
  rewrite !fmap_cons. intros [= Hx Hl]. simpl. by rewrite Hx, (IH l' Hl).
Qed.

Lemma search_by_key_found l k i x :
  strict_sorted (key <$> l) = true → l !! i = Some x → key x = k →
  search_by_key key k l = Ok i.
Proof.
  revert i. induction l as [|y l IH]; intros i; [done|].
  rewrite fmap_cons, strict_sorted_cons. intros [Hy Hs]. simpl.
  destruct i as [|i]; simpl.
  - intros [= ->] ->. by rewrite Z.eqb_refl.
  - intros Hl Hk. assert (Hlt : lt (key y) (key x)).
    { apply Hy. apply list_elem_of_fmap. exists x. split; [done|].
      by eapply list_elem_of_lookup_2. }
    rewrite lt_Z in Hlt.
    destruct (Z.eqb_spec (key y) k); [lia|]. destruct (Z.ltb_spec k (key y)); [lia|].
    by rewrite (IH i).
Qed.

Lemma search_by_key_Err l k i :
  strict_sorted (key <$> l) = true → search_by_key key k l = Err i →
  (∀ x, x ∈ l → key x ≠ k) ∧
  ∀ y, key y = k → strict_sorted (key <$> insert_at i y l) = true.
Proof.
  revert i. induction l as [|x l IH]; intros i.
  { intros _ [= <-]. split; [set_solver|]. intros y _. done. }
  rewrite fmap_cons, strict_sorted_cons. intros [Hx Hs]. simpl.
  assert (Hx' : ∀ z, z ∈ l → key x < key z).
  { intros z Hz. rewrite <- lt_Z. apply Hx. apply list_elem_of_fmap. eauto. }
  destruct (Z.eqb_spec (key x) k) as [|Hne]; [done|].
  destruct (Z.ltb_spec k (key x)) as [Hlt|Hge].
  - intros [= <-]. split.
    + intros z [->|Hz]%elem_of_cons; [done|]. specialize (Hx' z Hz). lia.
    + intros y Hy. change (insert_at 0 y (x :: l)) with (y :: x :: l).
      rewrite !fmap_cons, !strict_sorted_cons. split; [|done]. intros z. rewrite elem_of_cons.
      intros [->|(w & -> & Hw)%list_elem_of_fmap]; rewrite lt_Z;
        [lia|specialize (Hx' w Hw); lia].
  - destruct (search_by_key key k l) as [|j] eqn:Hj; [done|]. intros [= <-].
    destruct (IH j Hs eq_refl) as [Hno Hins]. split.
    + intros z [->|Hz]%elem_of_cons; [lia|eauto].
    + intros y Hy. change (insert_at (S j) y (x :: l)) with (x :: insert_at j y l).
      rewrite fmap_cons, strict_sorted_cons. split; [|eauto].
      intros z (w & -> & Hw)%list_elem_of_fmap. rewrite lt_Z.
      unfold insert_at in Hw. rewrite elem_of_app, elem_of_cons in Hw.
      rewrite <- (take_drop j l) in Hx'. setoid_rewrite elem_of_app in Hx'.
      destruct Hw as [Hw|[->|Hw]]; [eauto|lia|eauto].
Qed.

Lemma strict_sorted_alter l i x y :
  l !! i = Some x → key y = key x → (key <$> <[i := y]> l) = (key <$> l).
Proof.
  intros Hl Hk. rewrite list_fmap_insert, Hk. apply list_insert_id.
  by rewrite list_lookup_fmap, Hl.
Qed.

Lemma strict_sorted_delete l i :
  strict_sorted (key <$> l) = true → strict_sorted (key <$> delete i l) = true.
Proof.
  revert i. induction l as [|x l IH]; intros i; [done|].
  rewrite fmap_cons, strict_sorted_cons. intros [Hx Hs]. destruct i as [|i]; [done|].
  change (delete (S i) (x :: l)) with (x :: delete i l).
  rewrite fmap_cons, strict_sorted_cons. split; [|eauto].
  intros z (w & -> & Hw)%list_elem_of_fmap. apply Hx. apply list_elem_of_fmap. exists w.
  split; [done|]. by eapply elem_of_sublist, sublist_delete.
Qed.
End SortedSlices.

(** The sum of a measure over a list. *)
Definition sum_by {A : Type} (f : A → Z) (l : list A) : Z := foldr (λ x n, f x + n) 0 l.

Lemma sum_by_app {A : Type} (f : A → Z) (l k : list A) :
  sum_by f (l ++ k) = sum_by f l + sum_by f k.
Proof. induction l as [|x l IH]; simpl; [done|]. rewrite IH. lia. Qed.

Lemma sum_by_cons {A : Type} (f : A → Z) (x : A) (l : list A) :
  sum_by f (x :: l) = f x + sum_by f l.
Proof. done. Qed.

Lemma sum_by_rev {A : Type} (f : A → Z) (l : list A) : sum_by f (rev l) = sum_by f l.
Proof. induction l as [|a l IH]; simpl; [done|]. rewrite sum_by_app, IH. simpl. lia. Qed.

Lemma sum_by_map {A B : Type} (f : B → Z) (g : A → B) (l : list A) :
  sum_by f (map g l) = sum_by (λ a, f (g a)) l.
Proof. unfold sum_by. induction l; simpl; congruence. Qed.

Lemma sum_by_nonneg {A : Type} (f : A → Z) (l : list A) :
  (∀ x, x ∈ l → 0 <= f x) → 0 <= sum_by f l.
Proof.
  intros H. induction l as [|x l IH]; simpl; [lia|].
  assert (0 <= f x) by (apply H; set_solver).
  assert (0 <= sum_by f l) by (apply IH; intros; apply H; set_solver). lia.
Qed.

Lemma sum_by_insert {A : Type} (f : A → Z) (l : list A) (i : nat) (x y : A) :
  l !! i = Some x → sum_by f (<[i := y]> l) = sum_by f l - f x + f y.
Proof.
  revert i. induction l as [|z l IH]; intros [|i]; simpl; try done.
  - intros [= ->]. lia.
  - intros Hi. rewrite (IH i Hi). lia.
Qed.

(** Unfolds the two monads and reduces. *)
Ltac unfold_monad :=
  unfold mbind, mret, result_bind, result_ret, stM_bind, stM_ret, getM, modifyM,
    liftM, map_err, ok_or, reject in *; simpl in *.

(** Splits every test and match in the hypotheses, keeping the equations and
    discarding the impossible branches. *)
Ltac split_tests :=
  repeat match goal with
  | H : context [match ?t with _ => _ end] |- _ =>
      lazymatch t with
      | context [match _ with _ => _ end] => fail
      | _ => destruct t eqn:?; simplify_eq/=
      end
  end.

Create HintDb automata discriminated.
#[export] Hint Resolve le_refl bset_sorted : automata.
