(* ===== verification/Text.v ===== *)
(** * Text: the parts of Rust's [str] the components use

    A [&str] is the list of its Unicode scalar values; [str_len] is its length
    in UTF-8 bytes, and the derived lexicographic order on scalar values is
    the byte order of the encoding. Only operations the modelled code calls
    are here, with the laws that characterise them. *)

From S2P Require Import Prelude.
From Stdlib Require Import Ascii.
From Stdlib Require String.
Export String.StringSyntax.

Abbreviation str := (list Z) (only parsing).

(** An ASCII literal. *)
Fixpoint lit (s : String.string) : str :=
  match s with
  | String.EmptyString => []
  | String.String c s => Z.of_nat (nat_of_ascii c) :: lit s
  end.

Arguments lit s%_string_scope : simpl never.

(** ** Characters *)

Definition len_utf8 (c : Z) : Z :=
  if c <? 128 then 1 else if c <? 2048 then 2 else if c <? 65536 then 3 else 4.

Definition in_range (lo hi c : Z) : bool := (lo <=? c) && (c <=? hi).
Definition is_ascii (c : Z) : bool := c <? 128.
Definition is_ascii_digit (c : Z) : bool := in_range 48 57 c.
Definition is_ascii_lowercase (c : Z) : bool := in_range 97 122 c.
Definition is_ascii_uppercase (c : Z) : bool := in_range 65 90 c.
Definition is_ascii_alphanumeric (c : Z) : bool :=
  is_ascii_digit c || is_ascii_lowercase c || is_ascii_uppercase c.
Definition is_ascii_control (c : Z) : bool := (c <? 32) || (c =? 127).
Definition to_ascii_lowercase (c : Z) : Z := if is_ascii_uppercase c then c + 32 else c.

(** [u8::is_ascii_whitespace]. *)
Definition is_ascii_whitespace (c : Z) : bool :=
  (c =? 32) || (c =? 9) || (c =? 10) || (c =? 12) || (c =? 13).

(** [char::is_whitespace]: the Unicode White_Space property. *)
Definition is_whitespace (c : Z) : bool :=
  in_range 9 13 c || (c =? 32) || (c =? 133) || (c =? 160) || (c =? 5760) ||
  in_range 8192 8202 c || (c =? 8232) || (c =? 8233) || (c =? 8239) || (c =? 8287) ||
  (c =? 12288).

(** [char::is_control]: general category Cc. *)
Definition is_control (c : Z) : bool := (c <? 32) || in_range 127 159 c.

(** ** Strings *)

(** The UTF-8 encoding of one scalar value, and [str::as_bytes]. *)
Definition utf8_char (c : Z) : list Z :=
  let cont n := 128 + (c / 2 ^ n) mod 64 in
  if c <? 128 then [c]
  else if c <? 2048 then [192 + c / 2 ^ 6; cont 0]
  else if c <? 65536 then [224 + c / 2 ^ 12; cont 6; cont 0]
  else [240 + c / 2 ^ 18; cont 12; cont 6; cont 0].
Definition as_bytes (s : str) : list Z := s ≫= utf8_char.

Definition str_len (s : str) : Z := foldr (λ c n, len_utf8 c + n) 0 s.
Definition str_is_empty (s : str) : bool := match s with [] => true | _ => false end.
Definition str_is_ascii (s : str) : bool := forallb is_ascii s.
Definition str_eqb (s t : str) : bool := bool_decide (s = t).
Definition str_contains (s : str) (c : Z) : bool := existsb (Z.eqb c) s.

Fixpoint trim_start (s : str) : str :=
  match s with
  | [] => []
  | c :: s' => if is_whitespace c then trim_start s' else s
  end.
Definition trim_end (s : str) : str := rev (trim_start (rev s)).
Definition trim (s : str) : str := trim_end (trim_start s).

Definition starts_with (c : Z) (s : str) : bool :=
  match s with [] => false | d :: _ => c =? d end.

(** [str::split(c)]: always at least one piece. *)
Fixpoint split (c : Z) (s : str) : list str :=
  match s with
  | [] => [[]]
  | d :: s' =>
      if c =? d then [] :: split c s'
      else match split c s' with
           | p :: ps => (d :: p) :: ps
           | [] => [[d]]
           end
  end.

(** [str::split_once(c)]: at the first occurrence. *)
Fixpoint split_once (c : Z) (s : str) : option (str * str) :=
  match s with
  | [] => None
  | d :: s' =>
      if c =? d then Some ([], s')
      else match split_once c s' with
           | Some (a, b) => Some (d :: a, b)
           | None => None
           end
  end.

Fixpoint strip_prefix (pat s : str) : option str :=
  match pat, s with
  | [], _ => Some s
  | c :: pat, d :: s => if c =? d then strip_prefix pat s else None
  | _ :: _, [] => None
  end.

Definition strip_suffix (pat s : str) : option str :=
  match strip_prefix (rev pat) (rev s) with
  | Some r => Some (rev r)
  | None => None
  end.

(** [str::rsplit_once(pat)]: at the last occurrence. *)
Fixpoint rsplit_once (pat s : str) : option (str * str) :=
  match s with
  | [] => match pat with [] => Some ([], []) | _ => None end
  | c :: s' =>
      match rsplit_once pat s' with
      | Some (a, b) => Some (c :: a, b)
      | None => match strip_prefix pat s with
                | Some b => Some ([], b)
                | None => None
                end
      end
  end.

(** [str::split_ascii_whitespace]: the non-empty runs between whitespace. *)
Fixpoint split_ws_aux (cur s : str) : list str :=
  match s with
  | [] => match cur with [] => [] | _ => [rev cur] end
  | c :: s' =>
      if is_ascii_whitespace c then
        match cur with [] => split_ws_aux [] s' | _ => rev cur :: split_ws_aux [] s' end
      else split_ws_aux (c :: cur) s'
  end.
Definition split_ascii_whitespace (s : str) : list str := split_ws_aux [] s.

Definition eq_ignore_ascii_case (s t : str) : bool :=
  bool_decide (map to_ascii_lowercase s = map to_ascii_lowercase t).

(** ** Numbers *)

Definition digits_value (s : str) : Z := foldl (λ n c, n * 10 + (c - 48)) 0 s.

(** [str::parse::<uN>()] with the type's maximum: an optional [+], then at
    least one ASCII digit and nothing else, within the range. *)
Definition parse_uint (max : Z) (s : str) : option Z :=
  let digits := match s with c :: s' => if c =? 43 then s' else s | [] => s end in
  if negb (str_is_empty digits) && forallb is_ascii_digit digits &&
     (digits_value digits <=? max)
  then Some (digits_value digits) else None.

(** ** Laws *)

Lemma split_nonempty (c : Z) (s : str) : split c s ≠ [].
Proof. destruct s as [|d s]; simpl; [done|]. destruct (c =? d); [done|]. by destruct (split c s). Qed.

Lemma split_once_Some (c : Z) (s a b : str) :
  split_once c s = Some (a, b) ↔ s = a ++ c :: b ∧ c ∉ a.
Proof.
  revert a. induction s as [|d s IH]; intros a; simpl.
  - split; [done|]. intros [H _]. by destruct a.
  - destruct (Z.eqb_spec c d) as [<-|Hne].
    + split.
      * intros [= <- <-]. simpl. split; [done|]. apply not_elem_of_nil.
      * intros [H Hc]. destruct a as [|x a]; simpl in H; [congruence|].
        injection H as -> _. destruct Hc. apply list_elem_of_here.
    + destruct (split_once c s) as [[a' b']|] eqn:E.
      * split.
        -- intros [= <- <-]. destruct (proj1 (IH a') eq_refl) as [-> Hc].
           split; [done|]. rewrite elem_of_cons. naive_solver.
        -- intros [H Hc]. destruct a as [|x a]; simpl in H; [congruence|].
           injection H as -> H. rewrite elem_of_cons in Hc.
           assert (Some (a', b') = Some (a, b)) as [= -> ->] by (apply IH; naive_solver).
           done.
      * split; [done|]. intros [H Hc]. destruct a as [|x a]; simpl in H; [congruence|].
        injection H as -> H. rewrite elem_of_cons in Hc.
        assert (None = Some (a, b)) by (apply IH; naive_solver). done.
Qed.

Lemma split_once_None (c : Z) (s : str) : split_once c s = None ↔ c ∉ s.
Proof.
  induction s as [|d s IH]; simpl; [split; [intros _; apply not_elem_of_nil|done]|].
  rewrite elem_of_cons. destruct (Z.eqb_spec c d) as [<-|]; [naive_solver|].
  destruct (split_once c s) as [[]|]; naive_solver.
Qed.

Lemma parse_uint_range (max : Z) (s : str) (v : Z) :
  parse_uint max s = Some v → 0 <= v <= max.
Proof.
  unfold parse_uint. cbv zeta.
  set (d := match s with c :: s' => if c =? 43 then s' else s | [] => s end).
  destruct (_ && _ && _) eqn:E; [|done]. intros [= <-].
  apply andb_true_iff in E as [[_ E]%andb_true_iff Hmax]. split; [|lia].
  unfold digits_value. clear Hmax.
  assert (∀ n, 0 <= n → 0 <= foldl (λ n c, n * 10 + (c - 48)) n d) as Hd; [|by apply Hd].
  induction d as [|c d IH]; intros n Hn; simpl in *; [done|].
  apply andb_true_iff in E as [Hc E]. apply IH; [done|].
  unfold is_ascii_digit, in_range in Hc. lia.
Qed.

(** Text made of ASCII digits is its own encoding, has no surrounding
    whitespace and parses to its value. *)

Lemma utf8_char_ascii (c : Z) : is_ascii c = true → utf8_char c = [c].
Proof. unfold is_ascii, utf8_char. by intros ->. Qed.

Lemma as_bytes_ascii (s : str) : str_is_ascii s = true → as_bytes s = s.
Proof.
  unfold str_is_ascii, as_bytes. induction s as [|c s IH]; [done|]. simpl forallb.
  intros [Hc Hs]%andb_true_iff. by rewrite bind_cons, utf8_char_ascii, IH.
Qed.

Lemma str_len_ascii (s : str) : str_is_ascii s = true → str_len s = Z.of_nat (length s).
Proof.
  unfold str_is_ascii, str_len. induction s as [|c s IH]; simpl; [done|].
  intros [Hc Hs]%andb_true_iff. rewrite IH by done. unfold len_utf8.
  unfold is_ascii in Hc. rewrite Hc. lia.
Qed.

Lemma digits_ascii (s : str) : forallb is_ascii_digit s = true → str_is_ascii s = true.
Proof.
  unfold str_is_ascii. rewrite !forallb_forall. intros H c Hc. specialize (H c Hc).
  unfold is_ascii_digit, in_range, is_ascii in *. lia.
Qed.

Lemma digit_not_whitespace (c : Z) : is_ascii_digit c = true → is_whitespace c = false.
Proof. unfold is_ascii_digit, is_whitespace, in_range. lia. Qed.

Lemma trim_start_id (c : Z) (s : str) : is_whitespace c = false → trim_start (c :: s) = c :: s.
Proof. simpl. by intros ->. Qed.

Lemma trim_id (c d : Z) (s t : str) :
  is_whitespace c = false → is_whitespace d = false → c :: s = t ++ [d] →
  trim (c :: s) = c :: s.
Proof.
  intros Hc Hd Heq. unfold trim, trim_end. rewrite trim_start_id by done.
  rewrite Heq, rev_app_distr. simpl. rewrite Hd. simpl. by rewrite rev_involutive.
Qed.

Lemma parse_uint_digits (max : Z) (s : str) :
  s ≠ [] → forallb is_ascii_digit s = true →
  parse_uint max s = if digits_value s <=? max then Some (digits_value s) else None.
Proof.
  intros Hne Hd. unfold parse_uint.
  assert ((match s with c :: s' => if c =? 43 then s' else s | [] => s end) = s) as ->.
  { destruct s as [|c s]; [done|]. simpl in Hd. apply andb_true_iff in Hd as [Hc _].
    unfold is_ascii_digit, in_range in Hc. destruct (Z.eqb_spec c 43); [lia|done]. }
  rewrite Hd. destruct s; done.
Qed.

Lemma digits_value_nonneg_from (s : str) (n : Z) :
  forallb is_ascii_digit s = true → 0 <= n →
  n <= foldl (λ n c, n * 10 + (c - 48)) n s.
Proof.
  revert n. induction s as [|c s IH]; intros n Hd Hn; simpl in *; [lia|].
  apply andb_true_iff in Hd as [Hc Hs]. unfold is_ascii_digit, in_range in Hc.
  specialize (IH (n * 10 + (c - 48)) Hs). lia.
Qed.

Lemma digits_value_nonneg (s : str) : forallb is_ascii_digit s = true → 0 <= digits_value s.
Proof. intros H. by apply digits_value_nonneg_from. Qed.

Lemma digits_value_leading (c : Z) (s : str) :
  forallb is_ascii_digit (c :: s) = true → c ≠ 48 → 1 <= digits_value (c :: s).
Proof.
  simpl forallb. intros [Hc Hs]%andb_true_iff Hne. unfold digits_value.
  unfold is_ascii_digit, in_range in Hc. cbn [foldl].
  pose proof (digits_value_nonneg_from s (0 * 10 + (c - 48)) Hs). lia.
Qed.

Lemma split_no_sep (c : Z) (s : str) : c ∉ s → split c s = [s].
Proof.
  induction s as [|d s IH]; simpl; [done|]. rewrite elem_of_cons. intros H.
  destruct (Z.eqb_spec c d); [naive_solver|]. rewrite IH by naive_solver. done.
Qed.

Lemma split_app_sep (c : Z) (s t : str) : c ∉ s → split c (s ++ c :: t) = s :: split c t.
Proof.
  induction s as [|d s IH]; simpl.
  - by rewrite Z.eqb_refl.
  - rewrite elem_of_cons. intros H. destruct (Z.eqb_spec c d); [naive_solver|].
    rewrite IH by naive_solver. done.
Qed.

(** Joining the pieces gives the text back, and no piece holds the separator. *)
Fixpoint join (c : Z) (ps : list str) : str :=
  match ps with
  | [] => []
  | [p] => p
  | p :: ps => p ++ c :: join c ps
  end.

Lemma join_split (c : Z) (s : str) : join c (split c s) = s.
Proof.
  induction s as [|d s IH]; simpl; [done|].
  pose proof (split_nonempty c s). destruct (Z.eqb_spec c d) as [->|].
  - destruct (split d s) eqn:E; [done|]. by rewrite <- IH.
  - destruct (split c s) as [|p ps]; [done|]. destruct ps; simpl in *; by rewrite <- IH.
Qed.

Lemma split_pieces (c : Z) (s p : str) : p ∈ split c s → c ∉ p.
Proof.
  revert p. induction s as [|d s IH]; intros p; simpl.
  - rewrite list_elem_of_singleton. intros ->. apply not_elem_of_nil.
  - destruct (Z.eqb_spec c d) as [->|Hne].
    + rewrite elem_of_cons. intros [->|Hp]; [apply not_elem_of_nil|by apply IH].
    + destruct (split c s) as [|q qs].
      * rewrite list_elem_of_singleton. intros ->. by rewrite list_elem_of_singleton.
      * rewrite elem_of_cons. intros [->|Hp].
        -- rewrite elem_of_cons. intros [?|Hq]; [done|].
           apply (IH q); [apply list_elem_of_here|done].
        -- apply IH. by apply list_elem_of_further.
Qed.

Lemma strip_prefix_app (p s : str) : strip_prefix p (p ++ s) = Some s.
Proof. induction p as [|c p IH]; simpl; [done|]. by rewrite Z.eqb_refl. Qed.

Lemma strip_prefix_Some (p s t : str) : strip_prefix p s = Some t → s = p ++ t.
Proof.
  revert s. induction p as [|c p IH]; intros s; simpl; [congruence|].
  destruct s as [|d s]; [done|]. destruct (Z.eqb_spec c d) as [->|]; [|done].
  intros H. by rewrite (IH s H).
Qed.

Lemma strip_suffix_app (p s : str) : strip_suffix p (s ++ p) = Some s.
Proof. unfold strip_suffix. by rewrite rev_app_distr, strip_prefix_app, rev_involutive. Qed.

Lemma strip_suffix_Some (p s t : str) : strip_suffix p s = Some t → s = t ++ p.
Proof.
  unfold strip_suffix. destruct (strip_prefix _ _) as [r|] eqn:E; [|done]. intros [= <-].
  apply strip_prefix_Some, (f_equal (@rev Z)) in E.
  by rewrite rev_involutive, rev_app_distr, rev_involutive in E.
Qed.

Lemma rsplit_once_Some (p s a b : str) : rsplit_once p s = Some (a, b) → s = a ++ p ++ b.
Proof.
  revert a. induction s as [|c s IH]; intros a; simpl.
  - destruct p; [|done]. by intros [= <- <-].
  - destruct (rsplit_once p s) as [[a' b']|].
    + intros [= <- <-]. by rewrite (IH a' eq_refl).
    + destruct (strip_prefix p (c :: s)) eqn:E; [|done]. intros [= <- <-].
      by apply strip_prefix_Some in E.
Qed.

(** Dropping text in front of the last occurrence keeps it the last one. *)
Lemma rsplit_once_drop (p a s x b : str) :
  rsplit_once p (a ++ s) = Some (a ++ x, b) → rsplit_once p s = Some (x, b).
Proof.
  induction a as [|c a IH]; simpl; [done|].
  destruct (rsplit_once p (a ++ s)) as [[a' b']|].
  - intros [= -> ->]. by apply IH.
  - destruct (strip_prefix p (c :: a ++ s)); [|done]. by intros [= ].
Qed.

Lemma digits_value_bound_from (s : str) (n : Z) :
  forallb is_ascii_digit s = true → 0 <= n →
  foldl (λ n c, n * 10 + (c - 48)) n s < (n + 1) * 10 ^ Z.of_nat (length s).
Proof.
  revert n. induction s as [|c s IH]; intros n Hd Hn; cbn [foldl forallb length] in *; [lia|].
  apply andb_true_iff in Hd as [Hc Hs]. unfold is_ascii_digit, in_range in Hc.
  specialize (IH (n * 10 + (c - 48)) Hs). rewrite Nat2Z.inj_succ, Z.pow_succ_r by lia.
  assert (0 < 10 ^ Z.of_nat (length s)) by (apply Z.pow_pos_nonneg; lia). nia.
Qed.

Lemma digits_value_bound (s : str) :
  forallb is_ascii_digit s = true → digits_value s < 10 ^ Z.of_nat (length s).
Proof. intros H. pose proof (digits_value_bound_from s 0 H). unfold digits_value. lia. Qed.
