(* ===== verification/Execution.v ===== *)
(** * Job attempts: identifiers, lifecycle, fenced leases

    Models [crates/automata-ci-core/src/id.rs], [time.rs] and
    [execution/{lifecycle,lease,attempt}.rs]: the compact identifiers, the
    lifecycle state machine of one job attempt, the exclusive lease a runner
    holds on it, and the durable attempt state with its fenced mutations.
    A mutation on [&mut self] is a value of [stM], so the state it leaves
    behind when it fails is part of the model.

    The theorems state that every state the mutations can reach validates,
    that fencing tokens are issued in strictly increasing order and never
    wrap, that a superseded credential can never change the attempt again,
    that failures change nothing, and that terminal states are absorbing. *)

From S2P Require Import Prelude.

(** ** Identifiers ([id.rs], [time.rs]) *)

(** UUID-backed identities are used by equality and order only: a 128-bit
    number stands for one. *)
Abbreviation JobId := Z (only parsing).
Abbreviation AttemptId := Z (only parsing).
Abbreviation RunnerId := Z (only parsing).
Abbreviation RunnerSessionId := Z (only parsing).
Abbreviation LeaseId := Z (only parsing).
Abbreviation OperationId := Z (only parsing).
Abbreviation LogStreamId := Z (only parsing).

(** Milliseconds since the Unix epoch, an [i64]. *)
Abbreviation UnixMillis := Z (only parsing).

Definition CORE_SCHEMA_VERSION : Z := 1.

Inductive IdentifierError :=
| ZeroRunIdAlias
| RunIdAliasOutOfRange
| ZeroAttemptNumber
| ZeroFencingToken
| FencingTokenOutOfRange
| FencingTokenExhausted.

#[export] Instance identifier_error_eq_dec : EqDecision IdentifierError.
Proof. solve_decision. Defined.

Definition RunIdAlias_MAX : Z := 9007199254740991.
Definition RunIdAlias : Type := Bounded 1 RunIdAlias_MAX.

Definition run_id_alias_new (value : Z) : result IdentifierError RunIdAlias :=
  if RunIdAlias_MAX <? value then Err RunIdAliasOutOfRange
  else ok_or (bounded 1 RunIdAlias_MAX value) ZeroRunIdAlias.

Definition AttemptNumber : Type := Bounded 1 u32_max.

Definition attempt_number_new (value : Z) : result IdentifierError AttemptNumber :=
  ok_or (bounded 1 u32_max value) ZeroAttemptNumber.

(** [i64::MAX as u64]: what the durable column can hold. *)
Definition FencingToken_MAX : Z := i64_max.
Definition FencingToken : Type := Bounded 1 FencingToken_MAX.

Definition fencing_token_new (value : Z) : result IdentifierError FencingToken :=
  if FencingToken_MAX <? value then Err FencingTokenOutOfRange
  else ok_or (bounded 1 FencingToken_MAX value) ZeroFencingToken.

Definition fencing_token_checked_next (self : FencingToken) :
    result IdentifierError FencingToken :=
  match checked_add u64_max (bget self) 1 with
  | None => Err FencingTokenExhausted
  | Some next => map_err (λ _, FencingTokenExhausted) (fencing_token_new next)
  end.

(** ** Lifecycle ([execution/lifecycle.rs]) *)

Inductive JobLifecycle :=
| Queued | Leased | Preparing | Running | Cancelling | Finalizing
| Succeeded | Failed | Cancelled | TimedOut | Skipped | Lost.

#[export] Instance job_lifecycle_eq_dec : EqDecision JobLifecycle.
Proof. solve_decision. Defined.

Definition is_terminal (self : JobLifecycle) : bool :=
  match self with
  | Succeeded | Failed | Cancelled | TimedOut | Skipped | Lost => true
  | _ => false
  end.

Record TransitionError := MkTransitionError {
  transition_from : JobLifecycle;
  transition_to : JobLifecycle;
}.

#[export] Instance transition_error_eq_dec : EqDecision TransitionError.
Proof. solve_decision. Defined.

Definition validate_transition (self next : JobLifecycle) : result TransitionError unit :=
  let valid :=
    match self, next with
    | Queued, (Leased | Cancelled | Skipped) => true
    | Leased, (Preparing | Queued | Cancelling | Failed | Lost) => true
    | Preparing,
        (Queued | Running | Cancelling | Failed | TimedOut | Skipped | Lost) => true
    | Running, (Queued | Cancelling | Finalizing | TimedOut | Lost) => true
    | Cancelling, (Finalizing | Cancelled | Failed | TimedOut | Lost) => true
    | Finalizing, (Succeeded | Failed | Cancelled | TimedOut | Lost) => true
    | _, _ => false
    end in
  if valid then Ok tt else Err (MkTransitionError self next).

(** ** Leases ([execution/lease.rs]) *)

Record LeaseGuard := MkLeaseGuard {
  guard_lease_id : LeaseId;
  guard_fencing_token : FencingToken;
}.

#[export] Instance lease_guard_eq_dec : EqDecision LeaseGuard.
Proof. solve_decision. Defined.

Record Lease := MkLease {
  lease_schema_version : Z;
  lease_id : LeaseId;
  lease_attempt_id : AttemptId;
  lease_runner_id : RunnerId;
  lease_fencing_token : FencingToken;
  lease_issued_at : UnixMillis;
  lease_expires_at : UnixMillis;
}.

#[export] Instance lease_eq_dec : EqDecision Lease.
Proof. solve_decision. Defined.

Inductive LeaseError :=
| LeaseUnsupportedSchema (supported received : Z)
| InvalidInterval (issued_at expires_at : UnixMillis)
| RenewalDoesNotExtend (current received : UnixMillis).

#[export] Instance lease_error_eq_dec : EqDecision LeaseError.
Proof. solve_decision. Defined.

Definition lease_new (lease_id : LeaseId) (attempt_id : AttemptId)
    (runner_id : RunnerId) (fencing_token : FencingToken)
    (issued_at expires_at : UnixMillis) : result LeaseError Lease :=
  if expires_at <=? issued_at then Err (InvalidInterval issued_at expires_at)
  else Ok (MkLease CORE_SCHEMA_VERSION lease_id attempt_id runner_id fencing_token
             issued_at expires_at).

Definition lease_validate (self : Lease) : result LeaseError unit :=
  if negb (lease_schema_version self =? CORE_SCHEMA_VERSION) then
    Err (LeaseUnsupportedSchema CORE_SCHEMA_VERSION (lease_schema_version self))
  else if lease_expires_at self <=? lease_issued_at self then
    Err (InvalidInterval (lease_issued_at self) (lease_expires_at self))
  else Ok tt.

Definition lease_guard (self : Lease) : LeaseGuard :=
  MkLeaseGuard (lease_id self) (lease_fencing_token self).

Definition is_expired_at (self : Lease) (now : UnixMillis) : bool :=
  lease_expires_at self <=? now.

Definition set_lease_expires_at (expires_at : UnixMillis) (self : Lease) : Lease :=
  MkLease (lease_schema_version self) (lease_id self) (lease_attempt_id self)
    (lease_runner_id self) (lease_fencing_token self) (lease_issued_at self) expires_at.

Definition lease_renew (expires_at : UnixMillis) : stM Lease LeaseError unit :=
  self ← getM;
  if expires_at <=? lease_expires_at self then
    liftM (Err (RenewalDoesNotExtend (lease_expires_at self) expires_at))
  else modifyM (set_lease_expires_at expires_at).

(** ** Attempt state ([execution/attempt.rs]) *)

Record JobAttemptState := MkAttempt {
  attempt_schema_version : Z;
  attempt_id : AttemptId;
  attempt_job_id : JobId;
  attempt_number : AttemptNumber;
  attempt_lifecycle : JobLifecycle;
  current_fencing_token : option FencingToken;
  active_lease : option Lease;
}.

#[export] Instance job_attempt_state_eq_dec : EqDecision JobAttemptState.
Proof. solve_decision. Defined.

Inductive FenceError :=
| NoActiveLease
| LeaseMismatch (expected received : LeaseId)
| StaleFencingToken (expected received : FencingToken)
| FutureFencingToken (expected received : FencingToken).

#[export] Instance fence_error_eq_dec : EqDecision FenceError.
Proof. solve_decision. Defined.

Inductive AttemptStateError :=
| AttemptTransition (e : TransitionError)
| AttemptFence (e : FenceError)
| AttemptLease (e : LeaseError)
| AttemptIdentifier (e : IdentifierError)
| AttemptUnsupportedSchema (supported received : Z)
| LeaseStateInvariant (lifecycle : JobLifecycle)
| LeaseAttemptMismatch
| LeaseTokenMismatch.

#[export] Instance attempt_state_error_eq_dec : EqDecision AttemptStateError.
Proof. solve_decision. Defined.

Definition attempt_new (attempt_id : AttemptId) (job_id : JobId)
    (number : AttemptNumber) : JobAttemptState :=
  MkAttempt CORE_SCHEMA_VERSION attempt_id job_id number Queued None None.

Definition set_lifecycle (l : JobLifecycle) (s : JobAttemptState) : JobAttemptState :=
  MkAttempt (attempt_schema_version s) (attempt_id s) (attempt_job_id s)
    (attempt_number s) l (current_fencing_token s) (active_lease s).
Definition set_current_fencing_token (t : option FencingToken) (s : JobAttemptState) :
    JobAttemptState :=
  MkAttempt (attempt_schema_version s) (attempt_id s) (attempt_job_id s)
    (attempt_number s) (attempt_lifecycle s) t (active_lease s).
Definition set_active_lease (l : option Lease) (s : JobAttemptState) : JobAttemptState :=
  MkAttempt (attempt_schema_version s) (attempt_id s) (attempt_job_id s)
    (attempt_number s) (attempt_lifecycle s) (current_fencing_token s) l.

Definition acquire_lease (lease_id : LeaseId) (runner_id : RunnerId)
    (issued_at expires_at : UnixMillis) : stM JobAttemptState AttemptStateError Lease :=
  self ← getM;
  _ ← liftM (map_err AttemptTransition
               (validate_transition (attempt_lifecycle self) Leased));
  fencing_token ← liftM (map_err AttemptIdentifier
    match current_fencing_token self with
    | Some current => fencing_token_checked_next current
    | None => fencing_token_new 1
    end);
  lease ← liftM (map_err AttemptLease
    (lease_new lease_id (attempt_id self) runner_id fencing_token issued_at expires_at));
  _ ← modifyM (set_lifecycle Leased);
  _ ← modifyM (set_current_fencing_token (Some fencing_token));
  _ ← modifyM (set_active_lease (Some lease));
  mret lease.

Definition verify_fence (self : JobAttemptState) (guard : LeaseGuard) :
    result FenceError unit :=
  active ← ok_or (active_lease self) NoActiveLease;
  let expected := lease_fencing_token active in
  if bget (guard_fencing_token guard) <? bget expected then
    Err (StaleFencingToken expected (guard_fencing_token guard))
  else if bget expected <? bget (guard_fencing_token guard) then
    Err (FutureFencingToken expected (guard_fencing_token guard))
  else if negb (guard_lease_id guard =? lease_id active) then
    Err (LeaseMismatch (lease_id active) (guard_lease_id guard))
  else Ok tt.

Definition apply_transition (guard : LeaseGuard) (next : JobLifecycle) :
    stM JobAttemptState AttemptStateError unit :=
  self ← getM;
  _ ← liftM (map_err AttemptFence (verify_fence self guard));
  _ ← liftM (map_err AttemptTransition
               (validate_transition (attempt_lifecycle self) next));
  _ ← modifyM (set_lifecycle next);
  if bool_decide (next = Queued) || is_terminal next
  then modifyM (set_active_lease None)
  else mret tt.

Definition renew_lease (guard : LeaseGuard) (expires_at : UnixMillis) :
    stM JobAttemptState AttemptStateError Lease :=
  self ← getM;
  _ ← liftM (map_err AttemptFence (verify_fence self guard));
  active ← liftM (ok_or (active_lease self) (AttemptFence NoActiveLease));
  let '(active, renewed) := lease_renew expires_at active in
  _ ← modifyM (set_active_lease (Some active));
  _ ← liftM (map_err AttemptLease renewed);
  mret active.

Definition needs_lease (l : JobLifecycle) : bool :=
  match l with
  | Leased | Preparing | Running | Cancelling | Finalizing => true
  | _ => false
  end.

Definition attempt_validate (self : JobAttemptState) : result AttemptStateError unit :=
  if negb (attempt_schema_version self =? CORE_SCHEMA_VERSION) then
    Err (AttemptUnsupportedSchema CORE_SCHEMA_VERSION (attempt_schema_version self))
  else if negb (Bool.eqb (needs_lease (attempt_lifecycle self))
                    (bool_decide (is_Some (active_lease self)))) then
    Err (LeaseStateInvariant (attempt_lifecycle self))
  else match active_lease self with
  | Some lease =>
      _ ← map_err AttemptLease (lease_validate lease);
      if negb (lease_attempt_id lease =? attempt_id self) then Err LeaseAttemptMismatch
      else if negb (bool_decide
                 (current_fencing_token self = Some (lease_fencing_token lease)))
      then Err LeaseTokenMismatch
      else Ok tt
  | None => Ok tt
  end.

(** ** Histories

    The operations the control plane applies to one attempt, and what a
    sequence of them does: the state it ends in and the leases it issued. *)

Inductive attempt_op :=
| OpAcquire (lease_id : LeaseId) (runner_id : RunnerId) (issued_at expires_at : UnixMillis)
| OpTransition (guard : LeaseGuard) (next : JobLifecycle)
| OpRenew (guard : LeaseGuard) (expires_at : UnixMillis).

Definition run_op (op : attempt_op) (s : JobAttemptState) :
    JobAttemptState * result AttemptStateError (option Lease) :=
  match op with
  | OpAcquire lease_id runner_id issued_at expires_at =>
      let '(s', r) := acquire_lease lease_id runner_id issued_at expires_at s in
      (s', l ← r; Ok (Some l))
  | OpTransition guard next =>
      let '(s', r) := apply_transition guard next s in (s', _ ← r; Ok None)
  | OpRenew guard expires_at =>
      let '(s', r) := renew_lease guard expires_at s in (s', _ ← r; Ok None)
  end.

Definition issued_by (r : result AttemptStateError (option Lease)) : list Lease :=
  match r with Ok (Some l) => [l] | _ => [] end.

Fixpoint run_ops (ops : list attempt_op) (s : JobAttemptState) :
    JobAttemptState * list Lease :=
  match ops with
  | [] => (s, [])
  | op :: ops =>
      let '(s', r) := run_op op s in
      let '(s'', issued) := run_ops ops s' in
      (s'', issued_by r ++ issued)
  end.

(** ** Lemmas *)

(** The high-water mark of the fencing counter, zero before any lease. *)
Definition high_water (s : JobAttemptState) : Z :=
  match current_fencing_token s with Some t => bget t | None => 0 end.

Lemma fencing_token_new_Ok (z : Z) (t : FencingToken) :
  fencing_token_new z = Ok t → bget t = z.
Proof.
  unfold fencing_token_new. unfold_monad.
  intros H. split_tests. eauto using bounded_Some.
Qed.

Lemma checked_next_Ok (t t' : FencingToken) :
  fencing_token_checked_next t = Ok t' → bget t' = bget t + 1.
Proof.
  unfold fencing_token_checked_next. unfold_monad. intros H. split_tests.
  match goal with H : checked_add _ _ _ = Some _ |- _ => apply checked_add_Some in H end.
  match goal with H : fencing_token_new _ = Ok _ |- _ => apply fencing_token_new_Ok in H end.
  lia.
Qed.

(** What a successful acquisition does. *)
Lemma acquire_lease_Ok (lid : LeaseId) (rid : RunnerId) (i e : UnixMillis)
    (s s' : JobAttemptState) (l : Lease) :
  acquire_lease lid rid i e s = (s', Ok l) →
  attempt_lifecycle s = Queued ∧ i < e ∧
  bget (lease_fencing_token l) = high_water s + 1 ∧
  l = MkLease CORE_SCHEMA_VERSION lid (attempt_id s) rid (lease_fencing_token l) i e ∧
  s' = MkAttempt (attempt_schema_version s) (attempt_id s) (attempt_job_id s)
         (attempt_number s) Leased (Some (lease_fencing_token l)) (Some l).
Proof.
  unfold acquire_lease, lease_new, high_water. unfold_monad. intros H. split_tests.
  all: match goal with H : (_ <=? _) = false |- _ => apply Z.leb_gt in H end.
  all: repeat match goal with
  | H : fencing_token_checked_next _ = Ok _ |- _ => apply checked_next_Ok in H
  | H : fencing_token_new _ = Ok _ |- _ => apply fencing_token_new_Ok in H
  end.
  all: split_and!; try done; try lia.
  all: by destruct (attempt_lifecycle s).
Qed.

Lemma verify_fence_Ok (s : JobAttemptState) (g : LeaseGuard) :
  verify_fence s g = Ok tt ↔ lease_guard <$> active_lease s = Some g.
Proof.
  unfold verify_fence. unfold_monad.
  destruct (active_lease s) as [l|]; simpl; [|done].
  destruct g as [gi gt], l as [sv li ai ri lt' ia ea]; unfold lease_guard; simpl.
  split.
  - intros H. split_tests.
    assert (gt = lt') as -> by (apply bounded_eq; lia).
    do 2 f_equal. apply negb_false_iff in Heqb1. lia.
  - intros [= -> ->]. rewrite !Z.ltb_irrefl, Z.eqb_refl. done.
Qed.

(** What a successful transition does. *)
Lemma apply_transition_Ok (g : LeaseGuard) (next : JobLifecycle)
    (s s' : JobAttemptState) (u : unit) :
  apply_transition g next s = (s', Ok u) →
  verify_fence s g = Ok tt ∧
  validate_transition (attempt_lifecycle s) next = Ok tt ∧
  s' = MkAttempt (attempt_schema_version s) (attempt_id s) (attempt_job_id s)
         (attempt_number s) next (current_fencing_token s)
         (if bool_decide (next = Queued) || is_terminal next then None
          else active_lease s).
Proof.
  unfold apply_transition. unfold_monad.
  destruct (verify_fence s g) as [[]|]; [|done].
  destruct (validate_transition _ _) as [[]|]; [|done].
  unfold set_lifecycle, set_active_lease.
  destruct (_ || _); simpl; naive_solver.
Qed.

(** What a successful renewal does. *)
Lemma renew_lease_Ok (g : LeaseGuard) (e : UnixMillis) (s s' : JobAttemptState) (l' : Lease) :
  renew_lease g e s = (s', Ok l') →
  ∃ l, active_lease s = Some l ∧ g = lease_guard l ∧ lease_expires_at l < e ∧
    l' = set_lease_expires_at e l ∧ s' = set_active_lease (Some l') s.
Proof.
  unfold renew_lease, lease_renew. unfold_monad.
  destruct (verify_fence s g) as [[]|] eqn:Hf; [|done].
  apply verify_fence_Ok in Hf.
  destruct (active_lease s) as [l|]; simpl in *; [|done].
  destruct (Z.leb_spec e (lease_expires_at l)); [done|].
  intros [= <- <-]. exists l. naive_solver.
Qed.

Lemma set_active_lease_id (s : JobAttemptState) :
  set_active_lease (active_lease s) s = s.
Proof. by destruct s. Qed.

Lemma acquire_lease_atomic (lid : LeaseId) (rid : RunnerId) (i e : UnixMillis) :
  atomic (acquire_lease lid rid i e).
Proof.
  intros s s' err. unfold acquire_lease. unfold_monad. intros H. by split_tests.
Qed.

Lemma apply_transition_atomic (g : LeaseGuard) (next : JobLifecycle) :
  atomic (apply_transition g next).
Proof.
  intros s s' err. unfold apply_transition. unfold_monad. intros H. by split_tests.
Qed.

Lemma renew_lease_atomic (g : LeaseGuard) (e : UnixMillis) : atomic (renew_lease g e).
Proof.
  intros s s' err. unfold renew_lease, lease_renew. unfold_monad.
  destruct (verify_fence s g); [|naive_solver].
  pose proof (set_active_lease_id s) as Hid.
  destruct (active_lease s) as [l|]; simpl; [|naive_solver].
  destruct (_ <=? _); naive_solver.
Qed.

Lemma attempt_validate_Ok (s : JobAttemptState) :
  attempt_validate s = Ok tt ↔
  attempt_schema_version s = CORE_SCHEMA_VERSION ∧
  match active_lease s with
  | Some l =>
      needs_lease (attempt_lifecycle s) = true ∧ lease_validate l = Ok tt ∧
      lease_attempt_id l = attempt_id s ∧
      current_fencing_token s = Some (lease_fencing_token l)
  | None => needs_lease (attempt_lifecycle s) = false
  end.
Proof.
  unfold attempt_validate. unfold_monad.
  destruct (Z.eqb_spec (attempt_schema_version s) CORE_SCHEMA_VERSION) as [->|]; simpl;
    [|naive_solver].
  destruct (active_lease s) as [l|]; simpl;
    (destruct (needs_lease _); simpl; [|try naive_solver]); [|naive_solver].
  destruct (lease_validate l) as [[]|]; [|naive_solver].
  destruct (Z.eqb_spec (lease_attempt_id l) (attempt_id s)) as [->|]; simpl; [|naive_solver].
  case_bool_decide; naive_solver.
Qed.

(** [validate_transition] as a relation on the lifecycle, with a rank that
    every edge but requeueing raises. *)
Definition lifecycle_rank (l : JobLifecycle) : nat :=
  match l with
  | Queued => 0 | Leased => 1 | Preparing => 2 | Running => 3
  | Cancelling => 4 | Finalizing => 5 | _ => 6
  end%nat.

Lemma validate_transition_rank (l next : JobLifecycle) :
  validate_transition l next = Ok tt → next = Queued ∨ (lifecycle_rank l < lifecycle_rank next)%nat.
Proof. destruct l, next; simpl; first [done | intros; right; lia | intros; by left]. Qed.

Lemma validate_transition_terminal (l next : JobLifecycle) :
  is_terminal l = true → validate_transition l next = Err (MkTransitionError l next).
Proof. by destruct l, next. Qed.

Lemma needs_lease_spec (l : JobLifecycle) :
  needs_lease l = negb (bool_decide (l = Queued) || is_terminal l).
Proof. by destruct l. Qed.

Lemma run_op_validates (op : attempt_op) (s : JobAttemptState) :
  attempt_validate s = Ok tt → attempt_validate (run_op op s).1 = Ok tt.
Proof.
  intros Hv. destruct op as [lid rid i e|g next|g e]; simpl.
  - destruct (acquire_lease lid rid i e s) as [s' [l|err]] eqn:E; simpl.
    + apply acquire_lease_Ok in E as (_ & Hie & _ & -> & ->).
      apply attempt_validate_Ok in Hv as [Hsv _]. apply attempt_validate_Ok. simpl.
      unfold lease_validate; simpl. destruct (Z.leb_spec e i); [lia|]. done.
    + by rewrite (acquire_lease_atomic _ _ _ _ _ _ _ E).
  - destruct (apply_transition g next s) as [s' [u|err]] eqn:E; simpl.
    + apply apply_transition_Ok in E as (Hf & _ & ->).
      apply verify_fence_Ok in Hf. apply attempt_validate_Ok in Hv.
      apply attempt_validate_Ok. simpl.
      pose proof (needs_lease_spec next) as Hn.
      destruct (_ || _) eqn:Eq; simpl in Hn; [naive_solver|].
      destruct (active_lease s); naive_solver.
    + by rewrite (apply_transition_atomic _ _ _ _ _ E).
  - destruct (renew_lease g e s) as [s' [l|err]] eqn:E; simpl.
    + apply renew_lease_Ok in E as (l0 & Hl & _ & He & -> & ->).
      apply attempt_validate_Ok in Hv. apply attempt_validate_Ok. simpl.
      rewrite Hl in Hv. destruct Hv as (Hsv & Hn & Hlv & Ha & Ht).
      unfold lease_validate in *; simpl. split_tests.
      destruct (Z.leb_spec e (lease_issued_at l0)); [lia|done].
    + by rewrite (renew_lease_atomic _ _ _ _ _ E).
Qed.

Lemma run_ops_validates (ops : list attempt_op) (s : JobAttemptState) :
  attempt_validate s = Ok tt → attempt_validate (run_ops ops s).1 = Ok tt.
Proof.
  revert s. induction ops as [|op ops IH]; intros s Hv; simpl; [done|].
  pose proof (run_op_validates op s Hv) as Hv'. destruct (run_op op s) as [s' r].
  specialize (IH s' Hv'). by destruct (run_ops ops s').
Qed.

Lemma attempt_new_validates (aid : AttemptId) (jid : JobId) (n : AttemptNumber) :
  attempt_validate (attempt_new aid jid n) = Ok tt.
Proof. done. Qed.

(** The counter after one operation, and what that operation issued. *)
Lemma run_op_high_water (op : attempt_op) (s s' : JobAttemptState)
    (r : result AttemptStateError (option Lease)) :
  run_op op s = (s', r) →
  high_water s' = high_water s + Z.of_nat (length (issued_by r)) ∧
  (λ l, bget (lease_fencing_token l)) <$> issued_by r =
    seqZ (high_water s + 1) (Z.of_nat (length (issued_by r))).
Proof.
  destruct op as [lid rid i e|g next|g e]; simpl.
  - destruct (acquire_lease lid rid i e s) as [s0 [l|err]] eqn:E; simpl; intros [= <- <-].
    + apply acquire_lease_Ok in E as (_ & _ & Ht & _ & ->). simpl.
      unfold high_water at 1. simpl. by rewrite Ht.
    + rewrite (acquire_lease_atomic _ _ _ _ _ _ _ E). simpl. split; [lia|done].
  - destruct (apply_transition g next s) as [s0 [u|err]] eqn:E; simpl; intros [= <- <-].
    + apply apply_transition_Ok in E as (_ & _ & ->). unfold high_water; simpl.
      split; [lia|done].
    + rewrite (apply_transition_atomic _ _ _ _ _ E). simpl. split; [lia|done].
  - destruct (renew_lease g e s) as [s0 [l|err]] eqn:E; simpl; intros [= <- <-].
    + apply renew_lease_Ok in E as (l0 & _ & _ & _ & _ & ->). unfold high_water; simpl.
      split; [lia|done].
    + rewrite (renew_lease_atomic _ _ _ _ _ E). simpl. split; [lia|done].
Qed.

Lemma run_ops_high_water (ops : list attempt_op) (s s' : JobAttemptState)
    (issued : list Lease) :
  run_ops ops s = (s', issued) →
  high_water s' = high_water s + Z.of_nat (length issued) ∧
  (λ l, bget (lease_fencing_token l)) <$> issued =
    seqZ (high_water s + 1) (Z.of_nat (length issued)).
Proof.
  revert s issued. induction ops as [|op ops IH]; intros s issued; simpl.
  - intros [= <- <-]. simpl. split; [lia|done].
  - destruct (run_op op s) as [s1 r] eqn:E1.
    destruct (run_ops ops s1) as [s2 issued2] eqn:E2. intros [= <- <-].
    apply run_op_high_water in E1 as [Hw1 Ht1].
    apply IH in E2 as [Hw2 Ht2].
    rewrite length_app, Nat2Z.inj_add. split; [lia|].
    rewrite fmap_app, Ht1, Ht2, Hw1, seqZ_app by lia. f_equal. f_equal. lia.
Qed.

(** A credential below the counter authorises nothing. *)
Lemma stale_guard_rejected (s : JobAttemptState) (g : LeaseGuard) :
  attempt_validate s = Ok tt → bget (guard_fencing_token g) < high_water s →
  ∃ e, verify_fence s g = Err e ∧ (e = NoActiveLease ∨ ∃ exp rec, e = StaleFencingToken exp rec).
Proof.
  intros [_ Hv]%attempt_validate_Ok. unfold high_water, verify_fence. unfold_monad.
  destruct (active_lease s) as [l|]; simpl; [|intros _; eexists; eauto].
  destruct Hv as (_ & _ & _ & ->). intros Hlt.
  rewrite (proj2 (Z.ltb_lt _ _) Hlt). eexists. eauto 6.
Qed.

Lemma fence_error_blocks (s : JobAttemptState) (g : LeaseGuard) (e : FenceError) :
  verify_fence s g = Err e →
  (∀ next, apply_transition g next s = (s, Err (AttemptFence e))) ∧
  (∀ expires, renew_lease g expires s = (s, Err (AttemptFence e))).
Proof.
  intros Hf. unfold apply_transition, renew_lease. unfold_monad. by rewrite Hf.
Qed.

(** ** Properties *)

(** Every attempt state reachable from a freshly created attempt by any
    sequence of lease acquisitions, fenced transitions and renewals, failed
    ones included, passes its own durable validation. *)
Lemma reachable_attempts_validate (aid : AttemptId) (jid : JobId) (n : AttemptNumber)
    (ops : list attempt_op) :
  attempt_validate (run_ops ops (attempt_new aid jid n)).1 = Ok tt.
Proof. apply run_ops_validates, attempt_new_validates. Qed.

(** Over any history of one attempt, the fencing tokens issued are exactly
    1, 2, 3, ... in order: strictly increasing, gap-free, never reused. *)
Lemma issued_tokens_consecutive (aid : AttemptId) (jid : JobId) (n : AttemptNumber)
    (ops : list attempt_op) :
  let issued := (run_ops ops (attempt_new aid jid n)).2 in
  (λ l, bget (lease_fencing_token l)) <$> issued = seqZ 1 (Z.of_nat (length issued)).
Proof.
  destruct (run_ops ops _) as [s issued] eqn:E; simpl.
  apply run_ops_high_water in E as [_ ->]. done.
Qed.

(** C30: a superseded runner is fenced out for good. If a lease was issued in
    some history and a later lease has been issued since, then in every
    state of the remaining history the old credential can neither move the
    lifecycle nor renew, and the attempt to do so changes nothing. *)
Theorem superseded_lease_fenced_out (aid : AttemptId) (jid : JobId) (n : AttemptNumber)
    (before after : list attempt_op) (old : Lease) :
  let s1 := run_ops before (attempt_new aid jid n) in
  let s2 := run_ops after s1.1 in
  old ∈ s1.2 → s2.2 ≠ [] →
  ∃ e, (∀ next, apply_transition (lease_guard old) next s2.1 = (s2.1, Err (AttemptFence e))) ∧
       (∀ expires, renew_lease (lease_guard old) expires s2.1 = (s2.1, Err (AttemptFence e))).
Proof.
  cbv zeta. pose proof (run_ops_validates before _ (attempt_new_validates aid jid n)) as Hv1.
  destruct (run_ops before _) as [s1 iss1] eqn:E1; simpl in *.
  pose proof (run_ops_validates after _ Hv1) as Hv2.
  destruct (run_ops after s1) as [s2 iss2] eqn:E2; simpl in *. intros Hold Hnew.
  apply run_ops_high_water in E1 as [Hw1 Ht1], E2 as [Hw2 _].
  assert (bget (lease_fencing_token old) < high_water s2) as Hlt.
  { apply (list_elem_of_fmap_2 (λ l, bget (lease_fencing_token l))) in Hold.
    rewrite Ht1, elem_of_seqZ in Hold.
    destruct iss2 as [|l' iss2]; [done|]. simpl length in *. lia. }
  destruct (stale_guard_rejected s2 (lease_guard old) Hv2 Hlt) as (e & He & _).
  exists e. by apply fence_error_blocks.
Qed.

(** C37: a failing mutation of an attempt leaves the state exactly as it was,
    for every operation and every error. *)
Theorem failed_operations_change_nothing (op : attempt_op) (s s' : JobAttemptState)
    (e : AttemptStateError) :
  run_op op s = (s', Err e) → s' = s.
Proof.
  destruct op as [lid rid i ex|g next|g ex]; simpl.
  - destruct (acquire_lease _ _ _ _ _) as [s0 [l|err]] eqn:E; simpl; [done|].
    intros [= <- <-]. by eapply acquire_lease_atomic.
  - destruct (apply_transition _ _ _) as [s0 [l|err]] eqn:E; simpl; [done|].
    intros [= <- <-]. by eapply apply_transition_atomic.
  - destruct (renew_lease _ _ _) as [s0 [l|err]] eqn:E; simpl; [done|].
    intros [= <- <-]. by eapply renew_lease_atomic.
Qed.

(** A terminal attempt is final. Once the lifecycle of a valid state is
    terminal, no sequence of operations changes the state or issues a lease. *)
Lemma terminal_attempts_are_final (ops : list attempt_op) (s : JobAttemptState) :
  attempt_validate s = Ok tt → is_terminal (attempt_lifecycle s) = true →
  run_ops ops s = (s, []).
Proof.
  intros Hv Ht. apply attempt_validate_Ok in Hv as [_ Hv].
  assert (active_lease s = None) as Hnone.
  { destruct (active_lease s); [|done]. destruct Hv as [Hn _].
    rewrite needs_lease_spec, Ht, orb_true_r in Hn. done. }
  assert (∀ g, verify_fence s g = Err NoActiveLease) as Hf.
  { intros g. unfold verify_fence. by rewrite Hnone. }
  induction ops as [|op ops IH]; [done|]. simpl.
  assert (∃ e, run_op op s = (s, Err e)) as [e ->]; [|simpl; by rewrite IH].
  destruct op as [lid rid i ex|g next|g ex]; simpl.
  - unfold acquire_lease. unfold_monad. rewrite validate_transition_terminal by done. eauto.
  - destruct (fence_error_blocks s g _ (Hf g)) as [-> _]. simpl. eauto.
  - destruct (fence_error_blocks s g _ (Hf g)) as [_ ->]. simpl. eauto.
Qed.

(** The fence accepts exactly the credential of the active lease, and
    names the reason for every other one: no lease, an older generation, a
    generation never issued, or another lease of the same generation. *)
Lemma verify_fence_classifies (s : JobAttemptState) (g : LeaseGuard) :
  verify_fence s g =
  match active_lease s with
  | None => Err NoActiveLease
  | Some l =>
      match bget (guard_fencing_token g) ?= bget (lease_fencing_token l) with
      | Lt => Err (StaleFencingToken (lease_fencing_token l) (guard_fencing_token g))
      | Gt => Err (FutureFencingToken (lease_fencing_token l) (guard_fencing_token g))
      | Eq => if bool_decide (g = lease_guard l) then Ok tt
              else Err (LeaseMismatch (lease_id l) (guard_lease_id g))
      end
  end.
Proof.
  unfold verify_fence. unfold_monad. destruct (active_lease s) as [l|]; [|done].
  destruct g as [gi gt], l as [sv li ai ri lt' ia ea]; simpl. unfold Z.ltb.
  rewrite (Z.compare_antisym (bget gt) (bget lt')).
  destruct (bget gt ?= bget lt') eqn:E; simpl; try done.
  apply Z.compare_eq_iff, bounded_eq in E as ->.
  unfold lease_guard; simpl. destruct (Z.eqb_spec gi li) as [->|Hne]; simpl.
  - by rewrite bool_decide_true.
  - rewrite bool_decide_false; [done|]. by intros [= ->].
Qed.

(** The holder of the active lease is never stuck: it can always give the
    attempt up as lost, which ends the lease and keeps the counter. *)
Lemma holder_can_always_terminate (s : JobAttemptState) (l : Lease) :
  attempt_validate s = Ok tt → active_lease s = Some l →
  apply_transition (lease_guard l) Lost s =
    (set_active_lease None (set_lifecycle Lost s), Ok tt).
Proof.
  intros [_ Hv]%attempt_validate_Ok Hl. rewrite Hl in Hv. destruct Hv as [Hn _].
  unfold apply_transition. unfold_monad.
  assert (verify_fence s (lease_guard l) = Ok tt) as ->
    by by rewrite verify_fence_Ok, Hl.
  by destruct (attempt_lifecycle s).
Qed.

(** At the end of the fencing counter's range a new lease is refused and
    nothing changes: the counter never wraps to a smaller token. *)
Lemma exhausted_counter_refuses_lease (s : JobAttemptState) (t : FencingToken)
    (lid : LeaseId) (rid : RunnerId) (i e : UnixMillis) :
  attempt_lifecycle s = Queued → current_fencing_token s = Some t →
  bget t = FencingToken_MAX →
  acquire_lease lid rid i e s = (s, Err (AttemptIdentifier FencingTokenExhausted)).
Proof.
  intros Hq Ht Hmax. unfold acquire_lease. unfold_monad. rewrite Hq, Ht; simpl.
  unfold fencing_token_checked_next, checked_add. rewrite Hmax.
  by vm_compute.
Qed.

(** Successful transitions of a history in which nothing is requeued. *)
Fixpoint count_transitions (moves : list (LeaseGuard * JobLifecycle))
    (s : JobAttemptState) : JobAttemptState * nat :=
  match moves with
  | [] => (s, 0%nat)
  | (g, next) :: moves =>
      let '(s', r) := apply_transition g next s in
      let '(s'', k) := count_transitions moves s' in
      (s'', if is_ok r then S k else k)
  end.

(** One lease makes bounded progress. In a history of transitions that
    never requeues, however many are requested, at most six succeed, and
    each success moves the lifecycle strictly forward. *)
Lemma transitions_without_requeue_bounded (moves : list (LeaseGuard * JobLifecycle))
    (s s' : JobAttemptState) (k : nat) :
  Forall (λ m, m.2 ≠ Queued) moves →
  count_transitions moves s = (s', k) →
  (lifecycle_rank (attempt_lifecycle s) + k <= lifecycle_rank (attempt_lifecycle s') <= 6)%nat.
Proof.
  revert s k. induction moves as [|[g next] moves IH]; intros s k Hall; simpl.
  - intros [= <- <-]. destruct (attempt_lifecycle s); simpl; lia.
  - apply Forall_cons in Hall as [Hnext Hall]; simpl in Hnext.
    destruct (apply_transition g next s) as [s1 [u|e]] eqn:E1;
      destruct (count_transitions moves s1) as [s2 k2] eqn:E2; intros [= <- <-].
    + apply apply_transition_Ok in E1 as (_ & Hvt & ->).
      apply IH in E2; [|done]. simpl in E2.
      apply validate_transition_rank in Hvt as [?|Hvt]; [done|]. lia.
    + rewrite (apply_transition_atomic _ _ _ _ _ E1) in E2.
      by apply IH in E2.
Qed.

(** ** Witnesses *)

Definition demo_number : AttemptNumber := @MkBounded 1 u32_max 1 I.
Definition demo_attempt : JobAttemptState := attempt_new 7 8 demo_number.
Definition demo_token (z : Z) (H : Is_true ((1 <=? z) && (z <=? FencingToken_MAX))) :
  FencingToken := @MkBounded 1 FencingToken_MAX z H.
Definition demo_guard1 : LeaseGuard := MkLeaseGuard 100 (demo_token 1 I).
Definition demo_before : list attempt_op :=
  [OpAcquire 100 1 0 10; OpTransition demo_guard1 Preparing].
Definition demo_after : list attempt_op :=
  [OpTransition demo_guard1 Queued; OpAcquire 200 2 20 30].
Definition demo_lease : Lease := MkLease 1 100 7 1 (demo_token 1 I) 0 10.
Definition demo_leased : JobAttemptState := (run_ops [OpAcquire 100 1 0 10] demo_attempt).1.

Lemma superseded_lease_fenced_out_witness :
  ∃ e, (∀ next,
    apply_transition (lease_guard demo_lease) next
      (run_ops demo_after (run_ops demo_before demo_attempt).1).1 =
    ((run_ops demo_after (run_ops demo_before demo_attempt).1).1, Err (AttemptFence e))).
Proof.
  destruct (superseded_lease_fenced_out 7 8 demo_number demo_before demo_after demo_lease)
    as (e & He & _).
  - vm_compute. apply list_elem_of_here.
  - vm_compute. discriminate.
  - exists e. exact He.
Defined.

Lemma failed_operations_change_nothing_witness :
  (run_op (OpTransition demo_guard1 Running) demo_attempt).1 = demo_attempt.
Proof.
  eapply (failed_operations_change_nothing (OpTransition demo_guard1 Running)).
  vm_compute. reflexivity.
Defined.

