(* ===== verification/Capability.v ===== *)
(** * Runner capabilities and job requirements

    Models [crates/automata-ci-core/src/capability/]: platform facts,
    versioned feature identifiers, environment profiles, resource capacities,
    allocations and policies, quantity parsing, runner advertisements, job
    requirements with their builders, and the matching of the two. Also the
    SHA-256 digest type of [digest.rs] that profiles carry. *)

From S2P Require Import Prelude Text Execution.
Open Scope Z_scope.

(** ** Digests ([digest.rs]) *)

Definition SHA256_DIGEST_BYTES : Z := 32.
Definition SHA256_DIGEST_HEX_LENGTH : Z := SHA256_DIGEST_BYTES * 2.

(** Thirty-two bytes. *)
Abbreviation Sha256Digest := (list Z) (only parsing).

Inductive Sha256DigestError :=
| DigestInvalidLength (expected received : Z)
| DigestInvalidHex (index : Z).

Definition hex_nibble (byte : Z) : option Z :=
  if in_range 48 57 byte then Some (byte - 48)
  else if in_range 97 102 byte then Some (byte - 97 + 10)
  else if in_range 65 70 byte then Some (byte - 65 + 10)
  else None.

(** The loop over [chunks_exact(2)], from pair [index] on. *)
Fixpoint digest_pairs (index : Z) (bytes : list Z) : result Sha256DigestError (list Z) :=
  match bytes with
  | hi :: lo :: rest =>
      high ← ok_or (hex_nibble hi) (DigestInvalidHex (index * 2));
      low ← ok_or (hex_nibble lo) (DigestInvalidHex (index * 2 + 1));
      tail ← digest_pairs (index + 1) rest;
      Ok (Z.lor (Z.shiftl high 4) low :: tail)
  | _ => Ok []
  end.

Definition digest_from_str (value : str) : result Sha256DigestError Sha256Digest :=
  if negb (str_len value =? SHA256_DIGEST_HEX_LENGTH) then
    Err (DigestInvalidLength SHA256_DIGEST_HEX_LENGTH (str_len value))
  else digest_pairs 0 (as_bytes value).

Definition hex_digit (n : Z) : Z := if n <? 10 then 48 + n else 97 + (n - 10).

(** [Display]: two lower-case hexadecimal digits per byte. *)
Definition digest_to_string (self : Sha256Digest) : str :=
  self ≫= λ byte, [hex_digit (Z.shiftr byte 4); hex_digit (Z.land byte 15)].

(** ** Platform ([capability/platform.rs]) *)

Inductive OperatingSystem := Linux | Windows | Macos | OtherOperatingSystem (name : str).
Inductive Architecture := X86_64 | Aarch64 | OtherArchitecture (name : str).

#[export] Instance operating_system_eq_dec : EqDecision OperatingSystem.
Proof. solve_decision. Defined.
#[export] Instance architecture_eq_dec : EqDecision Architecture.
Proof. solve_decision. Defined.

Record RunnerPlatform := MkRunnerPlatform {
  operating_system : OperatingSystem;
  architecture : Architecture;
}.

#[export] Instance runner_platform_eq_dec : EqDecision RunnerPlatform.
Proof. solve_decision. Defined.

Inductive IsolationLevel := Process | SharedKernel | VirtualMachine.

#[export] Instance isolation_level_eq_dec : EqDecision IsolationLevel.
Proof. solve_decision. Defined.

Definition isolation_rank (l : IsolationLevel) : Z :=
  match l with Process => 0 | SharedKernel => 1 | VirtualMachine => 2 end.

#[export] Instance ord_isolation_level : Ord IsolationLevel :=
  ord_inj isolation_rank ltac:(by intros [] []).

(** ** Feature identifiers ([capability/feature.rs]) *)

Definition MAX_CAPABILITY_ID_LENGTH : Z := 128.

Inductive CapabilityIdError :=
| CapabilityIdEmpty
| CapabilityIdTooLong (max : Z)
| CapabilityIdNonAscii
| CapabilityIdInvalidNamespace
| CapabilityIdInvalidName
| CapabilityIdInvalidVersion.

Definition is_identifier_component (component : str) : bool :=
  let bytes := as_bytes component in
  match bytes, last bytes with
  | first :: _, Some last =>
      is_ascii_lowercase first &&
      (is_ascii_lowercase last || is_ascii_digit last) &&
      forallb (λ byte, is_ascii_lowercase byte || is_ascii_digit byte || (byte =? 45)) bytes
  | _, _ => false
  end.

Definition validate_capability_id (value : str) : result CapabilityIdError unit :=
  if str_is_empty value then Err CapabilityIdEmpty
  else if MAX_CAPABILITY_ID_LENGTH <? str_len value then
    Err (CapabilityIdTooLong MAX_CAPABILITY_ID_LENGTH)
  else if negb (str_is_ascii value) then Err CapabilityIdNonAscii
  else
    '(qualified_name, version) ← ok_or (rsplit_once (lit "@v") value)
                                   CapabilityIdInvalidVersion;
    if str_is_empty version || starts_with 48 version ||
       negb (forallb is_ascii_digit version) ||
       bool_decide (parse_uint u16_max version = None)
    then Err CapabilityIdInvalidVersion
    else
      '(namespace, name) ← ok_or (split_once 47 qualified_name) CapabilityIdInvalidNamespace;
      if str_is_empty namespace ||
         existsb (λ component, negb (is_identifier_component component)) (split 46 namespace)
      then Err CapabilityIdInvalidNamespace
      else if negb (is_identifier_component name) then Err CapabilityIdInvalidName
      else Ok tt.

(** [CapabilityId::new]: the identifier is the validated text itself. *)
Definition capability_id_new (value : str) : result CapabilityIdError str :=
  _ ← validate_capability_id value; Ok value.

(** The accessors unwrap with [expect]: [None] is the panic. *)
Definition capability_id_namespace (self : str) : option str :=
  '(namespace, _) ← split_once 47 self; Some namespace.
Definition capability_id_name (self : str) : option str :=
  '(_, qualified_name) ← split_once 47 self;
  '(name, _) ← rsplit_once (lit "@v") qualified_name; Some name.
Definition capability_id_major_version (self : str) : option Z :=
  '(_, version) ← rsplit_once (lit "@v") self; parse_uint u16_max version.

Abbreviation SandboxFeature := (list Z) (only parsing).
Abbreviation ContainerFeature := (list Z) (only parsing).
Abbreviation RunnerFeature := (list Z) (only parsing).

Definition WINDOWS_HYPERV_CONTAINER : SandboxFeature :=
  Eval vm_compute in lit "automata.core/windows-hyperv-container@v1".

(** Selectors ([capability/selector.rs]) are canonical text; here, the value
    a constructed label or group holds. *)
Abbreviation RunnerLabel := (list Z) (only parsing).
Abbreviation RunnerGroup := (list Z) (only parsing).

(** ** Environment profiles ([capability/environment.rs]) *)

Definition MAX_ENVIRONMENT_PROFILE_ID_LENGTH : Z := 128.

Inductive EnvironmentProfileError :=
| ProfileEmpty
| ProfileTooLong (maximum : Z)
| ProfileNonAscii
| ProfileMissingNamespace
| ProfileInvalidNamespace
| ProfileInvalidName.

Definition valid_component (value : str) (allow_leading_digit : bool) : bool :=
  let bytes := as_bytes value in
  match bytes, last bytes with
  | first :: _, Some last =>
      (is_ascii_lowercase first || (allow_leading_digit && is_ascii_digit first)) &&
      (is_ascii_lowercase last || is_ascii_digit last) &&
      forallb (λ byte, is_ascii_lowercase byte || is_ascii_digit byte || (byte =? 45)) bytes
  | _, _ => false
  end.

Definition validate_profile_id (value : str) : result EnvironmentProfileError unit :=
  if str_is_empty value then Err ProfileEmpty
  else if MAX_ENVIRONMENT_PROFILE_ID_LENGTH <? str_len value then
    Err (ProfileTooLong MAX_ENVIRONMENT_PROFILE_ID_LENGTH)
  else if negb (str_is_ascii value) then Err ProfileNonAscii
  else
    '(namespace, name) ← ok_or (split_once 47 value) ProfileMissingNamespace;
    if str_is_empty namespace ||
       existsb (λ part, negb (valid_component part false)) (split 46 namespace)
    then Err ProfileInvalidNamespace
    else if str_is_empty name || str_contains name 47 ||
            existsb (λ part, negb (valid_component part true)) (split 46 name)
    then Err ProfileInvalidName
    else Ok tt.

Record EnvironmentProfile := MkEnvironmentProfile {
  profile_id : str;
  profile_digest : Sha256Digest;
}.

#[export] Instance environment_profile_eq_dec : EqDecision EnvironmentProfile.
Proof. solve_decision. Defined.

(** The derived order: by identifier, then by digest. *)
#[export] Instance ord_environment_profile : Ord EnvironmentProfile :=
  ord_inj (λ p, (profile_id p, profile_digest p)) ltac:(intros [] [] [=]; by subst).

(** ** Resources ([capability/resource.rs]) *)

Record ResourceCapacity := MkResourceCapacity {
  cpu_millis : Z;
  memory_bytes : Z;
  ephemeral_disk_bytes : Z;
  gpu_count : Z;
}.

#[export] Instance resource_capacity_eq_dec : EqDecision ResourceCapacity.
Proof. solve_decision. Defined.

(** [ResourceCapacity::default()]. *)
Definition resource_capacity_default : ResourceCapacity := MkResourceCapacity 0 0 0 0.

Definition fits_within (self available : ResourceCapacity) : bool :=
  (cpu_millis self <=? cpu_millis available) &&
  (memory_bytes self <=? memory_bytes available) &&
  (ephemeral_disk_bytes self <=? ephemeral_disk_bytes available) &&
  (gpu_count self <=? gpu_count available).

Definition capacity_checked_add (self other : ResourceCapacity) : option ResourceCapacity :=
  cpu ← checked_add u32_max (cpu_millis self) (cpu_millis other);
  memory ← checked_add u64_max (memory_bytes self) (memory_bytes other);
  disk ← checked_add u64_max (ephemeral_disk_bytes self) (ephemeral_disk_bytes other);
  gpu ← checked_add u16_max (gpu_count self) (gpu_count other);
  Some (MkResourceCapacity cpu memory disk gpu).

Definition capacity_checked_sub (self other : ResourceCapacity) : option ResourceCapacity :=
  cpu ← checked_sub (cpu_millis self) (cpu_millis other);
  memory ← checked_sub (memory_bytes self) (memory_bytes other);
  disk ← checked_sub (ephemeral_disk_bytes self) (ephemeral_disk_bytes other);
  gpu ← checked_sub (gpu_count self) (gpu_count other);
  Some (MkResourceCapacity cpu memory disk gpu).

Inductive ResourceAllocationError :=
| CpuRequired
| MemoryRequired
| RequestExceedsLimit
| GpuRequestLimitMismatch.

Record JobResourceAllocation := MkJobResourceAllocation {
  requests : ResourceCapacity;
  limits : ResourceCapacity;
}.

#[export] Instance job_resource_allocation_eq_dec : EqDecision JobResourceAllocation.
Proof. solve_decision. Defined.

Definition job_resource_allocation_new (requests limits : ResourceCapacity) :
    result ResourceAllocationError JobResourceAllocation :=
  if (cpu_millis requests =? 0) || (cpu_millis limits =? 0) then Err CpuRequired
  else if (memory_bytes requests =? 0) || (memory_bytes limits =? 0) then Err MemoryRequired
  else if negb (fits_within requests limits) then Err RequestExceedsLimit
  else if negb (gpu_count requests =? gpu_count limits) then Err GpuRequestLimitMismatch
  else Ok (MkJobResourceAllocation requests limits).

Inductive ResourcePolicyError :=
| RequiredDimensionIsZero
| DefaultsOutsideBounds
| RequestBelowMinimum
| LimitAboveMaximum.

Record JobResourcePolicy := MkJobResourcePolicy {
  policy_defaults : JobResourceAllocation;
  minimum_requests : ResourceCapacity;
  maximum_limits : ResourceCapacity;
}.

Definition job_resource_policy_new (defaults : JobResourceAllocation)
    (minimum_requests maximum_limits : ResourceCapacity) :
    result ResourcePolicyError JobResourcePolicy :=
  if (cpu_millis minimum_requests =? 0) || (memory_bytes minimum_requests =? 0) ||
     (cpu_millis maximum_limits =? 0) || (memory_bytes maximum_limits =? 0)
  then Err RequiredDimensionIsZero
  else if negb (fits_within minimum_requests (requests defaults)) ||
          negb (fits_within (limits defaults) maximum_limits) ||
          (gpu_count maximum_limits <? gpu_count minimum_requests)
  then Err DefaultsOutsideBounds
  else Ok (MkJobResourcePolicy defaults minimum_requests maximum_limits).

Definition validate_allocation (self : JobResourcePolicy)
    (allocation : JobResourceAllocation) : result ResourcePolicyError unit :=
  if negb (fits_within (minimum_requests self) (requests allocation)) then
    Err RequestBelowMinimum
  else if negb (fits_within (limits allocation) (maximum_limits self)) then
    Err LimitAboveMaximum
  else Ok tt.

(** *** Quantities *)

Inductive ResourceQuantityError :=
| InvalidCpu
| CpuOverflow
| InvalidStorage
| StorageOverflow.

#[export] Instance resource_quantity_error_eq_dec : EqDecision ResourceQuantityError.
Proof. solve_decision. Defined.

(** [value.bytes().all(|byte| byte.is_ascii_digit())]. *)
Definition all_digits (value : str) : bool := forallb is_ascii_digit (as_bytes value).

Definition parse_positive_digits (max : Z) (value : str) : option Z :=
  if negb (str_is_empty value) && all_digits value then
    n ← parse_uint max value; if 0 <? n then Some n else None
  else None.
Definition parse_positive_digits_u32 (value : str) : option Z :=
  parse_positive_digits u32_max value.
Definition parse_positive_digits_u64 (value : str) : option Z :=
  parse_positive_digits u64_max value.

(** The branch for a value without the [m] suffix. *)
Definition parse_cpu_decimal (value : str) : result ResourceQuantityError Z :=
  match split 46 value with
  | [] => Err InvalidCpu
  | whole :: rest =>
      let fraction := head rest in
      if bool_decide (is_Some (head (tail rest))) || str_is_empty whole ||
         negb (all_digits whole)
      then Err InvalidCpu
      else
        whole ← ok_or (parse_uint u32_max whole) CpuOverflow;
        fractional_millis ←
          match fraction with
          | None => Ok 0
          | Some fraction =>
              if negb (str_is_empty fraction) && (str_len fraction <=? 3) &&
                 all_digits fraction
              then
                let width := str_len fraction in
                fraction ← ok_or (parse_uint u32_max fraction) InvalidCpu;
                Ok (fraction * 10 ^ (3 - width))
              else Err InvalidCpu
          end;
        ok_or (scaled ← checked_mul u32_max whole 1000;
               checked_add u32_max scaled fractional_millis) CpuOverflow
  end.

Definition parse_cpu_quantity (value : str) : result ResourceQuantityError Z :=
  let value := trim value in
  if str_is_empty value then Err InvalidCpu
  else
    millis ←
      match strip_suffix (lit "m") value with
      | Some number => ok_or (parse_positive_digits_u32 number) InvalidCpu
      | None => parse_cpu_decimal value
      end;
    if millis =? 0 then Err InvalidCpu else Ok millis.

Definition storage_suffixes : list (str * Z) :=
  [(lit "Ei", 2 ^ 60); (lit "Pi", 2 ^ 50); (lit "Ti", 2 ^ 40); (lit "Gi", 2 ^ 30);
   (lit "Mi", 2 ^ 20); (lit "Ki", 2 ^ 10); (lit "E", 10 ^ 18); (lit "P", 10 ^ 15);
   (lit "T", 10 ^ 12); (lit "G", 10 ^ 9); (lit "M", 10 ^ 6); (lit "K", 10 ^ 3)].

(** [find_map] over the suffix table, then [unwrap_or((value, 1))]. *)
Fixpoint split_storage_suffix (suffixes : list (str * Z)) (value : str) : str * Z :=
  match suffixes with
  | [] => (value, 1)
  | (suffix, multiplier) :: suffixes =>
      match strip_suffix suffix value with
      | Some number => (number, multiplier)
      | None => split_storage_suffix suffixes value
      end
  end.

Definition parse_storage_quantity (value : str) : result ResourceQuantityError Z :=
  let value := trim value in
  let '(number, multiplier) := split_storage_suffix storage_suffixes value in
  number ← ok_or (parse_positive_digits_u64 number) InvalidStorage;
  ok_or (checked_mul u64_max number multiplier) StorageOverflow.

Record SandboxCapabilities := MkSandboxCapabilities {
  maximum_isolation : IsolationLevel;
  sandbox_features : BTreeSet SandboxFeature;
}.

Definition sandbox_capabilities_new (isolation : IsolationLevel)
    (features : list SandboxFeature) : SandboxCapabilities :=
  MkSandboxCapabilities isolation (bset_from features).

Definition sandbox_capabilities_default : SandboxCapabilities :=
  MkSandboxCapabilities Process bset_empty.

(** [ContainerCapabilities]: one field, the feature set. *)
Definition container_capabilities_new (features : list ContainerFeature) :
    BTreeSet ContainerFeature := bset_from features.

(** ** Advertisements ([capability/advertisement.rs]) *)

Record RunnerCapabilities := MkRunnerCapabilities {
  cap_schema_version : Z;
  cap_runner_id : RunnerId;
  cap_platform : RunnerPlatform;
  cap_labels : BTreeSet RunnerLabel;
  cap_groups : BTreeSet RunnerGroup;
  cap_max_parallel_jobs : Z;
  cap_resources_per_job : ResourceCapacity;
  cap_sandbox : SandboxCapabilities;
  cap_containers : BTreeSet ContainerFeature;
  cap_features : BTreeSet RunnerFeature;
  cap_environment_profiles : BTreeSet EnvironmentProfile;
}.

Inductive CapabilityValidationError :=
| CapabilitiesUnsupportedSchema (supported received : Z)
| CapabilitiesNoJobSlots.

Definition runner_capabilities_new (runner_id : RunnerId) (platform : RunnerPlatform) :
    RunnerCapabilities :=
  MkRunnerCapabilities CORE_SCHEMA_VERSION runner_id platform bset_empty bset_empty 1
    resource_capacity_default sandbox_capabilities_default bset_empty bset_empty bset_empty.

Definition with_labels (labels : list RunnerLabel) (c : RunnerCapabilities) : RunnerCapabilities :=
  let '(MkRunnerCapabilities sv rid p _ gs mp rs sb ct fs es) := c in
  MkRunnerCapabilities sv rid p (bset_from labels) gs mp rs sb ct fs es.
Definition with_groups (groups : list RunnerGroup) (c : RunnerCapabilities) : RunnerCapabilities :=
  let '(MkRunnerCapabilities sv rid p ls _ mp rs sb ct fs es) := c in
  MkRunnerCapabilities sv rid p ls (bset_from groups) mp rs sb ct fs es.
Definition with_max_parallel_jobs (slots : Z) (c : RunnerCapabilities) :
    result CapabilityValidationError RunnerCapabilities :=
  if slots =? 0 then Err CapabilitiesNoJobSlots
  else
    let '(MkRunnerCapabilities sv rid p ls gs _ rs sb ct fs es) := c in
    Ok (MkRunnerCapabilities sv rid p ls gs slots rs sb ct fs es).
Definition with_resources_per_job (resources : ResourceCapacity) (c : RunnerCapabilities) :
    RunnerCapabilities :=
  let '(MkRunnerCapabilities sv rid p ls gs mp _ sb ct fs es) := c in
  MkRunnerCapabilities sv rid p ls gs mp resources sb ct fs es.
Definition with_sandbox (sandbox : SandboxCapabilities) (c : RunnerCapabilities) :
    RunnerCapabilities :=
  let '(MkRunnerCapabilities sv rid p ls gs mp rs _ ct fs es) := c in
  MkRunnerCapabilities sv rid p ls gs mp rs sandbox ct fs es.
Definition with_containers (containers : BTreeSet ContainerFeature) (c : RunnerCapabilities) :
    RunnerCapabilities :=
  let '(MkRunnerCapabilities sv rid p ls gs mp rs sb _ fs es) := c in
  MkRunnerCapabilities sv rid p ls gs mp rs sb containers fs es.
Definition with_features (features : list RunnerFeature) (c : RunnerCapabilities) :
    RunnerCapabilities :=
  let '(MkRunnerCapabilities sv rid p ls gs mp rs sb ct _ es) := c in
  MkRunnerCapabilities sv rid p ls gs mp rs sb ct (bset_from features) es.
Definition with_environment_profiles (profiles : list EnvironmentProfile)
    (c : RunnerCapabilities) : RunnerCapabilities :=
  let '(MkRunnerCapabilities sv rid p ls gs mp rs sb ct fs _) := c in
  MkRunnerCapabilities sv rid p ls gs mp rs sb ct fs (bset_from profiles).

Definition capabilities_validate (self : RunnerCapabilities) :
    result CapabilityValidationError unit :=
  if negb (cap_schema_version self =? CORE_SCHEMA_VERSION) then
    Err (CapabilitiesUnsupportedSchema CORE_SCHEMA_VERSION (cap_schema_version self))
  else if cap_max_parallel_jobs self =? 0 then Err CapabilitiesNoJobSlots
  else Ok tt.

(** ** Requirements ([capability/requirement.rs]) *)

Definition RUNNER_REQUIREMENTS_SCHEMA_VERSION : Z := 1.

Record RunnerRequirements := MkRunnerRequirements {
  req_schema_version : Z;
  req_labels : BTreeSet RunnerLabel;
  req_eligible_groups : BTreeSet RunnerGroup;
  req_operating_system : option OperatingSystem;
  req_architecture : option Architecture;
  req_minimum_resources : ResourceCapacity;
  req_resource_allocation : option JobResourceAllocation;
  req_minimum_isolation : IsolationLevel;
  req_sandbox_features : BTreeSet SandboxFeature;
  req_container_features : BTreeSet ContainerFeature;
  req_features : BTreeSet RunnerFeature;
  req_environment_profile : option EnvironmentProfile;
}.

Definition runner_requirements_default : RunnerRequirements :=
  MkRunnerRequirements RUNNER_REQUIREMENTS_SCHEMA_VERSION bset_empty bset_empty None None
    resource_capacity_default None Process bset_empty bset_empty bset_empty None.

Definition req_with_labels (labels : list RunnerLabel) (r : RunnerRequirements) :
    RunnerRequirements :=
  let '(MkRunnerRequirements sv _ gs os ar mr al iso sf cf fs ep) := r in
  MkRunnerRequirements sv (bset_from labels) gs os ar mr al iso sf cf fs ep.
Definition req_with_eligible_groups (groups : list RunnerGroup) (r : RunnerRequirements) :
    RunnerRequirements :=
  let '(MkRunnerRequirements sv ls _ os ar mr al iso sf cf fs ep) := r in
  MkRunnerRequirements sv ls (bset_from groups) os ar mr al iso sf cf fs ep.
Definition req_with_windows_hyperv_container (r : RunnerRequirements) : RunnerRequirements :=
  let '(MkRunnerRequirements sv ls gs _ ar mr al iso sf cf fs ep) := r in
  MkRunnerRequirements sv ls gs (Some Windows) ar mr al (ord_max iso VirtualMachine)
    (bset_insert WINDOWS_HYPERV_CONTAINER sf) cf fs ep.
Definition req_with_operating_system (os : OperatingSystem) (r : RunnerRequirements) :
    RunnerRequirements :=
  if bool_decide (os = Windows) then req_with_windows_hyperv_container r
  else
    let '(MkRunnerRequirements sv ls gs _ ar mr al iso sf cf fs ep) := r in
    MkRunnerRequirements sv ls gs (Some os) ar mr al iso
      (bset_remove WINDOWS_HYPERV_CONTAINER sf) cf fs ep.
Definition req_with_architecture (a : Architecture) (r : RunnerRequirements) :
    RunnerRequirements :=
  let '(MkRunnerRequirements sv ls gs os _ mr al iso sf cf fs ep) := r in
  MkRunnerRequirements sv ls gs os (Some a) mr al iso sf cf fs ep.
Definition req_with_minimum_resources (resources : ResourceCapacity) (r : RunnerRequirements) :
    RunnerRequirements :=
  let '(MkRunnerRequirements sv ls gs os ar _ _ iso sf cf fs ep) := r in
  MkRunnerRequirements sv ls gs os ar resources None iso sf cf fs ep.
Definition req_with_resource_allocation (a : JobResourceAllocation) (r : RunnerRequirements) :
    RunnerRequirements :=
  let '(MkRunnerRequirements sv ls gs os ar _ _ iso sf cf fs ep) := r in
  MkRunnerRequirements sv ls gs os ar (requests a) (Some a) iso sf cf fs ep.
Definition req_with_minimum_isolation (isolation : IsolationLevel) (r : RunnerRequirements) :
    RunnerRequirements :=
  let '(MkRunnerRequirements sv ls gs os ar mr al _ sf cf fs ep) := r in
  MkRunnerRequirements sv ls gs os ar mr al
    (match os with Some Windows => VirtualMachine | _ => isolation end) sf cf fs ep.
Definition req_with_sandbox_features (features : list SandboxFeature)
    (r : RunnerRequirements) : RunnerRequirements :=
  let '(MkRunnerRequirements sv ls gs os ar mr al iso _ cf fs ep) := r in
  let r' := MkRunnerRequirements sv ls gs os ar mr al iso (bset_from features) cf fs ep in
  if bset_contains (bset_from features) WINDOWS_HYPERV_CONTAINER then
    req_with_windows_hyperv_container r'
  else if bool_decide (os = Some Windows) then
    MkRunnerRequirements sv ls gs os ar mr al iso
      (bset_insert WINDOWS_HYPERV_CONTAINER (bset_from features)) cf fs ep
  else r'.
Definition req_with_container_features (features : list ContainerFeature)
    (r : RunnerRequirements) : RunnerRequirements :=
  let '(MkRunnerRequirements sv ls gs os ar mr al iso sf _ fs ep) := r in
  MkRunnerRequirements sv ls gs os ar mr al iso sf (bset_from features) fs ep.
Definition req_with_features (features : list RunnerFeature) (r : RunnerRequirements) :
    RunnerRequirements :=
  let '(MkRunnerRequirements sv ls gs os ar mr al iso sf cf _ ep) := r in
  MkRunnerRequirements sv ls gs os ar mr al iso sf cf (bset_from features) ep.
Definition req_with_environment_profile (p : EnvironmentProfile) (r : RunnerRequirements) :
    RunnerRequirements :=
  let '(MkRunnerRequirements sv ls gs os ar mr al iso sf cf fs _) := r in
  MkRunnerRequirements sv ls gs os ar mr al iso sf cf fs (Some p).

Definition windows_hyperv_requirement_is_valid (os : option OperatingSystem)
    (minimum_isolation : IsolationLevel) (sandbox_features : BTreeSet SandboxFeature) : bool :=
  let requires_hyperv := bset_contains sandbox_features WINDOWS_HYPERV_CONTAINER in
  match os with
  | Some Windows => leb VirtualMachine minimum_isolation && requires_hyperv
  | Some (Linux | Macos | OtherOperatingSystem _) | None => negb requires_hyperv
  end.

(** The checks of [Deserialize] on the decoded fields. *)
Definition requirements_admit (value : RunnerRequirements) : bool :=
  (req_schema_version value =? RUNNER_REQUIREMENTS_SCHEMA_VERSION) &&
  windows_hyperv_requirement_is_valid (req_operating_system value)
    (req_minimum_isolation value) (req_sandbox_features value).

(** The builder calls, so that a sequence of them can be quantified over. *)
Inductive req_builder :=
| WithLabels (l : list RunnerLabel)
| WithEligibleGroups (g : list RunnerGroup)
| WithOperatingSystem (os : OperatingSystem)
| WithWindowsHypervContainer
| WithArchitecture (a : Architecture)
| WithMinimumResources (c : ResourceCapacity)
| WithResourceAllocation (a : JobResourceAllocation)
| WithMinimumIsolation (i : IsolationLevel)
| WithSandboxFeatures (f : list SandboxFeature)
| WithContainerFeatures (f : list ContainerFeature)
| WithFeatures (f : list RunnerFeature)
| WithEnvironmentProfile (p : EnvironmentProfile).

Definition req_build (b : req_builder) : RunnerRequirements → RunnerRequirements :=
  match b with
  | WithLabels l => req_with_labels l
  | WithEligibleGroups g => req_with_eligible_groups g
  | WithOperatingSystem os => req_with_operating_system os
  | WithWindowsHypervContainer => req_with_windows_hyperv_container
  | WithArchitecture a => req_with_architecture a
  | WithMinimumResources c => req_with_minimum_resources c
  | WithResourceAllocation a => req_with_resource_allocation a
  | WithMinimumIsolation i => req_with_minimum_isolation i
  | WithSandboxFeatures f => req_with_sandbox_features f
  | WithContainerFeatures f => req_with_container_features f
  | WithFeatures f => req_with_features f
  | WithEnvironmentProfile p => req_with_environment_profile p
  end.

(** ** Matching ([capability/matching.rs]) *)

Inductive ResourceKind := CpuMillis | MemoryBytes | EphemeralDiskBytes | GpuCount.

Inductive RequirementMismatch :=
| CapabilitiesSchemaVersion (supported received : Z)
| RequirementsSchemaVersion (supported received : Z)
| MissingLabel (label : RunnerLabel)
| NoEligibleGroup (eligible : BTreeSet RunnerGroup)
| MismatchOperatingSystem (required available : OperatingSystem)
| MismatchArchitecture (required available : Architecture)
| NoJobSlots
| InsufficientResource (resource : ResourceKind) (required available : Z)
| MismatchIsolation (required available : IsolationLevel)
| MissingSandboxFeature (feature : SandboxFeature)
| MissingContainerFeature (feature : ContainerFeature)
| MissingRunnerFeature (feature : RunnerFeature)
| MismatchEnvironmentProfile (required : EnvironmentProfile)
    (available : BTreeSet EnvironmentProfile).

Definition has_all_labels (self : RunnerCapabilities) (required : BTreeSet RunnerLabel) : bool :=
  bset_is_subset required (cap_labels self).

(** [if c { mismatches.push(m) }]. *)
Definition push_if (c : bool) (m : RequirementMismatch) : list RequirementMismatch :=
  if c then [m] else [].

(** [for x in required.difference(available) { mismatches.push(mk(x)) }]. *)
Definition push_missing {A : Type} `{!Ord A} (mk : A → RequirementMismatch)
    (required available : BTreeSet A) : list RequirementMismatch :=
  mk <$> elems (bset_difference required available).

Definition compare_resource (resource : ResourceKind) (required available : Z) :
    list RequirementMismatch :=
  push_if (available <? required) (InsufficientResource resource required available).

Definition compare_environment_profile (capabilities : RunnerCapabilities)
    (requirements : RunnerRequirements) : list RequirementMismatch :=
  match req_environment_profile requirements with
  | Some required =>
      push_if (negb (bset_contains (cap_environment_profiles capabilities) required))
        (MismatchEnvironmentProfile required (cap_environment_profiles capabilities))
  | None => []
  end.

(** The resources the runner must be able to enforce: the limits of an explicit
    allocation, or else the minimum. *)
Definition enforceable (requirements : RunnerRequirements) : ResourceCapacity :=
  match req_resource_allocation requirements with
  | Some allocation => limits allocation
  | None => req_minimum_resources requirements
  end.

Definition mismatches (self : RunnerCapabilities) (requirements : RunnerRequirements) :
    list RequirementMismatch :=
  push_if (negb (cap_schema_version self =? CORE_SCHEMA_VERSION))
    (CapabilitiesSchemaVersion CORE_SCHEMA_VERSION (cap_schema_version self)) ++
  push_if (negb (req_schema_version requirements =? RUNNER_REQUIREMENTS_SCHEMA_VERSION))
    (RequirementsSchemaVersion RUNNER_REQUIREMENTS_SCHEMA_VERSION
       (req_schema_version requirements)) ++
  push_missing MissingLabel (req_labels requirements) (cap_labels self) ++
  push_if (negb (bset_is_empty (req_eligible_groups requirements)) &&
           bset_is_disjoint (req_eligible_groups requirements) (cap_groups self))
    (NoEligibleGroup (req_eligible_groups requirements)) ++
  match req_operating_system requirements with
  | Some required =>
      push_if (negb (bool_decide (required = operating_system (cap_platform self))))
        (MismatchOperatingSystem required (operating_system (cap_platform self)))
  | None => []
  end ++
  match req_architecture requirements with
  | Some required =>
      push_if (negb (bool_decide (required = architecture (cap_platform self))))
        (MismatchArchitecture required (architecture (cap_platform self)))
  | None => []
  end ++
  push_if (cap_max_parallel_jobs self =? 0) NoJobSlots ++
  compare_resource CpuMillis (cpu_millis (enforceable requirements))
    (cpu_millis (cap_resources_per_job self)) ++
  compare_resource MemoryBytes (memory_bytes (enforceable requirements))
    (memory_bytes (cap_resources_per_job self)) ++
  compare_resource EphemeralDiskBytes (ephemeral_disk_bytes (enforceable requirements))
    (ephemeral_disk_bytes (cap_resources_per_job self)) ++
  compare_resource GpuCount (gpu_count (enforceable requirements))
    (gpu_count (cap_resources_per_job self)) ++
  push_if (ltb (maximum_isolation (cap_sandbox self)) (req_minimum_isolation requirements))
    (MismatchIsolation (req_minimum_isolation requirements)
       (maximum_isolation (cap_sandbox self))) ++
  push_missing MissingSandboxFeature (req_sandbox_features requirements)
    (sandbox_features (cap_sandbox self)) ++
  push_missing MissingContainerFeature (req_container_features requirements)
    (cap_containers self) ++
  push_missing MissingRunnerFeature (req_features requirements) (cap_features self) ++
  compare_environment_profile self requirements.

Definition satisfies (self : RunnerCapabilities) (requirements : RunnerRequirements) :
    result (list RequirementMismatch) unit :=
  match mismatches self requirements with
  | [] => Ok tt
  | ms => Err ms
  end.

(** ** What matching promises

    One rule per kind of requirement: why a runner cannot take a job. *)

Inductive unmet (c : RunnerCapabilities) (r : RunnerRequirements) :
    RequirementMismatch → Prop :=
| unmet_capabilities_schema :
    cap_schema_version c ≠ CORE_SCHEMA_VERSION →
    unmet c r (CapabilitiesSchemaVersion CORE_SCHEMA_VERSION (cap_schema_version c))
| unmet_requirements_schema :
    req_schema_version r ≠ RUNNER_REQUIREMENTS_SCHEMA_VERSION →
    unmet c r (RequirementsSchemaVersion RUNNER_REQUIREMENTS_SCHEMA_VERSION (req_schema_version r))
| unmet_label (l : RunnerLabel) :
    l ∈ req_labels r → ¬ l ∈ cap_labels c → unmet c r (MissingLabel l)
| unmet_group :
    (∃ g, g ∈ req_eligible_groups r) →
    (∀ g, g ∈ req_eligible_groups r → ¬ g ∈ cap_groups c) →
    unmet c r (NoEligibleGroup (req_eligible_groups r))
| unmet_operating_system (os : OperatingSystem) :
    req_operating_system r = Some os → os ≠ operating_system (cap_platform c) →
    unmet c r (MismatchOperatingSystem os (operating_system (cap_platform c)))
| unmet_architecture (a : Architecture) :
    req_architecture r = Some a → a ≠ architecture (cap_platform c) →
    unmet c r (MismatchArchitecture a (architecture (cap_platform c)))
| unmet_slots : cap_max_parallel_jobs c = 0 → unmet c r NoJobSlots
| unmet_cpu :
    cpu_millis (cap_resources_per_job c) < cpu_millis (enforceable r) →
    unmet c r (InsufficientResource CpuMillis (cpu_millis (enforceable r))
                 (cpu_millis (cap_resources_per_job c)))
| unmet_memory :
    memory_bytes (cap_resources_per_job c) < memory_bytes (enforceable r) →
    unmet c r (InsufficientResource MemoryBytes (memory_bytes (enforceable r))
                 (memory_bytes (cap_resources_per_job c)))
| unmet_disk :
    ephemeral_disk_bytes (cap_resources_per_job c) < ephemeral_disk_bytes (enforceable r) →
    unmet c r (InsufficientResource EphemeralDiskBytes (ephemeral_disk_bytes (enforceable r))
                 (ephemeral_disk_bytes (cap_resources_per_job c)))
| unmet_gpu :
    gpu_count (cap_resources_per_job c) < gpu_count (enforceable r) →
    unmet c r (InsufficientResource GpuCount (gpu_count (enforceable r))
                 (gpu_count (cap_resources_per_job c)))
| unmet_isolation :
    lt (maximum_isolation (cap_sandbox c)) (req_minimum_isolation r) →
    unmet c r (MismatchIsolation (req_minimum_isolation r) (maximum_isolation (cap_sandbox c)))
| unmet_sandbox_feature (f : SandboxFeature) :
    f ∈ req_sandbox_features r → ¬ f ∈ sandbox_features (cap_sandbox c) →
    unmet c r (MissingSandboxFeature f)
| unmet_container_feature (f : ContainerFeature) :
    f ∈ req_container_features r → ¬ f ∈ cap_containers c →
    unmet c r (MissingContainerFeature f)
| unmet_runner_feature (f : RunnerFeature) :
    f ∈ req_features r → ¬ f ∈ cap_features c → unmet c r (MissingRunnerFeature f)
| unmet_environment_profile (p : EnvironmentProfile) :
    req_environment_profile r = Some p → ¬ p ∈ cap_environment_profiles c →
    unmet c r (MismatchEnvironmentProfile p (cap_environment_profiles c)).

#[export] Hint Constructors unmet : automata.

Lemma elem_of_push_if (b : bool) (m n : RequirementMismatch) :
  n ∈ push_if b m ↔ b = true ∧ n = m.
Proof. destruct b; simpl; set_solver. Qed.

Lemma elem_of_push_missing {A : Type} `{!Ord A} (mk : A → RequirementMismatch)
    (s t : BTreeSet A) (n : RequirementMismatch) :
  n ∈ push_missing mk s t ↔ ∃ x, n = mk x ∧ x ∈ s ∧ ¬ x ∈ t.
Proof.
  unfold push_missing. rewrite list_elem_of_fmap.
  setoid_rewrite <- (elem_of_bset_difference _ s t). done.
Qed.

Lemma eligible_group_test (s t : BTreeSet RunnerGroup) :
  negb (bset_is_empty s) && bset_is_disjoint s t = true ↔
  (∃ g, g ∈ s) ∧ (∀ g, g ∈ s → ¬ g ∈ t).
Proof.
  rewrite andb_true_iff, negb_true_iff.
  rewrite <- not_true_iff_false, bset_is_empty_spec.
  rewrite <- not_false_iff_true, bset_is_disjoint_false. split.
  - intros [Hne Hd]. split; [|naive_solver].
    destruct (bset_first s) as [g|] eqn:E; [exists g; by apply (bset_first_Some s g E)|].
    rewrite bset_first_None in E. destruct Hne. apply bset_ext.
    intros x. pose proof (not_elem_of_bset_empty x). naive_solver.
  - intros [[g Hg] Hd]. split; [|naive_solver].
    intros ->. by apply not_elem_of_bset_empty in Hg.
Qed.

Lemma mismatches_complete (c : RunnerCapabilities) (r : RunnerRequirements)
    (m : RequirementMismatch) :
  m ∈ mismatches c r ↔ unmet c r m.
Proof.
  unfold mismatches, compare_resource, compare_environment_profile.
  rewrite !elem_of_app, !elem_of_push_missing, !elem_of_push_if, eligible_group_test,
    ltb_lt, !Z.ltb_lt, !negb_true_iff, !Z.eqb_neq, Z.eqb_eq.
  split.
  - intros H. repeat match type of H with _ ∨ _ => destruct H as [H|H] end.
    all: try (destruct H as (x & -> & H1 & H2); by constructor).
    all: try (destruct H as [H ->]; by constructor).
    all: try (destruct H as [[H1 H2] ->]; by constructor).
    + destruct (req_operating_system r) eqn:E; [|by apply not_elem_of_nil in H].
      apply elem_of_push_if in H as [H ->]. rewrite negb_true_iff, bool_decide_eq_false in H.
      by constructor.
    + destruct (req_architecture r) eqn:E; [|by apply not_elem_of_nil in H].
      apply elem_of_push_if in H as [H ->]. rewrite negb_true_iff, bool_decide_eq_false in H.
      by constructor.
    + destruct (req_environment_profile r) eqn:E; [|by apply not_elem_of_nil in H].
      apply elem_of_push_if in H as [H ->].
      rewrite negb_true_iff, <- not_true_iff_false, bset_contains_spec in H.
      by constructor.
  - destruct 1 as [| | | |os Hos Hne|a Ha Hne| | | | | | | | | |p Hp Hne];
      try solve [repeat first [left; by eauto | right]; by eauto | naive_solver].
    + do 4 right; left. rewrite Hos, elem_of_push_if, negb_true_iff, bool_decide_eq_false. done.
    + do 5 right; left. rewrite Ha, elem_of_push_if, negb_true_iff, bool_decide_eq_false. done.
    + do 15 right. rewrite Hp, elem_of_push_if, negb_true_iff, <- not_true_iff_false,
        bset_contains_spec. done.
Qed.

Lemma satisfies_Ok (c : RunnerCapabilities) (r : RunnerRequirements) :
  satisfies c r = Ok tt ↔ ∀ m, ¬ unmet c r m.
Proof.
  unfold satisfies. setoid_rewrite <- mismatches_complete.
  destruct (mismatches c r) as [|m ms].
  - split; [|done]. intros _ m. apply not_elem_of_nil.
  - split; [done|]. intros H. destruct (H m). apply list_elem_of_here.
Qed.

(** [at_least c c']: the second advertisement offers everything the first does. *)
Record at_least (c c' : RunnerCapabilities) : Prop := {
  al_schema : cap_schema_version c' = cap_schema_version c;
  al_platform : cap_platform c' = cap_platform c;
  al_labels : ∀ l, l ∈ cap_labels c → l ∈ cap_labels c';
  al_groups : ∀ g, g ∈ cap_groups c → g ∈ cap_groups c';
  al_slots : 0 <= cap_max_parallel_jobs c <= cap_max_parallel_jobs c';
  al_resources : fits_within (cap_resources_per_job c) (cap_resources_per_job c') = true;
  al_isolation : le (maximum_isolation (cap_sandbox c)) (maximum_isolation (cap_sandbox c'));
  al_sandbox : ∀ f, f ∈ sandbox_features (cap_sandbox c) → f ∈ sandbox_features (cap_sandbox c');
  al_containers : ∀ f, f ∈ cap_containers c → f ∈ cap_containers c';
  al_features : ∀ f, f ∈ cap_features c → f ∈ cap_features c';
  al_profiles : ∀ p, p ∈ cap_environment_profiles c → p ∈ cap_environment_profiles c';
}.

Lemma fits_within_spec (a b : ResourceCapacity) :
  fits_within a b = true ↔
  cpu_millis a <= cpu_millis b ∧ memory_bytes a <= memory_bytes b ∧
  ephemeral_disk_bytes a <= ephemeral_disk_bytes b ∧ gpu_count a <= gpu_count b.
Proof. unfold fits_within. rewrite !andb_true_iff, !Z.leb_le. tauto. Qed.

Lemma unmet_monotone (c c' : RunnerCapabilities) (r : RunnerRequirements)
    (m : RequirementMismatch) :
  at_least c c' → unmet c' r m → ∃ m', unmet c r m'.
Proof.
  intros [Hs Hp Hl Hg Hj Hr Hi Hsb Hc Hf He] Hu. apply fits_within_spec in Hr.
  destruct Hu; rewrite ?Hs, ?Hp in *; try (eexists; by eauto with automata).
  all: try (eexists; constructor; by eauto).
  - eexists. apply unmet_group; naive_solver.
  - eexists. apply unmet_slots. lia.
  - eexists. apply unmet_cpu. lia.
  - eexists. apply unmet_memory. lia.
  - eexists. apply unmet_disk. lia.
  - eexists. apply unmet_gpu. lia.
  - eexists. apply unmet_isolation. unfold lt. apply not_le_lt. intros Hle.
    match goal with H : lt _ _ |- _ => apply not_le_lt in H; apply H end.
    by eapply le_trans.
Qed.

Lemma satisfies_monotone (c c' : RunnerCapabilities) (r : RunnerRequirements) :
  at_least c c' → satisfies c r = Ok tt → satisfies c' r = Ok tt.
Proof.
  intros Hal. rewrite !satisfies_Ok. intros H m Hm.
  destruct (unmet_monotone c c' r m Hal Hm) as [m' Hm']. by apply (H m').
Qed.

(** The parts of the requirements invariant each builder must keep. *)
Lemma requirements_admit_spec (r : RunnerRequirements) :
  requirements_admit r = true ↔
  req_schema_version r = RUNNER_REQUIREMENTS_SCHEMA_VERSION ∧
  (req_operating_system r = Some Windows ↔
   WINDOWS_HYPERV_CONTAINER ∈ req_sandbox_features r) ∧
  (req_operating_system r = Some Windows → req_minimum_isolation r = VirtualMachine).
Proof.
  unfold requirements_admit, windows_hyperv_requirement_is_valid.
  rewrite andb_true_iff, Z.eqb_eq.
  pose proof (bset_contains_spec (req_sandbox_features r) WINDOWS_HYPERV_CONTAINER) as Hc.
  destruct (bset_contains _ _), (req_operating_system r) as [[]|],
    (req_minimum_isolation r); simpl; naive_solver.
Qed.

Lemma ord_max_virtual_machine (i : IsolationLevel) : ord_max i VirtualMachine = VirtualMachine.
Proof. by destruct i. Qed.

Lemma req_build_admits (b : req_builder) (r : RunnerRequirements) :
  requirements_admit r = true → requirements_admit (req_build b r) = true.
Proof.
  rewrite !requirements_admit_spec. destruct r as [sv ls gs os ar mr al iso sf cf fs ep].
  destruct b; simpl; try done; intros (Hsv & Hos & Hiso).
  - unfold req_with_operating_system. case_bool_decide as Hw; simpl.
    + rewrite ord_max_virtual_machine, elem_of_bset_insert. naive_solver.
    + rewrite elem_of_bset_remove. naive_solver.
  - rewrite ord_max_virtual_machine, elem_of_bset_insert. naive_solver.
  - split; [done|]. split; [done|]. intros ->. done.
  - destruct (bset_contains _ _) eqn:E; simpl.
    + rewrite ord_max_virtual_machine, elem_of_bset_insert. naive_solver.
    + case_bool_decide; simpl.
      * rewrite elem_of_bset_insert. naive_solver.
      * rewrite <- bset_contains_spec, E. naive_solver.
Qed.

(** Checked arithmetic on capacities, dimension by dimension. *)
Definition capacity_in_range (c : ResourceCapacity) : Prop :=
  0 <= cpu_millis c <= u32_max ∧ 0 <= memory_bytes c <= u64_max ∧
  0 <= ephemeral_disk_bytes c <= u64_max ∧ 0 <= gpu_count c <= u16_max.

Lemma capacity_checked_sub_Some (a b d : ResourceCapacity) :
  capacity_checked_sub a b = Some d ↔
  fits_within b a = true ∧
  d = MkResourceCapacity (cpu_millis a - cpu_millis b) (memory_bytes a - memory_bytes b)
        (ephemeral_disk_bytes a - ephemeral_disk_bytes b) (gpu_count a - gpu_count b).
Proof.
  rewrite fits_within_spec. unfold capacity_checked_sub, checked_sub.
  unfold mbind, option_bind.
  repeat match goal with |- context [?x <=? ?y] => destruct (Z.leb_spec x y) end.
  all: split; [intros ?; simplify_eq; split_and!; first [lia | done]
              | intros [? ->]; first [done | lia]].
Qed.

Lemma capacity_checked_add_Some (a b d : ResourceCapacity) :
  capacity_checked_add a b = Some d ↔
  d = MkResourceCapacity (cpu_millis a + cpu_millis b) (memory_bytes a + memory_bytes b)
        (ephemeral_disk_bytes a + ephemeral_disk_bytes b) (gpu_count a + gpu_count b) ∧
  cpu_millis d <= u32_max ∧ memory_bytes d <= u64_max ∧
  ephemeral_disk_bytes d <= u64_max ∧ gpu_count d <= u16_max.
Proof.
  unfold capacity_checked_add, checked_add. unfold mbind, option_bind.
  repeat match goal with |- context [?x <=? ?y] => destruct (Z.leb_spec x y) end.
  all: split; [intros ?; simplify_eq; split_and!; simpl; first [lia | done]
              | intros [-> ?]; first [done | simpl in *; lia]].
Qed.

(** *** Quantities of decimal digits *)

(** A non-empty run of ASCII digits. *)
Definition digit_run (d : str) : Prop := d ≠ [] ∧ forallb is_ascii_digit d = true.

Lemma digit_run_head (d : str) :
  digit_run d → ∃ c s, d = c :: s ∧ is_ascii_digit c = true.
Proof.
  intros [Hne Hd]. destruct d as [|c s]; [done|]. simpl in Hd.
  apply andb_true_iff in Hd as [Hc _]. eauto.
Qed.

Lemma digit_run_last (d : str) :
  digit_run d → ∃ s c, d = s ++ [c] ∧ is_ascii_digit c = true.
Proof.
  intros [Hne Hd]. destruct (exists_last Hne) as (s & c & ->). exists s, c.
  split; [done|]. rewrite forallb_app in Hd. simpl in Hd.
  by apply andb_true_iff in Hd as [_ [Hc _]%andb_true_iff].
Qed.

Lemma digit_run_not_elem (d : str) (c : Z) :
  digit_run d → is_ascii_digit c = false → c ∉ d.
Proof.
  intros [_ Hd] Hc Hin. rewrite forallb_forall in Hd.
  apply list_elem_of_In, Hd in Hin. congruence.
Qed.

Lemma all_digits_run (d : str) : digit_run d → all_digits d = true.
Proof. intros [_ Hd]. unfold all_digits. by rewrite as_bytes_ascii by by apply digits_ascii. Qed.

Lemma digit_run_nonempty (d : str) : digit_run d → str_is_empty d = false.
Proof. intros [? _]. by destruct d. Qed.

Lemma parse_positive_digits_run (max : Z) (d : str) :
  digit_run d →
  parse_positive_digits max d =
  if (0 <? digits_value d) && (digits_value d <=? max) then Some (digits_value d) else None.
Proof.
  intros Hd. unfold parse_positive_digits.
  rewrite digit_run_nonempty, all_digits_run, parse_uint_digits by (done || apply Hd).
  simpl. destruct (digits_value d <=? max); simpl; [|by rewrite andb_false_r].
  by rewrite andb_true_r.
Qed.

(** A digit run followed by text that does not end in whitespace is already trimmed. *)
Lemma trim_digit_run (d t : str) :
  digit_run d → (t = [] ∨ ∃ s c, t = s ++ [c] ∧ is_whitespace c = false) →
  trim (d ++ t) = d ++ t.
Proof.
  intros Hd Ht. destruct (digit_run_head d Hd) as (c & s & -> & Hc).
  apply digit_not_whitespace in Hc.
  destruct Ht as [->|(u & e & -> & He)].
  - destruct (digit_run_last _ Hd) as (u & e & Heq & He). apply digit_not_whitespace in He.
    rewrite app_nil_r. by apply (trim_id c e s u).
  - apply (trim_id c e (s ++ u ++ [e]) (c :: s ++ u)); [done..|].
    by rewrite <- app_comm_cons, <- app_assoc.
Qed.

Lemma strip_suffix_last (p s : str) (a b : Z) :
  a ≠ b → strip_suffix (p ++ [a]) (s ++ [b]) = None.
Proof.
  intros Hne. unfold strip_suffix. rewrite !rev_app_distr. simpl.
  by destruct (Z.eqb_spec a b).
Qed.

(** ** Properties *)

(** C36: matching is exact. A runner satisfies a job's requirements precisely
    when nothing is unmet, and when it does not, the reported list holds every
    unmet requirement and nothing else. *)
Theorem satisfies_reports_exactly_unmet (c : RunnerCapabilities) (r : RunnerRequirements) :
  match satisfies c r with
  | Ok _ => ∀ m, ¬ unmet c r m
  | Err ms => ms ≠ [] ∧ ∀ m, m ∈ ms ↔ unmet c r m
  end.
Proof.
  unfold satisfies. pose proof (mismatches_complete c r) as H.
  destruct (mismatches c r) as [|m ms]; [|done]. intros m. rewrite <- H.
  apply not_elem_of_nil.
Qed.

(** Requirements assembled by any sequence of builder calls are ones the
    decoder accepts: naming Windows, asking for the Hyper-V launch feature and
    demanding virtual-machine isolation stay tied together whatever the order. *)
Lemma built_requirements_are_admitted (bs : list req_builder) :
  requirements_admit (foldl (λ r b, req_build b r) runner_requirements_default bs) = true.
Proof.
  cut (∀ r, requirements_admit r = true →
            requirements_admit (foldl (λ r b, req_build b r) r bs) = true);
    [intros H; by apply H|].
  induction bs as [|b bs IH]; intros r Hr; simpl; [done|]. by apply IH, req_build_admits.
Qed.

(** Reserving and releasing resources are inverse. Subtraction succeeds
    exactly when the amount fits in every dimension; adding it back restores
    the capacity, and an addition that does not overflow can be undone. *)
Lemma capacity_reserve_release (a b : ResourceCapacity) :
  capacity_in_range a → capacity_in_range b →
  (is_Some (capacity_checked_sub a b) ↔ fits_within b a = true) ∧
  (∀ d, capacity_checked_sub a b = Some d →
        capacity_in_range d ∧ capacity_checked_add d b = Some a) ∧
  (∀ d, capacity_checked_add a b = Some d →
        capacity_in_range d ∧ capacity_checked_sub d b = Some a).
Proof.
  unfold capacity_in_range. intros Ha Hb. split_and!.
  - split.
    + intros [d Hd]. by apply capacity_checked_sub_Some in Hd as [? _].
    + intros Hf. eexists. by apply capacity_checked_sub_Some.
  - intros d [Hf ->]%capacity_checked_sub_Some. apply fits_within_spec in Hf. simpl.
    split; [lia|]. apply capacity_checked_add_Some. simpl.
    destruct a, b; simpl in *. split; [f_equal; lia|lia].
  - intros d [-> Hd]%capacity_checked_add_Some. simpl in *. split; [lia|].
    apply capacity_checked_sub_Some. rewrite fits_within_spec. simpl. split; [lia|].
    destruct a, b; simpl in *. f_equal; lia.
Qed.

(** A resource policy that can be constructed admits its own defaults, and
    every allocation it admits lies between its minimum and its maximum. *)
Lemma resource_policy_sound (defaults : JobResourceAllocation)
    (mn mx : ResourceCapacity) (p : JobResourcePolicy) :
  job_resource_policy_new defaults mn mx = Ok p →
  validate_allocation p (policy_defaults p) = Ok tt ∧ policy_defaults p = defaults ∧
  ∀ a, validate_allocation p a = Ok tt ↔
       fits_within mn (requests a) = true ∧ fits_within (limits a) mx = true.
Proof.
  unfold job_resource_policy_new, validate_allocation.
  destruct (_ || _ || _ || _); [done|].
  destruct (fits_within mn (requests defaults)) eqn:E1; simpl; [|done].
  destruct (fits_within (limits defaults) mx) eqn:E2; simpl; [|done].
  destruct (_ <? _); [done|]. intros [= <-]. simpl. rewrite E1, E2. split_and!; [done..|].
  intros a. destruct (fits_within mn (requests a)), (fits_within (limits a) mx); naive_solver.
Qed.

(** A validated capability identifier decomposes without panicking: its
    accessors all succeed, the parts spell the identifier back, and the major
    version is a positive [u16]. *)
Lemma capability_id_accessors_total (value : str) :
  validate_capability_id value = Ok tt →
  ∃ namespace name version major,
    capability_id_namespace value = Some namespace ∧
    capability_id_name value = Some name ∧
    capability_id_major_version value = Some major ∧
    value = namespace ++ lit "/" ++ name ++ lit "@v" ++ version ∧
    parse_uint u16_max version = Some major ∧ 1 <= major <= u16_max.
Proof.
  unfold validate_capability_id. unfold_monad. intros H.
  destruct (str_is_empty value); [done|].
  destruct (_ <? _); [done|]. destruct (negb (str_is_ascii value)); [done|].
  destruct (rsplit_once (lit "@v") value) as [[q version]|] eqn:Ev; [|done].
  destruct (_ || _ || _ || _) eqn:Hver; [done|].
  destruct (split_once 47 q) as [[ns name]|] eqn:Eq; [|done].
  clear H. rewrite !orb_false_iff, negb_false_iff, bool_decide_eq_false in Hver.
  destruct Hver as [[[Hne H0] Hdig] Hp].
  destruct (parse_uint u16_max version) as [major|] eqn:Emaj; [|done]. clear Hp.
  pose proof (rsplit_once_Some _ _ _ _ Ev) as Hvalue.
  apply split_once_Some in Eq as [-> Hns].
  exists ns, name, version, major.
  assert (value = ns ++ 47 :: (name ++ lit "@v" ++ version)) as Hfull.
  { rewrite Hvalue, <- app_assoc. done. }
  assert (split_once 47 value = Some (ns, name ++ lit "@v" ++ version)) as Hsplit
    by by apply split_once_Some.
  assert (rsplit_once (lit "@v") (name ++ lit "@v" ++ version) = Some (name, version)) as Hname.
  { apply (rsplit_once_drop _ (ns ++ [47])).
    rewrite <- !app_assoc. change ([47] ++ ?x) with (47 :: x).
    by rewrite <- Hfull, Ev. }
  unfold capability_id_namespace, capability_id_name, capability_id_major_version.
  rewrite Hsplit, Ev. cbn [mbind option_bind]. rewrite Hname. split_and!; try done.
  - destruct version as [|c version]; [done|]. simpl in H0.
    rewrite parse_uint_digits in Emaj by done.
    destruct (_ <=? u16_max); [|done]. injection Emaj as <-.
    apply digits_value_leading; [done|]. intros ->. done.
  - apply parse_uint_range in Emaj. lia.
Qed.

(** CPU quantities are exact fixed-point numbers. Digits with [m] are
    millicores; digits with up to three decimals are cores; overflow and zero
    are reported, never truncated. *)
Lemma parse_cpu_quantity_exact (d f : str) :
  digit_run d → digit_run f → Z.of_nat (length f) <= 3 →
  parse_cpu_quantity (d ++ lit "m") =
    (if (0 <? digits_value d) && (digits_value d <=? u32_max)
     then Ok (digits_value d) else Err InvalidCpu) ∧
  parse_cpu_quantity (d ++ lit "." ++ f) =
    (let millis := digits_value d * 1000 + digits_value f * 10 ^ (3 - Z.of_nat (length f)) in
     if u32_max <? millis then Err CpuOverflow
     else if millis =? 0 then Err InvalidCpu else Ok millis).
Proof.
  intros Hd Hf Hlen. unfold parse_cpu_quantity. split.
  - rewrite trim_digit_run; [|done|right; by exists [], 109].
    destruct (digit_run_head d Hd) as (c & s & -> & Hc). simpl str_is_empty. cbv iota.
    rewrite strip_suffix_app. unfold parse_positive_digits_u32.
    rewrite parse_positive_digits_run by done.
    destruct (Z.ltb_spec 0 (digits_value (c :: s))) as [Hpos|]; simpl; [|done].
    destruct (_ <=? u32_max); simpl; [|done].
    unfold mbind, result_bind. destruct (Z.eqb_spec (digits_value (c :: s)) 0); [lia|done].
  - destruct (digit_run_last f Hf) as (u & e & Hfe & He).
    rewrite trim_digit_run; [|done|right; exists (lit "." ++ u), e; rewrite Hfe, app_assoc;
                                    split; [done|by apply digit_not_whitespace]].
    destruct (digit_run_head d Hd) as (c & s & Hds & Hc).
    assert (str_is_empty (d ++ lit "." ++ f) = false) as -> by by rewrite Hds.
    assert (strip_suffix (lit "m") (d ++ lit "." ++ f) = None) as ->.
    { rewrite Hfe, !app_assoc. apply (strip_suffix_last []).
      intros <-. by unfold is_ascii_digit, in_range in He. }
    unfold parse_cpu_decimal. change (lit "." ++ f) with (46 :: f).
    rewrite split_app_sep by (by eapply digit_run_not_elem).
    rewrite split_no_sep by (by eapply digit_run_not_elem).
    cbv beta iota zeta delta [hd_error tl mbind result_bind option_bind ok_or].
    rewrite (digit_run_nonempty d), (digit_run_nonempty f),
      (all_digits_run d), (all_digits_run f) by done.
    rewrite str_len_ascii by (apply digits_ascii, Hf).
    rewrite (proj2 (Z.leb_le _ _) Hlen). simpl.
    rewrite !parse_uint_digits by apply Hd || apply Hf.
    pose proof (digits_value_nonneg d (proj2 Hd)).
    pose proof (digits_value_nonneg f (proj2 Hf)).
    assert (digits_value f <= 1000) as Hfv.
    { pose proof (digits_value_bound f (proj2 Hf)).
      pose proof (Z.pow_le_mono_r 10 (Z.of_nat (length f)) 3). lia. }
    assert (0 <= digits_value f * 10 ^ (3 - Z.of_nat (length f))).
    { apply Z.mul_nonneg_nonneg; [done|]. apply Z.pow_nonneg. lia. }
    set (k := digits_value f * _) in *. unfold checked_mul, checked_add.
    change u32_max with 4294967295.
    rewrite (proj2 (Z.leb_le (digits_value f) _)) by lia. fold k.
    destruct (Z.leb_spec (digits_value d) 4294967295);
      destruct (Z.ltb_spec 4294967295 (digits_value d * 1000 + k)); try lia; try done.
    + destruct (Z.leb_spec (digits_value d * 1000) 4294967295); [|done].
      destruct (Z.leb_spec (digits_value d * 1000 + k) 4294967295); [lia|done].
    + rewrite (proj2 (Z.leb_le (digits_value d * 1000) _)) by lia.
      rewrite (proj2 (Z.leb_le (digits_value d * 1000 + k) _)) by lia. done.
Qed.

Lemma strip_suffix_digit (p s : str) (a e : Z) :
  is_ascii_digit e = true → last p = Some a → is_ascii_digit a = false →
  strip_suffix p (s ++ [e]) = None.
Proof.
  intros He Hp Ha. apply last_Some in Hp as [p' ->]. apply strip_suffix_last. congruence.
Qed.

(** The suffix table picks the multiplier the text spells. *)
Lemma split_storage_suffix_run (d suffix : str) (multiplier : Z) :
  digit_run d → (suffix, multiplier) ∈ (lit "", 1) :: storage_suffixes →
  split_storage_suffix storage_suffixes (d ++ suffix) = (d, multiplier) ∧
  (suffix = [] ∨ ∃ s c, suffix = s ++ [c] ∧ is_whitespace c = false).
Proof.
  intros Hd Hin.
  let t := eval vm_compute in storage_suffixes in change storage_suffixes with t in *.
  rewrite !elem_of_cons in Hin.
  destruct Hin as [[= -> ->]|Hin].
  - destruct (digit_run_last d Hd) as (s & e & -> & He).
    split; [|by left]. change (lit "") with (@nil Z). rewrite app_nil_r.
    cbn [split_storage_suffix].
    by repeat (erewrite strip_suffix_digit by (exact He || reflexivity)).
  - repeat (destruct Hin as [[= -> ->]|Hin];
      [split; [cbn [split_storage_suffix]; unfold strip_suffix; rewrite rev_app_distr; simpl;
               by rewrite rev_involutive
              |right; (by eexists [], _) || (by eexists [_], _)]|]).
    by apply not_elem_of_nil in Hin.
Qed.

(** Storage quantities are exact. Digits with a decimal or binary suffix, or
    none, denote the product, or the precise reason they denote nothing. *)
Lemma parse_storage_quantity_exact (d suffix : str) (multiplier : Z) :
  digit_run d → (suffix, multiplier) ∈ (lit "", 1) :: storage_suffixes →
  parse_storage_quantity (d ++ suffix) =
    if (0 <? digits_value d) && (digits_value d <=? u64_max) then
      if digits_value d * multiplier <=? u64_max then Ok (digits_value d * multiplier)
      else Err StorageOverflow
    else Err InvalidStorage.
Proof.
  intros Hd Hin. destruct (split_storage_suffix_run d suffix multiplier Hd Hin) as [Hs Ht].
  unfold parse_storage_quantity. rewrite trim_digit_run by done. rewrite Hs.
  unfold parse_positive_digits_u64. rewrite parse_positive_digits_run by done.
  destruct (_ && _); [|done]. unfold_monad. unfold checked_mul. by destruct (_ <=? _).
Qed.

(** *** Digests *)

Lemma hex_nibble_digit (n : Z) : 0 <= n < 16 → hex_nibble (hex_digit n) = Some n.
Proof.
  intros Hn. unfold hex_nibble, hex_digit, in_range. destruct (Z.ltb_spec n 10).
  - replace ((48 <=? 48 + n) && (48 + n <=? 57)) with true by lia. f_equal. lia.
  - replace ((48 <=? 97 + (n - 10)) && (97 + (n - 10) <=? 57)) with false by lia.
    replace ((97 <=? 97 + (n - 10)) && (97 + (n - 10) <=? 102)) with true by lia. f_equal. lia.
Qed.

Lemma hex_digit_ascii (n : Z) : 0 <= n < 16 → is_ascii (hex_digit n) = true.
Proof. unfold hex_digit, is_ascii. destruct (Z.ltb_spec n 10); lia. Qed.

Lemma byte_nibbles (b : Z) :
  0 <= b < 256 → 0 <= Z.shiftr b 4 < 16 ∧ 0 <= Z.land b 15 < 16 ∧
  Z.lor (Z.shiftl (Z.shiftr b 4) 4) (Z.land b 15) = b.
Proof.
  intros Hb. change 15 with (Z.ones 4). split; [|split].
  - rewrite Z.shiftr_div_pow2 by lia. change (2 ^ 4) with 16.
    pose proof (Z.div_mod b 16). pose proof (Z.mod_pos_bound b 16). lia.
  - rewrite Z.land_ones by lia. apply Z.mod_pos_bound. lia.
  - apply Z.bits_inj'. intros n Hn.
    rewrite Z.lor_spec, Z.land_spec, Z.shiftl_spec, Z.testbit_ones_nonneg by lia.
    destruct (Z.ltb_spec n 4).
    + rewrite Z.testbit_neg_r by lia. by rewrite andb_true_r.
    + rewrite Z.shiftr_spec by lia. rewrite andb_false_r, orb_false_r. f_equal. lia.
Qed.

Definition is_byte (b : Z) : Prop := 0 <= b < 256.

Lemma digest_to_string_facts (d : Sha256Digest) :
  Forall is_byte d →
  str_is_ascii (digest_to_string d) = true ∧
  length (digest_to_string d) = (2 * length d)%nat ∧
  ∀ i, digest_pairs i (digest_to_string d) = Ok d.
Proof.
  unfold digest_to_string. induction 1 as [|b d Hb Hd (IH1 & IH2 & IH3)]; [done|].
  destruct (byte_nibbles b Hb) as (Hh & Hl & Hb').
  rewrite bind_cons. simpl app. split_and!.
  - unfold str_is_ascii in *. simpl. by rewrite !hex_digit_ascii, IH1.
  - simpl length. rewrite IH2. lia.
  - intros i. simpl. rewrite !hex_nibble_digit by done. unfold_monad.
    rewrite IH3. by rewrite Hb'.
Qed.

(** A digest round-trips through its text: printing thirty-two bytes as
    hexadecimal and parsing the text back gives the same digest. *)
Lemma digest_roundtrip (d : Sha256Digest) :
  Forall is_byte d → Z.of_nat (length d) = SHA256_DIGEST_BYTES →
  digest_from_str (digest_to_string d) = Ok d.
Proof.
  intros Hd Hlen. destruct (digest_to_string_facts d Hd) as (Ha & Hl & Hp).
  unfold digest_from_str. rewrite str_len_ascii, Hl by done.
  replace (Z.of_nat (2 * length d)) with SHA256_DIGEST_HEX_LENGTH
    by (unfold SHA256_DIGEST_HEX_LENGTH; lia).
  rewrite Z.eqb_refl. simpl. by rewrite as_bytes_ascii.
Qed.

Definition demo_allocation : JobResourceAllocation :=
  MkJobResourceAllocation (MkResourceCapacity 1000 64 0 0) (MkResourceCapacity 2000 128 0 0).
Definition demo_policy : JobResourcePolicy :=
  MkJobResourcePolicy demo_allocation (MkResourceCapacity 100 1 0 0)
    (MkResourceCapacity 4000 256 0 0).

