(* ===== verification/Scheduling.v ===== *)
(** * Scheduling: effective runners and deterministic placement

    Models [crates/automata-ci-control/src/scheduling/]: the intersection of
    registered and observed capabilities, the reduction of runner evidence to
    an authorised effective runner, the duplicate-free scheduling snapshot, the
    placement factory, and the deterministic FIFO policy.

    References into the snapshot's slices carry the address of the element, so
    the placement factory's pointer-membership test is modelled as written. *)

From S2P Require Import Prelude Text Execution Capability.

(** ** Session and slot identities ([runner.rs]) *)

Record SessionGuard := MkSessionGuard {
  session_runner_id : RunnerId;
  session_session_id : RunnerSessionId;
}.

#[export] Instance session_guard_eq_dec : EqDecision SessionGuard.
Proof. solve_decision. Defined.

Record RunnerSlot := MkRunnerSlot {
  slot_runner_id : RunnerId;
  slot_ordinal : Bounded 1 u16_max;
}.

#[export] Instance runner_slot_eq_dec : EqDecision RunnerSlot.
Proof. solve_decision. Defined.

Lemma runner_slot_key_inj (x y : RunnerSlot) :
  (slot_runner_id x, bget (slot_ordinal x)) = (slot_runner_id y, bget (slot_ordinal y)) →
  x = y.
Proof. destruct x, y; simpl. intros [= -> ?]. f_equal. by apply bounded_eq. Qed.

(** The derived order: by runner, then by ordinal. *)
#[export] Instance ord_runner_slot : Ord RunnerSlot :=
  ord_inj (λ s, (slot_runner_id s, bget (slot_ordinal s))) runner_slot_key_inj.

Inductive RunnerSlotError := ZeroOrdinal.

Definition runner_slot_new (runner_id : RunnerId) (ordinal : Z) :
    result RunnerSlotError RunnerSlot :=
  ordinal ← ok_or (bounded 1 u16_max ordinal) ZeroOrdinal;
  Ok (MkRunnerSlot runner_id ordinal).

(** ** Evidence ([runner.rs]) *)

Record RunnerEvidence := MkRunnerEvidence {
  evidence_session : SessionGuard;
  observed_capabilities : RunnerCapabilities;
  observed_at : UnixMillis;
}.

Inductive RunnerEvidenceError :=
| EvidenceInvalidCapabilities (e : CapabilityValidationError)
| EvidenceRunnerIdentityMismatch (authenticated advertised : RunnerId).

Definition runner_evidence_new (session : SessionGuard) (observed : RunnerCapabilities)
    (observed_at : UnixMillis) : result RunnerEvidenceError RunnerEvidence :=
  _ ← map_err EvidenceInvalidCapabilities (capabilities_validate observed);
  if negb (cap_runner_id observed =? session_runner_id session) then
    Err (EvidenceRunnerIdentityMismatch (session_runner_id session) (cap_runner_id observed))
  else Ok (MkRunnerEvidence session observed observed_at).

Record AuthorizedRunnerRouting := MkAuthorizedRunnerRouting {
  routing_labels : BTreeSet RunnerLabel;
  routing_groups : BTreeSet RunnerGroup;
}.

Definition authorized_runner_routing_new (labels : list RunnerLabel)
    (groups : list RunnerGroup) : AuthorizedRunnerRouting :=
  MkAuthorizedRunnerRouting (bset_from labels) (bset_from groups).

(** ** Effective runners ([runner.rs]) *)

Record EffectiveRunner := MkEffectiveRunner {
  effective_session : SessionGuard;
  effective_capabilities : RunnerCapabilities;
  available_slots : BTreeSet RunnerSlot;
  evidence_observed_at : UnixMillis;
}.

Inductive EffectiveRunnerError :=
| EffectiveInvalidCapabilities (e : CapabilityValidationError)
| EffectiveRunnerIdentityMismatch (authenticated effective : RunnerId)
| SelectorsNotSeparated
| EffectivePlatformMismatch
| SlotLimitExceedsEvidence (observed effective : Z)
| ResourceExceedsEvidence (resource : ResourceKind) (observed effective : Z)
| IsolationExceedsEvidence
| UnobservedSandboxFeature (f : SandboxFeature)
| UnobservedContainerFeature (f : ContainerFeature)
| UnobservedRunnerFeature (f : RunnerFeature)
| UnobservedEnvironmentProfile (p : EnvironmentProfile)
| SlotRunnerMismatch (expected received : RunnerId)
| SlotOutOfRange (ordinal maximum : Z)
| DuplicateSlot (slot : RunnerSlot).

(** The first row of the table whose effective amount exceeds the observed. *)
Definition validate_resources (effective observed : ResourceCapacity) :
    result EffectiveRunnerError unit :=
  match List.find (λ '(_, e, o), o <? e)
    [(CpuMillis, cpu_millis effective, cpu_millis observed);
     (MemoryBytes, memory_bytes effective, memory_bytes observed);
     (EphemeralDiskBytes, ephemeral_disk_bytes effective, ephemeral_disk_bytes observed);
     (GpuCount, gpu_count effective, gpu_count observed)] with
  | Some (resource, e, o) => Err (ResourceExceedsEvidence resource o e)
  | None => Ok tt
  end.

(** [if let Some(x) = effective.difference(observed).next() { return Err(mk(x)) }]. *)
Definition reject_unobserved {A : Type} `{!Ord A} (mk : A → EffectiveRunnerError)
    (effective observed : BTreeSet A) : result EffectiveRunnerError unit :=
  match bset_first (bset_difference effective observed) with
  | Some x => Err (mk x)
  | None => Ok tt
  end.

Fixpoint validate_slots (runner_id : RunnerId) (maximum : Z) (validated : BTreeSet RunnerSlot)
    (slots : list RunnerSlot) : result EffectiveRunnerError (BTreeSet RunnerSlot) :=
  match slots with
  | [] => Ok validated
  | slot :: slots =>
      if negb (slot_runner_id slot =? runner_id) then
        Err (SlotRunnerMismatch runner_id (slot_runner_id slot))
      else if maximum <? bget (slot_ordinal slot) then
        Err (SlotOutOfRange (bget (slot_ordinal slot)) maximum)
      else if bset_contains validated slot then Err (DuplicateSlot slot)
      else validate_slots runner_id maximum (bset_insert slot validated) slots
  end.

Definition authorize (evidence : RunnerEvidence) (routing : AuthorizedRunnerRouting)
    (capabilities : RunnerCapabilities) (slots : list RunnerSlot) :
    result EffectiveRunnerError EffectiveRunner :=
  _ ← map_err EffectiveInvalidCapabilities (capabilities_validate capabilities);
  let observed := observed_capabilities evidence in
  let runner_id := session_runner_id (evidence_session evidence) in
  _ ← reject (negb (bset_is_empty (cap_labels capabilities)) ||
              negb (bset_is_empty (cap_groups capabilities))) SelectorsNotSeparated;
  _ ← reject (negb (cap_runner_id capabilities =? runner_id))
        (EffectiveRunnerIdentityMismatch runner_id (cap_runner_id capabilities));
  _ ← reject (negb (bool_decide (cap_platform capabilities = cap_platform observed)))
        EffectivePlatformMismatch;
  _ ← reject (cap_max_parallel_jobs observed <? cap_max_parallel_jobs capabilities)
        (SlotLimitExceedsEvidence (cap_max_parallel_jobs observed)
           (cap_max_parallel_jobs capabilities));
  _ ← validate_resources (cap_resources_per_job capabilities) (cap_resources_per_job observed);
  _ ← reject (ltb (maximum_isolation (cap_sandbox observed))
                  (maximum_isolation (cap_sandbox capabilities))) IsolationExceedsEvidence;
  _ ← reject_unobserved UnobservedSandboxFeature (sandbox_features (cap_sandbox capabilities))
        (sandbox_features (cap_sandbox observed));
  _ ← reject_unobserved UnobservedContainerFeature (cap_containers capabilities)
        (cap_containers observed);
  _ ← reject_unobserved UnobservedRunnerFeature (cap_features capabilities)
        (cap_features observed);
  _ ← reject_unobserved UnobservedEnvironmentProfile (cap_environment_profiles capabilities)
        (cap_environment_profiles observed);
  let capabilities := with_groups (elems (routing_groups routing))
                        (with_labels (elems (routing_labels routing)) capabilities) in
  validated ← validate_slots runner_id (cap_max_parallel_jobs capabilities) bset_empty slots;
  Ok (MkEffectiveRunner (evidence_session evidence) capabilities validated
        (observed_at evidence)).

(** ** Capability intersection ([capabilities.rs]) *)

Inductive RunnerCapabilityIntersectionError :=
| InvalidRegistered (e : CapabilityValidationError)
| InvalidObserved (e : CapabilityValidationError)
| IntersectionRunnerIdentityMismatch (registered observed : RunnerId)
| IntersectionPlatformMismatch.

Definition intersect_runner_capabilities (registered observed : RunnerCapabilities) :
    result RunnerCapabilityIntersectionError RunnerCapabilities :=
  _ ← map_err InvalidRegistered (capabilities_validate registered);
  _ ← map_err InvalidObserved (capabilities_validate observed);
  _ ← reject (negb (cap_runner_id registered =? cap_runner_id observed))
        (IntersectionRunnerIdentityMismatch (cap_runner_id registered) (cap_runner_id observed));
  _ ← reject (negb (bool_decide (cap_platform registered = cap_platform observed)))
        IntersectionPlatformMismatch;
  let rr := cap_resources_per_job registered in
  let ro := cap_resources_per_job observed in
  let resources :=
    MkResourceCapacity (Z.min (cpu_millis rr) (cpu_millis ro))
      (Z.min (memory_bytes rr) (memory_bytes ro))
      (Z.min (ephemeral_disk_bytes rr) (ephemeral_disk_bytes ro))
      (Z.min (gpu_count rr) (gpu_count ro)) in
  let sandbox := sandbox_capabilities_new
    (ord_min (maximum_isolation (cap_sandbox registered))
             (maximum_isolation (cap_sandbox observed)))
    (elems (bset_intersection (sandbox_features (cap_sandbox registered))
                              (sandbox_features (cap_sandbox observed)))) in
  let containers := container_capabilities_new
    (elems (bset_intersection (cap_containers registered) (cap_containers observed))) in
  map_err InvalidRegistered
    (capabilities ← with_max_parallel_jobs
       (Z.min (cap_max_parallel_jobs registered) (cap_max_parallel_jobs observed))
       (runner_capabilities_new (cap_runner_id registered) (cap_platform registered));
     Ok (with_environment_profiles
           (elems (bset_intersection (cap_environment_profiles registered)
                                     (cap_environment_profiles observed)))
           (with_features (elems (bset_intersection (cap_features registered)
                                                    (cap_features observed)))
             (with_containers containers
               (with_sandbox sandbox (with_resources_per_job resources capabilities)))))).

(** ** Candidates ([routing.rs], [candidate.rs]) *)

Inductive RoutingRequirementsError := RoutingUnsupportedSchema (supported received : Z).

Record RoutingRequirements := MkRoutingRequirements { routing_runner : RunnerRequirements }.

Definition routing_requirements_new (runner : RunnerRequirements) :
    result RoutingRequirementsError RoutingRequirements :=
  if negb (req_schema_version runner =? RUNNER_REQUIREMENTS_SCHEMA_VERSION) then
    Err (RoutingUnsupportedSchema RUNNER_REQUIREMENTS_SCHEMA_VERSION (req_schema_version runner))
  else Ok (MkRoutingRequirements runner).

Record RunnableCandidate := MkRunnableCandidate {
  candidate_attempt_id : AttemptId;
  candidate_job_id : JobId;
  queued_at : UnixMillis;
  candidate_routing : RoutingRequirements;
}.

(** ** Borrowed slices

    A slice is its base address and its elements; [iter] yields references
    that carry the address of the element they point at. *)

Record Ref (A : Type) := MkRef { addr : Z; deref : A }.
Arguments MkRef {A} _ _.
Arguments addr {A} _.
Arguments deref {A} _.

Record Slice (A : Type) := MkSlice { slice_base : Z; slice_items : list A }.
Arguments MkSlice {A} _ _.
Arguments slice_base {A} _.
Arguments slice_items {A} _.

Fixpoint refs_from {A : Type} (address : Z) (items : list A) : list (Ref A) :=
  match items with
  | [] => []
  | x :: items => MkRef address x :: refs_from (address + 1) items
  end.

Definition iter {A : Type} (s : Slice A) : list (Ref A) :=
  refs_from (slice_base s) (slice_items s).

Definition ptr_eq {A : Type} (x y : Ref A) : bool := addr x =? addr y.

Definition slice_is_empty {A : Type} (s : Slice A) : bool :=
  match slice_items s with [] => true | _ => false end.

(** ** Decisions ([decision.rs]) *)

Record Placement := MkPlacement {
  placement_attempt_id : AttemptId;
  placement_job_id : JobId;
  placement_session : SessionGuard;
  placement_slot : RunnerSlot;
}.

Record RunnerRequirementDecline := MkRunnerRequirementDecline {
  decline_runner_id : RunnerId;
  decline_mismatches : list RequirementMismatch;
}.

Inductive CandidateDeclineReason :=
| CompatibleRunnersBusy (runners : list RunnerId)
| NoCompatibleRunner (runners : list RunnerRequirementDecline).

Record CandidateDecline := MkCandidateDecline {
  decline_attempt_id : AttemptId;
  decline_reason : CandidateDeclineReason;
}.

Inductive PlacementDecline :=
| NoRunnableCandidates
| NoEffectiveRunners
| Candidates (declines : list CandidateDecline).

Inductive PlacementDecision :=
| Place (p : Placement)
| Decline (d : PlacementDecline).

Inductive CandidateCapacity :=
| CapacityAvailable
| CapacityCompatibleRunnersBusy
| CapacityNoCompatibleRunner.

(** ** The validated snapshot ([input.rs]) *)

Record SchedulingInput := MkSchedulingInput {
  input_candidates : Slice RunnableCandidate;
  input_runners : Slice EffectiveRunner;
}.

Inductive SchedulingInputError :=
| DuplicateAttempt (a : AttemptId)
| DuplicateRunner (r : RunnerId)
| DuplicateSession (s : RunnerSessionId).

(** The runner loop tests the runner identity and then the session identity
    of each record before it moves to the next. *)
Fixpoint check_runners (runner_ids session_ids : BTreeSet Z) (runners : list EffectiveRunner) :
    result SchedulingInputError unit :=
  match runners with
  | [] => Ok tt
  | runner :: runners =>
      let session := effective_session runner in
      if bset_contains runner_ids (session_runner_id session) then
        Err (DuplicateRunner (session_runner_id session))
      else if bset_contains session_ids (session_session_id session) then
        Err (DuplicateSession (session_session_id session))
      else check_runners (bset_insert (session_runner_id session) runner_ids)
             (bset_insert (session_session_id session) session_ids) runners
  end.

Definition scheduling_input_new (candidates : Slice RunnableCandidate)
    (runners : Slice EffectiveRunner) : result SchedulingInputError SchedulingInput :=
  _ ← match first_repeat candidate_attempt_id bset_empty (slice_items candidates) with
      | Some candidate => Err (DuplicateAttempt (candidate_attempt_id candidate))
      | None => Ok tt
      end;
  _ ← check_runners bset_empty bset_empty (slice_items runners);
  Ok (MkSchedulingInput candidates runners).

Inductive PlacementFactoryError :=
| ForeignCandidate
| ForeignRunner
| UnavailableSlot
| IncompatibleRunner.

Definition place (self : SchedulingInput) (candidate : Ref RunnableCandidate)
    (runner : Ref EffectiveRunner) (slot : RunnerSlot) :
    result PlacementFactoryError Placement :=
  if negb (existsb (λ member, ptr_eq member candidate) (iter (input_candidates self))) then
    Err ForeignCandidate
  else if negb (existsb (λ member, ptr_eq member runner) (iter (input_runners self))) then
    Err ForeignRunner
  else if negb (bset_contains (available_slots (deref runner)) slot) then Err UnavailableSlot
  else if negb (is_ok (satisfies (effective_capabilities (deref runner))
                         (routing_runner (candidate_routing (deref candidate))))) then
    Err IncompatibleRunner
  else Ok (MkPlacement (candidate_attempt_id (deref candidate))
             (candidate_job_id (deref candidate)) (effective_session (deref runner)) slot).

(** ** The policy port and its default implementation ([policy.rs]) *)

Class SchedulerPolicy (P : Type) := decide_placement : P → SchedulingInput → PlacementDecision.

Inductive CandidateCapacityEvaluation :=
| EvalAvailable (runner : Ref EffectiveRunner) (slot : RunnerSlot)
| EvalCompatibleRunnersBusy (runners : list RunnerId)
| EvalNoCompatibleRunner (runners : list RunnerRequirementDecline).

Definition runner_key (runner : EffectiveRunner) : RunnerId :=
  session_runner_id (effective_session runner).

(** The loop of [evaluate_candidate_capacity] with its two accumulators. *)
Fixpoint evaluate_loop (candidate : RunnableCandidate) (busy : list RunnerId)
    (incompatible : list RunnerRequirementDecline) (runners : list (Ref EffectiveRunner)) :
    CandidateCapacityEvaluation :=
  match runners with
  | [] =>
      match busy with
      | [] => EvalNoCompatibleRunner incompatible
      | _ => EvalCompatibleRunnersBusy busy
      end
  | runner :: runners =>
      match satisfies (effective_capabilities (deref runner))
              (routing_runner (candidate_routing candidate)) with
      | Ok _ =>
          match bset_first (available_slots (deref runner)) with
          | Some slot => EvalAvailable runner slot
          | None =>
              evaluate_loop candidate (busy ++ [runner_key (deref runner)]) incompatible runners
          end
      | Err mismatches =>
          evaluate_loop candidate busy
            (incompatible ++ [MkRunnerRequirementDecline (runner_key (deref runner)) mismatches])
            runners
      end
  end.

Definition evaluate_candidate_capacity (candidate : RunnableCandidate)
    (runners : list (Ref EffectiveRunner)) : CandidateCapacityEvaluation :=
  evaluate_loop candidate [] [] runners.

Definition classify_candidate_capacity (candidate : RunnableCandidate)
    (runners : Slice EffectiveRunner) : CandidateCapacity :=
  match evaluate_candidate_capacity candidate (iter runners) with
  | EvalAvailable _ _ => CapacityAvailable
  | EvalCompatibleRunnersBusy _ => CapacityCompatibleRunnersBusy
  | EvalNoCompatibleRunner _ => CapacityNoCompatibleRunner
  end.

Definition candidate_key (candidate : RunnableCandidate) : UnixMillis * AttemptId :=
  (queued_at candidate, candidate_attempt_id candidate).

(** The candidate loop of [decide], with the accumulated declines. *)
Fixpoint decide_loop (input : SchedulingInput) (runners : list (Ref EffectiveRunner))
    (declines : list CandidateDecline) (candidates : list (Ref RunnableCandidate)) :
    PlacementDecision :=
  match candidates with
  | [] => Decline (Candidates declines)
  | candidate :: candidates =>
      let continue reason :=
        decide_loop input runners
          (declines ++ [MkCandidateDecline (candidate_attempt_id (deref candidate)) reason])
          candidates in
      match evaluate_candidate_capacity (deref candidate) runners with
      | EvalAvailable runner slot =>
          match place input candidate runner slot with
          | Ok placement => Place placement
          | Err _ => continue (CompatibleRunnersBusy [runner_key (deref runner)])
          end
      | EvalCompatibleRunnersBusy runners => continue (CompatibleRunnersBusy runners)
      | EvalNoCompatibleRunner runners => continue (NoCompatibleRunner runners)
      end
  end.

Inductive DeterministicScheduler := MkDeterministicScheduler.

#[export] Instance deterministic_scheduler : SchedulerPolicy DeterministicScheduler :=
  λ _ input,
    if slice_is_empty (input_candidates input) then Decline NoRunnableCandidates
    else if slice_is_empty (input_runners input) then Decline NoEffectiveRunners
    else
      let candidates :=
        sort_by_key (λ c, candidate_key (deref c)) (iter (input_candidates input)) in
      let runners := sort_by_key (λ r, runner_key (deref r)) (iter (input_runners input)) in
      decide_loop input runners [] candidates.

(** ** Lemmas: the snapshot *)

Definition candidate_requirements (c : RunnableCandidate) : RunnerRequirements :=
  routing_runner (candidate_routing c).

(** [r] meets every requirement of [c]. *)
Definition compatible (c : RunnableCandidate) (r : EffectiveRunner) : Prop :=
  satisfies (effective_capabilities r) (candidate_requirements c) = Ok tt.

(** [r] meets every requirement of [c] and has a free slot. *)
Definition usable (c : RunnableCandidate) (r : EffectiveRunner) : Prop :=
  compatible c r ∧ ∃ slot, slot ∈ available_slots r.

Definition candidates_of (i : SchedulingInput) : list RunnableCandidate :=
  slice_items (input_candidates i).
Definition runners_of (i : SchedulingInput) : list EffectiveRunner :=
  slice_items (input_runners i).

(** The identities a snapshot may not repeat. *)
Record duplicate_free (cs : list RunnableCandidate) (rs : list EffectiveRunner) : Prop := {
  distinct_attempts : NoDup (candidate_attempt_id <$> cs);
  distinct_runners : NoDup (runner_key <$> rs);
  distinct_sessions : NoDup ((λ r, session_session_id (effective_session r)) <$> rs);
}.

Lemma check_runners_Ok (seen_r seen_s : BTreeSet Z) (rs : list EffectiveRunner) :
  check_runners seen_r seen_s rs = Ok tt ↔
  first_repeat runner_key seen_r rs = None ∧
  first_repeat (λ r, session_session_id (effective_session r)) seen_s rs = None.
Proof.
  revert seen_r seen_s. induction rs as [|r rs IH]; intros seen_r seen_s; simpl; [done|].
  unfold runner_key at 1 2.
  destruct (bset_contains seen_r (session_runner_id (effective_session r))); [naive_solver|].
  destruct (bset_contains seen_s (session_session_id (effective_session r)));
    [naive_solver|]. apply IH.
Qed.

Lemma scheduling_input_new_Ok (cs : Slice RunnableCandidate) (rs : Slice EffectiveRunner)
    (i : SchedulingInput) :
  scheduling_input_new cs rs = Ok i ↔
  i = MkSchedulingInput cs rs ∧ duplicate_free (slice_items cs) (slice_items rs).
Proof.
  pose proof (first_repeat_None candidate_attempt_id bset_empty (slice_items cs)) as Hc.
  pose proof (check_runners_Ok bset_empty bset_empty (slice_items rs)) as Hr.
  rewrite !first_repeat_None in Hr. pose proof (not_elem_of_bset_empty (A := Z)) as He.
  unfold scheduling_input_new. unfold_monad.
  destruct (first_repeat candidate_attempt_id bset_empty (slice_items cs)) as [c|].
  - split; [done|]. intros [_ [Hd _ _]]. destruct Hc as [_ Hc].
    by discriminate Hc; split; [|intros; apply He].
  - destruct Hc as [Hc _]. destruct (Hc eq_refl) as [Hc1 _].
    destruct (check_runners bset_empty bset_empty (slice_items rs)) as [[]|e].
    + destruct Hr as [Hr _]. destruct (Hr eq_refl) as [[? _] [? _]]. split.
      * intros [= <-]. by split; [|split].
      * by intros [-> _].
    + split; [done|]. intros [_ [_ H1 H2]]. destruct Hr as [_ Hr].
      discriminate Hr. split; (split; [done|]); intros; apply He.
Qed.

(** ** Lemmas: references *)

Lemma deref_iter {A : Type} (s : Slice A) : deref <$> iter s = slice_items s.
Proof.
  unfold iter. generalize (slice_base s).
  induction (slice_items s) as [|x l IH]; intros z; simpl; [done|]. by rewrite IH.
Qed.

Lemma elem_of_iter_deref {A : Type} (s : Slice A) (x : Ref A) :
  x ∈ iter s → deref x ∈ slice_items s.
Proof. intros H. rewrite <- deref_iter. apply list_elem_of_fmap. eauto. Qed.

Lemma ptr_member {A : Type} (s : Slice A) (x : Ref A) :
  x ∈ iter s → existsb (λ member, ptr_eq member x) (iter s) = true.
Proof.
  intros H. apply existsb_exists. exists x. split; [by apply list_elem_of_In|].
  unfold ptr_eq. lia.
Qed.

Lemma is_ok_satisfies (c : RunnerCapabilities) (r : RunnerRequirements) :
  is_ok (satisfies c r) = true ↔ satisfies c r = Ok tt.
Proof. destruct (satisfies c r) as [[]|]; simpl; split; congruence. Qed.

Lemma place_member (i : SchedulingInput) (c : Ref RunnableCandidate) (r : Ref EffectiveRunner)
    (slot : RunnerSlot) :
  c ∈ iter (input_candidates i) → r ∈ iter (input_runners i) →
  slot ∈ available_slots (deref r) → compatible (deref c) (deref r) →
  place i c r slot = Ok (MkPlacement (candidate_attempt_id (deref c))
    (candidate_job_id (deref c)) (effective_session (deref r)) slot).
Proof.
  intros Hc Hr Hs Hcr. unfold place. rewrite (ptr_member _ _ Hc), (ptr_member _ _ Hr).
  apply bset_contains_spec in Hs. rewrite Hs.
  apply is_ok_satisfies in Hcr. unfold candidate_requirements in Hcr. by rewrite Hcr.
Qed.

(** ** Lemmas: evaluating one candidate *)

Lemma usable_first (c : RunnableCandidate) (r : EffectiveRunner) (slot : RunnerSlot) :
  compatible c r → bset_first (available_slots r) = Some slot → usable c r.
Proof. intros Hc [Hs _]%bset_first_Some. split; eauto. Qed.

Lemma not_usable_busy (c : RunnableCandidate) (r : EffectiveRunner) :
  bset_first (available_slots r) = None → ¬ usable c r.
Proof. intros Hn [_ [slot Hs]]. by apply bset_first_None in Hs. Qed.

(** The diagnosis [evaluate_candidate_capacity] gives of a runner list. *)
Definition evaluation_ok (c : RunnableCandidate) (busy : list RunnerId)
    (incompatible : list RunnerRequirementDecline) (rs : list (Ref EffectiveRunner))
    (e : CandidateCapacityEvaluation) : Prop :=
  match e with
  | EvalAvailable r slot =>
      ∃ before after, rs = before ++ r :: after ∧ compatible c (deref r) ∧
        bset_first (available_slots (deref r)) = Some slot ∧
        ∀ r', r' ∈ before → ¬ usable c (deref r')
  | EvalCompatibleRunnersBusy b =>
      (∀ r, r ∈ rs → ¬ usable c (deref r)) ∧ b ≠ [] ∧
      ∀ id, id ∈ b ↔ id ∈ busy ∨ ∃ r, r ∈ rs ∧ runner_key (deref r) = id ∧ compatible c (deref r)
  | EvalNoCompatibleRunner ds =>
      busy = [] ∧ (∀ r, r ∈ rs → ¬ compatible c (deref r)) ∧
      ds = incompatible ++ ((λ r, MkRunnerRequirementDecline (runner_key (deref r))
             (mismatches (effective_capabilities (deref r)) (candidate_requirements c))) <$> rs)
  end.

Lemma satisfies_Err (c : RunnerCapabilities) (r : RunnerRequirements) ms :
  satisfies c r = Err ms → ms = mismatches c r.
Proof. unfold satisfies. by destruct (mismatches c r); intros [= <-]. Qed.

Lemma evaluate_loop_ok (c : RunnableCandidate) (busy : list RunnerId)
    (incompatible : list RunnerRequirementDecline) (rs : list (Ref EffectiveRunner)) :
  evaluation_ok c busy incompatible rs (evaluate_loop c busy incompatible rs).
Proof.
  revert busy incompatible. induction rs as [|r rs IH]; intros busy inc; simpl.
  - destruct busy as [|b bs]; simpl.
    + split; [done|]. split; [set_solver|]. by rewrite app_nil_r.
    + split; [set_solver|]. split; [done|]. intros id. split; [by left|].
      intros [H|(r & Hr & _)]; [done|set_solver].
  - destruct (satisfies (effective_capabilities (deref r))
                (routing_runner (candidate_routing c))) as [[]|ms] eqn:Es.
    + destruct (bset_first (available_slots (deref r))) as [slot|] eqn:Ef.
      * exists [], rs. split; [done|]. split; [done|]. split; [done|]. set_solver.
      * specialize (IH (busy ++ [runner_key (deref r)]) inc).
        destruct (evaluate_loop c _ inc rs) as [r' slot|b|ds]; simpl in *.
        -- destruct IH as (before & after & -> & Hc & Hf & Hn).
           exists (r :: before), after. split; [done|]. split; [done|]. split; [done|].
           intros r'' [->|?]%elem_of_cons; [by apply not_usable_busy|auto].
        -- destruct IH as (Hn & Hb & Hid). split; [|split; [done|]].
           ++ intros r'' [->|?]%elem_of_cons; [by apply not_usable_busy|auto].
           ++ intros id. rewrite Hid, elem_of_app, list_elem_of_singleton.
              setoid_rewrite elem_of_cons. split.
              ** intros [[? | ->]|(r' & ? & ? & ?)]; [by left|right; by eauto|right; by eauto].
              ** intros [?|(r' & [->|?] & <- & ?)]; [by left; left|by left; right|].
                 right; eauto.
        -- destruct IH as (Hbusy & _). by destruct busy.
    + specialize (IH busy (inc ++ [MkRunnerRequirementDecline (runner_key (deref r)) ms])).
      assert (Hinc : ¬ compatible c (deref r)).
      { unfold compatible, candidate_requirements. by rewrite Es. }
      destruct (evaluate_loop c busy _ rs) as [r' slot|b|ds]; simpl in *.
      * destruct IH as (before & after & -> & Hc & Hf & Hn).
        exists (r :: before), after. split; [done|]. split; [done|]. split; [done|].
        intros r'' [->|?]%elem_of_cons; [by intros [? _]|auto].
      * destruct IH as (Hn & Hb & Hid). split; [|split; [done|]].
        -- intros r'' [->|?]%elem_of_cons; [by intros [? _]|auto].
        -- intros id. rewrite Hid. setoid_rewrite elem_of_cons. split.
           ++ intros [?|(r' & ? & ? & ?)]; [by left|right; by eauto].
           ++ intros [?|(r' & [->|?] & <- & ?)]; [by left|done|]. right; eauto.
      * destruct IH as (-> & Hn & ->). split; [done|]. split.
        -- intros r'' [->|?]%elem_of_cons; auto.
        -- apply satisfies_Err in Es as ->. by rewrite <- app_assoc.
Qed.

(** ** Lemmas: the candidate loop *)

(** What a decline reason says of the runner list it was computed from. *)
Definition reason_explains (c : RunnableCandidate) (rs : list EffectiveRunner)
    (reason : CandidateDeclineReason) : Prop :=
  match reason with
  | CompatibleRunnersBusy busy =>
      busy ≠ [] ∧ ∀ id, id ∈ busy ↔ ∃ r, r ∈ rs ∧ runner_key r = id ∧ compatible c r
  | NoCompatibleRunner ds =>
      (∀ r, r ∈ rs → ¬ compatible c r) ∧
      ds = (λ r, MkRunnerRequirementDecline (runner_key r)
              (mismatches (effective_capabilities r) (candidate_requirements c))) <$> rs
  end.

Definition decline_explains (rs : list EffectiveRunner) (c : RunnableCandidate)
    (d : CandidateDecline) : Prop :=
  decline_attempt_id d = candidate_attempt_id c ∧ reason_explains c rs (decline_reason d).

Definition placement_of (c : RunnableCandidate) (r : EffectiveRunner) (slot : RunnerSlot) :
    Placement :=
  MkPlacement (candidate_attempt_id c) (candidate_job_id c) (effective_session r) slot.

(** The outcome of the loop, in terms of the values referred to. *)
Definition decision_ok (rs : list EffectiveRunner) (declines : list CandidateDecline)
    (cs : list RunnableCandidate) (d : PlacementDecision) : Prop :=
  match d with
  | Place p =>
      ∃ cs1 c cs2 rs1 r rs2 slot,
        cs = cs1 ++ c :: cs2 ∧ rs = rs1 ++ r :: rs2 ∧ p = placement_of c r slot ∧
        compatible c r ∧ bset_first (available_slots r) = Some slot ∧
        (∀ r', r' ∈ rs1 → ¬ usable c r') ∧ (∀ c' r', c' ∈ cs1 → r' ∈ rs → ¬ usable c' r')
  | Decline (Candidates ds) =>
      ∃ out, ds = declines ++ out ∧ Forall2 (decline_explains rs) cs out ∧
        ∀ c r, c ∈ cs → r ∈ rs → ¬ usable c r
  | Decline _ => False
  end.

Lemma evaluation_explains (c : RunnableCandidate) (rs : list (Ref EffectiveRunner)) :
  match evaluate_candidate_capacity c rs with
  | EvalAvailable r slot => True
  | EvalCompatibleRunnersBusy b =>
      (∀ r, r ∈ deref <$> rs → ¬ usable c r) ∧
      reason_explains c (deref <$> rs) (CompatibleRunnersBusy b)
  | EvalNoCompatibleRunner ds =>
      (∀ r, r ∈ deref <$> rs → ¬ usable c r) ∧
      reason_explains c (deref <$> rs) (NoCompatibleRunner ds)
  end.
Proof.
  pose proof (evaluate_loop_ok c [] [] rs) as H. unfold evaluate_candidate_capacity.
  destruct (evaluate_loop c [] [] rs) as [r slot|b|ds]; simpl in *; [done| |].
  - destruct H as (Hn & Hb & Hid). split; [|split; [done|]].
    + intros r (r' & -> & Hr')%list_elem_of_fmap. auto.
    + intros id. rewrite Hid. setoid_rewrite list_elem_of_fmap. split.
      * intros [?|(r & ? & ? & ?)]; [set_solver|eauto 6].
      * intros (? & (r & -> & ?) & ? & ?). right. eauto.
  - destruct H as (_ & Hn & ->). split; [|split].
    + intros r (r' & -> & Hr')%list_elem_of_fmap [? _]. by eapply Hn.
    + intros r (r' & -> & Hr')%list_elem_of_fmap. auto.
    + by rewrite <- list_fmap_compose.
Qed.

Lemma decision_ok_cons (rs : list EffectiveRunner) declines c reason cs d :
  (∀ r, r ∈ rs → ¬ usable c r) → reason_explains c rs reason →
  decision_ok rs (declines ++ [MkCandidateDecline (candidate_attempt_id c) reason]) cs d →
  decision_ok rs declines (c :: cs) d.
Proof.
  intros Hn Hr. destruct d as [p|[| |ds]]; simpl; try done.
  - intros (cs1 & c' & cs2 & rs1 & r & rs2 & slot & -> & -> & -> & Hc & Hf & H1 & H2).
    exists (c :: cs1), c', cs2, rs1, r, rs2, slot. do 6 (split; [done|]).
    intros c'' r'' [->|?]%elem_of_cons ?; eauto.
  - intros (out & -> & Hout & Hu).
    exists (MkCandidateDecline (candidate_attempt_id c) reason :: out).
    rewrite <- app_assoc. split; [done|]. split.
    + constructor; [|done]. by split.
    + intros c' r' [->|?]%elem_of_cons ?; eauto.
Qed.

Lemma decide_loop_ok (i : SchedulingInput) (rs : list (Ref EffectiveRunner))
    (declines : list CandidateDecline) (cs : list (Ref RunnableCandidate)) :
  (∀ c, c ∈ cs → c ∈ iter (input_candidates i)) →
  (∀ r, r ∈ rs → r ∈ iter (input_runners i)) →
  decision_ok (deref <$> rs) declines (deref <$> cs) (decide_loop i rs declines cs).
Proof.
  intros Hcs Hrs. revert declines. induction cs as [|c cs IH]; intros declines; csimpl.
  { exists []. rewrite app_nil_r. split; [done|]. split; [constructor|set_solver]. }
  assert (∀ declines, decision_ok (deref <$> rs) declines (deref <$> cs)
                        (decide_loop i rs declines cs)) as IH' by (apply IH; set_solver).
  pose proof (evaluation_explains (deref c) rs) as Hev.
  destruct (evaluate_candidate_capacity (deref c) rs) as [r slot|b|ds] eqn:Ee.
  - pose proof (evaluate_loop_ok (deref c) [] [] rs) as Hok.
    unfold evaluate_candidate_capacity in Ee. rewrite Ee in Hok.
    destruct Hok as (rs1 & rs2 & -> & Hc & Hf & Hn).
    rewrite place_member; [|set_solver|apply Hrs; set_solver|by apply bset_first_Some|done].
    exists [], (deref c), (deref <$> cs), (deref <$> rs1), (deref r), (deref <$> rs2), slot.
    rewrite fmap_app. do 5 (split; [done|]). split; [|set_solver].
    intros r' (r'' & -> & ?)%list_elem_of_fmap. auto.
  - destruct Hev. by eapply decision_ok_cons.
  - destruct Hev. by eapply decision_ok_cons.
Qed.

(** The values the policy walks over, in its order. *)
Definition queue_order (i : SchedulingInput) : list RunnableCandidate :=
  sort_by_key candidate_key (candidates_of i).
Definition runner_order (i : SchedulingInput) : list EffectiveRunner :=
  sort_by_key runner_key (runners_of i).

Lemma decide_ok (s : DeterministicScheduler) (i : SchedulingInput) :
  candidates_of i ≠ [] → runners_of i ≠ [] →
  decision_ok (runner_order i) [] (queue_order i) (decide_placement s i).
Proof.
  intros Hc Hr. unfold decide_placement, deterministic_scheduler, slice_is_empty.
  unfold candidates_of, runners_of in *.
  destruct (slice_items (input_candidates i)) eqn:E1; [done|].
  destruct (slice_items (input_runners i)) eqn:E2; [done|].
  unfold queue_order, runner_order, candidates_of, runners_of.
  rewrite <- !deref_iter, <- !sort_by_key_fmap.
  apply decide_loop_ok; intros x; by rewrite elem_of_sort_by_key.
Qed.

Lemma sorted_prefix_le {A K : Type} `{!Ord K} (key : A → K) (l l1 l2 : list A) (x y : A) :
  sort_by_key key l = l1 ++ x :: l2 → y ∈ l → y ∉ l1 → le (key x) (key y).
Proof.
  intros E Hy Hn. pose proof (sort_by_key_sorted key l) as Hs. rewrite E in Hs.
  rewrite <- (elem_of_sort_by_key key), E in Hy.
  apply elem_of_app in Hy as [?|[->|Hy]%elem_of_cons]; [done|apply le_refl|].
  clear -Hs Hy. induction l1 as [|z l1 IH]; simpl in Hs.
  - apply StronglySorted_inv in Hs as [_ Hs]. by eapply Forall_forall in Hs.
  - apply StronglySorted_inv in Hs as [Hs _]. auto.
Qed.

(** ** Lemmas: slice order *)

Definition same_evaluation (e e' : CandidateCapacityEvaluation) : Prop :=
  match e, e' with
  | EvalAvailable r slot, EvalAvailable r' slot' => deref r = deref r' ∧ slot = slot'
  | EvalCompatibleRunnersBusy b, EvalCompatibleRunnersBusy b' => b = b'
  | EvalNoCompatibleRunner ds, EvalNoCompatibleRunner ds' => ds = ds'
  | _, _ => False
  end.

Lemma evaluate_loop_deref (c : RunnableCandidate) busy incompatible
    (rs rs' : list (Ref EffectiveRunner)) :
  deref <$> rs = deref <$> rs' →
  same_evaluation (evaluate_loop c busy incompatible rs)
    (evaluate_loop c busy incompatible rs').
Proof.
  revert busy incompatible rs'.
  induction rs as [|r rs IH]; intros busy inc [|r' rs']; csimpl; try done.
  - by destruct busy.
  - intros [= Hr Hrs]. rewrite <- Hr.
    destruct (satisfies _ _) as [[]|ms]; [|by apply IH].
    destruct (bset_first _); [done|]. by apply IH.
Qed.

Lemma decide_loop_deref (i i' : SchedulingInput) (rs rs' : list (Ref EffectiveRunner))
    declines (cs cs' : list (Ref RunnableCandidate)) :
  (∀ c, c ∈ cs → c ∈ iter (input_candidates i)) →
  (∀ r, r ∈ rs → r ∈ iter (input_runners i)) →
  (∀ c, c ∈ cs' → c ∈ iter (input_candidates i')) →
  (∀ r, r ∈ rs' → r ∈ iter (input_runners i')) →
  deref <$> rs = deref <$> rs' → deref <$> cs = deref <$> cs' →
  decide_loop i rs declines cs = decide_loop i' rs' declines cs'.
Proof.
  intros Hc Hr Hc' Hr' Ers. revert declines cs' Hc'.
  induction cs as [|c cs IH]; intros declines [|c' cs'] Hc' Ecs; csimpl in *; try done.
  injection Ecs as Ec Ecs.
  assert (∀ declines, decide_loop i rs declines cs = decide_loop i' rs' declines cs') as IH'
    by (intros; apply IH; [set_solver..|done]).
  pose proof (evaluate_loop_deref (deref c) [] [] rs rs' Ers) as Hsame.
  pose proof (evaluate_loop_ok (deref c) [] [] rs) as Hok.
  pose proof (evaluate_loop_ok (deref c) [] [] rs') as Hok'.
  unfold evaluate_candidate_capacity. rewrite <- Ec.
  destruct (evaluate_loop (deref c) [] [] rs) as [r slot|b|ds],
    (evaluate_loop (deref c) [] [] rs') as [r' slot'|b'|ds']; simpl in Hsame; try done;
    [|by subst..].
  destruct Hsame as [Er <-].
  destruct Hok as (? & ? & -> & Hcr & Hf & _), Hok' as (? & ? & -> & Hcr' & Hf' & _).
  rewrite !place_member; [|set_solver|apply Hr'; set_solver|by apply bset_first_Some|
    by rewrite <- Ec|set_solver|apply Hr; set_solver|by apply bset_first_Some|done].
  by rewrite Er, Ec.
Qed.

(** ** Lemmas: authority of effective runners *)

(** The machine capabilities of an advertisement, without its selectors. *)
Definition without_selectors (c : RunnerCapabilities) : RunnerCapabilities :=
  with_groups [] (with_labels [] c).

Lemma reject_unobserved_Ok {A : Type} `{!Ord A} (mk : A → EffectiveRunnerError)
    (s t : BTreeSet A) :
  reject_unobserved mk s t = Ok tt → ∀ x, x ∈ s → x ∈ t.
Proof.
  unfold reject_unobserved.
  destruct (bset_first (bset_difference s t)) eqn:E; [done|]. intros _ x Hx.
  rewrite bset_first_None in E. specialize (E x). rewrite elem_of_bset_difference in E.
  destruct (bset_contains t x) eqn:Ex; [by apply bset_contains_spec|].
  rewrite <- not_true_iff_false, bset_contains_spec in Ex. naive_solver.
Qed.

Lemma validate_resources_Ok (e o : ResourceCapacity) :
  validate_resources e o = Ok tt → fits_within e o = true.
Proof.
  rewrite fits_within_spec. unfold validate_resources. simpl.
  destruct (Z.ltb_spec (cpu_millis o) (cpu_millis e)); [done|].
  destruct (Z.ltb_spec (memory_bytes o) (memory_bytes e)); [done|].
  destruct (Z.ltb_spec (ephemeral_disk_bytes o) (ephemeral_disk_bytes e)); [done|].
  destruct (Z.ltb_spec (gpu_count o) (gpu_count e)); [done|]. auto.
Qed.

Lemma validate_slots_Ok (runner_id : RunnerId) (maximum : Z) (seen out : BTreeSet RunnerSlot)
    (slots : list RunnerSlot) :
  validate_slots runner_id maximum seen slots = Ok out →
  (∀ s, s ∈ out ↔ s ∈ seen ∨ s ∈ slots) ∧
  ∀ s, s ∈ slots → slot_runner_id s = runner_id ∧ bget (slot_ordinal s) <= maximum.
Proof.
  revert seen. induction slots as [|s slots IH]; intros seen; simpl.
  - intros [= <-]. set_solver.
  - destruct (Z.eqb_spec (slot_runner_id s) runner_id) as [Hr|]; [|done]. simpl.
    destruct (Z.ltb_spec maximum (bget (slot_ordinal s))); [done|].
    destruct (bset_contains seen s); [done|]. intros [H1 H2]%IH. split.
    + intros x. rewrite H1, elem_of_bset_insert, elem_of_cons. naive_solver.
    + intros x [->|Hx]%elem_of_cons; [|auto]. done.
Qed.

Lemma cap_validate_Ok (c : RunnerCapabilities) :
  capabilities_validate c = Ok tt ↔
  cap_schema_version c = CORE_SCHEMA_VERSION ∧ cap_max_parallel_jobs c ≠ 0.
Proof.
  unfold capabilities_validate.
  destruct (Z.eqb_spec (cap_schema_version c) CORE_SCHEMA_VERSION); simpl; [|naive_solver].
  destruct (Z.eqb_spec (cap_max_parallel_jobs c) 0); naive_solver.
Qed.

(** What [authorize] checks, read off a successful call. *)
Lemma authorize_Ok (e : RunnerEvidence) (routing : AuthorizedRunnerRouting)
    (c : RunnerCapabilities) (slots : list RunnerSlot) (r : EffectiveRunner) :
  cap_schema_version (observed_capabilities e) = CORE_SCHEMA_VERSION →
  0 <= cap_max_parallel_jobs c → authorize e routing c slots = Ok r →
  at_least c (without_selectors (observed_capabilities e)) ∧
  ∃ out, validate_slots (session_runner_id (evidence_session e)) (cap_max_parallel_jobs c)
           bset_empty slots = Ok out ∧
    r = MkEffectiveRunner (evidence_session e)
          (with_groups (elems (routing_groups routing))
             (with_labels (elems (routing_labels routing)) c)) out (observed_at e).
Proof.
  intros Hsv Hpos. unfold authorize. unfold_monad. intros H.
  destruct (capabilities_validate c) as [[]|] eqn:Ev; [|done].
  apply cap_validate_Ok in Ev as [Hcs Hcj].
  destruct (negb (bset_is_empty (cap_labels c)) || negb (bset_is_empty (cap_groups c))) eqn:Es;
    [done|].
  apply orb_false_iff in Es as [El%negb_false_iff%bset_is_empty_spec
                                 Eg%negb_false_iff%bset_is_empty_spec].
  destruct (negb (cap_runner_id c =? session_runner_id (evidence_session e))); [done|].
  case_bool_decide as Hp; [|done]. simpl in H.
  destruct (Z.ltb_spec (cap_max_parallel_jobs (observed_capabilities e))
              (cap_max_parallel_jobs c)); [done|].
  destruct (validate_resources _ _) as [[]|] eqn:Er; [|done].
  destruct (ltb _ _) eqn:Ei; [done|].
  do 4 (destruct (reject_unobserved _ _ _) as [[]|] eqn:? in H; [|done]).
  destruct c as [sv rid p ls gs mp rs sb ct fs es], (observed_capabilities e); simpl in *.
  destruct (validate_slots _ _ _ _) as [out|] eqn:Eo; [|done].
  injection H as <-. split; [|by exists out].
  split; simpl; subst; eauto using reject_unobserved_Ok, validate_resources_Ok.
  destruct (le_total (maximum_isolation sb) (maximum_isolation cap_sandbox)) as [?|Hle]; [done|].
  apply le_lt_eq in Hle as [Hlt|Heq]; [|rewrite Heq; apply le_refl].
  apply ltb_lt in Hlt. congruence.
Qed.

Lemma at_least_with_routing (c c' : RunnerCapabilities) (labels : list RunnerLabel)
    (groups : list RunnerGroup) :
  at_least c c' →
  at_least (with_groups groups (with_labels labels c))
    (with_groups groups (with_labels labels c')).
Proof. destruct c, c'. intros []. split; simpl in *; auto. Qed.

Lemma bset_from_filter {A : Type} `{!Ord A} (s t : BTreeSet A) :
  bset_from (List.filter (bset_contains t) (elems s)) = bset_intersection s t.
Proof. apply (bset_from_elems (bset_intersection s t)). Qed.

(** The intersection, field by field. *)
Lemma intersect_Ok (a b c : RunnerCapabilities) :
  intersect_runner_capabilities a b = Ok c →
  capabilities_validate a = Ok tt ∧ capabilities_validate b = Ok tt ∧
  cap_runner_id a = cap_runner_id b ∧ cap_platform a = cap_platform b ∧
  c = MkRunnerCapabilities CORE_SCHEMA_VERSION (cap_runner_id a) (cap_platform a)
    bset_empty bset_empty (Z.min (cap_max_parallel_jobs a) (cap_max_parallel_jobs b))
    (MkResourceCapacity
      (Z.min (cpu_millis (cap_resources_per_job a)) (cpu_millis (cap_resources_per_job b)))
      (Z.min (memory_bytes (cap_resources_per_job a)) (memory_bytes (cap_resources_per_job b)))
      (Z.min (ephemeral_disk_bytes (cap_resources_per_job a))
             (ephemeral_disk_bytes (cap_resources_per_job b)))
      (Z.min (gpu_count (cap_resources_per_job a)) (gpu_count (cap_resources_per_job b))))
    (MkSandboxCapabilities
      (ord_min (maximum_isolation (cap_sandbox a)) (maximum_isolation (cap_sandbox b)))
      (bset_intersection (sandbox_features (cap_sandbox a)) (sandbox_features (cap_sandbox b))))
    (bset_intersection (cap_containers a) (cap_containers b))
    (bset_intersection (cap_features a) (cap_features b))
    (bset_intersection (cap_environment_profiles a) (cap_environment_profiles b)).
Proof.
  unfold intersect_runner_capabilities. unfold_monad.
  destruct (capabilities_validate a) as [[]|]; [|done].
  destruct (capabilities_validate b) as [[]|]; [|done].
  destruct (Z.eqb_spec (cap_runner_id a) (cap_runner_id b)); [|done]. simpl.
  case_bool_decide; [|done]. simpl.
  unfold with_max_parallel_jobs, container_capabilities_new, sandbox_capabilities_new,
    with_environment_profiles, with_features, with_containers, with_sandbox,
    with_resources_per_job, runner_capabilities_new.
  destruct (Z.eqb_spec (Z.min (cap_max_parallel_jobs a) (cap_max_parallel_jobs b)) 0); [done|].
  rewrite !bset_from_filter. by intros [= <-].
Qed.

Lemma intersect_at_least (a b c : RunnerCapabilities) :
  0 <= cap_max_parallel_jobs a → 0 <= cap_max_parallel_jobs b →
  intersect_runner_capabilities a b = Ok c →
  at_least c (without_selectors a) ∧ at_least c (without_selectors b).
Proof.
  intros Ha Hb (Hva & Hvb & _ & Hp & ->)%intersect_Ok.
  apply cap_validate_Ok in Hva as [Hsa _], Hvb as [Hsb _].
  destruct (ord_min_spec (maximum_isolation (cap_sandbox a)) (maximum_isolation (cap_sandbox b)))
    as (Hm1 & Hm2 & _).
  destruct a, b; simpl in *. split; split; simpl; rewrite ?fits_within_spec; simpl;
    try setoid_rewrite elem_of_bset_intersection; try (intros; tauto); auto; lia.
Qed.

(** A requirement the intersection leaves unmet is unmet by one of the two. *)
Lemma intersect_unmet (a b c : RunnerCapabilities) (r : RunnerRequirements) m :
  intersect_runner_capabilities a b = Ok c → unmet c r m →
  ∃ m', unmet (without_selectors a) r m' ∨ unmet (without_selectors b) r m'.
Proof.
  intros (Hva & Hvb & _ & Hp & ->)%intersect_Ok Hu.
  apply cap_validate_Ok in Hva as [Hsa Hja], Hvb as [Hsb Hjb].
  destruct (ord_min_spec (maximum_isolation (cap_sandbox a)) (maximum_isolation (cap_sandbox b)))
    as (_ & _ & Hm).
  destruct a as [????????? fa ea], b as [????????? fb eb]; simpl in *.
  destruct Hu as [H|H|l Hl Hn|Hg Hn|os Ho Hn|ar Ho Hn|H|H|H|H|H|H|f Hf Hn|f Hf Hn|f Hf Hn|p Hf Hn];
    simpl in *.
  1: done.
  1: eexists; left; by eapply unmet_requirements_schema.
  1: eexists; left; by eapply unmet_label.
  1: eexists; left; by eapply unmet_group.
  1: eexists; left; by eapply unmet_operating_system.
  1: eexists; left; by eapply unmet_architecture.
  1: lia.
  1-4: apply Z.min_lt_iff in H as [H|H]; eexists; [left|right]; eauto with automata.
  1: destruct Hm as [Hm|Hm]; rewrite Hm in H; eexists; [left|right]; eauto with automata.
  all: rewrite elem_of_bset_intersection in Hn.
  1: destruct (bset_contains (sandbox_features cap_sandbox) f) eqn:E.
  3: destruct (bset_contains cap_containers f) eqn:E.
  5: destruct (bset_contains fa f) eqn:E.
  7: destruct (bset_contains ea p) eqn:E.
  all: rewrite <- ?not_true_iff_false, bset_contains_spec in E.
  all: eexists; (left; by eauto with automata) || (right; eauto with automata).
Qed.

(** ** Properties *)

(** A scheduling snapshot is accepted exactly when no attempt, runner or
    session identity repeats, and it then holds the given slices. *)
Lemma snapshot_accepts_exactly_duplicate_free (cs : Slice RunnableCandidate)
    (rs : Slice EffectiveRunner) :
  match scheduling_input_new cs rs with
  | Ok i => i = MkSchedulingInput cs rs ∧ duplicate_free (slice_items cs) (slice_items rs)
  | Err _ => ¬ duplicate_free (slice_items cs) (slice_items rs)
  end.
Proof.
  pose proof (scheduling_input_new_Ok cs rs) as H.
  destruct (scheduling_input_new cs rs) as [i|e]; [by apply H|].
  intros Hd. by discriminate (proj2 (H (MkSchedulingInput cs rs)) (conj eq_refl Hd)).
Qed.

(** C34: when the deterministic policy places, the placement names a candidate
    and a runner of the snapshot, the runner meets every requirement of the
    candidate and the slot is free; no usable pair has an earlier candidate in
    (queue time, attempt) order, no usable runner of that candidate has a
    smaller identity, and no free slot of that runner has a smaller ordinal. *)
Theorem placement_is_first_usable (s : DeterministicScheduler) (i : SchedulingInput)
    (p : Placement) :
  decide_placement s i = Place p →
  ∃ c r slot, c ∈ candidates_of i ∧ r ∈ runners_of i ∧ slot ∈ available_slots r ∧
    compatible c r ∧ p = placement_of c r slot ∧
    (∀ c' r', c' ∈ candidates_of i → r' ∈ runners_of i → usable c' r' →
       le (candidate_key c) (candidate_key c')) ∧
    (∀ r', r' ∈ runners_of i → usable c r' → runner_key r <= runner_key r') ∧
    (∀ slot', slot' ∈ available_slots r → le slot slot').
Proof.
  intros Hp. destruct (decide (candidates_of i = [])) as [E|Hc].
  { unfold candidates_of in E. unfold decide_placement, deterministic_scheduler in Hp.
    unfold slice_is_empty in Hp. by rewrite E in Hp. }
  destruct (decide (runners_of i = [])) as [E|Hr].
  { unfold runners_of in E. unfold decide_placement, deterministic_scheduler in Hp.
    unfold slice_is_empty in Hp. rewrite E in Hp. by destruct (slice_items _). }
  pose proof (decide_ok s i Hc Hr) as H. rewrite Hp in H.
  destruct H as (cs1 & c & cs2 & rs1 & r & rs2 & slot & Ec & Er & -> & Hcr & Hf & H1 & H2).
  apply bset_first_Some in Hf as [Hs Hmin]. exists c, r, slot.
  split; [apply (elem_of_sort_by_key candidate_key); fold (queue_order i); rewrite Ec; set_solver|].
  split; [apply (elem_of_sort_by_key runner_key); fold (runner_order i); rewrite Er; set_solver|].
  do 3 (split; [done|]). split; [|split; [|done]].
  - intros c' r' Hc' Hr' Hu. eapply (sorted_prefix_le candidate_key); [exact Ec|done|].
    intros Hin. apply (H2 c' r'); [done| |done]. by apply (elem_of_sort_by_key runner_key).
  - intros r' Hr' Hu.
    cut (le (runner_key r) (runner_key r')); [unfold le; simpl; by rewrite Z.compare_gt_iff; lia|].
    eapply (sorted_prefix_le runner_key); [exact Er|done|]. intros Hin. by apply (H1 r').
Qed.

(** When the deterministic policy declines, no pair of the snapshot is
    usable. The diagnosis names the empty side of the snapshot, or gives every
    candidate, in queue order, a reason: the non-empty list of exactly the
    compatible runners (all busy), or every runner with its complete mismatches. *)
Lemma declines_are_explained (s : DeterministicScheduler) (i : SchedulingInput)
    (d : PlacementDecline) :
  decide_placement s i = Decline d →
  (∀ c r, c ∈ candidates_of i → r ∈ runners_of i → ¬ usable c r) ∧
  match d with
  | NoRunnableCandidates => candidates_of i = []
  | NoEffectiveRunners => candidates_of i ≠ [] ∧ runners_of i = []
  | Candidates ds => Forall2 (decline_explains (runner_order i)) (queue_order i) ds
  end.
Proof.
  intros Hp. destruct (decide (candidates_of i = [])) as [E|Hc].
  { rewrite E. split; [set_solver|]. unfold candidates_of in E. revert Hp.
    unfold decide_placement, deterministic_scheduler, slice_is_empty. rewrite E.
    by intros [= <-]. }
  destruct (decide (runners_of i = [])) as [E|Hr].
  { rewrite E. split; [set_solver|]. unfold candidates_of, runners_of in *. revert Hp.
    unfold decide_placement, deterministic_scheduler, slice_is_empty. rewrite E.
    destruct (slice_items (input_candidates i)); [done|]. by intros [= <-]. }
  pose proof (decide_ok s i Hc Hr) as H. rewrite Hp in H.
  destruct d as [| |ds]; [done..|]. destruct H as (out & -> & Hout & Hu). split; [|done].
  intros c r Hc' Hr'. apply Hu; by apply elem_of_sort_by_key.
Qed.

(** The decision depends on the records of the snapshot, not on the order
    or the addresses of the slices they were borrowed from. *)
Lemma decision_ignores_slice_order (s : DeterministicScheduler)
    (cs cs' : Slice RunnableCandidate) (rs rs' : Slice EffectiveRunner)
    (i i' : SchedulingInput) :
  scheduling_input_new cs rs = Ok i → scheduling_input_new cs' rs' = Ok i' →
  slice_items cs ≡ₚ slice_items cs' → slice_items rs ≡ₚ slice_items rs' →
  decide_placement s i = decide_placement s i'.
Proof.
  intros [-> [Ha Hr _]]%scheduling_input_new_Ok [-> _]%scheduling_input_new_Ok Pc Pr.
  unfold decide_placement, deterministic_scheduler, slice_is_empty. simpl.
  destruct (slice_items cs) as [|c l] eqn:E1, (slice_items cs') as [|c' l'] eqn:E1';
    [done|by apply Permutation_nil_cons in Pc|symmetry in Pc; by apply Permutation_nil_cons in Pc|].
  destruct (slice_items rs) as [|r k] eqn:E2, (slice_items rs') as [|r' k'] eqn:E2';
    [done|by apply Permutation_nil_cons in Pr|symmetry in Pr; by apply Permutation_nil_cons in Pr|].
  apply decide_loop_deref; simpl; try (intros x; by rewrite elem_of_sort_by_key).
  - rewrite !sort_by_key_fmap, !deref_iter, E2, E2'. apply sort_by_key_unique; [|done].
    intros x y Hx Hy. by apply (NoDup_fmap_inj runner_key (r :: k)).
  - rewrite !sort_by_key_fmap, !deref_iter, E1, E1'. apply sort_by_key_unique; [|done].
    intros x y Hx Hy [= _ Hid]. by apply (NoDup_fmap_inj candidate_attempt_id (c :: l)).
Qed.

(** The placement factory accepts exactly a candidate and a runner that
    are elements of the snapshot's own slices (not equal copies elsewhere), a
    slot the runner has free, and requirements the runner meets. *)
Lemma place_accepts_exactly (i : SchedulingInput) (c : Ref RunnableCandidate)
    (r : Ref EffectiveRunner) (slot : RunnerSlot) :
  match place i c r slot with
  | Ok p => p = placement_of (deref c) (deref r) slot ∧
      addr c ∈ addr <$> iter (input_candidates i) ∧ addr r ∈ addr <$> iter (input_runners i) ∧
      slot ∈ available_slots (deref r) ∧ compatible (deref c) (deref r)
  | Err ForeignCandidate => addr c ∉ addr <$> iter (input_candidates i)
  | Err ForeignRunner => addr r ∉ addr <$> iter (input_runners i)
  | Err UnavailableSlot => ¬ slot ∈ available_slots (deref r)
  | Err IncompatibleRunner => ¬ compatible (deref c) (deref r)
  end.
Proof.
  assert (Hptr : ∀ A (l : list (Ref A)) (x : Ref A),
    existsb (λ member, ptr_eq member x) l = true ↔ addr x ∈ addr <$> l).
  { intros A l x. rewrite existsb_exists, list_elem_of_fmap. unfold ptr_eq.
    setoid_rewrite list_elem_of_In. setoid_rewrite Z.eqb_eq. naive_solver. }
  unfold place.
  destruct (existsb _ (iter (input_candidates i))) eqn:E1; simpl;
    [apply Hptr in E1|intros H%Hptr; congruence].
  destruct (existsb _ (iter (input_runners i))) eqn:E2; simpl;
    [apply Hptr in E2|intros H%Hptr; congruence].
  destruct (bset_contains _ slot) eqn:E3; simpl;
    [apply bset_contains_spec in E3|intros H%bset_contains_spec; congruence].
  destruct (is_ok _) eqn:E4; simpl;
    [apply is_ok_satisfies in E4; auto 6|].
  unfold compatible, candidate_requirements. intros H%is_ok_satisfies. congruence.
Qed.

(** Authorising a runner never extends what it was observed to offer.
    Whatever requirements the effective runner satisfies, the observed
    advertisement with the server's labels and groups satisfies too; the free
    slots are the requested ones, all of the session's runner and within the
    observed slot count. *)
Lemma authorize_never_exceeds_evidence (e : RunnerEvidence)
    (routing : AuthorizedRunnerRouting) (c : RunnerCapabilities) (slots : list RunnerSlot)
    (r : EffectiveRunner) :
  capabilities_validate (observed_capabilities e) = Ok tt →
  0 <= cap_max_parallel_jobs c → authorize e routing c slots = Ok r →
  effective_session r = evidence_session e ∧
  (∀ q, satisfies (effective_capabilities r) q = Ok tt →
     satisfies (with_groups (elems (routing_groups routing))
                 (with_labels (elems (routing_labels routing)) (observed_capabilities e))) q
     = Ok tt) ∧
  (∀ slot, slot ∈ available_slots r ↔ slot ∈ slots) ∧
  (∀ slot, slot ∈ available_slots r →
     slot_runner_id slot = session_runner_id (evidence_session e) ∧
     1 <= bget (slot_ordinal slot) <= cap_max_parallel_jobs (observed_capabilities e)).
Proof.
  intros [Hsv _]%cap_validate_Ok Hpos Ha.
  destruct (authorize_Ok e routing c slots r Hsv Hpos Ha) as (Hal & out & Hs & ->). simpl.
  apply validate_slots_Ok in Hs as [Hin Hs]. split; [done|]. split; [|split].
  - intros q Hq. revert Hq. apply satisfies_monotone.
    apply (at_least_with_routing _ _ (elems (routing_labels routing))
             (elems (routing_groups routing))) in Hal.
    by destruct (observed_capabilities e).
  - intros slot. rewrite Hin. pose proof (not_elem_of_bset_empty slot). naive_solver.
  - intros slot Hslot. apply Hin in Hslot as [[]%not_elem_of_bset_empty|Hslot].
    destruct (Hs slot Hslot) as [-> Hmax]. split; [done|].
    pose proof (bounded_range (slot_ordinal slot)). apply al_slots in Hal.
    destruct (observed_capabilities e); simpl in *. lia.
Qed.

(** The intersection of a registered and an observed advertisement is
    their meet. It exists when both validate and name the same runner and
    platform, and it satisfies exactly the requirements that both machines
    satisfy once their selectors are removed. *)
Lemma intersection_is_meet (a b : RunnerCapabilities) :
  0 <= cap_max_parallel_jobs a → 0 <= cap_max_parallel_jobs b →
  match intersect_runner_capabilities a b with
  | Ok c => ∀ q, satisfies c q = Ok tt ↔
      satisfies (without_selectors a) q = Ok tt ∧ satisfies (without_selectors b) q = Ok tt
  | Err _ => capabilities_validate a ≠ Ok tt ∨ capabilities_validate b ≠ Ok tt ∨
      cap_runner_id a ≠ cap_runner_id b ∨ cap_platform a ≠ cap_platform b
  end.
Proof.
  intros Ha Hb. destruct (intersect_runner_capabilities a b) as [c|] eqn:E.
  - intros q. destruct (intersect_at_least a b c Ha Hb E) as [H1 H2].
    split; [eauto using satisfies_monotone|]. rewrite !satisfies_Ok.
    intros [Hqa Hqb] m Hm. destruct (intersect_unmet _ _ _ _ _ E Hm) as [m' [H|H]];
      [by apply (Hqa m')|by apply (Hqb m')].
  - revert E. unfold intersect_runner_capabilities. unfold_monad.
    pose proof (cap_validate_Ok a) as Hva. pose proof (cap_validate_Ok b) as Hvb.
    destruct (capabilities_validate a) as [[]|]; [|by left].
    destruct (capabilities_validate b) as [[]|]; [|by right; left].
    destruct (Z.eqb_spec (cap_runner_id a) (cap_runner_id b)); [|by do 2 right; left].
    simpl. case_bool_decide; [|by do 3 right]. simpl. unfold with_max_parallel_jobs.
    destruct (Z.eqb_spec (Z.min (cap_max_parallel_jobs a) (cap_max_parallel_jobs b)) 0); [|done].
    destruct Hva as [Hva _], Hvb as [Hvb _].
    destruct (Hva eq_refl), (Hvb eq_refl). lia.
Qed.

(** ** Witnesses *)

Definition demo_slot (runner : RunnerId) : RunnerSlot :=
  MkRunnerSlot runner (MkBounded (lo := 1) (hi := u16_max) 1 I).

Definition demo_capabilities (runner : RunnerId) : RunnerCapabilities :=
  runner_capabilities_new runner (MkRunnerPlatform Linux X86_64).

Definition demo_evidence (runner : RunnerId) : RunnerEvidence :=
  MkRunnerEvidence (MkSessionGuard runner (100 + runner)) (demo_capabilities runner) 5.

Definition demo_routing : AuthorizedRunnerRouting :=
  authorized_runner_routing_new [lit "linux"] [].

Definition demo_runner (runner : RunnerId) : EffectiveRunner :=
  MkEffectiveRunner (MkSessionGuard runner (100 + runner))
    (with_groups [] (with_labels [lit "linux"] (demo_capabilities runner)))
    (bset_from [demo_slot runner]) 5.

Definition demo_candidate (attempt queued : Z) (label : str) : RunnableCandidate :=
  MkRunnableCandidate attempt (10 * attempt) queued
    (MkRoutingRequirements (req_with_labels [label] runner_requirements_default)).

Definition demo_candidates : list RunnableCandidate :=
  [demo_candidate 1 30 (lit "linux"); demo_candidate 2 20 (lit "linux");
   demo_candidate 3 10 (lit "gpu")].

Definition demo_input : SchedulingInput :=
  MkSchedulingInput (MkSlice 0 demo_candidates) (MkSlice 64 [demo_runner 8; demo_runner 7]).

Definition demo_placement : Placement :=
  MkPlacement 2 20 (MkSessionGuard 7 107) (demo_slot 7).

Lemma placement_is_first_usable_witness :
  decide_placement MkDeterministicScheduler demo_input = Place demo_placement ∧
  ∃ c, c ∈ candidates_of demo_input ∧ candidate_attempt_id c = 2.
Proof.
  assert (H : decide_placement MkDeterministicScheduler demo_input = Place demo_placement)
    by (vm_compute; reflexivity).
  split; [exact H|].
  destruct (placement_is_first_usable MkDeterministicScheduler demo_input demo_placement H)
    as (c & r & slot & Hc & _ & _ & _ & Hp & _).
  exists c. split; [exact Hc|]. by injection Hp.
Defined.

Definition demo_busy_input : SchedulingInput :=
  MkSchedulingInput (MkSlice 0 [demo_candidate 3 10 (lit "gpu")]) (MkSlice 64 [demo_runner 7]).

