(* ===== verification/Cron.v ===== *)
(** * Cron: five-field schedules and their evaluation in a time zone

    Models [crates/automata-ci-schedule/src/lib.rs]: the parser of the bounded
    POSIX grammar, the 64-bit field masks, the five-minute spacing rule, the
    day-of-month / day-of-week rule and the calendar search [next_after].

    Calendar and time-zone arithmetic is the [jiff] crate, which is not part
    of the repository: its operations are the class [Jiff] and what the search
    relies on is the class [JiffLaws]. *)

From S2P Require Import Prelude Text.

(** ** Limits *)

Definition MAX_CRON_EXPRESSION_BYTES : Z := 256.
Definition MAX_IANA_TIMEZONE_BYTES : Z := 255.
Definition MINIMUM_CRON_INTERVAL_MINUTES : Z := 5.
Definition MAXIMUM_CALENDAR_SEARCH_DAYS : nat := 3660.

Inductive ScheduleLimitRejection := ExpressionBytes | TimezoneBytes | IntervalMinutes.

Definition cron_expression_byte_rejection (observed : Z) : option ScheduleLimitRejection :=
  if MAX_CRON_EXPRESSION_BYTES <? observed then Some ExpressionBytes else None.
Definition timezone_byte_rejection (observed : Z) : option ScheduleLimitRejection :=
  if MAX_IANA_TIMEZONE_BYTES <? observed then Some TimezoneBytes else None.
Definition cron_interval_rejection (observed : Z) : option ScheduleLimitRejection :=
  if observed <? MINIMUM_CRON_INTERVAL_MINUTES then Some IntervalMinutes else None.

Inductive ScheduleError :=
| InvalidExpression
| IntervalTooShort
| InvalidTimezone
| TimestampOutOfRange
| NoFutureMatch.

(** ** Fields *)

Record Field := MkField { bits : Z; minimum : Z; maximum : Z }.

Definition contains (self : Field) (value : Z) : bool :=
  (minimum self <=? value) && (value <=? maximum self) &&
  negb (Z.land (bits self) (Z.shiftl 1 (value - minimum self)) =? 0).

Definition is_unrestricted (self : Field) : bool :=
  let width := maximum self - minimum self + 1 in
  let all := if width =? 64 then u64_max else Z.shiftl 1 width - 1 in
  bits self =? all.

Inductive FieldKind := Minute | Hour | DayOfMonth | Month | DayOfWeek.

#[export] Instance field_kind_eq_dec : EqDecision FieldKind.
Proof. solve_decision. Defined.

Definition bounds (kind : FieldKind) : Z * Z :=
  match kind with
  | Minute => (0, 59)
  | Hour => (0, 23)
  | DayOfMonth => (1, 31)
  | Month => (1, 12)
  | DayOfWeek => (0, 6)
  end.

Definition MONTH_NAMES : list str :=
  [lit "JAN"; lit "FEB"; lit "MAR"; lit "APR"; lit "MAY"; lit "JUN"; lit "JUL"; lit "AUG";
   lit "SEP"; lit "OCT"; lit "NOV"; lit "DEC"].
Definition WEEKDAY_NAMES : list str :=
  [lit "SUN"; lit "MON"; lit "TUE"; lit "WED"; lit "THU"; lit "FRI"; lit "SAT"].

(** [iter().position(..)]: the index of the first match. *)
Fixpoint position {A : Type} (f : A → bool) (l : list A) : option Z :=
  match l with
  | [] => None
  | x :: l => if f x then Some 0
              else match position f l with Some i => Some (i + 1) | None => None end
  end.

Definition named_value (source : str) (names : list str) : option Z :=
  match position (λ name, eq_ignore_ascii_case source name) names with
  | Some index => if index <=? u16_max then Some index else None
  | None => None
  end.

Definition parse_value (source : str) (kind : FieldKind) : result ScheduleError Z :=
  match parse_uint u16_max source with
  | Some value => Ok value
  | None =>
      ok_or
        match kind with
        | Month => match named_value source MONTH_NAMES with
                   | Some value => Some (value + 1)
                   | None => None
                   end
        | DayOfWeek => named_value source WEEKDAY_NAMES
        | _ => None
        end InvalidExpression
  end.

Definition normalize_value (value : Z) (kind : FieldKind) : result ScheduleError Z :=
  if bool_decide (kind = DayOfWeek) && (value =? 7) then Ok 0
  else
    let '(minimum, maximum) := bounds kind in
    if (minimum <=? value) && (value <=? maximum) then Ok value else Err InvalidExpression.

Definition parse_base (source : str) (kind : FieldKind) (minimum maximum : Z)
    (stepped : bool) : result ScheduleError (Z * Z) :=
  if str_eqb source (lit "*") then Ok (minimum, maximum)
  else
    match split_once 45 source with
    | Some (start, end_) =>
        if str_is_empty start || str_is_empty end_ || str_contains end_ 45 then
          Err InvalidExpression
        else
          start ← parse_value start kind;
          end_ ← parse_value end_ kind;
          let syntax_maximum := if bool_decide (kind = DayOfWeek) then 7 else maximum in
          if (end_ <? start) || (start <? minimum) || (syntax_maximum <? end_) then
            Err InvalidExpression
          else Ok (start, end_)
    | None =>
        value ← parse_value source kind;
        start ← normalize_value value kind;
        if (start <? minimum) || (maximum <? start) then Err InvalidExpression
        else Ok (start, if stepped then maximum else start)
    end.

Definition split_step (source : str) (maximum : Z) : result ScheduleError (str * Z * bool) :=
  match split_once 47 source with
  | None => Ok (source, 1, false)
  | Some (base, step) =>
      if str_is_empty base || str_is_empty step || str_contains step 47 then
        Err InvalidExpression
      else
        step ← ok_or (match parse_uint u16_max step with
                      | Some step => if (0 <? step) && (step <=? maximum) then Some step else None
                      | None => None
                      end) InvalidExpression;
        Ok (base, step, true)
  end.

(** [while value <= end { .. }]. Each pass adds at least one to [value], so
    [end - start + 1] passes exhaust the range. *)
Fixpoint select_loop (fuel : nat) (kind : FieldKind) (minimum step end_ : Z)
    (bits value : Z) : result ScheduleError Z :=
  match fuel with
  | O => Ok bits
  | S fuel =>
      if value <=? end_ then
        normalized ← normalize_value value kind;
        let bits := Z.lor bits (Z.shiftl 1 (normalized - minimum)) in
        match checked_add u16_max value step with
        | None => Ok bits
        | Some next => select_loop fuel kind minimum step end_ bits next
        end
      else Ok bits
  end.

Definition parse_item (kind : FieldKind) (field_bits : Z) (item : str) :
    result ScheduleError Z :=
  let '(minimum, maximum) := bounds kind in
  if str_is_empty item then Err InvalidExpression
  else
    '(base, step, stepped) ← split_step item (maximum - minimum + 1);
    '(start, end_) ← parse_base base kind minimum maximum stepped;
    select_loop (Z.to_nat (end_ - start + 1)) kind minimum step end_ field_bits start.

Definition parse_field (source : str) (kind : FieldKind) : result ScheduleError Field :=
  if str_is_empty source then Err InvalidExpression
  else
    let '(minimum, maximum) := bounds kind in
    field_bits ← try_fold (parse_item kind) 0 (split 44 source);
    if field_bits =? 0 then Err InvalidExpression
    else Ok (MkField field_bits minimum maximum).

(** ** Expressions *)

Record CronExpression := MkCronExpression {
  exact : str;
  minutes : Field;
  hours : Field;
  days_of_month : Field;
  months : Field;
  days_of_week : Field;
}.

Definition validate_expression_text (expression : str) : result ScheduleError unit :=
  reject (str_is_empty expression ||
          is_some (cron_expression_byte_rejection (str_len expression)) ||
          negb (str_eqb (trim expression) expression) ||
          negb (str_is_ascii expression) ||
          starts_with 64 expression ||
          existsb (λ byte, negb (is_ascii_alphanumeric byte || str_contains (lit "*,-/ ") byte))
            (as_bytes expression))
    InvalidExpression.

(** The selected minutes of a day, in order. *)
Definition daily_times (self : CronExpression) : list Z :=
  seqZ 0 24 ≫= λ hour,
    if negb (contains (hours self) hour) then []
    else seqZ 0 60 ≫= λ minute,
      if contains (minutes self) minute then [hour * 60 + minute] else [].

(** [for pair in times.windows(2) { minimum = minimum.min(pair[1] - pair[0]) }]. *)
Fixpoint minimum_gap (minimum : Z) (times : list Z) : Z :=
  match times with
  | a :: (b :: _) as rest => minimum_gap (Z.min minimum (b - a)) rest
  | _ => minimum
  end.

Definition minimum_daily_interval (self : CronExpression) : Z :=
  let times := daily_times self in
  let minimum := minimum_gap (24 * 60) times in
  match head times, last times with
  | Some first, Some last => Z.min minimum (24 * 60 - last + first)
  | _, _ => minimum
  end.

Definition cron_parse (source : str) : result ScheduleError CronExpression :=
  _ ← validate_expression_text source;
  match split_ascii_whitespace source with
  | [minute; hour; calendar_day; month; weekday] =>
      minutes ← parse_field minute Minute;
      hours ← parse_field hour Hour;
      days_of_month ← parse_field calendar_day DayOfMonth;
      months ← parse_field month Month;
      days_of_week ← parse_field weekday DayOfWeek;
      let expression :=
        MkCronExpression source minutes hours days_of_month months days_of_week in
      if is_some (cron_interval_rejection (minimum_daily_interval expression)) then
        Err IntervalTooShort
      else Ok expression
  | _ => Err InvalidExpression
  end.

(** [u16::try_from(i8)]. *)
Definition u16_try_from (value : Z) : option Z := if 0 <=? value then Some value else None.

Definition matches_date_components (self : CronExpression) (day month weekday : Z) : bool :=
  match u16_try_from day, u16_try_from month, u16_try_from weekday with
  | Some day, Some month, Some weekday =>
      if negb (contains (months self) month) then false
      else
        let day_matches := contains (days_of_month self) day in
        let weekday_matches := contains (days_of_week self) weekday in
        match is_unrestricted (days_of_month self), is_unrestricted (days_of_week self) with
        | true, true => true
        | true, false => weekday_matches
        | false, true => day_matches
        | false, false => day_matches || weekday_matches
        end
  | _, _, _ => false
  end.

Definition matches_components (self : CronExpression) (minute hour day month weekday : Z) :
    bool :=
  match u16_try_from minute, u16_try_from hour with
  | Some minute, Some hour =>
      contains (minutes self) minute && contains (hours self) hour &&
      matches_date_components self day month weekday
  | _, _ => false
  end.

(** ** The calendar library *)

Record Civil (Date : Type) := MkCivil {
  civil_date : Date;
  civil_hour : Z;
  civil_minute : Z;
  civil_second : Z;
  civil_nanosecond : Z;
}.
Arguments MkCivil {Date} _ _ _ _ _.
Arguments civil_date {Date} _.
Arguments civil_hour {Date} _.
Arguments civil_minute {Date} _.
Arguments civil_second {Date} _.
Arguments civil_nanosecond {Date} _.

(** The instants of a civil time; resolving one may leave the supported range. *)
Inductive Ambiguous :=
| Gap
| Unambiguous (instant : option Z)
| Fold (earlier later : option Z).

Class Jiff := {
  TimeZone : Type;
  Date : Type;
  tz_get : str → option TimeZone;
  from_millisecond : Z → option Z;
  as_millisecond : Z → Z;
  to_zoned : TimeZone → Z → Civil Date;
  to_ambiguous : TimeZone → Civil Date → Ambiguous;
  date_day : Date → Z;
  date_month : Date → Z;
  date_weekday : Date → Z;
  date_tomorrow : Date → option Date;
}.

(** ** Evaluation *)

Section Evaluation.
  Context {J : Jiff}.

Definition parse_timezone (source : str) : result ScheduleError TimeZone :=
  if str_is_empty source || is_some (timezone_byte_rejection (str_len source)) ||
     negb (str_eqb (trim source) source) || negb (str_is_ascii source) ||
     existsb is_ascii_control (as_bytes source)
  then Err InvalidTimezone
  else ok_or (tz_get source) InvalidTimezone.

Definition validate_iana_timezone (source : str) : result ScheduleError unit :=
  _ ← parse_timezone source; Ok tt.

Definition matches_at (self : CronExpression) (instant : Z) (timezone : str) :
    result ScheduleError bool :=
  timezone ← parse_timezone timezone;
  timestamp ← ok_or (from_millisecond instant) TimestampOutOfRange;
  let local := to_zoned timezone timestamp in
  Ok ((civil_second local =? 0) && (civil_nanosecond local =? 0) &&
      matches_components self (civil_minute local) (civil_hour local)
        (date_day (civil_date local)) (date_month (civil_date local))
        (date_weekday (civil_date local))).

Definition matches_date (self : CronExpression) (date : Date) : bool :=
  matches_date_components self (date_day date) (date_month date) (date_weekday date).

Definition retain_candidate (best : option Z) (candidate after : Z) : option Z :=
  if (after <? candidate) &&
     match best with None => true | Some current => candidate <? current end
  then Some candidate else best.

(** [i8::try_from(u16)]. *)
Definition i8_try_from (value : Z) : option Z := if value <=? 127 then Some value else None.

Definition consider_minute (self : CronExpression) (date : Date) (timezone : TimeZone)
    (after hour : Z) (best : option Z) (minute : Z) : result ScheduleError (option Z) :=
  if negb (contains (minutes self) minute) then Ok best
  else
    local_hour ← ok_or (i8_try_from hour) TimestampOutOfRange;
    local_minute ← ok_or (i8_try_from minute) TimestampOutOfRange;
    match to_ambiguous timezone (MkCivil date local_hour local_minute 0 0) with
    | Gap => Ok best
    | Unambiguous instant =>
        candidate ← ok_or instant TimestampOutOfRange;
        Ok (retain_candidate best candidate after)
    | Fold earlier later =>
        earlier ← ok_or earlier TimestampOutOfRange;
        later ← ok_or later TimestampOutOfRange;
        Ok (retain_candidate (retain_candidate best earlier after) later after)
    end.

Definition consider_hour (self : CronExpression) (date : Date) (timezone : TimeZone)
    (after : Z) (best : option Z) (hour : Z) : result ScheduleError (option Z) :=
  if negb (contains (hours self) hour) then Ok best
  else try_fold (consider_minute self date timezone after hour) best (seqZ 0 60).

Definition first_candidate_on (self : CronExpression) (date : Date) (timezone : TimeZone)
    (after : Z) : result ScheduleError (option Z) :=
  try_fold (consider_hour self date timezone after) None (seqZ 0 24).

(** The date loop; [days] counts the passes left. *)
Fixpoint search_days (days : nat) (self : CronExpression) (timezone : TimeZone)
    (timestamp : Z) (date : Date) : result ScheduleError Z :=
  match days with
  | O => Err NoFutureMatch
  | S days =>
      let continue :=
        date ← ok_or (date_tomorrow date) TimestampOutOfRange;
        search_days days self timezone timestamp date in
      if matches_date self date then
        candidate ← first_candidate_on self date timezone timestamp;
        match candidate with
        | Some candidate => Ok (as_millisecond candidate)
        | None => continue
        end
      else continue
  end.

Definition next_after (self : CronExpression) (instant : Z) (timezone : str) :
    result ScheduleError Z :=
  timezone ← parse_timezone timezone;
  timestamp ← ok_or (from_millisecond instant) TimestampOutOfRange;
  let date := civil_date (to_zoned timezone timestamp) in
  search_days MAXIMUM_CALENDAR_SEARCH_DAYS self timezone timestamp date.

End Evaluation.

(** ** What a field selects

    The grammar as a relation: what values an item of a list denotes. *)

Definition low (kind : FieldKind) : Z := fst (bounds kind).
Definition high (kind : FieldKind) : Z := snd (bounds kind).

(** Sunday may be written 0 or 7. *)
Definition syntax_high (kind : FieldKind) : Z :=
  match kind with DayOfWeek => 7 | _ => high kind end.
Definition wrap (kind : FieldKind) (value : Z) : Z :=
  match kind with DayOfWeek => if value =? 7 then 0 else value | _ => value end.

Inductive base_denotes (kind : FieldKind) (stepped : bool) : str → Z → Z → Prop :=
| base_star : base_denotes kind stepped (lit "*") (low kind) (high kind)
| base_range (a b : str) (x y : Z) :
    45 ∉ a → 45 ∉ b → parse_value a kind = Ok x → parse_value b kind = Ok y →
    low kind <= x <= y → y <= syntax_high kind → base_denotes kind stepped (a ++ 45 :: b) x y
| base_single (s : str) (x : Z) :
    s ≠ lit "*" → 45 ∉ s → parse_value s kind = Ok x → low kind <= x <= syntax_high kind →
    base_denotes kind stepped s (wrap kind x)
      (if stepped then high kind else wrap kind x).

Inductive item_denotes (kind : FieldKind) : str → Z → Prop :=
| item_plain (base : str) (lo hi v : Z) :
    47 ∉ base → base_denotes kind false base lo hi → lo <= v <= hi →
    item_denotes kind base (wrap kind v)
| item_stepped (base digits : str) (step lo hi k : Z) :
    47 ∉ base → 47 ∉ digits → parse_uint u16_max digits = Some step →
    1 <= step <= high kind - low kind + 1 → base_denotes kind true base lo hi →
    0 <= k → lo + k * step <= hi →
    item_denotes kind (base ++ 47 :: digits) (wrap kind (lo + k * step)).

(** ** Lemmas: masks *)

Lemma land_shiftl1 (b k : Z) : 0 <= k →
  negb (Z.land b (Z.shiftl 1 k) =? 0) = Z.testbit b k.
Proof.
  intros Hk. rewrite Z.shiftl_1_l. destruct (Z.testbit b k) eqn:E.
  - rewrite negb_true_iff, Z.eqb_neq. intros H.
    assert (Z.testbit (Z.land b (2 ^ k)) k = true) as Ht
      by (rewrite Z.land_spec, E, Z.pow2_bits_true by lia; done).
    rewrite H, Z.bits_0 in Ht. done.
  - rewrite negb_false_iff, Z.eqb_eq. apply Z.bits_inj'. intros n Hn.
    rewrite Z.land_spec, Z.bits_0. destruct (decide (n = k)) as [->|Hne]; [by rewrite E|].
    rewrite Z.pow2_bits_false by lia. apply andb_false_r.
Qed.

Lemma contains_testbit (f : Field) (v : Z) :
  contains f v = true ↔ minimum f <= v <= maximum f ∧ Z.testbit (bits f) (v - minimum f) = true.
Proof.
  unfold contains. rewrite !andb_true_iff, !Z.leb_le. split.
  - intros [[Ha Hb] Hbit]. rewrite land_shiftl1 in Hbit by lia. auto.
  - intros [[Ha Hb] Hbit]. rewrite land_shiftl1 by lia. auto.
Qed.

Lemma testbit_lor_shiftl1 (b k i : Z) : 0 <= k → 0 <= i →
  Z.testbit (Z.lor b (Z.shiftl 1 k)) i = true ↔ Z.testbit b i = true ∨ i = k.
Proof.
  intros Hk Hi. rewrite Z.lor_spec, orb_true_iff, Z.shiftl_1_l.
  destruct (decide (i = k)) as [->|Hne].
  - rewrite Z.pow2_bits_true by lia. tauto.
  - rewrite Z.pow2_bits_false by lia. intuition congruence.
Qed.

(** A mask whose bits all lie below [width] is full when it has them all. *)
Lemma full_mask (b width : Z) :
  0 <= width → (∀ i, 0 <= i → Z.testbit b i = true → i < width) →
  (b = Z.shiftl 1 width - 1 ↔ ∀ i, 0 <= i < width → Z.testbit b i = true).
Proof.
  intros Hw Hb. rewrite Z.shiftl_1_l.
  assert (2 ^ width - 1 = Z.ones width) as -> by (rewrite Z.ones_equiv; lia). split.
  - intros -> i Hi. by apply Z.ones_spec_low.
  - intros H. apply Z.bits_inj'. intros n Hn. destruct (Z.lt_ge_cases n width).
    + rewrite H, Z.ones_spec_low by lia. done.
    + rewrite Z.ones_spec_high by lia. destruct (Z.testbit b n) eqn:E; [|done].
      apply Hb in E; lia.
Qed.

(** ** Lemmas: the parser *)

Lemma normalize_value_Ok (kind : FieldKind) (v n : Z) :
  normalize_value v kind = Ok n ↔ n = wrap kind v ∧ low kind <= v <= syntax_high kind.
Proof.
  unfold normalize_value, wrap, low, syntax_high, high.
  destruct kind; simpl; try (destruct (_ && _) eqn:E; split;
    [intros [= <-]; split; [done|lia]|intros [-> ?]; done ||  lia|done|intros [-> ?]; lia]).
  destruct (Z.eqb_spec v 7) as [->|Hne]; simpl.
  - split; [intros [= <-]; lia|by intros [-> _]].
  - destruct (_ && _) eqn:E; split;
      [intros [= <-]; split; [done|lia]|by intros [-> _]|done|intros [-> ?]; lia].
Qed.

Lemma wrap_range (kind : FieldKind) (v : Z) :
  low kind <= v <= syntax_high kind → low kind <= wrap kind v <= high kind.
Proof.
  unfold wrap, low, syntax_high, high. destruct kind; simpl; try lia.
  destruct (Z.eqb_spec v 7); lia.
Qed.

Lemma wrap_id (kind : FieldKind) (v : Z) : v <= high kind → wrap kind v = v.
Proof.
  unfold wrap, high. destruct kind; try done. simpl. destruct (Z.eqb_spec v 7); lia.
Qed.

Lemma kind_bounds (kind : FieldKind) :
  0 <= low kind ∧ low kind < high kind ∧ high kind <= syntax_high kind ∧ syntax_high kind < 60.
Proof. unfold syntax_high, low, high. destruct kind; simpl; lia. Qed.

Lemma str_contains_elem (s : str) (c : Z) : str_contains s c = true ↔ c ∈ s.
Proof.
  unfold str_contains. rewrite existsb_exists. setoid_rewrite Z.eqb_eq.
  setoid_rewrite <- list_elem_of_In. naive_solver.
Qed.

Lemma parse_value_nonneg (s : str) (kind : FieldKind) (v : Z) :
  parse_value s kind = Ok v → s ≠ [].
Proof. intros H ->. unfold parse_value in H. by destruct kind; vm_compute in H. Qed.

Lemma parse_base_denotes (s : str) (kind : FieldKind) (stepped : bool) (lo hi : Z) :
  parse_base s kind (low kind) (high kind) stepped = Ok (lo, hi) ↔
  base_denotes kind stepped s lo hi.
Proof.
  pose proof (kind_bounds kind) as Hb.
  assert (Hsm : (if bool_decide (kind = DayOfWeek) then 7 else high kind) = syntax_high kind)
    by (by destruct kind).
  unfold parse_base, str_eqb. unfold_monad. split.
  - destruct (bool_decide (s = lit "*")) eqn:Hs;
      [apply bool_decide_eq_true in Hs as ->; intros [= <- <-]; constructor|].
    apply bool_decide_eq_false in Hs.
    destruct (split_once 45 s) as [[a b]|] eqn:Esp.
    + apply split_once_Some in Esp as [-> Ha].
      destruct (str_is_empty a || str_is_empty b || str_contains b 45) eqn:Et; [done|].
      apply orb_false_iff in Et as [_ Hc].
      rewrite <- not_true_iff_false, str_contains_elem in Hc.
      destruct (parse_value a kind) as [x|] eqn:Ea; [|done].
      destruct (parse_value b kind) as [y|] eqn:Eb; [|done]. rewrite Hsm.
      destruct (_ || _ || _) eqn:Et; [done|]. intros [= <- <-].
      apply base_range; [done..| |]; lia.
    + apply split_once_None in Esp.
      destruct (parse_value s kind) as [x|] eqn:Ex; [|done].
      destruct (normalize_value x kind) as [n|] eqn:En; [|done].
      apply normalize_value_Ok in En as [-> Hr].
      destruct (_ || _) eqn:Et; [done|]. intros [= <- <-]. by apply base_single.
  - destruct 1 as [|a b x y Ha Hbn Hpa Hpb Hr Hy|s x Hs Hn Hp Hr].
    + done.
    + rewrite bool_decide_eq_false_2
        by (change (lit "*") with [42]; intros Hs; by destruct a as [|c [|]]; simplify_eq/=).
      rewrite (proj2 (split_once_Some 45 (a ++ 45 :: b) a b)) by done.
      assert (str_contains b 45 = false) as ->
        by (rewrite <- not_true_iff_false, str_contains_elem; done).
      pose proof (parse_value_nonneg _ _ _ Hpa). pose proof (parse_value_nonneg _ _ _ Hpb).
      destruct a; [done|]. destruct b; [done|]. simpl. rewrite Hpa, Hpb, Hsm.
      destruct (_ || _ || _) eqn:Et; [lia|done].
    + rewrite bool_decide_eq_false_2 by done.
      rewrite (proj2 (split_once_None _ _)) by done. rewrite Hp.
      rewrite (proj2 (normalize_value_Ok kind x (wrap kind x))) by done.
      pose proof (wrap_range kind x Hr). destruct (_ || _) eqn:Et; [lia|done].
Qed.

Lemma base_denotes_range (kind : FieldKind) (stepped : bool) (s : str) (lo hi : Z) :
  base_denotes kind stepped s lo hi → low kind <= lo <= hi ∧ hi <= syntax_high kind.
Proof.
  pose proof (kind_bounds kind). destruct 1 as [| |s x ? ? ? Hr]; [lia..|].
  pose proof (wrap_range kind x Hr). destruct stepped; lia.
Qed.

Lemma split_step_Ok (s base : str) (w step : Z) (stepped : bool) :
  split_step s w = Ok (base, step, stepped) ↔
  (stepped = false ∧ step = 1 ∧ base = s ∧ 47 ∉ s) ∨
  (stepped = true ∧ ∃ digits, s = base ++ 47 :: digits ∧ (47 ∉ base) ∧ (47 ∉ digits) ∧ base ≠ [] ∧
     parse_uint u16_max digits = Some step ∧ 1 <= step <= w).
Proof.
  unfold split_step. unfold_monad. destruct (split_once 47 s) as [[b d]|] eqn:Es.
  - apply split_once_Some in Es as [-> Hb]. split.
    + destruct (str_is_empty b || str_is_empty d || str_contains d 47) eqn:Et; [done|].
      apply orb_false_iff in Et as [[Hbe _]%orb_false_iff Hc].
      rewrite <- not_true_iff_false, str_contains_elem in Hc.
      destruct (parse_uint u16_max d) as [n|] eqn:Ep; [|done].
      destruct (_ && _) eqn:Er; [|done]. intros [= <- <- <-]. right. split; [done|].
      exists d. do 3 (split; [done|]). split; [by destruct b|]. split; [done|lia].
    + intros [(_ & _ & _ & Hn)|(-> & d' & Heq & Hb' & Hd' & Hne & Hp & Hr)]; [set_solver|].
      assert (split_once 47 (b ++ 47 :: d) = Some (b, d)) as H1 by by apply split_once_Some.
      rewrite Heq, (proj2 (split_once_Some 47 (base ++ 47 :: d') base d')) in H1 by done.
      injection H1 as -> ->.
      assert (str_contains d 47 = false) as ->
        by (rewrite <- not_true_iff_false, str_contains_elem; done).
      destruct b; [done|]. destruct d; [by vm_compute in Hp|]. simpl. rewrite Hp.
      destruct (_ && _) eqn:Er; [done|lia].
  - apply split_once_None in Es. split.
    + intros [= <- <- <-]. by left.
    + intros [(-> & -> & -> & _)|(_ & d & -> & _)]; [done|set_solver].
Qed.

Lemma item_denotes_parse (kind : FieldKind) (s : str) (v : Z) :
  item_denotes kind s v ↔
  ∃ base step stepped lo hi k,
    split_step s (high kind - low kind + 1) = Ok (base, step, stepped) ∧
    parse_base base kind (low kind) (high kind) stepped = Ok (lo, hi) ∧
    0 <= k ∧ lo + k * step <= hi ∧ v = wrap kind (lo + k * step).
Proof.
  setoid_rewrite split_step_Ok. setoid_rewrite parse_base_denotes. split.
  - destruct 1 as [base lo hi v Hn Hb Hv|base d step lo hi k Hn Hd Hp Hr Hb Hk Hhi].
    + exists base, 1, false, lo, hi, (v - lo). split; [by left|]. split; [done|].
      rewrite Z.mul_1_r. replace (lo + (v - lo)) with v by lia. lia.
    + exists base, step, true, lo, hi, k. split; [|done]. right. split; [done|].
      exists d. do 3 (split; [done|]). split; [|done]. intros ->.
      apply parse_base_denotes in Hb. unfold parse_base in Hb. simpl in Hb.
      destruct (parse_value [] kind) eqn:E; [|done]. by apply parse_value_nonneg in E.
  - intros (base & step & stepped & lo & hi & k & Hs & Hb & Hk & Hhi & ->).
    destruct Hs as [(-> & -> & -> & Hn)|(-> & d & -> & Hn & Hd & _ & Hp & Hr)].
    + apply item_plain with lo hi; [done..|lia].
    + by apply item_stepped with hi.
Qed.

Lemma select_loop_spec (fuel : nat) (kind : FieldKind) (step end_ b value : Z) :
  1 <= step → low kind <= value → end_ <= syntax_high kind → end_ < value + Z.of_nat fuel →
  ∃ b', select_loop fuel kind (low kind) step end_ b value = Ok b' ∧
    ∀ i, 0 <= i → Z.testbit b' i = true ↔
      Z.testbit b i = true ∨
      ∃ k, 0 <= k ∧ value + k * step <= end_ ∧ i = wrap kind (value + k * step) - low kind.
Proof.
  intros Hstep. pose proof (kind_bounds kind) as Hkb.
  revert b value. induction fuel as [|fuel IH]; intros b value Hlo Hhi Hf; simpl.
  { exists b. split; [done|]. intros i Hi. split; [by left|].
    intros [?|(k & ? & ? & _)]; [done|nia]. }
  destruct (Z.leb_spec value end_) as [Hle|Hgt].
  2: { exists b. split; [done|]. intros i Hi. split; [by left|].
       intros [?|(k & ? & ? & _)]; [done|nia]. }
  unfold mbind, result_bind.
  rewrite (proj2 (normalize_value_Ok kind value (wrap kind value))) by (split; [done|lia]).
  pose proof (wrap_range kind value ltac:(lia)) as Hw.
  destruct (checked_add u16_max value step) as [next|] eqn:En.
  - apply checked_add_Some in En as [-> _].
    destruct (IH (Z.lor b (Z.shiftl 1 (wrap kind value - low kind))) (value + step))
      as (b' & -> & Hb'); [lia..|]. exists b'. split; [done|]. intros i Hi.
    rewrite Hb', testbit_lor_shiftl1 by lia. split.
    + intros [[?| ->]|(k & Hk & He & ->)]; [by left| |].
      * right. exists 0. replace (value + 0 * step) with value by lia. lia.
      * right. exists (k + 1). replace (value + (k + 1) * step) with (value + step + k * step) by lia.
        lia.
    + intros [?|(k & Hk & He & ->)]; [by left; left|].
      destruct (decide (k = 0)) as [->|Hk0].
      * left; right. f_equal. f_equal. lia.
      * right. exists (k - 1). replace (value + step + (k - 1) * step) with (value + k * step) by lia.
        lia.
  - eexists. split; [done|]. intros i Hi. rewrite testbit_lor_shiftl1 by lia.
    assert (u16_max < value + step) as Hov.
    { destruct (Z.lt_ge_cases u16_max (value + step)); [done|].
      assert (checked_add u16_max value step = Some (value + step)) by (apply checked_add_Some; lia).
      congruence. }
    unfold u16_max in Hov. split.
    + intros [?| ->]; [by left|]. right. exists 0.
      replace (value + 0 * step) with value by lia. lia.
    + intros [?|(k & Hk & He & ->)]; [by left|]. right.
      assert (k = 0) as -> by nia. f_equal. f_equal. lia.
Qed.

(** What one list item adds to the mask. *)
Lemma parse_item_spec (kind : FieldKind) (b : Z) (item : str) :
  match parse_item kind b item with
  | Ok b' => (∀ i, 0 <= i → Z.testbit b' i = true ↔
               Z.testbit b i = true ∨ ∃ v, item_denotes kind item v ∧ i = v - low kind) ∧
             ∃ v, item_denotes kind item v
  | Err _ => ∀ v, ¬ item_denotes kind item v
  end.
Proof.
  pose proof (item_denotes_parse kind item) as Hd. unfold parse_item.
  destruct (bounds kind) as [mn mx] eqn:Eb.
  assert (mn = low kind) as -> by (unfold low; by rewrite Eb).
  assert (mx = high kind) as -> by (unfold high; by rewrite Eb). unfold_monad.
  destruct (str_is_empty item) eqn:Ee.
  { destruct item; [|done]. intros v. rewrite Hd.
    intros (base & step & stepped & lo & hi & k & Hs & Hb & _).
    injection Hs as <- <- <-. unfold parse_base in Hb. simpl in Hb.
    destruct (parse_value [] kind) eqn:E; [|done]. by apply parse_value_nonneg in E. }
  destruct (split_step item _) as [[[base step] stepped]|] eqn:Es; simpl.
  2: { intros v. rewrite Hd. by intros (? & ? & ? & ? & ? & ? & ? & _). }
  destruct (parse_base base kind (low kind) (high kind) stepped) as [[lo hi]|] eqn:Ep; simpl.
  2: { intros v. rewrite Hd. intros (base' & ? & stepped' & ? & ? & ? & Hs & Hp & _). congruence. }
  assert (1 <= step) as Hstep.
  { apply split_step_Ok in Es as [(_ & -> & _)|(_ & d & _ & _ & _ & _ & _ & ?)]; lia. }
  pose proof (base_denotes_range _ _ _ _ _ (proj1 (parse_base_denotes _ _ _ _ _) Ep)) as Hr.
  destruct (select_loop_spec (Z.to_nat (hi - lo + 1)) kind step hi b lo)
    as (b' & -> & Hb'); [lia..|].
  assert (Hv : ∀ v, item_denotes kind item v ↔
    ∃ k, 0 <= k ∧ lo + k * step <= hi ∧ v = wrap kind (lo + k * step)).
  { intros v. rewrite Hd. split.
    - intros (base' & step' & stepped' & lo' & hi' & k & Hs & Hp & ? & ? & ?).
      injection Hs as <- <- <-. rewrite Ep in Hp. injection Hp as <- <-. eauto.
    - intros (k & ? & ? & ?). exists base, step, stepped, lo, hi, k. auto. }
  split.
  - intros i Hi. rewrite Hb' by done. setoid_rewrite Hv. split.
    + intros [?|(k & ? & ? & ->)]; [by left|right; eauto 10].
    + intros [?|(v & (k & ? & ? & ->) & ->)]; [by left|right; eauto].
  - exists (wrap kind lo). apply Hv. exists 0. rewrite Z.add_0_r. lia.
Qed.

Lemma item_denotes_range (kind : FieldKind) (s : str) (v : Z) :
  item_denotes kind s v → low kind <= v <= high kind.
Proof.
  rewrite item_denotes_parse. intros (base & step & stepped & lo & hi & k & Hs & Hp & Hk & Hhi & ->).
  apply parse_base_denotes, base_denotes_range in Hp. apply wrap_range.
  apply split_step_Ok in Hs as [(_ & -> & _)|(_ & d & _ & _ & _ & _ & _ & ?)]; nia.
Qed.

Definition list_denotes (kind : FieldKind) (items : list str) (v : Z) : Prop :=
  ∃ item, item ∈ items ∧ item_denotes kind item v.

Lemma parse_items_spec (kind : FieldKind) (b : Z) (items : list str) :
  match try_fold (parse_item kind) b items with
  | Ok b' => (∀ i, 0 <= i → Z.testbit b' i = true ↔
               Z.testbit b i = true ∨ ∃ v, list_denotes kind items v ∧ i = v - low kind) ∧
             ∀ item, item ∈ items → ∃ v, item_denotes kind item v
  | Err _ => ∃ item, item ∈ items ∧ ∀ v, ¬ item_denotes kind item v
  end.
Proof.
  revert b. induction items as [|item items IH]; intros b; simpl.
  - split; [|set_solver]. intros i Hi. split; [by left|].
    intros [?|(v & (item & Hin & _) & _)]; [done|set_solver].
  - unfold mbind, result_bind. pose proof (parse_item_spec kind b item) as Hi.
    destruct (parse_item kind b item) as [b1|].
    2: { exists item. split; [set_solver|done]. }
    destruct Hi as [H1 H1']. specialize (IH b1).
    destruct (try_fold (parse_item kind) b1 items) as [b2|].
    + destruct IH as [H2 H2']. split.
      * intros i Hi. rewrite H2, H1 by done. unfold list_denotes. setoid_rewrite elem_of_cons.
        split.
        -- intros [[?|(v & ? & ->)]|(v & (it & ? & ?) & ->)]; [by left|right; eauto 10..].
        -- intros [?|(v & (it & [->|?] & ?) & ->)]; [by do 2 left|left; right; eauto|right; eauto 10].
      * intros it [->|?]%elem_of_cons; auto.
    + destruct IH as (it & ? & ?). exists it. split; [set_solver|done].
Qed.

(** Shape of a parsed field. *)
Record field_wf (kind : FieldKind) (f : Field) : Prop := {
  wf_minimum : minimum f = low kind;
  wf_maximum : maximum f = high kind;
  wf_bits : ∀ i, 0 <= i → Z.testbit (bits f) i = true → i <= high kind - low kind;
}.

Lemma parse_field_spec (source : str) (kind : FieldKind) :
  match parse_field source kind with
  | Ok f => field_wf kind f ∧
      (∀ v, contains f v = true ↔ list_denotes kind (split 44 source) v) ∧
      ∃ v, contains f v = true
  | Err _ => ∃ item, item ∈ split 44 source ∧ ∀ v, ¬ item_denotes kind item v
  end.
Proof.
  unfold parse_field. destruct (str_is_empty source) eqn:Ee.
  { destruct source; [|done]. exists []. split; [simpl; set_solver|]. intros v.
    pose proof (parse_item_spec kind 0 []) as H. unfold parse_item in H.
    destruct (bounds kind). apply H. }
  destruct (bounds kind) as [mn mx] eqn:Eb.
  assert (mn = low kind) as -> by (unfold low; by rewrite Eb).
  assert (mx = high kind) as -> by (unfold high; by rewrite Eb). unfold_monad.
  pose proof (parse_items_spec kind 0 (split 44 source)) as H.
  destruct (try_fold (parse_item kind) 0 (split 44 source)) as [b|]; [|done].
  destruct H as [Hb Hne]. setoid_rewrite Z.bits_0 in Hb.
  assert (Hbit : ∀ i, 0 <= i → Z.testbit b i = true ↔
    list_denotes kind (split 44 source) (i + low kind)).
  { intros i Hi. rewrite Hb by done. split.
    - intros [?|(v & Hv & ->)]; [done|]. by replace (v - low kind + low kind) with v by lia.
    - intros Hv. right. exists (i + low kind). split; [done|lia]. }
  assert (Hrange : ∀ v, list_denotes kind (split 44 source) v → low kind <= v <= high kind).
  { intros v (item & _ & Hv). by apply item_denotes_range in Hv. }
  assert (∃ v, list_denotes kind (split 44 source) v) as [v Hv].
  { destruct (split 44 source) as [|item items] eqn:Es; [by apply split_nonempty in Es|].
    destruct (Hne item) as [v Hv]; [set_solver|]. exists v, item. split; [set_solver|done]. }
  destruct (Z.eqb_spec b 0) as [->|Hb0].
  { specialize (Hrange v Hv). assert (Z.testbit 0 (v - low kind) = true) as Ht.
    { apply Hbit; [lia|]. by replace (v - low kind + low kind) with v by lia. }
    by rewrite Z.bits_0 in Ht. }
  assert (Hc : ∀ v, contains (MkField b (low kind) (high kind)) v = true ↔
                 list_denotes kind (split 44 source) v).
  { intros x. rewrite contains_testbit. simpl. split.
    - intros [Hx Ht]. apply Hbit in Ht; [|lia].
      by replace (x - low kind + low kind) with x in Ht by lia.
    - intros Hx. specialize (Hrange x Hx). split; [done|]. apply Hbit; [lia|].
      by replace (x - low kind + low kind) with x by lia. }
  split; [|split; [done|]].
  - split; simpl; [done..|]. intros i Hi [Hd]%Hbit; [|done]. specialize (Hrange (i + low kind)).
    assert (low kind <= i + low kind <= high kind); [|lia]. apply Hrange. by exists Hd.
  - exists v. by apply Hc.
Qed.

Lemma is_unrestricted_spec (kind : FieldKind) (f : Field) :
  field_wf kind f →
  is_unrestricted f = true ↔ ∀ v, low kind <= v <= high kind → contains f v = true.
Proof.
  intros [Hmin Hmax Hbits]. pose proof (kind_bounds kind) as Hk. unfold is_unrestricted.
  rewrite Hmin, Hmax.
  destruct (Z.eqb_spec (high kind - low kind + 1) 64); [lia|].
  rewrite Z.eqb_eq, full_mask; [|lia|intros i Hi Ht; apply Hbits in Ht; lia].
  setoid_rewrite contains_testbit. rewrite Hmin, Hmax. split.
  - intros H v Hv. split; [done|]. apply H. lia.
  - intros H i Hi. destruct (H (i + low kind)) as [_ Ht]; [lia|].
    by replace (i + low kind - low kind) with i in Ht by lia.
Qed.

(** ** Lemmas: spacing *)

(** [t] is a selected minute of the day. *)
Definition selected (e : CronExpression) (t : Z) : Prop :=
  0 <= t < 1440 ∧ contains (hours e) (t / 60) = true ∧ contains (minutes e) (t mod 60) = true.

(** Selected minutes are [n] apart, also from one day to the next. *)
Definition spaced (n : Z) (e : CronExpression) : Prop :=
  ∀ t1 t2, selected e t1 → selected e t2 → t1 < t2 → n <= t2 - t1 <= 1440 - n.

Lemma elem_of_daily_times (e : CronExpression) (t : Z) : t ∈ daily_times e ↔ selected e t.
Proof.
  unfold daily_times, selected. rewrite list_elem_of_bind. setoid_rewrite elem_of_seqZ. split.
  - intros (h & Ht & Hh). destruct (contains (hours e) h) eqn:Eh; cbn [negb] in Ht; [|set_solver].
    apply list_elem_of_bind in Ht as (m & Ht & Hm%elem_of_seqZ).
    destruct (contains (minutes e) m) eqn:Em; [|set_solver].
    apply list_elem_of_singleton in Ht as ->.
    rewrite Z.div_add_l, Z.div_small, Z.add_0_r by lia.
    rewrite Z.add_comm, Z.mod_add, Z.mod_small by lia. split; [lia|done].
  - intros (Ht & Hh & Hm). exists (t / 60).
    pose proof (Z.div_mod t 60). pose proof (Z.mod_pos_bound t 60).
    split; [|split; [apply Z.div_pos; lia|apply Z.div_lt_upper_bound; lia]].
    rewrite Hh. cbn [negb]. apply list_elem_of_bind. exists (t mod 60).
    split; [|apply elem_of_seqZ; lia]. rewrite Hm. apply list_elem_of_singleton. lia.
Qed.

Lemma bind_sorted (f : Z → list Z) (off w a : Z) (n : nat) :
  0 <= w → (∀ h, StronglySorted Z.lt (f h)) →
  (∀ h t, t ∈ f h → off + w * h <= t < off + w * (h + 1)) →
  StronglySorted Z.lt (seqZ a (Z.of_nat n) ≫= f).
Proof.
  intros Hw Hs Hf. revert a. induction n as [|n IH]; intros a; [constructor|].
  rewrite seqZ_cons by lia. simpl.
  replace (Z.pred (Z.of_nat (S n))) with (Z.of_nat n) by lia.
  cut (∀ l, (∀ t, t ∈ l → t < off + w * (a + 1)) → StronglySorted Z.lt l →
         StronglySorted Z.lt (l ++ (seqZ (Z.succ a) (Z.of_nat n) ≫= f))).
  { intros H. apply H; [|apply Hs]. intros t Ht. by apply Hf in Ht as [_ ?]. }
  induction l as [|x l IHl]; intros Hl Hsl; simpl; [apply IH|].
  apply StronglySorted_inv in Hsl as [Hsl Hx]. constructor.
  - apply IHl; [|done]. intros t Ht. apply Hl. set_solver.
  - apply Forall_app. split; [done|]. apply Forall_forall. intros t Ht.
    apply list_elem_of_bind in Ht as (h & Ht & [Hh _]%elem_of_seqZ).
    apply Hf in Ht as [Ht _]. specialize (Hl x (list_elem_of_here _ _)).
    assert (w * (a + 1) <= w * h) by (apply Z.mul_le_mono_nonneg_l; lia). lia.
Qed.

Lemma daily_times_sorted (e : CronExpression) : StronglySorted Z.lt (daily_times e).
Proof.
  unfold daily_times. apply (bind_sorted _ 0 60 0 24); [lia| |].
  - intros h. destruct (negb _); [constructor|].
    apply (bind_sorted _ (h * 60) 1 0 60); [lia| |].
    + intros m. destruct (contains _ m); repeat constructor.
    + intros m t Ht. destruct (contains _ m); [|set_solver].
      apply list_elem_of_singleton in Ht. lia.
  - intros h t Ht. destruct (negb _); [set_solver|].
    apply list_elem_of_bind in Ht as (m & Ht & Hm%elem_of_seqZ).
    destruct (contains _ m); [|set_solver]. apply list_elem_of_singleton in Ht. lia.
Qed.

(** The minimum over adjacent pairs bounds every pair of a sorted list. *)
Lemma minimum_gap_spec (m : Z) (l : list Z) (n : Z) :
  StronglySorted Z.lt l →
  n <= minimum_gap m l ↔ n <= m ∧ ∀ x y, x ∈ l → y ∈ l → x < y → n <= y - x.
Proof.
  revert m. induction l as [|a [|b l] IH]; intros m Hs.
  - simpl. set_solver.
  - simpl. split; [|tauto]. intros H. split; [done|].
    intros x y ->%list_elem_of_singleton ->%list_elem_of_singleton. lia.
  - change (minimum_gap m (a :: b :: l)) with (minimum_gap (Z.min m (b - a)) (b :: l)).
    apply StronglySorted_inv in Hs as [Hs Ha]. rewrite IH by done.
    pose proof (StronglySorted_inv Hs) as [_ Hb]. rewrite Forall_forall in Ha, Hb. split.
    + intros [Hm H]. split; [lia|]. intros x y Hx Hy Hxy.
      apply elem_of_cons in Hx as [->|Hx]; [|apply elem_of_cons in Hy as [->|Hy]].
      * apply elem_of_cons in Hy as [->|[->|Hy]%elem_of_cons]; [lia|lia|].
        specialize (Hb y Hy). lia.
      * specialize (Ha x Hx). lia.
      * auto.
    + intros [Hm H]. split.
      * specialize (Ha b (list_elem_of_here _ _)).
        pose proof (H a b ltac:(set_solver) ltac:(set_solver)). lia.
      * intros x y Hx Hy. apply H; set_solver.
Qed.

Lemma minimum_daily_interval_exact (e : CronExpression) (n : Z) :
  n <= 1440 → n <= minimum_daily_interval e ↔ spaced n e.
Proof.
  intros Hn. unfold minimum_daily_interval, spaced.
  setoid_rewrite <- elem_of_daily_times. pose proof (daily_times_sorted e) as Hs.
  pose proof (minimum_gap_spec (24 * 60) (daily_times e) n Hs) as Hg.
  destruct (daily_times e) as [|a l]; [simpl; set_solver|].
  destruct (last (a :: l)) as [z|] eqn:El; [|by apply last_None in El].
  rewrite head_cons, Z.min_glb_iff, Hg.
  apply StronglySorted_inv in Hs as [Hs Ha]. rewrite Forall_forall in Ha.
  apply last_Some in El as [k El].
  assert (Hlast : ∀ t, t ∈ a :: l → t <= z).
  { intros t Ht. rewrite El in Ht. apply elem_of_app in Ht as [Ht|Ht%list_elem_of_singleton]; [|lia].
    assert (StronglySorted Z.lt (k ++ [z])) as Hk
      by (rewrite <- El; constructor; [done|by apply Forall_forall]).
    assert (t < z); [|lia]. clear -Ht Hk.
    induction k as [|x k IH]; [set_solver|]. simpl in Hk.
    apply StronglySorted_inv in Hk as [Hk Hx]. rewrite Forall_forall in Hx.
    apply elem_of_cons in Ht as [->|Ht]; [apply Hx; set_solver|auto]. }
  assert (Hfirst : ∀ t, t ∈ a :: l → a <= t).
  { intros t [->|Ht]%elem_of_cons; [lia|]. specialize (Ha t Ht). lia. }
  assert (z ∈ a :: l) as Hz by (rewrite El; set_solver). split.
  - intros [[_ H] Hw] x y Hx Hy Hxy. specialize (H x y Hx Hy Hxy).
    specialize (Hlast y Hy). specialize (Hfirst x Hx). lia.
  - intros H. split; [split; [lia|]|].
    + intros x y Hx Hy Hxy. by apply H.
    + destruct (Z.lt_ge_cases a z) as [Haz|Haz]; [|specialize (Hfirst z Hz); lia].
      specialize (H a z ltac:(set_solver) Hz Haz). lia.
Qed.

(** ** What the calendar library promises *)

Definition civil_ok {D : Type} (c : Civil D) : Prop :=
  0 <= civil_hour c < 24 ∧ 0 <= civil_minute c < 60 ∧ 0 <= civil_second c < 60 ∧
  0 <= civil_nanosecond c < 1000000000.

(** [ts_valid] is the supported range of instants and [day_number] counts days.
    Local times are well formed; a gap is a local time no instant has, an
    unambiguous one has one instant and a fold has two; a whole-second local
    time is a whole number of milliseconds; milliseconds embed in order. *)
Class JiffLaws (J : Jiff) := {
  ts_valid : Z → Prop;
  day_number : Date → Z;
  zoned_ok (z : TimeZone) (t : Z) : ts_valid t → civil_ok (to_zoned z t);
  gap_spec (z : TimeZone) (c : Civil Date) :
    civil_ok c → to_ambiguous z c = Gap → ∀ t, ts_valid t → to_zoned z t ≠ c;
  unambiguous_spec (z : TimeZone) (c : Civil Date) (t0 : Z) :
    civil_ok c → to_ambiguous z c = Unambiguous (Some t0) →
    ts_valid t0 ∧ ∀ t, ts_valid t → to_zoned z t = c ↔ t = t0;
  fold_spec (z : TimeZone) (c : Civil Date) (t0 t1 : Z) :
    civil_ok c → to_ambiguous z c = Fold (Some t0) (Some t1) →
    ts_valid t0 ∧ ts_valid t1 ∧ ∀ t, ts_valid t → to_zoned z t = c ↔ t = t0 ∨ t = t1;
  whole_seconds (z : TimeZone) (t : Z) :
    ts_valid t → civil_second (to_zoned z t) = 0 → civil_nanosecond (to_zoned z t) = 0 →
    from_millisecond (as_millisecond t) = Some t;
  millis_valid (ms t : Z) : from_millisecond ms = Some t → ts_valid t;
  millis_order (ms ms' t t' : Z) :
    from_millisecond ms = Some t → from_millisecond ms' = Some t' → ms < ms' ↔ t < t';
  tomorrow_spec (d d' : Date) :
    date_tomorrow d = Some d' → day_number d' = day_number d + 1;
  day_number_inj (d d' : Date) : day_number d = day_number d' → d = d';
}.

Section Search.
  Context {J : Jiff} {L : JiffLaws J}.
  Implicit Types (e : CronExpression) (z : TimeZone) (d : Date) (t : Z).

(** [best] is the least instant of [S] after [after], when there is one. *)
Definition best_of (after : Z) (S : Z → Prop) (best : option Z) : Prop :=
  match best with
  | None => ∀ t, S t → t <= after
  | Some b => S b ∧ after < b ∧ ∀ t, S t → after < t → b <= t
  end.

Lemma best_of_ext (after : Z) (S S' : Z → Prop) (best : option Z) :
  (∀ t, S t ↔ S' t) → best_of after S best → best_of after S' best.
Proof. unfold best_of. destruct best; naive_solver. Qed.

Lemma retain_candidate_best (after c : Z) (S : Z → Prop) (best : option Z) :
  best_of after S best →
  best_of after (λ t, S t ∨ t = c) (retain_candidate best c after).
Proof.
  unfold retain_candidate, best_of. destruct best as [b|]; simpl.
  - intros (Hb & Ha & Hmin). destruct (Z.ltb_spec after c), (Z.ltb_spec c b); simpl.
    + split; [by right|]. split; [done|]. intros t [Ht| ->] Hat; [|lia].
      specialize (Hmin t Ht Hat). lia.
    + split; [by left|]. split; [done|]. intros t [Ht| ->] Hat; [auto|lia].
    + split; [by left|]. split; [done|]. intros t [Ht| ->] Hat; [auto|lia].
    + split; [by left|]. split; [done|]. intros t [Ht| ->] Hat; [auto|lia].
  - intros H. destruct (Z.ltb_spec after c); simpl.
    + split; [by right|]. split; [done|]. intros t [Ht| ->] Hat; [|lia].
      specialize (H t Ht). lia.
    + intros t [Ht| ->]; [auto|lia].
Qed.

(** The instants with local date [d] and minute [h:m]. *)
Definition at_minute z d (h m : Z) t : Prop :=
  ts_valid t ∧ to_zoned z t = MkCivil d h m 0 0.

Lemma consider_minute_best e d z (after h m : Z) (S : Z → Prop) (best best' : option Z) :
  0 <= h < 24 → 0 <= m < 60 → best_of after S best →
  consider_minute e d z after h best m = Ok best' →
  best_of after (λ t, S t ∨ contains (minutes e) m = true ∧ at_minute z d h m t) best'.
Proof.
  intros Hh Hm Hb. unfold consider_minute, at_minute.
  destruct (contains (minutes e) m) eqn:Ec; simpl.
  2: { intros [= <-]. eapply best_of_ext; [|exact Hb]. intros t. intuition congruence. }
  unfold i8_try_from. destruct (Z.leb_spec h 127); [|lia]. destruct (Z.leb_spec m 127); [|lia].
  unfold_monad. assert (Hc : civil_ok (MkCivil d h m 0 0)) by (unfold civil_ok; simpl; lia).
  destruct (to_ambiguous z (MkCivil d h m 0 0)) as [|[t0|]|[t0|] [t1|]] eqn:Ea; try done.
  - intros [= <-]. pose proof (gap_spec z _ Hc Ea) as Hg.
    eapply best_of_ext; [|exact Hb]. intros t. split; [by left|].
    intros [?|(_ & Hv & Hz)]; [done|]. by destruct (Hg t Hv).
  - intros [= <-]. destruct (unambiguous_spec z _ t0 Hc Ea) as [Hv Hu].
    eapply best_of_ext; [|by apply retain_candidate_best]. intros t. simpl. split.
    + intros [?| ->]; [by left|]. right. split; [done|]. split; [done|]. by apply Hu.
    + intros [?|(_ & Ht & Hz)]; [by left|]. right. by apply Hu.
  - intros [= <-]. destruct (fold_spec z _ t0 t1 Hc Ea) as (Hv0 & Hv1 & Hu).
    eapply best_of_ext; [|by do 2 apply retain_candidate_best]. intros t. simpl. split.
    + intros [[?| ->]| ->]; [by left|..]; right; (split; [done|]); (split; [done|]);
        apply Hu; auto.
    + intros [?|(_ & Ht & Hz)]; [by left; left|].
      apply Hu in Hz as [->| ->]; [by left; right|by right|done].
Qed.

(** The matching instants of a local date. *)
Definition occurs e z d t : Prop :=
  ∃ h m, 0 <= h < 24 ∧ 0 <= m < 60 ∧ contains (hours e) h = true ∧
    contains (minutes e) m = true ∧ at_minute z d h m t.

Lemma consider_hour_best e d z (after h : Z) (S : Z → Prop) (best best' : option Z) :
  0 <= h < 24 → best_of after S best → consider_hour e d z after best h = Ok best' →
  best_of after (λ t, S t ∨ contains (hours e) h = true ∧ ∃ m, 0 <= m < 60 ∧
    contains (minutes e) m = true ∧ at_minute z d h m t) best'.
Proof.
  intros Hh Hb. unfold consider_hour. destruct (contains (hours e) h) eqn:Ec; cbn [negb].
  2: { intros [= <-]. eapply best_of_ext; [|exact Hb]. intros t. intuition congruence. }
  intros Hf.
  apply (try_fold_inv (λ visited b, best_of after (λ t, S t ∨ ∃ m, m ∈ visited ∧
           contains (minutes e) m = true ∧ at_minute z d h m t) b)) in Hf.
  - eapply best_of_ext; [|exact Hf]. intros t. simpl. setoid_rewrite elem_of_seqZ. naive_solver.
  - eapply best_of_ext; [|exact Hb]. set_solver.
  - intros visited m b b' [Hm1 Hm2]%elem_of_seqZ Hinv Hstep.
    pose proof (consider_minute_best e d z after h m _ b b' Hh ltac:(lia) Hinv Hstep)
      as Hnext.
    eapply best_of_ext; [|exact Hnext]. intros t. simpl. set_solver.
Qed.

Lemma first_candidate_on_best e d z (after : Z) (best : option Z) :
  first_candidate_on e d z after = Ok best → best_of after (occurs e z d) best.
Proof.
  intros Hf. unfold first_candidate_on in Hf.
  apply (try_fold_inv (λ visited b, best_of after (λ t, ∃ h, h ∈ visited ∧
    contains (hours e) h = true ∧ ∃ m, 0 <= m < 60 ∧
    contains (minutes e) m = true ∧ at_minute z d h m t) b)) in Hf.
  - eapply best_of_ext; [|exact Hf]. intros t. simpl. setoid_rewrite elem_of_seqZ.
    unfold occurs. split.
    + intros (h & Hh & Hc & m & Hm & Hcm & Hat). exists h, m. auto 6 with lia.
    + intros (h & m & Hh & Hm & Hc & Hcm & Hat). exists h. split; [lia|]. eauto.
  - simpl. set_solver.
  - intros visited h b b' [Hh1 Hh2]%elem_of_seqZ Hinv Hstep.
    pose proof (consider_hour_best e d z after h _ b b' ltac:(lia) Hinv Hstep) as Hnext.
    eapply best_of_ext; [|exact Hnext]. intros t. simpl.
    setoid_rewrite elem_of_app. setoid_rewrite list_elem_of_singleton. split.
    + intros [(h' & Hin & Hrest)|Hrest]; eauto.
    + intros (h' & [Hin| ->] & Hrest); eauto.
Qed.

Lemma first_candidate_on_Err e d z (after : Z) (x : ScheduleError) :
  first_candidate_on e d z after = Err x → x = TimestampOutOfRange.
Proof.
  apply (try_fold_Err (λ x, x = TimestampOutOfRange)). intros best h x'. unfold consider_hour.
  destruct (negb _); [done|]. apply (try_fold_Err (λ x, x = TimestampOutOfRange)).
  intros best' m x''. unfold consider_minute. unfold_monad. intros H. by split_tests.
Qed.

(** Whether the local time of an instant matches. *)
Definition local_matches e z t : Prop :=
  ts_valid t ∧ ∃ d, matches_date e d = true ∧ occurs e z d t.

Lemma occurs_date e z d t : occurs e z d t → civil_date (to_zoned z t) = d.
Proof. intros (h & m & _ & _ & _ & _ & _ & Hz). by rewrite Hz. Qed.

Lemma matches_at_spec e (instant : Z) (zone : str) z t :
  parse_timezone zone = Ok z → from_millisecond instant = Some t →
  matches_at e instant zone = Ok true ↔ local_matches e z t.
Proof.
  intros Hz Ht. unfold matches_at. unfold_monad. rewrite Hz, Ht.
  pose proof (millis_valid _ _ Ht) as Hv. destruct (zoned_ok z t Hv) as (Hh & Hm & _ & _).
  unfold local_matches, matches_date, matches_components, u16_try_from.
  destruct (Z.leb_spec 0 (civil_minute (to_zoned z t))); [|lia].
  destruct (Z.leb_spec 0 (civil_hour (to_zoned z t))); [|lia]. split.
  - intros [= Hb]. rewrite !andb_true_iff, !Z.eqb_eq in Hb.
    destruct Hb as [[Hs Hn] [[Hmin Hhour] Hd]]. split; [done|].
    exists (civil_date (to_zoned z t)). split; [done|].
    exists (civil_hour (to_zoned z t)), (civil_minute (to_zoned z t)).
    do 4 (split; [done|]). split; [done|].
    destruct (to_zoned z t); simpl in *. by subst.
  - intros (_ & d & Hd & h & m & _ & _ & Hhour & Hmin & _ & Hzt). rewrite Hzt. simpl.
    by rewrite Hmin, Hhour, Hd.
Qed.

(** The days searched before the result hold no later match. *)
Lemma search_days_spec (n : nat) e z (ts : Z) d :
  match search_days n e z ts d with
  | Ok r => ∃ d' c, day_number d <= day_number d' < day_number d + Z.of_nat n ∧
      r = as_millisecond c ∧ matches_date e d' = true ∧ best_of ts (occurs e z d') (Some c) ∧
      ∀ d'' t, day_number d <= day_number d'' < day_number d' → matches_date e d'' = true →
        occurs e z d'' t → t <= ts
  | Err NoFutureMatch =>
      ∀ d'' t, day_number d <= day_number d'' < day_number d + Z.of_nat n →
        matches_date e d'' = true → occurs e z d'' t → t <= ts
  | Err _ => True
  end.
Proof.
  revert d. induction n as [|n IH]; intros d; simpl; [intros; lia|].
  assert (Hcont : (∀ t, matches_date e d = true → occurs e z d t → t <= ts) →
    match (d ← ok_or (date_tomorrow d) TimestampOutOfRange; search_days n e z ts d) with
    | Ok r => ∃ d' c, day_number d <= day_number d' < day_number d + Z.of_nat (S n) ∧
        r = as_millisecond c ∧ matches_date e d' = true ∧ best_of ts (occurs e z d') (Some c) ∧
        ∀ d'' t, day_number d <= day_number d'' < day_number d' → matches_date e d'' = true →
          occurs e z d'' t → t <= ts
    | Err NoFutureMatch =>
        ∀ d'' t, day_number d <= day_number d'' < day_number d + Z.of_nat (S n) →
          matches_date e d'' = true → occurs e z d'' t → t <= ts
    | Err _ => True
    end).
  { intros Hd. unfold_monad. destruct (date_tomorrow d) as [d1|] eqn:Et; [|done].
    apply tomorrow_spec in Et. specialize (IH d1).
    assert (Hsplit : ∀ d'', day_number d <= day_number d'' →
              d'' = d ∨ day_number d1 <= day_number d'').
    { intros d'' Hle. destruct (decide (day_number d'' = day_number d)) as [Heq|Hne];
        [left; by apply day_number_inj|right; lia]. }
    destruct (search_days n e z ts d1) as [r|[]]; try done.
    - destruct IH as (d' & c & Hd' & -> & Hmd & Hbest & Hmin).
      exists d', c. split; [lia|]. do 3 (split; [done|]).
      intros d'' t Hd'' Hm Ho. destruct (Hsplit d'') as [->|]; [lia|auto|].
      apply (Hmin d''); [lia|done..].
    - intros d'' t Hd'' Hm Ho. destruct (Hsplit d'') as [->|]; [lia|auto|].
      apply (IH d''); [lia|done..]. }
  destruct (matches_date e d) eqn:Em; [|apply Hcont; congruence]. unfold_monad.
  destruct (first_candidate_on e d z ts) as [[c|]|x] eqn:Ef.
  - apply first_candidate_on_best in Ef. exists d, c. split; [lia|]. do 3 (split; [done|]).
    intros. lia.
  - apply first_candidate_on_best in Ef. apply Hcont. intros t _. apply Ef.
  - by apply first_candidate_on_Err in Ef as ->.
Qed.

Lemma search_days_Err (n : nat) e z (ts : Z) d (x : ScheduleError) :
  search_days n e z ts d = Err x → x = TimestampOutOfRange ∨ x = NoFutureMatch.
Proof.
  revert d. induction n as [|n IH]; intros d; simpl; [intros [= <-]; by right|].
  unfold_monad. destruct (matches_date e d).
  - destruct (first_candidate_on e d z ts) as [[c|]|y] eqn:Ef; [done| |].
    + destruct (date_tomorrow d); [apply IH|]. intros [= <-]. by left.
    + intros [= <-]. left. by eapply first_candidate_on_Err.
  - destruct (date_tomorrow d); [apply IH|]. intros [= <-]. by left.
Qed.

(** Local dates never step back. *)
Definition dates_monotone z : Prop :=
  ∀ t t', ts_valid t → ts_valid t' → t <= t' →
    day_number (civil_date (to_zoned z t)) <= day_number (civil_date (to_zoned z t')).

Lemma matches_at_local e (instant : Z) (zone : str) z :
  parse_timezone zone = Ok z → matches_at e instant zone = Ok true →
  ∃ t, from_millisecond instant = Some t ∧ local_matches e z t.
Proof.
  intros Hz Hm. destruct (from_millisecond instant) as [t|] eqn:Et.
  - exists t. split; [done|]. by apply (matches_at_spec e instant zone).
  - unfold matches_at in Hm. unfold_monad. by rewrite Hz, Et in Hm.
Qed.

(** The local date of an instant, as a number of days. *)
Definition local_day z t : Z := day_number (civil_date (to_zoned z t)).

(** What the search finds, in the library's instants: the first match on the
    earliest local date from that of the given instant on. *)
Lemma next_after_search e (instant : Z) (zone : str) z ts :
  parse_timezone zone = Ok z → from_millisecond instant = Some ts →
  match next_after e instant zone with
  | Ok r => ∃ c, from_millisecond r = Some c ∧ local_matches e z c ∧ ts < c ∧
      local_day z ts <= local_day z c ∧
      ∀ t, local_matches e z t → ts < t → local_day z ts <= local_day z t →
        local_day z c < local_day z t ∨ local_day z t = local_day z c ∧ c <= t
  | Err NoFutureMatch => ∀ t, local_matches e z t → ts < t → local_day z ts <= local_day z t →
      local_day z ts + Z.of_nat MAXIMUM_CALENDAR_SEARCH_DAYS <= local_day z t
  | Err TimestampOutOfRange => True
  | Err _ => False
  end.
Proof.
  intros Hz Ets. unfold next_after, local_day. generalize MAXIMUM_CALENDAR_SEARCH_DAYS. intros n.
  unfold_monad. rewrite Hz, Ets.
  pose proof (search_days_spec n e z ts (civil_date (to_zoned z ts))) as H.
  destruct (search_days _ e z ts _) as [r|[]] eqn:Es; try done;
    try by apply search_days_Err in Es as [].
  - destruct H as (d & c & Hd & -> & Hmd & (Hocc & Hlt & Hleast) & Hbefore).
    pose proof Hocc as (h & m & _ & _ & _ & _ & Hv & Hzc).
    exists c. rewrite (occurs_date _ _ _ _ Hocc). split; [by apply (whole_seconds z); rewrite ?Hzc|].
    split; [split; [done|by exists d]|]. do 2 (split; [lia|]).
    intros t (_ & d' & Hmd' & Hocc') Ht. rewrite (occurs_date _ _ _ _ Hocc'). intros Hfrom.
    destruct (Z.lt_trichotomy (day_number d') (day_number d)) as [Hl|[Heq|Hg]]; [|right|by left].
    + specialize (Hbefore d' t ltac:(lia) Hmd' Hocc'). lia.
    + apply day_number_inj in Heq as ->. split; [done|]. specialize (Hleast t Hocc'). lia.
  - intros t (_ & d' & Hmd' & Hocc') Ht. rewrite (occurs_date _ _ _ _ Hocc'). intros Hfrom.
    destruct (Z.le_gt_cases (day_number (civil_date (to_zoned z ts)) + Z.of_nat n) (day_number d'));
      [done|]. specialize (H d' t ltac:(lia) Hmd' Hocc'). lia.
Qed.

Lemma next_after_unreadable e (instant : Z) (zone : str) z :
  parse_timezone zone = Ok z → from_millisecond instant = None →
  next_after e instant zone = Err TimestampOutOfRange.
Proof.
  intros Hz Hi. unfold next_after. generalize MAXIMUM_CALENDAR_SEARCH_DAYS. intros n.
  unfold_monad. by rewrite Hz, Hi.
Qed.

(** C35: in a time zone whose local date never steps back, [next_after]
    returns a matching instant strictly after the given one with no matching
    instant in between; when it reports that there is no future match, every
    later matching instant is at least the search horizon of days away. Gaps
    are skipped and both instants of a fold are considered. *)
Theorem next_after_is_first e (instant : Z) (zone : str) z :
  parse_timezone zone = Ok z → dates_monotone z →
  match next_after e instant zone with
  | Ok r => instant < r ∧ matches_at e r zone = Ok true ∧
      ∀ r', instant < r' < r → matches_at e r' zone ≠ Ok true
  | Err NoFutureMatch => ∀ r', instant < r' → matches_at e r' zone = Ok true →
      ∃ t t', from_millisecond instant = Some t ∧ from_millisecond r' = Some t' ∧
        day_number (civil_date (to_zoned z t)) + Z.of_nat MAXIMUM_CALENDAR_SEARCH_DAYS
          <= day_number (civil_date (to_zoned z t'))
  | Err TimestampOutOfRange => True
  | Err _ => False
  end.
Proof.
  intros Hz Hmono. destruct (from_millisecond instant) as [ts|] eqn:Ets.
  2: { by rewrite (next_after_unreadable e instant zone z). }
  pose proof (next_after_search e instant zone z ts Hz Ets) as H. unfold local_day in H.
  pose proof (millis_valid _ _ Ets) as Hts.
  destruct (next_after e instant zone) as [r|[]]; try done.
  - destruct H as (c & Hc & Hm & Hlt & _ & Hfirst). pose proof (millis_valid _ _ Hc) as Hvc.
    split; [by apply (millis_order _ _ _ _ Ets Hc)|]. split; [by apply (matches_at_spec e r zone z c)|].
    intros r' [Hr1 Hr2] (t & Ht & Hmt)%(matches_at_local e r' zone z Hz).
    rewrite (millis_order _ _ _ _ Ets Ht) in Hr1. rewrite (millis_order _ _ _ _ Ht Hc) in Hr2.
    pose proof (millis_valid _ _ Ht) as Hvt.
    pose proof (Hmono ts t Hts Hvt ltac:(lia)). pose proof (Hmono t c Hvt Hvc ltac:(lia)).
    destruct (Hfirst t Hmt Hr1 ltac:(done)); lia.
  - intros r' Hr' (t & Ht & Hmt)%(matches_at_local e r' zone z Hz).
    rewrite (millis_order _ _ _ _ Ets Ht) in Hr'. exists ts, t. split_and!; [done..|].
    apply H; [done..|]. apply Hmono; [done|by eapply millis_valid|lia].
Qed.

(** C39: in any zone, [next_after] goes by local dates first and by instants
    second. Of the matching instants after the given one whose local date is not
    before the local date of the given one, it returns the first on the earliest
    such date; when it reports none, each of them is the search horizon of days
    away. So where a clock steps back over midnight, the matches of the repeated
    end of the day before are passed over, although they come first. *)
Theorem next_after_goes_by_local_dates e (instant : Z) (zone : str) z ts :
  parse_timezone zone = Ok z → from_millisecond instant = Some ts →
  let eligible r t := instant < r ∧ matches_at e r zone = Ok true ∧
                      from_millisecond r = Some t ∧ local_day z ts <= local_day z t in
  match next_after e instant zone with
  | Ok r => ∃ t, eligible r t ∧
      ∀ r' t', eligible r' t' →
        local_day z t < local_day z t' ∨ local_day z t = local_day z t' ∧ r <= r'
  | Err NoFutureMatch => ∀ r t, eligible r t →
      local_day z ts + Z.of_nat MAXIMUM_CALENDAR_SEARCH_DAYS <= local_day z t
  | Err TimestampOutOfRange => True
  | Err _ => False
  end.
Proof.
  intros Hz Ets eligible. subst eligible. cbv beta.
  pose proof (next_after_search e instant zone z ts Hz Ets) as H.
  destruct (next_after e instant zone) as [r|[]]; try done.
  - destruct H as (c & Hc & Hm & Hlt & Hday & Hfirst). exists c. split.
    { split_and!; [by apply (millis_order _ _ _ _ Ets Hc)|by apply (matches_at_spec e r zone z c)|
        done..]. }
    intros r' t' (Hr & Hmr & Ht & Hd). apply (matches_at_spec e r' zone z t' Hz Ht) in Hmr.
    pose proof (proj1 (millis_order _ _ _ _ Ets Ht) Hr) as Hts.
    destruct (Hfirst t' Hmr Hts Hd) as [?|[Heq Hle]]; [by left|right]. split; [done|].
    apply Z.nlt_ge. rewrite (millis_order _ _ _ _ Ht Hc). lia.
  - intros r t (Hr & Hmr & Ht & Hd). apply (matches_at_spec e r zone z t Hz Ht) in Hmr.
    rewrite (millis_order _ _ _ _ Ets Ht) in Hr. by apply H.
Qed.

End Search.

(** ** Properties of parsed expressions *)

(** Parsing a field succeeds exactly when every comma-separated item
    denotes a value, and the mask then contains exactly the values some item
    denotes under the grammar of [*], names, ranges and steps. *)
Lemma field_mask_is_denotation (source : str) (kind : FieldKind) :
  match parse_field source kind with
  | Ok f => (∀ v, contains f v = true ↔ list_denotes kind (split 44 source) v) ∧
            ∃ v, contains f v = true
  | Err _ => ∃ item, item ∈ split 44 source ∧ ∀ v, ¬ item_denotes kind item v
  end.
Proof.
  pose proof (parse_field_spec source kind) as H.
  destruct (parse_field source kind); [|done]. tauto.
Qed.

(** The five fields of [source] parse to the fields of [e]. *)
Definition five_fields (source : str) (e : CronExpression) : Prop :=
  ∃ a b c d w, split_ascii_whitespace source = [a; b; c; d; w] ∧ exact e = source ∧
    parse_field a Minute = Ok (minutes e) ∧ parse_field b Hour = Ok (hours e) ∧
    parse_field c DayOfMonth = Ok (days_of_month e) ∧ parse_field d Month = Ok (months e) ∧
    parse_field w DayOfWeek = Ok (days_of_week e).

Lemma cron_parse_five_fields (source : str) (e : CronExpression) :
  validate_expression_text source = Ok tt → five_fields source e →
  cron_parse source = if is_some (cron_interval_rejection (minimum_daily_interval e))
                      then Err IntervalTooShort else Ok e.
Proof.
  intros Hv (a & b & c & d & w & Hs & He & Ha & Hb & Hc & Hd & Hw).
  unfold cron_parse. unfold mbind, result_bind. rewrite Hv, Hs, Ha, Hb, Hc, Hd, Hw.
  rewrite <- He. by destruct e.
Qed.

Lemma parse_field_Err (source : str) (kind : FieldKind) (x : ScheduleError) :
  parse_field source kind = Err x → x = InvalidExpression.
Proof.
  unfold parse_field. destruct (str_is_empty source); [congruence|].
  destruct (bounds kind). unfold mbind, result_bind.
  destruct (try_fold (parse_item kind) 0 (split 44 source)) as [b|y] eqn:Et.
  { destruct (b =? 0); congruence. }
  intros [= <-]. revert Et. apply (try_fold_Err (λ x, x = InvalidExpression)).
  intros t item x. unfold parse_item. destruct (bounds kind) as [mn mx].
  destruct (str_is_empty item); [congruence|]. unfold mbind, result_bind.
  destruct (split_step item _) as [[[base step] stepped]|] eqn:Es.
  - destruct (parse_base base kind mn mx stepped) as [[lo hi]|] eqn:Ep.
    + generalize (Z.to_nat (hi - lo + 1)). intros fuel. clear Es Ep. revert t lo.
      induction fuel as [|fuel IH]; intros t value; simpl; [done|].
      destruct (value <=? hi); [|done]. unfold mbind, result_bind.
      destruct (normalize_value value kind) eqn:En; [|intros [= <-]].
      * destruct (checked_add _ _ _); [apply IH|done].
      * unfold normalize_value in En. destruct (_ && _); [done|].
        destruct (bounds kind). destruct (_ && _); congruence.
    + intros [= <-]. unfold parse_base, parse_value, normalize_value in Ep.
      clear Es. unfold_monad. by split_tests.
  - intros [= <-]. unfold split_step in Es. unfold_monad. by split_tests.
Qed.

(** A text is accepted exactly when it passes the lexical checks, its five
    fields parse, and the selected minutes of a day are at least five minutes
    apart, also from one day to the next; the parsed expression keeps the
    spelling. An interval error means two selected minutes are too close. *)
Lemma accepted_schedules_are_spaced (source : str) :
  match cron_parse source with
  | Ok e => validate_expression_text source = Ok tt ∧ five_fields source e ∧
            spaced MINIMUM_CRON_INTERVAL_MINUTES e
  | Err IntervalTooShort =>
      ∃ e, five_fields source e ∧ ¬ spaced MINIMUM_CRON_INTERVAL_MINUTES e
  | Err InvalidExpression =>
      validate_expression_text source = Ok tt → ∀ e, ¬ five_fields source e
  | Err _ => False
  end.
Proof.
  assert (Hmdi : ∀ e, is_some (cron_interval_rejection (minimum_daily_interval e)) = false ↔
                      spaced MINIMUM_CRON_INTERVAL_MINUTES e).
  { intros e. rewrite <- minimum_daily_interval_exact by done. unfold cron_interval_rejection.
    destruct (Z.ltb_spec (minimum_daily_interval e) MINIMUM_CRON_INTERVAL_MINUTES); simpl;
      intuition (try done; lia). }
  destruct (validate_expression_text source) as [[]|x] eqn:Ev.
  2: { assert (x = InvalidExpression) as ->.
       { unfold validate_expression_text, reject in Ev. destruct (_ || _); congruence. }
       unfold cron_parse. unfold mbind, result_bind. by rewrite Ev. }
  assert (Hno : cron_parse source = Err InvalidExpression →
    (∀ e, ¬ five_fields source e)).
  { intros H e He. rewrite (cron_parse_five_fields source e Ev He) in H.
    by destruct (is_some _). }
  assert (Hyes : cron_parse source = Err InvalidExpression ∨ ∃ e, five_fields source e).
  { unfold cron_parse. unfold mbind, result_bind. rewrite Ev.
    destruct (split_ascii_whitespace source) as [|a [|b [|c [|d [|w []]]]]] eqn:Es;
      try (by left).
    destruct (parse_field a Minute) eqn:Ea; [|left; f_equal; by eapply parse_field_Err].
    destruct (parse_field b Hour) eqn:Eb; [|left; f_equal; by eapply parse_field_Err].
    destruct (parse_field c DayOfMonth) eqn:Ec; [|left; f_equal; by eapply parse_field_Err].
    destruct (parse_field d Month) eqn:Ed; [|left; f_equal; by eapply parse_field_Err].
    destruct (parse_field w DayOfWeek) eqn:Ew; [|left; f_equal; by eapply parse_field_Err].
    right. eexists (MkCronExpression source _ _ _ _ _), a, b, c, d, w. by simpl. }
  destruct Hyes as [H|[e He]]; [by rewrite H; intros _; apply Hno|].
  rewrite (cron_parse_five_fields source e Ev He). specialize (Hmdi e).
  destruct (is_some _).
  - exists e. split; [done|]. intros Hs. by apply Hmdi in Hs.
  - split; [done|]. split; [done|]. by apply Hmdi.
Qed.

Lemma accepted_five (source : str) (e : CronExpression) :
  cron_parse source = Ok e → five_fields source e.
Proof.
  unfold cron_parse. unfold mbind, result_bind. intros H.
  destruct (validate_expression_text source) as [[]|]; [|done].
  destruct (split_ascii_whitespace source) as [|a [|b [|c [|d [|w []]]]]] eqn:Es; try done.
  destruct (parse_field a Minute) eqn:Ea; [|done]. destruct (parse_field b Hour) eqn:Eb; [|done].
  destruct (parse_field c DayOfMonth) eqn:Ec; [|done].
  destruct (parse_field d Month) eqn:Ed; [|done].
  destruct (parse_field w DayOfWeek) eqn:Ew; [|done].
  destruct (is_some _); [done|]. injection H as <-. exists a, b, c, d, w. by simpl.
Qed.

(** The day rule of a parsed expression on a well-formed date. The month
    must be selected. When both day fields are restricted a day matches if
    either selects it; when one of them selects every value the other alone
    decides. *)
Lemma restricted_days_match_by_either (source : str) (e : CronExpression)
    (day month weekday : Z) :
  cron_parse source = Ok e → 1 <= day <= 31 → 1 <= month <= 12 → 0 <= weekday <= 6 →
  let any_day := ∀ v, 1 <= v <= 31 → contains (days_of_month e) v = true in
  let any_weekday := ∀ v, 0 <= v <= 6 → contains (days_of_week e) v = true in
  matches_date_components e day month weekday = true ↔
  contains (months e) month = true ∧
  ((¬ any_day ∧ ¬ any_weekday ∧
    (contains (days_of_month e) day = true ∨ contains (days_of_week e) weekday = true)) ∨
   ((any_day ∨ any_weekday) ∧
    contains (days_of_month e) day = true ∧ contains (days_of_week e) weekday = true)).
Proof.
  intros Hp Hd Hm Hw. cbv zeta.
  assert (five_fields source e) as (a & b & c & d & w & _ & _ & _ & _ & Hc & _ & Hpw).
  { pose proof (accepted_five source e Hp). done. }
  pose proof (parse_field_spec c DayOfMonth) as Hfd. rewrite Hc in Hfd.
  pose proof (parse_field_spec w DayOfWeek) as Hfw. rewrite Hpw in Hfw.
  destruct Hfd as [Hwfd _], Hfw as [Hwfw _].
  pose proof (is_unrestricted_spec _ _ Hwfd) as Hud.
  pose proof (is_unrestricted_spec _ _ Hwfw) as Huw.
  change (low DayOfMonth) with 1 in Hud. change (high DayOfMonth) with 31 in Hud.
  change (low DayOfWeek) with 0 in Huw. change (high DayOfWeek) with 6 in Huw.
  unfold matches_date_components, u16_try_from.
  destruct (Z.leb_spec 0 day); [|lia]. destruct (Z.leb_spec 0 month); [|lia].
  destruct (Z.leb_spec 0 weekday); [|lia].
  destruct (contains (months e) month); simpl; [|intuition congruence].
  destruct (is_unrestricted (days_of_month e)), (is_unrestricted (days_of_week e)).
  - destruct Hud as [Hud _], Huw as [Huw _]. split; [|done]. intros _. split; [done|]. right.
    split; [left; by apply Hud|]. split; [by apply Hud|by apply Huw].
  - destruct Hud as [Hud _]. specialize (Hud eq_refl). split.
    + intros Hx. split; [done|]. right. split; [by left|]. split; [by apply Hud|done].
    + intros [_ [(Hx & _)|(_ & _ & ?)]]; [done|done].
  - destruct Huw as [Huw _]. specialize (Huw eq_refl). split.
    + intros Hx. split; [done|]. right. split; [by right|]. split; [done|by apply Huw].
    + intros [_ [(_ & Hx & _)|(_ & ? & _)]]; [done|done].
  - rewrite orb_true_iff. split.
    + intros Hx. split; [done|]. left.
      split; [|split; [|done]]; [intros Ha%Hud|intros Ha%Huw]; done.
    + intros [_ [(_ & _ & ?)|([Ha%Hud|Ha%Huw] & _)]]; done.
Qed.

(** ** A concrete calendar

    The proleptic Gregorian calendar with zones whose clock steps back once:
    enough to run the search and to show that the laws can hold. *)

Module Gregorian.

Definition second : Z := 1000000000.
Definition day : Z := 86400 * second.

Definition day_of_era (z : Z) : Z := (z + 719468) mod 146097.
Definition year_of_era (doe : Z) : Z :=
  (doe - doe / 1460 + doe / 36524 - doe / 146096) / 365.
Definition day_of_year (doe : Z) : Z :=
  let yoe := year_of_era doe in doe - (365 * yoe + yoe / 4 - yoe / 100).
Definition month_index (z : Z) : Z := (5 * day_of_year (day_of_era z) + 2) / 153.
Definition day_of_month (z : Z) : Z :=
  day_of_year (day_of_era z) - (153 * month_index z + 2) / 5 + 1.
Definition month_of_year (z : Z) : Z :=
  if month_index z <? 10 then month_index z + 3 else month_index z - 9.

(** Local time is [offset] seconds ahead of UTC before [step_at] and equal to
    it afterwards. *)
Record Zone := MkZone { step_at : Z; offset : nat }.

Definition ahead (z : Zone) : Z := Z.of_nat (offset z) * second.
Definition local_of (z : Zone) (t : Z) : Z := if t <? step_at z then t + ahead z else t.

Definition civil_of (l : Z) : Civil Z :=
  let r := l mod day in
  MkCivil (l / day) (r / (3600 * second)) (r / (60 * second) mod 60) (r / second mod 60)
    (r mod second).
Definition local_value (c : Civil Z) : Z :=
  civil_date c * day +
  (((civil_hour c * 60 + civil_minute c) * 60 + civil_second c) * second + civil_nanosecond c).

Definition resolve (z : Zone) (c : Civil Z) : Ambiguous :=
  let l := local_value c in
  if l - ahead z <? step_at z then
    if step_at z <=? l then Fold (Some (l - ahead z)) (Some l)
    else Unambiguous (Some (l - ahead z))
  else Unambiguous (Some l).

(** [Etc/UTC], and a zone that steps back from 00:01 to 23:01 of the day
    before, like America/St_Johns until 2011. *)
Definition zones (name : str) : option Zone :=
  if str_eqb name (lit "Etc/UTC") then Some (MkZone 0 0)
  else if str_eqb name (lit "Test/StepBack") then Some (MkZone (15 * day - 3540 * second) 3600)
  else None.

#[export] Instance gregorian : Jiff := {|
  TimeZone := Zone;
  Date := Z;
  tz_get := zones;
  from_millisecond ms := Some (ms * 1000000);
  as_millisecond t := t / 1000000;
  to_zoned z t := civil_of (local_of z t);
  to_ambiguous := resolve;
  date_day := day_of_month;
  date_month := month_of_year;
  date_weekday z := (z + 4) mod 7;
  date_tomorrow z := Some (z + 1);
|}.

Lemma civil_of_ok (l : Z) : civil_ok (civil_of l).
Proof.
  unfold civil_ok, civil_of, day, second. simpl.
  pose proof (Z.mod_pos_bound l (86400 * 1000000000)).
  repeat split; try (apply Z.mod_pos_bound; lia).
  - apply Z.div_pos; lia.
  - apply Z.div_lt_upper_bound; lia.
Qed.

Lemma local_value_civil_of (l : Z) : local_value (civil_of l) = l.
Proof.
  unfold local_value, civil_of, day, second. simpl.
  Z.div_mod_to_equations. lia.
Qed.

Lemma civil_of_local_value (c : Civil Z) : civil_ok c → civil_of (local_value c) = c.
Proof.
  destruct c as [d h m s n]. unfold civil_ok, local_value, civil_of. simpl. intros Hok.
  set (r := ((h * 60 + m) * 60 + s) * second + n).
  assert (0 <= r < day) as Hr by (unfold r, day, second; lia).
  assert ((d * day + r) / day = d) as ->.
  { rewrite Z.div_add_l by done. rewrite Z.div_small by done. lia. }
  assert ((d * day + r) mod day = r) as ->.
  { rewrite Z.add_comm, Z.mod_add by done. by apply Z.mod_small. }
  unfold r, second. f_equal; Z.div_mod_to_equations; lia.
Qed.

Lemma civil_of_eq (l : Z) (c : Civil Z) : civil_ok c → civil_of l = c ↔ l = local_value c.
Proof.
  intros Hc. split; [intros <-; by rewrite local_value_civil_of|].
  intros ->. by apply civil_of_local_value.
Qed.

Lemma resolve_spec (z : Zone) (c : Civil Z) (t : Z) :
  civil_ok c → civil_of (local_of z t) = c ↔
  (t = local_value c - ahead z ∧ local_value c - ahead z < step_at z) ∨
  (t = local_value c ∧ step_at z <= local_value c).
Proof.
  intros Hc. rewrite civil_of_eq by done. unfold local_of.
  destruct (Z.ltb_spec t (step_at z)); lia.
Qed.

#[export] Program Instance gregorian_laws : JiffLaws gregorian := {|
  ts_valid _ := True;
  day_number d := d;
|}.
Next Obligation. intros z t _. apply civil_of_ok. Qed.
Next Obligation.
  intros z c Hc. simpl. unfold resolve.
  destruct (_ <? _); [|done]. by destruct (_ <=? _).
Qed.
Next Obligation.
  intros z c t0 Hc. simpl. unfold resolve.
  assert (0 <= ahead z) by (unfold ahead, second; lia).
  destruct (Z.ltb_spec (local_value c - ahead z) (step_at z));
    [destruct (Z.leb_spec (step_at z) (local_value c)); [done|]|];
    intros [= <-]; (split; [done|]); intros t _; rewrite resolve_spec by done; lia.
Qed.
Next Obligation.
  intros z c t0 t1 Hc. simpl. unfold resolve.
  destruct (Z.ltb_spec (local_value c - ahead z) (step_at z)); [|done].
  destruct (Z.leb_spec (step_at z) (local_value c)); [|done].
  intros [= <- <-]. do 2 (split; [done|]). intros t _. rewrite resolve_spec by done. lia.
Qed.
Next Obligation.
  intros z t _. simpl. intros Hs Hn. f_equal.
  assert (∃ k, t = k * second) as [k ->].
  { exists (t / second).
    assert (local_of z t mod second = 0) as Hm.
    { revert Hn. unfold day, second. intros Hn. Z.div_mod_to_equations. lia. }
    unfold local_of, ahead, second in *. destruct (t <? step_at z); Z.div_mod_to_equations; lia. }
  unfold second. replace (k * 1000000000) with (k * 1000 * 1000000) by lia.
  by rewrite Z.div_mul by done.
Qed.
Next Obligation. done. Qed.
Next Obligation. intros ms ms' t t'. simpl. intros [= <-] [= <-]. lia. Qed.
Next Obligation. intros d d'. simpl. by intros [= <-]. Qed.
Next Obligation. done. Qed.

Lemma utc_dates_monotone : dates_monotone (MkZone 0 0).
Proof.
  intros t t' _ _ Hle. simpl. unfold local_of, ahead. simpl.
  assert (Hz : ∀ u : Z, (if u <? 0 then u + 0 else u) = u) by (intros u; destruct (u <? 0); lia).
  rewrite !Hz. by apply Z.div_le_mono.
Qed.

End Gregorian.

(** ** A clock that steps back over midnight *)

#[local] Existing Instance Gregorian.gregorian.

Definition half_past_eleven : str := lit "30 23 * * *".

(** A run: in a zone that steps back from 00:01 to 23:01 of the previous day,
    the search from local 00:00:30 starts at the new date and returns 23:30 of
    that day, although 23:30 of the repeated day is a matching instant between
    the two. *)
Lemma step_back_over_midnight_is_missed :
  ∃ e instant between r,
    cron_parse half_past_eleven = Ok e ∧
    next_after e instant (lit "Test/StepBack") = Ok r ∧ instant < between < r ∧
    matches_at e between (lit "Test/StepBack") = Ok true.
Proof.
  destruct (cron_parse half_past_eleven) as [e|] eqn:E; [|vm_compute in E; discriminate E].
  exists e, ((15 * 86400 - 3570) * 1000), ((15 * 86400 - 1800) * 1000),
    ((16 * 86400 - 1800) * 1000).
  vm_compute in E. injection E as <-. split; [done|].
  split; [vm_compute; reflexivity|]. split; [lia|]. vm_compute. reflexivity.
Qed.

(** The match that is passed over there is on an earlier local date than the
    instant the search starts from. *)
Lemma next_after_goes_by_local_dates_witness :
  let instant := (15 * 86400 - 3570) * 1000 in
  let between := (15 * 86400 - 1800) * 1000 in
  let day r := local_day (J := Gregorian.gregorian) (L := Gregorian.gregorian_laws)
                 (Gregorian.MkZone (15 * Gregorian.day - 3540 * Gregorian.second) 3600)
                 (r * 1000000) in
  ∃ e r, cron_parse half_past_eleven = Ok e ∧
    next_after e instant (lit "Test/StepBack") = Ok r ∧
    matches_at e between (lit "Test/StepBack") = Ok true ∧ instant < between < r ∧
    day between < day instant <= day r.
Proof.
  intros instant between day.
  destruct (cron_parse half_past_eleven) as [e|] eqn:E; [|vm_compute in E; discriminate E].
  exists e.
  destruct (next_after e instant (lit "Test/StepBack")) as [r|] eqn:Hn.
  2: { exfalso. vm_compute in E. injection E as <-. vm_compute in Hn. discriminate Hn. }
  pose proof (next_after_goes_by_local_dates (L := Gregorian.gregorian_laws) e instant
    (lit "Test/StepBack") (Gregorian.MkZone (15 * Gregorian.day - 3540 * Gregorian.second) 3600)
    (instant * 1000000) eq_refl eq_refl) as H.
  cbv zeta in H. rewrite Hn in H. destruct H as (t & (_ & _ & Ht & Hd) & _).
  injection Ht as <-. exists r. vm_compute in E. injection E as <-. split; [reflexivity|].
  split; [reflexivity|]. split; [vm_compute; reflexivity|].
  split; [vm_compute in Hn; injection Hn as <-; by vm_compute|]. split; [by vm_compute|exact Hd].
Defined.

(** ** Witnesses *)

Definition weekday_mornings : str := lit "*/15 9-10 1 * MON-FRI".

Lemma next_after_is_first_witness :
  ∃ e, cron_parse weekday_mornings = Ok e ∧
    next_after e 0 (lit "Etc/UTC") = Ok 32400000 ∧ 0 < 32400000 ∧
    matches_at e 32400000 (lit "Etc/UTC") = Ok true.
Proof.
  destruct (cron_parse weekday_mornings) as [e|] eqn:E; [|vm_compute in E; discriminate E].
  exists e. split; [reflexivity|].
  pose proof (next_after_is_first (L := Gregorian.gregorian_laws) e 0 (lit "Etc/UTC")
                (Gregorian.MkZone 0 0) eq_refl Gregorian.utc_dates_monotone) as H.
  assert (Hn : next_after e 0 (lit "Etc/UTC") = Ok 32400000).
  { vm_compute in E. injection E as <-. vm_compute. reflexivity. }
  rewrite Hn in H. split; [exact Hn|]. split; [exact (proj1 H)|]. exact (proj1 (proj2 H)).
Defined.

