(* ===== verification/Log.v ===== *)
(** * Log: ordered log frames and acknowledgements

    Models [crates/automata-ci-core/src/log.rs]: sequence numbers, group
    identities and descriptors, typed frames with their validation, and the
    contiguous acknowledgement. *)

From S2P Require Import Prelude Text Execution.

(** ** Limits *)

Definition LOG_SCHEMA_VERSION : Z := 3.
Definition MAX_LOG_FRAME_BYTES : Z := 1048576.
Definition MAX_LOG_GROUP_ID_BYTES : Z := 256.
Definition MAX_LOG_GROUP_NAME_BYTES : Z := 512.

Inductive LogLimitRejection := LimitFrame | LimitGroupId | LimitGroupName.

Definition log_frame_byte_rejection (observed : Z) : option LogLimitRejection :=
  if MAX_LOG_FRAME_BYTES <? observed then Some LimitFrame else None.
Definition log_group_id_byte_rejection (observed : Z) : option LogLimitRejection :=
  if MAX_LOG_GROUP_ID_BYTES <? observed then Some LimitGroupId else None.
Definition log_group_name_byte_rejection (observed : Z) : option LogLimitRejection :=
  if MAX_LOG_GROUP_NAME_BYTES <? observed then Some LimitGroupName else None.

Inductive LogValidationError :=
| LogUnsupportedSchema (supported received : Z)
| EmptyOutput
| EmptyGroupId
| GroupIdTooLarge (maximum : Z)
| InvalidGroupId
| EmptyGroupName
| GroupNameTooLarge (maximum : Z)
| InvalidGroupName
| SelfParentGroup
| FrameTooLarge (size maximum : Z)
| SequenceExhausted.

#[export] Instance log_validation_error_eq_dec : EqDecision LogValidationError.
Proof. solve_decision. Defined.

(** ** Sequences

    A [u64]; [LogSequence::new] and [get] are the identity. *)

Abbreviation LogSequence := Z (only parsing).

Definition log_sequence_checked_next (self : LogSequence) :
    result LogValidationError LogSequence :=
  ok_or (checked_add u64_max self 1) SequenceExhausted.

(** ** Groups *)

Inductive LogChannel := Stdout | Stderr | System.

#[export] Instance log_channel_eq_dec : EqDecision LogChannel.
Proof. solve_decision. Defined.

Definition group_id_byte (byte : Z) : bool :=
  is_ascii_alphanumeric byte ||
  (byte =? 58) || (byte =? 46) || (byte =? 95) || (byte =? 45) || (byte =? 47).

(** [LogGroupId::new]; the identity is the text itself. *)
Definition log_group_id_new (value : str) : result LogValidationError str :=
  if str_is_empty value then Err EmptyGroupId
  else
    match log_group_id_byte_rejection (str_len value) with
    | Some _ => Err (GroupIdTooLarge MAX_LOG_GROUP_ID_BYTES)
    | None =>
        if negb (forallb group_id_byte (as_bytes value)) then Err InvalidGroupId
        else Ok value
    end.

Inductive LogGroupKind := Setup | Step | ActionPre | ActionPost | Cleanup.

#[export] Instance log_group_kind_eq_dec : EqDecision LogGroupKind.
Proof. solve_decision. Defined.

Record LogGroup := MkLogGroup {
  group_id : str;
  group_parent_id : option str;
  group_name : str;
  group_kind : LogGroupKind;
  group_ordinal : Z;
}.

#[export] Instance log_group_eq_dec : EqDecision LogGroup.
Proof. solve_decision. Defined.

(** Control characters and the bidirectional formatting characters. *)
Definition invalid_log_group_name_character (character : Z) : bool :=
  is_control character || (character =? 1564) || in_range 8206 8207 character ||
  in_range 8234 8238 character || in_range 8294 8297 character.

Definition log_group_validate (self : LogGroup) : result LogValidationError unit :=
  if str_is_empty (trim (group_name self)) then Err EmptyGroupName
  else
    match log_group_name_byte_rejection (str_len (group_name self)) with
    | Some _ => Err (GroupNameTooLarge MAX_LOG_GROUP_NAME_BYTES)
    | None =>
        if existsb invalid_log_group_name_character (group_name self) then Err InvalidGroupName
        else if bool_decide (group_parent_id self = Some (group_id self)) then
          Err SelfParentGroup
        else Ok tt
    end.

Definition log_group_new (id : str) (parent_id : option str) (name : str)
    (kind : LogGroupKind) (ordinal : Z) : result LogValidationError LogGroup :=
  let group := MkLogGroup id parent_id name kind ordinal in
  _ ← log_group_validate group;
  Ok group.

(** ** Frames *)

Inductive JobConclusion :=
| ConclusionSuccess | ConclusionFailure | ConclusionCancelled | ConclusionTimedOut
| ConclusionSkipped.

#[export] Instance job_conclusion_eq_dec : EqDecision JobConclusion.
Proof. solve_decision. Defined.

Inductive LogRecord :=
| GroupStarted (group : LogGroup)
| Output (group_id : str) (channel : LogChannel) (payload : list Z)
| GroupFinished (group_id : str) (conclusion : JobConclusion)
| StreamFinished.

#[export] Instance log_record_eq_dec : EqDecision LogRecord.
Proof. solve_decision. Defined.

Record LogFrame := MkLogFrame {
  frame_schema_version : Z;
  frame_stream_id : LogStreamId;
  frame_attempt_id : AttemptId;
  frame_sequence : LogSequence;
  frame_emitted_at : UnixMillis;
  frame_record : LogRecord;
}.

Definition log_frame_validate (self : LogFrame) : result LogValidationError unit :=
  if negb (frame_schema_version self =? LOG_SCHEMA_VERSION) then
    Err (LogUnsupportedSchema LOG_SCHEMA_VERSION (frame_schema_version self))
  else
    match frame_record self with
    | GroupStarted group => log_group_validate group
    | Output _ _ payload =>
        match payload with
        | [] => Err EmptyOutput
        | _ =>
            match log_frame_byte_rejection (Z.of_nat (length payload)) with
            | Some _ => Err (FrameTooLarge (Z.of_nat (length payload)) MAX_LOG_FRAME_BYTES)
            | None => Ok tt
            end
        end
    | GroupFinished _ _ | StreamFinished => Ok tt
    end.

Definition log_frame_new (stream_id : LogStreamId) (attempt_id : AttemptId)
    (sequence : LogSequence) (emitted_at : UnixMillis) (record : LogRecord) :
    result LogValidationError LogFrame :=
  let frame := MkLogFrame LOG_SCHEMA_VERSION stream_id attempt_id sequence emitted_at record in
  _ ← log_frame_validate frame;
  Ok frame.

Definition log_frame_group_started (stream_id : LogStreamId) (attempt_id : AttemptId)
    (sequence : LogSequence) (emitted_at : UnixMillis) (group : LogGroup) :
    result LogValidationError LogFrame :=
  log_frame_new stream_id attempt_id sequence emitted_at (GroupStarted group).

Definition log_frame_output (stream_id : LogStreamId) (attempt_id : AttemptId)
    (sequence : LogSequence) (emitted_at : UnixMillis) (group_id : str) (channel : LogChannel)
    (payload : list Z) : result LogValidationError LogFrame :=
  log_frame_new stream_id attempt_id sequence emitted_at (Output group_id channel payload).

Definition log_frame_group_finished (stream_id : LogStreamId) (attempt_id : AttemptId)
    (sequence : LogSequence) (emitted_at : UnixMillis) (group_id : str)
    (conclusion : JobConclusion) : result LogValidationError LogFrame :=
  log_frame_new stream_id attempt_id sequence emitted_at (GroupFinished group_id conclusion).

Definition log_frame_stream_finished (stream_id : LogStreamId) (attempt_id : AttemptId)
    (sequence : LogSequence) (emitted_at : UnixMillis) : result LogValidationError LogFrame :=
  log_frame_new stream_id attempt_id sequence emitted_at StreamFinished.

Definition frame_channel (self : LogFrame) : option LogChannel :=
  match frame_record self with
  | Output _ channel _ => Some channel
  | GroupStarted _ | GroupFinished _ _ | StreamFinished => None
  end.

Definition frame_payload (self : LogFrame) : list Z :=
  match frame_record self with
  | Output _ _ payload => payload
  | GroupStarted _ | GroupFinished _ _ | StreamFinished => []
  end.

Definition is_end_of_stream (self : LogFrame) : bool :=
  match frame_record self with StreamFinished => true | _ => false end.

(** ** Acknowledgements *)

Record LogAck := MkLogAck {
  ack_schema_version : Z;
  ack_stream_id : LogStreamId;
  contiguous_through : option LogSequence;
}.

Definition log_ack_new (stream_id : LogStreamId) (through : option LogSequence) : LogAck :=
  MkLogAck LOG_SCHEMA_VERSION stream_id through.

Definition next_expected (self : LogAck) : result LogValidationError LogSequence :=
  match contiguous_through self with
  | Some sequence => log_sequence_checked_next sequence
  | None => Ok 0
  end.

Definition log_ack_validate (self : LogAck) : result LogValidationError unit :=
  if ack_schema_version self =? LOG_SCHEMA_VERSION then Ok tt
  else Err (LogUnsupportedSchema LOG_SCHEMA_VERSION (ack_schema_version self)).

(** ** Lemmas *)

Lemma log_sequence_checked_next_Ok (s n : LogSequence) :
  log_sequence_checked_next s = Ok n ↔ n = s + 1 ∧ s < u64_max.
Proof.
  unfold log_sequence_checked_next, ok_or. pose proof (checked_add_Some u64_max s 1) as H.
  destruct (checked_add u64_max s 1) as [m|].
  - destruct (proj1 (H m) eq_refl) as [-> ?]. split; [intros [= <-]; lia|intros [-> _]; done].
  - split; [done|]. intros [-> ?]. specialize (H (s + 1)).
    destruct H as [_ H]. by discriminate H; split; [|lia].
Qed.

(** What a reader of the durable log may rely on. *)
Definition frame_wellformed (f : LogFrame) : Prop :=
  frame_schema_version f = LOG_SCHEMA_VERSION ∧
  Z.of_nat (length (frame_payload f)) <= MAX_LOG_FRAME_BYTES ∧
  (frame_channel f = None ↔ frame_payload f = []) ∧
  ∀ group, frame_record f = GroupStarted group →
    group_parent_id group ≠ Some (group_id group) ∧
    str_len (group_name group) <= MAX_LOG_GROUP_NAME_BYTES ∧
    (∃ c, c ∈ group_name group ∧ is_whitespace c = false) ∧
    ∀ c, c ∈ group_name group → invalid_log_group_name_character c = false.

Lemma trim_start_nil (s : str) : trim_start s = [] ↔ ∀ c, c ∈ s → is_whitespace c = true.
Proof.
  induction s as [|c s IH]; simpl; [set_solver|].
  destruct (is_whitespace c) eqn:E.
  - rewrite IH. setoid_rewrite elem_of_cons. naive_solver.
  - split; [done|]. intros H. rewrite (H c) in E by set_solver. done.
Qed.

Lemma trim_start_suffix (s : str) : ∃ p, s = p ++ trim_start s ∧
  ∀ c, c ∈ p → is_whitespace c = true.
Proof.
  induction s as [|c s (p & Hp & Hw)]; simpl; [exists []; set_solver|].
  destruct (is_whitespace c) eqn:E.
  - exists (c :: p). simpl. rewrite <- Hp. split; [done|].
    intros d [->|?]%elem_of_cons; auto.
  - exists []. split; [done|]. set_solver.
Qed.

Lemma trim_nil (s : str) : trim s = [] ↔ ∀ c, c ∈ s → is_whitespace c = true.
Proof.
  unfold trim, trim_end.
  assert (∀ l : str, rev l = [] ↔ l = []) as Hrev.
  { intros l. split; [|by intros ->]. intros H. rewrite <- (rev_involutive l), H. done. }
  rewrite Hrev, trim_start_nil. destruct (trim_start_suffix s) as (p & Hs & Hp). split.
  - intros H c Hc. rewrite Hs in Hc. apply elem_of_app in Hc as [Hc|Hc]; [auto|].
    apply H. rewrite list_elem_of_In, <- in_rev, <- list_elem_of_In. done.
  - intros H c Hc. apply H. rewrite Hs. apply elem_of_app. right.
    rewrite list_elem_of_In, <- in_rev, <- list_elem_of_In in Hc. done.
Qed.

Lemma trim_not_nil (s : str) : str_is_empty (trim s) = false →
  ∃ c, c ∈ s ∧ is_whitespace c = false.
Proof.
  intros Ht. destruct (existsb (λ c, negb (is_whitespace c)) s) eqn:E.
  - apply existsb_exists in E as (c & Hc & Hw). exists c.
    rewrite negb_true_iff in Hw. by rewrite list_elem_of_In.
  - exfalso. assert (trim s = []) as H; [|by rewrite H in Ht].
    apply trim_nil. intros c Hc. destruct (is_whitespace c) eqn:Ew; [done|].
    apply not_true_iff_false in E. destruct E. apply existsb_exists. exists c.
    rewrite <- list_elem_of_In, Ew. done.
Qed.

Lemma log_group_validate_Ok (g : LogGroup) :
  log_group_validate g = Ok tt →
  group_parent_id g ≠ Some (group_id g) ∧
  str_len (group_name g) <= MAX_LOG_GROUP_NAME_BYTES ∧
  (∃ c, c ∈ group_name g ∧ is_whitespace c = false) ∧
  ∀ c, c ∈ group_name g → invalid_log_group_name_character c = false.
Proof.
  unfold log_group_validate, log_group_name_byte_rejection.
  destruct (str_is_empty (trim (group_name g))) eqn:Et; [done|].
  destruct (Z.ltb_spec MAX_LOG_GROUP_NAME_BYTES (str_len (group_name g))); [done|].
  destruct (existsb _ (group_name g)) eqn:Ei; [done|].
  case_bool_decide; [done|]. intros _. repeat split; [done|done|by apply trim_not_nil|].
  intros c Hc. destruct (invalid_log_group_name_character c) eqn:E; [|done].
  apply not_true_iff_false in Ei. destruct Ei. apply existsb_exists.
  exists c. by rewrite <- list_elem_of_In.
Qed.

(** ** Properties *)

(** C38: every frame the constructors return, and every decoded frame that
    validates, is well formed: it has the current schema, at most the frame
    limit of bytes, bytes exactly when it is an output record, and a group it
    announces is not its own parent and has a bounded, visible name without
    control or bidirectional formatting characters. *)
Theorem validated_frames_are_wellformed (f : LogFrame) :
  log_frame_validate f = Ok tt →
  frame_wellformed f ∧
  log_frame_new (frame_stream_id f) (frame_attempt_id f) (frame_sequence f)
    (frame_emitted_at f) (frame_record f) = Ok f.
Proof.
  intros Hv. destruct f as [sv sid aid seq at_ rec].
  assert (sv = LOG_SCHEMA_VERSION) as ->.
  { unfold log_frame_validate in Hv. simpl in Hv.
    destruct (Z.eqb_spec sv LOG_SCHEMA_VERSION); [done|]. simpl in Hv. done. }
  split.
  - unfold log_frame_validate in Hv. simpl in Hv.
    unfold frame_wellformed, frame_payload, frame_channel. simpl.
    destruct rec as [g|gid ch payload|gid c|]; simpl; split; try done;
      (split; [try done|split; [try done|try done]]).
    + intros g' [= <-]. by apply log_group_validate_Ok.
    + destruct payload; [done|]. unfold log_frame_byte_rejection in Hv.
      destruct (Z.ltb_spec MAX_LOG_FRAME_BYTES (Z.of_nat (length (z :: payload)))); [done|].
      simpl in *. lia.
    + by destruct payload.
  - unfold log_frame_new. simpl. unfold mbind, result_bind. by rewrite Hv.
Qed.

(** ** Witnesses *)

Lemma validated_frames_are_wellformed_witness :
  frame_wellformed (MkLogFrame 3 1 2 0 5 (Output (lit "setup") Stdout [104; 105])).
Proof.
  apply (validated_frames_are_wellformed
           (MkLogFrame 3 1 2 0 5 (Output (lit "setup") Stdout [104; 105]))).
  vm_compute. reflexivity.
Defined.
