(* ===== verification/JournalBase.v ===== *)
(** * JournalBase: what the parts of the runner journal share

    The limits of [crates/automata-ci-runner-journal/src/lib.rs], the refusals
    of [error.rs], the immutable content identities of
    [automata-ci-runner-spool/src/model.rs] with the typed references of
    [model/content.rs], and the slot ordinals and command sequences of
    [automata-ci-protocol/src/message/session.rs]. *)

From S2P Require Import Prelude Text Execution Capability Log.

(** ** Limits ([lib.rs]) *)

Definition RUNNER_JOURNAL_SCHEMA_VERSION : Z := 6.
Definition MAX_DELIVERY_ENQUEUED_AT_MILLIS : Z := 253402300799999.
Definition MAX_JOURNAL_BYTES : Z := 16 * 1024 * 1024.
Definition MAX_JOURNALED_SLOTS : Z := 256.
Definition MAX_PROVIDER_OPERATIONS_PER_SLOT : Z := 32.
Definition MAX_COMMAND_TOMBSTONES : Z := 256.
Definition MAX_JOB_IR_CONTENT_BYTES : Z := 16 * 1024 * 1024.
Definition MAX_RUNTIME_AUTHORITY_CONTENT_BYTES : Z := 512 * 1024.
Definition MAX_TERMINAL_RESULT_CONTENT_BYTES : Z := 4 * 1024 * 1024.
Definition MAX_LOG_SPOOL_CONTENT_BYTES : Z := 256 * 1024 * 1024.
Definition MAX_LOG_SEGMENTS_PER_SLOT : Z := 128.
Definition MAX_LOG_SEGMENT_FRAMES : Z := 4096.

Definition clamp_registration_slots (requested : Z) : Z := Z.min requested MAX_JOURNALED_SLOTS.

(** ** Slots, command sequences and the command cursor ([session.rs]) *)

(** [NonZeroU16]. *)
Abbreviation RunnerSlotOrdinal := (Bounded 1 u16_max) (only parsing).

Inductive RunnerSlotOrdinalError := SlotOrdinalZero.

Definition slot_ordinal_new (ordinal : Z) : result RunnerSlotOrdinalError RunnerSlotOrdinal :=
  ok_or (bounded 1 u16_max ordinal) SlotOrdinalZero.

Definition CommandSequence_MAX : Z := i64_max.
Abbreviation CommandSequence := (Bounded 1 CommandSequence_MAX) (only parsing).

Inductive CommandSequenceError :=
| CommandSequenceZero
| CommandSequenceOutOfRange
| CommandSequenceExhausted.

Definition command_sequence_new (value : Z) : result CommandSequenceError CommandSequence :=
  if CommandSequence_MAX <? value then Err CommandSequenceOutOfRange
  else ok_or (bounded 1 CommandSequence_MAX value) CommandSequenceZero.

Definition command_sequence_checked_next (self : CommandSequence) :
    result CommandSequenceError CommandSequence :=
  if bget self =? CommandSequence_MAX then Err CommandSequenceExhausted
  else map_err (λ _, CommandSequenceExhausted) (command_sequence_new (bget self + 1)).

(** [CommandSequence(NonZeroU64::MIN)]. *)
Definition command_sequence_min : CommandSequence :=
  MkBounded (lo := 1) (hi := CommandSequence_MAX) 1 I.

Record CommandCursor := MkCommandCursor { cursor_acknowledged : option CommandSequence }.

#[export] Instance command_cursor_eq_dec : EqDecision CommandCursor.
Proof. solve_decision. Defined.

Definition command_cursor_initial : CommandCursor := MkCommandCursor None.

Inductive CommandCursorError :=
| CursorExhausted
| NonContiguous (expected received : CommandSequence).

Definition command_cursor_advance (self : CommandCursor) (sequence : CommandSequence) :
    result CommandCursorError CommandCursor :=
  expected ← match cursor_acknowledged self with
             | Some current => map_err (λ _, CursorExhausted) (command_sequence_checked_next current)
             | None => Ok command_sequence_min
             end;
  if negb (bool_decide (sequence = expected)) then Err (NonContiguous expected sequence)
  else Ok (MkCommandCursor (Some sequence)).

(** ** Refusals ([error.rs]) *)

Definition OutboundOperationSequence_MAX : Z := i64_max.
Abbreviation OutboundOperationSequence := (Bounded 1 OutboundOperationSequence_MAX) (only parsing).

(** [model/provider.rs]; declared here because a refusal names the kind. *)
Inductive ProviderOperationKind := CreateSandbox | StartSandbox | StopSandbox | DestroySandbox.

#[export] Instance provider_operation_kind_eq_dec : EqDecision ProviderOperationKind.
Proof. solve_decision. Defined.

Inductive JournalInvariantError :=
| NoSession
| SessionMismatch (expected received : RunnerSessionId)
| SessionHasActiveSlots
| SessionNegotiationMismatch
| LeasePollCheckpointMissing (slot : RunnerSlotOrdinal)
| LeasePollCheckpointMismatch (expected received : OperationId)
| LeasePollOperationConflict
| LeaseAuthorityReceiptMismatch
| SlotNotFound (slot : RunnerSlotOrdinal)
| SlotOccupied (slot : RunnerSlotOrdinal)
| SlotLimitReached
| LeaseGuardMismatch (expected received : LeaseGuard)
| LeaseRunnerMismatch
| InvalidLease
| JobIrVersionMismatch
| InvalidJobIrContent
| InvalidRuntimeAuthorityContent
| InvalidRuntimeAuthorityDelivery
| RuntimeAuthorityDeliveryReplayConflict
| InvalidManagedSecretBindings
| InvalidTerminalResultContent
| InvalidDeliveryEnqueuedAt
| LeaseExpiryRegression
| CommandSequenceMismatch (expected received : CommandSequence)
| CommandReplayConflict
| CommandReplayOutsideWindow
| OfferNotAccepted
| OfferAlreadyAccepted
| OfferAlreadyRejected
| OfferNotRejected
| LeaseRejectionReplayConflict
| LeaseRejectionOperationMismatch
| LeaseRejectionNotAcknowledged
| LeaseTerminal
| InvalidProviderOperation (kind : ProviderOperationKind)
| ProviderOperationPending
| ProviderOperationReplayConflict
| InvalidEndpointRequestContent
| InvalidEndpointResultContent
| InvalidEndpointResultReservation
| EndpointOperationLimit
| EndpointContentRefLimit
| EndpointContentBytesLimit
| EndpointOperationPending
| EndpointOperationNotAccepted
| EndpointOperationReplayConflict
| EndpointOperationMissing
| EndpointOperationCancelled
| EndpointOperationResolved
| EndpointCancellationNotRequested
| EndpointOperationNotAbandonable
| EndpointSandboxStillPresent
| EndpointRecoveryPending
| EndpointOperationsClosed
| EndpointInvocationNotCommitted
| EndpointResultExceedsReservation
| EndpointResultReplayConflict
| SandboxWithoutCreateIntent
| SandboxIdentityConflict
| TerminalResultRequired
| TerminalResultReplayConflict
| TerminalResultAlreadyAcknowledgedInput
| TerminalResultOperationMismatch
| TerminalResultNotAcknowledged
| OutboundOperationSequenceMismatch (expected received : OutboundOperationSequence)
| LogStreamMismatch
| LogSegmentReplayConflict
| LogStreamClosed
| InvalidLogSpoolContent
| InvalidLogSegment
| LogSegmentMutationConflict
| LogSegmentLimit
| LogBacklogLimit
| InvalidLogAcknowledgement
| LogAcknowledgementConflict
| SlotNotTerminal
| LogDeliveryIncomplete
| OrphanAuthorityMismatch
| OrphanAbandonmentConflict
| OrphanNotAuthorized
| CounterExhausted
| InvalidProviderName
| InvalidSandboxHandle
| InvalidOutboundOperationSequence
| DecodedCollectionLimit
| DecodedStateInvalid
| InvalidLifecycleTransition.

Definition validate_delivery_enqueued_at (value : UnixMillis) :
    result JournalInvariantError unit :=
  if (0 <=? value) && (value <=? MAX_DELIVERY_ENQUEUED_AT_MILLIS) then Ok tt
  else Err InvalidDeliveryEnqueuedAt.

(** ** Content identities ([runner-spool]) *)

Inductive ContentKind :=
| JobIr | RuntimeAuthority | TerminalResult | LogSpool | EndpointRequest | EndpointResult.

#[export] Instance content_kind_eq_dec : EqDecision ContentKind.
Proof. solve_decision. Defined.

Inductive DurableContentIdentity :=
| PublicIdentity (plaintext_bytes : Bounded 0 u64_max) (plaintext_sha256 : Sha256Digest)
| EndpointResultIdentity (protected_allocation_bytes : Bounded 0 u64_max)
    (opaque_identity : Sha256Digest).

#[export] Instance durable_content_identity_eq_dec : EqDecision DurableContentIdentity.
Proof. solve_decision. Defined.

Record DurableContentRef := MkDurableContentRef {
  content_kind : ContentKind;
  content_identity : DurableContentIdentity;
  content_cache_key : str;
  content_protection_id : str;
}.

#[export] Instance durable_content_ref_eq_dec : EqDecision DurableContentRef.
Proof. solve_decision. Defined.

Definition accounted_bytes (self : DurableContentRef) : Z :=
  match content_identity self with
  | PublicIdentity plaintext_bytes _ => bget plaintext_bytes
  | EndpointResultIdentity protected_allocation_bytes _ => bget protected_allocation_bytes
  end.

Definition public_plaintext_bytes (self : DurableContentRef) : option Z :=
  match content_identity self with
  | PublicIdentity plaintext_bytes _ => Some (bget plaintext_bytes)
  | EndpointResultIdentity _ _ => None
  end.

Definition public_plaintext_sha256 (self : DurableContentRef) : option Sha256Digest :=
  match content_identity self with
  | PublicIdentity _ plaintext_sha256 => Some plaintext_sha256
  | EndpointResultIdentity _ _ => None
  end.

Definition endpoint_result_allocation_bytes (self : DurableContentRef) : option Z :=
  match content_identity self with
  | EndpointResultIdentity protected_allocation_bytes _ => Some (bget protected_allocation_bytes)
  | PublicIdentity _ _ => None
  end.

Lemma accounted_bytes_range (c : DurableContentRef) : 0 <= accounted_bytes c <= u64_max.
Proof. unfold accounted_bytes. case_match; apply bounded_range. Qed.

(** ** Typed content references ([model/content.rs]) *)

Abbreviation JobIrVersion := (Bounded 1 u16_max) (only parsing).

Record JobIrContentRef := MkJobIrContentRef {
  job_ir_version : JobIrVersion;
  job_ir_content : DurableContentRef;
}.

#[export] Instance job_ir_content_ref_eq_dec : EqDecision JobIrContentRef.
Proof. solve_decision. Defined.

Definition job_ir_content_validate (self : JobIrContentRef) : result JournalInvariantError unit :=
  if negb (bool_decide (content_kind (job_ir_content self) = JobIr)) ||
     (accounted_bytes (job_ir_content self) =? 0) ||
     (MAX_JOB_IR_CONTENT_BYTES <? accounted_bytes (job_ir_content self))
  then Err InvalidJobIrContent else Ok tt.

Definition job_ir_content_new (version : JobIrVersion) (content : DurableContentRef) :
    result JournalInvariantError JobIrContentRef :=
  let value := MkJobIrContentRef version content in
  _ ← job_ir_content_validate value;
  Ok value.

Record RuntimeAuthorityContentRef := MkRuntimeAuthorityContentRef {
  authority_content : DurableContentRef;
}.

#[export] Instance runtime_authority_content_ref_eq_dec : EqDecision RuntimeAuthorityContentRef.
Proof. solve_decision. Defined.

Definition runtime_authority_content_validate (self : RuntimeAuthorityContentRef) :
    result JournalInvariantError unit :=
  if negb (bool_decide (content_kind (authority_content self) = RuntimeAuthority)) ||
     (accounted_bytes (authority_content self) =? 0) ||
     (MAX_RUNTIME_AUTHORITY_CONTENT_BYTES <? accounted_bytes (authority_content self))
  then Err InvalidRuntimeAuthorityContent else Ok tt.

Definition runtime_authority_content_new (content : DurableContentRef) :
    result JournalInvariantError RuntimeAuthorityContentRef :=
  let value := MkRuntimeAuthorityContentRef content in
  _ ← runtime_authority_content_validate value;
  Ok value.

Record TerminalResultRecord := MkTerminalResultRecord {
  result_operation_id : OperationId;
  result_content : DurableContentRef;
  result_acknowledged : bool;
}.

#[export] Instance terminal_result_record_eq_dec : EqDecision TerminalResultRecord.
Proof. solve_decision. Defined.

Definition terminal_result_validate (self : TerminalResultRecord) :
    result JournalInvariantError unit :=
  if negb (bool_decide (content_kind (result_content self) = TerminalResult)) ||
     (accounted_bytes (result_content self) =? 0) ||
     (MAX_TERMINAL_RESULT_CONTENT_BYTES <? accounted_bytes (result_content self))
  then Err InvalidTerminalResultContent else Ok tt.

Definition terminal_result_new (operation_id : OperationId) (content : DurableContentRef) :
    result JournalInvariantError TerminalResultRecord :=
  let value := MkTerminalResultRecord operation_id content false in
  _ ← terminal_result_validate value;
  Ok value.

Definition terminal_result_acknowledge (self : TerminalResultRecord) : TerminalResultRecord :=
  MkTerminalResultRecord (result_operation_id self) (result_content self) true.

Definition matches_unacknowledged (self other : TerminalResultRecord) : bool :=
  (result_operation_id self =? result_operation_id other) &&
  bool_decide (result_content self = result_content other) &&
  negb (result_acknowledged other).

(** ** Facts *)

(** The successor of a sequence is the next number, and exists below the
    maximum. *)
Lemma command_sequence_checked_next_Ok (s next : CommandSequence) :
  command_sequence_checked_next s = Ok next ↔ bget next = bget s + 1.
Proof.
  unfold command_sequence_checked_next, command_sequence_new.
  pose proof (bounded_range s). pose proof (bounded_range next).
  destruct (Z.eqb_spec (bget s) CommandSequence_MAX) as [He|He].
  - split; [done|]. rewrite He in *. lia.
  - destruct (Z.ltb_spec CommandSequence_MAX (bget s + 1)); [lia|].
    destruct (bounded 1 CommandSequence_MAX (bget s + 1)) as [b|] eqn:Hb; simpl.
    + apply bounded_Some in Hb. split; [intros [= <-]; done|].
      intros Hn. f_equal. apply bounded_eq. congruence.
    + apply bounded_None in Hb. lia.
Qed.

Lemma command_cursor_advance_Ok (c c' : CommandCursor) (s : CommandSequence) :
  command_cursor_advance c s = Ok c' →
  c' = MkCommandCursor (Some s) ∧
  match cursor_acknowledged c with
  | Some current => bget s = bget current + 1
  | None => s = command_sequence_min
  end.
Proof.
  unfold command_cursor_advance. destruct (cursor_acknowledged c) as [cur|]; simpl.
  - destruct (command_sequence_checked_next cur) as [e|] eqn:He; [simpl|done].
    case_bool_decide as Hs; [|done]. simpl. intros [= <-]. split; [done|].
    apply command_sequence_checked_next_Ok in He. congruence.
  - case_bool_decide; [|done]. simpl. intros [= <-]. done.
Qed.
