(* ===== verification/ManagedSecret.v ===== *)
(** * ManagedSecret: lease-scoped, value-free secret bindings

    Models [crates/automata-ci-protocol/src/message/managed_secret.rs]: the
    overlay a lease offer may carry, its canonical form and its binding to one
    attempt, lease and fence. Hashing and UUID parsing are third-party code:
    they are the operations of the classes [Sha256] and [Uuid]. *)

From S2P Require Import Prelude Text Execution Capability.

(** [sha2::Sha256] over the bytes fed to the hasher. *)
Class Sha256 := { sha256 : list Z → Sha256Digest }.

(** [uuid::Uuid]: parsing any accepted spelling, and the hyphenated one. *)
Class Uuid := {
  uuid_parse_str : str → option Z;
  uuid_hyphenated : Z → str;
}.

Definition MANAGED_SECRET_BINDING_OVERLAY_SCHEMA_VERSION : Z := 1.
Definition MAX_MANAGED_SECRET_BINDINGS : Z := 256.

(** [b"automata.managed-secret-binding-overlay.v1\0"]. *)
Definition OVERLAY_DIGEST_DOMAIN : list Z :=
  lit "automata.managed-secret-binding-overlay.v1" ++ [0].

Record SecretBinding := MkSecretBinding {
  binding_id : str;
  version_id : option str;
}.

#[export] Instance secret_binding_eq_dec : EqDecision SecretBinding.
Proof. solve_decision. Defined.

Record ManagedSecretBindingOverlayEntry := MkOverlayEntry {
  canonical_name : str;
  entry_binding : SecretBinding;
}.

#[export] Instance overlay_entry_eq_dec : EqDecision ManagedSecretBindingOverlayEntry.
Proof. solve_decision. Defined.

Record ManagedSecretBindingOverlay := MkOverlay {
  overlay_schema_version : Z;
  overlay_attempt_id : AttemptId;
  overlay_lease_id : LeaseId;
  overlay_fencing_token : FencingToken;
  overlay_bindings : list ManagedSecretBindingOverlayEntry;
  overlay_digest : Sha256Digest;
}.

#[export] Instance overlay_eq_dec : EqDecision ManagedSecretBindingOverlay.
Proof. solve_decision. Defined.

Inductive ManagedSecretBindingOverlayError :=
| OverlayUnsupportedSchema
| InvalidCanonicalName
| InvalidGrantId
| MissingVersionId
| InvalidVersionId
| TooManyBindings
| NoncanonicalOrder
| DuplicateGrant
| DigestMismatch
| LeaseMismatch.

Definition name_character (c : Z) : bool := (c =? 95) || is_ascii_uppercase c.

Definition valid_canonical_name (value : str) : bool :=
  match value with
  | [] => false
  | first :: characters =>
      name_character first && (str_len value <=? 255) &&
      forallb (λ c, name_character c || is_ascii_digit c) characters &&
      negb (existsb (λ prefix, match strip_prefix prefix value with
                               | Some _ => true | None => false end)
              [lit "GITHUB_"; lit "ACTIONS_"; lit "RUNNER_"; lit "AUTOMATA_"])
  end.

(** [n.to_be_bytes()] at a width of [n] bytes. *)
Fixpoint be_bytes (n : nat) (value : Z) : list Z :=
  match n with
  | O => []
  | S n => be_bytes n (value / 256) ++ [value mod 256]
  end.

Definition len_u32 (n : Z) : list Z := be_bytes 4 (Z.min n u32_max).

Definition digest_text (value : str) : list Z := len_u32 (str_len value) ++ as_bytes value.

Definition digest_entry (entry : ManagedSecretBindingOverlayEntry) : list Z :=
  digest_text (canonical_name entry) ++ digest_text (binding_id (entry_binding entry)) ++
  digest_text (default [] (version_id (entry_binding entry))).

Section Overlay.
Context {hasher : Sha256} {uuids : Uuid}.

Definition valid_canonical_uuid (value : str) : bool :=
  match uuid_parse_str value with
  | Some parsed => negb (parsed =? 0) && str_eqb (uuid_hyphenated parsed) value
  | None => false
  end.

Definition overlay_entry_new (name : str) (binding : SecretBinding) :
    result ManagedSecretBindingOverlayError ManagedSecretBindingOverlayEntry :=
  if negb (valid_canonical_name name) then Err InvalidCanonicalName
  else if negb (valid_canonical_uuid (binding_id binding)) then Err InvalidGrantId
  else
    version ← ok_or (version_id binding) MissingVersionId;
    if negb (valid_canonical_uuid version) then Err InvalidVersionId
    else Ok (MkOverlayEntry name binding).

(** The loop of [validate_bindings]: the previous name and the grants seen. *)
Fixpoint validate_entries (previous : option str) (grants : BTreeSet str)
    (l : list ManagedSecretBindingOverlayEntry) :
    result ManagedSecretBindingOverlayError unit :=
  match l with
  | [] => Ok tt
  | entry :: rest =>
      _ ← overlay_entry_new (canonical_name entry) (entry_binding entry);
      if match previous with
         | Some previous => leb (canonical_name entry) previous
         | None => false
         end then Err NoncanonicalOrder
      else if bset_contains grants (binding_id (entry_binding entry)) then Err DuplicateGrant
      else validate_entries (Some (canonical_name entry))
             (bset_insert (binding_id (entry_binding entry)) grants) rest
  end.

Definition validate_bindings (self : ManagedSecretBindingOverlay) :
    result ManagedSecretBindingOverlayError unit :=
  if MAX_MANAGED_SECRET_BINDINGS <? Z.of_nat (length (overlay_bindings self)) then
    Err TooManyBindings
  else validate_entries None bset_empty (overlay_bindings self).

(** The version is present on every path to here: [validate_bindings] comes
    first. *)
Definition compute_digest (self : ManagedSecretBindingOverlay) : Sha256Digest :=
  sha256 (OVERLAY_DIGEST_DOMAIN ++ be_bytes 2 (overlay_schema_version self) ++
          be_bytes 16 (overlay_attempt_id self) ++ be_bytes 16 (overlay_lease_id self) ++
          be_bytes 8 (bget (overlay_fencing_token self)) ++
          len_u32 (Z.of_nat (length (overlay_bindings self))) ++
          (overlay_bindings self ≫= digest_entry)).

Definition with_digest (self : ManagedSecretBindingOverlay) : ManagedSecretBindingOverlay :=
  MkOverlay (overlay_schema_version self) (overlay_attempt_id self) (overlay_lease_id self)
    (overlay_fencing_token self) (overlay_bindings self) (compute_digest self).

Definition overlay_of (lease : Lease) (entries : list ManagedSecretBindingOverlayEntry) :
    ManagedSecretBindingOverlay :=
  MkOverlay MANAGED_SECRET_BINDING_OVERLAY_SCHEMA_VERSION (lease_attempt_id lease)
    (lease_id lease) (lease_fencing_token lease) entries (replicate 32 0).

Fixpoint overlay_entries (bindings : list (str * SecretBinding)) :
    result ManagedSecretBindingOverlayError (list ManagedSecretBindingOverlayEntry) :=
  match bindings with
  | [] => Ok []
  | (name, binding) :: rest =>
      entry ← overlay_entry_new name binding;
      rest ← overlay_entries rest;
      Ok (entry :: rest)
  end.

Definition overlay_new (lease : Lease) (bindings : list (str * SecretBinding)) :
    result ManagedSecretBindingOverlayError ManagedSecretBindingOverlay :=
  entries ← overlay_entries bindings;
  let overlay := overlay_of lease (sort_by_key canonical_name entries) in
  _ ← validate_bindings overlay;
  Ok (with_digest overlay).

Definition overlay_empty (lease : Lease) : ManagedSecretBindingOverlay :=
  with_digest (overlay_of lease []).

Definition validate_canonical (self : ManagedSecretBindingOverlay) :
    result ManagedSecretBindingOverlayError unit :=
  if negb (overlay_schema_version self =? MANAGED_SECRET_BINDING_OVERLAY_SCHEMA_VERSION) then
    Err OverlayUnsupportedSchema
  else
    _ ← validate_bindings self;
    if negb (bool_decide (compute_digest self = overlay_digest self)) then Err DigestMismatch
    else Ok tt.

Definition validate_for (self : ManagedSecretBindingOverlay) (lease : Lease) :
    result ManagedSecretBindingOverlayError unit :=
  _ ← validate_canonical self;
  if negb (overlay_attempt_id self =? lease_attempt_id lease) ||
     negb (overlay_lease_id self =? lease_id lease) ||
     negb (bool_decide (overlay_fencing_token self = lease_fencing_token lease))
  then Err LeaseMismatch else Ok tt.

(** ** Facts *)

(** Accepted entries have canonical names and grants that do not repeat. *)
Lemma validate_entries_Ok (previous : option str) (grants : BTreeSet str)
    (l : list ManagedSecretBindingOverlayEntry) :
  validate_entries previous grants l = Ok tt →
  (∀ e, e ∈ l → is_ok (overlay_entry_new (canonical_name e) (entry_binding e)) = true) ∧
  strict_sorted (canonical_name <$> l) = true ∧
  (∀ e p, e ∈ l → previous = Some p → lt p (canonical_name e)) ∧
  NoDup ((binding_id ∘ entry_binding) <$> l) ∧
  (∀ e, e ∈ l → ¬ binding_id (entry_binding e) ∈ grants).
Proof.
  revert previous grants. induction l as [|e l IH]; intros previous grants; simpl.
  { intros _. repeat split; try set_solver. constructor. }
  destruct (overlay_entry_new _ _) eqn:He; simpl; [|done].
  destruct (match previous with Some _ => _ | None => _ end) eqn:Hp; [done|].
  destruct (bset_contains _ _) eqn:Hg; [done|].
  intros (Hok & Hso & Hpr & Hnd & Hgr)%IH.
  assert (Hfirst : ∀ p, previous = Some p → lt p (canonical_name e)).
  { intros p ->. simpl in Hp. apply not_le_lt. intros Hle.
    apply leb_le in Hle. congruence. }
  rewrite <- not_true_iff_false, bset_contains_spec in Hg.
  split; [|split; [|split; [|split]]].
  - intros e'. rewrite elem_of_cons. intros [->|?]; [by rewrite He|eauto].
  - change (strict_sorted (canonical_name e :: (canonical_name <$> l)) = true).
    apply strict_sorted_cons. split; [|done].
    intros y (e' & -> & He')%list_elem_of_fmap. eauto.
  - intros e' p. rewrite elem_of_cons. intros [->|He'] Hpe; [eauto|].
    eapply lt_trans; eauto.
  - apply NoDup_cons. split; [|done].
    intros (e' & Heq & He')%list_elem_of_fmap. simpl in Heq.
    apply (Hgr e' He'). rewrite <- Heq. apply elem_of_bset_insert. auto.
  - intros e'. rewrite elem_of_cons. intros [->|He']; [done|].
    intros Hin. apply (Hgr e' He'). apply elem_of_bset_insert. auto.
Qed.

Lemma overlay_entry_new_Ok (name : str) (b : SecretBinding)
    (e : ManagedSecretBindingOverlayEntry) :
  overlay_entry_new name b = Ok e → e = MkOverlayEntry name b.
Proof. unfold overlay_entry_new. intros H. unfold_monad. by split_tests. Qed.

Lemma overlay_entries_Ok (bs : list (str * SecretBinding))
    (es : list ManagedSecretBindingOverlayEntry) :
  overlay_entries bs = Ok es ↔
  es = (λ nb, MkOverlayEntry nb.1 nb.2) <$> bs ∧
  ∀ nb, nb ∈ bs → is_ok (overlay_entry_new nb.1 nb.2) = true.
Proof.
  revert es. induction bs as [|[name b] bs IH]; intros es; simpl.
  { split; [intros [= <-]; split; [done|set_solver]|intros [-> _]; done]. }
  destruct (overlay_entry_new name b) as [e|] eqn:He; simpl.
  - apply overlay_entry_new_Ok in He as Hee. subst e.
    destruct (overlay_entries bs) as [es'|] eqn:Hes; simpl.
    + destruct (proj1 (IH es') eq_refl) as [-> Hok].
      split; [intros [= <-]|intros [-> _]; done].
      split; [done|]. intros nb. rewrite elem_of_cons. intros [->|?]; [simpl; by rewrite He|eauto].
    + split; [done|]. intros [-> Hok]. exfalso.
      assert (Err e = Ok ((λ nb, MkOverlayEntry nb.1 nb.2) <$> bs)); [|done].
      apply IH. split; [done|]. intros nb Hnb. apply Hok. by apply elem_of_cons; right.
  - split; [done|]. intros [_ Hok]. specialize (Hok (name, b)). simpl in Hok.
    rewrite He in Hok. discriminate Hok. set_solver.
Qed.

Lemma validate_for_with_digest (lease : Lease) (l : list ManagedSecretBindingOverlayEntry) :
  validate_bindings (overlay_of lease l) = Ok tt →
  validate_for (with_digest (overlay_of lease l)) lease = Ok tt.
Proof.
  intros Hv. unfold validate_for, validate_canonical. simpl.
  change (validate_bindings (with_digest (overlay_of lease l))) with
    (validate_bindings (overlay_of lease l)).
  rewrite Hv. simpl. rewrite bool_decide_eq_true_2 by done. simpl.
  rewrite !Z.eqb_refl, bool_decide_eq_true_2 by done. done.
Qed.

End Overlay.

(** ** Properties *)

(** An overlay built for a lease is canonical whatever the order of its
    input: names ascend strictly, no grant repeats, any reordering of the
    bindings gives the same overlay with the same digest, and it validates for
    exactly the leases that carry the same attempt, lease and fence. *)
Lemma overlay_is_canonical {hasher : Sha256} {uuids : Uuid} (lease : Lease)
    (bindings : list (str * SecretBinding)) (overlay : ManagedSecretBindingOverlay) :
  overlay_new lease bindings = Ok overlay →
  strict_sorted (canonical_name <$> overlay_bindings overlay) = true ∧
  NoDup ((binding_id ∘ entry_binding) <$> overlay_bindings overlay) ∧
  (∀ bindings', bindings' ≡ₚ bindings → overlay_new lease bindings' = Ok overlay) ∧
  (∀ lease', validate_for overlay lease' = Ok tt ↔
     lease_attempt_id lease' = lease_attempt_id lease ∧
     lease_guard lease' = lease_guard lease).
Proof.
  unfold overlay_new.
  destruct (overlay_entries bindings) as [es|] eqn:Hes; simpl; [|done].
  destruct (validate_bindings _) as [[]|] eqn:Hv; simpl; [|done]. intros [= <-]. simpl.
  assert (Hv' := Hv). unfold validate_bindings in Hv'. simpl in Hv'.
  destruct (MAX_MANAGED_SECRET_BINDINGS <? _); [done|].
  apply validate_entries_Ok in Hv' as (_ & Hso & _ & Hnd & _).
  split; [done|]. split; [done|]. split.
  - intros bs' Hp. apply overlay_entries_Ok in Hes as [-> Hok].
    set (f := λ nb : str * SecretBinding, MkOverlayEntry nb.1 nb.2) in *.
    rewrite (proj2 (overlay_entries_Ok bs' (f <$> bs'))).
    2: { split; [done|]. intros nb. rewrite Hp. apply Hok. }
    simpl. rewrite <- (sort_by_key_unique canonical_name (f <$> bindings) (f <$> bs')).
    + by rewrite Hv.
    + intros x y Hx Hy. apply (NoDup_fmap_inj canonical_name (sort_by_key canonical_name
        (f <$> bindings))); [by apply strict_sorted_NoDup|by apply elem_of_sort_by_key..].
    + by rewrite Hp.
  - intros lease'. pose proof (validate_for_with_digest lease _ Hv) as Hself.
    unfold validate_for in *. destruct (validate_canonical _) as [[]|]; simpl in *; [|done].
    unfold lease_guard. split.
    + intros H. split_tests.
      repeat match goal with
      | H : _ || _ = false |- _ => apply orb_false_iff in H as [? ?]
      | H : negb _ = false |- _ => apply negb_false_iff in H
      | H : (_ =? _) = true |- _ => apply Z.eqb_eq in H
      | H : bool_decide _ = true |- _ => apply bool_decide_eq_true in H
      end. split; congruence.
    + intros [Ha [= Hl Ht]]. rewrite Ha, Hl, Ht, !Z.eqb_refl, bool_decide_eq_true_2 by done.
      done.
Qed.

(** ** An instance, and the property at a concrete overlay *)

Definition demo_sha256 : Sha256 :=
  {| sha256 := λ bytes, [foldl (λ h b, (h * 31 + b) mod 256) 7 bytes] |}.

Definition demo_uuid : Uuid :=
  {| uuid_parse_str := parse_uint u64_max;
     uuid_hyphenated := λ z, if z =? 7 then lit "7" else if z =? 8 then lit "8" else [] |}.

Definition demo_overlay_lease : Lease :=
  MkLease 1 100 7 1 (@MkBounded 1 FencingToken_MAX 3 I) 0 10.

Definition demo_bindings : list (str * SecretBinding) :=
  [(lit "TOKEN_B", MkSecretBinding (lit "8") (Some (lit "7")));
   (lit "TOKEN_A", MkSecretBinding (lit "7") (Some (lit "7")))].

Definition demo_overlay : ManagedSecretBindingOverlay :=
  @with_digest demo_sha256 (overlay_of demo_overlay_lease
    [MkOverlayEntry (lit "TOKEN_A") (MkSecretBinding (lit "7") (Some (lit "7")));
     MkOverlayEntry (lit "TOKEN_B") (MkSecretBinding (lit "8") (Some (lit "7")))]).

