(* ===== verification/Trust.v ===== *)
(** * Trust: authenticated evidence and the authority it earns

    Models [crates/automata-ci-core/src/trust.rs]: the evidence of an event,
    what makes it well-formed and complete, the classification of its source,
    the authority a policy leaves it, and the canonical snapshot that carries
    the decision from admission to execution. SHA-256 and serde_json are the
    classes [Sha256] and [TrustEncoding]. *)

From S2P Require Import Prelude Text Capability ManagedSecret.

Open Scope Z_scope.

Definition TRUST_POLICY_SCHEMA_V1 : Z := 1.
Definition TRUST_SNAPSHOT_SCHEMA_V1 : Z := 1.
Definition MAX_TRUST_SNAPSHOT_BYTES : Z := 32768.
Definition POLICY_DIGEST_DOMAIN : list Z := lit "automata.workflow-trust-policy.v1" ++ [0].
Definition SNAPSHOT_DIGEST_DOMAIN : list Z := lit "automata.workflow-trust-snapshot.v1" ++ [0].
Definition MAX_TRUST_TEXT_BYTES : Z := 1024.

Inductive TrustSnapshotError :=
| TrustInvalidText
| ConflictingEvidence
| InvalidTransitiveEvidence
| RerunMustReuseSnapshot
| TrustUnsupportedSchema
| NoncanonicalDecision
| TrustInvalidEncoding
| NoncanonicalEncoding
| TrustDigestMismatch.

(** ** Policies *)

Inductive ForkWritePolicy := ForkDeny | ForkAllowExplicitly.
Inductive DispatchRecursionPolicy := RequireExternalOrigin | DispatchAllowExplicitly.

#[export] Instance fork_write_policy_eq_dec : EqDecision ForkWritePolicy.
Proof. solve_decision. Defined.
#[export] Instance dispatch_recursion_policy_eq_dec : EqDecision DispatchRecursionPolicy.
Proof. solve_decision. Defined.

(** The schema is a [u16], the revision a [NonZeroU64]. *)
Record TrustPolicyDocument := MkPolicyDocument {
  policy_schema : Z;
  policy_revision : Bounded 1 u64_max;
  fork_writes : ForkWritePolicy;
  dispatch_recursion : DispatchRecursionPolicy
}.
#[export] Instance trust_policy_document_eq_dec : EqDecision TrustPolicyDocument.
Proof. solve_decision. Defined.

Record TrustPolicy := MkTrustPolicy {
  policy_document : TrustPolicyDocument;
  policy_canonical_bytes : list Z;
  policy_digest : Sha256Digest
}.

(** ** Evidence *)

Inductive TrustOriginKind :=
| OriginProviderWebhook | OriginWorkflowDispatch | OriginSchedule | OriginWorkflowRun
| OriginRerun.

Inductive TrustEventKind :=
| EventPush | EventPullRequest | EventPullRequestTarget | EventMergeGroup
| EventRepositoryDispatch | EventWorkflowDispatch | EventSchedule | EventWorkflowRun.

Inductive TrustActorKind :=
| ActorUser | ActorBot | ActorOrganization | ActorMannequin | ActorSystem.

Inductive TrustAutomationKind := AutomationNone | AutomationDependabot | AutomationOther.

Inductive TrustTokenRecursion :=
| RecursionSuppressed | RecursionExternal | RecursionExplicitlyAllowed | RecursionUnknown.

Inductive TrustSourceClass :=
| SourceSameRepository | SourceFork | SourceDependabot | SourceAutomation | SourceMergeQueue
| SourceIncomplete.

#[export] Instance trust_origin_eq_dec : EqDecision TrustOriginKind.
Proof. solve_decision. Defined.
#[export] Instance trust_event_eq_dec : EqDecision TrustEventKind.
Proof. solve_decision. Defined.
#[export] Instance trust_actor_kind_eq_dec : EqDecision TrustActorKind.
Proof. solve_decision. Defined.
#[export] Instance trust_automation_eq_dec : EqDecision TrustAutomationKind.
Proof. solve_decision. Defined.
#[export] Instance trust_recursion_eq_dec : EqDecision TrustTokenRecursion.
Proof. solve_decision. Defined.
#[export] Instance trust_source_eq_dec : EqDecision TrustSourceClass.
Proof. solve_decision. Defined.

Record TrustActorEvidence := MkActorEvidence {
  actor_id : str;
  actor_kind : TrustActorKind;
  actor_automation : TrustAutomationKind
}.
Record TrustRepositoryEvidence := MkRepositoryEvidence {
  trust_repository_id : str;
  trust_owner_id : str
}.
(** [chain_depth] is a [u8]. *)
Record TrustUpstreamEvidence := MkUpstreamEvidence {
  upstream_snapshot_digest : Sha256Digest;
  upstream_chain_depth : Z;
  upstream_evidence_complete : bool;
  upstream_source : TrustSourceClass
}.

#[export] Instance trust_actor_eq_dec : EqDecision TrustActorEvidence.
Proof. solve_decision. Defined.
#[export] Instance trust_repository_eq_dec : EqDecision TrustRepositoryEvidence.
Proof. solve_decision. Defined.
#[export] Instance trust_upstream_eq_dec : EqDecision TrustUpstreamEvidence.
Proof. solve_decision. Defined.

Record TrustEvidence := MkEvidence {
  evidence_origin : TrustOriginKind;
  evidence_event : TrustEventKind;
  evidence_activity : option str;
  original_actor : option TrustActorEvidence;
  triggering_actor : option TrustActorEvidence;
  source_actor : option TrustActorEvidence;
  source_repository : option TrustRepositoryEvidence;
  target_repository : option TrustRepositoryEvidence;
  source_ref : option str;
  target_ref : option str;
  execution_ref : option str;
  source_revision : option str;
  target_revision : option str;
  execution_revision : option str;
  evidence_fork : option bool;
  privileged_transition : bool;
  evidence_upstream : option TrustUpstreamEvidence;
  token_recursion : TrustTokenRecursion
}.
#[export] Instance trust_evidence_eq_dec : EqDecision TrustEvidence.
Proof. solve_decision. Defined.

Definition evidence_new (origin : TrustOriginKind) (event : TrustEventKind) : TrustEvidence :=
  MkEvidence origin event None None None None None None None None None None None None None false
    None RecursionUnknown.

Definition validate_text (value : str) : result TrustSnapshotError unit :=
  reject (str_is_empty value || (MAX_TRUST_TEXT_BYTES <? str_len value)
          || negb (str_eqb (trim value) value) || existsb is_control value) TrustInvalidText.

Definition actor_evidence_new (id : str) (kind : TrustActorKind)
    (automation : TrustAutomationKind) : result TrustSnapshotError TrustActorEvidence :=
  _ ← validate_text id;
  Ok (MkActorEvidence id kind automation).

Definition repository_evidence_new (id owner_id : str) :
    result TrustSnapshotError TrustRepositoryEvidence :=
  _ ← validate_text id;
  _ ← validate_text owner_id;
  Ok (MkRepositoryEvidence id owner_id).

(** [(1..=3).contains(&depth)]. *)
Definition chain_depth_in_range (depth : Z) : bool := (1 <=? depth) && (depth <=? 3).

Definition upstream_evidence_new (digest : Sha256Digest) (depth : Z) (complete : bool)
    (source : TrustSourceClass) : result TrustSnapshotError TrustUpstreamEvidence :=
  _ ← reject (negb (chain_depth_in_range depth)) InvalidTransitiveEvidence;
  Ok (MkUpstreamEvidence digest depth complete source).

(** ** Validation and completeness *)

Definition expected_origin (event : TrustEventKind) : TrustOriginKind :=
  match event with
  | EventPush | EventPullRequest | EventPullRequestTarget | EventMergeGroup
  | EventRepositoryDispatch => OriginProviderWebhook
  | EventWorkflowDispatch => OriginWorkflowDispatch
  | EventSchedule => OriginSchedule
  | EventWorkflowRun => OriginWorkflowRun
  end.

Definition evidence_texts (self : TrustEvidence) : list str :=
  omap id [evidence_activity self; source_ref self; target_ref self; execution_ref self;
           source_revision self; target_revision self; execution_revision self].

(** The stated fork relation contradicts the two repositories. *)
Definition fork_conflict (self : TrustEvidence) : bool :=
  match source_repository self, target_repository self, evidence_fork self with
  | Some source, Some target, Some fork =>
      xorb (negb (str_eqb (trust_repository_id source) (trust_repository_id target))) fork
  | _, _, _ => false
  end.

Definition upstream_invalid (upstream : TrustUpstreamEvidence) : bool :=
  negb (chain_depth_in_range (upstream_chain_depth upstream))
  || forallb (λ byte, byte =? 0) (upstream_snapshot_digest upstream)
  || xorb (upstream_evidence_complete upstream)
       (negb (bool_decide (upstream_source upstream = SourceIncomplete))).

Definition evidence_validate (self : TrustEvidence) : result TrustSnapshotError unit :=
  let event := evidence_event self in
  let origin := evidence_origin self in
  _ ← try_for validate_text (evidence_texts self);
  _ ← reject (negb (bool_decide (origin = expected_origin event))
              && negb (bool_decide (origin = OriginRerun))) ConflictingEvidence;
  _ ← reject (bool_decide (origin = OriginRerun)) RerunMustReuseSnapshot;
  _ ← reject (fork_conflict self) ConflictingEvidence;
  _ ← reject (negb (bool_decide (event = EventMergeGroup) || bool_decide (event = EventWorkflowRun))
              && is_some (evidence_upstream self)) ConflictingEvidence;
  _ ← reject (match evidence_upstream self with
              | Some upstream => upstream_invalid upstream
              | None => false
              end) InvalidTransitiveEvidence;
  reject (bool_decide (event = EventRepositoryDispatch)
          && bool_decide (token_recursion self = RecursionSuppressed)) ConflictingEvidence.

Definition upstream_usable (upstream : TrustUpstreamEvidence) : bool :=
  upstream_evidence_complete upstream && (upstream_chain_depth upstream <=? 3).

Definition base_complete (self : TrustEvidence) : bool :=
  is_some (original_actor self)
  && (is_some (source_repository self) && is_some (target_repository self)
      && is_some (evidence_fork self))
  && (is_some (source_ref self) && is_some (target_ref self) && is_some (execution_ref self))
  && (is_some (source_revision self) && is_some (target_revision self)
      && is_some (execution_revision self)).

Definition is_complete (self : TrustEvidence) (policy : TrustPolicy) : bool :=
  let base := base_complete self in
  let recursion := token_recursion self in
  match evidence_event self with
  | EventPush =>
      base && bool_decide (evidence_fork self = Some false)
      && bool_decide (recursion = RecursionSuppressed)
  | EventPullRequest => base && is_some (source_actor self)
  | EventPullRequestTarget => base && is_some (source_actor self) && privileged_transition self
  | EventMergeGroup =>
      base && bool_decide (recursion = RecursionSuppressed)
      && match evidence_upstream self with
         | None => true
         | Some upstream => upstream_usable upstream
         end
  | EventRepositoryDispatch =>
      base && (bool_decide (recursion = RecursionExternal)
               || bool_decide (recursion = RecursionExplicitlyAllowed)
                  && bool_decide (dispatch_recursion (policy_document policy)
                                  = DispatchAllowExplicitly))
  | EventWorkflowDispatch | EventSchedule =>
      base && bool_decide (evidence_fork self = Some false)
  | EventWorkflowRun =>
      base && match evidence_upstream self with
              | Some upstream => upstream_usable upstream
              | None => false
              end
  end.

(** ** Classification and authority *)

(** [source_actor.or(original_actor)]. *)
Definition author (self : TrustEvidence) : option TrustActorEvidence :=
  match source_actor self with Some actor => Some actor | None => original_actor self end.

Definition author_is (self : TrustEvidence) (automation : TrustAutomationKind) : bool :=
  match author self with
  | Some actor => bool_decide (actor_automation actor = automation)
  | None => false
  end.

Definition source_classification (evidence : TrustEvidence) (complete : bool) :
    result TrustSnapshotError TrustSourceClass :=
  let forked := bool_decide (evidence_fork evidence = Some true) in
  let dependabot := author_is evidence AutomationDependabot in
  if negb complete then Ok SourceIncomplete
  else if dependabot && forked then Err ConflictingEvidence
  else match evidence_upstream evidence with
       | Some upstream => Ok (upstream_source upstream)
       | None =>
           Ok (if bool_decide (evidence_event evidence = EventMergeGroup) then SourceMergeQueue
               else if dependabot then SourceDependabot
               else if forked then SourceFork
               else if author_is evidence AutomationOther then SourceAutomation
               else SourceSameRepository)
       end.

Inductive TrustPermissionAuthority :=
| PermissionsRequested | PermissionsReadOnly | PermissionsDenyAll.
Inductive TrustSecretAuthority := SecretsEligible | SecretsDenied.
Inductive TrustCacheAuthority := CacheReadWrite | CacheReadOnly | CacheDenied.
Inductive TrustEnvironmentAuthority := EnvironmentEligible | EnvironmentDenied.
Inductive TrustOidcAuthority := OidcEligible | OidcDenied.
Inductive TrustOutputAuthority := OutputsStandard | OutputsUntrusted.
Inductive TrustResultsAuthority := ResultsStandard | ResultsUntrusted | ResultsDenied.

Record TrustAuthorityDecision := MkAuthority {
  authority_permissions : TrustPermissionAuthority;
  authority_secrets : TrustSecretAuthority;
  authority_cache : TrustCacheAuthority;
  authority_environment : TrustEnvironmentAuthority;
  authority_oidc : TrustOidcAuthority;
  authority_outputs : TrustOutputAuthority;
  authority_results : TrustResultsAuthority
}.

#[export] Instance permission_authority_eq_dec : EqDecision TrustPermissionAuthority.
Proof. solve_decision. Defined.
#[export] Instance secret_authority_eq_dec : EqDecision TrustSecretAuthority.
Proof. solve_decision. Defined.
#[export] Instance cache_authority_eq_dec : EqDecision TrustCacheAuthority.
Proof. solve_decision. Defined.
#[export] Instance environment_authority_eq_dec : EqDecision TrustEnvironmentAuthority.
Proof. solve_decision. Defined.
#[export] Instance oidc_authority_eq_dec : EqDecision TrustOidcAuthority.
Proof. solve_decision. Defined.
#[export] Instance output_authority_eq_dec : EqDecision TrustOutputAuthority.
Proof. solve_decision. Defined.
#[export] Instance results_authority_eq_dec : EqDecision TrustResultsAuthority.
Proof. solve_decision. Defined.
#[export] Instance authority_eq_dec : EqDecision TrustAuthorityDecision.
Proof. solve_decision. Defined.

(** The three decisions of [authority_decision]. *)
Definition deny_authority : TrustAuthorityDecision :=
  MkAuthority PermissionsDenyAll SecretsDenied CacheDenied EnvironmentDenied OidcDenied
    OutputsUntrusted ResultsDenied.
Definition restricted_authority (permissions : TrustPermissionAuthority) :
    TrustAuthorityDecision :=
  MkAuthority permissions SecretsDenied CacheReadOnly EnvironmentDenied OidcDenied
    OutputsUntrusted ResultsUntrusted.
Definition full_authority : TrustAuthorityDecision :=
  MkAuthority PermissionsRequested SecretsEligible CacheReadWrite EnvironmentEligible OidcEligible
    OutputsStandard ResultsStandard.

(** The source's last arm, for an incomplete source, is unreachable: the first
    test returns there. *)
Definition authority_decision (policy : TrustPolicy) (source : TrustSourceClass)
    (complete : bool) : TrustAuthorityDecision :=
  if negb complete || bool_decide (source = SourceIncomplete) then deny_authority
  else match source with
       | SourceSameRepository => full_authority
       | SourceFork =>
           restricted_authority
             (if bool_decide (fork_writes (policy_document policy) = ForkAllowExplicitly)
              then PermissionsRequested else PermissionsReadOnly)
       | SourceDependabot | SourceAutomation | SourceMergeQueue =>
           restricted_authority PermissionsReadOnly
       | SourceIncomplete => deny_authority
       end.

(** ** Snapshots *)

Record TrustSnapshotDocument := MkSnapshotDocument {
  snapshot_schema : Z;
  snapshot_policy : TrustPolicyDocument;
  snapshot_policy_digest : Sha256Digest;
  snapshot_evidence : TrustEvidence;
  snapshot_evidence_complete : bool;
  snapshot_source : TrustSourceClass;
  snapshot_authority : TrustAuthorityDecision
}.
#[export] Instance trust_snapshot_document_eq_dec : EqDecision TrustSnapshotDocument.
Proof. solve_decision. Defined.

Record TrustSnapshot := MkTrustSnapshot {
  snapshot_document : TrustSnapshotDocument;
  snapshot_canonical_bytes : list Z;
  snapshot_digest : Sha256Digest;
  construction_placeholder : bool
}.

(** [serde_json::to_vec] of the two documents, the first of which the code
    expects to succeed, and [serde_json::from_slice]. *)
Class TrustEncoding := {
  policy_to_vec : TrustPolicyDocument → list Z;
  snapshot_to_vec : TrustSnapshotDocument → option (list Z);
  snapshot_from_slice : list Z → option TrustSnapshotDocument
}.

(** What the code relies on: text is never empty and reads back. *)
Class TrustEncodingLaws (encoding : TrustEncoding) : Prop := {
  snapshot_bytes_filled document bytes :
    snapshot_to_vec document = Some bytes → bytes ≠ [];
  snapshot_reads_back document bytes :
    snapshot_to_vec document = Some bytes → snapshot_from_slice bytes = Some document
}.

Section Snapshots.
Context {hasher : Sha256} {encoding : TrustEncoding}.

Definition domain_digest (domain bytes : list Z) : Sha256Digest := sha256 (domain ++ bytes).

Definition trust_policy_new (revision : Bounded 1 u64_max) (forks : ForkWritePolicy)
    (dispatch : DispatchRecursionPolicy) : TrustPolicy :=
  let document := MkPolicyDocument TRUST_POLICY_SCHEMA_V1 revision forks dispatch in
  let bytes := policy_to_vec document in
  MkTrustPolicy document bytes (domain_digest POLICY_DIGEST_DOMAIN bytes).

Definition trust_policy_current : TrustPolicy :=
  trust_policy_new (MkBounded (lo := 1) (hi := u64_max) 1 I) ForkDeny RequireExternalOrigin.

Definition validate_document (document : TrustSnapshotDocument) :
    result TrustSnapshotError unit :=
  let pinned := snapshot_policy document in
  let evidence := snapshot_evidence document in
  _ ← reject (negb (snapshot_schema document =? TRUST_SNAPSHOT_SCHEMA_V1)
              || negb (policy_schema pinned =? TRUST_POLICY_SCHEMA_V1)) TrustUnsupportedSchema;
  let policy :=
    trust_policy_new (policy_revision pinned) (fork_writes pinned) (dispatch_recursion pinned) in
  _ ← reject (negb (bool_decide (policy_digest policy = snapshot_policy_digest document)))
        TrustDigestMismatch;
  _ ← evidence_validate evidence;
  let complete := is_complete evidence policy in
  source ← source_classification evidence complete;
  let authority := authority_decision policy source complete in
  reject (xorb (snapshot_evidence_complete document) complete
          || negb (bool_decide (snapshot_source document = source))
          || negb (bool_decide (snapshot_authority document = authority))) NoncanonicalDecision.

Definition snapshot_from_document (document : TrustSnapshotDocument) :
    result TrustSnapshotError TrustSnapshot :=
  _ ← validate_document document;
  bytes ← ok_or (snapshot_to_vec document) TrustInvalidEncoding;
  _ ← reject (MAX_TRUST_SNAPSHOT_BYTES <? Z.of_nat (length bytes)) TrustInvalidEncoding;
  Ok (MkTrustSnapshot document bytes (domain_digest SNAPSHOT_DIGEST_DOMAIN bytes) false).

(** [TrustPolicy::evaluate]. *)
Definition trust_evaluate (self : TrustPolicy) (evidence : TrustEvidence) :
    result TrustSnapshotError TrustSnapshot :=
  _ ← evidence_validate evidence;
  let complete := is_complete evidence self in
  source ← source_classification evidence complete;
  let authority := authority_decision self source complete in
  snapshot_from_document
    (MkSnapshotDocument TRUST_SNAPSHOT_SCHEMA_V1 (policy_document self) (policy_digest self)
       evidence complete source authority).

(** [None] is the [expect] of the source. *)
Definition deny_all_unclassified : option TrustSnapshot :=
  match trust_evaluate trust_policy_current (evidence_new OriginProviderWebhook EventPush) with
  | Ok snapshot =>
      Some (MkTrustSnapshot (snapshot_document snapshot) (snapshot_canonical_bytes snapshot)
              (snapshot_digest snapshot) true)
  | Err _ => None
  end.

Definition from_canonical_bytes (bytes : list Z) (expected_digest : Sha256Digest) :
    result TrustSnapshotError TrustSnapshot :=
  _ ← reject (Nat.eqb (length bytes) 0 || (MAX_TRUST_SNAPSHOT_BYTES <? Z.of_nat (length bytes)))
        TrustInvalidEncoding;
  document ← ok_or (snapshot_from_slice bytes) TrustInvalidEncoding;
  snapshot ← snapshot_from_document document;
  _ ← reject (negb (bool_decide (snapshot_canonical_bytes snapshot = bytes))) NoncanonicalEncoding;
  _ ← reject (negb (bool_decide (snapshot_digest snapshot = expected_digest)))
        TrustDigestMismatch;
  Ok snapshot.

(** [Deserialize for TrustPolicy]: of the document, the schema is checked. *)
Definition trust_policy_deserialize (document : TrustPolicyDocument) : option TrustPolicy :=
  if negb (policy_schema document =? TRUST_POLICY_SCHEMA_V1) then None
  else Some (trust_policy_new (policy_revision document) (fork_writes document)
               (dispatch_recursion document)).

End Snapshots.

Definition snapshot_is_unclassified (self : TrustSnapshot) : bool :=
  negb (snapshot_evidence_complete (snapshot_document self))
  && bool_decide (snapshot_source (snapshot_document self) = SourceIncomplete).

(** [snapshot.authority()]. *)
Definition authority_of (self : TrustSnapshot) : TrustAuthorityDecision :=
  snapshot_authority (snapshot_document self).

(** ** Facts *)

(** Full authority is for a complete event whose source is the repository
    itself: the two repositories are one and the author is no automation, or
    the event continues a chain that began so. *)
Definition trusted (policy : TrustPolicy) (evidence : TrustEvidence) : Prop :=
  is_complete evidence policy = true ∧
  match evidence_upstream evidence with
  | Some upstream => upstream_source upstream = SourceSameRepository
  | None =>
      evidence_event evidence ≠ EventMergeGroup ∧
      ∃ source target actor,
        source_repository evidence = Some source ∧ target_repository evidence = Some target ∧
        trust_repository_id source = trust_repository_id target ∧
        author evidence = Some actor ∧ actor_automation actor = AutomationNone
  end.

(** A complete event of a fork that is no part of a chain. *)
Definition forked (policy : TrustPolicy) (evidence : TrustEvidence) : Prop :=
  is_complete evidence policy = true ∧
  match evidence_upstream evidence with
  | Some upstream => upstream_source upstream = SourceFork
  | None => evidence_event evidence ≠ EventMergeGroup ∧ evidence_fork evidence = Some true
  end.

Lemma complete_base (policy : TrustPolicy) (evidence : TrustEvidence) :
  is_complete evidence policy = true → base_complete evidence = true.
Proof.
  unfold is_complete. destruct (base_complete evidence); [done|].
  by destruct (evidence_event evidence).
Qed.

Lemma base_complete_fields (evidence : TrustEvidence) :
  base_complete evidence = true →
  ∃ actor source target fork,
    original_actor evidence = Some actor ∧ source_repository evidence = Some source ∧
    target_repository evidence = Some target ∧ evidence_fork evidence = Some fork.
Proof.
  unfold base_complete. intros H.
  destruct (original_actor evidence), (source_repository evidence),
    (target_repository evidence), (evidence_fork evidence); try discriminate H. eauto 10.
Qed.

(** What a well-formed evidence says of its fork relation and its chain. *)
Lemma evidence_validate_Ok (evidence : TrustEvidence) :
  evidence_validate evidence = Ok tt →
  fork_conflict evidence = false ∧
  (∀ upstream, evidence_upstream evidence = Some upstream → upstream_invalid upstream = false).
Proof.
  unfold evidence_validate. intros H. ok_inv. split; [done|].
  intros upstream Hu. by rewrite Hu in *.
Qed.

Lemma complete_chain (policy : TrustPolicy) (evidence : TrustEvidence)
    (upstream : TrustUpstreamEvidence) :
  evidence_validate evidence = Ok tt → is_complete evidence policy = true →
  evidence_upstream evidence = Some upstream → upstream_source upstream ≠ SourceIncomplete.
Proof.
  intros Hv Hc Hu Hs. assert (Hv' := Hv).
  apply evidence_validate_Ok in Hv' as [_ Hi]. specialize (Hi _ Hu).
  unfold upstream_invalid in Hi. rewrite Hs in Hi. simpl in Hi.
  apply orb_false_iff in Hi as [_ Hi]. rewrite xorb_false_r in Hi.
  unfold is_complete in Hc. unfold evidence_validate in Hv. ok_inv.
  unfold upstream_usable in Hc. rewrite Hu in *. simpl in *. rewrite Hi in Hc. simpl in Hc.
  destruct (evidence_event evidence); simpl in *; try done;
    by rewrite ?andb_false_r in Hc.
Qed.

(** The class of a complete event. *)
Lemma classified (policy : TrustPolicy) (evidence : TrustEvidence) (source : TrustSourceClass) :
  evidence_validate evidence = Ok tt → is_complete evidence policy = true →
  source_classification evidence true = Ok source →
  source ≠ SourceIncomplete ∧
  (source = SourceSameRepository ↔ trusted policy evidence) ∧
  (source = SourceFork ↔ forked policy evidence).
Proof.
  intros Hv Hc. pose proof (complete_chain policy evidence) as Hch.
  destruct (base_complete_fields evidence (complete_base _ _ Hc))
    as (actor & src & tgt & fork & Ha & Hsrc & Htgt & Hf).
  apply evidence_validate_Ok in Hv as Hv'. destruct Hv' as [Hfc _].
  unfold source_classification, trusted, forked. simpl.
  destruct (_ && _) eqn:Hdep; [done|].
  destruct (evidence_upstream evidence) as [u|] eqn:Hu.
  { intros [= <-]. repeat split; try done; [by eapply Hch|by destruct 1..]. }
  unfold fork_conflict in Hfc. rewrite Hsrc, Htgt, Hf in Hfc. rewrite Hf in *.
  assert (Hau : ∃ a, author evidence = Some a)
    by (unfold author; destruct (source_actor evidence); rewrite ?Ha; eauto).
  destruct Hau as [a Hau]. unfold author_is in *. rewrite Hau in *.
  apply xorb_eq in Hfc. simpl.
  unfold str_eqb in Hfc. intros [= <-].
  destruct (decide (evidence_event evidence = EventMergeGroup)) as [He|He].
  { rewrite bool_decide_eq_true_2 by done. naive_solver. }
  rewrite (bool_decide_eq_false_2 (evidence_event evidence = EventMergeGroup)) by done.
  destruct (actor_automation a) eqn:Haa, fork; simpl in *; simplify_eq;
    rewrite ?negb_true_iff, ?negb_false_iff, ?bool_decide_eq_true, ?bool_decide_eq_false in Hfc;
    (split; [done|]); split; split; try naive_solver;
    intros (_ & _ & ? & ? & a' & _ & _ & _ & [= <-] & ?); congruence.
Qed.

Lemma source_classification_incomplete (evidence : TrustEvidence) (source : TrustSourceClass) :
  source_classification evidence false = Ok source → source = SourceIncomplete.
Proof. by intros [= <-]. Qed.

Section SnapshotFacts.
Context {hasher : Sha256} {encoding : TrustEncoding}.

Lemma snapshot_from_document_Ok (document : TrustSnapshotDocument) (snapshot : TrustSnapshot) :
  snapshot_from_document document = Ok snapshot →
  validate_document document = Ok tt ∧ snapshot_document snapshot = document ∧
  snapshot_to_vec document = Some (snapshot_canonical_bytes snapshot).
Proof.
  unfold snapshot_from_document. intros H. ok_inv. destruct x. simpl. auto.
Qed.

Lemma trust_evaluate_Ok (policy : TrustPolicy) (evidence : TrustEvidence)
    (snapshot : TrustSnapshot) :
  trust_evaluate policy evidence = Ok snapshot →
  evidence_validate evidence = Ok tt ∧
  source_classification evidence (is_complete evidence policy)
    = Ok (snapshot_source (snapshot_document snapshot)) ∧
  authority_of snapshot = authority_decision policy (snapshot_source (snapshot_document snapshot))
    (is_complete evidence policy) ∧
  snapshot_evidence_complete (snapshot_document snapshot) = is_complete evidence policy.
Proof.
  unfold trust_evaluate, authority_of. intros H. ok_inv.
  apply snapshot_from_document_Ok in H as (_ & -> & _). simpl. by destruct x.
Qed.

(** The document of an evaluation is the only one validation accepts with its
    policy and evidence. *)
Lemma validate_document_Ok (document : TrustSnapshotDocument) :
  validate_document document = Ok tt ↔
  snapshot_schema document = TRUST_SNAPSHOT_SCHEMA_V1 ∧
  ∃ policy : TrustPolicy,
    trust_policy_deserialize (snapshot_policy document) = Some policy ∧
    policy_document policy = snapshot_policy document ∧
    policy_digest policy = snapshot_policy_digest document ∧
    evidence_validate (snapshot_evidence document) = Ok tt ∧
    snapshot_evidence_complete document = is_complete (snapshot_evidence document) policy ∧
    source_classification (snapshot_evidence document) (snapshot_evidence_complete document)
      = Ok (snapshot_source document) ∧
    snapshot_authority document
      = authority_decision policy (snapshot_source document) (snapshot_evidence_complete document).
Proof.
  unfold validate_document, trust_policy_deserialize. set (pin := snapshot_policy document).
  set (policy := trust_policy_new _ _ _). split.
  - intros H. ok_inv. apply orb_false_iff in H0 as [Hs%negb_false_iff Hp%negb_false_iff].
    rewrite Hp. apply Z.eqb_eq in Hs, Hp. split; [done|]. exists policy.
    apply negb_false_iff, bool_decide_eq_true in H1.
    apply orb_false_iff in H as [[Hx%xorb_eq Hy%negb_false_iff]%orb_false_iff Hz%negb_false_iff].
    apply bool_decide_eq_true in Hy, Hz. rewrite Hx, Hy.
    repeat match goal with u : unit |- _ => destruct u end. repeat split; try done.
    unfold policy. simpl. unfold TRUST_POLICY_SCHEMA_V1 in *. rewrite <- Hp. by destruct pin.
  - intros (-> & policy' & Hpol & Hdoc & Hdig & Hv & Hc & Hsrc & Hau).
    destruct (policy_schema pin =? TRUST_POLICY_SCHEMA_V1) eqn:Hp; simpl in Hpol; [|done].
    apply (inj Some) in Hpol. rewrite Hpol. clear Hpol policy.
    simpl. rewrite Hdig, bool_decide_eq_true_2 by done. simpl. rewrite Hv. simpl.
    rewrite <- Hc, Hsrc. simpl. rewrite <- Hau, xorb_nilpotent, !bool_decide_eq_true_2 by done.
    done.
Qed.

(** What decoding accepts was evaluated. *)
Lemma decoded_evaluates (bytes : list Z) (digest : Sha256Digest) (snapshot : TrustSnapshot) :
  from_canonical_bytes bytes digest = Ok snapshot →
  snapshot_canonical_bytes snapshot = bytes ∧ snapshot_digest snapshot = digest ∧
  ∃ revision forks dispatch evidence,
    trust_evaluate (trust_policy_new revision forks dispatch) evidence = Ok snapshot.
Proof.
  unfold from_canonical_bytes. intros H. ok_inv.
  repeat match goal with
  | E : negb _ = false |- _ => apply negb_false_iff, bool_decide_eq_true in E
  end.
  split; [done|]. split; [done|].
  assert (Hfd := H2).
  apply snapshot_from_document_Ok in H2 as (Hv & Hd & _).
  destruct (proj1 (validate_document_Ok x0) Hv)
    as (Hsch & policy & Hpol & Hdoc & Hdig & Hev & Hc & Hsrc & Hau).
  unfold trust_policy_deserialize in Hpol.
  destruct (negb _); [done|]. apply (inj Some) in Hpol.
  exists (policy_revision (snapshot_policy x0)), (fork_writes (snapshot_policy x0)),
    (dispatch_recursion (snapshot_policy x0)), (snapshot_evidence x0).
  rewrite Hpol. unfold trust_evaluate. rewrite Hev. simpl. rewrite <- Hc, Hsrc. simpl.
  rewrite <- Hau, Hdig, Hdoc, <- Hsch, <- Hfd. by destruct x0.
Qed.

(** Without trust there are no secrets and no environments. *)
Lemma eligible_is_trusted (policy : TrustPolicy) (evidence : TrustEvidence)
    (snapshot : TrustSnapshot) :
  trust_evaluate policy evidence = Ok snapshot →
  authority_secrets (authority_of snapshot) = SecretsEligible ∨
  authority_environment (authority_of snapshot) = EnvironmentEligible →
  trusted policy evidence.
Proof.
  intros (Hv & Hsrc & -> & _)%trust_evaluate_Ok.
  set (source := snapshot_source (snapshot_document snapshot)) in *. clearbody source.
  destruct (is_complete evidence policy) eqn:Hc; [|by intros [?|?]].
  destruct (classified policy evidence source Hv Hc Hsrc) as (Hni & <- & _).
  unfold authority_decision. rewrite bool_decide_eq_false_2 by done.
  destruct source; simpl; try case_bool_decide; by intros [?|?].
Qed.

(** Absent evidence has no authority. *)
Lemma deny_all_unclassified_denies (snapshot : TrustSnapshot) :
  deny_all_unclassified = Some snapshot →
  authority_of snapshot = deny_authority ∧ snapshot_is_unclassified snapshot = true ∧
  construction_placeholder snapshot = true.
Proof.
  unfold deny_all_unclassified. destruct (trust_evaluate _ _) as [s|] eqn:H; [|done].
  apply trust_evaluate_Ok in H as (_ & Hs & Ha & He). intros [= <-].
  apply source_classification_incomplete in Hs.
  unfold snapshot_is_unclassified, authority_of in *. simpl.
  rewrite Ha, He, Hs. done.
Qed.

End SnapshotFacts.

(** ** A concrete serializer and event

    A serializer that knows the documents of a list and writes their place in
    it. *)

Definition table_encoding (documents : list TrustSnapshotDocument) : TrustEncoding := {|
  policy_to_vec document :=
    [policy_schema document; bget (policy_revision document);
     Z.b2z (bool_decide (fork_writes document = ForkDeny));
     Z.b2z (bool_decide (dispatch_recursion document = RequireExternalOrigin))];
  snapshot_to_vec document :=
    '(i, _) ← list_find (eq document) documents; Some [Z.of_nat i];
  snapshot_from_slice bytes :=
    match bytes with [i] => documents !! Z.to_nat i | _ => None end
|}.

Lemma table_encoding_laws (documents : list TrustSnapshotDocument) :
  TrustEncodingLaws (table_encoding documents).
Proof.
  split; simpl; intros document bytes; destruct (list_find _ _) as [[i d]|] eqn:H; simpl;
    try done; intros [= <-]; [done|].
  apply list_find_Some in H as (Hi & -> & _). by rewrite Nat2Z.id.
Defined.

Definition example_actor : TrustActorEvidence := MkActorEvidence (lit "7") ActorUser AutomationNone.
Definition example_repository : TrustRepositoryEvidence :=
  MkRepositoryEvidence (lit "42") (lit "7").

(** A push to the main branch by a user. *)
Definition example_push : TrustEvidence :=
  MkEvidence OriginProviderWebhook EventPush None (Some example_actor) (Some example_actor) None
    (Some example_repository) (Some example_repository) (Some (lit "refs/heads/main"))
    (Some (lit "refs/heads/main")) (Some (lit "refs/heads/main")) (Some (lit "b1")) (Some (lit "a0"))
    (Some (lit "b1")) (Some false) false None RecursionSuppressed.

Definition example_policy : TrustPolicy :=
  trust_policy_current (hasher := demo_sha256) (encoding := table_encoding []).

Definition example_document : TrustSnapshotDocument :=
  MkSnapshotDocument TRUST_SNAPSHOT_SCHEMA_V1 (policy_document example_policy)
    (policy_digest example_policy) example_push true SourceSameRepository full_authority.

Definition example_encoding : TrustEncoding := table_encoding [example_document].

Definition example_snapshot : TrustSnapshot :=
  MkTrustSnapshot example_document [0]
    (domain_digest (hasher := demo_sha256) SNAPSHOT_DIGEST_DOMAIN [0]) false.

Lemma example_evaluates :
  trust_evaluate (hasher := demo_sha256) (encoding := example_encoding) example_policy example_push
  = Ok example_snapshot.
Proof. vm_compute. reflexivity. Qed.

(** ** Properties *)

(** C12: Full authority is earned: of the snapshots a policy evaluates, exactly
    those of trusted events let a job have secrets, OIDC tokens, protected
    environments, writable caches and trusted outputs and results. Requested
    repository permissions are kept for these and, where the policy allows it,
    for forks; events that are not complete have no permission at all, and all
    others read only. *)
Theorem full_authority_is_earned {hasher : Sha256} {encoding : TrustEncoding}
    (policy : TrustPolicy) (evidence : TrustEvidence) (snapshot : TrustSnapshot) :
  trust_evaluate policy evidence = Ok snapshot →
  let authority := authority_of snapshot in
  (trusted policy evidence → authority = full_authority) ∧
  (¬ trusted policy evidence →
     authority_secrets authority = SecretsDenied ∧ authority_oidc authority = OidcDenied ∧
     authority_environment authority = EnvironmentDenied ∧
     authority_cache authority ≠ CacheReadWrite ∧
     authority_outputs authority = OutputsUntrusted ∧
     authority_results authority ≠ ResultsStandard) ∧
  (authority_permissions authority = PermissionsRequested ↔
     trusted policy evidence ∨
     forked policy evidence ∧ fork_writes (policy_document policy) = ForkAllowExplicitly) ∧
  (authority_permissions authority = PermissionsDenyAll ↔
     is_complete evidence policy = false).
Proof.
  intros (Hv & Hsrc & -> & _)%trust_evaluate_Ok. simpl.
  set (source := snapshot_source (snapshot_document snapshot)) in *. clearbody source.
  destruct (is_complete evidence policy) eqn:Hc.
  - destruct (classified policy evidence source Hv Hc Hsrc) as (Hni & <- & <-).
    unfold authority_decision. rewrite bool_decide_eq_false_2 by done. simpl.
    destruct source; simpl; [naive_solver| | | | |done];
      try (case_bool_decide; simpl); repeat split; naive_solver.
  - apply source_classification_incomplete in Hsrc as ->. simpl.
    unfold trusted, forked. rewrite Hc. repeat split; naive_solver.
Qed.

Lemma full_authority_is_earned_witness :
  authority_of example_snapshot = full_authority.
Proof.
  apply (full_authority_is_earned (hasher := demo_sha256) (encoding := example_encoding)
           example_policy example_push example_snapshot example_evaluates).
  split; [reflexivity|]. simpl. split; [discriminate|].
  exists example_repository, example_repository, example_actor. repeat split.
Defined.

(** C13: A snapshot cannot be forged: the bytes and digest that decoding accepts
    are exactly those of the snapshots that some policy evaluates from some
    evidence, and decoding gives that snapshot back. *)
Theorem snapshots_are_evaluations {hasher : Sha256} {encoding : TrustEncoding}
    (laws : TrustEncodingLaws encoding) (bytes : list Z) (digest : Sha256Digest)
    (snapshot : TrustSnapshot) :
  from_canonical_bytes bytes digest = Ok snapshot ↔
  snapshot_canonical_bytes snapshot = bytes ∧ snapshot_digest snapshot = digest ∧
  ∃ revision forks dispatch evidence,
    trust_evaluate (trust_policy_new revision forks dispatch) evidence = Ok snapshot.
Proof.
  split; [apply decoded_evaluates|].
  intros (<- & <- & revision & forks & dispatch & evidence & H).
  unfold trust_evaluate in H. ok_inv.
  match type of H with snapshot_from_document ?d = _ => generalize dependent d end.
  intros document H. assert (Hfd := H). apply snapshot_from_document_Ok in H as (Hv & Hd & Hto).
  unfold from_canonical_bytes.
  assert (Hne := snapshot_bytes_filled _ _ Hto). apply snapshot_reads_back in Hto as Hrd.
  assert (Hsize : (MAX_TRUST_SNAPSHOT_BYTES <? Z.of_nat (length (snapshot_canonical_bytes snapshot)))
                  = false).
  { unfold snapshot_from_document in Hfd. rewrite Hv, Hto in Hfd. simpl in Hfd.
    by destruct (_ <? _). }
  destruct (snapshot_canonical_bytes snapshot) as [|byte bytes] eqn:Hb; [done|].
  rewrite Hsize. simpl. rewrite Hrd. simpl. rewrite Hfd. simpl.
  rewrite Hb, !bool_decide_eq_true_2 by done. done.
Qed.

Lemma snapshots_are_evaluations_witness :
  from_canonical_bytes (hasher := demo_sha256) (encoding := example_encoding) [0]
    (snapshot_digest example_snapshot) = Ok example_snapshot.
Proof.
  apply (snapshots_are_evaluations (hasher := demo_sha256) (table_encoding_laws [example_document])).
  split; [reflexivity|]. split; [reflexivity|].
  exists (MkBounded (lo := 1) (hi := u64_max) 1 I), ForkDeny, RequireExternalOrigin, example_push.
  exact example_evaluates.
Defined.
