(* ===== verification/LogDelivery.v ===== *)
(** * LogDelivery: the runner's durable log-delivery cursor

    Models [crates/automata-ci-runner-journal/src/model/cursor.rs] (outbound
    operation cursor, immutable log segments, publication, acknowledgement and
    the segmented delivery cursor) and the stream checks of the slot operations
    that drive it ([model/state.rs]).

    The cursor is shown to refine a stream of frames that are produced one at
    a time, delivered from the front and never lost or repeated. *)

From S2P Require Import Prelude Text Execution Capability Log JournalBase.

(** ** Log content *)

Definition validate_log_content (content : DurableContentRef) :
    result JournalInvariantError unit :=
  if negb (bool_decide (content_kind content = LogSpool)) ||
     (MAX_LOG_SPOOL_CONTENT_BYTES <? accounted_bytes content)
  then Err InvalidLogSpoolContent else Ok tt.

(** ** Outbound operations *)

Definition outbound_sequence_new (value : Z) :
    result JournalInvariantError OutboundOperationSequence :=
  if OutboundOperationSequence_MAX <? value then Err InvalidOutboundOperationSequence
  else ok_or (bounded 1 OutboundOperationSequence_MAX value) InvalidOutboundOperationSequence.

Definition outbound_sequence_checked_next (self : OutboundOperationSequence) :
    result JournalInvariantError OutboundOperationSequence :=
  next ← ok_or (checked_add u64_max (bget self) 1) CounterExhausted;
  map_err (λ _, CounterExhausted) (outbound_sequence_new next).

Record OutboundOperationCursor := MkOutboundOperationCursor {
  outbound_contiguous_through : option OutboundOperationSequence;
}.

Definition outbound_initial : OutboundOperationCursor := MkOutboundOperationCursor None.

Definition outbound_first : OutboundOperationSequence :=
  MkBounded (lo := 1) (hi := OutboundOperationSequence_MAX) 1 I.

Definition outbound_advance (self : OutboundOperationCursor)
    (received : OutboundOperationSequence) :
    result JournalInvariantError OutboundOperationCursor :=
  expected ← match outbound_contiguous_through self with
             | Some current => outbound_sequence_checked_next current
             | None => Ok outbound_first
             end;
  if negb (bool_decide (received = expected)) then
    Err (OutboundOperationSequenceMismatch expected received)
  else Ok (MkOutboundOperationCursor (Some received)).

(** ** Segments *)

Record LogSegment := MkLogSegment {
  first_sequence : LogSequence;
  last_sequence : LogSequence;
  frame_count : Z;
  payload_bytes : Z;
  segment_content : DurableContentRef;
  sealed : bool;
  end_of_stream : bool;
}.

#[export] Instance log_segment_eq_dec : EqDecision LogSegment.
Proof. solve_decision. Defined.

Definition segment_validate (self : LogSegment) : result JournalInvariantError unit :=
  _ ← validate_log_content (segment_content self);
  expected_frames ← ok_or
    (match checked_sub (last_sequence self) (first_sequence self) with
     | Some span => checked_add u64_max span 1
     | None => None
     end) InvalidLogSegment;
  if (accounted_bytes (segment_content self) =? 0) ||
     (frame_count self =? 0) ||
     (MAX_LOG_SEGMENT_FRAMES <? frame_count self) ||
     negb (frame_count self =? expected_frames) ||
     (MAX_LOG_SPOOL_CONTENT_BYTES <? payload_bytes self) ||
     (accounted_bytes (segment_content self) <? payload_bytes self) ||
     (end_of_stream self && negb (sealed self))
  then Err InvalidLogSegment else Ok tt.

Definition log_segment_new (first last frames bytes : Z) (content : DurableContentRef)
    (is_sealed ends : bool) : result JournalInvariantError LogSegment :=
  let value := MkLogSegment first last frames bytes content is_sealed ends in
  _ ← segment_validate value;
  Ok value.

Definition seal (self : LogSegment) : LogSegment :=
  MkLogSegment (first_sequence self) (last_sequence self) (frame_count self)
    (payload_bytes self) (segment_content self) true (end_of_stream self).

Record LogSegmentPublication := MkLogSegmentPublication {
  publication_stream_id : LogStreamId;
  previous_open_content : option DurableContentRef;
  publication_segment : LogSegment;
}.

Definition log_segment_publication_new (stream_id : LogStreamId)
    (previous : option DurableContentRef) (segment : LogSegment) :
    result JournalInvariantError LogSegmentPublication :=
  _ ← segment_validate segment;
  _ ← match previous with
      | Some previous => validate_log_content previous
      | None => Ok tt
      end;
  Ok (MkLogSegmentPublication stream_id previous segment).

Record LogSegmentAcknowledgement := MkLogSegmentAcknowledgement {
  acknowledged_stream_id : LogStreamId;
  through : LogSequence;
  head_content : DurableContentRef;
}.

#[export] Instance log_segment_acknowledgement_eq_dec : EqDecision LogSegmentAcknowledgement.
Proof. solve_decision. Defined.

Definition acknowledgement_validate (self : LogSegmentAcknowledgement) :
    result JournalInvariantError unit :=
  validate_log_content (head_content self).

Definition log_segment_acknowledgement_new (stream_id : LogStreamId) (through_ : LogSequence)
    (content : DurableContentRef) : result JournalInvariantError LogSegmentAcknowledgement :=
  _ ← validate_log_content content;
  Ok (MkLogSegmentAcknowledgement stream_id through_ content).

(** ** The cursor *)

Record LogDeliveryCursor := MkLogDeliveryCursor {
  cursor_stream_id : LogStreamId;
  segments : list LogSegment;
  segment_enqueued_at : list UnixMillis;
  produced_through : option LogSequence;
  cursor_end_of_stream : option LogSequence;
  last_acknowledgement : option LogSegmentAcknowledgement;
}.

Definition cursor_new (stream_id : LogStreamId) : LogDeliveryCursor :=
  MkLogDeliveryCursor stream_id [] [] None None None.

Definition head_segment (self : LogDeliveryCursor) : option LogSegment := head (segments self).

Definition open_segment (self : LogDeliveryCursor) : option LogSegment :=
  match last (segments self) with
  | Some segment => if sealed segment then None else Some segment
  | None => None
  end.

Definition acknowledged_through (self : LogDeliveryCursor) : option LogSequence :=
  through <$> last_acknowledgement self.

Definition is_fully_delivered (self : LogDeliveryCursor) : bool :=
  match cursor_end_of_stream self with
  | Some end_ =>
      bool_decide (acknowledged_through self = Some end_) &&
      match segments self with [] => true | _ => false end
  | None => false
  end.

Definition saturating_add (max a b : Z) : Z := Z.min max (a + b).

Definition backlog_content_bytes (self : LogDeliveryCursor) : Z :=
  foldl (λ total segment, saturating_add u64_max total (accounted_bytes (segment_content segment)))
    0 (segments self).

Definition oldest_pending_enqueued_at (self : LogDeliveryCursor) : option UnixMillis :=
  head (segment_enqueued_at self).

(** [*last_mut() = x]. *)
Fixpoint set_last {A : Type} (x : A) (l : list A) : list A :=
  match l with
  | [] => []
  | [_] => [x]
  | y :: l => y :: set_last x l
  end.

(** The tail of [record_segment]: the retained segments change and the
    production marks advance. *)
Definition commit_candidate (self : LogDeliveryCursor) (segments_ : list LogSegment)
    (enqueued : list UnixMillis) (candidate : LogSegment) : LogDeliveryCursor :=
  MkLogDeliveryCursor (cursor_stream_id self) segments_ enqueued
    (Some (last_sequence candidate))
    (if end_of_stream candidate then Some (last_sequence candidate)
     else cursor_end_of_stream self)
    (last_acknowledgement self).

(** Replaces the open tail by a candidate with one more frame. *)
Definition replace_tail (self : LogDeliveryCursor) (previous : DurableContentRef)
    (candidate : LogSegment) : result JournalInvariantError LogDeliveryCursor :=
  current ← ok_or (last (segments self)) LogSegmentMutationConflict;
  if sealed current || negb (bool_decide (segment_content current = previous)) then
    Err LogSegmentMutationConflict
  else
    expected_last ← map_err (λ _, CounterExhausted)
      (log_sequence_checked_next (last_sequence current));
    if negb (first_sequence candidate =? first_sequence current) ||
       negb (last_sequence candidate =? expected_last) ||
       negb (frame_count candidate =? saturating_add u32_max (frame_count current) 1) ||
       (payload_bytes candidate <? payload_bytes current) ||
       (accounted_bytes (segment_content candidate) <=? accounted_bytes (segment_content current))
    then Err InvalidLogSegment
    else
      retained ← ok_or
        (match checked_sub (backlog_content_bytes self)
                 (accounted_bytes (segment_content current)) with
         | Some bytes => checked_add u64_max bytes (accounted_bytes (segment_content candidate))
         | None => None
         end) LogBacklogLimit;
      if MAX_LOG_SPOOL_CONTENT_BYTES <? retained then Err LogBacklogLimit
      else Ok (commit_candidate self (set_last candidate (segments self))
                 (segment_enqueued_at self) candidate).

(** Starts a new segment behind the sealed ones. *)
Definition append_segment (self : LogDeliveryCursor) (expected_first : LogSequence)
    (candidate : LogSegment) (enqueued_at : UnixMillis) :
    result JournalInvariantError LogDeliveryCursor :=
  _ ← validate_delivery_enqueued_at enqueued_at;
  if match open_segment self with Some _ => true | None => false end ||
     negb (first_sequence candidate =? expected_first) ||
     negb (first_sequence candidate =? last_sequence candidate) ||
     negb (frame_count candidate =? 1)
  then Err InvalidLogSegment
  else if MAX_LOG_SEGMENTS_PER_SLOT <=? Z.of_nat (length (segments self)) then
    Err LogSegmentLimit
  else
    retained ← ok_or (checked_add u64_max (backlog_content_bytes self)
                        (accounted_bytes (segment_content candidate))) LogBacklogLimit;
    if MAX_LOG_SPOOL_CONTENT_BYTES <? retained then Err LogBacklogLimit
    else Ok (commit_candidate self (segments self ++ [candidate])
               (segment_enqueued_at self ++ [enqueued_at]) candidate).

Definition record_segment (self : LogDeliveryCursor) (publication : LogSegmentPublication)
    (enqueued_at : UnixMillis) : result JournalInvariantError LogDeliveryCursor :=
  match cursor_end_of_stream self with
  | Some _ => Err LogStreamClosed
  | None =>
      let candidate := publication_segment publication in
      _ ← segment_validate candidate;
      expected_first ← match produced_through self with
                       | None => Ok 0
                       | Some sequence =>
                           map_err (λ _, CounterExhausted) (log_sequence_checked_next sequence)
                       end;
      match previous_open_content publication with
      | Some previous => replace_tail self previous candidate
      | None => append_segment self expected_first candidate enqueued_at
      end
  end.

Definition set_segments (segments_ : list LogSegment) (self : LogDeliveryCursor) :
    LogDeliveryCursor :=
  MkLogDeliveryCursor (cursor_stream_id self) segments_ (segment_enqueued_at self)
    (produced_through self) (cursor_end_of_stream self) (last_acknowledgement self).

Definition seal_segment (self : LogDeliveryCursor) (expected_content : DurableContentRef) :
    result JournalInvariantError (LogDeliveryCursor * bool) :=
  tail ← ok_or (last (segments self)) LogSegmentMutationConflict;
  if negb (bool_decide (segment_content tail = expected_content)) then
    Err LogSegmentMutationConflict
  else if sealed tail then Ok (self, false)
  else Ok (set_segments (set_last (seal tail) (segments self)) self, true).

Definition acknowledge_segment (self : LogDeliveryCursor)
    (acknowledgement : LogSegmentAcknowledgement) :
    result JournalInvariantError (LogDeliveryCursor * bool) :=
  let accept :=
    head ← ok_or (head (segments self)) InvalidLogAcknowledgement;
    if negb (sealed head) || negb (last_sequence head =? through acknowledgement) ||
       negb (bool_decide (segment_content head = head_content acknowledgement))
    then Err LogAcknowledgementConflict
    else Ok (MkLogDeliveryCursor (cursor_stream_id self) (drop 1 (segments self))
               (drop 1 (segment_enqueued_at self)) (produced_through self)
               (cursor_end_of_stream self) (Some acknowledgement), true) in
  match last_acknowledgement self with
  | Some previous =>
      if through acknowledgement <=? through previous then
        if bool_decide (previous = acknowledgement) then Ok (self, false)
        else Err LogAcknowledgementConflict
      else accept
  | None => accept
  end.

(** The segment loop of [validate]; [index + 1 != len] is that more segments
    follow. *)
Fixpoint validate_segments (expected total : Z) (l : list LogSegment) :
    result JournalInvariantError Z :=
  match l with
  | [] => Ok total
  | segment :: rest =>
      let more := match rest with [] => false | _ => true end in
      _ ← segment_validate segment;
      if negb (first_sequence segment =? expected) || (negb (sealed segment) && more) ||
         (end_of_stream segment && more)
      then Err DecodedStateInvalid
      else
        expected ← map_err (λ _, DecodedStateInvalid)
          (log_sequence_checked_next (last_sequence segment));
        total ← ok_or (checked_add u64_max total (accounted_bytes (segment_content segment)))
          DecodedStateInvalid;
        validate_segments expected total rest
  end.

Definition durable_last (self : LogDeliveryCursor) : option LogSequence :=
  match last (segments self) with
  | Some segment => Some (last_sequence segment)
  | None => through <$> last_acknowledgement self
  end.

Definition cursor_validate (self : LogDeliveryCursor) : result JournalInvariantError unit :=
  _ ← reject (MAX_LOG_SEGMENTS_PER_SLOT <? Z.of_nat (length (segments self)))
        DecodedCollectionLimit;
  _ ← reject (negb (Nat.eqb (length (segment_enqueued_at self)) (length (segments self))))
        DecodedStateInvalid;
  _ ← try_for validate_delivery_enqueued_at (segment_enqueued_at self);
  _ ← match last_acknowledgement self with
      | Some acknowledgement =>
          _ ← acknowledgement_validate acknowledgement;
          reject (negb (acknowledged_stream_id acknowledgement =? cursor_stream_id self))
            DecodedStateInvalid
      | None => Ok tt
      end;
  expected ← match last_acknowledgement self, segments self with
             | _, [] | None, _ => Ok 0
             | Some acknowledgement, _ =>
                 map_err (λ _, DecodedStateInvalid)
                   (log_sequence_checked_next (through acknowledgement))
             end;
  total ← validate_segments expected 0 (segments self);
  _ ← reject (MAX_LOG_SPOOL_CONTENT_BYTES <? total) DecodedCollectionLimit;
  reject
    (negb (bool_decide (produced_through self = durable_last self)) ||
     match cursor_end_of_stream self with
     | Some end_ =>
         negb (bool_decide (produced_through self = Some end_)) ||
         match last (segments self) with
         | Some segment => negb (end_of_stream segment)
         | None => false
         end
     | None => false
     end ||
     existsb (λ segment, end_of_stream segment &&
                negb (bool_decide (Some (last_sequence segment) = cursor_end_of_stream self)))
       (segments self))
    DecodedStateInvalid.

(** ** The slot operations that drive the cursor ([state.rs])

    What [record_log_segment], [seal_log_segment] and
    [acknowledge_log_segment] do once the slot's cursor is found: the stream
    is checked, a repeated publication is recognised, the cursor is advanced. *)

Definition record_log_segment (log : LogDeliveryCursor) (publication : LogSegmentPublication)
    (enqueued_at : UnixMillis) : result JournalInvariantError (LogDeliveryCursor * bool) :=
  if negb (cursor_stream_id log =? publication_stream_id publication) then
    Err LogStreamMismatch
  else if bool_decide (produced_through log =
                       Some (last_sequence (publication_segment publication))) then
    if bool_decide (last (segments log) = Some (publication_segment publication)) then
      Ok (log, false)
    else Err LogSegmentReplayConflict
  else
    log ← record_segment log publication enqueued_at;
    Ok (log, true).

Definition seal_log_segment (log : LogDeliveryCursor) (stream_id : LogStreamId)
    (expected_content : DurableContentRef) :
    result JournalInvariantError (LogDeliveryCursor * bool) :=
  if negb (cursor_stream_id log =? stream_id) then Err LogStreamMismatch
  else seal_segment log expected_content.

Definition acknowledge_log_segment (log : LogDeliveryCursor)
    (acknowledgement : LogSegmentAcknowledgement) :
    result JournalInvariantError (LogDeliveryCursor * bool) :=
  if negb (cursor_stream_id log =? acknowledged_stream_id acknowledgement) then
    Err LogStreamMismatch
  else acknowledge_segment log acknowledgement.

Inductive log_op :=
| RecordLog (publication : LogSegmentPublication) (enqueued_at : UnixMillis)
| SealLog (stream_id : LogStreamId) (expected_content : DurableContentRef)
| AcknowledgeLog (acknowledgement : LogSegmentAcknowledgement).

Definition run_log_op (log : LogDeliveryCursor) (op : log_op) :
    result JournalInvariantError (LogDeliveryCursor * bool) :=
  match op with
  | RecordLog publication enqueued_at => record_log_segment log publication enqueued_at
  | SealLog stream_id content => seal_log_segment log stream_id content
  | AcknowledgeLog acknowledgement => acknowledge_log_segment log acknowledgement
  end.

(** A failed operation leaves the durable cursor as it was. *)
Definition step_log (log : LogDeliveryCursor) (op : log_op) : LogDeliveryCursor :=
  match run_log_op log op with Ok (log, _) => log | Err _ => log end.

Definition run_log (stream_id : LogStreamId) (ops : list log_op) : LogDeliveryCursor :=
  foldl step_log (cursor_new stream_id) ops.

(** ** The stream the cursor implements *)

Record Stream := MkStream { frames_produced : Z; frames_delivered : Z; closed : bool }.

(** What an accepted request does to the stream. *)
Inductive stream_event :=
| Published (sequence : LogSequence) (closes : bool)
| Delivered (sequence : LogSequence).

(** Frames are produced one at a time, with consecutive numbers, until one
    closes the stream; a delivery takes the frames up to a produced one, and at
    least one, from the front. *)
Inductive stream_step : Stream → stream_event → Stream → Prop :=
| step_publish (s : Stream) (closes : bool) :
    closed s = false →
    stream_step s (Published (frames_produced s) closes)
      (MkStream (frames_produced s + 1) (frames_delivered s) closes)
| step_deliver (s : Stream) (n : LogSequence) :
    frames_delivered s <= n < frames_produced s →
    stream_step s (Delivered n) (MkStream (frames_produced s) (n + 1) (closed s)).

Inductive stream_run : Stream → list stream_event → Stream → Prop :=
| run_done (s : Stream) : stream_run s [] s
| run_event (s t u : Stream) (e : stream_event) (es : list stream_event) :
    stream_step s e t → stream_run t es u → stream_run s (e :: es) u.

Definition count_through (s : option LogSequence) : Z :=
  match s with Some n => n + 1 | None => 0 end.

Definition stream_of (log : LogDeliveryCursor) : Stream :=
  MkStream (count_through (produced_through log)) (count_through (acknowledged_through log))
    (match cursor_end_of_stream log with Some _ => true | None => false end).

(** The events of a request, if it is accepted. *)
Definition op_events (op : log_op) : list stream_event :=
  match op with
  | RecordLog p _ =>
      [Published (last_sequence (publication_segment p)) (end_of_stream (publication_segment p))]
  | SealLog _ _ => []
  | AcknowledgeLog a => [Delivered (through a)]
  end.

Fixpoint events_of (log : LogDeliveryCursor) (ops : list log_op) : list stream_event :=
  match ops with
  | [] => []
  | op :: ops =>
      (match run_log_op log op with Ok (_, true) => op_events op | _ => [] end) ++
      events_of (step_log log op) ops
  end.

(** ** The invariant *)

Definition segment_ok (s : LogSegment) : Prop := segment_validate s = Ok tt.

(** Segments are valid and cover consecutive frames from [from]; all but the
    last are sealed and do not end the stream. *)
Fixpoint chain (from : Z) (l : list LogSegment) : Prop :=
  match l with
  | [] => True
  | s :: rest =>
      segment_ok s ∧ first_sequence s = from ∧
      (rest ≠ [] → sealed s = true ∧ end_of_stream s = false) ∧
      chain (last_sequence s + 1) rest
  end.

Definition total_bytes (l : list LogSegment) : Z :=
  foldr (λ s n, accounted_bytes (segment_content s) + n) 0 l.

Record cursor_inv (log : LogDeliveryCursor) : Prop := {
  inv_count : Z.of_nat (length (segments log)) <= MAX_LOG_SEGMENTS_PER_SLOT;
  inv_enqueued : length (segment_enqueued_at log) = length (segments log);
  inv_times : ∀ t, t ∈ segment_enqueued_at log → validate_delivery_enqueued_at t = Ok tt;
  inv_ack : ∀ a, last_acknowledgement log = Some a →
    validate_log_content (head_content a) = Ok tt ∧
    acknowledged_stream_id a = cursor_stream_id log ∧ 0 <= through a;
  inv_chain : chain (count_through (acknowledged_through log)) (segments log);
  inv_bytes : total_bytes (segments log) <= MAX_LOG_SPOOL_CONTENT_BYTES;
  inv_produced : produced_through log = durable_last log;
  inv_end : ∀ e, cursor_end_of_stream log = Some e →
    produced_through log = Some e ∧
    ∀ s, last (segments log) = Some s → end_of_stream s = true;
  inv_open : cursor_end_of_stream log = None →
    ∀ s, last (segments log) = Some s → end_of_stream s = false;
  inv_u64 : ∀ n, produced_through log = Some n → n <= u64_max;
}.

(** ** Which requests a cursor takes *)





(** ** Lemmas: lists of segments *)

Lemma set_last_snoc {A : Type} (x y : A) (l : list A) : set_last x (l ++ [y]) = l ++ [x].
Proof.
  induction l as [|z l IH]; simpl; [done|]. rewrite <- IH. by destruct l.
Qed.

(** What a valid segment satisfies. *)
Record segment_facts (s : LogSegment) : Prop := {
  sf_content : validate_log_content (segment_content s) = Ok tt;
  sf_order : first_sequence s <= last_sequence s;
  sf_frames : frame_count s = last_sequence s - first_sequence s + 1;
  sf_limit : frame_count s <= MAX_LOG_SEGMENT_FRAMES;
  sf_ends : end_of_stream s = true → sealed s = true;
}.

Lemma segment_ok_facts (s : LogSegment) : segment_ok s → segment_facts s.
Proof.
  unfold segment_ok, segment_validate. unfold_monad. intros H.
  destruct (validate_log_content (segment_content s)) as [[]|] eqn:Ec; [|done].
  destruct (checked_sub (last_sequence s) (first_sequence s)) as [span|] eqn:Es; [|done].
  apply checked_sub_Some in Es as [-> Hle].
  destruct (checked_add u64_max _ 1) as [n|] eqn:En; [|done].
  apply checked_add_Some in En as [-> _].
  destruct (_ || _) eqn:Et; [done|].
  repeat (apply orb_false_iff in Et as [Et ?]).
  split; [done|lia|lia|lia|]. intros He. rewrite He in *. by destruct (sealed s).
Qed.

Lemma segment_ok_seal (s : LogSegment) : segment_ok s → segment_ok (seal s).
Proof.
  unfold segment_ok, segment_validate, seal. unfold_monad. intros H.
  destruct (validate_log_content (segment_content s)); [|done].
  destruct (match checked_sub _ _ with Some _ => _ | None => _ end); [|done].
  rewrite andb_false_r, orb_false_r. destruct (_ || _) eqn:Et in H; [done|].
  apply orb_false_iff in Et as [Et _]. by rewrite Et.
Qed.

Fixpoint chain_end (from : Z) (l : list LogSegment) : Z :=
  match l with [] => from | s :: rest => chain_end (last_sequence s + 1) rest end.

(** Sealed and not ending the stream: what a segment before others is. *)
Definition behind (s : LogSegment) : Prop := sealed s = true ∧ end_of_stream s = false.

Lemma chain_snoc (from : Z) (l : list LogSegment) (s : LogSegment) :
  chain from (l ++ [s]) ↔
  chain from l ∧ (∀ x, x ∈ l → behind x) ∧ segment_ok s ∧ first_sequence s = chain_end from l.
Proof.
  revert from. induction l as [|x l IH]; intros from; simpl.
  - split; [intros (? & ? & _ & _); set_solver|]. intros (_ & _ & ? & ?). by repeat split.
  - rewrite IH. unfold behind. setoid_rewrite elem_of_cons.
    assert (l ++ [s] ≠ []) by (by destruct l). split.
    + intros (Hok & Hf & Hb & Hc & Hl & Hs & Hfs). repeat split; try done; try tauto.
      all: destruct H0 as [->|?]; [by apply Hb|by apply Hl].
    + intros ((Hok & Hf & Hb & Hc) & Hl & Hs & Hfs). repeat split; try done.
      all: try (apply Hl; auto).
Qed.

Lemma chain_end_snoc (from : Z) (l : list LogSegment) (s : LogSegment) :
  chain_end from (l ++ [s]) = last_sequence s + 1.
Proof. revert from. induction l as [|x l IH]; intros from; simpl; [done|apply IH]. Qed.

Lemma chain_end_le (from : Z) (l : list LogSegment) : chain from l → from <= chain_end from l.
Proof.
  revert from. induction l as [|s l IH]; intros from; simpl; [lia|].
  intros (Hok & <- & _ & Hc). apply IH in Hc. apply segment_ok_facts in Hok as []. lia.
Qed.

Lemma chain_end_lt (from : Z) (l : list LogSegment) :
  chain from l → l ≠ [] → from < chain_end from l.
Proof.
  destruct l as [|s l]; [done|]. simpl. intros (Hok & <- & _ & Hc) _.
  apply chain_end_le in Hc. apply segment_ok_facts in Hok as []. lia.
Qed.

(** The segments before the last are behind; so is the last when it is. *)
Lemma chain_behind (from : Z) (l : list LogSegment) :
  chain from l → (∀ s, last l = Some s → behind s) → ∀ x, x ∈ l → behind x.
Proof.
  destruct (last l) as [s|] eqn:El.
  - apply last_Some in El as [k ->]. rewrite chain_snoc. intros (_ & Hk & _) Hs x Hx.
    apply elem_of_app in Hx as [Hx| ->%list_elem_of_singleton]; auto.
  - apply last_None in El as ->. set_solver.
Qed.

Lemma total_bytes_app (l k : list LogSegment) :
  total_bytes (l ++ k) = total_bytes l + total_bytes k.
Proof. unfold total_bytes. induction l as [|s l IH]; simpl; lia. Qed.

Lemma total_bytes_nonneg (l : list LogSegment) : 0 <= total_bytes l.
Proof.
  unfold total_bytes. induction l as [|s l IH]; simpl; [lia|].
  pose proof (accounted_bytes_range (segment_content s)). lia.
Qed.

Lemma backlog_total (log : LogDeliveryCursor) :
  total_bytes (segments log) <= u64_max →
  backlog_content_bytes log = total_bytes (segments log).
Proof.
  unfold backlog_content_bytes. intros H.
  cut (∀ l acc, 0 <= acc → acc + total_bytes l <= u64_max →
    foldl (λ t s, saturating_add u64_max t (accounted_bytes (segment_content s))) acc l
    = acc + total_bytes l).
  { intros Hc. rewrite Hc; lia. }
  induction l as [|s l IH]; intros acc Hacc Hle; simpl in *; [lia|].
  pose proof (accounted_bytes_range (segment_content s)). pose proof (total_bytes_nonneg l).
  unfold total_bytes in *. simpl in *. unfold saturating_add at 2.
  rewrite Z.min_r by lia. rewrite IH; lia.
Qed.

(** ** Lemmas: the operations *)

Lemma durable_last_end (log : LogDeliveryCursor) :
  count_through (durable_last log) =
  chain_end (count_through (acknowledged_through log)) (segments log).
Proof.
  unfold durable_last, acknowledged_through. destruct (last (segments log)) as [s|] eqn:El.
  - apply last_Some in El as [k ->]. by rewrite chain_end_snoc.
  - by apply last_None in El as ->.
Qed.

Lemma max_content_u64 : MAX_LOG_SPOOL_CONTENT_BYTES <= u64_max.
Proof. done. Qed.

(** What [record_segment] did to the retained segments: the open tail was
    replaced, or a segment was added behind sealed ones. *)
Lemma record_segment_Ok (log log' : LogDeliveryCursor) (p : LogSegmentPublication)
    (t : UnixMillis) :
  cursor_inv log → record_segment log p t = Ok log' →
  let c := publication_segment p in
  cursor_end_of_stream log = None ∧ segment_ok c ∧
  last_sequence c = count_through (produced_through log) ∧ last_sequence c <= u64_max ∧
  match previous_open_content p with
  | Some previous =>
      ∃ tail, last (segments log) = Some tail ∧ sealed tail = false ∧
        segment_content tail = previous ∧ payload_bytes tail <= payload_bytes c ∧
        accounted_bytes (segment_content tail) < accounted_bytes (segment_content c)
  | None => first_sequence c = last_sequence c ∧ open_segment log = None
  end ∧
  ∃ pre enqueued,
    log' = commit_candidate log (pre ++ [c]) enqueued c ∧
    total_bytes pre + accounted_bytes (segment_content c) <= MAX_LOG_SPOOL_CONTENT_BYTES ∧
    ((∃ cur, segments log = pre ++ [cur] ∧ first_sequence c = first_sequence cur ∧
        enqueued = segment_enqueued_at log) ∨
     (segments log = pre ∧ (∀ s, last pre = Some s → sealed s = true) ∧
      first_sequence c = count_through (produced_through log) ∧
      enqueued = segment_enqueued_at log ++ [t] ∧ validate_delivery_enqueued_at t = Ok tt ∧
      Z.of_nat (length pre) < MAX_LOG_SEGMENTS_PER_SLOT)).
Proof.
  intros Hinv. pose proof (inv_bytes _ Hinv) as Hbytes. pose proof max_content_u64 as Hmax.
  unfold record_segment. destruct (cursor_end_of_stream log) eqn:Eend; [done|]. unfold_monad.
  destruct (segment_validate (publication_segment p)) as [[]|] eqn:Ev; [|done].
  destruct (match produced_through log with Some _ => _ | None => _ end) as [ef|] eqn:Ef; [|done].
  assert (ef = count_through (produced_through log) ∧ ef <= u64_max) as [-> Hu].
  { destruct (produced_through log) as [n|]; [|by injection Ef as <-].
    destruct (log_sequence_checked_next n) as [m|] eqn:En; [|done]. injection Ef as <-.
    apply log_sequence_checked_next_Ok in En as [-> ?]. split; [done|lia]. }
  intros H. split; [done|]. split; [done|].
  destruct (previous_open_content p) as [previous|].
  - unfold replace_tail in H. unfold_monad.
    destruct (last (segments log)) as [cur|] eqn:El; [|done].
    apply last_Some in El as [pre El].
    destruct (sealed cur || _) eqn:Esc; [done|].
    apply orb_false_iff in Esc as [Hsealed Hprev%negb_false_iff%bool_decide_eq_true].
    destruct (log_sequence_checked_next (last_sequence cur)) as [el|] eqn:En; [|done].
    apply log_sequence_checked_next_Ok in En as [-> _].
    destruct (_ || _) eqn:Et in H; [done|].
    do 4 (apply orb_false_iff in Et as [Et ?]).
    rewrite backlog_total in H by lia.
    destruct (checked_sub _ _) as [b|] eqn:Eb in H; [|done].
    apply checked_sub_Some in Eb as [-> _].
    destruct (checked_add u64_max _ _) as [r|] eqn:Er in H; [|done].
    apply checked_add_Some in Er as [-> _].
    destruct (Z.ltb_spec MAX_LOG_SPOOL_CONTENT_BYTES
      (total_bytes (segments log) - accounted_bytes (segment_content cur) +
       accounted_bytes (segment_content (publication_segment p)))) as [|Hle]; [done|].
    injection H as <-. rewrite El, total_bytes_app in Hle. simpl in Hle.
    assert (last_sequence (publication_segment p) = count_through (produced_through log)) as Hl.
    { rewrite (inv_produced _ Hinv). unfold durable_last. rewrite El, last_snoc. simpl. lia. }
    split; [done|]. split; [lia|].
    split; [exists cur; split_and!; (done || lia)|].
    exists pre, (segment_enqueued_at log). rewrite El, set_last_snoc. split; [done|].
    split; [lia|]. left. exists cur. split; [done|]. split; [lia|done].
  - unfold append_segment in H. unfold_monad.
    destruct (validate_delivery_enqueued_at t) as [[]|] eqn:Evt; [|done].
    destruct (_ || _) eqn:Et in H; [done|].
    do 3 (apply orb_false_iff in Et as [Et ?]).
    destruct (Z.leb_spec MAX_LOG_SEGMENTS_PER_SLOT (Z.of_nat (length (segments log)))); [done|].
    rewrite backlog_total in H by lia.
    destruct (checked_add u64_max _ _) as [r|] eqn:Er in H; [|done].
    apply checked_add_Some in Er as [-> _].
    destruct (Z.ltb_spec MAX_LOG_SPOOL_CONTENT_BYTES (total_bytes (segments log) +
      accounted_bytes (segment_content (publication_segment p)))) as [|Hle]; [done|].
    injection H as <-. split; [lia|]. split; [lia|].
    split; [split; [lia|by destruct (open_segment log)]|].
    exists (segments log), (segment_enqueued_at log ++ [t]). split; [done|]. split; [lia|].
    right. split; [done|]. split; [|split; [lia|done]].
    intros s Hs. unfold open_segment in Et. rewrite Hs in Et. by destruct (sealed s).
Qed.

Lemma record_segment_inv (log log' : LogDeliveryCursor) (p : LogSegmentPublication)
    (t : UnixMillis) :
  cursor_inv log → record_segment log p t = Ok log' →
  cursor_inv log' ∧
  stream_step (stream_of log)
    (Published (last_sequence (publication_segment p)) (end_of_stream (publication_segment p)))
    (stream_of log').
Proof.
  intros Hinv Hrec. destruct (record_segment_Ok _ _ _ _ Hinv Hrec)
    as (Hend & Hok & Hlast & Hu & _ & pre & enq & -> & Hbytes & Hcase).
  set (c := publication_segment p) in *. split.
  - pose proof (inv_chain _ Hinv) as Hchain.
    assert (chain (count_through (acknowledged_through log)) (pre ++ [c])) as Hc.
    { rewrite chain_snoc. destruct Hcase as [(cur & Hs & Hf & _)|(Hs & Hsealed & Hf & _)].
      - rewrite Hs, chain_snoc in Hchain. destruct Hchain as (? & ? & _ & Hfc).
        split; [done|]. split; [done|]. split; [done|]. congruence.
      - subst pre. split; [done|]. split; [|split; [done|]].
        + eapply chain_behind; [exact Hchain|]. intros s Hl. split; [auto|].
          by apply (inv_open _ Hinv).
        + rewrite Hf, (inv_produced _ Hinv). apply durable_last_end. }
    split; simpl; try done.
    + rewrite length_app. simpl.
      destruct Hcase as [(cur & Hs & _)|(Hs & _ & _ & _ & _ & Hlen)]; [|lia].
      pose proof (inv_count _ Hinv) as Hn. rewrite Hs, length_app in Hn. done.
    + pose proof (inv_enqueued _ Hinv) as Hn.
      destruct Hcase as [(cur & Hs & _ & ->)|(Hs & _ & _ & -> & _)].
      * by rewrite Hn, Hs, !length_app.
      * by rewrite !length_app, Hn, Hs.
    + pose proof (inv_times _ Hinv) as Ht.
      destruct Hcase as [(cur & _ & _ & ->)|(_ & _ & _ & -> & Hv & _)]; [done|].
      intros u [Hin| ->%list_elem_of_singleton]%elem_of_app; auto.
    + apply (inv_ack _ Hinv).
    + rewrite total_bytes_app. simpl. lia.
    + unfold durable_last. simpl. by rewrite last_snoc.
    + rewrite Hend. intros e He. destruct (end_of_stream c) eqn:Ee; [|done].
      injection He as <-. split; [done|]. intros s. rewrite last_snoc. by intros [= <-].
    + rewrite Hend. destruct (end_of_stream c) eqn:Ee; [done|]. intros _ s.
      rewrite last_snoc. by intros [= <-].
    + by intros n [= <-].
  - assert (stream_of (commit_candidate log (pre ++ [c]) enq c) =
      MkStream (frames_produced (stream_of log) + 1) (frames_delivered (stream_of log))
        (end_of_stream c)) as ->.
    { unfold stream_of, commit_candidate. simpl. rewrite Hend. f_equal; [lia|].
      by destruct (end_of_stream c). }
    rewrite Hlast. apply (step_publish (stream_of log)). unfold stream_of. simpl. by rewrite Hend.
Qed.

Lemma seal_segment_inv (log log' : LogDeliveryCursor) (content : DurableContentRef) (b : bool) :
  cursor_inv log → seal_segment log content = Ok (log', b) →
  cursor_inv log' ∧ stream_of log' = stream_of log.
Proof.
  intros Hinv. unfold seal_segment. unfold_monad.
  destruct (last (segments log)) as [tail|] eqn:El; [|done].
  destruct (negb _); [done|]. destruct (sealed tail) eqn:Es; [by intros [= <- _]|].
  intros [= <- _]. split; [|done]. apply last_Some in El as [pre El].
  destruct Hinv as [Hn He Ht Ha Hc Hb Hp Hend Hopen Hu].
  unfold durable_last in Hp. rewrite El in *. rewrite set_last_snoc.
  rewrite last_snoc in *. rewrite length_app in *.
  split; simpl; try done.
  - by rewrite length_app.
  - by rewrite length_app.
  - rewrite chain_snoc in *. destruct Hc as (? & ? & ? & ?). repeat split; try done;
      [by apply H0..|by apply segment_ok_seal].
  - rewrite total_bytes_app in *. done.
  - unfold durable_last. simpl. by rewrite last_snoc.
  - intros e Hee. destruct (Hend e Hee) as [? Hs]. split; [done|]. intros s.
    rewrite last_snoc. intros [= <-]. by apply (Hs tail).
  - intros Hee s. rewrite last_snoc. intros [= <-]. by apply (Hopen Hee tail).
Qed.

Lemma acknowledge_segment_inv (log log' : LogDeliveryCursor) (a : LogSegmentAcknowledgement)
    (b : bool) :
  cursor_inv log → acknowledged_stream_id a = cursor_stream_id log →
  acknowledge_segment log a = Ok (log', b) →
  cursor_inv log' ∧
  if b then stream_step (stream_of log) (Delivered (through a)) (stream_of log') else log' = log.
Proof.
  intros Hinv Hsid Hack.
  assert ((b = false ∧ log' = log) ∨
    b = true ∧ ∃ h rest, segments log = h :: rest ∧ last_sequence h = through a ∧ sealed h = true ∧
      segment_content h = head_content a ∧
      log' = MkLogDeliveryCursor (cursor_stream_id log) rest (drop 1 (segment_enqueued_at log))
        (produced_through log) (cursor_end_of_stream log) (Some a)) as [[-> ->]|[-> Hcase]].
  { unfold acknowledge_segment in Hack. unfold_monad.
    destruct (last_acknowledgement log) as [prev|].
    all: try (destruct (through a <=? through prev);
      [case_bool_decide; simplify_eq; by left|]).
    all: destruct (segments log) as [|h rest]; simpl in Hack; [done|].
    all: destruct (negb _ || _ || _) eqn:Et; [done|].
    all: apply orb_false_iff in Et as [[Ht1 Ht2]%orb_false_iff Ht3].
    all: rewrite negb_false_iff in Ht1, Ht2, Ht3.
    all: apply bool_decide_eq_true in Ht3.
    all: injection Hack as <- <-; right; split; [done|]; exists h, rest; repeat split; auto; lia. }
  { done. }
  destruct Hcase as (h & rest & Hs & Hlast & Hsealed & Hcontent & ->).
  destruct Hinv as [Hn He Ht Ha Hc Hb Hp Hend Hopen Hu].
  unfold durable_last in Hp. rewrite Hs in *. simpl in Hc.
  destruct Hc as (Hok & Hfirst & Hbehind & Hc).
  pose proof (segment_ok_facts _ Hok) as [Hsc Hso _ _ _].
  assert (0 <= count_through (acknowledged_through log)) as Hge.
  { unfold acknowledged_through. destruct (last_acknowledgement log) as [prev|]; simpl; [|lia].
    destruct (Ha prev eq_refl) as (_ & _ & ?). lia. }
  assert (Hdl : produced_through log =
    match last rest with Some s => Some (last_sequence s) | None => Some (through a) end).
  { rewrite Hp. destruct rest as [|r rest]; [simpl; by rewrite Hlast|].
    change (last (h :: r :: rest)) with (last (r :: rest)).
    destruct (last (r :: rest)) eqn:El; [done|by apply last_None in El]. }
  split.
  - split; simpl.
    + simpl in Hn. lia.
    + rewrite length_drop, He. simpl. lia.
    + intros t Htin. apply Ht. destruct (segment_enqueued_at log); [done|]. by right.
    + intros a' [= <-]. rewrite <- Hcontent. split; [done|]. split; [done|lia].
    + rewrite <- Hlast. done.
    + simpl in Hb. pose proof (accounted_bytes_range (segment_content h)). lia.
    + exact Hdl.
    + intros e Hee. destruct (Hend e Hee) as [? Hs']. split; [done|].
      intros s Hsl. apply Hs'. by destruct rest.
    + intros Hee s Hsl. apply (Hopen Hee s). by destruct rest.
    + exact Hu.
  - unfold stream_of at 2. simpl.
    apply (step_deliver (stream_of log) (through a)). unfold stream_of. simpl. split; [lia|].
    apply chain_end_le in Hc. rewrite Hdl, <- Hlast in *.
    destruct (last rest) as [s|] eqn:El; [|simpl; lia].
    apply last_Some in El as [k ->]. rewrite chain_end_snoc in Hc. simpl. lia.
Qed.

(** ** Lemmas: reachable cursors *)

Lemma cursor_new_inv (sid : LogStreamId) : cursor_inv (cursor_new sid).
Proof. split; simpl; try done; set_solver. Qed.

Lemma stream_run_one (s t : Stream) (e : stream_event) : stream_step s e t → stream_run s [e] t.
Proof. intros H. eapply run_event; [exact H|constructor]. Qed.

Lemma stream_run_app (s t u : Stream) (es fs : list stream_event) :
  stream_run s es t → stream_run t fs u → stream_run s (es ++ fs) u.
Proof.
  induction 1 as [s|s s' t e es Hs _ IH]; [done|]. intros H. econstructor; [exact Hs|by apply IH].
Qed.

Lemma run_log_op_inv (log log' : LogDeliveryCursor) (op : log_op) (b : bool) :
  cursor_inv log → run_log_op log op = Ok (log', b) →
  cursor_inv log' ∧
  if b then stream_run (stream_of log) (op_events op) (stream_of log') else log' = log.
Proof.
  intros Hinv. destruct op as [p t|sid content|a]; simpl.
  - unfold record_log_segment. destruct (negb _); [done|].
    case_bool_decide.
    { case_bool_decide; [|done]. by intros [= <- <-]. }
    unfold_monad. destruct (record_segment log p t) as [log1|] eqn:Er; [|done].
    intros [= <- <-]. destruct (record_segment_inv _ _ _ _ Hinv Er). auto using stream_run_one.
  - unfold seal_log_segment. destruct (negb _); [done|]. intros Hs.
    destruct (seal_segment_inv _ _ _ _ Hinv Hs) as [? Hst]. split; [done|].
    destruct b; [rewrite Hst; constructor|]. revert Hs. unfold seal_segment. unfold_monad.
    destruct (last (segments log)); [|done]. destruct (negb _); [done|]. by case_match; intros [= ->].
  - unfold acknowledge_log_segment.
    destruct (Z.eqb_spec (cursor_stream_id log) (acknowledged_stream_id a)); [|done].
    simpl. intros Ha. destruct (acknowledge_segment_inv _ _ _ _ Hinv ltac:(done) Ha) as [? Hst].
    split; [done|]. destruct b; [by apply stream_run_one|done].
Qed.

(** Repeating the request that was just accepted is recognised. *)
Lemma run_log_op_replay (log log' : LogDeliveryCursor) (op : log_op) :
  cursor_inv log → run_log_op log op = Ok (log', true) → run_log_op log' op = Ok (log', false).
Proof.
  intros Hinv. destruct op as [p t|sid content|a]; simpl.
  - unfold record_log_segment.
    destruct (Z.eqb_spec (cursor_stream_id log) (publication_stream_id p)) as [Hsid|]; [|done].
    simpl. case_bool_decide; [by case_bool_decide|]. unfold_monad.
    destruct (record_segment log p t) as [log1|] eqn:Er; [|done]. intros [= ->].
    destruct (record_segment_Ok _ _ _ _ Hinv Er) as (_ & _ & _ & _ & _ & pre & enq & -> & _).
    simpl. rewrite Hsid, Z.eqb_refl. simpl. rewrite last_snoc.
    by rewrite !bool_decide_eq_true_2.
  - unfold seal_log_segment, seal_segment.
    destruct (Z.eqb_spec (cursor_stream_id log) sid) as [<-|]; [|done]. simpl. unfold_monad.
    destruct (last (segments log)) as [tail|] eqn:Hl; [|done].
    destruct (negb _) eqn:Hc; [done|]. destruct (sealed tail); [done|]. intros [= <-]. simpl.
    rewrite Z.eqb_refl. simpl. apply last_Some in Hl as [pre ->]. rewrite set_last_snoc, last_snoc.
    simpl. by rewrite Hc.
  - unfold acknowledge_log_segment.
    destruct (Z.eqb_spec (cursor_stream_id log) (acknowledged_stream_id a)) as [Hsid|]; [|done].
    simpl. intros Hack.
    assert (last_acknowledgement log' = Some a ∧ cursor_stream_id log' = cursor_stream_id log)
      as [Hla Hsid'].
    { unfold acknowledge_segment in Hack. unfold_monad.
      destruct (last_acknowledgement log) as [prev|].
      - destruct (through a <=? through prev); [by case_bool_decide|]. by split_tests.
      - by split_tests. }
    rewrite Hsid', Hsid, Z.eqb_refl. simpl. unfold acknowledge_segment.
    rewrite Hla, Z.leb_refl. by rewrite bool_decide_eq_true_2.
Qed.

Lemma step_log_inv (log : LogDeliveryCursor) (op : log_op) :
  cursor_inv log → cursor_inv (step_log log op).
Proof.
  intros Hinv. unfold step_log. destruct (run_log_op log op) as [[log' b]|] eqn:E; [|done].
  by eapply run_log_op_inv.
Qed.

Lemma foldl_log_inv (log : LogDeliveryCursor) (ops : list log_op) :
  cursor_inv log →
  cursor_inv (foldl step_log log ops) ∧
  stream_run (stream_of log) (events_of log ops) (stream_of (foldl step_log log ops)).
Proof.
  revert log. induction ops as [|op ops IH]; intros log Hinv; simpl; [split; [done|constructor]|].
  pose proof (step_log_inv log op Hinv) as Hs. destruct (IH _ Hs) as [Hi Hr]. split; [done|].
  eapply stream_run_app; [|exact Hr]. unfold step_log.
  destruct (run_log_op log op) as [[log' b]|] eqn:E; [|constructor].
  destruct (run_log_op_inv _ _ _ _ Hinv E) as [_ H]. destruct b; [done|]. subst log'. constructor.
Qed.

Lemma run_log_inv (sid : LogStreamId) (ops : list log_op) : cursor_inv (run_log sid ops).
Proof. apply foldl_log_inv, cursor_new_inv. Qed.

(** ** Lemmas: requests are taken exactly when they fit *)










Lemma validate_segments_chain (from total : Z) (l : list LogSegment) :
  chain from l → 0 <= total → total + total_bytes l <= u64_max → chain_end from l <= u64_max →
  validate_segments from total l = Ok (total + total_bytes l).
Proof.
  revert from total. induction l as [|s l IH]; intros from total; simpl; [intros; f_equal; lia|].
  intros (Hok & Hf & Hb & Hc) Ht Hsum Hend. unfold_monad. rewrite Hok, Hf, Z.eqb_refl. simpl.
  assert ((negb (sealed s) && match l with [] => false | _ => true end)
          || (end_of_stream s && match l with [] => false | _ => true end) = false) as ->.
  { destruct l; [by rewrite !andb_false_r|]. destruct Hb as [-> ->]; done. }
  pose proof (chain_end_le _ _ Hc).
  rewrite (proj2 (log_sequence_checked_next_Ok (last_sequence s) (last_sequence s + 1)))
    by (split; [done|lia]).
  pose proof (accounted_bytes_range (segment_content s)). pose proof (total_bytes_nonneg l).
  rewrite (proj2 (checked_add_Some u64_max total (accounted_bytes (segment_content s))
    (total + accounted_bytes (segment_content s)))) by (split; [done|lia]).
  rewrite IH; [f_equal; lia|done|lia|lia|lia].
Qed.

(** A segment that ends the stream is the last one and agrees with the mark. *)
Lemma inv_ends_agree (log : LogDeliveryCursor) :
  cursor_inv log →
  existsb (λ s, end_of_stream s &&
    negb (bool_decide (Some (last_sequence s) = cursor_end_of_stream log))) (segments log)
  = false.
Proof.
  intros [_ _ _ _ Hc _ Hp Hend Hopen _].
  apply not_true_iff_false. rewrite existsb_exists. intros (x & Hx & Hxe).
  apply andb_true_iff in Hxe as [Hxe Hne]. rewrite negb_true_iff, bool_decide_eq_false in Hne.
  apply list_elem_of_In in Hx.
  unfold durable_last in Hp. destruct (last (segments log)) as [z|] eqn:El.
  2: { apply last_None in El. rewrite El in Hx. set_solver. }
  pose proof El as El'. apply last_Some in El' as [k Ek]. rewrite Ek, chain_snoc in Hc.
  rewrite Ek in Hx. apply elem_of_app in Hx as [Hx| ->%list_elem_of_singleton].
  - destruct Hc as (_ & Hk & _). destruct (Hk x Hx). congruence.
  - destruct (cursor_end_of_stream log) as [e|] eqn:Ee.
    + destruct (Hend e eq_refl) as [Hpe _]. congruence.
    + specialize (Hopen eq_refl z eq_refl). congruence.
Qed.

(** The invariant is what [validate] checks, short of the last sequence
    number. *)
Lemma cursor_inv_validate (log : LogDeliveryCursor) :
  cursor_inv log → produced_through log ≠ Some u64_max → cursor_validate log = Ok tt.
Proof.
  intros Hinv Hne. pose proof (inv_ends_agree log Hinv) as Hagree.
  destruct Hinv as [Hn He Ht Ha Hc Hb Hp Hend Hopen Hmax]. pose proof max_content_u64 as Hcu.
  assert (Hce : segments log ≠ [] →
    chain_end (count_through (acknowledged_through log)) (segments log) <= u64_max).
  { intros _. rewrite <- durable_last_end, <- Hp.
    destruct (produced_through log) as [n|] eqn:E; simpl; [|done].
    specialize (Hmax n eq_refl). assert (n ≠ u64_max) by congruence. lia. }
  unfold cursor_validate. unfold_monad.
  destruct (Z.ltb_spec MAX_LOG_SEGMENTS_PER_SLOT (Z.of_nat (length (segments log)))); [lia|].
  rewrite He, Nat.eqb_refl. simpl. rewrite (proj2 (try_for_Ok _ _) Ht).
  assert (Hack : (match last_acknowledgement log with
    | Some a => match acknowledgement_validate a with
                | Ok _ => if negb (acknowledged_stream_id a =? cursor_stream_id log)
                          then Err DecodedStateInvalid else Ok tt
                | Err e => Err e end
    | None => Ok tt end) = Ok tt).
  { destruct (last_acknowledgement log) as [a|]; [|done].
    destruct (Ha a eq_refl) as (Hv & -> & _). unfold acknowledgement_validate.
    by rewrite Hv, Z.eqb_refl. }
  rewrite Hack. clear Hack.
  assert (Hexp : (match last_acknowledgement log, segments log with
    | _, [] | None, _ => Ok 0
    | Some a, _ => match log_sequence_checked_next (through a) with
                   | Ok n => Ok n | Err _ => Err DecodedStateInvalid end
    end) = Ok (match segments log with
               | [] => 0 | _ => count_through (acknowledged_through log) end)).
  { unfold acknowledged_through in *. destruct (last_acknowledgement log) as [a|]; simpl in *;
      [|by destruct (segments log)].
    destruct (segments log) as [|s l] eqn:Es; [done|]. rewrite <- Es in *.
    assert (segments log ≠ []) as Hnn by (by rewrite Es).
    specialize (Hce Hnn). apply chain_end_lt in Hc; [|done].
    rewrite (proj2 (log_sequence_checked_next_Ok (through a) (through a + 1))); [done|].
    split; [done|]. lia. }
  rewrite Hexp. clear Hexp.
  assert (validate_segments (match segments log with [] => 0
    | _ => count_through (acknowledged_through log) end) 0 (segments log)
    = Ok (total_bytes (segments log))) as ->.
  { destruct (segments log) as [|s l] eqn:Es; [done|]. rewrite <- Es in *.
    rewrite (validate_segments_chain (count_through (acknowledged_through log)) 0);
      [done|done|lia|lia|]. apply Hce. by rewrite Es. }
  destruct (Z.ltb_spec MAX_LOG_SPOOL_CONTENT_BYTES (total_bytes (segments log))); [lia|].
  rewrite bool_decide_eq_true_2 by done. simpl.
  rewrite Hagree.
  rewrite orb_false_r. destruct (cursor_end_of_stream log) as [e|]; [|done].
  destruct (Hend e eq_refl) as [Hpe Hs]. rewrite bool_decide_eq_true_2 by done. simpl.
  destruct (last (segments log)) as [z|]; [|done]. by rewrite (Hs z).
Qed.

(** The sequences an outbound cursor accepts from a list of requests; a
    refused request leaves it unchanged. *)
Fixpoint outbound_accepted (cursor : OutboundOperationCursor)
    (requests : list OutboundOperationSequence) : list Z :=
  match requests with
  | [] => []
  | r :: rest =>
      match outbound_advance cursor r with
      | Ok next => bget r :: outbound_accepted next rest
      | Err _ => outbound_accepted cursor rest
      end
  end.

Definition outbound_count (cursor : OutboundOperationCursor) : Z :=
  match outbound_contiguous_through cursor with Some s => bget s | None => 0 end.

Lemma outbound_advance_Ok (cursor next : OutboundOperationCursor)
    (r : OutboundOperationSequence) :
  outbound_advance cursor r = Ok next ↔
  bget r = outbound_count cursor + 1 ∧ next = MkOutboundOperationCursor (Some r).
Proof.
  unfold outbound_advance, outbound_count. unfold_monad.
  destruct (outbound_contiguous_through cursor) as [s|].
  - unfold outbound_sequence_checked_next, outbound_sequence_new. unfold_monad.
    pose proof (bounded_range s) as Hs. pose proof (bounded_range r) as Hr.
    rewrite (proj2 (checked_add_Some u64_max (bget s) 1 (bget s + 1)))
      by (split; [done|]; unfold OutboundOperationSequence_MAX, i64_max, u64_max in *; lia).
    destruct (Z.ltb_spec OutboundOperationSequence_MAX (bget s + 1)) as [Hov|Hle].
    { split; [done|]. intros [? _]. lia. }
    destruct (bounded 1 OutboundOperationSequence_MAX (bget s + 1)) as [n|] eqn:En.
    2: { exfalso. apply bounded_None in En. lia. }
    apply bounded_Some in En. case_bool_decide as Heq; simpl.
    + subst r. split; [intros [= <-]; split; [lia|done]|]. intros [_ ->]. done.
    + split; [done|]. intros [Hb _]. destruct Heq. apply bounded_eq. lia.
  - case_bool_decide as Heq; simpl.
    + subst r. split; [by intros [= <-]|]. by intros [_ ->].
    + split; [done|]. intros [Hb _]. destruct Heq. apply bounded_eq. done.
Qed.

(** ** Properties *)


(** Every cursor the operations can reach passes the journal's own
    decoding checks (contiguous valid segments, only the last open or final,
    at most 128 segments and 256 MiB retained, marks that agree), as long as
    the last of the 2^64 sequence numbers is unused. *)
Lemma reachable_cursors_validate (sid : LogStreamId) (ops : list log_op) :
  produced_through (run_log sid ops) ≠ Some u64_max →
  cursor_validate (run_log sid ops) = Ok tt.
Proof. apply cursor_inv_validate, run_log_inv. Qed.

(** A reachable cursor reports full delivery exactly when a frame closed
    the stream and every produced frame has been acknowledged. *)
Lemma fully_delivered_exactly (sid : LogStreamId) (ops : list log_op) :
  let log := run_log sid ops in
  is_fully_delivered log = true ↔
  closed (stream_of log) = true ∧
  frames_delivered (stream_of log) = frames_produced (stream_of log).
Proof.
  cbv zeta. pose proof (run_log_inv sid ops) as Hinv. generalize dependent (run_log sid ops).
  intros log Hinv. unfold is_fully_delivered, stream_of. simpl.
  pose proof (durable_last_end log) as Hde. rewrite <- (inv_produced _ Hinv) in Hde.
  destruct (cursor_end_of_stream log) as [e|] eqn:Ee; [|naive_solver].
  destruct (inv_end _ Hinv e Ee) as [Hp _]. rewrite Hp in *. simpl in *.
  rewrite andb_true_iff, bool_decide_eq_true. split.
  - intros [-> _]. done.
  - intros [_ Hd].
    destruct (segments log) as [|s l] eqn:Es.
    + split; [|done]. simpl in Hde. unfold acknowledged_through in *.
      destruct (last_acknowledgement log) as [a|] eqn:Ela; simpl in *; [f_equal; lia|].
      pose proof (inv_produced _ Hinv) as Hp'. unfold durable_last in Hp'.
      rewrite Es, Ela, Hp in Hp'. done.
    + pose proof (chain_end_lt _ _ (inv_chain _ Hinv)) as Hlt. rewrite Es in Hlt.
      specialize (Hlt ltac:(done)). lia.
Qed.

(** The outbound operation cursor accepts exactly the consecutive
    sequence numbers that follow its position, whatever requests arrive, and
    its position is the last number accepted. *)
Lemma outbound_operations_are_contiguous (cursor : OutboundOperationCursor)
    (requests : list OutboundOperationSequence) :
  let accepted := outbound_accepted cursor requests in
  accepted = seqZ (outbound_count cursor + 1) (Z.of_nat (length accepted)).
Proof.
  cbv zeta. revert cursor. induction requests as [|r rest IH]; intros cursor; simpl; [done|].
  destruct (outbound_advance cursor r) as [next|] eqn:Ea; [|apply IH].
  apply outbound_advance_Ok in Ea as [Hr ->]. rewrite seqZ_cons by (simpl; lia).
  f_equal; [done|]. etrans; [apply IH|].
  change (outbound_count (MkOutboundOperationCursor (Some r))) with (bget r).
  f_equal; [lia|]. rewrite length_cons. lia.
Qed.

(** ** Witnesses *)







