(* ===== verification/Saga.v ===== *)
(** * Saga: provider and endpoint operations of one execution slot

    Models [crates/automata-ci-runner-journal/src/model/provider.rs] and
    [endpoint.rs] with the provider recovery state of [state.rs]: the
    write-ahead record of sandbox mutations, its compaction and replay, and the
    linearisation record of one execution-endpoint operation with the space it
    is charged.

    An operation's intent is durable before the external call; its outcome is
    recorded afterwards. Replaying the record gives what is known of the
    sandbox. *)

From S2P Require Import Prelude Text Execution Capability Log JournalBase.

(** ** Provider identities *)

Definition MAX_PROVIDER_NAME_BYTES : Z := 64.
Definition MAX_SANDBOX_HANDLE_BYTES : Z := 192.

Abbreviation ProviderName := (list Z) (only parsing).
Abbreviation SandboxHandle := (list Z) (only parsing).

Definition provider_name_byte (byte : Z) : bool :=
  is_ascii_lowercase byte || is_ascii_digit byte || str_contains (lit "._-") byte.

Definition provider_name_new (value : str) : result JournalInvariantError ProviderName :=
  let valid :=
    negb (str_is_empty value) && (str_len value <=? MAX_PROVIDER_NAME_BYTES) &&
    match as_bytes value with
    | byte :: _ => is_ascii_lowercase byte || is_ascii_digit byte
    | [] => false
    end &&
    forallb provider_name_byte (as_bytes value) in
  if valid then Ok value else Err InvalidProviderName.

Definition sandbox_handle_byte (byte : Z) : bool :=
  is_ascii_alphanumeric byte || str_contains (lit "._:-") byte.

Definition sandbox_handle_new (value : str) : result JournalInvariantError SandboxHandle :=
  let valid :=
    negb (str_is_empty value) && (str_len value <=? MAX_SANDBOX_HANDLE_BYTES) &&
    forallb sandbox_handle_byte (as_bytes value) in
  if valid then Ok value else Err InvalidSandboxHandle.

Record SandboxIdentity := MkSandboxIdentity {
  sandbox_provider : ProviderName;
  sandbox_handle : SandboxHandle;
}.

#[export] Instance sandbox_identity_eq_dec : EqDecision SandboxIdentity.
Proof. solve_decision. Defined.

(** ** Provider operations *)

Inductive ProviderFailureKind :=
| InvalidRequest | Unsupported | PermissionDenied | ResourceExhausted | NotFound | Conflict
| Unavailable | ProviderTimedOut | Internal.

#[export] Instance provider_failure_kind_eq_dec : EqDecision ProviderFailureKind.
Proof. solve_decision. Defined.

Inductive ProviderFailureOutcome :=
| KnownNoEffect (kind : ProviderFailureKind)
| Uncertain (kind : ProviderFailureKind).

#[export] Instance provider_failure_outcome_eq_dec : EqDecision ProviderFailureOutcome.
Proof. solve_decision. Defined.

Definition failure_is_uncertain (self : ProviderFailureOutcome) : bool :=
  match self with Uncertain _ => true | KnownNoEffect _ => false end.

Inductive ProviderOperationOutcome :=
| OutcomePending
| OutcomeApplied
| OutcomeFailed (failure : ProviderFailureOutcome).

#[export] Instance provider_operation_outcome_eq_dec : EqDecision ProviderOperationOutcome.
Proof. solve_decision. Defined.

Definition outcome_is_pending (self : ProviderOperationOutcome) : bool :=
  match self with
  | OutcomePending | OutcomeFailed (Uncertain _) => true
  | _ => false
  end.

Record ProviderOperation := MkProviderOperation {
  provider_operation_id : OperationId;
  provider_kind : ProviderOperationKind;
  provider_outcome : ProviderOperationOutcome;
}.

#[export] Instance provider_operation_eq_dec : EqDecision ProviderOperation.
Proof. solve_decision. Defined.

Definition provider_intent (operation_id : OperationId) (kind : ProviderOperationKind) :
    ProviderOperation :=
  MkProviderOperation operation_id kind OutcomePending.

Definition provider_is_pending (self : ProviderOperation) : bool :=
  outcome_is_pending (provider_outcome self).

Definition set_provider_outcome (outcome : ProviderOperationOutcome) (self : ProviderOperation) :
    ProviderOperation :=
  MkProviderOperation (provider_operation_id self) (provider_kind self) outcome.

Definition mark_applied (self : ProviderOperation) :
    result JournalInvariantError (ProviderOperation * bool) :=
  match provider_outcome self with
  | OutcomeApplied => Ok (self, false)
  | OutcomePending | OutcomeFailed (Uncertain _) =>
      Ok (set_provider_outcome OutcomeApplied self, true)
  | OutcomeFailed (KnownNoEffect _) => Err ProviderOperationReplayConflict
  end.

Definition resolve_failure (self : ProviderOperation) (failure : ProviderFailureOutcome) :
    result JournalInvariantError (ProviderOperation * bool) :=
  match provider_outcome self with
  | OutcomePending => Ok (set_provider_outcome (OutcomeFailed failure) self, true)
  | OutcomeFailed existing =>
      if bool_decide (existing = failure) then Ok (self, false)
      else if failure_is_uncertain existing && negb (failure_is_uncertain failure) then
        Ok (set_provider_outcome (OutcomeFailed failure) self, true)
      else Err ProviderOperationReplayConflict
  | OutcomeApplied => Err ProviderOperationReplayConflict
  end.

(** ** Recovery ([state.rs]) *)

Record ProviderRecoveryState := MkRecovery {
  compacted_operations : Z;
  sandbox_was_created : bool;
  sandbox_live : bool;
  running : bool;
}.

Definition recovery_default : ProviderRecoveryState := MkRecovery 0 false false false.

Definition can_begin (self : ProviderRecoveryState) (kind : ProviderOperationKind) : bool :=
  match kind with
  | CreateSandbox => negb (sandbox_was_created self) && negb (sandbox_live self)
  | StartSandbox => sandbox_live self && negb (running self)
  | StopSandbox => sandbox_live self && running self
  | DestroySandbox => sandbox_live self
  end.

(** The effect of a confirmed operation. *)
Definition confirm (self : ProviderRecoveryState) (kind : ProviderOperationKind) :
    ProviderRecoveryState :=
  match kind with
  | CreateSandbox => MkRecovery (compacted_operations self) true true (running self)
  | StartSandbox =>
      MkRecovery (compacted_operations self) (sandbox_was_created self) (sandbox_live self) true
  | StopSandbox =>
      MkRecovery (compacted_operations self) (sandbox_was_created self) (sandbox_live self) false
  | DestroySandbox =>
      MkRecovery (compacted_operations self) (sandbox_was_created self) false false
  end.

Definition recovery_apply (self : ProviderRecoveryState) (operation : ProviderOperation) :
    result JournalInvariantError ProviderRecoveryState :=
  if negb (can_begin self (provider_kind operation)) then Err DecodedStateInvalid
  else if negb (bool_decide (provider_outcome operation = OutcomeApplied)) then Ok self
  else Ok (confirm self (provider_kind operation)).

Definition recovery_compact (self : ProviderRecoveryState) (operation : ProviderOperation) :
    result JournalInvariantError ProviderRecoveryState :=
  if provider_is_pending operation then Err ProviderOperationPending
  else
    next ← recovery_apply self operation;
    count ← ok_or (checked_add u64_max (compacted_operations next) 1) CounterExhausted;
    Ok (MkRecovery count (sandbox_was_created next) (sandbox_live next) (running next)).

Definition recovery_is_coherent (self : ProviderRecoveryState) : bool :=
  if compacted_operations self =? 0 then
    negb (sandbox_was_created self) && negb (sandbox_live self) && negb (running self)
  else
    (negb (running self) || sandbox_live self) &&
    (negb (sandbox_live self) || sandbox_was_created self).

(** The loop of [replay_provider_operations]; [index + 1 != len] is that more
    operations follow. *)
Fixpoint replay_from (ids : BTreeSet OperationId) (recovery : ProviderRecoveryState)
    (l : list ProviderOperation) : result JournalInvariantError ProviderRecoveryState :=
  match l with
  | [] => Ok recovery
  | operation :: rest =>
      if bset_contains ids (provider_operation_id operation) ||
         (provider_is_pending operation && match rest with [] => false | _ => true end)
      then Err DecodedStateInvalid
      else
        recovery ← recovery_apply recovery operation;
        replay_from (bset_insert (provider_operation_id operation) ids) recovery rest
  end.

Definition replay_provider_operations (checkpoint : ProviderRecoveryState)
    (provider_operations : list ProviderOperation) :
    result JournalInvariantError ProviderRecoveryState :=
  replay_from bset_empty checkpoint provider_operations.

(** ** Endpoint operations ([endpoint.rs]) *)

Definition MAX_CONTENT_OBJECT_BYTES : Z := 256 * 1024 * 1024.
Definition ENDPOINT_RESULT_ALLOCATION_GRANULE_BYTES : Z := 64 * 1024.
Definition ENDPOINT_RESULT_PROTECTED_ENVELOPE_BYTES : Z := 76.

Inductive SpoolInvariantError := ObjectTooLarge.

Definition endpoint_result_allocation (plaintext_bytes : Z) : result SpoolInvariantError Z :=
  if MAX_CONTENT_OBJECT_BYTES <? plaintext_bytes then Err ObjectTooLarge
  else
    required ← ok_or (checked_add u64_max plaintext_bytes
                        ENDPOINT_RESULT_PROTECTED_ENVELOPE_BYTES) ObjectTooLarge;
    rounded ← ok_or (checked_add u64_max required
                       (ENDPOINT_RESULT_ALLOCATION_GRANULE_BYTES - 1)) ObjectTooLarge;
    ok_or (checked_mul u64_max (rounded / ENDPOINT_RESULT_ALLOCATION_GRANULE_BYTES)
             ENDPOINT_RESULT_ALLOCATION_GRANULE_BYTES) ObjectTooLarge.

Definition MAX_LOGICAL_STEPS : Z := 2048.
Definition ENDPOINT_OPERATIONS_PER_RUN_STEP : Z := 15.
Definition ENDPOINT_JOB_SETUP_OPERATIONS : Z := 2.
Definition MAX_ENDPOINT_OPERATIONS_PER_JOB : Z :=
  MAX_LOGICAL_STEPS * ENDPOINT_OPERATIONS_PER_RUN_STEP + ENDPOINT_JOB_SETUP_OPERATIONS.
Definition MAX_ENDPOINT_CONTENT_REFS_PER_SLOT : Z := MAX_ENDPOINT_OPERATIONS_PER_JOB * 2.
Definition MAX_ENDPOINT_RESULT_CONTENT_BYTES : Z := 17 * 1024 * 1024.
Definition ENDPOINT_REQUEST_COMMITMENT_BYTES : Z := 32.

(** The constant is only used where the allocation exists. *)
Definition endpoint_result_allocation_or_panic (plaintext_bytes : Z) : Z :=
  match endpoint_result_allocation plaintext_bytes with Ok bytes => bytes | Err _ => 0 end.

Definition MIN_ENDPOINT_RESULT_ALLOCATION_BYTES : Z := endpoint_result_allocation_or_panic 1.
Definition MAX_ENDPOINT_RESULT_ALLOCATION_BYTES : Z :=
  endpoint_result_allocation_or_panic MAX_ENDPOINT_RESULT_CONTENT_BYTES.
Definition MAX_ENDPOINT_CONTENT_BYTES_PER_SLOT : Z :=
  ENDPOINT_REQUEST_COMMITMENT_BYTES * MAX_ENDPOINT_OPERATIONS_PER_JOB +
  MIN_ENDPOINT_RESULT_ALLOCATION_BYTES * (MAX_ENDPOINT_OPERATIONS_PER_JOB - 1) +
  MAX_ENDPOINT_RESULT_ALLOCATION_BYTES.

Inductive EndpointOperationKind := Exec | Signal | Wait | CopyTo | CopyFrom.

#[export] Instance endpoint_operation_kind_eq_dec : EqDecision EndpointOperationKind.
Proof. solve_decision. Defined.

Record EndpointRequestContentRef := MkEndpointRequest { request_content : DurableContentRef }.

#[export] Instance endpoint_request_content_ref_eq_dec : EqDecision EndpointRequestContentRef.
Proof. solve_decision. Defined.

Record EndpointResultContentRef := MkEndpointResult { endpoint_result_content : DurableContentRef }.

#[export] Instance endpoint_result_content_ref_eq_dec : EqDecision EndpointResultContentRef.
Proof. solve_decision. Defined.

Definition endpoint_request_validate (self : EndpointRequestContentRef) :
    result JournalInvariantError unit :=
  if negb (bool_decide (content_kind (request_content self) = EndpointRequest)) ||
     negb (bool_decide (public_plaintext_bytes (request_content self) =
                        Some ENDPOINT_REQUEST_COMMITMENT_BYTES))
  then Err InvalidEndpointRequestContent else Ok tt.

Definition endpoint_result_validate (self : EndpointResultContentRef) :
    result JournalInvariantError unit :=
  let allocation := endpoint_result_allocation_bytes (endpoint_result_content self) in
  if negb (bool_decide (content_kind (endpoint_result_content self) = EndpointResult)) ||
     match allocation with
     | None => true
     | Some bytes =>
         negb ((MIN_ENDPOINT_RESULT_ALLOCATION_BYTES <=? bytes) &&
               (bytes <=? MAX_ENDPOINT_RESULT_ALLOCATION_BYTES))
     end
  then Err InvalidEndpointResultContent else Ok tt.

Inductive EndpointOperationState :=
| EndpointAccepted
| InvocationCommitted
| CancellationRequested
| EndpointCancelled
| EndpointAbandoned
| EndpointCompleted (endpoint_result : EndpointResultContentRef).

#[export] Instance endpoint_operation_state_eq_dec : EqDecision EndpointOperationState.
Proof. solve_decision. Defined.

Record EndpointOperation := MkEndpointOperation {
  endpoint_operation_id : OperationId;
  endpoint_kind : EndpointOperationKind;
  endpoint_request : EndpointRequestContentRef;
  reserved_result_bytes : Bounded 0 u64_max;
  endpoint_state : EndpointOperationState;
}.

#[export] Instance endpoint_operation_eq_dec : EqDecision EndpointOperation.
Proof. solve_decision. Defined.

Definition endpoint_accepted (operation_id : OperationId) (kind : EndpointOperationKind)
    (request : EndpointRequestContentRef) (reserved : Bounded 0 u64_max) :
    result JournalInvariantError EndpointOperation :=
  _ ← endpoint_request_validate request;
  if (bget reserved =? 0) || (MAX_ENDPOINT_RESULT_CONTENT_BYTES <? bget reserved) then
    Err InvalidEndpointResultReservation
  else Ok (MkEndpointOperation operation_id kind request reserved EndpointAccepted).

Definition set_endpoint_state (state : EndpointOperationState) (self : EndpointOperation) :
    EndpointOperation :=
  MkEndpointOperation (endpoint_operation_id self) (endpoint_kind self) (endpoint_request self)
    (reserved_result_bytes self) state.

Definition state_is_recovery_pending (state : EndpointOperationState) : bool :=
  match state with
  | EndpointAccepted | InvocationCommitted | CancellationRequested => true
  | _ => false
  end.

Definition is_recovery_pending (self : EndpointOperation) : bool :=
  state_is_recovery_pending (endpoint_state self).

Definition accounted_content_bytes (self : EndpointOperation) : result JournalInvariantError Z :=
  result_bytes ←
    match endpoint_state self with
    | EndpointAccepted | InvocationCommitted | CancellationRequested =>
        map_err (λ _, InvalidEndpointResultReservation)
          (endpoint_result_allocation (bget (reserved_result_bytes self)))
    | EndpointCompleted result =>
        ok_or (endpoint_result_allocation_bytes (endpoint_result_content result))
          InvalidEndpointResultContent
    | EndpointCancelled | EndpointAbandoned => Ok 0
    end;
  ok_or (checked_add u64_max ENDPOINT_REQUEST_COMMITMENT_BYTES result_bytes) DecodedStateInvalid.

Definition accounted_content_refs (self : EndpointOperation) : Z :=
  match endpoint_state self with
  | EndpointCancelled | EndpointAbandoned => 1
  | _ => 2
  end.

Definition matches_acceptance (self candidate : EndpointOperation) : bool :=
  (endpoint_operation_id self =? endpoint_operation_id candidate) &&
  bool_decide (endpoint_kind self = endpoint_kind candidate) &&
  bool_decide (endpoint_request self = endpoint_request candidate) &&
  bool_decide (reserved_result_bytes self = reserved_result_bytes candidate).

Definition commit_invocation (self : EndpointOperation) :
    result JournalInvariantError (EndpointOperation * bool) :=
  match endpoint_state self with
  | EndpointAccepted => Ok (set_endpoint_state InvocationCommitted self, true)
  | InvocationCommitted => Ok (self, false)
  | CancellationRequested | EndpointCancelled => Err EndpointOperationCancelled
  | EndpointAbandoned | EndpointCompleted _ => Err EndpointOperationResolved
  end.

Definition request_cancellation (self : EndpointOperation) : EndpointOperation * bool :=
  match endpoint_state self with
  | EndpointAccepted => (set_endpoint_state EndpointCancelled self, true)
  | InvocationCommitted => (set_endpoint_state CancellationRequested self, true)
  | _ => (self, false)
  end.

Definition complete_cancellation (self : EndpointOperation) :
    result JournalInvariantError (EndpointOperation * bool) :=
  match endpoint_state self with
  | CancellationRequested => Ok (set_endpoint_state EndpointCancelled self, true)
  | EndpointCancelled => Ok (self, false)
  | _ => Err EndpointCancellationNotRequested
  end.

Definition abandon_endpoint (self : EndpointOperation) :
    result JournalInvariantError (EndpointOperation * bool) :=
  match endpoint_state self with
  | InvocationCommitted | CancellationRequested =>
      Ok (set_endpoint_state EndpointAbandoned self, true)
  | EndpointAbandoned => Ok (self, false)
  | _ => Err EndpointOperationNotAbandonable
  end.

Definition record_result (self : EndpointOperation) (result : EndpointResultContentRef) :
    Prelude.result JournalInvariantError (EndpointOperation * bool) :=
  _ ← endpoint_result_validate result;
  reserved_allocation ← map_err (λ _, InvalidEndpointResultReservation)
    (endpoint_result_allocation (bget (reserved_result_bytes self)));
  if reserved_allocation <? accounted_bytes (endpoint_result_content result) then
    Err EndpointResultExceedsReservation
  else
    match endpoint_state self with
    | InvocationCommitted => Ok (set_endpoint_state (EndpointCompleted result) self, true)
    | EndpointCompleted existing =>
        if bool_decide (existing = result) then Ok (self, false)
        else Err EndpointResultReplayConflict
    | CancellationRequested | EndpointCancelled | EndpointAbandoned =>
        Err EndpointOperationCancelled
    | EndpointAccepted => Err EndpointInvocationNotCommitted
    end.

Definition endpoint_operation_validate (self : EndpointOperation) :
    result JournalInvariantError unit :=
  _ ← endpoint_request_validate (endpoint_request self);
  if (bget (reserved_result_bytes self) =? 0) ||
     (MAX_ENDPOINT_RESULT_CONTENT_BYTES <? bget (reserved_result_bytes self))
  then Err DecodedStateInvalid
  else
    _ ← match endpoint_state self with
        | EndpointCompleted result =>
            _ ← endpoint_result_validate result;
            reserved_allocation ← map_err (λ _, DecodedStateInvalid)
              (endpoint_result_allocation (bget (reserved_result_bytes self)));
            reject (reserved_allocation <? accounted_bytes (endpoint_result_content result))
              DecodedStateInvalid
        | _ => Ok tt
        end;
    bytes ← accounted_content_bytes self;
    _ ← ok_or (checked_sub bytes ENDPOINT_REQUEST_COMMITMENT_BYTES) DecodedStateInvalid;
    Ok tt.

(** ** Replay lemmas *)

Definition set_count (n : Z) (r : ProviderRecoveryState) : ProviderRecoveryState :=
  MkRecovery n (sandbox_was_created r) (sandbox_live r) (running r).

(** What the states of a saga satisfy: a running sandbox is live, a live one
    was created. *)
Definition recovery_ok (r : ProviderRecoveryState) : Prop :=
  (running r = true → sandbox_live r = true) ∧
  (sandbox_live r = true → sandbox_was_created r = true).

Lemma recovery_is_coherent_ok (r : ProviderRecoveryState) :
  recovery_is_coherent r = true → recovery_ok r.
Proof.
  unfold recovery_is_coherent, recovery_ok. destruct r as [n [] [] []]; simpl;
    destruct (n =? 0); intros; split; done || congruence.
Qed.

Lemma recovery_apply_Ok (r r' : ProviderRecoveryState) (op : ProviderOperation) :
  recovery_apply r op = Ok r' ↔
  can_begin r (provider_kind op) = true ∧
  r' = (if bool_decide (provider_outcome op = OutcomeApplied) then confirm r (provider_kind op)
        else r).
Proof.
  unfold recovery_apply. destruct (can_begin _ _); simpl; [|naive_solver].
  case_bool_decide; simpl; naive_solver.
Qed.

Lemma recovery_apply_recovery_ok (r r' : ProviderRecoveryState) (op : ProviderOperation) :
  recovery_ok r → recovery_apply r op = Ok r' → recovery_ok r'.
Proof.
  intros Hr [Hb ->]%recovery_apply_Ok. case_bool_decide; [|done].
  unfold recovery_ok, can_begin in *. destruct r as [n [] [] []], (provider_kind op); naive_solver.
Qed.

Lemma recovery_apply_count (n : Z) (r r' : ProviderRecoveryState) (op : ProviderOperation) :
  recovery_apply r op = Ok r' → recovery_apply (set_count n r) op = Ok (set_count n r').
Proof.
  rewrite !recovery_apply_Ok. intros [Hb ->]. split; [by destruct (provider_kind op)|].
  case_bool_decide; [|done]. by destruct (provider_kind op).
Qed.

Lemma recovery_apply_frame (r r' : ProviderRecoveryState) (op : ProviderOperation) :
  recovery_apply r op = Ok r' →
  compacted_operations r' = compacted_operations r ∧
  (sandbox_was_created r = true → sandbox_was_created r' = true).
Proof.
  intros [Hb ->]%recovery_apply_Ok. case_bool_decide; [|done]. by destruct (provider_kind op).
Qed.

Lemma replay_from_cons (ids : BTreeSet OperationId) (r r' : ProviderRecoveryState)
    (op : ProviderOperation) (l : list ProviderOperation) :
  replay_from ids r (op :: l) = Ok r' ↔
  ¬ provider_operation_id op ∈ ids ∧ (l ≠ [] → provider_is_pending op = false) ∧
  ∃ m, recovery_apply r op = Ok m ∧
       replay_from (bset_insert (provider_operation_id op) ids) m l = Ok r'.
Proof.
  simpl. rewrite <- bset_contains_spec.
  destruct (bset_contains _ _); simpl; [naive_solver|].
  destruct (recovery_apply r op); simpl; destruct (provider_is_pending op), l; simpl; naive_solver.
Qed.

Lemma replay_from_snoc (ids : BTreeSet OperationId) (r r' : ProviderRecoveryState)
    (op : ProviderOperation) (l : list ProviderOperation) :
  replay_from ids r (l ++ [op]) = Ok r' ↔
  (∀ o, o ∈ l → provider_is_pending o = false) ∧
  ¬ provider_operation_id op ∈ ids ∧
  (provider_operation_id op ∉ (provider_operation_id <$> l)) ∧
  ∃ m, replay_from ids r l = Ok m ∧ recovery_apply m op = Ok r'.
Proof.
  revert ids r. induction l as [|o l IH]; intros ids r.
  - change ([] ++ [op]) with [op]. rewrite replay_from_cons. simpl. split.
    + intros (Hi & _ & m & Hm & [= <-]). repeat split; [set_solver|done|set_solver|].
      eexists. split; [done|]. exact Hm.
    + intros (_ & Hi & _ & m & [= <-] & Hm). repeat split; [done..|]. eauto.
  - change ((o :: l) ++ [op]) with (o :: (l ++ [op])).
    rewrite replay_from_cons. setoid_rewrite IH. rewrite fmap_cons.
    setoid_rewrite replay_from_cons. setoid_rewrite elem_of_bset_insert. split.
    + intros (Ho & Hpo & m & Hm & Hp & Hi & Hn & m' & Hm' & Hr).
      split_and!; [| |intros [?|?]%elem_of_cons; eauto|].
      * intros o' [->|?]%elem_of_cons; [|eauto]. apply Hpo. by destruct l.
      * eauto.
      * exists m'. split; [|done]. split; [done|]. split; [|eauto].
        intros Hl. apply Hpo. by destruct l.
    + intros (Hp & Hi & [Hno Hn]%not_elem_of_cons & m' & (Ho & Hpo & m & Hm & Hl) & Hr).
      split; [done|]. split; [intros _; apply Hp; set_solver|].
      exists m. split; [done|]. split; [set_solver|]. split; [naive_solver|].
      split; [done|]. eauto.
Qed.

Lemma replay_from_ids (ids ids' : BTreeSet OperationId) (r r' : ProviderRecoveryState)
    (l : list ProviderOperation) :
  (∀ i, i ∈ ids' → i ∈ ids) → replay_from ids r l = Ok r' → replay_from ids' r l = Ok r'.
Proof.
  revert ids ids' r. induction l as [|o l IH]; intros ids ids' r Hsub; [done|].
  rewrite !replay_from_cons. intros (Ho & Hp & m & Hm & Hl).
  split; [naive_solver|]. split; [done|]. exists m. split; [done|].
  eapply IH; [|done]. intros i. rewrite !elem_of_bset_insert. naive_solver.
Qed.

Lemma replay_from_count (n : Z) (ids : BTreeSet OperationId) (r r' : ProviderRecoveryState)
    (l : list ProviderOperation) :
  replay_from ids r l = Ok r' → replay_from ids (set_count n r) l = Ok (set_count n r').
Proof.
  revert ids r. induction l as [|o l IH]; intros ids r; [by intros [= ->]|].
  rewrite !replay_from_cons. intros (Ho & Hp & m & Hm & Hl).
  split; [done|]. split; [done|]. exists (set_count n m).
  split; [by apply recovery_apply_count|eauto].
Qed.

Lemma replay_from_facts (ids : BTreeSet OperationId) (r r' : ProviderRecoveryState)
    (l : list ProviderOperation) :
  replay_from ids r l = Ok r' →
  compacted_operations r' = compacted_operations r ∧
  (sandbox_was_created r = true → sandbox_was_created r' = true) ∧
  (recovery_ok r → recovery_ok r').
Proof.
  revert ids r. induction l as [|o l IH]; intros ids r; [by intros [= ->]|].
  rewrite replay_from_cons. intros (_ & _ & m & Hm & Hl).
  apply IH in Hl as (Hc & Hw & Hok). destruct (recovery_apply_frame _ _ _ Hm) as [Hc' Hw'].
  split; [congruence|]. split; [eauto|]. intros Hr. apply Hok.
  by eapply recovery_apply_recovery_ok.
Qed.

(** Compacting the oldest resolved operation changes the count only: what is
    known of the sandbox is the same. *)
Lemma replay_compact (c c' r : ProviderRecoveryState) (op : ProviderOperation)
    (l : list ProviderOperation) :
  replay_provider_operations c (op :: l) = Ok r → recovery_compact c op = Ok c' →
  replay_provider_operations c' l = Ok (set_count (compacted_operations c + 1) r) ∧
  compacted_operations c' = compacted_operations c + 1.
Proof.
  unfold replay_provider_operations, recovery_compact. rewrite replay_from_cons.
  intros (_ & _ & m & Hm & Hl) Hc. destruct (provider_is_pending op); [done|].
  rewrite Hm in Hc. simpl in Hc. destruct (recovery_apply_frame _ _ _ Hm) as [Hcm _].
  rewrite Hcm in Hc. destruct (checked_add _ _ _) as [n|] eqn:Hn; [|done].
  apply checked_add_Some in Hn as [-> _]. injection Hc as <-. split; [|done].
  eapply (replay_from_count (compacted_operations c + 1)) in Hl.
  eapply replay_from_ids; [|exact Hl]. intros i []%not_elem_of_bset_empty.
Qed.

Lemma recovery_compact_coherent (c c' : ProviderRecoveryState) (op : ProviderOperation) :
  0 <= compacted_operations c → recovery_is_coherent c = true → recovery_compact c op = Ok c' →
  recovery_is_coherent c' = true ∧ 0 <= compacted_operations c' <= u64_max.
Proof.
  intros H0 Hc. apply recovery_is_coherent_ok in Hc. unfold recovery_compact.
  destruct (provider_is_pending op); [done|].
  destruct (recovery_apply c op) as [m|] eqn:Hm; simpl; [|done].
  destruct (recovery_apply_frame _ _ _ Hm) as [Hcm _].
  destruct (checked_add _ _ _) as [n|] eqn:Hn; [|done]. intros [= <-]. simpl.
  apply checked_add_Some in Hn as [-> Hn]. rewrite Hcm in *. split; [|lia].
  pose proof (recovery_apply_recovery_ok _ _ _ Hc Hm) as [Hr Hl].
  unfold recovery_is_coherent. simpl. destruct (Z.eqb_spec (compacted_operations c + 1) 0); [lia|].
  destruct (sandbox_was_created m), (sandbox_live m), (running m); naive_solver.
Qed.

(** ** Endpoint lemmas *)

(** The allocation of a non-empty result is a positive number of granules that
    holds the result and its envelope. *)
Lemma endpoint_result_allocation_Ok (n a : Z) :
  0 <= n → endpoint_result_allocation n = Ok a →
  n + ENDPOINT_RESULT_PROTECTED_ENVELOPE_BYTES <= a <
    n + ENDPOINT_RESULT_PROTECTED_ENVELOPE_BYTES + ENDPOINT_RESULT_ALLOCATION_GRANULE_BYTES ∧
  a mod ENDPOINT_RESULT_ALLOCATION_GRANULE_BYTES = 0.
Proof.
  unfold endpoint_result_allocation. intros H0 H. unfold_monad.
  destruct (_ <? n); [done|].
  destruct (checked_add u64_max n _) as [q|] eqn:Hq; [|done].
  apply checked_add_Some in Hq as [-> _].
  destruct (checked_add _ _ (_ - 1)) as [m|] eqn:Hm; [|done].
  apply checked_add_Some in Hm as [-> _].
  destruct (checked_mul _ _ _) as [x|] eqn:Hx; [|done].
  apply checked_mul_Some in Hx as [-> _]. injection H as <-.
  unfold ENDPOINT_RESULT_PROTECTED_ENVELOPE_BYTES, ENDPOINT_RESULT_ALLOCATION_GRANULE_BYTES.
  split; [|apply Z_mod_mult]. pose proof (Z.div_mod (n + 76 + (64 * 1024 - 1)) (64 * 1024)).
  pose proof (Z.mod_pos_bound (n + 76 + (64 * 1024 - 1)) (64 * 1024)). lia.
Qed.

Lemma endpoint_result_allocation_total (n : Z) :
  0 <= n <= MAX_CONTENT_OBJECT_BYTES → ∃ a, endpoint_result_allocation n = Ok a.
Proof.
  intros H. unfold endpoint_result_allocation.
  destruct (Z.ltb_spec MAX_CONTENT_OBJECT_BYTES n); [lia|].
  unfold MAX_CONTENT_OBJECT_BYTES, ENDPOINT_RESULT_PROTECTED_ENVELOPE_BYTES,
    ENDPOINT_RESULT_ALLOCATION_GRANULE_BYTES in *.
  rewrite (proj2 (checked_add_Some _ _ _ (n + 76))) by (unfold u64_max; lia). cbn [ok_or mbind result_bind].
  rewrite (proj2 (checked_add_Some _ _ _ (n + 76 + (64 * 1024 - 1)))) by (unfold u64_max; lia).
  cbn [ok_or mbind result_bind]. set (q := (n + 76 + (64 * 1024 - 1)) / (64 * 1024)).
  pose proof (Z.div_mod (n + 76 + (64 * 1024 - 1)) (64 * 1024)).
  pose proof (Z.mod_pos_bound (n + 76 + (64 * 1024 - 1)) (64 * 1024)).
  rewrite (proj2 (checked_mul_Some _ _ _ (q * (64 * 1024)))) by (unfold u64_max, q; lia).
  by eexists.
Qed.

(** What a valid operation satisfies: it is charged for its request and at most
    the allocation it reserved. *)
Record endpoint_facts (op : EndpointOperation) (reserved bytes : Z) : Prop := {
  ef_request : endpoint_request_validate (endpoint_request op) = Ok tt;
  ef_reserved : 0 < bget (reserved_result_bytes op) <= MAX_ENDPOINT_RESULT_CONTENT_BYTES;
  ef_allocation : endpoint_result_allocation (bget (reserved_result_bytes op)) = Ok reserved;
  ef_bytes : accounted_content_bytes op = Ok bytes;
  ef_range : ENDPOINT_REQUEST_COMMITMENT_BYTES <= bytes <=
    ENDPOINT_REQUEST_COMMITMENT_BYTES + reserved;
  ef_result : ∀ r, endpoint_state op = EndpointCompleted r →
    endpoint_result_validate r = Ok tt ∧ accounted_bytes (endpoint_result_content r) <= reserved;
}.

(** The bytes an operation is charged, given the allocation it reserved. *)
Definition charged (reserved : Z) (state : EndpointOperationState) : Z :=
  ENDPOINT_REQUEST_COMMITMENT_BYTES +
  match state with
  | EndpointAccepted | InvocationCommitted | CancellationRequested => reserved
  | EndpointCompleted r => accounted_bytes (endpoint_result_content r)
  | EndpointCancelled | EndpointAbandoned => 0
  end.

Lemma endpoint_result_validate_Ok (r : EndpointResultContentRef) :
  endpoint_result_validate r = Ok tt →
  endpoint_result_allocation_bytes (endpoint_result_content r) =
    Some (accounted_bytes (endpoint_result_content r)).
Proof.
  unfold endpoint_result_validate, endpoint_result_allocation_bytes, accounted_bytes.
  destruct (content_identity _); [|done]. by rewrite orb_true_r.
Qed.

Lemma max_allocation_small (n a : Z) :
  0 <= n <= MAX_ENDPOINT_RESULT_CONTENT_BYTES → endpoint_result_allocation n = Ok a →
  0 < a /\ ENDPOINT_REQUEST_COMMITMENT_BYTES + a <= u64_max.
Proof.
  intros Hn [Ha _]%endpoint_result_allocation_Ok; [|lia].
  unfold MAX_ENDPOINT_RESULT_CONTENT_BYTES, ENDPOINT_RESULT_PROTECTED_ENVELOPE_BYTES,
    ENDPOINT_RESULT_ALLOCATION_GRANULE_BYTES, ENDPOINT_REQUEST_COMMITMENT_BYTES, u64_max in *.
  lia.
Qed.

Lemma endpoint_operation_validate_iff (op : EndpointOperation) :
  endpoint_operation_validate op = Ok tt ↔
  ∃ reserved, endpoint_facts op reserved (charged reserved (endpoint_state op)).
Proof.
  split.
  - intros H. unfold endpoint_operation_validate in H.
    destruct (endpoint_request_validate _) as [[]|] eqn:Hreq; simpl in H; [|done].
    pose proof (bounded_range (reserved_result_bytes op)) as Hrng.
    destruct (Z.eqb_spec (bget (reserved_result_bytes op)) 0) as [|Hnz]; simpl in H; [done|].
    destruct (Z.ltb_spec MAX_ENDPOINT_RESULT_CONTENT_BYTES (bget (reserved_result_bytes op)))
      as [|Hmax]; [done|].
    destruct (endpoint_result_allocation_total (bget (reserved_result_bytes op))) as [a Ha].
    { unfold MAX_ENDPOINT_RESULT_CONTENT_BYTES, MAX_CONTENT_OBJECT_BYTES in *. lia. }
    destruct (max_allocation_small _ _ (conj (proj1 Hrng) Hmax) Ha) as [Ha0 Hau].
    exists a. rewrite Ha in H. simpl in H.
    assert (Hres : ∀ r, endpoint_state op = EndpointCompleted r →
      endpoint_result_validate r = Ok tt ∧ accounted_bytes (endpoint_result_content r) <= a).
    { intros r Hs. rewrite Hs in H. destruct (endpoint_result_validate r) as [[]|];
        simpl in H; [|done]. split; [done|]. unfold reject in H.
      destruct (Z.ltb_spec a (accounted_bytes (endpoint_result_content r))); [done|lia]. }
    assert (Hb : accounted_content_bytes op = Ok (charged a (endpoint_state op)) ∧
      ENDPOINT_REQUEST_COMMITMENT_BYTES <= charged a (endpoint_state op) <=
        ENDPOINT_REQUEST_COMMITMENT_BYTES + a).
    { unfold accounted_content_bytes, charged, checked_add. rewrite Ha. simpl.
      destruct (endpoint_state op) as [| | | | |r] eqn:Hs; simpl;
        try (destruct (Z.leb_spec (ENDPOINT_REQUEST_COMMITMENT_BYTES + a) u64_max);
             [split; [done|lia]|lia]);
        try (split; [done|lia]).
      destruct (Hres r eq_refl) as [Hv Hle]. rewrite (endpoint_result_validate_Ok _ Hv).
      simpl. pose proof (accounted_bytes_range (endpoint_result_content r)).
      destruct (Z.leb_spec (ENDPOINT_REQUEST_COMMITMENT_BYTES +
        accounted_bytes (endpoint_result_content r)) u64_max); [split; [done|lia]|lia]. }
    destruct Hb. constructor; [done|lia|done..].
  - intros [a [Hreq Hrs Ha Hb Hrange Hres]]. unfold endpoint_operation_validate.
    rewrite Hreq. simpl.
    destruct (Z.eqb_spec (bget (reserved_result_bytes op)) 0); [lia|].
    destruct (Z.ltb_spec MAX_ENDPOINT_RESULT_CONTENT_BYTES (bget (reserved_result_bytes op)));
      [lia|]. simpl. rewrite Ha, Hb. simpl.
    assert (Hsub : checked_sub (charged a (endpoint_state op)) ENDPOINT_REQUEST_COMMITMENT_BYTES =
      Some (charged a (endpoint_state op) - ENDPOINT_REQUEST_COMMITMENT_BYTES)).
    { apply checked_sub_Some. lia. }
    rewrite Hsub. simpl. destruct (endpoint_state op) as [| | | | |r] eqn:Hs; [done..|].
    destruct (Hres r eq_refl) as [Hv Hle]. rewrite Hv. simpl.
    unfold reject. destruct (Z.ltb_spec a (accounted_bytes (endpoint_result_content r))); [lia|].
    done.
Qed.

(** ** The moves of an endpoint operation *)

Inductive endpoint_request_op :=
| CommitInvocation
| RequestCancellation
| CompleteCancellation
| AbandonOperation
| RecordResult (r : EndpointResultContentRef).

Definition run_endpoint (request : endpoint_request_op) (op : EndpointOperation) :
    result JournalInvariantError (EndpointOperation * bool) :=
  match request with
  | CommitInvocation => commit_invocation op
  | RequestCancellation => Ok (request_cancellation op)
  | CompleteCancellation => complete_cancellation op
  | AbandonOperation => abandon_endpoint op
  | RecordResult r => record_result op r
  end.

(** Permission precedes the call, a result needs permission and nothing
    follows a resolution. *)
Inductive endpoint_move : EndpointOperationState → EndpointOperationState → Prop :=
| move_commit : endpoint_move EndpointAccepted InvocationCommitted
| move_cancel_accepted : endpoint_move EndpointAccepted EndpointCancelled
| move_request_cancel : endpoint_move InvocationCommitted CancellationRequested
| move_cancelled : endpoint_move CancellationRequested EndpointCancelled
| move_abandon_committed : endpoint_move InvocationCommitted EndpointAbandoned
| move_abandon_requested : endpoint_move CancellationRequested EndpointAbandoned
| move_complete (r : EndpointResultContentRef) :
    endpoint_move InvocationCommitted (EndpointCompleted r).

(** A request either moves the operation one step or, when repeated, leaves it
    alone. *)
Lemma run_endpoint_Ok (request : endpoint_request_op) (op op' : EndpointOperation) (b : bool) :
  run_endpoint request op = Ok (op', b) →
  if b then
    ∃ s, op' = set_endpoint_state s op ∧ endpoint_move (endpoint_state op) s ∧
      ∀ r reserved, s = EndpointCompleted r →
        endpoint_result_allocation (bget (reserved_result_bytes op)) = Ok reserved →
        endpoint_result_validate r = Ok tt ∧ accounted_bytes (endpoint_result_content r) <= reserved
  else op' = op.
Proof.
  destruct request as [| | | |r]; simpl; intros H;
    unfold commit_invocation, request_cancellation, complete_cancellation, abandon_endpoint,
      record_result in H.
  5: destruct (endpoint_result_validate r) as [[]|] eqn:Hv; simpl in H; [|done];
     destruct (endpoint_result_allocation _) as [a|] eqn:Ha; simpl in H; [|done];
     destruct (Z.ltb_spec a (accounted_bytes (endpoint_result_content r))); [done|].
  all: destruct (endpoint_state op) as [| | | | |r0] eqn:Hs; simplify_eq;
    try (case_bool_decide; simplify_eq); try done;
    eexists; (split; [done|]; split; [constructor|]); intros; simplify_eq; done.
Qed.

Lemma endpoint_move_charged (reserved : Z) (s s' : EndpointOperationState) :
  endpoint_move s s' → 0 <= reserved →
  (∀ r, s' = EndpointCompleted r → accounted_bytes (endpoint_result_content r) <= reserved) →
  ENDPOINT_REQUEST_COMMITMENT_BYTES <= charged reserved s' <= charged reserved s.
Proof.
  unfold charged. destruct 1; intros H0 Hr; try lia.
  pose proof (accounted_bytes_range (endpoint_result_content r)). specialize (Hr r eq_refl). lia.
Qed.

(** A move keeps a valid operation valid, frees space and never makes a
    resolved operation pending. *)
Lemma endpoint_move_validates (op : EndpointOperation) (s : EndpointOperationState) :
  endpoint_move (endpoint_state op) s →
  (∀ r reserved, s = EndpointCompleted r →
     endpoint_result_allocation (bget (reserved_result_bytes op)) = Ok reserved →
     endpoint_result_validate r = Ok tt ∧
     accounted_bytes (endpoint_result_content r) <= reserved) →
  endpoint_operation_validate op = Ok tt →
  endpoint_operation_validate (set_endpoint_state s op) = Ok tt ∧
  (∃ n n', accounted_content_bytes op = Ok n ∧
           accounted_content_bytes (set_endpoint_state s op) = Ok n' ∧ 0 <= n' <= n) ∧
  accounted_content_refs (set_endpoint_state s op) <= accounted_content_refs op ∧
  (state_is_recovery_pending s = true → is_recovery_pending op = true).
Proof.
  intros Hm Hres [a [Hreq Hrs Ha Hb Hrange Hold]]%endpoint_operation_validate_iff.
  destruct (max_allocation_small _ _ ltac:(split; [apply Z.lt_le_incl|]; apply Hrs) Ha)
    as [Ha0 Hau].
  pose proof (endpoint_move_charged a _ _ Hm ltac:(lia)
    (λ r Hr, proj2 (Hres r a Hr Ha))) as Hch.
  assert (Hb' : accounted_content_bytes (set_endpoint_state s op) = Ok (charged a s)).
  { unfold accounted_content_bytes, charged. simpl. rewrite Ha.
    destruct s as [| | | | |r] eqn:Es; simpl;
      try (rewrite (proj2 (checked_add_Some _ _ _ (ENDPOINT_REQUEST_COMMITMENT_BYTES + a)))
             by lia; done);
      try reflexivity.
    destruct (Hres r a eq_refl Ha) as [Hv Hle]. rewrite (endpoint_result_validate_Ok _ Hv).
    simpl. rewrite (proj2 (checked_add_Some _ _ _ (ENDPOINT_REQUEST_COMMITMENT_BYTES +
      accounted_bytes (endpoint_result_content r)))); [done|]. lia. }
  split_and!.
  - apply endpoint_operation_validate_iff. exists a. constructor; try done; simpl.
    + unfold ENDPOINT_REQUEST_COMMITMENT_BYTES in *. lia.
    + intros r Hr. by apply (Hres r a).
  - exists (charged a (endpoint_state op)), (charged a s). split_and!; try done.
    + unfold ENDPOINT_REQUEST_COMMITMENT_BYTES in Hch. lia.
    + lia.
  - unfold accounted_content_refs. simpl. destruct Hm; lia.
  - unfold is_recovery_pending. by destruct Hm.
Qed.
