(* ===== verification/Journal.v ===== *)
(** * Journal: the runner's durable session, slots and command cursor

    Models [crates/automata-ci-runner-journal/src/model/{state,command,orphan}.rs]:
    the negotiated session with its command window and lease-poll checkpoints,
    the recovery state of each execution slot, and every mutation of the
    journal. A mutation on [&mut self] is a value of [stM]: what it leaves
    behind when it fails is part of the model, and the file adapter runs it on
    a copy ([FileJournal]). [slot_mut] is the source's lookup of a slot under
    its session, ordinal and lease fence. *)

From S2P Require Import Prelude Text Execution Capability Log JournalBase ManagedSecret.
From S2P Require Import LogDelivery Saga.

(** ** Commands ([command.rs]) *)

Record DurableCommand := MkDurableCommand {
  command_sequence : CommandSequence;
  command_operation_id : OperationId;
  command_digest : Sha256Digest;
}.

#[export] Instance durable_command_eq_dec : EqDecision DurableCommand.
Proof. solve_decision. Defined.

Inductive CommandIgnoredReason := StaleLease | SlotUnavailable | UnsupportedCommand | InvalidCommand.

#[export] Instance command_ignored_reason_eq_dec : EqDecision CommandIgnoredReason.
Proof. solve_decision. Defined.

Inductive CommandDisposition :=
| CommandApplied
| CommandIgnored (reason : CommandIgnoredReason).

#[export] Instance command_disposition_eq_dec : EqDecision CommandDisposition.
Proof. solve_decision. Defined.

Record CommandTombstone := MkCommandTombstone {
  tombstone_command : DurableCommand;
  tombstone_disposition : CommandDisposition;
}.

#[export] Instance command_tombstone_eq_dec : EqDecision CommandTombstone.
Proof. solve_decision. Defined.

Record LeaseOfferRecord := MkLeaseOffer {
  offer_slot : RunnerSlotOrdinal;
  offer_lease : Lease;
  offer_job_ir : JobIrContentRef;
  offer_secret_bindings : option ManagedSecretBindingOverlay;
  offer_command : DurableCommand;
}.

#[export] Instance lease_offer_record_eq_dec : EqDecision LeaseOfferRecord.
Proof. solve_decision. Defined.

Section Offers.
Context {hasher : Sha256} {uuids : Uuid}.

Definition lease_offer_new (slot : RunnerSlotOrdinal) (lease : Lease) (job_ir : JobIrContentRef)
    (command : DurableCommand) : result JournalInvariantError LeaseOfferRecord :=
  _ ← map_err (λ _, InvalidLease) (lease_validate lease);
  _ ← job_ir_content_validate job_ir;
  Ok (MkLeaseOffer slot lease job_ir None command).

Definition with_managed_secret_bindings (self : LeaseOfferRecord)
    (overlay : ManagedSecretBindingOverlay) : result JournalInvariantError LeaseOfferRecord :=
  _ ← map_err (λ _, InvalidManagedSecretBindings) (validate_for overlay (offer_lease self));
  Ok (MkLeaseOffer (offer_slot self) (offer_lease self) (offer_job_ir self) (Some overlay)
        (offer_command self)).

Definition offer_validate (self : LeaseOfferRecord) : result JournalInvariantError unit :=
  _ ← map_err (λ _, InvalidLease) (lease_validate (offer_lease self));
  _ ← job_ir_content_validate (offer_job_ir self);
  match offer_secret_bindings self with
  | Some overlay =>
      map_err (λ _, InvalidManagedSecretBindings) (validate_for overlay (offer_lease self))
  | None => Ok tt
  end.

End Offers.

Definition offer_expires_at (self : LeaseOfferRecord) : UnixMillis :=
  lease_expires_at (offer_lease self).

(** [RuntimeAuthorityGeneration] wraps a [u32]; decoding does not exclude 0. *)
Abbreviation RuntimeAuthorityGeneration := (Bounded 0 u32_max) (only parsing).

Record RuntimeAuthorityDeliveryBinding := MkAuthorityBinding {
  authority_attempt_id : AttemptId;
  authority_slot : RunnerSlotOrdinal;
  authority_guard : LeaseGuard;
  authority_offer_operation_id : OperationId;
  authority_offer_sequence : CommandSequence;
  authority_job_ir_digest : Sha256Digest;
  authority_generation : RuntimeAuthorityGeneration;
}.

#[export] Instance runtime_authority_binding_eq_dec : EqDecision RuntimeAuthorityDeliveryBinding.
Proof. solve_decision. Defined.

Record RuntimeAuthorityDeliveryRecord := MkAuthorityDelivery {
  delivery_binding : RuntimeAuthorityDeliveryBinding;
  delivery_request_operation_id : OperationId;
  delivery_ack_operation_id : OperationId;
  delivery_bundle_digest : Sha256Digest;
  delivery_content : RuntimeAuthorityContentRef;
  delivery_acknowledged : bool;
}.

#[export] Instance runtime_authority_delivery_eq_dec : EqDecision RuntimeAuthorityDeliveryRecord.
Proof. solve_decision. Defined.

Definition authority_delivery_validate (self : RuntimeAuthorityDeliveryRecord) :
    result JournalInvariantError unit :=
  _ ← runtime_authority_content_validate (delivery_content self);
  if (bget (authority_generation (delivery_binding self)) =? 0) ||
     negb (bool_decide (public_plaintext_sha256 (authority_content (delivery_content self)) =
                        Some (delivery_bundle_digest self)))
  then Err InvalidRuntimeAuthorityDelivery else Ok tt.

Definition authority_delivery_new (binding : RuntimeAuthorityDeliveryBinding)
    (request_operation_id acknowledgement_operation_id : OperationId)
    (bundle_digest : Sha256Digest) (content : RuntimeAuthorityContentRef) :
    result JournalInvariantError RuntimeAuthorityDeliveryRecord :=
  let record := MkAuthorityDelivery binding request_operation_id acknowledgement_operation_id
                  bundle_digest content false in
  _ ← authority_delivery_validate record;
  Ok record.

Definition authority_delivery_acknowledge (self : RuntimeAuthorityDeliveryRecord)
    (generation : RuntimeAuthorityGeneration) (bundle_digest : Sha256Digest)
    (operation_id : OperationId) :
    result JournalInvariantError (RuntimeAuthorityDeliveryRecord * bool) :=
  if negb (bool_decide (authority_generation (delivery_binding self) = generation)) ||
     negb (bool_decide (delivery_bundle_digest self = bundle_digest)) ||
     negb (delivery_ack_operation_id self =? operation_id)
  then Err RuntimeAuthorityDeliveryReplayConflict
  else if delivery_acknowledged self then Ok (self, false)
  else Ok (MkAuthorityDelivery (delivery_binding self) (delivery_request_operation_id self)
             (delivery_ack_operation_id self) (delivery_bundle_digest self)
             (delivery_content self) true, true).

(** [automata-ci-protocol]. *)
Inductive LeaseRejectionReason := CapacityChanged | CapabilityChanged | ShuttingDown | InvalidJob.

#[export] Instance lease_rejection_reason_eq_dec : EqDecision LeaseRejectionReason.
Proof. solve_decision. Defined.

Record LeaseRejectionRecord := MkLeaseRejection {
  rejection_reason : LeaseRejectionReason;
  rejection_operation_id : OperationId;
  rejection_acknowledged : bool;
}.

#[export] Instance lease_rejection_record_eq_dec : EqDecision LeaseRejectionRecord.
Proof. solve_decision. Defined.

Definition lease_rejection_new (reason : LeaseRejectionReason) (operation_id : OperationId) :
    LeaseRejectionRecord :=
  MkLeaseRejection reason operation_id false.

Definition acknowledge_response (self : LeaseRejectionRecord) : LeaseRejectionRecord :=
  MkLeaseRejection (rejection_reason self) (rejection_operation_id self) true.

Record CancellationRecord := MkCancellation {
  cancellation_command : DurableCommand;
  cancellation_requested_at : UnixMillis;
}.

#[export] Instance cancellation_record_eq_dec : EqDecision CancellationRecord.
Proof. solve_decision. Defined.

Inductive LeasePollCommandRecord :=
| NoCommand
| PollRecorded (command : DurableCommand) (disposition : CommandDisposition)
| PollIgnored (command : DurableCommand) (reason : CommandIgnoredReason)
| PollLeaseOffer (offer : LeaseOfferRecord)
| PollCancellation (slot : RunnerSlotOrdinal) (guard : LeaseGuard)
    (cancellation : CancellationRecord).

(** ** Orphans ([orphan.rs]) *)

Record OrphanClaim := MkOrphanClaim {
  claim_runner_id : RunnerId;
  claim_session_id : RunnerSessionId;
  claim_slot : RunnerSlotOrdinal;
  claim_guard : LeaseGuard;
}.

#[export] Instance orphan_claim_eq_dec : EqDecision OrphanClaim.
Proof. solve_decision. Defined.

Inductive OrphanDelivery := OrphanTerminalResult | OrphanLogStream | OrphanLeaseRejection.

Inductive OrphanAbandonmentReason := SessionInvalidated | ControlPlaneRejected.

#[export] Instance orphan_abandonment_reason_eq_dec : EqDecision OrphanAbandonmentReason.
Proof. solve_decision. Defined.

Record OrphanAbandonmentPermissions := MkPermissions {
  permit_terminal_result : bool;
  permit_log_delivery : bool;
  permit_lease_rejection : bool;
}.

#[export] Instance orphan_permissions_eq_dec : EqDecision OrphanAbandonmentPermissions.
Proof. solve_decision. Defined.

Definition permissions_allow (self : OrphanAbandonmentPermissions) (delivery : OrphanDelivery) :
    bool :=
  match delivery with
  | OrphanTerminalResult => permit_terminal_result self
  | OrphanLogStream => permit_log_delivery self
  | OrphanLeaseRejection => permit_lease_rejection self
  end.

Record OrphanAuthorityGrant := MkOrphanGrant {
  grant_claim : OrphanClaim;
  grant_operation_id : OperationId;
  grant_evidence_digest : Sha256Digest;
  grant_permissions : OrphanAbandonmentPermissions;
}.

Record OrphanAbandonments := MkAbandonments {
  abandoned_terminal_result : option OrphanAbandonmentReason;
  abandoned_log_delivery : option OrphanAbandonmentReason;
  abandoned_lease_rejection : option OrphanAbandonmentReason;
}.

#[export] Instance orphan_abandonments_eq_dec : EqDecision OrphanAbandonments.
Proof. solve_decision. Defined.

Definition abandonments_get (self : OrphanAbandonments) (delivery : OrphanDelivery) :
    option OrphanAbandonmentReason :=
  match delivery with
  | OrphanTerminalResult => abandoned_terminal_result self
  | OrphanLogStream => abandoned_log_delivery self
  | OrphanLeaseRejection => abandoned_lease_rejection self
  end.

Definition abandonments_set (delivery : OrphanDelivery) (reason : OrphanAbandonmentReason)
    (self : OrphanAbandonments) : OrphanAbandonments :=
  match delivery with
  | OrphanTerminalResult =>
      MkAbandonments (Some reason) (abandoned_log_delivery self) (abandoned_lease_rejection self)
  | OrphanLogStream =>
      MkAbandonments (abandoned_terminal_result self) (Some reason) (abandoned_lease_rejection self)
  | OrphanLeaseRejection =>
      MkAbandonments (abandoned_terminal_result self) (abandoned_log_delivery self) (Some reason)
  end.

Record OrphanRecord := MkOrphanRecord {
  orphan_session_id : RunnerSessionId;
  orphan_guard : LeaseGuard;
  orphan_operation_id : OperationId;
  orphan_evidence_digest : Sha256Digest;
  orphan_permissions : OrphanAbandonmentPermissions;
  orphan_abandonments : OrphanAbandonments;
}.

#[export] Instance orphan_record_eq_dec : EqDecision OrphanRecord.
Proof. solve_decision. Defined.

Definition orphan_from_grant (grant : OrphanAuthorityGrant) : OrphanRecord :=
  MkOrphanRecord (claim_session_id (grant_claim grant)) (claim_guard (grant_claim grant))
    (grant_operation_id grant) (grant_evidence_digest grant) (grant_permissions grant)
    (MkAbandonments None None None).

Definition orphan_matches_grant (self : OrphanRecord) (grant : OrphanAuthorityGrant) : bool :=
  (orphan_session_id self =? claim_session_id (grant_claim grant)) &&
  bool_decide (orphan_guard self = claim_guard (grant_claim grant)) &&
  (orphan_operation_id self =? grant_operation_id grant) &&
  bool_decide (orphan_evidence_digest self = grant_evidence_digest grant) &&
  bool_decide (orphan_permissions self = grant_permissions grant).

Definition is_abandoned (self : OrphanRecord) (delivery : OrphanDelivery) : bool :=
  match abandonments_get (orphan_abandonments self) delivery with Some _ => true | None => false end.

Definition orphan_abandon (self : OrphanRecord) (authority_operation_id : OperationId)
    (delivery : OrphanDelivery) (reason : OrphanAbandonmentReason) :
    result JournalInvariantError (OrphanRecord * bool) :=
  if negb (orphan_operation_id self =? authority_operation_id) ||
     negb (permissions_allow (orphan_permissions self) delivery)
  then Err OrphanAuthorityMismatch
  else
    match abandonments_get (orphan_abandonments self) delivery with
    | Some existing =>
        if bool_decide (existing = reason) then Ok (self, false)
        else Err OrphanAbandonmentConflict
    | None =>
        Ok (MkOrphanRecord (orphan_session_id self) (orphan_guard self) (orphan_operation_id self)
              (orphan_evidence_digest self) (orphan_permissions self)
              (abandonments_set delivery reason (orphan_abandonments self)), true)
    end.

(** ** Sessions *)

Definition MAX_LEASE_AUTHORITY_POLL_CONTRIBUTIONS : Z := 16.

(** [SUPPORTED_PROTOCOL_RANGE] and [JobIrVersionRange::current()]. *)
Definition PROTOCOL_MIN_VERSION : Z := 3.
Definition PROTOCOL_MAX_VERSION : Z := 3.
Abbreviation ProtocolVersion := Z (only parsing).

Definition protocol_supported (version : ProtocolVersion) : bool :=
  (PROTOCOL_MIN_VERSION <=? version) && (version <=? PROTOCOL_MAX_VERSION).

Definition job_ir_supported (version : JobIrVersion) : bool := bget version =? 1.

Record LeaseAuthorityPollReceipt := MkPollReceipt {
  receipt_name : str;
  receipt_payload_schema_version : Z;
  receipt_payload_sha256 : Sha256Digest;
}.

#[export] Instance lease_authority_poll_receipt_eq_dec : EqDecision LeaseAuthorityPollReceipt.
Proof. solve_decision. Defined.

Record SessionBinding := MkSessionBinding {
  binding_session_id : RunnerSessionId;
  binding_selected_protocol : ProtocolVersion;
  binding_selected_job_ir : JobIrVersion;
}.

#[export] Instance session_binding_eq_dec : EqDecision SessionBinding.
Proof. solve_decision. Defined.

Record LeasePollCheckpoint := MkPollCheckpoint {
  checkpoint_slot : RunnerSlotOrdinal;
  current_operation_id : OperationId;
  acknowledges_operation_id : option OperationId;
  pending_authority_receipts : list LeaseAuthorityPollReceipt;
}.

Definition checkpoint_first (slot : RunnerSlotOrdinal) (operation_id : OperationId) :
    LeasePollCheckpoint :=
  MkPollCheckpoint slot operation_id None [].

Record LeasePollCompletion := MkPollCompletion {
  poll_slot : RunnerSlotOrdinal;
  expected_current : OperationId;
  successor_operation_id : OperationId;
  completion_receipts : list LeaseAuthorityPollReceipt;
  completion_command : LeasePollCommandRecord;
}.

Record SessionSnapshot := MkSession {
  session_id : RunnerSessionId;
  selected_protocol : ProtocolVersion;
  selected_job_ir : JobIrVersion;
  command_cursor : CommandCursor;
  command_tombstones : list CommandTombstone;
  lease_poll_checkpoints : list LeasePollCheckpoint;
}.

Definition session_new (binding : SessionBinding) : SessionSnapshot :=
  MkSession (binding_session_id binding) (binding_selected_protocol binding)
    (binding_selected_job_ir binding) command_cursor_initial [] [].

Definition session_binding (self : SessionSnapshot) : SessionBinding :=
  MkSessionBinding (session_id self) (selected_protocol self) (selected_job_ir self).

Definition session_cursor (self : SessionSnapshot) : option CommandSequence :=
  cursor_acknowledged (command_cursor self).

Definition set_checkpoints (checkpoints : list LeasePollCheckpoint) (self : SessionSnapshot) :
    SessionSnapshot :=
  MkSession (session_id self) (selected_protocol self) (selected_job_ir self)
    (command_cursor self) (command_tombstones self) checkpoints.

Definition checkpoint_key (checkpoint : LeasePollCheckpoint) : Z :=
  bget (checkpoint_slot checkpoint).

(** [windows(2)] with names that do not ascend. *)
Fixpoint names_descend (receipts : list LeaseAuthorityPollReceipt) : bool :=
  match receipts with
  | first :: (second :: _) as rest =>
      leb (receipt_name second) (receipt_name first) || names_descend rest
  | _ => false
  end.

Definition validate_authority_receipts (receipts : list LeaseAuthorityPollReceipt) :
    result JournalInvariantError unit :=
  if (MAX_LEASE_AUTHORITY_POLL_CONTRIBUTIONS <? Z.of_nat (length receipts)) ||
     names_descend receipts ||
     existsb (λ receipt, receipt_payload_schema_version receipt =? 0) receipts
  then Err DecodedStateInvalid else Ok tt.

Definition lease_poll_operation_is_used (session : SessionSnapshot) (operation_id : OperationId) :
    bool :=
  existsb (λ checkpoint, (current_operation_id checkpoint =? operation_id) ||
             bool_decide (acknowledges_operation_id checkpoint = Some operation_id))
    (lease_poll_checkpoints session).

(** The tombstone loop of [validate_session]. *)
Fixpoint validate_tombstones (previous : option CommandSequence) (operations : BTreeSet Z)
    (l : list CommandTombstone) : result JournalInvariantError unit :=
  match l with
  | [] => Ok tt
  | tombstone :: rest =>
      let command := tombstone_command tombstone in
      if match previous with
         | Some sequence => bget (command_sequence command) <=? bget sequence
         | None => false
         end || bset_contains operations (command_operation_id command)
      then Err DecodedStateInvalid
      else validate_tombstones (Some (command_sequence command))
             (bset_insert (command_operation_id command) operations) rest
  end.

(** One test of the checkpoint loop of [validate_session]; [||] evaluates from
    the left, so the acknowledged identity is inserted after the current one. *)
Definition checkpoint_invalid (previous : option RunnerSlotOrdinal) (operations : BTreeSet Z)
    (checkpoint : LeasePollCheckpoint) : bool :=
  (MAX_JOURNALED_SLOTS <? checkpoint_key checkpoint) ||
  match previous with
  | Some slot => checkpoint_key checkpoint <=? bget slot
  | None => false
  end ||
  bset_contains operations (current_operation_id checkpoint) ||
  match acknowledges_operation_id checkpoint with
  | Some operation_id =>
      bset_contains (bset_insert (current_operation_id checkpoint) operations) operation_id
  | None => false
  end.

(** The identities seen after a checkpoint. *)
Definition checkpoint_seen (operations : BTreeSet Z) (checkpoint : LeasePollCheckpoint) :
    BTreeSet Z :=
  let with_current := bset_insert (current_operation_id checkpoint) operations in
  match acknowledges_operation_id checkpoint with
  | Some operation_id => bset_insert operation_id with_current
  | None => with_current
  end.

Fixpoint validate_checkpoints (previous : option RunnerSlotOrdinal) (operations : BTreeSet Z)
    (l : list LeasePollCheckpoint) : result JournalInvariantError unit :=
  match l with
  | [] => Ok tt
  | checkpoint :: rest =>
      if checkpoint_invalid previous operations checkpoint then Err DecodedStateInvalid
      else
        _ ← validate_authority_receipts (pending_authority_receipts checkpoint);
        validate_checkpoints (Some (checkpoint_slot checkpoint))
          (checkpoint_seen operations checkpoint) rest
  end.

Definition cursor_matches_window (session : SessionSnapshot) : bool :=
  match session_cursor session, last (command_tombstones session) with
  | None, None => true
  | Some cursor, Some last =>
      bool_decide (command_sequence (tombstone_command last) = cursor)
  | _, _ => false
  end.

Definition validate_session (session : SessionSnapshot) : result JournalInvariantError unit :=
  if negb (protocol_supported (selected_protocol session)) ||
     negb (job_ir_supported (selected_job_ir session)) ||
     (MAX_COMMAND_TOMBSTONES <? Z.of_nat (length (command_tombstones session))) ||
     (MAX_JOURNALED_SLOTS <? Z.of_nat (length (lease_poll_checkpoints session)))
  then Err DecodedStateInvalid
  else
    _ ← validate_tombstones None bset_empty (command_tombstones session);
    _ ← reject (negb (cursor_matches_window session)) DecodedStateInvalid;
    validate_checkpoints None bset_empty (lease_poll_checkpoints session).

Definition command_has_applied_tombstone_or_is_older (session : SessionSnapshot)
    (command : DurableCommand) : bool :=
  match command_tombstones session with
  | [] => false
  | first :: _ =>
      (bget (command_sequence command) <? bget (command_sequence (tombstone_command first))) ||
      existsb (λ tombstone, bool_decide (tombstone_command tombstone = command) &&
                 bool_decide (tombstone_disposition tombstone = CommandApplied))
        (command_tombstones session)
  end.

(** ** Slots *)

Inductive LeaseOfferStatus := OfferRecorded | OfferAccepted | OfferRejected.

#[export] Instance lease_offer_status_eq_dec : EqDecision LeaseOfferStatus.
Proof. solve_decision. Defined.

Record SlotSnapshot := MkSlot {
  slot_offer : LeaseOfferRecord;
  offer_status : LeaseOfferStatus;
  runtime_authority_delivery : option RuntimeAuthorityDeliveryRecord;
  rejection : option LeaseRejectionRecord;
  rejection_enqueued_at : option UnixMillis;
  slot_expires_at : UnixMillis;
  slot_lifecycle : JobLifecycle;
  cancellation : option CancellationRecord;
  terminal_result : option TerminalResultRecord;
  terminal_result_enqueued_at : option UnixMillis;
  provider_checkpoint : ProviderRecoveryState;
  provider_operations : list ProviderOperation;
  endpoint_operations : list EndpointOperation;
  slot_sandbox : option SandboxIdentity;
  outbound_operations : OutboundOperationCursor;
  log_delivery : option LogDeliveryCursor;
  orphan : option OrphanRecord;
}.

Definition slot_from_offer (offer : LeaseOfferRecord) : SlotSnapshot :=
  MkSlot offer OfferRecorded None None None (offer_expires_at offer) Leased None None None
    recovery_default [] [] None outbound_initial None None.

Definition slot_key (self : SlotSnapshot) : Z := bget (offer_slot (slot_offer self)).

Definition slot_guard (self : SlotSnapshot) : LeaseGuard :=
  lease_guard (offer_lease (slot_offer self)).

Definition endpoint_recovery_pending (self : SlotSnapshot) : option EndpointOperation :=
  match last (endpoint_operations self) with
  | Some operation => if is_recovery_pending operation then Some operation else None
  | None => None
  end.

Definition require_guard (self : SlotSnapshot) (received : LeaseGuard) :
    result JournalInvariantError unit :=
  if bool_decide (slot_guard self = received) then Ok tt
  else Err (LeaseGuardMismatch (slot_guard self) received).

(** The binding names this slot's accepted offer. *)
Definition binding_matches_offer (self : SlotSnapshot) (binding : RuntimeAuthorityDeliveryBinding) :
    bool :=
  let offer := slot_offer self in
  (authority_attempt_id binding =? lease_attempt_id (offer_lease offer)) &&
  bool_decide (authority_slot binding = offer_slot offer) &&
  bool_decide (authority_guard binding = lease_guard (offer_lease offer)) &&
  (authority_offer_operation_id binding =? command_operation_id (offer_command offer)) &&
  bool_decide (authority_offer_sequence binding = command_sequence (offer_command offer)) &&
  bool_decide (public_plaintext_sha256 (job_ir_content (offer_job_ir offer)) =
               Some (authority_job_ir_digest binding)).

Definition validate_runtime_authority_delivery (self : SlotSnapshot) :
    result JournalInvariantError unit :=
  match runtime_authority_delivery self with
  | None => Ok tt
  | Some delivery =>
      _ ← authority_delivery_validate delivery;
      reject (negb (bool_decide (offer_status self = OfferAccepted)) ||
              negb (binding_matches_offer self (delivery_binding delivery)))
        InvalidRuntimeAuthorityDelivery
  end.

(** The loop of [validate_endpoint_operations]: the identities seen, the
    references and bytes charged so far. *)
Fixpoint validate_endpoint_list (ids : BTreeSet OperationId) (content_refs content_bytes : Z)
    (l : list EndpointOperation) : result JournalInvariantError (Z * Z) :=
  match l with
  | [] => Ok (content_refs, content_bytes)
  | operation :: rest =>
      _ ← endpoint_operation_validate operation;
      content_refs ← ok_or (checked_add u64_max content_refs (accounted_content_refs operation))
        DecodedStateInvalid;
      bytes ← accounted_content_bytes operation;
      content_bytes ← ok_or (checked_add u64_max content_bytes bytes) DecodedStateInvalid;
      if bset_contains ids (endpoint_operation_id operation) ||
         (is_recovery_pending operation && match rest with [] => false | _ => true end)
      then Err DecodedStateInvalid
      else validate_endpoint_list (bset_insert (endpoint_operation_id operation) ids)
             content_refs content_bytes rest
  end.

Definition validate_endpoint_operations (self : SlotSnapshot) : result JournalInvariantError unit :=
  _ ← reject (MAX_ENDPOINT_OPERATIONS_PER_JOB <? Z.of_nat (length (endpoint_operations self)))
        DecodedCollectionLimit;
  _ ← reject (match endpoint_operations self with [] => false | _ => true end &&
              negb (bool_decide (offer_status self = OfferAccepted))) DecodedStateInvalid;
  totals ← validate_endpoint_list bset_empty 0 0 (endpoint_operations self);
  reject ((MAX_ENDPOINT_CONTENT_REFS_PER_SLOT <? totals.1) ||
          (MAX_ENDPOINT_CONTENT_BYTES_PER_SLOT <? totals.2) ||
          ((bool_decide (slot_lifecycle self = Finalizing) || is_terminal (slot_lifecycle self)) &&
           is_some (endpoint_recovery_pending self)))
    DecodedCollectionLimit.

Definition validate_delivery_timestamps (self : SlotSnapshot) : result JournalInvariantError unit :=
  _ ← reject
        (negb (Bool.eqb (is_some (rejection self)) (is_some (rejection_enqueued_at self))) ||
         negb (Bool.eqb (is_some (terminal_result self))
                 (is_some (terminal_result_enqueued_at self))))
        DecodedStateInvalid;
  _ ← match rejection_enqueued_at self with
      | Some timestamp => validate_delivery_enqueued_at timestamp
      | None => Ok tt
      end;
  match terminal_result_enqueued_at self with
  | Some timestamp => validate_delivery_enqueued_at timestamp
  | None => Ok tt
  end.

Definition validate_log_state (self : SlotSnapshot) : result JournalInvariantError unit :=
  match log_delivery self with
  | None => Ok tt
  | Some log =>
      let cursor_invalid :=
        (is_some (acknowledged_through log) && negb (is_some (produced_through log))) ||
        match acknowledged_through log, produced_through log with
        | Some ack, Some produced => produced <? ack
        | _, _ => false
        end ||
        match cursor_end_of_stream log with
        | Some end_ => negb (bool_decide (produced_through log = Some end_))
        | None => false
        end in
      _ ← reject cursor_invalid DecodedStateInvalid;
      cursor_validate log
  end.

Definition authority_acknowledged (self : SlotSnapshot) : bool :=
  match runtime_authority_delivery self with
  | Some delivery => delivery_acknowledged delivery
  | None => false
  end.

Definition validate_provider_state (self : SlotSnapshot) : result JournalInvariantError unit :=
  let recorded := match provider_operations self with [] => false | _ => true end in
  _ ← reject (recorded && negb (bool_decide (offer_status self = OfferAccepted)))
        DecodedStateInvalid;
  _ ← reject ((recorded || is_some (slot_sandbox self)) && negb (authority_acknowledged self))
        DecodedStateInvalid;
  _ ← reject (negb (recovery_is_coherent (provider_checkpoint self))) DecodedStateInvalid;
  recovery ← replay_provider_operations (provider_checkpoint self) (provider_operations self);
  reject (negb (Bool.eqb (is_some (slot_sandbox self)) (sandbox_live recovery)))
    DecodedStateInvalid.

(** Whether an offer that is not accepted still has a live lifecycle. *)
Definition undecided_lifecycle (lifecycle : JobLifecycle) : bool :=
  match lifecycle with Leased | Cancelling => true | _ => false end.

(** Lifecycles a cancelled slot cannot be in. *)
Definition uncancelled_lifecycle (lifecycle : JobLifecycle) : bool :=
  match lifecycle with Queued | Leased | Preparing | Running | Skipped => true | _ => false end.

Definition orphan_consistent (self : SlotSnapshot) (session : SessionSnapshot)
    (record : OrphanRecord) : bool :=
  (orphan_session_id record =? session_id session) &&
  bool_decide (orphan_guard record = slot_guard self) &&
  (is_terminal (slot_lifecycle self) || is_some (endpoint_recovery_pending self)) &&
  (negb (is_abandoned record OrphanTerminalResult) || is_some (terminal_result self)) &&
  (negb (is_abandoned record OrphanLogStream) || is_some (log_delivery self)) &&
  (negb (is_abandoned record OrphanLeaseRejection) || is_some (rejection self)).

Definition status_consistent (self : SlotSnapshot) : bool :=
  match offer_status self with
  | OfferRecorded | OfferAccepted => negb (is_some (rejection self))
  | OfferRejected => is_some (rejection self)
  end.

Section Slots.
Context {hasher : Sha256} {uuids : Uuid}.

Definition slot_validate (self : SlotSnapshot) (runner_id : RunnerId) (session : SessionSnapshot) :
    result JournalInvariantError unit :=
  _ ← offer_validate (slot_offer self);
  _ ← validate_runtime_authority_delivery self;
  _ ← reject (negb (lease_runner_id (offer_lease (slot_offer self)) =? runner_id))
        LeaseRunnerMismatch;
  _ ← reject (negb (bool_decide (job_ir_version (offer_job_ir (slot_offer self)) =
                                 selected_job_ir session))) JobIrVersionMismatch;
  _ ← reject (slot_expires_at self <? offer_expires_at (slot_offer self)) DecodedStateInvalid;
  _ ← reject (MAX_PROVIDER_OPERATIONS_PER_SLOT <? Z.of_nat (length (provider_operations self)))
        DecodedCollectionLimit;
  _ ← validate_endpoint_operations self;
  _ ← validate_provider_state self;
  _ ← reject (negb (status_consistent self)) DecodedStateInvalid;
  _ ← validate_delivery_timestamps self;
  _ ← reject (negb (is_some (orphan self)) && bool_decide (offer_status self = OfferRecorded) &&
              negb (undecided_lifecycle (slot_lifecycle self))) DecodedStateInvalid;
  _ ← reject (negb (is_some (orphan self)) && bool_decide (offer_status self = OfferRejected) &&
              negb (undecided_lifecycle (slot_lifecycle self))) DecodedStateInvalid;
  _ ← reject (bool_decide (offer_status self = OfferRejected) && is_some (log_delivery self))
        DecodedStateInvalid;
  _ ← match terminal_result self with
      | Some result =>
          _ ← terminal_result_validate result;
          reject (negb (bool_decide (offer_status self = OfferAccepted)) ||
                  negb (is_terminal (slot_lifecycle self))) DecodedStateInvalid
      | None => Ok tt
      end;
  _ ← reject (bool_decide (offer_status self = OfferAccepted) &&
              is_terminal (slot_lifecycle self) && negb (is_some (terminal_result self)) &&
              negb (is_some (orphan self))) DecodedStateInvalid;
  _ ← match orphan self with
      | Some record => reject (negb (orphan_consistent self session record)) DecodedStateInvalid
      | None => Ok tt
      end;
  _ ← match cancellation self with
      | Some record =>
          reject (bget (command_sequence (cancellation_command record)) <=?
                  bget (command_sequence (offer_command (slot_offer self)))) DecodedStateInvalid
      | None => Ok tt
      end;
  _ ← reject (is_some (cancellation self) && uncancelled_lifecycle (slot_lifecycle self))
        DecodedStateInvalid;
  validate_log_state self.

End Slots.

(** ** Assignments to the fields of a slot *)

Definition set_offer_status (v : LeaseOfferStatus) (s : SlotSnapshot) : SlotSnapshot :=
  MkSlot (slot_offer s) v (runtime_authority_delivery s) (rejection s) (rejection_enqueued_at
    s) (slot_expires_at s) (slot_lifecycle s) (cancellation s) (terminal_result s)
    (terminal_result_enqueued_at s) (provider_checkpoint s) (provider_operations s)
    (endpoint_operations s) (slot_sandbox s) (outbound_operations s) (log_delivery s) (orphan
    s).

Definition set_authority (v : option RuntimeAuthorityDeliveryRecord) (s : SlotSnapshot) :
    SlotSnapshot :=
  MkSlot (slot_offer s) (offer_status s) v (rejection s) (rejection_enqueued_at s)
    (slot_expires_at s) (slot_lifecycle s) (cancellation s) (terminal_result s)
    (terminal_result_enqueued_at s) (provider_checkpoint s) (provider_operations s)
    (endpoint_operations s) (slot_sandbox s) (outbound_operations s) (log_delivery s) (orphan
    s).

Definition set_rejection (v : option LeaseRejectionRecord) (s : SlotSnapshot) : SlotSnapshot :=
  MkSlot (slot_offer s) (offer_status s) (runtime_authority_delivery s) v
    (rejection_enqueued_at s) (slot_expires_at s) (slot_lifecycle s) (cancellation s)
    (terminal_result s) (terminal_result_enqueued_at s) (provider_checkpoint s)
    (provider_operations s) (endpoint_operations s) (slot_sandbox s) (outbound_operations s)
    (log_delivery s) (orphan s).

Definition set_rejection_enqueued_at (v : option UnixMillis) (s : SlotSnapshot) : SlotSnapshot :=
  MkSlot (slot_offer s) (offer_status s) (runtime_authority_delivery s) (rejection s) v
    (slot_expires_at s) (slot_lifecycle s) (cancellation s) (terminal_result s)
    (terminal_result_enqueued_at s) (provider_checkpoint s) (provider_operations s)
    (endpoint_operations s) (slot_sandbox s) (outbound_operations s) (log_delivery s) (orphan
    s).

Definition set_expires_at (v : UnixMillis) (s : SlotSnapshot) : SlotSnapshot :=
  MkSlot (slot_offer s) (offer_status s) (runtime_authority_delivery s) (rejection s)
    (rejection_enqueued_at s) v (slot_lifecycle s) (cancellation s) (terminal_result s)
    (terminal_result_enqueued_at s) (provider_checkpoint s) (provider_operations s)
    (endpoint_operations s) (slot_sandbox s) (outbound_operations s) (log_delivery s) (orphan
    s).

Definition set_slot_lifecycle (v : JobLifecycle) (s : SlotSnapshot) : SlotSnapshot :=
  MkSlot (slot_offer s) (offer_status s) (runtime_authority_delivery s) (rejection s)
    (rejection_enqueued_at s) (slot_expires_at s) v (cancellation s) (terminal_result s)
    (terminal_result_enqueued_at s) (provider_checkpoint s) (provider_operations s)
    (endpoint_operations s) (slot_sandbox s) (outbound_operations s) (log_delivery s) (orphan
    s).

Definition set_cancellation (v : option CancellationRecord) (s : SlotSnapshot) : SlotSnapshot :=
  MkSlot (slot_offer s) (offer_status s) (runtime_authority_delivery s) (rejection s)
    (rejection_enqueued_at s) (slot_expires_at s) (slot_lifecycle s) v (terminal_result s)
    (terminal_result_enqueued_at s) (provider_checkpoint s) (provider_operations s)
    (endpoint_operations s) (slot_sandbox s) (outbound_operations s) (log_delivery s) (orphan
    s).

Definition set_terminal_result (v : option TerminalResultRecord) (s : SlotSnapshot) : SlotSnapshot
    :=
  MkSlot (slot_offer s) (offer_status s) (runtime_authority_delivery s) (rejection s)
    (rejection_enqueued_at s) (slot_expires_at s) (slot_lifecycle s) (cancellation s) v
    (terminal_result_enqueued_at s) (provider_checkpoint s) (provider_operations s)
    (endpoint_operations s) (slot_sandbox s) (outbound_operations s) (log_delivery s) (orphan
    s).

Definition set_terminal_result_enqueued_at (v : option UnixMillis) (s : SlotSnapshot) :
    SlotSnapshot :=
  MkSlot (slot_offer s) (offer_status s) (runtime_authority_delivery s) (rejection s)
    (rejection_enqueued_at s) (slot_expires_at s) (slot_lifecycle s) (cancellation s)
    (terminal_result s) v (provider_checkpoint s) (provider_operations s) (endpoint_operations
    s) (slot_sandbox s) (outbound_operations s) (log_delivery s) (orphan s).

Definition set_provider_checkpoint (v : ProviderRecoveryState) (s : SlotSnapshot) : SlotSnapshot
    :=
  MkSlot (slot_offer s) (offer_status s) (runtime_authority_delivery s) (rejection s)
    (rejection_enqueued_at s) (slot_expires_at s) (slot_lifecycle s) (cancellation s)
    (terminal_result s) (terminal_result_enqueued_at s) v (provider_operations s)
    (endpoint_operations s) (slot_sandbox s) (outbound_operations s) (log_delivery s) (orphan
    s).

Definition set_provider_operations (v : list ProviderOperation) (s : SlotSnapshot) : SlotSnapshot
    :=
  MkSlot (slot_offer s) (offer_status s) (runtime_authority_delivery s) (rejection s)
    (rejection_enqueued_at s) (slot_expires_at s) (slot_lifecycle s) (cancellation s)
    (terminal_result s) (terminal_result_enqueued_at s) (provider_checkpoint s) v
    (endpoint_operations s) (slot_sandbox s) (outbound_operations s) (log_delivery s) (orphan
    s).

Definition set_endpoint_operations (v : list EndpointOperation) (s : SlotSnapshot) : SlotSnapshot
    :=
  MkSlot (slot_offer s) (offer_status s) (runtime_authority_delivery s) (rejection s)
    (rejection_enqueued_at s) (slot_expires_at s) (slot_lifecycle s) (cancellation s)
    (terminal_result s) (terminal_result_enqueued_at s) (provider_checkpoint s)
    (provider_operations s) v (slot_sandbox s) (outbound_operations s) (log_delivery s)
    (orphan s).

Definition set_sandbox (v : option SandboxIdentity) (s : SlotSnapshot) : SlotSnapshot :=
  MkSlot (slot_offer s) (offer_status s) (runtime_authority_delivery s) (rejection s)
    (rejection_enqueued_at s) (slot_expires_at s) (slot_lifecycle s) (cancellation s)
    (terminal_result s) (terminal_result_enqueued_at s) (provider_checkpoint s)
    (provider_operations s) (endpoint_operations s) v (outbound_operations s) (log_delivery s)
    (orphan s).

Definition set_outbound (v : OutboundOperationCursor) (s : SlotSnapshot) : SlotSnapshot :=
  MkSlot (slot_offer s) (offer_status s) (runtime_authority_delivery s) (rejection s)
    (rejection_enqueued_at s) (slot_expires_at s) (slot_lifecycle s) (cancellation s)
    (terminal_result s) (terminal_result_enqueued_at s) (provider_checkpoint s)
    (provider_operations s) (endpoint_operations s) (slot_sandbox s) v (log_delivery s)
    (orphan s).

Definition set_log_delivery (v : option LogDeliveryCursor) (s : SlotSnapshot) : SlotSnapshot :=
  MkSlot (slot_offer s) (offer_status s) (runtime_authority_delivery s) (rejection s)
    (rejection_enqueued_at s) (slot_expires_at s) (slot_lifecycle s) (cancellation s)
    (terminal_result s) (terminal_result_enqueued_at s) (provider_checkpoint s)
    (provider_operations s) (endpoint_operations s) (slot_sandbox s) (outbound_operations s) v
    (orphan s).

Definition set_orphan (v : option OrphanRecord) (s : SlotSnapshot) : SlotSnapshot :=
  MkSlot (slot_offer s) (offer_status s) (runtime_authority_delivery s) (rejection s)
    (rejection_enqueued_at s) (slot_expires_at s) (slot_lifecycle s) (cancellation s)
    (terminal_result s) (terminal_result_enqueued_at s) (provider_checkpoint s)
    (provider_operations s) (endpoint_operations s) (slot_sandbox s) (outbound_operations s)
    (log_delivery s) v.

(** ** The journal *)

Record StoredJournal := MkJournal {
  schema_version : Z;
  revision : Z;
  journal_runner_id : RunnerId;
  journal_session : option SessionSnapshot;
  slots : list SlotSnapshot;
}.

Definition journal_new (runner_id : RunnerId) : StoredJournal :=
  MkJournal RUNNER_JOURNAL_SCHEMA_VERSION 0 runner_id None [].

Definition set_revision (n : Z) (self : StoredJournal) : StoredJournal :=
  MkJournal (schema_version self) n (journal_runner_id self) (journal_session self) (slots self).

Definition set_session (session : option SessionSnapshot) (self : StoredJournal) : StoredJournal :=
  MkJournal (schema_version self) (revision self) (journal_runner_id self) session (slots self).

Definition set_slots (slots_ : list SlotSnapshot) (self : StoredJournal) : StoredJournal :=
  MkJournal (schema_version self) (revision self) (journal_runner_id self)
    (journal_session self) slots_.

(** A mutation of the journal: whether it changed anything. *)
Abbreviation mutation := (stM StoredJournal JournalInvariantError bool) (only parsing).
Abbreviation slot_mutation := (stM SlotSnapshot JournalInvariantError bool) (only parsing).

Definition increment_revision : stM StoredJournal JournalInvariantError unit :=
  self ← getM;
  next ← liftM (ok_or (checked_add u64_max (revision self) 1) CounterExhausted);
  modifyM (set_revision next).

Section Validation.
Context {hasher : Sha256} {uuids : Uuid}.

(** The commands of a slot are recorded under sequences and operations no
    other slot uses, are behind the cursor and were applied. *)
Definition validate_slot_command (session : SessionSnapshot) (command : DurableCommand)
    (seen : BTreeSet Z * BTreeSet Z) : result JournalInvariantError (BTreeSet Z * BTreeSet Z) :=
  if bset_contains seen.1 (bget (command_sequence command)) ||
     bset_contains seen.2 (command_operation_id command) ||
     negb (command_has_applied_tombstone_or_is_older session command)
  then Err DecodedStateInvalid
  else Ok (bset_insert (bget (command_sequence command)) seen.1,
           bset_insert (command_operation_id command) seen.2).

Definition beyond_cursor (session : SessionSnapshot) (command : DurableCommand) : bool :=
  match session_cursor session with
  | None => true
  | Some cursor => bget cursor <? bget (command_sequence command)
  end.

Fixpoint validate_slot_list (runner_id : RunnerId) (session : option SessionSnapshot)
    (previous : option Z) (seen : BTreeSet Z * BTreeSet Z) (l : list SlotSnapshot) :
    result JournalInvariantError unit :=
  match l with
  | [] => Ok tt
  | slot :: rest =>
      _ ← reject ((MAX_JOURNALED_SLOTS <? slot_key slot) ||
                  match previous with
                  | Some ordinal => slot_key slot <=? ordinal
                  | None => false
                  end) DecodedStateInvalid;
      current ← ok_or session DecodedStateInvalid;
      _ ← slot_validate slot runner_id current;
      seen ← validate_slot_command current (offer_command (slot_offer slot)) seen;
      seen ← match cancellation slot with
             | Some record => validate_slot_command current (cancellation_command record) seen
             | None => Ok seen
             end;
      _ ← reject (beyond_cursor current (offer_command (slot_offer slot)) ||
                  match cancellation slot with
                  | Some record => beyond_cursor current (cancellation_command record)
                  | None => false
                  end) DecodedStateInvalid;
      validate_slot_list runner_id session (Some (slot_key slot)) seen rest
  end.

Definition journal_validate (self : StoredJournal) : result JournalInvariantError unit :=
  _ ← reject (negb (schema_version self =? RUNNER_JOURNAL_SCHEMA_VERSION)) DecodedStateInvalid;
  _ ← reject (MAX_JOURNALED_SLOTS <? Z.of_nat (length (slots self))) DecodedCollectionLimit;
  _ ← reject (match slots self with [] => false | _ => true end &&
              negb (is_some (journal_session self))) DecodedStateInvalid;
  _ ← reject (is_some (journal_session self) && (revision self =? 0)) DecodedStateInvalid;
  _ ← match journal_session self with
      | Some session => validate_session session
      | None => Ok tt
      end;
  validate_slot_list (journal_runner_id self) (journal_session self) None (bset_empty, bset_empty)
    (slots self).

End Validation.

(** ** Sessions and lease polls *)

Definition begin_session (binding : SessionBinding) : mutation :=
  self ← getM;
  match journal_session self with
  | Some current =>
      if bool_decide (session_binding current = binding) then mret false
      else if session_id current =? binding_session_id binding then
        liftM (Err SessionNegotiationMismatch)
      else
        match slots self with
        | _ :: _ => liftM (Err SessionHasActiveSlots)
        | [] => modifyM (set_session (Some (session_new binding)));; mret true
        end
  | None => modifyM (set_session (Some (session_new binding)));; mret true
  end.

Definition require_session (self : StoredJournal) (received : RunnerSessionId) :
    result JournalInvariantError SessionSnapshot :=
  expected ← ok_or (journal_session self) NoSession;
  if negb (session_id expected =? received) then
    Err (SessionMismatch (session_id expected) received)
  else Ok expected.

Definition set_journal_checkpoints (checkpoints : list LeasePollCheckpoint)
    (session : SessionSnapshot) (self : StoredJournal) : StoredJournal :=
  set_session (Some (set_checkpoints checkpoints session)) self.

Definition prepare_lease_poll (sid : RunnerSessionId) (slot : RunnerSlotOrdinal)
    (operation_id : OperationId) : mutation :=
  self ← getM;
  session ← liftM (require_session self sid);
  match search_by_key checkpoint_key (bget slot) (lease_poll_checkpoints session) with
  | Ok _ => mret false
  | Err insertion =>
      if MAX_JOURNALED_SLOTS <? bget slot then liftM (Err SlotLimitReached)
      else if lease_poll_operation_is_used session operation_id then
        liftM (Err LeasePollOperationConflict)
      else
        modifyM (set_journal_checkpoints
          (insert_at insertion (checkpoint_first slot operation_id)
             (lease_poll_checkpoints session)) session);;
        mret true
  end.

(** The checkpoint at an index that [search_by_key] returned. *)
Definition find_checkpoint (session : SessionSnapshot) (slot : RunnerSlotOrdinal) :
    result JournalInvariantError (nat * LeasePollCheckpoint) :=
  index ← map_err (λ _, LeasePollCheckpointMissing slot)
    (search_by_key checkpoint_key (bget slot) (lease_poll_checkpoints session));
  checkpoint ← ok_or (lease_poll_checkpoints session !! index) (LeasePollCheckpointMissing slot);
  Ok (index, checkpoint).

Definition advance_lease_poll (sid : RunnerSessionId) (slot : RunnerSlotOrdinal)
    (expected successor : OperationId) (receipts : list LeaseAuthorityPollReceipt) : mutation :=
  liftM (validate_authority_receipts receipts);;
  self ← getM;
  session ← liftM (require_session self sid);
  found ← liftM (find_checkpoint session slot);
  let checkpoint := found.2 in
  if negb (current_operation_id checkpoint =? expected) then
    liftM
      (if bool_decide (acknowledges_operation_id checkpoint = Some expected) then
         if match pending_authority_receipts checkpoint with [] => true | _ => false end ||
            bool_decide (pending_authority_receipts checkpoint = receipts)
         then Ok false else Err LeaseAuthorityReceiptMismatch
       else Err (LeasePollCheckpointMismatch expected (current_operation_id checkpoint)))
  else if lease_poll_operation_is_used session successor then
    liftM (Err LeasePollOperationConflict)
  else
    modifyM (set_journal_checkpoints
      (<[found.1 := MkPollCheckpoint slot successor (Some expected) receipts]>
         (lease_poll_checkpoints session)) session);;
    mret true.

Definition acknowledge_lease_authority_receipts (sid : RunnerSessionId)
    (slot : RunnerSlotOrdinal) (expected : list LeaseAuthorityPollReceipt) : mutation :=
  self ← getM;
  session ← liftM (require_session self sid);
  liftM (validate_authority_receipts expected);;
  found ← liftM (find_checkpoint session slot);
  let checkpoint := found.2 in
  match pending_authority_receipts checkpoint with
  | [] => mret false
  | _ :: _ =>
      if negb (bool_decide (pending_authority_receipts checkpoint = expected)) then
        liftM (Err LeaseAuthorityReceiptMismatch)
      else
        modifyM (set_journal_checkpoints
          (<[found.1 := MkPollCheckpoint (checkpoint_slot checkpoint)
               (current_operation_id checkpoint) (acknowledges_operation_id checkpoint) []]>
             (lease_poll_checkpoints session)) session);;
        mret true
  end.

(** ** Commands *)

Definition command_is_used (self : StoredJournal) (command : DurableCommand) : bool :=
  match journal_session self with
  | Some session =>
      existsb (λ tombstone, command_operation_id (tombstone_command tombstone) =?
                            command_operation_id command) (command_tombstones session)
  | None => false
  end ||
  existsb (λ slot,
    (command_operation_id (offer_command (slot_offer slot)) =? command_operation_id command) ||
    match cancellation slot with
    | Some cancel => command_operation_id (cancellation_command cancel) =?
                     command_operation_id command
    | None => false
    end) (slots self).

Definition find_tombstone (session : SessionSnapshot) (sequence : CommandSequence) :
    option CommandTombstone :=
  List.find (λ tombstone, bool_decide (command_sequence (tombstone_command tombstone) = sequence))
    (command_tombstones session).

(** The window with one more tombstone, the oldest dropped over the limit. *)
Definition push_tombstone (tombstone : CommandTombstone) (l : list CommandTombstone) :
    list CommandTombstone :=
  let extended := l ++ [tombstone] in
  if MAX_COMMAND_TOMBSTONES <? Z.of_nat (length extended) then delete 0%nat extended
  else extended.

(** A command at or behind the cursor is a replay; its record must match. *)
Definition replay_command (session : SessionSnapshot) (command : DurableCommand)
    (disposition : CommandDisposition) : result JournalInvariantError bool :=
  replay ← ok_or (find_tombstone session (command_sequence command)) CommandReplayOutsideWindow;
  if bool_decide (tombstone_command replay = command) &&
     bool_decide (tombstone_disposition replay = disposition)
  then Ok false else Err CommandReplayConflict.

Definition commit_command (sid : RunnerSessionId) (command : DurableCommand)
    (disposition : CommandDisposition) : mutation :=
  self ← getM;
  session ← liftM (require_session self sid);
  if match session_cursor session with
     | Some current => bget (command_sequence command) <=? bget current
     | None => false
     end then liftM (replay_command session command disposition)
  else if command_is_used self command then liftM (Err CommandReplayConflict)
  else
    expected ← liftM
      match session_cursor session with
      | Some current => map_err (λ _, CounterExhausted) (command_sequence_checked_next current)
      | None => map_err (λ _, CounterExhausted) (command_sequence_new 1)
      end;
    if negb (bool_decide (command_sequence command = expected)) then
      liftM (Err (CommandSequenceMismatch expected (command_sequence command)))
    else
      cursor ← liftM (map_err (λ _, CommandSequenceMismatch expected (command_sequence command))
        (command_cursor_advance (command_cursor session) (command_sequence command)));
      modifyM (set_session (Some (MkSession (session_id session) (selected_protocol session)
        (selected_job_ir session) cursor
        (push_tombstone (MkCommandTombstone command disposition) (command_tombstones session))
        (lease_poll_checkpoints session))));;
      mret true.

Definition record_command_disposition (sid : RunnerSessionId) (command : DurableCommand)
    (disposition : CommandDisposition) : mutation :=
  commit_command sid command disposition.

Definition verify_recorded_command (self : StoredJournal) (sid : RunnerSessionId)
    (command : DurableCommand) (disposition : CommandDisposition) :
    result JournalInvariantError unit :=
  session ← require_session self sid;
  cursor ← ok_or (session_cursor session) CommandReplayConflict;
  if bget cursor <? bget (command_sequence command) then Err CommandReplayConflict
  else
    tombstone ← ok_or (find_tombstone session (command_sequence command))
      CommandReplayOutsideWindow;
    if negb (bool_decide (tombstone_command tombstone = command)) ||
       negb (bool_decide (tombstone_disposition tombstone = disposition))
    then Err CommandReplayConflict else Ok tt.

(** ** Finding a slot *)

Definition slot_index (self : StoredJournal) (slot : RunnerSlotOrdinal) :
    result JournalInvariantError nat :=
  map_err (λ _, SlotNotFound slot) (search_by_key slot_key (bget slot) (slots self)).

(** The slot under its session, ordinal and fence, with its index. *)
Definition fenced_slot (self : StoredJournal) (sid : RunnerSessionId) (slot : RunnerSlotOrdinal)
    (guard : LeaseGuard) : result JournalInvariantError (nat * SlotSnapshot) :=
  _ ← require_session self sid;
  index ← slot_index self slot;
  current ← ok_or (slots self !! index) (SlotNotFound slot);
  _ ← require_guard current guard;
  Ok (index, current).

(** [self.slot_mut(..)?] followed by the body on the borrowed slot. *)
Definition slot_mut (sid : RunnerSessionId) (slot : RunnerSlotOrdinal) (guard : LeaseGuard)
    (body : slot_mutation) : mutation :=
  λ self,
    match fenced_slot self sid slot guard with
    | Err e => (self, Err e)
    | Ok (index, current) =>
        let '(next, outcome) := body current in
        (set_slots (<[index := next]> (slots self)) self, outcome)
    end.

(** ** Slot bodies: offers, authority and lifecycle *)

(** [if c { return Err(e); }] inside a mutation. *)
Definition rejectM {S E : Type} (c : bool) (e : E) : stM S E unit := liftM (reject c e).

Definition slot_accept_offer : slot_mutation :=
  slot ← getM;
  rejectM (is_some (orphan slot)) OrphanNotAuthorized;;
  match offer_status slot with
  | OfferRecorded => modifyM (set_offer_status OfferAccepted);; mret true
  | OfferAccepted => mret false
  | OfferRejected => liftM (Err OfferAlreadyRejected)
  end.

Definition slot_record_authority (delivery : RuntimeAuthorityDeliveryRecord) : slot_mutation :=
  slot ← getM;
  rejectM (negb (bool_decide (offer_status slot = OfferAccepted))) OfferNotAccepted;;
  liftM (authority_delivery_validate delivery);;
  rejectM (negb (binding_matches_offer slot (delivery_binding delivery)))
    InvalidRuntimeAuthorityDelivery;;
  match runtime_authority_delivery slot with
  | Some existing =>
      if bool_decide (existing = delivery) then mret false
      else liftM (Err RuntimeAuthorityDeliveryReplayConflict)
  | None => modifyM (set_authority (Some delivery));; mret true
  end.

Definition slot_acknowledge_authority (generation : RuntimeAuthorityGeneration)
    (bundle_digest : Sha256Digest) (operation_id : OperationId) : slot_mutation :=
  slot ← getM;
  delivery ← liftM (ok_or (runtime_authority_delivery slot) InvalidRuntimeAuthorityDelivery);
  next ← liftM (authority_delivery_acknowledge delivery generation bundle_digest operation_id);
  modifyM (set_authority (Some next.1));;
  mret next.2.

Definition slot_reject_offer (reason : LeaseRejectionReason) (response_operation_id : OperationId)
    (enqueued_at : UnixMillis) : slot_mutation :=
  slot ← getM;
  rejectM (is_some (orphan slot)) OrphanNotAuthorized;;
  match offer_status slot with
  | OfferRecorded =>
      liftM (validate_delivery_enqueued_at enqueued_at);;
      modifyM (set_offer_status OfferRejected);;
      modifyM (set_rejection (Some (lease_rejection_new reason response_operation_id)));;
      modifyM (set_rejection_enqueued_at (Some enqueued_at));;
      mret true
  | OfferAccepted => liftM (Err OfferAlreadyAccepted)
  | OfferRejected =>
      if match rejection slot with
         | Some record =>
             bool_decide (rejection_reason record = reason) &&
             (rejection_operation_id record =? response_operation_id)
         | None => false
         end then mret false
      else liftM (Err LeaseRejectionReplayConflict)
  end.

Definition slot_acknowledge_rejection (response_operation_id : OperationId) : slot_mutation :=
  slot ← getM;
  rejectM (negb (bool_decide (offer_status slot = OfferRejected))) OfferNotRejected;;
  record ← liftM (ok_or (rejection slot) DecodedStateInvalid);
  rejectM (negb (rejection_operation_id record =? response_operation_id))
    LeaseRejectionOperationMismatch;;
  if rejection_acknowledged record then mret false
  else modifyM (set_rejection (Some (acknowledge_response record)));; mret true.

Definition slot_renew_lease (expires_at : UnixMillis) : slot_mutation :=
  slot ← getM;
  rejectM (is_some (orphan slot)) OrphanNotAuthorized;;
  rejectM (bool_decide (offer_status slot = OfferRejected)) OfferAlreadyRejected;;
  rejectM (expires_at <? slot_expires_at slot) LeaseExpiryRegression;;
  if expires_at =? slot_expires_at slot then mret false
  else modifyM (set_expires_at expires_at);; mret true.

Definition slot_transition_lifecycle (next : JobLifecycle) : slot_mutation :=
  slot ← getM;
  rejectM (negb (bool_decide (offer_status slot = OfferAccepted))) OfferNotAccepted;;
  rejectM (is_some (orphan slot)) OrphanNotAuthorized;;
  if bool_decide (slot_lifecycle slot = next) then mret false
  else
    rejectM (is_terminal next) TerminalResultRequired;;
    rejectM (bool_decide (next = Finalizing) && is_some (endpoint_recovery_pending slot))
      EndpointRecoveryPending;;
    liftM (map_err (λ _, InvalidLifecycleTransition)
             (validate_transition (slot_lifecycle slot) next));;
    modifyM (set_slot_lifecycle next);;
    mret true.

Definition slot_record_terminal_result (terminal : JobLifecycle) (result : TerminalResultRecord)
    (enqueued_at : UnixMillis) : slot_mutation :=
  slot ← getM;
  rejectM (negb (bool_decide (offer_status slot = OfferAccepted))) OfferNotAccepted;;
  rejectM (is_some (orphan slot)) OrphanNotAuthorized;;
  liftM (terminal_result_validate result);;
  rejectM (result_acknowledged result) TerminalResultAlreadyAcknowledgedInput;;
  rejectM (negb (is_terminal terminal)) InvalidLifecycleTransition;;
  rejectM (is_some (endpoint_recovery_pending slot)) EndpointRecoveryPending;;
  match terminal_result slot with
  | Some existing =>
      if matches_unacknowledged existing result &&
         bool_decide (slot_lifecycle slot = terminal)
      then mret false else liftM (Err TerminalResultReplayConflict)
  | None =>
      liftM (validate_delivery_enqueued_at enqueued_at);;
      liftM (map_err (λ _, InvalidLifecycleTransition)
               (validate_transition (slot_lifecycle slot) terminal));;
      modifyM (set_slot_lifecycle terminal);;
      modifyM (set_terminal_result (Some result));;
      modifyM (set_terminal_result_enqueued_at (Some enqueued_at));;
      mret true
  end.

Definition slot_acknowledge_terminal_result (operation_id : OperationId) : slot_mutation :=
  slot ← getM;
  result ← liftM (ok_or (terminal_result slot) TerminalResultRequired);
  rejectM (negb (result_operation_id result =? operation_id)) TerminalResultOperationMismatch;;
  if result_acknowledged result then mret false
  else modifyM (set_terminal_result (Some (terminal_result_acknowledge result)));; mret true.

(** ** Slot bodies: endpoint operations *)

(** [last().is_some_and(p)]. *)
Definition last_is_some_and {A : Type} (p : A → bool) (l : list A) : bool :=
  match last l with Some x => p x | None => false end.

(** [iter_mut().find(..)]: the first operation with the identity. *)
Definition find_endpoint (operation_id : OperationId) (l : list EndpointOperation) :
    option (nat * EndpointOperation) :=
  list_find (λ operation, endpoint_operation_id operation = operation_id) l.

Definition terminalize_orphan_after_endpoint_resolution (slot : SlotSnapshot) : SlotSnapshot :=
  if is_some (orphan slot) && negb (is_terminal (slot_lifecycle slot)) &&
     negb (is_some (endpoint_recovery_pending slot))
  then set_slot_lifecycle Lost slot else slot.

(** Runs a request on the operation with the identity. *)
Definition slot_endpoint_request (operation_id : OperationId) (request : endpoint_request_op) :
    slot_mutation :=
  slot ← getM;
  found ← liftM (ok_or (find_endpoint operation_id (endpoint_operations slot))
                   EndpointOperationMissing);
  next ← liftM (run_endpoint request found.2);
  modifyM (set_endpoint_operations (<[found.1 := next.1]> (endpoint_operations slot)));;
  mret next.2.

(** [refs.checked_add(..)] folded over the recorded operations. *)
Definition prospective_refs (operation : EndpointOperation) (l : list EndpointOperation) :
    option Z :=
  foldl (λ total current, total ≫= λ refs, checked_add u64_max refs (accounted_content_refs current))
    (Some (accounted_content_refs operation)) l.

Definition prospective_bytes (operation : EndpointOperation) (l : list EndpointOperation) :
    result JournalInvariantError Z :=
  start ← accounted_content_bytes operation;
  try_fold (λ total current,
    bytes ← accounted_content_bytes current;
    ok_or (checked_add u64_max total bytes) EndpointContentBytesLimit) start l.

Definition slot_accept_endpoint (operation : EndpointOperation) : slot_mutation :=
  slot ← getM;
  rejectM (negb (bool_decide (offer_status slot = OfferAccepted))) OfferNotAccepted;;
  rejectM (is_terminal (slot_lifecycle slot)) LeaseTerminal;;
  rejectM (is_some (orphan slot)) OrphanNotAuthorized;;
  liftM (endpoint_operation_validate operation);;
  rejectM (negb (bool_decide (endpoint_state operation = EndpointAccepted)))
    EndpointOperationNotAccepted;;
  match find_endpoint (endpoint_operation_id operation) (endpoint_operations slot) with
  | Some (_, existing) =>
      if matches_acceptance existing operation then mret false
      else liftM (Err EndpointOperationReplayConflict)
  | None =>
      rejectM (is_some (cancellation slot)) EndpointOperationsClosed;;
      rejectM (last_is_some_and is_recovery_pending (endpoint_operations slot))
        EndpointOperationPending;;
      rejectM (MAX_ENDPOINT_OPERATIONS_PER_JOB <=? Z.of_nat (length (endpoint_operations slot)))
        EndpointOperationLimit;;
      refs ← liftM (ok_or (prospective_refs operation (endpoint_operations slot))
                      EndpointContentRefLimit);
      rejectM (MAX_ENDPOINT_CONTENT_REFS_PER_SLOT <? refs) EndpointContentRefLimit;;
      content_bytes ← liftM (prospective_bytes operation (endpoint_operations slot));
      rejectM (MAX_ENDPOINT_CONTENT_BYTES_PER_SLOT <? content_bytes) EndpointContentBytesLimit;;
      modifyM (set_endpoint_operations (endpoint_operations slot ++ [operation]));;
      mret true
  end.

Definition slot_commit_endpoint_invocation (operation_id : OperationId) : slot_mutation :=
  slot_endpoint_request operation_id CommitInvocation.

Definition slot_record_endpoint_cancellation (operation_id : OperationId) : slot_mutation :=
  changed ← slot_endpoint_request operation_id RequestCancellation;
  modifyM terminalize_orphan_after_endpoint_resolution;;
  mret changed.

Definition slot_complete_endpoint_cancellation (operation_id : OperationId) : slot_mutation :=
  slot ← getM;
  rejectM (is_some (slot_sandbox slot)) EndpointSandboxStillPresent;;
  changed ← slot_endpoint_request operation_id CompleteCancellation;
  modifyM terminalize_orphan_after_endpoint_resolution;;
  mret changed.

Definition slot_abandon_endpoint (operation_id : OperationId) : slot_mutation :=
  slot ← getM;
  rejectM (is_some (slot_sandbox slot)) EndpointSandboxStillPresent;;
  changed ← slot_endpoint_request operation_id AbandonOperation;
  modifyM terminalize_orphan_after_endpoint_resolution;;
  mret changed.

Definition slot_record_endpoint_result (operation_id : OperationId)
    (result : EndpointResultContentRef) : slot_mutation :=
  slot_endpoint_request operation_id (RecordResult result).

(** ** Slot bodies: provider operations *)

Definition find_provider (operation_id : OperationId) (l : list ProviderOperation) :
    option ProviderOperation :=
  List.find (λ operation, provider_operation_id operation =? operation_id) l.

(** [remove(0)] and compaction into the checkpoint. *)
Definition compact_oldest : stM SlotSnapshot JournalInvariantError unit :=
  slot ← getM;
  match provider_operations slot with
  | [] => mret tt
  | compacted :: rest =>
      modifyM (set_provider_operations rest);;
      checkpoint ← liftM (recovery_compact (provider_checkpoint slot) compacted);
      modifyM (set_provider_checkpoint checkpoint)
  end.

(** Whether the lifecycle admits the mutation. *)
Definition provider_lifecycle_valid (lifecycle : JobLifecycle) (kind : ProviderOperationKind) :
    bool :=
  match kind with
  | CreateSandbox => match lifecycle with Leased | Preparing => true | _ => false end
  | StartSandbox => match lifecycle with Preparing => true | _ => false end
  | StopSandbox => match lifecycle with Running | Cancelling => true | _ => false end
  | DestroySandbox => true
  end.

Definition stops_or_destroys (kind : ProviderOperationKind) : bool :=
  match kind with StopSandbox | DestroySandbox => true | _ => false end.

Definition slot_record_provider_intent (intent : ProviderOperation) : slot_mutation :=
  slot ← getM;
  rejectM (negb (bool_decide (offer_status slot = OfferAccepted))) OfferNotAccepted;;
  rejectM (is_terminal (slot_lifecycle slot) && negb (is_some (orphan slot)) &&
           negb (bool_decide (provider_kind intent = DestroySandbox))) LeaseTerminal;;
  rejectM (is_some (orphan slot) && negb (stops_or_destroys (provider_kind intent)))
    (InvalidProviderOperation (provider_kind intent));;
  rejectM (negb (bool_decide (provider_outcome intent = OutcomePending)))
    (InvalidProviderOperation (provider_kind intent));;
  match find_provider (provider_operation_id intent) (provider_operations slot) with
  | Some existing =>
      if bool_decide (provider_kind existing = provider_kind intent) then mret false
      else liftM (Err ProviderOperationReplayConflict)
  | None =>
      rejectM (last_is_some_and provider_is_pending (provider_operations slot))
        ProviderOperationPending;;
      (if MAX_PROVIDER_OPERATIONS_PER_SLOT <=? Z.of_nat (length (provider_operations slot))
       then compact_oldest else mret tt);;
      slot ← getM;
      recovery ← liftM (replay_provider_operations (provider_checkpoint slot)
                          (provider_operations slot));
      rejectM (negb ((is_some (orphan slot) ||
                      provider_lifecycle_valid (slot_lifecycle slot) (provider_kind intent)) &&
                     can_begin recovery (provider_kind intent)))
        (InvalidProviderOperation (provider_kind intent));;
      modifyM (set_provider_operations (provider_operations slot ++ [intent]));;
      mret true
  end.

(** [last_mut()] with its replacement. *)
Definition set_last_provider (operation : ProviderOperation) (slot : SlotSnapshot) :
    SlotSnapshot :=
  set_provider_operations (set_last operation (provider_operations slot)) slot.

Definition slot_record_sandbox_created (operation_id : OperationId) (sandbox : SandboxIdentity) :
    slot_mutation :=
  slot ← getM;
  operation ← liftM (ok_or (last (provider_operations slot)) SandboxWithoutCreateIntent);
  rejectM (negb (provider_operation_id operation =? operation_id) ||
           negb (bool_decide (provider_kind operation = CreateSandbox)))
    SandboxWithoutCreateIntent;;
  if bool_decide (provider_outcome operation = OutcomeApplied) then
    liftM (if bool_decide (slot_sandbox slot = Some sandbox) then Ok false
           else Err SandboxIdentityConflict)
  else
    rejectM (is_some (slot_sandbox slot)) SandboxIdentityConflict;;
    next ← liftM (mark_applied operation);
    modifyM (set_last_provider next.1);;
    modifyM (set_sandbox (Some sandbox));;
    mret next.2.

Definition slot_complete_provider_operation (operation_id : OperationId) : slot_mutation :=
  slot ← getM;
  operation ← liftM (ok_or (last (provider_operations slot)) ProviderOperationReplayConflict);
  rejectM (negb (provider_operation_id operation =? operation_id))
    ProviderOperationReplayConflict;;
  rejectM (bool_decide (provider_kind operation = CreateSandbox)) SandboxWithoutCreateIntent;;
  next ← liftM (mark_applied operation);
  modifyM (set_last_provider next.1);;
  (if next.2 && bool_decide (provider_kind operation = DestroySandbox)
   then modifyM (set_sandbox None) else mret tt);;
  mret next.2.

Definition slot_fail_provider_operation (operation_id : OperationId)
    (failure : ProviderFailureOutcome) : slot_mutation :=
  slot ← getM;
  operation ← liftM (ok_or (last (provider_operations slot)) ProviderOperationReplayConflict);
  rejectM (negb (provider_operation_id operation =? operation_id))
    ProviderOperationReplayConflict;;
  next ← liftM (resolve_failure operation failure);
  modifyM (set_last_provider next.1);;
  mret next.2.

(** ** Slot bodies: outbound operations, logs and orphans *)

Definition slot_advance_outbound (sequence : OutboundOperationSequence) : slot_mutation :=
  slot ← getM;
  if bool_decide (outbound_contiguous_through (outbound_operations slot) = Some sequence) then
    mret false
  else
    next ← liftM (outbound_advance (outbound_operations slot) sequence);
    modifyM (set_outbound next);;
    mret true.

Definition slot_open_log_stream (stream_id : LogStreamId) : slot_mutation :=
  slot ← getM;
  rejectM (negb (bool_decide (offer_status slot = OfferAccepted))) OfferNotAccepted;;
  rejectM (is_some (orphan slot)) OrphanNotAuthorized;;
  match log_delivery slot with
  | Some log =>
      liftM (if cursor_stream_id log =? stream_id then Ok false else Err LogStreamMismatch)
  | None => modifyM (set_log_delivery (Some (cursor_new stream_id)));; mret true
  end.

(** A request on the slot's log cursor. *)
Definition slot_log_request (op : log_op) : slot_mutation :=
  slot ← getM;
  log ← liftM (ok_or (log_delivery slot) LogStreamMismatch);
  next ← liftM (run_log_op log op);
  modifyM (set_log_delivery (Some next.1));;
  mret next.2.

Definition slot_record_log_segment (publication : LogSegmentPublication)
    (enqueued_at : UnixMillis) : slot_mutation :=
  slot ← getM;
  rejectM (is_some (orphan slot)) OrphanNotAuthorized;;
  slot_log_request (RecordLog publication enqueued_at).

Definition slot_abandon_orphan_delivery (authority_operation_id : OperationId)
    (delivery : OrphanDelivery) (reason : OrphanAbandonmentReason) : slot_mutation :=
  slot ← getM;
  let exists_ :=
    match delivery with
    | OrphanTerminalResult => is_some (terminal_result slot)
    | OrphanLogStream => is_some (log_delivery slot)
    | OrphanLeaseRejection => is_some (rejection slot)
    end in
  rejectM (negb exists_) OrphanAbandonmentConflict;;
  record ← liftM (ok_or (orphan slot) OrphanNotAuthorized);
  next ← liftM (orphan_abandon record authority_operation_id delivery reason);
  modifyM (set_orphan (Some next.1));;
  mret next.2.

(** ** Offers, cancellations, polls and releases *)

Section Mutations.
Context {hasher : Sha256} {uuids : Uuid}.

Definition record_offer (sid : RunnerSessionId) (offer : LeaseOfferRecord) : mutation :=
  self ← getM;
  session ← liftM (require_session self sid);
  liftM (offer_validate offer);;
  rejectM (negb (lease_runner_id (offer_lease offer) =? journal_runner_id self))
    LeaseRunnerMismatch;;
  rejectM (negb (bool_decide (job_ir_version (offer_job_ir offer) = selected_job_ir session)))
    JobIrVersionMismatch;;
  rejectM (MAX_JOURNALED_SLOTS <? bget (offer_slot offer)) SlotLimitReached;;
  match search_by_key slot_key (bget (offer_slot offer)) (slots self) with
  | Ok index =>
      liftM match slots self !! index with
            | Some slot => if bool_decide (slot_offer slot = offer) then Ok false
                           else Err (SlotOccupied (offer_slot offer))
            | None => Err (SlotOccupied (offer_slot offer))
            end
  | Err _ =>
      rejectM (MAX_JOURNALED_SLOTS <=? Z.of_nat (length (slots self))) SlotLimitReached;;
      changed ← commit_command sid (offer_command offer) CommandApplied;
      if negb changed then mret false
      else
        self ← getM;
        let insertion :=
          match search_by_key slot_key (bget (offer_slot offer)) (slots self) with
          | Ok index | Err index => index
          end in
        modifyM (set_slots (insert_at insertion (slot_from_offer offer) (slots self)));;
        mret true
  end.

(** [last_mut().filter(is_recovery_pending)] and its cancellation. *)
Definition cancel_pending_endpoint (slot : SlotSnapshot) : SlotSnapshot :=
  match last (endpoint_operations slot) with
  | Some operation =>
      if is_recovery_pending operation then
        set_endpoint_operations
          (set_last (request_cancellation operation).1 (endpoint_operations slot)) slot
      else slot
  | None => slot
  end.

Definition record_cancellation (sid : RunnerSessionId) (slot : RunnerSlotOrdinal)
    (guard : LeaseGuard) (record : CancellationRecord) : mutation :=
  self ← getM;
  found ← liftM (fenced_slot self sid slot guard);
  let current := found.2 in
  rejectM (is_some (orphan current)) OrphanNotAuthorized;;
  rejectM (bool_decide (offer_status current = OfferRejected)) OfferAlreadyRejected;;
  if bool_decide (cancellation current = Some record) then mret false
  else
    rejectM (is_some (cancellation current)) CommandReplayConflict;;
    changed ← commit_command sid (cancellation_command record) CommandApplied;
    if negb changed then mret false
    else
      (if bool_decide (slot_lifecycle current = Cancelling) then mret tt
       else liftM (map_err (λ _, InvalidLifecycleTransition)
                     (validate_transition (slot_lifecycle current) Cancelling)));;
      modifyM (λ self, set_slots (<[found.1 :=
        cancel_pending_endpoint (set_slot_lifecycle Cancelling
          (set_cancellation (Some record) current))]> (slots self)) self);;
      mret true.

Definition complete_lease_poll (sid : RunnerSessionId) (completion : LeasePollCompletion) :
    mutation :=
  liftM (validate_authority_receipts (completion_receipts completion));;
  checkpoint_changed ← advance_lease_poll sid (poll_slot completion)
    (expected_current completion) (successor_operation_id completion)
    (completion_receipts completion);
  command_changed ←
    match completion_command completion with
    | NoCommand => mret false
    | PollRecorded command disposition =>
        self ← getM;
        liftM (verify_recorded_command self sid command disposition);;
        mret false
    | PollIgnored command reason => record_command_disposition sid command (CommandIgnored reason)
    | PollLeaseOffer offer => record_offer sid offer
    | PollCancellation slot guard record => record_cancellation sid slot guard record
    end;
  rejectM (negb checkpoint_changed && command_changed) CommandReplayConflict;;
  mret (command_changed || checkpoint_changed).

Definition orphan_claim (self : StoredJournal) (sid : RunnerSessionId) (slot : RunnerSlotOrdinal)
    (guard : LeaseGuard) : result JournalInvariantError OrphanClaim :=
  found ← fenced_slot self sid slot guard;
  Ok (MkOrphanClaim (journal_runner_id self) sid (offer_slot (slot_offer found.2)) guard).

(** The slot once the grant is recorded. *)
Definition orphan_slot (grant : OrphanAuthorityGrant) (slot : SlotSnapshot) : SlotSnapshot :=
  let granted := set_orphan (Some (orphan_from_grant grant)) slot in
  if negb (is_terminal (slot_lifecycle slot)) && negb (is_some (endpoint_recovery_pending slot))
  then set_slot_lifecycle Lost granted else granted.

Definition authorize_orphan (grant : OrphanAuthorityGrant) : mutation :=
  self ← getM;
  let claim := grant_claim grant in
  expected ← liftM (orphan_claim self (claim_session_id claim) (claim_slot claim)
                      (claim_guard claim));
  rejectM (negb (bool_decide (claim = expected))) OrphanAuthorityMismatch;;
  index ← liftM (slot_index self (claim_slot claim));
  slot ← liftM (ok_or (slots self !! index) (SlotNotFound (claim_slot claim)));
  match orphan slot with
  | Some record =>
      liftM (if orphan_matches_grant record grant then Ok false else Err OrphanAuthorityMismatch)
  | None =>
      modifyM (set_slots (<[index := orphan_slot grant slot]> (slots self)));;
      mret true
  end.

(** What must have been delivered, or abandoned with authority, before the
    slot is released. *)
Definition slot_release_check (slot : SlotSnapshot) : result JournalInvariantError unit :=
  let abandoned delivery :=
    match orphan slot with Some record => is_abandoned record delivery | None => false end in
  _ ← reject (negb (bool_decide (offer_status slot = OfferAccepted)) &&
              negb (is_some (orphan slot))) OfferNotAccepted;
  _ ← reject (negb (is_terminal (slot_lifecycle slot)) ||
              last_is_some_and provider_is_pending (provider_operations slot) ||
              is_some (slot_sandbox slot) ||
              existsb is_recovery_pending (endpoint_operations slot)) SlotNotTerminal;
  _ ← reject (negb (match log_delivery slot with
                    | Some log => is_fully_delivered log
                    | None => true
                    end || abandoned OrphanLogStream)) LogDeliveryIncomplete;
  let result_complete :=
    match terminal_result slot with
    | Some result => result_acknowledged result
    | None => false
    end ||
    (is_some (orphan slot) &&
     (abandoned OrphanTerminalResult || negb (is_some (terminal_result slot)))) in
  _ ← reject (bool_decide (offer_status slot = OfferAccepted) && negb result_complete)
        TerminalResultNotAcknowledged;
  reject (negb match rejection slot with
               | Some record => rejection_acknowledged record || abandoned OrphanLeaseRejection
               | None => true
               end) LeaseRejectionNotAcknowledged.

Definition release_slot (sid : RunnerSessionId) (slot : RunnerSlotOrdinal) (guard : LeaseGuard) :
    mutation :=
  self ← getM;
  found ← liftM (fenced_slot self sid slot guard);
  liftM (slot_release_check found.2);;
  modifyM (set_slots (delete found.1 (slots self)));;
  mret true.

Definition release_rejected_offer (sid : RunnerSessionId) (slot : RunnerSlotOrdinal)
    (guard : LeaseGuard) (response_operation_id : OperationId) : mutation :=
  self ← getM;
  found ← liftM (fenced_slot self sid slot guard);
  rejectM (negb (bool_decide (offer_status found.2 = OfferRejected))) OfferNotRejected;;
  record ← liftM (ok_or (rejection found.2) DecodedStateInvalid);
  rejectM (negb (rejection_operation_id record =? response_operation_id))
    LeaseRejectionOperationMismatch;;
  rejectM (negb (rejection_acknowledged record)) LeaseRejectionNotAcknowledged;;
  modifyM (set_slots (delete found.1 (slots self)));;
  mret true.

(** ** The mutations of the journal interface ([journal.rs]) *)

(** What [slot_mut] runs. *)
Inductive slot_op :=
| AcceptOffer
| RecordAuthority (delivery : RuntimeAuthorityDeliveryRecord)
| AcknowledgeAuthority (generation : RuntimeAuthorityGeneration) (bundle_digest : Sha256Digest)
    (operation_id : OperationId)
| RejectOffer (reason : LeaseRejectionReason) (response_operation_id : OperationId)
    (enqueued_at : UnixMillis)
| AcknowledgeRejection (response_operation_id : OperationId)
| RenewLease (expires_at : UnixMillis)
| TransitionLifecycle (next : JobLifecycle)
| RecordTerminalResult (terminal : JobLifecycle) (result : TerminalResultRecord)
    (enqueued_at : UnixMillis)
| AcknowledgeTerminalResult (operation_id : OperationId)
| AcceptEndpoint (operation : EndpointOperation)
| CommitEndpoint (operation_id : OperationId)
| CancelEndpoint (operation_id : OperationId)
| CompleteEndpointCancellation (operation_id : OperationId)
| AbandonEndpoint (operation_id : OperationId)
| RecordEndpointResult (operation_id : OperationId) (result : EndpointResultContentRef)
| RecordProviderIntent (intent : ProviderOperation)
| RecordSandboxCreated (operation_id : OperationId) (sandbox : SandboxIdentity)
| CompleteProviderOperation (operation_id : OperationId)
| FailProviderOperation (operation_id : OperationId) (failure : ProviderFailureOutcome)
| AdvanceOutbound (sequence : OutboundOperationSequence)
| OpenLogStream (stream_id : LogStreamId)
| RecordLogSegment (publication : LogSegmentPublication) (enqueued_at : UnixMillis)
| SealLogSegment (stream_id : LogStreamId) (expected_content : DurableContentRef)
| AcknowledgeLogSegment (acknowledgement : LogSegmentAcknowledgement)
| AbandonOrphanDelivery (authority_operation_id : OperationId) (delivery : OrphanDelivery)
    (reason : OrphanAbandonmentReason).

Definition run_slot_op (op : slot_op) : slot_mutation :=
  match op with
  | AcceptOffer => slot_accept_offer
  | RecordAuthority delivery => slot_record_authority delivery
  | AcknowledgeAuthority generation digest id => slot_acknowledge_authority generation digest id
  | RejectOffer reason id enqueued_at => slot_reject_offer reason id enqueued_at
  | AcknowledgeRejection id => slot_acknowledge_rejection id
  | RenewLease expires_at => slot_renew_lease expires_at
  | TransitionLifecycle next => slot_transition_lifecycle next
  | RecordTerminalResult terminal result enqueued_at =>
      slot_record_terminal_result terminal result enqueued_at
  | AcknowledgeTerminalResult id => slot_acknowledge_terminal_result id
  | AcceptEndpoint operation => slot_accept_endpoint operation
  | CommitEndpoint id => slot_commit_endpoint_invocation id
  | CancelEndpoint id => slot_record_endpoint_cancellation id
  | CompleteEndpointCancellation id => slot_complete_endpoint_cancellation id
  | AbandonEndpoint id => slot_abandon_endpoint id
  | RecordEndpointResult id result => slot_record_endpoint_result id result
  | RecordProviderIntent intent => slot_record_provider_intent intent
  | RecordSandboxCreated id sandbox => slot_record_sandbox_created id sandbox
  | CompleteProviderOperation id => slot_complete_provider_operation id
  | FailProviderOperation id failure => slot_fail_provider_operation id failure
  | AdvanceOutbound sequence => slot_advance_outbound sequence
  | OpenLogStream stream_id => slot_open_log_stream stream_id
  | RecordLogSegment publication enqueued_at => slot_record_log_segment publication enqueued_at
  | SealLogSegment stream_id content => slot_log_request (SealLog stream_id content)
  | AcknowledgeLogSegment acknowledgement => slot_log_request (AcknowledgeLog acknowledgement)
  | AbandonOrphanDelivery id delivery reason => slot_abandon_orphan_delivery id delivery reason
  end.

Inductive journal_op :=
| BeginSession (binding : SessionBinding)
| PrepareLeasePoll (sid : RunnerSessionId) (slot : RunnerSlotOrdinal) (operation_id : OperationId)
| CompleteLeasePoll (sid : RunnerSessionId) (completion : LeasePollCompletion)
| AcknowledgeReceipts (sid : RunnerSessionId) (slot : RunnerSlotOrdinal)
    (expected : list LeaseAuthorityPollReceipt)
| RecordDisposition (sid : RunnerSessionId) (command : DurableCommand)
    (disposition : CommandDisposition)
| RecordOffer (sid : RunnerSessionId) (offer : LeaseOfferRecord)
| RecordCancellation (sid : RunnerSessionId) (slot : RunnerSlotOrdinal) (guard : LeaseGuard)
    (record : CancellationRecord)
| OnSlot (sid : RunnerSessionId) (slot : RunnerSlotOrdinal) (guard : LeaseGuard) (op : slot_op)
| AuthorizeOrphan (grant : OrphanAuthorityGrant)
| ReleaseSlot (sid : RunnerSessionId) (slot : RunnerSlotOrdinal) (guard : LeaseGuard)
| ReleaseRejectedOffer (sid : RunnerSessionId) (slot : RunnerSlotOrdinal) (guard : LeaseGuard)
    (response_operation_id : OperationId).

Definition run_journal_op (op : journal_op) : mutation :=
  match op with
  | BeginSession binding => begin_session binding
  | PrepareLeasePoll sid slot id => prepare_lease_poll sid slot id
  | CompleteLeasePoll sid completion => complete_lease_poll sid completion
  | AcknowledgeReceipts sid slot expected => acknowledge_lease_authority_receipts sid slot expected
  | RecordDisposition sid command disposition =>
      record_command_disposition sid command disposition
  | RecordOffer sid offer => record_offer sid offer
  | RecordCancellation sid slot guard record => record_cancellation sid slot guard record
  | OnSlot sid slot guard op => slot_mut sid slot guard (run_slot_op op)
  | AuthorizeOrphan grant => authorize_orphan grant
  | ReleaseSlot sid slot guard => release_slot sid slot guard
  | ReleaseRejectedOffer sid slot guard id => release_rejected_offer sid slot guard id
  end.

End Mutations.

(** ** Views of the journal *)

Record PendingDeliveryTimestamps := MkPendingTimestamps {
  pending_terminal_result : option UnixMillis;
  pending_lease_rejection : option UnixMillis;
  pending_log_stream : option UnixMillis;
}.

Definition include_oldest (current : option UnixMillis) (candidate : UnixMillis) :
    option UnixMillis :=
  if match current with Some value => candidate <? value | None => true end
  then Some candidate else current.

Definition orphan_abandoned (slot : SlotSnapshot) (delivery : OrphanDelivery) : bool :=
  match orphan slot with Some record => is_abandoned record delivery | None => false end.

(** The enqueue times of one slot's deliveries that are still to be made. *)
Definition slot_pending (slot : SlotSnapshot) : PendingDeliveryTimestamps :=
  MkPendingTimestamps
    (if match terminal_result slot with
        | Some result => negb (result_acknowledged result)
        | None => false
        end && negb (orphan_abandoned slot OrphanTerminalResult)
     then terminal_result_enqueued_at slot else None)
    (if match rejection slot with
        | Some record => negb (rejection_acknowledged record)
        | None => false
        end && negb (orphan_abandoned slot OrphanLeaseRejection)
     then rejection_enqueued_at slot else None)
    (match log_delivery slot with
     | Some log =>
         if negb (is_fully_delivered log) && negb (orphan_abandoned slot OrphanLogStream)
         then oldest_pending_enqueued_at log else None
     | None => None
     end).

Definition include_optional (current candidate : option UnixMillis) : option UnixMillis :=
  match candidate with Some value => include_oldest current value | None => current end.

Definition include_slot (timestamps : PendingDeliveryTimestamps) (slot : SlotSnapshot) :
    PendingDeliveryTimestamps :=
  let pending := slot_pending slot in
  MkPendingTimestamps
    (include_optional (pending_terminal_result timestamps) (pending_terminal_result pending))
    (include_optional (pending_lease_rejection timestamps) (pending_lease_rejection pending))
    (include_optional (pending_log_stream timestamps) (pending_log_stream pending)).

Definition pending_delivery_timestamps (self : StoredJournal) : PendingDeliveryTimestamps :=
  foldl include_slot (MkPendingTimestamps None None None) (slots self).

Definition optional_content {A : Type} (f : A → DurableContentRef) (o : option A) :
    list DurableContentRef :=
  match o with Some a => [f a] | None => [] end.

Definition endpoint_contents (operation : EndpointOperation) : list DurableContentRef :=
  request_content (endpoint_request operation) ::
  match endpoint_state operation with
  | EndpointCompleted result => [endpoint_result_content result]
  | _ => []
  end.

Definition slot_contents (slot : SlotSnapshot) : list DurableContentRef :=
  [job_ir_content (offer_job_ir (slot_offer slot))] ++
  optional_content (λ delivery, authority_content (delivery_content delivery))
    (runtime_authority_delivery slot) ++
  optional_content result_content (terminal_result slot) ++
  match log_delivery slot with
  | Some log => segment_content <$> segments log
  | None => []
  end ++
  (endpoint_operations slot ≫= endpoint_contents).

Definition content_references (self : StoredJournal) : list DurableContentRef :=
  slots self ≫= slot_contents.
