(* ===== verification/JournalInvariant.v ===== *)
(** * JournalInvariant: what the journal's mutations keep

    The decoding checks of [Journal] as a relation between the journal's parts,
    and the proof that every accepted mutation keeps it: the slots, the command
    window and the lease-poll checkpoints it leaves behind pass the checks a
    restart makes. *)

From S2P Require Import Prelude Text Execution Capability Log JournalBase ManagedSecret.
From S2P Require Import LogDelivery Saga Journal.

(** ** Checks as propositions *)

Lemma reject_Ok {E : Type} (c : bool) (e : E) : reject c e = Ok tt ↔ c = false.
Proof. unfold reject. destruct c; naive_solver. Qed.

Lemma bind_unit_Ok {E A : Type} (m : result E unit) (k : unit → result E A) (a : A) :
  (m ≫= k) = Ok a ↔ m = Ok tt ∧ k tt = Ok a.
Proof. destruct m as [[]|]; simpl; naive_solver. Qed.

Lemma match_unit_Ok {E A : Type} (o : option A) (k : A → result E unit) :
  match o with Some a => k a | None => Ok tt end = Ok tt ↔ ∀ a, o = Some a → k a = Ok tt.
Proof. destruct o; naive_solver. Qed.

Lemma is_some_true {A : Type} (o : option A) : is_some o = true ↔ ∃ a, o = Some a.
Proof. destruct o; naive_solver. Qed.

Lemma is_some_false {A : Type} (o : option A) : is_some o = false ↔ o = None.
Proof. by destruct o. Qed.

(** Turns the tests of a run into propositions. *)
Ltac bool_facts :=
  repeat match goal with
  | H : negb _ = false |- _ => apply negb_false_iff in H
  | H : negb _ = true |- _ => apply negb_true_iff in H
  | H : _ || _ = false |- _ => apply orb_false_iff in H as [? ?]
  | H : _ && _ = true |- _ => apply andb_true_iff in H as [? ?]
  | H : bool_decide _ = true |- _ => apply bool_decide_eq_true in H
  | H : bool_decide _ = false |- _ => apply bool_decide_eq_false in H
  | H : is_some _ = false |- _ => apply is_some_false in H
  | H : (_ =? _) = true |- _ => apply Z.eqb_eq in H
  | H : (_ =? _) = false |- _ => apply Z.eqb_neq in H
  | H : (_ <? _) = true |- _ => apply Z.ltb_lt in H
  | H : (_ <? _) = false |- _ => apply Z.ltb_ge in H
  | H : (_ <=? _) = true |- _ => apply Z.leb_le in H
  | H : (_ <=? _) = false |- _ => apply Z.leb_gt in H
  | u : unit |- _ => destruct u
  end.

(** ** One slot *)

Section SlotOk.
Context {hasher : Sha256} {uuids : Uuid}.

(** [slot_validate], check by check. *)
Record slot_ok (rid : RunnerId) (session : SessionSnapshot) (s : SlotSnapshot) : Prop := {
  ok_offer : offer_validate (slot_offer s) = Ok tt;
  ok_authority : validate_runtime_authority_delivery s = Ok tt;
  ok_runner : lease_runner_id (offer_lease (slot_offer s)) = rid;
  ok_job_ir : job_ir_version (offer_job_ir (slot_offer s)) = selected_job_ir session;
  ok_expiry : offer_expires_at (slot_offer s) <= slot_expires_at s;
  ok_provider_count :
    Z.of_nat (length (provider_operations s)) <= MAX_PROVIDER_OPERATIONS_PER_SLOT;
  ok_endpoints : validate_endpoint_operations s = Ok tt;
  ok_provider : validate_provider_state s = Ok tt;
  ok_status : status_consistent s = true;
  ok_timestamps : validate_delivery_timestamps s = Ok tt;
  ok_undecided : orphan s = None → offer_status s ≠ OfferAccepted →
    undecided_lifecycle (slot_lifecycle s) = true;
  ok_rejected_log : offer_status s = OfferRejected → log_delivery s = None;
  ok_terminal_result : ∀ r, terminal_result s = Some r →
    terminal_result_validate r = Ok tt ∧ offer_status s = OfferAccepted ∧
    is_terminal (slot_lifecycle s) = true;
  ok_terminal : offer_status s = OfferAccepted → is_terminal (slot_lifecycle s) = true →
    terminal_result s = None → orphan s ≠ None;
  ok_orphan : ∀ o, orphan s = Some o → orphan_consistent s session o = true;
  ok_cancellation : ∀ c, cancellation s = Some c →
    bget (command_sequence (offer_command (slot_offer s))) <
    bget (command_sequence (cancellation_command c));
  ok_cancelled : cancellation s ≠ None → uncancelled_lifecycle (slot_lifecycle s) = false;
  ok_log : validate_log_state s = Ok tt;
}.

Lemma slot_validate_iff (rid : RunnerId) (session : SessionSnapshot) (s : SlotSnapshot) :
  slot_validate s rid session = Ok tt ↔ slot_ok rid session s.
Proof.
  unfold slot_validate. rewrite !bind_unit_Ok, !reject_Ok.
  rewrite (match_unit_Ok (terminal_result s)), (match_unit_Ok (orphan s)),
    (match_unit_Ok (cancellation s)).
  split.
  - intros (H1 & H2 & H3 & H4 & H5 & H6 & H7 & H8 & H9 & H10 & H11 & H12 & H13 & H14 & H15 &
            H16 & H17 & H18 & H19).
    constructor; try assumption.
    + apply negb_false_iff, Z.eqb_eq in H3. done.
    + apply negb_false_iff, bool_decide_eq_true in H4. done.
    + apply Z.ltb_ge in H5. done.
    + apply Z.ltb_ge in H6. done.
    + apply negb_false_iff in H9. done.
    + intros Ho Hs. rewrite Ho in H11, H12. simpl in *.
      destruct (offer_status s); [|congruence|]; simpl in *; by apply negb_false_iff.
    + intros Hs. rewrite Hs in H13. simpl in H13. by apply is_some_false.
    + intros r Hr. apply H14 in Hr as [Hv [Ha Ht]%reject_Ok%orb_false_iff]%bind_unit_Ok.
      apply negb_false_iff, bool_decide_eq_true in Ha. apply negb_false_iff in Ht. done.
    + intros Ha Ht Hr Ho. rewrite Ha, Ht, Hr, Ho in H15. done.
    + intros o Ho. specialize (H16 o Ho). by apply reject_Ok, negb_false_iff in H16.
    + intros c Hc. specialize (H17 c Hc). by apply reject_Ok, Z.leb_gt in H17.
    + intros Hc. destruct (cancellation s); [|done]. done.
  - intros []. split_and!; try assumption.
    + rewrite ok_runner0, Z.eqb_refl. done.
    + by rewrite bool_decide_eq_true_2.
    + by apply Z.ltb_ge.
    + by apply Z.ltb_ge.
    + by apply negb_false_iff.
    + destruct (orphan s), (offer_status s); try done. simpl. by rewrite ok_undecided0.
    + destruct (orphan s), (offer_status s); try done. simpl. by rewrite ok_undecided0.
    + destruct (offer_status s); try done. simpl. by rewrite ok_rejected_log0.
    + intros r Hr. destruct (ok_terminal_result0 r Hr) as (Hv & -> & ->). by rewrite Hv.
    + destruct (offer_status s), (is_terminal _), (terminal_result s), (orphan s); try done.
      by destruct ok_terminal0.
    + intros o Ho. by rewrite ok_orphan0.
    + intros c Hc. apply reject_Ok, Z.leb_gt. eauto.
    + destruct (cancellation s); [|done]. by rewrite ok_cancelled0.
Qed.

(** What the mutations keep besides: a log cursor behind its own invariant, no
    log before acceptance, and a counter in range. *)
Record slot_inv (rid : RunnerId) (session : SessionSnapshot) (s : SlotSnapshot) : Prop := {
  inv_ok : slot_ok rid session s;
  inv_log : ∀ log, log_delivery s = Some log → cursor_inv log;
  inv_recorded_log : offer_status s = OfferRecorded → log_delivery s = None;
  inv_compacted : 0 <= compacted_operations (provider_checkpoint s) <= u64_max;
}.

End SlotOk.

(** ** Endpoint lists *)

Definition endpoint_bytes (op : EndpointOperation) : Z :=
  match accounted_content_bytes op with Ok n => n | Err _ => 0 end.

(** Every element but the last is resolved. *)
Definition only_last {A : Type} (p : A → bool) (l : list A) : Prop :=
  ∀ i x, l !! i = Some x → p x = true → S i = length l.

Lemma only_last_cons {A : Type} (p : A → bool) (x : A) (l : list A) :
  only_last p (x :: l) ↔ (l ≠ [] → p x = false) ∧ only_last p l.
Proof.
  unfold only_last. split.
  - intros H. split.
    + intros Hl. destruct (p x) eqn:Hp; [|done]. specialize (H 0%nat x eq_refl Hp).
      destruct l; done.
    + intros i y Hi Hp. specialize (H (S i) y Hi Hp). simpl in H. lia.
  - intros [Hx Hl] [|i] y; simpl.
    + intros [= <-] Hp. destruct l as [|z l]; [done|]. rewrite Hx in Hp; done.
    + intros Hi Hp. by rewrite (Hl i y Hi Hp).
Qed.

Lemma only_last_snoc {A : Type} (p : A → bool) (x : A) (l : list A) :
  only_last p (l ++ [x]) ↔ ∀ y, y ∈ l → p y = false.
Proof.
  induction l as [|z l IH]; simpl.
  - rewrite only_last_cons. split; [set_solver|]. intros _. split; [done|]. by intros [|?] ?.
  - rewrite only_last_cons, IH. setoid_rewrite elem_of_cons. split.
    + intros [Hz Hl] y [->|Hy]; [|eauto]. apply Hz. by destruct l.
    + intros H. split; [intros _; eauto|eauto].
Qed.

Lemma only_last_insert {A : Type} (p : A → bool) (l : list A) (i : nat) (x y : A) :
  l !! i = Some x → (p y = true → p x = true) → only_last p l → only_last p (<[i := y]> l).
Proof.
  intros Hi Hp Hl j z Hj Hz. rewrite length_insert.
  destruct (decide (i = j)) as [<-|Hne].
  - rewrite list_lookup_insert_eq in Hj by (by eapply lookup_lt_Some). injection Hj as <-. eauto.
  - rewrite list_lookup_insert_ne in Hj by done. eauto.
Qed.

(** What [validate_endpoint_list] accepts. *)
Record endpoints_ok (l : list EndpointOperation) : Prop := {
  eps_valid : ∀ op, op ∈ l → endpoint_operation_validate op = Ok tt;
  eps_ids : NoDup (endpoint_operation_id <$> l);
  eps_pending : only_last is_recovery_pending l;
}.

Lemma endpoint_valid_bytes (op : EndpointOperation) :
  endpoint_operation_validate op = Ok tt →
  accounted_content_bytes op = Ok (endpoint_bytes op) ∧ 0 <= endpoint_bytes op.
Proof.
  intros [a [_ _ _ Hb Hr _]]%endpoint_operation_validate_iff.
  unfold endpoint_bytes. rewrite Hb. split; [done|].
  unfold ENDPOINT_REQUEST_COMMITMENT_BYTES in Hr. lia.
Qed.

Lemma accounted_content_refs_range (op : EndpointOperation) : 1 <= accounted_content_refs op <= 2.
Proof. unfold accounted_content_refs. destruct (endpoint_state op); lia. Qed.

Lemma validate_endpoint_list_iff (ids : BTreeSet OperationId) (r0 b0 r b : Z)
    (l : list EndpointOperation) :
  0 <= r0 <= u64_max → 0 <= b0 <= u64_max →
  validate_endpoint_list ids r0 b0 l = Ok (r, b) ↔
  endpoints_ok l ∧ (∀ op, op ∈ l → ¬ endpoint_operation_id op ∈ ids) ∧
  r = r0 + sum_by accounted_content_refs l ∧ b = b0 + sum_by endpoint_bytes l ∧
  r <= u64_max ∧ b <= u64_max.
Proof.
  revert ids r0 b0. induction l as [|op l IH]; intros ids r0 b0 Hr0 Hb0; simpl.
  { split.
    - intros [= <- <-]. split_and!; try lia; [|set_solver].
      constructor; [set_solver|constructor|by intros [|?] ?].
    - intros (_ & _ & -> & -> & _). f_equal. f_equal; lia. }
  pose proof (accounted_content_refs_range op) as Hrange.
  assert (Hnn : ∀ l', 0 <= sum_by accounted_content_refs l').
  { intros l'. apply sum_by_nonneg. intros x _. pose proof (accounted_content_refs_range x). lia. }
  split.
  - intros H. destruct (endpoint_operation_validate op) as [[]|] eqn:Hv; simpl in H; [|done].
    destruct (endpoint_valid_bytes op Hv) as [Hb Hb'].
    destruct (checked_add _ r0 _) as [r1|] eqn:Hr1; simpl in H; [|done].
    apply checked_add_Some in Hr1 as [-> Hr1]. rewrite Hb in H. simpl in H.
    destruct (checked_add _ b0 _) as [b1|] eqn:Hb1; simpl in H; [|done].
    apply checked_add_Some in Hb1 as [-> Hb1].
    destruct (bset_contains ids (endpoint_operation_id op)) eqn:Hid; simpl in H; [done|].
    destruct (is_recovery_pending op && _) eqn:Hp; [done|].
    apply IH in H as ([Hval Hnd Hpe] & Hids & -> & -> & Hr & Hbb); [|lia..].
    rewrite <- not_true_iff_false, bset_contains_spec in Hid.
    split_and!; try lia.
    + constructor.
      * intros x [->|Hx]%elem_of_cons; eauto.
      * rewrite fmap_cons, NoDup_cons. split; [|done].
        intros (x & Hx & Hxl)%list_elem_of_fmap. apply (Hids x Hxl).
        apply elem_of_bset_insert. by left.
      * apply only_last_cons. split; [|done]. intros Hl. destruct (is_recovery_pending op); [|done].
        by destruct l.
    + intros x [->|Hx]%elem_of_cons; [done|]. intros Hin. apply (Hids x Hx).
      apply elem_of_bset_insert. by right.
  - intros ([Hval Hnd Hpe] & Hids & Hr & Hb & Hru & Hbu).
    assert (Hv : endpoint_operation_validate op = Ok tt) by (apply Hval; set_solver).
    rewrite Hv. simpl. destruct (endpoint_valid_bytes op Hv) as [Hbo Hb'].
    assert (Hbl : 0 <= sum_by endpoint_bytes l).
    { apply sum_by_nonneg. intros x Hx. apply endpoint_valid_bytes, Hval. set_solver. }
    specialize (Hnn l). rewrite (proj2 (checked_add_Some _ _ _ (r0 + accounted_content_refs op)))
      by lia. simpl. rewrite Hbo. simpl.
    rewrite (proj2 (checked_add_Some _ _ _ (b0 + endpoint_bytes op))) by lia. simpl.
    assert (Hid : bset_contains ids (endpoint_operation_id op) = false).
    { apply not_true_iff_false. rewrite bset_contains_spec. apply Hids. set_solver. }
    rewrite Hid. simpl. rewrite fmap_cons, NoDup_cons in Hnd. destruct Hnd as [Hnin Hnd].
    apply only_last_cons in Hpe as [Hp0 Hpe].
    assert (Hcond : is_recovery_pending op && match l with [] => false | _ => true end = false).
    { destruct l; [by rewrite andb_false_r|]. by rewrite Hp0. }
    rewrite Hcond. apply IH; [lia..|]. split_and!; try lia.
    + constructor; [intros; apply Hval; set_solver|done..].
    + intros x Hx. rewrite elem_of_bset_insert. intros [Heq|Hin].
      * apply Hnin. apply list_elem_of_fmap. eauto.
      * apply (Hids x); [set_solver|done].
Qed.

Definition endpoint_refs_total (l : list EndpointOperation) : Z := sum_by accounted_content_refs l.
Definition endpoint_bytes_total (l : list EndpointOperation) : Z := sum_by endpoint_bytes l.

(** [validate_endpoint_operations], check by check. *)
Record slot_endpoints_ok (s : SlotSnapshot) : Prop := {
  sep_count : Z.of_nat (length (endpoint_operations s)) <= MAX_ENDPOINT_OPERATIONS_PER_JOB;
  sep_status : endpoint_operations s ≠ [] → offer_status s = OfferAccepted;
  sep_list : endpoints_ok (endpoint_operations s);
  sep_refs : endpoint_refs_total (endpoint_operations s) <= MAX_ENDPOINT_CONTENT_REFS_PER_SLOT;
  sep_bytes : endpoint_bytes_total (endpoint_operations s) <= MAX_ENDPOINT_CONTENT_BYTES_PER_SLOT;
  sep_finalizing : slot_lifecycle s = Finalizing ∨ is_terminal (slot_lifecycle s) = true →
    endpoint_recovery_pending s = None;
}.

Lemma content_limits_u64 :
  MAX_ENDPOINT_CONTENT_REFS_PER_SLOT <= u64_max ∧ MAX_ENDPOINT_CONTENT_BYTES_PER_SLOT <= u64_max.
Proof. vm_compute. split; discriminate. Qed.

Lemma validate_endpoint_operations_iff (s : SlotSnapshot) :
  validate_endpoint_operations s = Ok tt ↔ slot_endpoints_ok s.
Proof.
  unfold validate_endpoint_operations. rewrite !bind_unit_Ok, !reject_Ok.
  assert (H0 : 0 <= 0 <= u64_max) by done.
  destruct content_limits_u64 as [Hrl Hbl]. split.
  - intros (Hn & Hst & H).
    destruct (validate_endpoint_list _ _ _ _) as [[r b]|] eqn:Hl; simpl in H; [|done].
    apply validate_endpoint_list_iff in Hl as (Hok & _ & Hr & Hb & _ & _); [|done..].
    apply reject_Ok in H. apply orb_false_iff in H as [[Hr' Hb']%orb_false_iff Hf].
    apply Z.ltb_ge in Hn, Hr', Hb'. constructor; try done.
    + intros Hne. destruct (endpoint_operations s); [done|].
      simpl in Hst. by apply negb_false_iff, bool_decide_eq_true in Hst.
    + unfold endpoint_refs_total. lia.
    + unfold endpoint_bytes_total. lia.
    + intros Hlc. apply is_some_false. destruct (is_some _); [|done].
      rewrite andb_true_r in Hf. apply orb_false_iff in Hf as [Hf1 Hf2].
      apply bool_decide_eq_false in Hf1. destruct Hlc; congruence.
  - intros [Hn Hst Hok Hr Hb Hf]. split_and!.
    + by apply Z.ltb_ge.
    + destruct (endpoint_operations s); [done|]. simpl. rewrite Hst by done. done.
    + unfold endpoint_refs_total, endpoint_bytes_total in *.
      rewrite (proj2 (validate_endpoint_list_iff bset_empty 0 0
        (0 + sum_by accounted_content_refs (endpoint_operations s))
        (0 + sum_by endpoint_bytes (endpoint_operations s)) _ H0 H0)).
      2: { split_and!; try done; try lia. intros op _ []%not_elem_of_bset_empty. }
      simpl. apply reject_Ok. rewrite !orb_false_iff. split_and!; [apply Z.ltb_ge; lia..|].
      destruct (bool_decide _) eqn:Hb1; simpl.
      * apply bool_decide_eq_true in Hb1. by rewrite Hf by (by left).
      * destruct (is_terminal _) eqn:Ht; [|done]. by rewrite Hf by (by right).
Qed.

Lemma endpoint_recovery_pending_last (s : SlotSnapshot) :
  endpoint_recovery_pending s = None ↔
  ∀ op, last (endpoint_operations s) = Some op → is_recovery_pending op = false.
Proof.
  unfold endpoint_recovery_pending. destruct (last _) as [op|]; [|done].
  destruct (is_recovery_pending op) eqn:E; split; try done.
  - intros H. specialize (H op eq_refl). congruence.
  - by intros _ op' [= <-].
Qed.

(** Resolving or moving one recorded operation keeps the list in order, and
    what it is charged does not grow. *)
Lemma endpoints_update (l : list EndpointOperation) (i : nat) (op op' : EndpointOperation)
    (request : endpoint_request_op) (b : bool) :
  endpoints_ok l → l !! i = Some op → run_endpoint request op = Ok (op', b) →
  endpoints_ok (<[i := op']> l) ∧
  endpoint_refs_total (<[i := op']> l) <= endpoint_refs_total l ∧
  endpoint_bytes_total (<[i := op']> l) <= endpoint_bytes_total l ∧
  (is_recovery_pending op' = true → is_recovery_pending op = true).
Proof.
  intros [Hv Hnd Hp] Hi Hrun%run_endpoint_Ok.
  destruct b; [|subst op'; rewrite list_insert_id by done; done].
  destruct Hrun as (st & -> & Hm & Hres).
  assert (Hop : endpoint_operation_validate op = Ok tt) by (eapply Hv, list_elem_of_lookup_2, Hi).
  destruct (endpoint_move_validates _ _ Hm Hres Hop)
    as (Hv' & (n & n' & Hn & Hn' & Hle) & Hrefs & Hpend).
  unfold endpoint_refs_total, endpoint_bytes_total.
  rewrite !(sum_by_insert _ _ _ _ _ Hi). unfold endpoint_bytes at 2 3. rewrite Hn, Hn'.
  split_and!; [|lia|lia|done]. constructor.
  - intros x Hx. apply list_elem_of_lookup_1 in Hx as [j Hj].
    destruct (decide (i = j)) as [<-|Hne].
    + rewrite list_lookup_insert_eq in Hj by (by eapply lookup_lt_Some). by injection Hj as <-.
    + rewrite list_lookup_insert_ne in Hj by done. eapply Hv, list_elem_of_lookup_2, Hj.
  - rewrite list_fmap_insert. simpl. rewrite list_insert_id; [done|].
    by rewrite list_lookup_fmap, Hi.
  - by eapply only_last_insert.
Qed.

(** The fold that [accept_endpoint_operation] computes agrees with the sums the
    decoder checks. *)
Lemma prospective_refs_Some (op : EndpointOperation) (l : list EndpointOperation) (n : Z) :
  prospective_refs op l = Some n → n = accounted_content_refs op + endpoint_refs_total l.
Proof.
  unfold prospective_refs, endpoint_refs_total.
  generalize (accounted_content_refs op) as start. revert n.
  induction l as [|x l IH]; intros n start; simpl; [intros [= <-]; lia|].
  destruct (checked_add _ start _) as [m|] eqn:Hm; simpl.
  - intros ->%IH. apply checked_add_Some in Hm as [-> _]. lia.
  - assert (Hnone : foldl (λ total current,
      total ≫= λ refs, checked_add u64_max refs (accounted_content_refs current)) None l =
      @None Z) by (clear; induction l; done).
    by rewrite Hnone.
Qed.

Lemma prospective_bytes_Ok (op : EndpointOperation) (l : list EndpointOperation) (n : Z) :
  prospective_bytes op l = Ok n → (∀ x, x ∈ l → endpoint_operation_validate x = Ok tt) →
  n = endpoint_bytes op + endpoint_bytes_total l.
Proof.
  unfold prospective_bytes, endpoint_bytes_total, endpoint_bytes at 1.
  destruct (accounted_content_bytes op) as [start|]; simpl; [|done].
  revert start n. induction l as [|x l IH]; intros start n; simpl; [intros [= <-] _; lia|].
  intros H Hv. destruct (endpoint_valid_bytes x) as [Hx _]; [apply Hv; set_solver|].
  rewrite Hx in H. simpl in H. destruct (checked_add _ start _) as [m|] eqn:Hm; simpl in H; [|done].
  apply checked_add_Some in Hm as [-> _].
  apply IH in H; [lia|]. intros; apply Hv; set_solver.
Qed.

(** ** Provider state *)

(** [validate_provider_state], check by check. *)
Record slot_provider_ok (s : SlotSnapshot) : Prop := {
  spr_status : provider_operations s ≠ [] → offer_status s = OfferAccepted;
  spr_authority : provider_operations s ≠ [] ∨ slot_sandbox s ≠ None →
    authority_acknowledged s = true;
  spr_coherent : recovery_is_coherent (provider_checkpoint s) = true;
  spr_replay : ∃ r, replay_provider_operations (provider_checkpoint s) (provider_operations s) =
    Ok r ∧ is_some (slot_sandbox s) = sandbox_live r;
}.

Lemma validate_provider_state_iff (s : SlotSnapshot) :
  validate_provider_state s = Ok tt ↔ slot_provider_ok s.
Proof.
  unfold validate_provider_state. rewrite !bind_unit_Ok, !reject_Ok. split.
  - intros (Hst & Hau & Hco & H).
    destruct (replay_provider_operations _ _) as [r|] eqn:Hr; simpl in H; [|done].
    apply reject_Ok, negb_false_iff, eqb_prop in H. apply negb_false_iff in Hco.
    constructor; [| |done|eauto].
    + intros Hne. destruct (provider_operations s); [done|]. simpl in Hst.
      by apply negb_false_iff, bool_decide_eq_true in Hst.
    + intros Hne. destruct (authority_acknowledged s); [done|]. rewrite andb_true_r in Hau.
      apply orb_false_iff in Hau as [H1 H2]. apply is_some_false in H2.
      destruct (provider_operations s); [|done]. by destruct Hne.
  - intros [Hst Hau Hco (r & Hr & Hs)]. rewrite Hr, Hco. simpl. split_and!; try done.
    + destruct (provider_operations s); [done|]. simpl. by rewrite Hst.
    + destruct (authority_acknowledged s) eqn:E; [by rewrite andb_false_r|].
      rewrite andb_true_r. destruct (provider_operations s) eqn:E1; simpl.
      * destruct (slot_sandbox s) eqn:E2; [|done]. symmetry. apply Hau. by right.
      * symmetry. apply Hau. by left.
    + apply reject_Ok. by rewrite Hs, eqb_reflx.
Qed.

(** The last operation resolved: the replay changes by its effect only. *)
Lemma replay_set_last (c r : ProviderRecoveryState) (l : list ProviderOperation)
    (op : ProviderOperation) (outcome : ProviderOperationOutcome) :
  replay_provider_operations c l = Ok r → last l = Some op → provider_outcome op ≠ OutcomeApplied →
  replay_provider_operations c (set_last (set_provider_outcome outcome op) l) =
  Ok (if bool_decide (outcome = OutcomeApplied) then confirm r (provider_kind op) else r) ∧
  can_begin r (provider_kind op) = true.
Proof.
  intros Hr [l' ->]%last_Some Hne. rewrite set_last_snoc.
  unfold replay_provider_operations in *.
  apply replay_from_snoc in Hr as (Hp & Hid & Hnin & m & Hm & [Hb ->]%recovery_apply_Ok).
  rewrite (bool_decide_eq_false_2 (provider_outcome op = OutcomeApplied)) by done.
  split; [|done]. apply replay_from_snoc. simpl. split_and!; try done. exists m. split; [done|].
  apply recovery_apply_Ok. simpl. split; [done|]. done.
Qed.

Lemma length_set_last {A : Type} (x : A) (l : list A) : length (set_last x l) = length l.
Proof. induction l as [|y [|z l] IH]; simpl in *; congruence. Qed.

Lemma set_last_nil {A : Type} (x : A) (l : list A) : set_last x l = [] ↔ l = [].
Proof. by destruct l as [|y [|z l]]. Qed.

Lemma mark_applied_Ok (op op' : ProviderOperation) (b : bool) :
  mark_applied op = Ok (op', b) →
  if b then provider_outcome op ≠ OutcomeApplied ∧ op' = set_provider_outcome OutcomeApplied op
  else provider_outcome op = OutcomeApplied ∧ op' = op.
Proof.
  unfold mark_applied. destruct (provider_outcome op) as [| |[]]; intros [= <- <-]; done.
Qed.

Lemma resolve_failure_Ok (op op' : ProviderOperation) (failure : ProviderFailureOutcome)
    (b : bool) :
  resolve_failure op failure = Ok (op', b) →
  provider_outcome op ≠ OutcomeApplied ∧
  op' = (if b then set_provider_outcome (OutcomeFailed failure) op else op) ∧
  (b = false → provider_outcome op = OutcomeFailed failure).
Proof.
  unfold resolve_failure. destruct (provider_outcome op) as [| |existing]; [|done|].
  - by intros [= <- <-].
  - case_bool_decide; [intros [= <- <-]; subst; done|].
    destruct (_ && _); [|done]. by intros [= <- <-].
Qed.

Lemma set_last_same {A : Type} (x : A) (l : list A) : last l = Some x → set_last x l = l.
Proof. intros [l' ->]%last_Some. apply set_last_snoc. Qed.

(** ** Mutations of one slot *)

(** Rebuilds the invariant of a changed slot from that of the old one, leaving
    the checks that read a changed field. *)
Ltac keep_slot Hinv :=
  let Hok := fresh "Hok" in
  pose proof (inv_ok _ _ _ Hinv) as Hok;
  constructor;
  [ constructor;
    [ try exact (ok_offer _ _ _ Hok) | try exact (ok_authority _ _ _ Hok)
    | try exact (ok_runner _ _ _ Hok) | try exact (ok_job_ir _ _ _ Hok)
    | try exact (ok_expiry _ _ _ Hok) | try exact (ok_provider_count _ _ _ Hok)
    | try exact (ok_endpoints _ _ _ Hok) | try exact (ok_provider _ _ _ Hok)
    | try exact (ok_status _ _ _ Hok) | try exact (ok_timestamps _ _ _ Hok)
    | try exact (ok_undecided _ _ _ Hok) | try exact (ok_rejected_log _ _ _ Hok)
    | try exact (ok_terminal_result _ _ _ Hok) | try exact (ok_terminal _ _ _ Hok)
    | try exact (ok_orphan _ _ _ Hok) | try exact (ok_cancellation _ _ _ Hok)
    | try exact (ok_cancelled _ _ _ Hok) | try exact (ok_log _ _ _ Hok) ]
  | try exact (inv_log _ _ _ Hinv) | try exact (inv_recorded_log _ _ _ Hinv)
  | try exact (inv_compacted _ _ _ Hinv) ].

(** Runs a slot body: every branch that succeeds, with its tests. *)
Ltac run_slot H := unfold rejectM in H; unfold_monad; split_tests; bool_facts.

Section SlotOps.
Context {hasher : Sha256} {uuids : Uuid} (rid : RunnerId) (session : SessionSnapshot).
Implicit Types (s : SlotSnapshot) (b : bool).
Abbreviation inv := (slot_inv rid session).

(** A body that keeps the invariant of every slot that satisfies [P], and the
    slot's commands. *)
Definition keeps (P : SlotSnapshot → Prop) (body : stM SlotSnapshot JournalInvariantError bool) :
    Prop :=
  ∀ s s' b, inv s → P s → body s = (s', Ok b) →
    inv s' ∧ slot_offer s' = slot_offer s ∧ cancellation s' = cancellation s.

Lemma recorded_slot_empty s :
  inv s → offer_status s ≠ OfferAccepted →
  runtime_authority_delivery s = None ∧ endpoint_operations s = [] ∧
  provider_operations s = [] ∧ terminal_result s = None.
Proof.
  intros Hinv Hst. destruct (inv_ok _ _ _ Hinv). split_and!.
  - unfold validate_runtime_authority_delivery in *.
    destruct (runtime_authority_delivery s) as [d|]; [|done].
    apply bind_unit_Ok in ok_authority0 as [_ H]. apply reject_Ok, orb_false_iff in H as [H _].
    by apply negb_false_iff, bool_decide_eq_true in H.
  - apply validate_endpoint_operations_iff in ok_endpoints0 as [_ Hs _ _ _ _].
    destruct (endpoint_operations s); [done|]. by destruct Hst; apply Hs.
  - apply validate_provider_state_iff in ok_provider0 as [Hs _ _ _].
    destruct (provider_operations s); [done|]. by destruct Hst; apply Hs.
  - destruct (terminal_result s) as [r|]; [|done].
    by destruct (ok_terminal_result0 r eq_refl) as (_ & ? & _).
Qed.

Lemma keeps_accept_offer : keeps (λ _, True) slot_accept_offer.
Proof.
  intros s s' b Hinv _ H. unfold slot_accept_offer in H. run_slot H; [|done].
  destruct (recorded_slot_empty s Hinv) as (Ha & He & Hp & Ht); [congruence|].
  split; [|done]. keep_slot Hinv; simpl; try done.
  - unfold validate_runtime_authority_delivery. simpl. by rewrite Ha.
  - pose proof (ok_endpoints _ _ _ Hok) as [? ? ? ? ? ?]%validate_endpoint_operations_iff.
    apply validate_endpoint_operations_iff. by constructor.
  - pose proof (ok_provider _ _ _ Hok) as [? ? ? ?]%validate_provider_state_iff.
    apply validate_provider_state_iff. by constructor.
  - pose proof (ok_status _ _ _ Hok) as Hs. unfold status_consistent in *. simpl.
    by destruct (offer_status s).
  - intros r Hr. simpl in Hr. congruence.
  - intros _ Hl _. exfalso. pose proof (ok_undecided _ _ _ Hok) as Hu.
    destruct (orphan s); [done|]. specialize (Hu eq_refl ltac:(congruence)).
    by destruct (slot_lifecycle s).
Qed.

Lemma keeps_record_authority (d : RuntimeAuthorityDeliveryRecord) :
  keeps (λ _, True) (slot_record_authority d).
Proof.
  intros s s' b Hinv _ H. unfold slot_record_authority in H. run_slot H; [done|].
  split; [|done]. keep_slot Hinv; simpl; try done.
  - unfold validate_runtime_authority_delivery. simpl.
    match goal with H : authority_delivery_validate d = _ |- _ => rewrite H end. simpl.
    apply reject_Ok, orb_false_iff. split; [by rewrite bool_decide_eq_true_2|].
    by apply negb_false_iff.
  - pose proof (ok_provider _ _ _ Hok) as [? Hau ? ?]%validate_provider_state_iff.
    apply validate_provider_state_iff. constructor; try done. simpl. intros Hne.
    specialize (Hau Hne). unfold authority_acknowledged in Hau.
    match goal with H : runtime_authority_delivery s = None |- _ => by rewrite H in Hau end.
Qed.

Lemma keeps_acknowledge_authority (g : RuntimeAuthorityGeneration) (digest : Sha256Digest)
    (id : OperationId) : keeps (λ _, True) (slot_acknowledge_authority g digest id).
Proof.
  intros s s' b Hinv _ H. unfold slot_acknowledge_authority, authority_delivery_acknowledge in H.
  run_slot H; (split; [|done]); keep_slot Hinv; simpl; try done;
    match goal with H : runtime_authority_delivery s = Some _ |- _ => rename H into Hd end.
  - pose proof (ok_authority _ _ _ Hok) as Ha. unfold validate_runtime_authority_delivery in *.
    simpl. by rewrite Hd in Ha.
  - pose proof (ok_provider _ _ _ Hok) as [? Hau ? ?]%validate_provider_state_iff.
    apply validate_provider_state_iff. by constructor.
  - pose proof (ok_authority _ _ _ Hok) as Ha. unfold validate_runtime_authority_delivery in *.
    simpl. by rewrite Hd in Ha.
  - pose proof (ok_provider _ _ _ Hok) as [? Hau ? ?]%validate_provider_state_iff.
    apply validate_provider_state_iff. by constructor.
Qed.

Lemma keeps_reject_offer (reason : LeaseRejectionReason) (id : OperationId) (at_ : UnixMillis) :
  keeps (λ _, True) (slot_reject_offer reason id at_).
Proof.
  intros s s' b Hinv _ H. unfold slot_reject_offer in H. run_slot H; try done.
  match goal with H : offer_status s = OfferRecorded |- _ => rename H into Hst end.
  destruct (recorded_slot_empty s Hinv) as (Ha & He & Hp & Ht); [congruence|].
  pose proof (inv_recorded_log _ _ _ Hinv Hst) as Hl.
  split; [|done]. keep_slot Hinv; simpl; try done.
  - unfold validate_runtime_authority_delivery. simpl. by rewrite Ha.
  - pose proof (ok_endpoints _ _ _ Hok) as [? ? ? ? ? ?]%validate_endpoint_operations_iff.
    apply validate_endpoint_operations_iff. constructor; simpl; try done; by rewrite He.
  - pose proof (ok_provider _ _ _ Hok) as [? ? ? ?]%validate_provider_state_iff.
    apply validate_provider_state_iff. constructor; simpl; try done; by rewrite Hp.
  - pose proof (ok_timestamps _ _ _ Hok) as Hts. unfold validate_delivery_timestamps in *.
    simpl. apply bind_unit_Ok in Hts as [Hts1 Hts]. apply reject_Ok, orb_false_iff in Hts1 as [_ Hx].
    rewrite Hx. simpl. match goal with H : validate_delivery_enqueued_at at_ = _ |- _ => rewrite H end.
    by apply bind_unit_Ok in Hts as [_ Hts].
  - intros Ho _. by apply (ok_undecided _ _ _ Hok); [|congruence].
  - intros r Hr. simpl in Hr. congruence.
  - intros o Ho. simpl in Ho. congruence.
Qed.

Lemma keeps_acknowledge_rejection (id : OperationId) :
  keeps (λ _, True) (slot_acknowledge_rejection id).
Proof.
  intros s s' b Hinv _ H. unfold slot_acknowledge_rejection in H. run_slot H; [done|].
  match goal with H : rejection s = Some _ |- _ => rename H into Hr end.
  split; [|done]. keep_slot Hinv; simpl; try done.
  - pose proof (ok_status _ _ _ Hok) as Hs. unfold status_consistent in *. simpl.
    rewrite Hr in Hs. by destruct (offer_status s).
  - pose proof (ok_timestamps _ _ _ Hok) as Hts. unfold validate_delivery_timestamps in *.
    simpl. by rewrite Hr in Hts.
  - intros o Ho. pose proof (ok_orphan _ _ _ Hok o Ho) as Hoc. unfold orphan_consistent in *.
    simpl. rewrite Hr in Hoc. exact Hoc.
Qed.

Lemma keeps_renew_lease (e : UnixMillis) : keeps (λ _, True) (slot_renew_lease e).
Proof.
  intros s s' b Hinv _ H. unfold slot_renew_lease in H. run_slot H; [done|].
  split; [|done]. keep_slot Hinv; simpl; try done.
  pose proof (ok_expiry _ _ _ Hok).
  lia.
Qed.

(** Live lifecycles only move along the shared state machine. *)
Lemma transition_cancelled (l next : JobLifecycle) :
  validate_transition l next = Ok tt → uncancelled_lifecycle l = false →
  uncancelled_lifecycle next = false.
Proof. by destruct l, next. Qed.

Lemma keeps_transition_lifecycle (next : JobLifecycle) :
  keeps (λ _, True) (slot_transition_lifecycle next).
Proof.
  intros s s' b Hinv _ H. unfold slot_transition_lifecycle in H. run_slot H; [done|].
  match goal with H : validate_transition _ _ = _ |- _ => rename H into Htr end.
  match goal with H : bool_decide (next = Finalizing) && _ = false |- _ => rename H into Hfin end.
  split; [|done]. keep_slot Hinv; simpl; try congruence.
  - pose proof (ok_endpoints _ _ _ Hok) as [? ? ? ? ? Hf]%validate_endpoint_operations_iff.
    apply validate_endpoint_operations_iff. constructor; simpl; try done.
    intros [->|Ht]; [|congruence]. by apply is_some_false in Hfin.
  - intros r Hr. exfalso. simpl in Hr. destruct (ok_terminal_result _ _ _ Hok r Hr) as (_ & _ & Ht).
    by destruct (slot_lifecycle s), next.
  - intros Hc. eapply transition_cancelled; [exact Htr|]. by apply (ok_cancelled _ _ _ Hok).
Qed.

Lemma keeps_record_terminal_result (t : JobLifecycle) (r : TerminalResultRecord)
    (at_ : UnixMillis) : keeps (λ _, True) (slot_record_terminal_result t r at_).
Proof.
  intros s s' b Hinv _ H. unfold slot_record_terminal_result in H. run_slot H; [done|].
  match goal with H : validate_transition _ _ = _ |- _ => rename H into Htr end.
  split; [|done]. keep_slot Hinv; simpl; try congruence.
  - pose proof (ok_endpoints _ _ _ Hok) as [? ? ? ? ? Hf]%validate_endpoint_operations_iff.
    apply validate_endpoint_operations_iff. by constructor.
  - pose proof (ok_timestamps _ _ _ Hok) as Hts. unfold validate_delivery_timestamps in *.
    simpl. apply bind_unit_Ok in Hts as [Hts1 Hts]. apply reject_Ok, orb_false_iff in Hts1 as [Hx _].
    rewrite Hx. simpl. apply bind_unit_Ok in Hts as [-> _]. done.
  - intros r' [= <-]. done.
  - intros Hc. eapply transition_cancelled; [exact Htr|]. by apply (ok_cancelled _ _ _ Hok).
Qed.

Lemma keeps_acknowledge_terminal_result (id : OperationId) :
  keeps (λ _, True) (slot_acknowledge_terminal_result id).
Proof.
  intros s s' b Hinv _ H. unfold slot_acknowledge_terminal_result in H. run_slot H; [done|].
  match goal with H : terminal_result s = Some _ |- _ => rename H into Hr end.
  split; [|done]. keep_slot Hinv; simpl; try done.
  - pose proof (ok_timestamps _ _ _ Hok) as Hts. unfold validate_delivery_timestamps in *.
    simpl. by rewrite Hr in Hts.
  - intros r' [= <-]. exact (ok_terminal_result _ _ _ Hok _ Hr).
  - intros o Ho. pose proof (ok_orphan _ _ _ Hok o Ho) as Hoc. unfold orphan_consistent in *.
    simpl. rewrite Hr in Hoc. exact Hoc.
Qed.

(** ** Endpoint bodies *)

Lemma find_endpoint_Some (id : OperationId) (l : list EndpointOperation) (i : nat)
    (op : EndpointOperation) :
  find_endpoint id l = Some (i, op) → l !! i = Some op ∧ endpoint_operation_id op = id.
Proof. intros (H1 & H2 & _)%list_find_Some. done. Qed.

Lemma find_endpoint_None (id : OperationId) (l : list EndpointOperation) :
  find_endpoint id l = None → id ∉ (endpoint_operation_id <$> l).
Proof.
  intros H%list_find_None. rewrite Forall_forall in H.
  intros (op & -> & Hop)%list_elem_of_fmap. by apply (H op).
Qed.

Lemma slot_endpoint_request_Ok (id : OperationId) (request : endpoint_request_op) s s' b :
  slot_endpoint_request id request s = (s', Ok b) →
  ∃ i op op', endpoint_operations s !! i = Some op ∧ endpoint_operation_id op = id ∧
    run_endpoint request op = Ok (op', b) ∧
    s' = set_endpoint_operations (<[i := op']> (endpoint_operations s)) s.
Proof.
  unfold slot_endpoint_request. intros H. unfold_monad.
  destruct (find_endpoint id _) as [[i op]|] eqn:Hf; [|done]. simpl in H.
  destruct (run_endpoint request op) as [[op' b']|] eqn:Hr; [|done]. injection H as <- <-.
  apply find_endpoint_Some in Hf as [Hi Hid]. eauto 10.
Qed.

(** The pending operation of the updated list is the one that was pending. *)
Lemma endpoint_update_pending s (i : nat) (op op' : EndpointOperation) :
  endpoint_operations s !! i = Some op → only_last is_recovery_pending (endpoint_operations s) →
  (is_recovery_pending op' = true → is_recovery_pending op = true) →
  let s' := set_endpoint_operations (<[i := op']> (endpoint_operations s)) s in
  (endpoint_recovery_pending s = None → endpoint_recovery_pending s' = None) ∧
  (is_recovery_pending op' = true → endpoint_recovery_pending s' ≠ None).
Proof.
  intros Hi Hl Hp s'. split.
  - rewrite !endpoint_recovery_pending_last. simpl. intros Hn x.
    rewrite last_lookup, length_insert. intros Hx.
    destruct (decide (i = pred (length (endpoint_operations s)))) as [->|Hne].
    + rewrite list_lookup_insert_eq in Hx by (by eapply lookup_lt_Some). injection Hx as <-.
      rewrite last_lookup in Hn. specialize (Hn op Hi).
      destruct (is_recovery_pending op'); [|done]. rewrite Hp in Hn; done.
    + rewrite list_lookup_insert_ne in Hx by done. apply Hn. by rewrite last_lookup.
  - intros Hop' Hnone. rewrite endpoint_recovery_pending_last in Hnone. simpl in Hnone.
    rewrite Hnone in Hop'; [done|]. rewrite last_lookup, length_insert.
    rewrite <- (Hl i op Hi (Hp Hop')). simpl. apply list_lookup_insert_eq.
    by eapply lookup_lt_Some.
Qed.

(** An update by a request keeps the endpoint checks. *)
Lemma endpoint_update_ok s (i : nat) (op op' : EndpointOperation) (request : endpoint_request_op)
    b :
  slot_endpoints_ok s → endpoint_operations s !! i = Some op →
  run_endpoint request op = Ok (op', b) →
  slot_endpoints_ok (set_endpoint_operations (<[i := op']> (endpoint_operations s)) s).
Proof.
  intros [Hc Hst Hl Hr Hb Hf] Hi Hrun.
  destruct (endpoints_update _ _ _ _ _ _ Hl Hi Hrun) as (Hl' & Hr' & Hb' & Hp).
  destruct (endpoint_update_pending s i op op' Hi (eps_pending _ Hl) Hp) as [Hnone _].
  constructor; simpl; try lia; try done.
  - by rewrite length_insert.
  - intros Hne. apply Hst. intros Hnil. by rewrite Hnil in Hi.
  - eauto.
Qed.

(** A request leaves the slot valid, up to the orphan's pending operation. *)
Lemma inv_endpoint_update s (i : nat) (op op' : EndpointOperation) (request : endpoint_request_op)
    b :
  inv s → endpoint_operations s !! i = Some op → run_endpoint request op = Ok (op', b) →
  let s' := set_endpoint_operations (<[i := op']> (endpoint_operations s)) s in
  (orphan s ≠ None → is_terminal (slot_lifecycle s) = false →
   is_some (endpoint_recovery_pending s') = true) →
  inv s'.
Proof.
  intros Hinv Hi Hrun s' Horph. subst s'. keep_slot Hinv.
  - apply validate_endpoint_operations_iff. eapply endpoint_update_ok; [|done..].
    by apply validate_endpoint_operations_iff, (ok_endpoints _ _ _ Hok).
  - intros o Ho. pose proof (ok_orphan _ _ _ Hok o Ho) as Hoc. unfold orphan_consistent in *.
    simpl in *. bool_facts. repeat (apply andb_true_iff; split); try done.
    + by apply Z.eqb_eq.
    + by apply bool_decide_eq_true.
    + destruct (is_terminal (slot_lifecycle s)); [done|]. apply Horph; [congruence|done].
Qed.

(** After a resolution the orphan's slot becomes terminal. *)
Lemma inv_endpoint_resolution s (i : nat) (op op' : EndpointOperation)
    (request : endpoint_request_op) b :
  inv s → endpoint_operations s !! i = Some op → run_endpoint request op = Ok (op', b) →
  inv (terminalize_orphan_after_endpoint_resolution
         (set_endpoint_operations (<[i := op']> (endpoint_operations s)) s)).
Proof.
  intros Hinv Hi Hrun. set (s1 := set_endpoint_operations _ s).
  unfold terminalize_orphan_after_endpoint_resolution.
  destruct (is_some (orphan s1) && _ && _) eqn:Hc.
  2: { eapply inv_endpoint_update; [done..|]. fold s1. intros Ho Ht.
       change (orphan s1) with (orphan s) in Hc.
       change (slot_lifecycle s1) with (slot_lifecycle s) in Hc.
       destruct (orphan s); [|done]. rewrite Ht in Hc. simpl in Hc. by apply negb_false_iff. }
  apply andb_true_iff in Hc as [[Ho Hnt]%andb_true_iff Hnp].
  apply negb_true_iff in Hnt, Hnp. apply is_some_false in Hnp.
  keep_slot Hinv; simpl; try done.
  - apply validate_endpoint_operations_iff.
    destruct (endpoint_update_ok s i op op' request b) as [Hcount Hstat Hl Hr Hb Hf]; [|done..|].
    { apply validate_endpoint_operations_iff, (ok_endpoints _ _ _ Hok). }
    constructor; try done.
  - intros Hno. simpl in Hno. change (orphan s1) with (orphan s) in Ho. by rewrite Hno in Ho.
  - intros r Hr. simpl in Hr. destruct (ok_terminal_result _ _ _ Hok r Hr) as (? & ? & ?). done.
  - intros _ _ _ Hno. change (orphan s1) with (orphan s) in Ho. by rewrite Hno in Ho.
  - intros o Hos. pose proof (ok_orphan _ _ _ Hok o Hos) as Hoc. unfold orphan_consistent in *.
    simpl in *. bool_facts. repeat (apply andb_true_iff; split); try done.
    + by apply Z.eqb_eq.
    + by apply bool_decide_eq_true.
Qed.

Lemma terminalize_frame s :
  slot_offer (terminalize_orphan_after_endpoint_resolution s) = slot_offer s ∧
  cancellation (terminalize_orphan_after_endpoint_resolution s) = cancellation s.
Proof. unfold terminalize_orphan_after_endpoint_resolution. by destruct (_ && _). Qed.

Lemma keeps_commit_endpoint (id : OperationId) :
  keeps (λ _, True) (slot_commit_endpoint_invocation id).
Proof.
  intros s s' b Hinv _ (i & op & op' & Hi & _ & Hrun & ->)%slot_endpoint_request_Ok.
  split; [|done]. eapply inv_endpoint_update; [done..|]. intros _ _.
  pose proof (inv_ok _ _ _ Hinv) as Hok.
  pose proof (ok_endpoints _ _ _ Hok) as [_ _ [_ _ Hl] _ _ _]%validate_endpoint_operations_iff.
  assert (Hp : is_recovery_pending op' = true ∧ is_recovery_pending op = true).
  { unfold is_recovery_pending. simpl in Hrun. unfold commit_invocation in Hrun.
    destruct (endpoint_state op) eqn:E; simplify_eq/=; rewrite ?E; done. }
  destruct Hp as [Hp' Hp].
  destruct (endpoint_update_pending s i op op' Hi Hl (λ _, Hp)) as [_ Hn].
  specialize (Hn Hp'). by destruct (endpoint_recovery_pending _).
Qed.

Lemma keeps_cancel_endpoint (id : OperationId) :
  keeps (λ _, True) (slot_record_endpoint_cancellation id).
Proof.
  intros s s' b Hinv _ H. unfold slot_record_endpoint_cancellation in H. unfold_monad.
  destruct (slot_endpoint_request id _ s) as [s1 [b'|]] eqn:Hreq; [|done].
  injection H as <- <-.
  apply slot_endpoint_request_Ok in Hreq as (i & op & op' & Hi & _ & Hrun & ->).
  split; [by eapply inv_endpoint_resolution|].
  exact (terminalize_frame (set_endpoint_operations (<[i := op']> (endpoint_operations s)) s)).
Qed.

Lemma keeps_complete_endpoint_cancellation (id : OperationId) :
  keeps (λ _, True) (slot_complete_endpoint_cancellation id).
Proof.
  intros s s' b Hinv _ H. unfold slot_complete_endpoint_cancellation, rejectM in H. unfold_monad.
  destruct (is_some (slot_sandbox s)); [done|].
  destruct (slot_endpoint_request id _ s) as [s1 [b'|]] eqn:Hreq; [|done].
  injection H as <- <-.
  apply slot_endpoint_request_Ok in Hreq as (i & op & op' & Hi & _ & Hrun & ->).
  split; [by eapply inv_endpoint_resolution|].
  exact (terminalize_frame (set_endpoint_operations (<[i := op']> (endpoint_operations s)) s)).
Qed.

Lemma keeps_abandon_endpoint (id : OperationId) : keeps (λ _, True) (slot_abandon_endpoint id).
Proof.
  intros s s' b Hinv _ H. unfold slot_abandon_endpoint, rejectM in H. unfold_monad.
  destruct (is_some (slot_sandbox s)); [done|].
  destruct (slot_endpoint_request id _ s) as [s1 [b'|]] eqn:Hreq; [|done].
  injection H as <- <-.
  apply slot_endpoint_request_Ok in Hreq as (i & op & op' & Hi & _ & Hrun & ->).
  split; [by eapply inv_endpoint_resolution|].
  exact (terminalize_frame (set_endpoint_operations (<[i := op']> (endpoint_operations s)) s)).
Qed.

(** A result is recorded for a slot that is not an orphan. *)
Lemma keeps_record_endpoint_result (id : OperationId) (r : EndpointResultContentRef) :
  keeps (λ s, orphan s = None) (slot_record_endpoint_result id r).
Proof.
  intros s s' b Hinv Ho (i & op & op' & Hi & _ & Hrun & ->)%slot_endpoint_request_Ok.
  split; [|done]. eapply inv_endpoint_update; [done..|]. by rewrite Ho.
Qed.

(** An operation is accepted before finalisation. *)
Lemma keeps_accept_endpoint (op : EndpointOperation) :
  keeps (λ s, slot_lifecycle s ≠ Finalizing) (slot_accept_endpoint op).
Proof.
  intros s s' b Hinv Hnf H. unfold slot_accept_endpoint in H. run_slot H; [done|].
  match goal with H : find_endpoint _ _ = None |- _ => rename H into Hfind end.
  match goal with H : prospective_refs _ _ = Some _ |- _ =>
    apply prospective_refs_Some in H as Hrefs end.
  match goal with H : prospective_bytes _ _ = Ok _ |- _ => rename H into Hbytes end.
  match goal with H : last_is_some_and _ _ = false |- _ => rename H into Hlast end.
  split; [|done]. keep_slot Hinv; simpl; try done.
  - pose proof (ok_endpoints _ _ _ Hok) as [Hc Hst [Hv Hnd Hl] Hr Hb Hf]%validate_endpoint_operations_iff.
    apply prospective_bytes_Ok in Hbytes; [|done].
    apply find_endpoint_None in Hfind. apply validate_endpoint_operations_iff.
    constructor; simpl.
    + rewrite length_app. simpl. lia.
    + done.
    + constructor.
      * intros x [Hx|Hx%list_elem_of_singleton]%elem_of_app; [eauto|by subst].
      * rewrite fmap_app. apply NoDup_app. split_and!; [done| |apply NoDup_singleton].
        intros x Hx Hx'%list_elem_of_singleton. by subst.
      * apply only_last_snoc. intros y Hy. apply list_elem_of_lookup_1 in Hy as [j Hj].
        destruct (is_recovery_pending y) eqn:Hpy; [|done].
        specialize (Hl j y Hj Hpy). unfold last_is_some_and in Hlast.
        rewrite last_lookup, <- Hl in Hlast. simpl in Hlast. rewrite Hj in Hlast. congruence.
    + unfold endpoint_refs_total in *. rewrite sum_by_app. simpl. lia.
    + unfold endpoint_bytes_total in *. rewrite sum_by_app. simpl. lia.
    + intros [Hx|Hx]; congruence.
  - intros o Ho. simpl in Ho. congruence.
Qed.

(** ** Provider bodies *)

Lemma inv_compact_oldest s s1 :
  inv s → provider_operations s ≠ [] → compact_oldest s = (s1, Ok tt) →
  inv s1 ∧ S (length (provider_operations s1)) = length (provider_operations s) ∧
  ∃ c rest, s1 = set_provider_checkpoint c (set_provider_operations rest s).
Proof.
  intros Hinv Hne H. unfold compact_oldest in H. unfold_monad.
  destruct (provider_operations s) as [|op rest] eqn:Hops; [done|].
  destruct (recovery_compact (provider_checkpoint s) op) as [c|] eqn:Hc; [|done].
  injection H as <-. split; [|split; [done|by eexists _, _]].
  pose proof (ok_provider _ _ _ (inv_ok _ _ _ Hinv)) as
    [Hst Hau Hco (r & Hr & Hs)]%validate_provider_state_iff.
  rewrite Hops in Hr. destruct (replay_compact _ _ _ _ _ Hr Hc) as [Hr' _].
  destruct (recovery_compact_coherent _ _ _ (proj1 (inv_compacted _ _ _ Hinv)) Hco Hc)
    as [Hco' Hrange].
  keep_slot Hinv; simpl; try done.
  - pose proof (ok_provider_count _ _ _ Hok) as Hn. rewrite Hops in Hn. simpl in Hn. lia.
  - apply validate_provider_state_iff. constructor; simpl; try done.
    + intros _. apply Hst. by rewrite Hops.
    + intros _. apply Hau. left. by rewrite Hops.
    + eexists. split; [exact Hr'|]. done.
Qed.

(** Appending an intent that the replay admits. *)
Lemma inv_push_intent s (intent : ProviderOperation) (r : ProviderRecoveryState) :
  inv s → offer_status s = OfferAccepted → authority_acknowledged s = true →
  Z.of_nat (length (provider_operations s)) < MAX_PROVIDER_OPERATIONS_PER_SLOT →
  provider_operation_id intent ∉ (provider_operation_id <$> provider_operations s) →
  last_is_some_and provider_is_pending (provider_operations s) = false →
  replay_provider_operations (provider_checkpoint s) (provider_operations s) = Ok r →
  can_begin r (provider_kind intent) = true → provider_outcome intent = OutcomePending →
  inv (set_provider_operations (provider_operations s ++ [intent]) s).
Proof.
  intros Hinv Hst Hau Hn Hid Hlast Hr Hb Hout. keep_slot Hinv; simpl.
  - rewrite length_app. simpl. lia.
  - pose proof (ok_provider _ _ _ Hok) as [? ? Hco (r' & Hr' & Hs)]%validate_provider_state_iff.
    rewrite Hr in Hr'. injection Hr' as <-.
    apply validate_provider_state_iff. constructor; simpl; try done.
    exists r. split; [|done]. unfold replay_provider_operations in *. apply replay_from_snoc.
    split_and!; [|intros []%not_elem_of_bset_empty|done|].
    + intros o Ho. destruct (provider_operations s) as [|op l] using rev_ind; [set_solver|].
      apply replay_from_snoc in Hr as (Hp & _).
      apply elem_of_app in Ho as [Ho|Ho]; [eauto|]. apply list_elem_of_singleton in Ho as ->.
      unfold last_is_some_and in Hlast. by rewrite last_snoc in Hlast.
    + exists r. split; [done|]. apply recovery_apply_Ok. rewrite Hout. by split.
Qed.

Lemma find_provider_None (id : OperationId) (l : list ProviderOperation) :
  find_provider id l = None → id ∉ (provider_operation_id <$> l).
Proof.
  intros H (op & -> & Hop)%list_elem_of_fmap.
  apply list_elem_of_In in Hop. apply (List.find_none _ _ H) in Hop.
  by rewrite Z.eqb_refl in Hop.
Qed.

Lemma keeps_provider_intent (intent : ProviderOperation) :
  keeps (λ s, authority_acknowledged s = true) (slot_record_provider_intent intent).
Proof.
  intros s s' b Hinv Hau H. unfold slot_record_provider_intent, rejectM in H. unfold_monad.
  destruct (negb (bool_decide (offer_status s = OfferAccepted))) eqn:Hst; [done|].
  destruct (is_terminal _ && _ && _); [done|]. destruct (is_some _ && _); [done|].
  destruct (negb (bool_decide (provider_outcome intent = OutcomePending))) eqn:Hout; [done|].
  bool_facts.
  destruct (find_provider _ _) as [existing|] eqn:Hfind.
  { destruct (bool_decide _); [|done]. by injection H as <- <-. }
  apply find_provider_None in Hfind. destruct (last_is_some_and _ _) eqn:Hlast; [done|].
  assert (Hpush : ∀ s1, inv s1 → slot_offer s1 = slot_offer s → cancellation s1 = cancellation s →
    offer_status s1 = OfferAccepted → authority_acknowledged s1 = true →
    Z.of_nat (length (provider_operations s1)) < MAX_PROVIDER_OPERATIONS_PER_SLOT →
    (provider_operation_id intent ∉ (provider_operation_id <$> provider_operations s1)) →
    last_is_some_and provider_is_pending (provider_operations s1) = false →
    ∀ r, replay_provider_operations (provider_checkpoint s1) (provider_operations s1) = Ok r →
    can_begin r (provider_kind intent) = true →
    s' = set_provider_operations (provider_operations s1 ++ [intent]) s1 →
    inv s' ∧ slot_offer s' = slot_offer s ∧ cancellation s' = cancellation s).
  { intros s1 Hinv1 Ho Hca Hs1 Hau1 Hn1 Hid1 Hl1 r Hr Hb ->.
    split; [|done]. by eapply inv_push_intent. }
  destruct (Z.leb_spec MAX_PROVIDER_OPERATIONS_PER_SLOT
    (Z.of_nat (length (provider_operations s)))) as [Hfull|Hfree].
  - destruct (compact_oldest s) as [s1 [[]|]] eqn:Hc; [|done].
    destruct (inv_compact_oldest s s1 Hinv) as (Hinv1 & Hlen & c & rest & Hs1); [|done|].
    { intros Hnil. rewrite Hnil in Hfull. done. }
    destruct (replay_provider_operations _ _) as [r|] eqn:Hr; [|done].
    destruct (negb _) eqn:Hneg; [done|]. injection H as <- <-. bool_facts.
    pose proof (ok_provider_count _ _ _ (inv_ok _ _ _ Hinv)).
    assert (Hrest : ∃ op, provider_operations s = op :: provider_operations s1).
    { unfold compact_oldest in Hc. unfold_monad. destruct (provider_operations s); [done|].
      destruct (recovery_compact _ _); [|done]. injection Hc as <-. by eexists. }
    destruct Hrest as [op Hrest]. eapply Hpush; try done; try (by rewrite Hs1).
    + lia.
    + rewrite Hrest, fmap_cons, not_elem_of_cons in Hfind. apply Hfind.
    + unfold last_is_some_and in *. rewrite Hrest in Hlast. by destruct (provider_operations s1).
  - destruct (replay_provider_operations _ _) as [r|] eqn:Hr; [|done].
    destruct (negb _) eqn:Hneg; [done|]. injection H as <- <-. bool_facts.
    by eapply Hpush.
Qed.

(** Recording the outcome of the last operation. *)
Lemma inv_resolve_last s (op : ProviderOperation) (outcome : ProviderOperationOutcome)
    (sandbox : option SandboxIdentity) :
  inv s → last (provider_operations s) = Some op → provider_outcome op ≠ OutcomeApplied →
  (∀ r, is_some (slot_sandbox s) = sandbox_live r → can_begin r (provider_kind op) = true →
     is_some sandbox =
     sandbox_live (if bool_decide (outcome = OutcomeApplied) then confirm r (provider_kind op)
                   else r)) →
  inv (set_sandbox sandbox (set_last_provider (set_provider_outcome outcome op) s)).
Proof.
  intros Hinv Hlast Hne Hsb. keep_slot Hinv; simpl.
  - rewrite length_set_last. apply (ok_provider_count _ _ _ Hok).
  - pose proof (ok_provider _ _ _ Hok) as [Hst Hau Hco (r & Hr & Hs)]%validate_provider_state_iff.
    assert (Hops : provider_operations s ≠ []) by (intros Hnil; by rewrite Hnil in Hlast).
    destruct (replay_set_last _ _ _ _ outcome Hr Hlast Hne) as [Hr' Hb].
    apply validate_provider_state_iff. constructor; simpl; try done.
    + intros _. by apply Hst.
    + intros _. apply Hau. by left.
    + eexists. split; [exact Hr'|]. by apply Hsb.
Qed.

Lemma set_last_provider_same s (op : ProviderOperation) :
  last (provider_operations s) = Some op → set_last_provider op s = s.
Proof.
  intros H. unfold set_last_provider. rewrite set_last_same by done. by destruct s.
Qed.

Lemma set_sandbox_same s : set_sandbox (slot_sandbox s) s = s.
Proof. by destruct s. Qed.

Lemma keeps_sandbox_created (id : OperationId) (sandbox : SandboxIdentity) :
  keeps (λ _, True) (slot_record_sandbox_created id sandbox).
Proof.
  intros s s' b Hinv _ H. unfold slot_record_sandbox_created, rejectM in H. unfold_monad.
  destruct (last (provider_operations s)) as [op|] eqn:Hlast; [|done].
  destruct (negb _ || negb _) eqn:Hk; [done|]. bool_facts.
  destruct (bool_decide (provider_outcome op = OutcomeApplied)) eqn:Ha; bool_facts.
  { destruct (bool_decide _); [|done]. by injection H as <- <-. }
  destruct (is_some (slot_sandbox s)) eqn:Hs; [done|].
  destruct (mark_applied op) as [[op' b']|] eqn:Hm; [|done]. injection H as <- <-.
  apply mark_applied_Ok in Hm. destruct b'; [|by destruct Hm]. destruct Hm as [_ ->].
  split; [|done]. apply (inv_resolve_last _ _ OutcomeApplied (Some sandbox)); try done.
  intros r _ _. rewrite bool_decide_eq_true_2 by done.
  match goal with H : provider_kind op = CreateSandbox |- _ => by rewrite H end.
Qed.

Lemma keeps_complete_provider (id : OperationId) :
  keeps (λ _, True) (slot_complete_provider_operation id).
Proof.
  intros s s' b Hinv _ H. unfold slot_complete_provider_operation, rejectM in H. unfold_monad.
  destruct (last (provider_operations s)) as [op|] eqn:Hlast; [|done].
  destruct (negb (provider_operation_id op =? id)); [done|].
  destruct (bool_decide (provider_kind op = CreateSandbox)) eqn:Hk; [done|]. bool_facts.
  destruct (mark_applied op) as [[op' b']|] eqn:Hm; [|done]. apply mark_applied_Ok in Hm.
  simpl in H. destruct b'; simpl in H.
  - destruct Hm as [Hne ->].
    destruct (bool_decide (provider_kind op = DestroySandbox)) eqn:Hd; injection H as <- <-;
      bool_facts; (split; [|done]).
    + apply (inv_resolve_last _ _ OutcomeApplied None); try done.
      intros r _ _. by rewrite bool_decide_eq_true_2, Hd by done.
    + rewrite <- (set_sandbox_same (set_last_provider _ s)).
      apply (inv_resolve_last _ _ OutcomeApplied (slot_sandbox s)); try done.
      intros r Hr Hb. rewrite bool_decide_eq_true_2 by done.
      by destruct (provider_kind op).
  - destruct Hm as [_ ->]. injection H as <- <-. rewrite set_last_provider_same by done. done.
Qed.

Lemma keeps_fail_provider (id : OperationId) (failure : ProviderFailureOutcome) :
  keeps (λ _, True) (slot_fail_provider_operation id failure).
Proof.
  intros s s' b Hinv _ H. unfold slot_fail_provider_operation, rejectM in H. unfold_monad.
  destruct (last (provider_operations s)) as [op|] eqn:Hlast; [|done].
  destruct (negb (provider_operation_id op =? id)); [done|].
  destruct (resolve_failure op failure) as [[op' b']|] eqn:Hm; [|done]. injection H as <- <-.
  apply resolve_failure_Ok in Hm as (Hne & -> & _). simpl. destruct b'.
  - split; [|done]. rewrite <- (set_sandbox_same (set_last_provider _ s)).
    apply (inv_resolve_last _ _ (OutcomeFailed failure) (slot_sandbox s)); done.
  - rewrite set_last_provider_same by done. done.
Qed.

(** ** Outbound operations and logs *)

Lemma keeps_advance_outbound (sequence : OutboundOperationSequence) :
  keeps (λ _, True) (slot_advance_outbound sequence).
Proof.
  intros s s' b Hinv _ H. unfold slot_advance_outbound in H. unfold_monad.
  destruct (bool_decide _); [by injection H as <- <-|].
  destruct (outbound_advance _ _) as [next|]; [|done]. injection H as <- <-.
  split; [|done]. by keep_slot Hinv.
Qed.

(** A cursor behind its invariant passes the journal's checks. *)
Lemma validate_log_state_inv s :
  (∀ log, log_delivery s = Some log → cursor_inv log ∧ produced_through log ≠ Some u64_max) →
  validate_log_state s = Ok tt.
Proof.
  intros H. unfold validate_log_state. destruct (log_delivery s) as [log|]; [|done].
  destruct (H log eq_refl) as [Hinv Hne]. rewrite (cursor_inv_validate log Hinv Hne).
  apply bind_unit_Ok. split; [|done]. apply reject_Ok.
  assert (Hle : count_through (acknowledged_through log) <= count_through (produced_through log)).
  { rewrite (inv_produced _ Hinv), durable_last_end. apply chain_end_le, (inv_chain _ Hinv). }
  assert (Hack : ∀ n, acknowledged_through log = Some n → 0 <= n).
  { unfold acknowledged_through. intros n (a & Ha & ->)%fmap_Some.
    by apply (inv_ack _ Hinv) in Ha as (_ & _ & ?). }
  apply orb_false_iff. split; [apply orb_false_iff; split|].
  - destruct (acknowledged_through log) as [n|] eqn:En, (produced_through log); try done.
    simpl in Hle. specialize (Hack n eq_refl). lia.
  - destruct (acknowledged_through log), (produced_through log); try done.
    simpl in Hle. apply Z.ltb_ge. lia.
  - destruct (cursor_end_of_stream log) as [e|] eqn:Ee; [|done].
    apply (inv_end _ Hinv) in Ee as [-> _]. by rewrite bool_decide_eq_true_2.
Qed.

(** A valid cursor is never at the end of the sequence space while it holds
    segments. *)
Lemma validate_segments_below (from total n : Z) (l : list LogSegment) :
  validate_segments from total l = Ok n → ∀ x, x ∈ l → last_sequence x ≠ u64_max.
Proof.
  revert from total. induction l as [|y l IH]; intros from total; simpl; [set_solver|].
  intros H x Hx. destruct (segment_validate y); simpl in H; [|done].
  destruct (_ || _); [done|].
  destruct (log_sequence_checked_next (last_sequence y)) as [e|] eqn:He; simpl in H; [|done].
  destruct (checked_add _ _ _); simpl in H; [|done].
  apply elem_of_cons in Hx as [->|Hx]; [|by eapply IH].
  intros Hmax. unfold log_sequence_checked_next in He. rewrite Hmax in He. by vm_compute in He.
Qed.

Lemma validated_at_end_is_empty (log : LogDeliveryCursor) :
  cursor_inv log → cursor_validate log = Ok tt → produced_through log = Some u64_max →
  segments log = [].
Proof.
  intros Hinv Hv Hp. unfold cursor_validate in Hv.
  rewrite !bind_unit_Ok in Hv. destruct Hv as (_ & _ & _ & _ & Hv).
  destruct (match last_acknowledgement log with Some _ => _ | None => _ end) as [e|];
    simpl in Hv; [|done].
  destruct (validate_segments e 0 (segments log)) as [n|] eqn:Hs; simpl in Hv; [|done].
  destruct (last (segments log)) as [x|] eqn:Hl; [|by apply last_None].
  exfalso. eapply validate_segments_below; [exact Hs| |].
  - apply last_Some in Hl as [l' ->]. apply elem_of_app. right. by left.
  - rewrite (inv_produced _ Hinv) in Hp. unfold durable_last in Hp. rewrite Hl in Hp. congruence.
Qed.

Lemma keeps_open_log_stream (stream_id : LogStreamId) :
  keeps (λ _, True) (slot_open_log_stream stream_id).
Proof.
  intros s s' b Hinv _ H. unfold slot_open_log_stream in H. run_slot H; [done|].
  split; [|done]. keep_slot Hinv; simpl; try congruence.
  - apply validate_log_state_inv. intros log [= <-]. split; [apply cursor_new_inv|done].
  - intros log [= <-]. apply cursor_new_inv.
Qed.

Lemma inv_log_update s (log log' : LogDeliveryCursor) (op : log_op) b :
  inv s → log_delivery s = Some log → run_log_op log op = Ok (log', b) →
  produced_through log' ≠ Some u64_max → inv (set_log_delivery (Some log') s).
Proof.
  intros Hinv Hlog Hrun Hmax.
  destruct (run_log_op_inv _ _ _ _ (inv_log _ _ _ Hinv log Hlog) Hrun) as [Hinv' _].
  keep_slot Hinv; simpl.
  - intros Hst. apply (ok_rejected_log _ _ _ Hok) in Hst. congruence.
  - intros o Ho. pose proof (ok_orphan _ _ _ Hok o Ho) as Hoc. unfold orphan_consistent in *.
    simpl. rewrite Hlog in Hoc. exact Hoc.
  - apply validate_log_state_inv. by intros ? [= <-].
  - by intros ? [= <-].
  - intros Hst. apply (inv_recorded_log _ _ _ Hinv) in Hst. congruence.
Qed.

Lemma slot_log_request_Ok (op : log_op) s s' b :
  slot_log_request op s = (s', Ok b) →
  ∃ log log', log_delivery s = Some log ∧ run_log_op log op = Ok (log', b) ∧
    s' = set_log_delivery (Some log') s.
Proof.
  unfold slot_log_request. intros H. unfold_monad.
  destruct (log_delivery s) as [log|]; [|done].
  destruct (run_log_op log op) as [[log' b']|] eqn:Hr; [|done]. injection H as <- <-. eauto.
Qed.

Lemma set_log_delivery_same s (log : LogDeliveryCursor) :
  log_delivery s = Some log → set_log_delivery (Some log) s = s.
Proof. destruct s. simpl. by intros ->. Qed.

(** Sealing and acknowledging leave the produced frames alone and need a
    segment. *)
Lemma seal_or_acknowledge_produced (log log' : LogDeliveryCursor) (op : log_op) b :
  match op with RecordLog _ _ => False | _ => True end →
  run_log_op log op = Ok (log', b) →
  log' = log ∨ (produced_through log' = produced_through log ∧ segments log ≠ []).
Proof.
  destruct op as [|sid content|a]; [done|intros _..]; simpl.
  - unfold seal_log_segment, seal_segment. intros H. unfold_monad.
    destruct (negb _); [done|]. destruct (last (segments log)) as [t|] eqn:Hl; [|done].
    destruct (negb _); [done|]. destruct (sealed t); injection H as <- <-; [by left|right].
    split; [done|]. intros Hnil. by rewrite Hnil in Hl.
  - unfold acknowledge_log_segment, acknowledge_segment. intros H. unfold_monad.
    destruct (negb _); [done|].
    destruct (segments log) as [|x l] eqn:Hs; simpl in H.
    + destruct (last_acknowledgement log) as [p|]; [|done].
      destruct (_ <=? _); [|done]. destruct (bool_decide _); [|done]. injection H as <- <-. by left.
    + destruct (last_acknowledgement log) as [p|].
      * destruct (_ <=? _).
        -- destruct (bool_decide _); [|done]. injection H as <- <-. by left.
        -- destruct (_ || _); [done|]. injection H as <- <-. by right.
      * destruct (_ || _); [done|]. injection H as <- <-. by right.
Qed.

Lemma keeps_log_request (op : log_op) :
  match op with RecordLog _ _ => False | _ => True end →
  keeps (λ _, True) (slot_log_request op).
Proof.
  intros Hop s s' b Hinv _ (log & log' & Hlog & Hrun & ->)%slot_log_request_Ok.
  split; [|done].
  destruct (seal_or_acknowledge_produced _ _ _ _ Hop Hrun) as [->|[Hp Hs]].
  { by rewrite set_log_delivery_same. }
  eapply inv_log_update; [done..|]. rewrite Hp. intros Hmax. apply Hs.
  apply validated_at_end_is_empty; [by apply (inv_log _ _ _ Hinv)| |done].
  pose proof (ok_log _ _ _ (inv_ok _ _ _ Hinv)) as Hv. unfold validate_log_state in Hv.
  rewrite Hlog in Hv. by apply bind_unit_Ok in Hv as [_ Hv].
Qed.

(** A segment is recorded below the last sequence number. *)
Lemma keeps_record_log_segment (p : LogSegmentPublication) (at_ : UnixMillis) :
  keeps (λ s, last_sequence (publication_segment p) ≠ u64_max) (slot_record_log_segment p at_).
Proof.
  intros s s' b Hinv Hmax H. unfold slot_record_log_segment, rejectM in H. unfold_monad.
  destruct (is_some (orphan s)); [done|].
  apply slot_log_request_Ok in H as (log & log' & Hlog & Hrun & ->). split; [|done].
  eapply inv_log_update; [done..|]. simpl in Hrun. unfold record_log_segment in Hrun.
  destruct (negb _); [done|]. case_bool_decide as Hp.
  { case_bool_decide; [|done]. injection Hrun as <- <-. congruence. }
  destruct (record_segment log p at_) as [log1|] eqn:Hr; simpl in Hrun; [|done].
  injection Hrun as <- <-.
  apply record_segment_Ok in Hr as (_ & _ & _ & _ & _ & pre & enq & -> & _);
    [simpl; congruence|by apply (inv_log _ _ _ Hinv)].
Qed.

(** ** Orphaned deliveries *)

Lemma is_abandoned_set (o : OrphanRecord) (d d' : OrphanDelivery) (r : OrphanAbandonmentReason)
    (sid : RunnerSessionId) (g : LeaseGuard) (id : OperationId) (digest : Sha256Digest)
    (p : OrphanAbandonmentPermissions) :
  is_abandoned (MkOrphanRecord sid g id digest p (abandonments_set d r (orphan_abandonments o))) d' =
  true → d = d' ∨ is_abandoned o d' = true.
Proof. unfold is_abandoned. destruct d, d'; simpl; auto. Qed.

Lemma keeps_abandon_orphan_delivery (id : OperationId) (d : OrphanDelivery)
    (r : OrphanAbandonmentReason) : keeps (λ _, True) (slot_abandon_orphan_delivery id d r).
Proof.
  intros s s' b Hinv _ H. unfold slot_abandon_orphan_delivery, rejectM in H. unfold_monad.
  destruct (negb _) eqn:Hex in H; [done|]. apply negb_false_iff in Hex.
  destruct (orphan s) as [o|] eqn:Ho; [|done].
  unfold orphan_abandon in H. destruct (_ || _); [done|].
  destruct (abandonments_get _ d) as [existing|].
  { destruct (bool_decide _); [|done]. injection H as <- <-. simpl.
    assert (set_orphan (Some o) s = s) as -> by (destruct s; simpl in *; by subst). done. }
  injection H as <- <-. split; [|done]. keep_slot Hinv; simpl.
  - intros Hno. simpl in Hno. congruence.
  - intros _ _ _ Hno. congruence.
  - intros o' [= <-]. pose proof (ok_orphan _ _ _ Hok o Ho) as Hoc.
    unfold orphan_consistent in *. simpl in *. bool_facts.
    assert (Himp : ∀ d' t, (negb (is_abandoned o d') || t) = true → (d = d' → t = true) →
      negb (is_abandoned (MkOrphanRecord (orphan_session_id o) (orphan_guard o)
        (orphan_operation_id o) (orphan_evidence_digest o) (orphan_permissions o)
        (abandonments_set d r (orphan_abandonments o))) d') || t = true).
    { intros d' t Ht Hd. destruct (is_abandoned (MkOrphanRecord _ _ _ _ _ _) d') eqn:E; [|done].
      simpl. apply is_abandoned_set in E as [<-|E]; [by apply Hd|]. by rewrite E in Ht. }
    repeat (apply andb_true_iff; split); try done;
      [by apply Z.eqb_eq|by apply bool_decide_eq_true|apply Himp; [done|by intros ->]..].
Qed.

(** ** Every slot mutation *)

(** What the mutations themselves do not check and the decoding checks of the
    file adapter refuse. *)
Definition slot_admissible (op : slot_op) s : Prop :=
  match op with
  | RecordProviderIntent _ => authority_acknowledged s = true
  | AcceptEndpoint _ => slot_lifecycle s ≠ Finalizing
  | RecordEndpointResult _ _ => orphan s = None
  | RecordLogSegment p _ => last_sequence (publication_segment p) ≠ u64_max
  | _ => True
  end.

Lemma keeps_slot_op (op : slot_op) : keeps (slot_admissible op) (run_slot_op op).
Proof.
  destruct op; simpl;
    [ apply keeps_accept_offer | apply keeps_record_authority | apply keeps_acknowledge_authority
    | apply keeps_reject_offer | apply keeps_acknowledge_rejection | apply keeps_renew_lease
    | apply keeps_transition_lifecycle | apply keeps_record_terminal_result
    | apply keeps_acknowledge_terminal_result | apply keeps_accept_endpoint
    | apply keeps_commit_endpoint | apply keeps_cancel_endpoint
    | apply keeps_complete_endpoint_cancellation | apply keeps_abandon_endpoint
    | apply keeps_record_endpoint_result | apply keeps_provider_intent
    | apply keeps_sandbox_created | apply keeps_complete_provider | apply keeps_fail_provider
    | apply keeps_advance_outbound | apply keeps_open_log_stream
    | apply keeps_record_log_segment | by apply keeps_log_request | by apply keeps_log_request
    | apply keeps_abandon_orphan_delivery ].
Qed.

End SlotOps.
