(* ===== verification/JournalSession.v ===== *)
(** * JournalSession: the session and the slots beside each other

    The session's command window and lease-poll checkpoints and the slots
    beside each other: [journal_inv], what [StoredJournal::validate] checks of
    it, and the lemmas that every commit, poll, offer and slot mutation keeps
    it. *)

From S2P Require Import Prelude Text Execution Capability Log JournalBase ManagedSecret.
From S2P Require Import LogDelivery Saga Journal JournalInvariant.

(** ** The session *)

Definition tombstone_sequence (t : CommandTombstone) : Z :=
  bget (command_sequence (tombstone_command t)).
Definition tombstone_operation (t : CommandTombstone) : OperationId :=
  command_operation_id (tombstone_command t).

Lemma validate_tombstones_iff (previous : option CommandSequence) (ops : BTreeSet Z)
    (l : list CommandTombstone) :
  validate_tombstones previous ops l = Ok tt ↔
  strict_sorted (tombstone_sequence <$> l) = true ∧ NoDup (tombstone_operation <$> l) ∧
  (∀ t, t ∈ l → ¬ tombstone_operation t ∈ ops) ∧
  (∀ t p, t ∈ l → previous = Some p → bget p < tombstone_sequence t).
Proof.
  revert previous ops. induction l as [|t l IH]; intros previous ops.
  { simpl. split; [|done]. intros _. split_and!; [done|constructor|set_solver..]. }
  simpl validate_tombstones. rewrite !fmap_cons, strict_sorted_cons, NoDup_cons.
  destruct (match previous with Some _ => _ | None => _ end) eqn:Hp; simpl.
  { split; [done|]. intros (_ & _ & _ & H). exfalso. destruct previous as [p|]; [|done].
    apply Z.leb_le in Hp. specialize (H t p ltac:(set_solver) eq_refl).
    unfold tombstone_sequence in H. lia. }
  assert (Hp' : ∀ p, previous = Some p → bget p < tombstone_sequence t).
  { intros p ->. by apply Z.leb_gt in Hp. }
  destruct (bset_contains ops _) eqn:Ho.
  { split; [done|]. intros (_ & _ & H & _). exfalso. apply bset_contains_spec in Ho.
    by apply (H t); [set_solver|]. }
  rewrite <- not_true_iff_false, bset_contains_spec in Ho. rewrite IH.
  setoid_rewrite elem_of_bset_insert. setoid_rewrite elem_of_cons. split.
  - intros (Hs & Hn & Hops & Hprev). split_and!; try done.
    + intros y (u & -> & Hu)%list_elem_of_fmap. rewrite lt_Z.
      by specialize (Hprev u _ Hu eq_refl).
    + intros (u & Hu & Hul)%list_elem_of_fmap. apply (Hops u Hul). by left.
    + intros u [->|Hu]; [done|]. intros Hin. apply (Hops u Hu). by right.
    + intros u p [->|Hu] Hpe; [eauto|]. specialize (Hprev u _ Hu eq_refl).
      specialize (Hp' p Hpe). unfold tombstone_sequence in *. lia.
  - intros ([Hlt Hs] & [Hnin Hn] & Hops & Hprev). split_and!; try done.
    + intros u Hu [Heq|Hin]; [|by apply (Hops u); auto].
      apply Hnin. apply list_elem_of_fmap. eauto.
    + intros u p Hu [= <-]. rewrite <- lt_Z. apply Hlt. apply list_elem_of_fmap. eauto.
Qed.

(** The operations a checkpoint names. *)
Definition poll_operations (c : LeasePollCheckpoint) : list OperationId :=
  current_operation_id c :: option_list (acknowledges_operation_id c).

Record checkpoints_ok (l : list LeasePollCheckpoint) : Prop := {
  cp_sorted : strict_sorted (checkpoint_key <$> l) = true;
  cp_slots : ∀ c, c ∈ l → checkpoint_key c <= MAX_JOURNALED_SLOTS;
  cp_receipts : ∀ c, c ∈ l → validate_authority_receipts (pending_authority_receipts c) = Ok tt;
  cp_operations : NoDup (l ≫= poll_operations);
}.

Lemma elem_of_poll_operations (c : LeasePollCheckpoint) (id : OperationId) :
  id ∈ poll_operations c ↔ id = current_operation_id c ∨ acknowledges_operation_id c = Some id.
Proof.
  unfold poll_operations. rewrite elem_of_cons.
  destruct (acknowledges_operation_id c) as [a|]; simpl.
  - rewrite list_elem_of_singleton. naive_solver.
  - rewrite elem_of_nil. naive_solver.
Qed.

Lemma NoDup_poll_operations (c : LeasePollCheckpoint) :
  NoDup (poll_operations c) ↔ acknowledges_operation_id c ≠ Some (current_operation_id c).
Proof.
  unfold poll_operations. rewrite NoDup_cons.
  destruct (acknowledges_operation_id c) as [a|]; simpl.
  - rewrite list_elem_of_singleton. split; [intros [H _] [= Heq]; congruence|].
    intros H. split; [congruence|apply NoDup_singleton].
  - split; [done|]. intros _. split; [apply not_elem_of_nil|constructor].
Qed.

Lemma elem_of_checkpoint_seen (ops : BTreeSet Z) (c : LeasePollCheckpoint) (id : OperationId) :
  id ∈ checkpoint_seen ops c ↔ id ∈ poll_operations c ∨ id ∈ ops.
Proof.
  rewrite elem_of_poll_operations. unfold checkpoint_seen.
  destruct (acknowledges_operation_id c); rewrite ?elem_of_bset_insert; naive_solver.
Qed.

Lemma checkpoint_invalid_false (previous : option RunnerSlotOrdinal) (ops : BTreeSet Z)
    (c : LeasePollCheckpoint) :
  checkpoint_invalid previous ops c = false ↔
  checkpoint_key c <= MAX_JOURNALED_SLOTS ∧
  (∀ p, previous = Some p → bget p < checkpoint_key c) ∧
  NoDup (poll_operations c) ∧ ∀ id, id ∈ poll_operations c → ¬ id ∈ ops.
Proof.
  unfold checkpoint_invalid. rewrite !orb_false_iff, Z.ltb_ge, NoDup_poll_operations.
  setoid_rewrite elem_of_poll_operations.
  rewrite <- (not_true_iff_false (bset_contains ops _)), bset_contains_spec.
  assert (Hp : match previous with Some slot => checkpoint_key c <=? bget slot | None => false end =
    false ↔ ∀ p, previous = Some p → bget p < checkpoint_key c).
  { destruct previous as [p|]; [|done]. rewrite Z.leb_gt. naive_solver. }
  rewrite Hp. destruct (acknowledges_operation_id c) as [a|].
  - rewrite <- not_true_iff_false, bset_contains_spec, elem_of_bset_insert. split.
    + intros [[[Hk Hpr] Hc] Ha]. split_and!; try done; naive_solver.
    + intros (Hk & Hpr & Hne & Hn). split_and!; [done..|by apply Hn; left|].
      intros [->|Hin]; [done|]. by apply (Hn a); [right|].
  - split; [|naive_solver]. intros [[[Hk Hpr] Hc] _]. split_and!; try done. naive_solver.
Qed.

Lemma validate_checkpoints_iff (previous : option RunnerSlotOrdinal) (ops : BTreeSet Z)
    (l : list LeasePollCheckpoint) :
  validate_checkpoints previous ops l = Ok tt ↔
  checkpoints_ok l ∧ (∀ id, id ∈ (l ≫= poll_operations) → ¬ id ∈ ops) ∧
  (∀ c p, c ∈ l → previous = Some p → bget p < checkpoint_key c).
Proof.
  revert previous ops. induction l as [|c l IH]; intros previous ops.
  { simpl. split; [|done]. intros _. split; [|set_solver].
    constructor; [done|set_solver..|constructor]. }
  simpl validate_checkpoints. rewrite bind_cons. setoid_rewrite elem_of_app. split.
  - destruct (checkpoint_invalid previous ops c) eqn:Hc; [done|].
    apply checkpoint_invalid_false in Hc as (Hk & Hp & Hnd & Hn).
    rewrite bind_unit_Ok, IH. setoid_rewrite elem_of_checkpoint_seen.
    intros (Hr & [Hs Hks Hrs Ho] & Hops & Hprev). split; [|split].
    + constructor.
      * rewrite fmap_cons, strict_sorted_cons. split; [|done].
        intros y (d & -> & Hd)%list_elem_of_fmap. rewrite lt_Z. by apply (Hprev d _ Hd eq_refl).
      * intros d [->|Hd]%elem_of_cons; eauto.
      * intros d [->|Hd]%elem_of_cons; eauto.
      * rewrite bind_cons. apply NoDup_app. split; [done|]. split; [|done].
        intros id Hid Hid'. apply (Hops id Hid'). by left.
    + intros id [Hid|Hid]; [eauto|]. intros Hin. apply (Hops id Hid). by right.
    + intros d p [->|Hd]%elem_of_cons Hpe; [eauto|]. specialize (Hp p Hpe).
      specialize (Hprev d _ Hd eq_refl). unfold checkpoint_key in *. lia.
  - intros ([Hs Hks Hrs Ho] & Hops & Hprev).
    rewrite fmap_cons, strict_sorted_cons in Hs. destruct Hs as [Hlt Hs].
    rewrite bind_cons, NoDup_app in Ho. destruct Ho as (Hnd & Hdisj & Ho).
    rewrite (proj2 (checkpoint_invalid_false previous ops c)).
    2: { split_and!; [apply Hks; set_solver|intros p; apply Hprev; set_solver|done|].
         intros id Hid. apply Hops. by left. }
    rewrite bind_unit_Ok, IH. setoid_rewrite elem_of_checkpoint_seen.
    split; [apply Hrs; set_solver|]. split; [|split].
    + constructor; [done|intros; apply Hks; set_solver|intros; apply Hrs; set_solver|done].
    + intros id Hid [Hin|Hin]; [by apply (Hdisj id)|]. by apply (Hops id); auto.
    + intros d p Hd [= <-]. rewrite <- lt_Z. apply Hlt. apply list_elem_of_fmap. eauto.
Qed.

(** [validate_session], check by check. *)
Record session_ok (session : SessionSnapshot) : Prop := {
  so_protocol : protocol_supported (selected_protocol session) = true;
  so_job_ir : job_ir_supported (selected_job_ir session) = true;
  so_window : Z.of_nat (length (command_tombstones session)) <= MAX_COMMAND_TOMBSTONES;
  so_polls : Z.of_nat (length (lease_poll_checkpoints session)) <= MAX_JOURNALED_SLOTS;
  so_sequences : strict_sorted (tombstone_sequence <$> command_tombstones session) = true;
  so_operations : NoDup (tombstone_operation <$> command_tombstones session);
  so_cursor : cursor_matches_window session = true;
  so_checkpoints : checkpoints_ok (lease_poll_checkpoints session);
}.

Lemma validate_session_iff (session : SessionSnapshot) :
  validate_session session = Ok tt ↔ session_ok session.
Proof.
  unfold validate_session. destruct (_ || _) eqn:Hc.
  { split; [done|]. intros [H1 H2 H3 H4 _ _ _ _]. rewrite H1, H2 in Hc. simpl in Hc.
    apply orb_true_iff in Hc as [Hc|Hc]; apply Z.ltb_lt in Hc; lia. }
  rewrite !orb_false_iff, !negb_false_iff, !Z.ltb_ge in Hc. destruct Hc as [[[H1 H2] H3] H4].
  rewrite !bind_unit_Ok, reject_Ok, negb_false_iff, validate_tombstones_iff,
    validate_checkpoints_iff. split.
  - intros ((Hs & Hn & _) & Hcur & Hcp & _). by constructor.
  - intros [_ _ _ _ Hs Hn Hcur Hcp]. split_and!; try done; intros ? _ []%not_elem_of_bset_empty.
Qed.

(** ** The slots beside each other *)

Definition slot_commands (s : SlotSnapshot) : list DurableCommand :=
  offer_command (slot_offer s) :: option_list (cancellation_command <$> cancellation s).

(** A slot's command was applied and is behind the cursor. *)
Definition command_ok (session : SessionSnapshot) (c : DurableCommand) : Prop :=
  command_has_applied_tombstone_or_is_older session c = true ∧ beyond_cursor session c = false.

Definition command_number (c : DurableCommand) : Z := bget (command_sequence c).

Section SlotsOk.
Context {hasher : Sha256} {uuids : Uuid}.

Record slots_ok (rid : RunnerId) (session : SessionSnapshot) (l : list SlotSnapshot) : Prop := {
  sl_sorted : strict_sorted (slot_key <$> l) = true;
  sl_keys : ∀ s, s ∈ l → slot_key s <= MAX_JOURNALED_SLOTS;
  sl_slots : ∀ s, s ∈ l → slot_ok rid session s;
  sl_commands : ∀ s c, s ∈ l → c ∈ slot_commands s → command_ok session c;
  sl_sequences : NoDup (command_number <$> (l ≫= slot_commands));
  sl_operations : NoDup (command_operation_id <$> (l ≫= slot_commands));
}.

(** The commands of one slot, checked in order against those seen. *)
Fixpoint validate_commands (session : SessionSnapshot) (seen : BTreeSet Z * BTreeSet Z)
    (l : list DurableCommand) : result JournalInvariantError (BTreeSet Z * BTreeSet Z) :=
  match l with
  | [] => Ok seen
  | c :: l => seen ← validate_slot_command session c seen; validate_commands session seen l
  end.

Lemma validate_commands_Ok (session : SessionSnapshot) (seen seen' : BTreeSet Z * BTreeSet Z)
    (l : list DurableCommand) :
  validate_commands session seen l = Ok seen' →
  (∀ c, c ∈ l → command_has_applied_tombstone_or_is_older session c = true) ∧
  NoDup (command_number <$> l) ∧ NoDup (command_operation_id <$> l) ∧
  (∀ c, c ∈ l → ¬ command_number c ∈ seen.1 ∧ ¬ command_operation_id c ∈ seen.2) ∧
  (∀ n, n ∈ seen'.1 ↔ n ∈ seen.1 ∨ n ∈ (command_number <$> l)) ∧
  (∀ n, n ∈ seen'.2 ↔ n ∈ seen.2 ∨ n ∈ (command_operation_id <$> l)).
Proof.
  revert seen. induction l as [|c l IH]; intros seen.
  { simpl. intros [= <-]. split_and!; try set_solver; constructor. }
  simpl validate_commands. unfold validate_slot_command.
  destruct (_ || _ || _) eqn:Hc; [done|]. cbn [mbind result_bind].
  rewrite !orb_false_iff, negb_false_iff, <- !not_true_iff_false, !bset_contains_spec in Hc.
  destruct Hc as [[Hn Ho] Ha]. intros (Hap & Hnd & Hod & Hnew & H1 & H2)%IH.
  cbn [fst snd] in Hnew, H1, H2.
  repeat setoid_rewrite elem_of_bset_insert in Hnew.
  repeat setoid_rewrite elem_of_bset_insert in H1. setoid_rewrite elem_of_bset_insert in H2.
  rewrite !fmap_cons, !NoDup_cons. setoid_rewrite elem_of_cons. split_and!; try done.
  - intros d [->|Hd]; eauto.
  - intros (d & Hd & Hdl)%list_elem_of_fmap. destruct (Hnew d Hdl) as [Hx _]. apply Hx. left.
    by rewrite <- Hd.
  - intros (d & Hd & Hdl)%list_elem_of_fmap. destruct (Hnew d Hdl) as [_ Hx]. apply Hx. left.
    by rewrite <- Hd.
  - intros d [->|Hd]; [done|]. destruct (Hnew d Hd) as [Hx Hy]. naive_solver.
  - intros n. rewrite H1. unfold command_number at 2. naive_solver.
  - intros n. rewrite H2. naive_solver.
Qed.

Lemma validate_commands_total (session : SessionSnapshot) (seen : BTreeSet Z * BTreeSet Z)
    (l : list DurableCommand) :
  (∀ c, c ∈ l → command_has_applied_tombstone_or_is_older session c = true) →
  NoDup (command_number <$> l) → NoDup (command_operation_id <$> l) →
  (∀ c, c ∈ l → ¬ command_number c ∈ seen.1 ∧ ¬ command_operation_id c ∈ seen.2) →
  ∃ seen', validate_commands session seen l = Ok seen'.
Proof.
  revert seen. induction l as [|c l IH]; intros seen Hap Hn Ho Hnew; [by eexists|].
  rewrite fmap_cons, NoDup_cons in Hn, Ho. destruct Hn as [Hcn Hn], Ho as [Hco Ho].
  simpl validate_commands. unfold validate_slot_command.
  destruct (Hnew c ltac:(set_solver)) as [Hc1 Hc2].
  rewrite <- bset_contains_spec, not_true_iff_false in Hc1, Hc2. unfold command_number in Hc1.
  rewrite Hc1, Hc2, (Hap c) by set_solver. cbn [negb orb mbind result_bind].
  apply IH; [intros; apply Hap; set_solver|done..|]. cbn [fst snd]. intros d Hd.
  rewrite !elem_of_bset_insert. destruct (Hnew d ltac:(set_solver)) as [Hd1 Hd2]. split.
  - intros [Heq|?]; [|done]. apply Hcn. apply list_elem_of_fmap. exists d. by split.
  - intros [Heq|?]; [|done]. apply Hco. apply list_elem_of_fmap. exists d. by split.
Qed.

(** One slot of the loop. *)
Lemma validate_slots_cons (rid : RunnerId) (session : SessionSnapshot) (previous : option Z)
    (seen : BTreeSet Z * BTreeSet Z) (s : SlotSnapshot) (l : list SlotSnapshot) :
  validate_slot_list rid (Some session) previous seen (s :: l) = Ok tt ↔
  slot_key s <= MAX_JOURNALED_SLOTS ∧ (∀ p, previous = Some p → p < slot_key s) ∧
  slot_ok rid session s ∧ (∀ c, c ∈ slot_commands s → beyond_cursor session c = false) ∧
  ∃ seen', validate_commands session seen (slot_commands s) = Ok seen' ∧
    validate_slot_list rid (Some session) (Some (slot_key s)) seen' l = Ok tt.
Proof.
  simpl validate_slot_list. rewrite !bind_unit_Ok, reject_Ok, orb_false_iff, Z.ltb_ge.
  rewrite slot_validate_iff.
  assert (Hp : match previous with Some ordinal => slot_key s <=? ordinal | None => false end =
    false ↔ ∀ p, previous = Some p → p < slot_key s).
  { destruct previous as [p|]; [|done]. rewrite Z.leb_gt. naive_solver. }
  rewrite Hp. unfold slot_commands. setoid_rewrite elem_of_cons.
  destruct (cancellation s) as [k|]; simpl;
    destruct (validate_slot_command session (offer_command (slot_offer s)) seen) as [seen1|];
    simpl; try (split; [by intros (? & ? & ?)|]; intros (_ & _ & _ & _ & ? & ? & _); done).
  - destruct (validate_slot_command session (cancellation_command k) seen1) as [seen2|];
      simpl; [|split; [by intros (? & ? & ?)|]; intros (_ & _ & _ & _ & ? & ? & _); done].
    rewrite bind_unit_Ok, reject_Ok, orb_false_iff. setoid_rewrite list_elem_of_singleton.
    split; [intros ([? ?] & ? & [? ?] & ?)|intros (? & ? & ? & Hb & seen' & [= <-] & ?)].
    + split_and!; [done..| |eauto]. by intros c [->| ->].
    + split_and!; auto.
  - rewrite bind_unit_Ok, reject_Ok, orb_false_r. setoid_rewrite elem_of_nil.
    split; [intros ([? ?] & ? & ? & ?)|intros (? & ? & ? & Hb & seen' & [= <-] & ?)].
    + split_and!; [done..| |eauto]. by intros c [->|[]].
    + split_and!; auto.
Qed.

Lemma validate_slots_iff (rid : RunnerId) (session : SessionSnapshot) (previous : option Z)
    (seen : BTreeSet Z * BTreeSet Z) (l : list SlotSnapshot) :
  validate_slot_list rid (Some session) previous seen l = Ok tt ↔
  slots_ok rid session l ∧ (∀ s p, s ∈ l → previous = Some p → p < slot_key s) ∧
  (∀ c, c ∈ (l ≫= slot_commands) → ¬ command_number c ∈ seen.1 ∧ ¬ command_operation_id c ∈ seen.2).
Proof.
  revert previous seen. induction l as [|s l IH]; intros previous seen.
  { simpl. split; [|done]. intros _. split; [|set_solver].
    constructor; try set_solver; constructor. }
  rewrite validate_slots_cons, bind_cons. setoid_rewrite elem_of_app. split.
  - intros (Hk & Hp & Hok & Hb & seen' & Hc & ([Hs Hks Hsl Hco Hsq Hop] & Hprev & Hnew)%IH).
    apply validate_commands_Ok in Hc as (Hap & Hn1 & Ho1 & Hnew1 & He1 & He2).
    split; [|split].
    + constructor.
      * rewrite fmap_cons, strict_sorted_cons. split; [|done].
        intros y (d & -> & Hd)%list_elem_of_fmap. rewrite lt_Z. eauto.
      * intros d [->|Hd]%elem_of_cons; eauto.
      * intros d [->|Hd]%elem_of_cons; eauto.
      * intros d c [->|Hd]%elem_of_cons Hcd; [|eauto]. split; eauto.
      * rewrite bind_cons, fmap_app. apply NoDup_app. split_and!; [done| |done].
        intros n Hn (d & -> & Hd)%list_elem_of_fmap. apply (proj1 (Hnew d Hd)). apply He1. by right.
      * rewrite bind_cons, fmap_app. apply NoDup_app. split_and!; [done| |done].
        intros n Hn (d & -> & Hd)%list_elem_of_fmap. apply (proj2 (Hnew d Hd)). apply He2. by right.
    + intros d p [->|Hd]%elem_of_cons Hpe; [eauto|].
      specialize (Hprev d _ Hd eq_refl). specialize (Hp p Hpe). lia.
    + intros c [Hcs|Hcs]; [eauto|]. destruct (Hnew c Hcs) as [H1 H2].
      rewrite He1 in H1. rewrite He2 in H2. naive_solver.
  - intros ([Hs Hks Hsl Hco Hsq Hop] & Hprev & Hnew).
    rewrite fmap_cons, strict_sorted_cons in Hs. destruct Hs as [Hlt Hs].
    rewrite bind_cons, fmap_app, NoDup_app in Hsq, Hop.
    destruct Hsq as (Hn1 & Hd1 & Hsq), Hop as (Ho1 & Hd2 & Hop).
    split_and!; [apply Hks; set_solver|intros p; apply Hprev; set_solver|apply Hsl; set_solver| |].
    { intros c Hc. apply (Hco s c); [set_solver|done]. }
    destruct (validate_commands_total session seen (slot_commands s)) as [seen' Hc]; [|done..|auto|].
    { intros c Hc. apply (Hco s c); [set_solver|done]. }
    exists seen'. split; [done|]. apply validate_commands_Ok in Hc as (_ & _ & _ & _ & He1 & He2).
    apply IH. split; [|split].
    + constructor; try done; intros; [apply Hks|apply Hsl|eapply Hco; [|done]]; by apply elem_of_cons; right.
    + intros d p Hd [= <-]. rewrite <- lt_Z. apply Hlt. apply list_elem_of_fmap. eauto.
    + intros c Hc. destruct (Hnew c (or_intror Hc)) as [H1 H2]. rewrite He1, He2. split.
      * intros [?|Hin]; [done|]. apply (Hd1 _ Hin). apply list_elem_of_fmap. eauto.
      * intros [?|Hin]; [done|]. apply (Hd2 _ Hin). apply list_elem_of_fmap. eauto.
Qed.

(** Replacing a slot by one with more commands, new to the journal. *)
Lemma bind_insert_perm (l : list SlotSnapshot) (i : nat) (s s' : SlotSnapshot)
    (extra : list DurableCommand) :
  l !! i = Some s → slot_commands s' = slot_commands s ++ extra →
  (<[i := s']> l ≫= slot_commands) ≡ₚ extra ++ (l ≫= slot_commands).
Proof.
  revert i. induction l as [|x l IH]; intros [|i]; try done.
  - intros [= ->] Hc. change (<[0%nat := s']> (s :: l)) with (s' :: l).
    rewrite !bind_cons, Hc. solve_Permutation.
  - intros Hi Hc. change (<[S i := s']> (x :: l)) with (x :: <[i := s']> l).
    rewrite !bind_cons, (IH i Hi Hc). solve_Permutation.
Qed.

Lemma bind_insert_at_perm (l : list SlotSnapshot) (i : nat) (s : SlotSnapshot) :
  (insert_at i s l ≫= slot_commands) ≡ₚ slot_commands s ++ (l ≫= slot_commands).
Proof.
  unfold insert_at. rewrite bind_app, bind_cons.
  rewrite <- (take_drop i l) at 3. rewrite bind_app. solve_Permutation.
Qed.

Lemma elem_of_insert_cases (l : list SlotSnapshot) (i : nat) (s x : SlotSnapshot) :
  x ∈ <[i := s]> l → x = s ∨ x ∈ l.
Proof.
  intros [j Hj]%list_elem_of_lookup_1.
  destruct (decide (i = j)) as [<-|Hne].
  - apply list_lookup_insert_Some in Hj as [(_ & <- & _)|(? & _)]; [by left|done].
  - rewrite list_lookup_insert_ne in Hj by done. right. by eapply list_elem_of_lookup_2.
Qed.

Lemma slots_ok_update (rid : RunnerId) (session : SessionSnapshot) (l : list SlotSnapshot)
    (i : nat) (s s' : SlotSnapshot) (extra : list DurableCommand) :
  slots_ok rid session l → l !! i = Some s → slot_ok rid session s' →
  slot_offer s' = slot_offer s → slot_commands s' = slot_commands s ++ extra →
  (∀ c, c ∈ extra → command_ok session c) →
  NoDup (command_number <$> extra ++ (l ≫= slot_commands)) →
  NoDup (command_operation_id <$> extra ++ (l ≫= slot_commands)) →
  slots_ok rid session (<[i := s']> l).
Proof.
  intros [Hs Hk Hsl Hco Hn Ho] Hi Hs' Hoff Hcmd Hex Hn' Ho'.
  assert (Hkey : slot_key s' = slot_key s) by (unfold slot_key; by rewrite Hoff).
  constructor.
  - by rewrite (strict_sorted_alter slot_key l i s s' Hi Hkey).
  - intros x [->|Hx]%elem_of_insert_cases; [|eauto]. rewrite Hkey.
    by eapply Hk, list_elem_of_lookup_2.
  - intros x [->|Hx]%elem_of_insert_cases; eauto.
  - intros x c [->|Hx]%elem_of_insert_cases Hc; [|eauto].
    rewrite Hcmd, elem_of_app in Hc. destruct Hc as [Hc|Hc]; [|eauto].
    eapply Hco; [by eapply list_elem_of_lookup_2|done].
  - by rewrite (bind_insert_perm l i s s' extra Hi Hcmd).
  - by rewrite (bind_insert_perm l i s s' extra Hi Hcmd).
Qed.

Lemma slots_ok_delete (rid : RunnerId) (session : SessionSnapshot) (l : list SlotSnapshot)
    (i : nat) :
  slots_ok rid session l → slots_ok rid session (delete i l).
Proof.
  intros [Hs Hk Hsl Hco Hn Ho].
  assert (Hin : ∀ x, x ∈ delete i l → x ∈ l).
  { intros x Hx. by eapply elem_of_sublist, sublist_delete. }
  assert (Hsub : (delete i l ≫= slot_commands) `sublist_of` (l ≫= slot_commands)).
  { clear. revert i. induction l as [|x l IH]; intros [|i]; [done..| |].
    - change (delete 0%nat (x :: l)) with l. rewrite bind_cons. by apply sublist_inserts_l.
    - change (delete (S i) (x :: l)) with (x :: delete i l). rewrite !bind_cons.
      by apply sublist_app. }
  constructor; eauto using strict_sorted_delete.
  - eapply sublist_NoDup; [exact Hn|]. by apply fmap_sublist.
  - eapply sublist_NoDup; [exact Ho|]. by apply fmap_sublist.
Qed.

Lemma slots_ok_insert_at (rid : RunnerId) (session : SessionSnapshot) (l : list SlotSnapshot)
    (i : nat) (s : SlotSnapshot) :
  slots_ok rid session l → search_by_key slot_key (slot_key s) l = Err i →
  slot_key s <= MAX_JOURNALED_SLOTS → slot_ok rid session s →
  (∀ c, c ∈ slot_commands s → command_ok session c) →
  NoDup (command_number <$> slot_commands s ++ (l ≫= slot_commands)) →
  NoDup (command_operation_id <$> slot_commands s ++ (l ≫= slot_commands)) →
  slots_ok rid session (insert_at i s l).
Proof.
  intros [Hs Hk Hsl Hco Hn Ho] Hi Hks Hok Hc Hn' Ho'.
  destruct (search_by_key_Err slot_key l (slot_key s) i Hs Hi) as [_ Hins].
  assert (Hin : ∀ x, x ∈ insert_at i s l ↔ x = s ∨ x ∈ l).
  { intros x. unfold insert_at. rewrite elem_of_app, elem_of_cons.
    rewrite <- (take_drop i l) at 3. rewrite elem_of_app. naive_solver. }
  constructor; try (setoid_rewrite Hin; naive_solver).
  - eauto.
  - by rewrite bind_insert_at_perm.
  - by rewrite bind_insert_at_perm.
Qed.

(** ** The journal *)

(** What every mutation keeps. *)
Record journal_inv (j : StoredJournal) : Prop := {
  ji_schema : schema_version j = RUNNER_JOURNAL_SCHEMA_VERSION;
  ji_count : Z.of_nat (length (slots j)) <= MAX_JOURNALED_SLOTS;
  ji_empty : journal_session j = None → slots j = [];
  ji_session : ∀ session, journal_session j = Some session → session_ok session;
  ji_slots : ∀ session, journal_session j = Some session →
    slots_ok (journal_runner_id j) session (slots j);
  ji_slot : ∀ session s, journal_session j = Some session → s ∈ slots j →
    slot_inv (journal_runner_id j) session s;
}.

Lemma journal_validate_iff (j : StoredJournal) :
  journal_validate j = Ok tt ↔
  schema_version j = RUNNER_JOURNAL_SCHEMA_VERSION ∧
  Z.of_nat (length (slots j)) <= MAX_JOURNALED_SLOTS ∧
  (journal_session j = None → slots j = []) ∧
  (journal_session j ≠ None → revision j ≠ 0) ∧
  ∀ session, journal_session j = Some session →
    session_ok session ∧ slots_ok (journal_runner_id j) session (slots j).
Proof.
  unfold journal_validate. rewrite !bind_unit_Ok, !reject_Ok, negb_false_iff, Z.eqb_eq, Z.ltb_ge.
  destruct (journal_session j) as [session|]; simpl.
  - rewrite andb_false_r, validate_session_iff, validate_slots_iff, Z.eqb_neq. split.
    + intros (Hsc & Hn & _ & Hr & Hs & Hsl & _). split_and!; try done.
      by intros ? [= <-].
    + intros (Hsc & Hn & _ & Hr & H). destruct (H session eq_refl) as [Hs Hsl].
      split_and!; try done; [by apply Hr|].
      intros c _. split; apply not_elem_of_bset_empty.
  - rewrite andb_true_r. split.
    + intros (Hsc & Hn & He & _ & _ & _). split_and!; try done. intros _.
      by destruct (slots j).
    + intros (Hsc & Hn & He & _ & _). by rewrite He.
Qed.

Lemma journal_inv_validates (j : StoredJournal) :
  journal_inv j → (journal_session j ≠ None → revision j ≠ 0) → journal_validate j = Ok tt.
Proof.
  intros [Hsc Hn He Hs Hsl _] Hr. apply journal_validate_iff. split_and!; try done.
  intros session Hsess. split; eauto.
Qed.

(** ** Committing a command *)

(** The session after a commit. *)
Definition committed_session (session : SessionSnapshot) (c : DurableCommand)
    (d : CommandDisposition) : SessionSnapshot :=
  MkSession (session_id session) (selected_protocol session) (selected_job_ir session)
    (MkCommandCursor (Some (command_sequence c)))
    (push_tombstone (MkCommandTombstone c d) (command_tombstones session))
    (lease_poll_checkpoints session).

(** The number the next command must have. *)
Definition next_number (session : SessionSnapshot) : Z :=
  match session_cursor session with Some n => bget n + 1 | None => 1 end.

Lemma require_session_Ok (j : StoredJournal) (sid : RunnerSessionId) (session : SessionSnapshot) :
  require_session j sid = Ok session ↔ journal_session j = Some session ∧ session_id session = sid.
Proof.
  unfold require_session. destruct (journal_session j) as [s|]; simpl; [|naive_solver].
  destruct (Z.eqb_spec (session_id s) sid); simpl; naive_solver.
Qed.

Lemma commit_command_Ok (sid : RunnerSessionId) (c : DurableCommand) (d : CommandDisposition)
    (j j' : StoredJournal) (b : bool) :
  commit_command sid c d j = (j', Ok b) →
  ∃ session, require_session j sid = Ok session ∧
  if b then
    command_number c = next_number session ∧ command_is_used j c = false ∧
    j' = set_session (Some (committed_session session c d)) j
  else
    j' = j ∧ beyond_cursor session c = false ∧
    find_tombstone session (command_sequence c) = Some (MkCommandTombstone c d).
Proof.
  unfold commit_command. intros H. unfold_monad.
  destruct (require_session j sid) as [session|] eqn:Hs; [|done]. exists session. split; [done|].
  destruct (match session_cursor session with Some _ => _ | None => _ end) eqn:Hc.
  { unfold replay_command in H. unfold_monad.
    destruct (find_tombstone _ _) as [t|] eqn:Hf; [|done].
    destruct (bool_decide _ && _) eqn:Hm; [|done]. bool_facts. injection H as <- <-.
    split; [done|]. unfold beyond_cursor. destruct (session_cursor session); [|done].
    apply Z.leb_le in Hc. split; [by apply Z.ltb_ge|]. destruct t. simpl in *. by subst. }
  destruct (command_is_used j c) eqn:Hu; [done|].
  destruct (match session_cursor session with Some _ => _ | None => _ end) as [e|] eqn:He in H;
    [|done].
  destruct (negb (bool_decide (command_sequence c = e))) eqn:Heq; [done|]. bool_facts.
  destruct (command_cursor_advance _ _) as [cur|] eqn:Hadv; [|done]. injection H as <- <-.
  apply command_cursor_advance_Ok in Hadv as [-> Hnum]. split_and!; try done.
  unfold command_number, next_number, session_cursor. destruct (cursor_acknowledged _); [done|].
  by rewrite Hnum.
Qed.

(** Behind the window's oldest command, or recorded in it as applied. *)
Lemma push_tombstone_cases (t : CommandTombstone) (l : list CommandTombstone) :
  push_tombstone t l = l ++ [t] ∨
  ∃ first rest, l = first :: rest ∧ push_tombstone t l = rest ++ [t].
Proof.
  unfold push_tombstone. destruct (_ <? _) eqn:Hn; [|by left].
  destruct l as [|first rest]; [|right; eauto]. exfalso. by apply Z.ltb_lt in Hn.
Qed.

Lemma strict_sorted_app_last (l : list Z) (n : Z) :
  strict_sorted l = true → (∀ x, x ∈ l → x < n) → strict_sorted (l ++ [n]) = true.
Proof.
  induction l as [|x l IH]; [done|]. change ((x :: l) ++ [n]) with (x :: (l ++ [n])).
  rewrite !strict_sorted_cons. intros [Hx Hl] Hn. split.
  - intros y [Hy|Hy%list_elem_of_singleton]%elem_of_app; [eauto|]. subst. rewrite lt_Z.
    apply Hn. set_solver.
  - apply IH; [done|]. intros; apply Hn; set_solver.
Qed.

(** Every recorded command is at or behind the cursor. *)
Lemma window_behind_cursor (session : SessionSnapshot) (t : CommandTombstone) :
  session_ok session → t ∈ command_tombstones session →
  tombstone_sequence t < next_number session.
Proof.
  intros [_ _ _ _ Hs _ Hcur _] Ht. unfold cursor_matches_window in Hcur. unfold next_number.
  destruct (last (command_tombstones session)) as [tl|] eqn:Hl.
  2: { apply last_None in Hl. rewrite Hl in Ht. set_solver. }
  destruct (session_cursor session) as [n|]; [|done]. apply bool_decide_eq_true in Hcur.
  assert (Hlast : tombstone_sequence tl = bget n) by (unfold tombstone_sequence; by rewrite Hcur).
  apply last_Some in Hl as [l' Hl]. rewrite Hl in Ht, Hs.
  apply elem_of_app in Ht as [Ht|Ht%list_elem_of_singleton]; [|subst; lia].
  rewrite fmap_app in Hs. clear Hl. induction l' as [|x l' IH]; [set_solver|].
  change ((tombstone_sequence <$> x :: l') ++ (tombstone_sequence <$> [tl])) with
    (tombstone_sequence x :: ((tombstone_sequence <$> l') ++ (tombstone_sequence <$> [tl]))) in Hs.
  rewrite strict_sorted_cons in Hs. destruct Hs as [Hx Hs].
  apply elem_of_cons in Ht as [->|Ht]; [|eauto].
  assert (Hlt : lt (tombstone_sequence x) (tombstone_sequence tl)) by (apply Hx; set_solver).
  rewrite lt_Z in Hlt. lia.
Qed.

Lemma push_tombstone_ok (session : SessionSnapshot) (t : CommandTombstone) :
  session_ok session → tombstone_sequence t = next_number session →
  tombstone_operation t ∉ (tombstone_operation <$> command_tombstones session) →
  let l := push_tombstone t (command_tombstones session) in
  Z.of_nat (length l) <= MAX_COMMAND_TOMBSTONES ∧
  strict_sorted (tombstone_sequence <$> l) = true ∧ NoDup (tombstone_operation <$> l) ∧
  last l = Some t.
Proof.
  intros Hok Hseq Hop l.
  assert (Hs : strict_sorted (tombstone_sequence <$> command_tombstones session ++ [t]) = true).
  { rewrite fmap_app. apply strict_sorted_app_last; [apply Hok|].
    intros x (u & -> & Hu)%list_elem_of_fmap. rewrite Hseq. by apply window_behind_cursor. }
  assert (Hn : NoDup (tombstone_operation <$> command_tombstones session ++ [t])).
  { rewrite fmap_app. apply NoDup_app. split_and!; [apply Hok| |apply NoDup_singleton].
    intros x Hx Hx'%list_elem_of_singleton. by subst. }
  pose proof (so_window _ Hok) as Hw. subst l. unfold push_tombstone.
  destruct (Z.ltb_spec MAX_COMMAND_TOMBSTONES
    (Z.of_nat (length (command_tombstones session ++ [t])))) as [Hlt|Hge].
  - rewrite length_app in Hlt. simpl in Hlt.
    destruct (command_tombstones session) as [|first rest]; [done|].
    change (delete 0%nat ((first :: rest) ++ [t])) with (rest ++ [t]).
    change ((first :: rest) ++ [t]) with (first :: (rest ++ [t])) in Hs, Hn.
    rewrite fmap_cons, strict_sorted_cons in Hs. rewrite fmap_cons, NoDup_cons in Hn.
    split_and!; [|apply Hs|apply Hn|apply last_snoc].
    rewrite length_app. simpl in *. lia.
  - split_and!; [done..|apply last_snoc].
Qed.

(** Advancing the window keeps the commands behind it accounted for. *)
Lemma command_ok_push (session : SessionSnapshot) (c x : DurableCommand)
    (d : CommandDisposition) :
  session_ok session → command_number c = next_number session →
  command_ok session x → command_ok (committed_session session c d) x.
Proof.
  intros Hok Hnum [Ha Hb]. unfold command_ok, beyond_cursor, next_number, session_cursor in *.
  simpl. split.
  2: { destruct (cursor_acknowledged _) as [n|]; [|done].
       apply Z.ltb_ge in Hb. apply Z.ltb_ge. unfold command_number in Hnum. lia. }
  unfold command_has_applied_tombstone_or_is_older in *. simpl.
  pose proof (so_sequences _ Hok) as Hs.
  destruct (command_tombstones session) as [|first rest] eqn:Hl; [done|].
  apply orb_true_iff in Ha.
  destruct (push_tombstone_cases (MkCommandTombstone c d) (first :: rest))
    as [->|(f & r & [= <- <-] & ->)].
  - simpl. apply orb_true_iff. destruct Ha as [Ha|Ha]; [by left|right].
    rewrite existsb_app. simpl in Ha. rewrite orb_assoc, Ha. done.
  - rewrite fmap_cons, strict_sorted_cons in Hs. destruct Hs as [Hlt _].
    assert (Hfirst : ∀ y r', rest ++ [MkCommandTombstone c d] = y :: r' →
      tombstone_sequence first < tombstone_sequence y).
    { intros y r' Heq. destruct rest as [|z r'']; simpl in Heq; simplify_eq.
      - pose proof (window_behind_cursor session first Hok) as Hw. rewrite Hl in Hw.
        specialize (Hw ltac:(set_solver)). unfold tombstone_sequence in *. simpl.
        unfold command_number, next_number, session_cursor in *. lia.
      - rewrite <- lt_Z. apply Hlt. set_solver. }
    destruct (rest ++ [MkCommandTombstone c d]) as [|y r'] eqn:Heq.
    { by destruct rest. }
    specialize (Hfirst y r' eq_refl). apply orb_true_iff. destruct Ha as [Ha|Ha].
    { left. apply Z.ltb_lt in Ha. apply Z.ltb_lt. unfold tombstone_sequence in Hfirst. lia. }
    simpl in Ha. apply orb_true_iff in Ha as [Ha|Ha].
    { left. apply andb_true_iff in Ha as [Ha _]. apply bool_decide_eq_true in Ha.
      apply Z.ltb_lt. unfold tombstone_sequence in Hfirst. by rewrite Ha in Hfirst. }
    right. rewrite <- Heq, existsb_app, Ha. done.
Qed.

Lemma command_ok_new (session : SessionSnapshot) (c : DurableCommand) :
  command_ok (committed_session session c CommandApplied) c.
Proof.
  split; [|apply Z.ltb_irrefl].
  unfold command_has_applied_tombstone_or_is_older. simpl.
  assert (Hin : ∃ pre, push_tombstone (MkCommandTombstone c CommandApplied)
    (command_tombstones session) = pre ++ [MkCommandTombstone c CommandApplied]).
  { destruct (push_tombstone_cases (MkCommandTombstone c CommandApplied)
      (command_tombstones session)) as [->|(f & r & _ & ->)]; eauto. }
  destruct Hin as [pre ->].
  destruct (pre ++ [MkCommandTombstone c CommandApplied]) as [|y r] eqn:Heq; [by destruct pre|].
  apply orb_true_iff. right. rewrite <- Heq, existsb_app. simpl.
  rewrite !bool_decide_eq_true_2 by done. by rewrite orb_true_r.
Qed.

(** Slots read two fields of the session that no commit changes. *)
Lemma slot_ok_session (rid : RunnerId) (session session' : SessionSnapshot) (s : SlotSnapshot) :
  session_id session' = session_id session →
  selected_job_ir session' = selected_job_ir session →
  slot_ok rid session s → slot_ok rid session' s.
Proof.
  intros Hid Hj Hok. pose proof (ok_orphan _ _ _ Hok) as Horph. destruct Hok.
  constructor; try done; [by rewrite Hj|].
  intros o Ho. unfold orphan_consistent. rewrite Hid. by apply Horph.
Qed.

Lemma slot_inv_session (rid : RunnerId) (session session' : SessionSnapshot) (s : SlotSnapshot) :
  session_id session' = session_id session →
  selected_job_ir session' = selected_job_ir session →
  slot_inv rid session s → slot_inv rid session' s.
Proof. intros Hid Hj []. constructor; try done. by eapply slot_ok_session. Qed.

Lemma command_is_used_false (j : StoredJournal) (c : DurableCommand) (session : SessionSnapshot) :
  command_is_used j c = false → journal_session j = Some session →
  (command_operation_id c ∉ (tombstone_operation <$> command_tombstones session)) ∧
  command_operation_id c ∉ (command_operation_id <$> (slots j ≫= slot_commands)).
Proof.
  unfold command_is_used. intros Hu Hs. rewrite Hs in Hu. apply orb_false_iff in Hu as [H1 H2].
  split.
  - intros (t & Ht & Hin)%list_elem_of_fmap. apply not_true_iff_false in H1. apply H1.
    apply existsb_exists. exists t. split; [by apply list_elem_of_In|].
    apply Z.eqb_eq. by rewrite Ht.
  - intros (x & Hx & (s & Hxs & Hsj)%list_elem_of_bind)%list_elem_of_fmap.
    apply not_true_iff_false in H2. apply H2. apply existsb_exists. exists s.
    split; [by apply list_elem_of_In|]. apply orb_true_iff. unfold slot_commands in Hxs.
    apply elem_of_cons in Hxs as [->|Hxs]; [left; by apply Z.eqb_eq|right].
    destruct (cancellation s) as [k|]; simpl in Hxs; [|set_solver].
    apply list_elem_of_singleton in Hxs as ->. by apply Z.eqb_eq.
Qed.

(** A commit keeps the invariant, and the slots' commands stay distinct from
    the new one. *)
Lemma commit_command_inv (sid : RunnerSessionId) (c : DurableCommand) (d : CommandDisposition)
    (j j' : StoredJournal) (b : bool) :
  journal_inv j → commit_command sid c d j = (j', Ok b) →
  journal_inv j' ∧ slots j' = slots j ∧ revision j' = revision j ∧
  journal_runner_id j' = journal_runner_id j ∧
  (b = true → ∃ session,
     journal_session j = Some session ∧ session_id session = sid ∧
     journal_session j' = Some (committed_session session c d) ∧
     (command_number c ∉ (command_number <$> (slots j ≫= slot_commands))) ∧
     (command_operation_id c ∉ (command_operation_id <$> (slots j ≫= slot_commands))) ∧
     ∀ x, x ∈ (slots j ≫= slot_commands) → command_number x < command_number c).
Proof.
  intros Hinv (session & [Hsess Hid]%require_session_Ok & Hb)%commit_command_Ok.
  destruct b; [|destruct Hb as [-> _]; split_and!; done].
  destruct Hb as (Hnum & Hused & ->).
  pose proof (ji_session _ Hinv session Hsess) as Hso.
  pose proof (ji_slots _ Hinv session Hsess) as Hsl.
  destruct (command_is_used_false _ _ _ Hused Hsess) as [Hop1 Hop2].
  assert (Hbelow : ∀ x, x ∈ (slots j ≫= slot_commands) → command_number x < command_number c).
  { intros x (s & Hxs & Hs)%list_elem_of_bind.
    destruct (sl_commands _ _ _ Hsl s x Hs Hxs) as [_ Hbc]. unfold beyond_cursor in Hbc.
    unfold next_number in Hnum. destruct (session_cursor session); [|done].
    apply Z.ltb_ge in Hbc. unfold command_number in *. lia. }
  destruct (push_tombstone_ok session (MkCommandTombstone c d) Hso Hnum Hop1)
    as (Hlen & Hsorted & Hnd & Hlast).
  split; [|split_and!; try done; intros _; exists session; split_and!; try done].
  2: { intros (x & Hx & Hin)%list_elem_of_fmap. specialize (Hbelow x Hin). lia. }
  destruct Hinv as [Hsc Hn He _ _ Hslot]. constructor; simpl; try done.
  - intros ? [= <-]. destruct Hso. constructor; try done. unfold cursor_matches_window. simpl.
    rewrite Hlast. by apply bool_decide_eq_true_2.
  - intros ? [= <-]. destruct Hsl. constructor; try done.
    + intros s Hs. apply (slot_ok_session _ session); eauto.
    + intros s x Hs Hx. apply command_ok_push; eauto.
  - intros ? s [= <-] Hs. apply (slot_inv_session _ session); eauto.
Qed.

(** ** Slots under their fence *)

Lemma fenced_slot_Ok (j : StoredJournal) (sid : RunnerSessionId) (slot : RunnerSlotOrdinal)
    (guard : LeaseGuard) (i : nat) (s : SlotSnapshot) :
  fenced_slot j sid slot guard = Ok (i, s) →
  (∃ session, journal_session j = Some session ∧ session_id session = sid) ∧
  slots j !! i = Some s ∧ slot_key s = bget slot ∧ slot_guard s = guard.
Proof.
  unfold fenced_slot, slot_index. intros H. unfold_monad.
  destruct (require_session j sid) as [session|] eqn:Hs; [|done].
  destruct (search_by_key _ _ _) as [i'|] eqn:Hi; [|done].
  destruct (slots j !! i') as [s'|] eqn:Hl; [|done]. unfold require_guard in H.
  case_bool_decide as Hg; [|done]. injection H as <- <-.
  apply require_session_Ok in Hs. apply search_by_key_Ok in Hi as (x & Hx & Hk).
  split; [eauto|]. naive_solver.
Qed.

(** Replacing one slot by a valid one with the same commands. *)
Lemma journal_inv_update (j : StoredJournal) (session : SessionSnapshot) (i : nat)
    (s s' : SlotSnapshot) :
  journal_inv j → journal_session j = Some session → slots j !! i = Some s →
  slot_inv (journal_runner_id j) session s' →
  slot_offer s' = slot_offer s → cancellation s' = cancellation s →
  journal_inv (set_slots (<[i := s']> (slots j)) j).
Proof.
  intros [Hsc Hn He Hs Hsl Hslot] Hsess Hi Hinv' Hoff Hcan. constructor; simpl; try done.
  - by rewrite length_insert.
  - congruence.
  - intros ? Hx. rewrite Hsess in Hx. injection Hx as <-. specialize (Hsl session Hsess).
    apply (slots_ok_update _ _ _ _ s s' []); try done.
    + apply Hinv'.
    + unfold slot_commands. by rewrite Hoff, Hcan, app_nil_r.
    + set_solver.
    + apply (sl_sequences _ _ _ Hsl).
    + apply (sl_operations _ _ _ Hsl).
  - intros ? x Hx [->|Hin]%elem_of_insert_cases; [|eauto].
    rewrite Hsess in Hx. by injection Hx as <-.
Qed.

Lemma journal_inv_delete (j : StoredJournal) (i : nat) :
  journal_inv j → journal_inv (set_slots (delete i (slots j)) j).
Proof.
  intros [Hsc Hn He Hs Hsl Hslot].
  assert (Hin : ∀ x, x ∈ delete i (slots j) → x ∈ slots j).
  { intros x Hx. by eapply elem_of_sublist, sublist_delete. }
  constructor; simpl; try done.
  - pose proof (sublist_length _ _ (sublist_delete (slots j) i)). lia.
  - intros H. by rewrite He.
  - intros ? Hx. by apply slots_ok_delete, Hsl.
  - intros ? x Hx Hx'. eauto.
Qed.

Lemma slot_mut_inv (sid : RunnerSessionId) (slot : RunnerSlotOrdinal) (guard : LeaseGuard)
    (op : slot_op) (j j' : StoredJournal) (b : bool) :
  journal_inv j →
  (∀ i s, fenced_slot j sid slot guard = Ok (i, s) → slot_admissible op s) →
  slot_mut sid slot guard (run_slot_op op) j = (j', Ok b) →
  journal_inv j' ∧ revision j' = revision j.
Proof.
  intros Hinv Hadm. unfold slot_mut.
  destruct (fenced_slot j sid slot guard) as [[i s]|] eqn:Hf; [|done].
  destruct (run_slot_op op s) as [s' r] eqn:Hrun. intros [= <- ->].
  apply fenced_slot_Ok in Hf as ((session & Hsess & _) & Hi & _).
  destruct (keeps_slot_op (journal_runner_id j) session op s s' b) as (Hs' & Hoff & Hcan);
    [by eapply ji_slot; [..|eapply list_elem_of_lookup_2]|by eapply Hadm|done|].
  split; [|done]. by eapply journal_inv_update.
Qed.

(** ** Sessions and polls *)

Lemma begin_session_inv (binding : SessionBinding) (j j' : StoredJournal) (b : bool) :
  journal_inv j →
  (protocol_supported (binding_selected_protocol binding) = true ∧
   job_ir_supported (binding_selected_job_ir binding) = true) →
  begin_session binding j = (j', Ok b) → journal_inv j' ∧ revision j' = revision j.
Proof.
  intros Hinv [Hp Hj] H. unfold begin_session in H. unfold_monad.
  assert (Hfresh : slots j = [] → journal_inv (set_session (Some (session_new binding)) j)).
  { intros Hnil. destruct Hinv as [Hsc Hn He Hs Hsl Hslot]. constructor; simpl; try done.
    - intros ? [= <-]. constructor; simpl; try done; try (constructor; try set_solver; constructor).
    - intros ? [= <-]. rewrite Hnil. constructor; try set_solver; constructor.
    - intros ? s [= <-]. rewrite Hnil. set_solver. }
  destruct (journal_session j) as [current|] eqn:Hs.
  - destruct (bool_decide _); [by injection H as <- <-|].
    destruct (_ =? _); [done|]. destruct (slots j) as [|] eqn:Hsl; [|done].
    injection H as <- <-. split; [by apply Hfresh|done].
  - injection H as <- <-. split; [|done]. apply Hfresh. by apply (ji_empty _ Hinv).
Qed.

Lemma journal_inv_checkpoints (j : StoredJournal) (session : SessionSnapshot)
    (l : list LeasePollCheckpoint) :
  journal_inv j → journal_session j = Some session →
  checkpoints_ok l → Z.of_nat (length l) <= MAX_JOURNALED_SLOTS →
  journal_inv (set_journal_checkpoints l session j).
Proof.
  intros [Hsc Hn He Hs Hsl Hslot] Hsess Hl Hlen. constructor; simpl; try done.
  - intros ? [= <-]. destruct (Hs session Hsess). by constructor.
  - intros ? [= <-]. destruct (Hsl session Hsess). constructor; try done.
    intros s Hin. apply (slot_ok_session _ session); eauto.
  - intros ? s [= <-] Hin. apply (slot_inv_session _ session); eauto.
Qed.

Lemma find_checkpoint_Ok (session : SessionSnapshot) (slot : RunnerSlotOrdinal) (i : nat)
    (c : LeasePollCheckpoint) :
  find_checkpoint session slot = Ok (i, c) →
  lease_poll_checkpoints session !! i = Some c ∧ checkpoint_slot c = slot.
Proof.
  unfold find_checkpoint. intros H. unfold_monad.
  destruct (search_by_key _ _ _) as [i'|] eqn:Hi; [|done].
  destruct (lease_poll_checkpoints session !! i') as [c'|] eqn:Hl; [|done].
  injection H as <- <-. apply search_by_key_Ok in Hi as (x & Hx & Hk).
  split; [done|]. apply bounded_eq. unfold checkpoint_key in Hk. congruence.
Qed.

Lemma lease_poll_operation_unused (session : SessionSnapshot) (id : OperationId) :
  lease_poll_operation_is_used session id = false →
  id ∉ (lease_poll_checkpoints session ≫= poll_operations).
Proof.
  intros H (c & Hid & Hc)%list_elem_of_bind. apply not_true_iff_false in H. apply H.
  apply existsb_exists. exists c. split; [by apply list_elem_of_In|]. apply orb_true_iff.
  apply elem_of_poll_operations in Hid as [->|Hid]; [left; by apply Z.eqb_eq|right].
  by apply bool_decide_eq_true_2.
Qed.

(** Replacing a checkpoint by one whose operations are its own current one and
    at most one that no checkpoint names. *)
Lemma checkpoints_ok_update (l : list LeasePollCheckpoint) (i : nat) (c c' : LeasePollCheckpoint) :
  checkpoints_ok l → l !! i = Some c → checkpoint_slot c' = checkpoint_slot c →
  validate_authority_receipts (pending_authority_receipts c') = Ok tt →
  NoDup (poll_operations c') →
  (∀ id, id ∈ poll_operations c' → id ∈ poll_operations c ∨ id ∉ (l ≫= poll_operations)) →
  checkpoints_ok (<[i := c']> l).
Proof.
  intros [Hs Hk Hr Ho] Hi Hslot Hrec Hnd Hnew.
  assert (Hkey : checkpoint_key c' = checkpoint_key c) by (unfold checkpoint_key; by rewrite Hslot).
  assert (Hin : ∀ x, x ∈ <[i := c']> l → x = c' ∨ x ∈ l).
  { intros x [k Hj]%list_elem_of_lookup_1. destruct (decide (i = k)) as [<-|Hne].
    - apply list_lookup_insert_Some in Hj as [(_ & <- & _)|(? & _)]; [by left|done].
    - rewrite list_lookup_insert_ne in Hj by done. right. by eapply list_elem_of_lookup_2. }
  constructor.
  - by rewrite (strict_sorted_alter checkpoint_key l i c c' Hi Hkey).
  - intros x [->|Hx]%Hin; [|eauto]. rewrite Hkey. by eapply Hk, list_elem_of_lookup_2.
  - intros x [->|Hx]%Hin; eauto.
  - clear Hin Hs Hk Hr. rewrite <- (take_drop_middle l i c Hi) in Ho, Hnew.
    rewrite insert_take_drop by (by eapply lookup_lt_Some).
    rewrite bind_app, bind_cons in *. setoid_rewrite elem_of_app in Hnew.
    setoid_rewrite elem_of_app in Hnew. rewrite !NoDup_app in Ho |- *.
    setoid_rewrite elem_of_app in Ho. setoid_rewrite elem_of_app.
    destruct Ho as (H1 & H12 & H2 & H23 & H3). split_and!; try done.
    + intros x Hx [Hx'|Hx']; [|by apply (H12 x Hx); right].
      destruct (Hnew x Hx') as [Hc|Hc]; [by apply (H12 x Hx); left|naive_solver].
    + intros x Hx Hx'. destruct (Hnew x Hx) as [Hc|Hc]; [by apply (H23 x Hc)|naive_solver].
Qed.

Lemma checkpoints_ok_insert_at (l : list LeasePollCheckpoint) (i : nat) (c : LeasePollCheckpoint) :
  checkpoints_ok l → search_by_key checkpoint_key (checkpoint_key c) l = Err i →
  checkpoint_key c <= MAX_JOURNALED_SLOTS →
  validate_authority_receipts (pending_authority_receipts c) = Ok tt →
  NoDup (poll_operations c) → (∀ id, id ∈ poll_operations c → id ∉ (l ≫= poll_operations)) →
  checkpoints_ok (insert_at i c l).
Proof.
  intros [Hs Hk Hr Ho] Hi Hkc Hrc Hnd Hnew.
  destruct (search_by_key_Err checkpoint_key l _ i Hs Hi) as [_ Hins].
  assert (Hin : ∀ x, x ∈ insert_at i c l ↔ x = c ∨ x ∈ l).
  { intros x. unfold insert_at. rewrite elem_of_app, elem_of_cons.
    rewrite <- (take_drop i l) at 3. rewrite elem_of_app. naive_solver. }
  constructor; try (setoid_rewrite Hin; naive_solver); [eauto|].
  assert (Hp : (insert_at i c l ≫= poll_operations) ≡ₚ poll_operations c ++ (l ≫= poll_operations)).
  { unfold insert_at. rewrite bind_app, bind_cons.
    rewrite <- (take_drop i l) at 3. rewrite bind_app. solve_Permutation. }
  rewrite Hp. apply NoDup_app. done.
Qed.

(** Slots are numbered from one, so the checkpoints fit beside each other. *)
Lemma checkpoints_count (l : list LeasePollCheckpoint) :
  checkpoints_ok l → Z.of_nat (length l) <= MAX_JOURNALED_SLOTS.
Proof.
  intros [Hs Hk _ _].
  assert (Hgen : ∀ l lo, strict_sorted (checkpoint_key <$> l) = true →
    (∀ c, c ∈ l → lo < checkpoint_key c <= MAX_JOURNALED_SLOTS) →
    l ≠ [] → Z.of_nat (length l) <= MAX_JOURNALED_SLOTS - lo).
  { clear. induction l as [|c l IH]; intros lo Hs Hk Hne; [done|].
    rewrite fmap_cons, strict_sorted_cons in Hs. destruct Hs as [Hc Hs].
    assert (Hck := Hk c ltac:(set_solver)). destruct (decide (l = [])) as [->|Hl]; [simpl; lia|].
    assert (Hlen : Z.of_nat (length l) <= MAX_JOURNALED_SLOTS - checkpoint_key c).
    { apply IH; [done| |done]. intros d Hd. split; [|apply Hk; set_solver].
      rewrite <- lt_Z. apply Hc. apply list_elem_of_fmap. eauto. }
    simpl. lia. }
  destruct (decide (l = [])) as [->|Hl]; [done|].
  specialize (Hgen l 0 Hs). rewrite Z.sub_0_r in Hgen. apply Hgen; [|done].
  intros c Hc. split; [|eauto]. pose proof (bounded_range (checkpoint_slot c)).
  unfold checkpoint_key. lia.
Qed.

Lemma prepare_lease_poll_inv (sid : RunnerSessionId) (slot : RunnerSlotOrdinal)
    (id : OperationId) (j j' : StoredJournal) (b : bool) :
  journal_inv j → prepare_lease_poll sid slot id j = (j', Ok b) →
  journal_inv j' ∧ revision j' = revision j.
Proof.
  intros Hinv H. unfold prepare_lease_poll in H. unfold_monad.
  destruct (require_session j sid) as [session|] eqn:Hs; [|done].
  apply require_session_Ok in Hs as [Hs _].
  destruct (search_by_key _ _ _) as [|i] eqn:Hi; [by injection H as <- <-|].
  destruct (Z.ltb_spec MAX_JOURNALED_SLOTS (bget slot)); [done|].
  destruct (lease_poll_operation_is_used session id) eqn:Hu; [done|]. injection H as <- <-.
  split; [|done].
  assert (Hok : checkpoints_ok (insert_at i (checkpoint_first slot id)
    (lease_poll_checkpoints session))).
  { apply checkpoints_ok_insert_at; try done.
    - apply (so_checkpoints _ (ji_session _ Hinv session Hs)).
    - by apply NoDup_poll_operations.
    - intros x [->|?]%elem_of_poll_operations; [|done]. by apply lease_poll_operation_unused. }
  apply journal_inv_checkpoints; [done..|]. by apply checkpoints_count.
Qed.

Lemma advance_lease_poll_inv (sid : RunnerSessionId) (slot : RunnerSlotOrdinal)
    (expected successor : OperationId) (receipts : list LeaseAuthorityPollReceipt)
    (j j' : StoredJournal) (b : bool) :
  journal_inv j → advance_lease_poll sid slot expected successor receipts j = (j', Ok b) →
  journal_inv j' ∧ revision j' = revision j ∧ (b = false → j' = j).
Proof.
  intros Hinv H. unfold advance_lease_poll in H. unfold_monad.
  destruct (validate_authority_receipts receipts) as [[]|] eqn:Hr; [|done].
  destruct (require_session j sid) as [session|] eqn:Hs; [|done].
  apply require_session_Ok in Hs as [Hs _].
  destruct (find_checkpoint session slot) as [[i c]|] eqn:Hf; [|done]. simpl in H.
  apply find_checkpoint_Ok in Hf as [Hi Hslot].
  destruct (Z.eqb_spec (current_operation_id c) expected) as [Hcur|]; simpl in H.
  2: { destruct (bool_decide _); [|done]. destruct (_ || _); [|done]. by injection H as <- <-. }
  destruct (lease_poll_operation_is_used session successor) eqn:Hu; [done|].
  injection H as <- <-. split; [|done].
  apply lease_poll_operation_unused in Hu.
  assert (Hcin : expected ∈ (lease_poll_checkpoints session ≫= poll_operations)).
  { apply list_elem_of_bind. exists c. split; [|by eapply list_elem_of_lookup_2].
    apply elem_of_poll_operations. by left. }
  assert (Hok : checkpoints_ok (<[i := MkPollCheckpoint slot successor (Some expected) receipts]>
    (lease_poll_checkpoints session))).
  { eapply checkpoints_ok_update; [apply (so_checkpoints _ (ji_session _ Hinv session Hs))|..];
      try done.
    - apply NoDup_poll_operations. simpl. intros [= ->]. done.
    - intros x [->|Hx]%elem_of_poll_operations; [by right|left].
      simpl in Hx. injection Hx as <-. apply elem_of_poll_operations. by left. }
  apply journal_inv_checkpoints; [done..|]. by apply checkpoints_count.
Qed.

Lemma acknowledge_receipts_inv (sid : RunnerSessionId) (slot : RunnerSlotOrdinal)
    (expected : list LeaseAuthorityPollReceipt) (j j' : StoredJournal) (b : bool) :
  journal_inv j → acknowledge_lease_authority_receipts sid slot expected j = (j', Ok b) →
  journal_inv j' ∧ revision j' = revision j.
Proof.
  intros Hinv H. unfold acknowledge_lease_authority_receipts in H. unfold_monad.
  destruct (require_session j sid) as [session|] eqn:Hs; [|done].
  apply require_session_Ok in Hs as [Hs _].
  destruct (validate_authority_receipts expected) as [[]|] eqn:Hr; [|done].
  destruct (find_checkpoint session slot) as [[i c]|] eqn:Hf; [|done]. simpl in H.
  apply find_checkpoint_Ok in Hf as [Hi Hslot].
  destruct (pending_authority_receipts c); [by injection H as <- <-|].
  destruct (negb _); [done|]. injection H as <- <-. split; [|done].
  pose proof (so_checkpoints _ (ji_session _ Hinv session Hs)) as Hcp.
  assert (Hok : checkpoints_ok (<[i := MkPollCheckpoint (checkpoint_slot c)
    (current_operation_id c) (acknowledges_operation_id c) []]> (lease_poll_checkpoints session))).
  { eapply checkpoints_ok_update; [done..| |].
    - change (NoDup (poll_operations c)). apply NoDup_poll_operations. intros Heq.
      pose proof (cp_operations _ Hcp) as Hn. rewrite <- (take_drop_middle _ _ _ Hi) in Hn.
      rewrite bind_app, bind_cons, !NoDup_app in Hn. destruct Hn as (_ & _ & Hn & _).
      by apply NoDup_poll_operations in Hn.
    - intros x Hx. by left. }
  apply journal_inv_checkpoints; [done..|]. by apply checkpoints_count.
Qed.

(** ** Offers, cancellations, orphans and releases *)

Lemma slot_from_offer_inv (rid : RunnerId) (session : SessionSnapshot) (offer : LeaseOfferRecord) :
  offer_validate offer = Ok tt → lease_runner_id (offer_lease offer) = rid →
  job_ir_version (offer_job_ir offer) = selected_job_ir session →
  slot_inv rid session (slot_from_offer offer).
Proof.
  intros Ho Hr Hj. constructor; [|done..]. constructor; simpl; try done; lia.
Qed.

Lemma journal_inv_insert (j : StoredJournal) (session : SessionSnapshot) (i : nat)
    (s : SlotSnapshot) :
  journal_inv j → journal_session j = Some session →
  search_by_key slot_key (slot_key s) (slots j) = Err i →
  slot_inv (journal_runner_id j) session s →
  Z.of_nat (length (slots j)) < MAX_JOURNALED_SLOTS → slot_key s <= MAX_JOURNALED_SLOTS →
  (∀ c, c ∈ slot_commands s → command_ok session c) →
  NoDup (command_number <$> slot_commands s ++ (slots j ≫= slot_commands)) →
  NoDup (command_operation_id <$> slot_commands s ++ (slots j ≫= slot_commands)) →
  journal_inv (set_slots (insert_at i s (slots j)) j).
Proof.
  intros [Hsc Hn He Hs Hsl Hslot] Hsess Hi Hinv' Hlen Hk Hc Hn1 Hn2.
  constructor; simpl; try done.
  - unfold insert_at. rewrite length_app. simpl. rewrite <- Nat.add_succ_comm. simpl.
    rewrite <- length_app, take_drop. lia.
  - congruence.
  - intros ? Hx. rewrite Hsess in Hx. injection Hx as <-.
    apply slots_ok_insert_at; try done; [by apply Hsl|apply Hinv'].
  - intros ? x Hx Hin. rewrite Hsess in Hx. injection Hx as <-.
    unfold insert_at in Hin. rewrite elem_of_app, elem_of_cons in Hin.
    assert (Hcase : x = s ∨ x ∈ slots j).
    { rewrite <- (take_drop i (slots j)), elem_of_app. naive_solver. }
    destruct Hcase as [->|?]; eauto.
Qed.

Lemma record_offer_inv (sid : RunnerSessionId) (offer : LeaseOfferRecord)
    (j j' : StoredJournal) (b : bool) :
  journal_inv j → record_offer sid offer j = (j', Ok b) →
  journal_inv j' ∧ revision j' = revision j.
Proof.
  intros Hinv H. unfold record_offer, rejectM in H. unfold_monad.
  destruct (require_session j sid) as [session|] eqn:Hs; [|done].
  apply require_session_Ok in Hs as [Hs Hsid].
  destruct (offer_validate offer) as [[]|] eqn:Ho; [|done].
  destruct (negb (_ =? _)) eqn:Hr; [done|]. destruct (negb (bool_decide _)) eqn:Hj; [done|].
  destruct (MAX_JOURNALED_SLOTS <? _) eqn:Hk; [done|]. bool_facts.
  destruct (search_by_key _ _ _) as [i|i] eqn:Hi.
  { destruct (slots j !! i); [|done]. destruct (bool_decide _); [|done]. by injection H as <- <-. }
  destruct (Z.leb_spec MAX_JOURNALED_SLOTS (Z.of_nat (length (slots j)))); [done|].
  destruct (commit_command sid _ _ j) as [j1 [changed|]] eqn:Hc; [|done].
  destruct (commit_command_inv _ _ _ _ _ _ Hinv Hc) as (Hinv1 & Hsl1 & Hrev1 & Hrid1 & Hnew).
  destruct changed; simpl in H; [|by injection H as <- <-].
  destruct (Hnew eq_refl) as (session' & Hs' & _ & Hs1 & Hn & Hop & _).
  rewrite Hs in Hs'. injection Hs' as <-. rewrite <- Hsl1 in Hi, Hn, Hop.
  rewrite Hi in H. injection H as <- <-. split; [|done].
  assert (Hslot : slot_inv (journal_runner_id j1)
    (committed_session session (offer_command offer) CommandApplied) (slot_from_offer offer)).
  { apply slot_from_offer_inv; [done|by rewrite Hrid1|done]. }
  apply (journal_inv_insert j1 _ i (slot_from_offer offer) Hinv1 Hs1 Hi Hslot).
  - by rewrite Hsl1.
  - done.
  - intros c [->|Hc']%elem_of_cons; [apply command_ok_new|set_solver].
  - apply NoDup_cons. split; [done|]. apply (sl_sequences _ _ _ (ji_slots _ Hinv1 _ Hs1)).
  - apply NoDup_cons. split; [done|]. apply (sl_operations _ _ _ (ji_slots _ Hinv1 _ Hs1)).
Qed.

End SlotsOk.
