(* ===== verification/JournalSafety.v ===== *)
(** * JournalSafety: the journal's mutations as a whole

    The remaining mutations keep [journal_inv]; what the decoding checks
    refuse of an accepted mutation ([admissible]); which command a mutation
    delivers; and how a fenced mutation stops. [JournalTheorems] states the
    properties. *)

From S2P Require Import Prelude Text Execution Capability Log JournalBase ManagedSecret.
From S2P Require Import LogDelivery Saga Journal JournalInvariant JournalSession.

Section JournalInv.
Context {hasher : Sha256} {uuids : Uuid}.

(** ** Cancellations *)

Lemma set_last_insert {A : Type} (x y : A) (l : list A) :
  last l = Some y → set_last x l = <[pred (length l) := x]> l.
Proof.
  intros [l' ->]%last_Some. rewrite set_last_snoc, length_app. simpl.
  replace (pred (length l' + 1)) with (length l' + 0)%nat by lia.
  by rewrite insert_app_r.
Qed.

Lemma cancel_pending_endpoint_inv (rid : RunnerId) (session : SessionSnapshot)
    (s : SlotSnapshot) :
  slot_inv rid session s → orphan s = None →
  slot_inv rid session (cancel_pending_endpoint s) ∧
  slot_offer (cancel_pending_endpoint s) = slot_offer s ∧
  cancellation (cancel_pending_endpoint s) = cancellation s.
Proof.
  intros Hinv Ho. unfold cancel_pending_endpoint.
  destruct (last _) as [op|] eqn:Hl; [|done]. destruct (is_recovery_pending op); [|done].
  split; [|done]. rewrite (set_last_insert _ op) by done.
  destruct (request_cancellation op) as [op' b] eqn:Hr.
  eapply (inv_endpoint_update _ _ _ _ op op' RequestCancellation b); [done|..].
  - by rewrite <- last_lookup.
  - simpl. by rewrite Hr.
  - done.
Qed.

Lemma cancelled_slot_inv (rid : RunnerId) (session : SessionSnapshot) (s : SlotSnapshot)
    (record : CancellationRecord) :
  slot_inv rid session s → orphan s = None →
  (slot_lifecycle s = Cancelling ∨ validate_transition (slot_lifecycle s) Cancelling = Ok tt) →
  command_number (offer_command (slot_offer s)) < command_number (cancellation_command record) →
  slot_inv rid session (set_slot_lifecycle Cancelling (set_cancellation (Some record) s)).
Proof.
  intros Hinv Ho Hlc Hnum.
  assert (Hnt : is_terminal (slot_lifecycle s) = false).
  { destruct Hlc as [->|Hlc]; [done|]. by destruct (slot_lifecycle s). }
  keep_slot Hinv; simpl; try done.
  - pose proof (ok_endpoints _ _ _ Hok) as [? ? ? ? ? Hf]%validate_endpoint_operations_iff.
    apply validate_endpoint_operations_iff. constructor; simpl; try done. by intros [?|?].
  - intros r Hr. simpl in Hr. destruct (ok_terminal_result _ _ _ Hok r Hr) as (_ & _ & Ht).
    congruence.
  - intros o Ho'. simpl in Ho'. congruence.
  - intros c [= <-]. done.
Qed.

Lemma record_cancellation_inv (sid : RunnerSessionId) (slot : RunnerSlotOrdinal)
    (guard : LeaseGuard) (record : CancellationRecord) (j j' : StoredJournal) (b : bool) :
  journal_inv j → record_cancellation sid slot guard record j = (j', Ok b) →
  journal_inv j' ∧ revision j' = revision j.
Proof.
  intros Hinv H. unfold record_cancellation, rejectM in H. unfold_monad.
  destruct (fenced_slot j sid slot guard) as [[i s]|] eqn:Hf; [|done]. simpl in H.
  apply fenced_slot_Ok in Hf as (_ & Hi & _ & _).
  destruct (is_some (orphan s)) eqn:Ho; [done|].
  destruct (bool_decide (offer_status s = _)) eqn:Hst; [done|].
  destruct (bool_decide (cancellation s = _)); [by injection H as <- <-|].
  destruct (is_some (cancellation s)) eqn:Hcan; [done|]. bool_facts.
  destruct (commit_command sid _ _ j) as [j1 [changed|]] eqn:Hc; [|done].
  destruct (commit_command_inv _ _ _ _ _ _ Hinv Hc) as (Hinv1 & Hsl1 & Hrev1 & Hrid1 & Hnew).
  destruct changed; simpl in H; [|by injection H as <- <-].
  destruct (Hnew eq_refl) as (session & _ & _ & Hs1 & Hn & Hop & Hbelow).
  rewrite <- Hsl1 in Hi, Hn, Hop, Hbelow.
  assert (Hlc : slot_lifecycle s = Cancelling ∨
    validate_transition (slot_lifecycle s) Cancelling = Ok tt).
  { case_bool_decide; [by left|right].
    destruct (validate_transition _ _) as [[]|]; [done|]. by destruct (slot_lifecycle s). }
  assert (Hj' : j' = set_slots (<[i := cancel_pending_endpoint (set_slot_lifecycle Cancelling
    (set_cancellation (Some record) s))]> (slots j1)) j1 ∧ b = true).
  { destruct Hlc as [Hlc|Hlc]; rewrite Hlc in H; [|case_bool_decide];
      simpl in H; by injection H as <- <-. }
  destruct Hj' as [-> ->]. clear H. split; [|done].
  pose proof (list_elem_of_lookup_2 _ _ _ Hi) as Hin.
  assert (Hsi := ji_slot _ Hinv1 _ s Hs1 Hin).
  destruct (cancel_pending_endpoint_inv (journal_runner_id j1)
    (committed_session session (cancellation_command record) CommandApplied)
    (set_slot_lifecycle Cancelling (set_cancellation (Some record) s)))
    as (Hs' & Hoff & Hcn); [|done|].
  { apply cancelled_slot_inv; try done. apply Hbelow. apply list_elem_of_bind. exists s.
    split; [|done]. unfold slot_commands. set_solver. }
  set (s' := cancel_pending_endpoint _) in *. simpl in Hoff, Hcn.
  destruct Hinv1 as [Hsc Hcnt He Hss Hsl Hslot]. constructor; simpl; try done.
  - by rewrite length_insert.
  - congruence.
  - intros ? Hx. rewrite Hs1 in Hx. injection Hx as <-. specialize (Hsl _ Hs1).
    apply (slots_ok_update _ _ _ _ s s' [cancellation_command record]); try done.
    + apply Hs'.
    + unfold slot_commands. by rewrite Hoff, Hcn, Hcan.
    + intros c ->%list_elem_of_singleton. apply command_ok_new.
    + apply NoDup_cons. split; [done|]. apply (sl_sequences _ _ _ Hsl).
    + apply NoDup_cons. split; [done|]. apply (sl_operations _ _ _ Hsl).
  - intros ? x Hx [->|Hin']%elem_of_insert_cases; [|eauto].
    rewrite Hs1 in Hx. by injection Hx as <-.
Qed.

(** ** Polls, orphans and releases *)

Lemma complete_lease_poll_inv (sid : RunnerSessionId) (completion : LeasePollCompletion)
    (j j' : StoredJournal) (b : bool) :
  journal_inv j → complete_lease_poll sid completion j = (j', Ok b) →
  journal_inv j' ∧ revision j' = revision j.
Proof.
  intros Hinv H. unfold complete_lease_poll in H. unfold_monad.
  destruct (validate_authority_receipts _) as [[]|]; [|done].
  destruct (advance_lease_poll _ _ _ _ _ j) as [j1 [cc|]] eqn:Ha; [|done].
  apply advance_lease_poll_inv in Ha as (Hinv1 & Hr1 & _); [|done].
  assert (Hgen : ∀ (m : stM StoredJournal JournalInvariantError bool),
    (∀ j2 b2, m j1 = (j2, Ok b2) → journal_inv j2 ∧ revision j2 = revision j1) →
    (let (s', r) := m j1 in match r with
       | Ok a => let (s'0, r0) := rejectM (negb cc && a) CommandReplayConflict s' in
           match r0 with
           | Ok _ => (s'0, Ok (a || cc))
           | Err e => (s'0, Err e)
           end
       | Err e => (s', Err e)
       end) = (j', Ok b) → journal_inv j' ∧ revision j' = revision j).
  { intros m Hm Hrun. destruct (m j1) as [j2 [b2|]] eqn:E; [|done].
    destruct (Hm _ _ eq_refl) as [Hi2 Hr2]. unfold rejectM, liftM, reject in Hrun.
    destruct (negb cc && b2); [done|]. injection Hrun as <- <-. split; [done|congruence]. }
  destruct (completion_command completion) as [|c d|c r|offer|slot guard record]; cbv beta in H.
  - apply (Hgen (λ s, (s, Ok false))); [|done]. by intros ? ? [= <- <-].
  - destruct (verify_recorded_command _ _ _ _); [|done].
    apply (Hgen (λ s, (s, Ok false))); [|done]. by intros ? ? [= <- <-].
  - apply (Hgen (record_command_disposition sid c (CommandIgnored r))); [|done].
    intros ? ? (? & _ & ? & _)%commit_command_inv; done.
  - apply (Hgen (record_offer sid offer)); [|done]. intros ? ?. by apply record_offer_inv.
  - apply (Hgen (record_cancellation sid slot guard record)); [|done].
    intros ? ?. by apply record_cancellation_inv.
Qed.

Lemma orphan_slot_inv (rid : RunnerId) (session : SessionSnapshot) (grant : OrphanAuthorityGrant)
    (s : SlotSnapshot) :
  slot_inv rid session s → orphan s = None →
  claim_session_id (grant_claim grant) = session_id session →
  claim_guard (grant_claim grant) = slot_guard s →
  slot_inv rid session (orphan_slot grant s).
Proof.
  intros Hinv Ho Hsid Hg. unfold orphan_slot.
  assert (Hcons : ∀ l, is_terminal l || is_some (endpoint_recovery_pending s) = true →
    orphan_consistent (set_slot_lifecycle l (set_orphan (Some (orphan_from_grant grant)) s))
      session (orphan_from_grant grant) = true).
  { intros l Hl. unfold orphan_consistent. simpl. rewrite Hsid, Z.eqb_refl, Hg.
    rewrite bool_decide_eq_true_2 by done. unfold endpoint_recovery_pending in *. simpl.
    rewrite Hl. done. }
  destruct (_ && _) eqn:Hc; keep_slot Hinv; simpl; try done; bool_facts.
  - pose proof (ok_endpoints _ _ _ Hok) as [? ? ? ? ? Hf]%validate_endpoint_operations_iff.
    apply validate_endpoint_operations_iff. constructor; simpl; done.
  - intros r Hr. simpl in Hr. by destruct (ok_terminal_result _ _ _ Hok r Hr) as (? & ? & ?).
  - intros o [= <-]. by apply (Hcons Lost).
  - intros o [= <-]. specialize (Hcons (slot_lifecycle s)).
    change (set_slot_lifecycle (slot_lifecycle s) (set_orphan (Some (orphan_from_grant grant)) s))
      with (set_orphan (Some (orphan_from_grant grant)) s) in Hcons.
    apply Hcons. apply andb_false_iff in Hc as [Hc|Hc]; apply negb_false_iff in Hc; rewrite Hc;
      [done|apply orb_true_r].
Qed.

Lemma authorize_orphan_inv (grant : OrphanAuthorityGrant) (j j' : StoredJournal) (b : bool) :
  journal_inv j → authorize_orphan grant j = (j', Ok b) →
  journal_inv j' ∧ revision j' = revision j.
Proof.
  intros Hinv H. unfold authorize_orphan, orphan_claim, rejectM in H. unfold_monad.
  destruct (fenced_slot _ _ _ _) as [[i s]|] eqn:Hf; [|done]. simpl in H.
  destruct (negb (bool_decide _)); [done|].
  pose proof Hf as Hf'. unfold fenced_slot in Hf'. unfold_monad.
  destruct (require_session _ _) as [session|] eqn:Hs; [|done].
  destruct (slot_index _ _) as [i'|] eqn:Hix; [|done].
  destruct (slots j !! i') as [s'|] eqn:Hl; [|done].
  destruct (require_guard _ _); [|done]. injection Hf' as -> ->.
  apply fenced_slot_Ok in Hf as (_ & Hi & _ & Hg). apply require_session_Ok in Hs as [Hs Hid].
  destruct (orphan s) as [o|] eqn:Ho.
  { destruct (orphan_matches_grant o grant); [|done]. by injection H as <- <-. }
  injection H as <- <-. split; [|done].
  eapply journal_inv_update; [done..| | |].
  - apply orphan_slot_inv; try done. by eapply ji_slot, list_elem_of_lookup_2.
  - unfold orphan_slot. by destruct (_ && _).
  - unfold orphan_slot. by destruct (_ && _).
Qed.

Lemma release_slot_inv (sid : RunnerSessionId) (slot : RunnerSlotOrdinal) (guard : LeaseGuard)
    (j j' : StoredJournal) (b : bool) :
  journal_inv j → release_slot sid slot guard j = (j', Ok b) →
  journal_inv j' ∧ revision j' = revision j.
Proof.
  intros Hinv H. unfold release_slot in H. unfold_monad.
  destruct (fenced_slot j sid slot guard) as [[i s]|]; [|done]. simpl in H.
  destruct (slot_release_check s); [|done]. injection H as <- <-.
  split; [by apply journal_inv_delete|done].
Qed.

Lemma release_rejected_offer_inv (sid : RunnerSessionId) (slot : RunnerSlotOrdinal)
    (guard : LeaseGuard) (id : OperationId) (j j' : StoredJournal) (b : bool) :
  journal_inv j → release_rejected_offer sid slot guard id j = (j', Ok b) →
  journal_inv j' ∧ revision j' = revision j.
Proof.
  intros Hinv H. unfold release_rejected_offer, rejectM in H. unfold_monad.
  destruct (fenced_slot j sid slot guard) as [[i s]|]; [|done]. simpl in H.
  destruct (negb _); [done|]. destruct (rejection s); [|done].
  destruct (negb _); [done|]. destruct (negb _); [done|]. injection H as <- <-.
  split; [by apply journal_inv_delete|done].
Qed.

(** ** Every mutation *)

(** What the mutations leave to the decoding checks of the file adapter: a
    session in the supported versions and [slot_admissible]. *)
Definition admissible (op : journal_op) (j : StoredJournal) : Prop :=
  match op with
  | BeginSession binding =>
      protocol_supported (binding_selected_protocol binding) = true ∧
      job_ir_supported (binding_selected_job_ir binding) = true
  | OnSlot sid slot guard op =>
      ∀ i s, fenced_slot j sid slot guard = Ok (i, s) → slot_admissible op s
  | _ => True
  end.

Lemma run_journal_op_inv (op : journal_op) (j j' : StoredJournal) (b : bool) :
  journal_inv j → admissible op j → run_journal_op op j = (j', Ok b) →
  journal_inv j' ∧ revision j' = revision j.
Proof.
  destruct op; simpl; intros Hinv Hadm Hrun;
    eauto using begin_session_inv, prepare_lease_poll_inv, complete_lease_poll_inv,
      acknowledge_receipts_inv, record_offer_inv, record_cancellation_inv, slot_mut_inv,
      authorize_orphan_inv, release_slot_inv, release_rejected_offer_inv.
  by apply commit_command_inv in Hrun as (? & _ & ? & _).
Qed.

Lemma journal_inv_revision (j : StoredJournal) (n : Z) : journal_inv j → journal_inv (set_revision n j).
Proof. intros []. by constructor. Qed.

Lemma journal_inv_new (rid : RunnerId) : journal_inv (journal_new rid).
Proof. by constructor. Qed.

End JournalInv.

(** ** What the decoding checks add *)

(** The condition of [slot_admissible] is what the checks of the next restart
    require of the slot the mutation leaves. *)
Section Exact.
Context {hasher : Sha256} {uuids : Uuid} (rid : RunnerId) (session : SessionSnapshot).
Implicit Types (s : SlotSnapshot).

Lemma endpoint_result_needs_no_orphan (id : OperationId) (r : EndpointResultContentRef) s s' :
  slot_inv rid session s → slot_record_endpoint_result id r s = (s', Ok true) →
  slot_ok rid session s' → orphan s = None.
Proof.
  intros Hinv (i & op & op' & Hi & _ & Hrun & ->)%slot_endpoint_request_Ok Hok'.
  destruct (orphan s) as [o|] eqn:Ho; [|done]. exfalso.
  pose proof (ok_endpoints _ _ _ (inv_ok _ _ _ Hinv)) as
    [_ _ [_ _ Hl] _ _ Hf]%validate_endpoint_operations_iff.
  assert (Hp : is_recovery_pending op = true ∧ is_recovery_pending op' = false).
  { unfold is_recovery_pending. simpl in Hrun. unfold record_result in Hrun. unfold_monad.
    destruct (endpoint_result_validate r) as [|]; [|done].
    destruct (endpoint_result_allocation _) as [reserved|]; [|done].
    destruct (reserved <? _); [done|].
    destruct (endpoint_state op) eqn:E; simplify_eq/=; rewrite ?E; [done|].
    by destruct (bool_decide _). }
  destruct Hp as [Hp Hp'].
  assert (Hlast : last (endpoint_operations s) = Some op).
  { rewrite last_lookup. by rewrite <- (Hl i op Hi Hp). }
  assert (Hpend : endpoint_recovery_pending s ≠ None).
  { unfold endpoint_recovery_pending. by rewrite Hlast, Hp. }
  pose proof (ok_orphan _ _ _ Hok' o Ho) as Hoc. unfold orphan_consistent in Hoc. bool_facts.
  match goal with H : is_terminal _ || _ = true |- _ => apply orb_true_iff in H as [Ht|Ht] end.
  - apply Hpend, Hf. by right.
  - unfold endpoint_recovery_pending in Ht. simpl in Ht.
    rewrite last_lookup, length_insert, <- (Hl i op Hi Hp) in Ht. simpl in Ht.
    rewrite list_lookup_insert_eq in Ht by (by eapply lookup_lt_Some). by rewrite Hp' in Ht.
Qed.

Lemma accept_endpoint_needs_no_finalizing (op : EndpointOperation) s s' :
  slot_accept_endpoint op s = (s', Ok true) → slot_ok rid session s' →
  slot_lifecycle s ≠ Finalizing.
Proof.
  intros H Hok' Hfin.
  pose proof (ok_endpoints _ _ _ Hok') as [_ _ _ _ _ Hf]%validate_endpoint_operations_iff.
  unfold slot_accept_endpoint in H. run_slot H.
  rewrite endpoint_recovery_pending_last in Hf. specialize (Hf (or_introl Hfin) op).
  simpl in Hf. rewrite last_snoc in Hf. specialize (Hf eq_refl).
  unfold is_recovery_pending in Hf.
  match goal with H : endpoint_state op = _ |- _ => by rewrite H in Hf end.
Qed.

Lemma provider_intent_needs_authority (intent : ProviderOperation) s s' :
  slot_record_provider_intent intent s = (s', Ok true) → slot_ok rid session s' →
  authority_acknowledged s = true.
Proof.
  intros H Hok'.
  pose proof (ok_provider _ _ _ Hok') as [_ Hau _ _]%validate_provider_state_iff.
  assert (Hs' : authority_acknowledged s' = authority_acknowledged s ∧ provider_operations s' ≠ []).
  { unfold slot_record_provider_intent, compact_oldest in H. run_slot H;
      (split; [done|]; simpl; by destruct (provider_operations s)) ||
      (split; [done|]; simpl; intros []%app_nil; done). }
  destruct Hs' as [<- Hne]. apply Hau. by left.
Qed.

Lemma log_segment_needs_room (p : LogSegmentPublication) (at_ : UnixMillis) s s' :
  slot_inv rid session s → slot_record_log_segment p at_ s = (s', Ok true) →
  slot_ok rid session s' → last_sequence (publication_segment p) ≠ u64_max.
Proof.
  intros Hinv H Hok' Hmax. unfold slot_record_log_segment, rejectM in H. unfold_monad.
  destruct (is_some (orphan s)); [done|].
  apply slot_log_request_Ok in H as (log & log' & Hlog & Hrun & ->).
  pose proof (inv_log _ _ _ Hinv _ Hlog) as Hci.
  destruct (run_log_op_inv _ _ _ _ Hci Hrun) as [Hci' _].
  simpl in Hrun. unfold record_log_segment in Hrun.
  destruct (negb _); [done|]. case_bool_decide as Hp; [by case_bool_decide|].
  destruct (record_segment log p at_) as [log1|] eqn:Hr; simpl in Hrun; [|done].
  injection Hrun as ->.
  apply record_segment_Ok in Hr as (_ & _ & _ & _ & _ & pre & enq & Hlog' & _); [|done].
  pose proof (ok_log _ _ _ Hok') as Hv. unfold validate_log_state in Hv. simpl in Hv.
  apply bind_unit_Ok in Hv as [_ Hv].
  assert (Hnil : segments log' = []).
  { apply validated_at_end_is_empty; [done..|]. rewrite Hlog'. simpl. by rewrite Hmax. }
  rewrite Hlog' in Hnil. simpl in Hnil. by apply app_nil in Hnil as [_ ?].
Qed.

Lemma slot_ok_admissible (op : slot_op) s s' :
  slot_inv rid session s → run_slot_op op s = (s', Ok true) →
  slot_ok rid session s' → slot_admissible op s.
Proof.
  destruct op; simpl; eauto using endpoint_result_needs_no_orphan,
    accept_endpoint_needs_no_finalizing, provider_intent_needs_authority, log_segment_needs_room.
Qed.

End Exact.

Section Theorems.
Context {hasher : Sha256} {uuids : Uuid}.
Implicit Types (j : StoredJournal).

Lemma increment_revision_Ok j :
  revision j < u64_max → increment_revision j = (set_revision (revision j + 1) j, Ok tt).
Proof.
  intros H. unfold increment_revision, checked_add. unfold_monad.
  destruct (Z.leb_spec (revision j + 1) u64_max); [done|lia].
Qed.

Lemma validated_admissible (op : journal_op) j j' (n : Z) :
  journal_inv j → run_journal_op op j = (j', Ok true) →
  journal_validate (set_revision n j') = Ok tt →
  admissible op j.
Proof.
  intros Hinv Hrun (_ & _ & _ & _ & Hv)%journal_validate_iff.
  destruct op as [binding| | | | | | |sid slot guard op| | |]; try done; simpl in *.
  - assert (Hcase : journal_session j' = Some (session_new binding)).
    { unfold begin_session in Hrun. unfold_monad. by split_tests. }
    destruct (Hv _ Hcase) as [[Hp Hj _ _ _ _ _ _] _]. done.
  - intros i s Hf. unfold slot_mut in Hrun. rewrite Hf in Hrun.
    destruct (run_slot_op op s) as [s' r] eqn:Hs'. injection Hrun as <- ->.
    apply fenced_slot_Ok in Hf as ((session & Hs & _) & Hi & _).
    destruct (Hv session Hs) as [_ Hsl].
    eapply slot_ok_admissible; [|exact Hs'|].
    + by eapply ji_slot, list_elem_of_lookup_2.
    + eapply sl_slots; [exact Hsl|]. simpl. apply list_elem_of_insert.
      by eapply lookup_lt_Some.
Qed.

(** ** Where each mutation writes *)

(** What a request on an endpoint operation may do to the slot. *)
Lemma endpoint_request_frame (id : OperationId) (request : endpoint_request_op)
    (s s' : SlotSnapshot) (b : bool) :
  (changed ← slot_endpoint_request id request;
   modifyM terminalize_orphan_after_endpoint_resolution;; mret changed) s = (s', Ok b) →
  ∃ i op op', endpoint_operations s !! i = Some op ∧ run_endpoint request op = Ok (op', b) ∧
    s' = terminalize_orphan_after_endpoint_resolution
           (set_endpoint_operations (<[i := op']> (endpoint_operations s)) s).
Proof.
  intros H. unfold_monad.
  destruct (slot_endpoint_request id request s) as [s1 [b1|]] eqn:Hr; [|done].
  injection H as <- <-. apply slot_endpoint_request_Ok in Hr as (i & op & op' & ? & _ & ? & ->).
  eauto 10.
Qed.

(** The lifecycle moves of a slot. *)
Definition lifecycle_step (s s' : SlotSnapshot) : Prop :=
  slot_lifecycle s' = slot_lifecycle s ∨
  validate_transition (slot_lifecycle s) (slot_lifecycle s') = Ok tt ∨
  (orphan s ≠ None ∧ is_terminal (slot_lifecycle s) = false ∧ slot_lifecycle s' = Lost).

(** The endpoint operations of a slot: recorded ones stay where they are and
    move forward. *)
Definition endpoints_step (s s' : SlotSnapshot) : Prop :=
  ∀ i e, endpoint_operations s !! i = Some e → ∃ e', endpoint_operations s' !! i = Some e' ∧
    (e' = e ∨ ∃ state, e' = set_endpoint_state state e ∧ endpoint_move (endpoint_state e) state).

Lemma endpoints_step_same (s s' : SlotSnapshot) :
  endpoint_operations s' = endpoint_operations s → endpoints_step s s'.
Proof. intros H i e Hi. exists e. rewrite H. auto. Qed.

Lemma endpoints_step_request (request : endpoint_request_op) (s s' : SlotSnapshot) (i : nat)
    (op op' : EndpointOperation) (b : bool) :
  endpoint_operations s !! i = Some op → run_endpoint request op = Ok (op', b) →
  endpoint_operations s' = <[i := op']> (endpoint_operations s) → endpoints_step s s'.
Proof.
  intros Hi Hrun%run_endpoint_Ok Hs' k e Hk. rewrite Hs'.
  destruct (decide (i = k)) as [<-|Hne].
  - rewrite list_lookup_insert_eq by (by eapply lookup_lt_Some). exists op'. split; [done|].
    rewrite Hi in Hk. injection Hk as <-.
    destruct b; [|by left]. destruct Hrun as (state & -> & Hm & _). right. eauto.
  - rewrite list_lookup_insert_ne by done. exists e. auto.
Qed.

Lemma terminalize_lifecycle (s : SlotSnapshot) (l : list EndpointOperation) :
  lifecycle_step s (terminalize_orphan_after_endpoint_resolution (set_endpoint_operations l s)).
Proof.
  unfold lifecycle_step, terminalize_orphan_after_endpoint_resolution.
  destruct (_ && _ && _) eqn:E; [|by left]. bool_facts. right; right. simpl in *.
  split_and!; [by destruct (orphan s)|done..].
Qed.

Lemma terminalize_endpoints (s : SlotSnapshot) :
  endpoint_operations (terminalize_orphan_after_endpoint_resolution s) = endpoint_operations s.
Proof. unfold terminalize_orphan_after_endpoint_resolution. by destruct (_ && _ && _). Qed.

Lemma slot_op_steps (op : slot_op) (s s' : SlotSnapshot) (b : bool) :
  run_slot_op op s = (s', Ok b) → lifecycle_step s s' ∧ endpoints_step s s'.
Proof.
  assert (Hreq : ∀ id request t t' b', slot_endpoint_request id request t = (t', Ok b') →
    lifecycle_step t t' ∧ endpoints_step t t').
  { intros id request t t' b' (i & o & o' & Hi & _ & Hr & ->)%slot_endpoint_request_Ok.
    split; [by left|by eapply endpoints_step_request]. }
  assert (Hres : ∀ id request t t' b',
    (changed ← slot_endpoint_request id request;
     modifyM terminalize_orphan_after_endpoint_resolution;; mret changed) t = (t', Ok b') →
    lifecycle_step t t' ∧ endpoints_step t t').
  { intros id request t t' b' (i & o & o' & Hi & Hr & ->)%endpoint_request_frame.
    split; [apply terminalize_lifecycle|].
    eapply endpoints_step_request; [done..|]. by rewrite terminalize_endpoints. }
  assert (Hsame : ∀ t t', slot_lifecycle t' = slot_lifecycle t →
    endpoint_operations t' = endpoint_operations t → lifecycle_step t t' ∧ endpoints_step t t').
  { intros t t' Hl He. split; [by left|by apply endpoints_step_same]. }
  destruct op; simpl;
    unfold slot_accept_offer, slot_record_authority, slot_acknowledge_authority,
      slot_reject_offer, slot_acknowledge_rejection, slot_renew_lease,
      slot_acknowledge_terminal_result, slot_commit_endpoint_invocation,
      slot_record_endpoint_cancellation, slot_complete_endpoint_cancellation,
      slot_abandon_endpoint, slot_record_endpoint_result, slot_record_provider_intent,
      compact_oldest, slot_record_sandbox_created, slot_complete_provider_operation,
      slot_fail_provider_operation, slot_advance_outbound, slot_open_log_stream,
      slot_record_log_segment, slot_log_request, slot_abandon_orphan_delivery;
    try apply Hreq; try apply Hres; intros H;
    try (run_slot H; by apply Hsame).
  - unfold slot_transition_lifecycle in H. run_slot H; [by apply Hsame|].
    split; [|by apply endpoints_step_same]. right; left. simpl.
    by match goal with u : unit |- _ => destruct u | _ => idtac end.
  - unfold slot_record_terminal_result in H. run_slot H; [by apply Hsame|].
    split; [|by apply endpoints_step_same]. right; left. done.
  - unfold slot_accept_endpoint in H. run_slot H; [by apply Hsame|]. split; [by left|].
    intros i e Hi. exists e. split; [|by left]. simpl. by apply lookup_app_l_Some.
  - unfold rejectM, reject, mbind at 1, stM_bind at 1, getM, liftM in H. cbn in H.
    destruct (is_some _); [done|]. by eapply Hres.
  - unfold rejectM, reject, mbind at 1, stM_bind at 1, getM, liftM in H. cbn in H.
    destruct (is_some _); [done|]. by eapply Hres.
Qed.

(** ** Commands *)

(** The command an operation of the journal delivers, with its disposition. *)
Definition poll_delivers (command : LeasePollCommandRecord) :
    option (DurableCommand * CommandDisposition) :=
  match command with
  | PollIgnored command reason => Some (command, CommandIgnored reason)
  | PollLeaseOffer offer => Some (offer_command offer, CommandApplied)
  | PollCancellation _ _ record => Some (cancellation_command record, CommandApplied)
  | NoCommand | PollRecorded _ _ => None
  end.

Definition delivers (op : journal_op) : option (DurableCommand * CommandDisposition) :=
  match op with
  | CompleteLeasePoll _ completion => poll_delivers (completion_command completion)
  | RecordDisposition _ command disposition => Some (command, disposition)
  | RecordOffer _ offer => Some (offer_command offer, CommandApplied)
  | RecordCancellation _ _ _ record => Some (cancellation_command record, CommandApplied)
  | _ => None
  end.

(** The session either keeps its commands, or records the delivered one as the
    next. *)
Definition command_step (delivered : option (DurableCommand * CommandDisposition)) j j' : Prop :=
  ∀ session, journal_session j = Some session → ∃ session',
    journal_session j' = Some session' ∧ session_id session' = session_id session ∧
    ((command_cursor session' = command_cursor session ∧
      command_tombstones session' = command_tombstones session) ∨
     ∃ c d, delivered = Some (c, d) ∧ command_number c = next_number session ∧
       command_is_used j c = false ∧ session_cursor session' = Some (command_sequence c) ∧
       command_tombstones session' =
         push_tombstone (MkCommandTombstone c d) (command_tombstones session)).

Lemma command_step_same (delivered : option (DurableCommand * CommandDisposition)) j j' :
  journal_session j' = journal_session j → command_step delivered j j'.
Proof. intros H session Hs. exists session. rewrite H. auto. Qed.

Lemma command_step_commit (sid : RunnerSessionId) (c : DurableCommand) (d : CommandDisposition)
    j j1 j' (b : bool) :
  commit_command sid c d j = (j1, Ok b) → journal_session j' = journal_session j1 →
  command_step (Some (c, d)) j j'.
Proof.
  intros (session & [Hs _]%require_session_Ok & Hb)%commit_command_Ok Hj' x Hx.
  rewrite Hs in Hx. injection Hx as <-. rewrite Hj'.
  destruct b; [|destruct Hb as [-> _]; exists session; by auto]. destruct Hb as (Hn & Hu & ->).
  eexists. split; [done|]. split; [done|]. right. exists c, d. done.
Qed.

Lemma command_step_polls (l : list LeasePollCheckpoint) (session : SessionSnapshot)
    (delivered : option (DurableCommand * CommandDisposition)) j :
  journal_session j = Some session →
  command_step delivered j (set_journal_checkpoints l session j).
Proof. intros Hs x Hx. rewrite Hs in Hx. injection Hx as <-. eexists. split; [done|]. auto. Qed.

Lemma record_offer_command (sid : RunnerSessionId) (offer : LeaseOfferRecord) j j' (b : bool) :
  record_offer sid offer j = (j', Ok b) →
  command_step (Some (offer_command offer, CommandApplied)) j j'.
Proof.
  intros H. unfold record_offer, rejectM in H. unfold_monad.
  destruct (require_session j sid); [|done]. destruct (offer_validate offer); [|done].
  destruct (negb _); [done|]. destruct (negb _); [done|]. destruct (_ <? _); [done|].
  destruct (search_by_key _ _ (slots j)) as [i|i].
  { destruct (slots j !! i) as [s|]; [|done]. destruct (bool_decide _); [|done].
    injection H as <- <-. by apply command_step_same. }
  destruct (_ <=? _); [done|].
  destruct (commit_command sid _ _ j) as [j1 [changed|]] eqn:Hc; [|done].
  eapply command_step_commit; [exact Hc|]. destruct changed; simpl in H; by injection H as <- <-.
Qed.

Lemma record_cancellation_command (sid : RunnerSessionId) (slot : RunnerSlotOrdinal)
    (guard : LeaseGuard) (record : CancellationRecord) j j' (b : bool) :
  record_cancellation sid slot guard record j = (j', Ok b) →
  command_step (Some (cancellation_command record, CommandApplied)) j j'.
Proof.
  intros H. unfold record_cancellation, rejectM in H. unfold_monad.
  destruct (fenced_slot j sid slot guard) as [[i s]|]; [|done]. simpl in H.
  destruct (is_some _); [done|]. destruct (bool_decide (offer_status s = _)); [done|].
  destruct (bool_decide (cancellation s = _)); [injection H as <- <-; by apply command_step_same|].
  destruct (is_some _); [done|].
  destruct (commit_command sid _ _ j) as [j1 [changed|]] eqn:Hc; [|done].
  eapply command_step_commit; [exact Hc|]. destruct changed; simpl in H; [|by injection H as <- <-].
  destruct (bool_decide (slot_lifecycle s = Cancelling)); simpl in H;
    [|destruct (validate_transition (slot_lifecycle s) Cancelling); simpl in H; [|done]];
    by injection H as <- <-.
Qed.

Lemma advance_lease_poll_command (sid : RunnerSessionId) (slot : RunnerSlotOrdinal)
    (expected successor : OperationId) (receipts : list LeaseAuthorityPollReceipt) j j' (b : bool)
    (delivered : option (DurableCommand * CommandDisposition)) :
  advance_lease_poll sid slot expected successor receipts j = (j', Ok b) →
  command_step delivered j j' ∧ slots j' = slots j.
Proof.
  intros H. unfold advance_lease_poll in H. unfold_monad.
  destruct (validate_authority_receipts receipts); [|done].
  destruct (require_session j sid) as [session|] eqn:Hs; [|done].
  apply require_session_Ok in Hs as [Hs _].
  destruct (find_checkpoint session slot) as [[i c]|]; [|done]. simpl in H.
  destruct (negb _).
  { destruct (bool_decide _); [|done]. destruct (_ || _); [|done]. injection H as <- <-.
    split; [by apply command_step_same|done]. }
  destruct (lease_poll_operation_is_used session successor); [done|]. injection H as <- <-.
  split; [by apply command_step_polls|done].
Qed.

(** A change of the polls before the delivery does not matter to it. *)
Lemma command_step_after_poll (delivered : option (DurableCommand * CommandDisposition)) j j1 j2 :
  command_step None j j1 → slots j1 = slots j → command_step delivered j1 j2 →
  command_step delivered j j2.
Proof.
  intros H1 Hsl H2 session Hs.
  destruct (H1 session Hs) as (session1 & Hs1 & Hid1 & [[Hc1 Ht1]|(? & ? & [=] & _)]).
  destruct (H2 session1 Hs1) as (session2 & Hs2 & Hid2 & Hcase). exists session2.
  split; [done|]. split; [congruence|]. destruct Hcase as [[Hc2 Ht2]|(c & d & Hd & Hn & Hu & Hc & Ht)].
  - left. split; congruence.
  - right. exists c, d. split; [done|].
    unfold next_number, session_cursor, command_is_used in *. rewrite Hs1, Ht1, Hsl in Hu.
    rewrite Hc1 in Hn. rewrite Hs. split_and!; [done..|]. by rewrite <- Ht1.
Qed.

Lemma complete_lease_poll_command (sid : RunnerSessionId) (completion : LeasePollCompletion)
    j j' (b : bool) :
  complete_lease_poll sid completion j = (j', Ok b) →
  command_step (poll_delivers (completion_command completion)) j j'.
Proof.
  intros H. unfold complete_lease_poll in H. unfold_monad.
  destruct (validate_authority_receipts _) as [[]|]; [|done].
  destruct (advance_lease_poll _ _ _ _ _ j) as [j1 [cc|]] eqn:Ha; [|done].
  destruct (advance_lease_poll_command _ _ _ _ _ _ _ _ None Ha) as [Hstep Hsl].
  apply (command_step_after_poll _ j j1); [done..|].
  unfold rejectM, liftM, reject in H.
  destruct (completion_command completion) as [|c d|c r|offer|slot guard record]; simpl in *.
  - destruct (negb cc && false); [done|]. injection H as <- <-. by apply command_step_same.
  - destruct (verify_recorded_command _ _ _ _); [|done].
    destruct (negb cc && false); [done|]. injection H as <- <-. by apply command_step_same.
  - destruct (record_command_disposition sid c _ j1) as [j2 [b2|]] eqn:Hc; [|done].
    destruct (negb cc && b2); [done|]. injection H as <- <-. by eapply command_step_commit.
  - destruct (record_offer sid offer j1) as [j2 [b2|]] eqn:Hc; [|done].
    destruct (negb cc && b2); [done|]. injection H as <- <-. by eapply record_offer_command.
  - destruct (record_cancellation sid slot guard record j1) as [j2 [b2|]] eqn:Hc; [|done].
    destruct (negb cc && b2); [done|]. injection H as <- <-.
    by eapply record_cancellation_command.
Qed.

Lemma run_journal_op_command (op : journal_op) j j' (b : bool) :
  (∀ binding, op ≠ BeginSession binding) → run_journal_op op j = (j', Ok b) →
  command_step (delivers op) j j'.
Proof.
  intros Hop H. destruct op as [binding|sid slot id|sid completion|sid slot expected|sid c d|
    sid offer|sid slot guard record|sid slot guard op|grant|sid slot guard|sid slot guard id];
    simpl in *.
  - by destruct (Hop binding).
  - unfold prepare_lease_poll in H. unfold_monad.
    destruct (require_session j sid) as [session|] eqn:Hs; [|done].
    apply require_session_Ok in Hs as [Hs _].
    destruct (search_by_key _ _ _); [injection H as <- <-; by apply command_step_same|].
    destruct (_ <? _); [done|]. destruct (lease_poll_operation_is_used _ _); [done|].
    injection H as <- <-. by apply command_step_polls.
  - by eapply complete_lease_poll_command.
  - unfold acknowledge_lease_authority_receipts in H. unfold_monad.
    destruct (require_session j sid) as [session|] eqn:Hs; [|done].
    apply require_session_Ok in Hs as [Hs _].
    destruct (validate_authority_receipts expected); [|done].
    destruct (find_checkpoint session slot) as [[i c]|]; [|done]. simpl in H.
    destruct (pending_authority_receipts c); [injection H as <- <-; by apply command_step_same|].
    destruct (negb _); [done|]. injection H as <- <-. by apply command_step_polls.
  - by eapply command_step_commit.
  - by eapply record_offer_command.
  - by eapply record_cancellation_command.
  - apply command_step_same. unfold slot_mut in H.
    destruct (fenced_slot j sid slot guard) as [[i s]|]; [|done].
    destruct (run_slot_op op s) as [s' r]. by injection H as <- _.
  - apply command_step_same. unfold authorize_orphan, orphan_claim, rejectM in H. unfold_monad.
    destruct (fenced_slot _ _ _ _) as [[i s]|]; [|done]. simpl in H.
    destruct (negb _); [done|]. destruct (slot_index _ _) as [n|]; [|done].
    destruct (slots j !! n) as [t|]; [|done]. destruct (orphan t) as [o|].
    + destruct (orphan_matches_grant o grant); [|done]. by injection H as <- _.
    + by injection H as <- _.
  - apply command_step_same. unfold release_slot in H. unfold_monad.
    destruct (fenced_slot j sid slot guard) as [[i s]|]; [|done]. simpl in H.
    destruct (slot_release_check s); [|done]. by injection H as <- _.
  - apply command_step_same. unfold release_rejected_offer, rejectM in H. unfold_monad.
    destruct (fenced_slot j sid slot guard) as [[i s]|]; [|done]. simpl in H.
    destruct (negb _); [done|]. destruct (rejection s); [|done].
    destruct (negb _); [done|]. destruct (negb _); [done|]. by injection H as <- _.
Qed.

(** ** Fences *)

(** The session, slot and lease under which an operation runs. *)
Definition fence_of (op : journal_op) :
    option (RunnerSessionId * RunnerSlotOrdinal * LeaseGuard) :=
  match op with
  | RecordCancellation sid slot guard _ | OnSlot sid slot guard _
  | ReleaseSlot sid slot guard | ReleaseRejectedOffer sid slot guard _ => Some (sid, slot, guard)
  | _ => None
  end.

Definition not_slot (slot : RunnerSlotOrdinal) (s : SlotSnapshot) : Prop := slot_key s ≠ bget slot.

#[export] Instance not_slot_dec slot s : Decision (not_slot slot s).
Proof. unfold not_slot. apply _. Defined.

Lemma filter_insert_own (slot : RunnerSlotOrdinal) (l : list SlotSnapshot) (i : nat)
    (s s' : SlotSnapshot) :
  l !! i = Some s → slot_key s = bget slot → slot_key s' = bget slot →
  filter (not_slot slot) (<[i := s']> l) = filter (not_slot slot) l.
Proof.
  intros Hi Hs Hs'. rewrite <- (take_drop_middle l i s Hi) at 2.
  rewrite insert_take_drop by (by eapply lookup_lt_Some).
  rewrite !filter_app, !filter_cons. unfold not_slot. by rewrite !decide_False by naive_solver.
Qed.

Lemma filter_delete_own (slot : RunnerSlotOrdinal) (l : list SlotSnapshot) (i : nat)
    (s : SlotSnapshot) :
  l !! i = Some s → slot_key s = bget slot →
  filter (not_slot slot) (delete i l) = filter (not_slot slot) l.
Proof.
  intros Hi Hs. rewrite <- (take_drop_middle l i s Hi) at 2. rewrite delete_take_drop.
  rewrite !filter_app, !filter_cons. unfold not_slot. by rewrite decide_False by naive_solver.
Qed.

Lemma fenced_op_stopped (op : journal_op) (sid : RunnerSessionId) (slot : RunnerSlotOrdinal)
    (guard : LeaseGuard) j (e : JournalInvariantError) :
  fence_of op = Some (sid, slot, guard) → fenced_slot j sid slot guard = Err e →
  run_journal_op op j = (j, Err e).
Proof.
  intros Hf He. destruct op; simpl in *; simplify_eq;
    unfold record_cancellation, slot_mut, release_slot, release_rejected_offer; unfold_monad;
    by rewrite He.
Qed.

End Theorems.
