(* ===== verification/JournalReplay.v ===== *)
(** * JournalReplay: a mutation that was accepted can be sent again

    The runner repeats a mutation whose answer it did not see. Each one
    recognises itself: sent again to the state it produced it succeeds, reports
    that nothing changed and leaves the state as it is. Only the two releases
    are not repeatable, since the slot is gone. *)

From S2P Require Import Prelude Text Execution Capability Log JournalBase ManagedSecret.
From S2P Require Import LogDelivery Saga Journal JournalInvariant JournalSession JournalSafety.

(** ** Slots *)

(** Rewrites with the tests that are known and closes the repeated run. *)
Ltac rerun :=
  unfold rejectM; unfold_monad;
  repeat first
    [ match goal with
      | |- context [binding_matches_offer (set_authority ?d ?s)] =>
          change (binding_matches_offer (set_authority d s)) with (binding_matches_offer s)
      | |- context [endpoint_recovery_pending (set_terminal_result_enqueued_at ?t
                      (set_terminal_result ?r (set_slot_lifecycle ?l ?s)))] =>
          change (endpoint_recovery_pending (set_terminal_result_enqueued_at t
                    (set_terminal_result r (set_slot_lifecycle l s))))
            with (endpoint_recovery_pending s)
      | H : ?x = _ |- context [?x] => rewrite H
      | |- context [bool_decide (?x = ?x)] => rewrite (bool_decide_eq_true_2 (x = x)) by done
      | H : ?x ≠ ?y |- context [bool_decide (?x = ?y)] => rewrite (bool_decide_eq_false_2 (x = y) H)
      | |- context [?x =? ?x] => rewrite Z.eqb_refl
      | |- context [?x <? ?x] => rewrite Z.ltb_irrefl
      end
    | progress simpl ];
  try done.

Section SlotReplay.
Context {hasher : Sha256} {uuids : Uuid}.
Implicit Types (s : SlotSnapshot).

Definition replays (body : stM SlotSnapshot JournalInvariantError bool) : Prop :=
  ∀ rid session s s', slot_inv rid session s → body s = (s', Ok true) → body s' = (s', Ok false).

Lemma replays_accept_offer : replays slot_accept_offer.
Proof.
  intros rid session s s' _ H. unfold slot_accept_offer in *. run_slot H. rerun.
Qed.

Lemma replays_record_authority (d : RuntimeAuthorityDeliveryRecord) :
  replays (slot_record_authority d).
Proof.
  intros rid session s s' _ H. unfold slot_record_authority in *. run_slot H. rerun.
Qed.

Lemma replays_acknowledge_authority (g : RuntimeAuthorityGeneration) (digest : Sha256Digest)
    (id : OperationId) :
  replays (slot_acknowledge_authority g digest id).
Proof.
  intros rid session s s' _ H.
  unfold slot_acknowledge_authority, authority_delivery_acknowledge in *. run_slot H. rerun.
Qed.

Lemma replays_reject_offer (reason : LeaseRejectionReason) (id : OperationId) (at_ : UnixMillis) :
  replays (slot_reject_offer reason id at_).
Proof.
  intros rid session s s' _ H. unfold slot_reject_offer in *. run_slot H. rerun.
Qed.

Lemma replays_acknowledge_rejection (id : OperationId) : replays (slot_acknowledge_rejection id).
Proof.
  intros rid session s s' _ H. unfold slot_acknowledge_rejection in *. run_slot H. rerun.
Qed.

Lemma replays_renew_lease (e : UnixMillis) : replays (slot_renew_lease e).
Proof.
  intros rid session s s' _ H. unfold slot_renew_lease in *. run_slot H. rerun.
Qed.

Lemma replays_transition_lifecycle (next : JobLifecycle) :
  replays (slot_transition_lifecycle next).
Proof.
  intros rid session s s' _ H. unfold slot_transition_lifecycle in *. run_slot H. rerun.
Qed.

Lemma matches_unacknowledged_refl (r : TerminalResultRecord) :
  result_acknowledged r = false → matches_unacknowledged r r = true.
Proof. unfold matches_unacknowledged. intros ->. by rewrite Z.eqb_refl, bool_decide_eq_true_2. Qed.

Lemma replays_record_terminal_result (t : JobLifecycle) (r : TerminalResultRecord)
    (at_ : UnixMillis) :
  replays (slot_record_terminal_result t r at_).
Proof.
  intros rid session s s' _ H. unfold slot_record_terminal_result in *. run_slot H.
  pose proof (matches_unacknowledged_refl r ltac:(done)). rerun.
Qed.

Lemma replays_acknowledge_terminal_result (id : OperationId) :
  replays (slot_acknowledge_terminal_result id).
Proof.
  intros rid session s s' _ H. unfold slot_acknowledge_terminal_result in *. run_slot H. rerun.
Qed.

(** ** Endpoint operations *)

Lemma run_endpoint_replay (request : endpoint_request_op) (op op' : EndpointOperation) :
  run_endpoint request op = Ok (op', true) → run_endpoint request op' = Ok (op', false).
Proof.
  destruct request as [| | | |r]; simpl;
    unfold commit_invocation, request_cancellation, complete_cancellation, abandon_endpoint,
      record_result; intros H; unfold_monad; split_tests; rerun.
Qed.

Lemma find_endpoint_insert (id : OperationId) (l : list EndpointOperation) (i : nat)
    (op op' : EndpointOperation) :
  find_endpoint id l = Some (i, op) → endpoint_operation_id op' = endpoint_operation_id op →
  find_endpoint id (<[i := op']> l) = Some (i, op').
Proof.
  unfold find_endpoint. rewrite !list_find_Some. intros (Hi & Hid & Hlt) Hop.
  split_and!; [|congruence|].
  - apply list_lookup_insert_eq. by eapply lookup_lt_Some.
  - intros k x Hx Hk. rewrite list_lookup_insert_ne in Hx by lia. eauto.
Qed.

Lemma run_endpoint_id (request : endpoint_request_op) (op op' : EndpointOperation) (b : bool) :
  run_endpoint request op = Ok (op', b) → endpoint_operation_id op' = endpoint_operation_id op.
Proof. intros H%run_endpoint_Ok. destruct b; [destruct H as (x & -> & _)|subst]; done. Qed.

Lemma replays_endpoint_request (id : OperationId) (request : endpoint_request_op) :
  replays (slot_endpoint_request id request).
Proof.
  intros rid session s s' _ H. unfold slot_endpoint_request in *. unfold_monad.
  destruct (find_endpoint id _) as [[i op]|] eqn:Hf; [|done]. simpl in H.
  destruct (run_endpoint request op) as [[op' b]|] eqn:Hr; [|done]. injection H as <- ->.
  simpl. rewrite (find_endpoint_insert _ _ _ _ _ Hf (run_endpoint_id _ _ _ _ Hr)). simpl.
  rewrite (run_endpoint_replay _ _ _ Hr). simpl. by rewrite list_insert_insert_eq.
Qed.

Lemma terminalize_idempotent s :
  terminalize_orphan_after_endpoint_resolution (terminalize_orphan_after_endpoint_resolution s) =
  terminalize_orphan_after_endpoint_resolution s.
Proof.
  unfold terminalize_orphan_after_endpoint_resolution at 2 3. destruct (_ && _ && _) eqn:E.
  - unfold terminalize_orphan_after_endpoint_resolution. simpl. by rewrite andb_false_r.
  - unfold terminalize_orphan_after_endpoint_resolution. by rewrite E.
Qed.

Lemma endpoint_request_terminalized (id : OperationId) (request : endpoint_request_op) s :
  slot_endpoint_request id request s = (s, Ok false) →
  slot_endpoint_request id request (terminalize_orphan_after_endpoint_resolution s) =
  (terminalize_orphan_after_endpoint_resolution s, Ok false).
Proof.
  intros H. unfold terminalize_orphan_after_endpoint_resolution. destruct (_ && _ && _); [|done].
  unfold slot_endpoint_request in *. unfold_monad.
  destruct (find_endpoint id _) as [[i op]|]; [|done]. simpl in *.
  destruct (run_endpoint request op) as [[op' b]|]; [|done]. injection H as Heq ->.
  pose proof (f_equal endpoint_operations Heq) as Hops. simpl in Hops |- *. by rewrite Hops.
Qed.

(** A request, the orphan's termination and a test of fields they keep. *)
Lemma replays_endpoint_resolution (id : OperationId) (request : endpoint_request_op) :
  replays (changed ← slot_endpoint_request id request;
           modifyM terminalize_orphan_after_endpoint_resolution;;
           mret changed).
Proof.
  intros rid session s s' Hinv H. unfold_monad.
  destruct (slot_endpoint_request id request s) as [s1 [b|]] eqn:Hr; [|done].
  injection H as <- ->. apply (replays_endpoint_request _ _ rid session) in Hr; [|done].
  rewrite (endpoint_request_terminalized _ _ _ Hr). by rewrite terminalize_idempotent.
Qed.

Lemma endpoint_resolution_sandbox (id : OperationId) (request : endpoint_request_op) s s' b :
  (changed ← slot_endpoint_request id request;
   modifyM terminalize_orphan_after_endpoint_resolution;;
   mret changed) s = (s', Ok b) → slot_sandbox s' = slot_sandbox s.
Proof.
  intros H. unfold_monad. destruct (slot_endpoint_request id request s) as [s1 [b1|]] eqn:Hr; [|done].
  injection H as <- _. apply slot_endpoint_request_Ok in Hr as (i & op & op' & _ & _ & _ & ->).
  unfold terminalize_orphan_after_endpoint_resolution. by destruct (_ && _ && _).
Qed.

(** The two resolutions that need the sandbox gone. *)
Lemma replays_without_sandbox (id : OperationId) (request : endpoint_request_op) :
  replays (slot ← getM;
           rejectM (is_some (slot_sandbox slot)) EndpointSandboxStillPresent;;
           changed ← slot_endpoint_request id request;
           modifyM terminalize_orphan_after_endpoint_resolution;;
           mret changed).
Proof.
  intros rid session s s' Hinv H.
  set (body := changed ← slot_endpoint_request id request; _) in *.
  assert (Hrun : ∀ t, slot_sandbox t = None →
    (slot ← getM; rejectM (is_some (slot_sandbox slot)) EndpointSandboxStillPresent;; body) t =
    body t).
  { intros t Ht. unfold rejectM, reject, mbind, stM_bind, getM, liftM. by rewrite Ht. }
  assert (Hs : slot_sandbox s = None).
  { unfold rejectM, reject, mbind, stM_bind, getM, liftM in H.
    destruct (slot_sandbox s); [done|done]. }
  rewrite Hrun in H by done. rewrite Hrun.
  - by eapply replays_endpoint_resolution.
  - by rewrite (endpoint_resolution_sandbox _ _ _ _ _ H).
Qed.

Lemma replays_accept_endpoint (op : EndpointOperation) : replays (slot_accept_endpoint op).
Proof.
  intros rid session s s' _ H. unfold slot_accept_endpoint in *. run_slot H. rerun.
  assert (Hf : find_endpoint (endpoint_operation_id op) (endpoint_operations s ++ [op]) =
    Some (length (endpoint_operations s), op)).
  { apply list_find_Some. split_and!; [|done|].
    - rewrite lookup_app_r by done. by rewrite Nat.sub_diag.
    - intros k x Hx Hk. rewrite lookup_app_l in Hx by done.
      match goal with H : find_endpoint _ _ = None |- _ => rename H into Hnone end.
      intros Heq. apply (find_endpoint_None _ _ Hnone). apply list_elem_of_fmap. exists x.
      split; [done|]. by eapply list_elem_of_lookup_2. }
  rewrite Hf. unfold matches_acceptance. rerun.
Qed.

(** ** Provider operations *)

Lemma find_provider_snoc (l : list ProviderOperation) (op : ProviderOperation) :
  provider_operation_id op ∉ (provider_operation_id <$> l) →
  find_provider (provider_operation_id op) (l ++ [op]) = Some op.
Proof.
  unfold find_provider. induction l as [|x l IH]; simpl; intros H.
  - by rewrite Z.eqb_refl.
  - destruct (Z.eqb_spec (provider_operation_id x) (provider_operation_id op)); set_solver.
Qed.

Lemma compact_oldest_Ok s s' :
  compact_oldest s = (s', Ok tt) →
  (∃ r, s' = set_provider_checkpoint r s) ∨
  ∃ r x l, provider_operations s = x :: l ∧
    s' = set_provider_checkpoint r (set_provider_operations l s).
Proof.
  unfold compact_oldest. intros H. unfold_monad.
  destruct (provider_operations s) as [|x l] eqn:Hl.
  - injection H as <-. left. exists (provider_checkpoint s). by destruct s.
  - destruct (recovery_compact _ x) as [r|]; [|done]. injection H as <-. right. eauto.
Qed.

Lemma replays_provider_intent (intent : ProviderOperation) :
  replays (slot_record_provider_intent intent).
Proof.
  intros rid session s s' _ H. unfold slot_record_provider_intent, rejectM in *. unfold_monad.
  destruct (negb (bool_decide (offer_status s = _))) eqn:H1; [done|].
  destruct (is_terminal _ && _ && _) eqn:H2; [done|].
  destruct (is_some (orphan s) && _) eqn:H3; [done|].
  destruct (negb (bool_decide (provider_outcome intent = _))) eqn:H4; [done|].
  destruct (find_provider _ _) as [e|] eqn:Hf;
    [by destruct (bool_decide (provider_kind e = _))|].
  destruct (last_is_some_and _ _); [done|].
  match type of H with (let (_, _) := ?m in _) = _ => destruct m as [s1 [[]|]] eqn:Hc end;
    [|done].
  destruct (replay_provider_operations _ _) as [r|]; [|done].
  destruct (negb ((_ || provider_lifecycle_valid (slot_lifecycle s1) _) && _)); [done|].
  injection H as <-. apply find_provider_None in Hf.
  assert (Hs1 : orphan s1 = orphan s ∧ offer_status s1 = offer_status s ∧
    slot_lifecycle s1 = slot_lifecycle s ∧
    provider_operation_id intent ∉ (provider_operation_id <$> provider_operations s1)).
  { destruct (MAX_PROVIDER_OPERATIONS_PER_SLOT <=? _); [|by injection Hc as <-].
    apply compact_oldest_Ok in Hc as [(? & ->)|(r' & x & l & Hl & ->)]; [done|].
    rewrite Hl in Hf. simpl in *. set_solver. }
  destruct Hs1 as (Ho & Hst & Hlc & Hnin). simpl. rewrite Ho, Hst, Hlc, H1, H2, H3. simpl.
  rewrite find_provider_snoc by done. by rewrite bool_decide_eq_true_2.
Qed.

Lemma last_set_last {A : Type} (x y : A) (l : list A) : last l = Some y → last (set_last x l) = Some x.
Proof. intros [l' ->]%last_Some. by rewrite set_last_snoc, last_snoc. Qed.

Lemma replays_sandbox_created (id : OperationId) (sandbox : SandboxIdentity) :
  replays (slot_record_sandbox_created id sandbox).
Proof.
  intros rid session s s' _ H. unfold slot_record_sandbox_created, rejectM in *. unfold_monad.
  destruct (last (provider_operations s)) as [op|] eqn:Hl; [|done].
  destruct (_ || _) eqn:Hid; [done|].
  destruct (bool_decide (provider_outcome op = _));
    [by destruct (bool_decide (slot_sandbox s = _))|].
  destruct (is_some _); [done|].
  destruct (mark_applied op) as [[op' b]|] eqn:Hm; [|done]. injection H as <- ->.
  apply mark_applied_Ok in Hm as [_ ->]. simpl. rewrite (last_set_last _ _ _ Hl). simpl.
  by rewrite Hid, !bool_decide_eq_true_2.
Qed.

Lemma replays_complete_provider (id : OperationId) :
  replays (slot_complete_provider_operation id).
Proof.
  intros rid session s s' _ H. unfold slot_complete_provider_operation, rejectM in *. unfold_monad.
  destruct (last (provider_operations s)) as [op|] eqn:Hl; [|done].
  destruct (negb (_ =? _)) eqn:Hid; [done|].
  destruct (bool_decide (provider_kind op = CreateSandbox)) eqn:Hk; [done|].
  destruct (mark_applied op) as [[op' b]|] eqn:Hm; [|done].
  assert (Hs' : ∃ o, s' = set_sandbox o (set_last_provider op' s) ∧ b = true).
  { destruct (_ && _); injection H as <- ->; eauto. }
  destruct Hs' as (o & -> & ->). apply mark_applied_Ok in Hm as [_ ->]. clear H.
  unfold set_last_provider. simpl. rewrite (last_set_last _ _ _ Hl). simpl. rewrite Hid, Hk. simpl.
  by rewrite (set_last_same _ _ (last_set_last _ _ _ Hl)).
Qed.

Lemma replays_fail_provider (id : OperationId) (failure : ProviderFailureOutcome) :
  replays (slot_fail_provider_operation id failure).
Proof.
  intros rid session s s' _ H. unfold slot_fail_provider_operation, rejectM in *. unfold_monad.
  destruct (last (provider_operations s)) as [op|] eqn:Hl; [|done].
  destruct (negb (_ =? _)) eqn:Hid; [done|].
  destruct (resolve_failure op failure) as [[op' b]|] eqn:Hm; [|done]. injection H as <- ->.
  apply resolve_failure_Ok in Hm as (_ & -> & _).
  unfold set_last_provider. simpl. rewrite (last_set_last _ _ _ Hl). simpl. rewrite Hid.
  unfold resolve_failure. simpl. rewrite bool_decide_eq_true_2 by done. simpl.
  by rewrite (set_last_same _ _ (last_set_last _ _ _ Hl)).
Qed.

(** ** Outbound operations, logs and orphans *)

Lemma replays_advance_outbound (sequence : OutboundOperationSequence) :
  replays (slot_advance_outbound sequence).
Proof.
  intros rid session s s' _ H. unfold slot_advance_outbound in *. unfold_monad.
  destruct (bool_decide _); [done|]. destruct (outbound_advance _ _) as [n|] eqn:Ha; [|done].
  injection H as <-. apply outbound_advance_Ok in Ha as [_ ->]. simpl.
  by rewrite bool_decide_eq_true_2.
Qed.

Lemma replays_open_log_stream (stream_id : LogStreamId) : replays (slot_open_log_stream stream_id).
Proof.
  intros rid session s s' _ H. unfold slot_open_log_stream in *. run_slot H. rerun.
Qed.

Lemma replays_log_request (op : log_op) : replays (slot_log_request op).
Proof.
  intros rid session s s' Hinv H. unfold slot_log_request in *. unfold_monad.
  destruct (log_delivery s) as [log|] eqn:Hl; [|done].
  destruct (run_log_op log op) as [[log' b]|] eqn:Hr; [|done]. injection H as <- ->. simpl.
  rewrite (run_log_op_replay _ _ _ (inv_log _ _ _ Hinv _ Hl) Hr). done.
Qed.

Lemma replays_record_log_segment (p : LogSegmentPublication) (at_ : UnixMillis) :
  replays (slot_record_log_segment p at_).
Proof.
  intros rid session s s' Hinv H. unfold slot_record_log_segment in *.
  unfold rejectM, reject, mbind, stM_bind, getM, liftM in *.
  destruct (is_some (orphan s)) eqn:Ho; [done|].
  assert (Ho' : orphan s' = orphan s).
  { apply slot_log_request_Ok in H. by destruct H as (? & ? & _ & _ & ->). }
  rewrite Ho', Ho. by eapply replays_log_request.
Qed.

Lemma replays_abandon_orphan_delivery (id : OperationId) (d : OrphanDelivery)
    (reason : OrphanAbandonmentReason) :
  replays (slot_abandon_orphan_delivery id d reason).
Proof.
  intros rid session s s' _ H. unfold slot_abandon_orphan_delivery, rejectM in *. unfold_monad.
  destruct (negb _) eqn:He; [done|]. destruct (orphan s) as [o|] eqn:Ho; [|done].
  destruct (orphan_abandon o id d reason) as [[o' b]|] eqn:Ha; [|done]. injection H as <- ->.
  simpl. rewrite He. unfold orphan_abandon in *. destruct (_ || _) eqn:Hid; [done|].
  destruct (abandonments_get _ d) as [e|] eqn:Hg; [by destruct (bool_decide (e = reason))|]. injection Ha as <-.
  simpl. rewrite Hid.
  replace (abandonments_get _ d) with (Some reason) by (by destruct d).
  by rewrite bool_decide_eq_true_2.
Qed.

Lemma replays_slot_op (op : slot_op) : replays (run_slot_op op).
Proof.
  destruct op; simpl;
    unfold slot_commit_endpoint_invocation, slot_record_endpoint_cancellation,
      slot_complete_endpoint_cancellation, slot_abandon_endpoint, slot_record_endpoint_result;
    auto using replays_accept_offer, replays_record_authority, replays_acknowledge_authority,
      replays_reject_offer, replays_acknowledge_rejection, replays_renew_lease,
      replays_transition_lifecycle, replays_record_terminal_result,
      replays_acknowledge_terminal_result, replays_accept_endpoint, replays_endpoint_request,
      replays_endpoint_resolution, replays_without_sandbox, replays_provider_intent,
      replays_sandbox_created, replays_complete_provider, replays_fail_provider,
      replays_advance_outbound, replays_open_log_stream, replays_record_log_segment,
      replays_log_request, replays_abandon_orphan_delivery.
Qed.

(** No slot mutation touches the slot's commands. *)
Lemma slot_op_frame (op : slot_op) s s' b :
  run_slot_op op s = (s', Ok b) →
  slot_offer s' = slot_offer s ∧ cancellation s' = cancellation s.
Proof.
  assert (Hreq : ∀ id request t t' b', slot_endpoint_request id request t = (t', Ok b') →
    slot_offer t' = slot_offer t ∧ cancellation t' = cancellation t).
  { by intros id request t t' b' (i & o & o' & _ & _ & _ & ->)%slot_endpoint_request_Ok. }
  assert (Hres : ∀ id request t t' b',
    (changed ← slot_endpoint_request id request;
     modifyM terminalize_orphan_after_endpoint_resolution;; mret changed) t = (t', Ok b') →
    slot_offer t' = slot_offer t ∧ cancellation t' = cancellation t).
  { intros id request t t' b' H. unfold_monad.
    destruct (slot_endpoint_request id request t) as [t1 [b1|]] eqn:Hr; [|done].
    injection H as <- _. apply Hreq in Hr as [<- <-]. apply terminalize_frame. }
  assert (Hlog : ∀ o t t' b', slot_log_request o t = (t', Ok b') →
    slot_offer t' = slot_offer t ∧ cancellation t' = cancellation t).
  { by intros o t t' b' (? & ? & _ & _ & ->)%slot_log_request_Ok. }
  destruct op; simpl;
    unfold slot_accept_offer, slot_record_authority, slot_acknowledge_authority,
      slot_reject_offer, slot_acknowledge_rejection, slot_renew_lease,
      slot_transition_lifecycle, slot_record_terminal_result, slot_acknowledge_terminal_result,
      slot_accept_endpoint, slot_commit_endpoint_invocation, slot_record_endpoint_cancellation,
      slot_complete_endpoint_cancellation, slot_abandon_endpoint, slot_record_endpoint_result,
      slot_record_sandbox_created, slot_complete_provider_operation,
      slot_fail_provider_operation, slot_advance_outbound, slot_open_log_stream,
      slot_record_log_segment, slot_abandon_orphan_delivery;
    try apply Hreq; try apply Hres; try apply Hlog; intros H.
  all: try (run_slot H; done).
  - unfold rejectM, reject, mbind at 1, stM_bind at 1, getM, liftM in H. cbn in H.
    destruct (is_some _); [done|]. by eapply Hres.
  - unfold rejectM, reject, mbind at 1, stM_bind at 1, getM, liftM in H. cbn in H.
    destruct (is_some _); [done|]. by eapply Hres.
  - unfold slot_record_provider_intent, compact_oldest in H. run_slot H; done.
  - unfold rejectM, reject, mbind at 1, stM_bind at 1, getM, liftM in H. cbn in H.
    destruct (is_some _); [done|]. by eapply Hlog.
Qed.

End SlotReplay.

(** ** The journal *)

(** Closes the branches that leave the journal as it is. *)
Ltac unchanged := split_and!; [done..|intros ? ?; by eauto].

Section JournalReplay.
Context {hasher : Sha256} {uuids : Uuid}.
Implicit Types (j : StoredJournal).

(** What the polls of a session read. *)
Definition same_polls j j' : Prop :=
  ∀ session, journal_session j = Some session → ∃ session',
    journal_session j' = Some session' ∧ session_id session' = session_id session ∧
    lease_poll_checkpoints session' = lease_poll_checkpoints session.

(** A mutation that recognises itself: it changes nothing when it says so,
    replays, and leaves the polls alone. *)
Definition recognised (m : stM StoredJournal JournalInvariantError bool) : Prop :=
  ∀ j j' b, journal_inv j → m j = (j', Ok b) →
    (b = false → j' = j) ∧ (b = true → m j' = (j', Ok false)) ∧ same_polls j j'.

Lemma same_polls_refl j : same_polls j j.
Proof. intros session H. eauto. Qed.

Lemma find_snoc {A : Type} (p : A → bool) (l : list A) (x : A) :
  (∀ y, y ∈ l → p y = false) → p x = true → List.find p (l ++ [x]) = Some x.
Proof.
  induction l as [|y l IH]; simpl; intros Hl Hx; [by rewrite Hx|].
  rewrite (Hl y) by set_solver. apply IH; [|done]. intros z Hz. apply Hl. set_solver.
Qed.

Lemma find_tombstone_committed (session : SessionSnapshot) (c : DurableCommand)
    (d : CommandDisposition) :
  session_ok session → command_number c = next_number session →
  find_tombstone (committed_session session c d) (command_sequence c) =
  Some (MkCommandTombstone c d).
Proof.
  intros Hok Hnum. unfold find_tombstone. simpl.
  assert (Hold : ∀ t, t ∈ command_tombstones session →
    bool_decide (command_sequence (tombstone_command t) = command_sequence c) = false).
  { intros t Ht. apply bool_decide_eq_false. intros Heq.
    pose proof (window_behind_cursor session t Hok Ht) as Hlt.
    unfold tombstone_sequence, command_number in *. rewrite Heq in Hlt. lia. }
  destruct (push_tombstone_cases (MkCommandTombstone c d) (command_tombstones session))
    as [->|(f & r & Hl & ->)]; apply find_snoc; try (by apply bool_decide_eq_true_2).
  - done.
  - intros y Hy. apply Hold. rewrite Hl. set_solver.
Qed.

(** The command that a session has just recorded, sent again. *)
Lemma commit_command_again (sid : RunnerSessionId) (c : DurableCommand) (d : CommandDisposition)
    j (session : SessionSnapshot) :
  session_ok session → command_number c = next_number session → session_id session = sid →
  journal_session j = Some (committed_session session c d) →
  commit_command sid c d j = (j, Ok false).
Proof.
  intros Hok Hnum Hid Hs. unfold commit_command. unfold_monad.
  rewrite (proj2 (require_session_Ok j sid (committed_session session c d))) by done.
  simpl. rewrite Z.leb_refl. unfold replay_command. unfold_monad.
  rewrite find_tombstone_committed by done. by rewrite !bool_decide_eq_true_2.
Qed.

Lemma commit_recognised (sid : RunnerSessionId) (c : DurableCommand) (d : CommandDisposition) :
  recognised (commit_command sid c d).
Proof.
  intros j j' b Hinv (session & [Hs Hid]%require_session_Ok & Hb)%commit_command_Ok.
  destruct b; [|destruct Hb as [-> _]; unchanged].
  destruct Hb as (Hnum & _ & ->). split_and!; [done| |].
  - intros _. apply (commit_command_again _ _ _ _ session); try done. by apply (ji_session _ Hinv).
  - intros x Hx. rewrite Hs in Hx. injection Hx as <-. simpl. eauto.
Qed.

(** A slot whose offer is kept is found under the same fence. *)
Lemma fenced_slot_update j j' (sid : RunnerSessionId) (slot : RunnerSlotOrdinal)
    (guard : LeaseGuard) (i : nat) (s s' : SlotSnapshot) (session' : SessionSnapshot) :
  fenced_slot j sid slot guard = Ok (i, s) →
  journal_session j' = Some session' → session_id session' = sid →
  slots j' = <[i := s']> (slots j) → slot_offer s' = slot_offer s →
  fenced_slot j' sid slot guard = Ok (i, s').
Proof.
  intros Hf Hs' Hid Hsl Hoff. unfold fenced_slot, slot_index in *. unfold_monad.
  rewrite (proj2 (require_session_Ok j' sid session')) by done.
  destruct (require_session j sid); [|done].
  destruct (search_by_key _ _ _) as [i'|] eqn:Hi; [|done].
  destruct (slots j !! i') as [s1|] eqn:Hl; [|done].
  destruct (require_guard s1 guard) as [[]|] eqn:Hg; [|done]. injection Hf as -> ->.
  rewrite (search_by_key_keys slot_key (slots j') (slots j)).
  2: { rewrite Hsl. apply (strict_sorted_alter slot_key _ _ s); [done|].
       unfold slot_key. by rewrite Hoff. }
  rewrite Hi, Hsl, list_lookup_insert_eq by (by eapply lookup_lt_Some).
  unfold require_guard, slot_guard in *. rewrite Hoff.
  by destruct (bool_decide _).
Qed.

Lemma record_offer_recognised (sid : RunnerSessionId) (offer : LeaseOfferRecord) :
  recognised (record_offer sid offer).
Proof.
  intros j j' b Hinv H. pose proof (record_offer_inv _ _ _ _ _ Hinv H) as [Hinv' _].
  unfold record_offer, rejectM in *. unfold_monad.
  destruct (require_session j sid) as [session|] eqn:Hs; [|done].
  apply require_session_Ok in Hs as [Hs Hsid].
  destruct (offer_validate offer) as [[]|] eqn:Ho; [|done].
  destruct (negb (_ =? journal_runner_id j)) eqn:Hr; [done|].
  destruct (negb (bool_decide (_ = selected_job_ir session))) eqn:Hj; [done|].
  destruct (MAX_JOURNALED_SLOTS <? _) eqn:Hk; [done|].
  destruct (search_by_key _ _ (slots j)) as [i|i] eqn:Hi.
  { destruct (slots j !! i) as [s|]; [|done].
    destruct (bool_decide (slot_offer s = offer)); [|done].
    injection H as <- <-. unchanged. }
  destruct (MAX_JOURNALED_SLOTS <=? Z.of_nat (length (slots j))) eqn:Hlen; [done|].
  destruct (commit_command sid _ _ j) as [j1 [changed|]] eqn:Hc; [|done].
  destruct (commit_recognised _ _ _ _ _ _ Hinv Hc) as (Hf & _ & Hp).
  destruct changed; simpl in H; [|injection H as <- <-; split_and!; by auto].
  apply commit_command_Ok in Hc as (session' & [Hs' _]%require_session_Ok & _ & _ & Hj1).
  rewrite Hs in Hs'. injection Hs' as <-. subst j1. simpl in *.
  rewrite Hi in H. injection H as <- <-. split_and!; [done| |].
  2: { intros x Hx. by apply Hp. }
  intros _. simpl in *.
  rewrite (proj2 (require_session_Ok _ sid
    (committed_session session (offer_command offer) CommandApplied))) by done.
  rewrite Hr. simpl. rewrite Hj. simpl.
  assert (Hfound : insert_at i (slot_from_offer offer) (slots j) !! i = Some (slot_from_offer offer)).
  { assert (Hlen' : (i <= length (slots j))%nat).
    { clear -Hi. revert i Hi. induction (slots j) as [|s l IH]; intros i; simpl; [by intros [= <-]|].
      destruct (_ =? _); [done|]. destruct (_ <? _); [intros [= <-]; lia|].
      destruct (search_by_key _ _ l) as [|k]; [done|]. intros [= <-].
      specialize (IH k eq_refl). lia. }
    unfold insert_at. rewrite lookup_app_r; rewrite length_take; [|lia].
    replace (i - i `min` length (slots j))%nat with 0%nat by lia. done. }
  erewrite (search_by_key_found slot_key); [..|exact Hfound|done].
  - rewrite Hfound. by rewrite bool_decide_eq_true_2.
  - apply (sl_sorted _ _ _ (ji_slots _ Hinv' _ eq_refl)).
Qed.

Lemma record_cancellation_recognised (sid : RunnerSessionId) (slot : RunnerSlotOrdinal)
    (guard : LeaseGuard) (record : CancellationRecord) :
  recognised (record_cancellation sid slot guard record).
Proof.
  intros j j' b Hinv H. unfold record_cancellation, rejectM in *. unfold_monad.
  destruct (fenced_slot j sid slot guard) as [[i s]|] eqn:Hf; [|done]. simpl in H.
  destruct (is_some (orphan s)) eqn:Ho; [done|].
  destruct (bool_decide (offer_status s = _)) eqn:Hst; [done|].
  destruct (bool_decide (cancellation s = _));
    [injection H as <- <-; unchanged|].
  destruct (is_some (cancellation s)) eqn:Hcan; [done|].
  destruct (commit_command sid _ _ j) as [j1 [changed|]] eqn:Hc; [|done].
  destruct (commit_recognised _ _ _ _ _ _ Hinv Hc) as (Hfalse & _ & Hp).
  destruct changed; simpl in H; [|injection H as <- <-; split_and!; by auto].
  apply commit_command_Ok in Hc as (session & [Hs Hid]%require_session_Ok & _ & _ & Hj1). subst j1.
  set (s' := cancel_pending_endpoint _) in H.
  assert (Hj' : b = true ∧ j' = set_slots (<[i := s']> (slots j))
    (set_session (Some (committed_session session (cancellation_command record) CommandApplied)) j)).
  { destruct (bool_decide (slot_lifecycle s = Cancelling)); simpl in H;
      [|destruct (validate_transition (slot_lifecycle s) Cancelling); simpl in H; [|done]];
      by injection H as <- <-. }
  destruct Hj' as [-> ->]. clear H. split_and!; [done| |].
  2: { intros x Hx. by apply Hp. }
  intros _.
  assert (Hs' : slot_offer s' = slot_offer s ∧ orphan s' = orphan s ∧
    offer_status s' = offer_status s ∧ cancellation s' = Some record).
  { subst s'. unfold cancel_pending_endpoint. destruct (last _) as [op|]; [|done].
    by destruct (is_recovery_pending op). }
  destruct Hs' as (Hoff & Horph & Hstat & Hcn).
  erewrite (fenced_slot_update j); [|done..]. simpl. rewrite Horph, Ho, Hstat, Hst. simpl.
  by rewrite bool_decide_eq_true_2.
Qed.

(** ** Polls, orphans and the other mutations *)

Lemma begin_session_replays (binding : SessionBinding) j j' :
  begin_session binding j = (j', Ok true) → begin_session binding j' = (j', Ok false).
Proof.
  intros H. assert (j' = set_session (Some (session_new binding)) j) as ->.
  { unfold begin_session in H. unfold_monad. by split_tests. }
  unfold begin_session. unfold_monad. destruct binding. by rewrite bool_decide_eq_true_2.
Qed.

Lemma insert_at_lookup {A : Type} (i : nat) (x : A) (l : list A) :
  (i <= length l)%nat → insert_at i x l !! i = Some x.
Proof.
  intros H. unfold insert_at. rewrite lookup_app_r; rewrite length_take; [|lia].
  by replace (i - i `min` length l)%nat with 0%nat by lia.
Qed.

Lemma search_by_key_bound {A : Type} (key : A → Z) (k : Z) (l : list A) (i : nat) :
  search_by_key key k l = Err i → (i <= length l)%nat.
Proof.
  revert i. induction l as [|x l IH]; intros i; simpl; [by intros [= <-]|].
  destruct (_ =? _); [done|]. destruct (_ <? _); [intros [= <-]; lia|].
  destruct (search_by_key _ _ l) as [|n]; [done|]. intros [= <-]. specialize (IH n eq_refl). lia.
Qed.

Lemma prepare_lease_poll_replays (sid : RunnerSessionId) (slot : RunnerSlotOrdinal)
    (id : OperationId) j j' :
  journal_inv j → prepare_lease_poll sid slot id j = (j', Ok true) →
  prepare_lease_poll sid slot id j' = (j', Ok false).
Proof.
  intros Hinv H. pose proof (prepare_lease_poll_inv _ _ _ _ _ _ Hinv H) as [Hinv' _].
  unfold prepare_lease_poll in *. unfold_monad.
  destruct (require_session j sid) as [session|] eqn:Hs; [|done].
  apply require_session_Ok in Hs as [Hs Hid].
  destruct (search_by_key checkpoint_key (bget slot) _) as [|i] eqn:Hi; [done|].
  destruct (MAX_JOURNALED_SLOTS <? bget slot); [done|].
  destruct (lease_poll_operation_is_used session id); [done|]. injection H as <-.
  rewrite (proj2 (require_session_Ok _ sid (set_checkpoints (insert_at i
    (checkpoint_first slot id) (lease_poll_checkpoints session)) session))) by done. simpl.
  erewrite (search_by_key_found checkpoint_key); [done| | |].
  - apply (cp_sorted _ (so_checkpoints _ (ji_session _ Hinv' _ eq_refl))).
  - simpl. apply insert_at_lookup. by eapply search_by_key_bound.
  - done.
Qed.

(** The checkpoint of a poll after it was replaced. *)
Lemma find_checkpoint_insert (session : SessionSnapshot) (slot : RunnerSlotOrdinal) (i : nat)
    (c c' : LeasePollCheckpoint) (session' : SessionSnapshot) :
  find_checkpoint session slot = Ok (i, c) → checkpoint_slot c' = slot →
  lease_poll_checkpoints session' = <[i := c']> (lease_poll_checkpoints session) →
  find_checkpoint session' slot = Ok (i, c').
Proof.
  intros Hf Hc' Hl'. pose proof Hf as [Hi Hc]%find_checkpoint_Ok.
  unfold find_checkpoint in *. unfold_monad.
  rewrite Hl', (search_by_key_keys checkpoint_key _ (lease_poll_checkpoints session)).
  2: { apply (strict_sorted_alter checkpoint_key _ _ c); [done|]. unfold checkpoint_key. congruence. }
  destruct (search_by_key _ _ _) as [n|]; [|done].
  destruct (lease_poll_checkpoints session !! n); [|done]. injection Hf as -> ->.
  by rewrite list_lookup_insert_eq by (by eapply lookup_lt_Some).
Qed.

Lemma acknowledge_receipts_replays (sid : RunnerSessionId) (slot : RunnerSlotOrdinal)
    (expected : list LeaseAuthorityPollReceipt) j j' :
  acknowledge_lease_authority_receipts sid slot expected j = (j', Ok true) →
  acknowledge_lease_authority_receipts sid slot expected j' = (j', Ok false).
Proof.
  intros H. unfold acknowledge_lease_authority_receipts in *. unfold_monad.
  destruct (require_session j sid) as [session|] eqn:Hs; [|done].
  apply require_session_Ok in Hs as [Hs Hid].
  destruct (validate_authority_receipts expected) as [[]|]; [|done].
  destruct (find_checkpoint session slot) as [[i c]|] eqn:Hf; [|done]. simpl in H.
  destruct (pending_authority_receipts c) as [|r rs]; [done|].
  destruct (negb (bool_decide (r :: rs = expected))); [done|]. injection H as <-. simpl.
  rewrite (proj2 (require_session_Ok _ sid (set_checkpoints (<[i := MkPollCheckpoint
    (checkpoint_slot c) (current_operation_id c) (acknowledges_operation_id c) []]>
    (lease_poll_checkpoints session)) session))) by done. simpl.
  erewrite (find_checkpoint_insert session slot i c); [|exact Hf| |done]; [done|].
  by apply find_checkpoint_Ok in Hf as [_ ?].
Qed.

(** A poll that was advanced is recognised as long as the polls are as it left
    them. *)
Lemma advance_lease_poll_again (sid : RunnerSessionId) (slot : RunnerSlotOrdinal)
    (expected successor : OperationId) (receipts : list LeaseAuthorityPollReceipt) j j1 j2 :
  advance_lease_poll sid slot expected successor receipts j = (j1, Ok true) → same_polls j1 j2 →
  advance_lease_poll sid slot expected successor receipts j2 = (j2, Ok false).
Proof.
  intros H Hp. unfold advance_lease_poll in *. unfold_monad.
  destruct (validate_authority_receipts receipts) as [[]|]; [|done].
  destruct (require_session j sid) as [session|] eqn:Hs; [|done].
  apply require_session_Ok in Hs as [Hs Hid].
  destruct (find_checkpoint session slot) as [[i c]|] eqn:Hf; [|done]. simpl in H.
  destruct (negb (current_operation_id c =? expected)) eqn:Hcur.
  { by repeat case_match. }
  destruct (lease_poll_operation_is_used session successor) eqn:Hu; [done|]. injection H as <-.
  destruct (Hp _ eq_refl) as (session2 & Hs2 & Hid2 & Hl2). simpl in Hid2, Hl2.
  rewrite (proj2 (require_session_Ok j2 sid session2)) by (split; [done|congruence]).
  rewrite (find_checkpoint_insert session slot i c
    (MkPollCheckpoint slot successor (Some expected) receipts) session2) by done.
  simpl. bool_facts. subst expected.
  assert (Hne : successor ≠ current_operation_id c).
  { intros ->. apply lease_poll_operation_unused in Hu. apply Hu. apply list_elem_of_bind.
    apply find_checkpoint_Ok in Hf as [Hi _]. exists c.
    split; [apply elem_of_poll_operations; by left|by eapply list_elem_of_lookup_2]. }
  apply Z.eqb_neq in Hne. rewrite Hne. simpl.
  rewrite bool_decide_eq_true_2 by done. rewrite (bool_decide_eq_true_2 (receipts = receipts)) by done.
  by rewrite orb_true_r.
Qed.

(** The command a poll delivers. *)
Definition poll_command (sid : RunnerSessionId) (command : LeasePollCommandRecord) :
    stM StoredJournal JournalInvariantError bool :=
  match command with
  | NoCommand => mret false
  | PollRecorded command disposition =>
      self ← getM;
      liftM (verify_recorded_command self sid command disposition);;
      mret false
  | PollIgnored command reason => record_command_disposition sid command (CommandIgnored reason)
  | PollLeaseOffer offer => record_offer sid offer
  | PollCancellation slot guard record => record_cancellation sid slot guard record
  end.

Lemma poll_command_recognised (sid : RunnerSessionId) (command : LeasePollCommandRecord) :
  recognised (poll_command sid command).
Proof.
  destruct command as [|c d|c r|offer|slot guard record]; simpl.
  - intros j j' b _ [= <- <-]. unchanged.
  - intros j j' b _ H. unfold_monad. destruct (verify_recorded_command j sid c d); [|done].
    injection H as <- <-. unchanged.
  - apply commit_recognised.
  - apply record_offer_recognised.
  - apply record_cancellation_recognised.
Qed.

Lemma complete_lease_poll_replays (sid : RunnerSessionId) (completion : LeasePollCompletion) j j' :
  journal_inv j → complete_lease_poll sid completion j = (j', Ok true) →
  complete_lease_poll sid completion j' = (j', Ok false).
Proof.
  intros Hinv H. unfold complete_lease_poll in *. fold (poll_command sid (completion_command completion)) in *.
  unfold mbind, stM_bind, liftM, rejectM, reject in *. unfold liftM in *.
  destruct (validate_authority_receipts _) as [[]|]; [|done].
  destruct (advance_lease_poll _ _ _ _ _ j) as [j1 [cc|]] eqn:Ha; [|done].
  pose proof (advance_lease_poll_inv _ _ _ _ _ _ _ _ Hinv Ha) as (Hinv1 & _ & _).
  destruct (poll_command sid (completion_command completion) j1) as [j2 [b2|]] eqn:Hc; [|done].
  destruct (poll_command_recognised _ _ _ _ _ Hinv1 Hc) as (Hfalse & Htrue & Hp).
  destruct (negb cc && b2) eqn:Hcc; [done|]. unfold mret, stM_ret in *. injection H as -> Hb.
  assert (cc = true) as -> by (destruct cc, b2; done).
  rewrite (advance_lease_poll_again _ _ _ _ _ _ _ _ Ha Hp).
  assert (Hagain : poll_command sid (completion_command completion) j' = (j', Ok false)).
  { destruct b2; [by apply Htrue|]. rewrite (Hfalse eq_refl) in *. done. }
  by rewrite Hagain.
Qed.

Lemma authorize_orphan_replays (grant : OrphanAuthorityGrant) j j' :
  authorize_orphan grant j = (j', Ok true) → authorize_orphan grant j' = (j', Ok false).
Proof.
  intros H. unfold authorize_orphan, orphan_claim, rejectM in *. unfold_monad.
  destruct (fenced_slot j _ _ _) as [[i s]|] eqn:Hf; [|done]. simpl in H.
  destruct (negb (bool_decide (grant_claim grant = MkOrphanClaim (journal_runner_id j) _ _ _)))
    eqn:Hcl; [done|].
  assert (Hix : slot_index j (claim_slot (grant_claim grant)) = Ok i ∧ slots j !! i = Some s).
  { pose proof (fenced_slot_Ok _ _ _ _ _ _ Hf) as (_ & Hi & _). split; [|done].
    unfold fenced_slot in Hf. unfold_monad. destruct (require_session j _); [|done].
    destruct (slot_index j _) as [n|]; [|done]. destruct (slots j !! n); [|done].
    destruct (require_guard _ _); [|done]. by injection Hf as -> ->. }
  destruct Hix as [Hix Hi]. rewrite Hix, Hi in H.
  destruct (orphan s) as [o|]; [by destruct (orphan_matches_grant o grant)|]. injection H as <-.
  pose proof (fenced_slot_Ok _ _ _ _ _ _ Hf) as ((session & Hs & Hid) & _).
  assert (Hos : slot_offer (orphan_slot grant s) = slot_offer s ∧
    orphan (orphan_slot grant s) = Some (orphan_from_grant grant)).
  { unfold orphan_slot. by destruct (_ && _). }
  destruct Hos as [Hoff Horph].
  erewrite (fenced_slot_update j); [|done..]. simpl. rewrite Hoff, Hcl. simpl.
  assert (Hix' : slot_index (set_slots (<[i := orphan_slot grant s]> (slots j)) j)
    (claim_slot (grant_claim grant)) = Ok i).
  { unfold slot_index in *. simpl. erewrite search_by_key_keys; [exact Hix|].
    apply (strict_sorted_alter slot_key _ _ s); [done|]. unfold slot_key. by rewrite Hoff. }
  rewrite Hix'. simpl. rewrite list_lookup_insert_eq by (by eapply lookup_lt_Some).
  rewrite Horph. unfold orphan_matches_grant. simpl.
  by rewrite !Z.eqb_refl, !bool_decide_eq_true_2.
Qed.

Lemma slot_mut_replays (sid : RunnerSessionId) (slot : RunnerSlotOrdinal) (guard : LeaseGuard)
    (op : slot_op) j j' :
  journal_inv j → slot_mut sid slot guard (run_slot_op op) j = (j', Ok true) →
  slot_mut sid slot guard (run_slot_op op) j' = (j', Ok false).
Proof.
  intros Hinv. unfold slot_mut.
  destruct (fenced_slot j sid slot guard) as [[i s]|] eqn:Hf; [|done].
  destruct (run_slot_op op s) as [s' r] eqn:Hrun. intros [= <- ->].
  pose proof (fenced_slot_Ok _ _ _ _ _ _ Hf) as ((session & Hs & Hid) & Hi & _).
  destruct (slot_op_frame _ _ _ _ Hrun) as [Hoff _].
  erewrite (fenced_slot_update j); [|done..].
  erewrite replays_slot_op; [..|exact Hrun].
  - unfold set_slots. simpl. by rewrite list_insert_insert_eq.
  - eapply ji_slot; [done..|by eapply list_elem_of_lookup_2].
Qed.

End JournalReplay.
