(* ===== verification/JournalTheorems.v ===== *)
(** * JournalTheorems: what the journal promises

    The properties of the journal's mutations: the decoding checks refuse
    exactly the named conditions, repeated mutations are recognised, commands
    are applied once and in order, fences hold and leave other slots alone, a
    slot's recorded operations only move forward, the provider record refines
    the life of a sandbox, and nothing is released before it is delivered. *)

From S2P Require Import Prelude Text Execution Capability Log JournalBase ManagedSecret.
From S2P Require Import LogDelivery Saga Journal JournalInvariant JournalSession JournalSafety.
From S2P Require Import JournalReplay.

(** ** The sandbox the provider record describes *)

Inductive SandboxPhase := NeverCreated | SandboxStopped | SandboxRunning | SandboxDestroyed.

Inductive sandbox_step : ProviderOperationKind → SandboxPhase → SandboxPhase → Prop :=
| sandbox_created : sandbox_step CreateSandbox NeverCreated SandboxStopped
| sandbox_started : sandbox_step StartSandbox SandboxStopped SandboxRunning
| sandbox_stopped : sandbox_step StopSandbox SandboxRunning SandboxStopped
| stopped_destroyed : sandbox_step DestroySandbox SandboxStopped SandboxDestroyed
| running_destroyed : sandbox_step DestroySandbox SandboxRunning SandboxDestroyed.

Definition phase_live (p : SandboxPhase) : bool :=
  match p with SandboxStopped | SandboxRunning => true | _ => false end.

Definition recovery_phase (r : ProviderRecoveryState) : SandboxPhase :=
  if negb (sandbox_was_created r) then NeverCreated
  else if negb (sandbox_live r) then SandboxDestroyed
  else if running r then SandboxRunning else SandboxStopped.

(** What the slot's record says of its sandbox. *)
Definition slot_phase (s : SlotSnapshot) : option SandboxPhase :=
  match replay_provider_operations (provider_checkpoint s) (provider_operations s) with
  | Ok r => Some (recovery_phase r)
  | Err _ => None
  end.

(** The operation whose outcome the mutation records as applied. *)
Definition confirms (op : slot_op) (s : SlotSnapshot) (kind : ProviderOperationKind) : Prop :=
  ∃ id intent, (op = CompleteProviderOperation id ∨ ∃ sandbox, op = RecordSandboxCreated id sandbox) ∧
    last (provider_operations s) = Some intent ∧ provider_operation_id intent = id ∧
    provider_kind intent = kind ∧ provider_is_pending intent = true.

Lemma confirm_step (r : ProviderRecoveryState) (kind : ProviderOperationKind) :
  recovery_ok r → can_begin r kind = true →
  sandbox_step kind (recovery_phase r) (recovery_phase (confirm r kind)).
Proof.
  unfold recovery_ok, recovery_phase. destruct r as [n [] [] []], kind; simpl; intros H Hb;
    try done; try constructor; naive_solver.
Qed.

Lemma recovery_phase_live (r : ProviderRecoveryState) :
  recovery_ok r → phase_live (recovery_phase r) = sandbox_live r.
Proof. unfold recovery_ok, recovery_phase. destruct r as [n [] [] []]; simpl; naive_solver. Qed.

Section Phases.
Context {hasher : Sha256} {uuids : Uuid} (rid : RunnerId) (session : SessionSnapshot).
Implicit Types (s : SlotSnapshot).

(** A valid slot has a phase, and its sandbox is there exactly when it is live. *)
Lemma slot_phase_inv s :
  slot_inv rid session s → ∃ r,
    replay_provider_operations (provider_checkpoint s) (provider_operations s) = Ok r ∧
    recovery_ok r ∧ slot_phase s = Some (recovery_phase r) ∧
    is_some (slot_sandbox s) = phase_live (recovery_phase r).
Proof.
  intros Hinv. pose proof (ok_provider _ _ _ (inv_ok _ _ _ Hinv)) as
    [_ _ Hco (r & Hr & Hs)]%validate_provider_state_iff.
  assert (Hok : recovery_ok r).
  { apply replay_from_facts in Hr as (_ & _ & Hok). apply Hok. by apply recovery_is_coherent_ok. }
  exists r. split_and!; [done..| |].
  - unfold slot_phase. by rewrite Hr.
  - by rewrite recovery_phase_live.
Qed.

(** Mutations that do not touch the provider record. *)
Lemma provider_frame (op : slot_op) s s' (b : bool) :
  match op with
  | RecordProviderIntent _ | RecordSandboxCreated _ _ | CompleteProviderOperation _
  | FailProviderOperation _ _ => False
  | _ => True
  end →
  run_slot_op op s = (s', Ok b) →
  provider_checkpoint s' = provider_checkpoint s ∧ provider_operations s' = provider_operations s.
Proof.
  assert (Hres : ∀ id request t t' b',
    (changed ← slot_endpoint_request id request;
     modifyM terminalize_orphan_after_endpoint_resolution;; mret changed) t = (t', Ok b') →
    provider_checkpoint t' = provider_checkpoint t ∧
    provider_operations t' = provider_operations t).
  { intros id request t t' b' (i & o & o' & _ & _ & ->)%endpoint_request_frame.
    unfold terminalize_orphan_after_endpoint_resolution. by destruct (_ && _ && _). }
  intros Hop H. destruct op; try done; simpl in H;
    unfold slot_accept_offer, slot_record_authority, slot_acknowledge_authority,
      slot_reject_offer, slot_acknowledge_rejection, slot_renew_lease, slot_transition_lifecycle,
      slot_record_terminal_result, slot_acknowledge_terminal_result, slot_accept_endpoint,
      slot_commit_endpoint_invocation, slot_record_endpoint_cancellation,
      slot_complete_endpoint_cancellation, slot_abandon_endpoint, slot_record_endpoint_result,
      slot_advance_outbound, slot_open_log_stream, slot_record_log_segment, slot_log_request,
      slot_abandon_orphan_delivery in H; clear Hop;
    try (by eapply Hres);
    try (unfold slot_endpoint_request in H; run_slot H; done).
  - unfold rejectM, reject, mbind at 1, stM_bind at 1, getM, liftM in H. cbn in H.
    destruct (is_some _); [done|]. by eapply Hres.
  - unfold rejectM, reject, mbind at 1, stM_bind at 1, getM, liftM in H. cbn in H.
    destruct (is_some _); [done|]. by eapply Hres.
Qed.

Lemma intent_phase (intent : ProviderOperation) s s' (b : bool) :
  slot_inv rid session s → slot_inv rid session s' →
  slot_record_provider_intent intent s = (s', Ok b) → slot_phase s' = slot_phase s.
Proof.
  intros Hinv Hinv' H. destruct (slot_phase_inv s Hinv) as (r & Hr & _ & Hp & _).
  destruct (slot_phase_inv s' Hinv') as (r' & Hr' & _ & Hp' & _). rewrite Hp, Hp'. f_equal.
  unfold slot_record_provider_intent, rejectM in H. unfold_monad.
  destruct (negb _); [done|]. destruct (is_terminal _ && _ && _); [done|].
  destruct (is_some (orphan s) && _); [done|].
  destruct (negb (bool_decide (provider_outcome intent = _))) eqn:Ho; [done|].
  destruct (find_provider _ _) as [e|].
  { destruct (bool_decide (provider_kind e = _)); [|done]. injection H as <- <-. congruence. }
  destruct (last_is_some_and _ _); [done|].
  match type of H with (let (_, _) := ?m in _) = _ => destruct m as [s1 [[]|]] eqn:Hc end; [|done].
  destruct (replay_provider_operations (provider_checkpoint s1) _) as [r1|] eqn:Hr1; [|done].
  destruct (negb (_ && can_begin r1 _)); [done|]. injection H as <- <-. bool_facts.
  assert (r' = r1) as ->.
  { simpl in Hr'. unfold replay_provider_operations in Hr', Hr1.
    apply replay_from_snoc in Hr' as (_ & _ & _ & m & Hm & [_ Hm']%recovery_apply_Ok).
    rewrite Hr1 in Hm. injection Hm as <-. by rewrite Ho in Hm'. }
  destruct (MAX_PROVIDER_OPERATIONS_PER_SLOT <=? _); [|injection Hc as <-; congruence].
  unfold compact_oldest in Hc. unfold_monad.
  destruct (provider_operations s) as [|op l] eqn:Hl; [injection Hc as <-; congruence|].
  destruct (recovery_compact _ op) as [c|] eqn:Hcomp; [|done]. injection Hc as <-. simpl in Hr1.
  destruct (replay_compact _ _ _ _ _ Hr Hcomp) as [Hx _]. rewrite Hx in Hr1.
  by injection Hr1 as <-.
Qed.

(** The last operation resolved to an outcome. *)
Lemma resolved_phase s (op : ProviderOperation) (outcome : ProviderOperationOutcome)
    (sandbox : option SandboxIdentity) :
  slot_inv rid session s → last (provider_operations s) = Some op →
  provider_outcome op ≠ OutcomeApplied → ∃ p p',
  slot_phase s = Some p ∧
  slot_phase (set_sandbox sandbox (set_last_provider (set_provider_outcome outcome op) s)) = Some p' ∧
  (if bool_decide (outcome = OutcomeApplied) then sandbox_step (provider_kind op) p p' else p' = p).
Proof.
  intros Hinv Hl Hne. destruct (slot_phase_inv s Hinv) as (r & Hr & Hok & Hp & _).
  destruct (replay_set_last _ _ _ _ outcome Hr Hl Hne) as [Hr' Hb].
  eexists _, _. split; [exact Hp|]. split.
  - unfold slot_phase. simpl. by rewrite Hr'.
  - case_bool_decide; [by apply confirm_step|done].
Qed.

Lemma confirmed_phase s s' (op : ProviderOperation) (sandbox : option SandboxIdentity)
    (request : slot_op) (id : OperationId) (p p' : SandboxPhase) :
  slot_inv rid session s → last (provider_operations s) = Some op →
  provider_outcome op ≠ OutcomeApplied → provider_is_pending op = true →
  provider_operation_id op = id →
  (request = CompleteProviderOperation id ∨ ∃ created, request = RecordSandboxCreated id created) →
  s' = set_sandbox sandbox (set_last_provider (set_provider_outcome OutcomeApplied op) s) →
  slot_phase s = Some p → slot_phase s' = Some p' →
  ∃ kind, confirms request s kind ∧ sandbox_step kind p p'.
Proof.
  intros Hinv Hl Hne Hpend Hid Hreq -> Hp Hp'. exists (provider_kind op). split.
  - exists id, op. done.
  - destruct (resolved_phase s op OutcomeApplied sandbox Hinv Hl Hne) as (q & q' & Hq & Hq' & Hstep).
    rewrite Hp in Hq. rewrite Hp' in Hq'. by injection Hq as <-; injection Hq' as <-.
Qed.

Lemma mark_applied_pending (op op' : ProviderOperation) (b : bool) :
  mark_applied op = Ok (op', b) → provider_outcome op ≠ OutcomeApplied →
  provider_is_pending op = true ∧ op' = set_provider_outcome OutcomeApplied op ∧ b = true.
Proof.
  unfold mark_applied, provider_is_pending, outcome_is_pending.
  destruct (provider_outcome op) as [| |[]]; [|done|done|]; intros [= <- <-]; done.
Qed.

Lemma created_phase (id : OperationId) (sandbox : SandboxIdentity) s s' (b : bool)
    (p p' : SandboxPhase) :
  slot_inv rid session s → slot_record_sandbox_created id sandbox s = (s', Ok b) →
  slot_phase s = Some p → slot_phase s' = Some p' →
  p' = p ∨ ∃ kind, confirms (RecordSandboxCreated id sandbox) s kind ∧ sandbox_step kind p p'.
Proof.
  intros Hinv H Hp Hp'. unfold slot_record_sandbox_created, rejectM in H. unfold_monad.
  destruct (last (provider_operations s)) as [op|] eqn:Hl; [|done].
  destruct (_ || _) eqn:Hid; [done|]. bool_facts.
  case_bool_decide as Ho.
  { left. destruct (bool_decide _); [|done]. injection H as <- <-. congruence. }
  destruct (is_some _); [done|]. destruct (mark_applied op) as [[op' b']|] eqn:Hm; [|done].
  injection H as <- <-. apply mark_applied_pending in Hm as (Hpend & -> & _); [|done].
  right. eapply (confirmed_phase _ _ op); eauto.
Qed.

Lemma completed_phase (id : OperationId) s s' (b : bool) (p p' : SandboxPhase) :
  slot_inv rid session s → slot_complete_provider_operation id s = (s', Ok b) →
  slot_phase s = Some p → slot_phase s' = Some p' →
  p' = p ∨ ∃ kind, confirms (CompleteProviderOperation id) s kind ∧ sandbox_step kind p p'.
Proof.
  intros Hinv H Hp Hp'. unfold slot_complete_provider_operation, rejectM in H. unfold_monad.
  destruct (last (provider_operations s)) as [op|] eqn:Hl; [|done].
  destruct (negb _) eqn:Hid; [done|]. destruct (bool_decide (provider_kind op = _)); [done|].
  destruct (mark_applied op) as [[op' b']|] eqn:Hm; [|done]. bool_facts.
  assert (Hs' : ∃ o, s' = set_sandbox o (set_last_provider op' s)).
  { destruct (_ && _); injection H as <- _; eauto. }
  destruct Hs' as [o Hs'].
  destruct (decide (provider_outcome op = OutcomeApplied)) as [Ho|Ho].
  - left. unfold mark_applied in Hm. rewrite Ho in Hm. injection Hm as <- _.
    assert (slot_phase s' = slot_phase s); [|congruence]. subst s'. unfold slot_phase. simpl.
    by rewrite set_last_same.
  - apply mark_applied_pending in Hm as (Hpend & -> & _); [|done].
    right. eapply (confirmed_phase _ _ op); eauto.
Qed.

Lemma failed_phase (id : OperationId) (failure : ProviderFailureOutcome) s s' (b : bool) :
  slot_inv rid session s → slot_fail_provider_operation id failure s = (s', Ok b) →
  slot_phase s' = slot_phase s.
Proof.
  intros Hinv H. unfold slot_fail_provider_operation, rejectM in H. unfold_monad.
  destruct (last (provider_operations s)) as [op|] eqn:Hl; [|done].
  destruct (negb _) eqn:Hid; [done|].
  destruct (resolve_failure op failure) as [[op' b']|] eqn:Hm; [|done]. injection H as <- _.
  apply resolve_failure_Ok in Hm as (Hne & -> & _). simpl.
  destruct b'; [|unfold slot_phase; simpl; by rewrite set_last_same].
  destruct (resolved_phase s op (OutcomeFailed failure) (slot_sandbox s) Hinv Hl Hne)
    as (p & p' & Hp & Hp' & Heq). simpl in Heq.
  subst p'. rewrite Hp. exact Hp'.
Qed.

End Phases.

(** ** Accepted mutations *)

Section Accepted.
Context {hasher : Sha256} {uuids : Uuid}.
Implicit Types (j : StoredJournal).

(** A mutation with the revision and the checks that follow it. *)
Definition accept (op : journal_op) j : option StoredJournal :=
  match run_journal_op op j with
  | (j', Ok true) =>
      match increment_revision j' with
      | (j'', Ok _) => match journal_validate j'' with Ok _ => Some j'' | Err _ => None end
      | (_, Err _) => None
      end
  | _ => None
  end.

Definition accept_all (ops : list journal_op) j : option StoredJournal :=
  foldl (λ acc op, acc ≫= accept op) (Some j) ops.

Lemma accept_Some (op : journal_op) j j'' :
  accept op j = Some j'' → ∃ j',
    run_journal_op op j = (j', Ok true) ∧ j'' = set_revision (revision j' + 1) j' ∧
    revision j' < u64_max ∧ journal_validate j'' = Ok tt.
Proof.
  unfold accept. destruct (run_journal_op op j) as [j' [[]|]]; [|done..]. intros H.
  unfold increment_revision in H. unfold_monad.
  destruct (checked_add u64_max (revision j') 1) as [n|] eqn:Hn; [|done].
  apply checked_add_Some in Hn as [-> Hn].
  destruct (journal_validate _) as [[]|] eqn:Hv; [|done]. injection H as <-.
  exists j'. split_and!; [done..|lia|done].
Qed.

Lemma accept_inv (op : journal_op) j j'' :
  journal_inv j → accept op j = Some j'' → journal_inv j'' ∧ revision j'' = revision j + 1.
Proof.
  intros Hinv (j' & Hrun & -> & _ & Hv)%accept_Some.
  destruct (run_journal_op_inv op j j' true Hinv) as [Hinv' Hr]; [|done|].
  - by eapply validated_admissible.
  - split; [by apply journal_inv_revision|]. simpl. lia.
Qed.

Lemma accept_all_inv (ops : list journal_op) j j'' :
  journal_inv j → accept_all ops j = Some j'' → journal_inv j''.
Proof.
  unfold accept_all. revert j. induction ops as [|op ops IH]; intros j Hinv; simpl.
  - by intros [= <-].
  - destruct (accept op j) as [j1|] eqn:Ha.
    + apply accept_inv in Ha as [? _]; [|done]. by apply IH.
    + intros H. exfalso. clear -H. induction ops; [done|]. by apply IHops.
Qed.

Lemma run_journal_op_revision (op : journal_op) j j' (b : bool) :
  journal_inv j → run_journal_op op j = (j', Ok b) → revision j' = revision j.
Proof.
  intros Hinv H. destruct op; simpl in H;
    [|eapply prepare_lease_poll_inv in H as [_ ?]|eapply complete_lease_poll_inv in H as [_ ?]
     |eapply acknowledge_receipts_inv in H as [_ ?]
     |eapply commit_command_inv in H as (_ & _ & ? & _)
     |eapply record_offer_inv in H as [_ ?]|eapply record_cancellation_inv in H as [_ ?]|
     |eapply authorize_orphan_inv in H as [_ ?]|eapply release_slot_inv in H as [_ ?]
     |eapply release_rejected_offer_inv in H as [_ ?]]; try done.
  - unfold begin_session in H. unfold_monad. by split_tests.
  - unfold slot_mut in H. destruct (fenced_slot _ _ _ _) as [[i s]|]; [|done].
    destruct (run_slot_op _ s). by injection H as <- _.
Qed.

Lemma record_cancellation_others (sid : RunnerSessionId) (slot : RunnerSlotOrdinal)
    (guard : LeaseGuard) (record : CancellationRecord) j j' (b : bool) :
  record_cancellation sid slot guard record j = (j', Ok b) →
  filter (not_slot slot) (slots j') = filter (not_slot slot) (slots j).
Proof.
  intros H. unfold record_cancellation, rejectM in H. unfold_monad.
  destruct (fenced_slot j sid slot guard) as [[i s]|] eqn:Hf; [|done]. simpl in H.
  apply fenced_slot_Ok in Hf as (_ & Hi & Hk & _).
  destruct (is_some _); [done|]. destruct (bool_decide (offer_status s = _)); [done|].
  destruct (bool_decide (cancellation s = _)); [by injection H as <- <-|].
  destruct (is_some _); [done|].
  destruct (commit_command sid _ _ j) as [j1 [changed|]] eqn:Hc; [|done].
  assert (Hsl : slots j1 = slots j).
  { apply commit_command_Ok in Hc as (session & _ & Hc). destruct changed;
      [by destruct Hc as (_ & _ & ->)|by destruct Hc as [-> _]]. }
  destruct changed; simpl in H; [|by injection H as <- <-; rewrite Hsl].
  assert (Hj' : slots j' = <[i := cancel_pending_endpoint (set_slot_lifecycle Cancelling
    (set_cancellation (Some record) s))]> (slots j)).
  { destruct (bool_decide (slot_lifecycle s = Cancelling)); simpl in H;
      [|destruct (validate_transition (slot_lifecycle s) Cancelling); simpl in H; [|done]];
      injection H as <- <-; simpl; by rewrite Hsl. }
  rewrite Hj'. eapply filter_insert_own; [done..|]. rewrite <- Hk. unfold slot_key.
  unfold cancel_pending_endpoint. destruct (last _) as [op|]; [|done].
  by destruct (is_recovery_pending op).
Qed.

(** The revision is not read by the mutations. *)
Section RevisionBlind.
Context (n : Z).

Definition blind {A : Type} (m : stM StoredJournal JournalInvariantError A) : Prop :=
  ∀ j, m (set_revision n j) = (set_revision n (m j).1, (m j).2).

Lemma blind_bind {A B : Type} (m : stM StoredJournal JournalInvariantError A)
    (f : A → stM StoredJournal JournalInvariantError B) :
  blind m → (∀ a, blind (f a)) → blind (m ≫= f).
Proof.
  intros Hm Hf j. unfold mbind, stM_bind. rewrite (Hm j).
  destruct (m j) as [j' [a|]]; simpl; [apply Hf|done].
Qed.

Lemma blind_get {A : Type} (f : StoredJournal → stM StoredJournal JournalInvariantError A) :
  (∀ j, f (set_revision n j) = f j) → (∀ j, blind (f j)) → blind (getM ≫= f).
Proof. intros Heq Hf j. unfold mbind, stM_bind, getM. rewrite Heq. apply Hf. Qed.

Lemma blind_lift {A : Type} (r : result JournalInvariantError A) : blind (liftM r).
Proof. done. Qed.

Lemma blind_ret {A : Type} (a : A) : blind (mret a).
Proof. done. Qed.

Lemma blind_modify (f : StoredJournal → StoredJournal) :
  (∀ j, f (set_revision n j) = set_revision n (f j)) → blind (modifyM f).
Proof. intros H j. unfold modifyM. by rewrite H. Qed.

Lemma blind_slot_mut (sid : RunnerSessionId) (slot : RunnerSlotOrdinal) (guard : LeaseGuard)
    (body : stM SlotSnapshot JournalInvariantError bool) :
  blind (slot_mut sid slot guard body).
Proof.
  intros j. unfold slot_mut.
  change (fenced_slot (set_revision n j) sid slot guard) with (fenced_slot j sid slot guard).
  destruct (fenced_slot j sid slot guard) as [[i s]|]; [|done]. by destruct (body s).
Qed.

End RevisionBlind.

Ltac solve_blind :=
  repeat lazymatch goal with
  | |- blind _ (getM ≫= _) => apply blind_get; [reflexivity|intros ?; cbv beta]
  | |- blind _ (_ ≫= _) => apply blind_bind; [|intros ?; cbv beta]
  | |- blind _ (liftM _) => apply blind_lift
  | |- blind _ (rejectM _ _) => apply blind_lift
  | |- blind _ (mret _) => apply blind_ret
  | |- blind _ (modifyM _) => apply blind_modify; reflexivity
  | |- blind _ (let x := ?t in @?f x) => change (blind _ (f t)); cbv beta
  | |- blind _ (if ?c then _ else _) => destruct c
  | |- blind _ (match ?t with _ => _ end) => destruct t
  end.

Lemma blind_commit (n : Z) (sid : RunnerSessionId) (c : DurableCommand) (d : CommandDisposition) :
  blind n (commit_command sid c d).
Proof. unfold commit_command. solve_blind. Qed.

Lemma run_journal_op_blind (n : Z) (op : journal_op) : blind n (run_journal_op op).
Proof.
  pose proof (blind_commit n) as Hc.
  assert (Ho : ∀ sid offer, blind n (record_offer sid offer)).
  { intros sid offer. unfold record_offer. solve_blind; try apply Hc; solve_blind. }
  assert (Hca : ∀ sid slot guard record, blind n (record_cancellation sid slot guard record)).
  { intros sid slot guard record. unfold record_cancellation.
    solve_blind; try apply Hc; solve_blind. }
  destruct op; simpl; try (by apply Hc); try (by apply Ho); try (by apply Hca).
  - unfold begin_session. solve_blind.
  - unfold prepare_lease_poll. solve_blind.
  - unfold complete_lease_poll, advance_lease_poll. solve_blind; try apply Hc; try apply Ho;
      try apply Hca.
  - unfold acknowledge_lease_authority_receipts. solve_blind.
  - apply blind_slot_mut.
  - unfold authorize_orphan. solve_blind.
  - unfold release_slot. solve_blind.
  - unfold release_rejected_offer. solve_blind.
Qed.

(** The runner is never written. *)
Definition keeps_runner {A : Type} (m : stM StoredJournal JournalInvariantError A) : Prop :=
  ∀ j, journal_runner_id (m j).1 = journal_runner_id j.

Lemma keeps_runner_bind {A B : Type} (m : stM StoredJournal JournalInvariantError A)
    (f : A → stM StoredJournal JournalInvariantError B) :
  keeps_runner m → (∀ a, keeps_runner (f a)) → keeps_runner (m ≫= f).
Proof.
  intros Hm Hf j. unfold mbind, stM_bind. specialize (Hm j).
  destruct (m j) as [j' [a|]]; simpl in *; [|done]. by rewrite (Hf a j').
Qed.

Lemma keeps_runner_slot_mut (sid : RunnerSessionId) (slot : RunnerSlotOrdinal)
    (guard : LeaseGuard) (body : stM SlotSnapshot JournalInvariantError bool) :
  keeps_runner (slot_mut sid slot guard body).
Proof.
  intros j. unfold slot_mut. destruct (fenced_slot j sid slot guard) as [[i s]|]; [|done].
  by destruct (body s).
Qed.

Ltac solve_runner :=
  repeat lazymatch goal with
  | |- keeps_runner (_ ≫= _) => apply keeps_runner_bind; [|intros ?; cbv beta]
  | |- keeps_runner (liftM _) => done
  | |- keeps_runner (rejectM _ _) => done
  | |- keeps_runner (mret _) => done
  | |- keeps_runner getM => done
  | |- keeps_runner (modifyM _) => done
  | |- keeps_runner (let x := ?t in @?f x) => change (keeps_runner (f t)); cbv beta
  | |- keeps_runner (if ?c then _ else _) => destruct c
  | |- keeps_runner (match ?t with _ => _ end) => destruct t
  end.

Lemma run_journal_op_runner (op : journal_op) j j' (b : bool) :
  run_journal_op op j = (j', Ok b) → journal_runner_id j' = journal_runner_id j.
Proof.
  intros H. cut (keeps_runner (run_journal_op op)).
  { intros Hk. specialize (Hk j). by rewrite H in Hk. }
  assert (Hc : ∀ sid c d, keeps_runner (commit_command sid c d))
    by (intros; unfold commit_command; solve_runner).
  assert (Ho : ∀ sid offer, keeps_runner (record_offer sid offer))
    by (intros; unfold record_offer; solve_runner; apply Hc).
  assert (Hca : ∀ sid slot guard record, keeps_runner (record_cancellation sid slot guard record))
    by (intros; unfold record_cancellation; solve_runner; apply Hc).
  clear H. destruct op; simpl; try apply Hc; try apply Ho; try apply Hca.
  - unfold begin_session. solve_runner.
  - unfold prepare_lease_poll. solve_runner.
  - unfold complete_lease_poll, advance_lease_poll. solve_runner; [apply Hc|apply Ho|apply Hca].
  - unfold acknowledge_lease_authority_receipts. solve_runner.
  - apply keeps_runner_slot_mut.
  - unfold authorize_orphan. solve_runner.
  - unfold release_slot. solve_runner.
  - unfold release_rejected_offer. solve_runner.
Qed.

(** C3: of the mutations that the journal accepts, the checks that a restart
    would make refuse exactly those outside [admissible]: a session in an
    unsupported version, a provider intent before its authority is
    acknowledged, an endpoint operation during finalisation, an endpoint result
    on an orphaned slot, or a log segment at the end of the sequence space.
    Every other accepted mutation can be committed. *)
Theorem decoding_refuses_exactly (op : journal_op) j j' :
  journal_inv j → 0 <= revision j < u64_max → run_journal_op op j = (j', Ok true) →
  increment_revision j' = (set_revision (revision j + 1) j', Ok tt) ∧
  (journal_validate (set_revision (revision j + 1) j') = Ok tt ↔ admissible op j).
Proof.
  intros Hinv Hrev Hrun. split.
  - rewrite <- (run_journal_op_revision op j j' true Hinv Hrun). apply increment_revision_Ok.
    rewrite (run_journal_op_revision op j j' true Hinv Hrun). lia.
  - split; [by eapply validated_admissible|]. intros Hadm.
    destruct (run_journal_op_inv op j j' true Hinv Hadm Hrun) as [Hinv' _].
    apply journal_inv_validates; [by apply journal_inv_revision|]. simpl. lia.
Qed.

(** C4: a mutation that was accepted can be sent again: on the journal it
    produced, under whatever revision it was committed, it succeeds, reports
    that nothing changed and leaves the journal as it is. Only the two releases
    are not repeatable, since their slot is gone. *)
Theorem accepted_mutations_replay (op : journal_op) j j' (n : Z) :
  journal_inv j → run_journal_op op j = (j', Ok true) →
  match op with ReleaseSlot _ _ _ | ReleaseRejectedOffer _ _ _ _ => False | _ => True end →
  run_journal_op op (set_revision n j') = (set_revision n j', Ok false).
Proof.
  intros Hinv H Hop. rewrite (run_journal_op_blind n op j').
  cut (run_journal_op op j' = (j', Ok false)); [by intros ->|].
  destruct op; try done; simpl in *.
  - by eapply begin_session_replays.
  - by eapply prepare_lease_poll_replays.
  - by eapply complete_lease_poll_replays.
  - by eapply acknowledge_receipts_replays.
  - by apply (commit_recognised _ _ _ j j' true).
  - by apply (record_offer_recognised _ _ j j' true).
  - by apply (record_cancellation_recognised _ _ _ _ j j' true).
  - by eapply slot_mut_replays.
  - by eapply authorize_orphan_replays.
Qed.

(** C5: within a session commands are applied once and in order. An accepted
    mutation either leaves the cursor and the recorded window alone, or it is
    the delivery of a command whose number is the next one and whose operation
    is not recorded anywhere in the journal, and that command becomes the
    cursor and the newest entry of the window. *)
Theorem commands_once_in_order (op : journal_op) j j' (b : bool) (session : SessionSnapshot) :
  journal_inv j → journal_session j = Some session → (∀ binding, op ≠ BeginSession binding) →
  run_journal_op op j = (j', Ok b) → ∃ session',
  journal_session j' = Some session' ∧ session_id session' = session_id session ∧
  ((session_cursor session' = session_cursor session ∧
    command_tombstones session' = command_tombstones session) ∨
   ∃ c d, delivers op = Some (c, d) ∧ command_number c = next_number session ∧
     command_is_used j c = false ∧ session_cursor session' = Some (command_sequence c) ∧
     last (command_tombstones session') = Some (MkCommandTombstone c d) ∧
     find_tombstone session' (command_sequence c) = Some (MkCommandTombstone c d)).
Proof.
  intros Hinv Hs Hop Hrun.
  destruct (run_journal_op_command op j j' b Hop Hrun session Hs)
    as (session' & Hs' & Hid & [[Hc Ht]|(c & d & Hd & Hn & Hu & Hc & Ht)]);
    exists session'; (split; [done|]; split; [done|]).
  - left. split; [|done]. unfold session_cursor. by rewrite Hc.
  - right. exists c, d. split_and!; try done.
    + rewrite Ht. destruct (push_tombstone_cases (MkCommandTombstone c d)
        (command_tombstones session)) as [->|(f & r & _ & ->)]; apply last_snoc.
    + rewrite <- (find_tombstone_committed session c d (ji_session _ Hinv _ Hs) Hn).
      unfold find_tombstone. simpl. by rewrite Ht.
Qed.

(** C6: a mutation of a slot runs only under the slot's own lease and session,
    and reaches no other slot. Under another session or lease guard it is
    refused with the mismatch and the journal is unchanged; when it succeeds
    the guard was the slot's own, and the session's slots other than it, the
    runner and the schema are as they were. *)
Theorem fenced_mutations (op : journal_op) (sid : RunnerSessionId) (slot : RunnerSlotOrdinal)
    (guard : LeaseGuard) j (session : SessionSnapshot) :
  journal_inv j → journal_session j = Some session → fence_of op = Some (sid, slot, guard) →
  (session_id session ≠ sid →
   run_journal_op op j = (j, Err (SessionMismatch (session_id session) sid))) ∧
  (∀ s, s ∈ slots j → slot_key s = bget slot → session_id session = sid → slot_guard s ≠ guard →
   run_journal_op op j = (j, Err (LeaseGuardMismatch (slot_guard s) guard))) ∧
  (∀ j' b, run_journal_op op j = (j', Ok b) →
   ∃ s, s ∈ slots j ∧ slot_key s = bget slot ∧ slot_guard s = guard ∧
     filter (not_slot slot) (slots j') = filter (not_slot slot) (slots j)).
Proof.
  intros Hinv Hs Hf. split_and!.
  - intros Hne. eapply fenced_op_stopped; [done|]. unfold fenced_slot, require_session. unfold_monad.
    rewrite Hs. apply Z.eqb_neq in Hne. by rewrite Hne.
  - intros s Hin Hk Hid Hg. eapply fenced_op_stopped; [done|].
    apply list_elem_of_lookup_1 in Hin as [i Hi]. unfold fenced_slot, slot_index. unfold_monad.
    rewrite (proj2 (require_session_Ok j sid session)) by done.
    rewrite (search_by_key_found slot_key (slots j) (bget slot) i s); [|..|done|done].
    + rewrite Hi. unfold require_guard. by rewrite bool_decide_eq_false_2.
    + apply (sl_sorted _ _ _ (ji_slots _ Hinv _ Hs)).
  - intros j' b Hrun.
    destruct (fenced_slot j sid slot guard) as [[i s]|e] eqn:He.
    2: { rewrite (fenced_op_stopped op _ _ _ _ _ Hf He) in Hrun. done. }
    pose proof He as (_ & Hi & Hk & Hg)%fenced_slot_Ok.
    exists s. split; [by eapply list_elem_of_lookup_2|]. split; [done|]. split; [done|].
    assert (Hupd : ∀ s', slot_offer s' = slot_offer s →
      filter (not_slot slot) (<[i := s']> (slots j)) = filter (not_slot slot) (slots j)).
    { intros s' Ho. eapply filter_insert_own; [done..|]. unfold slot_key in *. by rewrite Ho. }
    destruct op; simpl in Hf; simplify_eq; simpl in Hrun.
    + by eapply record_cancellation_others.
    + unfold slot_mut in Hrun. rewrite He in Hrun.
      match type of Hrun with context [run_slot_op ?o s] => destruct (run_slot_op o s) as [s' r] eqn:Hs' end.
      injection Hrun as <- ->. simpl. apply Hupd. by apply slot_op_frame in Hs' as [? _].
    + unfold release_slot in Hrun. unfold_monad. rewrite He in Hrun. simpl in Hrun.
      destruct (slot_release_check s); [|done]. injection Hrun as <- <-. simpl.
      by eapply filter_delete_own.
    + unfold release_rejected_offer, rejectM in Hrun. unfold_monad. rewrite He in Hrun.
      simpl in Hrun. destruct (negb _); [done|]. destruct (rejection s); [|done].
      destruct (negb _); [done|]. destruct (negb _); [done|]. injection Hrun as <- <-. simpl.
      by eapply filter_delete_own.
Qed.

(** What a slot has recorded only moves forward. Under every accepted
    mutation of a slot its lifecycle stays, makes a transition of the lifecycle
    machine, or an orphaned slot that is not terminal is lost; so a terminal
    slot stays as it ended. Each recorded endpoint operation keeps its place,
    its request and its reservation, its state moves along the saga, and once
    it is cancelled, abandoned or completed it never changes again. *)
Lemma slot_records_move_forward (op : slot_op) (s s' : SlotSnapshot) (b : bool) :
  run_slot_op op s = (s', Ok b) →
  (slot_lifecycle s' = slot_lifecycle s ∨
   validate_transition (slot_lifecycle s) (slot_lifecycle s') = Ok tt ∨
   (orphan s ≠ None ∧ is_terminal (slot_lifecycle s) = false ∧ slot_lifecycle s' = Lost)) ∧
  (is_terminal (slot_lifecycle s) = true → slot_lifecycle s' = slot_lifecycle s) ∧
  ∀ i e, endpoint_operations s !! i = Some e → ∃ state,
    endpoint_operations s' !! i = Some (set_endpoint_state state e) ∧
    (state = endpoint_state e ∨ endpoint_move (endpoint_state e) state) ∧
    (is_recovery_pending e = false → state = endpoint_state e).
Proof.
  intros [Hl He]%slot_op_steps. split; [done|]. split.
  - intros Ht. destruct Hl as [?|[Hl|(_ & ? & _)]]; [done| |congruence].
    by destruct (slot_lifecycle s), (slot_lifecycle s').
  - intros i e Hi. destruct (He i e Hi) as (e' & Hi' & [->|(state & -> & Hm)]).
    + exists (endpoint_state e). split; [|by auto]. by destruct e.
    + exists state. split; [done|]. split; [by right|]. intros Hp. exfalso.
      unfold is_recovery_pending in Hp. by destruct Hm.
Qed.

(** C32: the record of provider operations describes the life of one sandbox.
    Every accepted mutation of a valid slot leaves the phase that the record
    replays to, or records the applied outcome of the last, unresolved
    operation and takes the sandbox through that operation's step of its life;
    and the slot names a sandbox exactly while the phase is live. *)
Theorem provider_record_refines_sandbox (rid : RunnerId) (session : SessionSnapshot)
    (op : slot_op) (s s' : SlotSnapshot) (b : bool) :
  slot_inv rid session s → slot_admissible op s → run_slot_op op s = (s', Ok b) → ∃ p p',
  slot_phase s = Some p ∧ slot_phase s' = Some p' ∧
  (p' = p ∨ ∃ kind, confirms op s kind ∧ sandbox_step kind p p') ∧
  is_some (slot_sandbox s') = phase_live p'.
Proof.
  intros Hinv Hadm Hrun.
  destruct (keeps_slot_op rid session op s s' b Hinv Hadm Hrun) as [Hinv' _].
  destruct (slot_phase_inv rid session s Hinv) as (r & Hr & _ & Hp & _).
  destruct (slot_phase_inv rid session s' Hinv') as (r' & Hr' & _ & Hp' & Hlive).
  exists (recovery_phase r), (recovery_phase r'). split_and!; [done..| |done].
  assert (Hsame : slot_phase s' = slot_phase s → recovery_phase r' = recovery_phase r) by congruence.
  assert (Hframe : provider_checkpoint s' = provider_checkpoint s ∧
    provider_operations s' = provider_operations s → recovery_phase r' = recovery_phase r).
  { intros [Hc Ho]. apply Hsame. unfold slot_phase. by rewrite Hc, Ho. }
  destruct op; try (left; by eapply Hframe, provider_frame; [|exact Hrun]); simpl in Hrun.
  - left. apply Hsame. by eapply intent_phase.
  - by eapply created_phase.
  - by eapply completed_phase.
  - left. apply Hsame. by eapply failed_phase.
Qed.

(** ** Releases *)

Lemma include_slot_none (t : PendingDeliveryTimestamps) (s : SlotSnapshot) :
  slot_pending s = MkPendingTimestamps None None None → include_slot t s = t.
Proof. intros H. unfold include_slot. rewrite H. by destruct t. Qed.

(** What [slot_release_check] lets through is delivered. *)
Lemma release_check_delivered (s : SlotSnapshot) :
  (∀ r, terminal_result s = Some r → offer_status s = OfferAccepted) →
  slot_release_check s = Ok tt →
  is_terminal (slot_lifecycle s) = true ∧ slot_sandbox s = None ∧
  last_is_some_and provider_is_pending (provider_operations s) = false ∧
  existsb is_recovery_pending (endpoint_operations s) = false ∧
  slot_pending s = MkPendingTimestamps None None None.
Proof.
  intros Hacc H. unfold slot_release_check in H.
  rewrite !bind_unit_Ok, !reject_Ok in H. destruct H as (_ & Ht & Hlog & Hres & Hrej).
  bool_facts. split_and!; try done. unfold slot_pending, orphan_abandoned.
  f_equal.
  - destruct (terminal_result s) as [r|] eqn:Er; [|done]. rewrite (Hacc r) in Hres by done.
    simpl in Hres. destruct (result_acknowledged r); [done|]. simpl in Hres.
    destruct (orphan s) as [o|]; [|done]. simpl in Hres. rewrite orb_false_r in Hres.
    by destruct (is_abandoned o OrphanTerminalResult).
  - destruct (rejection s) as [r|]; [|done]. destruct (rejection_acknowledged r); [done|].
    simpl in Hrej. by rewrite Hrej.
  - destruct (log_delivery s) as [log|]; [|done]. destruct (is_fully_delivered log); [done|].
    simpl in Hlog. by rewrite Hlog.
Qed.

Lemma pending_delete (l : list SlotSnapshot) (i : nat) (s : SlotSnapshot)
    (t : PendingDeliveryTimestamps) :
  l !! i = Some s → slot_pending s = MkPendingTimestamps None None None →
  foldl include_slot t (delete i l) = foldl include_slot t l.
Proof.
  intros Hi Hs. rewrite delete_take_drop. rewrite <- (take_drop_middle l i s Hi) at 3.
  rewrite !foldl_app. simpl. by rewrite include_slot_none.
Qed.

(** Nothing is lost by a release. A slot is released only when its job is
    terminal, its sandbox is gone, no provider or endpoint operation is
    unresolved, and its result, its log and its rejection have each been
    acknowledged or abandoned with authority; so the oldest pending delivery of
    the journal, per kind, is the same before and after, and only that slot is
    gone. *)
Lemma releases_lose_nothing (sid : RunnerSessionId) (slot : RunnerSlotOrdinal)
    (guard : LeaseGuard) j j' (b : bool) :
  journal_inv j → release_slot sid slot guard j = (j', Ok b) → ∃ i s,
  slots j !! i = Some s ∧ slot_key s = bget slot ∧ slot_guard s = guard ∧
  slots j' = delete i (slots j) ∧
  is_terminal (slot_lifecycle s) = true ∧ slot_sandbox s = None ∧
  last_is_some_and provider_is_pending (provider_operations s) = false ∧
  existsb is_recovery_pending (endpoint_operations s) = false ∧
  slot_pending s = MkPendingTimestamps None None None ∧
  pending_delivery_timestamps j' = pending_delivery_timestamps j.
Proof.
  intros Hinv H. unfold release_slot in H. unfold_monad.
  destruct (fenced_slot j sid slot guard) as [[i s]|] eqn:Hf; [|done]. simpl in H.
  destruct (slot_release_check s) as [[]|] eqn:Hc; [|done]. injection H as <- <-.
  apply fenced_slot_Ok in Hf as ((session & Hs & _) & Hi & Hk & Hg).
  destruct (release_check_delivered s) as (H1 & H2 & H3 & H4 & H5); [|done|].
  { intros r Hr. pose proof (ji_slot _ Hinv session s Hs (list_elem_of_lookup_2 _ _ _ Hi)) as Hsi.
    by destruct (ok_terminal_result _ _ _ (inv_ok _ _ _ Hsi) r Hr) as (_ & ? & _). }
  exists i, s. split_and!; try done. by apply (pending_delete _ _ s).
Qed.

End Accepted.

(** ** One run of the journal, and the properties along it *)

Definition demo_ordinal : RunnerSlotOrdinal := @MkBounded 1 u16_max 1 I.
Definition demo_guard : LeaseGuard := lease_guard demo_overlay_lease.

Definition demo_command (n : CommandSequence) (id : OperationId) : DurableCommand :=
  MkDurableCommand n id (repeat 9 32).

Definition demo_ref (kind : ContentKind) : DurableContentRef :=
  MkDurableContentRef kind (PublicIdentity (@MkBounded 0 u64_max 64 I) (repeat 5 32))
    (lit "object") (lit "key").

Definition demo_offer : LeaseOfferRecord :=
  MkLeaseOffer demo_ordinal demo_overlay_lease
    (MkJobIrContentRef (@MkBounded 1 u16_max 1 I) (demo_ref JobIr)) None
    (demo_command (@MkBounded 1 CommandSequence_MAX 1 I) 501).

Definition demo_delivery : RuntimeAuthorityDeliveryRecord :=
  MkAuthorityDelivery
    (MkAuthorityBinding 7 demo_ordinal demo_guard 501 (@MkBounded 1 CommandSequence_MAX 1 I)
       (repeat 5 32) (@MkBounded 0 u32_max 1 I))
    601 602 (repeat 5 32) (MkRuntimeAuthorityContentRef (demo_ref RuntimeAuthority)) false.

Definition demo_binding : SessionBinding := MkSessionBinding 5 3 (@MkBounded 1 u16_max 1 I).

Definition on_slot (op : slot_op) : journal_op := OnSlot 5 demo_ordinal demo_guard op.

Definition demo_sandbox : SandboxIdentity := MkSandboxIdentity (lit "podman") (lit "sb-1").

(** A job from its session to the creation of its sandbox. *)
Definition demo_start : list journal_op :=
  [BeginSession demo_binding; RecordOffer 5 demo_offer; on_slot AcceptOffer;
   on_slot (RecordAuthority demo_delivery);
   on_slot (AcknowledgeAuthority (@MkBounded 0 u32_max 1 I) (repeat 5 32) 602);
   on_slot (TransitionLifecycle Preparing);
   on_slot (RecordProviderIntent (provider_intent 701 CreateSandbox))].

(** And from there to its acknowledged result. *)
Definition demo_finish : list journal_op :=
  [on_slot (RecordSandboxCreated 701 demo_sandbox);
   on_slot (RecordProviderIntent (provider_intent 702 DestroySandbox));
   on_slot (CompleteProviderOperation 702);
   on_slot (RecordTerminalResult Failed
              (MkTerminalResultRecord 801 (demo_ref TerminalResult) false) 1700000000000);
   on_slot (AcknowledgeTerminalResult 801)].

Definition demo_journal (ops : list journal_op) : StoredJournal :=
  default (journal_new 1) (@accept_all demo_sha256 demo_uuid ops (journal_new 1)).

Lemma demo_inv (ops : list journal_op) :
  is_some (@accept_all demo_sha256 demo_uuid ops (journal_new 1)) = true →
  @journal_inv demo_sha256 demo_uuid (demo_journal ops).
Proof.
  unfold demo_journal. destruct (accept_all _ _) as [j|] eqn:Ha; [|done]. intros _. simpl.
  by eapply (@accept_all_inv demo_sha256 demo_uuid); [apply journal_inv_new|].
Qed.

Abbreviation demo_run op j := (@run_journal_op demo_sha256 demo_uuid op j) (only parsing).

Lemma decoding_refuses_exactly_witness :
  let j := demo_journal demo_start in
  let op := on_slot (RecordSandboxCreated 701 demo_sandbox) in
  @journal_validate demo_sha256 demo_uuid (set_revision (revision j + 1) (demo_run op j).1) = Ok tt.
Proof.
  intros j op. refine (proj2 (proj2 (@decoding_refuses_exactly demo_sha256 demo_uuid op j
    (demo_run op j).1 _ _ _)) _).
  - apply demo_inv. vm_compute. reflexivity.
  - vm_compute. split; [discriminate|reflexivity].
  - vm_compute. reflexivity.
  - exact (λ i s _, I).
Defined.

Lemma accepted_mutations_replay_witness :
  let j := demo_journal demo_start in
  let op := on_slot (RecordSandboxCreated 701 demo_sandbox) in
  let j' := set_revision 8 (demo_run op j).1 in
  demo_run op j' = (j', Ok false).
Proof.
  intros j op j'. refine (@accepted_mutations_replay demo_sha256 demo_uuid op j
    (demo_run op j).1 8 _ _ I).
  - apply demo_inv. vm_compute. reflexivity.
  - vm_compute. reflexivity.
Defined.

Lemma commands_once_in_order_witness :
  let j := demo_journal [BeginSession demo_binding] in
  ∃ session', journal_session (demo_run (RecordOffer 5 demo_offer) j).1 = Some session' ∧
    session_id session' = 5.
Proof.
  intros j.
  assert (Hrun : demo_run (RecordOffer 5 demo_offer) j =
    ((demo_run (RecordOffer 5 demo_offer) j).1, Ok true)) by (vm_compute; reflexivity).
  destruct (@commands_once_in_order demo_sha256 demo_uuid (RecordOffer 5 demo_offer) j
    (demo_run (RecordOffer 5 demo_offer) j).1 true (session_new demo_binding)) as (s' & Hs' & Hid & _).
  - apply demo_inv. vm_compute. reflexivity.
  - vm_compute. reflexivity.
  - discriminate.
  - exact Hrun.
  - exists s'. split; [exact Hs'|exact Hid].
Defined.

Definition demo_slot : SlotSnapshot :=
  default (slot_from_offer demo_offer) (head (slots (demo_journal demo_start))).

Definition demo_session : SessionSnapshot :=
  default (session_new demo_binding) (journal_session (demo_journal demo_start)).

(** A guard with an older token. *)
Definition demo_stale : LeaseGuard := MkLeaseGuard 100 (@MkBounded 1 FencingToken_MAX 2 I).

Lemma fenced_mutations_witness :
  let j := demo_journal demo_start in
  let op := OnSlot 5 demo_ordinal demo_stale (TransitionLifecycle Running) in
  demo_run op j = (j, Err (LeaseGuardMismatch demo_guard demo_stale)).
Proof.
  intros j op. refine (proj1 (proj2 (@fenced_mutations demo_sha256 demo_uuid op 5 demo_ordinal
    demo_stale j demo_session _ _ _)) demo_slot _ _ _ _).
  - apply demo_inv. vm_compute. reflexivity.
  - vm_compute. reflexivity.
  - reflexivity.
  - apply (list_elem_of_lookup_2 _ 0). vm_compute. reflexivity.
  - vm_compute. reflexivity.
  - vm_compute. reflexivity.
  - vm_compute. discriminate.
Defined.

Lemma provider_record_refines_sandbox_witness :
  let op := RecordSandboxCreated 701 demo_sandbox in
  ∃ p p', slot_phase demo_slot = Some p ∧ slot_phase (run_slot_op op demo_slot).1 = Some p' ∧
    (p' = p ∨ ∃ kind, confirms op demo_slot kind ∧ sandbox_step kind p p').
Proof.
  intros op.
  assert (Hrun : run_slot_op op demo_slot = ((run_slot_op op demo_slot).1, Ok true))
    by (vm_compute; reflexivity).
  destruct (@provider_record_refines_sandbox demo_sha256 demo_uuid 1 demo_session op demo_slot
    (run_slot_op op demo_slot).1 true) as (p & p' & Hp & Hp' & Hs & _).
  - apply (@ji_slot demo_sha256 demo_uuid (demo_journal demo_start)).
    + apply demo_inv. vm_compute. reflexivity.
    + vm_compute. reflexivity.
    + apply (list_elem_of_lookup_2 _ 0). vm_compute. reflexivity.
  - exact I.
  - exact Hrun.
  - exists p, p'. split; [exact Hp|]. split; [exact Hp'|exact Hs].
Defined.

