(* ===== verification/FileJournal.v ===== *)
(** * FileJournal: the journal's file, its commits and what a crash leaves

    Models [crates/automata-ci-runner-journal/src/file/mod.rs] (open, mutate,
    snapshot, orphan authorisation), [file/codec.rs] and the directory of
    [file/platform/unix.rs] (staging cleanup, reading, the atomic commit).

    The directory is what the operating system provides: [PosixDirectory] names
    the calls the adapter makes and [PosixLaws] the documented behaviour it
    relies on (a successful [fsync] makes data durable, a rename is atomic, a
    synced directory keeps its entries). [serde_json] is [Json], with the law
    that valid states survive printing and parsing. Every call leaves the
    directory it found in a trace, so the theorems speak of a crash at any
    point of a commit. *)

From stdpp Require Import pretty.
From S2P Require Import Prelude Text Execution Capability Log JournalBase ManagedSecret.
From S2P Require Import LogDelivery Saga Journal JournalInvariant JournalSession JournalSafety.
From S2P Require Import JournalReplay JournalTheorems.

(** ** Errors ([error.rs]) *)

Inductive CommitStage := StagingCreated | DataWritten | FileSynced | Renamed | DirectorySynced.

#[export] Instance commit_stage_eq_dec : EqDecision CommitStage.
Proof. solve_decision. Defined.

(** Operating-system error numbers; the adapter tells these three apart. *)
Abbreviation Errno := Z (only parsing).
Definition Errno_NOENT : Errno := 2.
Definition Errno_NOTDIR : Errno := 20.
Definition Errno_LOOP : Errno := 40.

Inductive OrphanAuthorityError := OrphanInvalidProof | OrphanDenied | OrphanUnavailable.

Inductive JournalError :=
| Invariant (error : JournalInvariantError)
| OrphanAuthority (error : OrphanAuthorityError)
| AlreadyLocked
| UnsupportedPlatform
| PathSecurity
| Oversized (maximum received : Z)
| UnsupportedSchema (supported received : Z)
| ObsoleteState
| Corrupt
| RunnerIdentityMismatch (expected received : RunnerId)
| CommitOutcomeUnknown
| Poisoned
| InjectedFault (stage : CommitStage)
| Io (operation : str) (source : Errno).

Record CommitFailure := MkCommitFailure {
  failure_error : JournalError;
  failure_renamed : bool;
}.

(** ** The operating system *)

(** The names the adapter tells apart: its two state files, the names that
    start with [STAGING_PREFIX], and the rest. *)
Inductive FileName :=
| StateFile
| ObsoleteStateFile
| StagingFile (suffix : str)
| OtherFile (name : str).

#[export] Instance file_name_eq_dec : EqDecision FileName.
Proof. solve_decision. Defined.

(** The calls that write. *)
Inductive DirCall :=
| CreateExclusive (name : FileName)
| SetMode (name : FileName)
| WriteAll (name : FileName) (bytes : list Z)
| SyncFile (name : FileName)
| Rename (source target : FileName)
| SyncDirectory
| Unlink (name : FileName).

Record FileStat := MkFileStat {
  stat_is_file : bool;
  stat_nlink : Z;
  stat_size : Z;
}.

Class PosixDirectory := {
  Dir : Type;
  call : DirCall → Dir → Dir * result Errno unit;
  open_read : FileName → Dir → result Errno unit;
  fstat : FileName → Dir → result Errno FileStat;
  read_up_to : Z → FileName → Dir → result Errno (list Z);
  scan : Dir → result Errno (list (result Errno FileName));
  (* what the name holds, what of it is on stable storage, what a crash may leave *)
  entry : Dir → FileName → option (list Z);
  stable : Dir → FileName → list Z → Prop;
  after_crash : Dir → FileName → option (list Z) → Prop;
}.

(** The name a call writes through, when it writes through one. *)
Definition writes (c : DirCall) : option FileName :=
  match c with
  | CreateExclusive n | SetMode n | WriteAll n _ | SyncFile n | Unlink n => Some n
  | Rename _ _ | SyncDirectory => None
  end.

Class PosixLaws (P : PosixDirectory) : Prop := {
  call_frame : ∀ c m n d, writes c = Some m → m ≠ n →
    entry (call c d).1 n = entry d n ∧ (∀ b, stable d n b → stable (call c d).1 n b) ∧
    ∀ x, after_crash (call c d).1 n x → after_crash d n x;
  create_Ok : ∀ n d d', call (CreateExclusive n) d = (d', Ok tt) → entry d' n = Some [];
  mode_frame : ∀ n m d, entry (call (SetMode n) d).1 m = entry d m ∧
    (∀ b, stable d m b → stable (call (SetMode n) d).1 m b) ∧
    ∀ x, after_crash (call (SetMode n) d).1 m x → after_crash d m x;
  write_Ok : ∀ n bytes d d', call (WriteAll n bytes) d = (d', Ok tt) → entry d n = Some [] →
    entry d' n = Some bytes;
  sync_Ok : ∀ n bytes d d', call (SyncFile n) d = (d', Ok tt) → entry d n = Some bytes →
    entry d' n = Some bytes ∧ stable d' n bytes;
  rename_Ok : ∀ a b bytes d d', call (Rename a b) d = (d', Ok tt) → entry d a = Some bytes →
    stable d a bytes →
    entry d' b = Some bytes ∧ stable d' b bytes ∧
    ∀ x, after_crash d' b x → after_crash d b x ∨ x = Some bytes;
  rename_Err : ∀ a b d d' e, call (Rename a b) d = (d', Err e) →
    entry d' b = entry d b ∧ (∀ bytes, stable d b bytes → stable d' b bytes) ∧
    ∀ x, after_crash d' b x → after_crash d b x;
  sync_directory_Ok : ∀ n bytes d d', call SyncDirectory d = (d', Ok tt) →
    entry d n = Some bytes → stable d n bytes →
    entry d' n = Some bytes ∧ stable d' n bytes ∧ ∀ x, after_crash d' n x → x = Some bytes;
  sync_directory_any : ∀ n d, entry (call SyncDirectory d).1 n = entry d n ∧
    (∀ bytes, stable d n bytes → stable (call SyncDirectory d).1 n bytes) ∧
    ∀ x, after_crash (call SyncDirectory d).1 n x → after_crash d n x;
  open_read_Ok : ∀ n d, open_read n d = Ok tt → entry d n ≠ None;
  open_read_NOENT : ∀ n d, open_read n d = Err Errno_NOENT → entry d n = None;
  fstat_Ok : ∀ n d s bytes, fstat n d = Ok s → entry d n = Some bytes →
    stat_size s = Z.of_nat (length bytes);
  read_Ok : ∀ limit n d bytes content, read_up_to limit n d = Ok bytes → entry d n = Some content →
    0 <= limit → bytes = take (Z.to_nat limit) content;
}.

(** ** [serde_json] *)

Class Json := {
  to_vec : StoredJournal → option (list Z);
  from_slice : list Z → option StoredJournal;
  probe_schema : list Z → option Z;
}.

Class JsonLaws {hasher : Sha256} {uuids : Uuid} (J : Json) : Prop := {
  json_roundtrip : ∀ state bytes, journal_validate state = Ok tt → to_vec state = Some bytes →
    from_slice bytes = Some state ∧ probe_schema bytes = Some (schema_version state);
}.

(** ** The codec ([codec.rs]) *)

Section Codec.
Context {hasher : Sha256} {uuids : Uuid} {J : Json}.

Definition encode (state : StoredJournal) : result JournalError (list Z) :=
  _ ← map_err Invariant (journal_validate state);
  bytes ← ok_or (to_vec state) Corrupt;
  if MAX_JOURNAL_BYTES <? Z.of_nat (length bytes) then
    Err (Oversized MAX_JOURNAL_BYTES (Z.min u64_max (Z.of_nat (length bytes))))
  else Ok bytes.

Definition decode (bytes : list Z) : result JournalError StoredJournal :=
  if MAX_JOURNAL_BYTES <? Z.of_nat (length bytes) then
    Err (Oversized MAX_JOURNAL_BYTES (Z.min u64_max (Z.of_nat (length bytes))))
  else
    probe ← ok_or (probe_schema bytes) Corrupt;
    if negb (probe =? RUNNER_JOURNAL_SCHEMA_VERSION) then
      Err (UnsupportedSchema RUNNER_JOURNAL_SCHEMA_VERSION probe)
    else
      state ← ok_or (from_slice bytes) Corrupt;
      _ ← map_err (λ _, Corrupt) (journal_validate state);
      canonical ← ok_or (to_vec state) Corrupt;
      if negb (bool_decide (canonical = bytes)) then Err Corrupt else Ok state.

End Codec.

(** ** The directory ([unix.rs]) *)

Section Directory.
Context {uuids : Uuid} {P : PosixDirectory}.

(** The directory with those it went through. *)
Record Trace := MkTrace { now : Dir; past : list Dir }.

Definition callM (c : DirCall) : stM Trace Errno unit :=
  λ t, let '(d, r) := call c (now t) in (MkTrace d (now t :: past t), r).

Definition with_error {E E' A : Type} (f : E → E') (m : stM Trace E A) : stM Trace E' A :=
  λ t, let '(t', r) := m t in (t', map_err f r).

Definition map_path_open (operation : str) (error : Errno) : JournalError :=
  if (error =? Errno_LOOP) || (error =? Errno_NOTDIR) then PathSecurity else Io operation error.

Definition ensure_regular_file (d : Dir) (name : FileName) : result JournalError unit :=
  stat ← map_err (Io (lit "inspect journal file")) (fstat name d);
  if stat_is_file stat && (stat_nlink stat =? 1) then Ok tt else Err PathSecurity.

(** Whether the injector interrupts a stage. *)
Abbreviation Faults := (CommitStage → bool) (only parsing).

Definition inject (faults : Faults) (stage : CommitStage) (renamed : bool) :
    result CommitFailure unit :=
  if faults stage then Err (MkCommitFailure (InjectedFault stage) renamed) else Ok tt.

Definition io_failure (operation : str) (renamed : bool) (error : Errno) : CommitFailure :=
  MkCommitFailure (Io operation error) renamed.

(** The first half of [commit]: the bytes are staged and synced. *)
Definition stage_bytes (staging : FileName) (bytes : list Z) (faults : Faults) :
    stM Trace CommitFailure unit :=
  with_error (λ error, MkCommitFailure (map_path_open (lit "create journal staging file") error) false)
    (callM (CreateExclusive staging));;
  t ← getM;
  liftM (map_err (λ error, MkCommitFailure error false) (ensure_regular_file (now t) staging));;
  with_error (io_failure (lit "set journal staging permissions") false) (callM (SetMode staging));;
  liftM (inject faults StagingCreated false);;
  with_error (io_failure (lit "write journal staging file") false)
    (callM (WriteAll staging bytes));;
  liftM (inject faults DataWritten false);;
  with_error (io_failure (lit "sync journal staging file") false) (callM (SyncFile staging));;
  liftM (inject faults FileSynced false).

(** The second half: the staged file replaces the published one. *)
Definition publish (staging : FileName) (faults : Faults) : stM Trace CommitFailure unit :=
  with_error (io_failure (lit "atomically replace runner journal") false)
    (callM (Rename staging StateFile));;
  liftM (inject faults Renamed true);;
  with_error (io_failure (lit "sync state-root directory") true) (callM SyncDirectory);;
  liftM (inject faults DirectorySynced true).

(** [format!(".runner-journal.stage-{revision}-{}", OperationId::new())]. *)
Definition staging_name (revision : Z) (id : OperationId) : FileName :=
  StagingFile (lit (pretty (Z.to_N revision)) ++ lit "-" ++ uuid_hyphenated id).

Definition commit (revision : Z) (bytes : list Z) (faults : Faults) (id : OperationId) :
    stM Trace CommitFailure unit :=
  let staging := staging_name revision id in
  stage_bytes staging bytes faults;;
  publish staging faults.

(** The scanned entries removed, and whether there were any. *)
Fixpoint unlink_staging (l : list (result Errno FileName)) : stM Trace JournalError bool :=
  match l with
  | [] => mret false
  | Err error :: _ => liftM (Err (Io (lit "read journal staging entry") error))
  | Ok (StagingFile suffix) :: rest =>
      removed ← (λ t, let '(t', r) := callM (Unlink (StagingFile suffix)) t in
                      (t', match r with
                           | Ok _ => Ok true
                           | Err error =>
                               if error =? Errno_NOENT then Ok true
                               else Err (Io (lit "remove abandoned journal staging file") error)
                           end));
      more ← unlink_staging rest;
      mret (removed || more)
  | Ok _ :: rest => unlink_staging rest
  end.

Definition cleanup_staging : stM Trace JournalError unit :=
  t ← getM;
  names ← liftM (map_err (Io (lit "scan journal staging files")) (scan (now t)));
  removed ← unlink_staging names;
  if (removed : bool) then
    with_error (Io (lit "sync state root after recovery")) (callM SyncDirectory)
  else mret tt.

Definition open_state_file (d : Dir) (name : FileName) : result JournalError bool :=
  match open_read name d with
  | Ok _ => Ok true
  | Err error =>
      if error =? Errno_NOENT then Ok false
      else Err (map_path_open (lit "open runner journal") error)
  end.

Definition read_state : stM Trace JournalError (option (list Z)) :=
  t ← getM;
  obsolete ← liftM (open_state_file (now t) ObsoleteStateFile);
  if (obsolete : bool) then liftM (Err ObsoleteState)
  else
    present ← liftM (open_state_file (now t) StateFile);
    if negb present then mret None
    else
      liftM (ensure_regular_file (now t) StateFile);;
      with_error (Io (lit "set journal permissions")) (callM (SetMode StateFile));;
      t ← getM;
      stat ← liftM (map_err (Io (lit "inspect runner journal")) (fstat StateFile (now t)));
      if MAX_JOURNAL_BYTES <? stat_size stat then
        liftM (Err (Oversized MAX_JOURNAL_BYTES (stat_size stat)))
      else
        bytes ← liftM (map_err (Io (lit "read runner journal"))
                         (read_up_to (MAX_JOURNAL_BYTES + 1) StateFile (now t)));
        if MAX_JOURNAL_BYTES <? Z.of_nat (length bytes) then
          liftM (Err (Oversized MAX_JOURNAL_BYTES (Z.min u64_max (Z.of_nat (length bytes)))))
        else mret (Some bytes).

End Directory.

(** ** The adapter ([file/mod.rs]) *)

Inductive JournalMutationOutcome :=
| Committed | Noop | Rejected | IoError | UncertainOutcome | PoisonedOutcome.

Record JournalSnapshot := MkSnapshot {
  snapshot_revision : Z;
  snapshot_runner_id : RunnerId;
  snapshot_session : option SessionSnapshot;
  snapshot_slots : list SlotSnapshot;
}.

Definition snapshot_of (self : StoredJournal) : JournalSnapshot :=
  MkSnapshot (revision self) (journal_runner_id self) (journal_session self) (slots self).

Section Adapter.
Context {hasher : Sha256} {uuids : Uuid} {J : Json} {P : PosixDirectory}.

Record FileJournal := MkFileJournal {
  directory : Trace;
  memory : StoredJournal;
  poisoned : bool;
  lock_poisoned : bool;
  fault_injector : CommitStage → bool;
}.

Definition set_directory (t : Trace) (self : FileJournal) : FileJournal :=
  MkFileJournal t (memory self) (poisoned self) (lock_poisoned self) (fault_injector self).

(** [self.memory.lock()] and the poison flag. *)
Definition lock_memory (self : FileJournal) : result JournalError StoredJournal :=
  if lock_poisoned self then Err Poisoned
  else if poisoned self then Err Poisoned
  else Ok (memory self).

Definition snapshot (self : FileJournal) : result JournalError JournalSnapshot :=
  state ← lock_memory self;
  Ok (snapshot_of state).

(** The outcome that is observed for a result that is neither a commit nor a
    repetition. *)
Definition failure_outcome (error : JournalError) : JournalMutationOutcome :=
  match error with
  | Invariant _ | Oversized _ _ | Corrupt => Rejected
  | CommitOutcomeUnknown => UncertainOutcome
  | Poisoned => PoisonedOutcome
  | _ => IoError
  end.

(** [mutate]: the adapter after it, the result and the observed outcome. [id]
    is the fresh operation identity of the staging file's name. *)
Definition mutate (mutation : stM StoredJournal JournalInvariantError bool) (id : OperationId)
    (self : FileJournal) :
    FileJournal * result JournalError JournalSnapshot * JournalMutationOutcome :=
  match lock_memory self with
  | Err e => (self, Err e, failure_outcome e)
  | Ok state =>
      match mutation state with
      | (_, Err e) => (self, Err (Invariant e), failure_outcome (Invariant e))
      | (_, Ok false) => (self, Ok (snapshot_of state), Noop)
      | (candidate, Ok true) =>
          match increment_revision candidate with
          | (_, Err e) => (self, Err (Invariant e), failure_outcome (Invariant e))
          | (candidate, Ok _) =>
              match encode candidate with
              | Err e => (self, Err e, failure_outcome e)
              | Ok bytes =>
                  match commit (revision candidate) bytes (fault_injector self) id
                          (directory self) with
                  | (t, Ok _) =>
                      (MkFileJournal t candidate (poisoned self) (lock_poisoned self)
                         (fault_injector self), Ok (snapshot_of candidate), Committed)
                  | (t, Err failure) =>
                      if failure_renamed failure then
                        (MkFileJournal t (memory self) true (lock_poisoned self)
                           (fault_injector self),
                         Err CommitOutcomeUnknown, failure_outcome CommitOutcomeUnknown)
                      else
                        (set_directory t self, Err (failure_error failure),
                         failure_outcome (failure_error failure))
                  end
              end
          end
      end
  end.

(** The mutations of the [RunnerJournal] interface. *)
Definition file_mutate (op : journal_op) : OperationId → FileJournal →
    FileJournal * result JournalError JournalSnapshot * JournalMutationOutcome :=
  mutate (run_journal_op op).

(** [authorize_orphan]: the claim is read, the authority verifies the proof
    against it, and the grant is recorded. *)
Definition file_authorize_orphan (sid : RunnerSessionId) (slot : RunnerSlotOrdinal)
    (guard : LeaseGuard) (verify : OrphanClaim → result OrphanAuthorityError OrphanAuthorityGrant)
    (id : OperationId) (self : FileJournal) :
    FileJournal * result JournalError JournalSnapshot :=
  let granted :=
    state ← lock_memory self;
    claim ← map_err Invariant (orphan_claim state sid slot guard);
    map_err OrphanAuthority (verify claim) in
  match granted with
  | Err e => (self, Err e)
  | Ok grant => (mutate (authorize_orphan grant) id self).1
  end.

(** [open_with_options] on an opened and locked directory. *)
Definition open_journal (runner_id : RunnerId) (faults : CommitStage → bool) (id : OperationId) :
    stM Trace JournalError FileJournal :=
  cleanup_staging;;
  found ← read_state;
  state ←
    match found with
    | Some bytes =>
        state ← liftM (decode bytes);
        if negb (journal_runner_id state =? runner_id) then
          liftM (Err (RunnerIdentityMismatch (journal_runner_id state) runner_id))
        else mret state
    | None =>
        let state := journal_new runner_id in
        encoded ← liftM (encode state);
        with_error
          (λ failure, if failure_renamed failure then CommitOutcomeUnknown
                      else failure_error failure)
          (commit (revision state) encoded faults id);;
        mret state
    end;
  t ← getM;
  mret (MkFileJournal t state false false faults).

End Adapter.

(** ** One commit *)

Section Commit.
Context {uuids : Uuid} {P : PosixDirectory} {PL : PosixLaws P}.

(** The state file holds [content] and a crash leaves it so. *)
Definition settled (d : Dir) (content : option (list Z)) : Prop :=
  entry d StateFile = content ∧ (∀ bytes, content = Some bytes → stable d StateFile bytes) ∧
  ∀ x, after_crash d StateFile x → x = content.

(** A crash leaves the one or the other. *)
Definition between (d : Dir) (old new : option (list Z)) : Prop :=
  ∀ x, after_crash d StateFile x → x = old ∨ x = new.

(** Every directory since [t] satisfies [Q]. *)
Definition throughout (Q : Dir → Prop) (t t' : Trace) : Prop :=
  ∃ pre, past t' = pre ++ past t ∧ Q (now t') ∧ ∀ d, d ∈ pre → Q d.

Lemma settled_between (d : Dir) (old new : option (list Z)) : settled d old → between d old new.
Proof. intros (_ & _ & H) x Hx. left. eauto. Qed.

Lemma settled_staging (c : DirCall) (d : Dir) (content : option (list Z)) (m : FileName) :
  writes c = Some m → m ≠ StateFile → settled d content → settled (call c d).1 content.
Proof.
  intros Hw Hm (He & Hs & Hc). destruct (call_frame c m StateFile d Hw Hm) as (He' & Hs' & Hc').
  split_and!; [congruence|eauto..].
Qed.

Lemma throughout_call (Q : Dir → Prop) (c : DirCall) (t t1 t' : Trace) (r : result Errno unit) :
  callM c t1 = (t', r) → throughout Q t t1 → Q (call c (now t1)).1 → throughout Q t t'.
Proof.
  unfold callM. destruct (call c (now t1)) as [d r'] eqn:E. intros [= <- _] (pre & Hp & Hq & Hpre) Hd.
  exists (now t1 :: pre). simpl in *. rewrite Hp. split_and!; try done.
  intros x [->|Hx]%elem_of_cons; eauto.
Qed.

Lemma throughout_refl (Q : Dir → Prop) (t : Trace) : Q (now t) → throughout Q t t.
Proof. intros H. exists []. split_and!; [done..|set_solver]. Qed.

(** What a commit of [bytes] over [old] may leave. *)
Definition commit_result (old : option (list Z)) (bytes : list Z) (t t' : Trace)
    (r : result CommitFailure unit) : Prop :=
  throughout (λ d, between d old (Some bytes)) t t' ∧
  match r with
  | Ok _ => settled (now t') (Some bytes)
  | Err failure => failure_renamed failure = false → settled (now t') old
  end.

(** The bytes that follow a call before the rename keep [old] settled. *)
Lemma before_rename (old : option (list Z)) (bytes : list Z) (c : DirCall) (m : FileName)
    (t t1 t2 : Trace) (r : result Errno unit) :
  callM c t1 = (t2, r) → writes c = Some m → m ≠ StateFile →
  settled (now t1) old → throughout (λ d, between d old (Some bytes)) t t1 →
  settled (now t2) old ∧ throughout (λ d, between d old (Some bytes)) t t2 ∧
  (now t2, r) = call c (now t1).
Proof.
  intros Hc Hw Hm Hs Ht.
  assert (Hn : (now t2, r) = call c (now t1)).
  { unfold callM in Hc. destruct (call c (now t1)) as [d r']. by injection Hc as <- <-. }
  pose proof (settled_staging c (now t1) old m Hw Hm Hs) as Hs'. rewrite <- Hn in Hs'. simpl in Hs'.
  split; [done|]. split; [|done]. eapply throughout_call; [done..|]. rewrite <- Hn. simpl.
  by apply settled_between.
Qed.

Lemma callM_now (c : DirCall) (t t' : Trace) (r : result Errno unit) :
  callM c t = (t', r) → call c (now t) = (now t', r).
Proof. unfold callM. destruct (call c (now t)). by intros [= <- <-]. Qed.

(** The state file is not touched until the bytes are on stable storage. *)
Lemma stage_bytes_spec (n : FileName) (bytes : list Z) (faults : CommitStage → bool)
    (old : option (list Z)) (t t' : Trace) (r : result CommitFailure unit) :
  n ≠ StateFile → settled (now t) old → stage_bytes n bytes faults t = (t', r) →
  settled (now t') old ∧ throughout (λ d, between d old (Some bytes)) t t' ∧
  match r with
  | Ok _ => entry (now t') n = Some bytes ∧ stable (now t') n bytes
  | Err failure => failure_renamed failure = false
  end.
Proof.
  intros Hn Hs0 H. unfold stage_bytes, with_error, inject in H.
  pose proof (throughout_refl (λ d, between d old (Some bytes)) t
    (settled_between _ _ (Some bytes) Hs0)) as Ht0.
  unfold_monad.
  destruct (callM (CreateExclusive n) t) as [t1 r1] eqn:H1.
  destruct (before_rename old bytes _ n _ _ _ _ H1 eq_refl Hn Hs0 Ht0) as (Hs1 & Ht1 & E1).
  destruct r1 as [[]|e]; [|by injection H as <- <-]. symmetry in E1. apply create_Ok in E1.
  destruct (ensure_regular_file (now t1) n) as [[]|]; [|by injection H as <- <-].
  destruct (callM (SetMode n) t1) as [t2 r2] eqn:H2.
  destruct (before_rename old bytes _ n _ _ _ _ H2 eq_refl Hn Hs1 Ht1) as (Hs2 & Ht2 & E2).
  destruct r2 as [[]|e]; [|by injection H as <- <-].
  assert (E2' : entry (now t2) n = Some []) 
    by (rewrite <- E1, <- (proj1 (mode_frame n n (now t1))), <- E2; done).
  destruct (faults StagingCreated); [by injection H as <- <-|].
  destruct (callM (WriteAll n bytes) t2) as [t3 r3] eqn:H3.
  destruct (before_rename old bytes _ n _ _ _ _ H3 eq_refl Hn Hs2 Ht2) as (Hs3 & Ht3 & E3).
  destruct r3 as [[]|e]; [|by injection H as <- <-].
  symmetry in E3. apply write_Ok in E3; [|done].
  destruct (faults DataWritten); [by injection H as <- <-|].
  destruct (callM (SyncFile n) t3) as [t4 r4] eqn:H4.
  destruct (before_rename old bytes _ n _ _ _ _ H4 eq_refl Hn Hs3 Ht3) as (Hs4 & Ht4 & E4).
  destruct r4 as [[]|e]; [|by injection H as <- <-].
  symmetry in E4. apply (sync_Ok n bytes) in E4; [|done].
  destruct (faults FileSynced); by injection H as <- <-.
Qed.

Lemma publish_spec (n : FileName) (bytes : list Z) (faults : CommitStage → bool)
    (old : option (list Z)) (t0 t t' : Trace) (r : result CommitFailure unit) :
  settled (now t) old → throughout (λ d, between d old (Some bytes)) t0 t →
  entry (now t) n = Some bytes → stable (now t) n bytes → publish n faults t = (t', r) →
  commit_result old bytes t0 t' r.
Proof.
  intros (He & Hst & Hc) Ht En Sn H. unfold publish, with_error, inject in H. unfold_monad.
  destruct (callM (Rename n StateFile) t) as [t5 r5] eqn:H5.
  pose proof (callM_now _ _ _ _ H5) as E5. destruct r5 as [[]|e].
  2: { injection H as <- <-. destruct (rename_Err _ _ _ _ _ E5) as (He' & Hst' & Hc').
       assert (Hs5 : settled (now t5) old) by (split_and!; [congruence|eauto..]).
       split; [|done]. eapply throughout_call; [done..|]. rewrite E5. by apply settled_between. }
  destruct (rename_Ok _ _ bytes _ _ E5 En Sn) as (He5 & Hst5 & Hc5).
  assert (Ht5 : throughout (λ d, between d old (Some bytes)) t0 t5).
  { eapply throughout_call; [done..|]. rewrite E5. intros x [Hx|Hx]%Hc5; [left; eauto|by right]. }
  destruct (faults Renamed); [injection H as <- <-; by split|].
  destruct (callM SyncDirectory t5) as [t6 r6] eqn:H6.
  pose proof (callM_now _ _ _ _ H6) as E6.
  assert (Ht6 : throughout (λ d, between d old (Some bytes)) t0 t6).
  { eapply throughout_call; [done..|].
    destruct (sync_directory_any StateFile (now t5)) as (_ & _ & Hc6). rewrite E6 in *.
    destruct Ht5 as (_ & _ & Hb5 & _). intros x Hx. eauto. }
  destruct r6 as [[]|e]; [|injection H as <- <-; by split].
  apply (sync_directory_Ok StateFile bytes) in E6 as (He6 & Hst6 & Hc6); [|done..].
  destruct (faults DirectorySynced); injection H as <- <-; split; try done.
  split_and!; [done| |done]. by intros ? [= <-].
Qed.

Lemma commit_spec (revision_ : Z) (bytes : list Z) (faults : CommitStage → bool)
    (id : OperationId) (old : option (list Z)) (t t' : Trace) (r : result CommitFailure unit) :
  settled (now t) old → commit revision_ bytes faults id t = (t', r) →
  commit_result old bytes t t' r.
Proof.
  intros Hs H. unfold commit in H. unfold_monad.
  destruct (stage_bytes _ bytes faults t) as [t1 r1] eqn:H1.
  destruct (stage_bytes_spec (staging_name revision_ id) bytes faults old t t1 r1)
    as (Hs1 & Ht1 & Hr1); [done..|].
  destruct r1 as [[]|failure]; [|by injection H as <- <-; split].
  destruct Hr1 as [En Sn]. by eapply publish_spec.
Qed.

End Commit.

(** ** The file and the memory *)

Section FileTheorems.
Context {hasher : Sha256} {uuids : Uuid} {J : Json} {JL : JsonLaws J}.
Context {P : PosixDirectory} {PL : PosixLaws P}.
Implicit Types (state : StoredJournal) (fj : FileJournal).

Lemma encode_Ok state (bytes : list Z) :
  encode state = Ok bytes ↔
  journal_validate state = Ok tt ∧ to_vec state = Some bytes ∧
  Z.of_nat (length bytes) <= MAX_JOURNAL_BYTES.
Proof.
  unfold encode. unfold_monad. destruct (journal_validate state) as [[]|]; [|naive_solver].
  destruct (to_vec state) as [b|]; [|naive_solver].
  destruct (Z.ltb_spec MAX_JOURNAL_BYTES (Z.of_nat (length b))); [|naive_solver].
  split; [done|]. intros (_ & [= ->] & ?). lia.
Qed.

Lemma decode_encode state (bytes : list Z) : encode state = Ok bytes → decode bytes = Ok state.
Proof.
  intros (Hv & Hb & Hlen)%encode_Ok. destruct (json_roundtrip _ _ Hv Hb) as [Hf Hp].
  unfold decode. destruct (Z.ltb_spec MAX_JOURNAL_BYTES (Z.of_nat (length bytes))); [lia|].
  unfold_monad. rewrite Hp.
  assert (Hs : schema_version state = RUNNER_JOURNAL_SCHEMA_VERSION).
  { by apply journal_validate_iff in Hv as [? _]. }
  rewrite Hs, Z.eqb_refl. simpl. rewrite Hf, Hv, Hb. by rewrite bool_decide_eq_true_2.
Qed.

Lemma decode_Ok state (bytes : list Z) : decode bytes = Ok state → encode state = Ok bytes.
Proof.
  unfold decode. destruct (Z.ltb_spec MAX_JOURNAL_BYTES (Z.of_nat (length bytes))); [done|].
  unfold_monad. intros H'. destruct (probe_schema bytes) as [n|]; [|done].
  destruct (negb _); [done|]. destruct (from_slice bytes) as [s|]; [|done].
  destruct (journal_validate s) as [[]|] eqn:Hv; [|done]. destruct (to_vec s) as [b|] eqn:Hb; [|done].
  destruct (negb (bool_decide (b = bytes))) eqn:Heq; [done|]. injection H' as <-. bool_facts. subst b.
  by apply encode_Ok.
Qed.

(** The journal's file format is exact. The bytes that the adapter writes
    for a state decode to that state, and bytes that decode to a state are the
    ones it would write for it: every valid state of admissible size has one
    encoding, and nothing else opens. *)
Lemma file_format_exact state (bytes : list Z) :
  decode bytes = Ok state ↔
  journal_validate state = Ok tt ∧ to_vec state = Some bytes ∧
  Z.of_nat (length bytes) <= MAX_JOURNAL_BYTES.
Proof.
  rewrite <- encode_Ok. split; [apply decode_Ok|apply decode_encode].
Qed.

(** What holds of an open adapter: its memory is valid and, unless a commit is
    in doubt, the file holds it and a crash leaves it. *)
Record file_inv fj : Prop := {
  fi_memory : journal_inv (memory fj);
  fi_bytes : ∃ bytes, encode (memory fj) = Ok bytes ∧
    (poisoned fj = false → settled (now (directory fj)) (Some bytes));
}.

(** A candidate that the mutation made and the checks let through. *)
Lemma candidate_accepted (op : journal_op) state (candidate next : StoredJournal)
    (bytes : list Z) :
  run_journal_op op state = (candidate, Ok true) → increment_revision candidate = (next, Ok tt) →
  encode next = Ok bytes → accept op state = Some next.
Proof.
  intros Hr Hi (Hv & _)%encode_Ok. unfold accept. by rewrite Hr, Hi, Hv.
Qed.

(** The directory of a crash holds a state that decodes. *)
Definition recoverable (d : Dir) (allowed : StoredJournal → Prop) : Prop :=
  ∀ x, after_crash d StateFile x → ∃ bytes state,
    x = Some bytes ∧ decode bytes = Ok state ∧ allowed state.

Lemma settled_recoverable (d : Dir) (bytes : list Z) state (allowed : StoredJournal → Prop) :
  settled d (Some bytes) → encode state = Ok bytes → allowed state → recoverable d allowed.
Proof.
  intros (_ & _ & Hc) He Ha x Hx. exists bytes, state.
  split_and!; [eauto|by apply decode_encode|done].
Qed.

(** What a mutation of an adapter that is not poisoned does to its memory and
    its file. *)
Definition mutation_effect (op : journal_op) fj fj' (r : result JournalError JournalSnapshot) :
    Prop :=
  (∃ pre, past (directory fj') = pre ++ past (directory fj) ∧
   ∀ d, d ∈ now (directory fj') :: pre →
     recoverable d (λ s, s = memory fj ∨ accept op (memory fj) = Some s)) ∧
  lock_poisoned fj' = false ∧
  match r with
  | Ok shown => shown = snapshot_of (memory fj') ∧ poisoned fj' = false ∧
      (memory fj' = memory fj ∨ accept op (memory fj) = Some (memory fj'))
  | Err e => memory fj' = memory fj ∧ (poisoned fj' = true → e = CommitOutcomeUnknown)
  end ∧
  (poisoned fj' = false → ∃ bytes, encode (memory fj') = Ok bytes ∧
     settled (now (directory fj')) (Some bytes)).

Lemma file_unchanged_effect (op : journal_op) fj (r : result JournalError JournalSnapshot) :
  file_inv fj → poisoned fj = false → lock_poisoned fj = false →
  match r with Ok shown => shown = snapshot_of (memory fj) | Err _ => True end →
  mutation_effect op fj fj r.
Proof.
  intros [Hinv (old & Hold & Hset)] Hp Hl Hr. specialize (Hset Hp). split_and!; [|done| |eauto].
  - exists []. split; [done|]. intros d ->%list_elem_of_singleton.
    eapply settled_recoverable; [done..|by left].
  - destruct r; [by auto|]. by rewrite Hp.
Qed.

Lemma file_mutate_spec (op : journal_op) (id : OperationId) fj fj'
    (r : result JournalError JournalSnapshot) (outcome : JournalMutationOutcome) :
  file_inv fj → poisoned fj = false → lock_poisoned fj = false →
  file_mutate op id fj = (fj', r, outcome) → mutation_effect op fj fj' r.
Proof.
  intros Hf Hp Hl H.
  pose proof (λ r, file_unchanged_effect op fj r Hf Hp Hl) as Hunchanged.
  destruct Hf as [Hinv (old & Hold & Hset)]. specialize (Hset Hp).
  unfold file_mutate, mutate, lock_memory in H. rewrite Hl, Hp in H.
  destruct (run_journal_op op (memory fj)) as [candidate [[]|e]] eqn:Hrun;
    [|injection H as <- <- <-; by apply Hunchanged..].
  destruct (increment_revision candidate) as [next [[]|e]] eqn:Hincr;
    [|injection H as <- <- <-; by apply Hunchanged].
  destruct (encode next) as [bytes|e] eqn:Henc; [|injection H as <- <- <-; by apply Hunchanged].
  pose proof (candidate_accepted _ _ _ _ _ Hrun Hincr Henc) as Hacc.
  destruct (commit _ bytes _ id _) as [t rc] eqn:Hc.
  destruct (commit_spec _ _ _ _ _ _ _ _ Hset Hc) as [(pre & Hpast & Hnow & Hpre) Hrc].
  assert (Hboth : ∀ d, between d (Some old) (Some bytes) →
    recoverable d (λ s, s = memory fj ∨ accept op (memory fj) = Some s)).
  { intros d Hb x [->| ->]%Hb; [exists old, (memory fj)|exists bytes, next];
      (split_and!; [done|by apply decode_encode|by auto]). }
  assert (Hall : ∃ pre, past t = pre ++ past (directory fj) ∧ ∀ d, d ∈ now t :: pre →
      recoverable d (λ s, s = memory fj ∨ accept op (memory fj) = Some s)).
  { exists pre. split; [done|]. intros d [->|Hd]%elem_of_cons; eauto. }
  destruct rc as [[]|failure].
  - injection H as <- <- <-. simpl. split_and!; eauto.
  - destruct (failure_renamed failure) eqn:Hren; injection H as <- <- <-; simpl.
    + by split_and!.
    + unfold mutation_effect. simpl. rewrite Hp. split_and!; try done; eauto.
Qed.

(** C2: a mutation of the file is atomic across crashes. Whatever calls fail
    and wherever the commit is interrupted, a crash in any directory it goes
    through leaves bytes that decode to the state before or to the accepted
    state after. When the mutation succeeds, the new state is what a crash
    leaves; when it fails before publication, the old one is, and memory is
    unchanged; when its outcome is unknown the adapter is poisoned and every
    later call is refused. *)
Theorem mutations_are_atomic (op : journal_op) (id : OperationId) fj fj'
    (r : result JournalError JournalSnapshot) (outcome : JournalMutationOutcome) :
  file_inv fj → poisoned fj = false → lock_poisoned fj = false →
  file_mutate op id fj = (fj', r, outcome) →
  (∃ pre, past (directory fj') = pre ++ past (directory fj) ∧
   ∀ d, d ∈ now (directory fj') :: pre →
     recoverable d (λ s, s = memory fj ∨ accept op (memory fj) = Some s)) ∧
  match r with
  | Ok shown => shown = snapshot_of (memory fj') ∧ poisoned fj' = false ∧
      recoverable (now (directory fj')) (λ s, s = memory fj') ∧
      (memory fj' = memory fj ∨ accept op (memory fj) = Some (memory fj'))
  | Err e => memory fj' = memory fj ∧
      if poisoned fj' then
        e = CommitOutcomeUnknown ∧ snapshot fj' = Err Poisoned ∧
        ∀ op id, file_mutate op id fj' = (fj', Err Poisoned, PoisonedOutcome)
      else recoverable (now (directory fj')) (λ s, s = memory fj)
  end.
Proof.
  intros Hf Hp Hl H. destruct (file_mutate_spec _ _ _ _ _ _ Hf Hp Hl H) as (Hall & Hl' & Hr & Hs).
  split; [done|]. destruct r as [shown|e].
  - destruct Hr as (Hshown & Hp' & Hm). split_and!; try done.
    destruct (Hs Hp') as (bytes & He & Hset). by eapply settled_recoverable.
  - destruct Hr as [Hm He]. split; [done|]. destruct (poisoned fj') eqn:Hp'.
    + split; [by apply He|]. unfold file_mutate, mutate, snapshot, lock_memory.
      by rewrite Hl', Hp'.
    + destruct (Hs eq_refl) as (bytes & Hb & Hset). rewrite Hm in Hb.
      by eapply settled_recoverable.
Qed.

(** ** Reopening *)

(** What may stop an opening of a file that holds a state. *)
Definition os_failure (e : JournalError) : Prop :=
  match e with Io _ _ | PathSecurity | ObsoleteState => True | _ => False end.

Lemma settled_call (c : DirCall) (t t' : Trace) (content : option (list Z)) (m : FileName)
    (r : result Errno unit) :
  callM c t = (t', r) → writes c = Some m → m ≠ StateFile → settled (now t) content →
  settled (now t') content.
Proof.
  intros Hc Hw Hm Hs. apply callM_now in Hc.
  pose proof (settled_staging c (now t) content m Hw Hm Hs) as H. by rewrite Hc in H.
Qed.

Lemma settled_sync_directory (t t' : Trace) (content : option (list Z)) (r : result Errno unit) :
  callM SyncDirectory t = (t', r) → settled (now t) content → settled (now t') content.
Proof.
  intros Hc%callM_now (He & Hs & Hx).
  destruct (sync_directory_any StateFile (now t)) as (He' & Hs' & Hx').
  rewrite Hc in He', Hs', Hx'. simpl in *. split_and!; [congruence|eauto..].
Qed.

Lemma unlink_staging_spec (l : list (result Errno FileName)) (t t' : Trace) (content : option (list Z))
    (r : result JournalError bool) :
  unlink_staging l t = (t', r) → settled (now t) content →
  settled (now t') content ∧ match r with Ok _ => True | Err e => os_failure e end.
Proof.
  revert t t' r. induction l as [|n l IH]; intros t t' r; [by intros [= <- <-]|].
  destruct n as [[| |suffix|]|e]; simpl; try apply IH; intros H Hs; unfold_monad;
    [|by injection H as <- <-].
  destruct (callM (Unlink _) t) as [t1 r1] eqn:H1.
  pose proof (settled_call _ _ _ _ _ _ H1 eq_refl ltac:(done) Hs) as Hs1.
  assert (Hgo : ∀ b, (let (s', r0) := unlink_staging l t1 in
      match r0 with Ok a => (s', Ok (b || a)) | Err e => (s', Err e) end) = (t', r) →
    settled (now t') content ∧ match r with Ok _ => True | Err e => os_failure e end).
  { intros b Hb. destruct (unlink_staging l t1) as [t2 r2] eqn:H2.
    destruct (IH _ _ _ H2 Hs1) as [Hs2 Hr2]. by destruct r2; injection Hb as <- <-. }
  destruct r1 as [[]|e]; [by eapply (Hgo true)|].
  destruct (e =? Errno_NOENT); [by eapply (Hgo true)|]. by injection H as <- <-.
Qed.

Lemma cleanup_staging_spec (t t' : Trace) (content : option (list Z))
    (r : result JournalError unit) :
  cleanup_staging t = (t', r) → settled (now t) content →
  settled (now t') content ∧ match r with Ok _ => True | Err e => os_failure e end.
Proof.
  intros H Hs. unfold cleanup_staging, with_error in H. unfold_monad.
  destruct (scan (now t)) as [names|e]; [|by injection H as <- <-].
  destruct (unlink_staging names t) as [t1 r1] eqn:H1.
  destruct (unlink_staging_spec _ _ _ content _ H1 Hs) as [Hs1 Hr1].
  destruct r1 as [[]|e]; [|by injection H as <- <-..].
  destruct (callM SyncDirectory t1) as [t2 r2] eqn:H2.
  pose proof (settled_sync_directory _ _ _ _ H2 Hs1) as Hs2.
  destruct r2; by injection H as <- <-.
Qed.

(** The file's own bytes are read, unless a call fails. *)
Lemma read_state_spec (t t' : Trace) (bytes : list Z)
    (r : result JournalError (option (list Z))) :
  read_state t = (t', r) → settled (now t) (Some bytes) →
  Z.of_nat (length bytes) <= MAX_JOURNAL_BYTES →
  match r with
  | Ok found => found = Some bytes ∧ settled (now t') (Some bytes)
  | Err e => os_failure e
  end.
Proof.
  intros H (He & Hst & Hx) Hlen. unfold read_state, with_error, open_state_file, map_path_open in H.
  unfold_monad.
  destruct (open_read ObsoleteStateFile (now t)) as [[]|e]; [by injection H as <- <-|].
  destruct (e =? Errno_NOENT); [|injection H as <- <-; by destruct (_ || _)].
  destruct (open_read StateFile (now t)) as [[]|e'] eqn:Ho.
  2: { destruct (Z.eqb_spec e' Errno_NOENT) as [->|].
       - apply open_read_NOENT in Ho. congruence.
       - injection H as <- <-. by destruct (_ || _). }
  simpl in H. unfold ensure_regular_file in H. unfold_monad.
  destruct (fstat StateFile (now t)) as [st|e2]; [|by injection H as <- <-].
  destruct (stat_is_file st && _); [|by injection H as <- <-].
  destruct (callM (SetMode StateFile) t) as [t1 r1] eqn:H1.
  pose proof (callM_now _ _ _ _ H1) as E1.
  destruct (mode_frame StateFile StateFile (now t)) as (He1 & Hst1 & Hx1).
  rewrite E1 in He1, Hst1, Hx1. simpl in He1, Hst1, Hx1. rewrite He in He1.
  assert (Hs1 : settled (now t1) (Some bytes)) by (split_and!; eauto).
  destruct r1 as [[]|e3]; [|by injection H as <- <-].
  destruct (fstat StateFile (now t1)) as [st1|e4] eqn:Hstat; [|by injection H as <- <-].
  apply (fstat_Ok _ _ _ bytes) in Hstat; [|done].
  destruct (Z.ltb_spec MAX_JOURNAL_BYTES (stat_size st1)); [lia|].
  destruct (read_up_to _ StateFile (now t1)) as [content|e5] eqn:Hr; [|by injection H as <- <-].
  apply (read_Ok _ _ _ _ bytes) in Hr; [|done|by vm_compute].
  rewrite take_ge in Hr by lia. subst content.
  destruct (Z.ltb_spec MAX_JOURNAL_BYTES (Z.of_nat (length bytes))); [lia|].
  by injection H as <- <-.
Qed.

(** Opening a file that holds a state. *)
Lemma opening_spec (runner_id : RunnerId) (faults : CommitStage → bool) (id : OperationId)
    (t t' : Trace) (bytes : list Z) state (r : result JournalError FileJournal) :
  settled (now t) (Some bytes) → decode bytes = Ok state →
  open_journal runner_id faults id t = (t', r) →
  match r with
  | Ok fj => journal_runner_id state = runner_id ∧ memory fj = state ∧ poisoned fj = false ∧
      lock_poisoned fj = false ∧ settled (now (directory fj)) (Some bytes)
  | Err (RunnerIdentityMismatch expected received) =>
      expected = journal_runner_id state ∧ received = runner_id ∧ expected ≠ received
  | Err e => os_failure e
  end.
Proof.
  intros Hs Hd H. pose proof Hd as (_ & _ & Hlen)%decode_Ok%encode_Ok.
  unfold open_journal in H. unfold_monad.
  destruct (cleanup_staging t) as [t1 r1] eqn:H1.
  destruct (cleanup_staging_spec _ _ _ _ H1 Hs) as [Hs1 Hr1].
  destruct r1 as [[]|e]; [|injection H as <- <-; by destruct e].
  destruct (read_state t1) as [t2 r2] eqn:H2.
  pose proof (read_state_spec _ _ _ _ H2 Hs1 Hlen) as Hr2.
  destruct r2 as [found|e]; [|injection H as <- <-; by destruct e].
  destruct Hr2 as [-> Hs2]. rewrite Hd in H.
  destruct (Z.eqb_spec (journal_runner_id state) runner_id); simpl in H; injection H as <- <-.
  - done.
  - done.
Qed.

Lemma opening_creates (runner_id : RunnerId) (faults : CommitStage → bool) (id : OperationId)
    (t t' : Trace) fj :
  settled (now t) None → open_journal runner_id faults id t = (t', Ok fj) →
  memory fj = journal_new runner_id ∧ poisoned fj = false ∧ lock_poisoned fj = false ∧
  ∃ bytes, encode (journal_new runner_id) = Ok bytes ∧
    settled (now (directory fj)) (Some bytes).
Proof.
  intros Hs H. unfold open_journal in H. unfold_monad.
  destruct (cleanup_staging t) as [t1 r1] eqn:H1.
  destruct (cleanup_staging_spec _ _ _ _ H1 Hs) as [Hs1 _]. destruct r1 as [[]|]; [|done].
  destruct (read_state t1) as [t2 r2] eqn:H2.
  assert (Hr2 : ∀ found, r2 = Ok found → found = None ∧ t2 = t1).
  { intros found ->. unfold read_state, open_state_file in H2. unfold_monad.
    destruct (open_read ObsoleteStateFile (now t1)) as [|e]; [done|].
    destruct (e =? Errno_NOENT); [|done].
    destruct (open_read StateFile (now t1)) as [[]|e'] eqn:Ho.
    - apply open_read_Ok in Ho. by destruct Hs1 as [? _].
    - destruct (e' =? Errno_NOENT); [|done]. simpl in H2. by injection H2 as <- <-. }
  destruct r2 as [found|]; [|done]. destruct (Hr2 found eq_refl) as [-> ->].
  destruct (encode (journal_new runner_id)) as [bytes|] eqn:He; [|done].
  unfold with_error in H.
  destruct (commit _ bytes faults id t1) as [t3 r3] eqn:H3.
  destruct (commit_spec _ _ _ _ _ _ _ _ Hs1 H3) as [_ Hr3].
  destruct r3 as [[]|]; [|done]. injection H as <- <-. simpl. eauto 10.
Qed.

(** Opening recovers what the file holds. On a directory whose file holds
    the bytes of a state of this runner, abandoned staging files or not, the
    opening either stops at a failed call of the operating system or at an
    obsolete file, or it returns an adapter with exactly that state in memory
    over the same file; it never reports corruption, and a file of another
    runner is refused as such. On an empty directory an opening that succeeds
    has committed the runner's initial state. *)
Lemma opening_recovers (runner_id : RunnerId) (faults : CommitStage → bool) (id : OperationId)
    (t t' : Trace) (r : result JournalError FileJournal) :
  open_journal runner_id faults id t = (t', r) →
  (∀ bytes state, settled (now t) (Some bytes) → decode bytes = Ok state →
   match r with
   | Ok fj => journal_runner_id state = runner_id ∧ memory fj = state ∧ poisoned fj = false ∧
       lock_poisoned fj = false ∧ settled (now (directory fj)) (Some bytes)
   | Err (RunnerIdentityMismatch expected received) =>
       expected = journal_runner_id state ∧ received = runner_id ∧ expected ≠ received
   | Err e => os_failure e
   end) ∧
  (∀ fj, settled (now t) None → r = Ok fj →
   memory fj = journal_new runner_id ∧ poisoned fj = false ∧ lock_poisoned fj = false ∧
   ∃ bytes, encode (journal_new runner_id) = Ok bytes ∧
     settled (now (directory fj)) (Some bytes)).
Proof.
  intros H. split.
  - intros bytes state Hs Hd. by eapply opening_spec.
  - intros fj Hs ->. by eapply opening_creates.
Qed.

(** ** Runs with failures, crashes and restarts *)

Lemma accept_runner (op : journal_op) j j' :
  journal_inv j → accept op j = Some j' → journal_runner_id j' = journal_runner_id j.
Proof.
  intros Hinv (j1 & Hrun & -> & _ & Hv)%accept_Some. simpl. by eapply run_journal_op_runner.
Qed.

(** The adapters a runner can hold: created in an empty directory, after any
    mutation, and reopened on what a crash leaves of any directory that a
    mutation goes through. *)
Inductive reachable (runner_id : RunnerId) : FileJournal → Prop :=
| reachable_created faults id t t' fj :
    settled (now t) None → open_journal runner_id faults id t = (t', Ok fj) →
    reachable runner_id fj
| reachable_mutated fj op id :
    reachable runner_id fj → reachable runner_id (file_mutate op id fj).1.1
| reachable_restarted fj op id d x faults id' t t' fj' :
    reachable runner_id fj →
    d = now (directory (file_mutate op id fj).1.1) ∨
    (∃ pre, past (directory (file_mutate op id fj).1.1) = pre ++ past (directory fj) ∧ d ∈ pre) →
    after_crash d StateFile x → settled (now t) x →
    open_journal runner_id faults id' t = (t', Ok fj') →
    reachable runner_id fj'.

Definition good_state (runner_id : RunnerId) (s : StoredJournal) : Prop :=
  journal_inv s ∧ journal_runner_id s = runner_id.

Record adapter_inv (runner_id : RunnerId) fj : Prop := {
  ai_file : file_inv fj;
  ai_runner : journal_runner_id (memory fj) = runner_id;
  ai_recoverable : recoverable (now (directory fj)) (good_state runner_id);
  ai_lock : lock_poisoned fj = false;
}.

Lemma recoverable_mono (d : Dir) (allowed allowed' : StoredJournal → Prop) :
  (∀ s, allowed s → allowed' s) → recoverable d allowed → recoverable d allowed'.
Proof. intros Ha Hr x (b & s & ? & ? & ?)%Hr. eauto 10. Qed.

Lemma good_accepted (runner_id : RunnerId) (op : journal_op) (s s' : StoredJournal) :
  good_state runner_id s → s' = s ∨ accept op s = Some s' → good_state runner_id s'.
Proof.
  intros [Hinv Hr] [->|Ha]; [done|]. split; [by apply accept_inv in Ha as [? _]|].
  by rewrite (accept_runner _ _ _ Hinv Ha).
Qed.

(** A mutation keeps the adapter's invariant, and every directory it goes
    through can be reopened. *)
Lemma adapter_inv_mutate (runner_id : RunnerId) fj (op : journal_op) (id : OperationId) :
  adapter_inv runner_id fj →
  adapter_inv runner_id (file_mutate op id fj).1.1 ∧
  ∀ d, d = now (directory (file_mutate op id fj).1.1) ∨
       (∃ pre, past (directory (file_mutate op id fj).1.1) = pre ++ past (directory fj) ∧ d ∈ pre) →
       recoverable d (good_state runner_id).
Proof.
  intros [Hf Hr Hrec Hl]. destruct (file_mutate op id fj) as [[fj' r] outcome] eqn:H. simpl.
  destruct (poisoned fj) eqn:Hp.
  { unfold file_mutate, mutate, lock_memory in H. rewrite Hl, Hp in H. injection H as <- <- <-.
    split; [done|]. intros d [->|(pre & Hpre & Hd)]; [done|]. exfalso.
    assert (pre = []) as -> by (apply (f_equal length) in Hpre; rewrite length_app in Hpre;
      destruct pre; [done|]; simpl in Hpre; lia). set_solver. }
  destruct (file_mutate_spec _ _ _ _ _ _ Hf Hp Hl H) as ((pre & Hpast & Hall) & Hl' & Hres & Hset).
  assert (Hgood : good_state runner_id (memory fj)) by (split; [apply Hf|done]).
  assert (Hmem : memory fj' = memory fj ∨ accept op (memory fj) = Some (memory fj')).
  { destruct r; [apply Hres|left; apply Hres]. }
  assert (Hgood' : good_state runner_id (memory fj')) by exact (good_accepted runner_id op _ _ Hgood Hmem).
  assert (Hrec' : ∀ d, d ∈ now (directory fj') :: pre → recoverable d (good_state runner_id)).
  { intros d Hd. eapply recoverable_mono; [|by apply Hall]. intros s Hs.
    exact (good_accepted runner_id op (memory fj) s Hgood Hs). }
  split.
  - constructor; [|apply Hgood'|apply Hrec'; set_solver|done]. constructor; [apply Hgood'|].
    destruct Hf as [_ (old & Hold & _)]. destruct (poisoned fj') eqn:Hp'.
    + destruct r as [shown|e]; [by destruct Hres as (_ & ? & _)|].
      destruct Hres as [Hm _]. exists old. by rewrite Hm.
    + destruct (Hset eq_refl) as (bytes & ? & ?). eauto.
  - intros d [->|(pre' & Hpre' & Hd)]; [apply Hrec'; set_solver|].
    rewrite Hpast in Hpre'. apply app_inv_tail in Hpre' as ->. apply Hrec'. set_solver.
Qed.

Lemma adapter_inv_open (runner_id : RunnerId) fj state (bytes : list Z) :
  good_state runner_id state → encode state = Ok bytes → memory fj = state →
  settled (now (directory fj)) (Some bytes) → poisoned fj = false → lock_poisoned fj = false →
  adapter_inv runner_id fj.
Proof.
  intros Hg He Hm Hs Hp Hl. constructor; [|by rewrite Hm; apply Hg| |done].
  - constructor; [rewrite Hm; apply Hg|]. exists bytes. rewrite Hm. done.
  - by eapply settled_recoverable.
Qed.

Lemma reachable_inv (runner_id : RunnerId) fj : reachable runner_id fj → adapter_inv runner_id fj.
Proof.
  induction 1 as [faults id t t' fj Hs Ho|fj op id _ IH|
    fj op id d x faults id' t t' fj' _ IH Hd Hx Hs Ho].
  - destruct (opening_creates _ _ _ _ _ _ Hs Ho) as (Hm & Hp & Hl & bytes & He & Hset).
    eapply adapter_inv_open; eauto. split; [apply journal_inv_new|done].
  - by apply adapter_inv_mutate.
  - destruct (adapter_inv_mutate _ _ op id IH) as [_ Hrec].
    destruct (Hrec d Hd x Hx) as (bytes & state & -> & Hdec & Hgood).
    destruct (opening_spec _ _ _ _ _ _ _ _ Hs Hdec Ho) as (_ & Hm & Hp & Hl & Hset).
    eapply adapter_inv_open; eauto. by apply decode_Ok.
Qed.

(** C1: no run leads to a journal that cannot be reopened. Whatever mutations
    are requested, whichever calls of the operating system fail, wherever the
    runner crashes and however often it restarts, the adapter's memory keeps the
    journal's invariant and passes the checks of a restart, belongs to the
    runner, and every directory that the next mutation goes through holds,
    after a crash, the bytes of such a journal. *)
Theorem every_run_is_recoverable (runner_id : RunnerId) fj (op : journal_op) (id : OperationId) :
  reachable runner_id fj →
  journal_inv (memory fj) ∧ journal_validate (memory fj) = Ok tt ∧
  journal_runner_id (memory fj) = runner_id ∧
  ∀ d, d = now (directory (file_mutate op id fj).1.1) ∨
       (∃ pre, past (directory (file_mutate op id fj).1.1) = pre ++ past (directory fj) ∧ d ∈ pre) →
    recoverable d (λ s, journal_inv s ∧ journal_validate s = Ok tt ∧
                        journal_runner_id s = runner_id).
Proof.
  intros Hr%reachable_inv. destruct (adapter_inv_mutate _ _ op id Hr) as [_ Hrec].
  destruct Hr as [[Hinv (bytes & [Hv _]%encode_Ok & _)] Hid _ _]. split_and!; try done.
  intros d Hd x Hx. destruct (Hrec d Hd x Hx) as (b & s & -> & Hdec & Hs & Hrid).
  exists b, s. split_and!; try done. by apply decode_Ok, encode_Ok in Hdec as [? _].
Qed.

(** The revision counts the commits. A mutation through the file that
    succeeds either changed nothing, and is observed as such, or raised the
    revision by exactly one and is observed as a commit; a refusal is observed
    as rejected, uncertain, poisoned or an input-output failure and leaves the
    revision as it was. *)
Lemma revision_counts_commits (op : journal_op) (id : OperationId) fj fj'
    (r : result JournalError JournalSnapshot) (outcome : JournalMutationOutcome) :
  file_inv fj → file_mutate op id fj = (fj', r, outcome) →
  match outcome with
  | Committed => is_ok r = true ∧ revision (memory fj') = revision (memory fj) + 1
  | Noop => is_ok r = true ∧ fj' = fj
  | _ => is_ok r = false ∧ memory fj' = memory fj
  end.
Proof.
  intros [Hinv _] H. unfold file_mutate, mutate in H.
  assert (Hfail : ∀ e, outcome = failure_outcome e → is_ok r = false → memory fj' = memory fj →
    match outcome with
    | Committed => is_ok r = true ∧ revision (memory fj') = revision (memory fj) + 1
    | Noop => is_ok r = true ∧ fj' = fj
    | _ => is_ok r = false ∧ memory fj' = memory fj
    end) by (intros e -> ? ?; by destruct e).
  destruct (lock_memory fj) as [state|e] eqn:Hlock;
    [|injection H as <- <- <-; by apply (Hfail e)].
  assert (state = memory fj) as ->.
  { unfold lock_memory in Hlock. by destruct (lock_poisoned fj), (poisoned fj); simplify_eq. }
  destruct (run_journal_op op (memory fj)) as [candidate [[]|e]] eqn:Hrun.
  2: { by injection H as <- <- <-. }
  2: { injection H as <- <- <-. by apply (Hfail (Invariant e)). }
  destruct (increment_revision candidate) as [next [[]|e]] eqn:Hincr;
    [|injection H as <- <- <-; by apply (Hfail (Invariant e))].
  destruct (encode next) as [bytes|e] eqn:Henc; [|injection H as <- <- <-; by apply (Hfail e)].
  destruct (commit _ bytes _ id _) as [t [[]|failure]].
  - injection H as <- <- <-. split; [done|]. simpl.
    pose proof (candidate_accepted _ _ _ _ _ Hrun Hincr Henc) as Ha.
    by apply accept_inv in Ha as [_ ?].
  - destruct (failure_renamed failure); injection H as <- <- <-;
      [by apply (Hfail CommitOutcomeUnknown)|by apply (Hfail (failure_error failure))].
Qed.

End FileTheorems.

(** ** A directory and a codec, and the properties on them *)

#[export] Instance lease_poll_checkpoint_eq_dec : EqDecision LeasePollCheckpoint.
Proof. solve_decision. Defined.
#[export] Instance command_cursor_eq_dec : EqDecision CommandCursor.
Proof. solve_decision. Defined.
#[export] Instance session_snapshot_eq_dec : EqDecision SessionSnapshot.
Proof. solve_decision. Defined.
#[export] Instance provider_recovery_state_eq_dec : EqDecision ProviderRecoveryState.
Proof. solve_decision. Defined.
#[export] Instance outbound_cursor_eq_dec : EqDecision OutboundOperationCursor.
Proof. solve_decision. Defined.
#[export] Instance log_delivery_cursor_eq_dec : EqDecision LogDeliveryCursor.
Proof. solve_decision. Defined.
#[export] Instance slot_snapshot_eq_dec : EqDecision SlotSnapshot.
Proof. solve_decision. Defined.
#[export] Instance stored_journal_eq_dec : EqDecision StoredJournal.
Proof. solve_decision. Defined.

(** A file system held in memory: contents with whether they are synced, and
    what each name may hold after a crash. *)
Record MemDir := MkMemDir {
  md_files : list (FileName * option (list Z * bool));
  md_crash : list (FileName * list (option (list Z)));
}.

Fixpoint assoc {A : Type} (default_ : A) (n : FileName) (l : list (FileName * A)) : A :=
  match l with
  | [] => default_
  | (m, a) :: l => if decide (m = n) then a else assoc default_ n l
  end.

Definition file_at (d : MemDir) (n : FileName) : option (list Z * bool) := assoc None n (md_files d).
Definition crash_at (d : MemDir) (n : FileName) : list (option (list Z)) := assoc [] n (md_crash d).

Definition set_file (n : FileName) (f : option (list Z * bool)) (d : MemDir) : MemDir :=
  MkMemDir ((n, f) :: md_files d) (md_crash d).

(** What a synced directory leaves to a crash. *)
Definition synced_outcomes (d : MemDir) (p : FileName * list (option (list Z))) :
    FileName * list (option (list Z)) :=
  (p.1, match file_at d p.1 with
        | Some (bytes, true) => filter (λ x, x = Some bytes) p.2
        | _ => p.2
        end).

Definition mem_call (c : DirCall) (d : MemDir) : MemDir * result Errno unit :=
  match c with
  | CreateExclusive n =>
      match file_at d n with
      | Some _ => (d, Err 17)
      | None => (set_file n (Some ([], false)) d, Ok tt)
      end
  | SetMode _ => (d, Ok tt)
  | WriteAll n bytes =>
      match file_at d n with
      | Some (old, _) => (set_file n (Some (old ++ bytes, false)) d, Ok tt)
      | None => (d, Err Errno_NOENT)
      end
  | SyncFile n =>
      match file_at d n with
      | Some (bytes, _) => (set_file n (Some (bytes, true)) d, Ok tt)
      | None => (d, Err Errno_NOENT)
      end
  | Rename a b =>
      match file_at d a with
      | Some (bytes, synced) =>
          (MkMemDir ((b, Some (bytes, synced)) :: (a, None) :: md_files d)
             ((b, Some bytes :: crash_at d b) :: md_crash d), Ok tt)
      | None => (d, Err Errno_NOENT)
      end
  | SyncDirectory => (MkMemDir (md_files d) (synced_outcomes d <$> md_crash d), Ok tt)
  | Unlink n =>
      match file_at d n with
      | Some _ => (set_file n None d, Ok tt)
      | None => (d, Err Errno_NOENT)
      end
  end.

Definition mem_directory : PosixDirectory := {|
  Dir := MemDir;
  call := mem_call;
  open_read := λ n d, match file_at d n with Some _ => Ok tt | None => Err Errno_NOENT end;
  fstat := λ n d, match file_at d n with
                  | Some (bytes, _) => Ok (MkFileStat true 1 (Z.of_nat (length bytes)))
                  | None => Err Errno_NOENT
                  end;
  read_up_to := λ limit n d, match file_at d n with
                             | Some (bytes, _) =>
                                 Ok (if Z.of_nat (length bytes) <=? limit then bytes
                                     else take (Z.to_nat limit) bytes)
                             | None => Err Errno_NOENT
                             end;
  scan := λ d, Ok ((λ f, Ok f.1) <$> md_files d);
  entry := λ d n, fst <$> file_at d n;
  stable := λ d n bytes, file_at d n = Some (bytes, true);
  after_crash := λ d n x, x ∈ crash_at d n;
|}.

Lemma assoc_eq {A : Type} (default_ a : A) (n : FileName) (l : list (FileName * A)) :
  assoc default_ n ((n, a) :: l) = a.
Proof. simpl. by rewrite decide_True. Qed.

Lemma assoc_ne {A : Type} (default_ a : A) (n m : FileName) (l : list (FileName * A)) :
  m ≠ n → assoc default_ n ((m, a) :: l) = assoc default_ n l.
Proof. intros H. simpl. by rewrite decide_False. Qed.

Lemma synced_crash_at (d : MemDir) (n : FileName) (l : list (FileName * list (option (list Z)))) :
  assoc [] n (synced_outcomes d <$> l) =
  match file_at d n with
  | Some (bytes, true) => filter (λ x, x = Some bytes) (assoc [] n l)
  | _ => assoc [] n l
  end.
Proof.
  induction l as [|[m xs] l IH]; [by destruct (file_at d n) as [[? []]|]|].
  simpl. destruct (decide (m = n)) as [->|]; [done|]. apply IH.
Qed.

#[export] Instance mem_directory_laws : PosixLaws mem_directory.
Proof.
  constructor; simpl; unfold file_at, crash_at.
  - intros c m n d Hw Hne. destruct c; simplify_eq/=; unfold file_at; repeat case_match;
      unfold set_file; cbn [fst md_files md_crash]; by rewrite ?assoc_ne.
  - intros n d d'. unfold file_at. case_match; [done|]. intros [= <-].
    cbn [md_files set_file]. by rewrite assoc_eq.
  - done.
  - intros n bytes d d'. unfold file_at. destruct (assoc None n (md_files d)) as [[old sy]|]; [|done].
    intros [= <-] [= ->]. cbn [md_files set_file]. by rewrite assoc_eq.
  - intros n bytes d d'. unfold file_at. destruct (assoc None n (md_files d)) as [[old sy]|]; [|done].
    intros [= <-] [= ->]. cbn [md_files set_file]. by rewrite assoc_eq.
  - intros a b bytes d d'. unfold file_at, crash_at.
    destruct (assoc None a (md_files d)) as [[old sy]|]; [|done]. intros [= <-] [= ->] [= ->].
    cbn [md_files md_crash]. rewrite !assoc_eq. split_and!; [done..|].
    intros x [->|Hx]%elem_of_cons; auto.
  - intros a b d d' e. unfold file_at.
    destruct (assoc None a (md_files d)) as [[old sy]|]; [done|]. by intros [= <- _].
  - intros n bytes d d' [= <-] _ Hs. cbn [md_files md_crash]. rewrite synced_crash_at.
    unfold file_at. rewrite Hs. split_and!; [done..|].
    intros x. rewrite list_elem_of_filter. by intros [-> _].
  - intros n d. split_and!; [done..|]. intros x. cbn [md_files md_crash].
    rewrite synced_crash_at.
    destruct (file_at d n) as [[old []]|]; [|done..]. rewrite list_elem_of_filter. by intros [_ ?].
  - intros n d. by destruct (assoc None n (md_files d)).
  - intros n d. by destruct (assoc None n (md_files d)).
  - intros n d s bytes. destruct (assoc None n (md_files d)) as [[old sy]|]; [|done].
    by intros [= <-] [= ->].
  - intros limit n d bytes content. destruct (assoc None n (md_files d)) as [[old sy]|]; [|done].
    intros [= <-] [= ->] Hl. destruct (Z.leb_spec (Z.of_nat (length content)) limit); [|done].
    by rewrite take_ge by lia.
Qed.

(** A codec for a table of states: a state is written as its position. *)
Definition table_json (l : list StoredJournal) : Json := {|
  to_vec := λ s, (λ found, [Z.of_nat found.1]) <$> list_find (λ x, x = s) l;
  from_slice := λ bytes, match bytes with [i] => l !! Z.to_nat i | _ => None end;
  probe_schema := λ bytes, Some RUNNER_JOURNAL_SCHEMA_VERSION;
|}.

Lemma table_json_laws {hasher : Sha256} {uuids : Uuid} (l : list StoredJournal) :
  JsonLaws (table_json l).
Proof.
  constructor. intros state bytes Hv Hb. simpl in *.
  apply fmap_Some in Hb as ([i x] & (Hi & -> & _)%list_find_Some & ->). simpl.
  rewrite Nat2Z.id. split; [done|]. by apply journal_validate_iff in Hv as [<- _].
Qed.

Definition demo_states : list StoredJournal :=
  [journal_new 1; demo_journal [BeginSession demo_binding]].

Definition demo_json : Json := table_json demo_states.

Definition demo_empty : @Trace mem_directory :=
  @MkTrace mem_directory
    (MkMemDir [(StagingFile (lit "4-77"), Some ([8; 8], false)); (OtherFile (lit "notes"), Some ([], true))]
       [(StateFile, [None])]) [].

Definition no_faults (_ : CommitStage) : bool := false.

Abbreviation demo_open t :=
  (@open_journal demo_sha256 demo_uuid demo_json mem_directory 1 no_faults 900 t) (only parsing).

Definition demo_file : @FileJournal mem_directory :=
  match (demo_open demo_empty).2 with
  | Ok fj => fj
  | Err _ => MkFileJournal demo_empty (journal_new 1) true true no_faults
  end.

Abbreviation demo_mutate op fj :=
  (@file_mutate demo_sha256 demo_uuid demo_json mem_directory op 901 fj) (only parsing).

Lemma demo_empty_settled : @settled mem_directory (now demo_empty) None.
Proof. split_and!; [done..|]. by intros x ->%list_elem_of_singleton. Qed.

Lemma demo_file_reachable :
  @reachable demo_sha256 demo_uuid demo_json mem_directory 1 demo_file.
Proof.
  apply (reachable_created 1 no_faults 900 demo_empty (demo_open demo_empty).1).
  - apply demo_empty_settled.
  - vm_compute. reflexivity.
Qed.

Lemma demo_file_inv : @file_inv demo_sha256 demo_uuid demo_json mem_directory demo_file.
Proof.
  exact (ai_file _ _ (@reachable_inv demo_sha256 demo_uuid demo_json (table_json_laws demo_states)
    mem_directory mem_directory_laws 1 demo_file demo_file_reachable)).
Qed.

Lemma mutations_are_atomic_witness :
  let run := demo_mutate (BeginSession demo_binding) demo_file in
  run.2 = Committed ∧
  @recoverable demo_sha256 demo_uuid demo_json mem_directory (now (directory run.1.1))
    (λ s, s = memory run.1.1).
Proof.
  intros run. split; [vm_compute; reflexivity|].
  assert (Hrun : run = (run.1.1, Ok (snapshot_of (memory run.1.1)), Committed))
    by (vm_compute; reflexivity).
  refine (proj1 (proj2 (proj2 (proj2 (@mutations_are_atomic demo_sha256 demo_uuid demo_json
    (table_json_laws demo_states) mem_directory mem_directory_laws (BeginSession demo_binding) 901
    demo_file run.1.1 _ _ demo_file_inv _ _ Hrun))))).
  - vm_compute. reflexivity.
  - vm_compute. reflexivity.
Defined.

Lemma every_run_is_recoverable_witness :
  @journal_validate demo_sha256 demo_uuid (memory demo_file) = Ok tt.
Proof.
  exact (proj1 (proj2 (@every_run_is_recoverable demo_sha256 demo_uuid demo_json
    (table_json_laws demo_states) mem_directory mem_directory_laws 1 demo_file
    (BeginSession demo_binding) 901 demo_file_reachable))).
Defined.

