(* ===== verification/Utf8.v ===== *)
(** * Utf8: decoding, searching and replacing in text

    The operations of Rust's [str] and [std::str::from_utf8] that the step
    command protocol uses beyond [Text]: strict UTF-8 decoding, search for a
    substring, replacement of every occurrence, splitting at any of several
    characters, and parsing of signed integers. *)

From S2P Require Import Prelude Text.

(** ** Decoding *)

Definition is_continuation (b : Z) : bool := in_range 128 191 b.

(** The second byte of a three- or four-byte sequence: what excludes overlong
    forms, surrogates and values beyond the last scalar. *)
Definition second_of_three (b0 b1 : Z) : bool :=
  is_continuation b1 && (negb (b0 =? 224) || (160 <=? b1)) && (negb (b0 =? 237) || (b1 <=? 159)).
Definition second_of_four (b0 b1 : Z) : bool :=
  is_continuation b1 && (negb (b0 =? 240) || (144 <=? b1)) && (negb (b0 =? 244) || (b1 <=? 143)).

(** [std::str::from_utf8]. *)
Fixpoint from_utf8 (bytes : list Z) : option str :=
  match bytes with
  | [] => Some []
  | b0 :: r0 =>
      if in_range 0 127 b0 then cons b0 <$> from_utf8 r0
      else
        match r0 with
        | [] => None
        | b1 :: r1 =>
            if in_range 194 223 b0 then
              if is_continuation b1
              then cons ((b0 - 192) * 64 + (b1 - 128)) <$> from_utf8 r1 else None
            else
              match r1 with
              | [] => None
              | b2 :: r2 =>
                  if in_range 224 239 b0 then
                    if second_of_three b0 b1 && is_continuation b2
                    then cons ((b0 - 224) * 4096 + (b1 - 128) * 64 + (b2 - 128)) <$> from_utf8 r2
                    else None
                  else
                    match r2 with
                    | [] => None
                    | b3 :: r3 =>
                        if in_range 240 244 b0 && second_of_four b0 b1 && is_continuation b2 &&
                           is_continuation b3
                        then cons ((b0 - 240) * 262144 + (b1 - 128) * 4096 + (b2 - 128) * 64 +
                                   (b3 - 128)) <$> from_utf8 r3
                        else None
                    end
              end
        end
  end.

(** A Unicode scalar value; a [str] holds nothing else. *)
Definition is_scalar (c : Z) : bool := in_range 0 55295 c || in_range 57344 1114111 c.

(** ** Searching *)

(** [s.find(pat)] with the text before and after the first occurrence. *)
Fixpoint split_once_str (pat s : str) : option (str * str) :=
  match strip_prefix pat s with
  | Some b => Some ([], b)
  | None =>
      match s with
      | [] => None
      | c :: s' =>
          match split_once_str pat s' with
          | Some (a, b) => Some (c :: a, b)
          | None => None
          end
      end
  end.

(** [s.replace(pat, by_)] for a non-empty pattern: occurrences from the left
    that do not overlap; [skip] characters of a found one are still to be
    dropped. *)
Fixpoint replace_from (pat by_ : str) (skip : nat) (s : str) : str :=
  match s with
  | [] => []
  | c :: s' =>
      match skip with
      | S k => replace_from pat by_ k s'
      | O =>
          match strip_prefix pat s with
          | Some _ => by_ ++ replace_from pat by_ (pred (length pat)) s'
          | None => c :: replace_from pat by_ 0 s'
          end
      end
  end.
Definition replace (pat by_ s : str) : str := replace_from pat by_ 0 s.

(** [s.split(chars)] at every character of a set. *)
Fixpoint split_any (p : Z → bool) (s : str) : list str :=
  match s with
  | [] => [[]]
  | c :: s' =>
      if p c then [] :: split_any p s'
      else match split_any p s' with
           | l :: ls => (c :: l) :: ls
           | [] => [[c]]
           end
  end.

(** The lines of [s] that a carriage return, a line feed or both end, and the
    rest when it is not empty. *)
Fixpoint text_lines (s : str) : list str :=
  match s with
  | [] => []
  | c :: s' =>
      if c =? 13 then
        match s' with
        | d :: s'' => if d =? 10 then [] :: text_lines s'' else [] :: text_lines s'
        | [] => [[]]
        end
      else if c =? 10 then [] :: text_lines s'
      else match text_lines s' with
           | l :: ls => (c :: l) :: ls
           | [] => [[c]]
           end
  end.

Definition is_ascii_alphabetic (c : Z) : bool := is_ascii_lowercase c || is_ascii_uppercase c.
Definition is_ascii_hexdigit (c : Z) : bool :=
  is_ascii_digit c || in_range 97 102 c || in_range 65 70 c.
Definition to_ascii_uppercase (c : Z) : Z := if is_ascii_lowercase c then c - 32 else c.

(** [str::parse::<i32>()]. *)
Definition parse_i32 (s : str) : option Z :=
  let negative := match s with c :: _ => c =? 45 | [] => false end in
  let digits :=
    match s with c :: s' => if (c =? 43) || (c =? 45) then s' else s | [] => s end in
  if negb (str_is_empty digits) && forallb is_ascii_digit digits then
    let value := if negative then - digits_value digits else digits_value digits in
    if (- 2 ^ 31 <=? value) && (value <=? 2 ^ 31 - 1) then Some value else None
  else None.

(** ** Laws of decoding *)

(** Evaluates the tests that arithmetic decides. *)
Ltac decide_tests :=
  repeat match goal with
  | |- context [if ?b then _ else _] =>
      first [replace b with true by lia | replace b with false by lia]
  end.

Lemma div64 (c : Z) : c = 64 * (c / 64) + c mod 64 ∧ 0 <= c mod 64 < 64.
Proof. split; [apply Z.div_mod; lia|apply Z.mod_pos_bound; lia]. Qed.

Lemma utf8_char_decode (c : Z) (r : list Z) :
  is_scalar c = true → from_utf8 (utf8_char c ++ r) = cons c <$> from_utf8 r.
Proof.
  unfold is_scalar, in_range. intros Hc. unfold utf8_char. cbv zeta.
  change (2 ^ 0) with 1. change (2 ^ 6) with 64.
  replace (c / 2 ^ 12) with (c / 64 / 64) by (rewrite Z.div_div by lia; done).
  replace (c / 2 ^ 18) with (c / 64 / 64 / 64) by (rewrite !Z.div_div by lia; done).
  rewrite Z.div_1_r.
  pose proof (div64 c). pose proof (div64 (c / 64)). pose proof (div64 (c / 64 / 64)).
  destruct (Z.ltb_spec c 128); [|destruct (Z.ltb_spec c 2048);
    [|destruct (Z.ltb_spec c 65536)]];
    simpl; unfold second_of_three, second_of_four, is_continuation, in_range;
    decide_tests; try done; do 2 f_equal; lia.
Qed.

Lemma from_utf8_as_bytes (s : str) : forallb is_scalar s = true → from_utf8 (as_bytes s) = Some s.
Proof.
  unfold as_bytes. induction s as [|c s IH]; [done|]. simpl forallb.
  intros [Hc Hs]%andb_true_iff. by rewrite bind_cons, utf8_char_decode, IH.
Qed.

(** Decoding is exact: what decodes is the encoding of the text. *)
Ltac read_div c q r :=
  replace (c / 64) with q by (apply (Z.div_unique_pos c 64 q r); lia).
Ltac read_mod c q r :=
  replace (c mod 64) with r by (apply (Z.mod_unique_pos c 64 q r); lia).

Lemma utf8_two (b0 b1 : Z) :
  194 <= b0 <= 223 → 128 <= b1 <= 191 → utf8_char ((b0 - 192) * 64 + (b1 - 128)) = [b0; b1].
Proof.
  intros H0 H1. set (c := (b0 - 192) * 64 + (b1 - 128)). unfold utf8_char. cbv zeta.
  replace (c <? 128) with false by lia. replace (c <? 2048) with true by lia.
  change (2 ^ 0) with 1. change (2 ^ 6) with 64. rewrite Z.div_1_r.
  read_mod c (b0 - 192) (b1 - 128). read_div c (b0 - 192) (b1 - 128). f_equal; [lia|].
  f_equal. lia.
Qed.

Lemma utf8_three (b0 b1 b2 : Z) :
  224 <= b0 <= 239 → 128 <= b1 <= 191 → (b0 = 224 → 160 <= b1) → 128 <= b2 <= 191 →
  utf8_char ((b0 - 224) * 4096 + (b1 - 128) * 64 + (b2 - 128)) = [b0; b1; b2].
Proof.
  intros H0 H1 Hx H2. set (c := (b0 - 224) * 4096 + (b1 - 128) * 64 + (b2 - 128)).
  unfold utf8_char. cbv zeta.
  replace (c <? 128) with false by lia. replace (c <? 2048) with false by lia.
  replace (c <? 65536) with true by lia.
  change (2 ^ 0) with 1. change (2 ^ 6) with 64. rewrite Z.div_1_r.
  replace (c / 2 ^ 12) with (c / 64 / 64) by (rewrite Z.div_div by lia; done).
  read_mod c ((b0 - 224) * 64 + (b1 - 128)) (b2 - 128).
  read_div c ((b0 - 224) * 64 + (b1 - 128)) (b2 - 128).
  set (d := (b0 - 224) * 64 + (b1 - 128)).
  read_mod d (b0 - 224) (b1 - 128). read_div d (b0 - 224) (b1 - 128).
  repeat (f_equal; try lia).
Qed.

Lemma utf8_four (b0 b1 b2 b3 : Z) :
  240 <= b0 <= 244 → 128 <= b1 <= 191 → (b0 = 240 → 144 <= b1) → 128 <= b2 <= 191 →
  128 <= b3 <= 191 →
  utf8_char ((b0 - 240) * 262144 + (b1 - 128) * 4096 + (b2 - 128) * 64 + (b3 - 128)) =
  [b0; b1; b2; b3].
Proof.
  intros H0 H1 Hx H2 H3.
  set (c := (b0 - 240) * 262144 + (b1 - 128) * 4096 + (b2 - 128) * 64 + (b3 - 128)).
  unfold utf8_char. cbv zeta.
  replace (c <? 128) with false by lia. replace (c <? 2048) with false by lia.
  replace (c <? 65536) with false by lia.
  change (2 ^ 0) with 1. change (2 ^ 6) with 64. rewrite Z.div_1_r.
  replace (c / 2 ^ 12) with (c / 64 / 64) by (rewrite Z.div_div by lia; done).
  replace (c / 2 ^ 18) with (c / 64 / 64 / 64) by (rewrite !Z.div_div by lia; done).
  set (d := (b0 - 240) * 4096 + (b1 - 128) * 64 + (b2 - 128)).
  read_mod c d (b3 - 128). read_div c d (b3 - 128).
  set (e := (b0 - 240) * 64 + (b1 - 128)).
  read_mod d e (b2 - 128). read_div d e (b2 - 128).
  read_mod e (b0 - 240) (b1 - 128). read_div e (b0 - 240) (b1 - 128).
  repeat (f_equal; try lia).
Qed.

Lemma from_utf8_Some (bytes : list Z) (s : str) : from_utf8 bytes = Some s → as_bytes s = bytes.
Proof.
  remember (length bytes) as n eqn:Hn. revert bytes s Hn.
  induction (lt_wf n) as [n _ IH]. intros bytes s ->.
  assert (IH' : ∀ c r t, cons c <$> from_utf8 r = Some t → (length r < length bytes)%nat →
    as_bytes t = utf8_char c ++ r).
  { intros c r t Ht Hr. destruct (from_utf8 r) as [u|] eqn:E; [|done]. injection Ht as <-.
    rewrite <- (IH (length r) Hr r u eq_refl E). done. }
  destruct bytes as [|b0 r0]; [by intros [= <-]|]. cbn [length] in *. cbn [from_utf8].
  destruct (in_range 0 127 b0) eqn:E0.
  { intros H. rewrite (IH' _ _ _ H ltac:(lia)), utf8_char_ascii; [done|].
    unfold in_range, is_ascii in *. lia. }
  destruct r0 as [|b1 r1]; [done|]. cbn [length] in *.
  destruct (in_range 194 223 b0) eqn:E1.
  { destruct (is_continuation b1) eqn:C1; [|done]. intros H.
    unfold is_continuation, in_range in *.
    rewrite (IH' _ _ _ H ltac:(lia)), utf8_two by lia. done. }
  destruct r1 as [|b2 r2]; [done|]. cbn [length] in *.
  destruct (in_range 224 239 b0) eqn:E2.
  { destruct (second_of_three b0 b1 && is_continuation b2) eqn:C2; [|done]. intros H.
    unfold second_of_three, is_continuation, in_range in *.
    rewrite (IH' _ _ _ H ltac:(lia)), utf8_three by lia. done. }
  destruct r2 as [|b3 r3]; [done|]. cbn [length] in *.
  destruct (in_range 240 244 b0 && second_of_four b0 b1 && is_continuation b2 &&
            is_continuation b3) eqn:C3; [|done]. intros H.
  unfold second_of_four, is_continuation, in_range in *.
  rewrite (IH' _ _ _ H ltac:(lia)), utf8_four by lia. done.
Qed.

Lemma utf8_char_length (c : Z) : Z.of_nat (length (utf8_char c)) = len_utf8 c.
Proof. unfold utf8_char, len_utf8. by repeat case_match. Qed.

Lemma as_bytes_length (s : str) : Z.of_nat (length (as_bytes s)) = str_len s.
Proof.
  unfold as_bytes, str_len. induction s as [|c s IH]; [done|].
  rewrite bind_cons, length_app, Nat2Z.inj_add, utf8_char_length, IH. done.
Qed.

Lemma as_bytes_app (s t : str) : as_bytes (s ++ t) = as_bytes s ++ as_bytes t.
Proof. apply bind_app. Qed.

Lemma len_utf8_pos (c : Z) : 1 <= len_utf8 c <= 4.
Proof. unfold len_utf8. repeat case_match; lia. Qed.

Lemma str_len_cons (c : Z) (s : str) : str_len (c :: s) = len_utf8 c + str_len s.
Proof. done. Qed.

Lemma str_len_app (s t : str) : str_len (s ++ t) = str_len s + str_len t.
Proof. rewrite <- !as_bytes_length, as_bytes_app, length_app. lia. Qed.

Lemma str_len_nonneg (s : str) : 0 <= str_len s.
Proof. rewrite <- as_bytes_length. lia. Qed.

Lemma str_len_nil_inv (s : str) : str_len s = 0 → s = [].
Proof.
  destruct s as [|c s]; [done|]. rewrite str_len_cons.
  pose proof (len_utf8_pos c). pose proof (str_len_nonneg s). lia.
Qed.

(** ** Laws of searching *)

Lemma strip_prefix_None (p s t : str) : strip_prefix p s = None → s ≠ p ++ t.
Proof. intros H ->. by rewrite strip_prefix_app in H. Qed.

Lemma split_once_str_Some (p s a b : str) : split_once_str p s = Some (a, b) → s = a ++ p ++ b.
Proof.
  revert a. induction s as [|c s IH]; intros a; simpl.
  - destruct (strip_prefix p []) as [t|] eqn:E; [|done]. intros [= <- <-].
    by apply strip_prefix_Some in E.
  - destruct (strip_prefix p (c :: s)) as [t|] eqn:E.
    + intros [= <- <-]. by apply strip_prefix_Some in E.
    + destruct (split_once_str p s) as [[a' b']|]; [|done]. intros [= <- <-].
      by rewrite (IH a' eq_refl).
Qed.

(** The first occurrence is found when nothing before it starts one. *)
Lemma split_once_str_first (p a b : str) :
  (∀ a1 a2, a = a1 ++ a2 → a2 ≠ [] → strip_prefix p (a2 ++ p ++ b) = None) →
  split_once_str p (a ++ p ++ b) = Some (a, b).
Proof.
  induction a as [|c a IH]; intros H.
  - simpl app. destruct (p ++ b) as [|d l] eqn:E; simpl; rewrite <- E, strip_prefix_app; done.
  - pose proof (H [] (c :: a) eq_refl ltac:(done)) as H0. simpl app in *. simpl. simpl in H0.
    rewrite H0, IH; [done|].
    intros a1 a2 -> Hne. by apply (H (c :: a1) a2).
Qed.

(** A text whose characters are all outside the pattern's first one holds no
    occurrence of it. *)
Lemma strip_prefix_head (c d : Z) (p s : str) : c ≠ d → strip_prefix (c :: p) (d :: s) = None.
Proof. intros H. simpl. destruct (Z.eqb_spec c d); done. Qed.

Lemma split_once_str_absent (c : Z) (p s : str) : c ∉ s → split_once_str (c :: p) s = None.
Proof.
  induction s as [|d s IH]; [done|]. rewrite elem_of_cons. intros H. cbn [split_once_str].
  rewrite strip_prefix_head by naive_solver. rewrite IH by naive_solver. done.
Qed.

Lemma split_once_str_fresh (c : Z) (p a b : str) :
  c ∉ a → split_once_str (c :: p) (a ++ (c :: p) ++ b) = Some (a, b).
Proof.
  intros Ha. apply split_once_str_first. intros a1 a2 -> Hne.
  destruct a2 as [|d a2]; [done|]. simpl app. apply strip_prefix_head.
  intros ->. apply Ha. rewrite elem_of_app, elem_of_cons. auto.
Qed.

(** ** Laws of lines *)

Lemma split_any_nonempty (p : Z → bool) (s : str) : split_any p s ≠ [].
Proof. destruct s as [|c s]; simpl; [done|]. destruct (p c); [done|]. by destruct (split_any p s). Qed.

Definition not_empty (s : str) : bool := negb (str_is_empty s).
Definition ends_line (c : Z) : bool := (c =? 13) || (c =? 10).

Lemma text_lines_heads (s : str) :
  match text_lines s with
  | [] => s = []
  | k :: ks => ∃ ls, split_any ends_line s = k :: ls ∧
      List.filter not_empty ks = List.filter not_empty ls
  end.
Proof.
  remember (length s) as n eqn:Hn. revert s Hn.
  induction (lt_wf n) as [n _ IH]. intros s ->. destruct s as [|c s]; [done|].
  pose proof (IH (length s) ltac:(simpl; lia) s eq_refl) as Hs.
  assert (Hf : List.filter not_empty (text_lines s) = List.filter not_empty (split_any ends_line s)).
  { destruct (text_lines s); [by subst|]. destruct Hs as (ls & -> & Hf). cbn. by rewrite Hf. }
  cbn [text_lines split_any]. unfold ends_line at 1.
  destruct (Z.eqb_spec c 13) as [->|H13]; cbn [orb].
  - destruct s as [|d s]; [by eexists|]. destruct (Z.eqb_spec d 10) as [->|]; [|by eexists].
    eexists. split; [done|].
    pose proof (IH (length s) ltac:(simpl; lia) s eq_refl) as Hr. cbn.
    destruct (text_lines s); [by subst|]. destruct Hr as (ls & -> & Hr). cbn. by rewrite Hr.
  - destruct (Z.eqb_spec c 10) as [->|H10]; [by eexists|].
    destruct (text_lines s) as [|k ks]; [subst; by eexists|].
    destruct Hs as (ls & -> & Hs). by eexists.
Qed.

(** Of the lines only the empty ones tell [text_lines] from splitting at every
    carriage return and line feed. *)
Lemma text_lines_split (s : str) :
  List.filter not_empty (text_lines s) = List.filter not_empty (split_any ends_line s).
Proof.
  pose proof (text_lines_heads s) as Hs.
  destruct (text_lines s); [by subst|]. destruct Hs as (ls & -> & Hf). cbn. by rewrite Hf.
Qed.

(** ** Replacement

    [replace] of a three-character code by one character, one code after the
    other, decodes all of them in one pass when no code can arise from the
    output of another. *)

(** One pass over the text: [codes] gives the character that the two after a
    per cent sign stand for. *)
Fixpoint percent_decode (codes : Z → Z → option Z) (s : str) : str :=
  match s with
  | [] => []
  | c :: s1 =>
      match s1 with
      | a :: b :: s2 =>
          if c =? 37 then
            match codes a b with
            | Some d => d :: percent_decode codes s2
            | None => c :: percent_decode codes s1
            end
          else c :: percent_decode codes s1
      | _ => c :: percent_decode codes s1
      end
  end.

Definition no_codes : Z → Z → option Z := λ _ _, None.
Definition add_code (a b d : Z) (codes : Z → Z → option Z) : Z → Z → option Z :=
  λ x y, if (x =? a) && (y =? b) then Some d else codes x y.

Lemma percent_decode_none (s : str) : percent_decode no_codes s = s.
Proof.
  induction s as [|c s IH]; [done|]. cbn [percent_decode].
  destruct s as [|a [|b s]]; [done|by rewrite IH|]. rewrite IH. by case_match.
Qed.

Lemma percent_decode_plain (codes : Z → Z → option Z) (c : Z) (s : str) :
  c ≠ 37 → percent_decode codes (c :: s) = c :: percent_decode codes s.
Proof.
  intros Hc. cbn [percent_decode]. destruct s as [|a [|b s]]; try done.
  by rewrite (proj2 (Z.eqb_neq c 37)).
Qed.

Lemma percent_decode_code (codes : Z → Z → option Z) (x y : Z) (s : str) :
  percent_decode codes (37 :: x :: y :: s) =
  match codes x y with
  | Some d => d :: percent_decode codes s
  | None => 37 :: percent_decode codes (x :: y :: s)
  end.
Proof. reflexivity. Qed.

(** The first character of decoded text is the text's own or one decoded. *)
Lemma percent_decode_head (codes : Z → Z → option Z) (s : str) :
  ∃ y t, percent_decode codes (37 :: s) = y :: t ∧ (y = 37 ∨ ∃ a b, codes a b = Some y).
Proof.
  cbn [percent_decode]. destruct s as [|a [|b s]]; [eauto 10..|].
  rewrite Z.eqb_refl. destruct (codes a b) eqn:E; eauto 10.
Qed.

Section Fusion.
Context (codes : Z → Z → option Z) (a b d : Z).
Hypothesis a_plain : a ≠ 37.
Hypothesis b_plain : b ≠ 37.
Hypothesis fresh : codes a b = None.
Hypothesis outputs : ∀ x y z, codes x y = Some z → z ≠ 37 ∧ z ≠ a ∧ z ≠ b.

(** Decoding creates no occurrence of the code that was not in the text. *)
Lemma percent_decode_no_code (x y : Z) (s : str) :
  ¬ (x = a ∧ y = b) → strip_prefix [37; a; b] (37 :: percent_decode codes (x :: y :: s)) = None.
Proof.
  intros Hxy. cbn [strip_prefix]. rewrite Z.eqb_refl.
  destruct (decide (x = 37)) as [->|Hx].
  { destruct (percent_decode_head codes (y :: s)) as (z & t & -> & Hz). cbn [strip_prefix].
    destruct (Z.eqb_spec a z) as [->|]; [|done]. destruct Hz as [|(? & ? & Hz)]; [done|].
    apply outputs in Hz. naive_solver. }
  rewrite percent_decode_plain by done. cbn [strip_prefix].
  destruct (Z.eqb_spec a x) as [->|]; [|done].
  destruct (decide (y = 37)) as [->|Hy].
  { destruct (percent_decode_head codes s) as (z & t & -> & Hz). cbn [strip_prefix].
    destruct (Z.eqb_spec b z) as [->|]; [|done]. destruct Hz as [|(? & ? & Hz)]; [done|].
    apply outputs in Hz. naive_solver. }
  rewrite percent_decode_plain by done. cbn [strip_prefix].
  destruct (Z.eqb_spec b y) as [->|]; [|done]. naive_solver.
Qed.

(** One more replacement adds its code to the pass. *)
Lemma replace_percent_decode (s : str) :
  replace [37; a; b] [d] (percent_decode codes s) = percent_decode (add_code a b d codes) s.
Proof.
  unfold replace. remember (length s) as n eqn:Hn. revert s Hn.
  induction (lt_wf n) as [n _ IH]. intros s ->. destruct s as [|c s]; [done|].
  pose proof (IH (length s) ltac:(simpl; lia) s eq_refl) as Hs.
  destruct (decide (c = 37)) as [->|Hc].
  2: { rewrite !percent_decode_plain by done. cbn [replace_from].
       rewrite strip_prefix_head by done. by rewrite Hs. }
  destruct s as [|x [|y s]]; [done| |].
  { cbn. repeat case_match; done. }
  pose proof (IH (length s) ltac:(simpl; lia) s eq_refl) as Hr.
  rewrite !percent_decode_code. unfold add_code at 1.
  destruct (codes x y) as [z|] eqn:Exy.
  - replace ((x =? a) && (y =? b)) with false.
    + cbn [replace_from]. rewrite strip_prefix_head by (apply outputs in Exy; naive_solver).
      by rewrite Hr.
    + symmetry. apply andb_false_iff. destruct (Z.eqb_spec x a) as [->|]; [|auto].
      destruct (Z.eqb_spec y b) as [->|]; [congruence|auto].
  - destruct (decide (x = a ∧ y = b)) as [[-> ->]|Hxy].
    + rewrite !Z.eqb_refl. cbn [andb].
      pose proof (percent_decode_plain codes a (b :: s) a_plain) as ->.
      pose proof (percent_decode_plain codes b s b_plain) as ->.
      cbn [replace_from strip_prefix]. rewrite !Z.eqb_refl. cbn. by rewrite Hr.
    + pose proof (percent_decode_no_code x y s Hxy) as Hn.
      cbn [replace_from]. rewrite Hn, Hs.
      replace ((x =? a) && (y =? b)) with false; [done|].
      symmetry. apply andb_false_iff. destruct (Z.eqb_spec x a), (Z.eqb_spec y b); naive_solver.
Qed.

End Fusion.

(** ** Escaping *)

(** Every special character as a per cent sign and its two characters. *)
Definition percent_encode (special : Z → option (Z * Z)) (s : str) : str :=
  s ≫= λ c, match special c with Some (a, b) => [37; a; b] | None => [c] end.

Lemma percent_encode_cons (special : Z → option (Z * Z)) (c : Z) (s : str) :
  percent_encode special (c :: s) =
  match special c with Some (a, b) => [37; a; b] | None => [c] end ++ percent_encode special s.
Proof. apply bind_cons. Qed.

Lemma percent_decode_encode (special : Z → option (Z * Z)) (codes : Z → Z → option Z) (s : str) :
  special 37 ≠ None → (∀ c a b, special c = Some (a, b) → codes a b = Some c) →
  percent_decode codes (percent_encode special s) = s.
Proof.
  intros H37 Hcodes. induction s as [|c s IH]; [done|].
  rewrite percent_encode_cons. destruct (special c) as [[a b]|] eqn:E; cbn [app].
  - by rewrite percent_decode_code, (Hcodes c a b E), IH.
  - rewrite percent_decode_plain, IH; [done|]. by intros ->.
Qed.

(** A special character does not occur in escaped text unless it is part of a
    code. *)
Lemma percent_encode_fresh (special : Z → option (Z * Z)) (c : Z) (s : str) :
  special c ≠ None → c ≠ 37 → (∀ x a b, special x = Some (a, b) → c ≠ a ∧ c ≠ b) →
  c ∉ percent_encode special s.
Proof.
  intros Hc H37 Hcodes. induction s as [|x s IH]; [apply not_elem_of_nil|].
  rewrite percent_encode_cons. destruct (special x) as [[a b]|] eqn:E.
  - apply Hcodes in E. rewrite elem_of_app, !elem_of_cons, elem_of_nil. naive_solver.
  - rewrite elem_of_app, list_elem_of_singleton. naive_solver.
Qed.
