(* ===== verification/WorkflowCommand.v ===== *)
(** * WorkflowCommand: the commands a step prints on its output

    Models [crates/automata-ci-actions-runtime/src/workflow_command.rs] with its
    limits ([limits.rs]), errors ([error.rs]) and events ([model.rs]): the
    recognition of [::name key=value::data] lines, the escapes, the masks, the
    normalisation of annotation locations and the session with its
    stop-commands token.

    A step's output is untrusted: the theorems say what it can and cannot make
    the session do. *)

From S2P Require Import Prelude Text Utf8.

(** ** Limits ([limits.rs]) *)

Definition HARD_MAX_LINE_BYTES : Z := 16 * 1024 * 1024.
Definition HARD_MAX_RECORDS : Z := 1000000.
Definition HARD_MAX_NAME_BYTES : Z := 64 * 1024.
Definition HARD_MAX_VALUE_BYTES : Z := 64 * 1024 * 1024.
Definition HARD_MAX_STREAM_BYTES : Z := 512 * 1024 * 1024.
Definition HARD_MAX_STREAM_LINES : Z := 10000000.
Definition HARD_MAX_PROPERTIES : Z := 16384.
Definition HARD_MAX_MASKS : Z := 1000000.

Record WorkflowCommandLimits := MkWorkflowCommandLimits {
  maximum_stream_bytes : Z;
  maximum_line_bytes : Z;
  maximum_stream_lines : Z;
  maximum_commands : Z;
  maximum_properties : Z;
  maximum_name_bytes : Z;
  maximum_data_bytes : Z;
  maximum_masks : Z;
}.

(** The builder holds the same fields; [build] checks them. *)
Definition workflow_limits_build (self : WorkflowCommandLimits) :
    result unit WorkflowCommandLimits :=
  if (maximum_stream_bytes self =? 0) || (maximum_line_bytes self =? 0) ||
     (maximum_stream_lines self =? 0) || (maximum_commands self =? 0) ||
     (maximum_properties self =? 0) || (maximum_name_bytes self =? 0) ||
     (maximum_data_bytes self =? 0) || (maximum_masks self =? 0) ||
     (HARD_MAX_STREAM_BYTES <? maximum_stream_bytes self) ||
     (HARD_MAX_LINE_BYTES <? maximum_line_bytes self) ||
     (HARD_MAX_STREAM_LINES <? maximum_stream_lines self) ||
     (HARD_MAX_RECORDS <? maximum_commands self) ||
     (HARD_MAX_PROPERTIES <? maximum_properties self) ||
     (HARD_MAX_NAME_BYTES <? maximum_name_bytes self) ||
     (HARD_MAX_VALUE_BYTES <? maximum_data_bytes self) ||
     (HARD_MAX_MASKS <? maximum_masks self)
  then Err tt else Ok self.

Definition workflow_limits_default : WorkflowCommandLimits :=
  MkWorkflowCommandLimits (64 * 1024 * 1024) (1024 * 1024) 1000000 65536 256 4096
    (16 * 1024 * 1024) 65536.

(** ** Errors and events ([error.rs], [model.rs]) *)

Inductive WorkflowCommandError :=
| StreamTooLarge (maximum : Z)
| TooManyLines (maximum : Z)
| WorkflowLineTooLong (maximum : Z)
| WorkflowNonUtf8
| TooManyCommands (maximum : Z)
| TooManyProperties (maximum : Z)
| WorkflowNameTooLong (maximum : Z)
| DataTooLong (maximum : Z)
| MissingRequiredProperty
| InvalidStopToken
| TooManyMasks (maximum : Z)
| InvalidEchoValue.

Inductive AnnotationLevel := LevelError | LevelWarning | LevelNotice.

Record RawProperty := MkRawProperty { property_name : str; property_text : str }.

Record RawCommand := MkRawCommand {
  raw_name : str;
  raw_properties : list RawProperty;
  raw_data : str;
}.

Record Annotation := MkAnnotation {
  annotation_level : AnnotationLevel;
  annotation_message : str;
  annotation_properties : list RawProperty;
}.

Inductive MatcherCommand :=
| MatcherAdd (file : str)
| MatcherRemoveOwner (owner : str)
| MatcherRemoveFile (file : str).

Inductive CommandNotice :=
| EmptyMaskIgnored | MissingMatcherPath | InvalidMatcherRemoval | NoticeBlockedNodeOptions.

Inductive WorkflowCommandEvent :=
| RegisterMask (masks : list str)
| EventAnnotation (annotation : Annotation)
| BeginGroup (title : str)
| EndGroup
| EventDebug (message : str)
| StopCommands (token_mask : option str)
| ResumeCommands
| EventMatcher (command : MatcherCommand)
| EchoChanged (enabled : bool)
| EventNotice (notice : CommandNotice).

Inductive WorkflowLine := OutputLine (text : str) | CommandLine (event : WorkflowCommandEvent).

(** [WorkflowCommandPolicy]. *)
Record WorkflowCommandPolicy := MkWorkflowCommandPolicy { enhanced_annotations : bool }.

(** ** Recognition *)

Definition REGISTERED_COMMANDS : list str :=
  [lit "add-mask"; lit "add-matcher"; lit "debug"; lit "echo"; lit "endgroup"; lit "error";
   lit "group"; lit "notice"; lit "remove-matcher"; lit "stop-commands"; lit "warning"].

Definition is_registered (name : str) : bool :=
  existsb (λ command, eq_ignore_ascii_case command name) REGISTERED_COMMANDS.

Definition registered (command : str) (dynamic_command : option str) : bool :=
  is_registered command ||
  match dynamic_command with
  | Some dynamic => eq_ignore_ascii_case dynamic command
  | None => false
  end.

Definition unescape_v2_data (value : str) : str :=
  replace (lit "%25") (lit "%") (replace (lit "%0A") [10] (replace (lit "%0D") [13] value)).

Definition unescape_v2_property (value : str) : str :=
  replace (lit "%25") (lit "%")
    (replace (lit "%2C") (lit ",")
      (replace (lit "%3A") (lit ":") (replace (lit "%0A") [10] (replace (lit "%0D") [13] value)))).

Definition validate_command_name (name : str) (limits : WorkflowCommandLimits) :
    result WorkflowCommandError unit :=
  reject (maximum_name_bytes limits <? str_len name)
    (WorkflowNameTooLong (maximum_name_bytes limits)).

Definition validate_data (data : str) (limits : WorkflowCommandLimits) :
    result WorkflowCommandError unit :=
  reject (maximum_data_bytes limits <? str_len data) (DataTooLong (maximum_data_bytes limits)).

(** [iter().position(|p| p.name.eq_ignore_ascii_case(name))], found or appended. *)
Fixpoint set_property (properties : list RawProperty) (name value : str) : list RawProperty :=
  match properties with
  | [] => [MkRawProperty name value]
  | property :: rest =>
      if eq_ignore_ascii_case (property_name property) name
      then MkRawProperty (property_name property) value :: rest
      else property :: set_property rest name value
  end.

(** One pass of the loop of [parse_properties]: the pieces counted and the
    properties so far. *)
Definition parse_property (limits : WorkflowCommandLimits) (state : Z * list RawProperty)
    (property : str) : result WorkflowCommandError (Z * list RawProperty) :=
  let property_count := Z.min u64_max (state.1 + 1) in
  _ ← reject (maximum_properties limits <? property_count)
        (TooManyProperties (maximum_properties limits));
  match split_once 61 property with
  | None => Ok (property_count, state.2)
  | Some (name, raw_value) =>
      if str_is_empty name || str_is_empty raw_value then Ok (property_count, state.2)
      else
        _ ← reject (maximum_name_bytes limits <? str_len name)
              (WorkflowNameTooLong (maximum_name_bytes limits));
        let value := unescape_v2_property raw_value in
        _ ← validate_data value limits;
        Ok (property_count, set_property state.2 name value)
  end.

Definition parse_properties (source : str) (limits : WorkflowCommandLimits) :
    result WorkflowCommandError (list RawProperty) :=
  state ← try_fold (parse_property limits) (0, []) (List.filter not_empty (split 44 source));
  Ok state.2.

Definition parse_command (line : str) (limits : WorkflowCommandLimits)
    (dynamic_command : option str) : result WorkflowCommandError (option RawCommand) :=
  let message := trim_start line in
  match strip_prefix (lit "::") message with
  | None => Ok None
  | Some rest =>
      match split_once_str (lit "::") rest with
      | None => Ok None
      | Some (command_info, raw_data) =>
          let space := split_once 32 command_info in
          let command_name := match space with Some (name, _) => name | None => command_info end in
          if negb (registered command_name dynamic_command) then Ok None
          else
            _ ← validate_command_name command_name limits;
            properties ←
              match space with
              | Some (_ :: _, after) => parse_properties (trim after) limits
              | _ => Ok []
              end;
            let data := unescape_v2_data raw_data in
            _ ← validate_data data limits;
            Ok (Some (MkRawCommand command_name properties data))
      end
  end.

(** ** Annotations and matchers *)

Definition property_value (properties : list RawProperty) (name : str) : option str :=
  property_text <$>
    List.find (λ property, eq_ignore_ascii_case (property_name property) name) properties.

Definition remove_property (properties : list RawProperty) (name : str) : list RawProperty :=
  List.filter (λ property, negb (eq_ignore_ascii_case (property_name property) name)) properties.

Definition parse_dotnet_i32 (value : option str) : option Z :=
  text ← value;
  parse_i32 (trim text).

Definition remove_columns (properties : list RawProperty) : list RawProperty :=
  remove_property (remove_property properties (lit "col")) (lit "endColumn").

Definition remove_lines (properties : list RawProperty) : list RawProperty :=
  remove_property (remove_property properties (lit "line")) (lit "endLine").

(** [start.zip(end).is_some_and(|(start, end)| end < start)]. *)
Definition reversed (start end_ : option Z) : bool :=
  match start, end_ with Some start, Some end_ => end_ <? start | _, _ => false end.

Definition normalize_annotation_locations (properties : list RawProperty) : list RawProperty :=
  let line := property_value properties (lit "line") in
  let end_line := property_value properties (lit "endLine") in
  let column := property_value properties (lit "col") in
  let end_column := property_value properties (lit "endColumn") in
  let parsed_line := parse_dotnet_i32 line in
  let parsed_end_line := parse_dotnet_i32 end_line in
  let parsed_column := parse_dotnet_i32 column in
  let parsed_end_column := parse_dotnet_i32 end_column in
  let has_line := is_some parsed_line in
  let has_end_line := is_some parsed_end_line in
  let has_column := is_some parsed_column in
  let has_end_column := is_some parsed_end_column in
  let '(properties, line, parsed_line, has_line) :=
    if has_end_line && negb has_line
    then (set_property properties (lit "line") (default [] end_line), end_line, Some 0, true)
    else (properties, line, parsed_line, has_line) in
  let '(properties, parsed_column, has_column) :=
    if has_end_column && negb has_column
    then (set_property properties (lit "col") (default [] end_column), Some 0, true)
    else (properties, parsed_column, has_column) in
  let properties :=
    if negb has_line && (has_column || has_end_column) then remove_columns properties
    else properties in
  let properties :=
    if has_end_line && negb (bool_decide (line = end_line)) && (has_column || has_end_column)
    then remove_columns properties else properties in
  let properties :=
    if reversed parsed_line parsed_end_line then remove_lines properties else properties in
  if reversed parsed_column parsed_end_column then remove_columns properties else properties.

Definition annotation (level : AnnotationLevel) (command : RawCommand) : Annotation :=
  MkAnnotation level (raw_data command)
    (normalize_annotation_locations (raw_properties command)).

Definition remove_matcher (command : RawCommand) : WorkflowCommandEvent :=
  let owner :=
    match property_value (raw_properties command) (lit "owner") with
    | Some owner => if str_is_empty owner then None else Some owner
    | None => None
    end in
  match owner, str_is_empty (raw_data command) with
  | Some _, false | None, true => EventNotice InvalidMatcherRemoval
  | Some owner, true => EventMatcher (MatcherRemoveOwner owner)
  | None, false => EventMatcher (MatcherRemoveFile (raw_data command))
  end.

(** ** The session *)

Record ActionsWorkflowCommandSession := MkCommandSession {
  limits : WorkflowCommandLimits;
  policy : WorkflowCommandPolicy;
  observed_bytes : Z;
  observed_lines : Z;
  observed_commands : Z;
  registered_masks : Z;
  stopped_token : option str;
  echo_enabled : bool;
}.

Definition command_session_new (limits : WorkflowCommandLimits) (policy : WorkflowCommandPolicy) :
    ActionsWorkflowCommandSession :=
  MkCommandSession limits policy 0 0 0 0 None false.

Definition set_observed (bytes lines : Z) (s : ActionsWorkflowCommandSession) :
    ActionsWorkflowCommandSession :=
  MkCommandSession (limits s) (policy s) bytes lines (observed_commands s) (registered_masks s)
    (stopped_token s) (echo_enabled s).
Definition set_commands (commands : Z) (s : ActionsWorkflowCommandSession) :
    ActionsWorkflowCommandSession :=
  MkCommandSession (limits s) (policy s) (observed_bytes s) (observed_lines s) commands
    (registered_masks s) (stopped_token s) (echo_enabled s).
Definition set_masks (masks : Z) (s : ActionsWorkflowCommandSession) :
    ActionsWorkflowCommandSession :=
  MkCommandSession (limits s) (policy s) (observed_bytes s) (observed_lines s)
    (observed_commands s) masks (stopped_token s) (echo_enabled s).
Definition set_stopped (token : option str) (s : ActionsWorkflowCommandSession) :
    ActionsWorkflowCommandSession :=
  MkCommandSession (limits s) (policy s) (observed_bytes s) (observed_lines s)
    (observed_commands s) (registered_masks s) token (echo_enabled s).
Definition set_echo (enabled : bool) (s : ActionsWorkflowCommandSession) :
    ActionsWorkflowCommandSession :=
  MkCommandSession (limits s) (policy s) (observed_bytes s) (observed_lines s)
    (observed_commands s) (registered_masks s) (stopped_token s) enabled.

Abbreviation sessionM := (stM ActionsWorkflowCommandSession WorkflowCommandError) (only parsing).

Definition observe_line (source : list Z) : sessionM unit :=
  self ← getM;
  let size := Z.of_nat (length source) in
  liftM (reject (maximum_line_bytes (limits self) <? size)
           (WorkflowLineTooLong (maximum_line_bytes (limits self))));;
  bytes ← liftM (ok_or (checked_add u64_max (observed_bytes self) size)
                   (StreamTooLarge (maximum_stream_bytes (limits self))));
  liftM (reject (maximum_stream_bytes (limits self) <? bytes)
           (StreamTooLarge (maximum_stream_bytes (limits self))));;
  lines ← liftM (ok_or (checked_add u64_max (observed_lines self) 1)
                   (TooManyLines (maximum_stream_lines (limits self))));
  liftM (reject (maximum_stream_lines (limits self) <? lines)
           (TooManyLines (maximum_stream_lines (limits self))));;
  modifyM (set_observed bytes lines).

Definition observe_command : sessionM unit :=
  self ← getM;
  commands ← liftM (ok_or (checked_add u64_max (observed_commands self) 1)
                      (TooManyCommands (maximum_commands (limits self))));
  liftM (reject (maximum_commands (limits self) <? commands)
           (TooManyCommands (maximum_commands (limits self))));;
  modifyM (set_commands commands).

Definition register_mask_count (count : Z) : sessionM unit :=
  self ← getM;
  masks ← liftM (ok_or (checked_add u64_max (registered_masks self) count)
                   (TooManyMasks (maximum_masks (limits self))));
  liftM (reject (maximum_masks (limits self) <? masks)
           (TooManyMasks (maximum_masks (limits self))));;
  modifyM (set_masks masks).

(** The value and its lines that are not blank. *)
Definition masks_of (value : str) : list str :=
  value :: List.filter not_empty (trim <$> split_any ends_line value).

Definition add_mask (value : str) : sessionM WorkflowCommandEvent :=
  if str_is_empty (trim value) then mret (EventNotice EmptyMaskIgnored)
  else
    register_mask_count (Z.of_nat (length (masks_of value)));;
    mret (RegisterMask (masks_of value)).

Definition stop_token_byte (c : Z) : bool :=
  is_ascii_alphanumeric c || str_contains (lit "-_.") c.

Definition valid_stop_token (token : str) (maximum_bytes : Z) : bool :=
  negb (str_is_empty token) && (str_len token <=? maximum_bytes) &&
  negb (is_registered token) && negb (eq_ignore_ascii_case token (lit "pause-logging")) &&
  forallb stop_token_byte (as_bytes token).

Definition stop_commands (token : str) : sessionM WorkflowLine :=
  self ← getM;
  liftM (reject (negb (valid_stop_token token (maximum_name_bytes (limits self))))
           InvalidStopToken);;
  token_mask ←
    (if 6 <? str_len token then register_mask_count 1;; mret (Some token) else mret None);
  modifyM (set_stopped (Some token));;
  mret (CommandLine (StopCommands token_mask)).

Definition process_command (raw : RawCommand) (original_line : str) : sessionM WorkflowLine :=
  self ← getM;
  let is_command name := eq_ignore_ascii_case (raw_name raw) name in
  let emit event := mret (CommandLine event) in
  if is_command (lit "add-mask") then event ← add_mask (raw_data raw); emit event
  else if is_command (lit "error") then emit (EventAnnotation (annotation LevelError raw))
  else if is_command (lit "warning") then emit (EventAnnotation (annotation LevelWarning raw))
  else if is_command (lit "notice") then
    if negb (enhanced_annotations (policy self)) then mret (OutputLine original_line)
    else emit (EventAnnotation (annotation LevelNotice raw))
  else if is_command (lit "group") then emit (BeginGroup (raw_data raw))
  else if is_command (lit "endgroup") then emit EndGroup
  else if is_command (lit "debug") then emit (EventDebug (raw_data raw))
  else if is_command (lit "stop-commands") then stop_commands (raw_data raw)
  else if is_command (lit "add-matcher") then
    if str_is_empty (raw_data raw) then emit (EventNotice MissingMatcherPath)
    else emit (EventMatcher (MatcherAdd (raw_data raw)))
  else if is_command (lit "remove-matcher") then emit (remove_matcher raw)
  else if is_command (lit "echo") then
    let value := to_ascii_uppercase <$> trim (raw_data raw) in
    if str_eqb value (lit "ON") then modifyM (set_echo true);; emit (EchoChanged true)
    else if str_eqb value (lit "OFF") then modifyM (set_echo false);; emit (EchoChanged false)
    else liftM (Err InvalidEchoValue)
  else mret (OutputLine original_line).

Definition process_line (source : list Z) : sessionM WorkflowLine :=
  observe_line source;;
  line ← liftM (ok_or (from_utf8 source) WorkflowNonUtf8);
  self ← getM;
  match stopped_token self with
  | Some stop_token =>
      raw ← liftM (parse_command line (limits self) (Some stop_token));
      match raw with
      | Some raw =>
          observe_command;;
          if eq_ignore_ascii_case (raw_name raw) stop_token then
            modifyM (set_stopped None);; mret (CommandLine ResumeCommands)
          else mret (OutputLine line)
      | None => mret (OutputLine line)
      end
  | None =>
      raw ← liftM (parse_command line (limits self) None);
      match raw with
      | None => mret (OutputLine line)
      | Some raw => observe_command;; process_command raw line
      end
  end.

(** The lines of a step, in order; a refused line does not end the session. *)
Fixpoint process_lines (sources : list (list Z)) (self : ActionsWorkflowCommandSession) :
    ActionsWorkflowCommandSession * list (result WorkflowCommandError WorkflowLine) :=
  match sources with
  | [] => (self, [])
  | source :: rest =>
      let '(next, r) := process_line source self in
      let '(final, rs) := process_lines rest next in
      (final, r :: rs)
  end.

(** ** Escapes *)

Definition data_codes : Z → Z → option Z :=
  add_code 50 53 37 (add_code 48 65 10 (add_code 48 68 13 no_codes)).
Definition property_codes : Z → Z → option Z :=
  add_code 50 53 37 (add_code 50 67 44 (add_code 51 65 58 (add_code 48 65 10
    (add_code 48 68 13 no_codes)))).

(** The characters a printer of commands escapes. *)
Definition data_special (c : Z) : option (Z * Z) :=
  if c =? 37 then Some (50, 53) else if c =? 13 then Some (48, 68)
  else if c =? 10 then Some (48, 65) else None.
Definition property_special (c : Z) : option (Z * Z) :=
  if c =? 58 then Some (51, 65) else if c =? 44 then Some (50, 67) else data_special c.

Definition escape_data : str → str := percent_encode data_special.
Definition escape_property : str → str := percent_encode property_special.

(** Reads the equalities off the tests a code was found with. *)
Ltac read_codes :=
  repeat case_match; intros; simplify_eq;
  repeat match goal with H : (_ =? _) = true |- _ => apply Z.eqb_eq in H; subst end.

(** One after the other the replacements decode each code once. *)
Ltac one_pass :=
  match goal with
  | |- context [replace [37; ?a; ?b] [?d] (percent_decode ?codes ?s)] =>
      rewrite (replace_percent_decode codes a b d);
      [|lia|lia|reflexivity|
       intros ???; unfold add_code, no_codes; repeat case_match; intros; simplify_eq; lia]
  end.

Lemma unescape_v2_data_one_pass (s : str) : unescape_v2_data s = percent_decode data_codes s.
Proof.
  unfold unescape_v2_data. rewrite <- (percent_decode_none s) at 1.
  change (lit "%0D") with [37; 48; 68]. change (lit "%0A") with [37; 48; 65].
  change (lit "%25") with [37; 50; 53]. change (lit "%") with [37].
  by repeat one_pass.
Qed.

Lemma unescape_v2_property_one_pass (s : str) :
  unescape_v2_property s = percent_decode property_codes s.
Proof.
  unfold unescape_v2_property. rewrite <- (percent_decode_none s) at 1.
  change (lit "%0D") with [37; 48; 68]. change (lit "%0A") with [37; 48; 65].
  change (lit "%25") with [37; 50; 53]. change (lit "%") with [37].
  change (lit "%3A") with [37; 51; 65]. change (lit "%2C") with [37; 50; 67].
  change (lit ":") with [58]. change (lit ",") with [44].
  by repeat one_pass.
Qed.

Lemma unescape_escape_data (s : str) : unescape_v2_data (escape_data s) = s.
Proof.
  rewrite unescape_v2_data_one_pass. apply percent_decode_encode; [done|].
  intros c a b. unfold data_special. read_codes; reflexivity.
Qed.

Lemma unescape_escape_property (s : str) : unescape_v2_property (escape_property s) = s.
Proof.
  rewrite unescape_v2_property_one_pass. apply percent_decode_encode; [done|].
  intros c a b. unfold property_special, data_special.
  read_codes; reflexivity.
Qed.

Lemma escape_property_fresh (c : Z) (s : str) : c = 58 ∨ c = 44 → c ∉ escape_property s.
Proof.
  intros Hc. apply percent_encode_fresh.
  - destruct Hc as [-> | ->]; done.
  - lia.
  - intros x a b. unfold property_special, data_special.
    repeat case_match; intros; simplify_eq; lia.
Qed.

(** ** Case folding *)

Lemma eq_ignore_ascii_case_spec (s t : str) :
  eq_ignore_ascii_case s t = true ↔ map to_ascii_lowercase s = map to_ascii_lowercase t.
Proof. unfold eq_ignore_ascii_case. by rewrite bool_decide_eq_true. Qed.

Lemma eq_ignore_refl (s : str) : eq_ignore_ascii_case s s = true.
Proof. by apply eq_ignore_ascii_case_spec. Qed.

Lemma eq_ignore_sym (s t : str) : eq_ignore_ascii_case s t = eq_ignore_ascii_case t s.
Proof. unfold eq_ignore_ascii_case. by apply bool_decide_ext. Qed.

(** Names that are equal are told apart from the same names. *)
Lemma eq_ignore_cong (s t u : str) :
  eq_ignore_ascii_case s t = true → eq_ignore_ascii_case s u = eq_ignore_ascii_case t u.
Proof. intros H%eq_ignore_ascii_case_spec. unfold eq_ignore_ascii_case. by rewrite H. Qed.

Lemma to_ascii_lowercase_fixed (c x : Z) :
  to_ascii_lowercase x = c → is_ascii_lowercase c = false → x = c.
Proof.
  unfold to_ascii_lowercase, is_ascii_uppercase, is_ascii_lowercase, in_range.
  destruct (_ && _) eqn:E; [|done]. intros <-. lia.
Qed.

(** A character that is not a letter occurs in a name exactly when it occurs
    in the names it equals. *)
Lemma eq_ignore_elem (c : Z) (s t : str) :
  eq_ignore_ascii_case s t = true → is_ascii_lowercase c = false → is_ascii_uppercase c = false →
  c ∈ t → c ∈ s.
Proof.
  intros H%eq_ignore_ascii_case_spec Hl Hu Hc.
  assert (Hm : to_ascii_lowercase c ∈ map to_ascii_lowercase s).
  { rewrite H. apply list_elem_of_fmap_2. done. }
  unfold to_ascii_lowercase in Hm at 1. rewrite Hu in Hm.
  apply list_elem_of_fmap in Hm as (x & Hx & Hs). symmetry in Hx.
  apply to_ascii_lowercase_fixed in Hx; [by subst|done].
Qed.

Lemma is_registered_chars (name : str) :
  is_registered name = true → name ≠ [] ∧ (58 ∉ name) ∧ (32 ∉ name).
Proof.
  unfold is_registered. rewrite existsb_exists. intros (command & Hin & H).
  assert (Hc : command ≠ [] ∧ (58 ∉ command) ∧ (32 ∉ command)).
  { assert (Hall : forallb (λ c, not_empty c && negb (str_contains c 58) &&
                                 negb (str_contains c 32)) REGISTERED_COMMANDS = true) by done.
    rewrite forallb_forall in Hall. specialize (Hall _ Hin).
    rewrite !andb_true_iff, !negb_true_iff in Hall. destruct Hall as [[Hne H58] H32].
    unfold str_contains in *.
    split_and!; [by destruct command| |]; intros Hx%list_elem_of_In;
      [set (k := 58) in *|set (k := 32) in *];
      (assert (existsb (Z.eqb k) command = true) by
        (apply existsb_exists; exists k; split; [done|apply Z.eqb_refl])); congruence. }
  destruct Hc as (Hne & H58 & H32). split_and!.
  - intros ->. apply eq_ignore_ascii_case_spec in H. by destruct command.
  - intros Hx. apply H58. by eapply eq_ignore_elem.
  - intros Hx. apply H32. by eapply eq_ignore_elem.
Qed.

(** ** Properties *)

Definition same_property (name : str) (p : RawProperty) : bool :=
  eq_ignore_ascii_case (property_name p) name.

Lemma set_property_fresh (ps : list RawProperty) (name value : str) :
  existsb (same_property name) ps = false →
  set_property ps name value = ps ++ [MkRawProperty name value].
Proof.
  induction ps as [|p ps IH]; [done|]. cbn [existsb set_property]. unfold same_property at 1.
  intros [-> H]%orb_false_iff. by rewrite IH.
Qed.

(** No two names are equal up to case. *)
Fixpoint distinct_names (ps : list RawProperty) : bool :=
  match ps with
  | [] => true
  | p :: rest => negb (existsb (same_property (property_name p)) rest) && distinct_names rest
  end.

Lemma existsb_set_property (ps : list RawProperty) (name value other : str) :
  existsb (same_property other) (set_property ps name value) =
  existsb (same_property other) ps || eq_ignore_ascii_case name other.
Proof.
  induction ps as [|p ps IH]; cbn [set_property existsb].
  { unfold same_property. simpl. by rewrite orb_false_r. }
  destruct (eq_ignore_ascii_case (property_name p) name) eqn:E; cbn [existsb].
  - unfold same_property at 1 3. cbn [property_name]. rewrite (eq_ignore_cong _ _ other E).
    destruct (eq_ignore_ascii_case name other), (existsb _ ps); done.
  - rewrite IH. by rewrite orb_assoc.
Qed.

Lemma distinct_set_property (ps : list RawProperty) (name value : str) :
  distinct_names ps = true → distinct_names (set_property ps name value) = true.
Proof.
  induction ps as [|p ps IH]; [done|]. cbn [distinct_names set_property].
  intros [Hp Hps]%andb_true_iff.
  destruct (eq_ignore_ascii_case (property_name p) name) eqn:E; cbn [distinct_names].
  { cbn [property_name]. by rewrite Hp, Hps. }
  rewrite existsb_set_property, IH by done. rewrite eq_ignore_sym, E. apply negb_true_iff in Hp.
  by rewrite Hp.
Qed.

(** Parsed properties have distinct names. *)
Lemma parse_properties_distinct (source : str) (l : WorkflowCommandLimits)
    (ps : list RawProperty) :
  parse_properties source l = Ok ps → distinct_names ps = true.
Proof.
  unfold parse_properties. destruct (try_fold _ _ _) as [st|] eqn:E; [|done].
  simpl. intros [= <-].
  revert E. apply (try_fold_inv (λ _ st, distinct_names st.2 = true)); [done|].
  intros _ x [n qs] [n' qs'] _ Hd. unfold parse_property. cbn [fst snd].
  intros H. unfold_monad. unfold validate_data in H. unfold_monad. split_tests; try done.
  by apply distinct_set_property.
Qed.

(** ** Printed commands *)

Definition print_property (p : RawProperty) : str :=
  property_name p ++ 61 :: escape_property (property_text p).

Definition print_properties (ps : list RawProperty) : str :=
  match ps with [] => [] | _ => 32 :: join 44 (print_property <$> ps) end.

Definition print_command (c : RawCommand) : str :=
  lit "::" ++ raw_name c ++ print_properties (raw_properties c) ++ lit "::" ++
  escape_data (raw_data c).

Definition property_name_char (c : Z) : bool :=
  negb (is_whitespace c) && negb (c =? 44) && negb (c =? 58) && negb (c =? 61).

(** Whether the text ends in a character that [trim] keeps. *)
Definition keeps_end (s : str) : bool :=
  match last s with Some c => negb (is_whitespace c) | None => false end.

Definition printable_property (l : WorkflowCommandLimits) (p : RawProperty) : bool :=
  not_empty (property_name p) && forallb property_name_char (property_name p) &&
  (str_len (property_name p) <=? maximum_name_bytes l) &&
  (str_len (property_text p) <=? maximum_data_bytes l) &&
  keeps_end (escape_property (property_text p)).

(** What a line of the protocol can carry within the limits. *)
Definition printable (l : WorkflowCommandLimits) (c : RawCommand) : bool :=
  is_registered (raw_name c) && (str_len (raw_name c) <=? maximum_name_bytes l) &&
  (str_len (raw_data c) <=? maximum_data_bytes l) &&
  (Z.of_nat (length (raw_properties c)) <=? maximum_properties l) &&
  (maximum_properties l <=? u64_max) &&
  forallb (printable_property l) (raw_properties c) && distinct_names (raw_properties c).

Lemma property_name_fresh (c : Z) (name : str) :
  forallb property_name_char name = true → property_name_char c = false → c ∉ name.
Proof.
  rewrite forallb_forall. intros H Hc Hin%list_elem_of_In%H. congruence.
Qed.

Lemma print_property_fresh (l : WorkflowCommandLimits) (c : Z) (p : RawProperty) :
  printable_property l p = true → c = 58 ∨ c = 44 → c ∉ print_property p.
Proof.
  unfold printable_property. rewrite !andb_true_iff. intros ((((_ & Hn) & _) & _) & _) Hc.
  unfold print_property. rewrite elem_of_app, elem_of_cons.
  intros [Hin|[->|Hin]].
  - eapply property_name_fresh; [exact Hn| |exact Hin]. destruct Hc as [-> | ->]; done.
  - lia.
  - by eapply escape_property_fresh.
Qed.

Lemma split_join (c : Z) (ps : list str) :
  ps ≠ [] → (∀ p, p ∈ ps → c ∉ p) → split c (join c ps) = ps.
Proof.
  induction ps as [|p ps IH]; [done|]. intros _ H. destruct ps as [|q ps].
  - simpl. apply split_no_sep, H. apply list_elem_of_here.
  - change (join c (p :: q :: ps)) with (p ++ c :: join c (q :: ps)).
    rewrite split_app_sep by (apply H, list_elem_of_here). f_equal.
    apply IH; [done|]. intros r Hr. apply H. by apply list_elem_of_further.
Qed.

Lemma join_fresh (c d : Z) (ps : list str) :
  d ≠ c → (∀ p, p ∈ ps → d ∉ p) → d ∉ join c ps.
Proof.
  intros Hd. induction ps as [|p ps IH]; intros H; [apply not_elem_of_nil|].
  assert (Hp : d ∉ p) by (apply H, list_elem_of_here).
  destruct ps as [|q ps]; [done|].
  change (join c (p :: q :: ps)) with (p ++ c :: join c (q :: ps)).
  rewrite elem_of_app, elem_of_cons. intros [?|[?|Hin]]; [done|done|].
  revert Hin. apply IH. intros r Hr. apply H. by apply list_elem_of_further.
Qed.

Lemma join_head (c x : Z) (p : str) (ps : list str) : ∃ t, join c ((x :: p) :: ps) = x :: t.
Proof. destruct ps; simpl; eauto. Qed.

Lemma join_last (c : Z) (ps : list str) (p : str) :
  last ps = Some p → p ≠ [] → last (join c ps) = last p.
Proof.
  intros [ps' ->]%last_Some Hp. induction ps' as [|q ps' IH]; [done|].
  assert (He : ∃ r rs, ps' ++ [p] = r :: rs) by (destruct ps'; simpl; eauto).
  destruct He as (r & rs & He). cbn [app] in *. rewrite He in *.
  change (join c (q :: r :: rs)) with (q ++ c :: join c (r :: rs)).
  rewrite last_app, last_cons, IH. destruct (last p) eqn:E; [done|].
  by apply last_None in E.
Qed.

Lemma distinct_names_fresh (acc ps : list RawProperty) (p : RawProperty) :
  distinct_names (acc ++ p :: ps) = true → existsb (same_property (property_name p)) acc = false.
Proof.
  induction acc as [|q acc IH]; [done|]. cbn [app distinct_names existsb].
  intros [Hq H]%andb_true_iff. rewrite IH by done. rewrite orb_false_r.
  rewrite negb_true_iff, existsb_app in Hq. apply orb_false_iff in Hq as [_ Hq].
  cbn [existsb] in Hq. apply orb_false_iff in Hq as [Hq _].
  unfold same_property in *. by rewrite eq_ignore_sym.
Qed.

Lemma parse_printed_property (l : WorkflowCommandLimits) (n : Z) (acc : list RawProperty)
    (p : RawProperty) :
  printable_property l p = true → n + 1 <= maximum_properties l → maximum_properties l <= u64_max →
  existsb (same_property (property_name p)) acc = false →
  parse_property l (n, acc) (print_property p) = Ok (n + 1, acc ++ [p]).
Proof.
  unfold printable_property. rewrite !andb_true_iff.
  intros ((((Hne & Hn) & Hln) & Hlt) & Hend) Hmax Hu Hfresh.
  destruct p as [name text]. cbn [property_name property_text] in *.
  unfold parse_property, print_property. cbn [fst snd property_name property_text].
  rewrite Z.min_r by lia. unfold reject, validate_data.
  replace (maximum_properties l <? n + 1) with false by lia.
  replace (split_once 61 (name ++ 61 :: escape_property text))
    with (Some (name, escape_property text)).
  2: { symmetry. apply split_once_Some. split; [done|]. by eapply property_name_fresh. }
  assert (He : str_is_empty (escape_property text) = false)
    by (by destruct (escape_property text)).
  assert (Hi : str_is_empty name = false) by (by destruct name).
  rewrite He, Hi. cbn. unfold reject.
  replace (maximum_name_bytes l <? str_len name) with false by lia. cbn.
  rewrite unescape_escape_property.
  replace (maximum_data_bytes l <? str_len text) with false by lia. cbn.
  by rewrite set_property_fresh.
Qed.

Lemma parse_printed_properties (l : WorkflowCommandLimits) (ps acc : list RawProperty) (n : Z) :
  forallb (printable_property l) ps = true → n + Z.of_nat (length ps) <= maximum_properties l →
  maximum_properties l <= u64_max → distinct_names (acc ++ ps) = true →
  try_fold (parse_property l) (n, acc) (print_property <$> ps) =
  Ok (n + Z.of_nat (length ps), acc ++ ps).
Proof.
  revert n acc. induction ps as [|p ps IH]; intros n acc Hps Hlen Hu Hd.
  { simpl. by rewrite app_nil_r, Z.add_0_r. }
  cbn [forallb] in Hps. apply andb_true_iff in Hps as [Hp Hps].
  cbn [length] in *. cbn [try_fold fmap list_fmap].
  rewrite parse_printed_property; [|done|lia|done|by eapply distinct_names_fresh].
  cbn [mbind result_bind].
  etransitivity; [apply IH; [done|lia|done|by rewrite <- app_assoc]|].
  rewrite <- app_assoc. cbn [app]. f_equal. f_equal. lia.
Qed.

(** Printed properties begin and end in characters that [trim] keeps. *)
Lemma trim_printed (l : WorkflowCommandLimits) (ps : list RawProperty) :
  ps ≠ [] → forallb (printable_property l) ps = true →
  trim (join 44 (print_property <$> ps)) = join 44 (print_property <$> ps).
Proof.
  intros Hne Hps. rewrite forallb_forall in Hps.
  assert (Hhead : ∃ x t, join 44 (print_property <$> ps) = x :: t ∧ is_whitespace x = false).
  { destruct ps as [|p ps]; [done|]. pose proof (Hps p (or_introl eq_refl)) as Hp.
    unfold printable_property in Hp. rewrite !andb_true_iff in Hp.
    destruct Hp as ((((Hn & Hc) & _) & _) & _). destruct p as [[|x name] text]; [done|].
    cbn [property_name forallb] in Hc. apply andb_true_iff in Hc as [Hx _].
    cbn [fmap list_fmap]. unfold print_property at 1. cbn [property_name app].
    destruct (join_head 44 x (name ++ 61 :: escape_property text) (print_property <$> ps)) as [t Ht].
    exists x, t. split; [exact Ht|]. unfold property_name_char in Hx.
    by destruct (is_whitespace x). }
  assert (Hlast : ∃ t d, join 44 (print_property <$> ps) = t ++ [d] ∧ is_whitespace d = false).
  { destruct (last ps) as [p|] eqn:El; [|by apply last_None in El].
    assert (Hp : printable_property l p = true).
    { apply Hps. apply list_elem_of_In. apply last_Some in El as [q ->].
      rewrite elem_of_app. right. apply list_elem_of_here. }
    unfold printable_property in Hp. rewrite !andb_true_iff in Hp. destruct Hp as [_ Hend].
    unfold keeps_end in Hend.
    destruct (last (escape_property (property_text p))) as [d|] eqn:Ed; [|done].
    assert (Hj : last (join 44 (print_property <$> ps)) = Some d).
    { rewrite (join_last 44 _ (print_property p)).
      - unfold print_property. by rewrite last_app, last_cons, Ed.
      - by rewrite fmap_last, El.
      - unfold print_property. intros H%app_eq_nil. naive_solver. }
    apply last_Some in Hj as [t Ht]. exists t, d. split; [done|]. by destruct (is_whitespace d). }
  destruct Hhead as (x & t & Hx & Hwx), Hlast as (u & d & Hd & Hwd).
  rewrite Hx. apply (trim_id x d t u); [done|done|congruence].
Qed.

Lemma parse_properties_printed (l : WorkflowCommandLimits) (ps : list RawProperty) :
  ps ≠ [] → forallb (printable_property l) ps = true →
  Z.of_nat (length ps) <= maximum_properties l → maximum_properties l <= u64_max →
  distinct_names ps = true →
  parse_properties (trim (join 44 (print_property <$> ps))) l = Ok ps.
Proof.
  intros Hne Hps Hlen Hu Hd. rewrite (trim_printed l) by done. unfold parse_properties.
  rewrite forallb_forall in Hps.
  rewrite split_join.
  - replace (List.filter not_empty (print_property <$> ps)) with (print_property <$> ps).
    + rewrite (parse_printed_properties l ps []); try done.
      by apply forallb_forall.
    + clear. induction ps as [|[name text] ps IH]; [done|].
      cbn [fmap list_fmap List.filter] in *. rewrite <- IH. by destruct name.
  - by destruct ps.
  - intros p (q & -> & Hq)%list_elem_of_fmap.
    apply (print_property_fresh l); [by apply Hps, list_elem_of_In|auto].
Qed.

Lemma parse_printed_command (l : WorkflowCommandLimits) (c : RawCommand)
    (dynamic_command : option str) :
  printable l c = true → parse_command (print_command c) l dynamic_command = Ok (Some c).
Proof.
  unfold printable. rewrite !andb_true_iff.
  intros ((((((Hr & Hln) & Hld) & Hlen) & Hu) & Hps) & Hd).
  destruct c as [name ps data]. cbn [raw_name raw_properties raw_data] in *.
  destruct (is_registered_chars name Hr) as (Hne & H58 & H32).
  unfold print_command. cbn [raw_name raw_properties raw_data].
  set (mid := print_properties ps).
  assert (Hmid : 58 ∉ name ++ mid).
  { rewrite elem_of_app. intros [?|Hin]; [done|]. subst mid.
    destruct ps as [|p ps]; [by apply elem_of_nil in Hin|].
    apply elem_of_cons in Hin as [?|Hin]; [done|]. revert Hin. apply join_fresh; [done|].
    intros q (r & -> & Hq)%list_elem_of_fmap. rewrite forallb_forall in Hps.
    eapply print_property_fresh; [apply Hps, list_elem_of_In, Hq|auto]. }
  unfold parse_command. change (lit "::") with [58; 58].
  change (trim_start ([58; 58] ++ ?x)) with ([58; 58] ++ x).
  cbn zeta. rewrite strip_prefix_app, app_assoc.
  pose proof (split_once_str_fresh 58 [58] (name ++ mid) (escape_data data) Hmid) as ->.
  assert (Hs : split_once 32 (name ++ mid) =
    match ps with [] => None | _ => Some (name, join 44 (print_property <$> ps)) end).
  { subst mid. destruct ps as [|p ps].
    - rewrite app_nil_r. by apply split_once_None.
    - by apply split_once_Some. }
  rewrite Hs. unfold registered, validate_command_name, validate_data, reject.
  replace (match match ps with [] => None | _ => Some (name, join 44 (print_property <$> ps)) end with
           | Some (n, _) => n | None => name ++ mid end) with name
    by (subst mid; destruct ps; [by rewrite app_nil_r|done]).
  rewrite Hr. cbn [orb negb]. replace (maximum_name_bytes l <? str_len name) with false by lia.
  rewrite unescape_escape_data. cbn [mbind result_bind].
  replace (maximum_data_bytes l <? str_len data) with false by lia.
  destruct ps as [|p ps]; [done|]. destruct name as [|x name]; [done|].
  rewrite parse_properties_printed; [done|done|done|lia|lia|done].
Qed.

(** A command that a line can carry and that fits the limits parses back
    from its printed form: its name as written, its properties in order, and
    every value and the data with their escapes undone. *)
Lemma printed_commands_parse (l : WorkflowCommandLimits) (c : RawCommand)
    (dynamic_command : option str) :
  printable l c = true → parse_command (print_command c) l dynamic_command = Ok (Some c).
Proof. apply parse_printed_command. Qed.

(** ** One line of the session *)

(** The errors that say a configured limit is reached. *)
Definition is_limit_error (e : WorkflowCommandError) : bool :=
  match e with
  | StreamTooLarge _ | TooManyLines _ | WorkflowLineTooLong _ | TooManyCommands _
  | TooManyMasks _ => true
  | _ => false
  end.

Section Steps.
Implicit Types (s t : ActionsWorkflowCommandSession).

Lemma observe_line_spec (source : list Z) s t (r : result WorkflowCommandError unit) :
  observe_line source s = (t, r) →
  (t = s ∧ ∃ e, r = Err e ∧ is_limit_error e = true) ∨
  (r = Ok tt ∧ observed_bytes s + Z.of_nat (length source) <= maximum_stream_bytes (limits s) ∧
   observed_lines s + 1 <= maximum_stream_lines (limits s) ∧
   t = set_observed (observed_bytes s + Z.of_nat (length source)) (observed_lines s + 1) s).
Proof.
  unfold observe_line, checked_add. intros H. unfold_monad. split_tests; eauto 6.
  right. split_and!; [done|lia..|done].
Qed.

Lemma observe_command_spec s t (r : result WorkflowCommandError unit) :
  observe_command s = (t, r) →
  (t = s ∧ ∃ e, r = Err e ∧ is_limit_error e = true) ∨
  (r = Ok tt ∧ observed_commands s + 1 <= maximum_commands (limits s) ∧
   t = set_commands (observed_commands s + 1) s).
Proof.
  unfold observe_command, checked_add. intros H. unfold_monad. split_tests; eauto 6.
  right. split_and!; [done|lia|done].
Qed.

Lemma register_mask_count_spec (count : Z) s t (r : result WorkflowCommandError unit) :
  register_mask_count count s = (t, r) →
  (t = s ∧ ∃ e, r = Err e ∧ is_limit_error e = true) ∨
  (r = Ok tt ∧ registered_masks s + count <= maximum_masks (limits s) ∧
   t = set_masks (registered_masks s + count) s).
Proof.
  unfold register_mask_count, checked_add. intros H. unfold_monad. split_tests; eauto 6.
  right. split_and!; [done|lia|done].
Qed.

(** The masks an event hands to the log. *)
Definition event_masks (event : WorkflowCommandEvent) : list str :=
  match event with
  | RegisterMask masks => masks
  | StopCommands (Some token) => [token]
  | _ => []
  end.

Definition line_masks (r : result WorkflowCommandError WorkflowLine) : Z :=
  match r with Ok (CommandLine event) => Z.of_nat (length (event_masks event)) | _ => 0 end.

Definition is_event (r : result WorkflowCommandError WorkflowLine) : bool :=
  match r with Ok (CommandLine _) => true | _ => false end.

(** Printed as it is or refused. *)
Definition inert (source : list Z) (r : result WorkflowCommandError WorkflowLine) : Prop :=
  match r with
  | Ok (OutputLine line) => from_utf8 source = Some line
  | Ok (CommandLine _) => False
  | Err _ => True
  end.

(** What acting on a command can change. *)
Definition acted (s t : ActionsWorkflowCommandSession)
    (r : result WorkflowCommandError WorkflowLine) : Prop :=
  limits t = limits s ∧ policy t = policy s ∧ observed_bytes t = observed_bytes s ∧
  observed_lines t = observed_lines s ∧ observed_commands t = observed_commands s ∧
  registered_masks t = registered_masks s + line_masks r ∧
  (registered_masks t = registered_masks s ∨ registered_masks t <= maximum_masks (limits s)).

Lemma acted_refl s (r : result WorkflowCommandError WorkflowLine) : line_masks r = 0 → acted s s r.
Proof. unfold acted. intros ->. rewrite Z.add_0_r. naive_solver. Qed.

Lemma add_mask_acted (value : str) s t (r : result WorkflowCommandError WorkflowCommandEvent) :
  add_mask value s = (t, r) →
  acted s t (match r with Ok event => Ok (CommandLine event) | Err e => Err e end).
Proof.
  unfold add_mask, mbind, stM_bind, mret, stM_ret.
  destruct (str_is_empty _); [intros [= <- <-]; by apply acted_refl|].
  destruct (register_mask_count _ s) as [t' r'] eqn:E.
  apply register_mask_count_spec in E as [[-> (e & -> & _)]|(-> & Hle & ->)]; intros [= <- <-].
  - by apply acted_refl.
  - unfold acted. cbn. split_and!; auto.
Qed.

Lemma stop_commands_acted (token : str) s t (r : result WorkflowCommandError WorkflowLine) :
  stop_commands token s = (t, r) → acted s t r.
Proof.
  unfold stop_commands, liftM, reject, getM, modifyM, mbind, stM_bind, mret, stM_ret.
  destruct (negb _); [intros [= <- <-]; by apply acted_refl|]. destruct (6 <? _).
  - destruct (register_mask_count _ s) as [t' r'] eqn:E.
    apply register_mask_count_spec in E as [[-> (e & -> & _)]|(-> & Hle & ->)]; intros [= <- <-].
    + by apply acted_refl.
    + unfold acted. cbn. split_and!; auto.
  - intros [= <- <-]. unfold acted. cbn. split_and!; auto with lia.
Qed.

Lemma process_command_acted (raw : RawCommand) (line : str) s t
    (r : result WorkflowCommandError WorkflowLine) :
  process_command raw line s = (t, r) → acted s t r.
Proof.
  unfold process_command, getM, liftM, modifyM, mbind, stM_bind, mret, stM_ret. cbn zeta.
  repeat match goal with
  | |- (if ?b then _ else _) _ = _ → _ => destruct b
  end; try (intros [= <- <-]; by apply acted_refl).
  - destruct (add_mask (raw_data raw) s) as [t' r'] eqn:E. apply add_mask_acted in E.
    by destruct r'; intros [= <- <-].
  - apply stop_commands_acted.
  - unfold remove_matcher. intros [= <- <-]. apply acted_refl. by repeat case_match.
  - intros [= <- <-]. unfold acted. cbn. split_and!; auto with lia.
  - intros [= <- <-]. unfold acted. cbn. split_and!; auto with lia.
Qed.

(** The line is counted, then the command, then its effect is acted. *)
Lemma process_line_cases (source : list Z) s t (r : result WorkflowCommandError WorkflowLine) :
  process_line source s = (t, r) →
  (t = s ∧ ∃ e, r = Err e) ∨
  ∃ s1, observe_line source s = (s1, Ok tt) ∧
    ((t = s1 ∧ inert source r) ∨
     ∃ line raw s2, from_utf8 source = Some line ∧
       parse_command line (limits s) (stopped_token s) = Ok (Some raw) ∧
       observe_command s1 = (s2, Ok tt) ∧
       match stopped_token s with
       | None => process_command raw line s2 = (t, r)
       | Some token =>
           if eq_ignore_ascii_case (raw_name raw) token
           then t = set_stopped None s2 ∧ r = Ok (CommandLine ResumeCommands)
           else t = s2 ∧ r = Ok (OutputLine line)
       end).
Proof.
  unfold process_line, liftM, getM, modifyM, ok_or, mbind, stM_bind, mret, stM_ret.
  destruct (observe_line source s) as [s1 [[]|e]] eqn:E1.
  2: { intros [= <- <-]. apply observe_line_spec in E1 as [[-> _]|(? & _)]; [eauto|done]. }
  pose proof E1 as E1'.
  apply observe_line_spec in E1' as [[_ (e & ? & _)]|(_ & _ & _ & Hs1)]; [done|].
  assert (Hl : limits s1 = limits s ∧ stopped_token s1 = stopped_token s) by (by rewrite Hs1).
  destruct Hl as [-> ->]. intros H. right. exists s1. split; [done|]. revert H.
  unfold inert. destruct (from_utf8 source) as [line|]; [|intros [= <- <-]; auto].
  destruct (stopped_token s) as [token|];
    (destruct (parse_command _ _ _) as [[raw|]|e] eqn:Ep; [|intros [= <- <-]; auto..];
     destruct (observe_command s1) as [s2 [[]|e]] eqn:E2;
     [|intros [= <- <-]; apply observe_command_spec in E2 as [[-> _]|(? & _)]; [auto|done]]).
  - destruct (eq_ignore_ascii_case (raw_name raw) token) eqn:Et; intros [= <- <-]; right;
      exists line, raw, s2; rewrite Et; eauto 10.
  - intros H. right. exists line, raw, s2. eauto 10.
Qed.

End Steps.

(** ** Limits of a session *)

Definition accepted (r : result WorkflowCommandError WorkflowLine) : bool := is_ok r.

(** What a line, or several, can add to the counters. *)
Definition counted (s t : ActionsWorkflowCommandSession) (lines commands masks : Z) : Prop :=
  limits t = limits s ∧ policy t = policy s ∧
  observed_bytes s <= observed_bytes t <= Z.max (observed_bytes s) (maximum_stream_bytes (limits s)) ∧
  observed_lines s + lines <= observed_lines t
    <= Z.max (observed_lines s) (maximum_stream_lines (limits s)) ∧
  observed_commands s + commands <= observed_commands t
    <= Z.max (observed_commands s) (maximum_commands (limits s)) ∧
  registered_masks t = registered_masks s + masks ∧
  registered_masks t <= Z.max (registered_masks s) (maximum_masks (limits s)).

Lemma counted_refl (s : ActionsWorkflowCommandSession) : counted s s 0 0 0.
Proof. unfold counted. split_and!; (done || lia). Qed.

Lemma counted_trans (s t u : ActionsWorkflowCommandSession) (l1 c1 m1 l2 c2 m2 : Z) :
  counted s t l1 c1 m1 → counted t u l2 c2 m2 → counted s u (l1 + l2) (c1 + c2) (m1 + m2).
Proof.
  unfold counted. intros (Hl & Hp & H1 & H2 & H3 & H4 & H5) (Hl' & Hp' & K1 & K2 & K3 & K4 & K5).
  rewrite Hl in *. rewrite Hl', Hp', Hp. split_and!; (done || lia).
Qed.

Lemma process_line_counted (source : list Z) (s t : ActionsWorkflowCommandSession)
    (r : result WorkflowCommandError WorkflowLine) :
  process_line source s = (t, r) →
  counted s t (Z.b2z (accepted r)) (Z.b2z (is_event r)) (line_masks r).
Proof.
  intros [[-> [e ->]]|(s1 & E1 & H)]%process_line_cases; [apply counted_refl|].
  apply observe_line_spec in E1 as [[_ (? & ? & _)]|(_ & Hb & Hn & ->)]; [done|].
  assert (Ha : 0 <= Z.b2z (accepted r) <= 1) by (destruct (accepted r); simpl; lia).
  destruct H as [[-> Hr]|(line & raw & s2 & _ & _ & E2 & H)].
  { unfold counted. destruct r as [[|]|]; try done; cbn; split_and!; (done || lia). }
  apply observe_command_spec in E2 as [[_ (? & ? & _)]|(_ & Hc & ->)]; [done|].
  destruct (stopped_token s) as [token|].
  - destruct (eq_ignore_ascii_case _ _); destruct H as [-> ->]; unfold counted; cbn in *;
      split_and!; (done || lia).
  - apply process_command_acted in H as (Hl & Hp & Hob & Hol & Hoc & Hm & Hmax).
    unfold counted. cbn in *. rewrite Hl, Hp, Hob, Hol, Hoc.
    destruct (is_event r); simpl; split_and!; (done || lia).
Qed.

Fixpoint sum_of {A : Type} (f : A → Z) (l : list A) : Z :=
  match l with [] => 0 | x :: l => f x + sum_of f l end.

Lemma process_lines_counted (sources : list (list Z)) (s t : ActionsWorkflowCommandSession)
    (rs : list (result WorkflowCommandError WorkflowLine)) :
  process_lines sources s = (t, rs) →
  counted s t (sum_of (λ r, Z.b2z (accepted r)) rs) (sum_of (λ r, Z.b2z (is_event r)) rs)
    (sum_of line_masks rs).
Proof.
  revert s rs. induction sources as [|source sources IH]; intros s rs; simpl.
  { intros [= <- <-]. apply counted_refl. }
  destruct (process_line source s) as [s1 r] eqn:E1.
  destruct (process_lines sources s1) as [s2 rs'] eqn:E2. intros [= <- <-].
  cbn [sum_of]. eapply counted_trans; [by eapply process_line_counted|by apply IH].
Qed.

(** The fields of the limits are [usize]s. *)
Definition limits_typed (l : WorkflowCommandLimits) : bool :=
  forallb (in_range 0 u64_max)
    [maximum_stream_bytes l; maximum_line_bytes l; maximum_stream_lines l; maximum_commands l;
     maximum_properties l; maximum_name_bytes l; maximum_data_bytes l; maximum_masks l].

(** Whatever bytes a step prints, a session that started empty accepts at
    most the configured number of lines, acts on at most the configured number
    of commands and hands out at most the configured number of masks; the
    counters it keeps are exact for the masks and never below the true number
    for lines and commands. *)
Lemma session_stays_within_limits (l : WorkflowCommandLimits) (p : WorkflowCommandPolicy)
    (sources : list (list Z)) (final : ActionsWorkflowCommandSession)
    (rs : list (result WorkflowCommandError WorkflowLine)) :
  limits_typed l = true → process_lines sources (command_session_new l p) = (final, rs) →
  sum_of (λ r, Z.b2z (accepted r)) rs <= observed_lines final <= maximum_stream_lines l ∧
  sum_of (λ r, Z.b2z (is_event r)) rs <= observed_commands final <= maximum_commands l ∧
  sum_of line_masks rs = registered_masks final ∧ registered_masks final <= maximum_masks l ∧
  observed_bytes final <= maximum_stream_bytes l.
Proof.
  unfold limits_typed, in_range. cbn [forallb]. rewrite !andb_true_iff. intros Hl H.
  apply process_lines_counted in H as (_ & _ & H1 & H2 & H3 & H4 & H5). cbn in *. lia.
Qed.

(** ** Stopping and resuming *)

(** Whether the text behind the leading colons of a line begins with the
    token, in any case. *)
Definition carries_token (token : str) (source : list Z) : bool :=
  match from_utf8 source with
  | None => false
  | Some line =>
      match strip_prefix (lit "::") (trim_start line) with
      | None => false
      | Some rest => eq_ignore_ascii_case (take (length token) rest) token
      end
  end.

Lemma eq_ignore_length (s t : str) : eq_ignore_ascii_case s t = true → length s = length t.
Proof.
  intros H%eq_ignore_ascii_case_spec%(f_equal length).
  by rewrite !length_map in H.
Qed.

(** The name of a parsed command is the text behind the leading colons. *)
Lemma parse_command_name (line : str) (l : WorkflowCommandLimits) (dyn : option str)
    (raw : RawCommand) :
  parse_command line l dyn = Ok (Some raw) →
  registered (raw_name raw) dyn = true ∧
  ∃ rest, strip_prefix (lit "::") (trim_start line) = Some (raw_name raw ++ rest).
Proof.
  unfold parse_command. cbv zeta. destruct (strip_prefix _ _) as [rest|]; [|done].
  destruct (split_once_str _ rest) as [[info data]|] eqn:Es; [|done].
  apply split_once_str_Some in Es.
  set (name := match split_once 32 info with Some (n, _) => n | None => info end).
  assert (Hname : ∃ x, info = name ++ x).
  { subst name. destruct (split_once 32 info) as [[a b]|] eqn:E.
    - apply split_once_Some in E as [-> _]. eauto.
    - exists []. by rewrite app_nil_r. }
  assert (Hrest : ∃ y, rest = name ++ y).
  { destruct Hname as [x Hx]. exists (x ++ lit "::" ++ data).
    by rewrite Es, Hx at 1; rewrite <- app_assoc. }
  clear Es Hname. destruct Hrest as [y ->]. clearbody name.
  destruct (negb (registered name dyn)) eqn:Er; [done|]. apply negb_false_iff in Er.
  intros H. unfold validate_command_name, validate_data in H. unfold_monad.
  split_tests; eauto.
Qed.

(** While stopped, a line without the token changes only the counters. *)
Lemma stopped_line_inert (source : list Z) (s t : ActionsWorkflowCommandSession) (token : str)
    (r : result WorkflowCommandError WorkflowLine) :
  stopped_token s = Some token → carries_token token source = false →
  process_line source s = (t, r) →
  inert source r ∧ stopped_token t = Some token ∧ echo_enabled t = echo_enabled s ∧
  registered_masks t = registered_masks s ∧ limits t = limits s.
Proof.
  intros Hs Hc [[-> [e ->]]|(s1 & E1 & Hr)]%process_line_cases; [done|].
  apply observe_line_spec in E1 as [[_ (? & ? & _)]|(_ & _ & _ & ->)]; [done|].
  destruct Hr as [[-> Hr]|(line & raw & s2 & Hu & Hp & E2 & Hr)]; [done|].
  apply observe_command_spec in E2 as [[_ (? & ? & _)]|(_ & _ & ->)]; [done|].
  rewrite Hs in *. destruct (eq_ignore_ascii_case (raw_name raw) token) eqn:Et.
  - exfalso. apply parse_command_name in Hp as [_ [rest Hrest]].
    unfold carries_token in Hc. rewrite Hu, Hrest, <- (eq_ignore_length _ _ Et), take_app_length in Hc.
    congruence.
  - by destruct Hr as [-> ->].
Qed.

Lemma stopped_lines_inert (sources : list (list Z)) (s t : ActionsWorkflowCommandSession)
    (token : str) (rs : list (result WorkflowCommandError WorkflowLine)) :
  stopped_token s = Some token → forallb (λ source, negb (carries_token token source)) sources = true →
  process_lines sources s = (t, rs) →
  Forall2 inert sources rs ∧ stopped_token t = Some token ∧ echo_enabled t = echo_enabled s ∧
  registered_masks t = registered_masks s ∧ limits t = limits s.
Proof.
  revert s rs. induction sources as [|source sources IH]; intros s rs Hs; cbn [forallb process_lines].
  { by intros _ [= <- <-]. }
  intros [Hc Hcs]%andb_true_iff. apply negb_true_iff in Hc.
  destruct (process_line source s) as [s1 r] eqn:E1.
  destruct (process_lines sources s1) as [s2 rs'] eqn:E2. intros [= <- <-].
  destruct (stopped_line_inert _ _ _ _ _ Hs Hc E1) as (Hr & Hs1 & He & Hm & Hl).
  destruct (IH _ _ Hs1 Hcs E2) as (Hrs & ? & He2 & Hm2 & Hl2).
  split_and!; [by constructor|done|congruence..].
Qed.

Lemma stop_token_byte_range (c : Z) : stop_token_byte c = true → 45 <= c <= 122.
Proof.
  unfold stop_token_byte, is_ascii_alphanumeric, is_ascii_digit, is_ascii_lowercase,
    is_ascii_uppercase, in_range, str_contains. change (lit "-_.") with [45; 95; 46].
  cbn [existsb]. lia.
Qed.

Lemma stop_token_ascii (token : str) :
  forallb stop_token_byte (as_bytes token) = true → forallb stop_token_byte token = true.
Proof.
  induction token as [|c token IH]; [done|]. change (c :: token) with ([c] ++ token).
  rewrite as_bytes_app, !forallb_app, !andb_true_iff. intros [Hc Ht]. split; [|by apply IH].
  revert Hc. unfold as_bytes. cbn [mbind list_bind]. rewrite app_nil_r. unfold utf8_char. cbv zeta.
  destruct (Z.ltb_spec c 128); [done|]. intros Hc. exfalso.
  assert (Hd : ∀ n, 0 <= n → 0 <= c / 2 ^ n) by (intros; apply Z.div_pos; lia).
  pose proof (Hd 6 ltac:(lia)). pose proof (Hd 12 ltac:(lia)). pose proof (Hd 18 ltac:(lia)).
  assert (Hb : ∃ b, 192 <= b ∧ stop_token_byte b = true).
  { destruct (Z.ltb_spec c 2048); [|destruct (Z.ltb_spec c 65536)]; cbn [forallb] in Hc;
      apply andb_true_iff in Hc as [Hc _]; eexists; (split; [|exact Hc]); lia. }
  destruct Hb as (b & Hb & H'%stop_token_byte_range). lia.
Qed.

Lemma stop_token_fresh (token : str) (c : Z) :
  forallb stop_token_byte token = true → stop_token_byte c = false → c ∉ token.
Proof. rewrite forallb_forall. intros H Hc Hin%list_elem_of_In%H. congruence. Qed.

Lemma stop_token_scalar (token : str) :
  forallb stop_token_byte token = true → forallb is_scalar token = true.
Proof.
  rewrite !forallb_forall. intros H c Hc%H%stop_token_byte_range.
  unfold is_scalar, in_range. lia.
Qed.

(** A session stops only with a token that its own line gives back. *)
Lemma stop_event (source : list Z) (s t : ActionsWorkflowCommandSession) (mask : option str) :
  process_line source s = (t, Ok (CommandLine (StopCommands mask))) →
  ∃ token, stopped_token t = Some token ∧ limits t = limits s ∧
    valid_stop_token token (maximum_name_bytes (limits s)) = true.
Proof.
  intros [[-> [e ?]]|(s1 & E1 & Hr)]%process_line_cases; [done|].
  apply observe_line_spec in E1 as [[_ (? & ? & _)]|(_ & _ & _ & ->)]; [done|].
  destruct Hr as [[-> Hr]|(line & raw & s2 & Hu & Hp & E2 & Hr)]; [done|].
  apply observe_command_spec in E2 as [[_ (? & ? & _)]|(_ & _ & ->)]; [done|].
  destruct (stopped_token s) as [token|]; [case_match; naive_solver|].
  set (s2 := set_commands _ _) in Hr. assert (Hl : limits s2 = limits s) by done.
  clearbody s2. rewrite <- Hl. revert Hr.
  unfold process_command, getM, liftM, modifyM, mbind, stM_bind, mret, stM_ret. cbn zeta.
  repeat match goal with
  | |- (if ?b then _ else _) _ = _ → _ => destruct b
  end; try done.
  - unfold add_mask, mbind, stM_bind, mret, stM_ret. destruct (str_is_empty _); [done|].
    destruct (register_mask_count _ _) as [? [|]]; naive_solver.
  - unfold stop_commands, liftM, reject, getM, modifyM, mbind, stM_bind, mret, stM_ret.
    destruct (valid_stop_token _ _) eqn:Hv; [cbn [negb]|done]. destruct (6 <? _).
    + destruct (register_mask_count _ s2) as [t' r'] eqn:E.
      apply register_mask_count_spec in E as [[-> (e & -> & _)]|(-> & Hle & ->)]; [done|].
      intros [= <- _]. cbn. eauto.
    + intros [= <- _]. cbn. eauto.
  - unfold remove_matcher. intros [= _ H]. exfalso. revert H. by repeat case_match.
Qed.

Lemma parse_resume (token : str) (l : WorkflowCommandLimits) :
  valid_stop_token token (maximum_name_bytes l) = true → 0 <= maximum_data_bytes l →
  parse_command (lit "::" ++ token ++ lit "::") l (Some token) = Ok (Some (MkRawCommand token [] [])).
Proof.
  unfold valid_stop_token. rewrite !andb_true_iff. intros ((((Hne & Hlen) & _) & _) & Hb) Hd.
  apply stop_token_ascii in Hb.
  unfold parse_command. change (lit "::") with [58; 58].
  change (trim_start ([58; 58] ++ ?x)) with ([58; 58] ++ x). cbv zeta.
  rewrite strip_prefix_app.
  pose proof (split_once_str_fresh 58 [58] token []) as Hs. cbn [app] in Hs.
  rewrite Hs by (by eapply stop_token_fresh).
  rewrite (proj2 (split_once_None 32 token)) by (by eapply stop_token_fresh).
  unfold registered. rewrite eq_ignore_refl, orb_true_r. cbn [negb].
  unfold validate_command_name, validate_data, reject.
  replace (maximum_name_bytes l <? str_len token) with false by lia. cbn.
  replace (maximum_data_bytes l <? 0) with false by lia. done.
Qed.

Definition resume_line (token : str) : list Z := as_bytes (lit "::" ++ token ++ lit "::").

Lemma resume_line_resumes (s t : ActionsWorkflowCommandSession) (token : str)
    (r : result WorkflowCommandError WorkflowLine) :
  stopped_token s = Some token → valid_stop_token token (maximum_name_bytes (limits s)) = true →
  0 <= maximum_data_bytes (limits s) → process_line (resume_line token) s = (t, r) →
  (r = Ok (CommandLine ResumeCommands) ∧ stopped_token t = None) ∨
  (∃ e, r = Err e ∧ is_limit_error e = true ∧ stopped_token t = Some token).
Proof.
  intros Hs Hv Hd. unfold process_line, liftM, getM, modifyM, ok_or, mbind, stM_bind, mret, stM_ret.
  destruct (observe_line _ s) as [s1 r1] eqn:E1.
  apply observe_line_spec in E1 as [[-> (e & -> & He)]|(-> & _ & _ & ->)];
    [intros [= <- <-]; eauto|].
  unfold resume_line. rewrite from_utf8_as_bytes.
  2: { rewrite !forallb_app, (stop_token_scalar token); [done|]. apply stop_token_ascii.
       unfold valid_stop_token in Hv. rewrite !andb_true_iff in Hv. apply Hv. }
  set (s2 := set_observed _ _ s).
  change (stopped_token s2) with (stopped_token s). change (limits s2) with (limits s).
  rewrite Hs, parse_resume by done.
  destruct (observe_command s2) as [s3 r3] eqn:E2.
  apply observe_command_spec in E2 as [[-> (e & -> & He)]|(-> & _ & ->)];
    [intros [= <- <-]; eauto|].
  cbn [raw_name]. rewrite eq_ignore_refl. intros [= <- <-]. auto.
Qed.

(** C27: once a line stops the commands of a session, every later line that does
    not begin with the token is printed as it is or refused: it registers no
    mask, changes neither the echo setting nor the token, and no other event
    comes of it; the line made of the token resumes commands unless a
    configured limit is reached, and then the commands stay stopped. *)
Theorem stopped_commands_are_inert (s s1 s2 s3 : ActionsWorkflowCommandSession)
    (stop : list Z) (quiet : list (list Z)) (mask : option str) (token : str)
    (rs : list (result WorkflowCommandError WorkflowLine))
    (r : result WorkflowCommandError WorkflowLine) :
  limits_typed (limits s) = true →
  process_line stop s = (s1, Ok (CommandLine (StopCommands mask))) →
  stopped_token s1 = Some token →
  forallb (λ source, negb (carries_token token source)) quiet = true →
  process_lines quiet s1 = (s2, rs) → process_line (resume_line token) s2 = (s3, r) →
  Forall2 inert quiet rs ∧ echo_enabled s2 = echo_enabled s1 ∧
  registered_masks s2 = registered_masks s1 ∧ stopped_token s2 = Some token ∧
  ((r = Ok (CommandLine ResumeCommands) ∧ stopped_token s3 = None) ∨
   (∃ e, r = Err e ∧ is_limit_error e = true ∧ stopped_token s3 = Some token)).
Proof.
  intros Hl Hstop Hs1 Hq Hlines Hresume.
  destruct (stop_event _ _ _ _ Hstop) as (token' & Hs1' & Hl1 & Hv). simplify_eq.
  destruct (stopped_lines_inert _ _ _ _ _ Hs1 Hq Hlines) as (Hi & Hs2 & He & Hm & Hl2).
  split_and!; [done..|]. eapply resume_line_resumes; [done| | |done].
  - by rewrite Hl2, Hl1.
  - rewrite Hl2, Hl1. unfold limits_typed, in_range in Hl. cbn [forallb] in Hl. lia.
Qed.

Lemma stopped_commands_are_inert_witness :
  let s := command_session_new workflow_limits_default (MkWorkflowCommandPolicy true) in
  let stop := as_bytes (lit "::stop-commands::Pause-7") in
  let quiet := [as_bytes (lit "::add-mask::pw"); as_bytes (lit "::echo::on")] in
  let s1 := (process_line stop s).1 in
  let s2 := (process_lines quiet s1).1 in
  registered_masks s2 = 1 ∧ registered_masks s2 = registered_masks s1 ∧
  stopped_token (process_line (resume_line (lit "Pause-7")) s2).1 = None.
Proof.
  cbv zeta.
  destruct (process_line (as_bytes (lit "::stop-commands::Pause-7")) _) as [s1 r1] eqn:E1.
  destruct (process_lines _ _) as [s2 rs] eqn:E2.
  destruct (process_line (resume_line _) _) as [s3 r3] eqn:E3. cbn [fst] in *.
  assert (H1 : r1 = Ok (CommandLine (StopCommands (Some (lit "Pause-7"))))) by
    (vm_compute in E1; by injection E1 as <- <-).
  assert (H2 : stopped_token s1 = Some (lit "Pause-7")) by
    (vm_compute in E1; by injection E1 as <- <-).
  rewrite H1 in E1.
  pose proof (λ Hl Hq, stopped_commands_are_inert _ s1 s2 s3 _ _ _ (lit "Pause-7") rs r3 Hl E1 H2
              Hq E2 E3) as H.
  destruct (H eq_refl eq_refl) as (_ & _ & Hm & _ & _). clear H.
  vm_compute in E1. injection E1 as <-. vm_compute in E2. injection E2 as <- <-.
  vm_compute in E3. injection E3 as <- <-. split_and!; [reflexivity|exact Hm|reflexivity].
Defined.

(** ** Masks *)

Lemma percent_encode_scalar (special : Z → option (Z * Z)) (s : str) :
  (∀ c a b, special c = Some (a, b) → is_scalar a = true ∧ is_scalar b = true) →
  forallb is_scalar s = true → forallb is_scalar (percent_encode special s) = true.
Proof.
  intros Hsp. induction s as [|c s IH]; [done|]. cbn [forallb]. intros [Hc Hs]%andb_true_iff.
  rewrite percent_encode_cons, forallb_app, IH by done. rewrite andb_true_r.
  destruct (special c) as [[a b]|] eqn:E; cbn [forallb]; [|by rewrite Hc].
  by destruct (Hsp c a b E) as [-> ->].
Qed.

Lemma escape_data_scalar (s : str) :
  forallb is_scalar s = true → forallb is_scalar (escape_data s) = true.
Proof.
  apply percent_encode_scalar. intros c a b. unfold data_special.
  repeat case_match; intros; simplify_eq; done.
Qed.

(** The line that masks a value. *)
Definition mask_line (value : str) : list Z :=
  as_bytes (print_command (MkRawCommand (lit "add-mask") [] value)).

(** A running session never prints the line that masks a value that is not
    blank: unless a configured limit is reached it registers the whole value
    and every line of it that is not blank, without surrounding whitespace. *)
Lemma masked_values_are_registered (s t : ActionsWorkflowCommandSession) (value : str)
    (r : result WorkflowCommandError WorkflowLine) :
  limits_typed (limits s) = true → stopped_token s = None →
  8 <= maximum_name_bytes (limits s) → str_len value <= maximum_data_bytes (limits s) →
  forallb is_scalar value = true → trim value ≠ [] →
  process_line (mask_line value) s = (t, r) →
  (∃ masks, r = Ok (CommandLine (RegisterMask masks)) ∧ value ∈ masks ∧
     ∀ line, line ∈ split_any ends_line value → trim line ≠ [] → trim line ∈ masks) ∨
  (∃ e, r = Err e ∧ is_limit_error e = true).
Proof.
  intros Hl Hs Hn Hd Hsc Hblank.
  unfold process_line, liftM, getM, modifyM, ok_or, mbind, stM_bind, mret, stM_ret.
  destruct (observe_line _ s) as [s1 r1] eqn:E1.
  apply observe_line_spec in E1 as [[-> (e & -> & He)]|(-> & _ & _ & ->)];
    [intros [= <- <-]; eauto|].
  unfold mask_line. rewrite from_utf8_as_bytes.
  2: { unfold print_command. cbn [raw_name raw_properties raw_data print_properties app].
       rewrite !forallb_app, (escape_data_scalar value) by done. done. }
  set (s2 := set_observed _ _ s).
  change (stopped_token s2) with (stopped_token s). change (limits s2) with (limits s).
  rewrite Hs, parse_printed_command.
  2: { unfold printable, limits_typed, in_range in *. cbn [forallb raw_name raw_properties raw_data
         length distinct_names] in *.
       change (is_registered (lit "add-mask")) with true.
       change (str_len (lit "add-mask")) with 8. change (Z.of_nat 0) with 0.
       lia. }
  destruct (observe_command s2) as [s3 r3] eqn:E2.
  apply observe_command_spec in E2 as [[-> (e & -> & He)]|(-> & _ & ->)];
    [intros [= <- <-]; eauto|].
  unfold process_command, getM, liftM, modifyM, mbind, stM_bind, mret, stM_ret. cbn zeta.
  cbn [raw_name raw_data]. rewrite eq_ignore_refl.
  unfold add_mask, mbind, stM_bind, mret, stM_ret.
  destruct (str_is_empty (trim value)) eqn:Eb; [by destruct (trim value)|].
  set (s4 := set_commands _ _).
  destruct (register_mask_count _ s4) as [s5 r5] eqn:E3.
  apply register_mask_count_spec in E3 as [[-> (e & -> & He)]|(-> & _ & ->)];
    intros [= <- <-]; [eauto|]. left. exists (masks_of value). unfold masks_of.
  split_and!; [done|apply list_elem_of_here|]. intros line Hline Hne.
  apply list_elem_of_further, list_elem_of_In, filter_In. split.
  - apply list_elem_of_In. by apply list_elem_of_fmap_2.
  - unfold not_empty. by destruct (trim line).
Qed.

(** ** Locations *)

Lemma property_value_set (ps : list RawProperty) (name value other : str) :
  property_value (set_property ps name value) other =
  if eq_ignore_ascii_case name other then Some value else property_value ps other.
Proof.
  unfold property_value. induction ps as [|p ps IH]; cbn [set_property List.find property_name].
  { by case_match. }
  destruct (eq_ignore_ascii_case (property_name p) name) eqn:E; cbn [List.find property_name].
  - rewrite (eq_ignore_cong _ _ other E). by case_match.
  - destruct (eq_ignore_ascii_case (property_name p) other) eqn:E'; [|exact IH].
    destruct (eq_ignore_ascii_case name other) eqn:E2; [|done].
    rewrite eq_ignore_sym in E2. rewrite eq_ignore_sym, (eq_ignore_cong _ _ _ E2) in E'.
    rewrite eq_ignore_sym in E'. congruence.
Qed.

Lemma property_value_remove (ps : list RawProperty) (name other : str) :
  property_value (remove_property ps name) other =
  if eq_ignore_ascii_case name other then None else property_value ps other.
Proof.
  unfold property_value, remove_property.
  induction ps as [|p ps IH]; cbn [List.filter List.find]; [by case_match|].
  destruct (eq_ignore_ascii_case (property_name p) name) eqn:E; cbn [negb].
  - rewrite IH, (eq_ignore_cong _ _ other E). by case_match.
  - cbn [List.find]. destruct (eq_ignore_ascii_case (property_name p) other) eqn:E'; [|exact IH].
    destruct (eq_ignore_ascii_case name other) eqn:E2; [|done].
    rewrite eq_ignore_sym in E2. rewrite eq_ignore_sym, (eq_ignore_cong _ _ _ E2) in E'.
    rewrite eq_ignore_sym in E'. congruence.
Qed.

Lemma property_value_remove_columns (ps : list RawProperty) (name : str) :
  property_value (remove_columns ps) name =
  if eq_ignore_ascii_case (lit "endColumn") name then None
  else if eq_ignore_ascii_case (lit "col") name then None else property_value ps name.
Proof. unfold remove_columns. by rewrite !property_value_remove. Qed.

Lemma property_value_remove_lines (ps : list RawProperty) (name : str) :
  property_value (remove_lines ps) name =
  if eq_ignore_ascii_case (lit "endLine") name then None
  else if eq_ignore_ascii_case (lit "line") name then None else property_value ps name.
Proof. unfold remove_lines. by rewrite !property_value_remove. Qed.

(** The integer a location property holds. *)
Definition location (ps : list RawProperty) (name : str) : option Z :=
  parse_dotnet_i32 (property_value ps name).

Definition is_location (name : str) : bool :=
  eq_ignore_ascii_case (lit "line") name || eq_ignore_ascii_case (lit "endLine") name ||
  eq_ignore_ascii_case (lit "col") name || eq_ignore_ascii_case (lit "endColumn") name.

Lemma normalize_keeps_others (ps : list RawProperty) (name : str) :
  is_location name = false →
  property_value (normalize_annotation_locations ps) name = property_value ps name.
Proof.
  unfold is_location. rewrite !orb_false_iff. intros (((Hl & He) & Hc) & Hd).
  unfold normalize_annotation_locations. cbv zeta.
  repeat match goal with
  | |- context [if ?b then _ else _] =>
      lazymatch b with
      | context [if _ then _ else _] => fail
      | _ => destruct b
      end
  end;
  rewrite ?property_value_remove_columns, ?property_value_remove_lines,
    ?property_value_remove_columns, ?property_value_set, ?Hl, ?He, ?Hc, ?Hd; done.
Qed.

(** The location properties after normalisation, by what they held before. *)
Ltac read_locations :=
  unfold location;
  repeat match goal with
  | |- context [property_value (remove_columns ?ps) ?n] =>
      rewrite (property_value_remove_columns ps n)
  | |- context [property_value (remove_lines ?ps) ?n] => rewrite (property_value_remove_lines ps n)
  | |- context [property_value (set_property ?ps ?n ?v) ?m] => rewrite (property_value_set ps n v m)
  | |- context [if eq_ignore_ascii_case ?x ?y then _ else _] =>
      let b := eval vm_compute in (eq_ignore_ascii_case x y) in
      change (eq_ignore_ascii_case x y) with b; cbv iota
  end.

Lemma parse_dotnet_i32_default (value : option str) (n : Z) :
  parse_dotnet_i32 value = Some n → Some (default [] value) = value.
Proof. by destruct value. Qed.

(** After normalisation an end has a start that is not behind it, and columns
    go with an end line only when both lines are the same text. *)
Lemma normalized_locations (ps : list RawProperty) :
  let qs := normalize_annotation_locations ps in
  (∀ b, location qs (lit "endLine") = Some b →
     ∃ a, location qs (lit "line") = Some a ∧ a <= b) ∧
  (∀ b, location qs (lit "endColumn") = Some b →
     ∃ a, location qs (lit "col") = Some a ∧ a <= b) ∧
  (location qs (lit "endLine") ≠ None →
     location qs (lit "col") ≠ None ∨ location qs (lit "endColumn") ≠ None →
     property_value qs (lit "line") = property_value qs (lit "endLine")).
Proof.
  unfold normalize_annotation_locations. cbv zeta.
  destruct (parse_dotnet_i32 (property_value ps (lit "line"))) as [l|] eqn:HL;
  destruct (parse_dotnet_i32 (property_value ps (lit "endLine"))) as [e|] eqn:HE;
  destruct (parse_dotnet_i32 (property_value ps (lit "col"))) as [c|] eqn:HC;
  destruct (parse_dotnet_i32 (property_value ps (lit "endColumn"))) as [d|] eqn:HD;
  cbn [is_some andb orb negb]; cbv iota;
  unfold reversed; repeat case_match; read_locations;
  try erewrite !(parse_dotnet_i32_default (property_value ps (lit "endLine"))) by eassumption;
  try erewrite !(parse_dotnet_i32_default (property_value ps (lit "endColumn"))) by eassumption;
  rewrite ?HL, ?HE, ?HC, ?HD; split_and!; intros; simplify_eq/=;
  try first [done|eexists; split; [done|lia]|naive_solver];
  match goal with H : negb _ && true = false |- _ =>
    by rewrite andb_true_r, negb_false_iff, bool_decide_eq_true in H end.
Qed.

(** The properties of a reported annotation agree with each other: an end
    line or end column that is an integer has a start that is one and not
    behind it, and an integer column goes with an end line only when the start
    line is the same text; the message and every other property are the
    command's own. *)
Lemma annotation_locations_consistent (level : AnnotationLevel) (command : RawCommand) :
  let a := annotation level command in
  let qs := annotation_properties a in
  annotation_level a = level ∧ annotation_message a = raw_data command ∧
  (∀ b, location qs (lit "endLine") = Some b →
     ∃ a, location qs (lit "line") = Some a ∧ a <= b) ∧
  (∀ b, location qs (lit "endColumn") = Some b →
     ∃ a, location qs (lit "col") = Some a ∧ a <= b) ∧
  (location qs (lit "endLine") ≠ None →
     location qs (lit "col") ≠ None ∨ location qs (lit "endColumn") ≠ None →
     property_value qs (lit "line") = property_value qs (lit "endLine")) ∧
  (∀ name, is_location name = false →
     property_value qs name = property_value (raw_properties command) name).
Proof.
  cbv zeta. unfold annotation. cbn [annotation_properties annotation_level annotation_message].
  destruct (normalized_locations (raw_properties command)) as (H1 & H2 & H3).
  split_and!; [done..|]. intros name Hn. by apply normalize_keeps_others.
Qed.

