(* ===== verification/CommandFile.v ===== *)
(** * CommandFile: the files a step leaves its effects in

    Models [crates/automata-ci-actions-runtime/src/file_command.rs] and
    [artifact.rs] with their limits and data ([limits.rs], [model.rs],
    [error.rs]): the decoding of the environment, output, state, path, summary
    and artifact files of one completed step, from bytes.

    A file is read to its end, so a position in the text is modelled by what
    is left of it. *)

From S2P Require Import Prelude Text Utf8 WorkflowCommand.

(** ** Data *)

Definition HARD_MAX_FILE_BYTES : Z := 64 * 1024 * 1024.
Definition HARD_MAX_SUMMARY_BYTES : Z := 1024 * 1024.
Definition MAX_ARTIFACT_DECLARATION_FILE_BYTES : Z := 1048576.

Inductive CommandFileKind :=
| KindEnvironment | KindOutput | KindPath | KindState | KindStepSummary | KindArtifacts.

#[export] Instance command_file_kind_eq_dec : EqDecision CommandFileKind.
Proof. solve_decision. Defined.

Definition environment_variable (self : CommandFileKind) : str :=
  match self with
  | KindEnvironment => lit "GITHUB_ENV"
  | KindOutput => lit "GITHUB_OUTPUT"
  | KindPath => lit "GITHUB_PATH"
  | KindState => lit "GITHUB_STATE"
  | KindStepSummary => lit "GITHUB_STEP_SUMMARY"
  | KindArtifacts => lit "GITHUB_ARTIFACTS"
  end.

Inductive CommandFilePlatform := PlatformUnix | PlatformWindows.

#[export] Instance command_file_platform_eq_dec : EqDecision CommandFilePlatform.
Proof. solve_decision. Defined.

Record CommandFileLimits := MkCommandFileLimits {
  file_bytes : Z;
  summary_bytes : Z;
  line_bytes : Z;
  records : Z;
  name_bytes : Z;
  value_bytes : Z;
}.

Definition command_file_limits_new (file summary line records name value : Z) :
    result unit CommandFileLimits :=
  if (file =? 0) || (summary =? 0) || (line =? 0) || (records =? 0) || (name =? 0) ||
     (value =? 0) || (HARD_MAX_FILE_BYTES <? file) || (HARD_MAX_SUMMARY_BYTES <? summary) ||
     (HARD_MAX_LINE_BYTES <? line) || (HARD_MAX_RECORDS <? records) ||
     (HARD_MAX_NAME_BYTES <? name) || (HARD_MAX_VALUE_BYTES <? value)
  then Err tt
  else Ok (MkCommandFileLimits file summary line records name value).

Definition command_file_limits_default : CommandFileLimits :=
  MkCommandFileLimits (16 * 1024 * 1024) HARD_MAX_SUMMARY_BYTES (1024 * 1024) 16384 4096
    (16 * 1024 * 1024).

Inductive CommandFileError :=
| FileTooLarge (kind : CommandFileKind) (maximum received : Z)
| SummaryTooLarge (maximum received : Z)
| NonUtf8 (kind : CommandFileKind)
| LineTooLong (kind : CommandFileKind) (maximum : Z)
| TooManyRecords (kind : CommandFileKind) (maximum : Z)
| MalformedRecord (kind : CommandFileKind)
| EmptyName (kind : CommandFileKind)
| NameTooLong (kind : CommandFileKind) (maximum : Z)
| ValueTooLong (kind : CommandFileKind) (maximum : Z)
| EmptyDelimiter (kind : CommandFileKind)
| MissingDelimiter (kind : CommandFileKind)
| HeredocValueMissingNewline (kind : CommandFileKind)
| InvalidArtifactDeclaration (line : Z).

Record NameValueCommand := MkNameValue { nv_name : str; nv_value : str }.

#[export] Instance name_value_eq_dec : EqDecision NameValueCommand.
Proof. solve_decision. Defined.

Inductive ArtifactSubjectKind := SubjectFile | SubjectOci.

Record ArtifactSubject := MkArtifactSubject {
  subject_name : str;
  subject_digest : str;
  subject_kind : ArtifactSubjectKind;
}.

Definition digest_char (c : Z) : bool := is_ascii_digit c || in_range 97 102 c.

Definition canonical_artifact_digest (digest : str) : bool :=
  match split_once 58 digest with
  | None => false
  | Some (algorithm, hexadecimal) =>
      let expected :=
        if str_eqb algorithm (lit "sha256") then Some 64
        else if str_eqb algorithm (lit "sha384") then Some 96
        else if str_eqb algorithm (lit "sha512") then Some 128 else None in
      match expected with
      | None => false
      | Some expected =>
          (str_len hexadecimal =? expected) && forallb digest_char (as_bytes hexadecimal)
      end
  end.

Definition artifact_subject_new (name digest : str) (kind : ArtifactSubjectKind) :
    result unit ArtifactSubject :=
  if str_is_empty name || negb (canonical_artifact_digest digest) then Err tt
  else Ok (MkArtifactSubject name digest kind).

Inductive ArtifactDeclaration :=
| DeclaredFile (path : str)
| DeclaredOci (subject : ArtifactSubject).

Inductive ParsedCommandFile :=
| ParsedEnvironment (commands : list NameValueCommand)
| ParsedOutput (commands : list NameValueCommand)
| ParsedPath (paths : list str)
| ParsedState (commands : list NameValueCommand)
| ParsedStepSummary (markdown : str)
| ParsedArtifacts (declarations : list ArtifactDeclaration).

(** ** Checks *)

Abbreviation fileM := (result CommandFileError) (only parsing).

Definition validate_line (kind : CommandFileKind) (line : str) (l : CommandFileLimits) : fileM unit :=
  reject (line_bytes l <? str_len line) (LineTooLong kind (line_bytes l)).

Definition validate_name (kind : CommandFileKind) (name : str) (l : CommandFileLimits) : fileM unit :=
  _ ← reject (str_is_empty name) (EmptyName kind);
  reject (name_bytes l <? str_len name) (NameTooLong kind (name_bytes l)).

Definition validate_value (kind : CommandFileKind) (value : str) (l : CommandFileLimits) :
    fileM unit :=
  reject (value_bytes l <? str_len value) (ValueTooLong kind (value_bytes l)).

(** ** Name and value records *)

(** A line and the newline that ended it: [newline_bytes] is its length. *)
Record ReadLine := MkReadLine { line_text : str; newline : option str }.

(** The first line of what is left of the text, and what is left after it. *)
Definition read_env_line (platform : CommandFilePlatform) (rest : str) :
    option (ReadLine * str) :=
  match rest with
  | [] => None
  | _ =>
      match split_once 10 rest with
      | None => Some (MkReadLine rest None, [])
      | Some (line, after) =>
          match platform, strip_suffix [13] line with
          | PlatformWindows, Some text => Some (MkReadLine text (Some [13; 10]), after)
          | _, _ => Some (MkReadLine line (Some [10]), after)
          end
      end
  end.

(** The lines the loops read; every line takes at least a character, so the
    number of characters left is fuel enough. *)
Fixpoint read_env_lines (fuel : nat) (platform : CommandFilePlatform) (rest : str) :
    list ReadLine :=
  match fuel with
  | O => []
  | S fuel =>
      match read_env_line platform rest with
      | None => []
      | Some (line, after) => line :: read_env_lines fuel platform after
      end
  end.
Definition env_lines (platform : CommandFilePlatform) (text : str) : list ReadLine :=
  read_env_lines (length text) platform text.

(** What the inner loop keeps while it looks for the delimiter: the text
    between [value_start] and [index], and that between [value_start] and
    [value_end]. *)
Record Heredoc := MkHeredoc {
  heredoc_name : str;
  heredoc_delimiter : str;
  heredoc_text : str;
  heredoc_value : str;
}.

Inductive RecordHead :=
| InlineRecord (name value : str)
| HeredocRecord (name delimiter : str)
| NotARecord.

(** Whether [=] or [<<] comes first. *)
Definition record_head (line : str) : RecordHead :=
  let equals := split_once 61 line in
  let heredoc := split_once_str (lit "<<") line in
  match equals, heredoc with
  | Some (name, value), None => InlineRecord name value
  | None, Some (name, delimiter) => HeredocRecord name delimiter
  | Some (name, value), Some (heredoc_name, delimiter) =>
      if str_len name <? str_len heredoc_name then InlineRecord name value
      else if str_len heredoc_name <? str_len name then HeredocRecord heredoc_name delimiter
      else NotARecord
  | None, None => NotARecord
  end.

(** The loop of [parse_name_values]; [pending] is the heredoc whose inner loop
    is running. *)
Fixpoint parse_records (kind : CommandFileKind) (l : CommandFileLimits) (pending : option Heredoc)
    (commands : list NameValueCommand) (lines : list ReadLine) :
    fileM (list NameValueCommand) :=
  match lines with
  | [] => match pending with None => Ok commands | Some _ => Err (MissingDelimiter kind) end
  | line :: rest =>
      _ ← validate_line kind (line_text line) l;
      match pending with
      | Some h =>
          if str_eqb (line_text line) (heredoc_delimiter h) then
            _ ← validate_value kind (heredoc_value h) l;
            parse_records kind l None
              (commands ++ [MkNameValue (heredoc_name h) (heredoc_value h)]) rest
          else
            match newline line with
            | None => Err (HeredocValueMissingNewline kind)
            | Some nl =>
                parse_records kind l
                  (Some (MkHeredoc (heredoc_name h) (heredoc_delimiter h)
                           (heredoc_text h ++ line_text line ++ nl)
                           (heredoc_text h ++ line_text line)))
                  commands rest
            end
      | None =>
          if str_is_empty (line_text line) then parse_records kind l None commands rest
          else
            _ ← reject (records l <=? Z.of_nat (length commands))
                  (TooManyRecords kind (records l));
            match record_head (line_text line) with
            | InlineRecord name value =>
                _ ← validate_name kind name l;
                _ ← validate_value kind value l;
                parse_records kind l None (commands ++ [MkNameValue name value]) rest
            | HeredocRecord name delimiter =>
                _ ← validate_name kind name l;
                _ ← reject (str_is_empty delimiter) (EmptyDelimiter kind);
                _ ← reject (name_bytes l <? str_len delimiter) (NameTooLong kind (name_bytes l));
                parse_records kind l (Some (MkHeredoc name delimiter [] [])) commands rest
            | NotARecord => Err (MalformedRecord kind)
            end
      end
  end.

Definition parse_name_values (kind : CommandFileKind) (text : str)
    (platform : CommandFilePlatform) (l : CommandFileLimits) : fileM (list NameValueCommand) :=
  parse_records kind l None [] (env_lines platform text).

(** ** Paths, summaries and artifacts *)

Definition validate_path_line (kind : CommandFileKind) (line : str) (l : CommandFileLimits)
    (current_records : Z) : fileM unit :=
  _ ← validate_line kind line l;
  _ ← reject (value_bytes l <? str_len line) (ValueTooLong kind (value_bytes l));
  reject (negb (str_is_empty line) && (records l <=? current_records))
    (TooManyRecords kind (records l)).

Definition parse_path_line (kind : CommandFileKind) (l : CommandFileLimits) (paths : list str)
    (line : str) : fileM (list str) :=
  _ ← validate_path_line kind line l (Z.of_nat (length paths));
  Ok (if str_is_empty line then paths else paths ++ [line]).

Definition parse_paths (kind : CommandFileKind) (text : str) (l : CommandFileLimits) :
    fileM (list str) :=
  try_fold (parse_path_line kind l) [] (text_lines text).

Definition validate_summary_line (l : CommandFileLimits) (lines : Z) (line : str) : fileM Z :=
  _ ← validate_line KindStepSummary line l;
  let lines := Z.min u64_max (lines + 1) in
  _ ← reject (records l <? lines) (TooManyRecords KindStepSummary (records l));
  Ok lines.

Definition validate_summary (text : str) (l : CommandFileLimits) : fileM unit :=
  _ ← try_fold (validate_summary_line l) 0 (text_lines text);
  Ok tt.

Definition FILE_SCHEME : str := lit "file://".
Definition OCI_SCHEME : str := lit "oci://".

(** The prefix is ASCII: its characters are its bytes. *)
Definition strip_prefix_ignore_ascii_case (value prefix : str) : option str :=
  if eq_ignore_ascii_case (take (length prefix) value) prefix
  then Some (drop (length prefix) value) else None.

Definition scheme_byte (c : Z) : bool := is_ascii_alphanumeric c || str_contains (lit "+-.") c.

Definition has_uri_scheme (value : str) : bool :=
  match split_once_str (lit "://") value with
  | None => false
  | Some (scheme, _) =>
      match as_bytes scheme with
      | [] => false
      | b :: rest => is_ascii_alphabetic b && forallb scheme_byte rest
      end
  end.

(** The algorithm a digest names, with its text and the length it must have. *)
Definition digest_parts (digest : str) : option (str * str * Z) :=
  match strip_prefix (lit "sha256:") digest with
  | Some hexadecimal => Some (lit "sha256", hexadecimal, 64)
  | None =>
      match strip_prefix (lit "sha384:") digest with
      | Some hexadecimal => Some (lit "sha384", hexadecimal, 96)
      | None =>
          match strip_prefix (lit "sha512:") digest with
          | Some hexadecimal => Some (lit "sha512", hexadecimal, 128)
          | None => None
          end
      end
  end.

Definition parse_oci (value : str) : option ArtifactDeclaration :=
  match rsplit_once [64] value with
  | None => None
  | Some (name, digest) =>
      if str_is_empty name then None
      else
        '(algorithm, hexadecimal, expected) ← digest_parts digest;
        if str_is_empty hexadecimal || negb (forallb is_ascii_hexdigit (as_bytes hexadecimal)) ||
           negb (str_len hexadecimal =? expected)
        then None
        else
          match artifact_subject_new name
                  (algorithm ++ 58 :: map to_ascii_lowercase hexadecimal) SubjectOci with
          | Ok subject => Some (DeclaredOci subject)
          | Err _ => None
          end
  end.

Definition parse_declaration (value : str) : option ArtifactDeclaration :=
  if str_contains value 61 then None
  else
    match strip_prefix_ignore_ascii_case value FILE_SCHEME with
    | Some path => if str_is_empty (trim path) then None else Some (DeclaredFile path)
    | None =>
        match strip_prefix_ignore_ascii_case value OCI_SCHEME with
        | Some reference => parse_oci reference
        | None =>
            if has_uri_scheme value then None
            else
              match parse_oci value with
              | Some declaration => Some declaration
              | None => Some (DeclaredFile value)
              end
        end
    end.

(** The line number and the declarations so far. *)
Definition parse_artifact_line (l : CommandFileLimits)
    (state : Z * list ArtifactDeclaration) (raw : str) :
    fileM (Z * list ArtifactDeclaration) :=
  let line_number := Z.min u64_max (state.1 + 1) in
  _ ← reject (records l <? line_number) (TooManyRecords KindArtifacts (records l));
  _ ← reject (line_bytes l <? str_len raw) (LineTooLong KindArtifacts (line_bytes l));
  let declaration := trim raw in
  if str_is_empty declaration || starts_with 35 declaration then Ok (line_number, state.2)
  else
    parsed ← ok_or (parse_declaration declaration) (InvalidArtifactDeclaration line_number);
    Ok (line_number, state.2 ++ [parsed]).

Definition parse_artifact_declarations (text : str) (l : CommandFileLimits) :
    fileM (list ArtifactDeclaration) :=
  state ← try_fold (parse_artifact_line l) (0, []) (text_lines text);
  Ok state.2.

(** ** Decoding *)

Definition UTF8_BOM : list Z := [239; 187; 191].

(** The size a file of the kind may have. *)
Definition kind_file_bytes (kind : CommandFileKind) (l : CommandFileLimits) : Z :=
  if bool_decide (kind = KindArtifacts) && (MAX_ARTIFACT_DECLARATION_FILE_BYTES <? file_bytes l)
  then MAX_ARTIFACT_DECLARATION_FILE_BYTES else file_bytes l.

Definition strip_bom (source : list Z) : list Z := default source (strip_prefix UTF8_BOM source).

Definition parse_file (kind : CommandFileKind) (text : str) (platform : CommandFilePlatform)
    (l : CommandFileLimits) : fileM ParsedCommandFile :=
  match kind with
  | KindEnvironment => found ← parse_name_values kind text platform l; Ok (ParsedEnvironment found)
  | KindOutput => found ← parse_name_values kind text platform l; Ok (ParsedOutput found)
  | KindState => found ← parse_name_values kind text platform l; Ok (ParsedState found)
  | KindPath => found ← parse_paths kind text l; Ok (ParsedPath found)
  | KindStepSummary => _ ← validate_summary text l; Ok (ParsedStepSummary text)
  | KindArtifacts => found ← parse_artifact_declarations text l; Ok (ParsedArtifacts found)
  end.

Definition decode_command_file (l : CommandFileLimits) (kind : CommandFileKind) (source : list Z)
    (platform : CommandFilePlatform) : fileM ParsedCommandFile :=
  let size := Z.of_nat (length source) in
  _ ← reject (bool_decide (kind = KindStepSummary) && (summary_bytes l <? size))
        (SummaryTooLarge (summary_bytes l) size);
  _ ← reject (kind_file_bytes kind l <? size) (FileTooLarge kind (kind_file_bytes kind l) size);
  text ← ok_or (from_utf8 (strip_bom source)) (NonUtf8 kind);
  _ ← reject (negb (bool_decide (kind = KindStepSummary)) && str_contains text 0)
        (MalformedRecord kind);
  parse_file kind text platform l.

(** ** Reading lines *)

(** The text of a line with its newline. *)
Definition raw_line (line : ReadLine) : str := line_text line ++ default [] (newline line).

Definition is_newline (platform : CommandFilePlatform) (nl : str) : Prop :=
  nl = [10] ∨ (platform = PlatformWindows ∧ nl = [13; 10]).

(** What a read gives is the text: a line without line feeds, its newline,
    and the rest. *)
Lemma read_env_line_Some (platform : CommandFilePlatform) (rest after : str) (line : ReadLine) :
  read_env_line platform rest = Some (line, after) →
  rest = raw_line line ++ after ∧ raw_line line ≠ [] ∧ (10 ∉ line_text line) ∧
  match newline line with None => after = [] | Some nl => is_newline platform nl end.
Proof.
  unfold read_env_line. destruct rest as [|c rest]; [done|].
  destruct (split_once 10 (c :: rest)) as [[l a]|] eqn:E.
  - apply split_once_Some in E as [-> Hl].
    assert (Hplain : l ++ 10 :: a = raw_line (MkReadLine l (Some [10])) ++ a ∧
      raw_line (MkReadLine l (Some [10])) ≠ [] ∧ (10 ∉ l) ∧ is_newline platform [10]).
    { unfold raw_line. cbn. split_and!; [by rewrite <- app_assoc|by destruct l|done|by left]. }
    destruct platform; [by intros [= <- <-]|].
    destruct (strip_suffix [13] l) as [t|] eqn:Es; [|by intros [= <- <-]].
    apply strip_suffix_Some in Es as ->. intros [= <- <-]. unfold raw_line. cbn.
    rewrite <- !app_assoc. cbn. split_and!; [done|by destruct t| |by right].
    intros H. apply Hl. by rewrite elem_of_app; left.
  - apply split_once_None in E. intros [= <- <-]. unfold raw_line.
    cbn [line_text newline default]. rewrite !app_nil_r. by split_and!.
Qed.

Lemma read_env_line_None (platform : CommandFilePlatform) (rest : str) :
  read_env_line platform rest = None → rest = [].
Proof.
  unfold read_env_line. destruct rest as [|c rest]; [done|].
  destruct (split_once _ _) as [[]|]; [|done]. destruct platform; [done|]. by case_match.
Qed.

Lemma read_env_lines_fuel (platform : CommandFilePlatform) (rest : str) (n m : nat) :
  (length rest <= n)%nat → (length rest <= m)%nat →
  read_env_lines n platform rest = read_env_lines m platform rest.
Proof.
  revert rest m. induction n as [|n IH]; intros rest [|m] Hn Hm; cbn [read_env_lines].
  - done.
  - by destruct rest; [|simpl in Hn; lia].
  - by destruct rest; [|simpl in Hm; lia].
  - destruct (read_env_line platform rest) as [[line after]|] eqn:E; [|done].
    apply read_env_line_Some in E as (-> & Hne & _). rewrite length_app in *.
    destruct (raw_line line); [done|]. cbn [length] in *. f_equal. apply IH; lia.
Qed.

Lemma env_lines_unfold (platform : CommandFilePlatform) (rest : str) :
  env_lines platform rest =
  match read_env_line platform rest with
  | None => []
  | Some (line, after) => line :: env_lines platform after
  end.
Proof.
  unfold env_lines. destruct rest as [|c rest]; [done|]. cbn [length read_env_lines].
  destruct (read_env_line platform (c :: rest)) as [[line after]|] eqn:E; [|done].
  f_equal. apply read_env_line_Some in E as (Heq & Hne & _).
  apply (f_equal length) in Heq. rewrite length_app in Heq. cbn [length] in Heq.
  destruct (raw_line line); [done|]. cbn [length] in *. apply read_env_lines_fuel; lia.
Qed.

(** Induction along the reads. *)
Lemma env_lines_ind (platform : CommandFilePlatform) (P : str → list ReadLine → Prop) :
  P [] [] →
  (∀ rest line after, read_env_line platform rest = Some (line, after) →
     P after (env_lines platform after) → P rest (line :: env_lines platform after)) →
  ∀ rest, P rest (env_lines platform rest).
Proof.
  intros H0 Hstep rest. remember (length rest) as n eqn:Hn. revert rest Hn.
  induction (lt_wf n) as [n _ IH]. intros rest ->. rewrite env_lines_unfold.
  destruct (read_env_line platform rest) as [[line after]|] eqn:E.
  - apply Hstep; [done|]. apply (IH (length after)); [|done].
    apply read_env_line_Some in E as (-> & Hne & _). rewrite length_app.
    destruct (raw_line line); [done|]. cbn [length]. lia.
  - by apply read_env_line_None in E as ->.
Qed.

(** The lines are the whole text, in order. *)
Lemma env_lines_text (platform : CommandFilePlatform) (text : str) :
  concat (raw_line <$> env_lines platform text) = text.
Proof.
  apply (env_lines_ind platform (λ text lines, concat (raw_line <$> lines) = text)); [done|].
  intros rest line after (-> & _)%read_env_line_Some IH. cbn. by rewrite IH.
Qed.

(** The newline a writer on the platform ends its lines with. *)
Definition platform_newline (platform : CommandFilePlatform) : str :=
  match platform with PlatformUnix => [10] | PlatformWindows => [13; 10] end.

Lemma env_lines_line (platform : CommandFilePlatform) (line rest : str) :
  10 ∉ line →
  env_lines platform (line ++ platform_newline platform ++ rest) =
  MkReadLine line (Some (platform_newline platform)) :: env_lines platform rest.
Proof.
  intros Hl. rewrite env_lines_unfold. unfold read_env_line.
  assert (Hs : split_once 10 (line ++ platform_newline platform ++ rest) =
    Some (match platform with PlatformUnix => line | PlatformWindows => line ++ [13] end, rest)).
  { apply split_once_Some. destruct platform; cbn; [done|]. rewrite <- app_assoc. split; [done|].
    rewrite elem_of_app, list_elem_of_singleton. naive_solver. }
  rewrite Hs. destruct (line ++ _) as [|c t] eqn:E; [by destruct line, platform|].
  destruct platform; [done|]. by rewrite strip_suffix_app.
Qed.

(** Text that is empty or ends in a line feed. *)
Definition complete (text : str) : Prop := text = [] ∨ ∃ t, text = t ++ [10].

Lemma complete_after (line after : str) : complete (line ++ 10 :: after) → complete after.
Proof.
  intros [H|[t H]]; [by destruct line|]. destruct after as [|c after]; [by left|].
  right. destruct (exists_last (l := c :: after)) as (u & d & Hu); [done|]. exists u.
  rewrite Hu in *. change (line ++ 10 :: u ++ [d]) with (line ++ ([10] ++ u) ++ [d]) in H.
  rewrite app_assoc in H. apply app_inj_tail in H as [_ ->]. done.
Qed.

Lemma read_complete (platform : CommandFilePlatform) (text rest after : str) (line : ReadLine) :
  read_env_line platform text = Some (line, after) → complete text →
  complete after ∧ read_env_line platform (text ++ rest) = Some (line, after ++ rest).
Proof.
  unfold read_env_line. destruct text as [|c text]; [done|].
  destruct (split_once 10 (c :: text)) as [[l a]|] eqn:E.
  - apply split_once_Some in E as [Heq Hl]. rewrite Heq. intros H Hc%complete_after.
    assert (Hs : split_once 10 ((l ++ 10 :: a) ++ rest) = Some (l, a ++ rest)).
    { apply split_once_Some. by rewrite <- app_assoc. }
    destruct ((l ++ 10 :: a) ++ rest) as [|d t] eqn:Et; [by destruct l|]. rewrite Hs.
    destruct platform; [by simplify_eq|]. destruct (strip_suffix [13] l); by simplify_eq.
  - intros _ [?|[t Ht]]; [done|]. exfalso. apply split_once_None in E. apply E. rewrite Ht.
    rewrite elem_of_app, list_elem_of_singleton. auto.
Qed.

(** Complete text is read on its own. *)
Lemma env_lines_app (platform : CommandFilePlatform) (text rest : str) :
  complete text → env_lines platform (text ++ rest) = env_lines platform text ++ env_lines platform rest.
Proof.
  revert text. apply (env_lines_ind platform (λ text lines, complete text →
    env_lines platform (text ++ rest) = lines ++ env_lines platform rest)); [done|].
  intros text line after Hr IH Hc.
  destruct (read_complete platform text rest after line Hr Hc) as [Ha Hr'].
  rewrite env_lines_unfold, Hr'. cbn. by rewrite IH.
Qed.

(** A text is complete lines and a last piece without line feeds. *)
Lemma last_piece (text : str) : ∃ a b, text = a ++ b ∧ complete a ∧ (10 ∉ b).
Proof.
  induction text as [|c text (a & b & -> & Ha & Hb)].
  { exists [], []. split_and!; [done|by left|apply not_elem_of_nil]. }
  destruct (decide (c = 10)) as [->|Hc].
  - exists (10 :: a), b. split_and!; [done| |done]. right.
    destruct Ha as [->|[t ->]]; [by exists []|by exists (10 :: t)].
  - destruct Ha as [->|[t ->]].
    + exists [], (c :: b). split_and!; [done|by left|]. rewrite elem_of_cons. naive_solver.
    + exists (c :: t ++ [10]), b. split_and!; [done| |done]. right. by exists (c :: t).
Qed.

(** ** Written records *)

Inductive FileRecord :=
| InlineWritten (name value : str)
| BlockWritten (name delimiter value : str).

Definition record_command (r : FileRecord) : NameValueCommand :=
  match r with
  | InlineWritten name value => MkNameValue name value
  | BlockWritten name _ value => MkNameValue name value
  end.

(** A writer that follows the protocol: [name=value] on one line, or
    [name<<delimiter], the value and the delimiter on lines of their own. *)
Definition write_record (platform : CommandFilePlatform) (r : FileRecord) : str :=
  let nl := platform_newline platform in
  match r with
  | InlineWritten name value => (name ++ 61 :: value) ++ nl
  | BlockWritten name delimiter value =>
      (name ++ [60; 60] ++ delimiter) ++ nl ++ (value ++ nl) ++ delimiter ++ nl
  end.

Definition write_records (platform : CommandFilePlatform) (rs : list FileRecord) : str :=
  concat (write_record platform <$> rs).

Definition record_name_char (c : Z) : bool := negb (str_contains [10; 60; 61] c).

Definition writable_name (l : CommandFileLimits) (name : str) : bool :=
  not_empty name && forallb record_name_char name && (str_len name <=? name_bytes l).

Definition not_delimiter (l : CommandFileLimits) (delimiter : str) (line : ReadLine) : bool :=
  negb (str_eqb (line_text line) delimiter) && (str_len (line_text line) <=? line_bytes l).

(** Records within the limits; a value on one line has no line feed, and no
    line of a block's value is the delimiter. *)
Definition writable (platform : CommandFilePlatform) (l : CommandFileLimits) (r : FileRecord) : bool :=
  match r with
  | InlineWritten name value =>
      writable_name l name && negb (str_contains value 10) &&
      (str_len value <=? value_bytes l) && (str_len (name ++ 61 :: value) <=? line_bytes l)
  | BlockWritten name delimiter value =>
      writable_name l name && not_empty delimiter && negb (str_contains delimiter 10) &&
      (str_len delimiter <=? name_bytes l) &&
      (str_len (name ++ [60; 60] ++ delimiter) <=? line_bytes l) &&
      (str_len value <=? value_bytes l) &&
      forallb (not_delimiter l delimiter) (env_lines platform (value ++ platform_newline platform))
  end.

Lemma str_contains_false (s : str) (c : Z) : str_contains s c = false ↔ c ∉ s.
Proof.
  unfold str_contains. rewrite <- not_true_iff_false, existsb_exists. apply not_iff_compat.
  split.
  - intros (d & Hd & ->%Z.eqb_eq). by apply list_elem_of_In.
  - intros H. exists c. split; [by apply list_elem_of_In|apply Z.eqb_refl].
Qed.

Lemma record_name_fresh (name : str) (c : Z) :
  forallb record_name_char name = true → c ∈ [10; 60; 61] → c ∉ name.
Proof.
  rewrite forallb_forall. intros H Hc Hin%list_elem_of_In%H. unfold record_name_char in Hin.
  by apply negb_true_iff, str_contains_false in Hin.
Qed.

(** The mark that comes first ends the shorter prefix. *)
Lemma first_mark (x y : Z) (a b c d : str) :
  a ++ x :: b = c ++ y :: d → x ≠ y → y ∉ a → str_len a < str_len c.
Proof.
  intros H Hxy Hy. apply app_eq_app in H as [k [[-> H]|[-> H]]].
  - exfalso. destruct k as [|z k]; [naive_solver|]. injection H as <- _. apply Hy.
    rewrite elem_of_app, elem_of_cons. auto.
  - destruct k as [|z k]; [naive_solver|]. rewrite str_len_app, str_len_cons.
    pose proof (len_utf8_pos z). pose proof (str_len_nonneg k). lia.
Qed.

Lemma record_head_inline (name value : str) :
  60 ∉ name → 61 ∉ name → record_head (name ++ 61 :: value) = InlineRecord name value.
Proof.
  intros H60 H61. unfold record_head.
  rewrite (proj2 (split_once_Some 61 _ name value)) by done. change (lit "<<") with [60; 60].
  destruct (split_once_str [60; 60] _) as [[h d]|] eqn:E; [|done].
  apply split_once_str_Some in E. apply first_mark in E; [|done..].
  apply Z.ltb_lt in E. by rewrite E.
Qed.

Lemma record_head_block (name delimiter : str) :
  60 ∉ name → 61 ∉ name →
  record_head (name ++ [60; 60] ++ delimiter) = HeredocRecord name delimiter.
Proof.
  intros H60 H61. unfold record_head. change (lit "<<") with [60; 60].
  rewrite split_once_str_fresh by done.
  destruct (split_once 61 _) as [[e v]|] eqn:E; [|done].
  apply split_once_Some in E as [E _]. apply first_mark in E; [|done..].
  replace (str_len e <? str_len name) with false by lia. apply Z.ltb_lt in E. by rewrite E.
Qed.

Lemma complete_lines_end (platform : CommandFilePlatform) (text : str) :
  complete text → Forall (λ line, newline line ≠ None) (env_lines platform text).
Proof.
  revert text. apply (env_lines_ind platform (λ text lines, complete text →
    Forall (λ line, newline line ≠ None) lines)); [done|].
  intros text line after Hr IH Hc. constructor.
  - apply read_env_line_Some in Hr as (-> & Hne & Hl & Hn). intros Hnone. rewrite Hnone in Hn.
    subst after. unfold raw_line in *. rewrite Hnone in *. cbn [default] in *.
    rewrite !app_nil_r in *. destruct Hc as [?|[t Ht]]; [done|]. apply Hl. rewrite Ht.
    rewrite elem_of_app, list_elem_of_singleton. auto.
  - apply IH. eapply read_complete in Hr as [Ha _]; [exact Ha|done]. Unshelve. exact [].
Qed.

Section Heredocs.
Context (kind : CommandFileKind) (l : CommandFileLimits) (commands : list NameValueCommand).

(** Lines that are not the delimiter are kept with their newlines. *)
Lemma heredoc_lines (lines rest : list ReadLine) (name delimiter text value : str) :
  forallb (not_delimiter l delimiter) lines = true →
  Forall (λ line, newline line ≠ None) lines →
  ∃ value', parse_records kind l (Some (MkHeredoc name delimiter text value)) commands
              (lines ++ rest) =
            parse_records kind l
              (Some (MkHeredoc name delimiter (text ++ concat (raw_line <$> lines)) value'))
              commands rest.
Proof.
  revert text value. induction lines as [|line lines IH]; intros text value; cbn [forallb].
  { intros _ _. exists value. cbn. by rewrite app_nil_r. }
  intros [Hl Hls]%andb_true_iff [Hn Hns]%Forall_cons.
  unfold not_delimiter in Hl. apply andb_true_iff in Hl as [Hd Hlen].
  destruct (newline line) as [nl|] eqn:En; [|done].
  destruct (IH (text ++ line_text line ++ nl) (text ++ line_text line) Hls Hns) as [v Hv].
  exists v. cbn [app parse_records]. unfold validate_line, reject.
  replace (line_bytes l <? str_len (line_text line)) with false by lia.
  cbn [mbind result_bind heredoc_delimiter]. apply negb_true_iff in Hd. rewrite Hd, En.
  etransitivity; [exact Hv|]. cbn [fmap list_fmap concat]. unfold raw_line at 2. rewrite En.
  cbn [default]. by rewrite <- !app_assoc.
Qed.

Lemma heredoc_reads (platform : CommandFilePlatform) (name delimiter value rest : str) :
  forallb (not_delimiter l delimiter) (env_lines platform (value ++ platform_newline platform)) = true →
  10 ∉ delimiter → str_len delimiter <= line_bytes l → str_len value <= value_bytes l →
  parse_records kind l (Some (MkHeredoc name delimiter [] [])) commands
    (env_lines platform
       ((value ++ platform_newline platform) ++ delimiter ++ platform_newline platform ++ rest)) =
  parse_records kind l None (commands ++ [MkNameValue name value]) (env_lines platform rest).
Proof.
  intros Hnd H10 Hdl Hv. destruct (last_piece value) as (a & b & -> & Ha & Hb).
  rewrite <- !app_assoc in *. rewrite env_lines_app in * by done.
  rewrite env_lines_line by done.
  rewrite forallb_app in Hnd. apply andb_true_iff in Hnd as [Hna Hnb].
  rewrite <- (app_nil_r (platform_newline platform)), env_lines_line in Hnb by done.
  destruct (heredoc_lines (env_lines platform a)
    (MkReadLine b (Some (platform_newline platform)) ::
     env_lines platform (delimiter ++ platform_newline platform ++ rest)) name delimiter [] [] Hna
    (complete_lines_end _ _ Ha)) as [v ->].
  rewrite env_lines_text. cbn [app parse_records line_text newline].
  cbn [forallb] in Hnb. apply andb_true_iff in Hnb as [Hnb _]. unfold not_delimiter in Hnb.
  cbn [line_text] in Hnb. apply andb_true_iff in Hnb as [Hbd Hbl]. apply negb_true_iff in Hbd.
  unfold validate_line at 1, reject.
  replace (line_bytes l <? str_len b) with false by lia.
  cbn [mbind result_bind heredoc_delimiter]. rewrite Hbd, env_lines_line by done.
  cbn [parse_records line_text newline]. unfold validate_line at 1, reject.
  replace (line_bytes l <? str_len delimiter) with false by lia.
  cbn [mbind result_bind heredoc_delimiter heredoc_value heredoc_text heredoc_name].
  unfold str_eqb. rewrite bool_decide_eq_true_2 by done.
  unfold validate_value, reject.
  replace (value_bytes l <? str_len (a ++ b)) with false by lia. done.
Qed.

Lemma record_reads (platform : CommandFilePlatform) (r : FileRecord) (rest : str) :
  writable platform l r = true → Z.of_nat (length commands) < records l →
  parse_records kind l None commands (env_lines platform (write_record platform r ++ rest)) =
  parse_records kind l None (commands ++ [record_command r]) (env_lines platform rest).
Proof.
  intros Hw Hn. destruct r as [name value|name delimiter value];
    cbn [writable write_record record_command] in *; cbv zeta;
    rewrite !andb_true_iff in Hw; unfold writable_name in Hw; rewrite !andb_true_iff in Hw.
  - destruct Hw as (((((Hne & Hc) & Hnl) & Hv) & Hvl) & Hl).
    apply negb_true_iff, str_contains_false in Hv.
    rewrite <- app_assoc, env_lines_line.
    2: { rewrite elem_of_app, elem_of_cons. intros [H|[H|H]]; [|done|done].
         eapply record_name_fresh; [exact Hc| |exact H]. apply list_elem_of_here. }
    cbn [parse_records line_text]. unfold validate_line, reject.
    replace (line_bytes l <? str_len (name ++ 61 :: value)) with false by lia.
    cbn [mbind result_bind].
    assert (He : str_is_empty (name ++ 61 :: value) = false) by (by destruct name). rewrite He.
    replace (records l <=? Z.of_nat (length commands)) with false by lia.
    rewrite record_head_inline by
      (eapply record_name_fresh; [exact Hc|rewrite !elem_of_cons; auto]).
    assert (Hi : str_is_empty name = false) by (by destruct name).
    unfold validate_name, validate_value, reject. rewrite Hi.
    replace (name_bytes l <? str_len name) with false by lia.
    replace (value_bytes l <? str_len value) with false by lia. done.
  - destruct Hw as ((((((((Hne & Hc) & Hnl) & Hd) & Hd10) & Hdl) & Hl) & Hvl) & Hnd).
    apply negb_true_iff, str_contains_false in Hd10.
    rewrite <- (app_assoc (name ++ [60; 60] ++ delimiter)),
      <- (app_assoc (platform_newline platform)), env_lines_line.
    2: { rewrite !elem_of_app, !elem_of_cons. intros [H|[[?|[?|?%elem_of_nil]]|H]]; try done.
         eapply record_name_fresh; [exact Hc| |exact H]. apply list_elem_of_here. }
    cbn [parse_records line_text]. unfold validate_line at 1, reject.
    replace (line_bytes l <? str_len (name ++ [60; 60] ++ delimiter)) with false by lia.
    cbn [mbind result_bind].
    assert (He : str_is_empty (name ++ [60; 60] ++ delimiter) = false) by (by destruct name).
    rewrite He. replace (records l <=? Z.of_nat (length commands)) with false by lia.
    rewrite record_head_block by
      (eapply record_name_fresh; [exact Hc|rewrite !elem_of_cons; auto]).
    assert (Hi : str_is_empty name = false) by (by destruct name).
    assert (Hj : str_is_empty delimiter = false) by (by destruct delimiter).
    unfold validate_name, reject. rewrite Hi, Hj.
    replace (name_bytes l <? str_len name) with false by lia.
    replace (name_bytes l <? str_len delimiter) with false by lia. cbn [mbind result_bind].
    rewrite <- (app_assoc (value ++ _)), <- (app_assoc delimiter). apply heredoc_reads; [done|done| |lia].
    rewrite !str_len_app in Hl. pose proof (str_len_nonneg name).
    pose proof (str_len_nonneg [60; 60]). lia.
Qed.

End Heredocs.

Lemma records_read (platform : CommandFilePlatform) (kind : CommandFileKind)
    (l : CommandFileLimits) (rs : list FileRecord) (commands : list NameValueCommand) :
  forallb (writable platform l) rs = true →
  Z.of_nat (length commands + length rs) <= records l →
  parse_records kind l None commands (env_lines platform (write_records platform rs)) =
  Ok (commands ++ (record_command <$> rs)).
Proof.
  revert commands. induction rs as [|r rs IH]; intros commands; cbn [forallb length].
  { intros _ _. cbn. by rewrite app_nil_r. }
  intros [Hr Hrs]%andb_true_iff Hn. unfold write_records. cbn [fmap list_fmap concat].
  rewrite record_reads by (done || lia). etransitivity.
  - apply IH; [done|]. rewrite length_app. cbn [length]. lia.
  - by rewrite <- app_assoc.
Qed.

(** ** Whole files *)

(** The decoded file of the kinds that hold names and values. *)
Definition named_file (kind : CommandFileKind) (commands : list NameValueCommand) :
    option ParsedCommandFile :=
  match kind with
  | KindEnvironment => Some (ParsedEnvironment commands)
  | KindOutput => Some (ParsedOutput commands)
  | KindState => Some (ParsedState commands)
  | _ => None
  end.

Lemma strip_bom_plain (text : str) :
  forallb is_scalar text = true → head text ≠ Some 65279 → strip_bom (as_bytes text) = as_bytes text.
Proof.
  intros Hs Hh. unfold strip_bom. destruct (strip_prefix UTF8_BOM _) as [r|] eqn:E; [|done].
  exfalso. apply strip_prefix_Some in E. change UTF8_BOM with (utf8_char 65279) in E.
  pose proof (from_utf8_as_bytes text Hs) as Hd. rewrite E, utf8_char_decode in Hd by done.
  destruct (from_utf8 r) as [t|]; [|done]. injection Hd as <-. done.
Qed.

Lemma parse_file_named (kind : CommandFileKind) (text : str) (platform : CommandFilePlatform)
    (l : CommandFileLimits) (commands : list NameValueCommand) (file : ParsedCommandFile) :
  named_file kind commands = Some file → parse_name_values kind text platform l = Ok commands →
  parse_file kind text platform l = Ok file.
Proof. intros Hf H. destruct kind; simplify_eq/=; by rewrite H. Qed.

(** C29: what a step writes is what later steps get. An environment, output or
    state file is made of records within the limits on names, lines, values and
    their number, each on one line or as a block whose delimiter is no line of
    its value, with or without a byte order mark and with the newlines of either
    platform. It is refused when it is larger than a file may be or holds a NUL
    character, and decodes otherwise to exactly those names and values in order;
    nothing else in a value, not even the syntax of other records, matters. *)
Theorem written_records_decode (l : CommandFileLimits) (kind : CommandFileKind)
    (platform : CommandFilePlatform) (rs : list FileRecord) (bom : bool)
    (file : ParsedCommandFile) :
  let text := write_records platform rs in
  let source := (if bom then UTF8_BOM else []) ++ as_bytes text in
  named_file kind (record_command <$> rs) = Some file →
  forallb (writable platform l) rs = true → Z.of_nat (length rs) <= records l →
  forallb is_scalar text = true → (bom = false → head text ≠ Some 65279) →
  decode_command_file l kind source platform =
    if file_bytes l <? Z.of_nat (length source)
    then Err (FileTooLarge kind (file_bytes l) (Z.of_nat (length source)))
    else if str_contains text 0 then Err (MalformedRecord kind)
    else Ok file.
Proof.
  intros text source Hf Hw Hn Hs Hb. unfold decode_command_file, kind_file_bytes, reject. cbv zeta.
  assert (Hk : kind ≠ KindStepSummary ∧ kind ≠ KindArtifacts) by (by destruct kind).
  rewrite !bool_decide_eq_false_2 by apply Hk. cbn [andb negb mbind result_bind].
  destruct (file_bytes l <? Z.of_nat (length source)); [done|]. cbn [mbind result_bind].
  assert (Hstrip : strip_bom source = as_bytes text).
  { subst source. destruct bom; [done|]. apply strip_bom_plain; auto. }
  rewrite Hstrip, from_utf8_as_bytes by done. cbn [ok_or mbind result_bind].
  destruct (str_contains text 0); [done|]. cbn [mbind result_bind].
  eapply parse_file_named; [exact Hf|]. by apply (records_read platform kind l rs []).
Qed.

Lemma written_records_decode_witness :
  decode_command_file command_file_limits_default KindOutput
    (UTF8_BOM ++ as_bytes (write_records PlatformWindows
       [InlineWritten (lit "a") (lit "x=<<y"); BlockWritten (lit "b") (lit "EOF")
          (lit "c=1" ++ [10] ++ lit " EOF" ++ [13; 10; 13])]))
    PlatformWindows =
  Ok (ParsedOutput [MkNameValue (lit "a") (lit "x=<<y");
                    MkNameValue (lit "b") (lit "c=1" ++ [10] ++ lit " EOF" ++ [13; 10; 13])]) ∧
  decode_command_file command_file_limits_default KindState
    ([] ++ as_bytes (write_records PlatformUnix [InlineWritten (lit "a") [0]])) PlatformUnix =
  Err (MalformedRecord KindState).
Proof.
  split.
  - apply (written_records_decode command_file_limits_default KindOutput PlatformWindows
      [InlineWritten (lit "a") (lit "x=<<y"); BlockWritten (lit "b") (lit "EOF")
         (lit "c=1" ++ [10] ++ lit " EOF" ++ [13; 10; 13])] true);
      try reflexivity; vm_compute; discriminate.
  - apply (written_records_decode command_file_limits_default KindState PlatformUnix
      [InlineWritten (lit "a") [0]] false (ParsedState [MkNameValue (lit "a") [0]]));
      try reflexivity; vm_compute; discriminate.
Defined.

(** ** Bounds of decoded files *)

Fixpoint total {A : Type} (f : A → Z) (xs : list A) : Z :=
  match xs with [] => 0 | x :: xs => f x + total f xs end.

Lemma total_app {A : Type} (f : A → Z) (xs ys : list A) : total f (xs ++ ys) = total f xs + total f ys.
Proof. induction xs as [|x xs IH]; cbn [app total]; lia. Qed.

Definition nv_size (c : NameValueCommand) : Z := str_len (nv_name c) + str_len (nv_value c).

Definition nv_within (l : CommandFileLimits) (c : NameValueCommand) : bool :=
  not_empty (nv_name c) && (str_len (nv_name c) <=? name_bytes l) &&
  (str_len (nv_value c) <=? value_bytes l).

(** A pending heredoc came from checked text. *)
Definition heredoc_within (l : CommandFileLimits) (h : Heredoc) : bool :=
  not_empty (heredoc_name h) && (str_len (heredoc_name h) <=? name_bytes l) &&
  (str_len (heredoc_value h) <=? str_len (heredoc_text h)).

Definition pending_within (l : CommandFileLimits) (pending : option Heredoc) (count : Z) : bool :=
  match pending with None => true | Some h => heredoc_within l h && (count <? records l) end.

Definition pending_size (pending : option Heredoc) : Z :=
  match pending with None => 0 | Some h => str_len (heredoc_name h) + str_len (heredoc_text h) end.

Lemma record_head_size (line : str) :
  match record_head line with
  | InlineRecord name value => str_len name + str_len value <= str_len line
  | HeredocRecord name _ => str_len name <= str_len line
  | NotARecord => True
  end.
Proof.
  assert (Hi : ∀ name value, split_once 61 line = Some (name, value) →
    str_len name + str_len value <= str_len line).
  { intros name value [-> _]%split_once_Some. rewrite str_len_app, str_len_cons.
    pose proof (len_utf8_pos 61). lia. }
  assert (Hh : ∀ name d, split_once_str (lit "<<") line = Some (name, d) → str_len name <= str_len line).
  { intros name d ->%split_once_str_Some. rewrite !str_len_app.
    pose proof (str_len_nonneg (lit "<<")). pose proof (str_len_nonneg d). lia. }
  unfold record_head. destruct (split_once 61 line) as [[n v]|], (split_once_str _ line) as [[h d]|];
    [|by auto|by eauto|done].
  destruct (str_len n <? str_len h); [by auto|]. destruct (str_len h <? str_len n); [by eauto|done].
Qed.

Lemma validate_name_Ok (kind : CommandFileKind) (name : str) (l : CommandFileLimits) :
  validate_name kind name l = Ok tt → not_empty name && (str_len name <=? name_bytes l) = true.
Proof.
  unfold validate_name, not_empty, reject. destruct (str_is_empty name); [done|]. cbn.
  destruct (name_bytes l <? str_len name) eqn:E; [done|]. lia.
Qed.

Lemma raw_line_newline (line : ReadLine) (nl : str) :
  newline line = Some nl → raw_line line = line_text line ++ nl.
Proof. unfold raw_line. by intros ->. Qed.

Lemma raw_line_size (line : ReadLine) :
  0 <= str_len (line_text line) <= str_len (raw_line line).
Proof.
  unfold raw_line. rewrite str_len_app. pose proof (str_len_nonneg (line_text line)).
  pose proof (str_len_nonneg (default [] (newline line))). lia.
Qed.

Lemma push_within (l : CommandFileLimits) (commands : list NameValueCommand) (c : NameValueCommand) :
  nv_within l c = true → Z.of_nat (length commands) < records l →
  forallb (nv_within l) commands = true →
  forallb (nv_within l) (commands ++ [c]) = true ∧ Z.of_nat (length (commands ++ [c])) <= records l.
Proof.
  intros Hc Hn Hcs. rewrite forallb_app, Hcs, length_app. cbn. rewrite Hc. split; [done|lia].
Qed.

(** The records of a file are no more than the limit, each within its limits,
    and hold no more text than was read. *)
Lemma parse_records_bounded (kind : CommandFileKind) (l : CommandFileLimits)
    (lines : list ReadLine) (pending : option Heredoc) (commands found : list NameValueCommand) :
  parse_records kind l pending commands lines = Ok found →
  forallb (nv_within l) commands = true → Z.of_nat (length commands) <= records l →
  pending_within l pending (Z.of_nat (length commands)) = true →
  forallb (nv_within l) found = true ∧ Z.of_nat (length found) <= records l ∧
  total nv_size found <=
    total nv_size commands + pending_size pending + total (λ line, str_len (raw_line line)) lines.
Proof.
  intros H. revert pending commands H.
  induction lines as [|line lines IH]; intros pending commands H Hc Hn Hp; cbn [parse_records] in H.
  { destruct pending as [h|]; [done|]. injection H as <-. cbn. split_and!; [done|done|lia]. }
  destruct (validate_line kind (line_text line) l) as [[]|] eqn:El; [|done].
  cbn [mbind result_bind] in H. cbn [total].
  pose proof (raw_line_size line) as Hline.
  pose proof (push_within l commands) as Hpush.
  destruct pending as [h|]; cbn [pending_within pending_size] in *.
  - apply andb_true_iff in Hp as [Hh Hlt]. unfold heredoc_within in Hh.
    rewrite !andb_true_iff in Hh. destruct Hh as ((Hne & Hnl) & Hvt).
    destruct (str_eqb (line_text line) (heredoc_delimiter h)).
    + destruct (validate_value kind (heredoc_value h) l) as [[]|] eqn:Ev; [|done].
      cbn [mbind result_bind] in H. unfold validate_value, reject in Ev.
      destruct (value_bytes l <? _) eqn:Evl in Ev; [done|].
      destruct (Hpush (MkNameValue (heredoc_name h) (heredoc_value h))) as [Hcs Hns].
      { unfold nv_within. cbn [nv_name nv_value]. rewrite Hne. lia. } { lia. } { done. }
      destruct (IH None _ H Hcs Hns eq_refl) as (Hf & Hfn & Hft). split_and!; [done|done|].
      rewrite total_app in Hft. cbn [total pending_size] in Hft. unfold nv_size at 3 in Hft.
      cbn [nv_name nv_value] in Hft. lia.
    + destruct (newline line) as [nl|] eqn:En; [|done].
      destruct (IH _ _ H Hc Hn) as (Hf & Hfn & Hft).
      { cbn [pending_within]. unfold heredoc_within. cbn [heredoc_name heredoc_value heredoc_text].
        rewrite Hne, !str_len_app. pose proof (str_len_nonneg nl). lia. }
      split_and!; [done|done|]. cbn [pending_size heredoc_name heredoc_text] in Hft.
      rewrite (raw_line_newline line nl En). rewrite !str_len_app in *. lia.
  - destruct (str_is_empty (line_text line)).
    { destruct (IH None _ H Hc Hn eq_refl) as (Hf & Hfn & Hft). cbn [pending_size] in Hft. split_and!; [done|done|lia]. }
    unfold reject at 1 in H. destruct (records l <=? _) eqn:Er; [done|]. cbn [mbind result_bind] in H.
    pose proof (record_head_size (line_text line)) as Hsize.
    destruct (record_head (line_text line)) as [name value|name delimiter|]; [| |done];
      (destruct (validate_name kind name l) as [[]|] eqn:Evn; [|done]);
      apply validate_name_Ok in Evn; cbn [mbind result_bind] in H.
    + destruct (validate_value kind value l) as [[]|] eqn:Ev; [|done].
      cbn [mbind result_bind] in H. unfold validate_value, reject in Ev.
      destruct (value_bytes l <? _) eqn:Evl in Ev; [done|].
      destruct (Hpush (MkNameValue name value)) as [Hcs Hns].
      { unfold nv_within. cbn [nv_name nv_value]. rewrite Evn. lia. } { lia. } { done. }
      destruct (IH None _ H Hcs Hns eq_refl) as (Hf & Hfn & Hft). split_and!; [done|done|].
      rewrite total_app in Hft. cbn [total pending_size] in Hft. unfold nv_size at 3 in Hft.
      cbn [nv_name nv_value] in Hft. lia.
    + unfold reject in H. destruct (str_is_empty delimiter); [done|].
      destruct (name_bytes l <? str_len delimiter); [done|]. cbn [mbind result_bind] in H.
      destruct (IH _ _ H Hc Hn) as (Hf & Hfn & Hft).
      { cbn [pending_within]. unfold heredoc_within. cbn [heredoc_name heredoc_value heredoc_text].
        rewrite Evn. change (str_len []) with 0. lia. }
      split_and!; [done|done|]. cbn [pending_size heredoc_name heredoc_text] in Hft.
      change (str_len []) with 0 in Hft. lia.
Qed.

(** ** Paths *)

Definition path_within (l : CommandFileLimits) (line : str) : bool :=
  (str_len line <=? line_bytes l) && (str_len line <=? value_bytes l).

Lemma parse_path_line_spec (kind : CommandFileKind) (l : CommandFileLimits) (paths : list str)
    (line : str) :
  0 <= line_bytes l → 0 <= value_bytes l →
  parse_path_line kind l paths line =
    if str_is_empty line then Ok paths
    else if path_within l line && (Z.of_nat (length paths) <? records l) then Ok (paths ++ [line])
    else parse_path_line kind l paths line.
Proof.
  intros Hl Hv. unfold parse_path_line, validate_path_line, validate_line, path_within, reject.
  destruct line as [|c line].
  { change (str_len []) with 0. replace (line_bytes l <? 0) with false by lia.
    by replace (value_bytes l <? 0) with false by lia. }
  cbn [str_is_empty negb andb]. set (n := str_len (c :: line)).
  destruct ((n <=? line_bytes l) && (n <=? value_bytes l) && _) eqn:E; [|done].
  replace (line_bytes l <? n) with false by lia. replace (value_bytes l <? n) with false by lia.
  by replace (records l <=? Z.of_nat (length paths)) with false by lia.
Qed.

Lemma parse_path_line_Ok (kind : CommandFileKind) (l : CommandFileLimits) (paths found : list str)
    (line : str) :
  parse_path_line kind l paths line = Ok found →
  found = paths ++ List.filter not_empty [line] ∧
  (not_empty line = true → path_within l line = true ∧ Z.of_nat (length paths) < records l).
Proof.
  unfold parse_path_line, validate_path_line, validate_line, path_within, reject, not_empty.
  intros H. unfold_monad. destruct (line_bytes l <? str_len line) eqn:E1; [done|].
  destruct (value_bytes l <? str_len line) eqn:E2; [done|].
  destruct (str_is_empty line) eqn:E3; simplify_eq/=; [by rewrite app_nil_r|].
  destruct (records l <=? _) eqn:E4; simplify_eq/=. split; [done|]. intros _. split; lia.
Qed.

Lemma parse_paths_fold (kind : CommandFileKind) (l : CommandFileLimits) (lines paths found : list str) :
  0 <= line_bytes l → 0 <= value_bytes l →
  try_fold (parse_path_line kind l) paths lines = Ok found ↔
  found = paths ++ List.filter not_empty lines ∧
  forallb (path_within l) (List.filter not_empty lines) = true ∧
  (List.filter not_empty lines ≠ [] → Z.of_nat (length found) <= records l).
Proof.
  intros Hl Hv. revert paths. induction lines as [|line lines IH]; intros paths.
  { cbn. rewrite app_nil_r. split; [by intros [= <-]|by intros (-> & _)]. }
  cbn [try_fold]. rewrite parse_path_line_spec by done.
  destruct line as [|c line]; cbn [str_is_empty]; [apply IH|]. unfold not_empty at 1 2 3.
  cbn [List.filter str_is_empty negb forallb]. set (p := c :: line).
  destruct (path_within l p) eqn:Ep; cbn [andb].
  - destruct (Z.ltb_spec (Z.of_nat (length paths)) (records l)) as [Hlt|Hge].
    + cbn [mbind result_bind]. rewrite IH, <- app_assoc. cbn [app]. split.
      * intros (-> & Hw & Hn). split_and!; [done|done|]. intros _. rewrite length_app in *.
        cbn [length] in *. destruct (List.filter not_empty lines); [cbn [length]; lia|].
        cbn [length] in *. apply Hn. done.
      * intros (-> & Hw & Hn). split_and!; [done|done|]. intros _. by apply Hn.
    + split.
      * destruct (parse_path_line kind l paths p) as [q|] eqn:E; [|done].
        apply parse_path_line_Ok in E as [_ E]. destruct (E eq_refl). lia.
      * intros (-> & _ & Hn). specialize (Hn ltac:(done)). rewrite length_app in Hn.
        cbn [length] in Hn. lia.
  - split; [|naive_solver]. destruct (parse_path_line kind l paths p) as [q|] eqn:E; [|done].
    apply parse_path_line_Ok in E as [_ E]. destruct (E eq_refl). congruence.
Qed.

(** A path file is its non-empty lines: parsing succeeds exactly when they
    are within the limits and returns them in order, whatever mix of carriage
    returns and line feeds separates them. *)
Lemma paths_are_the_lines (kind : CommandFileKind) (l : CommandFileLimits) (text : str)
    (paths : list str) :
  0 <= line_bytes l → 0 <= value_bytes l → 0 <= records l →
  parse_paths kind text l = Ok paths ↔
  paths = List.filter not_empty (split_any ends_line text) ∧
  forallb (path_within l) paths = true ∧ Z.of_nat (length paths) <= records l.
Proof.
  intros Hl Hv Hr. unfold parse_paths. rewrite parse_paths_fold by done. cbn [app].
  rewrite text_lines_split. split.
  - intros (-> & Hw & Hn). split_and!; [done|done|].
    destruct (List.filter _ _); [cbn; lia|]. by apply Hn.
  - intros (-> & Hw & Hn). done.
Qed.

(** ** Artifacts *)

Definition digest_algorithms : list (str * Z) :=
  [(lit "sha256", 64); (lit "sha384", 96); (lit "sha512", 128)].

Lemma hexdigit_range (c : Z) : is_ascii_hexdigit c = true → is_ascii c = true ∧ c ≠ 64 ∧
  digest_char (to_ascii_lowercase c) = true ∧ is_ascii (to_ascii_lowercase c) = true.
Proof.
  unfold is_ascii_hexdigit, is_ascii, digest_char, to_ascii_lowercase, is_ascii_digit,
    is_ascii_uppercase, in_range.
  destruct ((65 <=? c) && (c <=? 90)) eqn:E; intros H; split_and!; lia.
Qed.

(** A byte string all of whose bytes are ASCII is its own encoding. *)
Lemma bytes_ascii (f : Z → bool) (s : str) :
  (∀ c, f c = true → is_ascii c = true) → forallb f (as_bytes s) = true → as_bytes s = s.
Proof.
  intros Hf. induction s as [|c s IH]; [done|]. change (c :: s) with ([c] ++ s).
  rewrite as_bytes_app, forallb_app. intros [Hc Hs]%andb_true_iff. rewrite IH by done.
  f_equal. unfold as_bytes in *. cbn [mbind list_bind] in *. rewrite app_nil_r in *.
  revert Hc. unfold utf8_char. cbv zeta. destruct (Z.ltb_spec c 128); [done|].
  assert (Hd : ∀ n, 0 <= n → 0 <= c / 2 ^ n) by (intros; apply Z.div_pos; lia).
  pose proof (Hd 6 ltac:(lia)). pose proof (Hd 12 ltac:(lia)). pose proof (Hd 18 ltac:(lia)).
  intros Hc. exfalso. destruct (Z.ltb_spec c 2048); [|destruct (Z.ltb_spec c 65536)];
    cbn [forallb] in Hc; apply andb_true_iff in Hc as [Hc%Hf _]; unfold is_ascii in Hc; lia.
Qed.

Section Digests.
Context (hexadecimal : str).
Hypothesis hexdigits : forallb is_ascii_hexdigit (as_bytes hexadecimal) = true.

Lemma hexadecimal_bytes : as_bytes hexadecimal = hexadecimal.
Proof. eapply bytes_ascii; [|exact hexdigits]. intros c Hc%hexdigit_range. apply Hc. Qed.

Lemma lowercase_digest : forallb digest_char (as_bytes (map to_ascii_lowercase hexadecimal)) = true ∧
  str_len (map to_ascii_lowercase hexadecimal) = str_len hexadecimal.
Proof.
  pose proof hexdigits as H. rewrite hexadecimal_bytes, forallb_forall in H.
  assert (Ha : str_is_ascii hexadecimal = true ∧
               str_is_ascii (map to_ascii_lowercase hexadecimal) = true).
  { unfold str_is_ascii. rewrite !forallb_forall. split.
    - intros c Hc%H%hexdigit_range. apply Hc.
    - intros c (d & <- & Hd%H%hexdigit_range)%in_map_iff. apply Hd. }
  destruct Ha as [Ha Hb]. rewrite as_bytes_ascii, !str_len_ascii, length_map by done.
  split; [|done]. apply forallb_forall. intros c (d & <- & Hd%H%hexdigit_range)%in_map_iff. apply Hd.
Qed.

Lemma canonical_lowercase (algorithm : str) (expected : Z) :
  (algorithm, expected) ∈ digest_algorithms → str_len hexadecimal = expected →
  canonical_artifact_digest (algorithm ++ 58 :: map to_ascii_lowercase hexadecimal) = true.
Proof.
  intros Hin Hlen. destruct lowercase_digest as [Hd Hl]. unfold canonical_artifact_digest.
  rewrite (proj2 (split_once_Some 58 _ algorithm (map to_ascii_lowercase hexadecimal))).
  2: { split; [done|]. unfold digest_algorithms in Hin. rewrite !elem_of_cons, elem_of_nil in Hin.
       destruct Hin as [[= -> _]|[[= -> _]|[[= -> _]|[]]]]; by apply str_contains_false. }
  rewrite Hd, Hl, Hlen. unfold digest_algorithms in Hin.
  rewrite !elem_of_cons, elem_of_nil in Hin.
  destruct Hin as [[= -> ->]|[[= -> ->]|[[= -> ->]|[]]]]; reflexivity.
Qed.

End Digests.

(** ** References to images *)

Lemma rsplit_once_absent (c : Z) (s : str) : c ∉ s → rsplit_once [c] s = None.
Proof.
  induction s as [|d s IH]; [done|]. rewrite elem_of_cons. intros H. cbn [rsplit_once].
  rewrite IH by naive_solver. rewrite strip_prefix_head by naive_solver. done.
Qed.

Lemma rsplit_once_last (c : Z) (a b : str) : c ∉ b → rsplit_once [c] (a ++ c :: b) = Some (a, b).
Proof.
  intros Hb. induction a as [|d a IH]; cbn [app rsplit_once].
  - rewrite rsplit_once_absent by done. cbn [strip_prefix]. by rewrite Z.eqb_refl.
  - by rewrite IH.
Qed.

Lemma digest_parts_spec (digest algorithm hexadecimal : str) (expected : Z) :
  digest_parts digest = Some (algorithm, hexadecimal, expected) ↔
  (algorithm, expected) ∈ digest_algorithms ∧ digest = algorithm ++ 58 :: hexadecimal.
Proof.
  unfold digest_parts, digest_algorithms. rewrite !elem_of_cons, elem_of_nil.
  change (lit "sha256:") with (lit "sha256" ++ [58]).
  change (lit "sha384:") with (lit "sha384" ++ [58]).
  change (lit "sha512:") with (lit "sha512" ++ [58]). split.
  - repeat case_match; intros; simplify_eq;
      (match goal with H : strip_prefix _ _ = Some _ |- _ => apply strip_prefix_Some in H as -> end);
      rewrite <- app_assoc; auto.
  - intros [[[= -> ->]|[[= -> ->]|[[= -> ->]|[]]]] ->]; reflexivity.
Qed.

(** A reference to an image is recognised exactly: a name, which may hold
    anything, an at sign, a known algorithm and as many hexadecimal digits as
    its digests have; no other check rejects it, and the digest that later
    steps see is the same one in lower case. *)
Lemma parse_oci_exact (value : str) (declaration : ArtifactDeclaration) :
  parse_oci value = Some declaration ↔
  ∃ name algorithm hexadecimal expected,
    value = name ++ 64 :: algorithm ++ 58 :: hexadecimal ∧ name ≠ [] ∧
    (algorithm, expected) ∈ digest_algorithms ∧ str_len hexadecimal = expected ∧
    forallb is_ascii_hexdigit hexadecimal = true ∧
    declaration = DeclaredOci
      (MkArtifactSubject name (algorithm ++ 58 :: map to_ascii_lowercase hexadecimal) SubjectOci).
Proof.
  unfold parse_oci. split.
  - destruct (rsplit_once [64] value) as [[name digest]|] eqn:Er; [|done].
    apply rsplit_once_Some in Er as ->.
    destruct (str_is_empty name) eqn:En; [done|].
    destruct (digest_parts digest) as [[[algorithm hexadecimal] expected]|] eqn:Ed; [|done].
    apply digest_parts_spec in Ed as [Hin ->]. cbn [mbind option_bind].
    destruct (str_is_empty hexadecimal); [done|]. cbn [orb].
    destruct (forallb is_ascii_hexdigit (as_bytes hexadecimal)) eqn:Eh; [|done]. cbn [negb orb].
    destruct (Z.eqb_spec (str_len hexadecimal) expected) as [Hl|]; [|done]. cbn [negb].
    destruct (artifact_subject_new _ _ _) as [subject|] eqn:Es; [|done]. intros [= <-].
    exists name, algorithm, hexadecimal, expected. split_and!; [done|by destruct name|done|done| |].
    + by rewrite hexadecimal_bytes in Eh.
    + revert Es. unfold artifact_subject_new. by case_match; intros; simplify_eq.
  - intros (name & algorithm & hexadecimal & expected & -> & Hne & Hin & Hl & Hh & ->).
    assert (Hb : as_bytes hexadecimal = hexadecimal).
    { apply as_bytes_ascii. unfold str_is_ascii. rewrite forallb_forall in *.
      intros c Hc%Hh%hexdigit_range. apply Hc. }
    rewrite rsplit_once_last.
    2: { rewrite elem_of_app, elem_of_cons. intros [H|[H|H]]; [|done|].
         - unfold digest_algorithms in Hin. rewrite !elem_of_cons, elem_of_nil in Hin.
           revert H. apply str_contains_false.
           by destruct Hin as [[= -> _]|[[= -> _]|[[= -> _]|[]]]].
         - rewrite forallb_forall in Hh. apply list_elem_of_In, Hh, hexdigit_range in H. naive_solver. }
    assert (En : str_is_empty name = false) by (by destruct name). rewrite En.
    rewrite (proj2 (digest_parts_spec _ algorithm hexadecimal expected)) by done.
    cbn [mbind option_bind]. unfold artifact_subject_new.
    rewrite (canonical_lowercase hexadecimal ltac:(by rewrite Hb) algorithm expected), En by done.
    rewrite Hb, Hh, Hl, Z.eqb_refl.
    replace (str_is_empty hexadecimal) with false; [done|].
    destruct hexadecimal; [|done]. exfalso. cbn in Hl. unfold digest_algorithms in Hin.
    rewrite !elem_of_cons, elem_of_nil in Hin. naive_solver.
Qed.

(** ** Sizes *)

Lemma str_len_rev (s : str) : str_len (rev s) = str_len s.
Proof.
  induction s as [|c s IH]; [done|]. cbn [rev]. rewrite str_len_app, IH, !str_len_cons.
  change (str_len []) with 0. lia.
Qed.

Lemma str_len_trim_start (s : str) : str_len (trim_start s) <= str_len s.
Proof.
  induction s as [|c s IH]; [done|]. cbn [trim_start]. case_match; [|done].
  rewrite str_len_cons. pose proof (len_utf8_pos c). lia.
Qed.

Lemma str_len_trim (s : str) : str_len (trim s) <= str_len s.
Proof.
  unfold trim, trim_end. rewrite str_len_rev. etransitivity; [apply str_len_trim_start|].
  rewrite str_len_rev. apply str_len_trim_start.
Qed.

Lemma str_len_drop (n : nat) (s : str) : str_len (drop n s) <= str_len s.
Proof.
  rewrite <- (take_drop n s) at 2. rewrite str_len_app. pose proof (str_len_nonneg (take n s)). lia.
Qed.

Lemma text_lines_size (s : str) : total str_len (text_lines s) <= str_len s.
Proof.
  remember (length s) as n eqn:Hn. revert s Hn. induction (lt_wf n) as [n _ IH]. intros s ->.
  destruct s as [|c s]; [done|]. pose proof (IH (length s) ltac:(simpl; lia) s eq_refl) as Hs.
  pose proof (len_utf8_pos c). rewrite str_len_cons. cbn [text_lines].
  destruct (c =? 13).
  - destruct s as [|d s]; [cbn; lia|]. pose proof (len_utf8_pos d). rewrite str_len_cons in *.
    destruct (d =? 10); cbn [total]; change (str_len []) with 0; [|lia].
    pose proof (IH (length s) ltac:(simpl; lia) s eq_refl). lia.
  - destruct (c =? 10); cbn [total]; [change (str_len []) with 0; lia|].
    destruct (text_lines s) as [|k ks]; cbn [total] in *; rewrite str_len_cons; [|lia].
    change (str_len []) with 0. pose proof (str_len_nonneg s). lia.
Qed.

Lemma total_filter (f : str → bool) (ls : list str) :
  total str_len (List.filter f ls) <= total str_len ls.
Proof.
  induction ls as [|k ls IH]; [done|]. cbn [List.filter total]. pose proof (str_len_nonneg k).
  case_match; cbn [total]; lia.
Qed.

Lemma total_concat (lines : list ReadLine) :
  total (λ line, str_len (raw_line line)) lines = str_len (concat (raw_line <$> lines)).
Proof. induction lines as [|k ls IH]; [done|]. cbn [total fmap list_fmap concat]. rewrite str_len_app. by rewrite IH. Qed.

Definition declared_size (d : ArtifactDeclaration) : Z :=
  match d with
  | DeclaredFile path => str_len path
  | DeclaredOci subject => str_len (subject_name subject) + str_len (subject_digest subject)
  end.

Lemma parse_oci_size (value : str) (d : ArtifactDeclaration) :
  parse_oci value = Some d → declared_size d <= str_len value.
Proof.
  intros (name & algorithm & hexadecimal & expected & -> & _ & _ & _ & Hh & ->)%parse_oci_exact.
  cbn [declared_size subject_name subject_digest]. rewrite !str_len_app, !str_len_cons, !str_len_app,
    !str_len_cons. pose proof (len_utf8_pos 64).
  destruct (lowercase_digest hexadecimal) as [_ ->]; [|lia].
  rewrite as_bytes_ascii; [done|]. unfold str_is_ascii. rewrite forallb_forall in *.
  intros c Hc%Hh%hexdigit_range. apply Hc.
Qed.

Lemma parse_declaration_size (value : str) (d : ArtifactDeclaration) :
  parse_declaration value = Some d → declared_size d <= str_len value.
Proof.
  unfold parse_declaration, strip_prefix_ignore_ascii_case. destruct (str_contains value 61); [done|].
  destruct (eq_ignore_ascii_case _ FILE_SCHEME).
  { case_match; [done|]. intros [= <-]. apply str_len_drop. }
  destruct (eq_ignore_ascii_case _ OCI_SCHEME).
  { intros H%parse_oci_size. pose proof (str_len_drop (length OCI_SCHEME) value). lia. }
  destruct (has_uri_scheme value); [done|].
  destruct (parse_oci value) eqn:E; intros [= <-]; [by apply parse_oci_size|done].
Qed.

(** Every line of an artifact file is counted and gives at most a declaration
    no longer than itself. *)
Lemma artifact_lines_bounded (l : CommandFileLimits) (lines : list str) (n : Z)
    (ds : list ArtifactDeclaration) (n' : Z) (found : list ArtifactDeclaration) :
  records l < u64_max →
  try_fold (parse_artifact_line l) (n, ds) lines = Ok (n', found) →
  Z.of_nat (length ds) <= n → n <= records l →
  Z.of_nat (length found) <= records l ∧
  total declared_size found <= total declared_size ds + total str_len lines.
Proof.
  intros Hr. revert n ds. induction lines as [|line lines IH]; intros n ds; cbn [try_fold total].
  { intros [= <- <-]. lia. }
  destruct (parse_artifact_line l (n, ds) line) as [[m es]|] eqn:E; [|done].
  intros H Hd Hn. pose proof (str_len_nonneg line) as Hl. revert E. unfold parse_artifact_line.
  cbn [fst snd]. unfold reject. destruct (records l <? _) eqn:Er; [done|].
  rewrite Z.min_r in * by lia.
  destruct (line_bytes l <? str_len line); [done|]. cbn [mbind result_bind].
  destruct (_ || _).
  { intros [= <- <-]. destruct (IH _ _ H) as [? ?]; [lia..|]. lia. }
  destruct (parse_declaration (trim line)) as [d|] eqn:Ep; [|done]. cbn. intros [= <- <-].
  apply parse_declaration_size in Ep. pose proof (str_len_trim line).
  destruct (IH _ _ H) as [? Ht]; [rewrite length_app; cbn; lia|lia|].
  rewrite total_app in Ht. cbn [total] in Ht. lia.
Qed.

(** What a decoded file holds, and whether it is within the limits. *)
Definition file_size (file : ParsedCommandFile) : Z :=
  match file with
  | ParsedEnvironment commands | ParsedOutput commands | ParsedState commands =>
      total nv_size commands
  | ParsedPath paths => total str_len paths
  | ParsedStepSummary markdown => str_len markdown
  | ParsedArtifacts declarations => total declared_size declarations
  end.

Definition file_within (l : CommandFileLimits) (file : ParsedCommandFile) : bool :=
  match file with
  | ParsedEnvironment commands | ParsedOutput commands | ParsedState commands =>
      forallb (nv_within l) commands && (Z.of_nat (length commands) <=? records l)
  | ParsedPath paths =>
      forallb (λ path, not_empty path && path_within l path) paths &&
      (Z.of_nat (length paths) <=? records l)
  | ParsedStepSummary markdown => str_len markdown <=? summary_bytes l
  | ParsedArtifacts declarations => Z.of_nat (length declarations) <=? records l
  end.

(** The limits came from their constructor, which takes [usize]s. *)
Definition file_limits_built (l : CommandFileLimits) : Prop :=
  0 <= line_bytes l ∧ 0 <= value_bytes l ∧ 0 <= records l ∧
  command_file_limits_new (file_bytes l) (summary_bytes l) (line_bytes l) (records l) (name_bytes l)
    (value_bytes l) = Ok l.

Lemma file_limits_built_records (l : CommandFileLimits) :
  file_limits_built l → 0 <= records l <= HARD_MAX_RECORDS.
Proof.
  intros (_ & _ & Hr & H). split; [done|]. revert H. unfold command_file_limits_new.
  destruct (HARD_MAX_RECORDS <? records l) eqn:E; [|lia]. by rewrite !orb_true_r.
Qed.

Lemma parse_file_bounded (kind : CommandFileKind) (text : str) (platform : CommandFilePlatform)
    (l : CommandFileLimits) (file : ParsedCommandFile) :
  file_limits_built l → (kind = KindStepSummary → str_len text <= summary_bytes l) →
  parse_file kind text platform l = Ok file →
  file_within l file = true ∧ file_size file <= str_len text.
Proof.
  intros Hl Hs. pose proof (file_limits_built_records l Hl) as Hr. destruct Hl as (Hll & Hlv & _).
  assert (Hnamed : ∀ commands, parse_name_values kind text platform l = Ok commands →
    forallb (nv_within l) commands && (Z.of_nat (length commands) <=? records l) = true ∧
    total nv_size commands <= str_len text).
  { intros commands (Hw & Hn & Ht)%parse_records_bounded; [|done|cbn; lia|done].
    cbn [total pending_size] in Ht. rewrite total_concat, env_lines_text in Ht.
    rewrite Hw. split; [cbn [andb]; lia|lia]. }
  unfold parse_file.
  destruct kind; cbn [mbind result_bind];
    try (destruct (parse_name_values _ text platform l) as [commands|] eqn:E; [|done];
         intros [= <-]; by apply Hnamed).
  - destruct (parse_paths KindPath text l) as [paths|] eqn:E; [|done]. intros [= <-].
    unfold parse_paths in E. apply parse_paths_fold in E as (-> & Hw & Hn); [|done..]. cbn [app] in *.
    split.
    + cbn [file_within]. apply andb_true_iff. split.
      * rewrite forallb_forall in *. intros p Hp. rewrite (Hw p Hp). apply filter_In in Hp as [_ ->]. done.
      * destruct (List.filter not_empty (text_lines text)); [apply Z.leb_le; apply Hr|].
        specialize (Hn ltac:(done)). lia.
    + cbn [file_size]. etransitivity; [apply total_filter|apply text_lines_size].
  - destruct (validate_summary text l); [|done]. intros [= <-]. cbn [file_within file_size].
    split; [|lia]. apply Z.leb_le. auto.
  - unfold parse_artifact_declarations.
    destruct (try_fold _ _ _) as [[n ds]|] eqn:E; [|done]. cbn. intros [= <-].
    apply artifact_lines_bounded in E as [Hn Ht]; [|unfold HARD_MAX_RECORDS, u64_max in *; lia|cbn; lia|lia].
    cbn [file_within file_size]. pose proof (text_lines_size text). cbn [total] in Ht. split; lia.
Qed.

(** Whatever bytes a step leaves in a file, decoding either fails or gives
    no more records than the limit, each name, value and path within its own
    limit and names and paths not empty, and altogether no more text than the
    file had bytes. *)
Lemma decoded_files_are_bounded (l : CommandFileLimits) (kind : CommandFileKind)
    (source : list Z) (platform : CommandFilePlatform) (file : ParsedCommandFile) :
  file_limits_built l → decode_command_file l kind source platform = Ok file →
  file_within l file = true ∧ file_size file <= Z.of_nat (length source) ∧
  Z.of_nat (length source) <= kind_file_bytes kind l.
Proof.
  intros Hl. unfold decode_command_file, reject. cbv zeta.
  destruct (bool_decide (kind = KindStepSummary) && _) eqn:Es; [done|]. cbn [mbind result_bind].
  destruct (kind_file_bytes kind l <? _) eqn:Ef; [done|]. cbn [mbind result_bind].
  destruct (from_utf8 (strip_bom source)) as [text|] eqn:Eu; [|done]. cbn [ok_or mbind result_bind].
  destruct (negb _ && str_contains text 0); [done|]. cbn [mbind result_bind]. intros H.
  assert (Hsize : str_len text <= Z.of_nat (length source)).
  { rewrite <- as_bytes_length, (from_utf8_Some _ _ Eu). unfold strip_bom.
    destruct (strip_prefix UTF8_BOM source) as [r|] eqn:Eb; [|done].
    apply strip_prefix_Some in Eb as ->. rewrite length_app. change (default _ (Some r)) with r. lia. }
  assert (Hsum : kind = KindStepSummary → str_len text <= summary_bytes l).
  { intros ->. rewrite bool_decide_eq_true_2 in Es by done. cbn [andb] in Es. lia. }
  destruct (parse_file_bounded kind text platform l file Hl Hsum H) as [Hw Ht].
  split_and!; [done|lia|lia].
Qed.

