(* ===== verification/StepApplication.v ===== *)
(** * StepApplication: what a completed step changes for the steps after it

    Models [crates/automata-ci-actions-runtime/src/phase.rs] and
    [environment.rs], with the job state and scopes of [model.rs] and the
    limits of [limits.rs]: the effects of one step's command files are applied
    to the job's state, or the state stays as it was.

    The JSON encoder of the artifact list is not part of the sources; it is the
    parameter [to_vec] of the definitions that use it, and nothing is assumed
    of it. *)

From S2P Require Import Prelude Text Utf8 WorkflowCommand CommandFile.

(** ** Names a step cannot set ([environment.rs]) *)

Definition GITHUB_DEFAULT_ENVIRONMENT_NAMES : list str :=
  [lit "GITHUB_ACTION"; lit "GITHUB_ACTION_PATH"; lit "GITHUB_ACTION_REF";
   lit "GITHUB_ACTION_REPOSITORY"; lit "GITHUB_ACTIONS"; lit "GITHUB_ACTOR";
   lit "GITHUB_ACTOR_ID"; lit "GITHUB_API_URL"; lit "GITHUB_ARTIFACTS";
   lit "GITHUB_ARTIFACTS_LIST"; lit "GITHUB_BASE_REF"; lit "GITHUB_ENV"; lit "GITHUB_EVENT_NAME";
   lit "GITHUB_EVENT_PATH"; lit "GITHUB_GRAPHQL_URL"; lit "GITHUB_HEAD_REF"; lit "GITHUB_JOB";
   lit "GITHUB_OUTPUT"; lit "GITHUB_PATH"; lit "GITHUB_REF"; lit "GITHUB_REF_NAME";
   lit "GITHUB_REF_PROTECTED"; lit "GITHUB_REF_TYPE"; lit "GITHUB_REPOSITORY";
   lit "GITHUB_REPOSITORY_ID"; lit "GITHUB_REPOSITORY_OWNER"; lit "GITHUB_REPOSITORY_OWNER_ID";
   lit "GITHUB_RETENTION_DAYS"; lit "GITHUB_RUN_ATTEMPT"; lit "GITHUB_RUN_ID";
   lit "GITHUB_RUN_NUMBER"; lit "GITHUB_SERVER_URL"; lit "GITHUB_SHA"; lit "GITHUB_STATE";
   lit "GITHUB_STEP_SUMMARY"; lit "GITHUB_TRIGGERING_ACTOR"; lit "GITHUB_WORKFLOW";
   lit "GITHUB_WORKFLOW_REF"; lit "GITHUB_WORKFLOW_SHA"; lit "GITHUB_WORKSPACE"].

Definition RUNNER_DEFAULT_ENVIRONMENT_NAMES : list str :=
  [lit "RUNNER_ARCH"; lit "RUNNER_DEBUG"; lit "RUNNER_ENVIRONMENT"; lit "RUNNER_NAME";
   lit "RUNNER_OS"; lit "RUNNER_TEMP"; lit "RUNNER_TOOL_CACHE"].

Inductive ReservedEnvironmentNamespace := NamespaceGithub | NamespaceRunner.

Inductive EnvironmentMutationBlockReason :=
| BlockReserved (namespace : ReservedEnvironmentNamespace)
| BlockNodeOptions.

Definition names_equal (platform : CommandFilePlatform) (left right : str) : bool :=
  match platform with
  | PlatformUnix => str_eqb left right
  | PlatformWindows => eq_ignore_ascii_case left right
  end.

Definition catalog_contains (platform : CommandFilePlatform) (name : str) (catalog : list str) : bool :=
  existsb (λ candidate, names_equal platform name candidate) catalog.

Definition classify_environment_mutation (platform : CommandFilePlatform) (name : str) :
    option EnvironmentMutationBlockReason :=
  if eq_ignore_ascii_case name (lit "NODE_OPTIONS") then Some BlockNodeOptions
  else if catalog_contains platform name GITHUB_DEFAULT_ENVIRONMENT_NAMES
  then Some (BlockReserved NamespaceGithub)
  else if catalog_contains platform name RUNNER_DEFAULT_ENVIRONMENT_NAMES
  then Some (BlockReserved NamespaceRunner)
  else None.

(** ** Scopes and state ([model.rs]) *)

Definition MAX_SCOPE_ID_BYTES : Z := 512.
Definition MAX_ARTIFACT_SUBJECTS : Z := 500.
Definition MAX_ARTIFACT_LIST_BYTES : Z := 16777216.

(** [StepId::new] and [ActionInvocationId::new] wrap what this returns. *)
Definition validated_scope_id (value : str) : result unit str :=
  if str_is_empty value || (MAX_SCOPE_ID_BYTES <? str_len value) || existsb is_whitespace value ||
     existsb is_control value
  then Err tt else Ok value.

Inductive StepPhase :=
| PhaseRun
| PhaseActionPre (invocation_id : str)
| PhaseActionMain (invocation_id : str)
| PhaseActionPost (invocation_id : str).

Record StepScope := MkStepScope { scope_step_id : str; scope_phase : StepPhase }.

(** [StepOutputState] and [ActionState]: the values kept under an identifier. *)
Record ScopedValues := MkScopedValues { scope_id : str; scope_values : list NameValueCommand }.

Record JobCommandState := MkJobCommandState {
  platform : CommandFilePlatform;
  environment : list NameValueCommand;
  prepend_path : list str;
  outputs : list ScopedValues;
  action_states : list ScopedValues;
  artifact_subjects : list ArtifactSubject;
}.

Definition job_command_state_new (platform : CommandFilePlatform) : JobCommandState :=
  MkJobCommandState platform [] [] [] [] [].

(** The accessors [prepend_path], [outputs] and [post_action_environment]. *)
Definition path_entries (self : JobCommandState) : list str := rev (prepend_path self).

Definition find_scope (id : str) (entries : list ScopedValues) : option (list NameValueCommand) :=
  scope_values <$> List.find (λ entry, str_eqb (scope_id entry) id) entries.

Definition step_outputs (self : JobCommandState) (step_id : str) : option (list NameValueCommand) :=
  find_scope step_id (outputs self).

Definition post_action_environment (self : JobCommandState) (invocation_id : str) :
    list NameValueCommand :=
  (λ value, MkNameValue (lit "STATE_" ++ nv_name value) (nv_value value)) <$>
    default [] (find_scope invocation_id (action_states self)).

Record CompletedStepCommands := MkCompletedStepCommands {
  commands_environment : list NameValueCommand;
  commands_output : list NameValueCommand;
  commands_path : list str;
  commands_state : list NameValueCommand;
  commands_summary : str;
  commands_artifacts : list ArtifactSubject;
}.

(** ** Limits and errors *)

Definition HARD_MAX_STATE_ENTRIES : Z := 1000000.
Definition HARD_MAX_STATE_BYTES : Z := 512 * 1024 * 1024.

Record PhaseApplicationLimits := MkPhaseApplicationLimits {
  maximum_environment_entries : Z;
  maximum_path_entries : Z;
  maximum_steps : Z;
  maximum_action_states : Z;
  maximum_aggregate_bytes : Z;
}.

Definition phase_application_limits_new (environment path steps states aggregate : Z) :
    result unit PhaseApplicationLimits :=
  if (environment =? 0) || (path =? 0) || (steps =? 0) || (states =? 0) || (aggregate =? 0) ||
     (HARD_MAX_STATE_ENTRIES <? environment) || (HARD_MAX_STATE_ENTRIES <? path) ||
     (HARD_MAX_STATE_ENTRIES <? steps) || (HARD_MAX_STATE_ENTRIES <? states) ||
     (HARD_MAX_STATE_BYTES <? aggregate)
  then Err tt
  else Ok (MkPhaseApplicationLimits environment path steps states aggregate).

Definition phase_application_limits_default : PhaseApplicationLimits :=
  MkPhaseApplicationLimits 16384 4096 16384 16384 (64 * 1024 * 1024).

Inductive PhaseApplicationError :=
| TooManyEnvironmentEntries (maximum : Z)
| TooManyPathEntries (maximum : Z)
| TooManySteps (maximum : Z)
| TooManyActionStates (maximum : Z)
| ArtifactConflict
| TooManyArtifactSubjects (maximum : Z)
| ArtifactListTooLarge (maximum : Z)
| AggregateTooLarge (maximum : Z).

Inductive PhaseApplicationNotice :=
| BlockedNodeOptions
| BlockedReservedEnvironment (namespace : ReservedEnvironmentNamespace)
| StateIgnoredForRunStep.

Record PhaseApplication := MkPhaseApplication {
  next_state : JobCommandState;
  application_summary : str;
  notices : list PhaseApplicationNotice;
}.

(** ** Applying the files ([phase.rs]) *)

(** The first entry whose name is equal gets the value and keeps its spelling;
    otherwise the entry is new. *)
Fixpoint replace_name_value (equals : str → str → bool) (values : list NameValueCommand)
    (replacement : NameValueCommand) : list NameValueCommand :=
  match values with
  | [] => [replacement]
  | existing :: rest =>
      if equals (nv_name existing) (nv_name replacement)
      then MkNameValue (nv_name existing) (nv_value replacement) :: rest
      else existing :: replace_name_value equals rest replacement
  end.

Definition apply_environment_command (platform : CommandFilePlatform)
    (state : list NameValueCommand * list PhaseApplicationNotice) (command : NameValueCommand) :
    list NameValueCommand * list PhaseApplicationNotice :=
  match classify_environment_mutation platform (nv_name command) with
  | Some BlockNodeOptions => (state.1, state.2 ++ [BlockedNodeOptions])
  | Some (BlockReserved namespace) => (state.1, state.2 ++ [BlockedReservedEnvironment namespace])
  | None => (replace_name_value (names_equal platform) state.1 command, state.2)
  end.

Definition apply_path (paths : list str) (path : str) : list str :=
  List.filter (λ existing, negb (str_eqb existing path)) paths ++ [path].

Definition apply_values (values commands : list NameValueCommand) : list NameValueCommand :=
  foldl (replace_name_value eq_ignore_ascii_case) values commands.

Definition without_scope (id : str) (entries : list ScopedValues) : list ScopedValues :=
  List.filter (λ entry, negb (str_eqb (scope_id entry) id)) entries.

Definition push_scope (id : str) (values : list NameValueCommand) (entries : list ScopedValues) :
    list ScopedValues :=
  match values with [] => entries | _ => entries ++ [MkScopedValues id values] end.

Definition apply_outputs (scope : StepScope) (commands : list NameValueCommand)
    (entries : list ScopedValues) : list ScopedValues :=
  let id := scope_step_id scope in
  match scope_phase scope with
  | PhaseActionPre _ => entries
  | PhaseActionPost _ =>
      push_scope id (apply_values (default [] (find_scope id entries)) commands)
        (without_scope id entries)
  | _ => push_scope id (apply_values [] commands) (without_scope id entries)
  end.

(** [entries.remove(position)]: the first entry of the identifier, and the
    others. *)
Fixpoint remove_scope (id : str) (entries : list ScopedValues) :
    list NameValueCommand * list ScopedValues :=
  match entries with
  | [] => ([], [])
  | entry :: rest =>
      if str_eqb (scope_id entry) id then (scope_values entry, rest)
      else let '(values, others) := remove_scope id rest in (values, entry :: others)
  end.

Definition apply_state (phase : StepPhase) (commands : list NameValueCommand)
    (state : list ScopedValues * list PhaseApplicationNotice) :
    list ScopedValues * list PhaseApplicationNotice :=
  match phase with
  | PhaseRun =>
      match commands with
      | [] => state
      | _ => (state.1, state.2 ++ [StateIgnoredForRunStep])
      end
  | PhaseActionPre id | PhaseActionMain id | PhaseActionPost id =>
      let '(values, others) := remove_scope id state.1 in
      (push_scope id (apply_values values commands) others, state.2)
  end.

Definition apply_artifact (subjects : list ArtifactSubject) (subject : ArtifactSubject) :
    result PhaseApplicationError (list ArtifactSubject) :=
  match List.find (λ existing, str_eqb (subject_name existing) (subject_name subject)) subjects with
  | Some existing =>
      _ ← reject (negb (str_eqb (subject_digest existing) (subject_digest subject))) ArtifactConflict;
      Ok subjects
  | None =>
      _ ← reject (MAX_ARTIFACT_SUBJECTS <=? Z.of_nat (length subjects))
            (TooManyArtifactSubjects MAX_ARTIFACT_SUBJECTS);
      Ok (subjects ++ [subject])
  end.

Definition apply_artifacts (subjects declared : list ArtifactSubject) :
    result PhaseApplicationError (list ArtifactSubject) :=
  subjects ← try_fold apply_artifact subjects declared;
  Ok (sort_by_key subject_name subjects).

Definition add_bytes (total : option Z) (bytes : Z) : option Z :=
  t ← total; checked_add u64_max t bytes.

Definition add_name_value_bytes (total : option Z) (value : NameValueCommand) : option Z :=
  add_bytes (add_bytes total (str_len (nv_name value))) (str_len (nv_value value)).

Definition add_scope_bytes (total : option Z) (entry : ScopedValues) : option Z :=
  foldl add_name_value_bytes (add_bytes total (str_len (scope_id entry))) (scope_values entry).

Definition add_subject_bytes (total : option Z) (subject : ArtifactSubject) : option Z :=
  add_bytes (add_bytes total (str_len (subject_name subject))) (str_len (subject_digest subject)).

Definition state_aggregate_bytes (state : JobCommandState) : option Z :=
  let total := foldl add_name_value_bytes (Some 0) (environment state) in
  let total := foldl (λ total path, add_bytes total (str_len path)) total (prepend_path state) in
  let total := foldl add_scope_bytes total (outputs state) in
  let total := foldl add_scope_bytes total (action_states state) in
  foldl add_subject_bytes total (artifact_subjects state).

Section Application.
(** [serde_json::to_vec] of the versioned artifact list. *)
Context (to_vec : list ArtifactSubject → result unit (list Z)).

Definition artifact_list_json (self : JobCommandState) : result unit (list Z) :=
  to_vec (artifact_subjects self).

Definition validate_derived_state (state : JobCommandState) (l : PhaseApplicationLimits) :
    result PhaseApplicationError unit :=
  let count {A} (xs : list A) := Z.of_nat (length xs) in
  _ ← reject (maximum_environment_entries l <? count (environment state))
        (TooManyEnvironmentEntries (maximum_environment_entries l));
  _ ← reject (maximum_path_entries l <? count (prepend_path state))
        (TooManyPathEntries (maximum_path_entries l));
  _ ← reject (maximum_steps l <? count (outputs state)) (TooManySteps (maximum_steps l));
  _ ← reject (maximum_action_states l <? count (action_states state))
        (TooManyActionStates (maximum_action_states l));
  list_bytes ← map_err (λ _, ArtifactListTooLarge MAX_ARTIFACT_LIST_BYTES) (artifact_list_json state);
  _ ← reject (MAX_ARTIFACT_LIST_BYTES <? count list_bytes)
        (ArtifactListTooLarge MAX_ARTIFACT_LIST_BYTES);
  reject (maximum_aggregate_bytes l <? default u64_max (state_aggregate_bytes state))
    (AggregateTooLarge (maximum_aggregate_bytes l)).

Definition apply_completed_step (l : PhaseApplicationLimits) (current : JobCommandState)
    (scope : StepScope) (commands : CompletedStepCommands) :
    result PhaseApplicationError PhaseApplication :=
  let '(env, notes) :=
    foldl (apply_environment_command (platform current)) (environment current, [])
      (commands_environment commands) in
  let paths := foldl apply_path (prepend_path current) (commands_path commands) in
  let outs := apply_outputs scope (commands_output commands) (outputs current) in
  let '(states, notes) :=
    apply_state (scope_phase scope) (commands_state commands) (action_states current, notes) in
  subjects ← apply_artifacts (artifact_subjects current) (commands_artifacts commands);
  let next := MkJobCommandState (platform current) env paths outs states subjects in
  _ ← validate_derived_state next l;
  Ok (MkPhaseApplication next (commands_summary commands) notes).

(** The steps of a job in order; one whose effects are refused leaves none. *)
Fixpoint run_steps (l : PhaseApplicationLimits) (current : JobCommandState)
    (steps : list (StepScope * CompletedStepCommands)) : JobCommandState :=
  match steps with
  | [] => current
  | (scope, commands) :: rest =>
      match apply_completed_step l current scope commands with
      | Ok applied => run_steps l (next_state applied) rest
      | Err _ => run_steps l current rest
      end
  end.
End Application.

(** ** Values by name *)

(** A comparison of names that a table can be kept by. *)
Class NameEquality (equals : str → str → bool) := {
  equals_refl (a : str) : equals a a = true;
  equals_sym (a b : str) : equals a b = equals b a;
  equals_cong (a b c : str) : equals a b = true → equals a c = equals b c;
}.

#[export] Instance ignore_case_equality : NameEquality eq_ignore_ascii_case.
Proof. split; [apply eq_ignore_refl|apply eq_ignore_sym|apply eq_ignore_cong]. Qed.

#[export] Instance platform_equality (p : CommandFilePlatform) : NameEquality (names_equal p).
Proof.
  destruct p; [|apply ignore_case_equality]. unfold names_equal, str_eqb. split.
  - intros a. by apply bool_decide_eq_true.
  - intros a b. apply bool_decide_ext. naive_solver.
  - by intros a b c ->%bool_decide_eq_true.
Qed.

Section Tables.
Context (equals : str → str → bool) `{!NameEquality equals}.
Implicit Types (vs cs : list NameValueCommand) (n : str).

(** The value a name has. *)
Definition lookup_name vs n : option str :=
  nv_value <$> List.find (λ v, equals (nv_name v) n) vs.

(** No two entries have the same name. *)
Fixpoint distinct_entries vs : bool :=
  match vs with
  | [] => true
  | v :: rest => negb (existsb (λ w, equals (nv_name w) (nv_name v)) rest) && distinct_entries rest
  end.

Lemma lookup_replace vs (r : NameValueCommand) n :
  lookup_name (replace_name_value equals vs r) n =
  if equals (nv_name r) n then Some (nv_value r) else lookup_name vs n.
Proof.
  unfold lookup_name. induction vs as [|v vs IH]; cbn [replace_name_value List.find].
  { by case_match. }
  destruct (equals (nv_name v) (nv_name r)) eqn:E; cbn [List.find nv_name].
  - rewrite (equals_cong _ _ n E). by case_match.
  - destruct (equals (nv_name v) n) eqn:En; [|exact IH].
    destruct (equals (nv_name r) n) eqn:Er; [|done].
    rewrite equals_sym in Er. rewrite equals_sym, (equals_cong _ _ _ Er), equals_sym in En. congruence.
Qed.

Lemma existsb_replace vs (r : NameValueCommand) n :
  existsb (λ w, equals (nv_name w) n) (replace_name_value equals vs r) =
  existsb (λ w, equals (nv_name w) n) vs || equals (nv_name r) n.
Proof.
  induction vs as [|v vs IH]; cbn [replace_name_value existsb]; [by rewrite orb_false_r|].
  destruct (equals (nv_name v) (nv_name r)) eqn:E; cbn [existsb nv_name].
  - rewrite (equals_cong _ _ n E). destruct (equals (nv_name r) n), (existsb _ vs); done.
  - by rewrite IH, orb_assoc.
Qed.

Lemma distinct_replace vs (r : NameValueCommand) :
  distinct_entries vs = true → distinct_entries (replace_name_value equals vs r) = true.
Proof.
  induction vs as [|v vs IH]; [done|]. cbn [distinct_entries replace_name_value].
  intros [Hv Hvs]%andb_true_iff. destruct (equals (nv_name v) (nv_name r)) eqn:E;
    cbn [distinct_entries nv_name]; [by rewrite Hv, Hvs|].
  rewrite existsb_replace, IH by done. rewrite equals_sym, E.
  apply negb_true_iff in Hv. by rewrite Hv.
Qed.

Lemma lookup_app vs cs n :
  lookup_name (vs ++ cs) n =
  match lookup_name vs n with Some v => Some v | None => lookup_name cs n end.
Proof.
  unfold lookup_name. induction vs as [|v vs IH]; [done|]. cbn [app List.find].
  by destruct (equals (nv_name v) n).
Qed.

(** After several writes a name has the value of its last one. *)
Lemma lookup_writes vs cs n :
  lookup_name (foldl (replace_name_value equals) vs cs) n =
  match lookup_name (rev cs) n with Some v => Some v | None => lookup_name vs n end.
Proof.
  revert vs. induction cs as [|c cs IH]; intros vs; [done|]. cbn [foldl rev].
  rewrite IH, lookup_replace, lookup_app. destruct (lookup_name (rev cs) n); [done|].
  unfold lookup_name at 2. cbn. by case_match.
Qed.

Lemma distinct_writes vs cs :
  distinct_entries vs = true →
  distinct_entries (foldl (replace_name_value equals) vs cs) = true.
Proof.
  revert vs. induction cs as [|c cs IH]; intros vs Hvs; [done|]. cbn [foldl].
  by apply IH, distinct_replace.
Qed.

(** Only written names join the table. *)
Lemma replace_names (P : str → bool) vs (r : NameValueCommand) :
  P (nv_name r) = true → forallb (λ v, P (nv_name v)) vs = true →
  forallb (λ v, P (nv_name v)) (replace_name_value equals vs r) = true.
Proof.
  intros Hr. induction vs as [|v vs IH]; cbn [replace_name_value forallb]; [by rewrite Hr|].
  intros [Hv Hvs]%andb_true_iff. case_match; cbn [forallb nv_name]; rewrite Hv; [done|by apply IH].
Qed.

Lemma write_names (P : str → bool) vs cs :
  forallb (λ v, P (nv_name v)) cs = true → forallb (λ v, P (nv_name v)) vs = true →
  forallb (λ v, P (nv_name v)) (foldl (replace_name_value equals) vs cs) = true.
Proof.
  revert vs. induction cs as [|c cs IH]; intros vs; [done|]. cbn [forallb foldl].
  intros [Hc Hcs]%andb_true_iff Hvs. apply IH; [done|]. by apply replace_names.
Qed.

End Tables.

(** ** The environment *)

Definition settable (p : CommandFilePlatform) (name : str) : bool :=
  match classify_environment_mutation p name with None => true | Some _ => false end.

Definition block_notice (p : CommandFilePlatform) (name : str) : list PhaseApplicationNotice :=
  match classify_environment_mutation p name with
  | None => []
  | Some BlockNodeOptions => [BlockedNodeOptions]
  | Some (BlockReserved namespace) => [BlockedReservedEnvironment namespace]
  end.

(** Blocked commands give their notices and nothing else. *)
Lemma apply_environment_commands (p : CommandFilePlatform) (cs env : list NameValueCommand)
    (notes : list PhaseApplicationNotice) :
  foldl (apply_environment_command p) (env, notes) cs =
  (foldl (replace_name_value (names_equal p)) env (List.filter (λ c, settable p (nv_name c)) cs),
   notes ++ (cs ≫= λ c, block_notice p (nv_name c))).
Proof.
  revert env notes. induction cs as [|c cs IH]; intros env notes; cbn [foldl].
  { by rewrite app_nil_r. }
  rewrite bind_cons. unfold apply_environment_command at 2. unfold settable, block_notice at 1.
  cbn [fst snd List.filter].
  destruct (classify_environment_mutation p (nv_name c)) as [[ns|]|]; rewrite IH;
    [by rewrite <- app_assoc..|done].
Qed.

Lemma catalog_cong (p : CommandFilePlatform) (a b : str) (catalog : list str) :
  names_equal p a b = true → catalog_contains p a catalog = catalog_contains p b catalog.
Proof.
  intros H. unfold catalog_contains. induction catalog as [|c catalog IH]; [done|].
  cbn [existsb]. by rewrite (equals_cong _ _ c H), IH.
Qed.

(** Spellings of one variable are blocked alike. *)
Lemma settable_cong (p : CommandFilePlatform) (a b : str) :
  names_equal p a b = true → settable p a = settable p b.
Proof.
  intros H. unfold settable, classify_environment_mutation.
  rewrite !(catalog_cong p a b) by done.
  replace (eq_ignore_ascii_case a (lit "NODE_OPTIONS")) with
    (eq_ignore_ascii_case b (lit "NODE_OPTIONS")); [done|].
  destruct p; cbn [names_equal] in H.
  - unfold str_eqb in H. by apply bool_decide_eq_true in H as ->.
  - symmetry. by apply eq_ignore_cong.
Qed.

Lemma lookup_settable (p : CommandFilePlatform) (cs : list NameValueCommand) (name : str) :
  settable p name = false →
  lookup_name (names_equal p) (rev (List.filter (λ c, settable p (nv_name c)) cs)) name = None.
Proof.
  intros Hn. unfold lookup_name. destruct (List.find _ _) as [c|] eqn:E; [|done].
  apply find_some in E as [Hin He]. apply in_rev, filter_In in Hin as [_ Hc].
  rewrite (settable_cong _ _ _ He) in Hc. congruence.
Qed.

(** ** Paths *)

(** The list without the entries that occur earlier in it. *)
Fixpoint nub (l : list str) : list str :=
  match l with
  | [] => []
  | x :: l => x :: List.filter (λ y, negb (str_eqb y x)) (nub l)
  end.

Lemma filter_rev {A : Type} (f : A → bool) (l : list A) :
  List.filter f (rev l) = rev (List.filter f l).
Proof.
  induction l as [|x l IH]; [done|]. cbn [rev List.filter]. rewrite List.filter_app, IH. cbn.
  by destruct (f x); [|rewrite app_nil_r].
Qed.

Lemma filter_all {A : Type} (f : A → bool) (l : list A) :
  (∀ x, x ∈ l → f x = true) → List.filter f l = l.
Proof.
  induction l as [|x l IH]; [done|]. intros H. cbn [List.filter].
  rewrite (H x) by apply list_elem_of_here. rewrite IH; [done|].
  intros y Hy. apply H. by apply list_elem_of_further.
Qed.

Lemma str_eqb_neq (a b : str) : negb (str_eqb a b) = true ↔ a ≠ b.
Proof. unfold str_eqb. by rewrite negb_true_iff, bool_decide_eq_false. Qed.

Lemma nub_NoDup (l : list str) : NoDup l → nub l = l.
Proof.
  induction 1 as [|x l Hx Hl IH]; [done|]. cbn [nub]. rewrite IH. f_equal.
  apply filter_all. intros y Hy. apply str_eqb_neq. by intros ->.
Qed.

Lemma NoDup_list_filter {A : Type} (f : A → bool) (l : list A) : NoDup l → NoDup (List.filter f l).
Proof.
  induction 1 as [|x l Hx Hl IH]; [constructor|]. cbn [List.filter]. case_match; [|done].
  constructor; [|done]. intros [Hin _]%list_elem_of_In%filter_In. apply Hx. by apply list_elem_of_In.
Qed.

Lemma NoDup_nub (l : list str) : NoDup (nub l).
Proof.
  induction l as [|x l IH]; [constructor|]. cbn [nub]. constructor.
  - intros [_ H]%list_elem_of_In%filter_In. by apply str_eqb_neq in H.
  - by apply NoDup_list_filter.
Qed.

(** Adding paths one by one keeps the newest occurrence of each. *)
Lemma apply_paths_nub (paths added : list str) :
  NoDup paths → rev (foldl apply_path paths added) = nub (rev added ++ rev paths).
Proof.
  intros Hp. induction added as [|p added IH] using rev_ind.
  { cbn. symmetry. apply nub_NoDup. by apply NoDup_ListNoDup, NoDup_rev, NoDup_ListNoDup. }
  rewrite foldl_snoc, rev_app_distr. cbn [rev app nub]. rewrite <- IH.
  unfold apply_path. rewrite rev_app_distr, filter_rev. done.
Qed.

(** ** Scoped values *)

Section Scopes.
Implicit Types (es : list ScopedValues) (vs : list NameValueCommand) (id k : str).

Lemma str_eqb_refl id : str_eqb id id = true.
Proof. by apply bool_decide_eq_true. Qed.

Lemma str_eqb_false id k : id ≠ k → str_eqb id k = false.
Proof. apply bool_decide_eq_false_2. Qed.

Lemma find_scope_None id es : find_scope id es = None ↔ id ∉ (scope_id <$> es).
Proof.
  unfold find_scope. induction es as [|e es IH]; cbn [List.find fmap list_fmap].
  { split; [intros _; apply not_elem_of_nil|done]. }
  rewrite elem_of_cons. destruct (decide (scope_id e = id)) as [->|Hne].
  - rewrite str_eqb_refl. split; [done|]. naive_solver.
  - rewrite str_eqb_false by done. rewrite IH. naive_solver.
Qed.

Lemma find_without_same id es : find_scope id (without_scope id es) = None.
Proof.
  apply find_scope_None. intros (e & -> & He)%list_elem_of_fmap.
  unfold without_scope in He. apply list_elem_of_In, filter_In in He as [_ H].
  by apply str_eqb_neq in H.
Qed.

Lemma find_without_other id k es : id ≠ k → find_scope id (without_scope k es) = find_scope id es.
Proof.
  intros Hne. unfold find_scope, without_scope. induction es as [|e es IH]; [done|].
  cbn [List.filter List.find]. destruct (decide (scope_id e = k)) as [->|Hk].
  - rewrite str_eqb_refl, str_eqb_false by done. exact IH.
  - rewrite (str_eqb_false _ _ Hk). cbn [negb List.find]. by destruct (str_eqb (scope_id e) id).
Qed.

Lemma find_push id k vs es :
  find_scope id (push_scope k vs es) =
  match find_scope id es with
  | Some found => Some found
  | None => if str_eqb k id then match vs with [] => None | _ => Some vs end else None
  end.
Proof.
  unfold push_scope. destruct vs as [|v vs].
  { destruct (find_scope id es); [done|]. by case_match. }
  unfold find_scope. induction es as [|e es IH]; cbn [app List.find].
  { cbn. by case_match. }
  by destruct (str_eqb (scope_id e) id).
Qed.

(** The values of a scope after a push, where absent and empty are the same. *)
Lemma values_push_same id vs es :
  find_scope id es = None → default [] (find_scope id (push_scope id vs es)) = vs.
Proof. intros H. rewrite find_push, H, str_eqb_refl. by destruct vs. Qed.

Lemma find_push_other id k vs es : id ≠ k → find_scope id (push_scope k vs es) = find_scope id es.
Proof.
  intros H. rewrite find_push, str_eqb_false by congruence. by destruct (find_scope id es).
Qed.

(** Identifiers are unique, and what is kept is not empty and has each name
    once. *)
Definition scopes_ok es : Prop :=
  NoDup (scope_id <$> es) ∧
  Forall (λ e, scope_values e ≠ [] ∧ distinct_entries eq_ignore_ascii_case (scope_values e) = true) es.

Lemma scopes_ok_push id vs es :
  scopes_ok es → find_scope id es = None → distinct_entries eq_ignore_ascii_case vs = true →
  scopes_ok (push_scope id vs es).
Proof.
  intros [Hnd Hall] Hf%find_scope_None Hd. unfold push_scope. destruct vs as [|v vs]; [done|]. split.
  - rewrite fmap_app. apply NoDup_app. split_and!; [done| |apply NoDup_singleton].
    intros k Hk Hk'. apply list_elem_of_singleton in Hk' as ->. done.
  - apply Forall_app. split; [done|]. by apply Forall_singleton.
Qed.

Lemma scopes_ok_without id es : scopes_ok es → scopes_ok (without_scope id es).
Proof.
  unfold without_scope. induction es as [|e es IH]; [done|].
  intros [[Hn Hnd]%NoDup_cons [He Hes]%Forall_cons]. destruct (IH (conj Hnd Hes)) as [H1 H2].
  cbn [List.filter]. case_match; [|done]. split; [|by constructor].
  rewrite fmap_cons. apply NoDup_cons. split; [|done]. intros (f & Heq & Hf)%list_elem_of_fmap.
  apply Hn. apply list_elem_of_In, filter_In in Hf as [Hf _]. rewrite Heq.
  apply list_elem_of_fmap_2. by apply list_elem_of_In.
Qed.

(** Removing the first entry of a unique identifier removes the scope. *)
Lemma remove_scope_spec id es :
  NoDup (scope_id <$> es) →
  remove_scope id es = (default [] (find_scope id es), without_scope id es).
Proof.
  unfold find_scope, without_scope. induction es as [|e es IH]; [done|].
  rewrite fmap_cons. intros [Hn Hnd]%NoDup_cons. cbn [remove_scope List.find List.filter].
  destruct (decide (scope_id e = id)) as [<-|Hne].
  - rewrite str_eqb_refl. cbn [negb]. f_equal. symmetry. apply filter_all. intros f Hf.
    apply str_eqb_neq. intros Heq. apply Hn. rewrite <- Heq. by apply list_elem_of_fmap_2.
  - rewrite str_eqb_false, IH by done. done.
Qed.

Lemma apply_values_distinct vs commands :
  distinct_entries eq_ignore_ascii_case vs = true →
  distinct_entries eq_ignore_ascii_case (apply_values vs commands) = true.
Proof. apply distinct_writes. apply _. Qed.

Lemma scope_values_distinct id es :
  scopes_ok es → distinct_entries eq_ignore_ascii_case (default [] (find_scope id es)) = true.
Proof.
  intros [_ Hall]. unfold find_scope. destruct (List.find _ es) as [e|] eqn:E; [|done].
  apply find_some in E as [Hin _]. rewrite Forall_forall in Hall. apply Hall. by apply list_elem_of_In.
Qed.

End Scopes.

Lemma apply_outputs_ok (scope : StepScope) (commands : list NameValueCommand)
    (es : list ScopedValues) : scopes_ok es → scopes_ok (apply_outputs scope commands es).
Proof.
  intros Hok. unfold apply_outputs. cbv zeta.
  destruct (scope_phase scope); [|done|..];
    (apply scopes_ok_push; [by apply scopes_ok_without|apply find_without_same|
     apply apply_values_distinct]); [done..|by apply scope_values_distinct].
Qed.

Lemma apply_state_ok (phase : StepPhase) (commands : list NameValueCommand)
    (es : list ScopedValues) (notes : list PhaseApplicationNotice) :
  scopes_ok es → scopes_ok (apply_state phase commands (es, notes)).1.
Proof.
  intros Hok. unfold apply_state. destruct phase as [|id|id|id]; [by destruct commands|..];
    cbn [fst snd]; rewrite remove_scope_spec by apply Hok; cbn [fst];
    (apply scopes_ok_push; [by apply scopes_ok_without|apply find_without_same|
     apply apply_values_distinct; by apply scope_values_distinct]).
Qed.

(** ** Artifact subjects *)

Definition names_unique (subjects : list ArtifactSubject) : Prop := NoDup (subject_name <$> subjects).

Lemma apply_artifact_Ok (subjects found : list ArtifactSubject) (s : ArtifactSubject) :
  apply_artifact subjects s = Ok found →
  (found = subjects ∧ ∃ e, e ∈ subjects ∧ subject_name e = subject_name s ∧
     subject_digest e = subject_digest s) ∨
  (found = subjects ++ [s] ∧ (subject_name s ∉ (subject_name <$> subjects)) ∧
     Z.of_nat (length subjects) < MAX_ARTIFACT_SUBJECTS).
Proof.
  unfold apply_artifact, reject. destruct (List.find _ subjects) as [e|] eqn:E.
  - apply find_some in E as [Hin Hn]. apply bool_decide_eq_true in Hn.
    destruct (str_eqb _ _) eqn:Ed; [|done]. cbn. intros [= <-]. left. split; [done|].
    exists e. split; [by apply list_elem_of_In|]. split; [done|]. by apply bool_decide_eq_true in Ed.
  - destruct (MAX_ARTIFACT_SUBJECTS <=? _) eqn:El; [done|]. cbn. intros [= <-]. right.
    split_and!; [done| |lia]. intros (e & Hn & Hin)%list_elem_of_fmap.
    apply list_elem_of_In in Hin. pose proof (find_none _ _ E e Hin) as H. cbn in H.
    unfold str_eqb in H. apply bool_decide_eq_false in H. congruence.
Qed.

(** What declaring subjects leaves: the recorded ones, and each declared name
    with its digest, every name once. *)
Lemma apply_artifact_fold (declared subjects found : list ArtifactSubject) :
  try_fold apply_artifact subjects declared = Ok found →
  names_unique subjects → Z.of_nat (length subjects) <= MAX_ARTIFACT_SUBJECTS →
  names_unique found ∧ Z.of_nat (length found) <= MAX_ARTIFACT_SUBJECTS ∧
  (∀ s, s ∈ subjects → s ∈ found) ∧
  (∀ d, d ∈ declared → ∃ s, s ∈ found ∧ subject_name s = subject_name d ∧
     subject_digest s = subject_digest d).
Proof.
  revert subjects. induction declared as [|d declared IH]; intros subjects; cbn [try_fold].
  { intros [= <-] Hu Hl. split_and!; [done|done|done|]. intros d Hd. by apply elem_of_nil in Hd. }
  destruct (apply_artifact subjects d) as [next|] eqn:E; [|done]. intros H Hu Hl.
  apply apply_artifact_Ok in E as [[-> (e & He & Hn & Hd)]|(-> & Hnew & Hlt)].
  - destruct (IH _ H Hu Hl) as (Hu' & Hl' & Hkeep & Hall). split_and!; [done|done|done|].
    intros x [->|Hx]%elem_of_cons; [|by apply Hall]. exists e. auto.
  - destruct (IH _ H) as (Hu' & Hl' & Hkeep & Hall).
    + unfold names_unique. rewrite fmap_app. apply NoDup_app.
      split_and!; [done| |apply NoDup_singleton]. intros n Hn Hn'.
      apply list_elem_of_singleton in Hn' as ->. done.
    + rewrite length_app. cbn. lia.
    + split_and!; [done|done| |].
      * intros s Hs. apply Hkeep. rewrite elem_of_app. auto.
      * intros x [->|Hx]%elem_of_cons; [|by apply Hall]. exists d. split; [|done].
        apply Hkeep. rewrite elem_of_app. right. apply list_elem_of_here.
Qed.

Definition subjects_ok (subjects : list ArtifactSubject) : Prop :=
  names_unique subjects ∧ StronglySorted (key_le subject_name) subjects ∧
  Z.of_nat (length subjects) <= MAX_ARTIFACT_SUBJECTS.

Lemma apply_artifacts_Ok (declared subjects found : list ArtifactSubject) :
  apply_artifacts subjects declared = Ok found → subjects_ok subjects →
  subjects_ok found ∧ (∀ s, s ∈ subjects → s ∈ found) ∧
  (∀ d, d ∈ declared → ∃ s, s ∈ found ∧ subject_name s = subject_name d ∧
     subject_digest s = subject_digest d).
Proof.
  unfold apply_artifacts. destruct (try_fold _ _ _) as [next|] eqn:E; [|done]. cbn.
  intros [= <-] (Hu & _ & Hl). apply apply_artifact_fold in E as (Hu' & Hl' & Hk & Ha); [|done..].
  split; [split_and!|split].
  - unfold names_unique. by rewrite sort_by_key_perm.
  - apply sort_by_key_sorted.
  - by rewrite sort_by_key_perm.
  - intros s Hs. by apply elem_of_sort_by_key, Hk.
  - intros d Hd. destruct (Ha d Hd) as (s & Hs & ?). exists s. by rewrite elem_of_sort_by_key.
Qed.

(** ** One step *)

Section OneStep.
Context (to_vec : list ArtifactSubject → result unit (list Z)).

Lemma apply_completed_step_Ok (l : PhaseApplicationLimits) (current : JobCommandState)
    (scope : StepScope) (commands : CompletedStepCommands) (applied : PhaseApplication) :
  apply_completed_step to_vec l current scope commands = Ok applied →
  ∃ subjects,
    apply_artifacts (artifact_subjects current) (commands_artifacts commands) = Ok subjects ∧
    validate_derived_state to_vec (next_state applied) l = Ok tt ∧
    next_state applied =
      MkJobCommandState (platform current)
        (foldl (replace_name_value (names_equal (platform current))) (environment current)
           (List.filter (λ c, settable (platform current) (nv_name c)) (commands_environment commands)))
        (foldl apply_path (prepend_path current) (commands_path commands))
        (apply_outputs scope (commands_output commands) (outputs current))
        (apply_state (scope_phase scope) (commands_state commands) (action_states current, [])).1
        subjects.
Proof.
  unfold apply_completed_step. rewrite apply_environment_commands. cbn [app].
  assert (Hs : ∀ notes, (apply_state (scope_phase scope) (commands_state commands)
      (action_states current, notes)).1 =
    (apply_state (scope_phase scope) (commands_state commands) (action_states current, [])).1).
  { intros notes. unfold apply_state. cbn [fst snd].
    destruct (scope_phase scope); [by destruct (commands_state commands)|..]; by case_match. }
  set (notes := commands_environment commands ≫= _). specialize (Hs notes).
  destruct (apply_state _ _ (action_states current, notes)) as [states notes'].
  cbn [fst] in Hs. subst states.
  destruct (apply_artifacts _ _) as [subjects|] eqn:Ea; [|done]. cbn [mbind result_bind].
  destruct (validate_derived_state to_vec _ l) as [[]|] eqn:Ev; [|done]. cbn [mbind result_bind].
  intros [= <-]. exists subjects. done.
Qed.

(** The limits of a state. *)
Definition state_within (l : PhaseApplicationLimits) (s : JobCommandState) : Prop :=
  Z.of_nat (length (environment s)) <= maximum_environment_entries l ∧
  Z.of_nat (length (prepend_path s)) <= maximum_path_entries l ∧
  Z.of_nat (length (outputs s)) <= maximum_steps l ∧
  Z.of_nat (length (action_states s)) <= maximum_action_states l ∧
  ∃ bytes, state_aggregate_bytes s = Some bytes ∧ bytes <= maximum_aggregate_bytes l.

(** The limits came from their constructor, which takes [usize]s. *)
Definition phase_limits_built (l : PhaseApplicationLimits) : Prop :=
  0 <= maximum_environment_entries l ∧ 0 <= maximum_path_entries l ∧ 0 <= maximum_steps l ∧
  0 <= maximum_action_states l ∧ 0 <= maximum_aggregate_bytes l ∧
  phase_application_limits_new (maximum_environment_entries l) (maximum_path_entries l)
    (maximum_steps l) (maximum_action_states l) (maximum_aggregate_bytes l) = Ok l.

Lemma phase_limits_bytes (l : PhaseApplicationLimits) :
  phase_limits_built l → maximum_aggregate_bytes l <= HARD_MAX_STATE_BYTES.
Proof.
  intros (_ & _ & _ & _ & _ & H). revert H. unfold phase_application_limits_new.
  destruct (HARD_MAX_STATE_BYTES <? maximum_aggregate_bytes l) eqn:E; [|lia]. by rewrite !orb_true_r.
Qed.

Lemma validate_derived_state_Ok (l : PhaseApplicationLimits) (s : JobCommandState) :
  phase_limits_built l → validate_derived_state to_vec s l = Ok tt → state_within l s.
Proof.
  intros Hb%phase_limits_bytes. unfold validate_derived_state, reject. cbv zeta.
  destruct (maximum_environment_entries l <? _) eqn:E1; [done|]. cbn [mbind result_bind].
  destruct (maximum_path_entries l <? _) eqn:E2; [done|]. cbn [mbind result_bind].
  destruct (maximum_steps l <? _) eqn:E3; [done|]. cbn [mbind result_bind].
  destruct (maximum_action_states l <? _) eqn:E4; [done|]. cbn [mbind result_bind].
  destruct (artifact_list_json to_vec s) as [bytes|]; [|done]. cbn [map_err mbind result_bind].
  destruct (MAX_ARTIFACT_LIST_BYTES <? _); [done|]. cbn [mbind result_bind].
  destruct (maximum_aggregate_bytes l <? _) eqn:E5; [done|]. intros _.
  unfold state_within. split_and!; [lia..|].
  destruct (state_aggregate_bytes s) as [n|] eqn:Ea.
  - exists n. split; [done|]. change (default u64_max (Some n)) with n in E5. lia.
  - exfalso. change (default u64_max None) with u64_max in E5.
    unfold HARD_MAX_STATE_BYTES, u64_max in *. lia.
Qed.

(** ** Jobs *)

Definition job_ok (l : PhaseApplicationLimits) (s : JobCommandState) : Prop :=
  forallb (λ v, settable (platform s) (nv_name v)) (environment s) = true ∧
  distinct_entries (names_equal (platform s)) (environment s) = true ∧
  NoDup (prepend_path s) ∧ scopes_ok (outputs s) ∧ scopes_ok (action_states s) ∧
  subjects_ok (artifact_subjects s) ∧ state_within l s.

Lemma job_ok_new (l : PhaseApplicationLimits) (p : CommandFilePlatform) :
  phase_limits_built l → job_ok l (job_command_state_new p).
Proof.
  intros (? & ? & ? & ? & ? & _).
  assert (Hscopes : scopes_ok []) by (split; constructor).
  assert (Hsubjects : subjects_ok []) by (by split; [constructor|split; [constructor|]]).
  unfold job_ok, state_within. cbn. split; [done|]. split; [done|]. split; [constructor|].
  split; [done|]. split; [done|]. split; [done|]. split_and!; [done..|]. by exists 0.
Qed.

Lemma job_ok_step (l : PhaseApplicationLimits) (current : JobCommandState) (scope : StepScope)
    (commands : CompletedStepCommands) (applied : PhaseApplication) :
  phase_limits_built l → job_ok l current →
  apply_completed_step to_vec l current scope commands = Ok applied → job_ok l (next_state applied).
Proof.
  intros Hl (Henv & Hd & Hp & Ho & Hs & Ha & _) (subjects & Hsub & Hv & Hnext)%apply_completed_step_Ok.
  apply validate_derived_state_Ok in Hv; [|done]. unfold job_ok. split_and!; [..|done];
    rewrite Hnext; cbn [platform environment prepend_path outputs action_states artifact_subjects].
  - apply write_names; [|done]. apply forallb_forall. intros c [_ Hc]%filter_In. done.
  - apply distinct_writes; [apply _|done].
  - apply NoDup_ListNoDup. rewrite <- rev_involutive. apply NoDup_rev, NoDup_ListNoDup.
    rewrite apply_paths_nub by done. apply NoDup_nub.
  - by apply apply_outputs_ok.
  - by apply apply_state_ok.
  - by eapply apply_artifacts_Ok.
Qed.

Lemma run_steps_ok (l : PhaseApplicationLimits) (steps : list (StepScope * CompletedStepCommands))
    (current : JobCommandState) :
  phase_limits_built l → job_ok l current → job_ok l (run_steps to_vec l current steps).
Proof.
  intros Hl. revert current. induction steps as [|[scope commands] steps IH]; intros current Hok; [done|].
  cbn [run_steps]. destruct (apply_completed_step _ _ _ _ _) as [applied|] eqn:E; apply IH; [|done].
  by eapply job_ok_step.
Qed.

End OneStep.

(** ** What a job's steps can rely on *)

Lemma lookup_settable_writes (p : CommandFilePlatform) (cs : list NameValueCommand) (name : str) :
  lookup_name (names_equal p) (rev (List.filter (λ c, settable p (nv_name c)) cs)) name =
  if settable p name then lookup_name (names_equal p) (rev cs) name else None.
Proof.
  destruct (settable p name) eqn:Hn; [|by apply lookup_settable].
  rewrite <- filter_rev. unfold lookup_name. f_equal. induction (rev cs) as [|c ds IH]; [done|].
  cbn [List.filter List.find]. destruct (names_equal p (nv_name c) name) eqn:E.
  - rewrite (settable_cong _ _ _ E), Hn. cbn [List.find]. by rewrite E.
  - destruct (settable p (nv_name c)); [|done]. cbn [List.find]. by rewrite E.
Qed.

(** The value a step published under a name, and the state an action saved. *)
Definition output_value (s : JobCommandState) (step_id name : str) : option str :=
  lookup_name eq_ignore_ascii_case (default [] (step_outputs s step_id)) name.
Definition state_value (s : JobCommandState) (invocation_id name : str) : option str :=
  lookup_name eq_ignore_ascii_case (default [] (find_scope invocation_id (action_states s))) name.

Definition last_write (cs : list NameValueCommand) (name : str) : option str :=
  lookup_name eq_ignore_ascii_case (rev cs) name.

Definition phase_invocation (phase : StepPhase) : option str :=
  match phase with
  | PhaseRun => None
  | PhaseActionPre id | PhaseActionMain id | PhaseActionPost id => Some id
  end.

(** The first value that is there. *)
Definition or_else (a b : option str) : option str := match a with Some v => Some v | None => b end.

Lemma apply_outputs_scope (scope : StepScope) (commands : list NameValueCommand)
    (es : list ScopedValues) (name : str) :
  let id := scope_step_id scope in
  lookup_name eq_ignore_ascii_case (default [] (find_scope id (apply_outputs scope commands es))) name =
  let before := lookup_name eq_ignore_ascii_case (default [] (find_scope id es)) name in
  match scope_phase scope with
  | PhaseActionPre _ => before
  | PhaseActionPost _ => or_else (last_write commands name) before
  | _ => last_write commands name
  end.
Proof.
  cbv zeta. unfold apply_outputs. cbv zeta.
  destruct (scope_phase scope); [|done|..];
    rewrite values_push_same by apply find_without_same; unfold apply_values;
    rewrite lookup_writes by apply _; [..|done];
    unfold last_write; by destruct (lookup_name _ (rev commands) name).
Qed.

Lemma apply_outputs_other (scope : StepScope) (commands : list NameValueCommand)
    (es : list ScopedValues) (id : str) :
  id ≠ scope_step_id scope → find_scope id (apply_outputs scope commands es) = find_scope id es.
Proof.
  intros Hne. unfold apply_outputs. cbv zeta.
  destruct (scope_phase scope); [|done|..]; rewrite find_push_other by done;
    by apply find_without_other.
Qed.

Lemma apply_state_scopes (phase : StepPhase) (commands : list NameValueCommand)
    (es : list ScopedValues) (id : str) :
  scopes_ok es →
  find_scope id (apply_state phase commands (es, [])).1 =
  match phase_invocation phase with
  | Some k =>
      if str_eqb id k
      then find_scope id (push_scope id (apply_values (default [] (find_scope id es)) commands)
                            (without_scope id es))
      else find_scope id es
  | None => find_scope id es
  end.
Proof.
  intros [Hnd _]. unfold apply_state.
  assert (Hcase : ∀ k,
    find_scope id (let '(values, others) := remove_scope k es in
      (push_scope k (apply_values values commands) others, @nil PhaseApplicationNotice)).1 =
    if str_eqb id k
    then find_scope id (push_scope id (apply_values (default [] (find_scope id es)) commands)
                          (without_scope id es))
    else find_scope id es).
  { intros k. rewrite remove_scope_spec by done. cbn [fst].
    destruct (decide (id = k)) as [->|Hne]; [by rewrite str_eqb_refl|].
    rewrite str_eqb_false, find_push_other by done. by apply find_without_other. }
  destruct phase; cbn [phase_invocation]; [by destruct commands|apply Hcase..].
Qed.

Section Claims.
Context (to_vec : list ArtifactSubject → result unit (list Z)).

(** C28: whatever the steps of a job leave in their files, the job's state keeps
    its shape: no entry of the environment is a name of the runner or
    [NODE_OPTIONS] in any spelling the platform takes for it; variables,
    outputs, saved state, paths and artifact subjects occur once each; scopes
    without values are not kept; subjects are sorted; and the counts and the
    total size stay within their limits. *)
Theorem job_states_are_well_formed (l : PhaseApplicationLimits) (p : CommandFilePlatform)
    (steps : list (StepScope * CompletedStepCommands)) :
  phase_limits_built l → job_ok l (run_steps to_vec l (job_command_state_new p) steps).
Proof. intros Hl. apply run_steps_ok; [done|]. by apply job_ok_new. Qed.

(** The environment later steps see is a map from names, compared as the
    platform does, to the last value written: a step's accepted file gives each
    name it may set the last value it wrote for it, leaves the names it did not
    write, and has no effect on reserved ones. *)
Lemma environment_is_the_last_write (l : PhaseApplicationLimits) (current : JobCommandState)
    (scope : StepScope) (commands : CompletedStepCommands) (applied : PhaseApplication) (name : str) :
  apply_completed_step to_vec l current scope commands = Ok applied →
  let p := platform current in
  let before := lookup_name (names_equal p) (environment current) name in
  platform (next_state applied) = p ∧
  lookup_name (names_equal p) (environment (next_state applied)) name =
  if settable p name
  then or_else (lookup_name (names_equal p) (rev (commands_environment commands)) name) before
  else before.
Proof.
  intros (subjects & _ & _ & ->)%apply_completed_step_Ok. cbn [platform environment]. split; [done|].
  rewrite lookup_writes, lookup_settable_writes by apply _. unfold or_else.
  by destruct (settable (platform current) name).
Qed.

(** A step's outputs and saved state reach only their own scope: the
    outputs of other steps and the state of other invocations stay as they
    were; a pre phase publishes no outputs, a run or main phase replaces the
    step's outputs by what it wrote, a post phase adds to them; and the state
    an action saves is kept across its phases, the last write of a name
    winning. *)
Lemma effects_stay_in_scope (l : PhaseApplicationLimits) (p : CommandFilePlatform)
    (steps : list (StepScope * CompletedStepCommands)) (scope : StepScope)
    (commands : CompletedStepCommands) (applied : PhaseApplication) :
  let current := run_steps to_vec l (job_command_state_new p) steps in
  let next := next_state applied in
  let id := scope_step_id scope in
  phase_limits_built l → apply_completed_step to_vec l current scope commands = Ok applied →
  (∀ other, other ≠ id → step_outputs next other = step_outputs current other) ∧
  (∀ name, output_value next id name =
     match scope_phase scope with
     | PhaseActionPre _ => output_value current id name
     | PhaseActionPost _ =>
         or_else (last_write (commands_output commands) name) (output_value current id name)
     | _ => last_write (commands_output commands) name
     end) ∧
  (∀ other, phase_invocation (scope_phase scope) ≠ Some other →
     post_action_environment next other = post_action_environment current other) ∧
  (∀ own name, phase_invocation (scope_phase scope) = Some own →
     state_value next own name =
       or_else (last_write (commands_state commands) name) (state_value current own name)).
Proof.
  intros current next id Hl (subjects & _ & _ & Hnext)%apply_completed_step_Ok.
  assert (Hok : scopes_ok (action_states current)).
  { by apply (run_steps_ok to_vec l steps (job_command_state_new p) Hl (job_ok_new l p Hl)). }
  subst next. rewrite Hnext. unfold step_outputs, output_value, state_value, post_action_environment.
  cbn [outputs action_states]. split_and!.
  - intros other. apply apply_outputs_other.
  - intros name. apply apply_outputs_scope.
  - intros other Hne. rewrite apply_state_scopes by done.
    destruct (phase_invocation (scope_phase scope)) as [k|]; [|done].
    by rewrite str_eqb_false by congruence.
  - intros own name Hown. rewrite apply_state_scopes, Hown, str_eqb_refl by done.
    rewrite values_push_same by apply find_without_same. unfold apply_values.
    by rewrite lookup_writes by apply _.
Qed.

(** The entries put before the search path are the newest first, each once:
    those of the step in the reverse of the order it wrote them, then the
    earlier ones, without the repeats. *)
Lemma newest_paths_come_first (l : PhaseApplicationLimits) (p : CommandFilePlatform)
    (steps : list (StepScope * CompletedStepCommands)) (scope : StepScope)
    (commands : CompletedStepCommands) (applied : PhaseApplication) :
  let current := run_steps to_vec l (job_command_state_new p) steps in
  phase_limits_built l → apply_completed_step to_vec l current scope commands = Ok applied →
  path_entries (next_state applied) = nub (rev (commands_path commands) ++ path_entries current).
Proof.
  intros current Hl (subjects & _ & _ & ->)%apply_completed_step_Ok. unfold path_entries.
  cbn [prepend_path]. apply apply_paths_nub.
  by apply (run_steps_ok to_vec l steps (job_command_state_new p) Hl (job_ok_new l p Hl)).
Qed.

Lemma run_steps_app (l : PhaseApplicationLimits) (s : JobCommandState)
    (before after : list (StepScope * CompletedStepCommands)) :
  run_steps to_vec l s (before ++ after) = run_steps to_vec l (run_steps to_vec l s before) after.
Proof.
  revert s. induction before as [|[scope commands] before IH]; intros s; [done|].
  cbn [app run_steps]. by case_match.
Qed.

Lemma subjects_kept (l : PhaseApplicationLimits) (steps : list (StepScope * CompletedStepCommands))
    (s : JobCommandState) (subject : ArtifactSubject) :
  phase_limits_built l → job_ok l s → subject ∈ artifact_subjects s →
  subject ∈ artifact_subjects (run_steps to_vec l s steps).
Proof.
  intros Hl. revert s. induction steps as [|[scope commands] steps IH]; intros s Hok Hs; [done|].
  cbn [run_steps]. destruct (apply_completed_step _ _ _ _ _) as [applied|] eqn:E; [|by apply IH].
  apply IH; [by eapply job_ok_step|].
  apply apply_completed_step_Ok in E as (subjects & Ha & _ & ->). cbn [artifact_subjects].
  apply apply_artifacts_Ok in Ha as (_ & Hk & _); [by apply Hk|]. apply Hok.
Qed.

(** An artifact subject, once recorded, is there for the rest of the job and
    no later step can give its name another digest; an accepted step has every
    subject it declared recorded with the digest it declared. *)
Lemma artifact_subjects_are_permanent (l : PhaseApplicationLimits) (p : CommandFilePlatform)
    (before after : list (StepScope * CompletedStepCommands)) (subject : ArtifactSubject) :
  let reached steps := run_steps to_vec l (job_command_state_new p) steps in
  phase_limits_built l → subject ∈ artifact_subjects (reached before) →
  subject ∈ artifact_subjects (reached (before ++ after)) ∧
  (∀ other, other ∈ artifact_subjects (reached (before ++ after)) →
     subject_name other = subject_name subject → other = subject) ∧
  (∀ scope commands applied,
     apply_completed_step to_vec l (reached before) scope commands = Ok applied →
     ∀ d, d ∈ commands_artifacts commands → ∃ s, s ∈ artifact_subjects (next_state applied) ∧
       subject_name s = subject_name d ∧ subject_digest s = subject_digest d).
Proof.
  intros reached Hl Hs. subst reached. cbv beta in *.
  assert (Hok : ∀ steps, job_ok l (run_steps to_vec l (job_command_state_new p) steps)).
  { intros steps. apply run_steps_ok; [done|]. by apply job_ok_new. }
  assert (Hkept : subject ∈ artifact_subjects
    (run_steps to_vec l (job_command_state_new p) (before ++ after))).
  { rewrite run_steps_app. by apply subjects_kept. }
  split_and!; [done| |].
  - intros other Ho Hn. destruct (Hok (before ++ after)) as (_ & _ & _ & _ & _ & (Hu & _) & _).
    by eapply (NoDup_fmap_inj subject_name).
  - intros scope commands applied (subjects & Ha & _ & ->)%apply_completed_step_Ok d Hd.
    cbn [artifact_subjects]. apply apply_artifacts_Ok in Ha as (_ & _ & Hall); [by apply Hall|].
    apply Hok.
Qed.

End Claims.

(** ** Examples *)

Lemma default_limits_built : phase_limits_built phase_application_limits_default.
Proof. unfold phase_limits_built. vm_compute. repeat split; discriminate. Qed.

(** An encoder that always succeeds. *)
Definition no_encoding : list ArtifactSubject → result unit (list Z) := λ _, Ok [].

Definition example_subject : ArtifactSubject :=
  MkArtifactSubject (lit "app") (lit "sha256:aa") SubjectFile.

Definition example_main : StepScope * CompletedStepCommands :=
  (MkStepScope (lit "build") (PhaseActionMain (lit "i1")),
   MkCompletedStepCommands
     [MkNameValue (lit "Mode") (lit "a"); MkNameValue (lit "node_options") (lit "x");
      MkNameValue (lit "MODE") (lit "b"); MkNameValue (lit "github_sha") (lit "0")]
     [MkNameValue (lit "out") (lit "1")] [lit "/x"; lit "/y"; lit "/x"]
     [MkNameValue (lit "pid") (lit "7")] [] [example_subject]).

Definition example_post : StepScope * CompletedStepCommands :=
  (MkStepScope (lit "build") (PhaseActionPost (lit "i1")),
   MkCompletedStepCommands [] [MkNameValue (lit "extra") (lit "2")] [lit "/y"] [] [] []).

Definition example_job : JobCommandState :=
  run_steps no_encoding phase_application_limits_default (job_command_state_new PlatformWindows)
    [example_main].

Lemma job_states_are_well_formed_witness :
  job_ok phase_application_limits_default example_job ∧
  nv_name <$> environment example_job = [lit "Mode"].
Proof.
  split; [|vm_compute; reflexivity]. apply (job_states_are_well_formed no_encoding).
  exact default_limits_built.
Defined.

