(* ===== verification/Float64.v ===== *)
(** * Float64: Rust's [f64] as the expression language uses it

    IEEE-754 binary64 numbers are the [spec_float] of the Standard Library with
    53 bits of precision: conversion from and to their bits, [partial_cmp],
    correctly rounded parsing of decimal text, the exact decimal formatting of
    [{:.p}] and [{:.pe}], and the 32-bit integers the literals [0x..] and
    [0o..] denote. Nothing here depends on the processor's arithmetic. *)

From S2P Require Import Prelude Text Utf8.
From Stdlib Require Export SpecFloat.

Abbreviation f64 := spec_float (only parsing).

Definition f64_prec : Z := 53.
Definition f64_emax : Z := 1024.

Definition f64_zero : f64 := S754_zero false.
Definition f64_infinity : f64 := S754_infinity false.
Definition f64_neg_infinity : f64 := S754_infinity true.
Definition f64_nan : f64 := S754_nan.

(** ** Bits *)

(** [f64::from_bits]: sign, eleven bits of exponent, 52 bits of fraction. The
    payload of a NaN is never observed, so all of them are [S754_nan]. *)
Definition from_bits (bits : Z) : f64 :=
  let sign := Z.testbit bits 63 in
  let exponent := Z.land (Z.shiftr bits 52) 2047 in
  let fraction := Z.land bits (2 ^ 52 - 1) in
  if exponent =? 2047 then
    if fraction =? 0 then S754_infinity sign else S754_nan
  else if exponent =? 0 then
    match fraction with
    | Zpos m => S754_finite sign m (-1074)
    | _ => S754_zero sign
    end
  else
    match fraction + 2 ^ 52 with
    | Zpos m => S754_finite sign m (exponent - 1075)
    | _ => S754_nan
    end.

(** [f64::to_bits]; a NaN has the encoding of [f64::NAN]. *)
Definition canonical_nan : Z := 9221120237041090560.

Definition sign_bit (sign : bool) : Z := if sign then 2 ^ 63 else 0.

Definition to_bits (x : f64) : Z :=
  match x with
  | S754_zero sign => sign_bit sign
  | S754_infinity sign => sign_bit sign + 2047 * 2 ^ 52
  | S754_nan => canonical_nan
  | S754_finite sign m e =>
      if Zpos m <? 2 ^ 52 then sign_bit sign + Zpos m
      else sign_bit sign + (e + 1075) * 2 ^ 52 + (Zpos m - 2 ^ 52)
  end.

Definition is_nan (x : f64) : bool := match x with S754_nan => true | _ => false end.

(** [partial_cmp], and the comparison operators of [f64]. *)
Definition partial_cmp (x y : f64) : option comparison := SFcompare x y.
Definition f64_eqb (x y : f64) : bool := SFeqb x y.
Definition f64_ltb (x y : f64) : bool := SFltb x y.

(** ** Integers *)

(** [f64::from(i32)]: exact, since 53 bits hold it. *)
Definition of_int (n : Z) : f64 := binary_normalize f64_prec f64_emax n 0 false.

(** [i32::from_be_bytes(value.to_be_bytes())] of a [u32]. *)
Definition i32_of_u32 (value : Z) : Z := if value <? 2 ^ 31 then value else value - 2 ^ 32.

(** [char::to_digit(radix)] for the radices the code uses. *)
Definition to_digit (radix c : Z) : option Z :=
  let value :=
    if is_ascii_digit c then Some (c - 48)
    else if in_range 97 122 c then Some (c - 87)
    else if in_range 65 90 c then Some (c - 55)
    else None in
  match value with
  | Some v => if v <? radix then Some v else None
  | None => None
  end.
Definition is_digit (radix c : Z) : bool := is_some (to_digit radix c).

(** [u32::from_str_radix], for text of digits of the radix only: the callers
    have checked that. *)
Definition radix_value (radix : Z) (s : str) : Z :=
  foldl (λ n c, n * radix + default 0 (to_digit radix c)) 0 s.
Definition u32_from_str_radix (s : str) (radix : Z) : option Z :=
  let value := radix_value radix s in
  if negb (str_is_empty s) && (value <=? u32_max) then Some value else None.

(** ** Parsing decimal text *)

(** The [f64] nearest to the quotient of two positive integers, ties to even. *)
Definition round_ratio (sign : bool) (num den : Z) : f64 :=
  let '(q, e, l) := SFdiv_core_binary f64_prec f64_emax num 0 den 0 in
  binary_round_aux f64_prec f64_emax sign q e l.

(** The number of decimal digits of a positive integer; [fuel] bounds it. *)
Fixpoint digit_count (fuel : nat) (n : Z) : Z :=
  match fuel with
  | O => 0
  | S fuel => if n <=? 0 then 0 else 1 + digit_count fuel (n / 10)
  end.
Definition decimal_width (n : Z) : Z := digit_count (S (Z.to_nat (Z.log2 n))) n.

(** [m * 10^x], rounded. Beyond 10^310 every value overflows to infinity and
    below 10^-330 every value underflows to zero. *)
Definition of_decimal (sign : bool) (m x : Z) : f64 :=
  if m =? 0 then S754_zero sign
  else if 310 <? decimal_width m + x then S754_infinity sign
  else if decimal_width m + x <? -330 then S754_zero sign
  else if 0 <=? x then round_ratio sign (m * 10 ^ x) 1
  else round_ratio sign m (10 ^ (- x)).

(** The longest prefix of digits, and what follows it. *)
Fixpoint span_digits (s : str) : str * str :=
  match s with
  | c :: s' =>
      if is_ascii_digit c then let '(d, r) := span_digits s' in (c :: d, r) else ([], s)
  | [] => ([], [])
  end.

(** An optional sign: whether it is a minus, and what follows it. *)
Definition take_sign (s : str) : bool * str :=
  match s with
  | c :: s' => if c =? 45 then (true, s') else if c =? 43 then (false, s') else (false, s)
  | [] => (false, [])
  end.

(** [str::parse::<f64>()] of text in decimal notation: a sign, digits with an
    optional point, and an optional exponent. Names ([inf], [nan]) are outside
    the notation; the callers have excluded them. *)
Definition parse_f64 (s : str) : option f64 :=
  let '(sign, s) := take_sign s in
  let '(int, s) := span_digits s in
  let '(frac, s) :=
    match s with
    | c :: s' => if c =? 46 then span_digits s' else ([], s)
    | [] => ([], [])
    end in
  if str_is_empty (int ++ frac) then None
  else
    let value (x : Z) :=
      of_decimal sign (digits_value (int ++ frac)) (x - Z.of_nat (length frac)) in
    match s with
    | [] => Some (value 0)
    | c :: s =>
        if (c =? 101) || (c =? 69) then
          let '(neg, s) := take_sign s in
          let '(digits, s) := span_digits s in
          if str_is_empty digits || negb (str_is_empty s) then None
          else Some (value (if neg then - digits_value digits else digits_value digits))
        else None
    end.

(** ** Formatting *)

(** The decimal digits of a natural number, padded with zeros to [width]. *)
Fixpoint digits_go (fuel : nat) (n : Z) (acc : str) : str :=
  match fuel with
  | O => acc
  | S fuel => if n <=? 0 then acc else digits_go fuel (n / 10) (48 + n mod 10 :: acc)
  end.
Definition show_nat (width : nat) (n : Z) : str :=
  let digits := digits_go (S (Z.to_nat (Z.log2 n))) n [] in
  replicate (width - length digits) 48 ++ digits.

(** [num / den] rounded to an integer, ties to even. *)
Definition round_half_even (num den : Z) : Z :=
  let q := num / den in
  let r := num mod den in
  match 2 * r ?= den with
  | Lt => q
  | Gt => q + 1
  | Eq => if Z.even q then q else q + 1
  end.

(** The magnitude of a finite number as a fraction. *)
Definition magnitude (m : positive) (e : Z) : Z * Z :=
  if 0 <=? e then (Zpos m * 2 ^ e, 1) else (Zpos m, 2 ^ (- e)).

Definition insert_point (decimals : nat) (digits : str) : str :=
  match decimals with
  | O => digits
  | S _ =>
      let whole := (length digits - decimals)%nat in
      take whole digits ++ 46 :: drop whole digits
  end.

(** [format!("{value:.decimals$}")]. *)
Definition format_fixed (decimals : nat) (x : f64) : str :=
  let body (num den : Z) :=
    insert_point decimals
      (show_nat (S decimals) (round_half_even (num * 10 ^ Z.of_nat decimals) den)) in
  let signed (sign : bool) (s : str) := if sign then 45 :: s else s in
  match x with
  | S754_nan => lit "NaN"
  | S754_infinity sign => signed sign (lit "inf")
  | S754_zero sign => signed sign (body 0 1)
  | S754_finite sign m e => let '(num, den) := magnitude m e in signed sign (body num den)
  end.

(** The power of ten at or below a positive fraction. A double is at least
    10^-324, so the search below one takes at most 330 passes. *)
Fixpoint leading_zeros (fuel : nat) (num den : Z) : Z :=
  match fuel with
  | O => 0
  | S fuel => if den <=? num then 0 else 1 + leading_zeros fuel (num * 10) den
  end.
Definition decimal_exponent (num den : Z) : Z :=
  if den <=? num then decimal_width (num / den) - 1 else - leading_zeros 330 num den.

(** [num / den * 10^k], rounded to an integer. *)
Definition scaled (num den k : Z) : Z :=
  if 0 <=? k then round_half_even (num * 10 ^ k) den else round_half_even num (den * 10 ^ (- k)).

Definition show_int (n : Z) : str :=
  if n <? 0 then 45 :: show_nat 1 (- n) else show_nat 1 n.

(** [format!("{value:.decimals$e}")]: one digit, a point, the decimals, and
    the exponent; rounding up to a power of ten raises the exponent. *)
Definition format_exp (decimals : nat) (x : f64) : str :=
  let signed (sign : bool) (s : str) := if sign then 45 :: s else s in
  match x with
  | S754_nan => lit "NaN"
  | S754_infinity sign => signed sign (lit "inf")
  | S754_zero sign => signed sign (insert_point decimals (replicate (S decimals) 48) ++ lit "e0")
  | S754_finite sign m e =>
      let '(num, den) := magnitude m e in
      let k := decimal_exponent num den in
      let n := scaled num den (Z.of_nat decimals - k) in
      let '(n, k) := if n =? 10 ^ (Z.of_nat decimals + 1) then (n / 10, k + 1) else (n, k) in
      signed sign (insert_point decimals (show_nat (S decimals) n) ++ 101 :: show_int k)
  end.

(** [f64::floor]. *)
Definition f64_floor (x : f64) : f64 :=
  match x with
  | S754_finite sign m e =>
      if 0 <=? e then x
      else
        let z := Z.shiftr (if sign then - Zpos m else Zpos m) (- e) in
        binary_normalize f64_prec f64_emax z 0 sign
  | _ => x
  end.

#[global] Arguments from_bits : simpl never.
#[global] Arguments to_bits : simpl never.
#[global] Arguments of_int : simpl never.
#[global] Arguments of_decimal : simpl never.
#[global] Arguments parse_f64 : simpl never.
#[global] Arguments format_fixed : simpl never.
#[global] Arguments format_exp : simpl never.

(** ** Laws *)

Lemma partial_cmp_sym (x y : f64) : partial_cmp y x = CompOpp <$> partial_cmp x y.
Proof.
  unfold partial_cmp, SFcompare.
  destruct x as [[]|[]| |[] m e], y as [[]|[]| |[] n f]; simpl; try done;
    rewrite (Z.compare_antisym e f); destruct (e ?= f) eqn:E; simpl; try done;
    change (Pos.compare_cont Eq n m) with (n ?= m)%positive;
    change (Pos.compare_cont Eq m n) with (m ?= n)%positive;
    by rewrite (Pos.compare_antisym m n).
Qed.

Lemma f64_eqb_sym (x y : f64) : f64_eqb x y = f64_eqb y x.
Proof.
  unfold f64_eqb, SFeqb. change SFcompare with partial_cmp. rewrite (partial_cmp_sym x y).
  destruct (partial_cmp x y) as [[]|]; done.
Qed.

Lemma f64_eqb_refl (x : f64) : is_nan x = false → f64_eqb x x = true.
Proof.
  unfold f64_eqb, SFeqb, SFcompare. destruct x as [[]|[]| |[] m e]; simpl; try done;
    rewrite Z.compare_refl; change (Pos.compare_cont Eq m m) with (m ?= m)%positive;
    by rewrite Pos.compare_refl.
Qed.

(** A NaN is normalised: no number has another encoding of it. *)
Lemma to_bits_nan (x : f64) : is_nan x = true → to_bits x = canonical_nan.
Proof. by destruct x. Qed.

(** ** Rounding stays in the format

    Fewer than 53 digits and an exponent in range: such a number never takes
    the encoding of another class, and of a NaN in particular. *)

Definition in_format (x : f64) : Prop :=
  match x with
  | S754_finite _ m e => Zpos m < 2 ^ 53 ∧ -1074 <= e <= 971
  | _ => True
  end.

Lemma digits2_pos_bound (p : positive) : Zpos p < 2 ^ Zpos (digits2_pos p).
Proof.
  induction p as [p IH|p IH|]; simpl digits2_pos; [| |done];
    rewrite Pos2Z.inj_succ, Z.pow_succ_r by lia; lia.
Qed.

Lemma shr_1_half (r : shr_record) :
  (0 <= shr_m r → shr_m (shr_1 r) = shr_m r / 2) ∧ (shr_m r <= 0 → shr_m (shr_1 r) <= 0).
Proof.
  destruct r as [[|[p|p|]|[p|p|]] ? ?]; simpl; split; intros; try lia; try done;
    [apply (Z.div_unique _ 2 _ 1) | apply (Z.div_unique _ 2 _ 0)]; lia.
Qed.

Lemma iter_shr (p : positive) (r : shr_record) :
  (0 <= shr_m r → shr_m (iter_pos shr_1 p r) = shr_m r / 2 ^ Zpos p) ∧
  (shr_m r <= 0 → shr_m (iter_pos shr_1 p r) <= 0).
Proof.
  revert r. induction p as [p IH|p IH|]; intros r; simpl; [| |apply shr_1_half].
  - destruct (shr_1_half r) as [H1 H2], (IH (shr_1 r)) as [H3 H4],
      (IH (iter_pos shr_1 p (shr_1 r))) as [H5 H6]. split; [|auto]. intros H.
    assert (0 <= shr_m (shr_1 r)) by (rewrite H1 by done; apply Z.div_pos; lia).
    assert (0 <= shr_m (iter_pos shr_1 p (shr_1 r))) by (rewrite H3 by done; apply Z.div_pos; lia).
    rewrite H5, H3, H1, !Z.div_div by (done || lia). f_equal.
    rewrite (Pos2Z.inj_xI p), Z.pow_add_r, Z.pow_1_r by lia.
    replace (2 * Zpos p) with (Zpos p + Zpos p) by lia. rewrite Z.pow_add_r by lia. ring.
  - destruct (IH r) as [H3 H4], (IH (iter_pos shr_1 p r)) as [H5 H6]. split; [|auto]. intros H.
    assert (0 <= shr_m (iter_pos shr_1 p r)) by (rewrite H3 by done; apply Z.div_pos; lia).
    rewrite H5, H3, Z.div_div by (done || lia). f_equal.
    rewrite (Pos2Z.inj_xO p). replace (2 * Zpos p) with (Zpos p + Zpos p) by lia.
    by rewrite Z.pow_add_r by lia.
Qed.

Lemma shr_fexp_in_format (m e : Z) (l : location) (r : shr_record) (e' : Z) (q : positive) :
  shr_fexp f64_prec f64_emax m e l = (r, e') → shr_m r = Zpos q →
  Zpos q < 2 ^ 53 ∧ -1074 <= e'.
Proof.
  unfold shr_fexp, shr, fexp, emin, f64_prec, f64_emax.
  assert (shr_m (shr_record_of_loc m l) = m) as Hm by by destruct l as [|[]].
  set (r0 := shr_record_of_loc m l) in *. clearbody r0.
  set (n := Z.max _ _ - e). assert (n = Z.max (Zdigits2 m + e - 53) (-1074) - e) as Hn by done.
  clearbody n. intros H Hq.
  assert (∀ p, m = Zpos p → Zpos p < 2 ^ Zdigits2 m) as Hd by (intros p ->; apply digits2_pos_bound).
  assert (∀ x, 0 <= x → Zpos q < 2 ^ x → x <= 53 → Zpos q < 2 ^ 53) as Hmono.
  { intros x Hx Hlt H53. pose proof (Z.pow_le_mono_r 2 x 53). lia. }
  assert (0 <= Zdigits2 m) by by destruct m.
  destruct n as [|p|p]; injection H as <- <-.
  - rewrite Hm in Hq. specialize (Hd q Hq). split; [|lia]. apply (Hmono (Zdigits2 m)); lia.
  - destruct (iter_shr p r0) as [Hpos Hneg]. rewrite Hm in *.
    assert (0 < m) as Hm0 by lia. rewrite Hpos in Hq by lia. split; [|lia].
    destruct m as [|k|]; [lia| |lia]. specialize (Hd k eq_refl).
    assert (Zpos q * 2 ^ Zpos p <= Zpos k)
      by (rewrite <- Hq, Z.mul_comm; apply Z.mul_div_le; lia).
    pose proof (Z.pow_le_mono_r 2 (Zdigits2 (Zpos k)) (53 + Zpos p) ltac:(lia) ltac:(lia)) as Hle.
    rewrite Z.pow_add_r in Hle by lia.
    assert (0 < 2 ^ Zpos p) by lia. nia.
  - rewrite Hm in Hq. specialize (Hd q Hq). split; [|lia]. apply (Hmono (Zdigits2 m)); lia.
Qed.

Lemma binary_round_aux_in_format (s : bool) (m e : Z) (l : location) :
  in_format (binary_round_aux f64_prec f64_emax s m e l).
Proof.
  unfold binary_round_aux. destruct (shr_fexp _ _ m e l) as [r1 e1].
  destruct (shr_fexp _ _ _ e1 loc_Exact) as [r2 e2] eqn:E.
  destruct (shr_m r2) as [|q|] eqn:Hq; [done| |done].
  destruct (Z.leb_spec e2 (f64_emax - f64_prec)); [|done].
  unfold f64_emax, f64_prec in *. destruct (shr_fexp_in_format _ _ _ _ _ _ E Hq). simpl. lia.
Qed.

Lemma of_int_in_format (n : Z) : in_format (of_int n).
Proof.
  unfold of_int, binary_normalize, binary_round. destruct n as [|p|p]; [done| |];
    destruct (shl_align _ _ _); apply binary_round_aux_in_format.
Qed.

Lemma of_decimal_in_format (s : bool) (m x : Z) : in_format (of_decimal s m x).
Proof.
  unfold of_decimal, round_ratio. repeat case_match; try done; apply binary_round_aux_in_format.
Qed.

Lemma parse_f64_in_format (s : str) (x : f64) : parse_f64 s = Some x → in_format x.
Proof.
  unfold parse_f64. intros H. repeat case_match; try done; simplify_eq;
    apply of_decimal_in_format.
Qed.

(** The fraction and the exponent of bits put together from them. *)
Lemma bits_fields (sign : bool) (exponent fraction : Z) :
  0 <= exponent < 2 ^ 11 → 0 <= fraction < 2 ^ 52 →
  Z.land (Z.shiftr (sign_bit sign + exponent * 2 ^ 52 + fraction) 52) 2047 = exponent.
Proof.
  intros He Hf. change 2047 with (Z.ones 11). rewrite Z.land_ones, Z.shiftr_div_pow2 by lia.
  assert (sign_bit sign = (if sign then 2 ^ 11 else 0) * 2 ^ 52) as -> by by destruct sign.
  rewrite <- Z.mul_add_distr_r, Z.div_add_l, (Z.div_small fraction), Z.add_0_r by lia.
  destruct sign; [|by rewrite Z.mod_small by lia].
  rewrite Z.add_comm, <- (Z.mul_1_l (2 ^ 11)) at 1. rewrite Z.mod_add by lia.
  by apply Z.mod_small.
Qed.

(** Only NaN is encoded as a NaN. *)
Lemma to_bits_not_nan (x : f64) :
  in_format x → is_nan (from_bits (to_bits x)) = true → to_bits x = canonical_nan.
Proof.
  destruct x as [[]|[]| |s m e]; [vm_compute; congruence..| ]. intros [Hm He]. unfold to_bits.
  assert (∀ exponent fraction, 0 <= exponent < 2047 → 0 <= fraction < 2 ^ 52 →
            is_nan (from_bits (sign_bit s + exponent * 2 ^ 52 + fraction)) = false) as Hno.
  { intros exponent fraction H1 H2. unfold from_bits. rewrite bits_fields by lia.
    destruct (Z.eqb_spec exponent 2047); [lia|].
    assert (0 <= Z.land (sign_bit s + exponent * 2 ^ 52 + fraction) (2 ^ 52 - 1))
      by (apply Z.land_nonneg; right; done).
    repeat case_match; try done; lia. }
  destruct (Z.ltb_spec (Zpos m) (2 ^ 52)).
  - specialize (Hno 0 (Zpos m) ltac:(lia) ltac:(lia)). rewrite Z.mul_0_l, Z.add_0_r in Hno.
    by rewrite Hno.
  - rewrite Hno by lia. done.
Qed.
