(* ===== verification/ExpressionProgram.v ===== *)
(** * ExpressionProgram: validated postfix expression programs

    Models [crates/automata-ci-core/src/job/expression.rs]: the durable form of
    an expression, a postfix sequence of instructions with its dialect and
    source, and the validation that runs it on a stack of tree shapes before
    anything evaluates it. Serde's decoding ends in [validate] too. *)

From S2P Require Import Prelude Text Utf8 Float64.

(** ** Limits *)

Definition EXPRESSION_PROGRAM_SCHEMA_VERSION : Z := 1.
Definition MAX_EXPRESSION_SOURCE_BYTES : Z := 84000.
Definition MAX_EXPRESSION_INSTRUCTIONS : Z := 4096.
Definition MAX_EXPRESSION_DEPTH : Z := 50.
Definition MAX_EXPRESSION_TEXT_BYTES : Z := 84000.
Definition MAX_EXPRESSION_DIALECT_LENGTH : Z := 64.

Inductive ExpressionProgramLimitRejection :=
| RejectSourceBytes | RejectInstructions | RejectDepth | RejectTextBytes | RejectDialectBytes.

Definition expression_source_byte_rejection (observed : Z) :
    option ExpressionProgramLimitRejection :=
  if MAX_EXPRESSION_SOURCE_BYTES <? observed then Some RejectSourceBytes else None.
Definition expression_instruction_rejection (observed : Z) :
    option ExpressionProgramLimitRejection :=
  if MAX_EXPRESSION_INSTRUCTIONS <? observed then Some RejectInstructions else None.
Definition expression_depth_rejection (observed : Z) : option ExpressionProgramLimitRejection :=
  if MAX_EXPRESSION_DEPTH <? observed then Some RejectDepth else None.
Definition expression_text_byte_rejection (observed : Z) :
    option ExpressionProgramLimitRejection :=
  if MAX_EXPRESSION_TEXT_BYTES <? observed then Some RejectTextBytes else None.
Definition expression_dialect_byte_rejection (observed : Z) :
    option ExpressionProgramLimitRejection :=
  if MAX_EXPRESSION_DIALECT_LENGTH <? observed then Some RejectDialectBytes else None.

Inductive ExpressionProgramError :=
| UnsupportedSchema (supported received : Z)
| EmptyDialect
| DialectTooLong (maximum : Z)
| InvalidDialect
| ZeroDialectVersion
| EmptySource
| SourceTooLong (maximum : Z)
| InvalidSourceControl
| EmptyProgram
| TooManyInstructions (maximum : Z)
| TextTooLong (maximum : Z)
| InvalidIdentifier
| NonCanonicalNan
| StackUnderflow
| InvalidFinalStack (values : Z)
| WildcardOutsideIndex
| InvalidLogicalOperandCount
| NonCanonicalLogicalNesting
| TooDeep (maximum : Z).

#[export] Instance expression_program_error_eq_dec : EqDecision ExpressionProgramError.
Proof. solve_decision. Defined.

(** ** Identifiers and dialects *)

(** The first byte is a lower-case letter or an underscore; the others may be
    digits and hyphens as well. Both classes are ASCII, so characters do. *)
Definition segment_start (c : Z) : bool := is_ascii_lowercase c || (c =? 95).
Definition segment_continue (c : Z) : bool :=
  is_ascii_lowercase c || is_ascii_digit c || (c =? 95) || (c =? 45).

Definition canonical_identifier_segment (value : str) : bool :=
  match value with
  | [] => false
  | first :: rest => segment_start first && forallb segment_continue rest
  end.

Definition canonical_identifier (value : str) (allow_dot : bool) : bool :=
  if allow_dot then forallb canonical_identifier_segment (split 46 value)
  else canonical_identifier_segment value.

Record ExpressionDialect := MkDialect { dialect_name : str; dialect_version : Z }.

(** [ExpressionDialect::new]; the version is a [u16]. *)
Definition dialect_new (name : str) (version : Z) :
    result ExpressionProgramError ExpressionDialect :=
  _ ← reject (str_is_empty name) EmptyDialect;
  _ ← reject (is_some (expression_dialect_byte_rejection (str_len name)))
        (DialectTooLong MAX_EXPRESSION_DIALECT_LENGTH);
  _ ← reject (negb (canonical_identifier name true)) InvalidDialect;
  _ ← reject (version =? 0) ZeroDialectVersion;
  Ok (MkDialect name version).

(** ** Instructions *)

(** A number is kept as the bits of its [f64]. *)
Inductive ExpressionLiteral :=
| LitNull
| LitBoolean (value : bool)
| LitNumber (ieee754_bits : Z)
| LitString (value : str).

(** [ExpressionLiteral::number]. *)
Definition literal_number (value : f64) : ExpressionLiteral := LitNumber (to_bits value).

Inductive ExpressionComparison :=
| OpEqual | OpNotEqual | OpGreaterThan | OpGreaterThanOrEqual | OpLessThan | OpLessThanOrEqual.
Inductive ExpressionLogical := OpAnd | OpOr.

#[export] Instance expression_literal_eq_dec : EqDecision ExpressionLiteral.
Proof. solve_decision. Defined.
#[export] Instance expression_comparison_eq_dec : EqDecision ExpressionComparison.
Proof. solve_decision. Defined.
#[export] Instance expression_logical_eq_dec : EqDecision ExpressionLogical.
Proof. solve_decision. Defined.

(** Operand and argument counts are [u16]. *)
Inductive ExpressionInstruction :=
| ILiteral (value : ExpressionLiteral)
| INamedValue (name : str)
| IWildcard
| IIndex
| INot
| ICompare (operator : ExpressionComparison)
| ILogical (operator : ExpressionLogical) (operand_count : Z)
| ICall (name : str) (argument_count : Z).

#[export] Instance expression_instruction_eq_dec : EqDecision ExpressionInstruction.
Proof. solve_decision. Defined.

Record ExpressionProgram := MkProgram {
  program_schema_version : Z;
  program_dialect : ExpressionDialect;
  program_source : str;
  program_instructions : list ExpressionInstruction
}.

(** ** Validation *)

(** What the validator knows of one subtree on its stack. *)
Record StackValue := MkStackValue {
  sv_depth : Z;
  sv_wildcard : bool;
  sv_logical : option ExpressionLogical
}.

(** The top of the stack is the head of the list. *)
Abbreviation shape_stack := (list StackValue) (only parsing).
Abbreviation checked := (result ExpressionProgramError) (only parsing).

Definition validate_program_identifier (value : str) : checked unit :=
  reject (negb (canonical_identifier value false)) InvalidIdentifier.

Definition charge_text (value : str) (total : Z) : checked Z :=
  total ← ok_or (checked_add u64_max total (str_len value))
            (TextTooLong MAX_EXPRESSION_TEXT_BYTES);
  _ ← reject (is_some (expression_text_byte_rejection total))
        (TextTooLong MAX_EXPRESSION_TEXT_BYTES);
  Ok total.

Definition pop_value (stack : shape_stack) : checked (StackValue * shape_stack) :=
  match stack with
  | [] => Err StackUnderflow
  | value :: stack => Ok (value, stack)
  end.

Definition pop_non_wildcard (stack : shape_stack) : checked (StackValue * shape_stack) :=
  '(value, stack) ← pop_value stack;
  _ ← reject (sv_wildcard value) WildcardOutsideIndex;
  Ok (value, stack).

(** The last [count] values in the order they were pushed. *)
Definition pop_values (stack : shape_stack) (count : Z) :
    checked (list StackValue * shape_stack) :=
  _ ← reject (Z.of_nat (length stack) <? count) StackUnderflow;
  let values := rev (take (Z.to_nat count) stack) in
  _ ← reject (existsb sv_wildcard values) WildcardOutsideIndex;
  Ok (values, drop (Z.to_nat count) stack).

Definition push_value (stack : shape_stack) (depth : Z) (wildcard : bool)
    (logical : option ExpressionLogical) : checked shape_stack :=
  _ ← reject (is_some (expression_depth_rejection depth)) (TooDeep MAX_EXPRESSION_DEPTH);
  Ok (MkStackValue depth wildcard logical :: stack).

(** [iter().map(depth).max().unwrap_or(0)]. *)
Definition max_depth (values : list StackValue) : Z :=
  foldr (λ v d, Z.max (sv_depth v) d) 0 values.

Definition validate_instruction (instruction : ExpressionInstruction)
    (text_bytes : Z) (stack : shape_stack) : checked (Z * shape_stack) :=
  match instruction with
  | ILiteral value =>
      text_bytes ← match value with
                   | LitString value => charge_text value text_bytes
                   | _ => Ok text_bytes
                   end;
      _ ← match value with
          | LitNumber bits =>
              reject (is_nan (from_bits bits) && negb (bits =? canonical_nan)) NonCanonicalNan
          | _ => Ok tt
          end;
      stack ← push_value stack 1 false None;
      Ok (text_bytes, stack)
  | INamedValue name =>
      _ ← validate_program_identifier name;
      text_bytes ← charge_text name text_bytes;
      stack ← push_value stack 1 false None;
      Ok (text_bytes, stack)
  | IWildcard =>
      stack ← push_value stack 1 true None;
      Ok (text_bytes, stack)
  | IIndex =>
      '(index, stack) ← pop_value stack;
      '(target, stack) ← pop_non_wildcard stack;
      stack ← push_value stack (Z.max (sv_depth target) (sv_depth index) + 1) false None;
      Ok (text_bytes, stack)
  | INot =>
      '(operand, stack) ← pop_non_wildcard stack;
      stack ← push_value stack (sv_depth operand + 1) false None;
      Ok (text_bytes, stack)
  | ICompare _ =>
      '(right_value, stack) ← pop_non_wildcard stack;
      '(left_value, stack) ← pop_non_wildcard stack;
      stack ← push_value stack (Z.max (sv_depth left_value) (sv_depth right_value) + 1)
                false None;
      Ok (text_bytes, stack)
  | ILogical operator operand_count =>
      _ ← reject (operand_count <? 2) InvalidLogicalOperandCount;
      '(operands, stack) ← pop_values stack operand_count;
      _ ← reject (existsb (λ v, bool_decide (sv_logical v = Some operator)) operands)
            NonCanonicalLogicalNesting;
      stack ← push_value stack (max_depth operands + 1) false (Some operator);
      Ok (text_bytes, stack)
  | ICall name argument_count =>
      _ ← validate_program_identifier name;
      text_bytes ← charge_text name text_bytes;
      '(arguments, stack) ← pop_values stack argument_count;
      stack ← push_value stack (max_depth arguments + 1) false None;
      Ok (text_bytes, stack)
  end.

(** The loop of [validate] over the instructions. *)
Definition validate_all (instructions : list ExpressionInstruction)
    (state : Z * shape_stack) : checked (Z * shape_stack) :=
  try_fold (λ '(text_bytes, stack) instruction,
              validate_instruction instruction text_bytes stack) state instructions.

Definition source_char_ok (c : Z) : bool :=
  negb (is_control c && negb ((c =? 10) || (c =? 13) || (c =? 9))).

Definition program_validate (self : ExpressionProgram) : checked unit :=
  _ ← reject (negb (program_schema_version self =? EXPRESSION_PROGRAM_SCHEMA_VERSION))
        (UnsupportedSchema EXPRESSION_PROGRAM_SCHEMA_VERSION (program_schema_version self));
  _ ← reject (str_is_empty (program_source self)) EmptySource;
  _ ← reject (is_some (expression_source_byte_rejection (str_len (program_source self))))
        (SourceTooLong MAX_EXPRESSION_SOURCE_BYTES);
  _ ← reject (negb (forallb source_char_ok (program_source self))) InvalidSourceControl;
  let instructions := program_instructions self in
  _ ← reject (match instructions with [] => true | _ => false end) EmptyProgram;
  _ ← reject (is_some (expression_instruction_rejection (Z.of_nat (length instructions))))
        (TooManyInstructions MAX_EXPRESSION_INSTRUCTIONS);
  '(_, stack) ← validate_all instructions (0, []);
  match stack with
  | [result] =>
      reject (sv_wildcard result) WildcardOutsideIndex
  | _ => Err (InvalidFinalStack (Z.of_nat (length stack)))
  end.

(** [ExpressionProgram::new]. *)
Definition program_new (dialect : ExpressionDialect) (source : str)
    (instructions : list ExpressionInstruction) : checked ExpressionProgram :=
  let program := MkProgram EXPRESSION_PROGRAM_SCHEMA_VERSION dialect source instructions in
  _ ← program_validate program;
  Ok program.
