(* ===== verification/ExpressionAst.v ===== *)
(** * ExpressionAst: expression trees and their postfix encoding

    Models [Ast] of [crates/automata-ci-workflow-actions/src/expression.rs]:
    the trees the condition compiler builds, the flattening of logical
    operators, their metrics and their emission as instructions. Then relates
    the two sides of the durable format: the programs that the validation of
    [ExpressionProgram] accepts are exactly the emissions of canonical trees
    within the limits. *)

From S2P Require Import Prelude Text Utf8 Float64 ExpressionProgram.

(** ** Trees *)

Inductive Ast :=
| AstLiteral (value : ExpressionLiteral)
| AstNamedValue (name : str)
| AstWildcard
| AstIndex (target index : Ast)
| AstNot (operand : Ast)
| AstCompare (operator : ExpressionComparison) (left_ right_ : Ast)
| AstLogical (operator : ExpressionLogical) (operands : list Ast)
| AstCall (name : str) (arguments : list Ast).

(** Induction that reaches the operands in lists. *)
Section AstInd.
Variable P : Ast → Prop.
Hypothesis Hliteral : ∀ v, P (AstLiteral v).
Hypothesis Hnamed : ∀ n, P (AstNamedValue n).
Hypothesis Hwildcard : P AstWildcard.
Hypothesis Hindex : ∀ t i, P t → P i → P (AstIndex t i).
Hypothesis Hnot : ∀ a, P a → P (AstNot a).
Hypothesis Hcompare : ∀ o l r, P l → P r → P (AstCompare o l r).
Hypothesis Hlogical : ∀ o l, Forall P l → P (AstLogical o l).
Hypothesis Hcall : ∀ n l, Forall P l → P (AstCall n l).

Fixpoint ast_ind' (a : Ast) : P a :=
  let fix go (l : list Ast) : Forall P l :=
    match l with
    | [] => Forall_nil_2 P
    | a :: l => Forall_cons_2 P a l (ast_ind' a) (go l)
    end in
  match a with
  | AstLiteral v => Hliteral v
  | AstNamedValue n => Hnamed n
  | AstWildcard => Hwildcard
  | AstIndex t i => Hindex t i (ast_ind' t) (ast_ind' i)
  | AstNot a => Hnot a (ast_ind' a)
  | AstCompare o l r => Hcompare o l r (ast_ind' l) (ast_ind' r)
  | AstLogical o l => Hlogical o l (go l)
  | AstCall n l => Hcall n l (go l)
  end.
End AstInd.

(** [Ast::logical]: operands with the same operator are flattened. *)
Definition flatten_operand (operator : ExpressionLogical) (operand : Ast) : list Ast :=
  match operand with
  | AstLogical nested_operator nested =>
      if bool_decide (nested_operator = operator) then nested else [operand]
  | _ => [operand]
  end.
Definition ast_logical (operator : ExpressionLogical) (operands : list Ast) : Ast :=
  AstLogical operator (operands ≫= flatten_operand operator).

Definition status_function_names : list str :=
  [lit "always"; lit "success"; lit "failure"; lit "cancelled"].

Fixpoint has_status_function (self : Ast) : bool :=
  match self with
  | AstCall name arguments =>
      bool_decide (name ∈ status_function_names) || existsb has_status_function arguments
  | AstIndex target index => has_status_function target || has_status_function index
  | AstCompare _ left_ right_ => has_status_function left_ || has_status_function right_
  | AstNot operand => has_status_function operand
  | AstLogical _ operands => existsb has_status_function operands
  | AstLiteral _ | AstNamedValue _ | AstWildcard => false
  end.

Record AstMetrics := MkMetrics { metric_nodes : Z; metric_depth : Z }.

(** The loop over operands adds their nodes and keeps the largest depth. *)
Definition metrics_step (m : AstMetrics) (operand : AstMetrics) : AstMetrics :=
  MkMetrics (metric_nodes m + metric_nodes operand)
    (Z.max (metric_depth m) (metric_depth operand)).
Definition metrics_parent (m : AstMetrics) : AstMetrics :=
  MkMetrics (metric_nodes m) (metric_depth m + 1).

Fixpoint metrics (self : Ast) : AstMetrics :=
  match self with
  | AstLiteral _ | AstNamedValue _ | AstWildcard => MkMetrics 1 1
  | AstIndex target index =>
      MkMetrics (metric_nodes (metrics target) + metric_nodes (metrics index) + 1)
        (Z.max (metric_depth (metrics target)) (metric_depth (metrics index)) + 1)
  | AstCompare _ left_ right_ =>
      MkMetrics (metric_nodes (metrics left_) + metric_nodes (metrics right_) + 1)
        (Z.max (metric_depth (metrics left_)) (metric_depth (metrics right_)) + 1)
  | AstNot operand =>
      MkMetrics (metric_nodes (metrics operand) + 1) (metric_depth (metrics operand) + 1)
  | AstLogical _ operands =>
      metrics_parent (fold_left (λ m a, metrics_step m (metrics a)) operands (MkMetrics 1 0))
  | AstCall _ arguments =>
      metrics_parent (fold_left (λ m a, metrics_step m (metrics a)) arguments (MkMetrics 1 0))
  end.

(** [Ast::emit]; counts fit [u16] because the node limit is far below it. *)
Fixpoint emit (self : Ast) : list ExpressionInstruction :=
  match self with
  | AstLiteral value => [ILiteral value]
  | AstNamedValue name => [INamedValue name]
  | AstWildcard => [IWildcard]
  | AstIndex target index => emit target ++ emit index ++ [IIndex]
  | AstNot operand => emit operand ++ [INot]
  | AstCompare operator left_ right_ => emit left_ ++ emit right_ ++ [ICompare operator]
  | AstLogical operator operands =>
      flat_map emit operands ++ [ILogical operator (Z.of_nat (length operands))]
  | AstCall name arguments =>
      flat_map emit arguments ++ [ICall name (Z.of_nat (length arguments))]
  end.

(** [instruction_text_bytes]; a sum that leaves [usize] is refused. *)
Definition instruction_text (instruction : ExpressionInstruction) : Z :=
  match instruction with
  | ILiteral (LitString value) => str_len value
  | INamedValue name | ICall name _ => str_len name
  | _ => 0
  end.
Definition instruction_text_bytes (instructions : list ExpressionInstruction) : option Z :=
  foldl (λ total i, t ← total; checked_add u64_max t (instruction_text i)) (Some 0) instructions.

(** ** Canonical trees

    The specification of the format, on trees: where wildcards may stand, what
    identifiers and numbers are canonical, and that logical operators have at
    least two operands, none of which repeats the operator. *)

Definition is_wildcard (a : Ast) : bool := match a with AstWildcard => true | _ => false end.

Definition logical_operator (a : Ast) : option ExpressionLogical :=
  match a with AstLogical o _ => Some o | _ => None end.

Definition literal_canonical (v : ExpressionLiteral) : bool :=
  match v with
  | LitNumber bits => negb (is_nan (from_bits bits)) || (bits =? canonical_nan)
  | _ => true
  end.

Fixpoint canonical (a : Ast) : bool :=
  let operand a := canonical a && negb (is_wildcard a) in
  match a with
  | AstLiteral v => literal_canonical v
  | AstNamedValue name => canonical_identifier name false
  | AstWildcard => true
  | AstIndex target index => operand target && canonical index
  | AstNot a => operand a
  | AstCompare _ l r => operand l && operand r
  | AstLogical o l =>
      (2 <=? Z.of_nat (length l)) && forallb operand l &&
      forallb (λ a, bool_decide (logical_operator a ≠ Some o)) l
  | AstCall name l => canonical_identifier name false && forallb operand l
  end.

Definition ast_nodes (a : Ast) : Z := Z.of_nat (length (emit a)).
Definition ast_depth (a : Ast) : Z := metric_depth (metrics a).
Definition text_of (instructions : list ExpressionInstruction) : Z :=
  foldr (λ i t, instruction_text i + t) 0 instructions.
Definition ast_text (a : Ast) : Z := text_of (emit a).

(** A canonical tree that may be the root, within the limits of the format. *)
Definition durable (a : Ast) : Prop :=
  canonical a = true ∧ is_wildcard a = false ∧ ast_nodes a <= MAX_EXPRESSION_INSTRUCTIONS ∧
  ast_depth a <= MAX_EXPRESSION_DEPTH ∧ ast_text a <= MAX_EXPRESSION_TEXT_BYTES.

(** The instructions a [u16] count can stand in. *)
Definition typed_instruction (i : ExpressionInstruction) : Prop :=
  match i with
  | ILogical _ count | ICall _ count => 0 <= count <= u16_max
  | _ => True
  end.

(** ** Metrics *)

Definition shape (a : Ast) : StackValue :=
  MkStackValue (ast_depth a) (is_wildcard a) (logical_operator a).

Lemma max_depth_nonneg (l : list StackValue) : 0 <= max_depth l.
Proof. induction l; simpl; lia. Qed.

Lemma fold_depth (l : list Ast) (m : AstMetrics) :
  0 <= metric_depth m →
  metric_depth (fold_left (λ m a, metrics_step m (metrics a)) l m) =
  Z.max (metric_depth m) (max_depth (map shape l)).
Proof.
  revert m. induction l as [|a l IH]; simpl; intros m Hm; [lia|].
  rewrite IH by (simpl; lia). simpl. unfold ast_depth. lia.
Qed.

Lemma depth_operands (l : list Ast) :
  metric_depth (metrics_parent (fold_left (λ m a, metrics_step m (metrics a)) l (MkMetrics 1 0)))
  = max_depth (map shape l) + 1.
Proof.
  pose proof (max_depth_nonneg (map shape l)). simpl. rewrite fold_depth; simpl; lia.
Qed.

Lemma max_depth_in (l : list Ast) (a : Ast) :
  a ∈ l → ast_depth a <= max_depth (map shape l).
Proof.
  induction l as [|b l IH]; [by intros ?%elem_of_nil|]. simpl.
  intros [->|H]%elem_of_cons; [lia|]. specialize (IH H). lia.
Qed.

Lemma max_depth_app (l k : list StackValue) :
  max_depth (l ++ k) = Z.max (max_depth l) (max_depth k).
Proof.
  pose proof (max_depth_nonneg k). induction l as [|v l IH]; simpl; [lia|]. rewrite IH. lia.
Qed.

Lemma max_depth_rev (l : list StackValue) : max_depth (rev l) = max_depth l.
Proof.
  induction l as [|v l IH]; [done|]. simpl. rewrite max_depth_app, IH. simpl.
  pose proof (max_depth_nonneg l). lia.
Qed.

Lemma fold_nodes (l : list Ast) (m : AstMetrics) :
  Forall (λ a, metric_nodes (metrics a) = ast_nodes a) l →
  metric_nodes (fold_left (λ m a, metrics_step m (metrics a)) l m) =
  metric_nodes m + Z.of_nat (length (flat_map emit l)).
Proof.
  intros H. revert m. induction H as [|a l Ha _ IH]; simpl; intros m; [lia|].
  rewrite IH, length_app. unfold metrics_step. cbn [metric_nodes]. rewrite Ha.
  unfold ast_nodes. lia.
Qed.

(** The node count is the number of instructions. *)
Lemma metrics_nodes (a : Ast) : metric_nodes (metrics a) = ast_nodes a.
Proof.
  induction a as [| | |t i IHt IHi|a IH|o l r IHl IHr|o l H|n l H] using ast_ind';
    unfold ast_nodes in *; simpl; rewrite ?length_app; simpl; rewrite ?length_app; simpl;
    try (rewrite (fold_nodes _ _ H); simpl); lia.
Qed.

Lemma text_of_app (l k : list ExpressionInstruction) : text_of (l ++ k) = text_of l + text_of k.
Proof. induction l; simpl; lia. Qed.

Lemma text_of_nonneg (l : list ExpressionInstruction) : 0 <= text_of l.
Proof.
  induction l as [|i l IH]; simpl; [lia|].
  destruct i as [[]| | | | | | |]; simpl; try pose proof (str_len_nonneg value);
    try pose proof (str_len_nonneg name); lia.
Qed.

(** The summation of the compiler, as long as it stays in [usize]. *)
Lemma instruction_text_bytes_Some (l : list ExpressionInstruction) :
  text_of l <= u64_max → instruction_text_bytes l = Some (text_of l).
Proof.
  unfold instruction_text_bytes.
  cut (∀ t, 0 <= t → t + text_of l <= u64_max →
         foldl (λ total i, t ← total; checked_add u64_max t (instruction_text i)) (Some t) l =
         Some (t + text_of l)).
  { intros H Hl. by rewrite (H 0) by lia. }
  induction l as [|i l IH]; simpl; intros t Ht Hl; [f_equal; lia|].
  pose proof (text_of_nonneg l). pose proof (text_of_nonneg [i]) as Hi. simpl in Hi.
  unfold checked_add. destruct (Z.leb_spec (t + instruction_text i) u64_max); [|lia].
  rewrite IH by lia. f_equal. lia.
Qed.

(** ** The validator accepts the emission of a canonical tree *)

Lemma validate_all_cons (i : ExpressionInstruction) (l : list ExpressionInstruction) (t : Z)
    (st : list StackValue) :
  validate_all (i :: l) (t, st) = (s ← validate_instruction i t st; validate_all l s).
Proof. done. Qed.

Lemma charge_text_Ok (value : str) (t : Z) :
  0 <= t → t + str_len value <= MAX_EXPRESSION_TEXT_BYTES →
  charge_text value t = Ok (t + str_len value).
Proof.
  intros Ht Hl. unfold charge_text, checked_add, expression_text_byte_rejection.
  replace (t + str_len value <=? u64_max) with true
    by (symmetry; apply Z.leb_le; unfold MAX_EXPRESSION_TEXT_BYTES, u64_max in *; lia).
  unfold_monad. by destruct (Z.ltb_spec MAX_EXPRESSION_TEXT_BYTES (t + str_len value)); [lia|].
Qed.

Lemma push_value_Ok (st : list StackValue) (d : Z) (w : bool) (o : option ExpressionLogical) :
  d <= MAX_EXPRESSION_DEPTH → push_value st d w o = Ok (MkStackValue d w o :: st).
Proof.
  intros Hd. unfold push_value, expression_depth_rejection.
  by destruct (Z.ltb_spec MAX_EXPRESSION_DEPTH d); [lia|].
Qed.

Lemma pop_values_Ok (l : list Ast) (st : list StackValue) :
  forallb (λ a, negb (is_wildcard a)) l = true →
  pop_values (rev (map shape l) ++ st) (Z.of_nat (length l)) = Ok (map shape l, st).
Proof.
  intros Hw. unfold pop_values.
  rewrite length_app, length_rev, length_map, Nat2Z.id.
  destruct (Z.ltb_spec (Z.of_nat (length l + length st)) (Z.of_nat (length l))); [lia|].
  unfold_monad.
  assert (length (rev (map shape l)) = length l) as <- by by rewrite length_rev, length_map.
  rewrite take_app_length, drop_app_length, rev_involutive.
  assert (existsb sv_wildcard (map shape l) = false) as ->; [|done].
  clear -Hw. induction l as [|a l IH]; [done|]. simpl in *.
  apply andb_true_iff in Hw as [Hw Hl]. apply negb_true_iff in Hw. rewrite Hw. by apply IH.
Qed.

Definition accepted (a : Ast) : Prop :=
  ∀ rest t st, canonical a = true → ast_depth a <= MAX_EXPRESSION_DEPTH → 0 <= t →
    t + ast_text a <= MAX_EXPRESSION_TEXT_BYTES →
    validate_all (emit a ++ rest) (t, st) = validate_all rest (t + ast_text a, shape a :: st).

Lemma accepted_list (l : list Ast) rest t st :
  Forall accepted l → forallb canonical l = true → max_depth (map shape l) <= MAX_EXPRESSION_DEPTH →
  0 <= t → t + text_of (flat_map emit l) <= MAX_EXPRESSION_TEXT_BYTES →
  validate_all (flat_map emit l ++ rest) (t, st) =
  validate_all rest (t + text_of (flat_map emit l), rev (map shape l) ++ st).
Proof.
  intros H. revert t st. induction H as [|a l Ha _ IH]; simpl; intros t st Hc Hd Ht Hl.
  - f_equal. f_equal. lia.
  - apply andb_true_iff in Hc as [Hc Hcl]. rewrite text_of_app in Hl |- *.
    pose proof (text_of_nonneg (flat_map emit l)). pose proof (text_of_nonneg (emit a)).
    change (text_of (emit a)) with (ast_text a) in *.
    rewrite <- app_assoc, Ha by (auto; lia).
    rewrite IH by (auto; lia). rewrite <- app_assoc. simpl.
    f_equal. f_equal. lia.
Qed.

Lemma forallb_and {A : Type} (f g : A → bool) (l : list A) :
  forallb (λ a, f a && g a) l = forallb f l && forallb g l.
Proof.
  induction l as [|a l IH]; simpl; [done|]. rewrite IH.
  destruct (f a), (g a), (forallb f l); done.
Qed.

Lemma no_operator_repeats (o : ExpressionLogical) (l : list Ast) :
  existsb (λ v, bool_decide (sv_logical v = Some o)) (map shape l) =
  negb (forallb (λ a, bool_decide (logical_operator a ≠ Some o)) l).
Proof.
  induction l as [|a l IH]; simpl; [done|]. rewrite IH.
  repeat case_bool_decide; try done; contradiction.
Qed.

(** Bounds of a node pass to its operands. *)
Lemma depth_index (t i : Ast) : ast_depth (AstIndex t i) = Z.max (ast_depth t) (ast_depth i) + 1.
Proof. done. Qed.
Lemma depth_compare o (l r : Ast) :
  ast_depth (AstCompare o l r) = Z.max (ast_depth l) (ast_depth r) + 1.
Proof. done. Qed.
Lemma depth_not (a : Ast) : ast_depth (AstNot a) = ast_depth a + 1.
Proof. done. Qed.
Lemma depth_logical o (l : list Ast) : ast_depth (AstLogical o l) = max_depth (map shape l) + 1.
Proof. apply depth_operands. Qed.
Lemma depth_call n (l : list Ast) : ast_depth (AstCall n l) = max_depth (map shape l) + 1.
Proof. apply depth_operands. Qed.

Ltac open_bools := repeat match goal with
  | H : _ && _ = true |- _ => apply andb_true_iff in H as [? H]
  | H : negb _ = true |- _ => apply negb_true_iff in H
  end.

Ltac rewrite_truths := repeat match goal with
  | H : ?b = true |- context [?b] => rewrite H
  | H : ?b = false |- context [?b] => rewrite H
  end.

(** Runs the pops of an instruction on a stack of shapes. *)
Ltac step_pops := unfold pop_non_wildcard, pop_value;
  repeat (rewrite ?bind_Ok; cbn [shape sv_wildcard reject]; rewrite_truths).

Lemma emit_accepted (a : Ast) : accepted a.
Proof.
  induction a as [v|n| |t i IHt IHi|a IH|o l r IHl IHr|o l H|n l H] using ast_ind';
    intros rest tx st Hc Hd Ht Hx; unfold ast_text in Hx |- *; cbn [canonical] in Hc; open_bools.
  - cbn [emit app text_of foldr instruction_text] in *. rewrite validate_all_cons.
    cbn [validate_instruction].
    destruct v as [|b|bits|s]; rewrite ?bind_Ok, ?push_value_Ok, ?bind_Ok by done;
      try (do 2 f_equal; first [lia | done]).
    + unfold literal_canonical in Hc. rewrite orb_true_iff, negb_true_iff in Hc.
      assert (is_nan (from_bits bits) && negb (bits =? canonical_nan) = false) as ->.
      { destruct Hc as [-> | ->]; [done|]. by rewrite andb_false_r. }
      cbn [reject]. rewrite !bind_Ok. do 2 f_equal; first [lia | done].
    + rewrite charge_text_Ok by lia. rewrite !bind_Ok. do 2 f_equal; first [lia | done].
  - cbn [emit app text_of foldr instruction_text] in *. rewrite validate_all_cons.
    cbn [validate_instruction]. unfold validate_program_identifier. rewrite Hc.
    cbn [negb reject]. rewrite bind_Ok, charge_text_Ok, bind_Ok, push_value_Ok, !bind_Ok by (done || lia).
    do 2 f_equal; first [lia | done].
  - cbn [emit app text_of foldr instruction_text] in *. rewrite validate_all_cons.
    cbn [validate_instruction]. rewrite push_value_Ok, !bind_Ok by done. do 2 f_equal; first [lia | done].
  - rewrite depth_index in Hd. cbn [emit] in Hx |- *.
    rewrite !text_of_app in Hx |- *. cbn [text_of foldr instruction_text] in Hx |- *.
    pose proof (text_of_nonneg (emit t)). pose proof (text_of_nonneg (emit i)).
    change (text_of (emit t)) with (ast_text t) in *. change (text_of (emit i)) with (ast_text i) in *.
    rewrite <- !app_assoc, IHt, IHi by (auto; lia). cbn [app]. rewrite validate_all_cons.
    cbn [validate_instruction]. step_pops.
    rewrite push_value_Ok, !bind_Ok by (cbn [shape sv_depth]; lia). do 2 f_equal; first [lia | done].
  - rewrite depth_not in Hd. cbn [emit] in Hx |- *.
    rewrite !text_of_app in Hx |- *. cbn [text_of foldr instruction_text] in Hx |- *.
    change (text_of (emit a)) with (ast_text a) in *.
    rewrite <- !app_assoc, IH by (auto; lia). cbn [app]. rewrite validate_all_cons.
    cbn [validate_instruction]. step_pops.
    rewrite push_value_Ok, !bind_Ok by (cbn [shape sv_depth]; lia). do 2 f_equal; first [lia | done].
  - rewrite depth_compare in Hd. cbn [emit] in Hx |- *.
    rewrite !text_of_app in Hx |- *. cbn [text_of foldr instruction_text] in Hx |- *.
    pose proof (text_of_nonneg (emit l)). pose proof (text_of_nonneg (emit r)).
    change (text_of (emit l)) with (ast_text l) in *. change (text_of (emit r)) with (ast_text r) in *.
    rewrite <- !app_assoc, IHl, IHr by (auto; lia). cbn [app]. rewrite validate_all_cons.
    cbn [validate_instruction]. step_pops.
    rewrite push_value_Ok, !bind_Ok by (cbn [shape sv_depth]; lia). do 2 f_equal; first [lia | done].
  - rewrite depth_logical in Hd. cbn [emit] in Hx |- *.
    rewrite !text_of_app in Hx |- *. cbn [text_of foldr instruction_text] in Hx |- *.
    rewrite forallb_and in *. open_bools.
    rewrite <- !app_assoc, accepted_list by (auto; lia). cbn [app]. rewrite validate_all_cons.
    cbn [validate_instruction]. rewrite pop_values_Ok by done.
    destruct (Z.ltb_spec (Z.of_nat (length l)) 2); [lia|]. cbn [reject]. rewrite !bind_Ok.
    rewrite no_operator_repeats, Hc. cbn [negb reject]. rewrite bind_Ok.
    rewrite push_value_Ok, !bind_Ok by lia. unfold shape. rewrite depth_logical. do 2 f_equal; first [lia | done].
  - rewrite depth_call in Hd. cbn [emit] in Hx |- *.
    rewrite !text_of_app in Hx |- *. cbn [text_of foldr instruction_text] in Hx |- *.
    pose proof (text_of_nonneg (flat_map emit l)). pose proof (str_len_nonneg n).
    rewrite forallb_and in Hc. open_bools.
    rewrite <- !app_assoc, accepted_list by (auto; lia). cbn [app]. rewrite validate_all_cons.
    cbn [validate_instruction]. unfold validate_program_identifier. rewrite_truths.
    cbn [negb reject]. rewrite bind_Ok, charge_text_Ok, bind_Ok by lia.
    rewrite pop_values_Ok by done. rewrite bind_Ok.
    rewrite push_value_Ok, !bind_Ok by lia. unfold shape. rewrite depth_call. do 2 f_equal; first [lia | done].
Qed.

(** ** What the validator accepts is the emission of canonical trees *)

Definition good (a : Ast) : Prop := canonical a = true ∧ ast_depth a <= MAX_EXPRESSION_DEPTH.

Lemma push_value_inv (st st' : list StackValue) (d : Z) (w : bool)
    (o : option ExpressionLogical) :
  push_value st d w o = Ok st' → d <= MAX_EXPRESSION_DEPTH ∧ st' = MkStackValue d w o :: st.
Proof.
  unfold push_value, expression_depth_rejection. intros H. ok_inv.
  destruct (Z.ltb_spec MAX_EXPRESSION_DEPTH d); [done|]. auto.
Qed.

Lemma charge_text_inv (value : str) (t t' : Z) :
  charge_text value t = Ok t' → t' = t + str_len value ∧ t' <= MAX_EXPRESSION_TEXT_BYTES.
Proof.
  unfold charge_text, checked_add, expression_text_byte_rejection. intros H. ok_inv.
  destruct (Z.ltb_spec MAX_EXPRESSION_TEXT_BYTES t'); [done|].
  destruct (Z.leb_spec (t + str_len value) u64_max); naive_solver lia.
Qed.

Lemma pop_value_shapes (l : list Ast) (v : StackValue) (st : list StackValue) :
  pop_value (map shape l) = Ok (v, st) → ∃ a l', l = a :: l' ∧ v = shape a ∧ st = map shape l'.
Proof. destruct l as [|a l]; simpl; [done|]. intros [= <- <-]. eauto. Qed.

Lemma pop_non_wildcard_shapes (l : list Ast) (v : StackValue) (st : list StackValue) :
  pop_non_wildcard (map shape l) = Ok (v, st) →
  ∃ a l', l = a :: l' ∧ is_wildcard a = false ∧ v = shape a ∧ st = map shape l'.
Proof.
  unfold pop_non_wildcard. intros H. ok_inv.
  apply pop_value_shapes in H0 as (a & l' & -> & -> & ->). eauto 10.
Qed.

Lemma pop_values_shapes (l : list Ast) (count : Z) (vs st : list StackValue) :
  0 <= count → pop_values (map shape l) count = Ok (vs, st) →
  ∃ taken l', l = rev taken ++ l' ∧ Z.of_nat (length taken) = count ∧
    forallb (λ a, negb (is_wildcard a)) taken = true ∧ vs = map shape taken ∧ st = map shape l'.
Proof.
  unfold pop_values. intros Hc H. ok_inv. rewrite length_map in H0.
  apply Z.ltb_ge in H0. set (n := Z.to_nat count) in *.
  exists (rev (take n l)), (drop n l). rewrite rev_involutive, take_drop.
  rewrite length_rev, length_take. split; [done|]. split; [lia|].
  rewrite firstn_map, <- map_rev in *. rewrite skipn_map. split; [|done].
  clear -H1. induction (rev (take n l)) as [|a k IH]; [done|]. simpl in *.
  apply orb_false_iff in H1 as [-> H1]. by apply IH.
Qed.

Lemma good_operands (l : list Ast) : Forall good l → forallb canonical l = true.
Proof. induction 1 as [|a l [Ha _] _ IH]; simpl; [done|]. by rewrite Ha. Qed.

(** One instruction replaces the operands it takes by their parent. *)
Definition step_spec (i : ExpressionInstruction) (t t' : Z) (l : list Ast)
    (st' : list StackValue) : Prop :=
  ∃ taken l' a, l = rev taken ++ l' ∧ st' = shape a :: map shape l' ∧ good a ∧
    emit a = flat_map emit taken ++ [i] ∧ t' = t + instruction_text i ∧
    (t <= MAX_EXPRESSION_TEXT_BYTES → t' <= MAX_EXPRESSION_TEXT_BYTES).

Lemma step_specI (i : ExpressionInstruction) (t t' : Z) (l : list Ast)
    (taken l' : list Ast) (a : Ast) (v : StackValue) :
  l = rev taken ++ l' → v = shape a → good a → emit a = flat_map emit taken ++ [i] →
  t' = t + instruction_text i → (t <= MAX_EXPRESSION_TEXT_BYTES → t' <= MAX_EXPRESSION_TEXT_BYTES) →
  step_spec i t t' l (v :: map shape l').
Proof. intros ? ->. intros. by exists taken, l', a. Qed.

Lemma validate_step (i : ExpressionInstruction) (t t' : Z) (l : list Ast) (st' : list StackValue) :
  typed_instruction i → Forall good l →
  validate_instruction i t (map shape l) = Ok (t', st') → step_spec i t t' l st'.
Proof.
  intros Hi Hl. destruct i as [v|n| | | |o|o c|n c]; cbn [validate_instruction]; intros H; ok_inv;
    try match goal with H : push_value _ _ _ _ = Ok _ |- _ =>
      apply push_value_inv in H as [Hd ->] end.
  - apply (step_specI _ _ _ l [] l (AstLiteral v)); [done|done| |done|..].
    + split; [|done]. simpl. destruct v; try done. unfold literal_canonical.
      apply reject_passes in H1. destruct (is_nan _), (_ =? _); done.
    + destruct v; try (injection H0 as ->; simpl; lia). apply charge_text_inv in H0. simpl. lia.
    + destruct v; try (injection H0 as ->; simpl; lia). apply charge_text_inv in H0. simpl. lia.
  - apply charge_text_inv in H1. unfold validate_program_identifier in H0. ok_inv.
    apply (step_specI _ _ _ l [] l (AstNamedValue n)); [done|done| |done|simpl; lia..].
    split; [|done]. by apply negb_false_iff in H0.
  - apply (step_specI _ _ _ l [] l AstWildcard); try done. simpl. lia.
  - apply pop_value_shapes in H0 as (ix & rest1 & -> & -> & ->).
    apply pop_non_wildcard_shapes in H1 as (tg & rest2 & -> & Hw & -> & ->).
    rewrite !Forall_cons in Hl. destruct Hl as ([Hci Hdi] & [Hct Hdt] & Hl).
    apply (step_specI _ _ _ _ [tg; ix] rest2 (AstIndex tg ix)); [done|done| | |simpl; lia..].
    + split; [|by rewrite depth_index]. simpl. by rewrite Hci, Hct, Hw.
    + simpl. by rewrite <- !app_assoc.
  - apply pop_non_wildcard_shapes in H0 as (a & rest1 & -> & Hw & -> & ->).
    rewrite !Forall_cons in Hl. destruct Hl as ([Hca Hda] & Hl).
    apply (step_specI _ _ _ _ [a] rest1 (AstNot a)); [done|done| | |simpl; lia..].
    + split; [|by rewrite depth_not]. simpl. by rewrite Hca, Hw.
    + simpl. by rewrite <- !app_assoc.
  - apply pop_non_wildcard_shapes in H0 as (r & rest1 & -> & Hwr & -> & ->).
    apply pop_non_wildcard_shapes in H1 as (le & rest2 & -> & Hwl & -> & ->).
    rewrite !Forall_cons in Hl. destruct Hl as ([Hcr Hdr] & [Hcl Hdl] & Hl).
    apply (step_specI _ _ _ _ [le; r] rest2 (AstCompare o le r)); [done|done| | |simpl; lia..].
    + split; [|by rewrite depth_compare]. simpl. by rewrite Hcl, Hcr, Hwl, Hwr.
    + simpl. by rewrite <- !app_assoc.
  - apply Z.ltb_ge in H0. apply pop_values_shapes in H1 as (k & rest1 & -> & Hn & Hw & -> & ->);
      [|simpl in Hi; lia].
    apply Forall_app in Hl as [Hk Hl]. apply Forall_rev in Hk. rewrite rev_involutive in Hk.
    rewrite no_operator_repeats in H2. apply negb_false_iff in H2.
    rewrite <- depth_logical with (o := o) in Hd.
    apply (step_specI _ _ _ _ k rest1 (AstLogical o k)); [done|unfold shape; by rewrite depth_logical| | |simpl; lia..].
    + split; [|done]. cbn [canonical]. rewrite forallb_and, (good_operands k Hk), Hw, H2.
      by destruct (Z.leb_spec 2 (Z.of_nat (length k))); [|lia].
    + simpl. by rewrite Hn.
  - apply charge_text_inv in H1. unfold validate_program_identifier in H0. ok_inv.
    apply pop_values_shapes in H2 as (k & rest1 & -> & Hn & Hw & -> & ->); [|simpl in Hi; lia].
    apply Forall_app in Hl as [Hk Hl]. apply Forall_rev in Hk. rewrite rev_involutive in Hk.
    rewrite <- depth_call with (n := n) in Hd.
    apply (step_specI _ _ _ _ k rest1 (AstCall n k)); [done|unfold shape; by rewrite depth_call| | |simpl; lia..].
    + split; [|done]. cbn [canonical]. rewrite forallb_and, (good_operands k Hk), Hw.
      by apply negb_false_iff in H0 as ->.
    + simpl. by rewrite Hn.
Qed.

Lemma flat_map_app' {A B : Type} (f : A → list B) (l k : list A) :
  flat_map f (l ++ k) = flat_map f l ++ flat_map f k.
Proof. induction l as [|a l IH]; simpl; [done|]. by rewrite IH, app_assoc. Qed.

Lemma validate_all_forest (instructions : list ExpressionInstruction) (t : Z)
    (st : list StackValue) :
  Forall typed_instruction instructions →
  validate_all instructions (0, []) = Ok (t, st) →
  ∃ l, st = map shape l ∧ Forall good l ∧ instructions = flat_map emit (rev l) ∧
    t = text_of instructions ∧ t <= MAX_EXPRESSION_TEXT_BYTES.
Proof.
  intros Hty. unfold validate_all.
  set (Inv := λ (visited : list ExpressionInstruction) (s : Z * list StackValue),
    ∃ l, s.2 = map shape l ∧ Forall good l ∧ visited = flat_map emit (rev l) ∧
      s.1 = text_of visited ∧ s.1 <= MAX_EXPRESSION_TEXT_BYTES).
  intros H. apply (try_fold_inv Inv) in H; [exact H|by exists []|].
  intros visited i [t1 st1] [t2 st2] Hi (l & Hs & Hg & -> & Ht & Hm) Hstep.
  cbn [fst snd] in *. subst st1.
  apply validate_step in Hstep; [|by eapply Forall_forall in Hty|done].
  destruct Hstep as (taken & l' & a & -> & -> & Ha & Hemit & -> & Hmax).
  apply Forall_app in Hg as [_ Hg]. exists (a :: l'). simpl.
  split_and!; [done|by constructor| | |by apply Hmax].
  - rewrite rev_app_distr, rev_involutive, !flat_map_app', <- app_assoc, <- Hemit.
    simpl. by rewrite app_nil_r.
  - rewrite text_of_app. simpl. lia.
Qed.

(** What the header of a program must satisfy, whatever its instructions. *)
Definition header_valid (p : ExpressionProgram) : bool :=
  (program_schema_version p =? EXPRESSION_PROGRAM_SCHEMA_VERSION) &&
  not_empty (program_source p) && (str_len (program_source p) <=? MAX_EXPRESSION_SOURCE_BYTES) &&
  forallb source_char_ok (program_source p).

Lemma emit_not_empty (a : Ast) : emit a ≠ [].
Proof. destruct a; simpl; try done; intros H; apply (f_equal length) in H;
  rewrite ?length_app in H; simpl in H; lia. Qed.

Lemma validate_emission (p : ExpressionProgram) (a : Ast) :
  header_valid p = true → durable a → program_instructions p = emit a →
  program_validate p = Ok tt.
Proof.
  unfold header_valid. intros H (Hc & Hw & Hn & Hd & Ht) Hi. open_bools. unfold program_validate.
  rewrite_truths. cbn [negb reject]. rewrite bind_Ok.
  unfold not_empty in *. open_bools. rewrite_truths. cbn [reject]. rewrite bind_Ok.
  unfold expression_source_byte_rejection, expression_instruction_rejection.
  destruct (Z.ltb_spec MAX_EXPRESSION_SOURCE_BYTES (str_len (program_source p))); [lia|].
  cbn [is_some reject]. rewrite !bind_Ok, Hi. unfold ast_nodes in Hn.
  destruct (Z.ltb_spec MAX_EXPRESSION_INSTRUCTIONS (Z.of_nat (length (emit a)))); [lia|].
  pose proof (emit_not_empty a) as Hne. pose proof (emit_accepted a [] 0 []) as Hv.
  rewrite app_nil_r in Hv. rewrite Hv by (done || lia). destruct (emit a); [done|].
  cbn [is_some reject]. rewrite !bind_Ok. cbn. by rewrite Hw.
Qed.

Lemma validated_emission (p : ExpressionProgram) :
  Forall typed_instruction (program_instructions p) → program_validate p = Ok tt →
  header_valid p = true ∧ ∃ a, durable a ∧ program_instructions p = emit a.
Proof.
  intros Hty. unfold program_validate. intros H. ok_inv.
  apply negb_false_iff in H0, H3. split.
  - unfold header_valid, not_empty. rewrite_truths. simpl.
    unfold expression_source_byte_rejection in H2.
    destruct (Z.ltb_spec MAX_EXPRESSION_SOURCE_BYTES (str_len (program_source p))); [done|].
    rewrite (proj2 (Z.leb_le _ _)) by lia. done.
  - apply validate_all_forest in H6 as (trees & -> & Hg & Hi & -> & Ht); [|done].
    destruct trees as [|a [|b trees]]; [done| |done]. simpl in H, Hi. rewrite app_nil_r in Hi.
    apply Forall_inv in Hg as [Hc Hd]. ok_inv. exists a. split; [|done].
    unfold expression_instruction_rejection in H5. unfold ast_text, ast_nodes, durable.
    rewrite Hi in *.
    destruct (Z.ltb_spec MAX_EXPRESSION_INSTRUCTIONS (Z.of_nat (length (emit a)))); [done|].
    split_and!; try done; lia.
Qed.

(** ** Claims *)

(** C33: validation accepts exactly the programs that have a valid header and
    whose instructions are the postfix emission of a canonical tree within the
    limits on nodes, depth and text: every stack check, wildcard check, nesting
    check and budget of the validator is one condition on trees. *)
Theorem validated_programs_are_durable_trees (p : ExpressionProgram) :
  Forall typed_instruction (program_instructions p) →
  program_validate p = Ok tt ↔
  header_valid p = true ∧ ∃ a, durable a ∧ program_instructions p = emit a.
Proof.
  intros Hty. split; [by apply validated_emission|].
  intros (Hh & a & Ha & Hi). by eapply validate_emission.
Qed.

(** [github.x == 'a' || !y.*] *)
Definition sample_instructions : list ExpressionInstruction :=
  [INamedValue (lit "github"); ILiteral (LitString (lit "x")); IIndex;
   ILiteral (LitString (lit "a")); ICompare OpEqual;
   INamedValue (lit "y"); IWildcard; IIndex; INot; ILogical OpOr 2].
Definition sample_program : ExpressionProgram :=
  MkProgram 1 (MkDialect (lit "github-actions") 1) (lit "github.x == 'a' || !y.*")
    sample_instructions.

Lemma validated_programs_are_durable_trees_witness :
  Forall typed_instruction (program_instructions sample_program) ∧
  header_valid sample_program = true ∧
  ∃ a, durable a ∧ program_instructions sample_program = emit a.
Proof.
  assert (Forall typed_instruction (program_instructions sample_program)) as H.
  { repeat constructor; by vm_compute. }
  split; [exact H|].
  apply (proj1 (validated_programs_are_durable_trees sample_program H)).
  vm_compute. reflexivity.
Defined.
