(* ===== verification/ExpressionValue.v ===== *)
(** * ExpressionValue: values of the expression language and their coercions

    Models [value.rs], [coercion.rs], [context.rs] and [error.rs] of
    [crates/automata-ci-expression-actions/src], with the value limits of
    [evaluator.rs]: the values an expression computes with, the marker that
    keeps secrets opaque, loose equality and ordering, conversions between
    numbers and text, and the bounds a value must respect.

    Arrays and objects compare by the identity of their allocation. An
    evaluation visits each node of its tree at most once, so the node, with a
    number where it allocates several values, identifies an allocation. *)

From stdpp Require Import gmap.
From S2P Require Import Prelude Text Utf8 Float64.

(** ** Case folding

    [char::to_uppercase] is a table of the Unicode standard: a parameter, of
    which only the ASCII range is ever assumed. *)
Class CaseTable := to_uppercase : Z → list Z.

Class CaseTableLaws (T : CaseTable) : Prop := {
  to_uppercase_ascii : ∀ c, is_ascii c = true → @to_uppercase T c = [to_ascii_uppercase c]
}.

Definition ascii_case_table : CaseTable := λ c, [to_ascii_uppercase c].

Lemma ascii_case_table_laws : CaseTableLaws ascii_case_table.
Proof. by split. Qed.

(** ** Errors *)

Inductive GithubExpressionEvaluationErrorKind :=
| UnsupportedProgram | UnavailableContext | InvalidOperation | ResourceLimit | Extension | Internal.

#[export] Instance evaluation_error_kind_eq_dec : EqDecision GithubExpressionEvaluationErrorKind.
Proof. solve_decision. Defined.

Abbreviation eresult := (result GithubExpressionEvaluationErrorKind) (only parsing).

Inductive GithubValueError := InvalidKey | DuplicateKey | TooManyItems.

(** ** Values *)

Definition MAX_CONSTRUCTION_ITEMS : Z := 65536.
Definition MAX_KEY_BYTES : Z := 1048576.

Inductive GithubValueLimitRejection := RejectConstructionItems | RejectKeyBytes.

Definition github_value_construction_item_rejection (observed : Z) :
    option GithubValueLimitRejection :=
  if MAX_CONSTRUCTION_ITEMS <? observed then Some RejectConstructionItems else None.
Definition github_value_key_byte_rejection (observed : Z) : option GithubValueLimitRejection :=
  if MAX_KEY_BYTES <? observed then Some RejectKeyBytes else None.

(** What [Arc::ptr_eq] compares: an allocation of the caller's, or the [k]-th
    made at a node. *)
Inductive Allocation := Given (n : Z) | Made (site k : nat).

#[export] Instance allocation_eq_dec : EqDecision Allocation.
Proof. solve_decision. Defined.

(** The entries in insertion order, and the position of each folded key. *)
Record GithubObjectOf (V : Type) := MkObject {
  object_arc : Allocation;
  object_entries : list (str * V);
  object_lookup : gmap str nat
}.
Arguments MkObject {V} _ _ _.
Arguments object_arc {V} _.
Arguments object_entries {V} _.
Arguments object_lookup {V} _.

Inductive GithubValue :=
| VNull
| VBoolean (value : bool)
| VNumber (bits : Z)
| VString (value : str)
| VArray (arc : Allocation) (values : list GithubValue)
| VObject (object : GithubObjectOf GithubValue)
| VSensitive (payload : GithubValue).

Abbreviation GithubObject := (GithubObjectOf GithubValue) (only parsing).

(** Induction that reaches elements and entries. *)
Section ValueInd.
Variable P : GithubValue → Prop.
Hypothesis Hnull : P VNull.
Hypothesis Hboolean : ∀ b, P (VBoolean b).
Hypothesis Hnumber : ∀ b, P (VNumber b).
Hypothesis Hstring : ∀ s, P (VString s).
Hypothesis Harray : ∀ arc l, Forall P l → P (VArray arc l).
Hypothesis Hobject : ∀ arc l m, Forall (λ e, P e.2) l → P (VObject (MkObject arc l m)).
Hypothesis Hsensitive : ∀ v, P v → P (VSensitive v).

Fixpoint value_ind' (v : GithubValue) : P v :=
  match v with
  | VNull => Hnull
  | VBoolean b => Hboolean b
  | VNumber b => Hnumber b
  | VString s => Hstring s
  | VArray arc l =>
      Harray arc l
        ((fix go (l : list GithubValue) : Forall P l :=
            match l with
            | [] => Forall_nil_2 P
            | v :: l => Forall_cons_2 P v l (value_ind' v) (go l)
            end) l)
  | VObject (MkObject arc l m) =>
      Hobject arc l m
        ((fix go (l : list (str * GithubValue)) : Forall (λ e, P e.2) l :=
            match l with
            | [] => Forall_nil_2 _
            | e :: l => Forall_cons_2 _ e l (value_ind' e.2) (go l)
            end) l)
  | VSensitive v => Hsensitive v (value_ind' v)
  end.
End ValueInd.

Definition value_number (value : f64) : GithubValue := VNumber (to_bits value).

Definition is_explicitly_sensitive (self : GithubValue) : bool :=
  match self with VSensitive _ => true | _ => false end.

Definition mark_sensitive (self : GithubValue) : GithubValue :=
  if is_explicitly_sensitive self then self else VSensitive self.

Definition inherit_sensitivity (self : GithubValue) (sensitive : bool) : GithubValue :=
  if sensitive then mark_sensitive self else self.

Definition sensitive_string (value : str) : GithubValue := mark_sensitive (VString value).

Fixpoint is_sensitive (self : GithubValue) : bool :=
  match self with
  | VSensitive _ => true
  | VArray _ values => existsb is_sensitive values
  | VObject (MkObject _ entries _) => existsb (λ '(_, value), is_sensitive value) entries
  | VNull | VBoolean _ | VNumber _ | VString _ => false
  end.

Fixpoint without_sensitivity (self : GithubValue) : GithubValue :=
  match self with
  | VSensitive payload => without_sensitivity payload
  | value => value
  end.

(** [GithubValue::array]; [arc] is the identity of the new allocation. *)
Definition value_array (arc : Allocation) (values : list GithubValue) :
    result GithubValueError GithubValue :=
  _ ← reject (is_some (github_value_construction_item_rejection (Z.of_nat (length values))))
        TooManyItems;
  Ok (VArray arc values).

Definition as_bool (self : GithubValue) : option bool :=
  match self with VBoolean value => Some value | _ => None end.

Fixpoint is_truthy (self : GithubValue) : bool :=
  match self with
  | VNull => false
  | VBoolean value => value
  | VNumber bits =>
      let value := from_bits bits in negb (f64_eqb value f64_zero) && negb (is_nan value)
  | VString value => not_empty value
  | VArray _ _ | VObject _ => true
  | VSensitive payload => is_truthy payload
  end.

Definition is_primitive (self : GithubValue) : bool :=
  match without_sensitivity self with
  | VArray _ _ | VObject _ => false
  | _ => true
  end.

(** ** Coercions *)

(** [usize::from(matches!(first, '+' | '-'))] and the loops over digits: what
    is left of the text stands for the cursor. *)
Definition valid_decimal (value : str) : bool :=
  let s := (take_sign value).2 in
  let '(int, s) := span_digits s in
  let '(frac, s) :=
    match s with
    | c :: s' => if c =? 46 then span_digits s' else ([], s)
    | [] => ([], [])
    end in
  let digits := (length int + length frac)%nat in
  if Nat.eqb digits 0 then false
  else
    match s with
    | [] => true
    | c :: s' =>
        if (c =? 101) || (c =? 69) then
          let '(exponent, s) := span_digits (take_sign s').2 in
          if str_is_empty exponent then false else str_is_empty s
        else false
    end.

Definition parse_radix_i32 (value : str) (radix : Z) : f64 :=
  if str_is_empty value || negb (forallb (is_digit radix) value) then f64_nan
  else match u32_from_str_radix value radix with
       | Some value => of_int (i32_of_u32 value)
       | None => f64_nan
       end.

Definition parse_hex_i32 (value : str) : f64 :=
  if str_is_empty value || negb (forallb is_ascii_hexdigit value) then f64_nan
  else match u32_from_str_radix value 16 with
       | Some value => of_int (i32_of_u32 value)
       | None => f64_nan
       end.

Definition parse_number (value : str) : f64 :=
  let value := trim value in
  if str_is_empty value then f64_zero
  else if str_eqb value (lit "Infinity") then f64_infinity
  else if str_eqb value (lit "-Infinity") then f64_neg_infinity
  else
    match strip_prefix (lit "0x") value with
    | Some hex => parse_hex_i32 hex
    | None =>
        match strip_prefix (lit "0o") value with
        | Some octal => parse_radix_i32 octal 8
        | None => if negb (valid_decimal value) then f64_nan else default f64_nan (parse_f64 value)
        end
    end.

Definition to_number (value : GithubValue) : f64 :=
  match without_sensitivity value with
  | VNull => f64_zero
  | VBoolean value => of_int (if value then 1 else 0)
  | VNumber bits => from_bits bits
  | VString value => parse_number value
  | _ => f64_nan
  end.

(** The pops at the end: zeros, then a bare point. *)
Fixpoint drop_zeros (s : str) : str :=
  match s with c :: s' => if c =? 48 then drop_zeros s' else s | [] => [] end.
Definition trim_decimal (value : str) : str :=
  if str_contains value 46 then
    let r := drop_zeros (rev value) in
    rev (match r with c :: r' => if c =? 46 then r' else r | [] => [] end)
  else value.

(** [{exponent:+03}]: a sign, and zeros up to three characters. *)
Definition show_exponent (exponent : Z) : str :=
  (if exponent <? 0 then 45 else 43) :: show_nat 2 (Z.abs exponent).

Definition format_number (value : f64) : str :=
  if is_nan value then lit "NaN"
  else if f64_eqb value f64_infinity then lit "Infinity"
  else if f64_eqb value f64_neg_infinity then lit "-Infinity"
  else if f64_eqb value f64_zero then lit "0"
  else
    let scientific := format_exp 14 value in
    let '(scientific_mantissa, scientific_exponent) :=
      default (scientific, lit "0") (split_once 101 scientific) in
    let exponent := default 0 (parse_i32 scientific_exponent) in
    if (-4 <=? exponent) && (exponent <? 15) then
      trim_decimal (format_fixed (Z.to_nat (Z.max (14 - exponent) 0)) value)
    else trim_decimal scientific_mantissa ++ 69 :: show_exponent exponent.

Definition to_string (value : GithubValue) : str :=
  match without_sensitivity value with
  | VNull => []
  | VBoolean true => lit "true"
  | VBoolean false => lit "false"
  | VNumber bits => format_number (from_bits bits)
  | VString value => value
  | VArray _ _ => lit "Array"
  | VObject _ => lit "Object"
  | VSensitive _ => []
  end.

(** [char::encode_utf16] over a string. *)
Definition utf16_char (c : Z) : list Z :=
  if c <? 65536 then [c] else [55296 + (c - 65536) / 1024; 56320 + (c - 65536) mod 1024].
Definition encode_utf16 (s : str) : list Z := s ≫= utf16_char.

Section Coercion.
Context {T : CaseTable}.

Definition ordinal_fold_character (character : Z) : Z :=
  if (character =? 305) || (character =? 383) then character
  else match to_uppercase character with
       | [] => character
       | [first] => first
       | _ => character
       end.

Definition ordinal_key (value : str) : str := map ordinal_fold_character value.

Definition ordinal_ignore_case (left_ right_ : str) : bool :=
  eq_ignore_ascii_case left_ right_ || str_eqb (ordinal_key left_) (ordinal_key right_).

Definition ordinal_compare (left_ right_ : str) : comparison :=
  cmp_list (encode_utf16 (ordinal_key left_)) (encode_utf16 (ordinal_key right_)).

(** [partial_cmp(..) == Some(Ordering::Equal)] of the numbers two values are. *)
Definition numerically_equal (left_ right_ : GithubValue) : bool :=
  f64_eqb (to_number left_) (to_number right_).

Definition abstract_equal (left_ right_ : GithubValue) : bool :=
  let left_ := without_sensitivity left_ in
  let right_ := without_sensitivity right_ in
  match left_, right_ with
  | VNull, VNull => true
  | VBoolean l, VBoolean r => Bool.eqb l r
  | VNumber l, VNumber r => f64_eqb (from_bits l) (from_bits r)
  | VString l, VString r => ordinal_ignore_case l r
  | VArray l _, VArray r _ => bool_decide (l = r)
  | VObject l, VObject r => bool_decide (object_arc l = object_arc r)
  | (VBoolean _ | VNull), _
  | _, (VBoolean _ | VNull)
  | VNumber _, VString _
  | VString _, VNumber _ => numerically_equal left_ right_
  | _, _ => false
  end.

Definition bool_compare (l r : bool) : comparison :=
  match l, r with false, true => Lt | true, false => Gt | _, _ => Eq end.

Definition abstract_compare (left_ right_ : GithubValue) : option comparison :=
  let left_ := without_sensitivity left_ in
  let right_ := without_sensitivity right_ in
  match left_, right_ with
  | VString l, VString r => Some (ordinal_compare l r)
  | VBoolean l, VBoolean r => Some (bool_compare l r)
  | VNumber l, VNumber r => partial_cmp (from_bits l) (from_bits r)
  | (VBoolean _ | VNull), _
  | _, (VBoolean _ | VNull)
  | VNumber _, VString _
  | VString _, VNumber _ => partial_cmp (to_number left_) (to_number right_)
  | _, _ => None
  end.

(** ** Objects *)

(** The keys folded so far and the index of the next entry. *)
Definition object_new_step (state : gmap str nat * nat) (entry : str * GithubValue) :
    result GithubValueError (gmap str nat * nat) :=
  let '(lookup, index) := state in
  let '(key, _) := entry in
  _ ← reject (is_some (github_value_key_byte_rejection (str_len key))) InvalidKey;
  _ ← reject (is_some (lookup !! ordinal_key key)) DuplicateKey;
  Ok (<[ordinal_key key := index]> lookup, S index).

(** [GithubObject::new]. *)
Definition object_new (arc : Allocation) (entries : list (str * GithubValue)) :
    result GithubValueError GithubObject :=
  _ ← reject (is_some (github_value_construction_item_rejection (Z.of_nat (length entries))))
        TooManyItems;
  '(lookup, _) ← try_fold object_new_step (∅, O) entries;
  Ok (MkObject arc entries lookup).

(** [GithubObject::get]; an index outside the entries would panic, and
    [object_new] leaves none. *)
Definition object_get (self : GithubObject) (key : str) : option GithubValue :=
  index ← object_lookup self !! ordinal_key key;
  snd <$> object_entries self !! index.

End Coercion.

(** ** Contexts *)

Inductive GithubStatus := StatusSuccess | StatusFailure | StatusCancelled | StatusSkipped.

#[export] Instance github_status_eq_dec : EqDecision GithubStatus.
Proof. solve_decision. Defined.

(** [GithubExpressionFunctionProvider::call], with the node that calls: a
    provider has effects, and each node calls it at most once. *)
Abbreviation ExtensionFunctionResult := (option (eresult GithubValue)) (only parsing).

Record GithubEvaluationContext := MkContext {
  named_value : str → option GithubValue;
  context_status : GithubStatus;
  function_call : nat → str → list GithubValue → ExtensionFunctionResult
}.

Definition no_extension_functions : nat → str → list GithubValue → ExtensionFunctionResult :=
  λ _ _ _, None.

(** [MapContext::new]: the entries of the given map in the order of its keys. *)
Definition context_name_char (c : Z) : bool := is_ascii_alphanumeric c || (c =? 95) || (c =? 45).

Definition map_context_step (canonical_names : gmap str GithubValue)
    (entry : str * GithubValue) : result unit (gmap str GithubValue) :=
  let '(name, value) := entry in
  _ ← reject (str_is_empty name || (64 <? str_len name) || negb (forallb context_name_char name)) tt;
  let key := map to_ascii_lowercase name in
  _ ← reject (is_some (canonical_names !! key)) tt;
  Ok (<[key := value]> canonical_names).

Definition map_context_new (named : list (str * GithubValue)) (status : GithubStatus)
    (functions : nat → str → list GithubValue → ExtensionFunctionResult) :
    result unit GithubEvaluationContext :=
  _ ← reject (128 <? Z.of_nat (length named)) tt;
  names ← try_fold map_context_step ∅ named;
  Ok (MkContext (λ name, names !! map to_ascii_lowercase name) status functions).

(** ** Limits *)

Record GithubExpressionLimits := MkLimits {
  result_bytes : Z;
  collection_items : Z;
  value_depth : Z
}.

Definition evaluation_limits_new (result_bytes collection_items value_depth : Z) :
    eresult GithubExpressionLimits :=
  _ ← reject ((result_bytes =? 0) || (16 * 1024 * 1024 <? result_bytes) ||
              (collection_items =? 0) || (65536 <? collection_items) ||
              (value_depth =? 0) || (50 <? value_depth)) ResourceLimit;
  Ok (MkLimits result_bytes collection_items value_depth).

Definition evaluation_limits_default : GithubExpressionLimits := MkLimits 1048576 65536 50.

(** What one value adds to the text and to the worklist. *)
Definition value_text (value : GithubValue) : Z :=
  match without_sensitivity value with
  | VString value => str_len value
  | VObject object => foldr (λ e n, str_len e.1 + n) 0 (object_entries object)
  | _ => 0
  end.
Definition value_children (value : GithubValue) : list GithubValue :=
  match without_sensitivity value with
  | VArray _ values => values
  | VObject object => map snd (object_entries object)
  | _ => []
  end.

(** The worklist of [enforce_value_limits]; the last child is on top. Every
    pass counts an item, so one more pass than the limit on items is enough.
    The sums stay far below [usize]: each is checked before the next is added. *)
Fixpoint enforce_loop (fuel : nat) (limits : GithubExpressionLimits)
    (stack : list (GithubValue * Z)) (aggregate items : Z) : eresult unit :=
  match stack, fuel with
  | [], _ => Ok tt
  | _, O => Err ResourceLimit
  | (value, depth) :: stack, S fuel =>
      _ ← reject (value_depth limits <? depth) ResourceLimit;
      let items := items + 1 in
      _ ← reject (collection_items limits <? items) ResourceLimit;
      let aggregate := aggregate + value_text value in
      let stack := rev (map (λ child, (child, depth + 1)) (value_children value)) ++ stack in
      _ ← reject (result_bytes limits <? aggregate) ResourceLimit;
      enforce_loop fuel limits stack aggregate items
  end.

Definition enforce_value_limits (value : GithubValue) (limits : GithubExpressionLimits) :
    eresult unit :=
  enforce_loop (S (Z.to_nat (collection_items limits))) limits [(value, 1)] 0 0.

#[global] Arguments enforce_value_limits : simpl never.

(** ** Measures of a value *)

Definition max_by {A : Type} (f : A → Z) (l : list A) : Z := foldr (λ a n, Z.max (f a) n) 0 l.

(** The number of values it is made of, their nesting, and the bytes of their
    strings and keys; markers are not counted. *)
Fixpoint value_size (v : GithubValue) : Z :=
  match v with
  | VArray _ values => 1 + sum_by value_size values
  | VObject (MkObject _ entries _) => 1 + sum_by (λ '(_, v), value_size v) entries
  | VSensitive payload => value_size payload
  | _ => 1
  end.

Fixpoint value_height (v : GithubValue) : Z :=
  match v with
  | VArray _ values => 1 + max_by value_height values
  | VObject (MkObject _ entries _) => 1 + max_by (λ '(_, v), value_height v) entries
  | VSensitive payload => value_height payload
  | _ => 1
  end.

Fixpoint value_bytes (v : GithubValue) : Z :=
  match v with
  | VString s => str_len s
  | VArray _ values => sum_by value_bytes values
  | VObject (MkObject _ entries _) =>
      sum_by (λ '(k, _), str_len k) entries + sum_by (λ '(_, v), value_bytes v) entries
  | VSensitive payload => value_bytes payload
  | _ => 0
  end.

Definition within_limits (v : GithubValue) (limits : GithubExpressionLimits) : Prop :=
  value_size v <= collection_items limits ∧ value_height v <= value_depth limits ∧
  value_bytes v <= result_bytes limits.

Lemma sum_by_Forall {A : Type} (f : A → Z) (l : list A) : Forall (λ a, 0 <= f a) l → 0 <= sum_by f l.
Proof. unfold sum_by. induction 1; simpl; lia. Qed.

Lemma max_by_map {A B : Type} (f : B → Z) (g : A → B) (l : list A) :
  max_by f (map g l) = max_by (λ a, f (g a)) l.
Proof. unfold max_by. induction l; simpl; congruence. Qed.

Lemma max_by_le {A : Type} (f : A → Z) (l : list A) (n : Z) :
  0 <= n → max_by f l <= n ↔ ∀ a, a ∈ l → f a <= n.
Proof.
  intros Hn. unfold max_by. induction l as [|a l IH]; simpl.
  - split; [by intros _ a ?%elem_of_nil|lia].
  - setoid_rewrite elem_of_cons. split.
    + intros H b [->|Hb]; [lia|]. apply IH; [lia|done].
    + intros H. apply Z.max_lub; [auto|]. apply IH. auto.
Qed.

Lemma value_size_children (v : GithubValue) :
  value_size v = 1 + sum_by value_size (value_children v).
Proof.
  induction v as [| | | |arc l H|arc l m H|v IH] using value_ind'; simpl; try done.
  f_equal. unfold value_children. simpl. rewrite sum_by_map.
  unfold sum_by. clear. induction l as [|[k v] l IH]; simpl; congruence.
Qed.

Lemma value_height_children (v : GithubValue) :
  value_height v = 1 + max_by value_height (value_children v).
Proof.
  induction v as [| | | |arc l H|arc l m H|v IH] using value_ind'; simpl; try done.
  f_equal. unfold value_children. simpl. rewrite max_by_map.
  unfold max_by. clear. induction l as [|[k v] l IH]; simpl; congruence.
Qed.

Lemma value_bytes_children (v : GithubValue) :
  value_bytes v = value_text v + sum_by value_bytes (value_children v).
Proof.
  induction v as [| | |s|arc l H|arc l m H|v IH] using value_ind'; simpl; try done;
    unfold value_text, value_children; simpl; rewrite ?Z.add_0_r; try done.
  rewrite sum_by_map. f_equal; unfold sum_by; clear; induction l as [|[k v] l IH]; simpl; congruence.
Qed.

Lemma value_text_nonneg (v : GithubValue) : 0 <= value_text v.
Proof.
  unfold value_text. destruct (without_sensitivity v) as [| | |s| |[arc l m]|]; try lia.
  - apply str_len_nonneg.
  - simpl. induction l as [|[k v'] l IH]; simpl; [lia|]. pose proof (str_len_nonneg k). lia.
Qed.

Lemma value_measures_positive (v : GithubValue) : 1 <= value_size v ∧ 0 <= value_bytes v.
Proof.
  induction v as [| | |s|arc l H|arc l m H|v IH] using value_ind'; simpl; try lia.
  - pose proof (str_len_nonneg s). lia.
  - pose proof (sum_by_Forall value_size l). pose proof (sum_by_Forall value_bytes l).
    split; [|apply H1; apply (Forall_impl _ _ _ H); simpl; lia].
    enough (0 <= sum_by value_size l) by lia. apply H0. apply (Forall_impl _ _ _ H). simpl. lia.
  - unfold sum_by. induction H as [|[k v] l [Hv Hv'] _ IH]; simpl in *; [lia|].
    pose proof (str_len_nonneg k). lia.
Qed.

(** ** The worklist measures the value *)

Definition fits_depth (limits : GithubExpressionLimits) (p : GithubValue * Z) : Prop :=
  p.2 - 1 + value_height p.1 <= value_depth limits.

Lemma value_height_nonneg (v : GithubValue) : 1 <= value_height v.
Proof.
  rewrite value_height_children. unfold max_by. induction (value_children v); simpl; lia.
Qed.

(** What is above a value is in its height. *)
Lemma fits_depth_children (limits : GithubExpressionLimits) (v : GithubValue) (d : Z) :
  d <= value_depth limits →
  fits_depth limits (v, d) ↔
  Forall (fits_depth limits) (rev (map (λ child, (child, d + 1)) (value_children v))).
Proof.
  intros Hd. unfold fits_depth at 1. simpl. rewrite value_height_children.
  assert (∀ l, Forall (fits_depth limits) (rev (map (λ child, (child, d + 1)) l)) ↔
               ∀ c, c ∈ l → value_height c <= value_depth limits - d) as ->.
  { intros l. split.
    - intros H%Forall_rev. rewrite rev_involutive, Forall_map, Forall_forall in H.
      intros c Hc. specialize (H c Hc). unfold fits_depth in H. simpl in H. lia.
    - intros H. apply Forall_rev, Forall_map, Forall_forall. intros c Hc. simpl.
      specialize (H c Hc). unfold fits_depth. simpl. lia. }
  rewrite <- max_by_le by lia. lia.
Qed.

Definition stack_fits (limits : GithubExpressionLimits) (stack : list (GithubValue * Z))
    (aggregate items : Z) : Prop :=
  items + sum_by (λ p, value_size p.1) stack <= collection_items limits ∧
  aggregate + sum_by (λ p, value_bytes p.1) stack <= result_bytes limits ∧
  Forall (fits_depth limits) stack.

Lemma sum_children (f : GithubValue → Z) (v : GithubValue) (d : Z) (stack : list (GithubValue * Z)) :
  sum_by (λ p, f p.1) (rev (map (λ child, (child, d)) (value_children v)) ++ stack) =
  sum_by f (value_children v) + sum_by (λ p, f p.1) stack.
Proof. by rewrite sum_by_app, sum_by_rev, sum_by_map. Qed.

Lemma stack_fits_children (limits : GithubExpressionLimits) (v : GithubValue) (d : Z)
    (stack : list (GithubValue * Z)) (aggregate items : Z) :
  d <= value_depth limits →
  stack_fits limits ((v, d) :: stack) aggregate items ↔
  stack_fits limits (rev (map (λ child, (child, d + 1)) (value_children v)) ++ stack)
    (aggregate + value_text v) (items + 1).
Proof.
  intros Hd. unfold stack_fits. rewrite !sum_children, Forall_cons, Forall_app.
  rewrite (fits_depth_children limits v d Hd). simpl.
  rewrite (value_size_children v), (value_bytes_children v).
  split; intros (? & ? & ? & ?); split_and!; try done; lia.
Qed.

Lemma sizes_nonneg (stack : list (GithubValue * Z)) :
  0 <= sum_by (λ p, value_size p.1) stack ∧ 0 <= sum_by (λ p, value_bytes p.1) stack.
Proof.
  split; apply sum_by_Forall, Forall_forall; intros [v d] _; simpl;
    pose proof (value_measures_positive v); lia.
Qed.

Lemma enforce_loop_spec (fuel : nat) (limits : GithubExpressionLimits)
    (stack : list (GithubValue * Z)) (aggregate items : Z) :
  collection_items limits - items < Z.of_nat fuel → items <= collection_items limits →
  aggregate <= result_bytes limits →
  enforce_loop fuel limits stack aggregate items = Ok tt ↔ stack_fits limits stack aggregate items.
Proof.
  revert stack aggregate items. induction fuel as [|fuel IH]; intros stack aggregate items Hf Hi Ha.
  - lia.
  - destruct stack as [|[v d] stack].
    { unfold stack_fits. simpl. rewrite Forall_nil. intuition lia. }
    cbn [enforce_loop]. pose proof (sizes_nonneg stack) as [Hs Hb].
    pose proof (value_measures_positive v) as [Hvs Hvb]. pose proof (value_height_nonneg v).
    destruct (Z.ltb_spec (value_depth limits) d) as [Hd|Hd]; cbn [reject]; rewrite ?bind_Ok.
    { split; [done|]. intros (_ & _ & Hx%Forall_inv). unfold fits_depth in Hx. simpl in Hx. lia. }
    destruct (Z.ltb_spec (collection_items limits) (items + 1)) as [Hn|Hn];
      cbn [reject]; rewrite ?bind_Ok.
    { split; [done|]. intros (Hx & _). simpl in Hx. lia. }
    rewrite (stack_fits_children _ _ _ _ _ _ Hd).
    destruct (Z.ltb_spec (result_bytes limits) (aggregate + value_text v)) as [Ht|Ht];
      cbn [reject]; rewrite ?bind_Ok.
    { split; [done|]. intros (_ & Hx & _). rewrite sum_children in Hx.
      pose proof (sum_by_Forall value_bytes (value_children v)) as Hc.
      rewrite Forall_forall in Hc. unshelve epose proof (Hc _); [|lia].
      intros c _. apply value_measures_positive. }
    apply IH; lia.
Qed.

Lemma enforce_loop_errors (fuel : nat) (limits : GithubExpressionLimits)
    (stack : list (GithubValue * Z)) (aggregate items : Z) (e : GithubExpressionEvaluationErrorKind) :
  enforce_loop fuel limits stack aggregate items = Err e → e = ResourceLimit.
Proof.
  revert stack aggregate items.
  induction fuel as [|fuel IH]; intros [|[v d] stack] aggregate items; simpl; try congruence.
  intros H. repeat (apply bind_Err_inv in H as [H|([] & _ & H)];
    [by apply reject_Err in H as [_ ->]|cbv beta in H]). by eapply IH.
Qed.

Lemma enforce_value_limits_spec (v : GithubValue) (limits : GithubExpressionLimits) :
  0 <= collection_items limits → 0 <= result_bytes limits →
  enforce_value_limits v limits = Ok tt ↔ within_limits v limits.
Proof.
  intros Hi Hb. unfold enforce_value_limits. rewrite enforce_loop_spec by lia.
  unfold stack_fits, within_limits, fits_depth. rewrite Forall_singleton. simpl. intuition lia.
Qed.

Lemma enforce_value_limits_errors (v : GithubValue) (limits : GithubExpressionLimits)
    (e : GithubExpressionEvaluationErrorKind) :
  enforce_value_limits v limits = Err e → e = ResourceLimit.
Proof. apply enforce_loop_errors. Qed.

(** ** Objects look keys up ignoring case *)

Section ObjectLaws.
Context {T : CaseTable}.

Definition folded_keys (entries : list (str * GithubValue)) : list str :=
  map (λ e, ordinal_key e.1) entries.

(** The map built from the entries seen so far. *)
Definition lookup_of (visited : list (str * GithubValue)) (lookup : gmap str nat) : Prop :=
  NoDup (folded_keys visited) ∧
  Forall (λ e, str_len e.1 <= MAX_KEY_BYTES) visited ∧
  ∀ f i, lookup !! f = Some i ↔ folded_keys visited !! i = Some f.

Lemma lookup_of_fresh visited lookup f :
  lookup_of visited lookup → lookup !! f = None ↔ f ∉ folded_keys visited.
Proof.
  intros (_ & _ & H). split.
  - intros Hn [i Hi]%list_elem_of_lookup. apply H in Hi. congruence.
  - intros Hf. destruct (lookup !! f) as [i|] eqn:E; [|done]. apply H in E.
    destruct Hf. by eapply list_elem_of_lookup_2.
Qed.

Lemma lookup_of_snoc visited lookup k v :
  lookup_of visited lookup → str_len k <= MAX_KEY_BYTES → ordinal_key k ∉ folded_keys visited →
  lookup_of (visited ++ [(k, v)]) (<[ordinal_key k := length visited]> lookup).
Proof.
  intros H Hk Hf. pose proof (lookup_of_fresh _ _ (ordinal_key k) H) as Hfresh.
  destruct H as (Hnd & Hlen & H).
  assert (folded_keys (visited ++ [(k, v)]) = folded_keys visited ++ [ordinal_key k]) as Happ
    by (unfold folded_keys; by rewrite map_app).
  assert (length (folded_keys visited) = length visited) as Hl by apply length_map.
  split_and!.
  - rewrite Happ. apply NoDup_app. split_and!; [done| |apply NoDup_singleton].
    intros x Hx ->%list_elem_of_singleton. done.
  - apply Forall_app. by split; [|constructor].
  - intros f i. rewrite Happ, lookup_insert_Some, lookup_snoc_Some, Hl, H. split.
    + intros [[<- <-]|[Hne Hi]]; [auto|]. left. split; [|done].
      rewrite <- Hl. by eapply lookup_lt_Some.
    + intros [[Hlt Hi]|[-> <-]]; [|auto]. right. split; [|done]. intros <-.
      apply Hf. by eapply list_elem_of_lookup_2.
Qed.

Lemma object_new_loop rest visited lookup lookup' n :
  lookup_of visited lookup →
  try_fold object_new_step (lookup, length visited) rest = Ok (lookup', n) →
  lookup_of (visited ++ rest) lookup'.
Proof.
  revert visited lookup. induction rest as [|[k v] rest IH]; intros visited lookup Hv; simpl.
  - intros [= <- _]. by rewrite app_nil_r.
  - intros H. ok_inv. unfold github_value_key_byte_rejection in H1.
    destruct (Z.ltb_spec MAX_KEY_BYTES (str_len k)); [done|].
    rewrite cons_middle, app_assoc. eapply IH; [|].
    + apply lookup_of_snoc; [done|lia|]. apply (lookup_of_fresh visited lookup _ Hv).
      by destruct (lookup !! ordinal_key k).
    + rewrite length_app. simpl. by rewrite Nat.add_1_r.
Qed.

Lemma object_new_loop_total rest visited lookup :
  lookup_of visited lookup → NoDup (folded_keys (visited ++ rest)) →
  Forall (λ e, str_len e.1 <= MAX_KEY_BYTES) rest →
  ∃ s, try_fold object_new_step (lookup, length visited) rest = Ok s.
Proof.
  revert visited lookup. induction rest as [|[k v] rest IH]; intros visited lookup Hv Hnd Hk.
  - by eexists.
  - apply Forall_cons in Hk as [Hk Hr]. simpl in Hk. cbn [try_fold object_new_step].
    unfold github_value_key_byte_rejection.
    destruct (Z.ltb_spec MAX_KEY_BYTES (str_len k)); [lia|]. cbn [is_some reject]. rewrite bind_Ok.
    assert (ordinal_key k ∉ folded_keys visited) as Hf.
    { unfold folded_keys in *. rewrite map_app in Hnd. apply NoDup_app in Hnd as (_ & Hd & _).
      intros Hin. apply (Hd _ Hin). left. }
    rewrite (proj2 (lookup_of_fresh _ _ _ Hv) Hf). cbn [is_some reject]. rewrite !bind_Ok.
    pose proof (lookup_of_snoc _ _ k v Hv Hk Hf) as Hv'.
    rewrite <- (Nat.add_1_r (length visited)).
    replace (length visited + 1)%nat with (length (visited ++ [(k, v)])) by by rewrite length_app.
    apply (IH _ _ Hv'); [by rewrite <- app_assoc|done].
Qed.

(** What an object constructed by [object_new] satisfies. *)
Definition object_valid (o : GithubObject) : Prop :=
  Z.of_nat (length (object_entries o)) <= MAX_CONSTRUCTION_ITEMS ∧
  lookup_of (object_entries o) (object_lookup o).

Lemma object_new_valid arc entries o :
  object_new arc entries = Ok o → object_valid o ∧ object_entries o = entries.
Proof.
  unfold object_new. intros H. ok_inv. split; [|done]. split; simpl.
  - unfold github_value_construction_item_rejection in H0.
    destruct (Z.ltb_spec MAX_CONSTRUCTION_ITEMS (Z.of_nat (length entries))); [done|lia].
  - by apply (object_new_loop entries [] ∅) in H1; [|split_and!; [constructor|constructor|done]].
Qed.

Lemma object_get_valid (o : GithubObject) (key : str) (v : GithubValue) :
  object_valid o →
  object_get o key = Some v ↔ ∃ k, (k, v) ∈ object_entries o ∧ ordinal_key k = ordinal_key key.
Proof.
  intros (_ & Hnd & _ & H). unfold object_get. split.
  - intros (i & Hi & Hv)%bind_Some. apply fmap_Some in Hv as ([k v'] & Hv & ->).
    exists k. simpl. split; [by eapply list_elem_of_lookup_2|].
    apply H in Hi. unfold folded_keys in Hi. rewrite list_lookup_fmap, Hv in Hi.
    by injection Hi.
  - intros (k & Hk & Hf). apply list_elem_of_lookup in Hk as [i Hi].
    assert (object_lookup o !! ordinal_key key = Some i) as ->.
    { apply H. unfold folded_keys. rewrite list_lookup_fmap, Hi. simpl. by rewrite Hf. }
    simpl. by rewrite Hi.
Qed.
End ObjectLaws.

(** ** Low equivalence

    Two values that may differ only inside the payloads of their markers. *)

Inductive low : GithubValue → GithubValue → Prop :=
| low_null : low VNull VNull
| low_boolean b : low (VBoolean b) (VBoolean b)
| low_number b : low (VNumber b) (VNumber b)
| low_string s : low (VString s) (VString s)
| low_array arc l k : Forall2 low l k → low (VArray arc l) (VArray arc k)
| low_object arc l k m :
    Forall2 (λ e f, e.1 = f.1 ∧ low e.2 f.2) l k →
    low (VObject (MkObject arc l m)) (VObject (MkObject arc k m))
| low_sensitive v w : low (VSensitive v) (VSensitive w).

Lemma low_refl (v : GithubValue) : low v v.
Proof.
  induction v as [| | | |arc l H|arc l m H|v IH] using value_ind'; constructor.
  - induction H; by constructor.
  - induction H; by constructor.
Qed.

(** Two views of one value that shows nothing of its markers. *)
Lemma low_public (v w : GithubValue) :
  low v w → is_sensitive v = is_sensitive w ∧ (is_sensitive v = false → v = w).
Proof.
  revert w. induction v as [| | | |arc l H|arc l m H|v IH] using value_ind';
    intros w Hw; inversion Hw as [| | | |? ? k Hk|? ? k ? Hk|]; subst; clear Hw; simpl; try done.
  - assert (existsb is_sensitive l = existsb is_sensitive k ∧
            (existsb is_sensitive l = false → l = k)) as [He Hl]; [|split; [done|]].
    { revert k Hk. induction H as [|v l Hv _ IH]; intros k Hk;
        inversion Hk as [|? w ? k' Hvw Hk']; subst; [done|]. simpl.
      destruct (Hv _ Hvw) as [He Heq], (IH _ Hk') as [He' Heq']. rewrite He, He'.
      split; [done|]. intros Ho%orb_false_iff. rewrite <- He, <- He' in Ho.
      destruct Ho as [H1 H2]. by rewrite (Heq H1), (Heq' H2). }
    intros Hs. by rewrite (Hl Hs).
  - set (f := λ '((_, value) : str * GithubValue), is_sensitive value).
    assert (existsb f l = existsb f k ∧ (existsb f l = false → l = k)) as [He Hl]; [|split; [done|]].
    { revert k Hk. induction H as [|[i v] l Hv _ IH]; intros k Hk;
        inversion Hk as [|? [j w] ? k' [Hij Hvw] Hk']; subst; [done|]. simpl in *. subst.
      destruct (Hv _ Hvw) as [He Heq], (IH _ Hk') as [He' Heq']. rewrite He, He'.
      split; [done|]. intros Ho%orb_false_iff. rewrite <- He, <- He' in Ho.
      destruct Ho as [H1 H2]. by rewrite (Heq H1), (Heq' H2). }
    intros Hs. by rewrite (Hl Hs).
Qed.

Lemma low_list (l k : list GithubValue) :
  Forall2 low l k →
  existsb is_sensitive l = existsb is_sensitive k ∧ (existsb is_sensitive l = false → l = k).
Proof.
  induction 1 as [|v w l k Hv _ [He Heq]]; simpl; [done|].
  destruct (low_public v w Hv) as [Hs Hsq]. rewrite Hs, He. split; [done|].
  intros Ho%orb_false_iff. rewrite <- Hs, <- He in Ho. destruct Ho as [H1 H2].
  by rewrite (Hsq H1), (Heq H2).
Qed.

Lemma low_mark (v w : GithubValue) : low (mark_sensitive v) (mark_sensitive w).
Proof. destruct v, w; constructor. Qed.

Lemma low_inherit (v w : GithubValue) (b : bool) :
  (b = false → low v w) → low (inherit_sensitivity v b) (inherit_sensitivity w b).
Proof. destruct b; simpl; [intros _; apply low_mark|auto]. Qed.

Lemma is_sensitive_inherit (v : GithubValue) (b : bool) :
  is_sensitive (inherit_sensitivity v b) = b || is_sensitive v.
Proof. destruct b; [|done]. by destruct v. Qed.

(** ** Loose comparison *)

Section Comparison.
Context {T : CaseTable}.

Lemma ordinal_ignore_case_sym (l r : str) : ordinal_ignore_case l r = ordinal_ignore_case r l.
Proof.
  unfold ordinal_ignore_case, eq_ignore_ascii_case, str_eqb.
  repeat case_bool_decide; simpl; congruence.
Qed.

Lemma numerically_equal_sym (l r : GithubValue) : numerically_equal l r = numerically_equal r l.
Proof. apply f64_eqb_sym. Qed.

Lemma abstract_equal_sym (l r : GithubValue) : abstract_equal l r = abstract_equal r l.
Proof.
  unfold abstract_equal. destruct (without_sensitivity l), (without_sensitivity r);
    auto using f64_eqb_sym, ordinal_ignore_case_sym, numerically_equal_sym.
  - apply eq_true_iff_eq. rewrite !eqb_true_iff. intuition.
  - by repeat case_bool_decide; subst.
  - repeat case_bool_decide; congruence.
Qed.

Lemma ordinal_compare_sym (l r : str) : ordinal_compare r l = CompOpp (ordinal_compare l r).
Proof. unfold ordinal_compare. change (cmp_list (A := Z)) with (cmp (A := list Z)). apply cmp_opp. Qed.

Lemma abstract_compare_sym (l r : GithubValue) :
  abstract_compare r l = CompOpp <$> abstract_compare l r.
Proof.
  unfold abstract_compare. destruct (without_sensitivity l), (without_sensitivity r);
    try apply partial_cmp_sym; try done.
  - by repeat match goal with b : bool |- _ => destruct b end.
  - simpl. by rewrite ordinal_compare_sym.
Qed.

Context `{!CaseTableLaws T}.

Lemma fold_ascii (c d : Z) :
  to_ascii_lowercase c = to_ascii_lowercase d → ordinal_fold_character c = ordinal_fold_character d.
Proof.
  destruct (decide (c = d)) as [->|Hne]; [done|]. intros H.
  assert (is_ascii c = true ∧ is_ascii d = true) as [Hc Hd].
  { revert H. unfold to_ascii_lowercase, is_ascii_uppercase, is_ascii, in_range.
    destruct (65 <=? c) eqn:?, (c <=? 90) eqn:?, (65 <=? d) eqn:?, (d <=? 90) eqn:?; simpl; lia. }
  unfold ordinal_fold_character. unfold is_ascii in Hc, Hd.
  replace ((c =? 305) || (c =? 383)) with false by lia.
  replace ((d =? 305) || (d =? 383)) with false by lia.
  rewrite !to_uppercase_ascii by done. revert H Hne.
  unfold to_ascii_lowercase, to_ascii_uppercase, is_ascii_uppercase, is_ascii_lowercase, in_range.
  destruct (65 <=? c) eqn:?, (c <=? 90) eqn:?, (65 <=? d) eqn:?, (d <=? 90) eqn:?,
    (97 <=? c) eqn:?, (c <=? 122) eqn:?, (97 <=? d) eqn:?, (d <=? 122) eqn:?; simpl; lia.
Qed.

Lemma ordinal_ignore_case_key (l r : str) :
  ordinal_ignore_case l r = true ↔ ordinal_key l = ordinal_key r.
Proof.
  unfold ordinal_ignore_case, eq_ignore_ascii_case, str_eqb. split.
  - intros [H|H]%orb_true_iff; apply bool_decide_eq_true in H; [|done].
    revert r H. induction l as [|c l IH]; intros [|d r]; simpl; try done.
    intros [= H Hl]. unfold ordinal_key. simpl. f_equal; [by apply fold_ascii|by apply IH].
  - intros ->. apply orb_true_iff. right. by apply bool_decide_eq_true.
Qed.

(** Equal values are not ordered. *)
Lemma equal_not_ordered (l r : GithubValue) :
  abstract_equal l r = true → abstract_compare l r = Some Eq ∨ abstract_compare l r = None.
Proof.
  assert (∀ x y, f64_eqb x y = true → partial_cmp x y = Some Eq) as Hf.
  { intros x y. unfold f64_eqb, SFeqb, partial_cmp. by destruct (SFcompare x y) as [[]|]. }
  unfold abstract_equal, abstract_compare, numerically_equal.
  destruct (without_sensitivity l), (without_sensitivity r); auto.
  - intros ->%eqb_true_iff. left. by destruct value0.
  - rewrite ordinal_ignore_case_key. unfold ordinal_compare. intros ->. left. f_equal.
    change (cmp_list (A := Z)) with (cmp (A := list Z)). apply cmp_refl.
Qed.
End Comparison.
