(* ===== verification/ExpressionFunctions.v ===== *)
(** * ExpressionFunctions: the functions of the expression language

    Models [crates/automata-ci-expression-actions/src/functions.rs]:
    [contains], [startsWith], [endsWith], [join], [format], [fromJSON] and
    [toJSON] on evaluated values. Text is written through bounded appends; a
    JSON document is read through a budget on its values and their nesting. *)

From S2P Require Import Prelude Text Utf8 Float64 ExpressionValue.

(** ** The JSON library

    [serde_json] drives the visitor of [from_json]. What it visits for a text
    is a tree of the visitor's calls, cut where it meets an error: a sequence
    or map carries whether it was read to its end, and [DFail] stands for an
    error before a value. [json_document] also says whether [end] finds
    nothing but whitespace behind the value. [json_string] is the text
    [to_writer] writes for a string. *)
Inductive document :=
| DNull
| DBool (value : bool)
| DI64 (value : Z)
| DU64 (value : Z)
| DF64 (value : f64)
| DStr (value : str)
| DSeq (elements : list document) (complete : bool)
| DMap (entries : list (str * document)) (complete : bool)
| DFail.

Class SerdeJson := {
  json_document : str → document * bool;
  json_string : str → str
}.

(** The visitor threads the values counted and the allocations made; an error
    is whether the budget was spent. *)
Abbreviation visit := (result bool) (only parsing).

Section Functions.
Context {T : CaseTable}.

(** ** Predicates on text *)

Definition str_contains_str (s pattern : str) : bool := is_some (split_once_str pattern s).

Definition contains_value (arguments : list GithubValue) : eresult GithubValue :=
  match arguments with
  | [a0; a1] =>
      let found :=
        match without_sensitivity a0 with
        | VArray _ values => existsb (λ value, abstract_equal a1 value) values
        | value =>
            if is_primitive value && is_primitive a1 then
              str_contains_str (ordinal_key (to_string value)) (ordinal_key (to_string a1))
            else false
        end in
      Ok (inherit_sensitivity (VBoolean found) (existsb is_sensitive arguments))
  | _ => Err InvalidOperation
  end.

Definition string_predicate (arguments : list GithubValue) (predicate : str → str → bool) :
    eresult GithubValue :=
  match arguments with
  | [a0; a1] =>
      let value :=
        if is_primitive a0 && is_primitive a1 then
          predicate (ordinal_key (to_string a0)) (ordinal_key (to_string a1))
        else false in
      Ok (inherit_sensitivity (VBoolean value) (existsb is_sensitive arguments))
  | _ => Err InvalidOperation
  end.

Definition starts_with_value (arguments : list GithubValue) : eresult GithubValue :=
  string_predicate arguments (λ l r, is_some (strip_prefix r l)).
Definition ends_with_value (arguments : list GithubValue) : eresult GithubValue :=
  string_predicate arguments (λ l r, is_some (strip_suffix r l)).

(** ** Bounded text *)

Definition append_bounded (output value : str) (maximum_bytes : Z) : eresult str :=
  _ ← reject (maximum_bytes <? str_len output + str_len value) ResourceLimit;
  Ok (output ++ value).

(** The elements after the first are preceded by the separator. *)
Fixpoint join_loop (separator : str) (maximum_bytes : Z) (index : nat)
    (values : list GithubValue) (result_ : str) : eresult str :=
  match values with
  | [] => Ok result_
  | value :: values =>
      result_ ← (if Nat.ltb 0 index then append_bounded result_ separator maximum_bytes
                 else Ok result_);
      result_ ← append_bounded result_ (to_string value) maximum_bytes;
      join_loop separator maximum_bytes (S index) values result_
  end.

Definition join_values (arguments : list GithubValue) (maximum_bytes : Z) : eresult GithubValue :=
  match arguments with
  | [] | _ :: _ :: _ :: _ => Err InvalidOperation
  | a0 :: rest =>
      result_ ←
        match without_sensitivity a0 with
        | VArray _ values =>
            let separator :=
              match rest with
              | a1 :: _ => if is_primitive a1 then to_string a1 else lit ","
              | [] => lit ","
              end in
            join_loop separator maximum_bytes 0 values []
        | value =>
            if is_primitive value then
              _ ← reject (maximum_bytes <? str_len (to_string value)) ResourceLimit;
              Ok (to_string value)
            else Ok []
        end;
      Ok (inherit_sensitivity (VString result_) (existsb is_sensitive arguments))
  end.

(** ** Templates *)

(** What [format_template] carries round its loop: the output, the arguments
    evaluated so far with their sensitivity, and the marker of the result. *)
Record FormatState := MkFormat {
  format_output : str;
  format_arguments : list (option (str * bool));
  format_sensitive : bool
}.

Definition format_emit (value : str) (maximum_bytes : Z) (state : FormatState) :
    eresult FormatState :=
  output ← append_bounded (format_output state) value maximum_bytes;
  Ok (MkFormat output (format_arguments state) (format_sensitive state)).

(** A placeholder: its digits, with an optional colon behind them. *)
Definition placeholder_index (placeholder : str) (argument_count : nat) : eresult nat :=
  let placeholder := default placeholder (strip_suffix [58] placeholder) in
  _ ← reject (str_is_empty placeholder || str_contains placeholder 58) InvalidOperation;
  index ← ok_or (parse_uint u8_max placeholder) InvalidOperation;
  let index := Z.to_nat index in
  _ ← reject (Nat.leb argument_count index) InvalidOperation;
  Ok index.

Definition format_argument (argument : nat → eresult GithubValue) (maximum_bytes : Z)
    (index : nat) (state : FormatState) : eresult FormatState :=
  cached ← match default None (format_arguments state !! index) with
           | Some cached => Ok cached
           | None => value ← argument index; Ok (to_string value, is_sensitive value)
           end;
  let '(value, value_sensitive) := (cached : str * bool) in
  format_emit value maximum_bytes
    (MkFormat (format_output state) (<[index := Some (value, value_sensitive)]> (format_arguments state))
       (format_sensitive state || value_sensitive)).

(** The loop over the template; what is left of it stands for the cursor. Each
    pass takes at least one character, so its length is enough fuel. *)
Fixpoint format_loop (fuel : nat) (argument_count : nat) (maximum_bytes : Z)
    (argument : nat → eresult GithubValue) (template : str) (state : FormatState) :
    eresult FormatState :=
  match template, fuel with
  | [], _ => Ok state
  | _, O => Err Internal
  | c :: rest, S fuel =>
      let continue rest state := format_loop fuel argument_count maximum_bytes argument rest state in
      let doubled := match rest with d :: _ => d =? c | [] => false end in
      if (c =? 123) && doubled then
        state ← format_emit [123] maximum_bytes state; continue (tail rest) state
      else if (c =? 125) && doubled then
        state ← format_emit [125] maximum_bytes state; continue (tail rest) state
      else if c =? 123 then
        '(placeholder, rest) ← ok_or (split_once 125 rest) InvalidOperation;
        index ← placeholder_index placeholder argument_count;
        state ← format_argument argument maximum_bytes index state;
        continue rest state
      else if c =? 125 then Err InvalidOperation
      else state ← format_emit [c] maximum_bytes state; continue rest state
  end.

Definition format_template (template : str) (template_sensitive : bool) (argument_count : nat)
    (maximum_bytes : Z) (argument : nat → eresult GithubValue) : eresult GithubValue :=
  state ← format_loop (length template) argument_count maximum_bytes argument template
            (MkFormat [] (replicate argument_count None) template_sensitive);
  Ok (inherit_sensitivity (VString (format_output state)) (format_sensitive state)).

(** ** Reading JSON *)

(** [JsonBudget::observe]: [None] sets the flag that tells a spent budget from
    a malformed document. *)
Definition observe (limits : GithubExpressionLimits) (depth items : Z) : option Z :=
  if (collection_items limits <? items + 1) || (value_depth limits <=? depth) then None
  else Some (items + 1).

Definition visit_integer (value : Z) : visit GithubValue :=
  match parse_f64 (show_int value) with
  | Some x => Ok (value_number x)
  | None => Err false
  end.

(** [while let Some(x) = access.next(..)?]: visits the items in order, and
    fails where the document breaks off. *)
Section Visit.
Context {A B : Type} (item : A → Z * nat → visit (B * (Z * nat))) (complete : bool).

Fixpoint visit_items (l : list A) (state : Z * nat) : visit (list B * (Z * nat)) :=
  match l with
  | [] => if complete then Ok ([], state) else Err false
  | a :: l =>
      '(value, state) ← item a state;
      '(values, state) ← visit_items l state;
      Ok (value :: values, state)
  end.
End Visit.

(** The visitor's methods; [visit_unit] and [visit_none] both give null. *)
Fixpoint json_visit (site : nat) (limits : GithubExpressionLimits) (depth : Z) (d : document)
    (state : Z * nat) : visit (GithubValue * (Z * nat)) :=
  let '(items, arcs) := state in
  items ← ok_or (observe limits depth items) true;
  match d with
  | DNull => Ok (VNull, (items, arcs))
  | DBool value => Ok (VBoolean value, (items, arcs))
  | DI64 value | DU64 value => v ← visit_integer value; Ok (v, (items, arcs))
  | DF64 value => Ok (value_number value, (items, arcs))
  | DStr value => Ok (VString value, (items, arcs))
  | DSeq elements complete =>
      '(values, (items, arcs)) ←
        visit_items (λ d state, json_visit site limits (depth + 1) d state) complete elements
          (items, arcs);
      v ← map_err (λ _, false) (value_array (Made site arcs) values);
      Ok (v, (items, S arcs))
  | DMap entries complete =>
      '(values, (items, arcs)) ←
        visit_items (λ '(key, d) state,
                       '(value, state) ← json_visit site limits (depth + 1) d state;
                       Ok ((key, value), state)) complete entries (items, arcs);
      o ← map_err (λ _, false) (object_new (Made site arcs) values);
      Ok (VObject o, (items, S arcs))
  | DFail => Err false
  end.

Context {J : SerdeJson}.

Definition from_json (site : nat) (arguments : list GithubValue)
    (limits : GithubExpressionLimits) : eresult GithubValue :=
  match arguments with
  | [a0] =>
      let sensitive := is_sensitive a0 in
      let '(d, ended) := json_document (to_string a0) in
      '(value, _) ← map_err (λ exhausted : bool, if exhausted then ResourceLimit else InvalidOperation)
                      (json_visit site limits 0 d (0, O));
      _ ← reject (negb ended) InvalidOperation;
      Ok (inherit_sensitivity value sensitive)
  | _ => Err InvalidOperation
  end.

(** ** Writing JSON

    The writer holds valid UTF-8 only, so its bytes are kept as the text they
    encode. *)

Definition json_append (maximum_bytes : Z) (value output : str) : eresult str :=
  append_bounded output value maximum_bytes.

Fixpoint append_spaces (n : nat) (maximum_bytes : Z) (output : str) : eresult str :=
  match n with
  | O => Ok output
  | S n => output ← json_append maximum_bytes [32] output; append_spaces n maximum_bytes output
  end.
Definition write_indent (maximum_bytes : Z) (depth : Z) (output : str) : eresult str :=
  append_spaces (Z.to_nat (depth * 2)) maximum_bytes output.

(** The items of a collection, each on a line of its own, separated by commas. *)
Section WriteItems.
Context {A : Type} (item : A → str → eresult str) (maximum_bytes depth : Z).

Fixpoint write_items (index : nat) (l : list A) (output : str) : eresult str :=
  match l with
  | [] => Ok output
  | a :: l =>
      output ← (if Nat.ltb 0 index then json_append maximum_bytes (lit ",") output
                else Ok output);
      output ← json_append maximum_bytes [10] output;
      output ← write_indent maximum_bytes (depth + 1) output;
      output ← item a output;
      write_items (S index) l output
  end.

(** A collection between its brackets; an empty one stays on its line. *)
Definition write_collection (opening closing : str) (l : list A) (output : str) : eresult str :=
  match l with
  | [] => json_append maximum_bytes (opening ++ closing) output
  | _ =>
      output ← json_append maximum_bytes opening output;
      output ← write_items 0 l output;
      output ← json_append maximum_bytes [10] output;
      output ← write_indent maximum_bytes depth output;
      json_append maximum_bytes closing output
  end.
End WriteItems.

Fixpoint write_json (value : GithubValue) (depth : Z) (limits : GithubExpressionLimits)
    (output : str) : eresult str :=
  let append s output := json_append (result_bytes limits) s output in
  _ ← reject (value_depth limits <=? depth) ResourceLimit;
  match value with
  | VNull => append (lit "null") output
  | VBoolean value => append (if value then lit "true" else lit "false") output
  | VNumber bits => append (to_string (VNumber bits)) output
  | VString value => append (json_string value) output
  | VArray _ values =>
      write_collection (λ item output, write_json item (depth + 1) limits output)
        (result_bytes limits) depth (lit "[") (lit "]") values output
  | VObject (MkObject _ entries _) =>
      write_collection (λ '(key, item) output,
                          output ← append (json_string key) output;
                          output ← append (lit ": ") output;
                          write_json item (depth + 1) limits output)
        (result_bytes limits) depth (lit "{") (lit "}") entries output
  | VSensitive payload => write_json payload depth limits output
  end.

Definition to_json (arguments : list GithubValue) (limits : GithubExpressionLimits) :
    eresult GithubValue :=
  match arguments with
  | [a0] =>
      _ ← reject (is_sensitive a0) InvalidOperation;
      output ← write_json a0 0 limits [];
      Ok (VString output)
  | _ => Err InvalidOperation
  end.

End Functions.

(** ** What is read is public and within the budget *)

Section DocumentInd.
Variable P : document → Prop.
Hypothesis Hleaf : ∀ d, match d with DSeq _ _ | DMap _ _ => False | _ => True end → P d.
Hypothesis Hseq : ∀ l c, Forall P l → P (DSeq l c).
Hypothesis Hmap : ∀ l c, Forall (λ e, P e.2) l → P (DMap l c).

Fixpoint document_ind' (d : document) : P d :=
  match d with
  | DSeq l c =>
      Hseq l c ((fix go (l : list document) : Forall P l :=
                   match l with
                   | [] => Forall_nil_2 P
                   | d :: l => Forall_cons_2 P d l (document_ind' d) (go l)
                   end) l)
  | DMap l c =>
      Hmap l c ((fix go (l : list (str * document)) : Forall (λ e, P e.2) l :=
                   match l with
                   | [] => Forall_nil_2 _
                   | e :: l => Forall_cons_2 _ e l (document_ind' e.2) (go l)
                   end) l)
  | d => Hleaf d I
  end.
End DocumentInd.

Section ReadLaws.
Context {T : CaseTable}.

(** A value read at [depth] counts its values and stays in the limits. *)
Definition read_ok (limits : GithubExpressionLimits) (depth items items' : Z) (v : GithubValue) : Prop :=
  is_sensitive v = false ∧ items' = items + value_size v ∧
  items' <= collection_items limits ∧ depth + value_height v <= value_depth limits.

Lemma visit_items_ok {A B : Type} (item : A → Z * nat → visit (B * (Z * nat)))
    (complete : bool) (value : B → GithubValue) limits depth l items arcs vs items' arcs' :
  Forall (λ a, ∀ items arcs b items' arcs', item a (items, arcs) = Ok (b, (items', arcs')) →
            read_ok limits depth items items' (value b)) l →
  visit_items item complete l (items, arcs) = Ok (vs, (items', arcs')) →
  items <= collection_items limits →
  existsb is_sensitive (map value vs) = false ∧ items' = items + sum_by value_size (map value vs) ∧
  items' <= collection_items limits ∧
  (∀ v, v ∈ map value vs → depth + value_height v <= value_depth limits).
Proof.
  intros H. revert items arcs vs. induction H as [|a l Ha _ IH]; intros items arcs vs; cbn [visit_items].
  - destruct complete; [|done]. intros [= <- <- <-] Hi. simpl.
    split_and!; [done|lia|lia|]. by intros v ?%elem_of_nil.
  - intros Hv Hi. apply bind_Ok_inv in Hv as ([b [i1 a1]] & Hb & Hv).
    apply bind_Ok_inv in Hv as ([bs [i2 a2]] & Hbs & Hv). apply Ok_inj in Hv. simplify_eq.
    destruct (Ha _ _ _ _ _ Hb) as (Hs & -> & Hm & Hd).
    destruct (IH _ _ _ Hbs Hm) as (Hs' & -> & Hm' & Hd'). simpl. rewrite Hs, Hs'.
    split_and!; [done|lia|lia|]. intros v [->|Hv]%elem_of_cons; auto.
Qed.

Lemma observe_Some limits depth items items' :
  observe limits depth items = Some items' →
  items' = items + 1 ∧ items' <= collection_items limits ∧ depth + 1 <= value_depth limits.
Proof.
  unfold observe. destruct (Z.ltb_spec (collection_items limits) (items + 1)); simpl; [done|].
  destruct (Z.leb_spec (value_depth limits) depth); [done|]. intros [= <-]. lia.
Qed.

Lemma collection_height limits depth l :
  depth + 1 <= value_depth limits →
  (∀ v, v ∈ l → depth + 1 + value_height v <= value_depth limits) →
  depth + (1 + max_by value_height l) <= value_depth limits.
Proof.
  intros Hd H. enough (max_by value_height l <= value_depth limits - depth - 1) by lia.
  apply max_by_le; [lia|]. intros v Hv. specialize (H v Hv). lia.
Qed.

Lemma json_visit_ok site limits depth d items arcs v items' arcs' :
  json_visit site limits depth d (items, arcs) = Ok (v, (items', arcs')) →
  read_ok limits depth items items' v.
Proof.
  revert depth items arcs v items' arcs'.
  induction d as [d Hd|l c H|l c H] using document_ind'; intros depth items arcs v items' arcs' Hv.
  - unfold read_ok. destruct d; try done; cbn [json_visit] in Hv; ok_inv;
      match goal with Ho : observe _ _ _ = Some _ |- _ => apply observe_Some in Ho end;
      try (unfold visit_integer in *; destruct (parse_f64 _); ok_inv); simpl; intuition lia.
  - cbn [json_visit] in Hv. apply bind_Ok_inv in Hv as (i0 & Ho & Hv).
    apply ok_or_Ok, observe_Some in Ho as (-> & Hm & Hd).
    apply bind_Ok_inv in Hv as ([vs [i1 a1]] & Hs & Hv). apply bind_Ok_inv in Hv as (w & Hw & Hv).
    apply Ok_inj in Hv. simplify_eq.
    unfold value_array in Hw. destruct (reject _ _); simplify_eq/=.
    apply (visit_items_ok _ _ id limits (depth + 1)) in Hs; [| |done].
    + rewrite map_id in Hs. destruct Hs as (Hs & -> & Hm' & Hh). unfold read_ok. simpl.
      split_and!; [done|lia|done|]. by apply collection_height.
    + eapply Forall_impl; [exact H|]. intros x Hx i0 a0 b i2 a2 Hb. by eapply Hx.
  - cbn [json_visit] in Hv. apply bind_Ok_inv in Hv as (i0 & Ho & Hv).
    apply ok_or_Ok, observe_Some in Ho as (-> & Hm & Hd).
    apply bind_Ok_inv in Hv as ([vs [i1 a1]] & Hs & Hv). apply bind_Ok_inv in Hv as (w & Hw & Hv).
    apply Ok_inj in Hv. simplify_eq.
    destruct (object_new (Made site a1) vs) as [o|] eqn:Eo; simplify_eq/=.
    apply object_new_valid in Eo as [_ Eo].
    apply (visit_items_ok _ _ snd limits (depth + 1)) in Hs; [| |done].
    + destruct w as [arc es m]. simpl in Eo. subst es. destruct Hs as (Hs & -> & Hm' & Hh).
      rewrite sum_by_map in *. unfold read_ok. simpl.
      assert (existsb (λ '(_, value), is_sensitive value) vs = existsb is_sensitive (map snd vs)) as ->
        by (clear; induction vs as [|[k v] vs IH]; simpl; congruence).
      assert (sum_by (λ '(_, v), value_size v) vs = sum_by (λ a, value_size a.2) vs) as ->
        by (unfold sum_by; clear; induction vs as [|[k v] vs IH]; simpl; congruence).
      assert (max_by (λ '(_, v), value_height v) vs = max_by value_height (map snd vs)) as ->
        by (rewrite max_by_map; unfold max_by; clear; induction vs as [|[k v] vs IH]; simpl; congruence).
      split_and!; [done|lia|done|]. by apply collection_height.
    + eapply Forall_impl; [exact H|]. intros [k x] Hx i0 a0 b i2 a2 Hb.
      apply bind_Ok_inv in Hb as ([y [i3 a3]] & Hy & Hb). apply Ok_inj in Hb. simplify_eq.
      by eapply Hx.
Qed.
End ReadLaws.

(** ** What is written is the pretty-printed value *)

Definition indent_text (depth : Z) : str := replicate (Z.to_nat (depth * 2)) 32.

Section ItemsText.
Context {A : Type} (item : A → str) (depth : Z).

Fixpoint items_text (index : nat) (l : list A) : str :=
  match l with
  | [] => []
  | a :: l =>
      (if Nat.ltb 0 index then lit "," else []) ++ [10] ++ indent_text (depth + 1) ++ item a ++
      items_text (S index) l
  end.

Definition collection_text (opening closing : str) (l : list A) : str :=
  match l with
  | [] => opening ++ closing
  | _ => opening ++ items_text 0 l ++ [10] ++ indent_text depth ++ closing
  end.
End ItemsText.

Section WriteLaws.
Context {T : CaseTable} {J : SerdeJson}.

(** A value on several lines, each level two spaces further in. *)
Fixpoint json_text (value : GithubValue) (depth : Z) : str :=
  match value with
  | VNull => lit "null"
  | VBoolean value => if value then lit "true" else lit "false"
  | VNumber bits => to_string (VNumber bits)
  | VString value => json_string value
  | VArray _ values =>
      collection_text (λ item, json_text item (depth + 1)) depth (lit "[") (lit "]") values
  | VObject (MkObject _ entries _) =>
      collection_text (λ '(key, item), json_string key ++ lit ": " ++ json_text item (depth + 1))
        depth (lit "{") (lit "}") entries
  | VSensitive payload => json_text payload depth
  end.

(** [w] appends [text] when [ok] holds and it fits, and refuses otherwise. *)
Definition writes (maximum : Z) (w : str → eresult str) (ok : bool) (text : str) : Prop :=
  ∀ output, str_len output <= maximum →
    w output = if ok && (str_len output + str_len text <=? maximum)
               then Ok (output ++ text) else Err ResourceLimit.

Lemma writes_append maximum text :
  writes maximum (λ output, json_append maximum text output) true text.
Proof.
  intros output H. unfold json_append, append_bounded. simpl.
  destruct (Z.ltb_spec maximum (str_len output + str_len text)),
    (Z.leb_spec (str_len output + str_len text) maximum); try lia; done.
Qed.

Lemma writes_bind maximum w1 w2 ok1 ok2 t1 t2 :
  writes maximum w1 ok1 t1 → writes maximum w2 ok2 t2 →
  writes maximum (λ output, output ← w1 output; w2 output) (ok1 && ok2) (t1 ++ t2).
Proof.
  intros H1 H2 output H. rewrite (H1 output H). rewrite str_len_app.
  pose proof (str_len_nonneg t1). pose proof (str_len_nonneg t2).
  destruct ok1; simpl; [|done].
  destruct (Z.leb_spec (str_len output + str_len t1) maximum) as [Hle|Hgt].
  - rewrite bind_Ok, H2 by (rewrite str_len_app; lia). rewrite str_len_app, app_assoc.
    by rewrite Z.add_assoc.
  - replace (str_len output + (str_len t1 + str_len t2) <=? maximum) with false by lia.
    by rewrite andb_false_r.
Qed.

Lemma writes_nothing maximum : writes maximum (λ output, Ok output) true [].
Proof.
  intros output H. simpl. replace (str_len output + 0 <=? maximum) with true by lia.
  by rewrite app_nil_r.
Qed.

Lemma writes_text maximum w ok t t' : t = t' → writes maximum w ok t → writes maximum w ok t'.
Proof. by intros ->. Qed.

Lemma writes_ok maximum w ok ok' t : ok = ok' → writes maximum w ok t → writes maximum w ok' t.
Proof. by intros ->. Qed.

Lemma writes_indent maximum depth :
  writes maximum (λ output, write_indent maximum depth output) true (indent_text depth).
Proof.
  unfold write_indent, indent_text. induction (Z.to_nat (depth * 2)) as [|n IH]; simpl.
  - apply writes_nothing.
  - change (32 :: replicate n 32) with ([32] ++ replicate n 32).
    exact (writes_bind _ _ _ true true _ _ (writes_append _ _) IH).
Qed.

Lemma writes_items {A : Type} (item : A → str → eresult str) (text : A → str) (ok : A → bool)
    maximum depth index l :
  Forall (λ a, writes maximum (item a) (ok a) (text a)) l →
  writes maximum (write_items item maximum depth index l) (forallb ok l)
    (items_text text depth index l).
Proof.
  intros H. revert index. induction H as [|a l Ha _ IH]; intros index; cbn [write_items items_text forallb].
  - apply writes_nothing.
  - apply (writes_bind _ _ _ true (ok a && forallb ok l)).
    { destruct (Nat.ltb 0 index); [apply writes_append|apply writes_nothing]. }
    apply (writes_bind _ _ _ true (ok a && forallb ok l)); [apply writes_append|].
    apply (writes_bind _ _ _ true (ok a && forallb ok l)); [apply writes_indent|].
    by apply writes_bind.
Qed.

Lemma writes_collection {A : Type} (item : A → str → eresult str) (text : A → str) (ok : A → bool)
    maximum depth o c l :
  Forall (λ a, writes maximum (item a) (ok a) (text a)) l →
  writes maximum (write_collection item maximum depth o c l) (forallb ok l)
    (collection_text text depth o c l).
Proof.
  intros H. unfold write_collection, collection_text. destruct l as [|a l]; [apply writes_append|].
  apply (writes_bind _ _ _ true (forallb ok (a :: l))); [apply writes_append|].
  rewrite <- (andb_true_r (forallb ok (a :: l))).
  apply writes_bind; [by apply writes_items|].
  apply (writes_bind _ _ _ true true); [apply writes_append|].
  apply (writes_bind _ _ _ true true); [apply writes_indent|apply writes_append].
Qed.

Lemma writes_guard maximum depth limit w ok t :
  writes maximum w ok t →
  writes maximum (λ output, _ ← reject (limit <=? depth) ResourceLimit; w output)
    ((depth <? limit) && ok) t.
Proof.
  intros H output Ho.
  destruct (Z.leb_spec limit depth), (Z.ltb_spec depth limit); try lia; simpl; [done|].
  by apply H.
Qed.

Lemma heights_forallb {A : Type} (f : A → GithubValue) depth limit l :
  depth < limit →
  forallb (λ a, depth + 1 + value_height (f a) <=? limit) l =
  (depth + (1 + max_by value_height (map f l)) <=? limit).
Proof.
  intros Hd. induction l as [|a l IH]; cbn [forallb map max_by foldr].
  - symmetry. apply Z.leb_le. lia.
  - rewrite IH. unfold max_by. cbn [foldr]. fold (max_by value_height (map f l)). lia.
Qed.

Lemma write_json_writes value depth limits :
  writes (result_bytes limits) (λ output, write_json value depth limits output)
    (depth + value_height value <=? value_depth limits) (json_text value depth).
Proof.
  revert depth.
  induction value as [|b|b|s|arc l H|arc l m H|v IH] using value_ind'; intros depth;
    cbn [write_json json_text value_height].
  1-4: eapply writes_ok; [|apply writes_guard, writes_append]; lia.
  - eapply writes_ok; [|apply writes_guard, (writes_collection _ (λ item, json_text item (depth + 1))
      (λ a, depth + 1 + value_height a <=? value_depth limits))].
    + destruct (Z.ltb_spec depth (value_depth limits)) as [Hd|Hd]; simpl.
      * rewrite (heights_forallb id _ _ _ Hd), map_id. unfold max_by, sum_by. done.
      * unfold max_by. symmetry. apply Z.leb_gt.
        assert (0 <= foldr (λ a n, value_height a `max` n) 0 l); [|lia].
        clear. induction l; simpl; lia.
    + eapply Forall_impl; [exact H|]. intros v Hv. apply Hv.
  - eapply writes_ok; [|apply writes_guard, (writes_collection _
      (λ '(key, item), json_string key ++ lit ": " ++ json_text item (depth + 1))
      (λ a, depth + 1 + value_height a.2 <=? value_depth limits))].
    + assert (max_by (λ '(_, v), value_height v) l = max_by value_height (map snd l)) as ->
        by (rewrite max_by_map; unfold max_by; clear; induction l as [|[k v] l IH]; simpl; congruence).
      destruct (Z.ltb_spec depth (value_depth limits)) as [Hd|Hd]; simpl.
      * by rewrite (heights_forallb snd _ _ _ Hd).
      * symmetry. apply Z.leb_gt.
        assert (0 <= max_by value_height (map snd l)); [|lia].
        unfold max_by. clear. induction (map snd l); simpl; lia.
    + eapply Forall_impl; [exact H|]. intros [k v] Hv. cbn [snd] in *.
      apply (writes_bind _ _ _ true _ _ _ (writes_append _ _)).
      apply (writes_bind _ _ _ true _ _ _ (writes_append _ _)), Hv.
  - intros output Ho. specialize (IH depth output Ho).
    destruct (Z.leb_spec (value_depth limits) depth) as [Hd|Hd]; cbn [reject].
    + pose proof (value_height_nonneg v).
      by replace (depth + value_height v <=? value_depth limits) with false by lia.
    + by rewrite bind_Ok.
Qed.
End WriteLaws.
