(* ===== verification/ExpressionEvaluator.v ===== *)
(** * ExpressionEvaluator: evaluation of validated expression programs

    Models [crates/automata-ci-expression-actions/src/evaluator.rs]: the
    recovery of a tree from the postfix instructions, as an arena of nodes, and
    its evaluation with lazy operators and functions, loose comparison, indexed
    and filtered access, and the marker that follows sensitive values.

    The recursion over nodes runs on a counter. The operands of a node precede
    it in the arena, so one more than the index of the root is enough. *)

From S2P Require Import Prelude Text Utf8 Float64 ExpressionProgram ExpressionValue.
From S2P Require Import ExpressionFunctions.

Definition DIALECT : str := lit "github-actions".
Definition DIALECT_VERSION : Z := 1.

(** ** The tree *)

Inductive Node :=
| NLiteral (value : GithubValue)
| NNamed (name : str)
| NWildcard
| NIndex (target index : nat)
| NNot (operand : nat)
| NCompare (operator : ExpressionComparison) (left_ right_ : nat)
| NLogical (operator : ExpressionLogical) (operands : list nat)
| NCall (name : str) (arguments : list nat).

Record Tree := MkTree { tree_nodes : list Node; tree_root : nat }.

(** The last [count] indices in the order they were pushed; the top of the
    stack is the head of the list. *)
Definition pop_many (stack : list nat) (count : Z) : eresult (list nat * list nat) :=
  _ ← reject (Z.of_nat (length stack) <? count) Internal;
  Ok (rev (take (Z.to_nat count) stack), drop (Z.to_nat count) stack).

Definition pop_one (stack : list nat) : eresult (nat * list nat) :=
  match stack with [] => Err Internal | top :: stack => Ok (top, stack) end.

Definition literal_value (value : ExpressionLiteral) : GithubValue :=
  match value with
  | LitNull => VNull
  | LitBoolean value => VBoolean value
  | LitNumber bits => value_number (from_bits bits)
  | LitString value => VString value
  end.

Definition compile_instruction (instruction : ExpressionInstruction) (stack : list nat) :
    eresult (Node * list nat) :=
  match instruction with
  | ILiteral value => Ok (NLiteral (literal_value value), stack)
  | INamedValue name => Ok (NNamed name, stack)
  | IWildcard => Ok (NWildcard, stack)
  | IIndex =>
      '(index, stack) ← pop_one stack;
      '(target, stack) ← pop_one stack;
      Ok (NIndex target index, stack)
  | INot => '(operand, stack) ← pop_one stack; Ok (NNot operand, stack)
  | ICompare operator =>
      '(right_, stack) ← pop_one stack;
      '(left_, stack) ← pop_one stack;
      Ok (NCompare operator left_ right_, stack)
  | ILogical operator operand_count =>
      '(operands, stack) ← pop_many stack operand_count; Ok (NLogical operator operands, stack)
  | ICall name argument_count =>
      '(arguments, stack) ← pop_many stack argument_count; Ok (NCall name arguments, stack)
  end.

Definition compile_step (state : list Node * list nat) (instruction : ExpressionInstruction) :
    eresult (list Node * list nat) :=
  let '(nodes, stack) := state in
  '(node, stack) ← compile_instruction instruction stack;
  Ok (nodes ++ [node], length nodes :: stack).

(** [Tree::compile]. *)
Definition tree_compile (instructions : list ExpressionInstruction) : eresult Tree :=
  '(nodes, stack) ← try_fold compile_step ([], []) instructions;
  match stack with
  | [root] => Ok (MkTree nodes root)
  | _ => Err Internal
  end.

(** ** Evaluation *)

Record Evaluated := MkEvaluated { evaluated_value : GithubValue; evaluated_filtered : bool }.

Definition plain (value : GithubValue) : Evaluated := MkEvaluated value false.

Definition inherit_evaluated (e : Evaluated) (sensitive : bool) : Evaluated :=
  MkEvaluated (inherit_sensitivity (evaluated_value e) sensitive) (evaluated_filtered e).

Section Evaluator.
Context {T : CaseTable} {J : SerdeJson}.

(** *** Access *)

Definition primitive_index_string (value : GithubValue) : option str :=
  if is_primitive value then Some (to_string value) else None.

Definition usize_max : Z := u64_max.

(** The digits of [floor] are printed and read back, as the source does. *)
Definition array_index (value : GithubValue) : option nat :=
  let number := to_number value in
  if is_nan number || f64_ltb number f64_zero || f64_ltb (of_int (2 ^ 31 - 1)) number then None
  else Z.to_nat <$> parse_uint usize_max (format_fixed 0 (f64_floor number)).

Definition filtered_array (arc : Allocation) (values : list GithubValue)
    (limits : GithubExpressionLimits) : eresult Evaluated :=
  _ ← reject (collection_items limits <? Z.of_nat (length values)) ResourceLimit;
  value ← map_err (λ _, ResourceLimit) (value_array arc values);
  Ok (MkEvaluated value true).

Definition index_one (site : nat) (target : GithubValue) (index : option GithubValue)
    (wildcard : bool) (limits : GithubExpressionLimits) : eresult Evaluated :=
  let inherited_sensitive := is_explicitly_sensitive target in
  result_ ←
    match without_sensitivity target with
    | VObject object =>
        if wildcard then filtered_array (Made site 0) (map snd (object_entries object)) limits
        else Ok (plain (default VNull
                          (i ← index; key ← primitive_index_string i; object_get object key)))
    | VArray _ values =>
        if wildcard then filtered_array (Made site 0) values limits
        else Ok (plain (default VNull
                          (i ← index; position ← array_index i; values !! position)))
    | _ =>
        if wildcard then filtered_array (Made site 0) [] limits else Ok (plain VNull)
    end;
  Ok (inherit_evaluated result_ inherited_sensitive).

(** What one element of a filtered array contributes. *)
Definition project (value : GithubValue) (index : option GithubValue) (wildcard : bool) :
    list GithubValue :=
  let element_sensitive := is_explicitly_sensitive value in
  let inherit v := inherit_sensitivity v element_sensitive in
  match without_sensitivity value with
  | VObject object =>
      if wildcard then map (λ e, inherit e.2) (object_entries object)
      else match (i ← index; key ← primitive_index_string i; object_get object key) with
           | Some v => [inherit v]
           | None => []
           end
  | VArray _ values =>
      if wildcard then map inherit values
      else match (i ← index; position ← array_index i; values !! position) with
           | Some v => [inherit v]
           | None => []
           end
  | _ => []
  end.

Fixpoint project_loop (values : list GithubValue) (index : option GithubValue) (wildcard : bool)
    (limits : GithubExpressionLimits) (result_ : list GithubValue) : eresult (list GithubValue) :=
  match values with
  | [] => Ok result_
  | value :: values =>
      let result_ := result_ ++ project value index wildcard in
      _ ← reject (collection_items limits <? Z.of_nat (length result_)) ResourceLimit;
      project_loop values index wildcard limits result_
  end.

Definition index_filtered (site : nat) (target : GithubValue) (index : option GithubValue)
    (wildcard : bool) (limits : GithubExpressionLimits) : eresult Evaluated :=
  let inherited_sensitive := is_explicitly_sensitive target in
  match without_sensitivity target with
  | VArray _ values =>
      result_ ← project_loop values index wildcard limits [];
      value ← map_err (λ _, ResourceLimit) (value_array (Made site 0) result_);
      Ok (MkEvaluated (inherit_sensitivity value inherited_sensitive) true)
  | _ => Err Internal
  end.

(** *** Operators *)

Definition compare_values (operator : ExpressionComparison) (l r : GithubValue) : bool :=
  let compared c := bool_decide (abstract_compare l r = Some c) in
  match operator with
  | OpEqual => abstract_equal l r
  | OpNotEqual => negb (abstract_equal l r)
  | OpGreaterThan => compared Gt
  | OpGreaterThanOrEqual => abstract_equal l r || compared Gt
  | OpLessThan => compared Lt
  | OpLessThanOrEqual => abstract_equal l r || compared Lt
  end.

(** The functions below take the evaluation of a node by its index. *)
Abbreviation evaluation := (nat → eresult Evaluated) (only parsing).

Fixpoint logical_loop (eval : evaluation) (operator : ExpressionLogical) (operands : list nat)
    (last : Evaluated) (sensitive : bool) : eresult Evaluated :=
  match operands with
  | [] => Ok (inherit_evaluated last sensitive)
  | operand :: operands =>
      last ← eval operand;
      let sensitive := sensitive || is_sensitive (evaluated_value last) in
      let stop := match operator with
                  | OpAnd => negb (is_truthy (evaluated_value last))
                  | OpOr => is_truthy (evaluated_value last)
                  end in
      if stop then Ok (inherit_evaluated last sensitive)
      else logical_loop eval operator operands last sensitive
  end.

Definition evaluate_logical (eval : evaluation) (operator : ExpressionLogical)
    (operands : list nat) : eresult Evaluated :=
  logical_loop eval operator operands (plain VNull) false.

(** *** Functions *)

(** The match on the name once both arguments are there. *)
Definition text_function (name : str) (arguments : list GithubValue) : eresult GithubValue :=
  if str_eqb name (lit "contains") then contains_value arguments
  else if str_eqb name (lit "startswith") then starts_with_value arguments
  else if str_eqb name (lit "endswith") then ends_with_value arguments
  else Err Internal.

Definition evaluate_binary_function (eval : evaluation) (name : str) (arguments : list nat) :
    eresult Evaluated :=
  match arguments with
  | [a0; a1] =>
      l ← eval a0;
      let left_ := evaluated_value l in
      let should_evaluate_right :=
        match without_sensitivity left_ with
        | VArray _ values =>
            if str_eqb name (lit "contains") then match values with [] => false | _ => true end
            else is_primitive (without_sensitivity left_)
        | value => is_primitive value
        end in
      if negb should_evaluate_right then
        Ok (plain (inherit_sensitivity (VBoolean false) (is_sensitive left_)))
      else
        r ← eval a1;
        value ← text_function name [left_; evaluated_value r];
        Ok (plain value)
  | _ => Err InvalidOperation
  end.

Definition evaluate_join (eval : evaluation) (arguments : list nat)
    (limits : GithubExpressionLimits) : eresult Evaluated :=
  match arguments with
  | [] | _ :: _ :: _ :: _ => Err InvalidOperation
  | a0 :: rest =>
      items ← eval a0;
      let items := evaluated_value items in
      let needs_separator :=
        match without_sensitivity items with
        | VArray _ values => Nat.ltb 1 (length values)
        | _ => false
        end in
      separators ←
        match rest with
        | a1 :: _ =>
            if needs_separator then s ← eval a1; Ok [evaluated_value s] else Ok []
        | [] => Ok []
        end;
      value ← join_values (items :: separators) (result_bytes limits);
      Ok (plain value)
  end.

Definition evaluate_format (eval : evaluation) (arguments : list nat)
    (limits : GithubExpressionLimits) : eresult Evaluated :=
  match arguments with
  | [] => Err InvalidOperation
  | a0 :: value_nodes =>
      _ ← reject (255 <? Z.of_nat (length arguments)) InvalidOperation;
      template ← eval a0;
      let template := evaluated_value template in
      value ← format_template (to_string template) (is_sensitive template) (length value_nodes)
                (result_bytes limits)
                (λ index, match value_nodes !! index with
                          | Some node => v ← eval node; Ok (evaluated_value v)
                          | None => Err Internal
                          end);
      _ ← enforce_value_limits value limits;
      Ok (plain value)
  end.

(** Predicates and results in pairs, then the default. *)
Fixpoint case_loop (eval : evaluation) (arguments : list nat) (sensitive : bool) :
    eresult Evaluated :=
  match arguments with
  | condition :: outcome :: rest =>
      predicate ← eval condition;
      let sensitive := sensitive || is_sensitive (evaluated_value predicate) in
      holds ← ok_or (as_bool (without_sensitivity (evaluated_value predicate))) InvalidOperation;
      if (holds : bool) then
        selected ← eval outcome; Ok (inherit_evaluated selected sensitive)
      else case_loop eval rest sensitive
  | [default_] => selected ← eval default_; Ok (inherit_evaluated selected sensitive)
  | [] => Err Internal
  end.

Definition evaluate_case (eval : evaluation) (arguments : list nat) : eresult Evaluated :=
  let n := length arguments in
  _ ← reject (Nat.ltb n 3 || (255 <? Z.of_nat n) || Nat.even n) InvalidOperation;
  case_loop eval arguments false.

(** [collect::<Result<Vec<_>, _>>]: stops at the first error. *)
Fixpoint evaluate_arguments (eval : evaluation) (arguments : list nat) :
    eresult (list GithubValue) :=
  match arguments with
  | [] => Ok []
  | argument :: arguments =>
      e ← eval argument;
      values ← evaluate_arguments eval arguments;
      Ok (evaluated_value e :: values)
  end.

Definition bad_arity (name : str) (arguments : list nat) : bool :=
  let n := length arguments in
  ((str_eqb name (lit "fromjson") || str_eqb name (lit "tojson")) && negb (Nat.eqb n 1)) ||
  (str_eqb name (lit "hashfiles") && negb (Nat.leb 1 n && (Z.of_nat n <=? 255))).

Definition evaluate_eager (eval : evaluation) (site : nat) (name : str) (arguments : list nat)
    (context : GithubEvaluationContext) (limits : GithubExpressionLimits) : eresult Evaluated :=
  _ ← reject (bad_arity name arguments) InvalidOperation;
  arguments ← evaluate_arguments eval arguments;
  let sensitive := existsb is_sensitive arguments in
  value ←
    (if str_eqb name (lit "fromjson") then from_json site arguments limits
     else if str_eqb name (lit "tojson") then to_json arguments limits
     else
       called ← ok_or (function_call context site name arguments) UnavailableContext;
       called);
  let value := inherit_sensitivity value sensitive in
  _ ← enforce_value_limits value limits;
  Ok (plain value).

Definition evaluate_call (eval : evaluation) (site : nat) (name : str) (arguments : list nat)
    (context : GithubEvaluationContext) (limits : GithubExpressionLimits) : eresult Evaluated :=
  let name := map to_ascii_lowercase name in
  let named n := str_eqb name n in
  if named (lit "success") then
    Ok (plain (VBoolean (bool_decide (context_status context = StatusSuccess))))
  else if named (lit "failure") then
    Ok (plain (VBoolean (bool_decide (context_status context = StatusFailure))))
  else if named (lit "always") || named (lit "cancelled") then
    match arguments with
    | [] =>
        Ok (plain (VBoolean (named (lit "always") ||
                             bool_decide (context_status context = StatusCancelled))))
    | _ => Err InvalidOperation
    end
  else if named (lit "case") then evaluate_case eval arguments
  else if named (lit "format") then evaluate_format eval arguments limits
  else if named (lit "contains") || named (lit "startswith") || named (lit "endswith") then
    evaluate_binary_function eval name arguments
  else if named (lit "join") then evaluate_join eval arguments limits
  else evaluate_eager eval site name arguments context limits.

Definition evaluate_index (eval : evaluation) (nodes : list Node) (site : nat)
    (target : Evaluated) (index_node : nat) (limits : GithubExpressionLimits) :
    eresult Evaluated :=
  let wildcard := match nodes !! index_node with Some NWildcard => true | _ => false end in
  index ← (if wildcard then Ok None
           else e ← eval index_node; Ok (Some (evaluated_value e)));
  let index_sensitive := match index with Some v => is_sensitive v | None => false end in
  result_ ←
    (if evaluated_filtered target
     then index_filtered site (evaluated_value target) index wildcard limits
     else index_one site (evaluated_value target) index wildcard limits);
  Ok (inherit_evaluated result_ index_sensitive).

(** [Tree::evaluate]. *)
Fixpoint evaluate_node (fuel : nat) (nodes : list Node) (context : GithubEvaluationContext)
    (limits : GithubExpressionLimits) (node : nat) : eresult Evaluated :=
  match fuel with
  | O => Err Internal
  | S fuel =>
      let eval := evaluate_node fuel nodes context limits in
      match nodes !! node with
      | None => Err Internal
      | Some (NLiteral value) => Ok (plain value)
      | Some (NNamed name) =>
          let value := default VNull (named_value context name) in
          _ ← enforce_value_limits value limits;
          Ok (plain value)
      | Some NWildcard => Err Internal
      | Some (NIndex target index) =>
          target ← eval target;
          evaluate_index eval nodes node target index limits
      | Some (NNot operand) =>
          operand ← eval operand;
          let operand := evaluated_value operand in
          Ok (plain (inherit_sensitivity (VBoolean (negb (is_truthy operand))) (is_sensitive operand)))
      | Some (NCompare operator left_ right_) =>
          l ← eval left_;
          r ← eval right_;
          let l := evaluated_value l in
          let r := evaluated_value r in
          Ok (plain (inherit_sensitivity (VBoolean (compare_values operator l r))
                       (is_sensitive l || is_sensitive r)))
      | Some (NLogical operator operands) => evaluate_logical eval operator operands
      | Some (NCall name arguments) => evaluate_call eval node name arguments context limits
      end
  end.

Definition tree_evaluate (tree : Tree) (context : GithubEvaluationContext)
    (limits : GithubExpressionLimits) : eresult Evaluated :=
  evaluate_node (S (tree_root tree)) (tree_nodes tree) context limits (tree_root tree).

(** [GithubExpressionEvaluator::evaluate]. *)
Definition evaluate (limits : GithubExpressionLimits) (program : ExpressionProgram)
    (context : GithubEvaluationContext) : eresult GithubValue :=
  _ ← map_err (λ _, UnsupportedProgram) (program_validate program);
  _ ← reject (negb (str_eqb (dialect_name (program_dialect program)) DIALECT) ||
              negb (dialect_version (program_dialect program) =? DIALECT_VERSION))
        UnsupportedProgram;
  tree ← tree_compile (program_instructions program);
  evaluated ← tree_evaluate tree context limits;
  _ ← enforce_value_limits (evaluated_value evaluated) limits;
  Ok (evaluated_value evaluated).

Definition evaluate_condition (limits : GithubExpressionLimits) (program : ExpressionProgram)
    (context : GithubEvaluationContext) : eresult bool :=
  value ← evaluate limits program context;
  Ok (is_truthy value).

End Evaluator.
