(* ===== verification/ExpressionSafety.v ===== *)
(** * ExpressionSafety: validated programs always evaluate

    The arena that [tree_compile] builds from a validated program is well
    formed: operands precede their node, and a wildcard is only ever the index
    operand of an access. On such an arena [evaluate_node] never runs out of
    its counter and never reports an internal error. *)

From S2P Require Import Prelude Text Utf8 Float64 ExpressionProgram ExpressionAst ExpressionValue.
From S2P Require Import ExpressionFunctions ExpressionEvaluator.

(** ** Well-formed arenas *)

Definition is_wildcard_node (nodes : list Node) (n : nat) : bool :=
  match nodes !! n with Some NWildcard => true | _ => false end.

(** An operand of node [n] that may be evaluated. *)
Definition operand_ok (nodes : list Node) (n i : nat) : Prop :=
  (i < n)%nat ∧ is_wildcard_node nodes i = false.

Definition node_ok (nodes : list Node) (n : nat) (node : Node) : Prop :=
  match node with
  | NLiteral _ | NNamed _ | NWildcard => True
  | NIndex target index => operand_ok nodes n target ∧ (index < n)%nat
  | NNot operand => operand_ok nodes n operand
  | NCompare _ left_ right_ => operand_ok nodes n left_ ∧ operand_ok nodes n right_
  | NLogical _ operands => Forall (operand_ok nodes n) operands
  | NCall _ arguments => Forall (operand_ok nodes n) arguments
  end.

Definition arena_ok (nodes : list Node) : Prop :=
  ∀ n node, nodes !! n = Some node → node_ok nodes n node.

(** Nodes already in the arena keep what they are. *)
Lemma wildcard_app (nodes more : list Node) (i : nat) :
  (i < length nodes)%nat → is_wildcard_node (nodes ++ more) i = is_wildcard_node nodes i.
Proof. intros H. unfold is_wildcard_node. by rewrite lookup_app_l. Qed.

Lemma operand_ok_app (nodes more : list Node) (n i : nat) :
  (n <= length nodes)%nat → operand_ok nodes n i → operand_ok (nodes ++ more) n i.
Proof. intros Hn [Hi Hw]. split; [done|]. rewrite wildcard_app; [done|lia]. Qed.

Lemma node_ok_app (nodes more : list Node) (n : nat) (node : Node) :
  (n <= length nodes)%nat → node_ok nodes n node → node_ok (nodes ++ more) n node.
Proof.
  intros Hn. pose proof (operand_ok_app nodes more n) as Ho.
  destruct node; simpl; try done; try (intros []; split; auto).
  - by apply Ho.
  - intros H. eapply Forall_impl; [exact H|auto].
  - intros H. eapply Forall_impl; [exact H|auto].
Qed.

Lemma arena_snoc (nodes : list Node) (node : Node) :
  arena_ok nodes → node_ok nodes (length nodes) node → arena_ok (nodes ++ [node]).
Proof.
  intros Ha Hn n node' [[Hlt H]|[-> <-]]%lookup_snoc_Some; [|by apply node_ok_app].
  apply node_ok_app; [lia|]. by apply Ha.
Qed.

(** ** Compilation follows validation

    The two stacks hold the shape and the index of the same subtrees. *)
Definition stacks_match (nodes : list Node) (shapes : list StackValue) (stack : list nat) : Prop :=
  Forall2 (λ v i, (i < length nodes)%nat ∧ is_wildcard_node nodes i = sv_wildcard v) shapes stack.

Lemma stacks_match_snoc nodes node shapes stack v :
  stacks_match nodes shapes stack → sv_wildcard v = is_wildcard_node (nodes ++ [node]) (length nodes) →
  stacks_match (nodes ++ [node]) (v :: shapes) (length nodes :: stack).
Proof.
  intros H Hv. constructor.
  - split; [rewrite length_app; simpl; lia|done].
  - eapply Forall2_impl; [exact H|]. simpl. intros w i [Hi Hw].
    rewrite wildcard_app, length_app by done. split; [lia|done].
Qed.

Lemma pop_value_match nodes shapes stack v shapes' :
  stacks_match nodes shapes stack → pop_value shapes = Ok (v, shapes') →
  ∃ i stack', stack = i :: stack' ∧ (i < length nodes)%nat ∧
    is_wildcard_node nodes i = sv_wildcard v ∧ stacks_match nodes shapes' stack'.
Proof.
  intros H. destruct shapes as [|w shapes]; [done|]. simpl. intros [= -> ->].
  inversion H as [|? i ? stack' [Hi Hw] Hr]; subst. eauto 10.
Qed.

Lemma pop_non_wildcard_match nodes shapes stack v shapes' :
  stacks_match nodes shapes stack → pop_non_wildcard shapes = Ok (v, shapes') →
  ∃ i stack', stack = i :: stack' ∧ operand_ok nodes (length nodes) i ∧
    stacks_match nodes shapes' stack'.
Proof.
  unfold pop_non_wildcard. intros Hm H. ok_inv.
  destruct (pop_value_match _ _ _ _ _ Hm H0) as (i & stack' & -> & Hi & Hw & Hr).
  exists i, stack'. split; [done|]. split; [|done]. split; [done|congruence].
Qed.

Lemma pop_values_match nodes shapes stack count vs shapes' :
  stacks_match nodes shapes stack → pop_values shapes count = Ok (vs, shapes') →
  ∃ operands stack', pop_many stack count = Ok (operands, stack') ∧
    Forall (operand_ok nodes (length nodes)) operands ∧ stacks_match nodes shapes' stack'.
Proof.
  unfold pop_values, pop_many. intros Hm H. ok_inv.
  rewrite <- (Forall2_length _ _ _ Hm), H0. cbn [reject]. rewrite bind_Ok.
  eexists _, _. split; [done|]. split; [|by apply Forall2_drop].
  apply Forall_rev. pose proof (Forall2_take _ _ _ (Z.to_nat count) Hm) as Ht.
  assert (Forall (λ v, sv_wildcard v = false) (take (Z.to_nat count) shapes)) as Hw.
  { clear -H1. rewrite Forall_forall. intros v Hv.
    destruct (sv_wildcard v) eqn:E; [|done].
    assert (existsb sv_wildcard (rev (take (Z.to_nat count) shapes)) = true); [|congruence].
    apply existsb_exists. exists v. split; [|done]. rewrite <- in_rev. by apply list_elem_of_In. }
  clear -Ht Hw. induction Ht as [|v i sh st [Hi Hwi] _ IH]; [constructor|].
  apply Forall_cons in Hw as [Hv Hw]. constructor; [|by apply IH]. split; [done|congruence].
Qed.

Lemma wildcard_snoc (nodes : list Node) (node : Node) :
  is_wildcard_node (nodes ++ [node]) (length nodes) =
  match node with NWildcard => true | _ => false end.
Proof. unfold is_wildcard_node. by rewrite list_lookup_middle. Qed.

Lemma compile_follows (i : ExpressionInstruction) t t' shapes shapes' nodes stack :
  arena_ok nodes → stacks_match nodes shapes stack →
  validate_instruction i t shapes = Ok (t', shapes') →
  ∃ nodes' stack', compile_step (nodes, stack) i = Ok (nodes', stack') ∧ arena_ok nodes' ∧
    stacks_match nodes' shapes' stack'.
Proof.
  intros Ha Hm. unfold compile_step.
  assert (∀ node shapes0 stack0 v, compile_instruction i stack = Ok (node, stack0) →
            node_ok nodes (length nodes) node → stacks_match nodes shapes0 stack0 →
            sv_wildcard v = match node with NWildcard => true | _ => false end →
            ∃ nodes' stack',
              ('(node, stack) ← compile_instruction i stack;
               Ok (nodes ++ [node], length nodes :: stack)) = Ok (nodes', stack') ∧
              arena_ok nodes' ∧ stacks_match nodes' (v :: shapes0) stack') as Hgoal.
  { intros node shapes0 stack0 v -> Hn Hs Hv. rewrite bind_Ok. eexists _, _. split; [done|].
    split; [by apply arena_snoc|]. apply stacks_match_snoc; [done|]. by rewrite wildcard_snoc. }
  destruct i as [v|n| | | |o|o c|n c]; cbn [validate_instruction compile_instruction] in *;
    intros H; ok_inv;
    match goal with Hp : push_value _ _ _ _ = Ok _ |- _ =>
      apply push_value_inv in Hp as [_ ->] end.
  - by eapply Hgoal.
  - by eapply Hgoal.
  - by eapply Hgoal.
  - destruct (pop_value_match _ _ _ _ _ Hm H0) as (x & r & -> & Hx & _ & Hr).
    destruct (pop_non_wildcard_match _ _ _ _ _ Hr H1) as (y & r' & -> & Hy & Hr').
    by eapply Hgoal.
  - destruct (pop_non_wildcard_match _ _ _ _ _ Hm H0) as (y & r' & -> & Hy & Hr').
    by eapply Hgoal.
  - destruct (pop_non_wildcard_match _ _ _ _ _ Hm H0) as (x & r & -> & Hx & Hr).
    destruct (pop_non_wildcard_match _ _ _ _ _ Hr H1) as (y & r' & -> & Hy & Hr').
    by eapply Hgoal.
  - destruct (pop_values_match _ _ _ _ _ _ Hm H1) as (xs & r & Hp & Hx & Hr).
    eapply Hgoal; [by rewrite Hp|done..].
  - destruct (pop_values_match _ _ _ _ _ _ Hm H2) as (xs & r & Hp & Hx & Hr).
    eapply Hgoal; [by rewrite Hp|done..].
Qed.

Lemma compile_all_follows (instructions : list ExpressionInstruction) t t' shapes shapes' nodes stack :
  arena_ok nodes → stacks_match nodes shapes stack →
  validate_all instructions (t, shapes) = Ok (t', shapes') →
  ∃ nodes' stack', try_fold compile_step (nodes, stack) instructions = Ok (nodes', stack') ∧
    arena_ok nodes' ∧ stacks_match nodes' shapes' stack'.
Proof.
  revert t shapes nodes stack. induction instructions as [|i rest IH]; intros t shapes nodes stack Ha Hm.
  - intros [= <- <-]. by exists nodes, stack.
  - rewrite validate_all_cons. intros H. apply bind_Ok_inv in H as ([t1 shapes1] & Hv & H).
    destruct (compile_follows _ _ _ _ _ _ _ Ha Hm Hv) as (nodes1 & stack1 & Hc & Ha1 & Hm1).
    cbn [try_fold]. rewrite Hc, bind_Ok. by eapply IH.
Qed.

Definition tree_ok (tree : Tree) : Prop :=
  arena_ok (tree_nodes tree) ∧ (tree_root tree < length (tree_nodes tree))%nat ∧
  is_wildcard_node (tree_nodes tree) (tree_root tree) = false.

Lemma validated_compiles (p : ExpressionProgram) :
  program_validate p = Ok tt →
  ∃ tree, tree_compile (program_instructions p) = Ok tree ∧ tree_ok tree.
Proof.
  unfold program_validate. intros H. ok_inv.
  assert (arena_ok []) as Ha by by intros n node Hn; rewrite lookup_nil in Hn.
  destruct (compile_all_follows _ _ _ _ _ [] [] Ha (Forall2_nil_2 _ _ _) H6)
    as (nodes & stack & Hc & Hok & Hm).
  destruct l as [|v [|w l]]; [done| |done]. inversion Hm as [|? root ? r [Hr Hw] Hn]; subst.
  inversion Hn; subst. unfold tree_compile. rewrite Hc, bind_Ok. eexists. split; [done|].
  split_and!; [done..|]. simpl. ok_inv. congruence.
Qed.

(** ** Errors other than internal ones *)

Definition never {A : Type} (r : eresult A) : Prop := ∀ e, r = Err e → e ≠ Internal.

Lemma never_Ok {A : Type} (a : A) : never (Ok a).
Proof. by intros e. Qed.

Lemma never_Err {A : Type} (e : GithubExpressionEvaluationErrorKind) :
  e ≠ Internal → never (A := A) (Err e).
Proof. by intros H e' [= <-]. Qed.

Lemma never_bind {A B : Type} (m : eresult A) (f : A → eresult B) :
  never m → (∀ a, m = Ok a → never (f a)) → never (x ← m; f x).
Proof.
  intros Hm Hf e H. apply bind_Err_inv in H as [H|(a & Ha & H)]; [by apply Hm|by eapply Hf].
Qed.

Lemma never_reject (c : bool) (e : GithubExpressionEvaluationErrorKind) :
  e ≠ Internal → never (reject c e).
Proof. intros He. by destruct c; [apply never_Err|apply never_Ok]. Qed.

Lemma never_map_err {E A : Type} (f : E → GithubExpressionEvaluationErrorKind) (m : result E A) :
  (∀ e, f e ≠ Internal) → never (map_err f m).
Proof. intros Hf. destruct m; [apply never_Ok|by apply never_Err]. Qed.

Lemma never_ok_or {A : Type} (o : option A) (e : GithubExpressionEvaluationErrorKind) :
  e ≠ Internal → never (ok_or o e).
Proof. intros He. destruct o; [apply never_Ok|by apply never_Err]. Qed.

Lemma never_only {A : Type} (m : eresult A) (k : GithubExpressionEvaluationErrorKind) :
  (∀ e, m = Err e → e = k) → k ≠ Internal → never m.
Proof. intros H Hk e He. by rewrite (H e He). Qed.

Lemma never_enforce (v : GithubValue) (limits : GithubExpressionLimits) :
  never (enforce_value_limits v limits).
Proof. eapply never_only; [apply enforce_value_limits_errors|done]. Qed.

#[export] Hint Resolve never_Ok never_enforce : automata.
#[export] Hint Extern 1 (never (Err _)) => by apply never_Err : automata.
#[export] Hint Extern 1 (never (reject _ _)) => by apply never_reject : automata.
#[export] Hint Extern 1 (never (ok_or _ _)) => by apply never_ok_or : automata.
#[export] Hint Extern 1 (never (map_err _ _)) => apply never_map_err; by intros [] : automata.

(** Walks through binds and case distinctions. *)
Ltac never_go := repeat match goal with
  | |- never (mbind _ _) => apply never_bind; [|intros ? ?]
  | |- never (let '(_, _) := ?p in _) => destruct p
  | |- never (if ?b then _ else _) => destruct b
  | |- never (match ?x with _ => _ end) => destruct x
  | |- never _ => progress eauto with automata
  end.

Section Functions.
Context {T : CaseTable} {J : SerdeJson}.

Lemma never_append output value maximum : never (append_bounded output value maximum).
Proof. unfold append_bounded. never_go. Qed.
#[local] Hint Resolve never_append : automata.

Lemma never_join_loop separator maximum index values output :
  never (join_loop separator maximum index values output).
Proof. revert index output. induction values as [|v l IH]; intros index output; simpl; never_go. Qed.

Lemma never_join arguments maximum : never (join_values arguments maximum).
Proof.
  unfold join_values. pose proof never_join_loop as Hj.
  never_go; destruct (without_sensitivity g); simpl in *; never_go.
Qed.

Lemma never_contains arguments : never (contains_value arguments).
Proof. unfold contains_value. never_go. Qed.

Lemma never_string_predicate arguments p : never (string_predicate arguments p).
Proof. unfold string_predicate. never_go. Qed.

Lemma never_from_json site arguments limits : never (from_json site arguments limits).
Proof. unfold from_json. never_go. Qed.

Lemma never_indent maximum depth output : never (write_indent maximum depth output).
Proof.
  unfold write_indent, json_append. revert output.
  induction (Z.to_nat (depth * 2)) as [|n IH]; intros output; simpl; never_go.
Qed.
#[local] Hint Resolve never_indent : automata.

Lemma never_write_collection {A : Type} (item : A → str → eresult str) maximum depth o c l output :
  Forall (λ a, ∀ output, never (item a output)) l →
  never (write_collection item maximum depth o c l output).
Proof.
  intros H. unfold write_collection, json_append.
  assert (∀ index output, never (write_items item maximum depth index l output)) as Hi.
  { induction H as [|a l Ha _ IH]; intros index out; simpl; unfold json_append; never_go. }
  destruct l; never_go.
Qed.

Lemma never_write_json value depth limits output : never (write_json value depth limits output).
Proof.
  revert depth output.
  induction value as [|b|b|s|arc l H|arc l m H|v IH] using value_ind'; intros depth output;
    cbn [write_json]; unfold json_append; (apply never_bind; [by apply never_reject|intros _ _]);
    auto with automata; apply never_write_collection.
  - apply (Forall_impl _ _ _ H). auto.
  - apply (Forall_impl _ _ _ H). intros [k v] Hv out. never_go.
Qed.

Lemma never_to_json arguments limits : never (to_json arguments limits).
Proof. unfold to_json. pose proof never_write_json. never_go. Qed.

Lemma placeholder_index_lt placeholder count index :
  placeholder_index placeholder count = Ok index → (index < count)%nat.
Proof.
  unfold placeholder_index. intros H. ok_inv.
  match goal with Hl : (_ <=? _)%nat = false |- _ => apply Nat.leb_gt in Hl; lia end.
Qed.

Lemma never_placeholder placeholder count : never (placeholder_index placeholder count).
Proof. unfold placeholder_index. never_go. Qed.
End Functions.

(** ** Evaluation of a well-formed arena *)

(** A filtered result is an array, marked or not. *)
Definition filtered_ok (e : Evaluated) : Prop :=
  evaluated_filtered e = true → ∃ arc l, without_sensitivity (evaluated_value e) = VArray arc l.

Definition sound (r : eresult Evaluated) : Prop := never r ∧ ∀ e, r = Ok e → filtered_ok e.

Lemma without_inherit (v : GithubValue) (b : bool) :
  without_sensitivity (inherit_sensitivity v b) = without_sensitivity v.
Proof. by destruct b, v. Qed.

Lemma filtered_ok_inherit (e : Evaluated) (b : bool) :
  filtered_ok e → filtered_ok (inherit_evaluated e b).
Proof. intros H. unfold filtered_ok. simpl. by rewrite without_inherit. Qed.

Lemma sound_plain (v : GithubValue) : sound (Ok (plain v)).
Proof. split; [apply never_Ok|]. by intros e [= <-]. Qed.

Lemma sound_Err (e : GithubExpressionEvaluationErrorKind) : e ≠ Internal → sound (Err e).
Proof. intros H. split; [by apply never_Err|done]. Qed.

Lemma sound_bind {A : Type} (m : eresult A) (f : A → eresult Evaluated) :
  never m → (∀ a, m = Ok a → sound (f a)) → sound (x ← m; f x).
Proof.
  intros Hm Hf. split.
  - apply never_bind; [done|]. intros a Ha. by apply Hf.
  - intros e (a & Ha & H)%bind_Ok_inv. by apply (Hf a Ha).
Qed.

(** The rest uses the evaluated operand. *)
Lemma sound_eval (m : eresult Evaluated) (f : Evaluated → eresult Evaluated) :
  sound m → (∀ e, filtered_ok e → sound (f e)) → sound (x ← m; f x).
Proof. intros [Hm Hok] Hf. apply sound_bind; [done|]. intros e He. by apply Hf, Hok. Qed.

Lemma sound_inherit (e : Evaluated) (b : bool) : filtered_ok e → sound (Ok (inherit_evaluated e b)).
Proof. intros H. split; [apply never_Ok|]. intros e' [= <-]. by apply filtered_ok_inherit. Qed.

#[export] Hint Resolve sound_plain sound_inherit : automata.
#[export] Hint Extern 1 (sound (Err _)) => by apply sound_Err : automata.

Section Soundness.
Context {T : CaseTable} {J : SerdeJson}.

Lemma filtered_array_sound arc values limits : sound (filtered_array arc values limits).
Proof.
  unfold filtered_array. apply sound_bind; [by apply never_reject|intros _ _].
  apply sound_bind; [by apply never_map_err|]. intros v Hv. split; [apply never_Ok|].
  intros e [= <-] _. unfold value_array in Hv. destruct (reject _ _); simplify_eq/=. eauto.
Qed.

Lemma index_one_sound site target index wildcard limits :
  sound (index_one site target index wildcard limits).
Proof.
  unfold index_one. apply sound_eval; [|intros e He; auto with automata].
  pose proof filtered_array_sound.
  destruct (without_sensitivity target), wildcard; auto with automata.
Qed.

Lemma index_filtered_sound site target index wildcard limits :
  (∃ arc l, without_sensitivity target = VArray arc l) →
  sound (index_filtered site target index wildcard limits).
Proof.
  intros (arc & l & Hl). unfold index_filtered. rewrite Hl. apply sound_bind.
  - generalize (@nil GithubValue) as result_. clear Hl. revert index.
    induction l as [|v l IH]; intros index result_; simpl; never_go.
  - intros result_ _. apply sound_bind; [by apply never_map_err|]. intros v Hv.
    split; [apply never_Ok|]. intros e [= <-] _. simpl. rewrite without_inherit.
    unfold value_array in Hv. destruct (reject _ _); simplify_eq/=. eauto.
Qed.

Context (eval : nat → eresult Evaluated).
Abbreviation sound_at := (λ i, sound (eval i)) (only parsing).

Lemma logical_sound operator operands : Forall sound_at operands → sound (evaluate_logical eval operator operands).
Proof.
  intros H. unfold evaluate_logical. assert (filtered_ok (plain VNull)) as Hl by done.
  revert Hl. generalize (plain VNull) as last. generalize false as sensitive.
  induction H as [|i l Hi _ IH]; intros sensitive last Hl; cbn [logical_loop]; [auto with automata|].
  apply sound_eval; [done|]. intros e He. lazymatch goal with |- sound (if ?b then _ else _) => destruct b end;
    auto with automata.
Qed.

Lemma case_sound arguments : Forall sound_at arguments → sound (evaluate_case eval arguments).
Proof.
  intros H. unfold evaluate_case. apply sound_bind; [by apply never_reject|].
  intros u Hu. apply reject_passes in Hu.
  assert (Nat.even (length arguments) = false) as Hodd
    by (by destruct (Nat.even (length arguments)); [rewrite orb_true_r in Hu|]).
  clear Hu. generalize false as sensitive. remember (length arguments) as n eqn:Hn.
  revert arguments Hn H. induction (lt_wf n) as [n _ IH]. intros arguments Hn H sensitive.
  destruct arguments as [|c [|o rest]]; [by subst| |].
  - cbn [case_loop]. apply Forall_inv in H. apply sound_eval; auto with automata.
  - rewrite !Forall_cons in H. destruct H as (Hc & Ho & Hr). cbn [case_loop].
    apply sound_eval; [done|]. intros e He. apply sound_bind; [by apply never_ok_or|].
    intros holds _. destruct holds.
    + apply sound_eval; auto with automata.
    + apply (IH (length rest)); [subst n; simpl; lia|by subst n|done|done].
Qed.

Lemma binary_sound name arguments :
  name ∈ [lit "contains"; lit "startswith"; lit "endswith"] →
  Forall sound_at arguments → sound (evaluate_binary_function eval name arguments).
Proof.
  intros Hname H. unfold evaluate_binary_function.
  destruct arguments as [|a0 [|a1 [|]]]; auto with automata.
  rewrite !Forall_cons in H. destruct H as (H0 & H1 & _).
  apply sound_eval; [done|]. intros l _. destruct (negb _); [auto with automata|].
  apply sound_eval; [done|]. intros r _. apply sound_bind; [|intros v _; auto with automata].
  pose proof never_contains. pose proof never_string_predicate. unfold text_function.
  destruct (str_eqb name (lit "contains")) eqn:E1; [auto|].
  destruct (str_eqb name (lit "startswith")) eqn:E2; [unfold starts_with_value; auto|].
  destruct (str_eqb name (lit "endswith")) eqn:E3; [unfold ends_with_value; auto|].
  unfold str_eqb in *. apply bool_decide_eq_false in E1, E2, E3. set_solver.
Qed.

Lemma join_sound arguments limits : Forall sound_at arguments → sound (evaluate_join eval arguments limits).
Proof.
  intros H. unfold evaluate_join. destruct arguments as [|a0 [|a1 [|]]]; auto with automata.
  - apply Forall_inv in H. apply sound_eval; [done|]. intros e _. rewrite bind_Ok.
    apply sound_bind; [apply never_join|intros; auto with automata].
  - rewrite !Forall_cons in H. destruct H as (H0 & [H1 _] & _). apply sound_eval; [done|].
    intros e _. apply sound_bind.
    { lazymatch goal with |- never (if ?b then _ else _) => destruct b end; never_go. }
    intros s _. apply sound_bind; [apply never_join|intros; auto with automata].
Qed.

Lemma never_format_loop fuel count maximum argument template state :
  (∀ index, (index < count)%nat → never (argument index)) → (length template <= fuel)%nat →
  never (format_loop fuel count maximum argument template state).
Proof.
  intros Ha. revert template state. induction fuel as [|fuel IH]; intros [|c rest] state Hf;
    try apply never_Ok; simpl in Hf; [lia|].
  assert (∀ s st, (length s <= length rest)%nat →
            never (format_loop fuel count maximum argument s st)) as Hgo by (intros; apply IH; lia).
  assert (length (tail rest) <= length rest)%nat as Htl by (destruct rest; simpl; lia).
  assert (∀ v st, never (format_emit v maximum st)) as Hemit
    by (intros; unfold format_emit, append_bounded; never_go).
  cbn [format_loop]. repeat match goal with |- never (if ?b then _ else _) => destruct b end;
    auto with automata; try (apply never_bind; [apply Hemit|intros; by apply Hgo]).
  apply never_bind; [by apply never_ok_or|]. intros [placeholder r] Hs.
  apply ok_or_Ok, split_once_Some in Hs as [-> _].
  apply never_bind; [apply never_placeholder|]. intros index Hi%placeholder_index_lt.
  apply never_bind.
  - unfold format_argument. apply never_bind; [|intros [v s] _; apply Hemit].
    destruct (default None _); [apply never_Ok|]. apply never_bind; [by apply Ha|]. auto with automata.
  - intros st _. apply Hgo. rewrite length_app. simpl. lia.
Qed.

Lemma format_sound arguments limits : Forall sound_at arguments → sound (evaluate_format eval arguments limits).
Proof.
  intros H. unfold evaluate_format. destruct arguments as [|a0 rest]; auto with automata.
  apply Forall_cons in H as [H0 Hr]. apply sound_bind; [by apply never_reject|intros _ _].
  apply sound_eval; [done|]. intros t _. apply sound_bind.
  - unfold format_template. apply never_bind; [|auto with automata].
    apply never_format_loop; [|done]. intros index [node Hnode]%lookup_lt_is_Some. rewrite Hnode.
    eapply Forall_lookup_1 in Hr as [Hn _]; [|exact Hnode]. apply never_bind; auto with automata.
  - intros v _. apply sound_bind; auto with automata.
Qed.

Lemma arguments_never arguments : Forall sound_at arguments → never (evaluate_arguments eval arguments).
Proof. induction 1 as [|a l [Ha _] _ IH]; simpl; never_go. Qed.
End Soundness.

(** A provider of extension functions that does not report internal errors. *)
Definition provider_ok (context : GithubEvaluationContext) : Prop :=
  ∀ site name arguments r, function_call context site name arguments = Some r → never r.

Section NodeSoundness.
Context {T : CaseTable} {J : SerdeJson}.
Context (context : GithubEvaluationContext) (limits : GithubExpressionLimits).
Hypothesis Hprovider : provider_ok context.

Lemma call_sound (eval : nat → eresult Evaluated) site name arguments :
  Forall (λ i, sound (eval i)) arguments →
  sound (evaluate_call eval site name arguments context limits).
Proof.
  intros H. unfold evaluate_call. set (n := map to_ascii_lowercase name). cbv zeta.
  destruct (str_eqb n (lit "success")); [auto with automata|].
  destruct (str_eqb n (lit "failure")); [auto with automata|].
  destruct (str_eqb n (lit "always") || str_eqb n (lit "cancelled"));
    [destruct arguments; auto with automata|].
  destruct (str_eqb n (lit "case")); [by apply case_sound|].
  destruct (str_eqb n (lit "format")); [by apply format_sound|].
  destruct (str_eqb n (lit "contains") || str_eqb n (lit "startswith") ||
            str_eqb n (lit "endswith")) eqn:E.
  { apply binary_sound; [|done]. rewrite !orb_true_iff in E. unfold str_eqb in E.
    rewrite !bool_decide_eq_true in E. set_solver. }
  destruct (str_eqb n (lit "join")); [by apply join_sound|].
  unfold evaluate_eager. apply sound_bind; [by apply never_reject|intros _ _].
  apply sound_bind; [by apply arguments_never|]. intros values _.
  apply sound_bind; [|intros v _; apply sound_bind; auto with automata].
  pose proof never_from_json. pose proof never_to_json.
  destruct (str_eqb n (lit "fromjson")); [auto|]. destruct (str_eqb n (lit "tojson")); [auto|].
  apply never_bind; [by apply never_ok_or|]. intros r Hr. apply ok_or_Ok in Hr. by eapply Hprovider.
Qed.

Lemma node_sound (nodes : list Node) (fuel n : nat) :
  arena_ok nodes → (n < fuel)%nat → (n < length nodes)%nat → is_wildcard_node nodes n = false →
  sound (evaluate_node fuel nodes context limits n).
Proof.
  intros Ha. revert n. induction fuel as [|fuel IH]; intros n Hf Hn Hw; [lia|].
  cbn [evaluate_node]. destruct (lookup_lt_is_Some_2 nodes n Hn) as [node Hnode].
  pose proof (Ha n node Hnode) as Hok. unfold is_wildcard_node in Hw. rewrite Hnode in *.
  assert (∀ i, operand_ok nodes n i → sound (evaluate_node fuel nodes context limits i)) as Hop.
  { intros i [Hi Hwi]. apply IH; [lia|lia|done]. }
  destruct node as [v|name| |target index|operand|o l r|o operands|name arguments]; try done.
  - auto with automata.
  - apply sound_bind; auto with automata.
  - destruct Hok as [Ht Hi]. apply sound_eval; [by apply Hop|]. intros e He.
    unfold evaluate_index. destruct (match nodes !! index with Some NWildcard => true | _ => false end)
      eqn:Ewild.
    + rewrite bind_Ok. destruct (evaluated_filtered e) eqn:Ef;
        (apply sound_eval; [|intros; auto with automata]); auto using index_one_sound, index_filtered_sound.
    + cbn match.
      apply sound_bind.
      { apply never_bind; [apply Hop; by split|auto with automata]. }
      intros i _. destruct (evaluated_filtered e) eqn:Ef;
        (apply sound_eval; [|intros; auto with automata]); auto using index_one_sound, index_filtered_sound.
  - apply sound_eval; auto with automata.
  - destruct Hok as [Hl Hr]. do 2 (apply sound_eval; [by apply Hop|intros]). auto with automata.
  - apply logical_sound. eapply Forall_impl; [exact Hok|exact Hop].
  - apply call_sound. eapply Forall_impl; [exact Hok|exact Hop].
Qed.
End NodeSoundness.

(** ** Any larger counter gives the same result *)

Section Fuel.
Context {T : CaseTable} {J : SerdeJson}.
Context (eval eval' : nat → eresult Evaluated).
Abbreviation same := (λ i, eval i = eval' i) (only parsing).

Lemma logical_same operator operands :
  Forall same operands → evaluate_logical eval operator operands = evaluate_logical eval' operator operands.
Proof.
  intros H. unfold evaluate_logical. generalize (plain VNull) as last. generalize false as b.
  induction H as [|i l Hi _ IH]; intros b last; cbn [logical_loop]; [done|].
  rewrite Hi. destruct (eval' i); [|done]. rewrite !bind_Ok. cbv zeta. by rewrite IH.
Qed.

Lemma case_same arguments :
  Forall same arguments → evaluate_case eval arguments = evaluate_case eval' arguments.
Proof.
  intros H. unfold evaluate_case. cbv zeta. destruct (reject _ _); [|done]. rewrite !bind_Ok.
  generalize false as b. remember (length arguments) as n eqn:Hn.
  revert arguments Hn H. induction (lt_wf n) as [n _ IH]. intros arguments Hn H b.
  destruct arguments as [|c [|o rest]]; cbn [case_loop]; [done| |].
  - apply Forall_inv in H. by rewrite H.
  - rewrite !Forall_cons in H. destruct H as (-> & -> & Hr). destruct (eval' c); [|done].
    rewrite !bind_Ok. destruct (ok_or _ _) as [[]|]; rewrite ?bind_Ok; [done| |done].
    apply (IH (length rest)); [subst n; simpl; lia|done|done].
Qed.

Lemma binary_same name arguments :
  Forall same arguments →
  evaluate_binary_function eval name arguments = evaluate_binary_function eval' name arguments.
Proof.
  intros H. unfold evaluate_binary_function. destruct arguments as [|a0 [|a1 [|]]]; try done.
  rewrite !Forall_cons in H. by destruct H as (-> & -> & _).
Qed.

Lemma join_same arguments limits :
  Forall same arguments → evaluate_join eval arguments limits = evaluate_join eval' arguments limits.
Proof.
  intros H. unfold evaluate_join. destruct arguments as [|a0 [|a1 [|]]]; try done.
  - apply Forall_inv in H. by rewrite H.
  - rewrite !Forall_cons in H. by destruct H as (-> & -> & _).
Qed.

Lemma format_loop_same fuel count maximum argument argument' template state :
  (∀ i, argument i = argument' i) →
  format_loop fuel count maximum argument template state =
  format_loop fuel count maximum argument' template state.
Proof.
  intros Ha. revert template state. induction fuel as [|fuel IH]; intros [|c rest] state; try done.
  cbn [format_loop].
  assert (∀ index st, format_argument argument maximum index st =
                      format_argument argument' maximum index st) as Harg
    by (intros; unfold format_argument; by rewrite Ha).
  assert (∀ (m : eresult FormatState) s,
            (x ← m; format_loop fuel count maximum argument s x) =
            (x ← m; format_loop fuel count maximum argument' s x)) as Hb
    by (intros [] s; [apply IH|done]).
  repeat match goal with |- (if ?b then _ else _) = _ => destruct b end; try apply Hb; try done.
  destruct (ok_or _ _) as [[placeholder r]|]; [|done]. rewrite !bind_Ok.
  destruct (placeholder_index placeholder count); [|done]. rewrite !bind_Ok, Harg. apply Hb.
Qed.

Lemma format_same arguments limits :
  Forall same arguments → evaluate_format eval arguments limits = evaluate_format eval' arguments limits.
Proof.
  intros H. unfold evaluate_format. destruct arguments as [|a0 rest]; [done|].
  apply Forall_cons in H as [-> Hr]. destruct (reject _ _); [|done]. rewrite !bind_Ok.
  destruct (eval' a0) as [t|]; [|done]. rewrite !bind_Ok. unfold format_template.
  rewrite (format_loop_same _ _ _ _
             (λ index, match rest !! index with
                       | Some node => v ← eval' node; Ok (evaluated_value v)
                       | None => Err Internal
                       end)); [done|].
  intros i. destruct (rest !! i) as [node|] eqn:E; [|done].
  eapply Forall_lookup_1 in Hr; [|exact E]. simpl in Hr. by rewrite Hr.
Qed.

Lemma arguments_same arguments :
  Forall same arguments → evaluate_arguments eval arguments = evaluate_arguments eval' arguments.
Proof. induction 1 as [|a l Ha _ IH]; simpl; [done|]. by rewrite Ha, IH. Qed.

Lemma call_same site name arguments context limits :
  Forall same arguments →
  evaluate_call eval site name arguments context limits =
  evaluate_call eval' site name arguments context limits.
Proof.
  intros H. unfold evaluate_call, evaluate_eager.
  by rewrite (case_same _ H), (format_same _ limits H), (binary_same _ _ H), (join_same _ limits H),
    (arguments_same _ H).
Qed.
End Fuel.

Lemma node_fuel {T : CaseTable} {J : SerdeJson} context limits (nodes : list Node) (n f1 f2 : nat) :
  arena_ok nodes → (n < f1)%nat → (n < f2)%nat →
  evaluate_node f1 nodes context limits n = evaluate_node f2 nodes context limits n.
Proof.
  intros Ha. revert n f2. induction f1 as [|f1 IH]; intros n [|f2] H1 H2; try lia.
  cbn [evaluate_node]. destruct (nodes !! n) as [node|] eqn:Hnode; [|done].
  pose proof (Ha n node Hnode) as Hok.
  assert (∀ i, (i < n)%nat → evaluate_node f1 nodes context limits i =
                             evaluate_node f2 nodes context limits i) as Hop
    by (intros; apply IH; lia).
  assert (∀ l, Forall (operand_ok nodes n) l →
            Forall (λ i, evaluate_node f1 nodes context limits i =
                         evaluate_node f2 nodes context limits i) l) as Hops.
  { intros l Hl. eapply Forall_impl; [exact Hl|]. intros i [Hi _]. by apply Hop. }
  destruct node as [v|name| |target index|operand|o l r|o operands|name arguments]; try done.
  - destruct Hok as [[Ht _] Hi]. rewrite (Hop _ Ht). unfold evaluate_index. by rewrite (Hop _ Hi).
  - destruct Hok as [Hi _]. by rewrite (Hop _ Hi).
  - destruct Hok as [[Hl _] [Hr _]]. by rewrite (Hop _ Hl), (Hop _ Hr).
  - apply logical_same. by apply Hops.
  - apply call_same. by apply Hops.
Qed.
