(* ===== verification/ExpressionFlow.v ===== *)
(** * ExpressionFlow: what an evaluation reveals of sensitive values

    Two runs of one program, in contexts that differ only inside the payloads
    of sensitivity markers, are compared: when both produce a value, the values
    again differ only inside markers. The values of the contexts must mark
    leaves: inside a collection, a marker wraps a primitive. Without that the
    statement fails, as [ExpressionTheorems] shows. *)

From S2P Require Import Prelude Text Utf8 Float64 ExpressionProgram ExpressionAst ExpressionValue.
From S2P Require Import ExpressionFunctions ExpressionEvaluator.

(** ** Marked leaves *)

Fixpoint leaves_marked (v : GithubValue) : Prop :=
  match v with
  | VArray _ values => foldr (λ v P, leaves_marked v ∧ P) True values
  | VObject (MkObject _ entries _) => foldr (λ '(_, v) P, leaves_marked v ∧ P) True entries
  | VSensitive payload => is_primitive payload = true
  | _ => True
  end.

(** A value that is not itself marked has marked leaves. *)
Definition well_marked (v : GithubValue) : Prop :=
  is_explicitly_sensitive v = false → leaves_marked v.

Lemma leaves_elements (l : list GithubValue) :
  foldr (λ v P, leaves_marked v ∧ P) True l ↔ Forall leaves_marked l.
Proof. induction l as [|v l IH]; simpl; [by rewrite Forall_nil|by rewrite Forall_cons, IH]. Qed.

Lemma leaves_entries (l : list (str * GithubValue)) :
  foldr (λ '(_, v) P, leaves_marked v ∧ P) True l ↔ Forall (λ e, leaves_marked e.2) l.
Proof.
  induction l as [|[k v] l IH]; simpl; [by rewrite Forall_nil|by rewrite Forall_cons, IH].
Qed.

Lemma public_leaves (v : GithubValue) : is_sensitive v = false → leaves_marked v.
Proof.
  induction v as [| | | |arc l H|arc l m H|v IH] using value_ind'; simpl; try done.
  - rewrite leaves_elements. induction H as [|v l Hv _ IH]; simpl; [constructor|].
    intros [H1 H2]%orb_false_iff. constructor; auto.
  - rewrite leaves_entries. induction H as [|[k v] l Hv _ IH]; simpl; [constructor|].
    intros [H1 H2]%orb_false_iff. constructor; auto.
Qed.

Lemma leaves_well (v : GithubValue) : leaves_marked v → well_marked v.
Proof. by intros H _. Qed.

Lemma explicit_inherit (v : GithubValue) : is_explicitly_sensitive (inherit_sensitivity v true) = true.
Proof. by destruct v. Qed.

Lemma well_marked_inherit (v : GithubValue) (b : bool) :
  well_marked v → well_marked (inherit_sensitivity v b).
Proof. destruct b; [|done]. intros _. unfold well_marked. by rewrite explicit_inherit. Qed.

Lemma explicit_low (v w : GithubValue) :
  is_explicitly_sensitive v = true → is_explicitly_sensitive w = true → low v w.
Proof. destruct v, w; try done. constructor. Qed.

Lemma low_explicit (v w : GithubValue) :
  low v w → is_explicitly_sensitive v = is_explicitly_sensitive w.
Proof. by destruct 1. Qed.

Lemma explicit_sensitive (v : GithubValue) : is_explicitly_sensitive v = true → is_sensitive v = true.
Proof. by destruct v. Qed.

(** ** Related results *)

Definition low_eval (e f : Evaluated) : Prop :=
  low (evaluated_value e) (evaluated_value f) ∧
  (is_explicitly_sensitive (evaluated_value e) = true ∨
   evaluated_filtered e = evaluated_filtered f) ∧
  well_marked (evaluated_value e) ∧ well_marked (evaluated_value f).

(** Whenever both runs produce a result, the results are related. *)
Definition related {A : Type} (R : A → A → Prop) (r s : eresult A) : Prop :=
  ∀ a b, r = Ok a → s = Ok b → R a b.

Lemma related_Ok {A : Type} (R : A → A → Prop) (a b : A) : R a b → related R (Ok a) (Ok b).
Proof. by intros H a' b' [= <-] [= <-]. Qed.

Lemma related_bind {A B : Type} (R : A → A → Prop) (Q : B → B → Prop) (m n : eresult A)
    (f g : A → eresult B) :
  related R m n → (∀ a b, R a b → related Q (f a) (g b)) → related Q (x ← m; f x) (x ← n; g x).
Proof.
  intros Hm Hf a b (x & Hx & Ha)%bind_Ok_inv (y & Hy & Hb)%bind_Ok_inv. eapply Hf; eauto.
Qed.

Lemma related_refl {A : Type} (r : eresult A) : related eq r r.
Proof. intros a b -> [= <-]. done. Qed.

Lemma related_same {A B : Type} (Q : B → B → Prop) (m : eresult A) (f g : A → eresult B) :
  (∀ a, related Q (f a) (g a)) → related Q (x ← m; f x) (x ← m; g x).
Proof. intros H. eapply related_bind; [apply related_refl|]. by intros a b <-. Qed.

Lemma low_eval_plain (v w : GithubValue) :
  low v w → well_marked v → well_marked w → low_eval (plain v) (plain w).
Proof. intros. by split_and!; [|right| |]. Qed.

Lemma low_eval_inherit (e f : Evaluated) (b : bool) :
  low_eval e f → low_eval (inherit_evaluated e b) (inherit_evaluated f b).
Proof.
  intros (Hl & Hf & He & Hg). split_and!; simpl; auto using low_inherit, well_marked_inherit.
  destruct b; [left; apply explicit_inherit|done].
Qed.

Lemma low_eval_marked (e f : Evaluated) :
  is_explicitly_sensitive (evaluated_value e) = true →
  is_explicitly_sensitive (evaluated_value f) = true → low_eval e f.
Proof.
  intros He Hf. split_and!; [by apply explicit_low|by left|..]; unfold well_marked; intros; congruence.
Qed.

Lemma low_eval_public (e f : Evaluated) :
  low_eval e f → is_sensitive (evaluated_value e) = false → e = f.
Proof.
  intros (Hl & Hf & _) Hs. destruct e as [v b], f as [w c]. simpl in *.
  apply low_public in Hl as [_ Hl]. specialize (Hl Hs) as <-. f_equal.
  destruct Hf as [Hf|Hf]; [|done]. apply explicit_sensitive in Hf. congruence.
Qed.

Lemma low_eval_sensitive (e f : Evaluated) :
  low_eval e f → is_sensitive (evaluated_value e) = is_sensitive (evaluated_value f).
Proof. intros (Hl & _). by apply low_public in Hl as [Hl _]. Qed.

(** ** Functions *)

Section Flow.
Context {T : CaseTable} {J : SerdeJson}.

(** A function of the arguments that marks its result when one is sensitive. *)
Definition taints (f : list GithubValue → eresult GithubValue) : Prop :=
  ∀ arguments v, f arguments = Ok v → existsb is_sensitive arguments = true →
    is_explicitly_sensitive v = true.

Lemma contains_taints : taints contains_value.
Proof.
  intros arguments v H Hs. destruct arguments as [|a0 [|a1 [|]]]; try discriminate H.
  apply Ok_inj in H as <-. rewrite Hs. apply explicit_inherit.
Qed.

Lemma string_predicate_taints p : taints (λ arguments, string_predicate arguments p).
Proof.
  intros arguments v H Hs. destruct arguments as [|a0 [|a1 [|]]]; try discriminate H.
  apply Ok_inj in H as <-. rewrite Hs. apply explicit_inherit.
Qed.

Lemma join_taints maximum : taints (λ arguments, join_values arguments maximum).
Proof.
  intros arguments v H Hs. destruct arguments as [|a0 [|a1 [|]]];
    [discriminate H| | |discriminate H]; cbn [join_values] in H;
    apply bind_Ok_inv in H as (r & _ & H); apply Ok_inj in H as <-; rewrite Hs; apply explicit_inherit.
Qed.

Lemma tainted_related f l k :
  taints f → Forall2 low l k → (∀ v, f l = Ok v → well_marked v) → (∀ v, f k = Ok v → well_marked v) →
  related (λ v w, low_eval (plain v) (plain w)) (f l) (f k).
Proof.
  intros Ht Hl Hw1 Hw2 v w Hv Hw. apply low_list in Hl as [He Heq].
  destruct (existsb is_sensitive l) eqn:Es.
  - apply low_eval_marked; eapply Ht; eauto.
  - rewrite <- (Heq eq_refl) in Hw. rewrite Hv in Hw. injection Hw as <-.
    apply low_eval_plain; [apply low_refl|auto..].
Qed.

Lemma scalar_marked (v : GithubValue) (b : bool) :
  leaves_marked v → well_marked (inherit_sensitivity v b).
Proof. intros H. by apply well_marked_inherit, leaves_well. Qed.

Lemma contains_marked l v : contains_value l = Ok v → well_marked v.
Proof.
  destruct l as [|a0 [|a1 [|]]]; try discriminate. intros <-%Ok_inj. by apply scalar_marked.
Qed.
Lemma string_predicate_marked p l v : string_predicate l p = Ok v → well_marked v.
Proof.
  destruct l as [|a0 [|a1 [|]]]; try discriminate. intros <-%Ok_inj. by apply scalar_marked.
Qed.
Lemma join_marked maximum l v : join_values l maximum = Ok v → well_marked v.
Proof.
  destruct l as [|a0 [|a1 [|]]]; [discriminate| | |discriminate]; cbn [join_values];
    intros (r & _ & H)%bind_Ok_inv; apply Ok_inj in H as <-; by apply scalar_marked.
Qed.

Lemma text_function_taints name : taints (text_function name).
Proof.
  intros arguments v. unfold text_function.
  destruct (str_eqb name (lit "contains")); [apply contains_taints|].
  destruct (str_eqb name (lit "startswith")); [apply string_predicate_taints|].
  destruct (str_eqb name (lit "endswith")); [apply string_predicate_taints|done].
Qed.
Lemma text_function_marked name l v : text_function name l = Ok v → well_marked v.
Proof.
  unfold text_function.
  destruct (str_eqb name (lit "contains")); [apply contains_marked|].
  destruct (str_eqb name (lit "startswith")); [apply string_predicate_marked|].
  destruct (str_eqb name (lit "endswith")); [apply string_predicate_marked|done].
Qed.

(** ** Operators *)

Section Operators.
Context (eval eval' : nat → eresult Evaluated).
Abbreviation agree := (λ i, related low_eval (eval i) (eval' i)) (only parsing).

Lemma logical_loop_marked ev operator operands last e :
  logical_loop ev operator operands last true = Ok e →
  is_explicitly_sensitive (evaluated_value e) = true.
Proof.
  revert last. induction operands as [|i l IH]; intros last; cbn [logical_loop].
  - intros [= <-]. apply explicit_inherit.
  - intros (x & _ & H)%bind_Ok_inv. cbv zeta in H. rewrite orb_true_l in H.
    match type of H with (if ?b then _ else _) = _ => destruct b end; [|by eapply IH].
    apply Ok_inj in H as <-. apply explicit_inherit.
Qed.

Lemma logical_flow operator operands :
  Forall agree operands →
  related low_eval (evaluate_logical eval operator operands) (evaluate_logical eval' operator operands).
Proof.
  intros H. unfold evaluate_logical.
  assert (low_eval (plain VNull) (plain VNull)) as Hl by by apply low_eval_plain; [constructor|..].
  revert Hl. generalize (plain VNull) at 1 3 as last. generalize (plain VNull) as last'.
  generalize false as b. induction H as [|i l Hi _ IH]; intros b last' last Hl; cbn [logical_loop].
  - by apply related_Ok, low_eval_inherit.
  - eapply related_bind; [exact Hi|]. intros e f Hef. cbv zeta.
    rewrite <- (low_eval_sensitive _ _ Hef).
    destruct (b || is_sensitive (evaluated_value e)) eqn:Es.
    + intros x y Hx Hy. apply low_eval_marked.
      * match type of Hx with (if ?b then _ else _) = _ => destruct b end;
          [apply Ok_inj in Hx as <-; apply explicit_inherit|by eapply logical_loop_marked].
      * match type of Hy with (if ?b then _ else _) = _ => destruct b end;
          [apply Ok_inj in Hy as <-; apply explicit_inherit|by eapply logical_loop_marked].
    + apply orb_false_iff in Es as [-> Es]. pose proof (low_eval_public _ _ Hef Es) as <-.
      match goal with |- related _ (if ?b then _ else _) _ => destruct b end.
      * by apply related_Ok, low_eval_inherit.
      * by apply IH.
Qed.

Lemma case_loop_marked ev arguments e :
  case_loop ev arguments true = Ok e → is_explicitly_sensitive (evaluated_value e) = true.
Proof.
  remember (length arguments) as n eqn:Hn. revert arguments Hn.
  induction (lt_wf n) as [n _ IH]. intros arguments Hn.
  destruct arguments as [|c [|o rest]]; cbn [case_loop]; [done| |].
  - intros (x & _ & H)%bind_Ok_inv. apply Ok_inj in H as <-. apply explicit_inherit.
  - intros (x & _ & H)%bind_Ok_inv. cbv zeta in H. apply bind_Ok_inv in H as (holds & _ & H).
    destruct holds; [apply bind_Ok_inv in H as (y & _ & H); apply Ok_inj in H as <-; apply explicit_inherit|].
    eapply (IH (length rest)); [subst n; simpl; lia|done|exact H].
Qed.

Lemma case_flow arguments :
  Forall agree arguments →
  related low_eval (evaluate_case eval arguments) (evaluate_case eval' arguments).
Proof.
  intros H. unfold evaluate_case. cbv zeta. apply related_same. intros _.
  generalize false as b. remember (length arguments) as n eqn:Hn.
  revert arguments Hn H. induction (lt_wf n) as [n _ IH]. intros arguments Hn H b.
  destruct arguments as [|c [|o rest]]; cbn [case_loop]; [done| |].
  - apply Forall_inv in H. eapply related_bind; [exact H|]. intros e f Hef.
    by apply related_Ok, low_eval_inherit.
  - rewrite !Forall_cons in H. destruct H as (Hc & Ho & Hr).
    eapply related_bind; [exact Hc|]. intros e f Hef. cbv zeta.
    rewrite <- (low_eval_sensitive _ _ Hef).
    destruct (b || is_sensitive (evaluated_value e)) eqn:Es.
    + intros x y (h & _ & Hx)%bind_Ok_inv (k & _ & Hy)%bind_Ok_inv. apply low_eval_marked.
      * destruct h; [apply bind_Ok_inv in Hx as (z & _ & Hx); apply Ok_inj in Hx as <-;
                     apply explicit_inherit|by eapply case_loop_marked].
      * destruct k; [apply bind_Ok_inv in Hy as (z & _ & Hy); apply Ok_inj in Hy as <-;
                     apply explicit_inherit|by eapply case_loop_marked].
    + apply orb_false_iff in Es as [-> Es]. pose proof (low_eval_public _ _ Hef Es) as <-.
      apply related_same. intros [].
      * eapply related_bind; [exact Ho|]. intros x y Hxy. by apply related_Ok, low_eval_inherit.
      * apply (IH (length rest)); [subst n; simpl; lia|done|done].
Qed.

Lemma binary_flow name arguments :
  Forall agree arguments →
  related low_eval (evaluate_binary_function eval name arguments)
    (evaluate_binary_function eval' name arguments).
Proof.
  intros H. unfold evaluate_binary_function. destruct arguments as [|a0 [|a1 [|]]]; try done.
  rewrite !Forall_cons in H. destruct H as (H0 & H1 & _).
  eapply related_bind; [exact H0|]. intros l l' Hl. cbv zeta.
  assert (∀ v w r, is_sensitive v = true → text_function name [v; w] = Ok r →
            is_explicitly_sensitive r = true) as Hg.
  { intros v w r Hs Hr. apply (text_function_taints name _ _ Hr). simpl. by rewrite Hs. }
  destruct (is_sensitive (evaluated_value l)) eqn:Es.
  - pose proof (low_eval_sensitive _ _ Hl) as Es'. rewrite Es in Es'. symmetry in Es'.
    rewrite Es'. intros x y Hx Hy. apply low_eval_marked.
    + match type of Hx with (if ?b then _ else _) = _ => destruct b end;
        [by apply Ok_inj in Hx as <-|].
      apply bind_Ok_inv in Hx as (r & _ & Hx). apply bind_Ok_inv in Hx as (v & Hv & Hx).
      apply Ok_inj in Hx as <-. exact (Hg _ _ _ Es Hv).
    + match type of Hy with (if ?b then _ else _) = _ => destruct b end;
        [by apply Ok_inj in Hy as <-|].
      apply bind_Ok_inv in Hy as (r & _ & Hy). apply bind_Ok_inv in Hy as (v & Hv & Hy).
      apply Ok_inj in Hy as <-. exact (Hg _ _ _ Es' Hv).
  - pose proof (low_eval_public _ _ Hl Es) as <-. rewrite Es.
    match goal with |- related _ (if ?b then _ else _) _ => destruct b end.
    + apply related_Ok. by apply low_eval_plain; [constructor|..].
    + eapply related_bind; [exact H1|]. intros r r' (Hr & _).
      eapply related_bind; [|intros v w Hvw; apply related_Ok; exact Hvw].
      apply tainted_related; [apply text_function_taints| |apply text_function_marked..].
      constructor; [apply low_refl|constructor; [exact Hr|constructor]].
Qed.

Lemma join_flow arguments limits :
  Forall agree arguments →
  related low_eval (evaluate_join eval arguments limits) (evaluate_join eval' arguments limits).
Proof.
  intros H. unfold evaluate_join.
  set (g := λ l, join_values l (result_bytes limits)).
  assert (∀ l k, Forall2 low l k →
    related low_eval (value ← g l; Ok (plain value)) (value ← g k; Ok (plain value))) as Hg.
  { intros l k Hlk. eapply related_bind; [apply tainted_related; [apply join_taints|exact Hlk|..];
      apply join_marked|]. intros v w Hvw. by apply related_Ok. }
  assert (∀ l e, existsb is_sensitive l = true → (value ← g l; Ok (plain value)) = Ok e →
            is_explicitly_sensitive (evaluated_value e) = true) as Hm.
  { intros l e Hl (v & Hv & He)%bind_Ok_inv. apply Ok_inj in He as <-. by eapply join_taints. }
  destruct arguments as [|a0 [|a1 [|]]]; try done.
  - apply Forall_inv in H. eapply related_bind; [exact H|]. intros e f (Hef & _).
    rewrite !bind_Ok. apply Hg. by constructor.
  - rewrite !Forall_cons in H. destruct H as (H0 & H1 & _).
    eapply related_bind; [exact H0|]. intros e f Hef. cbv zeta.
    destruct (is_sensitive (evaluated_value e)) eqn:Es.
    + pose proof (low_eval_sensitive _ _ Hef) as Es'. rewrite Es in Es'. symmetry in Es'.
      intros x y (s & _ & Hx)%bind_Ok_inv (s' & _ & Hy)%bind_Ok_inv.
      apply low_eval_marked; (eapply Hm; [|eassumption]); simpl; by rewrite ?Es, ?Es'.
    + pose proof (low_eval_public _ _ Hef Es) as <-.
      eapply (related_bind (Forall2 low)).
      * match goal with |- related _ (if ?b then _ else _) _ => destruct b end.
        -- eapply related_bind; [exact H1|]. intros r r' (Hr & _). apply related_Ok. by repeat constructor.
        -- apply related_Ok. constructor.
      * intros l k Hlk. apply Hg. constructor; [apply low_refl|done].
Qed.

(** *** Templates *)

Definition cached_low (c d : option (str * bool)) : Prop :=
  match c, d with
  | None, None => True
  | Some (s, a), Some (t, b) => a = b ∧ (a = false → s = t)
  | _, _ => False
  end.

Definition format_low (st st' : FormatState) : Prop :=
  format_sensitive st = format_sensitive st' ∧
  (format_sensitive st = false → format_output st = format_output st') ∧
  Forall2 cached_low (format_arguments st) (format_arguments st').

Lemma emit_low v w maximum st st' :
  format_low st st' → (format_sensitive st = false → v = w) →
  related format_low (format_emit v maximum st) (format_emit w maximum st').
Proof.
  intros (Hs & Ho & Hc) Hv a b (o & Ho1 & Ha)%bind_Ok_inv (o' & Ho2 & Hb)%bind_Ok_inv.
  apply Ok_inj in Ha as <-, Hb as <-. split_and!; simpl; [done| |done].
  intros Hf. rewrite <- (Ho Hf), <- (Hv Hf) in Ho2. congruence.
Qed.

Lemma argument_low argument argument' maximum index st st' :
  (∀ i, related low (argument i) (argument' i)) → format_low st st' →
  related format_low (format_argument argument maximum index st)
    (format_argument argument' maximum index st').
Proof.
  intros Ha Hst. pose proof Hst as (Hs & Ho & Hc). unfold format_argument.
  eapply (related_bind (λ c d, c.2 = d.2 ∧ (c.2 = false → c.1 = d.1))).
  - assert (cached_low (default None (format_arguments st !! index))
                       (default None (format_arguments st' !! index))) as Hd.
    { pose proof (proj1 (Forall2_lookup _ _ _) Hc index) as Hl. by destruct Hl. }
    destruct (default None (format_arguments st !! index)) as [[s a]|],
      (default None (format_arguments st' !! index)) as [[t b]|]; try done.
    + by apply related_Ok.
    + eapply related_bind; [exact (Ha index)|]. intros v w Hvw. apply related_Ok. simpl.
      apply low_public in Hvw as [He Heq]. split; [done|]. intros Hf. by rewrite (Heq Hf).
  - intros [s a] [t b] [Hab Hst']. simpl in Hab, Hst'. subst b. apply emit_low.
    + split_and!; simpl; [by rewrite Hs| |].
      * intros [Hf _]%orb_false_iff. by apply Ho.
      * apply Forall2_insert; [done|]. by split.
    + simpl. intros [_ Hf]%orb_false_iff. by apply Hst'.
Qed.

Lemma format_loop_low fuel count maximum argument argument' template st st' :
  (∀ i, related low (argument i) (argument' i)) → format_low st st' →
  related format_low (format_loop fuel count maximum argument template st)
    (format_loop fuel count maximum argument' template st').
Proof.
  intros Ha. revert template st st'. induction fuel as [|fuel IH]; intros [|c rest] st st' Hst;
    try by apply related_Ok. { done. }
  cbn [format_loop].
  repeat match goal with |- related _ (if ?b then _ else _) _ => destruct b end; try done;
    try (eapply related_bind; [by apply emit_low|intros; by apply IH]).
  apply related_same. intros [placeholder r]. apply related_same. intros index.
  eapply related_bind; [by apply argument_low|]. intros. by apply IH.
Qed.

Lemma format_emit_marked v maximum st st' :
  format_emit v maximum st = Ok st' → format_sensitive st' = format_sensitive st.
Proof. intros (o & _ & H)%bind_Ok_inv. by apply Ok_inj in H as <-. Qed.

(** The marker of the result, once set, stays. *)
Lemma format_loop_marked fuel count maximum argument template st st' :
  format_sensitive st = true → format_loop fuel count maximum argument template st = Ok st' →
  format_sensitive st' = true.
Proof.
  revert template st. induction fuel as [|fuel IH]; intros [|c rest] st Hs; cbn [format_loop];
    try done; try by intros <-%Ok_inj.
  repeat match goal with |- (if ?b then _ else _) = _ → _ => destruct b end; try done;
    try (intros (x & Hx%format_emit_marked & H)%bind_Ok_inv; eapply IH; [|exact H]; congruence).
  intros ([placeholder r] & _ & H)%bind_Ok_inv. apply bind_Ok_inv in H as (index & _ & H).
  apply bind_Ok_inv in H as (x & Hx & H). eapply IH; [|exact H].
  apply bind_Ok_inv in Hx as ([v b] & _ & Hx). apply format_emit_marked in Hx.
  rewrite Hx. simpl. by rewrite Hs.
Qed.

Lemma format_flow arguments limits :
  Forall agree arguments →
  related low_eval (evaluate_format eval arguments limits) (evaluate_format eval' arguments limits).
Proof.
  intros H. unfold evaluate_format. destruct arguments as [|a0 rest]; [done|].
  apply Forall_cons in H as [H0 Hr]. apply related_same. intros _.
  eapply related_bind; [exact H0|]. intros t t' Ht. cbv zeta.
  pose proof (low_eval_sensitive _ _ Ht) as Hs.
  eapply (related_bind (λ v w, low_eval (plain v) (plain w))).
  - intros v w (st & Hst & Hv)%bind_Ok_inv (st' & Hst' & Hw)%bind_Ok_inv.
    apply Ok_inj in Hv as <-, Hw as <-.
    destruct (is_sensitive (evaluated_value t)) eqn:Es.
    + apply format_loop_marked in Hst; [|done]. apply format_loop_marked in Hst'; [|by rewrite <- Hs].
      rewrite Hst, Hst'. by apply low_eval_marked.
    + pose proof (low_eval_public _ _ Ht Es) as <-. rewrite Es in Hst'.
      assert (format_low st st') as (Hsen & Hout & _).
      { eapply format_loop_low; [| |exact Hst|exact Hst'].
        - intros i. cbv beta. destruct (rest !! i) as [node|] eqn:E; [|done].
          eapply Forall_lookup_1 in Hr; [|exact E].
          eapply related_bind; [exact Hr|]. intros x y (Hxy & _). by apply related_Ok.
        - split_and!; simpl; [done..|]. by apply Forall2_replicate. }
      rewrite <- Hsen. destruct (format_sensitive st); [by apply low_eval_marked|].
      rewrite (Hout eq_refl). apply low_eval_plain; [apply low_refl|done..].
  - intros v w Hvw. apply (related_bind (λ _ _, True)); [done|]. intros _ _ _. by apply related_Ok.
Qed.

Lemma arguments_flow arguments :
  Forall agree arguments →
  related (Forall2 low) (evaluate_arguments eval arguments) (evaluate_arguments eval' arguments).
Proof.
  induction 1 as [|a l Ha _ IH]; cbn [evaluate_arguments]; [by apply related_Ok|].
  eapply related_bind; [exact Ha|]. intros x y (Hxy & _).
  eapply related_bind; [exact IH|]. intros v w Hvw. apply related_Ok. by constructor.
Qed.
End Operators.
End Flow.

(** ** Access *)

Section Access.
Context {T : CaseTable}.

Lemma object_get_low arc l k m key :
  Forall2 (λ e f, e.1 = f.1 ∧ low e.2 f.2) l k →
  match object_get (MkObject arc l m) key, object_get (MkObject arc k m) key with
  | Some v, Some w => low v w
  | None, None => True
  | _, _ => False
  end.
Proof.
  intros H. unfold object_get. simpl. destruct (m !! ordinal_key key) as [i|]; simpl; [|done].
  pose proof (proj1 (Forall2_lookup _ _ _) H i) as Hi. by destruct Hi as [e f [_ He]|].
Qed.

Lemma list_get_low (l k : list GithubValue) (i : nat) :
  Forall2 low l k →
  match l !! i, k !! i with
  | Some v, Some w => low v w
  | None, None => True
  | _, _ => False
  end.
Proof. intros H. pose proof (proj1 (Forall2_lookup _ _ _) H i) as Hi. by destruct Hi. Qed.

Lemma object_get_marked arc l m key v :
  Forall (λ e, leaves_marked e.2) l → object_get (MkObject arc l m) key = Some v → leaves_marked v.
Proof.
  unfold object_get. simpl. intros H (i & _ & Hv)%bind_Some.
  apply fmap_Some in Hv as (e & He & ->). by eapply Forall_lookup_1 in H.
Qed.

Lemma filtered_array_low arc l k limits :
  Forall2 low l k → Forall leaves_marked l → Forall leaves_marked k →
  related low_eval (filtered_array arc l limits) (filtered_array arc k limits).
Proof.
  intros H Hl Hk e f He Hf. unfold filtered_array, value_array in *.
  apply bind_Ok_inv in He as (_ & _ & He), Hf as (_ & _ & Hf).
  destruct (reject (is_some (github_value_construction_item_rejection (Z.of_nat (length l)))) _)
    in He; [|done].
  destruct (reject (is_some (github_value_construction_item_rejection (Z.of_nat (length k)))) _)
    in Hf; [|done].
  rewrite !bind_Ok in *. cbn [map_err] in *. rewrite !bind_Ok in *.
  apply Ok_inj in He as <-, Hf as <-. split_and!; simpl.
  - by constructor.
  - by right.
  - intros _. simpl. by apply leaves_elements.
  - intros _. simpl. by apply leaves_elements.
Qed.

Lemma plain_default_low (a b : option GithubValue) :
  match a, b with
  | Some v, Some w => low v w
  | None, None => True
  | _, _ => False
  end → (∀ v, a = Some v → leaves_marked v) → (∀ v, b = Some v → leaves_marked v) →
  low_eval (plain (default VNull a)) (plain (default VNull b)).
Proof.
  intros H Ha Hb. destruct a as [v|], b as [w|]; try done; simpl.
  - apply low_eval_plain; [done|apply leaves_well; auto..].
  - by apply low_eval_plain; [constructor|..].
Qed.

Lemma index_one_marked site target index wildcard limits e :
  is_explicitly_sensitive target = true → index_one site target index wildcard limits = Ok e →
  is_explicitly_sensitive (evaluated_value e) = true.
Proof.
  intros Ht (x & _ & H)%bind_Ok_inv. apply Ok_inj in H as <-. rewrite Ht. apply explicit_inherit.
Qed.

Lemma index_filtered_marked site target index wildcard limits e :
  is_explicitly_sensitive target = true → index_filtered site target index wildcard limits = Ok e →
  is_explicitly_sensitive (evaluated_value e) = true.
Proof.
  intros Ht. unfold index_filtered. destruct (without_sensitivity target); try done.
  intros (x & _ & H)%bind_Ok_inv. apply bind_Ok_inv in H as (y & _ & H).
  apply Ok_inj in H as <-. rewrite Ht. apply explicit_inherit.
Qed.

Lemma index_one_flow site target target' index wildcard limits :
  low target target' → well_marked target → well_marked target' →
  related low_eval (index_one site target index wildcard limits)
    (index_one site target' index wildcard limits).
Proof.
  intros Hl Hw Hw'. destruct (is_explicitly_sensitive target) eqn:Es.
  { intros e f He Hf. apply low_eval_marked; [by eapply index_one_marked|].
    rewrite (low_explicit _ _ Hl) in Es. by eapply index_one_marked. }
  specialize (Hw Es). pose proof Es as Es'. rewrite (low_explicit _ _ Hl) in Es'. specialize (Hw' Es').
  unfold index_one. rewrite Es, Es'. eapply related_bind; [|intros e f Hef; by apply related_Ok, low_eval_inherit].
  destruct Hl as [| | | |arc l k H|arc l k m H|]; try done; cbn [without_sensitivity] in *;
    destruct wildcard; try (apply filtered_array_low; [constructor..]);
    try (apply related_Ok; by apply low_eval_plain; [constructor|..]).
  - simpl in Hw, Hw'. rewrite leaves_elements in *. by apply filtered_array_low.
  - simpl in Hw, Hw'. rewrite leaves_elements in *. apply related_Ok, plain_default_low.
    + destruct index as [i|]; simpl; [|done]. destruct (array_index i) as [n|]; simpl; [|done].
      by apply list_get_low.
    + intros v Hv. destruct index as [i|]; simpl in Hv; [|done].
      destruct (array_index i); simpl in Hv; [|done]. by eapply Forall_lookup_1 in Hw.
    + intros v Hv. destruct index as [i|]; simpl in Hv; [|done].
      destruct (array_index i); simpl in Hv; [|done]. by eapply Forall_lookup_1 in Hw'.
  - simpl in Hw, Hw'. rewrite leaves_entries in *.
    apply filtered_array_low; [|by apply Forall_map..]. simpl.
    clear -H. induction H as [|e f l k [_ He] _ IH]; simpl; by constructor.
  - simpl in Hw, Hw'. rewrite leaves_entries in *. apply related_Ok, plain_default_low.
    + destruct index as [i|]; simpl; [|done].
      destruct (primitive_index_string i) as [n|]; simpl; [|done]. by apply object_get_low.
    + intros v Hv. destruct index as [i|]; simpl in Hv; [|done].
      apply bind_Some in Hv as (key & _ & Hv). exact (object_get_marked _ _ _ _ _ Hw Hv).
    + intros v Hv. destruct index as [i|]; simpl in Hv; [|done].
      apply bind_Some in Hv as (key & _ & Hv). exact (object_get_marked _ _ _ _ _ Hw' Hv).
Qed.

(** An element of a filtered array contributes related values: a marked leaf
    contributes none. *)
Lemma project_low v w index wildcard :
  low v w → leaves_marked v → leaves_marked w →
  Forall2 low (project v index wildcard) (project w index wildcard) ∧
  Forall leaves_marked (project v index wildcard) ∧ Forall leaves_marked (project w index wildcard).
Proof.
  intros Hl Hv Hw. unfold project.
  destruct Hl as [| | | |arc l k H|arc l k m H|p q];
    cbn [without_sensitivity is_explicitly_sensitive inherit_sensitivity]; try by repeat constructor.
  - simpl in Hv, Hw. rewrite leaves_elements in *.
    destruct wildcard; [by rewrite !map_id|].
    destruct index as [i|]; simpl; [|by repeat constructor].
    destruct (array_index i) as [n|]; simpl; [|by repeat constructor].
    pose proof (list_get_low l k n H) as Hn.
    destruct (l !! n) eqn:E1, (k !! n) eqn:E2; try done; simpl; try by repeat constructor.
    eapply Forall_lookup_1 in Hv; [|exact E1]. eapply Forall_lookup_1 in Hw; [|exact E2].
    by repeat constructor.
  - simpl in Hv, Hw. rewrite leaves_entries in *. destruct wildcard.
    + split; [|split; by apply Forall_map]. simpl. clear -H.
      induction H as [|e f l k [_ He] _ IH]; simpl; by constructor.
    + destruct index as [i|]; simpl; [|by repeat constructor].
      destruct (primitive_index_string i) as [n|]; [|by repeat constructor].
      cbn [mbind option_bind]. pose proof (object_get_low arc l k m n H) as Hn.
      destruct (object_get (MkObject arc l m) n) eqn:E1, (object_get (MkObject arc k m) n) eqn:E2;
        try done; simpl; try by repeat constructor.
      apply object_get_marked in E1; [|done]. apply object_get_marked in E2; [|done].
      by repeat constructor.
  - simpl in Hv, Hw. unfold is_primitive in Hv, Hw.
    destruct (without_sensitivity p), (without_sensitivity q); try done; by repeat constructor.
Qed.

Lemma project_loop_flow l k index wildcard limits r s :
  Forall2 low l k → Forall leaves_marked l → Forall leaves_marked k →
  Forall2 low r s → Forall leaves_marked r → Forall leaves_marked s →
  related (λ a b, Forall2 low a b ∧ Forall leaves_marked a ∧ Forall leaves_marked b)
    (project_loop l index wildcard limits r) (project_loop k index wildcard limits s).
Proof.
  intros H. revert r s. induction H as [|v w l k Hvw _ IH]; intros r s Hl Hk Hr Hr1 Hr2;
    cbn [project_loop]; [by apply related_Ok|].
  apply Forall_cons in Hl as [Hv Hl], Hk as [Hw Hk].
  destruct (project_low v w index wildcard Hvw Hv Hw) as (Hp & Hp1 & Hp2).
  eapply (related_bind (λ _ _, True)); [done|]. intros _ _ _.
  apply IH; auto using Forall2_app, Forall_app_2.
Qed.

Lemma index_filtered_flow site target target' index wildcard limits :
  low target target' → well_marked target → well_marked target' →
  related low_eval (index_filtered site target index wildcard limits)
    (index_filtered site target' index wildcard limits).
Proof.
  intros Hl Hw Hw'. destruct (is_explicitly_sensitive target) eqn:Es.
  { intros e f He Hf. apply low_eval_marked; [by eapply index_filtered_marked|].
    rewrite (low_explicit _ _ Hl) in Es. by eapply index_filtered_marked. }
  specialize (Hw Es). pose proof Es as Es'. rewrite (low_explicit _ _ Hl) in Es'. specialize (Hw' Es').
  unfold index_filtered. rewrite Es, Es'.
  destruct Hl as [| | | |arc l k H|arc l k m H|]; try done; cbn [without_sensitivity].
  simpl in Hw, Hw'. rewrite leaves_elements in *.
  eapply related_bind; [by apply project_loop_flow; [..|constructor|constructor|constructor]|].
  intros a b (Hab & Ha & Hb) e f He Hf. unfold value_array in *.
  destruct (reject (is_some (github_value_construction_item_rejection (Z.of_nat (length a)))) _)
    in He; [|done].
  destruct (reject (is_some (github_value_construction_item_rejection (Z.of_nat (length b)))) _)
    in Hf; [|done].
  rewrite !bind_Ok in *. cbn [map_err] in *. rewrite !bind_Ok in *.
  apply Ok_inj in He as <-, Hf as <-. split_and!; simpl.
  - by constructor.
  - by right.
  - intros _. simpl. by apply leaves_elements.
  - intros _. simpl. by apply leaves_elements.
Qed.

Lemma index_flow (eval eval' : nat → eresult Evaluated) nodes site target target' index limits :
  low_eval target target' → related low_eval (eval index) (eval' index) →
  related low_eval (evaluate_index eval nodes site target index limits)
    (evaluate_index eval' nodes site target' index limits).
Proof.
  intros Ht Hi. unfold evaluate_index. cbv zeta.
  set (wild := match nodes !! index with Some NWildcard => true | _ => false end).
  set (access := λ (t : Evaluated) i, if evaluated_filtered t
        then index_filtered site (evaluated_value t) i wild limits
        else index_one site (evaluated_value t) i wild limits).
  assert (∀ i, related low_eval (access target i) (access target' i)) as Hsame.
  { intros i. unfold access. destruct Ht as (Hl & Hf & Hw & Hw').
    destruct (is_explicitly_sensitive (evaluated_value target)) eqn:Es.
    - pose proof Es as Es'. rewrite (low_explicit _ _ Hl) in Es'. intros e f He Hf'.
      apply low_eval_marked.
      + destruct (evaluated_filtered target);
          [exact (index_filtered_marked _ _ _ _ _ _ Es He)|exact (index_one_marked _ _ _ _ _ _ Es He)].
      + destruct (evaluated_filtered target');
          [exact (index_filtered_marked _ _ _ _ _ _ Es' Hf')|exact (index_one_marked _ _ _ _ _ _ Es' Hf')].
    - destruct Hf as [Hf|Hf]; [done|]. rewrite <- Hf.
      destruct (evaluated_filtered target); [by apply index_filtered_flow|by apply index_one_flow]. }
  destruct wild; cbn match.
  - rewrite !bind_Ok. eapply related_bind; [apply Hsame|].
    intros e f Hef. by apply related_Ok, low_eval_inherit.
  - intros x y (o & Ho & Hx)%bind_Ok_inv (o' & Ho' & Hy)%bind_Ok_inv.
    apply bind_Ok_inv in Ho as (e & He & Ho), Ho' as (e' & He' & Ho').
    apply Ok_inj in Ho as <-, Ho' as <-. pose proof (Hi _ _ He He') as Hee.
    apply bind_Ok_inv in Hx as (r & Hr & Hx), Hy as (r' & Hr' & Hy).
    apply Ok_inj in Hx as <-, Hy as <-. rewrite <- (low_eval_sensitive _ _ Hee).
    destruct (is_sensitive (evaluated_value e)) eqn:Es.
    + apply low_eval_marked; apply explicit_inherit.
    + pose proof (low_eval_public _ _ Hee Es) as <-. apply low_eval_inherit.
      by eapply Hsame.
Qed.
End Access.

(** ** Whole programs *)

(** Two contexts an observer of unmarked data cannot tell apart. *)
Record low_context (c d : GithubEvaluationContext) : Prop := MkLowContext {
  low_status : context_status c = context_status d;
  low_functions : function_call c = function_call d;
  low_named : ∀ name, low (default VNull (named_value c name)) (default VNull (named_value d name))
}.

(** The values a context supplies have marked leaves. *)
Record marked_context (c : GithubEvaluationContext) : Prop := MkMarkedContext {
  marked_named : ∀ name v, named_value c name = Some v → well_marked v;
  marked_functions : ∀ site name arguments v,
    function_call c site name arguments = Some (Ok v) → well_marked v
}.

Section Programs.
Context {T : CaseTable} {J : SerdeJson}.
Context (c d : GithubEvaluationContext) (limits : GithubExpressionLimits).
Hypothesis Hlow : low_context c d.
Hypothesis Hc : marked_context c.
Hypothesis Hd : marked_context d.

Lemma default_marked (x : GithubEvaluationContext) name :
  marked_context x → well_marked (default VNull (named_value x name)).
Proof. intros H. destruct (named_value x name) eqn:E; simpl; [by eapply marked_named|done]. Qed.

Lemma from_json_marked site l v : from_json site l limits = Ok v → well_marked v.
Proof.
  destruct l as [|a0 [|]]; try discriminate. cbn [from_json].
  destruct (json_document _) as [doc ended]. intros ([w s] & Hw & H)%bind_Ok_inv.
  apply bind_Ok_inv in H as (_ & _ & H). apply Ok_inj in H as <-. apply scalar_marked.
  destruct (json_visit site limits 0 doc (0, 0%nat)) as [[w' [i a]]|] eqn:E; [|done].
  apply Ok_inj in Hw. simplify_eq. apply json_visit_ok in E as (Hp & _). by apply public_leaves.
Qed.

Lemma to_json_marked l v : to_json l limits = Ok v → well_marked v.
Proof.
  destruct l as [|a0 [|]]; try discriminate. cbn [to_json].
  intros (_ & _ & H)%bind_Ok_inv. apply bind_Ok_inv in H as (o & _ & H).
  by apply Ok_inj in H as <-.
Qed.

(** The function behind an eager call. *)
Definition eager_function (x : GithubEvaluationContext) (site : nat) (name : str)
    (l : list GithubValue) : eresult GithubValue :=
  if str_eqb name (lit "fromjson") then from_json site l limits
  else if str_eqb name (lit "tojson") then to_json l limits
  else called ← ok_or (function_call x site name l) UnavailableContext; called.

Lemma eager_marked x site name l v :
  marked_context x → eager_function x site name l = Ok v → well_marked v.
Proof.
  intros Hx. unfold eager_function. destruct (str_eqb name (lit "fromjson")); [apply from_json_marked|].
  destruct (str_eqb name (lit "tojson")); [apply to_json_marked|].
  intros (r & Hr & ->)%bind_Ok_inv. apply ok_or_Ok in Hr. by eapply marked_functions.
Qed.

Lemma eager_flow (eval eval' : nat → eresult Evaluated) site name arguments :
  Forall (λ i, related low_eval (eval i) (eval' i)) arguments →
  related low_eval (evaluate_eager eval site name arguments c limits)
    (evaluate_eager eval' site name arguments d limits).
Proof.
  intros H. unfold evaluate_eager. apply related_same. intros _.
  eapply related_bind; [by apply arguments_flow|]. intros l k Hlk. cbv zeta.
  change (related low_eval
    (value ← eager_function c site name l;
     _ ← enforce_value_limits (inherit_sensitivity value (existsb is_sensitive l)) limits;
     Ok (plain (inherit_sensitivity value (existsb is_sensitive l))))
    (value ← eager_function d site name k;
     _ ← enforce_value_limits (inherit_sensitivity value (existsb is_sensitive k)) limits;
     Ok (plain (inherit_sensitivity value (existsb is_sensitive k))))).
  intros e f (v & Hv & He)%bind_Ok_inv (w & Hw & Hf)%bind_Ok_inv.
  apply bind_Ok_inv in He as (_ & _ & He), Hf as (_ & _ & Hf). apply Ok_inj in He as <-, Hf as <-.
  destruct (low_list _ _ Hlk) as [Hs Heq]. rewrite <- Hs.
  destruct (existsb is_sensitive l); [apply low_eval_marked; apply explicit_inherit|].
  specialize (Heq eq_refl) as <-. simpl.
  assert (v = w) as <-.
  { revert Hv Hw. unfold eager_function. rewrite <- (low_functions _ _ Hlow).
    destruct (str_eqb name (lit "fromjson")); [congruence|].
    destruct (str_eqb name (lit "tojson")); congruence. }
  apply low_eval_plain; [apply low_refl|exact (eager_marked _ _ _ _ _ Hc Hv)|exact (eager_marked _ _ _ _ _ Hc Hv)].
Qed.

Lemma call_flow (eval eval' : nat → eresult Evaluated) site name arguments :
  Forall (λ i, related low_eval (eval i) (eval' i)) arguments →
  related low_eval (evaluate_call eval site name arguments c limits)
    (evaluate_call eval' site name arguments d limits).
Proof.
  intros H. unfold evaluate_call. cbv zeta. rewrite <- (low_status _ _ Hlow).
  assert (∀ v, is_sensitive v = false → related low_eval (Ok (plain v)) (Ok (plain v))) as Hp.
  { intros v Hv. apply related_Ok, low_eval_plain; [apply low_refl|apply leaves_well, public_leaves..]; done. }
  repeat match goal with |- related _ (if ?b then _ else _) _ => destruct b end;
    auto using case_flow, format_flow, binary_flow, join_flow, eager_flow.
  all: destruct arguments; first [by apply Hp | intros a b Ha; discriminate Ha].
Qed.

Lemma node_flow (nodes : list Node) (fuel n : nat) :
  (∀ i v, nodes !! i = Some (NLiteral v) → is_sensitive v = false) →
  related low_eval (evaluate_node fuel nodes c limits n) (evaluate_node fuel nodes d limits n).
Proof.
  intros Hlit. revert n. induction fuel as [|fuel IH]; intros n; cbn [evaluate_node]; [done|].
  assert (∀ l, Forall (λ i, related low_eval (evaluate_node fuel nodes c limits i)
                              (evaluate_node fuel nodes d limits i)) l) as Hl
    by (intros l; apply Forall_forall; auto).
  destruct (nodes !! n) as [node|] eqn:Hn; [|done].
  destruct node as [v|name| |target index|operand|o l r|o operands|name arguments]; try done.
  - apply Hlit in Hn. apply related_Ok, low_eval_plain; [apply low_refl|..];
      by apply leaves_well, public_leaves.
  - apply (related_bind (λ _ _, True)); [done|]. intros _ _ _. apply related_Ok, low_eval_plain;
      [by apply low_named|by apply default_marked..].
  - eapply related_bind; [apply IH|]. intros t t' Ht. by apply index_flow.
  - eapply related_bind; [apply IH|]. intros e f Hef. cbv zeta. apply related_Ok.
    rewrite <- (low_eval_sensitive _ _ Hef).
    destruct (is_sensitive (evaluated_value e)) eqn:Es.
    + apply low_eval_marked; apply explicit_inherit.
    + pose proof (low_eval_public _ _ Hef Es) as <-. by apply low_eval_plain; [apply low_refl|..].
  - eapply related_bind; [apply IH|]. intros e f Hef.
    eapply related_bind; [apply IH|]. intros e2 f2 Hef2. cbv zeta. apply related_Ok.
    rewrite <- (low_eval_sensitive _ _ Hef), <- (low_eval_sensitive _ _ Hef2).
    destruct (is_sensitive (evaluated_value e)) eqn:Es, (is_sensitive (evaluated_value e2)) eqn:Es2;
      try (apply low_eval_marked; apply explicit_inherit).
    pose proof (low_eval_public _ _ Hef Es) as <-. pose proof (low_eval_public _ _ Hef2 Es2) as <-.
    by apply low_eval_plain; [apply low_refl|..].
  - by apply logical_flow.
  - by apply call_flow.
Qed.

Lemma compile_literals (instructions : list ExpressionInstruction) tree :
  tree_compile instructions = Ok tree →
  ∀ i v, tree_nodes tree !! i = Some (NLiteral v) → is_sensitive v = false.
Proof.
  unfold tree_compile. intros ([nodes stack] & H & Ht)%bind_Ok_inv.
  set (Inv := λ (_ : list ExpressionInstruction) (s : list Node * list nat),
         ∀ i v, s.1 !! i = Some (NLiteral v) → is_sensitive v = false).
  assert (Inv instructions (nodes, stack)) as Hi.
  { eapply (try_fold_inv Inv); [| |exact H]; [by intros i v Hi|].
    intros visited x [nodes1 st1] s2 _ Hinv Hstep i v. unfold compile_step in Hstep.
    apply bind_Ok_inv in Hstep as ([node st] & Hnode & Hstep). apply Ok_inj in Hstep as <-. simpl.
    intros [[_ Hi]|[_ ->]]%lookup_snoc_Some; [by eapply Hinv|].
    destruct x as [lt|nm| | | |op|op ct|nm ct]; cbn [compile_instruction] in Hnode; ok_inv;
      try done. by destruct lt. }
  destruct stack as [|root [|]]; try done. by apply Ok_inj in Ht as <-.
Qed.

Lemma program_flow (p : ExpressionProgram) (v w : GithubValue) :
  evaluate limits p c = Ok v → evaluate limits p d = Ok w → low v w.
Proof.
  unfold evaluate. intros Hv Hw.
  apply bind_Ok_inv in Hv as (_ & _ & Hv), Hw as (_ & _ & Hw).
  apply bind_Ok_inv in Hv as (_ & _ & Hv), Hw as (_ & _ & Hw).
  apply bind_Ok_inv in Hv as (tree & Ht & Hv), Hw as (tree' & Ht' & Hw).
  rewrite Ht in Ht'. apply Ok_inj in Ht' as <-.
  apply bind_Ok_inv in Hv as (e & He & Hv), Hw as (f & Hf & Hw).
  apply bind_Ok_inv in Hv as (_ & _ & Hv), Hw as (_ & _ & Hw).
  apply Ok_inj in Hv as <-, Hw as <-.
  apply (node_flow (tree_nodes tree) (S (tree_root tree)) (tree_root tree)
           (compile_literals _ _ Ht) _ _ He Hf).
Qed.
End Programs.
