(* ===== verification/ExpressionTheorems.v ===== *)
(** * ExpressionTheorems: what the evaluation of expressions promises

    The properties of [ExpressionValue], [ExpressionFunctions] and
    [ExpressionEvaluator]: validated programs always evaluate, results stay in
    their limits, secrets stay behind their markers, and the comparisons,
    lookups and JSON functions are what they should be. *)

From S2P Require Import Prelude Text Utf8 Float64 ExpressionProgram ExpressionAst ExpressionValue.
From S2P Require Import ExpressionFunctions ExpressionEvaluator ExpressionSafety ExpressionFlow.

(** ** A concrete library and context for the examples *)

(** A JSON library that reads one document and quotes without escapes. *)
Definition sample_json : SerdeJson := {|
  json_document s :=
    if str_eqb s (lit "[1,2]") then (DSeq [DU64 1; DU64 2] true, true) else (DFail, true);
  json_string s := 34 :: s ++ [34]
|}.

Definition object_of (n : Z) (entries : list (str * GithubValue)) : GithubValue :=
  match object_new (T := ascii_case_table) (Given n) entries with
  | Ok o => VObject o
  | Err _ => VNull
  end.

Definition single_context (name : str) (v : GithubValue) : GithubEvaluationContext :=
  MkContext (λ n, if str_eqb n name then Some v else None) StatusSuccess no_extension_functions.

Lemma single_provider name v : provider_ok (single_context name v).
Proof. by intros site n arguments r. Qed.

Lemma single_marked name v : well_marked v → marked_context (single_context name v).
Proof.
  intros Hv. split; [|done]. intros n w. simpl. destruct (str_eqb n name); [|done]. by intros [= <-].
Qed.

Lemma single_low name v w : low v w → low_context (single_context name v) (single_context name w).
Proof. intros H. split; [done..|]. intros n. simpl. destruct (str_eqb n name); [done|constructor]. Qed.

Definition program_of (instructions : list ExpressionInstruction) : ExpressionProgram :=
  MkProgram 1 (MkDialect (lit "github-actions") 1) (lit "expression") instructions.

Section Claims.
Context {T : CaseTable} {J : SerdeJson}.

(** C21: a validated program always evaluates: its instructions compile to a
    tree, evaluating the tree takes a bounded recursion (any counter above the
    index of the root gives the same result), and the outcome is never the
    internal error, so the evaluator's assertions about operands, wildcards and
    filtered arrays hold in every run. *)
Theorem validated_programs_always_evaluate (p : ExpressionProgram)
    (limits : GithubExpressionLimits) (context : GithubEvaluationContext) :
  program_validate p = Ok tt → provider_ok context →
  evaluate limits p context ≠ Err Internal ∧
  ∃ tree, tree_compile (program_instructions p) = Ok tree ∧
    ∀ fuel, (tree_root tree < fuel)%nat →
      evaluate_node fuel (tree_nodes tree) context limits (tree_root tree) =
      tree_evaluate tree context limits.
Proof.
  intros Hv Hp. destruct (validated_compiles p Hv) as (tree & Ht & Hok & Hr & Hw). split.
  - enough (never (evaluate limits p context)) as H by (intros He; by apply (H Internal)).
    unfold evaluate. rewrite Hv, Ht. cbn [map_err]. rewrite !bind_Ok.
    apply never_bind; [by apply never_reject|intros _ _]. cbv beta; rewrite ?bind_Ok.
    apply never_bind; [|intros e _; apply never_bind; auto with automata].
    apply (node_sound context limits Hp); [done|lia|done|done].
  - exists tree. split; [done|]. intros fuel Hf. apply node_fuel; [done|done|lia].
Qed.

(** C7: secrets stay behind their markers. Take two contexts with the same
    status and functions whose values differ only inside the payloads of
    sensitivity markers, where a marker covers the whole value of a name (or of
    a function) or, inside a value without one, a primitive. When both
    evaluations of a program produce a value, the values differ at most inside
    markers again: what is marked in one run is marked in the other, and a
    result without a marker is the same value. *)
Theorem sensitive_values_do_not_interfere (p : ExpressionProgram)
    (limits : GithubExpressionLimits) (c d : GithubEvaluationContext) (v w : GithubValue) :
  low_context c d → marked_context c → marked_context d →
  evaluate limits p c = Ok v → evaluate limits p d = Ok w →
  low v w ∧ is_sensitive v = is_sensitive w ∧ (is_sensitive v = false → v = w).
Proof.
  intros Hl Hc Hd Hv Hw. pose proof (program_flow c d limits Hl Hc Hd p v w Hv Hw) as H.
  split; [done|]. by apply low_public.
Qed.

(** [enforce_value_limits] accepts exactly the values whose number of
    nested values, nesting and text are within the limits, refuses the others
    as a resource limit, and every result of an evaluation has passed it. *)
Lemma results_stay_within_limits (limits : GithubExpressionLimits) (v : GithubValue) :
  0 <= collection_items limits → 0 <= result_bytes limits →
  (enforce_value_limits v limits = Ok tt ↔ within_limits v limits) ∧
  (∀ e, enforce_value_limits v limits = Err e → e = ResourceLimit) ∧
  (∀ p context, evaluate limits p context = Ok v → within_limits v limits).
Proof.
  intros Hi Hb. pose proof (enforce_value_limits_spec v limits Hi Hb) as Hs. split; [done|].
  split; [apply enforce_value_limits_errors|]. intros p context H. apply Hs. unfold evaluate in H.
  ok_inv. by match goal with Hx : enforce_value_limits _ _ = Ok ?u |- _ => destruct u end.
Qed.

(** Loose comparison is coherent: equality is symmetric, [a > b] is
    [b < a], [a >= b] is [b <= a], and of [a < b], [a == b] and [a > b] at most
    one holds, for any mixture of types, NaN and identities included. *)
Lemma comparisons_are_coherent `{!CaseTableLaws T} (a b : GithubValue) :
  compare_values OpEqual a b = compare_values OpEqual b a ∧
  compare_values OpNotEqual a b = negb (compare_values OpEqual a b) ∧
  compare_values OpGreaterThan a b = compare_values OpLessThan b a ∧
  compare_values OpGreaterThanOrEqual a b = compare_values OpLessThanOrEqual b a ∧
  (compare_values OpLessThan a b && compare_values OpEqual a b) = false ∧
  (compare_values OpLessThan a b && compare_values OpGreaterThan a b) = false.
Proof.
  unfold compare_values. rewrite (abstract_equal_sym b a), (abstract_compare_sym a b).
  split_and!; try done.
  - by destruct (abstract_compare a b) as [[]|].
  - by destruct (abstract_equal a b), (abstract_compare a b) as [[]|].
  - destruct (abstract_equal a b) eqn:E; [|by rewrite andb_false_r].
    by destruct (equal_not_ordered a b E) as [-> | ->].
  - by destruct (abstract_compare a b) as [[]|].
Qed.

(** An object is built exactly when it has few enough entries, no key is
    too long and no two keys fold to the same text; looking a key up then
    returns the value of the entry whose key folds like it. *)
Lemma objects_look_keys_up_ignoring_case (arc : Allocation) (entries : list (str * GithubValue)) :
  (is_ok (object_new arc entries) = true ↔
     Z.of_nat (length entries) <= MAX_CONSTRUCTION_ITEMS ∧
     Forall (λ e, str_len e.1 <= MAX_KEY_BYTES) entries ∧ NoDup (folded_keys entries)) ∧
  ∀ o, object_new arc entries = Ok o →
    ∀ key v, object_get o key = Some v ↔
      ∃ k, (k, v) ∈ entries ∧ ordinal_key k = ordinal_key key.
Proof.
  split.
  - split.
    + destruct (object_new arc entries) as [o|] eqn:E; [intros _|done].
      apply object_new_valid in E as [(Hn & Hnd & Hk & _) <-]. done.
    + intros (Hn & Hk & Hnd). unfold object_new, github_value_construction_item_rejection.
      destruct (Z.ltb_spec MAX_CONSTRUCTION_ITEMS (Z.of_nat (length entries))); [lia|].
      cbn [is_some reject]. rewrite bind_Ok.
      destruct (object_new_loop_total entries [] ∅) as [[m n] Hm]; [|done|done|].
      { split_and!; [constructor|constructor|]. intros f i. by rewrite fin_maps.lookup_empty. }
      simpl in Hm. by rewrite Hm.
  - intros o Ho key v. apply object_new_valid in Ho as [Hv <-]. by apply object_get_valid.
Qed.

(** [fromJSON] stays within its budget: a document it accepts has no more
    values and no more nesting than the limits, and a value read from public
    text carries no marker. *)
Lemma parsed_json_stays_within_budget (site : nat) (limits : GithubExpressionLimits)
    (source v : GithubValue) :
  from_json site [source] limits = Ok v →
  value_size v <= collection_items limits ∧ value_height v <= value_depth limits ∧
  is_sensitive v = is_sensitive source.
Proof.
  cbn [from_json]. destruct (json_document _) as [doc ended].
  intros ([w s] & Hw & H)%bind_Ok_inv. apply bind_Ok_inv in H as (_ & _ & H).
  apply Ok_inj in H as <-.
  destruct (json_visit site limits 0 doc (0, 0%nat)) as [[w' [i a]]|] eqn:E; [|done].
  apply Ok_inj in Hw. simplify_eq. apply json_visit_ok in E as (Hp & -> & Hi & Hd).
  rewrite is_sensitive_inherit, Hp, orb_false_r.
  assert (∀ v b, value_size (inherit_sensitivity v b) = value_size v ∧
                 value_height (inherit_sensitivity v b) = value_height v) as Hm
    by by intros [] [].
  destruct (Hm w (is_sensitive source)) as [-> ->]. split_and!; [lia|lia|done].
Qed.

(** [toJSON] is a pretty printer with two limits: a public value that is
    not nested too deeply and whose text fits becomes exactly its indented
    text, any other public value is a resource limit, and a value with a marker
    anywhere in it is refused. *)
Lemma to_json_prints_or_refuses (limits : GithubExpressionLimits) (v : GithubValue) :
  0 <= result_bytes limits →
  to_json [v] limits =
    if is_sensitive v then Err InvalidOperation
    else if (value_height v <=? value_depth limits) && (str_len (json_text v 0) <=? result_bytes limits)
    then Ok (VString (json_text v 0)) else Err ResourceLimit.
Proof.
  intros Hb. cbn [to_json]. destruct (is_sensitive v); [done|]. cbn [reject]. rewrite bind_Ok.
  rewrite (write_json_writes v 0 limits [] Hb). change (str_len []) with 0. rewrite !Z.add_0_l.
  destruct (value_height v <=? value_depth limits); simpl; [|done].
  by destruct (str_len (json_text v 0) <=? result_bytes limits).
Qed.
End Claims.

(** ** Worked examples *)

#[local] Existing Instance ascii_case_table.
#[local] Existing Instance ascii_case_table_laws.
#[local] Existing Instance sample_json.

(** [github.token && format('{0}!', github.token)] with two different tokens. *)
Definition token_program : ExpressionProgram := program_of
  [INamedValue (lit "github"); ILiteral (LitString (lit "token")); IIndex;
   ILiteral (LitString (lit "{0}!")); INamedValue (lit "github");
   ILiteral (LitString (lit "TOKEN")); IIndex; ICall (lit "format") 2; ILogical OpAnd 2].

Definition token_context (token : str) : GithubEvaluationContext :=
  single_context (lit "github") (object_of 0 [(lit "token", sensitive_string token)]).

Lemma token_marked token : marked_context (token_context token).
Proof. apply single_marked. intros _. vm_compute. repeat split. Qed.

Lemma token_low s t : low_context (token_context s) (token_context t).
Proof. apply single_low. vm_compute. repeat constructor. Qed.

Lemma validated_programs_always_evaluate_witness :
  program_validate token_program = Ok tt ∧
  evaluate evaluation_limits_default token_program (token_context (lit "s")) ≠ Err Internal.
Proof.
  assert (program_validate token_program = Ok tt) as H by (vm_compute; reflexivity).
  split; [exact H|].
  exact (proj1 (validated_programs_always_evaluate token_program evaluation_limits_default
                  (token_context (lit "s")) H (single_provider _ _))).
Defined.

Lemma sensitive_values_do_not_interfere_witness :
  ∃ v w, evaluate evaluation_limits_default token_program (token_context (lit "s")) = Ok v ∧
    evaluate evaluation_limits_default token_program (token_context (lit "t")) = Ok w ∧
    v = VSensitive (VString (lit "s!")) ∧ low v w.
Proof.
  destruct (evaluate evaluation_limits_default token_program (token_context (lit "s"))) as [v|e] eqn:E1;
    [|vm_compute in E1; discriminate E1].
  destruct (evaluate evaluation_limits_default token_program (token_context (lit "t"))) as [w|e] eqn:E2;
    [|vm_compute in E2; discriminate E2].
  exists v, w. split; [reflexivity|]. split; [reflexivity|]. split.
  - vm_compute in E1. injection E1 as <-. reflexivity.
  - exact (proj1 (sensitive_values_do_not_interfere token_program evaluation_limits_default _ _ v w
                    (token_low _ _) (token_marked _) (token_marked _) E1 E2)).
Defined.

(** ** Where the code departs from its own contract *)

(** [join(x.*.k)] *)
Definition projection_program : ExpressionProgram := program_of
  [INamedValue (lit "x"); IWildcard; IIndex; ILiteral (LitString (lit "k")); IIndex;
   ICall (lit "join") 1].

(** An array of one object, marked as a whole, with or without the key. *)
Definition projection_context (entries : list (str * GithubValue)) : GithubEvaluationContext :=
  single_context (lit "x") (VArray (Given 1) [mark_sensitive (object_of 2 entries)]).

Lemma project_loop_Ok {T : CaseTable} (values : list GithubValue) (index : option GithubValue)
    (wildcard : bool) (limits : GithubExpressionLimits) (r r' : list GithubValue) :
  project_loop values index wildcard limits r = Ok r' →
  r' = r ++ (values ≫= λ v, project v index wildcard).
Proof.
  revert r. induction values as [|v values IH]; intros r; cbn [project_loop].
  - intros <-%Ok_inj. by rewrite app_nil_r.
  - intros (u & _ & H)%bind_Ok_inv. apply IH in H as ->. by rewrite <- app_assoc.
Qed.

(** C40: a projection shows which keys marked objects have. Take any array whose
    elements are marked objects, whatever they hold, and any key: the projection
    of the array to the key carries a marker exactly when one of the objects has
    the key, so a public result tells that none has; while reading the key of
    any of these objects directly always gives a marked value. *)
Theorem marked_objects_show_their_keys {T : CaseTable} (site : nat) (arc : Allocation)
    (objects : list GithubObject) (index : GithubValue) (key : str)
    (limits : GithubExpressionLimits) (e : Evaluated) :
  primitive_index_string index = Some key →
  index_filtered site (VArray arc (map (λ o, mark_sensitive (VObject o)) objects)) (Some index) false
    limits = Ok e →
  is_sensitive (evaluated_value e) = existsb (λ o, is_some (object_get o key)) objects ∧
  ∀ o f, o ∈ objects →
    index_one site (mark_sensitive (VObject o)) (Some index) false limits = Ok f →
    is_sensitive (evaluated_value f) = true.
Proof.
  intros Hk H. split.
  2: { intros o f _ Hf. apply explicit_sensitive. by eapply index_one_marked; [|exact Hf]. }
  unfold index_filtered in H. cbn [without_sensitivity is_explicitly_sensitive] in H. ok_inv.
  match goal with Hx : project_loop _ _ _ _ _ = Ok _ |- _ => apply project_loop_Ok in Hx as -> end.
  match goal with Hx : map_err _ _ = Ok _ |- _ =>
    unfold value_array in Hx; destruct (reject _ _) in Hx; [|done]; injection Hx as <- end.
  cbn [evaluated_value inherit_sensitivity is_sensitive app].
  induction objects as [|o objects IH]; [done|].
  cbn [map mbind list_bind existsb]. rewrite existsb_app, IH. f_equal.
  unfold project, mark_sensitive. cbn. rewrite Hk. cbn. destruct (object_get o key) as [v|]; [|done].
  simpl. unfold inherit_sensitivity, mark_sensitive. by destruct v.
Qed.

(** Two marked objects without the key, and one with it. *)
Lemma marked_objects_show_their_keys_witness :
  let o l := match object_of 2 l with VObject o => o | _ => MkObject (Given 0) [] ∅ end in
  ∃ e f,
    index_filtered (T := ascii_case_table) 0
      (VArray (Given 1) (map (λ o, mark_sensitive (VObject o)) [o []; o []]))
      (Some (VString (lit "k"))) false evaluation_limits_default = Ok e ∧
    index_filtered (T := ascii_case_table) 0
      (VArray (Given 1) (map (λ o, mark_sensitive (VObject o)) [o []; o [(lit "k", VNull)]]))
      (Some (VString (lit "k"))) false evaluation_limits_default = Ok f ∧
    is_sensitive (evaluated_value e) = false ∧ is_sensitive (evaluated_value f) = true.
Proof.
  intros o.
  destruct (index_filtered 0 (VArray (Given 1) (map _ [o []; o []])) _ false _) as [e|] eqn:E;
    [|vm_compute in E; discriminate E].
  destruct (index_filtered 0 (VArray (Given 1) (map _ [o []; o [(lit "k", VNull)]])) _ false _)
    as [f|] eqn:F; [|vm_compute in F; discriminate F].
  exists e, f. split; [reflexivity|]. split; [reflexivity|].
  rewrite (proj1 (marked_objects_show_their_keys _ _ _ (VString (lit "k")) (lit "k") _ _ eq_refl E)).
  rewrite (proj1 (marked_objects_show_their_keys _ _ _ (VString (lit "k")) (lit "k") _ _ eq_refl F)).
  split; vm_compute; reflexivity.
Defined.

(** A run: the contexts differ only inside the payload of a marker, both
    evaluations succeed, and one result is a public empty string while the
    other is marked. *)
Lemma projection_reveals_keys_of_marked_objects :
  low_context (projection_context []) (projection_context [(lit "k", VString (lit "v"))]) ∧
  evaluate evaluation_limits_default projection_program (projection_context []) =
    Ok (VString []) ∧
  evaluate evaluation_limits_default projection_program
    (projection_context [(lit "k", VString (lit "v"))]) = Ok (VSensitive (VString (lit "v"))).
Proof.
  split.
  - apply single_low. constructor. repeat constructor.
  - split_and!; vm_compute; reflexivity.
Qed.

(** An array accepts the index zero but not minus zero, which equals it:
    minus zero passes the sign check and is then printed as [-0], which does
    not parse as an index, so the element is silently null. *)
Lemma minus_zero_is_not_an_index :
  compare_values OpEqual (value_number (S754_zero true)) (value_number f64_zero) = true ∧
  array_index (value_number f64_zero) = Some 0%nat ∧
  array_index (value_number (S754_zero true)) = None.
Proof. split_and!; vm_compute; reflexivity. Qed.
