(* ===== verification/ExpressionLexer.v ===== *)
(** * ExpressionLexer: tokens of a workflow condition

    Models the lexer of [crates/automata-ci-workflow-actions/src/expression.rs]
    and what comes before it: the source limits, the search for the delimiters
    of an expression, numbers, identifiers and strings. Positions are byte
    offsets into the source; what is left of the expression stands for the
    cursor. Messages of errors are not modelled, only kind, code and range. *)

From S2P Require Import Prelude Text Utf8 Float64 ExpressionProgram.

(** ** Errors *)

Inductive GithubExpressionErrorKind := KindSyntax | KindContext | KindResourceLimit | KindInternal.

#[export] Instance expression_error_kind_eq_dec : EqDecision GithubExpressionErrorKind.
Proof. solve_decision. Defined.

Record GithubExpressionError := MkError {
  error_kind : GithubExpressionErrorKind;
  error_code : str;
  error_offset : Z;
  error_length : Z
}.

Definition syntax_error := MkError KindSyntax.
Definition context_error := MkError KindContext.
Definition resource_error := MkError KindResourceLimit.
Definition internal_error : GithubExpressionError :=
  MkError KindInternal (lit "github.expression.internal_program") 0 0.

Abbreviation cresult := (result GithubExpressionError) (only parsing).

(** ** Limits *)

Definition GITHUB_EXPRESSION_DIALECT : str := lit "github-actions".
Definition GITHUB_EXPRESSION_DIALECT_VERSION : Z := 1.
Definition GITHUB_EXPRESSION_MAX_UTF16_UNITS : Z := 21000.

Inductive GithubExpressionLimitRejection := RejectUtf16Units.

Definition github_expression_utf16_units_rejection (observed : Z) :
    option GithubExpressionLimitRejection :=
  if GITHUB_EXPRESSION_MAX_UTF16_UNITS <? observed then Some RejectUtf16Units else None.

Record CompilerLimits := MkCompilerLimits {
  limit_input_bytes : Z;
  limit_nodes : Z;
  limit_depth : Z;
  limit_text_bytes : Z
}.

Inductive GithubExpressionLimitError :=
| LimitZero (name : str)
| LimitExceedsDurableMaximum (name : str) (value maximum : Z).

Definition check_limit (name : str) (value maximum : Z) : result GithubExpressionLimitError unit :=
  _ ← reject (value =? 0) (LimitZero name);
  reject (maximum <? value) (LimitExceedsDurableMaximum name value maximum).

Definition compiler_limits_new (max_input_bytes max_nodes max_depth max_text_bytes : Z) :
    result GithubExpressionLimitError CompilerLimits :=
  _ ← check_limit (lit "input bytes") max_input_bytes MAX_EXPRESSION_SOURCE_BYTES;
  _ ← check_limit (lit "nodes") max_nodes MAX_EXPRESSION_INSTRUCTIONS;
  _ ← check_limit (lit "depth") max_depth MAX_EXPRESSION_DEPTH;
  _ ← check_limit (lit "instruction text bytes") max_text_bytes MAX_EXPRESSION_TEXT_BYTES;
  Ok (MkCompilerLimits max_input_bytes max_nodes max_depth max_text_bytes).

Definition compiler_limits_default : CompilerLimits :=
  MkCompilerLimits MAX_EXPRESSION_SOURCE_BYTES MAX_EXPRESSION_INSTRUCTIONS MAX_EXPRESSION_DEPTH
    MAX_EXPRESSION_TEXT_BYTES.

(** What both constructors guarantee. *)
Definition compiler_limits_valid (l : CompilerLimits) : Prop :=
  1 <= limit_input_bytes l <= MAX_EXPRESSION_SOURCE_BYTES ∧
  1 <= limit_nodes l <= MAX_EXPRESSION_INSTRUCTIONS ∧
  1 <= limit_depth l <= MAX_EXPRESSION_DEPTH ∧
  1 <= limit_text_bytes l <= MAX_EXPRESSION_TEXT_BYTES.

(** ** Source text *)

(** The offset of the first forbidden control character. *)
Fixpoint forbidden_control (source : str) (offset : Z) : option (Z * Z) :=
  match source with
  | [] => None
  | c :: source =>
      if source_char_ok c then forbidden_control source (offset + len_utf8 c)
      else Some (offset, len_utf8 c)
  end.

Definition enforce_source_limits (source : str) (limits : CompilerLimits) : cresult unit :=
  _ ← reject (limit_input_bytes limits <? str_len source)
        (resource_error (lit "github.expression.input_limit") (limit_input_bytes limits)
           (str_len source - limit_input_bytes limits));
  match forbidden_control source 0 with
  | Some (offset, length) =>
      Err (syntax_error (lit "github.expression.forbidden_control") offset length)
  | None => Ok tt
  end.

Definition utf16_units (s : str) : Z := foldr (λ c n, (if c <? 65536 then 1 else 2) + n) 0 s.

(** A range of the source: where it starts, and its text. *)
Record ByteRange := MkRange { range_start : Z; range_text : str }.
Definition range_end (r : ByteRange) : Z := range_start r + str_len (range_text r).

Definition enforce_github_length (range : ByteRange) : cresult unit :=
  reject (is_some (github_expression_utf16_units_rejection (utf16_units (range_text range))))
    (resource_error (lit "github.expression.github_length_limit") (range_end range) 0).

(** Scans past quoted text for a delimiter: the text before it and which one
    it is, opening or closing. Two quotes inside quoted text stand for one. *)
Fixpoint scan_delimiter (s : str) (quoted : bool) : option (str * bool) :=
  match s with
  | [] => None
  | c :: rest =>
      let skip r := match r with Some (before, opening) => Some (c :: before, opening) | None => None end in
      if c =? 39 then
        match rest with
        | d :: rest' =>
            if quoted && (d =? 39) then
              match scan_delimiter rest' quoted with
              | Some (before, opening) => Some (c :: d :: before, opening)
              | None => None
              end
            else skip (scan_delimiter rest (negb quoted))
        | [] => skip (scan_delimiter rest (negb quoted))
        end
      else if negb quoted && is_some (strip_prefix (lit "${{") s) then Some ([], true)
      else if negb quoted && is_some (strip_prefix (lit "}}") s) then Some ([], false)
      else skip (scan_delimiter rest quoted)
  end.

Definition first_unquoted_delimiter (range : ByteRange) : option (Z * Z) :=
  match scan_delimiter (range_text range) false with
  | Some (before, opening) =>
      Some (range_start range + str_len before, if opening then 3 else 2)
  | None => None
  end.

(** The text up to the closing delimiter. *)
Definition find_condition_delimiter (range : ByteRange) (opening_offset : Z) : cresult str :=
  match scan_delimiter (range_text range) false with
  | Some (before, true) =>
      Err (syntax_error (lit "github.expression.nested_delimiter")
             (range_start range + str_len before) 3)
  | Some (before, false) => Ok before
  | None => Err (syntax_error (lit "github.expression.unclosed_delimiter") opening_offset 3)
  end.

Definition expression_range (source : str) : cresult ByteRange :=
  let start := str_len source - str_len (trim_start source) in
  let trimmed := trim source in
  match strip_prefix (lit "${{") trimmed with
  | Some body =>
      let inner_start := start + 3 in
      inner ← find_condition_delimiter (MkRange inner_start body) start;
      _ ← reject (negb (str_len inner + 2 =? str_len body))
            (syntax_error (lit "github.expression.trailing_expression")
               (inner_start + str_len inner) 2);
      _ ← reject (str_is_empty (trim inner))
            (syntax_error (lit "github.expression.empty") inner_start (str_len inner));
      Ok (MkRange (inner_start + (str_len inner - str_len (trim_start inner))) (trim inner))
  | None =>
      match first_unquoted_delimiter (MkRange start trimmed) with
      | Some (offset, length) =>
          Err (syntax_error (lit "github.expression.mixed_delimiter") offset length)
      | None => Ok (MkRange start trimmed)
      end
  end.

(** ** Tokens *)

Inductive TokenKind :=
| TIdentifier (name : str)
| TString (value : str)
| TNumber (ieee754_bits : Z)
| TNull
| TBoolean (value : bool)
| TLeftParen | TRightParen | TLeftBracket | TRightBracket | TComma | TDot | TStar
| TNot | TEqual | TNotEqual | TGreater | TGreaterOrEqual | TLess | TLessOrEqual
| TAnd | TOr
| TEof.

#[export] Instance token_kind_eq_dec : EqDecision TokenKind.
Proof. solve_decision. Defined.

Record Token := MkToken { token_kind : TokenKind; token_start : Z; token_end : Z }.

Record Lexer := MkLexer {
  lexer_rest : str;
  lexer_cursor : Z;
  lexer_operand_expected : bool;
  lexer_property_expected : bool
}.

Definition lexer_new (range : ByteRange) : Lexer :=
  MkLexer (range_text range) (range_start range) true false.

Definition token_expects_operand_after (kind : TokenKind) : bool :=
  match kind with
  | TLeftParen | TLeftBracket | TComma | TNot | TEqual | TNotEqual | TGreater | TGreaterOrEqual
  | TLess | TLessOrEqual | TAnd | TOr => true
  | _ => false
  end.

Definition legal_identifier_start (c : Z) : bool := is_ascii_alphabetic c || (c =? 95).
Definition legal_identifier_continue (c : Z) : bool :=
  is_ascii_alphanumeric c || (c =? 95) || (c =? 45).
Definition legal_identifier (value : str) : bool :=
  match value with
  | [] => false
  | first :: rest => legal_identifier_start first && forallb legal_identifier_continue rest
  end.

(** [( ) \[ \] , ! > < = & |] and whitespace end a number. *)
Definition number_boundary (c : Z) : bool :=
  is_whitespace c || str_contains (lit "()[],!><=&|") c.
Definition keyword_boundary (c : Z) : bool := number_boundary c || (c =? 46).

Definition compiler_valid_decimal (raw : str) : bool :=
  let s := (take_sign raw).2 in
  if str_is_empty s then false
  else
    let '(int, s) := span_digits s in
    let '(frac, s) :=
      match s with
      | c :: s' => if c =? 46 then span_digits s' else ([], s)
      | [] => ([], [])
      end in
    if str_is_empty int && str_is_empty frac then false
    else
      match s with
      | [] => true
      | c :: s' =>
          if (c =? 101) || (c =? 69) then
            let '(exponent, s) := span_digits (take_sign s').2 in
            if str_is_empty exponent then false else str_is_empty s
          else false
      end.

Definition parse_radix_literal (digits : str) (radix : Z) (digit : Z → bool) : option f64 :=
  if str_is_empty digits || negb (forallb digit digits) then None
  else value ← u32_from_str_radix digits radix; Some (of_int (i32_of_u32 value)).

Definition parse_number_literal (raw : str) : option f64 :=
  if str_eqb raw (lit "Infinity") then Some f64_infinity
  else if str_eqb raw (lit "-Infinity") then Some f64_neg_infinity
  else
    match strip_prefix (lit "0x") raw with
    | Some hex => parse_radix_literal hex 16 is_ascii_hexdigit
    | None =>
        match strip_prefix (lit "0o") raw with
        | Some octal => parse_radix_literal octal 8 (in_range 48 55)
        | None => if compiler_valid_decimal raw then parse_f64 raw else None
        end
    end.

(** The characters up to the first that ends the lexeme, and the rest. *)
Fixpoint span_until (boundary : Z → bool) (s : str) : str * str :=
  match s with
  | [] => ([], [])
  | c :: rest => if boundary c then ([], s) else let '(a, b) := span_until boundary rest in (c :: a, b)
  end.

(** A token of a known text, after which the lexer stands behind it. *)
Definition emit_token (self : Lexer) (kind : TokenKind) (raw rest : str)
    (operand_expected property_expected : bool) : Token * Lexer :=
  let stop := lexer_cursor self + str_len raw in
  (MkToken kind (lexer_cursor self) stop, MkLexer rest stop operand_expected property_expected).

Definition unexpected_symbol (self : Lexer) (length : Z) : GithubExpressionError :=
  syntax_error (lit "github.expression.unexpected_symbol") (lexer_cursor self) length.

(** An operator of one or two characters: its kind and its text. *)
Definition operator_token (self : Lexer) (c : Z) (rest : str) : cresult (TokenKind * str) :=
  let next d := match rest with e :: _ => e =? d | [] => false end in
  if c =? 33 then Ok (if next 61 then (TNotEqual, [c; 61]) else (TNot, [c]))
  else if c =? 62 then Ok (if next 61 then (TGreaterOrEqual, [c; 61]) else (TGreater, [c]))
  else if c =? 60 then Ok (if next 61 then (TLessOrEqual, [c; 61]) else (TLess, [c]))
  else if (c =? 61) && next 61 then Ok (TEqual, [c; 61])
  else if (c =? 38) && next 38 then Ok (TAnd, [c; 38])
  else if (c =? 124) && next 124 then Ok (TOr, [c; 124])
  else if (c =? 61) || (c =? 38) || (c =? 124) then Err (unexpected_symbol self (len_utf8 c))
  else Err internal_error.

(** The text of a string up to its closing quote: its value, the characters
    taken, and the rest. *)
Fixpoint string_body (s : str) : option (str * str * str) :=
  match s with
  | [] => None
  | c :: rest =>
      if c =? 39 then
        match rest with
        | d :: rest' =>
            if d =? 39 then
              match string_body rest' with
              | Some (value, raw, left_) => Some (39 :: value, c :: d :: raw, left_)
              | None => None
              end
            else Some ([], [c], rest)
        | [] => Some ([], [c], rest)
        end
      else
        match string_body rest with
        | Some (value, raw, left_) => Some (c :: value, c :: raw, left_)
        | None => None
        end
  end.

Definition string_token (self : Lexer) (rest : str) : cresult (Token * Lexer) :=
  match string_body rest with
  | Some (value, raw, left_) => Ok (emit_token self (TString value) (39 :: raw) left_ false false)
  | None =>
      Err (syntax_error (lit "github.expression.unclosed_string") (lexer_cursor self)
             (str_len (39 :: rest)))
  end.

Definition keyword_kind (raw : str) : TokenKind :=
  if str_eqb raw (lit "null") then TNull
  else if str_eqb raw (lit "true") then TBoolean true
  else if str_eqb raw (lit "false") then TBoolean false
  else if str_eqb raw (lit "NaN") then TNumber (to_bits f64_nan)
  else if str_eqb raw (lit "Infinity") then TNumber (to_bits f64_infinity)
  else TIdentifier raw.

Definition identifier_token (self : Lexer) (first : Z) (rest : str) : cresult (Token * Lexer) :=
  let '(more, left_) := span_until keyword_boundary rest in
  let raw := first :: more in
  _ ← reject (negb (legal_identifier raw))
        (syntax_error (lit "github.expression.invalid_identifier") (lexer_cursor self) (str_len raw));
  let kind := if lexer_property_expected self then TIdentifier raw else keyword_kind raw in
  Ok (emit_token self kind raw left_ false false).

Definition number_token (self : Lexer) (s : str) : cresult (Token * Lexer) :=
  let '(raw, left_) := span_until number_boundary s in
  match parse_number_literal raw with
  | None =>
      Err (syntax_error (lit "github.expression.invalid_number") (lexer_cursor self) (str_len raw))
  | Some number =>
      match literal_number number with
      | LitNumber bits => Ok (emit_token self (TNumber bits) raw left_ false false)
      | _ => Err internal_error
      end
  end.

Fixpoint skip_spaces (s : str) (cursor : Z) : str * Z :=
  match s with
  | c :: rest => if is_whitespace c then skip_spaces rest (cursor + len_utf8 c) else (s, cursor)
  | [] => ([], cursor)
  end.

Definition skip_whitespace (self : Lexer) : Lexer :=
  let '(rest, cursor) := skip_spaces (lexer_rest self) (lexer_cursor self) in
  MkLexer rest cursor (lexer_operand_expected self) (lexer_property_expected self).

(** The punctuation of one character. *)
Definition punctuation (c : Z) : option TokenKind :=
  if c =? 40 then Some TLeftParen
  else if c =? 41 then Some TRightParen
  else if c =? 91 then Some TLeftBracket
  else if c =? 93 then Some TRightBracket
  else if c =? 44 then Some TComma
  else if c =? 42 then Some TStar
  else None.

(** [Lexer::next]. *)
Definition lexer_next (self : Lexer) : cresult (Token * Lexer) :=
  let self := skip_whitespace self in
  match lexer_rest self with
  | [] => Ok (MkToken TEof (lexer_cursor self) (lexer_cursor self), self)
  | c :: rest =>
      let simple kind raw rest :=
        emit_token self kind raw rest (token_expects_operand_after kind)
          (if bool_decide (kind = TDot) then true else false) in
      match punctuation c with
      | Some kind => Ok (simple kind [c] rest)
      | None =>
          if c =? 39 then string_token self rest
          else if str_contains (lit "!><=&|") c then
            '(kind, raw) ← operator_token self c rest;
            Ok (simple kind raw (drop (length raw - 1) rest))
          else if c =? 46 then
            if lexer_operand_expected self then number_token self (c :: rest)
            else Ok (simple TDot [c] rest)
          else if (c =? 43) || (c =? 45) || is_ascii_digit c then number_token self (c :: rest)
          else if legal_identifier_start c then identifier_token self c rest
          else Err (unexpected_symbol self (len_utf8 c))
      end
  end.

(** ** What the lexer promises

    A token takes a part of the text, bounded values included, and an error is
    never an internal one. *)

Definition token_ok (limit : Z) (kind : TokenKind) : Prop :=
  match kind with
  | TIdentifier name => str_len name <= limit
  | TString value => str_len value <= limit
  | TNumber bits => is_nan (from_bits bits) = true → bits = canonical_nan
  | _ => True
  end.

(** The token [t] was read from [s], which leaves [rest]. *)
Definition taken (s : str) (t : TokenKind) (rest : str) : Prop :=
  ∃ raw, s = raw ++ rest ∧ raw ≠ [] ∧ token_ok (str_len raw) t.

Definition lexes_well (self : Lexer) (r : cresult (Token * Lexer)) : Prop :=
  match r with
  | Ok (t, self') => taken (lexer_rest self) (token_kind t) (lexer_rest self')
  | Err e => error_kind e ≠ KindInternal
  end.

Lemma span_until_app (boundary : Z → bool) (s a b : str) :
  span_until boundary s = (a, b) → s = a ++ b.
Proof.
  revert a b. induction s as [|c s IH]; simpl; intros a b; [by intros [= <- <-]|].
  destruct (boundary c); [by intros [= <- <-]|].
  destruct (span_until boundary s) as [a' b']. intros [= <- <-]. simpl. f_equal. by apply IH.
Qed.

Lemma string_body_taken (s value raw rest : str) :
  string_body s = Some (value, raw, rest) → s = raw ++ rest ∧ str_len value <= str_len raw.
Proof.
  revert value raw rest. induction s as [s IH] using (induction_ltof1 _ length). unfold ltof in IH.
  destruct s as [|c s]; [done|]. intros value raw rest. simpl.
  destruct (Z.eqb_spec c 39) as [->|Hc].
  - destruct s as [|d s]; [intros [= <- <- <-]; split; [done|by vm_compute]|].
    destruct (Z.eqb_spec d 39) as [->|Hd].
    + destruct (string_body s) as [[[v w] r]|] eqn:E; [|done]. intros [= <- <- <-].
      destruct (IH s ltac:(simpl; lia) _ _ _ E) as [-> Hl]. split; [done|].
      rewrite !str_len_cons. change (len_utf8 39) with 1. lia.
    + intros [= <- <- <-]. split; [done|by vm_compute].
  - destruct (string_body s) as [[[v w] r]|] eqn:E; [|done]. intros [= <- <- <-].
    destruct (IH s ltac:(simpl; lia) _ _ _ E) as [-> Hl]. split; [done|].
    rewrite !str_len_cons. lia.
Qed.

Lemma parse_number_literal_in_format (raw : str) (x : f64) :
  parse_number_literal raw = Some x → in_format x.
Proof.
  unfold parse_number_literal, parse_radix_literal. intros H.
  repeat case_match; simplify_option_eq; try done;
    try apply of_int_in_format; by eapply parse_f64_in_format.
Qed.

Lemma number_token_well (self : Lexer) :
  lexes_well self (number_token self (lexer_rest self)).
Proof.
  unfold number_token. destruct (span_until _ _) as [raw rest] eqn:E.
  apply span_until_app in E. destruct (parse_number_literal raw) as [x|] eqn:Hx; [|done].
  exists raw. split_and!; [done| |].
  - intros ->. by vm_compute in Hx.
  - cbn [token_kind token_ok]. intros Hn. apply to_bits_not_nan; [|done].
    by eapply parse_number_literal_in_format.
Qed.

Lemma identifier_token_well (self : Lexer) (c : Z) (rest : str) :
  lexer_rest self = c :: rest → lexes_well self (identifier_token self c rest).
Proof.
  intros Hr. unfold identifier_token. destruct (span_until _ _) as [more left_] eqn:E.
  apply span_until_app in E. destruct (legal_identifier (c :: more)); [|done].
  exists (c :: more). rewrite Hr, E. split_and!; [done..|].
  cbn [emit_token token_kind]. destruct (lexer_property_expected self); [simpl; lia|].
  unfold keyword_kind.
  destruct (str_eqb _ (lit "null")); [exact I|]. destruct (str_eqb _ (lit "true")); [exact I|].
  destruct (str_eqb _ (lit "false")); [exact I|].
  destruct (str_eqb _ (lit "NaN")); [intros _; reflexivity|].
  destruct (str_eqb _ (lit "Infinity")); [intros H; vm_compute in H; discriminate|]. simpl. lia.
Qed.

Lemma string_token_well (self : Lexer) (rest : str) :
  lexer_rest self = 39 :: rest → lexes_well self (string_token self rest).
Proof.
  intros Hr. unfold string_token. destruct (string_body rest) as [[[value raw] left_]|] eqn:E; [|done].
  apply string_body_taken in E as [-> Hl]. exists (39 :: raw). split_and!; [done..|].
  cbn [emit_token token_kind token_ok]. rewrite str_len_cons. change (len_utf8 39) with 1. lia.
Qed.

(** The operator's text is the character and what it consumes after it. *)
Definition operator_well (c : Z) (rest : str) (r : cresult (TokenKind * str)) : Prop :=
  match r with
  | Ok (kind, raw) =>
      (∃ more, raw = c :: more ∧ rest = more ++ drop (length more) rest) ∧ ∀ l, token_ok l kind
  | Err e => error_kind e ≠ KindInternal
  end.

Lemma operator_one (c : Z) (rest : str) (kind : TokenKind) :
  (∀ l, token_ok l kind) → operator_well c rest (Ok (kind, [c])).
Proof. intros Hk. split; [|done]. by exists []. Qed.

Lemma operator_two (c d : Z) (rest : str) (kind : TokenKind) :
  match rest with e :: _ => e =? d | [] => false end = true →
  (∀ l, token_ok l kind) → operator_well c rest (Ok (kind, [c; d])).
Proof.
  intros H Hk. split; [|done]. exists [d]. split; [done|].
  destruct rest; [done|]. by apply Z.eqb_eq in H as ->.
Qed.

Lemma operator_token_well (self : Lexer) (c : Z) (rest : str) :
  str_contains (lit "!><=&|") c = true → operator_well c rest (operator_token self c rest).
Proof.
  intros Hc. unfold operator_token.
  assert (∀ d two one, (∀ l, token_ok l two) → (∀ l, token_ok l one) →
    operator_well c rest (Ok (if match rest with e :: _ => e =? d | [] => false end
                              then (two, [c; d]) else (one, [c])))) as Hboth.
  { intros d two one H1 H2. destruct (match rest with e :: _ => e =? d | [] => false end) eqn:E;
      [by apply operator_two|by apply operator_one]. }
  destruct (c =? 33) eqn:E1; [by apply Hboth|]. destruct (c =? 62) eqn:E2; [by apply Hboth|].
  destruct (c =? 60) eqn:E3; [by apply Hboth|].
  destruct ((c =? 61) && _) eqn:E4; [apply andb_true_iff in E4 as [_ E4]; by apply operator_two|].
  destruct ((c =? 38) && _) eqn:E5; [apply andb_true_iff in E5 as [_ E5]; by apply operator_two|].
  destruct ((c =? 124) && _) eqn:E6; [apply andb_true_iff in E6 as [_ E6]; by apply operator_two|].
  destruct ((c =? 61) || (c =? 38) || (c =? 124)) eqn:E; [done|].
  exfalso. change (lit "!><=&|") with [33; 62; 60; 61; 38; 124] in Hc.
  unfold str_contains, existsb in Hc. lia.
Qed.

Lemma skip_spaces_app (s : str) (cursor : Z) :
  ∃ skipped, s = skipped ++ (skip_spaces s cursor).1.
Proof.
  revert cursor. induction s as [|c s IH]; intros cursor; simpl; [by exists []|].
  destruct (is_whitespace c); [|by exists []].
  destruct (IH (cursor + len_utf8 c)) as [k Hk]. exists (c :: k). simpl. by f_equal.
Qed.

Lemma punctuation_ok (c : Z) (kind : TokenKind) :
  punctuation c = Some kind → ∀ l, token_ok l kind.
Proof. unfold punctuation. intros H l. repeat case_match; by simplify_eq. Qed.

(** A token other than the end takes text. *)
Definition next_well (self : Lexer) (r : cresult (Token * Lexer)) : Prop :=
  match r with
  | Ok (t, self') =>
      ∃ skipped raw, lexer_rest self = skipped ++ raw ++ lexer_rest self' ∧
        token_ok (str_len raw) (token_kind t) ∧ (token_kind t = TEof ∨ raw ≠ [])
  | Err e => error_kind e ≠ KindInternal
  end.

Lemma lexer_next_well (self : Lexer) : next_well self (lexer_next self).
Proof.
  unfold lexer_next. destruct (skip_spaces_app (lexer_rest self) (lexer_cursor self)) as [skipped Hs].
  assert (lexer_rest (skip_whitespace self) =
    (skip_spaces (lexer_rest self) (lexer_cursor self)).1) as Hrest
    by (unfold skip_whitespace; by destruct (skip_spaces _ _)).
  rewrite <- Hrest in Hs. clear Hrest. set (self1 := skip_whitespace self) in *. clearbody self1.
  assert (∀ r, lexes_well self1 r → next_well self r) as Hwell.
  { intros [[t self']|e]; [|done]. intros (raw & Hraw & Hne & Hok). exists skipped, raw.
    split_and!; [by rewrite Hs, Hraw|done|by right]. }
  assert (∀ kind raw rest b1 b2, lexer_rest self1 = raw ++ rest → raw ≠ [] →
    token_ok (str_len raw) kind → lexes_well self1 (Ok (emit_token self1 kind raw rest b1 b2)))
    as Hsimple by (intros kind raw rest b1 b2 ? ? ?; by exists raw).
  destruct (lexer_rest self1) as [|c rest] eqn:Hr.
  { exists skipped, []. rewrite Hr. split_and!; [done..|by left]. }
  destruct (punctuation c) as [kind|] eqn:Hp.
  { apply Hwell, Hsimple; [done..|]. by eapply punctuation_ok. }
  destruct (c =? 39) eqn:E39.
  { apply Z.eqb_eq in E39 as ->. apply Hwell. by apply string_token_well. }
  destruct (str_contains _ c) eqn:Hop.
  { pose proof (operator_token_well self1 c rest Hop) as Hw.
    destruct (operator_token self1 c rest) as [[kind raw]|e]; [|done].
    destruct Hw as [(more & -> & Hrest) Hok]. rewrite bind_Ok. apply Hwell, Hsimple; [|done..].
    cbn [length app]. rewrite Nat.sub_succ, Nat.sub_0_r. by f_equal. }
  destruct (c =? 46).
  { destruct (lexer_operand_expected self1); [rewrite <- Hr; apply Hwell, number_token_well|].
    by apply Hwell, Hsimple. }
  destruct (_ || _ || is_ascii_digit c); [rewrite <- Hr; apply Hwell, number_token_well|].
  destruct (legal_identifier_start c); [|done]. apply Hwell. by apply identifier_token_well.
Qed.
