(* ===== verification/ExpressionParser.v ===== *)
(** * ExpressionParser: the condition parser and compiler

    Models the parser of [crates/automata-ci-workflow-actions/src/expression.rs]
    and the compiler around it: which contexts and functions a field may use,
    the precedence climbing of [parse_binary] with its limits on nodes and
    nesting, the arity of calls, the implicit status guard of conditions, and
    the durable program at the end. Descriptions in messages are not modelled.

    The methods call each other, so they take the two entry points of the
    recursion as an argument, and [parser_calls] ties the knot on a counter;
    loops have counters of their own. Every call and every turn of a loop
    reads a token first, so the tokens left are enough ([tokens_left]). *)

From S2P Require Import Prelude Text Utf8 Float64 ExpressionProgram ExpressionAst ExpressionLexer.

(** ** Availability *)

(** [ExpressionContext] of core's workflow templates. *)
Inductive ExpressionContext :=
| CtxGithub | CtxInputs | CtxVars | CtxNeeds | CtxStrategy | CtxMatrix | CtxSecrets | CtxEnv
| CtxJob | CtxRunner | CtxSteps | CtxJobs.

#[export] Instance expression_context_eq_dec : EqDecision ExpressionContext.
Proof. solve_decision. Defined.

Inductive GithubConditionPhase := PhaseJob | PhaseStep.

Record GithubValueExpressionPolicy := MkPolicy {
  policy_contexts : list ExpressionContext;
  policy_hash_files : bool
}.

Inductive StatusFunctionAvailability := StatusNone | StatusJob | StatusStep.

Record ParserAvailability := MkAvailability {
  availability_contexts : list ExpressionContext;
  availability_status_functions : StatusFunctionAvailability;
  availability_hash_files : bool
}.

Definition for_condition (phase : GithubConditionPhase) : ParserAvailability :=
  match phase with
  | PhaseJob => MkAvailability [CtxGithub; CtxInputs; CtxNeeds; CtxVars] StatusJob false
  | PhaseStep =>
      MkAvailability
        [CtxGithub; CtxInputs; CtxVars; CtxNeeds; CtxStrategy; CtxMatrix; CtxEnv; CtxJob;
         CtxRunner; CtxSteps] StatusStep true
  end.

Definition for_value (policy : GithubValueExpressionPolicy) : ParserAvailability :=
  MkAvailability (policy_contexts policy) StatusNone (policy_hash_files policy).

Definition context_table : list (str * ExpressionContext) :=
  [(lit "github", CtxGithub); (lit "inputs", CtxInputs); (lit "vars", CtxVars);
   (lit "needs", CtxNeeds); (lit "strategy", CtxStrategy); (lit "matrix", CtxMatrix);
   (lit "env", CtxEnv); (lit "secrets", CtxSecrets); (lit "job", CtxJob);
   (lit "runner", CtxRunner); (lit "steps", CtxSteps); (lit "jobs", CtxJobs)].

(** The arms of a [match] on a string. *)
Fixpoint match_str {A : Type} (arms : list (str * A)) (s : str) : option A :=
  match arms with
  | [] => None
  | (pattern, a) :: arms => if str_eqb s pattern then Some a else match_str arms s
  end.

Definition context_from_name (name : str) : option ExpressionContext :=
  match_str context_table name.

Definition context_allowed (availability : ParserAvailability) (name : str) : bool :=
  match context_from_name name with
  | Some context => bool_decide (context ∈ availability_contexts availability)
  | None => false
  end.

Record FunctionSignature := MkSignature { signature_minimum : Z; signature_maximum : Z }.

Definition shared_signatures : list (str * FunctionSignature) :=
  [(lit "case", MkSignature 3 255);
   (lit "contains", MkSignature 2 2); (lit "endswith", MkSignature 2 2);
   (lit "startswith", MkSignature 2 2);
   (lit "format", MkSignature 1 255);
   (lit "join", MkSignature 1 2);
   (lit "tojson", MkSignature 1 1); (lit "fromjson", MkSignature 1 1)].

Definition status_signatures (status : StatusFunctionAvailability) :
    list (str * FunctionSignature) :=
  match status with
  | StatusNone => []
  | StatusJob =>
      [(lit "always", MkSignature 0 0); (lit "cancelled", MkSignature 0 0);
       (lit "failure", MkSignature 0 u16_max); (lit "success", MkSignature 0 u16_max)]
  | StatusStep =>
      [(lit "always", MkSignature 0 0); (lit "cancelled", MkSignature 0 0);
       (lit "failure", MkSignature 0 0); (lit "success", MkSignature 0 0)]
  end.

Definition function_signature (availability : ParserAvailability) (name : str) :
    option FunctionSignature :=
  match match_str shared_signatures name with
  | Some shared => Some shared
  | None =>
      match match_str (status_signatures (availability_status_functions availability)) name with
      | Some signature => Some signature
      | None =>
          if str_eqb name (lit "hashfiles") && availability_hash_files availability
          then Some (MkSignature 1 255) else None
      end
  end.

Inductive BinaryOperator :=
| BinCompare (operator : ExpressionComparison)
| BinLogical (operator : ExpressionLogical).

(** Precedence and operator of a token. *)
Definition binary_operator (kind : TokenKind) : option (Z * BinaryOperator) :=
  match kind with
  | TGreater => Some (11, BinCompare OpGreaterThan)
  | TGreaterOrEqual => Some (11, BinCompare OpGreaterThanOrEqual)
  | TLess => Some (11, BinCompare OpLessThan)
  | TLessOrEqual => Some (11, BinCompare OpLessThanOrEqual)
  | TEqual => Some (10, BinCompare OpEqual)
  | TNotEqual => Some (10, BinCompare OpNotEqual)
  | TAnd => Some (6, BinLogical OpAnd)
  | TOr => Some (5, BinLogical OpOr)
  | _ => None
  end.

Definition combine (operator : BinaryOperator) (left_ right_ : Ast) : Ast :=
  match operator with
  | BinCompare operator => AstCompare operator left_ right_
  | BinLogical operator => ast_logical operator [left_; right_]
  end.

(** ** The parser *)

Record Parser := MkParser {
  parser_lexer : Lexer;
  parser_current : Token;
  parser_nodes : Z;
  parser_nesting : Z
}.

Definition current_kind (p : Parser) : TokenKind := token_kind (parser_current p).

(** An upper bound on the tokens before the end, the current one included. *)
Definition tokens_left (p : Parser) : nat :=
  match current_kind p with TEof => 0 | _ => S (length (lexer_rest (parser_lexer p))) end.

Definition parser_new (range : ByteRange) : cresult Parser :=
  '(current, lexer) ← lexer_next (lexer_new range);
  Ok (MkParser lexer current 0 0).

Definition advance (self : Parser) : cresult Parser :=
  '(current, lexer) ← lexer_next (parser_lexer self);
  Ok (MkParser lexer current (parser_nodes self) (parser_nesting self)).

(** The range of a token, as an error reports it. *)
Definition at_token (token : Token) (e : Z → Z → GithubExpressionError) : GithubExpressionError :=
  e (token_start token) (token_end token - token_start token).

Definition unexpected (self : Parser) : GithubExpressionError :=
  at_token (parser_current self) (syntax_error (lit "github.expression.unexpected_token")).

Definition expect (expected : TokenKind) (self : Parser) : cresult Parser :=
  _ ← reject (bool_decide (current_kind self ≠ expected)) (unexpected self);
  advance self.

Definition node_limit_error := resource_error (lit "github.expression.node_limit").
Definition depth_limit_error := resource_error (lit "github.expression.depth_limit").

Section Methods.
Context (availability : ParserAvailability) (limits : CompilerLimits).

Definition bump_node (self : Parser) : cresult Parser :=
  let nodes := Z.min u64_max (parser_nodes self + 1) in
  _ ← reject (limit_nodes limits <? nodes) (at_token (parser_current self) node_limit_error);
  Ok (MkParser (parser_lexer self) (parser_current self) nodes (parser_nesting self)).

Definition begin_nested (self : Parser) : cresult Parser :=
  let nesting := Z.min u64_max (parser_nesting self + 1) in
  _ ← reject (limit_depth limits <? nesting) (at_token (parser_current self) depth_limit_error);
  Ok (MkParser (parser_lexer self) (parser_current self) (parser_nodes self) nesting).

Definition end_nested (self : Parser) : Parser :=
  MkParser (parser_lexer self) (parser_current self) (parser_nodes self)
    (Z.max 0 (parser_nesting self - 1)).

Definition ensure_ast_depth (expression : Ast) (start stop : Z) : cresult unit :=
  reject (limit_depth limits <? metric_depth (metrics expression))
    (depth_limit_error start (stop - start)).

(** [begin_nested], a method, [end_nested]. *)
Definition nested (method : Parser → cresult (Ast * Parser)) (self : Parser) :
    cresult (Ast * Parser) :=
  self ← begin_nested self;
  '(a, self) ← method self;
  Ok (a, end_nested self).

(** The recursive entry points. *)
Record Calls := MkCalls {
  call_binary : Z → Parser → cresult (Ast * Parser);
  call_unary : Parser → cresult (Ast * Parser)
}.

Context (calls : Calls).

(** A leaf: [advance], [bump_node]. *)
Definition leaf (self : Parser) : cresult Parser := self ← advance self; bump_node self.

(** The arguments after the first, as long as a comma follows. *)
Fixpoint arguments_loop (fuel : nat) (self : Parser) : cresult (list Ast * Parser) :=
  '(argument, self) ← nested (call_binary calls 0) self;
  if bool_decide (current_kind self ≠ TComma) then Ok ([argument], self)
  else
    self ← advance self;
    if bool_decide (current_kind self = TRightParen) then Err (unexpected self)
    else
      match fuel with
      | O => Err internal_error
      | S fuel =>
          '(arguments, self) ← arguments_loop fuel self;
          Ok (argument :: arguments, self)
      end.

Definition parse_call (name : str) (name_start name_end : Z) (self : Parser) :
    cresult (Ast * Parser) :=
  let canonical := map to_ascii_lowercase name in
  match function_signature availability canonical with
  | None =>
      Err (context_error (lit "github.expression.unrecognized_function") name_start
             (name_end - name_start))
  | Some signature =>
      self ← expect TLeftParen self;
      '(arguments, self) ←
        (if bool_decide (current_kind self ≠ TRightParen)
         then arguments_loop (tokens_left self) self else Ok ([], self));
      let close := parser_current self in
      self ← expect TRightParen self;
      let count := Z.of_nat (length arguments) in
      _ ← reject (count <? signature_minimum signature)
            (at_token close (context_error (lit "github.expression.too_few_arguments")));
      _ ← reject (signature_maximum signature <? count)
            (at_token close (context_error (lit "github.expression.too_many_arguments")));
      _ ← reject (str_eqb canonical (lit "case") && (count mod 2 =? 0))
            (at_token close (context_error (lit "github.expression.even_case_arguments")));
      self ← bump_node self;
      let expression := AstCall canonical arguments in
      _ ← ensure_ast_depth expression name_start name_end;
      Ok (expression, self)
  end.

(** The expression, and whether a postfix may follow it. *)
Definition parse_primary (self : Parser) : cresult (Ast * bool * Parser) :=
  let token := parser_current self in
  let literal v := self ← leaf self; Ok (AstLiteral v, false, self) in
  match token_kind token with
  | TNull => literal LitNull
  | TBoolean value => literal (LitBoolean value)
  | TNumber bits => literal (LitNumber bits)
  | TString value => literal (LitString value)
  | TIdentifier name =>
      self ← advance self;
      if bool_decide (current_kind self = TLeftParen) then
        '(call, self) ← parse_call name (token_start token) (token_end token) self;
        Ok (call, true, self)
      else
        let canonical := map to_ascii_lowercase name in
        _ ← reject (negb (context_allowed availability canonical))
              (at_token token (context_error (lit "github.expression.unrecognized_context")));
        self ← bump_node self;
        Ok (AstNamedValue canonical, true, self)
  | TLeftParen =>
      self ← advance self;
      '(expression, self) ← nested (call_binary calls 0) self;
      self ← expect TRightParen self;
      Ok (expression, true, self)
  | TEof => Err (syntax_error (lit "github.expression.unexpected_end") (token_start token) 0)
  | _ => Err (unexpected self)
  end.

Fixpoint postfix_loop (fuel : nat) (target : Ast) (self : Parser) : cresult (Ast * Parser) :=
  match current_kind self, fuel with
  | (TDot | TLeftBracket), O => Err internal_error
  | TDot, S fuel =>
      self ← advance self;
      let property := parser_current self in
      '(index, self) ←
        match token_kind property with
        | TIdentifier value => self ← leaf self; Ok (AstLiteral (LitString value), self)
        | TStar => self ← leaf self; Ok (AstWildcard, self)
        | _ => Err (unexpected self)
        end;
      self ← bump_node self;
      let target := AstIndex target index in
      _ ← ensure_ast_depth target (token_start property) (token_end property);
      postfix_loop fuel target self
  | TLeftBracket, S fuel =>
      self ← advance self;
      '(index, self) ←
        (if bool_decide (current_kind self = TStar)
         then self ← leaf self; Ok (AstWildcard, self)
         else nested (call_binary calls 0) self);
      self ← expect TRightBracket self;
      self ← bump_node self;
      let target := AstIndex target index in
      let current := parser_current self in
      _ ← ensure_ast_depth target (token_start current) (token_end current);
      postfix_loop fuel target self
  | _, _ => Ok (target, self)
  end.

Definition parse_postfix (target : Ast) (self : Parser) : cresult (Ast * Parser) :=
  postfix_loop (tokens_left self) target self.

Definition parse_unary (self : Parser) : cresult (Ast * Parser) :=
  match current_kind self with
  | TNot =>
      let operator := parser_current self in
      self ← advance self;
      '(operand, self) ← nested (call_unary calls) self;
      self ← bump_node self;
      let expression := AstNot operand in
      _ ← ensure_ast_depth expression (token_start operator) (token_end operator);
      Ok (expression, self)
  | _ =>
      '(primary, postfix_allowed, self) ← parse_primary self;
      _ ← reject (negb postfix_allowed &&
                   match current_kind self with TDot | TLeftBracket => true | _ => false end)
            (unexpected self);
      parse_postfix primary self
  end.

Fixpoint binary_loop (fuel : nat) (minimum_precedence : Z) (left_ : Ast) (self : Parser) :
    cresult (Ast * Parser) :=
  match binary_operator (current_kind self) with
  | None => Ok (left_, self)
  | Some (precedence, operator) =>
      if precedence <? minimum_precedence then Ok (left_, self)
      else
        match fuel with
        | O => Err internal_error
        | S fuel =>
            let operator_token := parser_current self in
            self ← advance self;
            '(right_, self) ← call_binary calls (precedence + 1) self;
            self ← bump_node self;
            let combined := combine operator left_ right_ in
            _ ← ensure_ast_depth combined (token_start operator_token) (token_end operator_token);
            binary_loop fuel minimum_precedence combined self
        end
  end.

Definition parse_binary (minimum_precedence : Z) (self : Parser) : cresult (Ast * Parser) :=
  '(left_, self) ← parse_unary self;
  binary_loop (tokens_left self) minimum_precedence left_ self.
End Methods.

Arguments MkCalls : clear implicits.

Fixpoint parser_calls (availability : ParserAvailability) (limits : CompilerLimits) (fuel : nat) :
    Calls :=
  match fuel with
  | O => MkCalls (λ _ _, Err internal_error) (λ _, Err internal_error)
  | S fuel =>
      let calls := parser_calls availability limits fuel in
      MkCalls (parse_binary availability limits calls) (parse_unary availability limits calls)
  end.

(** [Parser::parse]. *)
Definition parse (availability : ParserAvailability) (limits : CompilerLimits) (self : Parser) :
    cresult Ast :=
  '(expression, self) ←
    call_binary (parser_calls availability limits (S (tokens_left self))) 0 self;
  _ ← reject (bool_decide (current_kind self ≠ TEof)) (unexpected self);
  Ok expression.

(** ** The compiler *)

Definition finish_program (limits : CompilerLimits) (source : str) (range : ByteRange)
    (expression : Ast) : cresult ExpressionProgram :=
  let m := metrics expression in
  let at_range e := e (range_start range) (str_len (range_text range)) in
  _ ← reject (limit_nodes limits <? metric_nodes m) (at_range node_limit_error);
  _ ← reject (limit_depth limits <? metric_depth m) (at_range depth_limit_error);
  let instructions := emit expression in
  text_bytes ← ok_or (instruction_text_bytes instructions)
                 (resource_error (lit "github.expression.text_limit") 0 0);
  _ ← reject (limit_text_bytes limits <? text_bytes)
        (at_range (resource_error (lit "github.expression.text_limit")));
  dialect ← map_err (λ _, internal_error)
              (dialect_new GITHUB_EXPRESSION_DIALECT GITHUB_EXPRESSION_DIALECT_VERSION);
  map_err (λ _, internal_error) (program_new dialect source instructions).

Definition success_program : cresult ExpressionProgram :=
  dialect ← map_err (λ _, internal_error)
              (dialect_new GITHUB_EXPRESSION_DIALECT GITHUB_EXPRESSION_DIALECT_VERSION);
  map_err (λ _, internal_error) (program_new dialect (lit "success()") [ICall (lit "success") 0]).

(** The range, its length check and the parse, which the entry points share. *)
Definition parse_source (limits : CompilerLimits) (availability : ParserAvailability)
    (source : str) : cresult (ByteRange * Ast) :=
  range ← expression_range source;
  _ ← enforce_github_length range;
  parser ← parser_new range;
  expression ← parse availability limits parser;
  Ok (range, expression).

(** A condition that calls no status function is guarded by [success()]. *)
Definition guard_status (expression : Ast) : Ast :=
  if negb (has_status_function expression)
  then ast_logical OpAnd [AstCall (lit "success") []; expression]
  else expression.

Definition compile_condition (limits : CompilerLimits) (source : option str)
    (phase : GithubConditionPhase) : cresult ExpressionProgram :=
  let source := default [] source in
  _ ← enforce_source_limits source limits;
  if str_is_empty (trim source) then success_program
  else
    '(range, expression) ← parse_source limits (for_condition phase) source;
    finish_program limits source range (guard_status expression).

Definition compile_value (limits : CompilerLimits) (source : str)
    (availability : ParserAvailability) : cresult ExpressionProgram :=
  _ ← enforce_source_limits source limits;
  _ ← reject (str_is_empty (trim source))
        (syntax_error (lit "github.expression.empty") 0 (str_len source));
  '(range, expression) ← parse_source limits availability source;
  finish_program limits source range expression.

Definition compile_value_expression (limits : CompilerLimits) (source : str)
    (phase : GithubConditionPhase) : cresult ExpressionProgram :=
  compile_value limits source (for_condition phase).

Definition compile_value_expression_for_policy (limits : CompilerLimits) (source : str)
    (policy : GithubValueExpressionPolicy) : cresult ExpressionProgram :=
  compile_value limits source (for_value policy).
