(* ===== verification/ExpressionGrammar.v ===== *)
(** * ExpressionGrammar: the grammar the condition parser implements

    A grammar with one level per operator precedence, in the style of a
    reference manual, and the proof that the precedence climbing parser of
    [ExpressionParser] implements it: what it accepts is a derivation, and a
    text with a derivation is accepted unless a limit refuses it. *)

From S2P Require Import Prelude Text Utf8 ExpressionProgram ExpressionAst ExpressionLexer.
From S2P Require Import ExpressionParser.

(** ** The grammar *)

Definition literal_of_token (kind : TokenKind) : option ExpressionLiteral :=
  match kind with
  | TNull => Some LitNull
  | TBoolean value => Some (LitBoolean value)
  | TNumber bits => Some (LitNumber bits)
  | TString value => Some (LitString value)
  | _ => None
  end.

Definition arity_ok (signature : FunctionSignature) (name : str) (count : Z) : bool :=
  (signature_minimum signature <=? count) && (count <=? signature_maximum signature) &&
  negb (str_eqb name (lit "case") && (count mod 2 =? 0)).

Section Grammar.
Context (availability : ParserAvailability).

(** [binary n]: operators of precedence [n] at least, left associative. *)
Inductive binary : Z → list TokenKind → Ast → Prop :=
| binary_unary n ts a : unary ts a → binary n ts a
| binary_operation n precedence operator kind ts us l r :
    binary_operator kind = Some (precedence, operator) → n <= precedence →
    binary precedence ts l → binary (precedence + 1) us r →
    binary n (ts ++ kind :: us) (combine operator l r)
with unary : list TokenKind → Ast → Prop :=
| unary_not ts a : unary ts a → unary (TNot :: ts) (AstNot a)
| unary_literal kind v : literal_of_token kind = Some v → unary [kind] (AstLiteral v)
| unary_postfix ts a : postfix ts a → unary ts a
with postfix : list TokenKind → Ast → Prop :=
| postfix_named name :
    context_allowed availability (map to_ascii_lowercase name) = true →
    postfix [TIdentifier name] (AstNamedValue (map to_ascii_lowercase name))
| postfix_call name signature ts l :
    function_signature availability (map to_ascii_lowercase name) = Some signature →
    arguments ts l →
    arity_ok signature (map to_ascii_lowercase name) (Z.of_nat (length l)) = true →
    postfix (TIdentifier name :: TLeftParen :: ts ++ [TRightParen])
      (AstCall (map to_ascii_lowercase name) l)
| postfix_parens ts a : binary 0 ts a → postfix (TLeftParen :: ts ++ [TRightParen]) a
| postfix_property ts a name :
    postfix ts a →
    postfix (ts ++ [TDot; TIdentifier name]) (AstIndex a (AstLiteral (LitString name)))
| postfix_all_properties ts a :
    postfix ts a → postfix (ts ++ [TDot; TStar]) (AstIndex a AstWildcard)
| postfix_all_items ts a :
    postfix ts a → postfix (ts ++ [TLeftBracket; TStar; TRightBracket]) (AstIndex a AstWildcard)
| postfix_item ts a us i :
    postfix ts a → binary 0 us i →
    postfix (ts ++ TLeftBracket :: us ++ [TRightBracket]) (AstIndex a i)
with arguments : list TokenKind → list Ast → Prop :=
| arguments_none : arguments [] []
| arguments_some ts l : more_arguments ts l → arguments ts l
with more_arguments : list TokenKind → list Ast → Prop :=
| more_arguments_last ts a : binary 0 ts a → more_arguments ts [a]
| more_arguments_next ts a us l :
    binary 0 ts a → more_arguments us l → more_arguments (ts ++ TComma :: us) (a :: l).

Scheme binary_mut := Induction for binary Sort Prop
with unary_mut := Induction for unary Sort Prop
with postfix_mut := Induction for postfix Sort Prop
with arguments_mut := Induction for arguments Sort Prop
with more_arguments_mut := Induction for more_arguments Sort Prop.
Combined Scheme grammar_ind from binary_mut, unary_mut, postfix_mut, arguments_mut, more_arguments_mut.

Lemma binary_weaken (n m : Z) (ts : list TokenKind) (a : Ast) :
  n <= m → binary m ts a → binary n ts a.
Proof.
  intros Hn H. destruct H; [by apply binary_unary|]. econstructor; [done|lia|done..].
Qed.
End Grammar.

(** ** Positions

    Where the parser stands: what the lexer has left, and the current token. *)

Definition position : Type := Lexer * Token.
Definition position_of (p : Parser) : position := (parser_lexer p, parser_current p).
Definition kind_at (x : position) : TokenKind := token_kind x.2.
Definition left_at (x : position) : nat :=
  match kind_at x with TEof => 0 | _ => S (length (lexer_rest x.1)) end.

(** The tokens between two positions. *)
Inductive reads : position → list TokenKind → position → Prop :=
| reads_nil x : reads x [] x
| reads_cons x token lexer ts y :
    kind_at x ≠ TEof → lexer_next x.1 = Ok (token, lexer) → reads (lexer, token) ts y →
    reads x (kind_at x :: ts) y.

Lemma reads_app (x y z : position) (ts us : list TokenKind) :
  reads x ts y → reads y us z → reads x (ts ++ us) z.
Proof. induction 1; intros Hu; [done|]. simpl. econstructor; eauto. Qed.

Lemma reads_app_inv (x z : position) (ts us : list TokenKind) :
  reads x (ts ++ us) z → ∃ y, reads x ts y ∧ reads y us z.
Proof.
  revert x. induction ts as [|t ts IH]; intros x H; [exists x; by split; [constructor|]|].
  inversion H as [|x' token lexer us' y' Hk Hn Hr]; subst. destruct (IH _ Hr) as (y & H1 & H2).
  exists y. split; [|done].
  by econstructor.
Qed.

Lemma reads_left (x y : position) (ts : list TokenKind) :
  reads x ts y → (length ts + left_at y <= left_at x)%nat.
Proof.
  induction 1 as [|x token lexer ts y Hk Hn _ IH]; [simpl; lia|]. simpl.
  pose proof (lexer_next_well x.1) as Hw. rewrite Hn in Hw.
  destruct Hw as (skipped & raw & Hr & _ & Hne).
  assert (left_at (lexer, token) < left_at x)%nat; [|lia].
  unfold left_at at 2. destruct (kind_at x) eqn:E; try done; rewrite Hr, !length_app;
    unfold left_at, kind_at in *; simpl in *;
    (destruct Hne as [-> |Hne]; [lia|]);
    (destruct raw; [done|]; simpl; destruct (token_kind token); lia).
Qed.

Lemma reads_one (x y : position) (ts : list TokenKind) (k : TokenKind) :
  reads x (k :: ts) y → kind_at x = k.
Proof. by inversion 1. Qed.

(** ** Outcomes

    [post E Q r]: success satisfies [Q], and an error is of a kind in [E]. *)

Definition post {A : Type} (E : GithubExpressionErrorKind → Prop) (Q : A → Prop)
    (r : cresult A) : Prop :=
  match r with Ok a => Q a | Err e => E (error_kind e) end.

Lemma post_bind {A B : Type} (E : GithubExpressionErrorKind → Prop) (Q : B → Prop) (R : A → Prop)
    (m : cresult A) (f : A → cresult B) :
  post E R m → (∀ a, R a → post E Q (f a)) → post E Q (a ← m; f a).
Proof. destruct m; simpl; auto. Qed.

Lemma post_weaken {A : Type} (E : GithubExpressionErrorKind → Prop) (Q R : A → Prop)
    (m : cresult A) :
  post E R m → (∀ a, R a → Q a) → post E Q m.
Proof. destruct m; simpl; auto. Qed.

Definition sound_error (kind : GithubExpressionErrorKind) : Prop := kind ≠ KindInternal.
Definition limit_error (kind : GithubExpressionErrorKind) : Prop := kind = KindResourceLimit.

Lemma post_reject {A : Type} (E : GithubExpressionErrorKind → Prop) (Q : A → Prop) (c : bool)
    (e : GithubExpressionError) (f : unit → cresult A) :
  (c = true → E (error_kind e)) → (c = false → post E Q (f tt)) →
  post E Q (u ← reject c e; f u).
Proof. destruct c; simpl; auto. Qed.

Section Primitives.
Context (limits : CompilerLimits) (E : GithubExpressionErrorKind → Prop).
Hypothesis limit_in : E KindResourceLimit.

Lemma bump_node_post (p : Parser) :
  post E (λ p', position_of p' = position_of p) (bump_node limits p).
Proof. unfold bump_node. by apply post_reject. Qed.

Lemma begin_nested_post (p : Parser) :
  post E (λ p', position_of p' = position_of p) (begin_nested limits p).
Proof. unfold begin_nested. by apply post_reject. Qed.

Lemma ensure_ast_depth_post {A : Type} (Q : A → Prop) (a : Ast) (start stop : Z)
    (f : unit → cresult A) :
  post E Q (f tt) → post E Q (u ← ensure_ast_depth limits a start stop; f u).
Proof. intros H. unfold ensure_ast_depth. by apply post_reject. Qed.

Lemma bump_node_bind {A : Type} (Q : A → Prop) (p : Parser) (f : Parser → cresult A) :
  (∀ p', position_of p' = position_of p → post E Q (f p')) →
  post E Q (p' ← bump_node limits p; f p').
Proof. intros H. eapply post_bind; [apply bump_node_post|done]. Qed.

(** What a nested method does, with its state put back. *)
Lemma nested_bind {A : Type} (Q : A → Prop) (method : Parser → cresult (Ast * Parser))
    (p : Parser) (f : Ast * Parser → cresult A) :
  (∀ p1, position_of p1 = position_of p →
     post E (λ '(a, p2), ∀ p3, position_of p3 = position_of p2 → post E Q (f (a, p3)))
       (method p1)) →
  post E Q (r ← nested limits method p; f r).
Proof.
  intros H. eapply post_bind; [|intros r Hr; exact Hr].
  unfold nested. eapply post_bind; [apply begin_nested_post|]. intros p1 Hp1.
  eapply post_bind; [by apply H|]. intros [a p2] H2. by apply H2.
Qed.
End Primitives.

(** ** What the parser accepts has a derivation *)

(** The operator at a position binds less than level [n]. *)
Definition stops (n : Z) (x : position) : Prop :=
  match binary_operator (kind_at x) with Some (precedence, _) => precedence < n | None => True end.

Lemma binary_operator_range (kind : TokenKind) (precedence : Z) (operator : BinaryOperator) :
  binary_operator kind = Some (precedence, operator) →
  5 <= precedence <= 11 ∧ kind ≠ TEof ∧ kind ≠ TDot ∧ kind ≠ TLeftBracket ∧ kind ≠ TLeftParen.
Proof. destruct kind; intros [= <- <-]; split_and!; (lia || done). Qed.

Section Soundness.
Context (availability : ParserAvailability) (limits : CompilerLimits).

(** From position [x] the parser read some tokens that [G] derives. *)
Definition parsed {A : Type} (G : list TokenKind → A → Prop) (x : position) (r : A * Parser) : Prop :=
  ∃ ts, reads x ts (position_of r.2) ∧ ts ≠ [] ∧ G ts r.1.

Record calls_sound (n : nat) (calls : Calls) : Prop := {
  call_binary_sound (m : Z) (p : Parser) :
    m <= 12 → (tokens_left p < n)%nat →
    post sound_error (λ r, parsed (binary availability m) (position_of p) r ∧
                           stops m (position_of r.2)) (call_binary calls m p);
  call_unary_sound (p : Parser) :
    (tokens_left p < n)%nat →
    post sound_error (parsed (unary availability) (position_of p)) (call_unary calls p)
}.

Lemma advance_sound (p : Parser) :
  current_kind p ≠ TEof →
  post sound_error (λ p', reads (position_of p) [current_kind p] (position_of p')) (advance p).
Proof.
  intros Hk. unfold advance. pose proof (lexer_next_well (parser_lexer p)) as Hw.
  destruct (lexer_next (parser_lexer p)) as [[token lexer]|e] eqn:E; [|done]. simpl.
  by apply (reads_cons (position_of p) token lexer []); [done|done|constructor].
Qed.

Lemma unexpected_sound {A : Type} (Q : A → Prop) (p : Parser) :
  post sound_error Q (Err (unexpected p)).
Proof. done. Qed.

Lemma expect_sound (k : TokenKind) (p : Parser) :
  k ≠ TEof → post sound_error (λ p', reads (position_of p) [k] (position_of p')) (expect k p).
Proof.
  intros Hk. unfold expect. apply post_reject; [done|]. intros <-%bool_decide_eq_false%dec_stable.
  by apply advance_sound.
Qed.

Lemma leaf_sound (p : Parser) :
  current_kind p ≠ TEof →
  post sound_error (λ p', reads (position_of p) [current_kind p] (position_of p')) (leaf limits p).
Proof.
  intros Hk. unfold leaf. eapply post_bind; [by apply advance_sound|]. intros p1 H1.
  eapply post_weaken; [by apply bump_node_post|]. by intros p2 ->.
Qed.

(** Reading on costs tokens. *)
Lemma reads_tokens (p p' : Parser) (ts : list TokenKind) :
  reads (position_of p) ts (position_of p') → (length ts + tokens_left p' <= tokens_left p)%nat.
Proof. apply reads_left. Qed.

Lemma tokens_left_at (p p' : Parser) :
  position_of p' = position_of p → tokens_left p' = tokens_left p.
Proof. change (tokens_left ?p) with (left_at (position_of p)). by intros ->. Qed.

Context (calls : Calls) (n : nat).
Hypothesis Hcalls : calls_sound n calls.

Lemma nested_binary_sound {A : Type} (Q : A → Prop) (p : Parser) (f : Ast * Parser → cresult A) :
  (tokens_left p < n)%nat →
  (∀ a ts p', reads (position_of p) ts (position_of p') → ts ≠ [] → binary availability 0 ts a →
     post sound_error Q (f (a, p'))) →
  post sound_error Q (r ← nested limits (call_binary calls 0) p; f r).
Proof.
  intros Hn H. apply nested_bind; [done|]. intros p1 Hp1.
  eapply post_weaken; [apply (call_binary_sound n calls Hcalls); [lia|]|].
  - by rewrite (tokens_left_at p p1).
  - intros [a p2] [(ts & Hr & Hne & Hb) _] p3 Hp3. rewrite Hp1 in Hr. cbn [fst snd] in *.
    eapply H; [by rewrite Hp3|done..].
Qed.

Lemma arguments_loop_sound (fuel : nat) (p : Parser) :
  (tokens_left p < n)%nat → (tokens_left p <= fuel)%nat →
  post sound_error (parsed (more_arguments availability) (position_of p))
    (arguments_loop limits calls fuel p).
Proof.
  revert p. induction fuel as [|fuel IH]; intros p Hn Hf; simpl;
    (apply nested_binary_sound; [done|]; intros a ts p1 Hr Hne Hb;
     pose proof (reads_tokens _ _ _ Hr);
     case_bool_decide as Hc;
     [exists ts; split_and!; [done..|by apply more_arguments_last]|];
     eapply post_bind; [apply advance_sound; by rewrite Hc|]; rewrite Hc; intros p2 H2;
     case_bool_decide; [done|]; pose proof (reads_tokens _ _ _ H2)); simpl in *.
  - destruct ts; [done|]. simpl in *. lia.
  - eapply post_bind; [apply IH; lia|]. intros [l p3] (us & Hu & Hne' & Hm).
    cbn [fst snd] in *. exists (ts ++ TComma :: us). split_and!.
    + eapply reads_app; [exact Hr|]. by apply (reads_app _ _ _ [TComma] us H2).
    + by destruct ts.
    + by apply more_arguments_next.
Qed.

Lemma parse_call_sound (name : str) (start stop : Z) (p : Parser) :
  (tokens_left p <= n)%nat →
  post sound_error
    (parsed (λ ts a, postfix availability (TIdentifier name :: ts) a) (position_of p))
    (parse_call availability limits calls name start stop p).
Proof.
  intros Hn. unfold parse_call.
  destruct (function_signature _ _) as [signature|] eqn:Hs; [|done].
  eapply post_bind; [by apply expect_sound|]. intros p1 H1. pose proof (reads_tokens _ _ _ H1) as Hl.
  simpl in Hl. eapply (post_bind _ _ (λ r, ∃ ts, reads (position_of p1) ts (position_of r.2) ∧
    arguments availability ts r.1)).
  { case_bool_decide.
    - eapply post_weaken; [apply arguments_loop_sound; lia|]. intros [l p2] (ts & Hr & _ & Hm).
      exists ts. split; [done|by constructor].
    - exists []. split; [constructor|constructor]. }
  intros [l p2] (ts & Hr & Ha). cbn [fst snd] in *.
  eapply post_bind; [by apply expect_sound|]. intros p3 H3.
  apply post_reject; [done|]. intros Hmin. apply post_reject; [done|]. intros Hmax.
  apply post_reject; [done|]. intros Hcase.
  apply bump_node_bind; [done|]. intros p4 H4.
  apply ensure_ast_depth_post; [done|].
  exists (TLeftParen :: ts ++ [TRightParen]). cbn [fst snd]. split_and!; [|done|].
  - rewrite H4. apply (reads_app _ _ _ [TLeftParen] _ H1). by eapply reads_app.
  - eapply postfix_call; [done|done|]. unfold arity_ok. rewrite Hcase.
    apply Z.ltb_ge in Hmin, Hmax. lia.
Qed.

Definition primary (x : position) (r : Ast * bool * Parser) : Prop :=
  parsed (if r.1.2 then postfix availability else unary availability) x (r.1.1, r.2).

Lemma parse_primary_sound (p : Parser) :
  (tokens_left p <= n)%nat →
  post sound_error (primary (position_of p)) (parse_primary availability limits calls p).
Proof.
  intros Hn. unfold parse_primary. cbv zeta.
  assert (∀ v, current_kind p ≠ TEof → literal_of_token (current_kind p) = Some v →
    post sound_error (primary (position_of p))
      (self ← leaf limits p; Ok (AstLiteral v, false, self))) as Hlit.
  { intros v Hne Hv. eapply post_bind; [by apply leaf_sound|]. intros p1 H1.
    exists [current_kind p]. split_and!; [done..|by constructor]. }
  change (token_kind (parser_current p)) with (current_kind p).
  destruct (current_kind p) as [name|value|bits| |value| | | | | | | | | | | | | | | | |] eqn:E;
    try done; try (by apply Hlit).
  - eapply post_bind; [apply advance_sound; by rewrite E|]. rewrite E. intros p1 H1.
    pose proof (reads_tokens _ _ _ H1). simpl in *. case_bool_decide.
    + eapply post_bind; [apply parse_call_sound; lia|].
      intros [a p2] (ts & Hr & Hne & Hp). cbn [fst snd] in *.
      exists (TIdentifier name :: ts). split_and!; [|done..].
      by apply (reads_app _ _ _ [TIdentifier name] ts H1).
    + apply post_reject; [done|]. intros Hc%negb_false_iff.
      apply bump_node_bind; [done|]. intros p2 H2. exists [TIdentifier name].
      cbn [fst snd]. rewrite H2. split_and!; [done..|by constructor].
  - eapply post_bind; [apply advance_sound; by rewrite E|]. rewrite E. intros p1 H1.
    pose proof (reads_tokens _ _ _ H1). simpl in *.
    apply nested_binary_sound; [lia|]. intros a ts p2 Hr Hne Hb.
    eapply post_bind; [by apply expect_sound|]. intros p3 H3.
    exists (TLeftParen :: ts ++ [TRightParen]). split_and!; [|done|by constructor].
    apply (reads_app _ _ _ [TLeftParen] _ H1). by eapply reads_app.
Qed.

(** One access after a target, up to its node. *)
Lemma postfix_turn (x : position) (p p' : Parser) (ts us : list TokenKind) (b : Ast)
    (Q : Ast * Parser → Prop) (f : Parser → cresult (Ast * Parser)) (start stop : Parser → Z) :
  reads x ts (position_of p) → reads (position_of p) us (position_of p') → us ≠ [] →
  postfix availability (ts ++ us) b →
  (∀ p2 ts', reads x ts' (position_of p2) → ts' ≠ [] → postfix availability ts' b →
     (tokens_left p2 < tokens_left p)%nat → post sound_error Q (f p2)) →
  post sound_error Q
    (p2 ← bump_node limits p'; u ← ensure_ast_depth limits b (start p2) (stop p2); f p2).
Proof.
  intros Hx Hr Hne Hp H. apply bump_node_bind; [done|]. intros p2 H2.
  apply ensure_ast_depth_post; [done|]. apply (H p2 (ts ++ us)); [|by destruct ts, us|exact Hp|].
  - rewrite H2. by eapply reads_app.
  - rewrite (tokens_left_at _ _ H2). pose proof (reads_tokens _ _ _ Hr). destruct us; [done|].
    simpl in *. lia.
Qed.

Lemma postfix_loop_sound (fuel : nat) (x : position) (ts : list TokenKind) (a : Ast) (p : Parser) :
  reads x ts (position_of p) → ts ≠ [] → postfix availability ts a →
  (tokens_left p <= n)%nat → (tokens_left p <= fuel)%nat →
  post sound_error (parsed (postfix availability) x) (postfix_loop limits calls fuel a p).
Proof.
  revert ts a p. induction fuel as [|fuel IH]; intros ts a p Hx Hne Hp Hn Hf.
  - cbn [postfix_loop]. unfold tokens_left in Hf.
    destruct (current_kind p); simpl in Hf; try lia; by exists ts.
  - assert (∀ p', (tokens_left p' < tokens_left p)%nat → (tokens_left p' <= n)%nat ∧
      (tokens_left p' <= fuel)%nat) as Hless by lia.
    cbn [postfix_loop]. destruct (current_kind p) eqn:E; try (by exists ts).
    + eapply post_bind; [apply advance_sound; by rewrite E|]. rewrite E. intros p1 H1.
      pose proof (reads_tokens _ _ _ H1) as Hl. simpl in Hl. cbv zeta. clear Hl.
      assert (∀ p2 us, reads (position_of p1) us (position_of p2) →
        reads (position_of p) (TLeftBracket :: us) (position_of p2)) as Happ.
      { intros p2 us Hu. by apply (reads_app _ _ _ [TLeftBracket] us H1). }
      case_bool_decide as Hstar.
      * eapply (post_bind _ _ (λ r, r.1 = AstWildcard ∧
          reads (position_of p1) [TStar] (position_of r.2))).
        { eapply post_bind; [apply leaf_sound; by rewrite Hstar|]. rewrite Hstar. by intros p2 H2. }
        intros [index p2] [Hi H2]. cbn [fst snd] in *. subst index.
        eapply post_bind; [by apply expect_sound|]. intros p3 H3.
        eapply (postfix_turn x p p3 ts [TLeftBracket; TStar; TRightBracket]); [done| |done| |].
        -- apply Happ. by apply (reads_app _ _ _ [TStar] _ H2).
        -- by apply postfix_all_items.
        -- intros p4 us Hu Hne' Hp' Hlt. apply Hless in Hlt as []. by eapply IH.
      * pose proof (reads_tokens _ _ _ H1) as Hl. simpl in Hl.
        apply nested_binary_sound; [lia|]. intros i us p2 Hr Hne' Hb.
        eapply post_bind; [by apply expect_sound|]. intros p3 H3.
        eapply (postfix_turn x p p3 ts (TLeftBracket :: us ++ [TRightBracket])); [done| |done| |].
        -- apply Happ. by eapply reads_app.
        -- by apply postfix_item.
        -- intros p4 us' Hu Hne'' Hp' Hlt. apply Hless in Hlt as []. by eapply IH.
    + eapply post_bind; [apply advance_sound; by rewrite E|]. rewrite E. intros p1 H1.
      change (token_kind (parser_current p1)) with (current_kind p1).
      eapply (post_bind _ _ (λ r, ∃ k, postfix availability (ts ++ [TDot; k]) (AstIndex a r.1) ∧
        reads (position_of p1) [k] (position_of r.2))).
      { destruct (current_kind p1) as [name| | | | | | | | | | | | | | | | | | | | |] eqn:E1; try done;
          (eapply post_bind; [apply leaf_sound; by rewrite E1|]); rewrite E1; intros p2 H2;
          eexists; (split; [|exact H2]); [by apply postfix_property|by apply postfix_all_properties]. }
      intros [index p2] (k & Hk & H2). cbn [fst snd] in *.
      eapply (postfix_turn x p p2 ts [TDot; k]); [done| |done|done|].
      * by apply (reads_app _ _ _ [TDot] [k] H1).
      * intros p4 us' Hu Hne'' Hp' Hlt. apply Hless in Hlt as []. by eapply IH.
Qed.

Lemma parse_unary_sound (p : Parser) :
  (tokens_left p <= n)%nat →
  post sound_error (parsed (unary availability) (position_of p))
    (parse_unary availability limits calls p).
Proof.
  intros Hn. unfold parse_unary.
  assert (post sound_error (parsed (unary availability) (position_of p))
    ('(primary, postfix_allowed, self) ← parse_primary availability limits calls p;
     _ ← reject (negb postfix_allowed &&
                  match current_kind self with TDot | TLeftBracket => true | _ => false end)
           (unexpected self);
     parse_postfix limits calls primary self)) as Hprimary.
  { eapply post_bind; [by apply parse_primary_sound|].
    intros [[a allowed] p1] (ts & Hr & Hne & Hp). cbn [fst snd] in *.
    pose proof (reads_tokens _ _ _ Hr). apply post_reject; [done|]. intros Hc.
    unfold parse_postfix. destruct allowed.
    - eapply post_weaken; [apply (postfix_loop_sound _ (position_of p) ts); done || lia|].
      intros r (us & Hu & Hne' & Hp'). exists us. split_and!; [done..|by constructor].
    - cbn [negb andb] in Hc.
      destruct (tokens_left p1); cbn [postfix_loop]; destruct (current_kind p1); done || by exists ts. }
  destruct (current_kind p) eqn:E; try exact Hprimary. clear Hprimary.
  eapply post_bind; [apply advance_sound; by rewrite E|]. rewrite E. intros p1 H1.
  pose proof (reads_tokens _ _ _ H1) as Hl. simpl in Hl.
  apply nested_bind; [done|]. intros p2 H2.
  eapply post_weaken; [apply (call_unary_sound n calls Hcalls)|].
  { rewrite (tokens_left_at _ _ H2). lia. }
  intros [a p3] (ts & Hr & Hne & Hu) p4 H4. cbn [fst snd] in *.
  apply bump_node_bind; [done|]. intros p5 H5. apply ensure_ast_depth_post; [done|].
  exists (TNot :: ts). cbn [fst snd]. split_and!; [|done|by constructor].
  apply (reads_app _ _ _ [TNot] ts H1). by rewrite <- H2, H5, H4.
Qed.

(** [q] is the level of the expression so far. *)
Lemma binary_loop_sound (fuel : nat) (m q : Z) (x : position) (ts : list TokenKind) (a : Ast)
    (p : Parser) :
  reads x ts (position_of p) → ts ≠ [] → binary availability q ts a → m <= q →
  stops (q + 1) (position_of p) → (tokens_left p <= n)%nat → (tokens_left p <= fuel)%nat →
  post sound_error (λ r, parsed (binary availability m) x r ∧ stops m (position_of r.2))
    (binary_loop limits calls fuel m a p).
Proof.
  revert q ts a p. induction fuel as [|fuel IH]; intros q ts a p Hx Hne Hb Hm Hq Hn Hf;
    unfold stops in Hq; change (kind_at (position_of p)) with (current_kind p) in Hq;
    cbn [binary_loop]; destruct (binary_operator (current_kind p)) as [[precedence operator]|] eqn:E;
    try (split; [exists ts; split_and!; [done..|by eapply binary_weaken]|];
         unfold stops; change (kind_at (position_of _)) with (current_kind p); by rewrite E);
    destruct (binary_operator_range _ _ _ E) as (Hrange & HnE & _);
    (destruct (Z.ltb_spec precedence m);
     [split; [exists ts; split_and!; [done..|by eapply binary_weaken]|];
      unfold stops; change (kind_at (position_of _)) with (current_kind p); by rewrite E|]).
  - exfalso. unfold tokens_left in Hf. destruct (current_kind p); simpl in Hf; try lia; done.
  - eapply post_bind; [by apply advance_sound|]. intros p1 H1.
    pose proof (reads_tokens _ _ _ H1) as Hl. simpl in Hl.
    eapply post_bind; [apply (call_binary_sound n calls Hcalls); lia|].
    intros [b p2] [(us & Hr & Hne' & Hb') Hs]. cbn [fst snd] in *.
    pose proof (reads_tokens _ _ _ Hr).
    apply bump_node_bind; [done|]. intros p3 H3. apply ensure_ast_depth_post; [done|].
    eapply (IH precedence (ts ++ current_kind p :: us));
      try (rewrite (tokens_left_at _ _ H3); lia); try (rewrite H3; done); [|by destruct ts| |done].
    + rewrite H3. eapply reads_app; [done|].
      by apply (reads_app _ _ _ [current_kind p] us H1).
    + eapply binary_operation; [done|done| |done]. eapply binary_weaken; [|done]. lia.
Qed.

Lemma parse_binary_sound (m : Z) (p : Parser) :
  m <= 12 → (tokens_left p <= n)%nat →
  post sound_error (λ r, parsed (binary availability m) (position_of p) r ∧
                         stops m (position_of r.2)) (parse_binary availability limits calls m p).
Proof.
  intros Hm Hn. unfold parse_binary. eapply post_bind; [by apply parse_unary_sound|].
  intros [a p1] (ts & Hr & Hne & Hu). cbn [fst snd] in *. pose proof (reads_tokens _ _ _ Hr).
  eapply (binary_loop_sound _ _ 12); [done..|by constructor|done| |lia|lia].
  unfold stops. destruct (binary_operator _) as [[precedence operator]|] eqn:E; [|done].
  apply binary_operator_range in E. lia.
Qed.
End Soundness.

Lemma parser_calls_sound (availability : ParserAvailability) (limits : CompilerLimits) (n : nat) :
  calls_sound availability n (parser_calls availability limits n).
Proof.
  induction n as [|n IH]; split; simpl; intros; try lia.
  - eapply parse_binary_sound; [exact IH|lia..].
  - eapply parse_unary_sound; [exact IH|lia].
Qed.

(** Whatever the parser returns, its tokens derive; it never fails with an
    internal error, so the counters never run out. *)
Lemma parse_sound (availability : ParserAvailability) (limits : CompilerLimits) (p : Parser) :
  post sound_error (λ a, ∃ ts y, reads (position_of p) ts y ∧ kind_at y = TEof ∧
                                 binary availability 0 ts a)
    (parse availability limits p).
Proof.
  unfold parse. eapply post_bind.
  - apply (call_binary_sound _ _ _ (parser_calls_sound availability limits (S (tokens_left p)))); lia.
  - intros [a p1] [(ts & Hr & _ & Hb) _]. cbn [fst snd] in *. apply post_reject; [done|].
    intros Hk%bool_decide_eq_false%dec_stable. by exists ts, (position_of p1).
Qed.

(** ** What has a derivation is accepted, or refused by a limit *)

(** Tokens that start an operand. *)
Definition starter (kind : TokenKind) : bool :=
  match kind with
  | TNot | TIdentifier _ | TLeftParen => true
  | _ => is_some (literal_of_token kind)
  end.
Definition starts (ts : list TokenKind) : Prop := ∃ k us, ts = k :: us ∧ starter k = true.

Lemma starts_app (ts us : list TokenKind) : starts ts → starts (ts ++ us).
Proof. intros (k & vs & -> & H). by exists k, (vs ++ us). Qed.

(** Where neither a call nor an access goes on. *)
Definition follow (y : position) : Prop :=
  kind_at y ≠ TLeftParen ∧ kind_at y ≠ TDot ∧ kind_at y ≠ TLeftBracket.

Lemma advance_bind {A : Type} (Q : A → Prop) (p : Parser) (k : TokenKind) (ts : list TokenKind)
    (y : position) (f : Parser → cresult A) :
  reads (position_of p) (k :: ts) y →
  (∀ p1, reads (position_of p1) ts y → (tokens_left p1 < tokens_left p)%nat →
     post limit_error Q (f p1)) →
  post limit_error Q (p1 ← advance p; f p1).
Proof.
  intros Hr H. inversion Hr as [|x token lexer us y' Hk Hn Hr']; subst. unfold advance.
  cbn [position_of fst] in Hn. rewrite Hn. apply H; [done|].
  pose proof (reads_left (position_of p) (lexer, token) [kind_at (position_of p)]) as Hl.
  simpl in Hl. apply Hl. econstructor; [done|exact Hn|constructor].
Qed.

Lemma expect_bind {A : Type} (Q : A → Prop) (p : Parser) (k : TokenKind) (ts : list TokenKind)
    (y : position) (f : Parser → cresult A) :
  reads (position_of p) (k :: ts) y →
  (∀ p1, reads (position_of p1) ts y → (tokens_left p1 < tokens_left p)%nat →
     post limit_error Q (f p1)) →
  post limit_error Q (p1 ← expect k p; f p1).
Proof.
  intros Hr H. unfold expect. change (current_kind p) with (kind_at (position_of p)).
  rewrite (reads_one _ _ _ _ Hr), bool_decide_eq_false_2 by auto. cbn [reject]. rewrite bind_Ok.
  by eapply advance_bind.
Qed.

Lemma reads_nothing (x y : position) : reads x [] y → x = y.
Proof. by inversion 1. Qed.

Section Completeness.
Context (availability : ParserAvailability) (limits : CompilerLimits).

Let calls := parser_calls availability limits.

Lemma leaf_bind {A : Type} (Q : A → Prop) (p : Parser) (k : TokenKind) (ts : list TokenKind)
    (y : position) (f : Parser → cresult A) :
  reads (position_of p) (k :: ts) y →
  (∀ p1, reads (position_of p1) ts y → (tokens_left p1 < tokens_left p)%nat →
     post limit_error Q (f p1)) →
  post limit_error Q (p1 ← leaf limits p; f p1).
Proof.
  intros Hr H. unfold leaf. eapply (post_bind _ _ (λ p1, reads (position_of p1) ts y ∧
    (tokens_left p1 < tokens_left p)%nat)); [|intros p1 []; by apply H].
  eapply advance_bind; [done|]. intros p1 H1 Hl.
  eapply post_weaken; [by apply bump_node_post|]. intros p2 H2. rewrite H2.
  by rewrite (tokens_left_at _ _ H2).
Qed.

(** A result is the tree [a], read up to [y]. *)
Definition gives {A : Type} (a : A) (y : position) (r : cresult (A * Parser)) : Prop :=
  post limit_error (λ r, r.1 = a ∧ position_of r.2 = y) r.

Lemma gives_bind {A B : Type} (Q : B → Prop) (a : A) (y : position) (m : cresult (A * Parser))
    (f : A * Parser → cresult B) :
  gives a y m → (∀ p', position_of p' = y → post limit_error Q (f (a, p'))) →
  post limit_error Q (r ← m; f r).
Proof.
  intros Hm H. eapply post_bind; [exact Hm|]. intros [a' p'] [Ha Hp]. cbn [fst snd] in *.
  subst a'. by apply H.
Qed.

Definition complete_binary (n : Z) (ts : list TokenKind) (a : Ast) : Prop :=
  starts ts ∧
  ∀ fuel p y m Q, reads (position_of p) ts y → follow y → stops (n + 1) y → m <= n →
    (tokens_left p <= fuel)%nat →
    (∀ f p', position_of p' = y → (left_at y <= f)%nat →
       post limit_error Q (binary_loop limits (calls fuel) f m a p')) →
    post limit_error Q (parse_binary availability limits (calls fuel) m p).

Definition complete_unary (ts : list TokenKind) (a : Ast) : Prop :=
  starts ts ∧
  ∀ fuel p y, reads (position_of p) ts y → follow y → (tokens_left p <= fuel)%nat →
    gives a y (parse_unary availability limits (calls fuel) p).

Definition complete_postfix (ts : list TokenKind) (a : Ast) : Prop :=
  starts ts ∧
  ∀ fuel p y Q, reads (position_of p) ts y → kind_at y ≠ TLeftParen →
    (tokens_left p <= fuel)%nat →
    (∀ f p', position_of p' = y → (left_at y <= f)%nat →
       post limit_error Q (postfix_loop limits (calls fuel) f a p')) →
    post limit_error Q (parse_unary availability limits (calls fuel) p).

Definition complete_more (ts : list TokenKind) (l : list Ast) : Prop :=
  starts ts ∧
  ∀ fuel p y f, reads (position_of p) ts y → kind_at y = TRightParen →
    (tokens_left p < fuel)%nat → (tokens_left p <= f)%nat →
    gives l y (arguments_loop limits (calls fuel) f p).

Definition complete_arguments (ts : list TokenKind) (l : list Ast) : Prop :=
  (ts = [] ∧ l = []) ∨ complete_more ts l.

(** A recursive call reads the whole operand when its operators end there. *)
Lemma call_complete (n : Z) (ts : list TokenKind) (a : Ast) (fuel : nat) (p : Parser)
    (y : position) :
  complete_binary n ts a → reads (position_of p) ts y → follow y → stops n y →
  (tokens_left p < fuel)%nat → gives a y (call_binary (calls fuel) n p).
Proof.
  intros [_ H] Hr Hf Hs Hl. destruct fuel as [|fuel]; [lia|]. simpl.
  eapply H; [done|done| |lia|lia|].
  - unfold stops in *. destruct (binary_operator _) as [[]|]; [lia|done].
  - intros f p' <- _. unfold stops in Hs. change (kind_at (position_of p')) with (current_kind p') in Hs.
    destruct f; cbn [binary_loop]; destruct (binary_operator _) as [[precedence ?]|]; try done;
      by destruct (Z.ltb_spec precedence n); [|lia].
Qed.

Lemma nested_complete (ts : list TokenKind) (a : Ast) (fuel : nat) (p : Parser) (y : position) :
  complete_binary 0 ts a → reads (position_of p) ts y → follow y →
  binary_operator (kind_at y) = None → (tokens_left p < fuel)%nat →
  gives a y (nested limits (call_binary (calls fuel) 0) p).
Proof.
  intros Hc Hr Hf Hn Hl. unfold gives, nested.
  eapply post_bind; [by apply begin_nested_post|]. intros p1 H1.
  eapply gives_bind; [|by intros p2].
  eapply call_complete; [done|by rewrite H1|done|unfold stops; by rewrite Hn|].
  by rewrite (tokens_left_at _ _ H1).
Qed.

Lemma complete_binary_operation (n precedence : Z) (operator : BinaryOperator) (kind : TokenKind)
    (ts us : list TokenKind) (l r : Ast) :
  binary_operator kind = Some (precedence, operator) → n <= precedence →
  complete_binary precedence ts l → complete_binary (precedence + 1) us r →
  complete_binary n (ts ++ kind :: us) (combine operator l r).
Proof.
  intros Ho Hn [Hst IHl] IHr. split; [by apply starts_app|].
  intros fuel p y m Q Hr Hf Hs Hm Hl Hk. apply reads_app_inv in Hr as (x & Hx & Hr).
  pose proof (reads_one _ _ _ _ Hr) as Hkx.
  destruct (binary_operator_range _ _ _ Ho) as (Hrange & HnE & HnD & HnB & HnP).
  eapply IHl; [exact Hx|by unfold follow; rewrite Hkx| |lia|done|].
  { unfold stops. rewrite Hkx, Ho. lia. }
  intros f p' <- Hfuel. pose proof (reads_left _ _ _ Hx) as Hlx.
  change (left_at (position_of p')) with (tokens_left p') in *.
  assert (tokens_left p' ≠ 0%nat) as Hp0.
  { unfold tokens_left. change (current_kind p') with (kind_at (position_of p')). rewrite Hkx.
    by destruct kind. }
  change (left_at (position_of p)) with (tokens_left p) in *.
  destruct f as [|f]; [lia|]. cbn [binary_loop].
  change (current_kind p') with (kind_at (position_of p')). rewrite Hkx, Ho.
  destruct (Z.ltb_spec precedence m); [lia|].
  eapply advance_bind; [exact Hr|]. intros p1 H1 Hl1.
  pose proof (reads_left _ _ _ H1) as Hly. change (left_at (position_of p1)) with (tokens_left p1) in *.
  eapply gives_bind; [eapply call_complete; [done|exact H1|done| |lia]|].
  { unfold stops in *. destruct (binary_operator (kind_at y)) as [[]|]; [lia|done]. }
  intros p2 H2. apply bump_node_bind; [done|]. intros p3 H3. apply ensure_ast_depth_post; [done|].
  apply Hk; [by rewrite H3|lia].
Qed.

Lemma complete_unary_not (ts : list TokenKind) (a : Ast) :
  complete_unary ts a → complete_unary (TNot :: ts) (AstNot a).
Proof.
  intros [_ IH]. split; [by exists TNot, ts|]. intros fuel p y Hr Hf Hl. unfold gives, parse_unary.
  change (current_kind p) with (kind_at (position_of p)). rewrite (reads_one _ _ _ _ Hr).
  eapply advance_bind; [exact Hr|]. intros p1 H1 Hl1. apply nested_bind; [done|]. intros p2 H2.
  destruct fuel as [|fuel]; [lia|].
  eapply post_weaken; [apply (IH fuel p2 y); [by rewrite H2|done|]|].
  { rewrite (tokens_left_at _ _ H2). lia. }
  intros [a' p3] [Ha H3] p4 H4. cbn [fst snd] in *. subst a'. apply bump_node_bind; [done|].
  intros p5 H5. apply ensure_ast_depth_post; [done|]. split; [done|]. cbn [snd]. congruence.
Qed.

(** What [parse_unary] does when it starts with a primary. *)
Lemma parse_unary_primary (Q : Ast * Parser → Prop) (fuel : nat) (p : Parser) (a : Ast)
    (allowed : bool) (y : position) :
  current_kind p ≠ TNot →
  post limit_error (λ r, r.1 = (a, allowed) ∧ position_of r.2 = y)
    (parse_primary availability limits (calls fuel) p) →
  (allowed = false → kind_at y ≠ TDot ∧ kind_at y ≠ TLeftBracket) →
  (∀ f p', position_of p' = y → (left_at y <= f)%nat →
     post limit_error Q (postfix_loop limits (calls fuel) f a p')) →
  post limit_error Q (parse_unary availability limits (calls fuel) p).
Proof.
  intros Hk Hp Hy H. unfold parse_unary.
  assert (post limit_error Q ('(primary, postfix_allowed, self) ← parse_primary availability limits (calls fuel) p;
     _ ← reject (negb postfix_allowed &&
                  match current_kind self with TDot | TLeftBracket => true | _ => false end)
           (unexpected self);
     parse_postfix limits (calls fuel) primary self)) as Hprimary.
  { eapply post_bind; [exact Hp|]. intros [[a' allowed'] p1] [Ha <-]. cbn [fst snd] in *.
    simplify_eq. apply post_reject.
    - intros Hc. exfalso. apply andb_true_iff in Hc as [Hb%negb_true_iff Hc].
      destruct (Hy Hb). change (kind_at (position_of p1)) with (current_kind p1) in *.
      by destruct (current_kind p1).
    - intros _. by apply H. }
  destruct (current_kind p); try exact Hprimary. done.
Qed.

Lemma complete_unary_literal (kind : TokenKind) (v : ExpressionLiteral) :
  literal_of_token kind = Some v → complete_unary [kind] (AstLiteral v).
Proof.
  intros Hv. split; [exists kind, []; split; [done|]; unfold starter; rewrite Hv; by destruct kind|].
  intros fuel p y Hr (_ & HD & HB) Hl. unfold gives.
  pose proof (reads_one _ _ _ _ Hr) as Hk. change (kind_at (position_of p)) with (current_kind p) in Hk.
  apply (parse_unary_primary _ fuel p (AstLiteral v) false y); [by rewrite Hk; destruct kind| |done|].
  - assert (post limit_error (λ r, r.1 = (AstLiteral v, false) ∧ position_of r.2 = y)
      (self ← leaf limits p; Ok (AstLiteral v, false, self))) as Hleaf.
    { eapply leaf_bind; [exact Hr|]. by intros p1 <-%reads_nothing _. }
    unfold parse_primary. change (token_kind (parser_current p)) with (current_kind p).
    rewrite Hk. destruct kind; try done; simpl in Hv; by injection Hv as <-.
  - intros f p' <- _. change (kind_at (position_of p')) with (current_kind p') in *.
    destruct f; cbn [postfix_loop]; by destruct (current_kind p').
Qed.

Lemma complete_unary_postfix (ts : list TokenKind) (a : Ast) :
  complete_postfix ts a → complete_unary ts a.
Proof.
  intros [Hst H]. split; [done|]. intros fuel p y Hr (HP & HD & HB) Hl.
  eapply H; [done..|]. intros f p' <- _.
  change (kind_at (position_of p')) with (current_kind p') in *.
  destruct f; cbn [postfix_loop]; by destruct (current_kind p').
Qed.

Lemma complete_postfix_named (name : str) :
  context_allowed availability (map to_ascii_lowercase name) = true →
  complete_postfix [TIdentifier name] (AstNamedValue (map to_ascii_lowercase name)).
Proof.
  intros Hc. split; [by exists (TIdentifier name), []|]. intros fuel p y Q Hr HP Hl.
  pose proof (reads_one _ _ _ _ Hr) as Hk. change (kind_at (position_of p)) with (current_kind p) in Hk.
  apply (parse_unary_primary _ fuel p _ true y); [by rewrite Hk| |done].
  unfold parse_primary. change (token_kind (parser_current p)) with (current_kind p). rewrite Hk.
  eapply advance_bind; [exact Hr|]. intros p1 <-%reads_nothing _.
  change (kind_at (position_of p1)) with (current_kind p1) in HP.
  rewrite bool_decide_eq_false_2 by done. rewrite Hc. cbn [negb reject]. rewrite bind_Ok.
  apply bump_node_bind; [done|]. by intros p2 H2.
Qed.

Lemma parse_call_complete (name : str) (signature : FunctionSignature) (ts : list TokenKind)
    (l : list Ast) (fuel : nat) (p : Parser) (y : position) (start stop : Z) :
  function_signature availability (map to_ascii_lowercase name) = Some signature →
  complete_arguments ts l →
  arity_ok signature (map to_ascii_lowercase name) (Z.of_nat (length l)) = true →
  reads (position_of p) (TLeftParen :: ts ++ [TRightParen]) y → (tokens_left p <= fuel)%nat →
  gives (AstCall (map to_ascii_lowercase name) l) y
    (parse_call availability limits (calls fuel) name start stop p).
Proof.
  intros Hs Ha Hok Hr Hl. unfold gives, parse_call. rewrite Hs.
  eapply expect_bind; [exact Hr|]. intros p1 H1 Hl1.
  apply reads_app_inv in H1 as (x & Hx & H1).
  pose proof (reads_one _ _ _ _ H1) as Hkx.
  eapply (gives_bind _ l x).
  { destruct Ha as [[-> ->]|[(k & us & -> & Hk) Ha]].
    - apply reads_nothing in Hx. change (current_kind p1) with (kind_at (position_of p1)).
      rewrite bool_decide_eq_false_2 by (rewrite Hx, Hkx; by intros []). by split.
    - change (current_kind p1) with (kind_at (position_of p1)).
      rewrite (reads_one _ _ _ _ Hx), bool_decide_eq_true_2 by (by intros ->).
      apply Ha; [done|done|lia|lia]. }
  intros p2 <-. eapply expect_bind; [exact H1|]. intros p3 <-%reads_nothing _.
  unfold arity_ok in Hok. open_bools.
  rewrite (proj2 (Z.ltb_ge _ (signature_minimum signature))),
    (proj2 (Z.ltb_ge (signature_maximum signature) _)), Hok by lia.
  cbn [reject]. rewrite !bind_Ok.
  apply bump_node_bind; [done|]. intros p4 H4. by apply ensure_ast_depth_post.
Qed.

Lemma complete_postfix_call (name : str) (signature : FunctionSignature) (ts : list TokenKind)
    (l : list Ast) :
  function_signature availability (map to_ascii_lowercase name) = Some signature →
  complete_arguments ts l →
  arity_ok signature (map to_ascii_lowercase name) (Z.of_nat (length l)) = true →
  complete_postfix (TIdentifier name :: TLeftParen :: ts ++ [TRightParen])
    (AstCall (map to_ascii_lowercase name) l).
Proof.
  intros Hs Ha Hok. split; [by eexists _, _|]. intros fuel p y Q Hr HP Hl.
  pose proof (reads_one _ _ _ _ Hr) as Hk. change (kind_at (position_of p)) with (current_kind p) in Hk.
  apply (parse_unary_primary _ fuel p _ true y); [by rewrite Hk| |done].
  unfold parse_primary. change (token_kind (parser_current p)) with (current_kind p). rewrite Hk.
  eapply advance_bind; [exact Hr|]. intros p1 H1 Hl1.
  change (current_kind p1) with (kind_at (position_of p1)).
  rewrite bool_decide_eq_true_2 by by eapply reads_one.
  eapply gives_bind; [eapply parse_call_complete; [done..|lia]|]. by intros p2.
Qed.

Lemma complete_postfix_parens (ts : list TokenKind) (a : Ast) :
  complete_binary 0 ts a → complete_postfix (TLeftParen :: ts ++ [TRightParen]) a.
Proof.
  intros H. split; [by eexists _, _|]. intros fuel p y Q Hr HP Hl.
  pose proof (reads_one _ _ _ _ Hr) as Hk. change (kind_at (position_of p)) with (current_kind p) in Hk.
  apply (parse_unary_primary _ fuel p _ true y); [by rewrite Hk| |done].
  unfold parse_primary. change (token_kind (parser_current p)) with (current_kind p). rewrite Hk.
  eapply advance_bind; [exact Hr|]. intros p1 H1 Hl1.
  apply reads_app_inv in H1 as (x & Hx & H1). pose proof (reads_one _ _ _ _ H1) as Hkx.
  eapply gives_bind; [eapply nested_complete; [done|exact Hx|by unfold follow; rewrite Hkx|by rewrite Hkx|lia]|].
  intros p2 <-. eapply expect_bind; [exact H1|]. by intros p3 <-%reads_nothing _.
Qed.

(** One more turn of the loop over accesses. *)
Lemma postfix_more (ts us : list TokenKind) (a b : Ast) (k : TokenKind) :
  k ≠ TLeftParen → complete_postfix ts a →
  (∀ fuel f p y Q, reads (position_of p) (k :: us) y → (tokens_left p <= fuel)%nat →
     (∀ p', position_of p' = y → post limit_error Q (postfix_loop limits (calls fuel) f b p')) →
     post limit_error Q (postfix_loop limits (calls fuel) (S f) a p)) →
  complete_postfix (ts ++ k :: us) b.
Proof.
  intros Hk [Hst IH] H. split; [by apply starts_app|]. intros fuel p y Q Hr HP Hl Hc.
  apply reads_app_inv in Hr as (x & Hx & Hr). pose proof (reads_one _ _ _ _ Hr) as Hkx.
  eapply IH; [exact Hx|by rewrite Hkx|done|]. intros f p' <- Hf.
  pose proof (reads_left _ _ _ Hr) as Hlr. simpl in Hlr. destruct f as [|f]; [lia|].
  pose proof (reads_left _ _ _ Hx). change (tokens_left p) with (left_at (position_of p)) in Hl.
  eapply H; [exact Hr| |]. { change (tokens_left p') with (left_at (position_of p')). lia. }
  intros p2 H2. apply Hc; [done|lia].
Qed.

Lemma complete_postfix_property (ts : list TokenKind) (a : Ast) (name : str) :
  complete_postfix ts a →
  complete_postfix (ts ++ [TDot; TIdentifier name]) (AstIndex a (AstLiteral (LitString name))).
Proof.
  intros Ha. eapply postfix_more; [done|exact Ha|]. intros fuel f p y Q Hr Hl Hc.
  cbn [postfix_loop]. change (current_kind p) with (kind_at (position_of p)).
  rewrite (reads_one _ _ _ _ Hr). eapply advance_bind; [exact Hr|]. intros p1 H1 _.
  change (token_kind (parser_current p1)) with (kind_at (position_of p1)).
  rewrite (reads_one _ _ _ _ H1). eapply (gives_bind _ (AstLiteral (LitString name)) y).
  { eapply leaf_bind; [exact H1|]. by intros p2 <-%reads_nothing _. }
  intros p2 H2. apply bump_node_bind; [done|]. intros p3 H3. apply ensure_ast_depth_post; [done|].
  apply Hc. congruence.
Qed.

Lemma complete_postfix_all_properties (ts : list TokenKind) (a : Ast) :
  complete_postfix ts a → complete_postfix (ts ++ [TDot; TStar]) (AstIndex a AstWildcard).
Proof.
  intros Ha. eapply postfix_more; [done|exact Ha|]. intros fuel f p y Q Hr Hl Hc.
  cbn [postfix_loop]. change (current_kind p) with (kind_at (position_of p)).
  rewrite (reads_one _ _ _ _ Hr). eapply advance_bind; [exact Hr|]. intros p1 H1 _.
  change (token_kind (parser_current p1)) with (kind_at (position_of p1)).
  rewrite (reads_one _ _ _ _ H1). eapply (gives_bind _ AstWildcard y).
  { eapply leaf_bind; [exact H1|]. by intros p2 <-%reads_nothing _. }
  intros p2 H2. apply bump_node_bind; [done|]. intros p3 H3. apply ensure_ast_depth_post; [done|].
  apply Hc. congruence.
Qed.

(** An access in brackets: the index, then the closing bracket. *)
Lemma bracket_turn (us : list TokenKind) (a i : Ast) (fuel f : nat) (p : Parser) (y : position)
    (Q : Ast * Parser → Prop) :
  reads (position_of p) (TLeftBracket :: us ++ [TRightBracket]) y →
  (∀ p1 x, reads (position_of p1) us x → kind_at x = TRightBracket →
     (tokens_left p1 < tokens_left p)%nat →
     gives i x (if bool_decide (current_kind p1 = TStar)
                then self ← leaf limits p1; Ok (AstWildcard, self)
                else nested limits (call_binary (calls fuel) 0) p1)) →
  (∀ p', position_of p' = y →
     post limit_error Q (postfix_loop limits (calls fuel) f (AstIndex a i) p')) →
  post limit_error Q (postfix_loop limits (calls fuel) (S f) a p).
Proof.
  intros Hr Hi Hc. cbn [postfix_loop]. change (current_kind p) with (kind_at (position_of p)).
  rewrite (reads_one _ _ _ _ Hr). eapply advance_bind; [exact Hr|]. intros p1 H1 Hl1.
  apply reads_app_inv in H1 as (x & Hx & H1). pose proof (reads_one _ _ _ _ H1) as Hkx.
  eapply gives_bind; [by eapply Hi|]. intros p2 <-.
  eapply expect_bind; [exact H1|]. intros p3 <-%reads_nothing _.
  apply bump_node_bind; [done|]. intros p4 H4. apply ensure_ast_depth_post; [done|]. by apply Hc.
Qed.

Lemma complete_postfix_all_items (ts : list TokenKind) (a : Ast) :
  complete_postfix ts a →
  complete_postfix (ts ++ [TLeftBracket; TStar; TRightBracket]) (AstIndex a AstWildcard).
Proof.
  intros Ha. eapply postfix_more; [done|exact Ha|]. intros fuel f p y Q Hr Hl Hc.
  eapply (bracket_turn [TStar]); [exact Hr| |done]. intros p1 x Hx _ _.
  change (current_kind p1) with (kind_at (position_of p1)).
  rewrite bool_decide_eq_true_2 by by eapply reads_one.
  eapply leaf_bind; [exact Hx|]. by intros p2 <-%reads_nothing _.
Qed.

Lemma complete_postfix_item (ts us : list TokenKind) (a i : Ast) :
  complete_postfix ts a → complete_binary 0 us i →
  complete_postfix (ts ++ TLeftBracket :: us ++ [TRightBracket]) (AstIndex a i).
Proof.
  intros Ha Hi. eapply postfix_more; [done|exact Ha|]. intros fuel f p y Q Hr Hl Hc.
  eapply bracket_turn; [exact Hr| |done]. intros p1 x Hx Hk Hl1.
  destruct (proj1 Hi) as (k & vs & -> & Hs).
  change (current_kind p1) with (kind_at (position_of p1)).
  rewrite (reads_one _ _ _ _ Hx), bool_decide_eq_false_2 by by intros ->.
  eapply nested_complete; [done|exact Hx|by unfold follow; rewrite Hk|by rewrite Hk|lia].
Qed.

Lemma complete_more_last (ts : list TokenKind) (a : Ast) :
  complete_binary 0 ts a → complete_more ts [a].
Proof.
  intros Ha. split; [apply Ha|]. intros fuel p y f Hr Hk Hl Hf. unfold gives.
  assert (∀ f, arguments_loop limits (calls fuel) f p =
    ('(argument, self) ← nested limits (call_binary (calls fuel) 0) p;
     if bool_decide (current_kind self ≠ TComma) then Ok ([argument], self)
     else
       self ← advance self;
       if bool_decide (current_kind self = TRightParen) then Err (unexpected self)
       else
         match f with
         | O => Err internal_error
         | S f =>
             '(arguments, self) ← arguments_loop limits (calls fuel) f self;
             Ok (argument :: arguments, self)
         end)) as -> by by intros [].
  eapply gives_bind; [eapply nested_complete; [done|exact Hr|by unfold follow; rewrite Hk|by rewrite Hk|lia]|].
  intros p' <-. change (current_kind p') with (kind_at (position_of p')). by rewrite Hk.
Qed.

Lemma complete_more_next (ts us : list TokenKind) (a : Ast) (l : list Ast) :
  complete_binary 0 ts a → complete_more us l → complete_more (ts ++ TComma :: us) (a :: l).
Proof.
  intros Ha [(k & vs & -> & Hs) Hm]. split; [apply starts_app, Ha|]. intros fuel p y f Hr Hk Hl Hf.
  apply reads_app_inv in Hr as (x & Hx & Hr). pose proof (reads_one _ _ _ _ Hr) as Hkx.
  pose proof (reads_left _ _ _ Hr). pose proof (reads_left _ _ _ Hx).
  simpl length in *. change (left_at (position_of p)) with (tokens_left p) in *.
  destruct f as [|f]; [lia|]. unfold gives. cbn [arguments_loop].
  eapply gives_bind; [eapply nested_complete; [done|exact Hx|by unfold follow; rewrite Hkx|by rewrite Hkx|lia]|].
  intros p' <-. change (current_kind p') with (kind_at (position_of p')).
  rewrite Hkx, bool_decide_eq_false_2 by by intros [].
  eapply advance_bind; [exact Hr|]. intros p1 H1 Hl1.
  change (left_at (position_of p')) with (tokens_left p') in *.
  change (current_kind p1) with (kind_at (position_of p1)).
  rewrite (reads_one _ _ _ _ H1), bool_decide_eq_false_2 by by intros ->.
  eapply gives_bind; [apply (Hm fuel p1 y f); [done|done|lia|lia]|]. by intros p2.
Qed.

Lemma complete_binary_unary (n : Z) (ts : list TokenKind) (a : Ast) :
  complete_unary ts a → complete_binary n ts a.
Proof.
  intros [Hst H]. split; [done|]. intros fuel p y m Q Hr Hf _ _ Hl Hc. unfold parse_binary.
  eapply gives_bind; [by eapply H|]. intros p' Hp'. apply Hc; [done|].
  change (tokens_left p') with (left_at (position_of p')). by rewrite Hp'.
Qed.

Lemma grammar_complete :
  (∀ n ts a, binary availability n ts a → complete_binary n ts a) ∧
  (∀ ts a, unary availability ts a → complete_unary ts a) ∧
  (∀ ts a, postfix availability ts a → complete_postfix ts a) ∧
  (∀ ts l, arguments availability ts l → complete_arguments ts l) ∧
  (∀ ts l, more_arguments availability ts l → complete_more ts l).
Proof.
  apply (grammar_ind availability (λ n ts a _, complete_binary n ts a)
    (λ ts a _, complete_unary ts a) (λ ts a _, complete_postfix ts a)
    (λ ts l _, complete_arguments ts l) (λ ts l _, complete_more ts l)).
  - intros. by apply complete_binary_unary.
  - intros. by eapply complete_binary_operation.
  - intros. by apply complete_unary_not.
  - intros. by apply complete_unary_literal.
  - intros. by apply complete_unary_postfix.
  - intros. by apply complete_postfix_named.
  - intros. by eapply complete_postfix_call.
  - intros. by apply complete_postfix_parens.
  - intros. by apply complete_postfix_property.
  - intros. by apply complete_postfix_all_properties.
  - intros. by apply complete_postfix_all_items.
  - intros. by apply complete_postfix_item.
  - by left.
  - intros. by right.
  - intros. by apply complete_more_last.
  - intros. by apply complete_more_next.
Qed.

Lemma parse_complete (p : Parser) (ts : list TokenKind) (y : position) (a : Ast) :
  reads (position_of p) ts y → kind_at y = TEof → binary availability 0 ts a →
  post limit_error (λ b, b = a) (parse availability limits p).
Proof.
  intros Hr Hk Hb. unfold parse.
  eapply gives_bind; [eapply call_complete;
    [by apply grammar_complete|exact Hr|by unfold follow; rewrite Hk|unfold stops; by rewrite Hk|lia]|].
  intros p' <-. change (current_kind p') with (kind_at (position_of p')). by rewrite Hk.
Qed.
End Completeness.
