(* ===== verification/ExpressionCompiler.v ===== *)
(** * ExpressionCompiler: what the condition compiler promises

    The properties of [ExpressionLexer] and [ExpressionParser], and of their
    composition with the evaluator: the parser implements its grammar, every
    program the compiler returns is valid and never an internal error, the
    evaluator recovers the tree the compiler emitted, conditions are guarded
    by the job's status, and literals mean what text coerces to. *)

From S2P Require Import Prelude Text Utf8 Float64 ExpressionProgram ExpressionAst ExpressionValue.
From S2P Require Import ExpressionFunctions ExpressionEvaluator ExpressionSafety ExpressionLexer.
From S2P Require Import ExpressionParser ExpressionGrammar.

(** ** Derived trees are canonical *)

Lemma token_ok_mono (n m : Z) (k : TokenKind) : n <= m → token_ok n k → token_ok m k.
Proof. intros H. destruct k; cbn [token_ok]; try done; intros ?; by etrans. Qed.

(** Only numbers matter: one has the encoding of NaN only if it is the
    canonical one. *)
Definition number_ok (k : TokenKind) : Prop := token_ok 0 k ∨ ∀ bits, k ≠ TNumber bits.

Lemma token_ok_number (n : Z) (k : TokenKind) : token_ok n k → number_ok k.
Proof. intros H. destruct k; try (by right); by left. Qed.

Lemma reads_numbers (x y : position) (ts : list TokenKind) :
  reads x ts y → number_ok (kind_at x) → Forall number_ok ts.
Proof.
  induction 1 as [|x token lexer ts y Hk Hn _ IH]; intros Hx; [constructor|].
  constructor; [done|]. apply IH. pose proof (lexer_next_well x.1) as Hw. rewrite Hn in Hw.
  destruct Hw as (skipped & raw & _ & Hok & _). by eapply token_ok_number.
Qed.

Lemma match_str_Some {A : Type} (arms : list (str * A)) (s : str) (a : A) :
  match_str arms s = Some a → (s, a) ∈ arms.
Proof.
  induction arms as [|[pattern b] arms IH]; simpl; [done|]. unfold str_eqb.
  case_bool_decide as Heq.
  - intros [= <-]. rewrite Heq. left.
  - intros H. right. by apply IH.
Qed.

Lemma match_str_canonical {A : Type} (arms : list (str * A)) (s : str) (a : A) :
  forallb (λ arm, canonical_identifier arm.1 false) arms = true →
  match_str arms s = Some a → canonical_identifier s false = true.
Proof.
  intros H Hs. apply match_str_Some in Hs. apply list_elem_of_In in Hs.
  by apply (proj1 (forallb_forall _ _) H (s, a)).
Qed.

Lemma context_canonical (availability : ParserAvailability) (name : str) :
  context_allowed availability name = true → canonical_identifier name false = true.
Proof.
  unfold context_allowed, context_from_name. intros H.
  destruct (match_str context_table name) as [c|] eqn:E; [|done].
  eapply match_str_canonical; [|exact E]. by vm_compute.
Qed.

Lemma function_canonical (availability : ParserAvailability) (name : str)
    (signature : FunctionSignature) :
  function_signature availability name = Some signature →
  canonical_identifier name false = true.
Proof.
  unfold function_signature. intros H.
  destruct (match_str shared_signatures name) as [s1|] eqn:E1.
  { eapply match_str_canonical; [|exact E1]. by vm_compute. }
  destruct (match_str (status_signatures _) name) as [s2|] eqn:E2.
  { eapply match_str_canonical; [|exact E2].
    by destruct (availability_status_functions availability); vm_compute. }
  destruct (str_eqb name (lit "hashfiles")) eqn:E3; [|done].
  apply bool_decide_eq_true in E3 as ->. by vm_compute.
Qed.

(** A tree that may be an operand. *)
Definition operand (a : Ast) : Prop := canonical a = true ∧ is_wildcard a = false.

Lemma operand_list (l : list Ast) :
  Forall operand l → forallb (λ a, canonical a && negb (is_wildcard a)) l = true.
Proof. induction 1 as [|a l [Hc Hw] _ IH]; simpl; [done|]. by rewrite Hc, Hw, IH. Qed.

Lemma flatten_operand_ok (o : ExpressionLogical) (a : Ast) :
  operand a →
  Forall (λ b, operand b ∧ logical_operator b ≠ Some o) (flatten_operand o a) ∧
  (1 <= length (flatten_operand o a))%nat.
Proof.
  intros [Hc Hw].
  destruct a as [| | | | | |o' l|]; simpl; try (split; [by repeat constructor|lia]).
  case_bool_decide as Ho; [|split; [repeat constructor; try done; simpl; congruence|simpl; lia]].
  subst o'. cbn [canonical] in Hc. rewrite forallb_and in Hc. open_bools.
  split; [|apply Z.leb_le in H0; lia].
  apply Forall_forall. intros b Hb. apply list_elem_of_In in Hb.
  rewrite forallb_forall in H, H1, Hc.
  split; [split; [by apply H1|by apply negb_true_iff, H]|].
  by apply (bool_decide_eq_true (logical_operator b ≠ Some o)), Hc.
Qed.

Lemma ast_logical_ok (o : ExpressionLogical) (l r : Ast) :
  operand l → operand r → operand (ast_logical o [l; r]).
Proof.
  intros Hl Hr. split; [|done]. destruct (flatten_operand_ok o l Hl) as [Hfl Hll].
  destruct (flatten_operand_ok o r Hr) as [Hfr Hlr].
  unfold ast_logical. simpl mbind. cbn [canonical]. rewrite app_nil_r.
  assert (Forall (λ b, operand b ∧ logical_operator b ≠ Some o)
    (flatten_operand o l ++ flatten_operand o r)) as Hall by by apply Forall_app.
  rewrite operand_list by by eapply Forall_impl; [exact Hall|intros b []].
  assert (forallb (λ a, bool_decide (logical_operator a ≠ Some o))
    (flatten_operand o l ++ flatten_operand o r) = true) as ->.
  { apply forallb_forall. intros b Hb. apply list_elem_of_In in Hb. rewrite Forall_forall in Hall.
    apply bool_decide_eq_true. by apply Hall. }
  rewrite length_app. destruct (Z.leb_spec 2 (Z.of_nat (length (flatten_operand o l) +
    length (flatten_operand o r)))); [done|lia].
Qed.

Lemma derived_trees (availability : ParserAvailability) :
  (∀ n ts a, binary availability n ts a → Forall number_ok ts → operand a) ∧
  (∀ ts a, unary availability ts a → Forall number_ok ts → operand a) ∧
  (∀ ts a, postfix availability ts a → Forall number_ok ts → operand a) ∧
  (∀ ts l, arguments availability ts l → Forall number_ok ts → Forall operand l) ∧
  (∀ ts l, more_arguments availability ts l → Forall number_ok ts → Forall operand l).
Proof.
  apply (grammar_ind availability (λ n ts a _, Forall number_ok ts → operand a)
    (λ ts a _, Forall number_ok ts → operand a) (λ ts a _, Forall number_ok ts → operand a)
    (λ ts l _, Forall number_ok ts → Forall operand l)
    (λ ts l _, Forall number_ok ts → Forall operand l)); intros;
    repeat match goal with
    | H : Forall number_ok (_ ++ _) |- _ => apply Forall_app in H as [? ?]
    | H : Forall number_ok (_ :: _) |- _ => apply Forall_cons in H as [? ?]
    | IH : Forall number_ok ?ts → _, H : Forall number_ok ?ts |- _ => specialize (IH H)
    end; try done.
  - destruct operator as [o|o]; simpl; [|by apply ast_logical_ok].
    destruct H, H0. split; [|done]. simpl. rewrite_truths. done.
  - destruct H. split; [|done]. simpl. rewrite_truths. done.
  - split; [|done]. destruct kind; try done; injection e as <-; try done.
    destruct H as [H|H]; [|by destruct (H ieee754_bits)]. cbn [token_ok] in H.
    cbn [canonical literal_canonical]. destruct (is_nan _); [|done]. apply Z.eqb_eq. by apply H.
  - split; [|done]. by eapply context_canonical.
  - split; [|done]. cbn [canonical]. rewrite (function_canonical _ _ _ e). by apply operand_list.
  - destruct H. split; [|done]. simpl. by rewrite_truths.
  - destruct H. split; [|done]. simpl. by rewrite_truths.
  - destruct H. split; [|done]. simpl. by rewrite_truths.
  - destruct H, H0. split; [|done]. simpl. by rewrite_truths.
  - by apply Forall_singleton.
  - by apply Forall_cons_2.
Qed.

(** ** The compiler's last step *)

Lemma nodes_of_list (l : list Ast) : (length l <= length (flat_map emit l))%nat.
Proof.
  induction l as [|a l IH]; simpl; [lia|]. rewrite length_app. pose proof (emit_not_empty a).
  destruct (emit a); [done|]. simpl. lia.
Qed.

(** [u16::try_from] of a count never fails below the node limit. *)
Lemma typed_emission (a : Ast) :
  ast_nodes a <= u16_max → Forall typed_instruction (emit a).
Proof.
  unfold ast_nodes. induction a as [| | |t i IHt IHi|a IH|o l r IHl IHr|o l H|n l H] using ast_ind';
    cbn [emit]; rewrite ?length_app; cbn [length]; intros Hn; try (by repeat constructor).
  - apply Forall_app; split; [apply IHt; lia|]. apply Forall_app; split; [apply IHi; lia|].
    by repeat constructor.
  - apply Forall_app; split; [apply IH; lia|]. by repeat constructor.
  - apply Forall_app; split; [apply IHl; lia|]. apply Forall_app; split; [apply IHr; lia|].
    by repeat constructor.
  - pose proof (nodes_of_list l). apply Forall_app; split; [|repeat constructor; simpl; lia].
    clear H0. assert (Z.of_nat (length (flat_map emit l)) <= u16_max) as Hl by lia. clear Hn.
    induction H as [|a l Ha _ IH]; simpl in *; [done|]. rewrite length_app in Hl.
    apply Forall_app; split; [apply Ha; lia|apply IH; lia].
  - pose proof (nodes_of_list l). apply Forall_app; split; [|repeat constructor; simpl; lia].
    clear H0. assert (Z.of_nat (length (flat_map emit l)) <= u16_max) as Hl by lia. clear Hn.
    induction H as [|a l Ha _ IH]; simpl in *; [done|]. rewrite length_app in Hl.
    apply Forall_app; split; [apply Ha; lia|apply IH; lia].
Qed.

Lemma instruction_text_bytes_inv (l : list ExpressionInstruction) (t : Z) :
  instruction_text_bytes l = Some t → t = text_of l.
Proof.
  unfold instruction_text_bytes.
  set (f := λ (total : option Z) i, t ← total; checked_add u64_max t (instruction_text i)).
  assert (∀ l, foldl f None l = None) as Hnone by (clear; induction l; done).
  cut (∀ s, foldl f (Some s) l = Some t → t = s + text_of l).
  { intros H Hl. rewrite (H 0 Hl). lia. }
  induction l as [|i l IH]; simpl; intros s; [intros [= <-]; lia|].
  unfold checked_add. case_match; [|by rewrite Hnone]. intros Hl%IH. lia.
Qed.

Lemma source_chars (s : str) (n : Z) :
  forbidden_control s n = None → forallb source_char_ok s = true.
Proof.
  revert n. induction s as [|c s IH]; simpl; intros n; [done|].
  destruct (source_char_ok c); [|done]. apply IH.
Qed.

Lemma enforce_source_limits_post (source : str) (limits : CompilerLimits) :
  compiler_limits_valid limits →
  post sound_error (λ _, str_len source <= MAX_EXPRESSION_SOURCE_BYTES ∧
                         forallb source_char_ok source = true)
    (enforce_source_limits source limits).
Proof.
  intros (Hl & _). unfold enforce_source_limits. apply post_reject; [done|].
  intros Hlen%Z.ltb_ge. destruct (forbidden_control source 0) as [[]|] eqn:E; [done|].
  split; [lia|by eapply source_chars].
Qed.

Definition github_dialect : ExpressionDialect :=
  MkDialect GITHUB_EXPRESSION_DIALECT GITHUB_EXPRESSION_DIALECT_VERSION.

Lemma github_dialect_new :
  dialect_new GITHUB_EXPRESSION_DIALECT GITHUB_EXPRESSION_DIALECT_VERSION = Ok github_dialect.
Proof. by vm_compute. Qed.

(** The program of a tree, with all the validator asks for. *)
Definition program_for (source : str) (a : Ast) (p : ExpressionProgram) : Prop :=
  p = MkProgram EXPRESSION_PROGRAM_SCHEMA_VERSION github_dialect source (emit a) ∧
  program_validate p = Ok tt ∧ durable a ∧ Forall typed_instruction (emit a).

Lemma program_new_durable (source : str) (a : Ast) :
  source ≠ [] → str_len source <= MAX_EXPRESSION_SOURCE_BYTES →
  forallb source_char_ok source = true → durable a →
  post sound_error (program_for source a)
    (map_err (λ _, internal_error) (program_new github_dialect source (emit a))).
Proof.
  intros Hne Hlen Hchars Ha. unfold program_new.
  set (p := MkProgram _ _ _ _). assert (program_validate p = Ok tt) as Hv.
  { apply (validate_emission p a); [|done..]. unfold header_valid, p. cbn [program_schema_version program_source].
    rewrite Hchars, (proj2 (Z.leb_le _ _) Hlen). by destruct source. }
  rewrite Hv, bind_Ok. split; [done|]. split_and!; [done..|].
  destruct Ha as (_ & _ & Hn & _). apply typed_emission. unfold MAX_EXPRESSION_INSTRUCTIONS, u16_max in *. lia.
Qed.

Lemma finish_program_post (limits : CompilerLimits) (source : str) (range : ByteRange) (a : Ast) :
  compiler_limits_valid limits → operand a → source ≠ [] →
  str_len source <= MAX_EXPRESSION_SOURCE_BYTES → forallb source_char_ok source = true →
  post sound_error
    (λ p, program_for source a p ∧ ast_nodes a <= limit_nodes limits ∧
          ast_depth a <= limit_depth limits ∧ ast_text a <= limit_text_bytes limits)
    (finish_program limits source range a).
Proof.
  intros (_ & Hn & Hd & Ht) [Hc Hw] Hne Hlen Hchars. unfold finish_program.
  apply post_reject; [done|]. intros Hnodes%Z.ltb_ge. rewrite metrics_nodes in Hnodes.
  apply post_reject; [done|]. intros Hdepth%Z.ltb_ge. fold (ast_depth a) in Hdepth.
  destruct (instruction_text_bytes (emit a)) as [t|] eqn:E; [|done]. cbn [ok_or]. rewrite bind_Ok.
  apply instruction_text_bytes_inv in E as ->. fold (ast_text a).
  apply post_reject; [done|]. intros Htext%Z.ltb_ge.
  rewrite github_dialect_new. cbn [map_err]. rewrite bind_Ok.
  eapply post_weaken; [apply program_new_durable; try done|by intros p].
  split_and!; [done..|lia|lia|lia].
Qed.

(** ** From the source to the tree *)

Lemma expression_range_post (source : str) : post sound_error (λ _, True) (expression_range source).
Proof.
  unfold expression_range. destruct (strip_prefix _ _) as [body|].
  - unfold find_condition_delimiter. destruct (scan_delimiter _ _) as [[before []]|]; [done| |done].
    rewrite bind_Ok. apply post_reject; [done|]. intros _. by apply post_reject.
  - by destruct (first_unquoted_delimiter _) as [[]|].
Qed.

Lemma parser_new_post (range : ByteRange) :
  post sound_error (λ p, number_ok (kind_at (position_of p))) (parser_new range).
Proof.
  unfold parser_new. pose proof (lexer_next_well (lexer_new range)) as Hw.
  destruct (lexer_next _) as [[token lexer]|e]; [|done].
  destruct Hw as (? & ? & _ & Hok & _). by eapply token_ok_number.
Qed.

Lemma parse_source_post (limits : CompilerLimits) (availability : ParserAvailability) (source : str) :
  post sound_error (λ r, operand r.2) (parse_source limits availability source).
Proof.
  unfold parse_source. eapply post_bind; [apply expression_range_post|]. intros range _.
  eapply (post_bind _ _ (λ _, True)).
  { unfold enforce_github_length. by destruct (is_some _). }
  intros _ _. eapply post_bind; [apply parser_new_post|]. intros p Hp.
  eapply post_bind; [apply parse_sound|]. intros a (ts & y & Hr & _ & Hb).
  simpl. eapply (proj1 (derived_trees availability)); [exact Hb|]. by eapply reads_numbers.
Qed.

Lemma trim_not_empty (s : str) : str_is_empty (trim s) = false → s ≠ [].
Proof. by intros H ->. Qed.

Lemma status_call (name : str) (l : list Ast) :
  name ∈ status_function_names → has_status_function (AstCall name l) = true.
Proof. intros H. simpl. by rewrite bool_decide_eq_true_2. Qed.

Lemma guard_status_ok (a : Ast) :
  operand a → operand (guard_status a) ∧ has_status_function (guard_status a) = true.
Proof.
  intros Ha. unfold guard_status. destruct (has_status_function a) eqn:E; [done|]. simpl. split; [|done].
  apply ast_logical_ok; [|done]. split; by vm_compute.
Qed.

(** ** Claims *)

(** C19: the compiler keeps its contract with the durable format. Under limits
    that its constructor accepts, a condition or a value either compiles to a
    program that validation accepts, with the exact source, the GitHub dialect,
    instruction counts that fit [u16], and the emission of a canonical tree
    that, for a condition, calls a status function, or it is refused with a
    syntax, context or resource error: the internal error never occurs. *)
Theorem compiler_keeps_the_durable_format (limits : CompilerLimits) :
  compiler_limits_valid limits →
  (∀ source phase,
     match compile_condition limits source phase with
     | Ok p => ∃ a, has_status_function a = true ∧
         program_for (if str_is_empty (trim (default [] source)) then lit "success()"
                      else default [] source) a p
     | Err e => error_kind e ≠ KindInternal
     end) ∧
  (∀ source availability,
     match compile_value limits source availability with
     | Ok p => ∃ a, program_for source a p ∧ ast_nodes a <= limit_nodes limits ∧
         ast_depth a <= limit_depth limits ∧ ast_text a <= limit_text_bytes limits
     | Err e => error_kind e ≠ KindInternal
     end).
Proof.
  intros Hl. split.
  - intros source phase.
    change (post sound_error (λ p, ∃ a, has_status_function a = true ∧
      program_for (if str_is_empty (trim (default [] source)) then lit "success()"
                   else default [] source) a p) (compile_condition limits source phase)).
    unfold compile_condition. set (text := default [] source).
    eapply post_bind; [by apply enforce_source_limits_post|]. intros _ [Hlen Hchars].
    destruct (str_is_empty (trim text)) eqn:E.
    + exists (AstCall (lit "success") []). split; [done|]. split_and!; [done..| |by repeat constructor].
      unfold durable. split_and!; by vm_compute.
    + apply trim_not_empty in E. eapply post_bind; [apply parse_source_post|].
      intros [range a] Ha. destruct (guard_status_ok a Ha) as [Hg Hs].
      eapply post_weaken; [by apply finish_program_post|]. intros p [Hp _].
      by exists (guard_status a).
  - intros source availability.
    change (post sound_error (λ p, ∃ a, program_for source a p ∧ ast_nodes a <= limit_nodes limits ∧
      ast_depth a <= limit_depth limits ∧ ast_text a <= limit_text_bytes limits)
      (compile_value limits source availability)).
    unfold compile_value. eapply post_bind; [by apply enforce_source_limits_post|].
    intros _ [Hlen Hchars]. apply post_reject; [done|]. intros E%trim_not_empty.
    eapply post_bind; [apply parse_source_post|]. intros [range a] Ha.
    eapply post_weaken; [by apply finish_program_post|]. intros p Hp. by exists a.
Qed.

Lemma compiler_limits_default_valid : compiler_limits_valid compiler_limits_default.
Proof. by vm_compute. Qed.

Lemma compiler_keeps_the_durable_format_witness :
  compiler_limits_valid compiler_limits_default ∧
  ∃ p, compile_condition compiler_limits_default (Some (lit "github.ref == 'x'")) PhaseJob = Ok p ∧
    program_validate p = Ok tt.
Proof.
  assert (compiler_limits_valid compiler_limits_default) as H by by vm_compute.
  split; [exact H|].
  pose proof (proj1 (compiler_keeps_the_durable_format _ H) (Some (lit "github.ref == 'x'")) PhaseJob) as Hc.
  destruct (compile_condition _ _ _) as [p|e] eqn:E; [|vm_compute in E; discriminate].
  exists p. split; [reflexivity|]. destruct Hc as (a & _ & _ & Hv & _). exact Hv.
Defined.

(** The tokens of a source range, up to its end. *)
Definition lexes (range : ByteRange) (ts : list TokenKind) : Prop :=
  ∃ p y, parser_new range = Ok p ∧ reads (position_of p) ts y ∧ kind_at y = TEof.

Definition parse_range (availability : ParserAvailability) (limits : CompilerLimits)
    (range : ByteRange) : cresult Ast :=
  parser ← parser_new range; parse availability limits parser.

(** C20: the precedence climbing parser implements the grammar with one level
    per precedence. What it accepts is a derivation of the tokens of the range,
    and when the tokens have a derivation it returns that very tree or reports
    a resource limit; so two derivations of one text are the same tree unless a
    limit refuses it, and the counters of the model always suffice. *)
Theorem parser_implements_the_grammar (availability : ParserAvailability)
    (limits : CompilerLimits) (range : ByteRange) :
  (∀ a, parse_range availability limits range = Ok a →
     ∃ ts, lexes range ts ∧ binary availability 0 ts a) ∧
  (∀ ts a, lexes range ts → binary availability 0 ts a →
     parse_range availability limits range = Ok a ∨
     ∃ e, parse_range availability limits range = Err e ∧ error_kind e = KindResourceLimit).
Proof.
  unfold parse_range. split.
  - intros a H. apply bind_Ok_inv in H as (p & Hp & H).
    pose proof (parse_sound availability limits p) as Hs. rewrite H in Hs.
    destruct Hs as (ts & y & Hr & Hk & Hb). exists ts. split; [by exists p, y|done].
  - intros ts a (p & y & Hp & Hr & Hk) Hb. rewrite Hp, bind_Ok.
    pose proof (parse_complete availability limits p ts y a Hr Hk Hb) as Hc.
    destruct (parse availability limits p) as [b|e]; [left; by rewrite Hc|right; by exists e].
Qed.

(** [!a && b]: the operator binds less than the negation. *)
Definition sample_range : ByteRange := MkRange 0 (lit "!env.a && env.b").

Lemma parser_implements_the_grammar_witness :
  ∃ a ts, parse_range (for_condition PhaseStep) compiler_limits_default sample_range = Ok a ∧
    a = AstLogical OpAnd
          [AstNot (AstIndex (AstNamedValue (lit "env")) (AstLiteral (LitString (lit "a"))));
           AstIndex (AstNamedValue (lit "env")) (AstLiteral (LitString (lit "b")))] ∧
    lexes sample_range ts ∧ binary (for_condition PhaseStep) 0 ts a.
Proof.
  destruct (parse_range (for_condition PhaseStep) compiler_limits_default sample_range) as [a|e] eqn:E;
    [|vm_compute in E; discriminate].
  destruct (proj1 (parser_implements_the_grammar (for_condition PhaseStep) compiler_limits_default
    sample_range) a E) as (ts & Hl & Hb).
  exists a, ts. split; [reflexivity|]. split; [|by split].
  vm_compute in E. apply Ok_inj in E. subst a. vm_compute. reflexivity.
Defined.

(** *** Recovering the tree *)

(** Node [i] of an arena is the root of the tree [a]. *)
Inductive encodes (nodes : list Node) : nat → Ast → Prop :=
| encodes_literal i v : nodes !! i = Some (NLiteral (literal_value v)) → encodes nodes i (AstLiteral v)
| encodes_named i n : nodes !! i = Some (NNamed n) → encodes nodes i (AstNamedValue n)
| encodes_wildcard i : nodes !! i = Some NWildcard → encodes nodes i AstWildcard
| encodes_index i j k t x :
    nodes !! i = Some (NIndex j k) → encodes nodes j t → encodes nodes k x →
    encodes nodes i (AstIndex t x)
| encodes_not i j a : nodes !! i = Some (NNot j) → encodes nodes j a → encodes nodes i (AstNot a)
| encodes_compare i j k o l r :
    nodes !! i = Some (NCompare o j k) → encodes nodes j l → encodes nodes k r →
    encodes nodes i (AstCompare o l r)
| encodes_logical i o js l :
    nodes !! i = Some (NLogical o js) → Forall2 (encodes nodes) js l → encodes nodes i (AstLogical o l)
| encodes_call i n js l :
    nodes !! i = Some (NCall n js) → Forall2 (encodes nodes) js l → encodes nodes i (AstCall n l).

Lemma encodes_app (nodes more : list Node) (a : Ast) :
  ∀ i, encodes nodes i a → encodes (nodes ++ more) i a.
Proof.
  assert (∀ i n, nodes !! i = Some n → (nodes ++ more) !! i = Some n) as Hl
    by (intros i n; apply lookup_app_l_Some).
  assert (∀ l js, Forall (λ a, ∀ i, encodes nodes i a → encodes (nodes ++ more) i a) l →
    Forall2 (encodes nodes) js l → Forall2 (encodes (nodes ++ more)) js l) as Hlist.
  { intros l js Hall. revert js. induction Hall as [|b l Hb _ IH]; intros js H;
      inversion H; subst; constructor; auto. }
  induction a as [v|n| |t x IHt IHx|a IH|o l r IHl IHr|o l H|n l H] using ast_ind'; intros i He;
    inversion He; subst; econstructor; eauto.
Qed.

(** Compiling the emission of a tree adds its nodes and leaves its root. *)
Definition compiles (a : Ast) : Prop :=
  ∀ nodes stack rest, ∃ more i,
    try_fold compile_step (nodes, stack) (emit a ++ rest) =
      try_fold compile_step (nodes ++ more, i :: stack) rest ∧
    encodes (nodes ++ more) i a ∧ (i < length (nodes ++ more))%nat.

Lemma compiles_list (l : list Ast) :
  Forall compiles l → ∀ nodes stack rest, ∃ more js,
    try_fold compile_step (nodes, stack) (flat_map emit l ++ rest) =
      try_fold compile_step (nodes ++ more, rev js ++ stack) rest ∧
    Forall2 (encodes (nodes ++ more)) js l.
Proof.
  induction 1 as [|a l Ha _ IH]; intros nodes stack rest.
  { exists [], []. rewrite app_nil_r. split; [done|constructor]. }
  simpl. rewrite <- app_assoc.
  destruct (Ha nodes stack (flat_map emit l ++ rest)) as (m1 & i & -> & He & _).
  destruct (IH (nodes ++ m1) (i :: stack) rest) as (m2 & js & -> & Hl).
  exists (m1 ++ m2), (i :: js). rewrite (app_assoc nodes m1 m2). simpl.
  rewrite <- (app_assoc (rev js) [i] stack). split; [done|].
  constructor; [by apply encodes_app|done].
Qed.

(** The last instruction of an emission. *)
Lemma compile_last (i : ExpressionInstruction) (node : Node) (nodes : list Node)
    (stack stack' : list nat) (rest : list ExpressionInstruction) (a : Ast) :
  compile_instruction i stack = Ok (node, stack') →
  (∀ k, (nodes ++ [node]) !! k = Some node → encodes (nodes ++ [node]) k a) →
  try_fold compile_step (nodes, stack) (i :: rest) =
    try_fold compile_step (nodes ++ [node], length nodes :: stack') rest ∧
  encodes (nodes ++ [node]) (length nodes) a ∧ (length nodes < length (nodes ++ [node]))%nat.
Proof.
  intros Hi He. cbn [try_fold compile_step]. rewrite Hi, !bind_Ok. split; [done|].
  rewrite length_app. simpl. split; [|lia]. apply He. by rewrite list_lookup_middle.
Qed.

Lemma pop_many_rev (js stack : list nat) :
  pop_many (rev js ++ stack) (Z.of_nat (length js)) = Ok (js, stack).
Proof.
  unfold pop_many. rewrite length_app, length_rev, Nat2Z.id.
  rewrite (proj2 (Z.ltb_ge _ _)) by lia. cbn [reject]. rewrite bind_Ok.
  rewrite <- (length_rev js), take_app_length, drop_app_length. by rewrite rev_involutive.
Qed.

Lemma emission_compiles (a : Ast) : compiles a.
Proof.
  induction a as [v|n| |t x IHt IHx|a IH|o l r IHl IHr|o l H|n l H] using ast_ind';
    intros nodes stack rest; cbn [emit app].
  - eexists [_], _. apply compile_last; [done|]. intros k Hk. by constructor.
  - eexists [_], _. apply compile_last; [done|]. intros k Hk. by constructor.
  - eexists [_], _. apply compile_last; [done|]. intros k Hk. by constructor.
  - rewrite <- !app_assoc. destruct (IHt nodes stack (emit x ++ [IIndex] ++ rest)) as (m1 & j & -> & Hj & _).
    destruct (IHx (nodes ++ m1) (j :: stack) ([IIndex] ++ rest)) as (m2 & k & -> & Hk & _).
    eexists (m1 ++ m2 ++ [_]), _. rewrite !app_assoc. apply compile_last; [done|].
    intros i Hi. eapply encodes_index; [exact Hi|by do 2 apply encodes_app|by apply encodes_app].
  - rewrite <- !app_assoc. destruct (IH nodes stack ([INot] ++ rest)) as (m1 & j & -> & Hj & _).
    eexists (m1 ++ [_]), _. rewrite !app_assoc. apply compile_last; [done|].
    intros i Hi. eapply encodes_not; [exact Hi|]. by apply encodes_app.
  - rewrite <- !app_assoc. destruct (IHl nodes stack (emit r ++ [ICompare o] ++ rest)) as (m1 & j & -> & Hj & _).
    destruct (IHr (nodes ++ m1) (j :: stack) ([ICompare o] ++ rest)) as (m2 & k & -> & Hk & _).
    eexists (m1 ++ m2 ++ [_]), _. rewrite !app_assoc. apply compile_last; [done|].
    intros i Hi. eapply encodes_compare; [exact Hi|by do 2 apply encodes_app|by apply encodes_app].
  - rewrite <- app_assoc.
    destruct (compiles_list l H nodes stack ([ILogical o (Z.of_nat (length l))] ++ rest))
      as (m1 & js & -> & Hl).
    eexists (m1 ++ [_]), _. rewrite app_assoc. apply compile_last.
    + cbn [compile_instruction]. rewrite <- (Forall2_length _ _ _ Hl), pop_many_rev. done.
    + intros i Hi. eapply encodes_logical; [exact Hi|]. eapply Forall2_impl; [exact Hl|].
      intros; by apply encodes_app.
  - rewrite <- app_assoc.
    destruct (compiles_list l H nodes stack ([ICall n (Z.of_nat (length l))] ++ rest))
      as (m1 & js & -> & Hl).
    eexists (m1 ++ [_]), _. rewrite app_assoc. apply compile_last.
    + cbn [compile_instruction]. rewrite <- (Forall2_length _ _ _ Hl), pop_many_rev. done.
    + intros i Hi. eapply encodes_call; [exact Hi|]. eapply Forall2_impl; [exact Hl|].
      intros; by apply encodes_app.
Qed.

Lemma emission_recovered (a : Ast) :
  ∃ tree, tree_compile (emit a) = Ok tree ∧ encodes (tree_nodes tree) (tree_root tree) a.
Proof.
  destruct (emission_compiles a [] [] []) as (nodes & i & H & He & _).
  rewrite app_nil_r in H. unfold tree_compile. rewrite H. cbn [try_fold]. rewrite bind_Ok.
  by eexists.
Qed.

(** The evaluator recovers the tree of every validated program: its
    instructions are the emission of a durable tree, compiling them succeeds,
    and the arena that results holds that tree, operand by operand, at its
    root. *)
Lemma evaluator_recovers_the_tree (p : ExpressionProgram) :
  Forall typed_instruction (program_instructions p) → program_validate p = Ok tt →
  ∃ a tree, durable a ∧ program_instructions p = emit a ∧
    tree_compile (program_instructions p) = Ok tree ∧ encodes (tree_nodes tree) (tree_root tree) a.
Proof.
  intros Hty Hv. destruct (validated_emission p Hty Hv) as (_ & a & Ha & ->).
  destruct (emission_recovered a) as (tree & Ht & He). by exists a, tree.
Qed.

(** *** The status guard *)

Section Guard.
Context {T : CaseTable} {J : SerdeJson}.

Lemma enforce_boolean (b : bool) (limits : GithubExpressionLimits) :
  0 <= result_bytes limits → 1 <= collection_items limits → 1 <= value_depth limits →
  enforce_value_limits (VBoolean b) limits = Ok tt.
Proof.
  intros Hr Hc Hd. unfold enforce_value_limits. cbn [enforce_loop].
  change (value_text (VBoolean b)) with 0. change (0 + 1) with 1. change (0 + 0) with 0.
  rewrite (proj2 (Z.ltb_ge (value_depth limits) 1)), (proj2 (Z.ltb_ge (collection_items limits) 1)),
    (proj2 (Z.ltb_ge (result_bytes limits) 0)) by lia. cbn [reject]. rewrite !bind_Ok.
  by destruct (Z.to_nat (collection_items limits)).
Qed.

Lemma call_success (eval : nat → eresult Evaluated) (site : nat) (arguments : list nat)
    (context : GithubEvaluationContext) (limits : GithubExpressionLimits) :
  evaluate_call eval site (lit "success") arguments context limits =
  Ok (plain (VBoolean (bool_decide (context_status context = StatusSuccess)))).
Proof.
  unfold evaluate_call. change (map to_ascii_lowercase (lit "success")) with (lit "success").
  by change (str_eqb (lit "success") (lit "success")) with true.
Qed.

(** A tree that is the status check, or asks it first. *)
Inductive guarded : Ast → Prop :=
| guarded_call l : guarded (AstCall (lit "success") l)
| guarded_and l k : guarded (AstLogical OpAnd (AstCall (lit "success") l :: k)).

Lemma guarded_evaluates (nodes : list Node) (a : Ast) (i : nat)
    (context : GithubEvaluationContext) (limits : GithubExpressionLimits) :
  guarded a → encodes nodes i a → arena_ok nodes → context_status context ≠ StatusSuccess →
  evaluate_node (S i) nodes context limits i = Ok (plain (VBoolean false)).
Proof.
  intros Hg He Ha Hs. destruct Hg as [l|l k]; inversion He as [| | | | | |? ? js ? Hi Hl|? ? js ? Hi Hl]; subst.
  - cbn [evaluate_node]. rewrite Hi, call_success, bool_decide_eq_false_2 by done. done.
  - inversion Hl as [|j ? js' ? Hj _]; subst. inversion Hj as [| | | | | | |? ? ks ? Hk _]; subst.
    pose proof (Ha i _ Hi) as Hn. simpl in Hn. apply Forall_cons in Hn as [[Hji _] _].
    destruct i as [|i]; [lia|]. remember (S i) as n eqn:Hn. cbn [evaluate_node]. rewrite Hi.
    unfold evaluate_logical. cbn [logical_loop]. rewrite Hn. cbn [evaluate_node].
    rewrite Hk, call_success, bool_decide_eq_false_2 by done. by rewrite bind_Ok.
Qed.

Lemma guarded_program (source : str) (a : Ast) (p : ExpressionProgram)
    (limits : GithubExpressionLimits) (context : GithubEvaluationContext) :
  program_for source a p → guarded a → context_status context ≠ StatusSuccess →
  0 <= result_bytes limits → 1 <= collection_items limits → 1 <= value_depth limits →
  evaluate_condition limits p context = Ok false.
Proof.
  intros (-> & Hv & _) Hg Hs Hr Hc Hd. unfold evaluate_condition, evaluate.
  destruct (validated_compiles _ Hv) as (tree & Ht & Hok & _).
  destruct (emission_recovered a) as (tree' & Ht' & He).
  cbn [program_instructions] in Ht. rewrite Ht in Ht'. injection Ht' as <-.
  rewrite Hv. cbn [map_err]. rewrite bind_Ok.
  change (negb _ || negb _) with false. cbn [reject]. rewrite bind_Ok.
  cbn [program_instructions]. rewrite Ht, bind_Ok. unfold tree_evaluate.
  rewrite (guarded_evaluates _ a) by done. rewrite bind_Ok. cbn [evaluated_value plain].
  rewrite enforce_boolean by done. by rewrite !bind_Ok.
Qed.

Lemma guard_status_guarded (a : Ast) :
  has_status_function a = false → guarded (guard_status a).
Proof. intros H. unfold guard_status. rewrite H. simpl. constructor. Qed.

(** A call of a status function anywhere in a tree. *)
Inductive calls_status : Ast → Prop :=
| status_called name l :
    name ∈ [lit "always"; lit "success"; lit "failure"; lit "cancelled"] →
    calls_status (AstCall name l)
| status_argument name l a : a ∈ l → calls_status a → calls_status (AstCall name l)
| status_target t i : calls_status t → calls_status (AstIndex t i)
| status_index t i : calls_status i → calls_status (AstIndex t i)
| status_left o l r : calls_status l → calls_status (AstCompare o l r)
| status_right o l r : calls_status r → calls_status (AstCompare o l r)
| status_not a : calls_status a → calls_status (AstNot a)
| status_operand o l a : a ∈ l → calls_status a → calls_status (AstLogical o l).

Lemma has_status_calls (a : Ast) : has_status_function a = true ↔ calls_status a.
Proof.
  assert (Hex : ∀ l, Forall (λ a, has_status_function a = true ↔ calls_status a) l →
    existsb has_status_function l = true ↔ ∃ a, a ∈ l ∧ calls_status a).
  { intros l Hl. rewrite existsb_exists. rewrite Forall_forall in Hl. split.
    - intros (x & Hx%list_elem_of_In & Hs). exists x. by rewrite <- Hl.
    - intros (x & Hx & Hs). exists x. by rewrite Hl, <- list_elem_of_In. }
  induction a as [v|n| |t i IHt IHi|a IH|o l r IHl IHr|o l H|n l H] using ast_ind';
    cbn [has_status_function]; rewrite ?orb_true_iff; try (split; [done|by inversion 1]).
  - rewrite IHt, IHi. split; [intros []; eauto using calls_status|inversion 1; auto].
  - rewrite IH. split; [by constructor|by inversion 1].
  - rewrite IHl, IHr. split; [intros []; eauto using calls_status|inversion 1; auto].
  - rewrite (Hex l H). split; [intros (x & ? & ?); eauto using calls_status|inversion 1; eauto].
  - rewrite (Hex l H), bool_decide_eq_true.
    split; [intros [Hn|(x & ? & ?)]; eauto using calls_status|inversion 1; eauto].
Qed.

(** Whatever the context provides, the program is false in it unless the job
    has succeeded so far. *)
Definition waits_for_success (p : ExpressionProgram) : Prop :=
  ∀ elimits context, 0 <= result_bytes elimits → 1 <= collection_items elimits →
    1 <= value_depth elimits → context_status context ≠ StatusSuccess →
    evaluate_condition elimits p context = Ok false.

Lemma guarded_waits (source : str) (a : Ast) (p : ExpressionProgram) :
  program_for source a p → guarded a → waits_for_success p.
Proof. intros Hp Hg elimits context Hr Hc Hd Hs. by eapply guarded_program. Qed.

(** C22: a condition waits for success unless it asks for the status itself. A
    blank one is compiled as [success()]. Any other is compiled exactly as
    written when a status function is called anywhere in it; when none is, as
    the conjunction of [success()] with what is written, and then it is false in
    every context whose status is not success, without evaluating the rest: no
    value the context holds and no function it provides can change that. *)
Theorem conditions_wait_for_success (limits : CompilerLimits) (source : str)
    (phase : GithubConditionPhase) (p : ExpressionProgram) :
  compiler_limits_valid limits → compile_condition limits (Some source) phase = Ok p →
  if str_is_empty (trim source)
  then program_instructions p = emit (AstCall (lit "success") []) ∧ waits_for_success p
  else
    ∃ range a, parse_source limits (for_condition phase) source = Ok (range, a) ∧
      (calls_status a → program_instructions p = emit a) ∧
      (¬ calls_status a →
         program_instructions p =
           emit (AstLogical OpAnd (AstCall (lit "success") [] :: flatten_operand OpAnd a)) ∧
         waits_for_success p).
Proof.
  intros Hl. unfold compile_condition. simpl default. intros H.
  pose proof (enforce_source_limits_post source limits Hl) as Hs.
  destruct (enforce_source_limits source limits) as [[]|]; [|done]. destruct Hs as [Hlen Hchars].
  rewrite bind_Ok in H. destruct (str_is_empty (trim source)) eqn:E.
  - assert (post sound_error (program_for (lit "success()") (AstCall (lit "success") [])) success_program)
      as Hp.
    { unfold success_program. rewrite github_dialect_new. cbn [map_err]. rewrite bind_Ok.
      by apply (program_new_durable (lit "success()") (AstCall (lit "success") [])). }
    rewrite H in Hp. split; [by destruct Hp as [-> _]|]. eapply guarded_waits; [exact Hp|constructor].
  - apply trim_not_empty in E.
    pose proof (parse_source_post limits (for_condition phase) source) as Hp.
    destruct (parse_source _ _ _) as [[range a]|]; [|done]. rewrite bind_Ok in H. cbn [post snd] in Hp.
    destruct (guard_status_ok a Hp) as [Hg _].
    pose proof (finish_program_post limits source range (guard_status a) Hl Hg E Hlen Hchars) as Hf.
    rewrite H in Hf. destruct Hf as [Hf _]. exists range, a. rewrite <- has_status_calls.
    split; [done|]. split.
    + intros Ha. destruct Hf as [-> _]. unfold guard_status. by rewrite Ha.
    + intros Ha%not_true_iff_false. split; [|by eapply guarded_waits, guard_status_guarded].
      destruct Hf as [-> _]. unfold guard_status, ast_logical. rewrite Ha. cbn. by rewrite app_nil_r.
Qed.
End Guard.

(** A condition of each kind: one without and one with a status function. *)
Lemma conditions_wait_for_success_witness :
  let J := {| json_document _ := (DFail, true); json_string s := s |} in
  (∃ p, compile_condition compiler_limits_default (Some (lit "env.deploy")) PhaseStep = Ok p ∧
     waits_for_success (T := ascii_case_table) (J := J) p) ∧
  ∃ p a, compile_condition compiler_limits_default (Some (lit "!cancelled()")) PhaseStep = Ok p ∧
    a = AstNot (AstCall (lit "cancelled") []) ∧ program_instructions p = emit a.
Proof.
  intros J. pose proof compiler_limits_default_valid as Hl. split.
  - destruct (compile_condition compiler_limits_default (Some (lit "env.deploy")) PhaseStep)
      as [p|e] eqn:E; [|vm_compute in E; discriminate].
    exists p. split; [reflexivity|].
    destruct (conditions_wait_for_success (T := ascii_case_table) (J := J) _ _ _ _ Hl E)
      as (range & a & Ha & _ & H).
    vm_compute in Ha. injection Ha as <- <-. apply H. rewrite <- has_status_calls. discriminate.
  - destruct (compile_condition compiler_limits_default (Some (lit "!cancelled()")) PhaseStep)
      as [p|e] eqn:E; [|vm_compute in E; discriminate].
    destruct (conditions_wait_for_success (T := ascii_case_table) (J := J) _ _ _ _ Hl E)
      as (range & a & Ha & H & _).
    exists p, a. split; [reflexivity|]. vm_compute in Ha. injection Ha as <- <-.
    split; [reflexivity|]. apply H. rewrite <- has_status_calls. reflexivity.
Defined.

(** *** Numbers *)

Lemma octal_digit (c : Z) : is_digit 8 c = in_range 48 55 c.
Proof.
  unfold is_digit, to_digit, is_ascii_digit, in_range.
  repeat match goal with |- context [?a <=? ?b] => destruct (Z.leb_spec a b) end; simpl; try done;
    try lia; repeat match goal with |- context [?a <? ?b] => destruct (Z.ltb_spec a b) end;
    simpl; try done; lia.
Qed.

Lemma compiler_valid_decimal_same (raw : str) : compiler_valid_decimal raw = valid_decimal raw.
Proof.
  unfold compiler_valid_decimal, valid_decimal. destruct (take_sign raw) as [sign s]. cbn [snd].
  destruct s as [|c s]; [done|]. cbn [str_is_empty].
  destruct (span_digits (c :: s)) as [int r].
  destruct (match r with c :: s' => if c =? 46 then span_digits s' else ([], r) | [] => ([], []) end)
    as [frac r'].
  by destruct int as [|d int], frac as [|f frac].
Qed.

(** A number means the same as a literal of the language and as text that
    is coerced at run time: the parser of the compiler and the coercion of the
    evaluator agree on every text without white space around it, names, radix
    prefixes, sign wrap-around at 32 bits and malformed text (NaN for the
    coercion, no literal for the compiler) included. *)
Lemma literals_mean_what_text_coerces_to (raw : str) :
  raw ≠ [] → trim raw = raw →
  to_number (VString raw) = default f64_nan (parse_number_literal raw).
Proof.
  intros Hne Htrim. unfold to_number. cbn [without_sensitivity]. unfold parse_number, parse_number_literal.
  rewrite Htrim. destruct raw as [|c raw]; [done|]. cbn [str_is_empty].
  generalize (c :: raw). clear. intros raw.
  destruct (str_eqb raw (lit "Infinity")); [done|]. destruct (str_eqb raw (lit "-Infinity")); [done|].
  destruct (strip_prefix (lit "0x") raw) as [hex|].
  { unfold parse_hex_i32, parse_radix_literal. destruct (_ || _); [done|].
    by destruct (u32_from_str_radix hex 16). }
  destruct (strip_prefix (lit "0o") raw) as [octal|].
  { unfold parse_radix_i32, parse_radix_literal.
    assert (forallb (is_digit 8) octal = forallb (in_range 48 55) octal) as ->.
    { induction octal as [|d octal IH]; simpl; [done|]. by rewrite octal_digit, IH. }
    destruct (_ || _); [done|]. by destruct (u32_from_str_radix octal 8). }
  rewrite compiler_valid_decimal_same. by destruct (valid_decimal raw).
Qed.

