(* ===== verification/WorkflowTemplate.v ===== *)
(** * WorkflowTemplate: source spans, budgets and expression templates of plans

    Models [crates/automata-ci-core/src/workflow/]: [source.rs] (locations,
    spans, located values), [validation.rs] (the errors and the cumulative
    budget of a plan), [identifier.rs] (the keys of the graph), [expression.rs]
    (lossless expression sources) and [template.rs] (phase-tagged templates).
    Every check on a plan charges one budget, so a check is a computation on
    that budget; serde's decoding ends in the constructors. *)

From S2P Require Import Prelude Text Float64 ExpressionProgram ExpressionParser.

(** ** Errors *)

Inductive WorkflowPlanError :=
| ZeroPlanVersion
| ZeroExpressionVersion
| UnsupportedPlanVersion (supported received : Z)
| UnsupportedExpressionVersion (supported received : Z)
| EmptyField (field : str)
| InvalidSourceLocation
| ReversedSourceSpan
| EmptyExpressionSegments
| EmptyEvaluation
| ExpressionSourceMismatch
| ExpressionProgramCountMismatch (expected received : Z)
| ExpressionProgramSourceMismatch (index : nat)
| InvalidPlanKey (kind value : str)
| NoJobs
| DuplicateJob (job : str)
| UnknownDependency (job dependency : str)
| SelfDependency (job : str)
| DependencyCycle
| NoSteps (job : str)
| DuplicateStep (job step : str)
| ZeroPositiveInteger (field : str)
| TimeoutScaleOverflow (field : str)
| EmptyRunnerProfile (job : str)
| DuplicatePermission (name : str)
| ProviderMismatch (source_provider event_provider : str)
| PlanSourceMismatch
| PlanLimitExceeded (field : str) (maximum : Z)
| NestedSourceMismatch (field : str)
| DuplicateDefinition (field key : str)
| NonCanonicalJobOrder
| UnknownResultJob (job dependency : str)
| ResultNotDependency (job dependency : str)
| UnknownResultOutput (job output : str)
| ExpressionContextUnavailable (context phase minimum : str)
| DuplicateExpressionContext (context : str)
| NonCanonicalExpressionContexts
| UnsupportedExpressionNamedValue
| ExpressionProgramContextMismatch
| TemplatePhaseTooLate (field latest actual : str)
| UnsupportedStrategyVersion (supported received : Z)
| ZeroStrategyVersion
| InvalidMatrixExpansionLimit (maximum : Z)
| EmptyPlanMatrixAxis (axis : str)
| EmptyPlanMatrix
| MixedMatrixForms
| InvalidNumber (value : str)
| InvocationDefaultTypeMismatch (input : str)
| RequiredInputHasDefault (input : str)
| IncompatibleLogicalJobField (job field : str)
| InvalidOutputMergePolicy (job : str)
| PublicOutputReferencesSecrets (output : str).

#[export] Instance workflow_plan_error_eq_dec : EqDecision WorkflowPlanError.
Proof. solve_decision. Defined.

(** ** Sources *)

(** [byte_offset] is a [u64], the positions are [u32]. *)
Record PlanSourceLocation := MkLocation {
  location_byte_offset : Z;
  location_line : Z;
  location_column : Z
}.

Definition location_new (byte_offset line column : Z) :
    result WorkflowPlanError PlanSourceLocation :=
  _ ← reject ((line =? 0) || (column =? 0)) InvalidSourceLocation;
  Ok (MkLocation byte_offset line column).

Record PlanSourceSpan := MkSpan {
  span_source_id : str;
  span_start : PlanSourceLocation;
  span_end : PlanSourceLocation
}.

Definition span_new (source_id : str) (start end_ : PlanSourceLocation) :
    result WorkflowPlanError PlanSourceSpan :=
  _ ← reject (str_is_empty (trim source_id)) (EmptyField (lit "source span identity"));
  _ ← reject (location_byte_offset end_ <? location_byte_offset start) ReversedSourceSpan;
  Ok (MkSpan source_id start end_).

Record Located (T : Type) := MkLocated { located_value : T; located_span : PlanSourceSpan }.
Arguments MkLocated {T} _ _.
Arguments located_value {T} _.
Arguments located_span {T} _.

(** ** The budget of a plan *)

Definition MAX_LOGICAL_PLAN_NODES : Z := 65536.
Definition MAX_LOGICAL_PLAN_TEXT_BYTES : Z := 4194304.
Definition MAX_LOGICAL_FIELD_BYTES : Z := 65536.
Definition MAX_MATRIX_TEXT_BYTES : Z := 16384.
Definition MAX_TEMPLATE_BYTES : Z := 65536.
Definition MAX_TEMPLATE_SEGMENTS : Z := 512.
Definition MAX_EXPRESSION_CONTEXTS : Z := 16.

(** The fieldless enums of rejections carry nothing beyond the test. *)
Definition logical_plan_node_rejection (observed : Z) : bool := MAX_LOGICAL_PLAN_NODES <? observed.
Definition logical_plan_text_byte_rejection (observed : Z) : bool :=
  MAX_LOGICAL_PLAN_TEXT_BYTES <? observed.
Definition logical_field_byte_rejection (observed : Z) : bool :=
  MAX_LOGICAL_FIELD_BYTES <? observed.
Definition matrix_text_byte_rejection (observed : Z) : bool := MAX_MATRIX_TEXT_BYTES <? observed.
Definition workflow_template_byte_rejection (observed : Z) : bool := MAX_TEMPLATE_BYTES <? observed.
Definition workflow_template_segment_rejection (observed : Z) : bool :=
  MAX_TEMPLATE_SEGMENTS <? observed.
Definition expression_context_rejection (observed : Z) : bool :=
  MAX_EXPRESSION_CONTEXTS <? observed.

(** Counters are [usize]; the platforms of the program have 64 bits. *)
Record LogicalPlanBudget := MkPlanBudget { plan_nodes : Z; plan_text_bytes : Z }.

Definition plan_budget_new : LogicalPlanBudget := MkPlanBudget 0 0.

(** A check that may charge the budget. *)
Definition Charge (A : Type) : Type := stM LogicalPlanBudget WorkflowPlanError A.
#[export] Instance charge_ret : MRet Charge := stM_ret LogicalPlanBudget WorkflowPlanError.
#[export] Instance charge_bind : MBind Charge := stM_bind LogicalPlanBudget WorkflowPlanError.

Definition refuse (c : bool) (e : WorkflowPlanError) : Charge unit := liftM (reject c e).

Definition charge_node (field : str) : Charge unit := λ b,
  match checked_add u64_max (plan_nodes b) 1 with
  | None => (b, Err (PlanLimitExceeded field MAX_LOGICAL_PLAN_NODES))
  | Some nodes =>
      let b := MkPlanBudget nodes (plan_text_bytes b) in
      (b, reject (logical_plan_node_rejection nodes)
            (PlanLimitExceeded field MAX_LOGICAL_PLAN_NODES))
  end.

Definition charge_plan_text (field value : str) (item_maximum : Z) : Charge unit := λ b,
  let len := str_len value in
  if ((item_maximum =? MAX_LOGICAL_FIELD_BYTES) && logical_field_byte_rejection len)
     || ((item_maximum =? MAX_MATRIX_TEXT_BYTES) && matrix_text_byte_rejection len)
     || ((item_maximum =? MAX_TEMPLATE_BYTES) && workflow_template_byte_rejection len)
     || (item_maximum <? len)
  then (b, Err (PlanLimitExceeded field item_maximum))
  else
    match checked_add u64_max (plan_text_bytes b) len with
    | None => (b, Err (PlanLimitExceeded (lit "logical plan text") MAX_LOGICAL_PLAN_TEXT_BYTES))
    | Some text_bytes =>
        let b := MkPlanBudget (plan_nodes b) text_bytes in
        (b, reject (logical_plan_text_byte_rejection text_bytes)
              (PlanLimitExceeded (lit "logical plan text") MAX_LOGICAL_PLAN_TEXT_BYTES))
    end.

Definition validate_span_source (span : PlanSourceSpan) (source_id field : str) : Charge unit :=
  refuse (negb (str_eqb (span_source_id span) source_id)) (NestedSourceMismatch field).

(** ** Keys *)

Definition MAX_PLAN_KEY_LENGTH : Z := 256.
Definition workflow_identifier_byte_rejection (observed : Z) : bool :=
  MAX_PLAN_KEY_LENGTH <? observed.

(** The key types of [plan_key!] are newtypes of [String]; [kind] names one. *)
Definition plan_key_new (kind value : str) : result WorkflowPlanError str :=
  _ ← reject (str_is_empty value || negb (str_eqb (trim value) value)
              || workflow_identifier_byte_rejection (str_len value)
              || existsb is_control value) (InvalidPlanKey kind value);
  Ok value.

(** ** Expressions *)

(** [WorkflowExpressionVersion]: a [NonZeroU16]. *)
Definition WorkflowExpressionVersion : Type := Bounded 1 u16_max.
Definition expression_version_new (version : Z) :
    result WorkflowPlanError WorkflowExpressionVersion :=
  ok_or (Prelude.bounded 1 u16_max version) ZeroExpressionVersion.
Definition expression_version_current : WorkflowExpressionVersion := MkBounded (lo := 1) (hi := u16_max) 1 I.

Inductive ExpressionSegment := SegLiteral (source : str) | SegEvaluation (source : str).

Definition segment_source (self : ExpressionSegment) : str :=
  match self with SegLiteral source | SegEvaluation source => source end.

Definition is_evaluation (self : ExpressionSegment) : bool :=
  match self with SegEvaluation _ => true | SegLiteral _ => false end.

Record PlanExpression := MkPlanExpression {
  plan_expression_version : WorkflowExpressionVersion;
  plan_expression_source : str;
  plan_expression_segments : list ExpressionSegment
}.

Definition empty_evaluation (segment : ExpressionSegment) : bool :=
  match segment with
  | SegEvaluation source => str_is_empty (trim source)
  | SegLiteral _ => false
  end.

Definition plan_expression_validate (self : PlanExpression) : result WorkflowPlanError unit :=
  let segments := plan_expression_segments self in
  _ ← reject (negb (bool_decide (plan_expression_version self = expression_version_current)))
        (UnsupportedExpressionVersion (bget expression_version_current)
           (bget (plan_expression_version self)));
  _ ← reject (Nat.eqb (length segments) 0) EmptyExpressionSegments;
  _ ← reject (existsb empty_evaluation segments) EmptyEvaluation;
  reject (negb (str_eqb (concat (map segment_source segments)) (plan_expression_source self)))
    ExpressionSourceMismatch.

Definition plan_expression_new (source : str) (segments : list ExpressionSegment) :
    result WorkflowPlanError PlanExpression :=
  let expression := MkPlanExpression expression_version_current source segments in
  _ ← plan_expression_validate expression;
  Ok expression.

(** ** Phases and contexts *)

Inductive PlanEvaluationPhase :=
| Admission | JobActivation | JobExecution | JobFinalization | WorkflowFinalization.

Definition phase_rank (phase : PlanEvaluationPhase) : Z :=
  match phase with
  | Admission => 0 | JobActivation => 1 | JobExecution => 2 | JobFinalization => 3
  | WorkflowFinalization => 4
  end.

(** The derived order follows the order of the constructors. *)
#[export] Instance phase_ord : Ord PlanEvaluationPhase.
Proof. refine (ord_inj phase_rank _). by intros [] []. Defined.

Definition phase_as_str (self : PlanEvaluationPhase) : str :=
  match self with
  | Admission => lit "admission"
  | JobActivation => lit "job_activation"
  | JobExecution => lit "job_execution"
  | JobFinalization => lit "job_finalization"
  | WorkflowFinalization => lit "workflow_finalization"
  end.

Definition context_rank (context : ExpressionContext) : Z :=
  match context with
  | CtxGithub => 0 | CtxInputs => 1 | CtxVars => 2 | CtxNeeds => 3 | CtxStrategy => 4
  | CtxMatrix => 5 | CtxSecrets => 6 | CtxEnv => 7 | CtxJob => 8 | CtxRunner => 9
  | CtxSteps => 10 | CtxJobs => 11
  end.

#[export] Instance context_ord : Ord ExpressionContext.
Proof. refine (ord_inj context_rank _). by intros [] []. Defined.

Definition context_as_str (self : ExpressionContext) : str :=
  match self with
  | CtxGithub => lit "github" | CtxInputs => lit "inputs" | CtxVars => lit "vars"
  | CtxNeeds => lit "needs" | CtxStrategy => lit "strategy" | CtxMatrix => lit "matrix"
  | CtxSecrets => lit "secrets" | CtxEnv => lit "env" | CtxJob => lit "job"
  | CtxRunner => lit "runner" | CtxSteps => lit "steps" | CtxJobs => lit "jobs"
  end.

Definition minimum_phase (self : ExpressionContext) : PlanEvaluationPhase :=
  match self with
  | CtxGithub | CtxInputs | CtxVars => Admission
  | CtxNeeds | CtxStrategy | CtxMatrix => JobActivation
  | CtxSecrets | CtxEnv | CtxJob | CtxRunner | CtxSteps => JobExecution
  | CtxJobs => WorkflowFinalization
  end.

(** ** Compiled templates *)

Record CompiledExpressionTemplate := MkExpressionTemplate {
  template_phase : PlanEvaluationPhase;
  template_expression : PlanExpression;
  template_programs : list ExpressionProgram;
  template_contexts : list ExpressionContext
}.

(** [contexts.binary_search(..).is_ok()]: on the sorted list that validation
    requires, whether the context occurs. *)
Definition references_context (self : CompiledExpressionTemplate) (context : ExpressionContext) :
    bool :=
  bool_decide (context ∈ template_contexts self).

Definition all_contexts : list ExpressionContext :=
  [CtxGithub; CtxInputs; CtxVars; CtxNeeds; CtxStrategy; CtxMatrix; CtxSecrets; CtxEnv; CtxJob;
   CtxRunner; CtxSteps; CtxJobs].

Definition expression_context (name : str) : option ExpressionContext :=
  List.find (λ context, eq_ignore_ascii_case name (context_as_str context)) all_contexts.

Definition charge_instruction (instruction : ExpressionInstruction) : Charge unit :=
  _ ← charge_node (lit "expression instruction");
  match instruction with
  | ILiteral (LitString value) =>
      charge_plan_text (lit "expression literal") value MAX_TEMPLATE_BYTES
  | INamedValue name => charge_plan_text (lit "expression named value") name MAX_TEMPLATE_BYTES
  | ICall name _ => charge_plan_text (lit "expression function") name MAX_TEMPLATE_BYTES
  | _ => mret tt
  end.

Definition charge_program (program : ExpressionProgram) : Charge unit :=
  _ ← charge_node (lit "expression program");
  _ ← charge_plan_text (lit "expression program dialect")
        (dialect_name (program_dialect program)) MAX_TEMPLATE_BYTES;
  _ ← charge_plan_text (lit "expression program source") (program_source program)
        MAX_TEMPLATE_BYTES;
  for_each charge_instruction (program_instructions program).

(** One declared context: in strictly increasing order, and available. *)
Definition check_context (phase : PlanEvaluationPhase) (previous : option ExpressionContext)
    (context : ExpressionContext) : Charge (option ExpressionContext) :=
  _ ← if_some previous (λ previous,
        _ ← refuse (eqb previous context) (DuplicateExpressionContext (context_as_str context));
        refuse (ltb context previous) NonCanonicalExpressionContexts);
  _ ← refuse (ltb phase (minimum_phase context))
        (ExpressionContextUnavailable (context_as_str context) (phase_as_str phase)
           (phase_as_str (minimum_phase context)));
  mret (Some context).

Definition check_segment (segment : ExpressionSegment) : Charge unit :=
  _ ← charge_node (lit "expression segment");
  refuse (workflow_template_byte_rejection (str_len (segment_source segment)))
    (PlanLimitExceeded (lit "expression segment") MAX_TEMPLATE_BYTES).

(** The evaluation segments beside their programs; [zip] stops at the shorter. *)
Definition check_program (index : nat) (pair : ExpressionSegment * ExpressionProgram) :
    Charge nat :=
  let '(segment, program) := pair in
  _ ← refuse (negb (str_eqb (segment_source segment) (program_source program)))
        (ExpressionProgramSourceMismatch index);
  _ ← charge_program program;
  mret (S index).

(** The roots a program names, in a [BTreeSet]. *)
Definition collect_context (contexts : BTreeSet ExpressionContext)
    (instruction : ExpressionInstruction) :
    result WorkflowPlanError (BTreeSet ExpressionContext) :=
  match instruction with
  | INamedValue name =>
      context ← ok_or (expression_context name) UnsupportedExpressionNamedValue;
      Ok (bset_insert context contexts)
  | _ => Ok contexts
  end.

Definition compiled_contexts (programs : list ExpressionProgram) :
    result WorkflowPlanError (BTreeSet ExpressionContext) :=
  try_fold (λ contexts program, try_fold collect_context contexts (program_instructions program))
    bset_empty programs.

Definition expression_template_validate (self : CompiledExpressionTemplate) (field : str)
    (latest : PlanEvaluationPhase) : Charge unit :=
  let expression := template_expression self in
  let segments := plan_expression_segments expression in
  let evaluations := List.filter is_evaluation segments in
  _ ← charge_node field;
  _ ← refuse (ltb latest (template_phase self))
        (TemplatePhaseTooLate field (phase_as_str latest) (phase_as_str (template_phase self)));
  _ ← refuse (expression_context_rejection (Z.of_nat (length (template_contexts self))))
        (PlanLimitExceeded (lit "expression contexts") MAX_EXPRESSION_CONTEXTS);
  _ ← fold_st (check_context (template_phase self)) None (template_contexts self);
  _ ← liftM (plan_expression_validate expression);
  _ ← charge_plan_text (lit "expression source") (plan_expression_source expression)
        MAX_TEMPLATE_BYTES;
  _ ← refuse (workflow_template_segment_rejection (Z.of_nat (length segments)))
        (PlanLimitExceeded (lit "expression segments") MAX_TEMPLATE_SEGMENTS);
  _ ← refuse (negb (Nat.eqb (length (template_programs self)) (length evaluations)))
        (ExpressionProgramCountMismatch (Z.of_nat (length evaluations))
           (Z.of_nat (length (template_programs self))));
  _ ← for_each check_segment segments;
  _ ← fold_st check_program O (zip evaluations (template_programs self));
  contexts ← liftM (compiled_contexts (template_programs self));
  refuse (negb (bool_decide (elems contexts = template_contexts self)))
    ExpressionProgramContextMismatch.

(** ** Values, booleans and positive integers *)

Inductive CompiledValueTemplate :=
| ValueLiteral (value : str)
| ValueExpression (expression : CompiledExpressionTemplate).

Definition value_phase (self : CompiledValueTemplate) : PlanEvaluationPhase :=
  match self with
  | ValueLiteral _ => Admission
  | ValueExpression expression => template_phase expression
  end.

Definition value_source (self : CompiledValueTemplate) : str :=
  match self with
  | ValueLiteral value => value
  | ValueExpression expression => plan_expression_source (template_expression expression)
  end.

Definition value_references_context (self : CompiledValueTemplate) (context : ExpressionContext) :
    bool :=
  match self with
  | ValueLiteral _ => false
  | ValueExpression expression => references_context expression context
  end.

Definition value_template_validate (self : CompiledValueTemplate) (field : str)
    (latest : PlanEvaluationPhase) : Charge unit :=
  _ ← charge_node field;
  match self with
  | ValueLiteral value => charge_plan_text field value MAX_TEMPLATE_BYTES
  | ValueExpression expression => expression_template_validate expression field latest
  end.

Inductive CompiledBooleanTemplate :=
| BooleanLiteral (value : bool)
| BooleanExpression (expression : CompiledExpressionTemplate).

Definition boolean_template_validate (self : CompiledBooleanTemplate) (field : str)
    (latest : PlanEvaluationPhase) : Charge unit :=
  _ ← charge_node field;
  match self with
  | BooleanLiteral _ => mret tt
  | BooleanExpression expression => expression_template_validate expression field latest
  end.

(** The literal is a [u32]. *)
Inductive CompiledPositiveIntegerTemplate :=
| IntegerLiteral (value : Z)
| IntegerExpression (expression : CompiledExpressionTemplate).

Definition integer_template_validate (self : CompiledPositiveIntegerTemplate) (field : str)
    (latest : PlanEvaluationPhase) : Charge unit :=
  _ ← charge_node field;
  match self with
  | IntegerLiteral value => refuse (value =? 0) (ZeroPositiveInteger field)
  | IntegerExpression expression => expression_template_validate expression field latest
  end.
