(* ===== verification/WorkflowStrategy.v ===== *)
(** * WorkflowStrategy: matrix and strategy templates of a plan

    Models [crates/automata-ci-core/src/workflow/strategy.rs]: literal matrix
    values, axes, include and exclude patches and the strategy around them,
    with the validation that bounds them before a job is activated. *)

From S2P Require Import Prelude Text Float64 WorkflowTemplate.
From stdpp Require Import gmap.

Open Scope Z_scope.

(** ** Limits *)

Definition MAX_MATRIX_EXPANSION : Z := 256.
Definition MAX_MATRIX_AXES : Z := 32.
Definition MAX_MATRIX_AXIS_VALUES : Z := 256.
Definition MAX_MATRIX_PATCHES : Z := 256.
Definition MAX_MATRIX_OBJECT_ENTRIES : Z := 128.
Definition MAX_MATRIX_VALUE_DEPTH : Z := 8.
Definition MAX_STATIC_MATRIX_CANDIDATE_COMBINATIONS : Z := 4096.
Definition MAX_RUNTIME_CONTEXT_IDENTIFIER_BYTES : Z := 1024.

Definition matrix_expansion_rejection (observed : Z) : bool := MAX_MATRIX_EXPANSION <? observed.
Definition matrix_axis_count_rejection (observed : Z) : bool := MAX_MATRIX_AXES <? observed.
Definition matrix_axis_value_count_rejection (observed : Z) : bool :=
  MAX_MATRIX_AXIS_VALUES <? observed.
Definition matrix_patch_count_rejection (observed : Z) : bool := MAX_MATRIX_PATCHES <? observed.
Definition matrix_object_entry_count_rejection (observed : Z) : bool :=
  MAX_MATRIX_OBJECT_ENTRIES <? observed.
Definition matrix_value_depth_rejection (observed : Z) : bool :=
  MAX_MATRIX_VALUE_DEPTH <? observed.
Definition matrix_static_candidate_count_rejection (observed : Z) : bool :=
  MAX_STATIC_MATRIX_CANDIDATE_COMBINATIONS <? observed.

(** [Vec::len]. *)
Definition len {A : Type} (l : list A) : Z := Z.of_nat (length l).

Lemma len_map {X Y : Type} (f : X → Y) (l : list X) : len (map f l) = len l.
Proof. unfold len. by rewrite length_map. Qed.

(** ** Numbers *)

(** The text at the cursor is what [s] holds; bytes beyond ASCII match no
    pattern, so characters do. *)
Definition at_cursor (p : Z → bool) (s : str) : bool :=
  match s with c :: _ => p c | [] => false end.

(** The integer part: a lone zero or digits that do not begin with one. *)
Definition json_integer (s : str) : option str :=
  if at_cursor (Z.eqb 48) s then Some (tail s)
  else if at_cursor (in_range 49 57) s then Some (span_digits (tail s)).2
  else None.

(** Digits of which there must be one. *)
Definition json_digits (s : str) : option str :=
  let '(digits, rest) := span_digits s in if str_is_empty digits then None else Some rest.

Definition json_fraction (s : str) : option str :=
  if at_cursor (Z.eqb 46) s then json_digits (tail s) else Some s.

Definition json_exponent (s : str) : option str :=
  if at_cursor (λ c, (c =? 101) || (c =? 69)) s then
    let s := tail s in
    json_digits (if at_cursor (λ c, (c =? 43) || (c =? 45)) s then tail s else s)
  else Some s.

Definition is_json_number (value : str) : bool :=
  match
    s ← json_integer (if at_cursor (Z.eqb 45) value then tail value else value);
    s ← json_fraction s;
    json_exponent s
  with
  | Some rest => str_is_empty rest
  | None => false
  end.

(** [f64::is_finite]. *)
Definition is_finite (x : f64) : bool :=
  match x with S754_zero _ | S754_finite _ _ _ => true | _ => false end.

(** ** Keys *)

Definition validate_matrix_root_key (value field : str) : Charge unit :=
  _ ← charge_plan_text field value MAX_RUNTIME_CONTEXT_IDENTIFIER_BYTES;
  refuse (str_is_empty value || negb (str_eqb (trim value) value) || existsb is_control value)
    (InvalidPlanKey field value).

(** [if !set.insert(key) { return Err(..) }] on a [BTreeSet] of keys. *)
Definition insert_fresh {S E : Type} (keys : gset str) (key : str) (e : E) :
    stM S E (gset str) :=
  _ ← liftM (reject (bool_decide (key ∈ keys)) e);
  mret ({[key]} ∪ keys).

(** ** Literal values *)

Inductive MatrixValue :=
| MatrixNull
| MatrixBoolean (value : bool)
| MatrixNumber (value : str)
| MatrixString (value : str)
| MatrixArray (values : list MatrixValue)
| MatrixObject (entries : list (str * MatrixValue)).

(** The key of an object entry: valid, and after the one before it. *)
Definition check_object_key (previous : option str) (key : str) : Charge (option str) :=
  _ ← validate_matrix_root_key key (lit "matrix object key");
  _ ← refuse (match previous with Some candidate => Prelude.leb key candidate | None => false end)
        (DuplicateDefinition (lit "matrix object") key);
  mret (Some key).

Fixpoint matrix_value_validate (self : MatrixValue) (depth : Z) : Charge unit :=
  _ ← charge_node (lit "matrix value");
  _ ← refuse (matrix_value_depth_rejection depth)
        (PlanLimitExceeded (lit "matrix value depth") MAX_MATRIX_VALUE_DEPTH);
  match self with
  | MatrixNull | MatrixBoolean _ => mret tt
  | MatrixNumber value =>
      _ ← charge_plan_text (lit "matrix number") value 128;
      refuse (negb (is_json_number value
                    && match parse_f64 value with Some x => is_finite x | None => false end))
        (InvalidNumber value)
  | MatrixString value => charge_plan_text (lit "matrix string") value MAX_MATRIX_TEXT_BYTES
  | MatrixArray values =>
      _ ← refuse (matrix_object_entry_count_rejection (len values))
            (PlanLimitExceeded (lit "matrix array values") MAX_MATRIX_OBJECT_ENTRIES);
      for_each (λ value, matrix_value_validate value (depth + 1)) values
  | MatrixObject entries =>
      _ ← refuse (matrix_object_entry_count_rejection (len entries))
            (PlanLimitExceeded (lit "matrix object entries") MAX_MATRIX_OBJECT_ENTRIES);
      _ ← fold_st (λ previous '(key, value),
            previous ← check_object_key previous key;
            _ ← matrix_value_validate value (depth + 1);
            mret previous) None entries;
      mret tt
  end.

(** ** Axes and patches *)

Inductive MatrixValueTemplate :=
| TemplateLiteral (value : MatrixValue)
| TemplateExpression (expression : CompiledExpressionTemplate).

Definition matrix_template_value_validate (self : MatrixValueTemplate) : Charge unit :=
  match self with
  | TemplateLiteral value => matrix_value_validate value 0
  | TemplateExpression expression =>
      expression_template_validate expression (lit "matrix value") JobActivation
  end.

Inductive MatrixAxisValues :=
| AxisStatic (values : list (Located MatrixValueTemplate))
| AxisExpression (expression : Located CompiledExpressionTemplate).

Record MatrixAxis := MkAxis {
  axis_name : Located str;
  axis_values : MatrixAxisValues;
  axis_span : PlanSourceSpan
}.

(** Returns the number of values when they are static. *)
Definition axis_validate (self : MatrixAxis) (source_id : str) : Charge (option Z) :=
  _ ← charge_node (lit "matrix axis");
  _ ← validate_span_source (axis_span self) source_id (lit "matrix axis");
  _ ← validate_span_source (located_span (axis_name self)) source_id (lit "matrix axis name");
  _ ← validate_matrix_root_key (located_value (axis_name self)) (lit "matrix axis name");
  match axis_values self with
  | AxisStatic values =>
      _ ← refuse (Nat.eqb (length values) 0)
            (EmptyPlanMatrixAxis (located_value (axis_name self)));
      _ ← refuse (matrix_axis_value_count_rejection (len values))
            (PlanLimitExceeded (lit "matrix axis values") MAX_MATRIX_AXIS_VALUES);
      _ ← for_each (λ value,
            _ ← validate_span_source (located_span value) source_id (lit "matrix axis value");
            matrix_template_value_validate (located_value value)) values;
      mret (Some (len values))
  | AxisExpression expression =>
      _ ← validate_span_source (located_span expression) source_id
            (lit "matrix axis expression");
      _ ← expression_template_validate (located_value expression)
            (lit "matrix axis expression") JobActivation;
      mret None
  end.

Record MatrixPatch := MkPatch {
  patch_entries : list (Located str * Located MatrixValueTemplate);
  patch_span : PlanSourceSpan
}.

Definition check_patch_entry (source_id : str) (keys : gset str)
    (entry : Located str * Located MatrixValueTemplate) : Charge (gset str) :=
  let '(key, value) := entry in
  _ ← validate_span_source (located_span key) source_id (lit "matrix patch key");
  _ ← validate_span_source (located_span value) source_id (lit "matrix patch value");
  _ ← validate_matrix_root_key (located_value key) (lit "matrix patch key");
  keys ← insert_fresh keys (located_value key)
           (DuplicateDefinition (lit "matrix patch") (located_value key));
  _ ← matrix_template_value_validate (located_value value);
  mret keys.

Definition patch_validate (self : MatrixPatch) (source_id : str) : Charge unit :=
  _ ← charge_node (lit "matrix patch");
  _ ← validate_span_source (patch_span self) source_id (lit "matrix patch");
  _ ← refuse (Nat.eqb (length (patch_entries self)) 0) (EmptyField (lit "matrix patch"));
  _ ← refuse (matrix_object_entry_count_rejection (len (patch_entries self)))
        (PlanLimitExceeded (lit "matrix patch entries") MAX_MATRIX_OBJECT_ENTRIES);
  _ ← fold_st (check_patch_entry source_id) ∅ (patch_entries self);
  mret tt.

Inductive MatrixPatchSet :=
| PatchesStatic (patches : list MatrixPatch)
| PatchesExpression (expression : Located CompiledExpressionTemplate).

(** Returns whether the set is statically empty. *)
Definition validate_patch_set (patches : MatrixPatchSet) (source_id field : str) : Charge bool :=
  match patches with
  | PatchesStatic patches =>
      _ ← refuse (matrix_patch_count_rejection (len patches))
            (PlanLimitExceeded field MAX_MATRIX_PATCHES);
      _ ← for_each (λ patch, patch_validate patch source_id) patches;
      mret (Nat.eqb (length patches) 0)
  | PatchesExpression expression =>
      _ ← validate_span_source (located_span expression) source_id field;
      _ ← expression_template_validate (located_value expression) field JobActivation;
      mret false
  end.

(** ** Matrices *)

Record MatrixTemplate := MkMatrix {
  matrix_axes : list MatrixAxis;
  matrix_include : MatrixPatchSet;
  matrix_exclude : MatrixPatchSet;
  matrix_expression : option (Located CompiledExpressionTemplate);
  matrix_span : PlanSourceSpan
}.

Definition matrix_new (axes : list MatrixAxis) (include exclude : MatrixPatchSet)
    (span : PlanSourceSpan) : MatrixTemplate :=
  MkMatrix axes include exclude None span.

Definition matrix_from_expression (expression : Located CompiledExpressionTemplate)
    (span : PlanSourceSpan) : MatrixTemplate :=
  MkMatrix [] (PatchesStatic []) (PatchesStatic []) (Some expression) span.

Definition statically_empty (patches : MatrixPatchSet) : bool :=
  match patches with PatchesStatic [] => true | _ => false end.

(** The product of the axes so far, while all of them are static. *)
Definition static_product_step (static_product count : option Z) :
    result WorkflowPlanError (option Z) :=
  let error :=
    PlanLimitExceeded (lit "matrix candidate combinations")
      MAX_STATIC_MATRIX_CANDIDATE_COMBINATIONS in
  product ← match static_product, count with
            | Some product, Some count =>
                product ← ok_or (checked_mul u64_max product count) error;
                Ok (Some product)
            | _, _ => Ok None
            end;
  _ ← reject (match product with
              | Some count => matrix_static_candidate_count_rejection count
              | None => false
              end) error;
  Ok product.

Definition check_axis (source_id : str) (state : gset str * option Z) (axis : MatrixAxis) :
    Charge (gset str * option Z) :=
  let '(names, static_product) := state in
  let name := located_value (axis_name axis) in
  names ← insert_fresh names name (DuplicateDefinition (lit "matrix axes") name);
  count ← axis_validate axis source_id;
  static_product ← liftM (static_product_step static_product count);
  mret (names, static_product).

Definition matrix_validate (self : MatrixTemplate) (source_id : str) : Charge unit :=
  _ ← charge_node (lit "matrix");
  _ ← validate_span_source (matrix_span self) source_id (lit "matrix");
  match matrix_expression self with
  | Some expression =>
      _ ← refuse (negb (Nat.eqb (length (matrix_axes self)) 0)
                  || negb (statically_empty (matrix_include self))
                  || negb (statically_empty (matrix_exclude self))) MixedMatrixForms;
      _ ← validate_span_source (located_span expression) source_id
            (lit "whole matrix expression");
      expression_template_validate (located_value expression) (lit "whole matrix expression")
        JobActivation
  | None =>
      _ ← refuse (matrix_axis_count_rejection (len (matrix_axes self)))
            (PlanLimitExceeded (lit "matrix axes") MAX_MATRIX_AXES);
      _ ← fold_st (check_axis source_id) (∅, Some 1) (matrix_axes self);
      includes_empty ← validate_patch_set (matrix_include self) source_id (lit "matrix include");
      _ ← validate_patch_set (matrix_exclude self) source_id (lit "matrix exclude");
      refuse (Nat.eqb (length (matrix_axes self)) 0 && includes_empty) EmptyPlanMatrix
  end.

(** ** Strategies *)

(** [WorkflowStrategyVersion]: a [NonZeroU16]. *)
Definition WorkflowStrategyVersion : Type := Bounded 1 u16_max.
Definition strategy_version_new (version : Z) :
    result WorkflowPlanError WorkflowStrategyVersion :=
  ok_or (Prelude.bounded 1 u16_max version) ZeroStrategyVersion.
Definition strategy_version_current : WorkflowStrategyVersion :=
  MkBounded (lo := 1) (hi := u16_max) 1 I.

(** [expansion_limit] is a [u16]. *)
Record WorkflowStrategyTemplate := MkStrategy {
  strategy_version : WorkflowStrategyVersion;
  strategy_fail_fast : option (Located CompiledBooleanTemplate);
  strategy_max_parallel : option (Located CompiledPositiveIntegerTemplate);
  strategy_matrix : MatrixTemplate;
  strategy_expansion_limit : Z;
  strategy_span : PlanSourceSpan
}.

Definition strategy_new (fail_fast : option (Located CompiledBooleanTemplate))
    (max_parallel : option (Located CompiledPositiveIntegerTemplate)) (matrix : MatrixTemplate)
    (expansion_limit : Z) (span : PlanSourceSpan) : WorkflowStrategyTemplate :=
  MkStrategy strategy_version_current fail_fast max_parallel matrix expansion_limit span.

Definition strategy_validate (self : WorkflowStrategyTemplate) (source_id : str) : Charge unit :=
  let expansion_limit := strategy_expansion_limit self in
  _ ← charge_node (lit "workflow strategy");
  _ ← refuse (negb (bool_decide (strategy_version self = strategy_version_current)))
        (UnsupportedStrategyVersion (bget strategy_version_current)
           (bget (strategy_version self)));
  _ ← refuse ((expansion_limit =? 0) || matrix_expansion_rejection expansion_limit)
        (InvalidMatrixExpansionLimit MAX_MATRIX_EXPANSION);
  _ ← validate_span_source (strategy_span self) source_id (lit "workflow strategy");
  _ ← if_some (strategy_fail_fast self) (λ fail_fast,
        _ ← validate_span_source (located_span fail_fast) source_id (lit "strategy fail-fast");
        boolean_template_validate (located_value fail_fast) (lit "strategy fail-fast")
          JobActivation);
  _ ← if_some (strategy_max_parallel self) (λ max_parallel,
        _ ← validate_span_source (located_span max_parallel) source_id
              (lit "strategy max-parallel");
        integer_template_validate (located_value max_parallel) (lit "strategy max-parallel")
          JobActivation);
  matrix_validate (strategy_matrix self) source_id.
