(* ===== verification/RuntimeContext.v ===== *)
(** * RuntimeContext: canonical values and the runtime context of a job instance

    Models [crates/automata-ci-core/src/job/context.rs] and the identity of a
    concrete instance from [instance.rs]: the values expressions see at run
    time, with the aggregate budget on depth, nodes and text that every
    constructor enforces, and the context and identity an activated job
    carries. Serde's decoding ends in the same validation. *)

From S2P Require Import Prelude Text Float64 Capability Log ManagedSecret WorkflowTemplate.
From S2P Require Import WorkflowStrategy.

Open Scope Z_scope.

(** ** [BTreeMap] with text keys

    The entries in strictly increasing order of their keys. *)

Definition TextMap (V : Type) : Type := list (str * V).

Fixpoint tmap_insert {V : Type} (key : str) (value : V) (m : TextMap V) : TextMap V :=
  match m with
  | [] => [(key, value)]
  | (k, v) :: rest =>
      match cmp key k with
      | Lt => (key, value) :: m
      | Eq => (k, value) :: rest
      | Gt => (k, v) :: tmap_insert key value rest
      end
  end.

Definition tmap_get {V : Type} (m : TextMap V) (key : str) : option V :=
  snd <$> List.find (λ entry, eqb key entry.1) m.

Definition tmap_contains_key {V : Type} (m : TextMap V) (key : str) : bool :=
  is_some (tmap_get m key).

Definition tmap_keys {V : Type} (m : TextMap V) : list str := map fst m.
Definition tmap_sorted {V : Type} (m : TextMap V) : bool := strict_sorted (tmap_keys m).

(** [collect::<BTreeMap<_, _>>()]: a later entry replaces an earlier one. *)
Definition tmap_from {V : Type} (entries : list (str * V)) : TextMap V :=
  foldl (λ m '(key, value), tmap_insert key value m) [] entries.

(** ** Limits and errors *)

Definition JOB_RUNTIME_CONTEXT_SCHEMA_VERSION : Z := 1.
Definition MAX_CONTEXT_VALUE_DEPTH : Z := 32.
Definition MAX_CONTEXT_VALUE_NODES : Z := 65536.
Definition MAX_CONTEXT_VALUE_TEXT_BYTES : Z := 1048576.

Definition context_value_depth_rejection (observed : Z) : bool :=
  MAX_CONTEXT_VALUE_DEPTH <? observed.
Definition context_value_node_rejection (observed : Z) : bool :=
  MAX_CONTEXT_VALUE_NODES <? observed.
Definition context_value_text_byte_rejection (observed : Z) : bool :=
  MAX_CONTEXT_VALUE_TEXT_BYTES <? observed.
Definition runtime_context_identifier_byte_rejection (observed : Z) : bool :=
  MAX_RUNTIME_CONTEXT_IDENTIFIER_BYTES <? observed.

Inductive RuntimeContextError :=
| ContextUnsupportedSchema (supported received : Z)
| ContextMustBeObject (field : str)
| ValueTooDeep (maximum : Z)
| TooManyValueNodes (maximum : Z)
| TooMuchValueText (maximum : Z)
| NonCanonicalContextNan
| ZeroJobTotal
| JobIndexOutOfRange (index total : Z)
| ZeroMaxParallel
| InvalidContextIdentifier (field : str).

(** ** The budget *)

Record ContextBudget := MkContextBudget { budget_nodes : Z; budget_text_bytes : Z }.

Definition context_budget_default : ContextBudget := MkContextBudget 0 0.

Definition Spend (A : Type) : Type := stM ContextBudget RuntimeContextError A.
#[export] Instance spend_ret : MRet Spend := stM_ret ContextBudget RuntimeContextError.
#[export] Instance spend_bind : MBind Spend := stM_bind ContextBudget RuntimeContextError.

Definition ensure_node_capacity (pending additional : Z) : Spend unit := λ b,
  let error := TooManyValueNodes MAX_CONTEXT_VALUE_NODES in
  (b, projected ← ok_or (n ← checked_add u64_max (budget_nodes b) pending;
                         checked_add u64_max n additional) error;
      reject (context_value_node_rejection projected) error).

Definition context_charge_node : Spend unit := λ b,
  let error := TooManyValueNodes MAX_CONTEXT_VALUE_NODES in
  match checked_add u64_max (budget_nodes b) 1 with
  | None => (b, Err error)
  | Some nodes =>
      (MkContextBudget nodes (budget_text_bytes b),
       reject (context_value_node_rejection nodes) error)
  end.

Definition context_charge_text (bytes : Z) : Spend unit := λ b,
  let error := TooMuchValueText MAX_CONTEXT_VALUE_TEXT_BYTES in
  match checked_add u64_max (budget_text_bytes b) bytes with
  | None => (b, Err error)
  | Some text_bytes =>
      (MkContextBudget (budget_nodes b) text_bytes,
       reject (context_value_text_byte_rejection text_bytes) error)
  end.

(** ** Values *)

Inductive ContextValue :=
| ContextNull
| ContextBoolean (value : bool)
| ContextNumber (ieee754_bits : Z)
| ContextString (value : str)
| ContextArray (values : list ContextValue)
| ContextObject (values : list (str * ContextValue)).

(** [ContextValue::number]. *)
Definition context_number (value : f64) : ContextValue := ContextNumber (to_bits value).

(** How many values there are in a value: each pass of the worklist pops one. *)
Fixpoint context_size (v : ContextValue) : Z :=
  match v with
  | ContextArray values => 1 + sum_by context_size values
  | ContextObject values => 1 + sum_by (λ entry, context_size entry.2) values
  | _ => 1
  end.

(** The worklist of [charge], its top first. *)
Fixpoint charge_loop (fuel : nat) (pending : list (ContextValue * Z)) : Spend unit :=
  match pending, fuel with
  | [], _ => mret tt
  | _, O => mret tt
  | (value, depth) :: pending, S fuel =>
      _ ← liftM (reject (context_value_depth_rejection depth)
                   (ValueTooDeep MAX_CONTEXT_VALUE_DEPTH));
      _ ← context_charge_node;
      match value with
      | ContextNull | ContextBoolean _ => charge_loop fuel pending
      | ContextNumber bits =>
          _ ← liftM (reject (is_nan (from_bits bits) && negb (bits =? canonical_nan))
                       NonCanonicalContextNan);
          charge_loop fuel pending
      | ContextString value =>
          _ ← context_charge_text (str_len value);
          charge_loop fuel pending
      | ContextArray values =>
          _ ← ensure_node_capacity (len pending) (len values);
          charge_loop fuel (map (λ value, (value, depth + 1)) values ++ pending)
      | ContextObject values =>
          _ ← ensure_node_capacity (len pending) (len values);
          _ ← for_each (λ entry, context_charge_text (str_len (entry : str * ContextValue).1))
                (rev values);
          charge_loop fuel (map (λ entry, (entry.2, depth + 1)) values ++ pending)
      end
  end.

Definition context_charge (self : ContextValue) : Spend unit :=
  charge_loop (Z.to_nat (context_size self)) [(self, 1)].

Definition context_value_validate (self : ContextValue) : result RuntimeContextError unit :=
  (context_charge self context_budget_default).2.

Definition context_array (values : list ContextValue) : result RuntimeContextError ContextValue :=
  let value := ContextArray values in
  _ ← context_value_validate value;
  Ok value.

Definition context_object (values : TextMap ContextValue) :
    result RuntimeContextError ContextValue :=
  let value := ContextObject values in
  _ ← context_value_validate value;
  Ok value.

Definition context_empty_object : ContextValue := ContextObject [].

(** ** Strategy *)

(** [u32] positions. *)
Record StrategyContext := MkStrategyContext {
  context_fail_fast : bool;
  context_job_index : Z;
  context_job_total : Z;
  context_max_parallel : Z
}.

Definition strategy_context_new (fail_fast : bool) (job_index job_total max_parallel : Z) :
    result RuntimeContextError StrategyContext :=
  _ ← reject (job_total =? 0) ZeroJobTotal;
  _ ← reject (job_total <=? job_index) (JobIndexOutOfRange job_index job_total);
  _ ← reject (max_parallel =? 0) ZeroMaxParallel;
  Ok (MkStrategyContext fail_fast job_index job_total max_parallel).

Definition strategy_context_validate (self : StrategyContext) : result RuntimeContextError unit :=
  _ ← strategy_context_new (context_fail_fast self) (context_job_index self)
        (context_job_total self) (context_max_parallel self);
  Ok tt.

(** ** Keys *)

Definition validate_runtime_key (value field : str) : result RuntimeContextError unit :=
  reject (str_is_empty value || negb (str_eqb (trim value) value)
          || runtime_context_identifier_byte_rejection (str_len value)
          || existsb is_control value) (InvalidContextIdentifier field).

(** ** Prerequisites and secrets *)

Inductive OutputSensitivity := SensitivityPublic | SensitivitySecretDerived.
#[export] Instance output_sensitivity_eq_dec : EqDecision OutputSensitivity.
Proof. solve_decision. Defined.

Record NeedOutput := MkNeedOutput {
  need_output_value : str;
  need_output_sensitivity : OutputSensitivity
}.

Definition need_output_charge (self : NeedOutput) : Spend unit :=
  _ ← context_charge_node;
  context_charge_text (str_len (need_output_value self)).

Definition need_output_new (value : str) (sensitivity : OutputSensitivity) :
    result RuntimeContextError NeedOutput :=
  let output := MkNeedOutput value sensitivity in
  _ ← (need_output_charge output context_budget_default).2;
  Ok output.

Definition public_value (self : NeedOutput) : option str :=
  if bool_decide (need_output_sensitivity self = SensitivityPublic)
  then Some (need_output_value self) else None.

Record NeedContext := MkNeed {
  need_result : JobConclusion;
  need_outputs : TextMap NeedOutput
}.

Definition need_charge (self : NeedContext) : Spend unit :=
  _ ← context_charge_node;
  for_each (λ '(key, value),
    _ ← liftM (validate_runtime_key key (lit "need output"));
    _ ← context_charge_text (str_len key);
    need_output_charge value) (need_outputs self).

Definition need_new (conclusion : JobConclusion) (outputs : TextMap NeedOutput) :
    result RuntimeContextError NeedContext :=
  let value := MkNeed conclusion outputs in
  _ ← (need_charge value context_budget_default).2;
  Ok value.

Definition secret_binding_validate (self : SecretBinding) : result RuntimeContextError unit :=
  _ ← validate_runtime_key (binding_id self) (lit "secret binding ID");
  match version_id self with
  | Some version_id => validate_runtime_key version_id (lit "secret version ID")
  | None => Ok tt
  end.

Definition secret_binding_new (binding_id : str) : result RuntimeContextError SecretBinding :=
  let binding := MkSecretBinding binding_id None in
  _ ← secret_binding_validate binding;
  Ok binding.

Definition with_version_id (self : SecretBinding) (version_id : str) :
    result RuntimeContextError SecretBinding :=
  let binding := MkSecretBinding (binding_id self) (Some version_id) in
  _ ← secret_binding_validate binding;
  Ok binding.

Definition secret_binding_charge (self : SecretBinding) : Spend unit :=
  _ ← liftM (secret_binding_validate self);
  _ ← context_charge_node;
  _ ← context_charge_text (str_len (binding_id self));
  if_some (version_id self) (λ version_id, context_charge_text (str_len version_id)).

(** ** The context of one job instance *)

Record JobRuntimeContext := MkRuntimeContext {
  runtime_schema_version : Z;
  runtime_inputs : ContextValue;
  runtime_vars : ContextValue;
  runtime_matrix : ContextValue;
  runtime_strategy : StrategyContext;
  runtime_needs : TextMap NeedContext;
  runtime_secrets : TextMap SecretBinding
}.

Definition check_root (root : str * ContextValue) : Spend unit :=
  let '(field, value) := root in
  match value with
  | ContextObject values =>
      for_each (λ key, liftM (validate_runtime_key key field)) (tmap_keys values)
  | _ => liftM (Err (ContextMustBeObject field))
  end.

Definition runtime_context_check (self : JobRuntimeContext) : Spend unit :=
  _ ← liftM (reject (negb (runtime_schema_version self =? JOB_RUNTIME_CONTEXT_SCHEMA_VERSION))
               (ContextUnsupportedSchema JOB_RUNTIME_CONTEXT_SCHEMA_VERSION
                  (runtime_schema_version self)));
  _ ← for_each check_root
        [(lit "inputs", runtime_inputs self); (lit "vars", runtime_vars self);
         (lit "matrix", runtime_matrix self)];
  _ ← liftM (strategy_context_validate (runtime_strategy self));
  _ ← context_charge (runtime_inputs self);
  _ ← context_charge (runtime_vars self);
  _ ← context_charge (runtime_matrix self);
  _ ← for_each (λ '(key, need),
        _ ← liftM (validate_runtime_key key (lit "needs job"));
        _ ← context_charge_text (str_len key);
        need_charge need) (runtime_needs self);
  for_each (λ '(key, binding),
    _ ← liftM (validate_runtime_key key (lit "secret name"));
    _ ← context_charge_text (str_len key);
    secret_binding_charge binding) (runtime_secrets self).

(** [validate]: the checks on a fresh budget. *)
Definition runtime_context_validate (self : JobRuntimeContext) : result RuntimeContextError unit :=
  (runtime_context_check self context_budget_default).2.

Definition runtime_context_new (inputs vars matrix : ContextValue) (strategy : StrategyContext)
    (needs : TextMap NeedContext) (secrets : TextMap SecretBinding) :
    result RuntimeContextError JobRuntimeContext :=
  let context :=
    MkRuntimeContext JOB_RUNTIME_CONTEXT_SCHEMA_VERSION inputs vars matrix strategy needs
      secrets in
  _ ← runtime_context_validate context;
  Ok context.

Definition runtime_context_new_base (inputs vars : ContextValue)
    (secrets : TextMap SecretBinding) : result RuntimeContextError JobRuntimeContext :=
  strategy ← strategy_context_new true 0 1 1;
  runtime_context_new inputs vars context_empty_object strategy [] secrets.

Definition runtime_context_empty_base : JobRuntimeContext :=
  MkRuntimeContext JOB_RUNTIME_CONTEXT_SCHEMA_VERSION context_empty_object context_empty_object
    context_empty_object (MkStrategyContext true 0 1 1) [] [].

(** ** The identity of an instance *)

Definition MAX_JOB_LOGICAL_NAME_BYTES : Z := 256.
Definition job_logical_name_byte_rejection (observed : Z) : bool :=
  MAX_JOB_LOGICAL_NAME_BYTES <? observed.

(** The errors of [JobValidationError] that the identity can give. *)
Inductive JobIdentityError :=
| InvalidLogicalName (field : str)
| ZeroMatrixTotal
| MatrixIndexOutOfRange (index total : Z).

Definition validate_logical_name (value field : str) : result JobIdentityError unit :=
  reject (str_is_empty value || negb (str_eqb (trim value) value)
          || job_logical_name_byte_rejection (str_len value)
          || existsb is_control value) (InvalidLogicalName field).

Record JobInstanceIdentity := MkInstanceIdentity {
  identity_logical_job_key : str;
  identity_matrix_index : Z;
  identity_matrix_total : Z;
  identity_matrix_digest : Sha256Digest
}.

Definition job_identity_validate (self : JobInstanceIdentity) : result JobIdentityError unit :=
  _ ← validate_logical_name (identity_logical_job_key self) (lit "logical job key");
  _ ← reject (identity_matrix_total self =? 0) ZeroMatrixTotal;
  reject (identity_matrix_total self <=? identity_matrix_index self)
    (MatrixIndexOutOfRange (identity_matrix_index self) (identity_matrix_total self)).

Definition job_identity_new (logical_job_key : str) (matrix_index matrix_total : Z)
    (matrix_digest : Sha256Digest) : result JobIdentityError JobInstanceIdentity :=
  let identity :=
    MkInstanceIdentity logical_job_key matrix_index matrix_total matrix_digest in
  _ ← job_identity_validate identity;
  Ok identity.
