(* ===== verification/ContextTheorems.v ===== *)
(** * ContextTheorems: which runtime values are accepted

    The worklist that charges a runtime value accepts exactly the values
    within the limits on depth, number of values and text whose numbers have
    the canonical NaN; its passes are as many as there are values. *)

From S2P Require Import Prelude Text Utf8 Float64 WorkflowTemplate WorkflowStrategy RuntimeContext.

Open Scope Z_scope.

(** ** Induction *)

Section ContextInd.
Variable P : ContextValue → Prop.
Hypothesis HNull : P ContextNull.
Hypothesis HBoolean : ∀ b, P (ContextBoolean b).
Hypothesis HNumber : ∀ bits, P (ContextNumber bits).
Hypothesis HString : ∀ s, P (ContextString s).
Hypothesis HArray : ∀ values, Forall P values → P (ContextArray values).
Hypothesis HObject : ∀ values, Forall (λ entry, P entry.2) values → P (ContextObject values).

(** Induction that reaches the values inside arrays and objects. *)
Fixpoint context_value_ind' (v : ContextValue) : P v :=
  match v with
  | ContextNull => HNull
  | ContextBoolean b => HBoolean b
  | ContextNumber bits => HNumber bits
  | ContextString s => HString s
  | ContextArray values =>
      HArray values
        ((fix go l : Forall P l :=
            match l with
            | [] => Forall_nil_2 P
            | v :: l => Forall_cons_2 P v l (context_value_ind' v) (go l)
            end) values)
  | ContextObject values =>
      HObject values
        ((fix go (l : list (str * ContextValue)) : Forall (λ entry, P entry.2) l :=
            match l with
            | [] => Forall_nil_2 _
            | entry :: l => Forall_cons_2 _ entry l (context_value_ind' entry.2) (go l)
            end) values)
  end.
End ContextInd.

(** ** Measures of a value *)

Fixpoint context_depth (v : ContextValue) : Z :=
  match v with
  | ContextArray values => 1 + foldr (λ v n, Z.max (context_depth v) n) 0 values
  | ContextObject values => 1 + foldr (λ entry n, Z.max (context_depth entry.2) n) 0 values
  | _ => 1
  end.

(** The bytes of its strings and keys. *)
Fixpoint context_text (v : ContextValue) : Z :=
  match v with
  | ContextString s => str_len s
  | ContextArray values => sum_by context_text values
  | ContextObject values => sum_by (λ entry, str_len entry.1 + context_text entry.2) values
  | _ => 0
  end.

(** Every NaN in it is the canonical one. *)
Fixpoint context_canonical (v : ContextValue) : Prop :=
  match v with
  | ContextNumber bits => is_nan (from_bits bits) = true → bits = canonical_nan
  | ContextArray values => foldr (λ v p, context_canonical v ∧ p) True values
  | ContextObject values => foldr (λ entry p, context_canonical entry.2 ∧ p) True values
  | _ => True
  end.

(** ** The worklist *)

Definition pending_size (l : list (ContextValue * Z)) : Z := sum_by (λ p, context_size p.1) l.
Definition pending_text (l : list (ContextValue * Z)) : Z := sum_by (λ p, context_text p.1) l.
Definition pending_fits (l : list (ContextValue * Z)) : Prop :=
  Forall (λ p, p.2 + context_depth p.1 - 1 ≤ MAX_CONTEXT_VALUE_DEPTH ∧ context_canonical p.1) l.

(** A budget that no charge has exceeded. *)
Definition within (b : ContextBudget) : Prop :=
  0 ≤ budget_nodes b ≤ MAX_CONTEXT_VALUE_NODES ∧
  0 ≤ budget_text_bytes b ≤ MAX_CONTEXT_VALUE_TEXT_BYTES.

Definition spend_by (b : ContextBudget) (nodes text : Z) : ContextBudget :=
  MkContextBudget (budget_nodes b + nodes) (budget_text_bytes b + text).

Lemma spend_by_add b n t n' t' :
  spend_by (spend_by b n t) n' t' = spend_by b (n + n') (t + t').
Proof. unfold spend_by. cbn. by rewrite !Z.add_assoc. Qed.

Lemma within_spend_by b n t :
  within b → 0 ≤ n → 0 ≤ t → budget_nodes b + n ≤ MAX_CONTEXT_VALUE_NODES →
  budget_text_bytes b + t ≤ MAX_CONTEXT_VALUE_TEXT_BYTES → within (spend_by b n t).
Proof. intros [? ?] ????. split; cbn; lia. Qed.

Lemma context_size_pos v : 1 ≤ context_size v.
Proof.
  induction v as [|b|bits|s|values IH|values IH] using context_value_ind'; try done;
    rewrite Forall_forall in IH.
  - change (1 ≤ 1 + sum_by context_size values). enough (0 ≤ sum_by context_size values) by lia.
    apply sum_by_nonneg. intros x Hx. specialize (IH x Hx). lia.
  - change (1 ≤ 1 + sum_by (λ entry, context_size entry.2) values).
    enough (0 ≤ sum_by (λ entry : str * ContextValue, context_size entry.2) values) by lia.
    apply sum_by_nonneg. intros x Hx. specialize (IH x Hx). cbn in *. lia.
Qed.

Lemma context_text_nonneg v : 0 ≤ context_text v.
Proof.
  induction v as [|b|bits|s|values IH|values IH] using context_value_ind'; cbn; try lia.
  - apply str_len_nonneg.
  - apply sum_by_nonneg. by rewrite Forall_forall in IH.
  - apply sum_by_nonneg. rewrite Forall_forall in IH. intros x Hx. specialize (IH x Hx).
    pose proof (str_len_nonneg x.1). cbn in *. lia.
Qed.

Lemma context_charge_node_Ok b b' u :
  within b →
  context_charge_node b = (b', Ok u) ↔
    budget_nodes b + 1 ≤ MAX_CONTEXT_VALUE_NODES ∧ b' = spend_by b 1 0.
Proof.
  intros [Hn Ht]. unfold context_charge_node, checked_add, context_value_node_rejection, spend_by.
  rewrite Z.add_0_r. destruct u. destruct (Z.leb_spec (budget_nodes b + 1) u64_max) as [Hle|Hgt].
  - unfold reject. destruct (Z.ltb_spec MAX_CONTEXT_VALUE_NODES (budget_nodes b + 1)); split;
      intros H'; naive_solver lia.
  - unfold u64_max, MAX_CONTEXT_VALUE_NODES in *. lia.
Qed.

Lemma context_charge_text_Ok b n b' u :
  within b → 0 ≤ n →
  context_charge_text n b = (b', Ok u) ↔
    budget_text_bytes b + n ≤ MAX_CONTEXT_VALUE_TEXT_BYTES ∧ b' = spend_by b 0 n.
Proof.
  intros [Hn Ht] Hpos. unfold context_charge_text, checked_add, context_value_text_byte_rejection,
    spend_by. rewrite Z.add_0_r. destruct u.
  destruct (Z.leb_spec (budget_text_bytes b + n) u64_max) as [Hle|Hgt].
  - unfold reject. destruct (Z.ltb_spec MAX_CONTEXT_VALUE_TEXT_BYTES (budget_text_bytes b + n));
      split; intros H'; naive_solver lia.
  - split; [done|]. unfold u64_max, MAX_CONTEXT_VALUE_TEXT_BYTES in *. lia.
Qed.

Lemma charge_keys_Ok (l : list (str * ContextValue)) b b' u :
  within b →
  for_each (λ entry, context_charge_text (str_len (entry : str * ContextValue).1)) l b
    = (b', Ok u) ↔
    budget_text_bytes b + sum_by (λ entry, str_len entry.1) l ≤ MAX_CONTEXT_VALUE_TEXT_BYTES ∧
    b' = spend_by b 0 (sum_by (λ entry, str_len entry.1) l).
Proof.
  revert b. induction l as [|[k v] l IH]; intros b Hb; cbn [for_each].
  { rewrite mret_st_Ok. unfold spend_by. cbn. rewrite !Z.add_0_r. destruct b, Hb, u. cbn in *.
    split; [intros [-> _]; split; [lia|done]|by intros [_ ->]]. }
  change (sum_by _ ((k, v) :: l)) with (str_len k + sum_by (λ entry, str_len entry.1) l).
  pose proof (str_len_nonneg k) as Hk.
  assert (0 ≤ sum_by (λ entry : str * ContextValue, str_len entry.1) l) as Hl
    by (apply sum_by_nonneg; intros; apply str_len_nonneg).
  rewrite bind_st_Ok. cbn [fst]. split.
  - intros (t & [] & Hc & H). apply context_charge_text_Ok in Hc as [Hle ->]; [|done..].
    apply IH in H as [Hle' ->].
    + rewrite spend_by_add. cbn in Hle'. split; [lia|done].
    + apply within_spend_by; try lia; [done|]. destruct Hb. lia.
  - intros [Hle ->]. exists (spend_by b 0 (str_len k)), tt. split.
    + apply context_charge_text_Ok; [done..|]. split; [lia|done].
    + apply IH; [apply within_spend_by; try lia; [done|]; destruct Hb; lia|].
      rewrite spend_by_add. cbn. split; [lia|done].
Qed.

Lemma ensure_node_capacity_Ok b pending additional b' u :
  within b → 0 ≤ pending → 0 ≤ additional →
  ensure_node_capacity pending additional b = (b', Ok u) ↔
    budget_nodes b + pending + additional ≤ MAX_CONTEXT_VALUE_NODES ∧ b' = b.
Proof.
  intros [Hn _] Hp Ha. unfold ensure_node_capacity, context_value_node_rejection. destruct u.
  set (m := MAX_CONTEXT_VALUE_NODES) in *. assert (m ≤ u64_max) by done. split.
  - intros [= <- H']. apply bind_Ok_inv in H' as (n & Hn' & Hr).
    apply ok_or_Ok in Hn'. apply bind_Some in Hn' as (n' & Hn1 & Hn2).
    apply checked_add_Some in Hn1 as [-> _], Hn2 as [-> _].
    apply reject_passes, Z.ltb_ge in Hr. done.
  - intros [Hle ->]. f_equal. unfold checked_add.
    rewrite (proj2 (Z.leb_le _ _)) by lia. cbn. rewrite (proj2 (Z.leb_le _ _)) by lia. cbn.
    apply reject_passes, Z.ltb_ge. done.
Qed.

(** The values directly inside a value, and the bytes of its own. *)
Definition context_children (v : ContextValue) : list ContextValue :=
  match v with
  | ContextArray values => values
  | ContextObject values => map snd values
  | _ => []
  end.

Definition own_text (v : ContextValue) : Z :=
  match v with
  | ContextString s => str_len s
  | ContextObject values => sum_by (λ entry, str_len entry.1) values
  | _ => 0
  end.

Definition own_canonical (v : ContextValue) : Prop :=
  match v with
  | ContextNumber bits => is_nan (from_bits bits) = true → bits = canonical_nan
  | _ => True
  end.

Lemma context_size_children v : context_size v = 1 + sum_by context_size (context_children v).
Proof.
  destruct v as [| | | |values|values]; try done.
  change (1 + sum_by (λ entry, context_size entry.2) values
          = 1 + sum_by context_size (map snd values)). by rewrite sum_by_map.
Qed.

Lemma context_text_children v : context_text v = own_text v + sum_by context_text (context_children v).
Proof.
  destruct v as [| | |s|values|values]; try done; [cbn; lia|].
  change (sum_by (λ entry, str_len entry.1 + context_text entry.2) values
          = sum_by (λ entry, str_len entry.1) values + sum_by context_text (map snd values)).
  rewrite sum_by_map. induction values as [|[k v] values IH]; [done|].
  rewrite !sum_by_cons, IH. cbn. lia.
Qed.

Lemma foldr_max_le {A : Type} (f : A → Z) (l : list A) (k : Z) :
  foldr (λ v n, Z.max (f v) n) 0 l ≤ k ↔ 0 ≤ k ∧ Forall (λ v, f v ≤ k) l.
Proof.
  induction l as [|x l IH]; cbn; [rewrite Forall_nil; tauto|].
  rewrite Forall_cons, Z.max_lub_iff, IH. tauto.
Qed.

Lemma context_depth_children v k :
  context_depth v ≤ k ↔ 1 ≤ k ∧ Forall (λ c, context_depth c + 1 ≤ k) (context_children v).
Proof.
  assert (∀ l, 1 + foldr (λ v n, Z.max (context_depth v) n) 0 l ≤ k
    ↔ 1 ≤ k ∧ Forall (λ c, context_depth c + 1 ≤ k) l) as H.
  { intros l. pose proof (foldr_max_le context_depth l (k - 1)) as Hm.
    assert (Forall (λ c, context_depth c + 1 ≤ k) l ↔ Forall (λ c, context_depth c ≤ k - 1) l)
      as -> by (apply Forall_iff; intros; lia).
    assert (∀ m, 1 + m ≤ k ↔ m ≤ k - 1) as -> by lia. rewrite Hm.
    by assert (0 ≤ k - 1 ↔ 1 ≤ k) as -> by lia. }
  destruct v as [| | | |values|values]; cbn [context_depth context_children];
    try (rewrite Forall_nil; tauto); [apply H|].
  rewrite <- H. assert (foldr (λ entry n, Z.max (context_depth entry.2) n) 0 values
    = foldr (λ v n, Z.max (context_depth v) n) 0 (map snd values)) as ->; [|done].
  induction values as [|[k' v] values IH]; [done|]. cbn. by rewrite IH.
Qed.

Lemma context_canonical_children v :
  context_canonical v ↔ own_canonical v ∧ Forall context_canonical (context_children v).
Proof.
  assert (∀ l, foldr (λ v p, context_canonical v ∧ p) True l ↔ Forall context_canonical l) as H.
  { induction l as [|x l IH]; cbn; [by rewrite Forall_nil|]. by rewrite Forall_cons, IH. }
  destruct v as [| | | |values|values]; cbn; try (rewrite Forall_nil; tauto).
  - rewrite H. tauto.
  - rewrite <- H. induction values as [|[k v] values IH]; cbn; [tauto|]. rewrite IH. tauto.
Qed.

Definition waiting (v : ContextValue) (d : Z) (pending : list (ContextValue * Z)) :
    list (ContextValue * Z) := map (λ c, (c, d + 1)) (context_children v) ++ pending.

(** What one pass asks of the value it pops. *)
Definition affordable (v : ContextValue) (d : Z) (b : ContextBudget) : Prop :=
  d ≤ MAX_CONTEXT_VALUE_DEPTH ∧ own_canonical v ∧
  budget_nodes b + 1 ≤ MAX_CONTEXT_VALUE_NODES ∧
  budget_text_bytes b + own_text v ≤ MAX_CONTEXT_VALUE_TEXT_BYTES.

Lemma own_text_nonneg v : 0 ≤ own_text v.
Proof.
  destruct v; try done; [apply str_len_nonneg|]. apply sum_by_nonneg. intros. apply str_len_nonneg.
Qed.

(** The checks of one pass, with [k] for what is done with the waiting values. *)
Lemma charge_loop_pass fuel v d pending b b' u :
  within b →
  charge_loop (S fuel) ((v, d) :: pending) b = (b', Ok u) →
  affordable v d b ∧
  charge_loop fuel (waiting v d pending) (spend_by b 1 (own_text v)) = (b', Ok u).
Proof.
  intros Hb H. cbn [charge_loop] in H.
  apply bind_st_Ok in H as (t & [] & [-> Hd%Z.ltb_ge]%liftM_reject_Ok & H).
  apply bind_st_Ok in H as (t & [] & [Hn ->]%context_charge_node_Ok & H); [|done].
  assert (within (spend_by b 1 0)) as Hb'.
  { apply within_spend_by; try lia; [done|]. destruct Hb. lia. }
  pose proof (conj Hd Hn) as Hdn. unfold affordable.
  destruct v as [|v|bits|s|values|values]; cbn [own_text own_canonical waiting context_children map app].
  - destruct Hb. split; [split_and!; [done..|lia]|done].
  - destruct Hb. split; [split_and!; [done..|lia]|done].
  - apply bind_st_Ok in H as (t & [] & [-> Hnan]%liftM_reject_Ok & H).
    destruct Hb. split; [split_and!; [done| |done|lia]|done].
    intros Hx. rewrite Hx in Hnan. cbn in Hnan. by apply negb_false_iff, Z.eqb_eq in Hnan.
  - apply bind_st_Ok in H as (t & [] & Ht & H).
    apply context_charge_text_Ok in Ht as [Ht ->]; [|done|apply str_len_nonneg].
    rewrite spend_by_add in H. cbn in Ht. rewrite Z.add_0_r in Ht. split; [by split_and!|done].
  - apply bind_st_Ok in H as (t & [] & Hc & H).
    apply ensure_node_capacity_Ok in Hc as [_ ->]; [|done|unfold len; lia..].
    destruct Hb. split; [split_and!; [done..|lia]|done].
  - apply bind_st_Ok in H as (t & [] & Hc & H).
    apply ensure_node_capacity_Ok in Hc as [_ ->]; [|done|unfold len; lia..].
    apply bind_st_Ok in H as (t & [] & Ht & H).
    apply charge_keys_Ok in Ht as [Ht ->]; [|done]. rewrite spend_by_add in H.
    rewrite sum_by_rev in *. cbn in Ht. rewrite Z.add_0_r in Ht.
    split; [by split_and!|]. by rewrite map_map.
Qed.

Lemma charge_loop_run fuel v d pending b :
  within b → affordable v d b →
  budget_nodes b + 1 + len pending + len (context_children v) ≤ MAX_CONTEXT_VALUE_NODES →
  charge_loop (S fuel) ((v, d) :: pending) b =
    charge_loop fuel (waiting v d pending) (spend_by b 1 (own_text v)).
Proof.
  intros Hb (Hd & Hcan & Hn & Ht) Hcap. cbn [charge_loop].
  assert (within (spend_by b 1 0)) as Hb'.
  { apply within_spend_by; try lia; [done|]. destruct Hb. lia. }
  assert (∀ n, 0 ≤ n → budget_text_bytes b + n ≤ MAX_CONTEXT_VALUE_TEXT_BYTES →
    context_charge_text n (spend_by b 1 0) = (spend_by b 1 n, Ok tt)) as Htext.
  { intros n Hpos Hle. apply context_charge_text_Ok; [done..|]. rewrite spend_by_add. cbn.
    split; [lia|done]. }
  assert (∀ n, 0 ≤ n → budget_nodes b + 1 + len pending + n ≤ MAX_CONTEXT_VALUE_NODES →
    ensure_node_capacity (len pending) n (spend_by b 1 0) = (spend_by b 1 0, Ok tt)) as Hcapacity.
  { intros n Hpos Hle. apply ensure_node_capacity_Ok; [done|unfold len; lia|done|]. cbn.
    split; [lia|done]. }
  unfold mbind, spend_bind, stM_bind, liftM at 1, reject at 1, context_value_depth_rejection.
  rewrite (proj2 (Z.ltb_ge _ _) Hd).
  rewrite (proj2 (context_charge_node_Ok b _ tt Hb) (conj Hn eq_refl)).
  destruct v as [|v|bits|s|values|values]; cbn [own_text own_canonical context_children] in *; try done.
  - unfold liftM. destruct (is_nan (from_bits bits)) eqn:Hx; cbn; [|done].
    rewrite Hcan, Z.eqb_refl by done. done.
  - rewrite Htext; [done|apply str_len_nonneg|done].
  - rewrite Hcapacity; [done|unfold len; lia|done].
  - rewrite len_map in Hcap. rewrite Hcapacity; [|unfold len; lia|done].
    assert (for_each (λ entry : str * ContextValue, context_charge_text (str_len entry.1))
      (rev values) (spend_by b 1 0) = (spend_by b 1 (sum_by (λ entry, str_len entry.1) values), Ok tt))
      as ->.
    { apply charge_keys_Ok; [done|]. rewrite sum_by_rev, spend_by_add. cbn. rewrite Z.add_0_r. done. }
    unfold waiting. cbn [context_children]. by rewrite map_map.
Qed.

Lemma pending_size_waiting v d pending :
  pending_size ((v, d) :: pending) = 1 + pending_size (waiting v d pending).
Proof.
  unfold pending_size, waiting. rewrite sum_by_cons, sum_by_app, sum_by_map.
  cbn [fst]. by rewrite context_size_children, <- Z.add_assoc.
Qed.

Lemma pending_text_waiting v d pending :
  pending_text ((v, d) :: pending) = own_text v + pending_text (waiting v d pending).
Proof.
  unfold pending_text, waiting. rewrite sum_by_cons, sum_by_app, sum_by_map.
  cbn [fst]. by rewrite context_text_children, <- Z.add_assoc.
Qed.

Lemma pending_fits_waiting v d pending :
  pending_fits ((v, d) :: pending) ↔
    d ≤ MAX_CONTEXT_VALUE_DEPTH ∧ own_canonical v ∧ pending_fits (waiting v d pending).
Proof.
  unfold pending_fits, waiting. rewrite Forall_cons, Forall_app, Forall_map. cbn [fst snd].
  rewrite context_canonical_children.
  pose proof (context_depth_children v (MAX_CONTEXT_VALUE_DEPTH + 1 - d)) as Hd.
  assert (d + context_depth v - 1 ≤ MAX_CONTEXT_VALUE_DEPTH ↔
    context_depth v ≤ MAX_CONTEXT_VALUE_DEPTH + 1 - d) as -> by lia. rewrite Hd.
  assert (1 ≤ MAX_CONTEXT_VALUE_DEPTH + 1 - d ↔ d ≤ MAX_CONTEXT_VALUE_DEPTH) as -> by lia.
  assert (Forall (λ c, context_depth c + 1 ≤ MAX_CONTEXT_VALUE_DEPTH + 1 - d) (context_children v)
    ↔ Forall (λ c, d + 1 + context_depth c - 1 ≤ MAX_CONTEXT_VALUE_DEPTH) (context_children v))
    as -> by (apply Forall_iff; intros; lia).
  rewrite !Forall_and. tauto.
Qed.

Lemma pending_size_length pending : len pending ≤ pending_size pending.
Proof.
  unfold len, pending_size. induction pending as [|[v d] pending IH]; [done|].
  rewrite sum_by_cons. cbn [length fst]. pose proof (context_size_pos v). lia.
Qed.

Lemma pending_text_nonneg pending : 0 ≤ pending_text pending.
Proof. apply sum_by_nonneg. intros. apply context_text_nonneg. Qed.

(** The worklist with enough passes left for the values it reaches. *)
Lemma charge_loop_Ok fuel pending b b' u :
  within b → pending_size pending ≤ Z.of_nat fuel →
  charge_loop fuel pending b = (b', Ok u) ↔
    pending_fits pending ∧
    budget_nodes b + pending_size pending ≤ MAX_CONTEXT_VALUE_NODES ∧
    budget_text_bytes b + pending_text pending ≤ MAX_CONTEXT_VALUE_TEXT_BYTES ∧
    b' = spend_by b (pending_size pending) (pending_text pending).
Proof.
  revert pending b. induction fuel as [|fuel IH]; intros [|[v d] pending] b Hb Hfuel.
  1, 3: cbn [charge_loop]; rewrite mret_st_Ok; unfold spend_by; cbn; rewrite !Z.add_0_r;
    destruct b, u; unfold within in Hb; cbn in *;
    (split; [intros [-> _]; split_and!; [constructor|lia|lia|done]|by intros (_ & _ & _ & ->)]).
  { pose proof (pending_size_length ((v, d) :: pending)) as H. unfold len in H. cbn [length] in H. lia. }
  rewrite pending_size_waiting, pending_text_waiting, pending_fits_waiting in *.
  pose proof (own_text_nonneg v) as Hown. pose proof (pending_text_nonneg (waiting v d pending)) as Hpt.
  pose proof (pending_size_length (waiting v d pending)) as Hpl.
  assert (len (waiting v d pending) = len (context_children v) + len pending) as Hwl.
  { unfold waiting, len. rewrite length_app, length_map. lia. }
  split.
  - intros H. apply charge_loop_pass in H as [(Hd & Hcan & Hn & Ht) H]; [|done].
    apply IH in H as (Hf & Hs & Htx & ->); [| |lia].
    + rewrite spend_by_add. cbn in Hs, Htx. split_and!; [done..|lia|lia|done].
    + by apply within_spend_by.
  - intros ((Hd & Hcan & Hf) & Hs & Htx & ->).
    unfold len in Hpl, Hwl. assert (within (spend_by b 1 (own_text v))) as Hb'.
    { apply within_spend_by; [done|lia|done|lia|lia]. }
    rewrite charge_loop_run; [|done|split_and!; [done..|lia|lia]|unfold len; lia].
    apply IH; [done|lia|]. rewrite spend_by_add. cbn. split_and!; [done|lia|lia|done].
Qed.

(** C26: A runtime value is accepted exactly when it is nested at most 32 deep,
    holds at most 65,536 values and a mebibyte of text, and has the canonical
    NaN only: the worklist neither stops early nor refuses a value within the
    limits. *)
Theorem context_values_are_bounded (v : ContextValue) :
  context_value_validate v = Ok tt ↔
    context_depth v ≤ MAX_CONTEXT_VALUE_DEPTH ∧ context_canonical v ∧
    context_size v ≤ MAX_CONTEXT_VALUE_NODES ∧ context_text v ≤ MAX_CONTEXT_VALUE_TEXT_BYTES.
Proof.
  unfold context_value_validate, context_charge.
  destruct (charge_loop _ _ context_budget_default) as [b r] eqn:Hr. cbn.
  pose proof (context_size_pos v) as Hpos.
  pose proof (charge_loop_Ok (Z.to_nat (context_size v)) [(v, 1)] context_budget_default) as H.
  unfold pending_size, pending_text, pending_fits in H. setoid_rewrite Forall_singleton in H.
  cbn [sum_by foldr fst snd] in H. rewrite !Z.add_0_r in H.
  assert (1 + context_depth v - 1 = context_depth v) as Hd by lia. rewrite Hd in H.
  split.
  - intros ->. apply H in Hr; [|done|lia]. cbn in Hr. tauto.
  - intros (Hdepth & Hcan & Hsize & Htext).
    set (spent := spend_by context_budget_default (context_size v) (context_text v)) in *.
    assert (charge_loop (Z.to_nat (context_size v)) [(v, 1)] context_budget_default
      = (spent, Ok tt)) as Hr'; [|congruence].
    apply H; [done|lia|]. by split_and!.
Qed.
