(* ===== verification/MatrixExpansion.v ===== *)
(** * MatrixExpansion: from a matrix template to concrete combinations

    Models the matrix half of
    [crates/automata-ci-workflow-service/src/activation.rs]: the values a
    provider's expressions return, their validation against a budget, the
    resolution of static and evaluated axes and patches, and [expand_matrix],
    which forms the Cartesian product of the axes, drops the excluded
    combinations and merges or appends the included ones. What the provider
    decides (evaluation, key folding, equality of values) is the class
    [LogicalActivationSession]; [GithubActivation] implements it. *)

From S2P Require Import Prelude Text Float64 Capability Log ExpressionParser WorkflowTemplate.
From S2P Require Import WorkflowStrategy RuntimeContext.
From stdpp Require Import gmap.

Open Scope Z_scope.

(** ** Limits *)

Definition MAX_MATRIX_CANDIDATE_COMBINATIONS : Z := 4096.
Definition MAX_MATRIX_EXPANSION_WORK : Z := 1048576.

Definition matrix_candidate_rejection (observed : Z) : bool :=
  MAX_MATRIX_CANDIDATE_COMBINATIONS <? observed.
Definition matrix_expansion_work_rejection (observed : Z) : bool :=
  MAX_MATRIX_EXPANSION_WORK <? observed.

(** ** Values *)

Inductive ActivationValue :=
| ActivationNull
| ActivationBoolean (value : bool)
| ActivationNumber (bits : Z)
| ActivationString (value : str)
| ActivationArray (values : list ActivationValue)
| ActivationObject (entries : list (str * ActivationValue)).

Section ActivationInd.
Variable P : ActivationValue → Prop.
Hypothesis HNull : P ActivationNull.
Hypothesis HBoolean : ∀ b, P (ActivationBoolean b).
Hypothesis HNumber : ∀ bits, P (ActivationNumber bits).
Hypothesis HString : ∀ s, P (ActivationString s).
Hypothesis HArray : ∀ values, Forall P values → P (ActivationArray values).
Hypothesis HObject : ∀ entries, Forall (λ entry, P entry.2) entries → P (ActivationObject entries).

(** Induction that reaches the values inside arrays and objects. *)
Fixpoint activation_value_ind' (v : ActivationValue) : P v :=
  match v with
  | ActivationNull => HNull
  | ActivationBoolean b => HBoolean b
  | ActivationNumber bits => HNumber bits
  | ActivationString s => HString s
  | ActivationArray values =>
      HArray values
        ((fix go l : Forall P l :=
            match l with
            | [] => List.Forall_nil P
            | v :: l => List.Forall_cons P v l (activation_value_ind' v) (go l)
            end) values)
  | ActivationObject entries =>
      HObject entries
        ((fix go (l : list (str * ActivationValue)) : Forall (λ entry, P entry.2) l :=
            match l with
            | [] => List.Forall_nil (λ entry, P entry.2)
            | (k, v) :: l =>
                List.Forall_cons (λ entry, P entry.2) (k, v) l (activation_value_ind' v) (go l)
            end) entries)
  end.
End ActivationInd.

(** [ActivationValue::number]: one encoding of NaN. *)
Definition activation_number (value : f64) : ActivationValue := ActivationNumber (to_bits value).

Definition activation_kind (self : ActivationValue) : str :=
  match self with
  | ActivationNull => lit "null"
  | ActivationBoolean _ => lit "boolean"
  | ActivationNumber _ => lit "number"
  | ActivationString _ => lit "string"
  | ActivationArray _ => lit "array"
  | ActivationObject _ => lit "object"
  end.

(** ** Sites, contexts and errors *)

Inductive ActivationEvaluationSite :=
| SiteJobCondition | SiteJobName | SiteDeploymentEnvironment | SiteRunnerGroup | SiteRunnerLabel
| SiteJobTimeout | SiteStrategyFailFast | SiteStrategyMaxParallel | SiteWholeMatrix
| SiteMatrixAxis | SiteMatrixInclude | SiteMatrixExclude | SiteJobContinueOnError
| SiteJobResourceQuantity | SiteReusableWorkflowInput | SiteStepShell.

#[export] Instance activation_site_eq_dec : EqDecision ActivationEvaluationSite.
Proof. solve_decision. Defined.

Inductive ActivationStatus :=
| ActivationSuccess | ActivationFailure | ActivationCancelled | ActivationSkipped.

#[export] Instance activation_status_eq_dec : EqDecision ActivationStatus.
Proof. solve_decision. Defined.

Record ActivationEvaluationContext := MkEvaluationContext {
  evaluation_job_key : str;
  evaluation_inputs : ContextValue;
  evaluation_vars : ContextValue;
  evaluation_needs : TextMap NeedContext;
  evaluation_status : ActivationStatus;
  evaluation_matrix : option ContextValue;
  evaluation_strategy : option StrategyContext
}.

(** [E] is the provider's error, [J] and [P] those of the JSON and protobuf
    encoders. *)
Inductive LogicalActivationError (E J P : Type) :=
| Preparation (source : E)
| Evaluation (site : ActivationEvaluationSite) (source : E)
| UnavailableExpressionContext (site : ActivationEvaluationSite) (context : str)
| MissingNeed (job : str)
| UnexpectedNeed
| InconsistentAggregateStatus
| ActivatedZeroPositiveInteger (site : ActivationEvaluationSite)
| InvalidActivatedJobName
| InvalidActivatedDeploymentEnvironment
| InvalidActivatedRunnerSelector
| InvalidActivatedResourceQuantity (resource : str)
| ActivatedTimeoutScaleOverflow
| ExpectedMatrixArray (field received : str)
| ExpectedMatrixObject (received : str)
| EmptyMatrixAxis
| EmptyMatrix
| EmptyMatrixPatch
| DuplicateMatrixKey
| UnknownMatrixAxis
| InvalidMatrixNumber
| NonFiniteMatrixNumber
| MatrixExpansionLimitExceeded (maximum : Z)
| ActivationLimitExceeded (field : str) (maximum : Z)
| ActivationRuntimeContext (source : RuntimeContextError)
| ActivationJobIdentity (source : JobIdentityError)
| MatrixDigestEncoding (source : J)
| RuntimeContextEncoding (source : P).
Arguments Preparation {E J P} _.
Arguments Evaluation {E J P} _ _.
Arguments UnavailableExpressionContext {E J P} _ _.
Arguments MissingNeed {E J P} _.
Arguments UnexpectedNeed {E J P}.
Arguments InconsistentAggregateStatus {E J P}.
Arguments ActivatedZeroPositiveInteger {E J P} _.
Arguments InvalidActivatedJobName {E J P}.
Arguments InvalidActivatedDeploymentEnvironment {E J P}.
Arguments InvalidActivatedRunnerSelector {E J P}.
Arguments InvalidActivatedResourceQuantity {E J P} _.
Arguments ActivatedTimeoutScaleOverflow {E J P}.
Arguments ExpectedMatrixArray {E J P} _ _.
Arguments ExpectedMatrixObject {E J P} _.
Arguments EmptyMatrixAxis {E J P}.
Arguments EmptyMatrix {E J P}.
Arguments EmptyMatrixPatch {E J P}.
Arguments DuplicateMatrixKey {E J P}.
Arguments UnknownMatrixAxis {E J P}.
Arguments InvalidMatrixNumber {E J P}.
Arguments NonFiniteMatrixNumber {E J P}.
Arguments MatrixExpansionLimitExceeded {E J P} _.
Arguments ActivationLimitExceeded {E J P} _ _.
Arguments ActivationRuntimeContext {E J P} _.
Arguments ActivationJobIdentity {E J P} _.
Arguments MatrixDigestEncoding {E J P} _.
Arguments RuntimeContextEncoding {E J P} _.

(** ** The provider *)

(** The methods of the trait [LogicalActivationSession]; [E] is its error. *)
Class LogicalActivationSession (E : Type) := {
  validate_expression_site :
    CompiledExpressionTemplate → ActivationEvaluationSite → result E unit;
  session_evaluate_value :
    CompiledExpressionTemplate → ActivationEvaluationContext → result E ActivationValue;
  session_evaluate_string :
    CompiledExpressionTemplate → ActivationEvaluationContext → result E str;
  session_evaluate_condition :
    CompiledExpressionTemplate → ActivationEvaluationContext → result E bool;
  session_evaluate_boolean :
    CompiledExpressionTemplate → ActivationEvaluationContext → result E bool;
  session_evaluate_positive_integer :
    CompiledExpressionTemplate → ActivationEvaluationContext → result E Z;
  normalize_matrix_key : str → str;
  matrix_values_equal : ActivationValue → ActivationValue → bool;
  matrix_value_matches : ActivationValue → ActivationValue → bool
}.

Definition evaluation_site_allows_context (site : ActivationEvaluationSite)
    (context : ExpressionContext) : bool :=
  match site with
  | SiteJobName | SiteDeploymentEnvironment | SiteRunnerGroup | SiteRunnerLabel | SiteJobTimeout
  | SiteJobContinueOnError | SiteJobResourceQuantity | SiteStepShell =>
      match context with
      | CtxGithub | CtxInputs | CtxVars | CtxNeeds | CtxStrategy | CtxMatrix => true
      | _ => false
      end
  | SiteJobCondition | SiteReusableWorkflowInput | SiteStrategyFailFast | SiteStrategyMaxParallel
  | SiteWholeMatrix | SiteMatrixAxis | SiteMatrixInclude | SiteMatrixExclude =>
      match context with
      | CtxGithub | CtxInputs | CtxVars | CtxNeeds => true
      | _ => false
      end
  end.

Definition valid_matrix_key (value : str) : bool :=
  negb (str_is_empty value) && str_eqb (trim value) value
  && (str_len value <=? MAX_RUNTIME_CONTEXT_IDENTIFIER_BYTES) && negb (existsb is_control value).

(** [value.parse::<f64>()]: decimal notation, or the names of the values that
    have none, in any case and with an optional sign. *)
Definition f64_from_str (value : str) : option f64 :=
  let '(sign, name) := take_sign value in
  if eq_ignore_ascii_case name (lit "inf") || eq_ignore_ascii_case name (lit "infinity")
  then Some (S754_infinity sign)
  else if eq_ignore_ascii_case name (lit "nan") then Some f64_nan
  else parse_f64 value.

(** ** Budgets *)

(** Resolution charges values and text, expansion charges work. *)
Record DynamicMatrixBudget := MkDynamicBudget { dynamic_nodes : Z; dynamic_text_bytes : Z }.
Definition dynamic_budget_default : DynamicMatrixBudget := MkDynamicBudget 0 0.
Record MatrixExpansionBudget := MkExpansionBudget { expansion_work : Z }.
Definition expansion_budget_default : MatrixExpansionBudget := MkExpansionBudget 0.

(** ** Combinations *)

(** The shared values behind [Arc] are immutable, so sharing does not show. *)
Abbreviation MatrixEntries := (list (str * ActivationValue)) (only parsing).

Record MatrixCombination := MkCombination {
  combination_entries : MatrixEntries;
  combination_lookup : gmap str nat
}.

Definition combination_default : MatrixCombination := MkCombination [] ∅.

Record ResolvedMatrix := MkResolved {
  resolved_axes : list (str * list ActivationValue);
  resolved_include : list MatrixEntries;
  resolved_exclude : list MatrixEntries
}.

Section Expansion.
Context {E J P : Type} `{session : !LogicalActivationSession E}.

Let error : Type := LogicalActivationError E J P.

Definition dynamic_charge_node : stM DynamicMatrixBudget error unit := λ b,
  let error := ActivationLimitExceeded (lit "dynamic matrix nodes") MAX_CONTEXT_VALUE_NODES in
  match checked_add u64_max (dynamic_nodes b) 1 with
  | None => (b, Err error)
  | Some nodes =>
      (MkDynamicBudget nodes (dynamic_text_bytes b),
       reject (MAX_CONTEXT_VALUE_NODES <? nodes) error)
  end.

Definition dynamic_charge_text (value : str) : stM DynamicMatrixBudget error unit := λ b,
  let error :=
    ActivationLimitExceeded (lit "dynamic matrix text bytes") MAX_CONTEXT_VALUE_TEXT_BYTES in
  if MAX_MATRIX_TEXT_BYTES <? str_len value
  then (b, Err (ActivationLimitExceeded (lit "dynamic matrix text") MAX_MATRIX_TEXT_BYTES))
  else
    match checked_add u64_max (dynamic_text_bytes b) (str_len value) with
    | None => (b, Err error)
    | Some text_bytes =>
        (MkDynamicBudget (dynamic_nodes b) text_bytes,
         reject (MAX_CONTEXT_VALUE_TEXT_BYTES <? text_bytes) error)
    end.

Definition work_charge (work : Z) : stM MatrixExpansionBudget error unit := λ b,
  let error :=
    ActivationLimitExceeded (lit "matrix expansion work") MAX_MATRIX_EXPANSION_WORK in
  match checked_add u64_max (expansion_work b) work with
  | None => (b, Err error)
  | Some total => (MkExpansionBudget total, reject (matrix_expansion_work_rejection total) error)
  end.

Definition work_charge_product (left_ right_ : Z) : stM MatrixExpansionBudget error unit :=
  work ← liftM (ok_or (checked_mul u64_max left_ right_)
                  (ActivationLimitExceeded (lit "matrix expansion work")
                     MAX_MATRIX_EXPANSION_WORK));
  work_charge work.

(** ** Evaluation of templates *)

Definition validate_site_contexts (expression : CompiledExpressionTemplate)
    (site : ActivationEvaluationSite) : result error unit :=
  match List.find (λ context, negb (evaluation_site_allows_context site context))
          (template_contexts expression) with
  | Some context => Err (UnavailableExpressionContext site (context_as_str context))
  | None => Ok tt
  end.

Definition validate_provider_site (expression : CompiledExpressionTemplate)
    (site : ActivationEvaluationSite) : result error unit :=
  map_err (Evaluation site) (validate_expression_site expression site).

(** The five [evaluate_*] functions differ in the method they call. *)
Definition evaluate_at {A : Type}
    (method : CompiledExpressionTemplate → ActivationEvaluationContext → result E A)
    (expression : CompiledExpressionTemplate) (context : ActivationEvaluationContext)
    (site : ActivationEvaluationSite) : result error A :=
  _ ← validate_site_contexts expression site;
  _ ← validate_provider_site expression site;
  map_err (Evaluation site) (method expression context).

Definition evaluate_value := evaluate_at session_evaluate_value.
Definition evaluate_string := evaluate_at session_evaluate_string.
Definition activation_condition := evaluate_at session_evaluate_condition.
Definition evaluate_boolean := evaluate_at session_evaluate_boolean.
Definition evaluate_positive_integer := evaluate_at session_evaluate_positive_integer.

(** ** Validation of values *)

(** One key of an object: charged or bounded, valid, and new when folded. *)
Definition check_matrix_key (dynamic : bool) (keys : gset str) (key : str) :
    stM DynamicMatrixBudget error (gset str) :=
  _ ← (if dynamic then dynamic_charge_text key
       else liftM (reject (MAX_MATRIX_TEXT_BYTES <? str_len key)
                     (ActivationLimitExceeded (lit "matrix text") MAX_MATRIX_TEXT_BYTES)));
  _ ← liftM (reject (negb (valid_matrix_key key)) DuplicateMatrixKey);
  insert_fresh keys (normalize_matrix_key key) DuplicateMatrixKey.

(** [budget] is [Some] for values an expression returned. *)
Fixpoint validate_matrix_value (value : ActivationValue) (depth : Z) (dynamic : bool) :
    stM DynamicMatrixBudget error unit :=
  _ ← liftM (reject (MAX_MATRIX_VALUE_DEPTH <? depth)
               (ActivationLimitExceeded (lit "matrix value depth") MAX_MATRIX_VALUE_DEPTH));
  _ ← (if dynamic then dynamic_charge_node else mret tt);
  match value with
  | ActivationNull | ActivationBoolean _ => mret tt
  | ActivationNumber bits =>
      liftM (reject (negb (is_finite (from_bits bits))) NonFiniteMatrixNumber)
  | ActivationString value =>
      if dynamic then dynamic_charge_text value
      else liftM (reject (MAX_MATRIX_TEXT_BYTES <? str_len value)
                    (ActivationLimitExceeded (lit "matrix text") MAX_MATRIX_TEXT_BYTES))
  | ActivationArray values =>
      _ ← liftM (reject (MAX_MATRIX_OBJECT_ENTRIES <? len values)
                   (ActivationLimitExceeded (lit "matrix array values")
                      MAX_MATRIX_OBJECT_ENTRIES));
      for_each (λ value, validate_matrix_value value (depth + 1) dynamic) values
  | ActivationObject entries =>
      _ ← liftM (reject (MAX_MATRIX_OBJECT_ENTRIES <? len entries)
                   (ActivationLimitExceeded (lit "matrix object entries")
                      MAX_MATRIX_OBJECT_ENTRIES));
      _ ← fold_st (λ keys '(key, value),
            keys ← check_matrix_key dynamic keys key;
            _ ← validate_matrix_value value (depth + 1) dynamic;
            mret keys) ∅ entries;
      mret tt
  end.

(** A literal of the plan as a value. *)
Fixpoint activation_value (value : MatrixValue) : result error ActivationValue :=
  match value with
  | MatrixNull => Ok ActivationNull
  | MatrixBoolean value => Ok (ActivationBoolean value)
  | MatrixNumber value =>
      value ← ok_or (f64_from_str value) InvalidMatrixNumber;
      _ ← reject (negb (is_finite value)) NonFiniteMatrixNumber;
      Ok (activation_number value)
  | MatrixString value => Ok (ActivationString value)
  | MatrixArray values =>
      values ← (fix go l := match l with
                | [] => Ok []
                | v :: l => v ← activation_value v; l ← go l; Ok (v :: l)
                end) values;
      Ok (ActivationArray values)
  | MatrixObject entries =>
      entries ← (fix go l := match l with
                 | [] => Ok []
                 | (key, v) :: l => v ← activation_value v; l ← go l; Ok ((key, v) :: l)
                 end) entries;
      Ok (ActivationObject entries)
  end.

(** ** Resolution *)

Definition resolve_value_template (template : MatrixValueTemplate)
    (context : ActivationEvaluationContext) (site : ActivationEvaluationSite) :
    stM DynamicMatrixBudget error ActivationValue :=
  '(value, dynamic) ← liftM
    match template with
    | TemplateLiteral value => value ← activation_value value; Ok (value, false)
    | TemplateExpression expression =>
        value ← evaluate_value expression context site; Ok (value, true)
    end;
  _ ← validate_matrix_value value 0 dynamic;
  mret value.

Definition resolve_axis_values (value : ActivationValue) :
    stM DynamicMatrixBudget error (list ActivationValue) :=
  match value with
  | ActivationArray values =>
      _ ← dynamic_charge_node;
      _ ← liftM (reject (MAX_MATRIX_AXIS_VALUES <? len values)
                   (ActivationLimitExceeded (lit "matrix axis values") MAX_MATRIX_AXIS_VALUES));
      _ ← for_each (λ value, validate_matrix_value value 0 true) values;
      mret values
  | _ => liftM (Err (ExpectedMatrixArray (lit "matrix axis") (activation_kind value)))
  end.

Definition validate_patch (entries : MatrixEntries) : stM DynamicMatrixBudget error unit :=
  _ ← dynamic_charge_node;
  _ ← liftM (reject (Nat.eqb (length entries) 0) EmptyMatrixPatch);
  _ ← liftM (reject (MAX_MATRIX_OBJECT_ENTRIES <? len entries)
               (ActivationLimitExceeded (lit "matrix patch entries") MAX_MATRIX_OBJECT_ENTRIES));
  _ ← fold_st (λ keys '(key, value),
        keys ← check_matrix_key true keys key;
        _ ← validate_matrix_value value 0 true;
        mret keys) ∅ entries;
  mret tt.

Definition resolve_dynamic_patch (patch : ActivationValue) :
    stM DynamicMatrixBudget error MatrixEntries :=
  match patch with
  | ActivationObject entries =>
      _ ← validate_patch entries;
      mret entries
  | _ => liftM (Err (ExpectedMatrixObject (activation_kind patch)))
  end.

Definition resolve_dynamic_patches (value : ActivationValue) :
    stM DynamicMatrixBudget error (list MatrixEntries) :=
  match value with
  | ActivationArray patches =>
      _ ← dynamic_charge_node;
      _ ← liftM (reject (MAX_MATRIX_PATCHES <? len patches)
                   (ActivationLimitExceeded (lit "matrix patches") MAX_MATRIX_PATCHES));
      collect_st resolve_dynamic_patch patches
  | _ => liftM (Err (ExpectedMatrixArray (lit "matrix patches") (activation_kind value)))
  end.

Definition resolve_static_patch (context : ActivationEvaluationContext)
    (site : ActivationEvaluationSite) (patch : MatrixPatch) :
    stM DynamicMatrixBudget error MatrixEntries :=
  collect_st (λ '(key, value),
    value ← resolve_value_template (located_value value) context site;
    mret (located_value key, value)) (patch_entries patch).

(** The keys of one patch: new when folded, and axes unless new ones may come. *)
Definition check_patch_key (allow_new_keys : bool) (axes : gset str) (keys : gset str)
    (entry : str * ActivationValue) : result error (gset str) :=
  let normalized := normalize_matrix_key entry.1 in
  _ ← reject (bool_decide (normalized ∈ keys)) DuplicateMatrixKey;
  _ ← reject (negb allow_new_keys && negb (bool_decide (normalized ∈ axes))) UnknownMatrixAxis;
  Ok ({[normalized]} ∪ keys).

Definition validate_patch_keys (patches : list MatrixEntries) (allow_new_keys : bool)
    (axes : list str) : result error unit :=
  let axes : gset str := list_to_set (map normalize_matrix_key axes) in
  try_fold (λ _ patch,
    _ ← try_fold (check_patch_key allow_new_keys axes) ∅ patch;
    Ok tt) tt patches.

Definition resolve_patch_set (patches : MatrixPatchSet) (allow_new_keys : bool)
    (axes : list str) (context : ActivationEvaluationContext) (site : ActivationEvaluationSite) :
    stM DynamicMatrixBudget error (list MatrixEntries) :=
  patches ← match patches with
            | PatchesStatic patches => collect_st (resolve_static_patch context site) patches
            | PatchesExpression expression =>
                value ← liftM (evaluate_value (located_value expression) context site);
                resolve_dynamic_patches value
            end;
  _ ← liftM (validate_patch_keys patches allow_new_keys axes);
  mret patches.

Definition resolve_axis (context : ActivationEvaluationContext) (axis : MatrixAxis) :
    stM DynamicMatrixBudget error (str * list ActivationValue) :=
  values ← match axis_values axis with
           | AxisStatic values =>
               collect_st (λ value,
                 resolve_value_template (located_value value) context SiteMatrixAxis) values
           | AxisExpression expression =>
               value ← liftM (evaluate_value (located_value expression) context SiteMatrixAxis);
               resolve_axis_values value
           end;
  _ ← liftM (reject (Nat.eqb (length values) 0) EmptyMatrixAxis);
  mret (located_value (axis_name axis), values).

Definition structured_matrix (matrix : MatrixTemplate) (context : ActivationEvaluationContext) :
    stM DynamicMatrixBudget error ResolvedMatrix :=
  axes ← collect_st (resolve_axis context) (matrix_axes matrix);
  let axis_names := map fst axes in
  include ← resolve_patch_set (matrix_include matrix) true axis_names context SiteMatrixInclude;
  exclude ← resolve_patch_set (matrix_exclude matrix) false axis_names context SiteMatrixExclude;
  mret (MkResolved axes include exclude).

Definition resolve_structured_matrix (matrix : MatrixTemplate)
    (context : ActivationEvaluationContext) : result error ResolvedMatrix :=
  (structured_matrix matrix context dynamic_budget_default).2.

(** One property of a whole matrix: the axes, includes and excludes so far. *)
Definition whole_matrix_step (state : gset str * ResolvedMatrix)
    (entry : str * ActivationValue) :
    stM DynamicMatrixBudget error (gset str * ResolvedMatrix) :=
  let '(keys, MkResolved axes include exclude) := state in
  let '(key, value) := entry in
  let normalized := normalize_matrix_key key in
  _ ← dynamic_charge_text key;
  _ ← liftM (reject (negb (valid_matrix_key key)) DuplicateMatrixKey);
  keys ← insert_fresh keys normalized DuplicateMatrixKey;
  if str_eqb normalized (normalize_matrix_key (lit "include")) then
    include ← resolve_dynamic_patches value;
    mret (keys, MkResolved axes include exclude)
  else if str_eqb normalized (normalize_matrix_key (lit "exclude")) then
    exclude ← resolve_dynamic_patches value;
    mret (keys, MkResolved axes include exclude)
  else
    _ ← liftM (reject (MAX_MATRIX_AXES <=? len axes)
                 (ActivationLimitExceeded (lit "matrix axes") MAX_MATRIX_AXES));
    values ← resolve_axis_values value;
    _ ← liftM (reject (Nat.eqb (length values) 0) EmptyMatrixAxis);
    mret (keys, MkResolved (axes ++ [(key, values)]) include exclude).

Definition whole_matrix (value : ActivationValue) :
    stM DynamicMatrixBudget error ResolvedMatrix :=
  match value with
  | ActivationObject entries =>
      _ ← dynamic_charge_node;
      _ ← liftM (reject (MAX_MATRIX_OBJECT_ENTRIES <? len entries)
                   (ActivationLimitExceeded (lit "whole matrix entries")
                      MAX_MATRIX_OBJECT_ENTRIES));
      '(_, matrix) ← fold_st whole_matrix_step (∅, MkResolved [] [] []) entries;
      _ ← liftM (reject (Nat.eqb (length (resolved_axes matrix)) 0
                         && Nat.eqb (length (resolved_include matrix)) 0) EmptyMatrix);
      let axis_names := map fst (resolved_axes matrix) in
      _ ← liftM (validate_patch_keys (resolved_include matrix) true axis_names);
      _ ← liftM (validate_patch_keys (resolved_exclude matrix) false axis_names);
      mret matrix
  | _ => liftM (Err (ExpectedMatrixObject (activation_kind value)))
  end.

Definition resolve_whole_matrix (value : ActivationValue) : result error ResolvedMatrix :=
  (whole_matrix value dynamic_budget_default).2.

(** ** Combinations *)

(** An index outside the entries would panic; [set] leaves none. *)
Definition combination_get (self : MatrixCombination) (key : str) : option ActivationValue :=
  index ← combination_lookup self !! normalize_matrix_key key;
  snd <$> combination_entries self !! index.

Definition combination_set (self : MatrixCombination) (key : str) (value : ActivationValue) :
    result error MatrixCombination :=
  let normalized := normalize_matrix_key key in
  let entries := combination_entries self in
  match combination_lookup self !! normalized with
  | Some index =>
      Ok (MkCombination (alter (λ entry, (entry.1, value)) index entries)
            (combination_lookup self))
  | None =>
      _ ← reject (MAX_MATRIX_OBJECT_ENTRIES <=? len entries)
            (ActivationLimitExceeded (lit "expanded matrix entries") MAX_MATRIX_OBJECT_ENTRIES);
      Ok (MkCombination (entries ++ [(key, value)])
            (<[normalized := length entries]> (combination_lookup self)))
  end.

(** Whether an exclude patch matches the combination. *)
Definition combination_matches (self : MatrixCombination) (patch : MatrixEntries) : bool :=
  forallb (λ entry,
    match combination_get self entry.1 with
    | Some original => matrix_value_matches original entry.2
    | None => false
    end) patch.

(** Whether an include patch agrees with the combination where both have a value. *)
Definition include_compatible (self : MatrixCombination) (patch : MatrixEntries) : bool :=
  forallb (λ entry,
    match combination_get self entry.1 with
    | Some original => matrix_values_equal original entry.2
    | None => true
    end) patch.

Definition merge_include (self source : MatrixCombination) (patch : MatrixEntries) :
    result error MatrixCombination :=
  try_fold (λ current entry,
    if is_some (combination_get source entry.1) then Ok current
    else combination_set current entry.1 entry.2) self patch.

(** ** Expansion *)

Definition check_axis_keys (axes : list (str * list ActivationValue)) : result error (gset str) :=
  try_fold (λ keys axis,
    let normalized := normalize_matrix_key axis.1 in
    _ ← reject (bool_decide (normalized ∈ keys)) DuplicateMatrixKey;
    Ok ({[normalized]} ∪ keys)) ∅ axes.

(** One axis: every combination so far with every value of the axis. *)
Definition extend_axis (original : list MatrixCombination)
    (axis : str * list ActivationValue) :
    stM MatrixExpansionBudget error (list MatrixCombination) :=
  let '(name, values) := axis in
  let error :=
    ActivationLimitExceeded (lit "matrix candidate combinations")
      MAX_MATRIX_CANDIDATE_COMBINATIONS in
  next_len ← liftM (ok_or (checked_mul u64_max (len original) (len values)) error);
  _ ← liftM (reject (matrix_candidate_rejection next_len) error);
  _ ← work_charge next_len;
  next ← collect_st (λ combination,
           collect_st (λ value, liftM (combination_set combination name value)) values) original;
  mret (concat next).

(** One include patch on the pairs of original and current combinations. *)
Fixpoint apply_include (patch : MatrixEntries)
    (pairs : list (MatrixCombination * MatrixCombination)) :
    result error (bool * list MatrixCombination) :=
  match pairs with
  | [] => Ok (false, [])
  | (source, current) :: pairs =>
      if include_compatible source patch then
        current ← merge_include current source patch;
        '(_, rest) ← apply_include patch pairs;
        Ok (true, current :: rest)
      else
        '(applied, rest) ← apply_include patch pairs;
        Ok (applied, current :: rest)
  end.

(** A patch that fits no original combination becomes one of its own. *)
Definition standalone (patch : MatrixEntries) :
    stM MatrixExpansionBudget error MatrixCombination :=
  fold_st (λ combination entry,
    _ ← work_charge 1;
    liftM (combination_set combination entry.1 entry.2)) combination_default patch.

(** [zip] pairs the originals with the combinations they became; the ones
    appended by earlier patches come after them and are not touched. *)
Definition include_step (original : list MatrixCombination) (expansion_limit : Z)
    (expanded : list MatrixCombination) (patch : MatrixEntries) :
    stM MatrixExpansionBudget error (list MatrixCombination) :=
  '(applied, merged) ← liftM (apply_include patch (zip original expanded));
  let expanded := merged ++ drop (length original) expanded in
  if applied : bool then mret expanded
  else
    _ ← liftM (reject (expansion_limit <=? len expanded)
                 (MatrixExpansionLimitExceeded expansion_limit));
    combination ← standalone patch;
    mret (expanded ++ [combination]).

Definition sum_len {A : Type} (l : list (list A)) : Z := sum_by len l.

Definition expand (matrix : ResolvedMatrix) (expansion_limit : Z) :
    stM MatrixExpansionBudget error (list MatrixCombination) :=
  let axes := resolved_axes matrix in
  _ ← liftM (check_axis_keys axes);
  original ← fold_st extend_axis
               (match axes with [] => [] | _ => [combination_default] end) axes;
  _ ← work_charge_product (len original) (sum_len (resolved_exclude matrix));
  let original :=
    List.filter (λ combination,
      negb (existsb (combination_matches combination) (resolved_exclude matrix))) original in
  _ ← liftM (reject (expansion_limit <? len original)
               (MatrixExpansionLimitExceeded expansion_limit));
  _ ← work_charge_product (len original) (sum_len (resolved_include matrix));
  fold_st (include_step original expansion_limit) original (resolved_include matrix).

Definition expand_matrix (matrix : ResolvedMatrix) (expansion_limit : Z) :
    result error (list MatrixCombination) :=
  (expand matrix expansion_limit expansion_budget_default).2.

Definition resolve_matrix (matrix : MatrixTemplate) (expansion_limit : Z)
    (context : ActivationEvaluationContext) : result error (list MatrixCombination) :=
  specification ← match matrix_expression matrix with
                  | Some expression =>
                      value ← evaluate_value (located_value expression) context SiteWholeMatrix;
                      resolve_whole_matrix value
                  | None => resolve_structured_matrix matrix context
                  end;
  expand_matrix specification expansion_limit.

(** ** Values of the runtime context *)

Fixpoint to_context_value (self : ActivationValue) : result error ContextValue :=
  match self with
  | ActivationNull => Ok ContextNull
  | ActivationBoolean value => Ok (ContextBoolean value)
  | ActivationNumber bits =>
      let value := from_bits bits in
      _ ← reject (negb (is_finite value)) NonFiniteMatrixNumber;
      Ok (context_number value)
  | ActivationString value => Ok (ContextString value)
  | ActivationArray values =>
      values ← (fix go l := match l with
                | [] => Ok []
                | v :: l => v ← to_context_value v; l ← go l; Ok (v :: l)
                end) values;
      map_err ActivationRuntimeContext (context_array values)
  | ActivationObject entries =>
      values ← (fix go (m : TextMap ContextValue) l := match l with
                | [] => Ok m
                | (key, v) :: l =>
                    v ← to_context_value v;
                    _ ← reject (tmap_contains_key m key) DuplicateMatrixKey;
                    go (tmap_insert key v m) l
                end) [] entries;
      map_err ActivationRuntimeContext (context_object values)
  end.

Definition into_context_value (self : MatrixCombination) : result error ContextValue :=
  values ← (fix go (l : MatrixEntries) := match l with
            | [] => Ok []
            | (key, v) :: l => v ← to_context_value v; l ← go l; Ok ((key, v) :: l)
            end) (combination_entries self);
  map_err ActivationRuntimeContext (context_object (tmap_from values)).

End Expansion.
