(* ===== verification/GithubActivation.v ===== *)
(** * GithubActivation: the GitHub expression adapter of job activation

    Models [crates/automata-ci-workflow-service/src/github_activation.rs]: the
    provider snapshot that may be read before a job has a runner, the contexts
    an activation evaluates in, and [GithubActivationSession], the
    implementation of [LogicalActivationSession] by the expression evaluator of
    [ExpressionEvaluator]. Arrays and objects built here are allocations of
    the caller's, numbered above those of the provider's value. *)

From S2P Require Import Prelude Text Float64 Log ExpressionProgram ExpressionValue.
From S2P Require Import ExpressionFunctions ExpressionEvaluator WorkflowTemplate WorkflowStrategy.
From S2P Require Import RuntimeContext MatrixExpansion.

Open Scope Z_scope.

(** [char::to_lowercase] is a table of the Unicode standard: a parameter, of
    which only the ASCII range is ever assumed. *)
Class LowerCaseTable := to_lowercase : Z → list Z.

Class LowerCaseTableLaws (L : LowerCaseTable) : Prop := {
  to_lowercase_ascii : ∀ c, is_ascii c = true → @to_lowercase L c = [to_ascii_lowercase c]
}.

Definition ascii_lower_case_table : LowerCaseTable := λ c, [to_ascii_lowercase c].

Lemma ascii_lower_case_table_laws : LowerCaseTableLaws ascii_lower_case_table.
Proof. by split. Qed.

Inductive GithubActivationEvaluationError :=
| GithubContextMustBeObject
| UnsafeGithubContextProperty
| PreparationRequiresBaseContext
| ExpectedSingleProgram (received : Z)
| TemplateProgramCountMismatch
| RenderedTemplateTooLarge
| ActivationContextError
| ActivationValueError (source : GithubValueError)
| ActivationEvaluationError (source : GithubExpressionEvaluationErrorKind)
| ActivationSensitiveValue
| ExpectedPositiveInteger
| ExpectedBoolean
| UnavailableFunction.

Abbreviation gresult := (result GithubActivationEvaluationError) (only parsing).

Section Adapter.
Context {T : CaseTable} {L : LowerCaseTable} {S : SerdeJson}.

(** ** Keys *)

Definition activation_ordinal_key (value : str) : str := value ≫= to_lowercase.

Definition activation_ordinal_ignore_case (left_ right_ : str) : bool :=
  eq_ignore_ascii_case left_ right_
  || str_eqb (activation_ordinal_key left_) (activation_ordinal_key right_).

(** ** The provider snapshot *)

Definition activation_safe_properties : list str :=
  [lit "actor"; lit "actor_id"; lit "api_url"; lit "base_ref"; lit "event";
   lit "event_name"; lit "graphql_url"; lit "head_ref"; lit "ref"; lit "ref_name";
   lit "ref_protected"; lit "ref_type"; lit "repository"; lit "repository_id";
   lit "repository_owner"; lit "repository_owner_id"; lit "repositoryurl";
   lit "retention_days"; lit "run_attempt"; lit "run_id"; lit "run_number";
   lit "server_url"; lit "sha"; lit "triggering_actor"; lit "workflow"; lit "workflow_ref";
   lit "workflow_sha"].

Definition is_activation_safe_github_property (property : str) : bool :=
  existsb (str_eqb (activation_ordinal_key property)) activation_safe_properties.

(** The value of a context that [new] accepted. *)
Record GithubActivationContext := MkGithubContext { github_context_value : GithubValue }.

Definition github_context_new (value : GithubValue) : gresult GithubActivationContext :=
  match value with
  | VObject object =>
      _ ← reject (is_sensitive value) ActivationSensitiveValue;
      _ ← reject (existsb (λ entry, negb (is_activation_safe_github_property entry.1))
                    (object_entries object)) UnsafeGithubContextProperty;
      Ok (MkGithubContext value)
  | _ => Err GithubContextMustBeObject
  end.

(** ** Values *)

(** The least number above the allocations of a value. *)
Definition above (arc : Allocation) : Z := match arc with Given n => n + 1 | Made _ _ => 0 end.

Fixpoint first_allocation (value : GithubValue) : Z :=
  match value with
  | VArray arc values => foldr (λ v n, Z.max (first_allocation v) n) (above arc) values
  | VObject (MkObject arc entries _) =>
      foldr (λ entry n, Z.max (first_allocation entry.2) n) (above arc) entries
  | VSensitive payload => first_allocation payload
  | VNull | VBoolean _ | VNumber _ | VString _ => 0
  end.

(** A computation that makes allocations; the state is the next one. *)
Definition Alloc (A : Type) : Type := stM Z GithubActivationEvaluationError A.
#[export] Instance alloc_ret : MRet Alloc := stM_ret Z GithubActivationEvaluationError.
#[export] Instance alloc_bind : MBind Alloc := stM_bind Z GithubActivationEvaluationError.

Definition allocate : Alloc Allocation := λ next, (next + 1, Ok (Given next)).

Definition activation_object (entries : list (str * GithubValue)) : Alloc GithubValue :=
  arc ← allocate;
  object ← liftM (map_err ActivationValueError (object_new arc entries));
  mret (VObject object).

Fixpoint context_to_github_value (value : ContextValue) : Alloc GithubValue :=
  match value with
  | ContextNull => mret VNull
  | ContextBoolean value => mret (VBoolean value)
  | ContextNumber bits => mret (value_number (from_bits bits))
  | ContextString value => mret (VString value)
  | ContextArray values =>
      values ← collect_st context_to_github_value values;
      arc ← allocate;
      liftM (map_err ActivationValueError (value_array arc values))
  | ContextObject values =>
      entries ← collect_st (λ '(key, value),
        value ← context_to_github_value value; mret (key, value)) values;
      activation_object entries
  end.

Definition need_result_text (conclusion : JobConclusion) : str :=
  match conclusion with
  | ConclusionSuccess => lit "success"
  | ConclusionFailure | ConclusionTimedOut => lit "failure"
  | ConclusionCancelled => lit "cancelled"
  | ConclusionSkipped => lit "skipped"
  end.

(** Outputs derived from secrets are left out. *)
Definition public_outputs (outputs : TextMap NeedOutput) : list (str * GithubValue) :=
  omap (λ '(key, output), (λ value, (key, VString value)) <$> public_value output) outputs.

Definition needs_value (needs : TextMap NeedContext) : Alloc GithubValue :=
  entries ← collect_st (λ '(key, need),
    outputs ← activation_object (public_outputs (need_outputs need));
    value ← activation_object
              [(lit "result", VString (need_result_text (need_result need)));
               (lit "outputs", outputs)];
    mret (key, value)) needs;
  activation_object entries.

Definition strategy_value (strategy : StrategyContext) : Alloc GithubValue :=
  activation_object
    [(lit "fail-fast", VBoolean (context_fail_fast strategy));
     (lit "job-index", value_number (of_int (context_job_index strategy)));
     (lit "job-total", value_number (of_int (context_job_total strategy)));
     (lit "max-parallel", value_number (of_int (context_max_parallel strategy)))].

(** The function [activation_value] of the adapter. *)
Fixpoint from_github_value (value : GithubValue) : gresult ActivationValue :=
  match value with
  | VNull => Ok ActivationNull
  | VBoolean value => Ok (ActivationBoolean value)
  | VNumber bits => Ok (ActivationNumber bits)
  | VString value => Ok (ActivationString value)
  | VArray _ values =>
      values ← (fix go l := match l with
                | [] => Ok []
                | v :: l => v ← from_github_value v; l ← go l; Ok (v :: l)
                end) values;
      Ok (ActivationArray values)
  | VObject (MkObject _ entries _) =>
      entries ← (fix go l := match l with
                 | [] => Ok []
                 | (key, v) :: l => v ← from_github_value v; l ← go l; Ok ((key, v) :: l)
                 end) entries;
      Ok (ActivationObject entries)
  | VSensitive _ => Err ActivationSensitiveValue
  end.

(** ** Matrix values *)

(** Composite values do not reach it. *)
Definition github_scalar (value : ActivationValue) : GithubValue :=
  match value with
  | ActivationNull => VNull
  | ActivationBoolean value => VBoolean value
  | ActivationNumber bits => value_number (from_bits bits)
  | ActivationString value => VString value
  | ActivationArray _ | ActivationObject _ => VNull
  end.

Definition find_entry (key : str) (entries : MatrixEntries) : option ActivationValue :=
  snd <$> List.find (λ entry, activation_ordinal_ignore_case key entry.1) entries.

(** [left.iter().zip(right).all(f)]. *)
Definition zip_all {A B : Type} (f : A → B → bool) : list A → list B → bool :=
  fix go left_ right_ := match left_, right_ with
  | l :: left_, r :: right_ => f l r && go left_ right_
  | _, _ => true
  end.

Fixpoint github_matrix_values_equal (left_ right_ : ActivationValue) : bool :=
  match left_, right_ with
  | ActivationArray left_, ActivationArray right_ =>
      Nat.eqb (length left_) (length right_)
      && zip_all github_matrix_values_equal left_ right_
  | ActivationObject left_, ActivationObject right_ =>
      Nat.eqb (length left_) (length right_)
      && forallb (λ '(key, l),
           match find_entry key right_ with
           | Some r => github_matrix_values_equal l r
           | None => false
           end) left_
  | ActivationArray _, _ | ActivationObject _, _
  | _, ActivationArray _ | _, ActivationObject _ => false
  | _, _ => abstract_equal (github_scalar left_) (github_scalar right_)
  end.

(** The recursion is on the patch; its keys are looked up in the original. *)
Fixpoint github_matrix_value_matches (original patch : ActivationValue) {struct patch} : bool :=
  match original, patch with
  | ActivationArray original, ActivationArray patch =>
      Nat.eqb (length original) (length patch)
      && zip_all (λ p o, github_matrix_value_matches o p) patch original
  | ActivationObject original, ActivationObject patch =>
      forallb (λ '(key, p),
        match snd <$> List.find (λ entry, activation_ordinal_ignore_case entry.1 key) original with
        | Some o => github_matrix_value_matches o p
        | None => false
        end) patch
  | ActivationArray _, _ | ActivationObject _, _
  | _, ActivationArray _ | _, ActivationObject _ => false
  | _, _ => abstract_equal (github_scalar original) (github_scalar patch)
  end.

(** ** Sessions *)

Record GithubActivationSession := MkGithubSession {
  session_limits : GithubExpressionLimits;
  session_named : TextMap GithubValue;
  session_base_context : GithubEvaluationContext;
  session_status : GithubStatus;
  session_next_allocation : Z
}.

Record GithubLogicalActivationEvaluator := MkGithubEvaluator {
  evaluator_limits : GithubExpressionLimits;
  evaluator_github : GithubActivationContext
}.

Definition github_status (status : ActivationStatus) : GithubStatus :=
  match status with
  | ActivationSuccess => StatusSuccess
  | ActivationFailure => StatusFailure
  | ActivationCancelled => StatusCancelled
  | ActivationSkipped => StatusSkipped
  end.

(** [MapContext::without_extensions]. *)
Definition without_extensions (named : TextMap GithubValue) (status : GithubStatus) :
    gresult GithubEvaluationContext :=
  map_err (λ _, ActivationContextError) (map_context_new named status no_extension_functions).

Definition base_values (self : GithubLogicalActivationEvaluator)
    (context : ActivationEvaluationContext) : Alloc (TextMap GithubValue) :=
  inputs ← context_to_github_value (evaluation_inputs context);
  vars ← context_to_github_value (evaluation_vars context);
  needs ← needs_value (evaluation_needs context);
  mret (tmap_from
          [(lit "github", github_context_value (evaluator_github self));
           (lit "inputs", inputs); (lit "vars", vars); (lit "needs", needs)]).

Definition github_prepare (self : GithubLogicalActivationEvaluator)
    (context : ActivationEvaluationContext) : gresult GithubActivationSession :=
  _ ← reject (is_some (evaluation_matrix context) || is_some (evaluation_strategy context))
        PreparationRequiresBaseContext;
  let '(next, named) :=
    base_values self context (first_allocation (github_context_value (evaluator_github self))) in
  named ← named;
  let status := github_status (evaluation_status context) in
  base_context ← without_extensions named status;
  Ok (MkGithubSession (evaluator_limits self) named base_context status next).

Definition single_program (expression : CompiledExpressionTemplate) : gresult ExpressionProgram :=
  match template_programs expression with
  | [program] => Ok program
  | programs => Err (ExpectedSingleProgram (len programs))
  end.

(** The base contexts and the overlays of a matrix and a strategy. *)
Definition overlay_values (self : GithubActivationSession)
    (context : ActivationEvaluationContext) : Alloc (TextMap GithubValue) :=
  named ← match evaluation_matrix context with
          | Some matrix =>
              value ← context_to_github_value matrix;
              mret (tmap_insert (lit "matrix") value (session_named self))
          | None => mret (session_named self)
          end;
  match evaluation_strategy context with
  | Some strategy =>
      value ← strategy_value strategy;
      mret (tmap_insert (lit "strategy") value named)
  | None => mret named
  end.

Definition session_context (self : GithubActivationSession)
    (context : ActivationEvaluationContext) : gresult GithubEvaluationContext :=
  if negb (is_some (evaluation_matrix context)) && negb (is_some (evaluation_strategy context))
  then Ok (session_base_context self)
  else
    named ← (overlay_values self context (session_next_allocation self)).2;
    without_extensions named (session_status self).

Definition check_site_function (site : ActivationEvaluationSite)
    (instruction : ExpressionInstruction) : gresult unit :=
  match instruction with
  | ICall name _ =>
      let status_function :=
        existsb (eq_ignore_ascii_case name)
          [lit "always"; lit "success"; lit "failure"; lit "cancelled"] in
      reject (eq_ignore_ascii_case name (lit "hashfiles")
              || (status_function && negb (bool_decide (site = SiteJobCondition))))
        UnavailableFunction
  | _ => Ok tt
  end.

Definition github_validate_site (expression : CompiledExpressionTemplate)
    (site : ActivationEvaluationSite) : gresult unit :=
  try_fold (λ _ program,
    try_fold (λ _ instruction, check_site_function site instruction) tt
      (program_instructions program)) tt (template_programs expression).

Definition session_evaluate (self : GithubActivationSession) (program : ExpressionProgram)
    (context : GithubEvaluationContext) : gresult GithubValue :=
  map_err ActivationEvaluationError (evaluate (session_limits self) program context).

Definition evaluate_single (self : GithubActivationSession)
    (expression : CompiledExpressionTemplate) (context : ActivationEvaluationContext) :
    gresult GithubValue :=
  program ← single_program expression;
  context ← session_context self context;
  session_evaluate self program context.

Definition github_evaluate_value (self : GithubActivationSession)
    (expression : CompiledExpressionTemplate) (context : ActivationEvaluationContext) :
    gresult ActivationValue :=
  value ← evaluate_single self expression context;
  from_github_value value.

(** The programs left and the text rendered so far. *)
Definition render_segment (self : GithubActivationSession) (context : GithubEvaluationContext)
    (state : list ExpressionProgram * str) (segment : ExpressionSegment) :
    gresult (list ExpressionProgram * str) :=
  let '(programs, rendered) := state in
  next ← match segment with
         | SegLiteral value => Ok (programs, rendered ++ value)
         | SegEvaluation _ =>
             match programs with
             | [] => Err TemplateProgramCountMismatch
             | program :: programs =>
                 value ← session_evaluate self program context;
                 _ ← reject (is_sensitive value) ActivationSensitiveValue;
                 Ok (programs, rendered ++ to_string value)
             end
         end;
  _ ← reject (MAX_LOGICAL_FIELD_BYTES <? str_len next.2) RenderedTemplateTooLarge;
  Ok next.

Definition github_evaluate_string (self : GithubActivationSession)
    (expression : CompiledExpressionTemplate) (context : ActivationEvaluationContext) :
    gresult str :=
  context ← session_context self context;
  '(programs, rendered) ← try_fold (render_segment self context)
    (template_programs expression, [])
    (plan_expression_segments (template_expression expression));
  _ ← reject (negb (Nat.eqb (length programs) 0)) TemplateProgramCountMismatch;
  Ok rendered.

Definition github_evaluate_condition (self : GithubActivationSession)
    (expression : CompiledExpressionTemplate) (context : ActivationEvaluationContext) :
    gresult bool :=
  program ← single_program expression;
  context ← session_context self context;
  map_err ActivationEvaluationError (evaluate_condition (session_limits self) program context).

Definition github_evaluate_boolean (self : GithubActivationSession)
    (expression : CompiledExpressionTemplate) (context : ActivationEvaluationContext) :
    gresult bool :=
  value ← evaluate_single self expression context;
  ok_or (as_bool value) ExpectedBoolean.

Definition github_evaluate_positive_integer (self : GithubActivationSession)
    (expression : CompiledExpressionTemplate) (context : ActivationEvaluationContext) :
    gresult Z :=
  value ← evaluate_single self expression context;
  match value with
  | VNumber bits =>
      let number := from_bits bits in
      _ ← reject (negb (is_finite number) || f64_ltb number f64_zero || f64_eqb number f64_zero)
            ExpectedPositiveInteger;
      ok_or (parse_uint u32_max (to_string value)) ExpectedPositiveInteger
  | _ => Err ExpectedPositiveInteger
  end.

(** The implementation of the trait. *)
#[export] Instance github_session (self : GithubActivationSession) :
    LogicalActivationSession GithubActivationEvaluationError := {
  validate_expression_site := github_validate_site;
  session_evaluate_value := github_evaluate_value self;
  session_evaluate_string := github_evaluate_string self;
  session_evaluate_condition := github_evaluate_condition self;
  session_evaluate_boolean := github_evaluate_boolean self;
  session_evaluate_positive_integer := github_evaluate_positive_integer self;
  normalize_matrix_key := activation_ordinal_key;
  matrix_values_equal := github_matrix_values_equal;
  matrix_value_matches := github_matrix_value_matches
}.

End Adapter.
