(* ===== verification/MatrixTheorems.v ===== *)
(** * MatrixTheorems: what a matrix expands to

    The specification of [expand_matrix] on lists of entries, without indices,
    budgets or early returns: the Cartesian product of the axes in order, less
    the excluded combinations, each merged with the include patches that agree
    with it, followed by the patches that agree with none. The lemmas show
    that the code computes it, exactly when the product, the work and the
    results stay within their limits. *)

From S2P Require Import Prelude Text Float64 ExpressionValue ExpressionFunctions WorkflowTemplate.
From S2P Require Import WorkflowStrategy RuntimeContext MatrixExpansion GithubActivation.
From stdpp Require Import gmap.

Open Scope Z_scope.

Section Spec.
Context {E J P : Type} `{session : !LogicalActivationSession E}.
Implicit Types (es : MatrixEntries) (patch : MatrixEntries) (key : str) (v : ActivationValue).

(** ** Entries as a map from folded keys *)

Definition key_folds es : list str := map (λ e, normalize_matrix_key e.1) es.

Fixpoint entry_value es key : option ActivationValue :=
  match es with
  | [] => None
  | (k, v) :: es =>
      if str_eqb (normalize_matrix_key k) (normalize_matrix_key key) then Some v
      else entry_value es key
  end.

Fixpoint put es key v : MatrixEntries :=
  match es with
  | [] => [(key, v)]
  | (k, w) :: es =>
      if str_eqb (normalize_matrix_key k) (normalize_matrix_key key) then (k, v) :: es
      else (k, w) :: put es key v
  end.

(** The combination with these entries and the index that belongs to them. *)
Definition index_entries es : gmap str nat :=
  list_to_map (imap (λ i e, (normalize_matrix_key (e : str * ActivationValue).1, i)) es).
Definition combination_of es : MatrixCombination := MkCombination es (index_entries es).

Lemma str_eqb_true (s t : str) : str_eqb s t = true ↔ s = t.
Proof. apply bool_decide_eq_true. Qed.

Lemma str_eqb_comm (s t : str) : str_eqb s t = str_eqb t s.
Proof. unfold str_eqb. apply bool_decide_ext. naive_solver. Qed.

Lemma index_entries_keys es :
  (imap (λ i e, (normalize_matrix_key (e : str * ActivationValue).1, i)) es).*1 = key_folds es.
Proof.
  rewrite fmap_imap. unfold key_folds.
  by apply (imap_const (λ e : str * ActivationValue, normalize_matrix_key e.1)).
Qed.

Lemma index_entries_Some es k i :
  NoDup (key_folds es) →
  index_entries es !! k = Some i ↔ ∃ e, es !! i = Some e ∧ normalize_matrix_key e.1 = k.
Proof.
  intros HN. unfold index_entries.
  rewrite <- elem_of_list_to_map by by rewrite index_entries_keys.
  rewrite elem_of_lookup_imap. naive_solver.
Qed.

Lemma entry_value_Some es key v :
  NoDup (key_folds es) →
  entry_value es key = Some v ↔
    ∃ i k, es !! i = Some (k, v) ∧ normalize_matrix_key k = normalize_matrix_key key.
Proof.
  induction es as [|[k w] es IH]; cbn; intros HN; [naive_solver|].
  apply NoDup_cons in HN as [Hk HN]. destruct (str_eqb _ _) eqn:Ek.
  - apply str_eqb_true in Ek. split; [intros [= ->]; by exists 0%nat, k|].
    intros ([|i] & k' & Hi & Hk'); [naive_solver|]. destruct Hk. rewrite Ek, <- Hk'.
    apply (list_elem_of_fmap_2 (λ e : str * ActivationValue, normalize_matrix_key e.1) es (k', v)).
    by eapply list_elem_of_lookup_2.
  - rewrite IH by done. split.
    + intros (i & k' & ? & ?). by exists (S i), k'.
    + intros ([|i] & k' & Hi & Hk'); [|by exists i, k'].
      cbn in Hi. injection Hi as -> ->. by apply str_eqb_true in Hk'; rewrite Ek in Hk'.
Qed.

Lemma combination_get_of es key :
  NoDup (key_folds es) → combination_get (combination_of es) key = entry_value es key.
Proof.
  intros HN. apply option_eq. intros v. rewrite entry_value_Some by done.
  unfold combination_get. cbn. unfold mbind. split.
  - destruct (index_entries es !! _) as [i|] eqn:Ei; cbn; [|done].
    apply index_entries_Some in Ei as ([k w] & Hi & Hk); [|done].
    rewrite Hi. cbn. intros [= ->]. by exists i, k.
  - intros (i & k & Hi & Hk). assert (index_entries es !! normalize_matrix_key key = Some i) as ->.
    { apply index_entries_Some; [done|]. by exists (k, v). }
    cbn. by rewrite Hi.
Qed.

Lemma put_fresh es key v :
  normalize_matrix_key key ∉ key_folds es → put es key v = es ++ [(key, v)].
Proof.
  induction es as [|[k w] es IH]; cbn; intros Hk; [done|].
  apply not_elem_of_cons in Hk as [Hk Hes]. destruct (str_eqb _ _) eqn:Ek.
  - by apply str_eqb_true in Ek.
  - by rewrite IH.
Qed.

Lemma put_old es key v i e :
  NoDup (key_folds es) → es !! i = Some e → normalize_matrix_key e.1 = normalize_matrix_key key →
  put es key v = alter (λ entry, (entry.1, v)) i es.
Proof.
  revert i. induction es as [|[k w] es IH]; intros [|i]; cbn; intros HN Hi Hk; try done.
  - injection Hi as <-. cbn in Hk. by rewrite (proj2 (str_eqb_true _ _) Hk).
  - apply NoDup_cons in HN as [Hfresh HN]. destruct (str_eqb _ _) eqn:Ek.
    + destruct Hfresh. apply str_eqb_true in Ek. rewrite Ek, <- Hk.
      apply (list_elem_of_fmap_2 (λ e : str * ActivationValue, normalize_matrix_key e.1) es e).
      by eapply list_elem_of_lookup_2.
    + f_equal. by apply IH.
Qed.

Lemma key_folds_app es fs : key_folds (es ++ fs) = key_folds es ++ key_folds fs.
Proof. apply map_app. Qed.

Lemma key_folds_put es key v :
  key_folds (put es key v) =
    if decide (normalize_matrix_key key ∈ key_folds es) then key_folds es
    else key_folds es ++ [normalize_matrix_key key].
Proof.
  induction es as [|[k w] es IH]; [done|]. cbn [put]. destruct (str_eqb _ _) eqn:Ek.
  - apply str_eqb_true in Ek. rewrite decide_True; [done|]. cbn. rewrite Ek. apply list_elem_of_here.
  - assert (normalize_matrix_key key ≠ normalize_matrix_key k).
    { intros Heq. rewrite Heq, (proj2 (str_eqb_true _ _) eq_refl) in Ek. done. }
    cbn. fold (key_folds (put es key v)). fold (key_folds es). rewrite IH.
    destruct (decide (_ ∈ key_folds es)) as [Hin|Hin]; [rewrite decide_True|rewrite decide_False];
      set_solver.
Qed.

Lemma length_folds es : length (key_folds es) = length es.
Proof. apply length_map. Qed.

Lemma index_entries_folds es fs :
  key_folds es = key_folds fs → index_entries es = index_entries fs.
Proof.
  intros Heq. assert (∀ l, index_entries l = list_to_map (imap (λ i k, (k, i)) (key_folds l))) as H.
  { intros l. unfold index_entries. f_equal.
    exact (eq_sym (imap_fmap (λ i k, (k, i)) (λ e, normalize_matrix_key (e : str * ActivationValue).1) l)). }
  by rewrite !H, Heq.
Qed.

Lemma index_entries_snoc es key v :
  normalize_matrix_key key ∉ key_folds es →
  index_entries (es ++ [(key, v)]) =
    <[normalize_matrix_key key := length es]> (index_entries es).
Proof.
  intros Hk. unfold index_entries. rewrite imap_app. cbn. rewrite Nat.add_0_r.
  apply list_to_map_snoc. by rewrite index_entries_keys.
Qed.

(** ** Combinations within their limits *)

Definition wf_entries es : Prop := NoDup (key_folds es) ∧ len es ≤ MAX_MATRIX_OBJECT_ENTRIES.

Lemma NoDup_put es key v : NoDup (key_folds es) → NoDup (key_folds (put es key v)).
Proof.
  intros HN. rewrite key_folds_put. destruct (decide _) as [Hin|Hin]; [done|].
  apply NoDup_app. split; [done|]. split; [|apply NoDup_singleton]. set_solver.
Qed.

Lemma combination_set_Ok es key v c :
  wf_entries es →
  (combination_set (combination_of es) key v : result (LogicalActivationError E J P) _) = Ok c ↔
    wf_entries (put es key v) ∧ c = combination_of (put es key v).
Proof.
  intros [HN Hlen]. unfold combination_set. cbn.
  destruct (index_entries es !! _) as [i|] eqn:Ei.
  - apply index_entries_Some in Ei as (e & Hi & Hk); [|done].
    rewrite (put_old _ _ _ _ _ HN Hi Hk).
    assert (key_folds (alter (λ entry, (entry.1, v)) i es) = key_folds es) as Hf.
    { apply list_eq. intros j. unfold key_folds. rewrite !list_lookup_fmap.
      destruct (decide (i = j)) as [<-|Hij]; [rewrite list_lookup_alter_eq|
        rewrite list_lookup_alter_ne by done; done].
      by destruct (es !! i). }
    unfold combination_of. rewrite (index_entries_folds _ _ Hf). unfold wf_entries.
    rewrite Hf. unfold len. rewrite length_alter. naive_solver.
  - assert (normalize_matrix_key key ∉ key_folds es) as Hk.
    { intros (e & He & Hin)%list_elem_of_fmap. apply list_elem_of_lookup in Hin as [i Hi].
      assert (index_entries es !! normalize_matrix_key key = Some i); [|congruence].
      apply index_entries_Some; eauto. }
    pose proof (NoDup_put _ key v HN) as HN'. rewrite put_fresh in * by done.
    unfold combination_of. rewrite index_entries_snoc by done. unfold wf_entries.
    unfold len in *. rewrite length_app. cbn. destruct (Z.leb_spec MAX_MATRIX_OBJECT_ENTRIES
      (Z.of_nat (length es))); cbn; split; [done|lia|intros [= <-]|intros [_ ->]; done].
    split; [split; [done|lia]|done].
Qed.

(** ** The specification *)

(** Every choice of one value per axis, the first axis outermost. *)
Fixpoint product (axes : list (str * list ActivationValue)) : list MatrixEntries :=
  match axes with
  | [] => [[]]
  | (name, values) :: axes =>
      flat_map (λ v, map (cons (name, v)) (product axes)) values
  end.

Definition candidates (matrix : ResolvedMatrix) : list MatrixEntries :=
  match resolved_axes matrix with [] => [] | axes => product axes end.

(** A patch excludes the combinations that have a matching value at each of
    its keys, and includes into those that differ from it at none. *)
Definition excludes es patch : bool :=
  forallb (λ entry,
    match entry_value es entry.1 with
    | Some original => matrix_value_matches original entry.2
    | None => false
    end) patch.

Definition agrees es patch : bool :=
  forallb (λ entry,
    match entry_value es entry.1 with
    | Some original => matrix_values_equal original entry.2
    | None => true
    end) patch.

Definition originals (matrix : ResolvedMatrix) : list MatrixEntries :=
  List.filter (λ es, negb (existsb (excludes es) (resolved_exclude matrix))) (candidates matrix).

(** The entries of a patch whose keys the original does not have. *)
Definition overlay original es patch : MatrixEntries :=
  foldl (λ es entry, if is_some (entry_value original entry.1) then es else put es entry.1 entry.2)
    es patch.

Definition include_into original es patch : MatrixEntries :=
  if agrees original patch then overlay original es patch else es.

Definition included (patches : list MatrixEntries) original : MatrixEntries :=
  foldl (include_into original) original patches.

(** A patch of its own, laid over nothing: the last of its values at a key. *)
Definition from_patch patch : MatrixEntries := overlay [] [] patch.

Definition orphans (os : list MatrixEntries) (patches : list MatrixEntries) : list MatrixEntries :=
  List.filter (λ patch, negb (existsb (λ original, agrees original patch) os)) patches.

Definition expansion (matrix : ResolvedMatrix) : list MatrixEntries :=
  let os := originals matrix in
  let patches := resolved_include matrix in
  map (included patches) os ++ map from_patch (orphans os patches).

(** How many combinations there are after each axis. *)
Fixpoint prefix_products (n : Z) (axes : list (str * list ActivationValue)) : list Z :=
  match axes with
  | [] => []
  | (_, values) :: axes => n * len values :: prefix_products (n * len values) axes
  end.

Definition expansion_cost (matrix : ResolvedMatrix) : Z :=
  let os := originals matrix in
  let patches := resolved_include matrix in
  sum_by id (prefix_products 1 (resolved_axes matrix))
  + len (candidates matrix) * sum_len (resolved_exclude matrix)
  + len os * sum_len patches
  + sum_len (orphans os patches).

(** The limits under which a matrix has an expansion. *)
Definition fits (matrix : ResolvedMatrix) (limit : Z) : Prop :=
  NoDup (map (λ axis, normalize_matrix_key axis.1) (resolved_axes matrix)) ∧
  Forall (λ n, n ≤ MAX_MATRIX_CANDIDATE_COMBINATIONS)
    (prefix_products 1 (resolved_axes matrix)) ∧
  expansion_cost matrix ≤ MAX_MATRIX_EXPANSION_WORK ∧
  len (expansion matrix) ≤ limit ∧
  Forall (λ es, len es ≤ MAX_MATRIX_OBJECT_ENTRIES) (expansion matrix).

(** ** Work *)

Lemma work_charge_Ok (n w : Z) b u :
  0 ≤ n → 0 ≤ w →
  (work_charge n : stM _ (LogicalActivationError E J P) _) (MkExpansionBudget w) = (b, Ok u) ↔
    w + n ≤ MAX_MATRIX_EXPANSION_WORK ∧ b = MkExpansionBudget (w + n).
Proof.
  intros Hn Hw. unfold work_charge, checked_add, matrix_expansion_work_rejection. cbn.
  destruct u. destruct (Z.leb_spec (w + n) u64_max) as [Hle|Hgt].
  - unfold reject. destruct (Z.ltb_spec MAX_MATRIX_EXPANSION_WORK (w + n)); split; intros H';
      naive_solver lia.
  - split; [done|]. intros [Hle _]. unfold u64_max, MAX_MATRIX_EXPANSION_WORK in *. lia.
Qed.

Lemma work_charge_product_Ok (n k w : Z) b u :
  0 ≤ n → 0 ≤ k → 0 ≤ w →
  (work_charge_product n k : stM _ (LogicalActivationError E J P) _) (MkExpansionBudget w)
    = (b, Ok u) ↔
    w + n * k ≤ MAX_MATRIX_EXPANSION_WORK ∧ b = MkExpansionBudget (w + n * k).
Proof.
  intros Hn Hk Hw. unfold work_charge_product. rewrite bind_st_Ok.
  setoid_rewrite liftM_Ok. setoid_rewrite ok_or_Ok. setoid_rewrite checked_mul_Some. split.
  - intros (? & ? & (-> & -> & _) & Hc). apply work_charge_Ok in Hc; [done|nia|done].
  - intros Hc. exists (MkExpansionBudget w), (n * k). split.
    + split_and!; [done..|]. unfold u64_max, MAX_MATRIX_EXPANSION_WORK in *. lia.
    + apply work_charge_Ok; [nia|done|done].
Qed.

(** ** The axes *)

Lemma collect_st_pure {S X Y F : Type} (f : X → stM S F Y) (g : X → Y) (l : list X) (s : S) :
  (∀ x, x ∈ l → f x s = (s, Ok (g x))) → collect_st f l s = (s, Ok (map g l)).
Proof.
  induction l as [|x l IH]; intros Hf; [done|].
  cbn. unfold mbind, stM_bind in *. rewrite Hf by apply list_elem_of_here.
  rewrite IH; [done|]. intros y Hy. apply Hf. by apply list_elem_of_further.
Qed.

Definition extend (os : list MatrixEntries) (axis : str * list ActivationValue) :
    list MatrixEntries :=
  flat_map (λ o, map (λ v, o ++ [(axis.1, v)]) axis.2) os.

Lemma foldl_extend os axes :
  foldl extend os axes = flat_map (λ o, map (app o) (product axes)) os.
Proof.
  revert os. induction axes as [|[name values] axes IH]; intros os; cbn.
  - induction os as [|o os IH]; cbn; [done|]. by rewrite app_nil_r, <- IH.
  - rewrite IH. unfold extend. cbn. induction os as [|o os IHo]; cbn; [done|].
    rewrite flat_map_app, IHo. f_equal. clear IHo. induction values as [|v values IHv]; cbn; [done|].
    rewrite map_app, IHv, map_map. f_equal. apply map_ext. intros rest. by rewrite <- app_assoc.
Qed.

Lemma len_extend os axis : len (extend os axis) = len os * len axis.2.
Proof.
  unfold extend, len. induction os as [|o os IH]; cbn; [done|].
  rewrite length_app, length_map. lia.
Qed.

Lemma collect_st_map {S X X' Y F : Type} (f : X' → stM S F Y) (h : X → X') (l : list X) (s : S) :
  collect_st f (map h l) s = collect_st (λ x, f (h x)) l s.
Proof.
  revert s. induction l as [|x l IH]; intros s; [done|]. cbn. unfold mbind, stM_bind.
  destruct (f (h x) s) as [s' [y|e]]; [|done]. by rewrite IH.
Qed.

Lemma NoDup_snoc_fresh {X : Type} (l : list X) (x : X) : NoDup l → x ∉ l → NoDup (l ++ [x]).
Proof. intros. apply NoDup_app. split; [done|]. split; [set_solver|apply NoDup_singleton]. Qed.

(** Combinations of the axes so far, all with the same keys. *)
Definition over (keys : list str) (os : list MatrixEntries) : Prop :=
  NoDup keys ∧ len keys ≤ MAX_MATRIX_OBJECT_ENTRIES ∧ ∀ o, o ∈ os → key_folds o = keys.

Lemma over_wf keys os o : over keys os → o ∈ os → wf_entries o.
Proof.
  intros (HN & Hlen & Hk) Ho. unfold wf_entries, len in *.
  rewrite <- length_folds, Hk by done. done.
Qed.

Lemma over_extend keys os axis :
  over keys os → NoDup (keys ++ [normalize_matrix_key axis.1]) →
  len keys < MAX_MATRIX_OBJECT_ENTRIES →
  over (keys ++ [normalize_matrix_key axis.1]) (extend os axis).
Proof.
  intros (HN & Hlen & Hk) HN' Hlt. split; [done|]. split.
  - unfold len in *. rewrite length_app. cbn. lia.
  - intros o (o' & Ho' & Ho)%list_elem_of_In%in_flat_map.
    apply list_elem_of_In in Ho'. apply in_map_iff in Ho as (v & <- & _).
    by rewrite key_folds_app, Hk.
Qed.

Lemma extend_axis_Ok keys os axis (w : Z) b cs :
  over keys os → normalize_matrix_key axis.1 ∉ keys → len keys < MAX_MATRIX_OBJECT_ENTRIES →
  0 ≤ w →
  (extend_axis (map combination_of os) axis : stM _ (LogicalActivationError E J P) _)
    (MkExpansionBudget w) = (b, Ok cs) ↔
  len os * len axis.2 ≤ MAX_MATRIX_CANDIDATE_COMBINATIONS ∧
  w + len os * len axis.2 ≤ MAX_MATRIX_EXPANSION_WORK ∧
  b = MkExpansionBudget (w + len os * len axis.2) ∧
  cs = map combination_of (extend os axis).
Proof.
  intros Hover Hfresh Hlt Hw. destruct axis as [name values]. cbn [fst snd] in *.
  assert (∀ o v, o ∈ os → (combination_set (combination_of o) name v
    : result (LogicalActivationError E J P) _) = Ok (combination_of (o ++ [(name, v)]))) as Hset.
  { intros o v Ho. apply combination_set_Ok; [by eapply over_wf|].
    destruct Hover as (HN & Hlen & Hk). rewrite put_fresh by by rewrite Hk.
    split; [split|done].
    - rewrite key_folds_app, Hk by done. by apply NoDup_snoc_fresh; [apply HN|].
    - unfold len in *. rewrite length_app, <- length_folds, Hk by done. cbn. lia. }
  unfold extend_axis. rewrite bind_st_Ok. setoid_rewrite liftM_Ok. setoid_rewrite ok_or_Ok.
  setoid_rewrite checked_mul_Some. setoid_rewrite bind_st_Ok. setoid_rewrite liftM_reject_Ok.
  unfold matrix_candidate_rejection. rewrite !len_map.
  assert (0 ≤ len os * len values) by (unfold len; lia).
  set (next := collect_st _ (map combination_of os)).
  assert (∀ s, next s = (s, Ok (map (λ o, map combination_of (map (λ v, o ++ [(name, v)]) values)) os)))
    as Hnext.
  { intros s. unfold next. rewrite collect_st_map. apply collect_st_pure. intros o Ho.
    rewrite map_map. apply collect_st_pure. intros v _. unfold liftM. by rewrite Hset. }
  unfold extend. cbn [fst snd]. rewrite flat_map_concat_map, concat_map, map_map. split.
  - intros (s & n & (-> & -> & _) & t & [] & (-> & Hc%Z.ltb_ge) & Ht).
    apply bind_st_Ok in Ht as (t1 & [] & Hwork & Ht).
    apply bind_st_Ok in Ht as (t2 & ? & Hn & [-> ->]%mret_st_Ok).
    apply work_charge_Ok in Hwork as [Hle ->]; [|lia..]. rewrite Hnext in Hn.
    injection Hn as <- <-. done.
  - intros (Hmax & Hle & -> & ->). eexists _, _. split.
    { split_and!; [done..|]. unfold u64_max, MAX_MATRIX_CANDIDATE_COMBINATIONS in *. lia. }
    eexists _, tt. split; [split; [done|by apply Z.ltb_ge]|].
    apply bind_st_Ok. eexists _, tt. split; [by apply work_charge_Ok; [lia..|]|].
    apply bind_st_Ok. eexists _, _. split; [apply Hnext|]. done.
Qed.

Lemma prefix_products_nonneg (n : Z) axes :
  0 ≤ n → 0 ≤ sum_by id (prefix_products n axes).
Proof.
  revert n. induction axes as [|[name values] axes IH]; intros n Hn; [done|].
  change (0 ≤ n * len values + sum_by id (prefix_products (n * len values) axes)).
  assert (0 ≤ n * len values) as Hle by (unfold len; lia). specialize (IH _ Hle). lia.
Qed.

Lemma axes_Ok axes keys os (w : Z) b cs :
  over keys os → NoDup (keys ++ map (λ axis, normalize_matrix_key axis.1) axes) →
  len keys + len axes ≤ MAX_MATRIX_OBJECT_ENTRIES → 0 ≤ w ≤ MAX_MATRIX_EXPANSION_WORK →
  let cost := sum_by id (prefix_products (len os) axes) in
  (fold_st extend_axis (map combination_of os) axes : stM _ (LogicalActivationError E J P) _)
    (MkExpansionBudget w) = (b, Ok cs) ↔
  Forall (λ n, n ≤ MAX_MATRIX_CANDIDATE_COMBINATIONS) (prefix_products (len os) axes) ∧
  w + cost ≤ MAX_MATRIX_EXPANSION_WORK ∧
  b = MkExpansionBudget (w + cost) ∧
  cs = map combination_of (foldl extend os axes).
Proof.
  revert keys os w. induction axes as [|axis axes IH]; intros keys os w Hover HN Hlen Hw cost.
  { subst cost. cbn [prefix_products sum_by foldr foldl fold_st]. rewrite mret_st_Ok, Z.add_0_r.
    split; [intros [-> ->]; by split_and!; [constructor|lia|..]|by intros (_ & _ & -> & ->)]. }
  subst cost. set (n := len os * len axis.2).
  assert (prefix_products (len os) (axis :: axes) = n :: prefix_products n axes) as ->
    by by destruct axis.
  change (sum_by id (n :: prefix_products n axes)) with (n + sum_by id (prefix_products n axes)).
  assert (0 ≤ n) by (unfold n, len; lia).
  assert (len (axis :: axes) = 1 + len axes) as Hcons by (unfold len; cbn; lia).
  assert (len keys < MAX_MATRIX_OBJECT_ENTRIES) by (unfold len in *; lia).
  cbn [map] in HN. rewrite cons_middle, app_assoc in HN.
  assert (NoDup (keys ++ [normalize_matrix_key axis.1])) as HN'
    by by apply NoDup_app in HN as [? _].
  assert (normalize_matrix_key axis.1 ∉ keys) as Hfresh.
  { apply NoDup_app in HN' as (_ & HN' & _). set_solver. }
  pose proof (over_extend _ _ _ Hover HN' ltac:(done)) as Hover'.
  assert (len (keys ++ [normalize_matrix_key axis.1]) + len axes ≤ MAX_MATRIX_OBJECT_ENTRIES) as Hlen'.
  { unfold len in *. rewrite length_app. cbn. lia. }
  pose proof (λ t, IH _ _ t Hover' HN Hlen') as IH'. cbv zeta in IH'.
  rewrite len_extend in IH'. fold n in IH'.
  pose proof (prefix_products_nonneg n axes ltac:(done)).
  cbn [fold_st foldl]. rewrite bind_st_Ok, Forall_cons, !Z.add_assoc. split.
  - intros (s & c & Haxis & Hrest).
    apply (extend_axis_Ok keys) in Haxis as (Hn & Hle & -> & ->); [|done..|lia]. fold n in Hle, Hn.
    apply IH' in Hrest; [|lia]. naive_solver.
  - intros ((Hn & HF) & Hle & -> & ->). eexists _, _. split.
    + apply (extend_axis_Ok keys); [done..|lia|]. split_and!; [done|fold n; lia|done..].
    + by apply IH'; [lia|].
Qed.

Lemma check_axis_keys_Ok axes :
  is_ok (check_axis_keys axes : result (LogicalActivationError E J P) _) ↔
    NoDup (map (λ axis : str * list ActivationValue, normalize_matrix_key axis.1) axes).
Proof.
  unfold check_axis_keys. 
  assert (∀ keys : gset str, is_ok (try_fold (E := LogicalActivationError E J P) (λ keys axis,
    _ ← reject (bool_decide (normalize_matrix_key axis.1 ∈ keys)) DuplicateMatrixKey;
    Ok ({[normalize_matrix_key axis.1]} ∪ keys)) keys axes) ↔
    NoDup (map (λ axis : str * list ActivationValue, normalize_matrix_key axis.1) axes) ∧
    Forall (λ axis, normalize_matrix_key axis.1 ∉ keys) axes) as H.
  { induction axes as [|axis axes IH]; intros keys; cbn.
    { split; [|done]. split; [apply NoDup_nil_2|done]. }
    rewrite NoDup_cons, Forall_cons. destruct (decide (normalize_matrix_key axis.1 ∈ keys)).
    - rewrite bool_decide_true by done. cbn. naive_solver.
    - rewrite bool_decide_false by done. cbn. rewrite IH. rewrite !Forall_forall.
      split.
      + intros [HN HF]. split_and!; [|done..|set_solver].
        intros (axis' & Heq & Hin)%list_elem_of_fmap. specialize (HF _ Hin). set_solver.
      + intros [[Hout HN] [_ HF]]. split; [done|]. intros axis' Hin. apply not_elem_of_union.
        split; [|set_solver]. rewrite elem_of_singleton. intros Heq. apply Hout.
        rewrite <- Heq. by apply (list_elem_of_fmap_2 (λ axis, normalize_matrix_key axis.1)). }
  rewrite H. split; [naive_solver|]. intros HN. split; [done|].
  apply Forall_forall. set_solver.
Qed.

(** ** The includes *)

Lemma len_put es key v : len es ≤ len (put es key v).
Proof.
  unfold len. induction es as [|[k w] es IH]; cbn [put]; [cbn; lia|].
  destruct (str_eqb _ _); cbn [length]; lia.
Qed.

Lemma len_overlay original es patch : len es ≤ len (overlay original es patch).
Proof.
  revert es. induction patch as [|[k v] patch IH]; intros es; cbn; [lia|].
  destruct (is_some _); [apply IH|]. etrans; [apply (len_put es k v)|apply IH].
Qed.

Lemma NoDup_overlay original es patch :
  NoDup (key_folds es) → NoDup (key_folds (overlay original es patch)).
Proof.
  revert es. induction patch as [|[k v] patch IH]; intros es HN; cbn; [done|].
  destruct (is_some _); apply IH; [done|by apply NoDup_put].
Qed.

Lemma wf_shrink es fs :
  NoDup (key_folds es) → len es ≤ len fs → wf_entries fs → wf_entries es.
Proof. intros HN Hle [_ Hmax]. split; [done|lia]. Qed.

Lemma wf_overlay original es patch :
  wf_entries es → len (overlay original es patch) ≤ MAX_MATRIX_OBJECT_ENTRIES →
  wf_entries (overlay original es patch).
Proof. intros [HN _] Hle. split; [by apply NoDup_overlay|done]. Qed.

Lemma merge_include_Ok original es patch c :
  NoDup (key_folds original) → wf_entries es →
  (merge_include (combination_of es) (combination_of original) patch
    : result (LogicalActivationError E J P) _) = Ok c ↔
    wf_entries (overlay original es patch) ∧ c = combination_of (overlay original es patch).
Proof.
  intros Ho. unfold merge_include. revert es. induction patch as [|[k v] patch IH]; intros es Hes.
  { cbn. split; [intros [= <-]; done|by intros [_ ->]]. }
  cbn [try_fold overlay foldl fst snd]. rewrite combination_get_of by done.
  destruct (is_some (entry_value original k)); [by apply IH|].
  fold (overlay original (put es k v) patch). split.
  - intros H. destruct (combination_set _ k v) as [c'|] eqn:Hc; [|done].
    apply combination_set_Ok in Hc as [Hput ->]; [|done]. by apply IH in H.
  - intros [Hwf ->]. assert (wf_entries (put es k v)) as Hput.
    { eapply wf_shrink; [by apply NoDup_put; destruct Hes|apply len_overlay|exact Hwf]. }
    rewrite (proj2 (combination_set_Ok _ _ _ _ Hes) (conj Hput eq_refl)). by apply IH.
Qed.

Lemma standalone_Ok es patch (w : Z) b c :
  wf_entries es → 0 ≤ w ≤ MAX_MATRIX_EXPANSION_WORK →
  (fold_st (λ combination entry,
     _ ← work_charge 1;
     liftM (combination_set combination entry.1 entry.2)) (combination_of es) patch
     : stM _ (LogicalActivationError E J P) _) (MkExpansionBudget w) = (b, Ok c) ↔
  wf_entries (overlay [] es patch) ∧ w + len patch ≤ MAX_MATRIX_EXPANSION_WORK ∧
  b = MkExpansionBudget (w + len patch) ∧ c = combination_of (overlay [] es patch).
Proof.
  revert es w. induction patch as [|[k v] patch IH]; intros es w Hes Hw.
  { cbn [fold_st]. rewrite mret_st_Ok. unfold len. cbn. rewrite Z.add_0_r.
    split; [intros [-> ->]; by split_and!; try done; lia|by intros (_ & _ & -> & ->)]. }
  change (overlay [] es ((k, v) :: patch)) with (overlay [] (put es k v) patch).
  cbn [fold_st fst snd].
  assert (len ((k, v) :: patch) = 1 + len patch) as -> by (unfold len; cbn [length]; lia).
  assert (0 ≤ len patch) by (unfold len; lia). rewrite Z.add_assoc. split.
  - intros (t & c' & Hstep & Hrest)%bind_st_Ok.
    apply bind_st_Ok in Hstep as (t' & [] & Hwork & [-> Hset]%liftM_Ok).
    apply work_charge_Ok in Hwork as [Hle ->]; [|lia..].
    apply combination_set_Ok in Hset as [Hput ->]; [|done]. by apply IH in Hrest; [|done|lia].
  - intros (Hwf & Hle & -> & ->). assert (wf_entries (put es k v)) as Hput.
    { eapply wf_shrink; [by apply NoDup_put; destruct Hes|apply len_overlay|exact Hwf]. }
    apply bind_st_Ok. eexists _, _. split; [apply bind_st_Ok; eexists _, tt; split|].
    + apply work_charge_Ok; [lia..|]. split; [lia|done].
    + apply liftM_Ok. split; [done|]. by apply combination_set_Ok.
    + by apply IH; [|lia|].
Qed.

Lemma wf_include_into original es patch :
  NoDup (key_folds es) → NoDup (key_folds (include_into original es patch)).
Proof. unfold include_into. destruct (agrees _ _); [apply NoDup_overlay|done]. Qed.

Lemma len_include_into original es patch : len es ≤ len (include_into original es patch).
Proof. unfold include_into. destruct (agrees _ _); [apply len_overlay|done]. Qed.

Lemma NoDup_includes original es patches :
  NoDup (key_folds es) → NoDup (key_folds (foldl (include_into original) es patches)).
Proof. revert es. induction patches; intros es HN; cbn; auto using wf_include_into. Qed.

Lemma len_includes original es patches :
  len es ≤ len (foldl (include_into original) es patches).
Proof.
  revert es. induction patches as [|patch patches IH]; intros es; cbn; [lia|].
  etrans; [apply (len_include_into original es patch)|apply IH].
Qed.

Lemma include_compatible_of es patch :
  NoDup (key_folds es) → include_compatible (combination_of es) patch = agrees es patch.
Proof.
  intros HN. unfold include_compatible, agrees. induction patch as [|e patch IH]; cbn; [done|].
  by rewrite combination_get_of, IH.
Qed.

Lemma combination_matches_of es patch :
  NoDup (key_folds es) → combination_matches (combination_of es) patch = excludes es patch.
Proof.
  intros HN. unfold combination_matches, excludes. induction patch as [|e patch IH]; cbn; [done|].
  by rewrite combination_get_of, IH.
Qed.

Lemma apply_include_Ok patch (os : list MatrixEntries) (g : MatrixEntries → MatrixEntries) applied cs :
  (∀ o, o ∈ os → NoDup (key_folds o) ∧ wf_entries (g o)) →
  (apply_include patch (map (λ o, (combination_of o, combination_of (g o))) os)
    : result (LogicalActivationError E J P) _) = Ok (applied, cs) ↔
  Forall wf_entries (map (λ o, include_into o (g o) patch) os) ∧
  applied = existsb (λ o, agrees o patch) os ∧
  cs = map combination_of (map (λ o, include_into o (g o) patch) os).
Proof.
  revert applied cs. induction os as [|o os IH]; intros applied cs Hos.
  { cbn. split; [intros [= <- <-]; by split_and!|by intros (_ & -> & ->)]. }
  destruct (Hos o) as [HNo Hgo]; [apply list_elem_of_here|].
  assert (∀ o, o ∈ os → NoDup (key_folds o) ∧ wf_entries (g o)) as Hos'.
  { intros o' Ho'. apply Hos. by apply list_elem_of_further. }
  cbn [map apply_include existsb]. rewrite include_compatible_of by done.
  rewrite Forall_cons. unfold include_into at 1 3. destruct (agrees o patch); cbn [orb]; split.
  - intros H. destruct (merge_include _ _ patch) as [c|] eqn:Hm; [|done].
    apply merge_include_Ok in Hm as [Hwf ->]; [|done..]. cbn in H.
    destruct (apply_include patch _) as [[applied' rest]|] eqn:Hr; [|done].
    destruct (proj1 (IH _ _ Hos') eq_refl) as (? & -> & ->). injection H as <- <-. done.
  - intros ((Hwf & HF) & -> & ->).
    rewrite (proj2 (merge_include_Ok _ _ _ _ HNo Hgo) (conj Hwf eq_refl)).
    rewrite (proj2 (IH _ _ Hos') (conj HF (conj eq_refl eq_refl))). done.
  - intros H. destruct (apply_include patch _) as [[applied' rest]|] eqn:Hr; [|done].
    destruct (proj1 (IH _ _ Hos') eq_refl) as (? & -> & ->). injection H as <- <-. done.
  - intros ((Hwf & HF) & -> & ->).
    rewrite (proj2 (IH _ _ Hos') (conj HF (conj eq_refl eq_refl))). done.
Qed.

Lemma zip_originals (os extra : list MatrixEntries) (g : MatrixEntries → MatrixEntries) :
  zip (map combination_of os) (map combination_of (map g os ++ extra))
  = map (λ o, (combination_of o, combination_of (g o))) os.
Proof. induction os as [|o os IH]; cbn; [done|]. by rewrite IH. Qed.

Lemma drop_originals (os extra : list MatrixEntries) (g : MatrixEntries → MatrixEntries) :
  drop (length (map combination_of os)) (map combination_of (map g os ++ extra))
  = map combination_of extra.
Proof. by induction os. Qed.

Lemma include_step_Ok (os extra : list MatrixEntries) (g : MatrixEntries → MatrixEntries)
    (limit w : Z) patch b cs :
  (∀ o, o ∈ os → NoDup (key_folds o) ∧ wf_entries (g o)) → 0 ≤ w ≤ MAX_MATRIX_EXPANSION_WORK →
  let applied := existsb (λ o, agrees o patch) os in
  let next := map (λ o, include_into o (g o) patch) os ++ extra
              ++ (if applied then [] else [from_patch patch]) in
  let cost := if applied then 0 else len patch in
  (include_step (map combination_of os) limit (map combination_of (map g os ++ extra)) patch
    : stM _ (LogicalActivationError E J P) _) (MkExpansionBudget w) = (b, Ok cs) ↔
  Forall wf_entries (map (λ o, include_into o (g o) patch) os) ∧
  (if applied then True else len next ≤ limit ∧ wf_entries (from_patch patch)) ∧
  w + cost ≤ MAX_MATRIX_EXPANSION_WORK ∧ b = MkExpansionBudget (w + cost) ∧
  cs = map combination_of next.
Proof.
  intros Hos Hw applied next cost. unfold include_step.
  rewrite zip_originals, drop_originals, bind_st_Ok. split.
  - intros (t & [a merged] & [-> Ha]%liftM_Ok & Hrest).
    apply apply_include_Ok in Ha as (HF & -> & ->); [|done]. fold applied in Hrest.
    rewrite <- map_app in Hrest. split; [done|]. unfold next, cost. destruct applied.
    + apply mret_st_Ok in Hrest as [-> ->]. rewrite Z.add_0_r, app_nil_r. by split_and!; [| lia|..].
    + apply bind_st_Ok in Hrest as (t & [] & [-> Hlen%Z.leb_gt]%liftM_reject_Ok & Hrest).
      apply bind_st_Ok in Hrest as (t & c & Hs & [-> ->]%mret_st_Ok).
      apply (standalone_Ok [] patch) in Hs as (Hwf & Hle & -> & ->); [|by split; [constructor|]|done].
      rewrite len_map in Hlen. rewrite app_assoc, (map_app _ (_ ++ extra)). split_and!; [|done..].
      unfold len in *. rewrite !length_app in *. cbn. lia.
  - intros (HF & Hfit & Hle & -> & ->). eexists _, (applied, _). split.
    { apply liftM_Ok. split; [done|]. by apply apply_include_Ok. }
    rewrite <- map_app. unfold next, cost in *. destruct applied.
    + apply mret_st_Ok. by rewrite Z.add_0_r, app_nil_r.
    + destruct Hfit as [Hlen Hwf]. apply bind_st_Ok. eexists _, tt. split.
      { apply liftM_reject_Ok. split; [done|]. apply Z.leb_gt. rewrite len_map.
        unfold len in *. rewrite !length_app in *. cbn in Hlen. lia. }
      apply bind_st_Ok. eexists _, _. split.
      { apply (standalone_Ok [] patch); [by split; [constructor|]|done|]. by split_and!. }
      apply mret_st_Ok. by rewrite app_assoc, (map_app _ (_ ++ extra)).
Qed.

Lemma sum_len_nonneg {X : Type} (l : list (list X)) : 0 ≤ sum_len l.
Proof. apply sum_by_nonneg. intros. unfold len. lia. Qed.

Lemma Forall_wf_shrink (os : list MatrixEntries) (f g : MatrixEntries → MatrixEntries) :
  (∀ o, o ∈ os → NoDup (key_folds (f o)) ∧ len (f o) ≤ len (g o)) →
  Forall wf_entries (map g os) → Forall wf_entries (map f os).
Proof.
  intros Hfg. rewrite !Forall_map. rewrite !Forall_forall. intros H o Ho.
  destruct (Hfg o Ho) as [? ?]. by eapply wf_shrink; [| |apply H].
Qed.

Lemma includes_Ok patches (os extra : list MatrixEntries) (g : MatrixEntries → MatrixEntries)
    (limit w : Z) b cs :
  (∀ o, o ∈ os → NoDup (key_folds o) ∧ NoDup (key_folds (g o))) →
  Forall wf_entries (map g os) → Forall wf_entries extra →
  len (map g os ++ extra) ≤ limit → 0 ≤ w ≤ MAX_MATRIX_EXPANSION_WORK →
  let final := map (λ o, foldl (include_into o) (g o) patches) os ++ extra
               ++ map from_patch (orphans os patches) in
  let cost := sum_len (orphans os patches) in
  (fold_st (include_step (map combination_of os) limit) (map combination_of (map g os ++ extra))
     patches : stM _ (LogicalActivationError E J P) _) (MkExpansionBudget w) = (b, Ok cs) ↔
  Forall wf_entries final ∧ len final ≤ limit ∧ w + cost ≤ MAX_MATRIX_EXPANSION_WORK ∧
  b = MkExpansionBudget (w + cost) ∧ cs = map combination_of final.
Proof.
  revert g extra w. induction patches as [|patch patches IH];
    intros g extra w HN Hg Hextra Hlen Hw final cost.
  { subst final cost. cbn [fold_st orphans List.filter map foldl sum_len sum_by foldr].
    rewrite mret_st_Ok, Z.add_0_r, app_nil_r. rewrite Forall_app. split.
    - intros [-> ->]. split_and!; [done..|lia|done|done].
    - by intros (_ & _ & _ & -> & ->). }
  set (applied := existsb (λ o, agrees o patch) os).
  set (g' o := include_into o (g o) patch).
  set (extra' := extra ++ (if applied then [] else [from_patch patch])).
  set (cost' := if applied then 0 else len patch).
  assert (0 ≤ cost') by (unfold cost', len; destruct applied; lia).
  assert (cost = cost' + sum_len (orphans os patches)) as Hcost.
  { subst cost cost'. unfold orphans. cbn [List.filter]. fold applied. by destruct applied. }
  assert (final = map (λ o, foldl (include_into o) (g' o) patches) os ++ extra'
               ++ map from_patch (orphans os patches)) as Hfinal.
  { subst final extra' g'. unfold orphans. cbn [List.filter foldl]. fold applied.
    rewrite <- app_assoc. by destruct applied. }
  pose proof (sum_len_nonneg (orphans os patches)) as Hsum.
  assert (∀ o, o ∈ os → NoDup (key_folds o) ∧ NoDup (key_folds (g' o))) as HN'.
  { intros o Ho. split; [by apply HN|]. apply wf_include_into. by apply HN. }
  assert (∀ o, o ∈ os → NoDup (key_folds o) ∧ wf_entries (g o)) as Hos.
  { intros o Ho. split; [by apply HN|]. rewrite Forall_map, Forall_forall in Hg. by apply Hg. }
  rewrite Hcost, Z.add_assoc, Hfinal. cbn [fold_st]. rewrite bind_st_Ok. split.
  - intros (t & c & Hstep & Hrest).
    apply include_step_Ok in Hstep as (HF & Hfit & Hle & -> & ->); [|done..].
    fold applied in Hfit, Hle, Hrest.
    apply IH in Hrest; [|done|done| | |fold cost'; lia].
    + done.
    + apply Forall_app. split; [done|]. destruct applied; [done|].
      apply Forall_singleton. by apply Hfit.
    + fold extra'. destruct applied eqn:Ha; [|by apply Hfit]. unfold extra'.
      rewrite app_nil_r. unfold len in *. rewrite length_app, length_map in *. done.
  - intros (HF & Hle & Hcostle & -> & ->). pose proof HF as [HF1 HF2]%Forall_app.
    apply Forall_app in HF2 as [HF2 HF3].
    assert (Forall wf_entries (map g' os)) as HFg.
    { eapply Forall_wf_shrink; [|exact HF1]. intros o Ho. split; [by apply HN'|].
      apply len_includes. }
    assert (len (map g' os ++ extra') ≤ limit) as Hlen'.
    { unfold len in *. rewrite !length_app, !length_map in *. lia. }
    exists (MkExpansionBudget (w + cost')), (map combination_of (map g' os ++ extra')). split.
    + apply include_step_Ok; [done..|]. fold applied. split_and!; [done| |fold cost'; lia|done..].
      unfold extra' in HF2, Hlen'. destruct applied; [done|]. split; [done|].
      apply Forall_app in HF2 as [_ HF2]. exact (Forall_inv HF2).
    + apply IH; [done..|lia|]. done.
Qed.

(** ** The whole expansion *)

Lemma product_keys axes o :
  o ∈ product axes → key_folds o = map (λ axis, normalize_matrix_key axis.1) axes.
Proof.
  revert o. induction axes as [|[name values] axes IH]; cbn; intros o Ho.
  - apply list_elem_of_singleton in Ho as ->. done.
  - apply list_elem_of_In, in_flat_map in Ho as (v & _ & Ho).
    apply in_map_iff in Ho as (rest & <- & Hrest%list_elem_of_In). cbn. f_equal. by apply IH.
Qed.

Lemma candidates_keys matrix o :
  o ∈ candidates matrix →
  key_folds o = map (λ axis, normalize_matrix_key axis.1) (resolved_axes matrix).
Proof.
  unfold candidates. destruct (resolved_axes matrix) as [|axis axes]; [set_solver|].
  apply product_keys.
Qed.

Lemma candidates_Ok matrix b cs :
  NoDup (map (λ axis, normalize_matrix_key axis.1) (resolved_axes matrix)) →
  len (resolved_axes matrix) ≤ MAX_MATRIX_AXES →
  let axes := resolved_axes matrix in
  (fold_st extend_axis (match axes with [] => [] | _ => [combination_default] end) axes
    : stM _ (LogicalActivationError E J P) _) expansion_budget_default = (b, Ok cs) ↔
  Forall (λ n, n ≤ MAX_MATRIX_CANDIDATE_COMBINATIONS) (prefix_products 1 axes) ∧
  sum_by id (prefix_products 1 axes) ≤ MAX_MATRIX_EXPANSION_WORK ∧
  b = MkExpansionBudget (sum_by id (prefix_products 1 axes)) ∧
  cs = map combination_of (candidates matrix).
Proof.
  intros HN Hlen. cbv zeta. unfold candidates.
  destruct (resolved_axes matrix) as [|axis axes] eqn:Haxes.
  - cbn. rewrite mret_st_Ok. split; [intros [-> ->]; by split_and!|by intros (_ & _ & -> & ->)].
  - rewrite <- Haxes in *. change [combination_default] with (map combination_of [[]]).
    unfold expansion_budget_default. change 1 with (len [[] : MatrixEntries]).
    rewrite <- (Z.add_0_l (sum_by id _)). rewrite (axes_Ok _ []).
    + rewrite foldl_extend. cbn [flat_map]. rewrite app_nil_r.
      by rewrite (map_ext (app []) (λ o, o)), map_id.
    + split; [constructor|]. split; [done|]. by intros o ->%list_elem_of_singleton.
    + done.
    + unfold len at 1. cbn [length]. unfold MAX_MATRIX_AXES, MAX_MATRIX_OBJECT_ENTRIES in *. lia.
    + done.
Qed.

Lemma retain_map (f : MatrixCombination → bool) (g : MatrixEntries → bool) os :
  (∀ o, o ∈ os → f (combination_of o) = g o) →
  List.filter f (map combination_of os) = map combination_of (List.filter g os).
Proof.
  induction os as [|o os IH]; cbn; intros Hfg; [done|].
  rewrite Hfg by apply list_elem_of_here.
  rewrite IH by (intros o' Ho'; apply Hfg; by apply list_elem_of_further). by destruct (g o).
Qed.

Lemma originals_candidates matrix o : o ∈ originals matrix → o ∈ candidates matrix.
Proof. intros [Ho _]%list_elem_of_In%filter_In. by apply list_elem_of_In. Qed.

Lemma expansion_wf matrix :
  NoDup (map (λ axis, normalize_matrix_key axis.1) (resolved_axes matrix)) →
  Forall wf_entries (expansion matrix) ↔
  Forall (λ es, len es ≤ MAX_MATRIX_OBJECT_ENTRIES) (expansion matrix).
Proof.
  intros HN. rewrite !Forall_forall. unfold expansion. cbv zeta. split; intros H es Hes.
  - by destruct (H es Hes).
  - split; [|by apply H]. apply elem_of_app in Hes as [Hes|Hes];
      apply list_elem_of_In, in_map_iff in Hes as (o & <- & Ho%list_elem_of_In).
    + apply NoDup_includes. by rewrite (candidates_keys _ _ (originals_candidates _ _ Ho)).
    + apply NoDup_overlay. constructor.
Qed.

(** What is left of the expansion once the candidates are there. *)
Definition expand_candidates (matrix : ResolvedMatrix) (limit : Z) (cs : list MatrixCombination) :
    stM MatrixExpansionBudget (LogicalActivationError E J P) (list MatrixCombination) :=
  _ ← work_charge_product (len cs) (sum_len (resolved_exclude matrix));
  let cs :=
    List.filter (λ c, negb (existsb (combination_matches c) (resolved_exclude matrix))) cs in
  _ ← liftM (reject (limit <? len cs) (MatrixExpansionLimitExceeded limit));
  _ ← work_charge_product (len cs) (sum_len (resolved_include matrix));
  fold_st (include_step cs limit) cs (resolved_include matrix).

Lemma retain_originals matrix :
  NoDup (map (λ axis, normalize_matrix_key axis.1) (resolved_axes matrix)) →
  List.filter (λ c, negb (existsb (combination_matches c) (resolved_exclude matrix)))
    (map combination_of (candidates matrix)) = map combination_of (originals matrix).
Proof.
  intros HN. apply retain_map. intros o Ho. f_equal.
  assert (NoDup (key_folds o)) as HNo by by rewrite (candidates_keys _ _ Ho).
  induction (resolved_exclude matrix) as [|patch patches IH]; cbn; [done|].
  by rewrite combination_matches_of, IH.
Qed.

Lemma expand_candidates_Ok matrix (limit w : Z) b cs :
  NoDup (map (λ axis, normalize_matrix_key axis.1) (resolved_axes matrix)) →
  len (resolved_axes matrix) ≤ MAX_MATRIX_AXES → 0 ≤ w →
  let cost := len (candidates matrix) * sum_len (resolved_exclude matrix)
              + len (originals matrix) * sum_len (resolved_include matrix)
              + sum_len (orphans (originals matrix) (resolved_include matrix)) in
  expand_candidates matrix limit (map combination_of (candidates matrix)) (MkExpansionBudget w)
    = (b, Ok cs) ↔
  Forall wf_entries (expansion matrix) ∧ len (expansion matrix) ≤ limit ∧
  w + cost ≤ MAX_MATRIX_EXPANSION_WORK ∧
  b = MkExpansionBudget (w + cost) ∧ cs = map combination_of (expansion matrix).
Proof.
  intros HN Haxes Hw cost. unfold expand_candidates. rewrite retain_originals, !len_map by done.
  pose proof (sum_len_nonneg (resolved_exclude matrix)) as He.
  pose proof (sum_len_nonneg (resolved_include matrix)) as Hi.
  pose proof (sum_len_nonneg (orphans (originals matrix) (resolved_include matrix))) as Horphans.
  set (os := originals matrix) in *. set (n := len (candidates matrix) * _) in *.
  set (k := len os * _) in *.
  assert (0 ≤ n) by (unfold n, len; nia). assert (0 ≤ k) by (unfold k, len; nia).
  assert (∀ o, o ∈ os → wf_entries o) as Hwf.
  { intros o Ho%originals_candidates%candidates_keys. split; [by rewrite Ho|].
    unfold len in *. rewrite <- length_folds, Ho, length_map.
    unfold MAX_MATRIX_AXES, MAX_MATRIX_OBJECT_ENTRIES in *. lia. }
  assert (∀ t, 0 ≤ t ≤ MAX_MATRIX_EXPANSION_WORK → len os ≤ limit →
    (fold_st (include_step (map combination_of os) limit) (map combination_of os)
       (resolved_include matrix) : stM _ (LogicalActivationError E J P) _) (MkExpansionBudget t)
      = (b, Ok cs) ↔ Forall wf_entries (expansion matrix) ∧ len (expansion matrix) ≤ limit ∧
    t + sum_len (orphans os (resolved_include matrix)) ≤ MAX_MATRIX_EXPANSION_WORK ∧
    b = MkExpansionBudget (t + sum_len (orphans os (resolved_include matrix))) ∧
    cs = map combination_of (expansion matrix)) as Hincludes.
  { intros t Ht Hos.
    pose proof (includes_Ok (resolved_include matrix) os [] (λ o, o) limit t b cs) as H'.
    cbv zeta in H'. rewrite map_id, app_nil_r in H'. apply H'; [|by apply Forall_forall|done..].
    intros o Ho. by destruct (Hwf o Ho). }
  assert (len os ≤ len (expansion matrix)) as Hmore.
  { unfold expansion. cbv zeta. unfold len. rewrite length_app, length_map. fold os. lia. }
  rewrite bind_st_Ok. split.
  - intros (t & [] & Hn & Hrest). apply work_charge_product_Ok in Hn as [Hle ->];
      [|unfold len; lia|done..]. fold n in Hle, Hrest.
    apply bind_st_Ok in Hrest as (t & [] & [-> Hos%Z.ltb_ge]%liftM_reject_Ok & Hrest).
    apply bind_st_Ok in Hrest as (t & [] & Hk & Hrest).
    apply work_charge_product_Ok in Hk as [Hle' ->]; [|unfold len; lia|lia..].
    fold k in Hle', Hrest. apply Hincludes in Hrest; [|lia|done].
    unfold cost. by rewrite !Z.add_assoc.
  - intros (HF & Hlimit & Hle & -> & ->). unfold cost in *.
    eexists _, tt. split; [apply work_charge_product_Ok; [unfold len; lia|done..|]|].
    { split; [fold n; lia|done]. }
    apply bind_st_Ok. eexists _, tt. split; [apply liftM_reject_Ok; split; [done|]|].
    { apply Z.ltb_ge. lia. }
    apply bind_st_Ok. eexists _, tt. split; [apply work_charge_product_Ok; [unfold len; lia|lia..|]|].
    { split; [fold k n; lia|done]. }
    fold k n. apply Hincludes; [lia..|]. split_and!; [done..|lia| |done]. f_equal. lia.
Qed.

Lemma expand_Ok matrix (limit : Z) b cs :
  len (resolved_axes matrix) ≤ MAX_MATRIX_AXES →
  (expand matrix limit : stM _ (LogicalActivationError E J P) _) expansion_budget_default
    = (b, Ok cs) ↔
  fits matrix limit ∧ b = MkExpansionBudget (expansion_cost matrix) ∧
  cs = map combination_of (expansion matrix).
Proof.
  intros Haxes. unfold expand, fits. rewrite bind_st_Ok.
  pose proof (check_axis_keys_Ok (resolved_axes matrix)) as Hkeys.
  pose proof (prefix_products_nonneg 1 (resolved_axes matrix) ltac:(lia)) as Hsum. split.
  - intros (t & keys & [-> Hk]%liftM_Ok & Hrest).
    assert (NoDup (map (λ axis, normalize_matrix_key axis.1) (resolved_axes matrix))) as HN.
    { apply Hkeys. by rewrite Hk. }
    apply bind_st_Ok in Hrest as (t & os & Hos & Hrest).
    apply candidates_Ok in Hos as (HF & Hle & -> & ->); [|done..].
    apply expand_candidates_Ok in Hrest as (Hwf & Hlimit & Hcost & -> & ->); [|done..].
    apply expansion_wf in Hwf; [|done]. unfold expansion_cost.
    rewrite !Z.add_assoc in *. done.
  - intros ((HN & HF & Hcost & Hlimit & Hwf) & -> & ->).
    destruct (check_axis_keys (resolved_axes matrix)) as [keys|e] eqn:Hk; [|by apply Hkeys in HN].
    eexists _, keys. split; [by apply liftM_Ok|]. unfold expansion_cost in *.
    pose proof (sum_len_nonneg (resolved_exclude matrix)).
    pose proof (sum_len_nonneg (resolved_include matrix)).
    pose proof (sum_len_nonneg (orphans (originals matrix) (resolved_include matrix))).
    assert (0 ≤ len (candidates matrix) * sum_len (resolved_exclude matrix)) by (unfold len; nia).
    assert (0 ≤ len (originals matrix) * sum_len (resolved_include matrix)) by (unfold len; nia).
    apply bind_st_Ok. eexists _, _. split.
    { apply candidates_Ok; [done..|]. split_and!; [done|lia|done..]. }
    apply expand_candidates_Ok; [done..|]. rewrite !Z.add_assoc.
    split_and!; [by apply expansion_wf|done..].
Qed.

Lemma expand_matrix_spec matrix (limit : Z) cs :
  len (resolved_axes matrix) ≤ MAX_MATRIX_AXES →
  (expand_matrix matrix limit : result (LogicalActivationError E J P) _) = Ok cs ↔
  fits matrix limit ∧ cs = map combination_of (expansion matrix).
Proof.
  intros Haxes. unfold expand_matrix. destruct (expand matrix limit _) as [b r] eqn:Hr. cbn. split.
  - intros ->. apply expand_Ok in Hr as (? & _ & ->); done.
  - intros [Hfits ->].
    pose proof (proj2 (expand_Ok matrix limit _ _ Haxes) (conj Hfits (conj eq_refl eq_refl))).
    congruence.
Qed.

(** ** The values of the combinations *)

Lemma entry_value_app es fs key :
  entry_value (es ++ fs) key =
    match entry_value es key with Some v => Some v | None => entry_value fs key end.
Proof. induction es as [|[k v] es IH]; cbn; [done|]. by destruct (str_eqb _ _). Qed.

Lemma entry_value_put es k v key :
  entry_value (put es k v) key =
    if str_eqb (normalize_matrix_key k) (normalize_matrix_key key) then Some v
    else entry_value es key.
Proof.
  induction es as [|[k' w] es IH]; [done|]. cbn [put].
  destruct (str_eqb (normalize_matrix_key k') (normalize_matrix_key k)) eqn:Ek; cbn.
  - apply str_eqb_true in Ek as ->. by destruct (str_eqb _ _).
  - rewrite IH. destruct (str_eqb (normalize_matrix_key k') (normalize_matrix_key key)) eqn:Ek'; [|done].
    apply str_eqb_true in Ek'. by rewrite <- Ek', str_eqb_comm, Ek.
Qed.

Lemma entry_value_fold es k key :
  normalize_matrix_key k = normalize_matrix_key key → entry_value es k = entry_value es key.
Proof. intros Heq. induction es as [|[k' v] es IH]; cbn; [done|]. by rewrite Heq, IH. Qed.

(** The value a key gets when the later entries go on top of the earlier ones. *)
Definition under original (over : option ActivationValue) (below : option ActivationValue) key :=
  match entry_value original key with
  | Some _ => below
  | None => match over with Some v => Some v | None => below end
  end.

Lemma entry_value_overlay original es patch key :
  entry_value (overlay original es patch) key =
    under original (entry_value (reverse patch) key) (entry_value es key) key.
Proof.
  unfold under. revert es. induction patch as [|[k v] patch IH]; intros es.
  { cbn. by destruct (entry_value original key). }
  rewrite reverse_cons, entry_value_app.
  change (overlay original es ((k, v) :: patch)) with
    (overlay original (if is_some (entry_value original k) then es else put es k v) patch).
  rewrite IH. cbn [entry_value]. destruct (str_eqb (normalize_matrix_key k) _) eqn:Ek.
  - apply str_eqb_true in Ek as Heq. rewrite (entry_value_fold _ _ _ Heq).
    destruct (entry_value original key); cbn; [done|].
    rewrite entry_value_put, Ek. by destruct (entry_value (reverse patch) key).
  - assert (entry_value (if is_some (entry_value original k) then es else put es k v) key
      = entry_value es key) as ->.
    { destruct (is_some _); [done|]. by rewrite entry_value_put, Ek. }
    destruct (entry_value original key); [done|]. by destruct (entry_value (reverse patch) key).
Qed.

Lemma entry_value_includes original es patches key :
  entry_value (foldl (include_into original) es patches) key =
    under original
      (entry_value (reverse (concat (List.filter (agrees original) patches))) key)
      (entry_value es key) key.
Proof.
  revert es. induction patches as [|patch patches IH]; intros es.
  { unfold under. cbn. by destruct (entry_value original key). }
  cbn [foldl List.filter]. rewrite IH. unfold include_into.
  destruct (agrees original patch); [|done]. cbn [concat].
  rewrite reverse_app, entry_value_app, entry_value_overlay. unfold under.
  destruct (entry_value original key); [done|]. by destruct (entry_value (reverse (concat _)) key).
Qed.

(** ** What the expansion promises *)

(** C11: Expanding a matrix does what it says: it succeeds exactly when the
    folded names of the axes are distinct and the products, the work, the
    number of combinations and their sizes are within their limits, and then
    gives the product of the axes less the excluded combinations, each with
    the patches that agree with it, followed by the patches that agree with
    none. *)
Theorem expansion_is_exact matrix (limit : Z) :
  len (resolved_axes matrix) ≤ MAX_MATRIX_AXES →
  match (expand_matrix matrix limit : result (LogicalActivationError E J P) _) with
  | Ok cs => fits matrix limit ∧ cs = map combination_of (expansion matrix)
  | Err _ => ¬ fits matrix limit
  end.
Proof.
  intros Haxes. destruct (expand_matrix matrix limit) as [cs|e] eqn:Hr.
  - by apply expand_matrix_spec.
  - intros Hfits. pose proof (proj2 (expand_matrix_spec matrix limit _ Haxes)
      (conj Hfits eq_refl)). congruence.
Qed.

(** C23: Including never changes a value of a combination: at the keys of its
    axes a combination keeps the values of the product, whatever the patches
    say, and at any other key it has the last value of the patches that agree
    with it. *)
Theorem includes_keep_originals matrix (limit : Z) cs i o c key :
  len (resolved_axes matrix) ≤ MAX_MATRIX_AXES →
  (expand_matrix matrix limit : result (LogicalActivationError E J P) _) = Ok cs →
  originals matrix !! i = Some o → cs !! i = Some c →
  combination_get c key =
    match entry_value o key with
    | Some v => Some v
    | None => entry_value (reverse (concat (List.filter (agrees o) (resolved_include matrix)))) key
    end.
Proof.
  intros Haxes [(HN & _) ->]%expand_matrix_spec Ho Hc; [|done].
  assert (NoDup (key_folds o)) as HNo.
  { rewrite (candidates_keys matrix); [done|]. apply originals_candidates.
    by eapply list_elem_of_lookup_2. }
  rewrite list_lookup_fmap in Hc. unfold expansion in Hc. cbv zeta in Hc.
  rewrite lookup_app_l, list_lookup_fmap, Ho in Hc
    by (rewrite length_map; by eapply lookup_lt_Some).
  injection Hc as <-. rewrite combination_get_of by by apply NoDup_includes.
  unfold included. rewrite entry_value_includes. unfold under.
  repeat case_match; congruence.
Qed.

End Spec.

(** ** A matrix under the rules of GitHub *)

(** A JSON library that reads nothing: the matrix does not ask it. *)
Definition silent_json : SerdeJson := {| json_document _ := (DFail, true); json_string s := s |}.

Definition plain_session : GithubActivationSession :=
  MkGithubSession evaluation_limits_default []
    (MkContext (λ _, None) StatusSuccess no_extension_functions) StatusSuccess 0.

#[local] Instance plain_rules : LogicalActivationSession GithubActivationEvaluationError :=
  github_session (T := ascii_case_table) (L := ascii_lower_case_table) (S := silent_json)
    plain_session.

Definition text (s : str) : ActivationValue := ActivationString s.

(** Three combinations are left of the product; [LINUX] adds a key to the
    Linux ones, and the last patch stands alone. *)
Definition sample_matrix : ResolvedMatrix :=
  MkResolved
    [(lit "os", [text (lit "linux"); text (lit "windows")]);
     (lit "version", [activation_number (of_int 1); activation_number (of_int 2)])]
    [[(lit "OS", text (lit "LINUX")); (lit "shell", text (lit "bash"))];
     [(lit "os", text (lit "macos")); (lit "version", activation_number (of_int 3))]]
    [[(lit "os", text (lit "Windows")); (lit "version", activation_number (of_int 1))]].

Definition sample_expansion : list MatrixEntries :=
  [[(lit "os", text (lit "linux")); (lit "version", activation_number (of_int 1));
    (lit "shell", text (lit "bash"))];
   [(lit "os", text (lit "linux")); (lit "version", activation_number (of_int 2));
    (lit "shell", text (lit "bash"))];
   [(lit "os", text (lit "windows")); (lit "version", activation_number (of_int 2))];
   [(lit "os", text (lit "macos")); (lit "version", activation_number (of_int 3))]].

Example sample_expands :
  expansion sample_matrix = sample_expansion ∧ originals sample_matrix =
    [[(lit "os", text (lit "linux")); (lit "version", activation_number (of_int 1))];
     [(lit "os", text (lit "linux")); (lit "version", activation_number (of_int 2))];
     [(lit "os", text (lit "windows")); (lit "version", activation_number (of_int 2))]].
Proof. split; vm_compute; reflexivity. Qed.

Lemma expansion_is_exact_witness :
  len (resolved_axes sample_matrix) ≤ MAX_MATRIX_AXES ∧
  fits sample_matrix 4 ∧ ¬ fits sample_matrix 3.
Proof.
  assert (len (resolved_axes sample_matrix) ≤ MAX_MATRIX_AXES) as H by (vm_compute; discriminate).
  split; [exact H|].
  pose proof (expansion_is_exact (J := unit) (P := unit) sample_matrix 4 H) as H4.
  pose proof (expansion_is_exact (J := unit) (P := unit) sample_matrix 3 H) as H3.
  destruct (expand_matrix sample_matrix 4) as [cs|e] eqn:E4; [|vm_compute in E4; discriminate E4].
  destruct (expand_matrix sample_matrix 3) as [cs'|e] eqn:E3; [vm_compute in E3; discriminate E3|].
  split; [exact (proj1 H4)|exact H3].
Defined.

Lemma includes_keep_originals_witness :
  match (expand_matrix sample_matrix 4 : result (LogicalActivationError _ unit unit) _) with
  | Ok (c :: _) => combination_get c (lit "Os") = Some (text (lit "linux"))
                   ∧ combination_get c (lit "SHELL") = Some (text (lit "bash"))
  | _ => False
  end.
Proof.
  destruct (expand_matrix sample_matrix 4) as [[|c cs]|e] eqn:E4;
    [vm_compute in E4; discriminate E4| |vm_compute in E4; discriminate E4].
  assert (len (resolved_axes sample_matrix) ≤ MAX_MATRIX_AXES) as H by (vm_compute; discriminate).
  assert (originals sample_matrix !! 0%nat =
    Some [(lit "os", text (lit "linux")); (lit "version", activation_number (of_int 1))]) as Ho
    by (rewrite (proj2 sample_expands); reflexivity).
  split.
  - etrans; [exact (includes_keep_originals sample_matrix 4 (c :: cs) 0 _ c _ H E4 Ho eq_refl)|].
    vm_compute; reflexivity.
  - etrans; [exact (includes_keep_originals sample_matrix 4 (c :: cs) 0 _ c _ H E4 Ho eq_refl)|].
    vm_compute; reflexivity.
Defined.
