(* ===== verification/WorkflowLogical.v ===== *)
(** * WorkflowLogical: logical jobs, steps and the invocation contract

    Models the templates of [crates/automata-ci-core/src/workflow/logical.rs],
    [invocation.rs] and the permissions of [value.rs], with the validation of
    each against the budget of its plan. The graph of a whole workflow is in
    [WorkflowGraph]. Builders only set fields, so a built value is the record
    with the validation that [build] runs. *)

From S2P Require Import Saga Prelude Text Float64 ExpressionParser WorkflowTemplate.
From S2P Require Import WorkflowStrategy RuntimeContext.
From stdpp Require Import gmap.

Open Scope Z_scope.

(** ** Limits *)

Definition MAX_LOGICAL_JOBS : Z := 1024.
Definition MAX_LOGICAL_JOB_NEEDS : Z := 128.
Definition MAX_LOGICAL_RESULT_REFERENCES : Z := 512.
Definition MAX_LOGICAL_JOB_OUTPUTS : Z := 256.
Definition MAX_LOGICAL_SERVICES : Z := 64.
Definition MAX_LOGICAL_SERVICE_PORTS : Z := 256.
Definition MAX_LOGICAL_SERVICE_OPTIONS : Z := 64.
Definition MAX_TEMPLATE_MAP_ENTRIES : Z := 512.
Definition MAX_LOGICAL_RUNNER_LABELS : Z := 64.
Definition MAX_REUSABLE_BINDINGS : Z := 256.
Definition MAX_INVOCATION_DEFINITIONS : Z := 256.
Definition MAX_INVOCATION_TEXT_BYTES : Z := 65536.

Definition logical_job_count_rejection (observed : Z) : bool := MAX_LOGICAL_JOBS <? observed.
Definition logical_job_need_count_rejection (observed : Z) : bool :=
  MAX_LOGICAL_JOB_NEEDS <? observed.
Definition logical_result_reference_count_rejection (observed : Z) : bool :=
  MAX_LOGICAL_RESULT_REFERENCES <? observed.
Definition logical_job_output_count_rejection (observed : Z) : bool :=
  MAX_LOGICAL_JOB_OUTPUTS <? observed.
Definition logical_step_count_rejection (observed : Z) : bool := MAX_LOGICAL_STEPS <? observed.
Definition logical_service_count_rejection (observed : Z) : bool :=
  MAX_LOGICAL_SERVICES <? observed.
Definition logical_service_port_count_rejection (observed : Z) : bool :=
  MAX_LOGICAL_SERVICE_PORTS <? observed.
Definition logical_service_option_count_rejection (observed : Z) : bool :=
  MAX_LOGICAL_SERVICE_OPTIONS <? observed.
Definition template_map_entry_count_rejection (observed : Z) : bool :=
  MAX_TEMPLATE_MAP_ENTRIES <? observed.
Definition logical_runner_label_count_rejection (observed : Z) : bool :=
  MAX_LOGICAL_RUNNER_LABELS <? observed.
Definition reusable_binding_count_rejection (observed : Z) : bool :=
  MAX_REUSABLE_BINDINGS <? observed.
Definition workflow_invocation_definition_rejection (observed : Z) : bool :=
  MAX_INVOCATION_DEFINITIONS <? observed.
Definition workflow_invocation_text_byte_rejection (observed : Z) : bool :=
  MAX_INVOCATION_TEXT_BYTES <? observed.

(** A value where it was written: its span, then its template. *)
Definition check_value (source_id field : str) (latest : PlanEvaluationPhase)
    (value : Located CompiledValueTemplate) : Charge unit :=
  _ ← validate_span_source (located_span value) source_id field;
  value_template_validate (located_value value) field latest.

Definition check_boolean (source_id field : str) (latest : PlanEvaluationPhase)
    (value : Located CompiledBooleanTemplate) : Charge unit :=
  _ ← validate_span_source (located_span value) source_id field;
  boolean_template_validate (located_value value) field latest.

Definition check_expression (source_id field : str) (latest : PlanEvaluationPhase)
    (value : Located CompiledExpressionTemplate) : Charge unit :=
  _ ← validate_span_source (located_span value) source_id field;
  expression_template_validate (located_value value) field latest.

(** ** Timeouts *)

Inductive LogicalTimeoutUnit := TimeoutSeconds | TimeoutMinutes.

Definition seconds_multiplier (self : LogicalTimeoutUnit) : Z :=
  match self with TimeoutSeconds => 1 | TimeoutMinutes => 60 end.

Record LogicalTimeoutTemplate := MkTimeout {
  timeout_value : CompiledPositiveIntegerTemplate;
  timeout_unit : LogicalTimeoutUnit
}.

Definition timeout_validate (self : LogicalTimeoutTemplate) (field : str)
    (latest : PlanEvaluationPhase) : Charge unit :=
  _ ← integer_template_validate (timeout_value self) field latest;
  match timeout_value self with
  | IntegerLiteral value =>
      _ ← liftM (ok_or (checked_mul u32_max value (seconds_multiplier (timeout_unit self)))
                   (TimeoutScaleOverflow field));
      mret tt
  | IntegerExpression _ => mret tt
  end.

Definition check_timeout (source_id field : str) (latest : PlanEvaluationPhase)
    (value : Located LogicalTimeoutTemplate) : Charge unit :=
  _ ← validate_span_source (located_span value) source_id field;
  timeout_validate (located_value value) field latest.

(** ** Maps of values *)

Record TemplateValueMap := MkValueMap {
  map_entries : list (Located str * Located CompiledValueTemplate)
}.

Definition value_map_default : TemplateValueMap := MkValueMap [].

(** The last value assigned to the key. *)
Definition value_map_get (self : TemplateValueMap) (key : str) :
    option (Located CompiledValueTemplate) :=
  snd <$> List.find (λ entry, str_eqb (located_value entry.1) key) (rev (map_entries self)).

Definition value_map_is_empty (self : TemplateValueMap) : bool :=
  Nat.eqb (length (map_entries self)) 0.

Definition check_map_entry (source_id field : str) (latest : PlanEvaluationPhase)
    (keys : gset str) (entry : Located str * Located CompiledValueTemplate) :
    Charge (gset str) :=
  let '(key, value) := entry in
  _ ← validate_span_source (located_span key) source_id field;
  _ ← validate_span_source (located_span value) source_id field;
  _ ← charge_plan_text field (located_value key) MAX_LOGICAL_FIELD_BYTES;
  _ ← refuse (str_is_empty (located_value key)) (EmptyField field);
  keys ← insert_fresh keys (located_value key) (DuplicateDefinition field (located_value key));
  _ ← value_template_validate (located_value value) field latest;
  mret keys.

Definition value_map_validate (self : TemplateValueMap) (source_id field : str)
    (latest : PlanEvaluationPhase) : Charge unit :=
  _ ← charge_node field;
  _ ← refuse (template_map_entry_count_rejection (len (map_entries self)))
        (PlanLimitExceeded field MAX_TEMPLATE_MAP_ENTRIES);
  _ ← fold_st (check_map_entry source_id field latest) ∅ (map_entries self);
  mret tt.

(** ** Permissions *)

Inductive QueuePolicy := QueueSingle | QueueMax.
Inductive PermissionLevel := PermissionRead | PermissionWrite | PermissionNone.

Record PermissionGrant := MkGrant {
  grant_name : Located str;
  grant_level : Located PermissionLevel
}.

Inductive WorkflowPermissions :=
| ReadAll (span : PlanSourceSpan)
| WriteAll (span : PlanSourceSpan)
| PermissionMapping (grants : list PermissionGrant).

Definition permissions_validate (self : WorkflowPermissions) : Charge unit :=
  match self with
  | PermissionMapping grants =>
      _ ← fold_st (λ names grant,
            let name := located_value (grant_name grant) in
            _ ← refuse (str_is_empty name) (EmptyField (lit "permission name"));
            insert_fresh names name (DuplicatePermission name)) (∅ : gset str) grants;
      mret tt
  | ReadAll _ | WriteAll _ => mret tt
  end.

Record PermissionSnapshotRequest := MkPermissionRequest {
  request_permissions : WorkflowPermissions;
  request_span : PlanSourceSpan
}.

Definition permission_request_validate (self : PermissionSnapshotRequest) (source_id : str) :
    Charge unit :=
  _ ← validate_span_source (request_span self) source_id (lit "permission snapshot request");
  permissions_validate (request_permissions self).

(** ** Concurrency and run defaults *)

Record LogicalConcurrencyTemplate := MkConcurrency {
  concurrency_group : Located CompiledValueTemplate;
  concurrency_cancel_in_progress : option (Located CompiledBooleanTemplate);
  concurrency_queue : QueuePolicy;
  concurrency_span : PlanSourceSpan
}.

Definition concurrency_validate (self : LogicalConcurrencyTemplate) (source_id : str)
    (latest : PlanEvaluationPhase) : Charge unit :=
  let group := concurrency_group self in
  _ ← charge_node (lit "logical concurrency");
  _ ← validate_span_source (concurrency_span self) source_id (lit "logical concurrency");
  _ ← validate_span_source (located_span group) source_id (lit "logical concurrency group");
  _ ← refuse (str_is_empty (trim (value_source (located_value group))))
        (EmptyField (lit "logical concurrency group"));
  _ ← value_template_validate (located_value group) (lit "logical concurrency group") latest;
  if_some (concurrency_cancel_in_progress self)
    (check_boolean source_id (lit "logical concurrency cancellation") latest).

Record LogicalRunDefaultsTemplate := MkRunDefaults {
  defaults_shell : option (Located CompiledValueTemplate);
  defaults_working_directory : option (Located CompiledValueTemplate)
}.

Definition run_defaults_default : LogicalRunDefaultsTemplate := MkRunDefaults None None.

Definition run_defaults_is_empty (self : LogicalRunDefaultsTemplate) : bool :=
  negb (is_some (defaults_shell self)) && negb (is_some (defaults_working_directory self)).

Definition run_defaults_validate (self : LogicalRunDefaultsTemplate) (source_id : str)
    (latest : PlanEvaluationPhase) : Charge unit :=
  _ ← charge_node (lit "logical run defaults");
  for_each (λ '(value, field), if_some value (check_value source_id field latest))
    [(defaults_shell self, lit "logical default shell");
     (defaults_working_directory self, lit "logical default working directory")].

(** ** Runners and resources *)

Record LogicalRunnerTemplate := MkRunnerTemplate {
  runner_group : option (Located CompiledValueTemplate);
  runner_labels : list (Located CompiledValueTemplate);
  runner_span : PlanSourceSpan
}.

Definition check_selector (source_id : str) (value : Located CompiledValueTemplate) :
    Charge unit :=
  _ ← validate_span_source (located_span value) source_id (lit "logical runner selector");
  _ ← refuse (str_is_empty (trim (value_source (located_value value))))
        (EmptyField (lit "logical runner selector"));
  value_template_validate (located_value value) (lit "logical runner selector") JobActivation.

Definition runner_validate (self : LogicalRunnerTemplate) (source_id job : str) : Charge unit :=
  _ ← charge_node (lit "logical runner");
  _ ← validate_span_source (runner_span self) source_id (lit "logical runner");
  _ ← refuse (negb (is_some (runner_group self)) && Nat.eqb (length (runner_labels self)) 0)
        (EmptyRunnerProfile job);
  _ ← refuse (logical_runner_label_count_rejection (len (runner_labels self)))
        (PlanLimitExceeded (lit "logical runner labels") MAX_LOGICAL_RUNNER_LABELS);
  for_each (check_selector source_id)
    (option_list (runner_group self) ++ runner_labels self).

Record LogicalResourceVectorTemplate := MkResourceVectorTemplate {
  resource_cpu : option (Located CompiledValueTemplate);
  resource_memory : option (Located CompiledValueTemplate);
  resource_ephemeral_storage : option (Located CompiledValueTemplate);
  resource_gpu : option (Located CompiledValueTemplate);
  resource_span : PlanSourceSpan
}.

Definition resource_vector_is_empty (self : LogicalResourceVectorTemplate) : bool :=
  negb (is_some (resource_cpu self)) && negb (is_some (resource_memory self))
  && negb (is_some (resource_ephemeral_storage self)) && negb (is_some (resource_gpu self)).

Definition resource_vector_validate (self : LogicalResourceVectorTemplate)
    (source_id field : str) : Charge unit :=
  _ ← charge_node field;
  _ ← validate_span_source (resource_span self) source_id field;
  _ ← refuse (resource_vector_is_empty self) (EmptyField field);
  for_each (λ '(value, value_field),
    if_some value (check_value source_id value_field JobActivation))
    [(resource_cpu self, lit "job resource CPU");
     (resource_memory self, lit "job resource memory");
     (resource_ephemeral_storage self, lit "job resource ephemeral storage");
     (resource_gpu self, lit "job resource GPU")].

Record LogicalJobResourcesTemplate := MkJobResourcesTemplate {
  resources_requests : option LogicalResourceVectorTemplate;
  resources_limits : option LogicalResourceVectorTemplate;
  resources_span : PlanSourceSpan
}.

Definition job_resources_validate (self : LogicalJobResourcesTemplate) (source_id : str) :
    Charge unit :=
  _ ← charge_node (lit "job resources");
  _ ← validate_span_source (resources_span self) source_id (lit "job resources");
  _ ← refuse (negb (is_some (resources_requests self)) && negb (is_some (resources_limits self)))
        (EmptyField (lit "job resources"));
  _ ← if_some (resources_requests self)
        (λ requests, resource_vector_validate requests source_id (lit "job resource requests"));
  if_some (resources_limits self)
    (λ limits, resource_vector_validate limits source_id (lit "job resource limits")).

(** ** Steps *)

Record LogicalRunStepTemplate := MkRunStep {
  run_script : Located CompiledValueTemplate;
  run_shell : option (Located CompiledValueTemplate);
  run_working_directory : option (Located CompiledValueTemplate)
}.

Definition run_step_validate (self : LogicalRunStepTemplate) (source_id : str) : Charge unit :=
  let script := run_script self in
  _ ← validate_span_source (located_span script) source_id (lit "logical run script");
  _ ← refuse (str_is_empty (value_source (located_value script)))
        (EmptyField (lit "logical run script"));
  _ ← value_template_validate (located_value script) (lit "logical run script") JobExecution;
  for_each (λ '(value, field), if_some value (check_value source_id field JobExecution))
    [(run_shell self, lit "logical run shell");
     (run_working_directory self, lit "logical run working directory")].

Record LogicalUsesStepTemplate := MkUsesStep {
  uses_reference : Located str;
  uses_inputs : TemplateValueMap
}.

Definition uses_step_validate (self : LogicalUsesStepTemplate) (source_id : str) : Charge unit :=
  let reference := uses_reference self in
  _ ← validate_span_source (located_span reference) source_id (lit "logical action reference");
  _ ← charge_plan_text (lit "logical action reference") (located_value reference)
        MAX_LOGICAL_FIELD_BYTES;
  _ ← refuse (str_is_empty (located_value reference))
        (EmptyField (lit "logical action reference"));
  value_map_validate (uses_inputs self) source_id (lit "logical action inputs") JobExecution.

Inductive LogicalStepKind :=
| StepRun (run : LogicalRunStepTemplate)
| StepUses (uses : LogicalUsesStepTemplate).

Record LogicalStepTemplate := MkStepTemplate {
  step_key : Located str;
  step_id : option (Located str);
  step_name : option (Located CompiledValueTemplate);
  step_condition : option (Located CompiledExpressionTemplate);
  step_environment : TemplateValueMap;
  step_continue_on_error : option (Located CompiledBooleanTemplate);
  step_timeout : option (Located LogicalTimeoutTemplate);
  step_execution : LogicalStepKind;
  step_span : PlanSourceSpan
}.

Definition step_validate (self : LogicalStepTemplate) (source_id : str) : Charge unit :=
  _ ← charge_node (lit "logical step");
  _ ← validate_span_source (step_span self) source_id (lit "logical step");
  _ ← validate_span_source (located_span (step_key self)) source_id (lit "logical step key");
  _ ← if_some (step_id self) (λ id,
        _ ← validate_span_source (located_span id) source_id (lit "logical step id");
        _ ← charge_plan_text (lit "logical step id") (located_value id) MAX_LOGICAL_FIELD_BYTES;
        refuse (str_is_empty (located_value id)) (EmptyField (lit "logical step id")));
  _ ← if_some (step_name self) (check_value source_id (lit "logical step name") JobExecution);
  _ ← if_some (step_condition self)
        (check_expression source_id (lit "logical step condition") JobExecution);
  _ ← value_map_validate (step_environment self) source_id (lit "logical step environment")
        JobExecution;
  _ ← if_some (step_continue_on_error self)
        (check_boolean source_id (lit "logical step continue-on-error") JobExecution);
  _ ← if_some (step_timeout self)
        (check_timeout source_id (lit "logical step timeout") JobExecution);
  match step_execution self with
  | StepRun run => run_step_validate run source_id
  | StepUses uses => uses_step_validate uses source_id
  end.

(** [LogicalStepTemplateBuilder::build]. *)
Definition step_build (step : LogicalStepTemplate) :
    result WorkflowPlanError LogicalStepTemplate :=
  _ ← (step_validate step (span_source_id (step_span step)) plan_budget_new).2;
  Ok step.

(** ** Services *)

Inductive TransportProtocol := Tcp | Udp.
#[export] Instance transport_protocol_eq_dec : EqDecision TransportProtocol.
Proof. solve_decision. Defined.

(** Ports are [u16]. *)
Record ContainerPort := MkPort {
  container_port : Z;
  requested_host_port : option Z;
  port_protocol : TransportProtocol
}.

Record LogicalServiceContainerTemplate := MkService {
  service_key : Located str;
  service_image : Located str;
  service_environment : TemplateValueMap;
  service_ports : list (Located ContainerPort);
  service_options : list (Located str);
  service_span : PlanSourceSpan
}.

(** The ports and the requested pairs of protocol and host port so far. *)
Definition check_port (source_id : str) (state : list Z * list (TransportProtocol * Z))
    (port : Located ContainerPort) : Charge (list Z * list (TransportProtocol * Z)) :=
  let '(containers, requested) := state in
  let p := located_value port in
  _ ← validate_span_source (located_span port) source_id (lit "logical service port");
  _ ← charge_node (lit "logical service port");
  let taken := match requested_host_port p with
               | Some host => bool_decide ((port_protocol p, host) ∈ requested)
               | None => false
               end in
  _ ← refuse ((container_port p =? 0) || bool_decide (requested_host_port p = Some 0)
              || bool_decide (container_port p ∈ containers) || taken)
        (InvalidPlanKey (lit "logical service port") (show_int (container_port p)));
  mret (container_port p :: containers,
        match requested_host_port p with
        | Some host => (port_protocol p, host) :: requested
        | None => requested
        end).

Definition check_option (source_id : str) (option : Located str) : Charge unit :=
  _ ← validate_span_source (located_span option) source_id (lit "logical service option");
  _ ← charge_node (lit "logical service option");
  _ ← charge_plan_text (lit "logical service option") (located_value option)
        MAX_LOGICAL_FIELD_BYTES;
  refuse (str_is_empty (located_value option) || existsb is_control (located_value option))
    (InvalidPlanKey (lit "logical service option") (located_value option)).

Definition service_validate (self : LogicalServiceContainerTemplate) (source_id : str) :
    Charge unit :=
  let image := located_value (service_image self) in
  _ ← charge_node (lit "logical service container");
  _ ← validate_span_source (located_span (service_key self)) source_id
        (lit "logical service key");
  _ ← validate_span_source (located_span (service_image self)) source_id
        (lit "logical service image");
  _ ← validate_span_source (service_span self) source_id (lit "logical service container");
  _ ← charge_plan_text (lit "logical service key") (located_value (service_key self))
        MAX_LOGICAL_FIELD_BYTES;
  _ ← charge_plan_text (lit "logical service image") image MAX_LOGICAL_FIELD_BYTES;
  _ ← refuse (str_is_empty (trim image) || negb (str_eqb (trim image) image)
              || existsb is_control image)
        (InvalidPlanKey (lit "logical service image") image);
  _ ← value_map_validate (service_environment self) source_id
        (lit "logical service environment") JobExecution;
  _ ← refuse (logical_service_port_count_rejection (len (service_ports self)))
        (PlanLimitExceeded (lit "logical service ports") MAX_LOGICAL_SERVICE_PORTS);
  _ ← fold_st (check_port source_id) ([], []) (service_ports self);
  _ ← refuse (logical_service_option_count_rejection (len (service_options self)))
        (PlanLimitExceeded (lit "logical service options") MAX_LOGICAL_SERVICE_OPTIONS);
  for_each (check_option source_id) (service_options self).

(** ** Jobs made of steps *)

Record StepJobTemplate := MkStepJob {
  step_job_runner : LogicalRunnerTemplate;
  step_job_resources : option LogicalJobResourcesTemplate;
  step_job_services : list LogicalServiceContainerTemplate;
  step_job_steps : list LogicalStepTemplate;
  step_job_span : PlanSourceSpan
}.

Definition step_job_new (runner : LogicalRunnerTemplate) (steps : list LogicalStepTemplate)
    (span : PlanSourceSpan) : StepJobTemplate :=
  MkStepJob runner None [] steps span.

(** Service keys are compared in lower case. *)
Definition check_service (source_id : str) (keys : gset str)
    (service : LogicalServiceContainerTemplate) : Charge (gset str) :=
  let key := located_value (service_key service) in
  keys ← insert_fresh keys (map to_ascii_lowercase key)
           (DuplicateDefinition (lit "logical services") key);
  _ ← service_validate service source_id;
  mret keys.

Definition check_step (source_id job : str) (state : gset str * gset str)
    (step : LogicalStepTemplate) : Charge (gset str * gset str) :=
  let '(keys, ids) := state in
  let key := located_value (step_key step) in
  keys ← insert_fresh keys key (DuplicateStep job key);
  ids ← match step_id step with
        | Some id =>
            insert_fresh ids (located_value id)
              (DuplicateDefinition (lit "logical step ids") (located_value id))
        | None => mret ids
        end;
  _ ← step_validate step source_id;
  mret (keys, ids).

Definition step_job_validate (self : StepJobTemplate) (source_id job : str) : Charge unit :=
  _ ← charge_node (lit "step job template");
  _ ← validate_span_source (step_job_span self) source_id (lit "step job template");
  _ ← runner_validate (step_job_runner self) source_id job;
  _ ← if_some (step_job_resources self) (λ resources, job_resources_validate resources source_id);
  _ ← refuse (logical_service_count_rejection (len (step_job_services self)))
        (PlanLimitExceeded (lit "logical services") MAX_LOGICAL_SERVICES);
  _ ← fold_st (check_service source_id) ∅ (step_job_services self);
  _ ← refuse (Nat.eqb (length (step_job_steps self)) 0) (NoSteps job);
  _ ← refuse (logical_step_count_rejection (len (step_job_steps self)))
        (PlanLimitExceeded (lit "logical steps") MAX_LOGICAL_STEPS);
  _ ← fold_st (check_step source_id job) (∅, ∅) (step_job_steps self);
  mret tt.

(** ** Calls of reusable workflows *)

Record ReusableInputBinding := MkInputBinding {
  input_binding_target : Located str;
  input_binding_value : Located CompiledValueTemplate
}.

Record ReusableSecretBinding := MkReusableSecretBinding {
  secret_binding_target : Located str;
  secret_binding_source : Located str
}.

Inductive ReusableSecretForwarding :=
| SecretMapping (bindings : list ReusableSecretBinding)
| SecretInherit (span : PlanSourceSpan).

Record ReusableWorkflowInvocation := MkReusableInvocation {
  invocation_reference : Located str;
  invocation_inputs : list ReusableInputBinding;
  invocation_secrets : ReusableSecretForwarding;
  invocation_span : PlanSourceSpan
}.

Definition check_input_binding (source_id : str) (targets : gset str)
    (input : ReusableInputBinding) : Charge (gset str) :=
  let target := input_binding_target input in
  let value := input_binding_value input in
  _ ← validate_span_source (located_span target) source_id (lit "reusable input target");
  _ ← validate_span_source (located_span value) source_id (lit "reusable input value");
  targets ← insert_fresh targets (located_value target)
              (DuplicateDefinition (lit "reusable workflow inputs") (located_value target));
  _ ← value_template_validate (located_value value) (lit "reusable input value") JobActivation;
  mret targets.

Definition check_secret_binding (source_id : str) (targets : gset str)
    (binding : ReusableSecretBinding) : Charge (gset str) :=
  let target := secret_binding_target binding in
  _ ← validate_span_source (located_span target) source_id (lit "reusable secret target");
  _ ← validate_span_source (located_span (secret_binding_source binding)) source_id
        (lit "reusable secret source");
  insert_fresh targets (located_value target)
    (DuplicateDefinition (lit "reusable workflow secrets") (located_value target)).

Definition reusable_invocation_validate (self : ReusableWorkflowInvocation) (source_id : str) :
    Charge unit :=
  let reference := invocation_reference self in
  _ ← charge_node (lit "reusable workflow invocation");
  _ ← validate_span_source (invocation_span self) source_id (lit "reusable workflow invocation");
  _ ← validate_span_source (located_span reference) source_id
        (lit "reusable workflow reference");
  _ ← charge_plan_text (lit "reusable workflow reference") (located_value reference)
        MAX_LOGICAL_FIELD_BYTES;
  _ ← refuse (str_is_empty (located_value reference))
        (EmptyField (lit "reusable workflow reference"));
  _ ← refuse (reusable_binding_count_rejection (len (invocation_inputs self)))
        (PlanLimitExceeded (lit "reusable workflow inputs") MAX_REUSABLE_BINDINGS);
  _ ← fold_st (check_input_binding source_id) ∅ (invocation_inputs self);
  match invocation_secrets self with
  | SecretInherit span => validate_span_source span source_id (lit "reusable inherited secrets")
  | SecretMapping bindings =>
      _ ← refuse (reusable_binding_count_rejection (len bindings))
            (PlanLimitExceeded (lit "reusable workflow secrets") MAX_REUSABLE_BINDINGS);
      _ ← fold_st (check_secret_binding source_id) ∅ bindings;
      mret tt
  end.

(** ** Results *)

Inductive LogicalResultValue := ResultConclusion | ResultOutput (output : str).
#[export] Instance logical_result_value_eq_dec : EqDecision LogicalResultValue.
Proof. solve_decision. Defined.

Record LogicalResultReference := MkResultReference {
  reference_job : str;
  reference_value : LogicalResultValue
}.
#[export] Instance logical_result_reference_eq_dec : EqDecision LogicalResultReference.
Proof. solve_decision. Defined.

(** [Display]. *)
Definition result_reference_to_string (self : LogicalResultReference) : str :=
  match reference_value self with
  | ResultConclusion => reference_job self ++ lit ".result"
  | ResultOutput output => reference_job self ++ lit ".outputs." ++ output
  end.

Inductive LogicalOutputMergePolicy := SingleInstance | LastSuccessfulCompletion.
#[export] Instance merge_policy_eq_dec : EqDecision LogicalOutputMergePolicy.
Proof. solve_decision. Defined.

Inductive LogicalJobOutputSource :=
| OutputTemplate (value : Located CompiledValueTemplate)
| InvocationOutput (output : Located str).

Record LogicalJobOutputDefinition := MkJobOutput {
  output_key : Located str;
  output_source : LogicalJobOutputSource;
  output_merge : LogicalOutputMergePolicy;
  output_sensitivity : OutputSensitivity;
  output_span : PlanSourceSpan
}.

Inductive LogicalJobKind :=
| JobSteps (steps : StepJobTemplate)
| JobReusableWorkflow (invocation : ReusableWorkflowInvocation).

(** A public output whose template names the secrets. *)
Definition public_secret (sensitivity : OutputSensitivity) (value : CompiledValueTemplate) :
    bool :=
  bool_decide (sensitivity = SensitivityPublic) && value_references_context value CtxSecrets.

Definition job_output_validate (self : LogicalJobOutputDefinition) (source_id job : str)
    (job_kind : LogicalJobKind) (has_strategy : bool) : Charge unit :=
  _ ← charge_node (lit "logical job output");
  _ ← validate_span_source (output_span self) source_id (lit "logical job output");
  _ ← validate_span_source (located_span (output_key self)) source_id
        (lit "logical job output key");
  _ ← refuse (negb has_strategy && negb (bool_decide (output_merge self = SingleInstance)))
        (InvalidOutputMergePolicy job);
  match output_source self, job_kind with
  | OutputTemplate value, JobSteps _ =>
      _ ← check_value source_id (lit "logical job output value") JobFinalization value;
      refuse (public_secret (output_sensitivity self) (located_value value))
        (PublicOutputReferencesSecrets (located_value (output_key self)))
  | InvocationOutput output, JobReusableWorkflow _ =>
      validate_span_source (located_span output) source_id (lit "reusable workflow output")
  | OutputTemplate _, JobReusableWorkflow _ =>
      refuse true (IncompatibleLogicalJobField job (lit "template output"))
  | InvocationOutput _, JobSteps _ =>
      refuse true (IncompatibleLogicalJobField job (lit "invocation output"))
  end.

Record DeploymentSelection := MkDeployment {
  deployment_name : Located CompiledValueTemplate;
  deployment_url : option (Located CompiledValueTemplate);
  deployment_span : PlanSourceSpan
}.

Definition deployment_validate (self : DeploymentSelection) (source_id : str) : Charge unit :=
  let name := deployment_name self in
  _ ← charge_node (lit "deployment selection");
  _ ← validate_span_source (deployment_span self) source_id (lit "deployment selection");
  _ ← validate_span_source (located_span name) source_id (lit "deployment environment name");
  _ ← refuse (str_is_empty (trim (value_source (located_value name))))
        (EmptyField (lit "deployment environment name"));
  _ ← value_template_validate (located_value name) (lit "deployment environment name")
        JobActivation;
  if_some (deployment_url self)
    (check_value source_id (lit "deployment environment URL") JobFinalization).

(** ** Jobs *)

(** [source_order] is a [u32]. *)
Record LogicalJobTemplate := MkJob {
  job_key : Located str;
  job_source_order : Z;
  job_name : option (Located CompiledValueTemplate);
  job_needs : list (Located str);
  job_result_references : list (Located LogicalResultReference);
  job_condition : option (Located CompiledExpressionTemplate);
  job_strategy : option WorkflowStrategyTemplate;
  job_permissions : option PermissionSnapshotRequest;
  job_concurrency : option LogicalConcurrencyTemplate;
  job_environment : TemplateValueMap;
  job_run_defaults : LogicalRunDefaultsTemplate;
  job_timeout : option (Located LogicalTimeoutTemplate);
  job_continue_on_error : option (Located CompiledBooleanTemplate);
  job_outputs : list LogicalJobOutputDefinition;
  job_deployment : option DeploymentSelection;
  job_execution : LogicalJobKind;
  job_span : PlanSourceSpan
}.

(** [LogicalJobTemplate::builder] before any field is set. *)
Definition job_builder (key : Located str) (source_order : Z) (execution : LogicalJobKind)
    (span : PlanSourceSpan) : LogicalJobTemplate :=
  MkJob key source_order None [] [] None None None None value_map_default run_defaults_default
    None None [] None execution span.

Definition check_need (source_id : str) (needs : gset str) (dependency : Located str) :
    Charge (gset str) :=
  _ ← validate_span_source (located_span dependency) source_id (lit "logical job need");
  insert_fresh needs (located_value dependency)
    (DuplicateDefinition (lit "logical job needs") (located_value dependency)).

Definition check_reference (source_id : str) (references : list LogicalResultReference)
    (reference : Located LogicalResultReference) : Charge (list LogicalResultReference) :=
  _ ← validate_span_source (located_span reference) source_id (lit "logical result reference");
  _ ← refuse (bool_decide (located_value reference ∈ references))
        (DuplicateDefinition (lit "logical result references")
           (result_reference_to_string (located_value reference)));
  mret (located_value reference :: references).

Definition validate_links (self : LogicalJobTemplate) (source_id : str) : Charge unit :=
  _ ← validate_span_source (job_span self) source_id (lit "logical job");
  _ ← validate_span_source (located_span (job_key self)) source_id (lit "logical job key");
  _ ← refuse (logical_job_need_count_rejection (len (job_needs self)))
        (PlanLimitExceeded (lit "logical job needs") MAX_LOGICAL_JOB_NEEDS);
  _ ← fold_st (check_need source_id) ∅ (job_needs self);
  _ ← refuse (logical_result_reference_count_rejection (len (job_result_references self)))
        (PlanLimitExceeded (lit "logical result references") MAX_LOGICAL_RESULT_REFERENCES);
  _ ← fold_st (check_reference source_id) [] (job_result_references self);
  mret tt.

Definition validate_templates (self : LogicalJobTemplate) (source_id : str) : Charge unit :=
  _ ← if_some (job_name self) (check_value source_id (lit "logical job name") JobActivation);
  _ ← if_some (job_condition self)
        (check_expression source_id (lit "logical job condition") JobActivation);
  _ ← if_some (job_strategy self) (λ strategy, strategy_validate strategy source_id);
  _ ← if_some (job_permissions self)
        (λ permissions, permission_request_validate permissions source_id);
  _ ← if_some (job_concurrency self)
        (λ concurrency, concurrency_validate concurrency source_id JobActivation);
  _ ← value_map_validate (job_environment self) source_id (lit "logical job environment")
        JobExecution;
  _ ← run_defaults_validate (job_run_defaults self) source_id JobExecution;
  _ ← if_some (job_timeout self)
        (check_timeout source_id (lit "logical job timeout") JobActivation);
  if_some (job_continue_on_error self)
    (check_boolean source_id (lit "logical job continue-on-error") JobActivation).

Definition check_output (self : LogicalJobTemplate) (source_id : str) (outputs : gset str)
    (output : LogicalJobOutputDefinition) : Charge (gset str) :=
  let key := located_value (output_key output) in
  outputs ← insert_fresh outputs key (DuplicateDefinition (lit "logical job outputs") key);
  _ ← job_output_validate output source_id (located_value (job_key self)) (job_execution self)
        (is_some (job_strategy self));
  mret outputs.

Definition validate_outputs (self : LogicalJobTemplate) (source_id : str) : Charge unit :=
  _ ← refuse (logical_job_output_count_rejection (len (job_outputs self)))
        (PlanLimitExceeded (lit "logical job outputs") MAX_LOGICAL_JOB_OUTPUTS);
  _ ← fold_st (check_output self source_id) ∅ (job_outputs self);
  if_some (job_deployment self) (λ deployment, deployment_validate deployment source_id).

Definition validate_execution (self : LogicalJobTemplate) (source_id : str) : Charge unit :=
  let key := located_value (job_key self) in
  match job_execution self with
  | JobSteps steps => step_job_validate steps source_id key
  | JobReusableWorkflow invocation =>
      _ ← for_each (λ '(present, field), refuse present (IncompatibleLogicalJobField key field))
            [(negb (value_map_is_empty (job_environment self)), lit "environment");
             (negb (run_defaults_is_empty (job_run_defaults self)), lit "run defaults");
             (is_some (job_timeout self), lit "timeout");
             (is_some (job_continue_on_error self), lit "continue-on-error");
             (is_some (job_deployment self), lit "deployment")];
      reusable_invocation_validate invocation source_id
  end.

Definition job_validate (self : LogicalJobTemplate) (source_id : str) : Charge unit :=
  _ ← charge_node (lit "logical job");
  _ ← validate_links self source_id;
  _ ← validate_templates self source_id;
  _ ← validate_outputs self source_id;
  validate_execution self source_id.

(** [LogicalJobTemplateBuilder::build]. *)
Definition job_build (job : LogicalJobTemplate) : result WorkflowPlanError LogicalJobTemplate :=
  _ ← (job_validate job (span_source_id (job_span job)) plan_budget_new).2;
  Ok job.

(** ** The invocation contract *)

Definition charge_invocation_text (field value : str) : Charge unit :=
  _ ← refuse (workflow_invocation_text_byte_rejection (str_len value))
        (PlanLimitExceeded field MAX_INVOCATION_TEXT_BYTES);
  charge_plan_text field value MAX_INVOCATION_TEXT_BYTES.

Inductive InvocationInputType := InputBoolean | InputNumber | InputString.
#[export] Instance invocation_input_type_eq_dec : EqDecision InvocationInputType.
Proof. solve_decision. Defined.

Inductive InvocationInputDefault :=
| DefaultBoolean (value : bool)
| DefaultNumber (value : str)
| DefaultString (value : str).

Definition default_input_type (self : InvocationInputDefault) : InvocationInputType :=
  match self with
  | DefaultBoolean _ => InputBoolean
  | DefaultNumber _ => InputNumber
  | DefaultString _ => InputString
  end.

(** [invocation.rs] repeats the scanner of [strategy.rs] under another name. *)
Definition invocation_valid_decimal (value : str) : bool := is_json_number value.

Definition input_default_validate (self : InvocationInputDefault) : Charge unit :=
  _ ← charge_node (lit "invocation input default");
  match self with
  | DefaultBoolean _ => mret tt
  | DefaultNumber value =>
      _ ← charge_plan_text (lit "invocation number default") value 128;
      refuse (negb (invocation_valid_decimal value)) (InvalidNumber value)
  | DefaultString value => charge_invocation_text (lit "invocation string default") value
  end.

Record InvocationInputDefinition := MkInvocationInput {
  input_key : Located str;
  input_type : Located InvocationInputType;
  input_required : bool;
  input_default : option (Located InvocationInputDefault);
  input_description : option (Located str);
  input_span : PlanSourceSpan
}.

Definition check_description (source_id field : str) (description : Located str) : Charge unit :=
  _ ← validate_span_source (located_span description) source_id field;
  charge_invocation_text field (located_value description).

Definition invocation_input_validate (self : InvocationInputDefinition) (source_id : str) :
    Charge unit :=
  let key := located_value (input_key self) in
  _ ← charge_node (lit "invocation input");
  _ ← validate_span_source (input_span self) source_id (lit "invocation input");
  _ ← validate_span_source (located_span (input_key self)) source_id
        (lit "invocation input key");
  _ ← validate_span_source (located_span (input_type self)) source_id
        (lit "invocation input type");
  _ ← refuse (input_required self && is_some (input_default self))
        (RequiredInputHasDefault key);
  _ ← if_some (input_default self) (λ default,
        _ ← validate_span_source (located_span default) source_id
              (lit "invocation input default");
        _ ← input_default_validate (located_value default);
        refuse (negb (bool_decide (default_input_type (located_value default)
                                   = located_value (input_type self))))
          (InvocationDefaultTypeMismatch key));
  if_some (input_description self)
    (check_description source_id (lit "invocation input description")).

Record InvocationSecretDefinition := MkInvocationSecret {
  secret_key : Located str;
  secret_required : bool;
  secret_description : option (Located str);
  secret_span : PlanSourceSpan
}.

Definition invocation_secret_validate (self : InvocationSecretDefinition) (source_id : str) :
    Charge unit :=
  _ ← charge_node (lit "invocation secret");
  _ ← validate_span_source (secret_span self) source_id (lit "invocation secret");
  _ ← validate_span_source (located_span (secret_key self)) source_id
        (lit "invocation secret key");
  if_some (secret_description self)
    (check_description source_id (lit "invocation secret description")).

Record WorkflowOutputDefinition := MkWorkflowOutput {
  workflow_output_key : Located str;
  workflow_output_value : Located CompiledValueTemplate;
  workflow_output_references : list (Located LogicalResultReference);
  workflow_output_sensitivity : OutputSensitivity;
  workflow_output_description : option (Located str);
  workflow_output_span : PlanSourceSpan
}.

Definition check_output_reference (source_id : str) (references : list LogicalResultReference)
    (reference : Located LogicalResultReference) : Charge (list LogicalResultReference) :=
  _ ← charge_node (lit "workflow output result reference");
  _ ← validate_span_source (located_span reference) source_id
        (lit "workflow output result reference");
  _ ← refuse (bool_decide (located_value reference ∈ references))
        (DuplicateDefinition (lit "workflow output result references")
           (result_reference_to_string (located_value reference)));
  mret (located_value reference :: references).

Definition workflow_output_validate (self : WorkflowOutputDefinition) (source_id : str) :
    Charge unit :=
  let value := workflow_output_value self in
  _ ← charge_node (lit "workflow output");
  _ ← validate_span_source (workflow_output_span self) source_id (lit "workflow output");
  _ ← validate_span_source (located_span (workflow_output_key self)) source_id
        (lit "workflow output key");
  _ ← validate_span_source (located_span value) source_id (lit "workflow output value");
  _ ← value_template_validate (located_value value) (lit "workflow output value")
        WorkflowFinalization;
  _ ← refuse (public_secret (workflow_output_sensitivity self) (located_value value))
        (PublicOutputReferencesSecrets (located_value (workflow_output_key self)));
  _ ← refuse (MAX_LOGICAL_RESULT_REFERENCES <? len (workflow_output_references self))
        (PlanLimitExceeded (lit "workflow output result references")
           MAX_LOGICAL_RESULT_REFERENCES);
  _ ← fold_st (check_output_reference source_id) [] (workflow_output_references self);
  if_some (workflow_output_description self)
    (check_description source_id (lit "workflow output description")).

Record WorkflowInvocationContract := MkInvocationContract {
  contract_inputs : list InvocationInputDefinition;
  contract_secrets : list InvocationSecretDefinition;
  contract_outputs : list WorkflowOutputDefinition;
  contract_span : PlanSourceSpan
}.

Definition validate_count (field : str) (count : Z) : Charge unit :=
  refuse (workflow_invocation_definition_rejection count)
    (PlanLimitExceeded field MAX_INVOCATION_DEFINITIONS).

(** One definition of a list whose keys are unique. *)
Definition check_definition {A : Type} (field : str) (key : A → str) (validate : A → Charge unit)
    (keys : gset str) (definition : A) : Charge (gset str) :=
  keys ← insert_fresh keys (key definition) (DuplicateDefinition field (key definition));
  _ ← validate definition;
  mret keys.

Definition contract_validate (self : WorkflowInvocationContract) (source_id : str) : Charge unit :=
  _ ← charge_node (lit "workflow invocation contract");
  _ ← validate_span_source (contract_span self) source_id (lit "workflow invocation contract");
  _ ← validate_count (lit "invocation inputs") (len (contract_inputs self));
  _ ← validate_count (lit "invocation secrets") (len (contract_secrets self));
  _ ← validate_count (lit "invocation outputs") (len (contract_outputs self));
  _ ← fold_st (check_definition (lit "invocation inputs") (λ i, located_value (input_key i))
                 (λ i, invocation_input_validate i source_id)) ∅ (contract_inputs self);
  _ ← fold_st (check_definition (lit "invocation secrets") (λ s, located_value (secret_key s))
                 (λ s, invocation_secret_validate s source_id)) ∅ (contract_secrets self);
  _ ← fold_st (check_definition (lit "invocation outputs")
                 (λ o, located_value (workflow_output_key o))
                 (λ o, workflow_output_validate o source_id)) ∅ (contract_outputs self);
  mret tt.
