(* ===== verification/WorkflowGraph.v ===== *)
(** * WorkflowGraph: the dependency graph of a workflow plan

    Models [LogicalWorkflowPlan::validate] and the graph checks of
    [crates/automata-ci-core/src/workflow/logical.rs], and the envelope of
    [plan.rs]: unique keys in canonical order, known prerequisites, results
    that name declared outputs of direct prerequisites, and the depth-first
    search that refuses cycles. The search recurses on a counter one above the
    number of jobs; [visit_spec] shows that it is enough and that the
    [expect] of the source cannot fail. *)

From S2P Require Import Prelude Text Capability ExpressionParser WorkflowTemplate.
From S2P Require Import WorkflowStrategy RuntimeContext WorkflowLogical.
From stdpp Require Import gmap relations.

Open Scope Z_scope.

(** ** The body of a workflow *)

Record LogicalWorkflowPlan := MkLogicalPlan {
  plan_invocation : option WorkflowInvocationContract;
  plan_run_name : option (Located CompiledValueTemplate);
  plan_permissions : option PermissionSnapshotRequest;
  plan_environment : TemplateValueMap;
  plan_run_defaults : LogicalRunDefaultsTemplate;
  plan_concurrency : option LogicalConcurrencyTemplate;
  plan_jobs : list LogicalJobTemplate;
  plan_span : PlanSourceSpan
}.

(** How validation can end other than well: with an error of the plan, or,
    were the code wrong, in the [expect] of [visit] or without end. *)
Inductive PlanFailure :=
| PlanRejected (error : WorkflowPlanError)
| PlanPanicked
| PlanOutOfFuel.

Definition plan_reject (c : bool) (e : WorkflowPlanError) : result PlanFailure unit :=
  reject c (PlanRejected e).

Definition key_of (job : LogicalJobTemplate) : str := located_value (job_key job).
Definition needs_of (job : LogicalJobTemplate) : list str := map located_value (job_needs job).

(** [jobs.iter().find(|candidate| candidate.key().value() == key)]. *)
Definition find_job (jobs : list LogicalJobTemplate) (key : str) : option LogicalJobTemplate :=
  List.find (λ candidate, str_eqb (key_of candidate) key) jobs.

(** ** References *)

Definition declares_output (job : LogicalJobTemplate) (output : str) : bool :=
  existsb (λ item, str_eqb (located_value (output_key item)) output) (job_outputs job).

Definition validate_result_reference (reference : LogicalResultReference)
    (jobs : list LogicalJobTemplate) : result PlanFailure unit :=
  match find_job jobs (reference_job reference) with
  | None =>
      Err (PlanRejected (UnknownResultJob (lit "workflow output") (reference_job reference)))
  | Some job =>
      match reference_value reference with
      | ResultOutput output =>
          plan_reject (negb (declares_output job output))
            (UnknownResultOutput (reference_job reference) output)
      | ResultConclusion => Ok tt
      end
  end.

(** ** Cycles *)

(** The state is the pair of the sets [visiting] and [complete]. *)
Definition visit_mark (key : str) : stM (gset str * gset str) PlanFailure unit :=
  λ '(visiting, complete), (({[key]} ∪ visiting, complete), Ok tt).
Definition visit_finish (key : str) : stM (gset str * gset str) PlanFailure unit :=
  λ '(visiting, complete), ((visiting ∖ {[key]}, {[key]} ∪ complete), Ok tt).

Fixpoint visit (fuel : nat) (jobs : list LogicalJobTemplate) (key : str) :
    stM (gset str * gset str) PlanFailure unit :=
  match fuel with
  | O => liftM (Err PlanOutOfFuel)
  | S fuel =>
      '(visiting, complete) ← getM;
      if bool_decide (key ∈ complete) then mret tt
      else
        _ ← liftM (plan_reject (bool_decide (key ∈ visiting)) DependencyCycle);
        _ ← visit_mark key;
        job ← liftM (ok_or (find_job jobs key) PlanPanicked);
        _ ← for_each (visit fuel jobs) (needs_of job);
        visit_finish key
  end.

Definition visit_fuel (jobs : list LogicalJobTemplate) : nat := S (length jobs).

Definition validate_acyclic (jobs : list LogicalJobTemplate) : result PlanFailure unit :=
  (for_each (visit (visit_fuel jobs) jobs) (map key_of jobs) (∅, ∅)).2.

(** ** The graph *)

Definition check_dependency (keys : gset str) (job : LogicalJobTemplate) (dependency : str) :
    result PlanFailure unit :=
  _ ← plan_reject (str_eqb dependency (key_of job)) (SelfDependency (key_of job));
  plan_reject (negb (bool_decide (dependency ∈ keys)))
    (UnknownDependency (key_of job) dependency).

Definition check_result (keys : gset str) (jobs : list LogicalJobTemplate)
    (job : LogicalJobTemplate) (reference : LogicalResultReference) : result PlanFailure unit :=
  _ ← plan_reject (negb (bool_decide (reference_job reference ∈ keys)))
        (UnknownResultJob (key_of job) (reference_job reference));
  _ ← plan_reject (negb (existsb (str_eqb (reference_job reference)) (needs_of job)))
        (ResultNotDependency (key_of job) (reference_job reference));
  validate_result_reference reference jobs.

(** [for item in items { check(item)?; }] without state. *)
Definition check_all {E A : Type} (f : A → result E unit) (l : list A) : result E unit :=
  try_fold (λ _ a, f a) tt l.

Definition check_job_links (keys : gset str) (jobs : list LogicalJobTemplate)
    (job : LogicalJobTemplate) : result PlanFailure unit :=
  _ ← check_all (check_dependency keys job) (needs_of job);
  check_all (check_result keys jobs job) (map located_value (job_result_references job)).

Definition validate_logical_graph (jobs : list LogicalJobTemplate) (keys : gset str) :
    result PlanFailure unit :=
  _ ← check_all (check_job_links keys jobs) jobs;
  validate_acyclic jobs.

(** ** Validation of the body *)

(** One job: at its place, with a new key, and valid. *)
Definition check_job (source_id : str) (state : nat * gset str) (job : LogicalJobTemplate) :
    Charge (nat * gset str) :=
  let '(index, keys) := state in
  _ ← refuse (negb (job_source_order job =? Z.of_nat index)) NonCanonicalJobOrder;
  keys ← insert_fresh keys (key_of job) (DuplicateJob (key_of job));
  _ ← job_validate job source_id;
  mret (S index, keys).

(** What is checked before the graph; the keys it returns are those of the jobs. *)
Definition logical_plan_check (self : LogicalWorkflowPlan) (source_id : str) : Charge (gset str) :=
  _ ← charge_node (lit "logical workflow");
  _ ← validate_span_source (plan_span self) source_id (lit "logical workflow");
  _ ← refuse (Nat.eqb (length (plan_jobs self)) 0) NoJobs;
  _ ← refuse (logical_job_count_rejection (len (plan_jobs self)))
        (PlanLimitExceeded (lit "logical jobs") MAX_LOGICAL_JOBS);
  _ ← if_some (plan_invocation self) (λ invocation, contract_validate invocation source_id);
  _ ← if_some (plan_run_name self)
        (check_value source_id (lit "logical workflow run name") Admission);
  _ ← if_some (plan_permissions self)
        (λ permissions, permission_request_validate permissions source_id);
  _ ← value_map_validate (plan_environment self) source_id (lit "logical workflow environment")
        JobExecution;
  _ ← run_defaults_validate (plan_run_defaults self) source_id JobExecution;
  _ ← if_some (plan_concurrency self)
        (λ concurrency, concurrency_validate concurrency source_id Admission);
  '(_, keys) ← fold_st (check_job source_id) (O, ∅) (plan_jobs self);
  mret keys.

(** The results that the outputs of the contract read. *)
Definition contract_references (self : LogicalWorkflowPlan) : list LogicalResultReference :=
  match plan_invocation self with
  | Some invocation =>
      contract_outputs invocation ≫=
        λ output, map located_value (workflow_output_references output)
  | None => []
  end.

Definition logical_plan_validate (self : LogicalWorkflowPlan) (source_id : str) :
    result PlanFailure unit :=
  keys ← map_err PlanRejected (logical_plan_check self source_id plan_budget_new).2;
  _ ← validate_logical_graph (plan_jobs self) keys;
  check_all (λ reference, validate_result_reference reference (plan_jobs self))
    (contract_references self).

(** ** The envelope *)

(** [WorkflowPlanVersion]: only the current version can be made. *)
Definition WorkflowPlanVersion : Type := Bounded 1 u16_max.
Definition plan_version_current : WorkflowPlanVersion := MkBounded (lo := 1) (hi := u16_max) 1 I.
Definition plan_version_new (version : Z) : result WorkflowPlanError WorkflowPlanVersion :=
  version ← ok_or (Prelude.bounded 1 u16_max version) ZeroPlanVersion;
  if bool_decide (version = plan_version_current) then Ok version
  else Err (UnsupportedPlanVersion (bget plan_version_current) (bget version)).

Inductive GitObjectAlgorithm := GitSha1 | GitSha256.
Record GitObjectId := MkGitObject { git_algorithm : GitObjectAlgorithm; git_bytes : list Z }.

Inductive PlanSourceOrigin :=
| OriginRepository (repository : str) (revision : GitObjectId) (path : str)
| OriginArchive (snapshot_digest : Sha256Digest) (path : str)
| OriginLocalPath (path : str)
| OriginMemory (name : str).

Record WorkflowSourceProvenance := MkSourceProvenance {
  source_provider : str;
  source_identity : str;
  source_origin : PlanSourceOrigin
}.

Record WorkflowEventProvenance := MkEventProvenance {
  event_provider : str;
  event_name : str;
  event_delivery_id : option str;
  event_commit_sha : option GitObjectId;
  event_git_ref : option str;
  event_selection_digest : option Sha256Digest;
  event_configured_trigger_span : option PlanSourceSpan
}.

Record WorkflowPlan := MkWorkflowPlan {
  workflow_version : WorkflowPlanVersion;
  workflow_source : WorkflowSourceProvenance;
  workflow_event : WorkflowEventProvenance;
  workflow_name : option (Located str);
  workflow_logical : LogicalWorkflowPlan;
  workflow_span : PlanSourceSpan
}.

Definition validate_logical_plan_text (field value : str) : result PlanFailure unit :=
  plan_reject (MAX_LOGICAL_FIELD_BYTES <? str_len value)
    (PlanLimitExceeded field MAX_LOGICAL_FIELD_BYTES).

Definition plan_span_source (span : PlanSourceSpan) (source_id field : str) :
    result PlanFailure unit :=
  plan_reject (negb (str_eqb (span_source_id span) source_id)) (NestedSourceMismatch field).

(** The named texts of an origin. *)
Definition origin_fields (origin : PlanSourceOrigin) : list (str * str) :=
  match origin with
  | OriginRepository repository _ path =>
      [(lit "source repository", repository); (lit "source workflow path", path)]
  | OriginArchive _ path => [(lit "source archive path", path)]
  | OriginLocalPath path => [(lit "source local path", path)]
  | OriginMemory name => [(lit "source memory name", name)]
  end.

Definition check_filled (entry : str * str) : result PlanFailure unit :=
  plan_reject (str_is_empty (trim entry.2)) (EmptyField entry.1).
Definition check_bounded (entry : str * str) : result PlanFailure unit :=
  validate_logical_plan_text entry.1 entry.2.

Definition validate_envelope (self : WorkflowPlan) : result PlanFailure unit :=
  let source := workflow_source self in
  let event := workflow_event self in
  _ ← check_all check_bounded
        [(lit "source provider", source_provider source);
         (lit "source identity", source_identity source);
         (lit "event provider", event_provider event); (lit "event name", event_name event)];
  _ ← check_all check_bounded (origin_fields (source_origin source));
  _ ← check_all (λ '(field, value),
          match value with
          | Some value => validate_logical_plan_text field value
          | None => Ok tt
          end)
        [(lit "event delivery id", event_delivery_id event);
         (lit "event git ref", event_git_ref event)];
  _ ← match event_configured_trigger_span event with
      | Some trigger =>
          plan_span_source trigger (source_identity source) (lit "configured trigger span")
      | None => Ok tt
      end;
  match workflow_name self with
  | Some name =>
      _ ← plan_span_source (located_span name) (source_identity source) (lit "workflow name");
      validate_logical_plan_text (lit "workflow name") (located_value name)
  | None => Ok tt
  end.

Definition validate_logical_plan (self : WorkflowPlan) : result PlanFailure unit :=
  let source_id := source_identity (workflow_source self) in
  _ ← validate_envelope self;
  _ ← plan_span_source (plan_span (workflow_logical self)) source_id (lit "logical workflow");
  logical_plan_validate (workflow_logical self) source_id.

Definition workflow_plan_validate (self : WorkflowPlan) : result PlanFailure unit :=
  let source := workflow_source self in
  let event := workflow_event self in
  _ ← plan_reject (negb (bool_decide (workflow_version self = plan_version_current)))
        (UnsupportedPlanVersion (bget plan_version_current) (bget (workflow_version self)));
  _ ← check_filled (lit "source provider", source_provider source);
  _ ← check_filled (lit "source identity", source_identity source);
  _ ← check_all check_filled (origin_fields (source_origin source));
  _ ← check_filled (lit "event provider", event_provider event);
  _ ← check_filled (lit "event name", event_name event);
  _ ← plan_reject (negb (str_eqb (source_provider source) (event_provider event)))
        (ProviderMismatch (source_provider source) (event_provider event));
  _ ← plan_reject (negb (str_eqb (span_source_id (workflow_span self)) (source_identity source)))
        PlanSourceMismatch;
  validate_logical_plan self.

(** [LogicalWorkflowPlanBuilder::build]. *)
Definition workflow_plan_build (source : WorkflowSourceProvenance)
    (event : WorkflowEventProvenance) (name : option (Located str))
    (invocation : option WorkflowInvocationContract)
    (run_name : option (Located CompiledValueTemplate))
    (permissions : option PermissionSnapshotRequest) (environment : TemplateValueMap)
    (run_defaults : LogicalRunDefaultsTemplate) (concurrency : option LogicalConcurrencyTemplate)
    (jobs : list LogicalJobTemplate) (span : PlanSourceSpan) : result PlanFailure WorkflowPlan :=
  let logical :=
    MkLogicalPlan invocation run_name permissions environment run_defaults concurrency jobs
      span in
  let plan := MkWorkflowPlan plan_version_current source event name logical span in
  _ ← workflow_plan_validate plan;
  Ok plan.

(** [WorkflowPlan::job]. *)
Definition workflow_job (self : WorkflowPlan) (key : str) : option LogicalJobTemplate :=
  find_job (plan_jobs (workflow_logical self)) key.

(** ** The graph relation *)

Section Graph.
Variable jobs : list LogicalJobTemplate.

Definition job_keys : gset str := list_to_set (map key_of jobs).

(** [needs k d]: the job with key [k] names [d] among its prerequisites. *)
Definition needs (k d : str) : Prop :=
  ∃ job, find_job jobs k = Some job ∧ d ∈ needs_of job.

(** Every prerequisite is a job. *)
Definition closed : Prop := ∀ job d, job ∈ jobs → d ∈ needs_of job → d ∈ job_keys.

Definition cyclic : Prop := ∃ k, tc needs k k.

Lemma find_job_Some (key : str) (job : LogicalJobTemplate) :
  find_job jobs key = Some job → job ∈ jobs ∧ key_of job = key.
Proof.
  intros [Hin Heq]%find_some. rewrite list_elem_of_In. split; [done|].
  by apply bool_decide_eq_true in Heq.
Qed.

Lemma find_job_is_Some (key : str) : key ∈ job_keys ↔ ∃ job, find_job jobs key = Some job.
Proof.
  unfold job_keys. rewrite elem_of_list_to_set, list_elem_of_fmap. split.
  - intros (job & -> & Hin). destruct (find_job jobs (key_of job)) as [j|] eqn:E; [by eauto|].
    exfalso. apply list_elem_of_In in Hin. pose proof (find_none _ _ E _ Hin) as H.
    by apply bool_decide_eq_false in H.
  - intros [job [Hin <-]%find_job_Some]. eauto.
Qed.

(** The jobs from which following prerequisites always ends. *)
Definition grounded (k : str) : Prop := Acc (λ d k, needs k d) k.

Lemma grounded_no_cycle (k : str) : grounded k → ¬ tc needs k k.
Proof.
  induction 1 as [k _ IH]. intros Hc. inversion Hc as [? ? Hs|? d ? Hs Ht]; subst.
  - by eapply IH; [exact Hs|apply tc_once].
  - apply (IH d Hs). eapply tc_r; [exact Ht|exact Hs].
Qed.

(** What a visit gives: on success the job is complete, [visiting] is as
    before and everything complete is grounded; otherwise there is a cycle. *)
Definition visited (key : str) (visiting complete : gset str)
    (out : (gset str * gset str) * result PlanFailure unit) : Prop :=
  match out with
  | ((visiting', complete'), Ok _) =>
      visiting' = visiting ∧ complete ⊆ complete' ∧ key ∈ complete' ∧
      set_Forall grounded complete'
  | (_, Err e) => e = PlanRejected DependencyCycle ∧ cyclic
  end.

(** The loop over the prerequisites, given that each visit does this. *)
Lemma visits_spec (f : str → stM (gset str * gset str) PlanFailure unit) (l : list str)
    (visiting complete : gset str) :
  (∀ key complete, key ∈ l → set_Forall grounded complete →
     visited key visiting complete (f key (visiting, complete))) →
  set_Forall grounded complete →
  match for_each f l (visiting, complete) with
  | ((visiting', complete'), Ok _) =>
      visiting' = visiting ∧ complete ⊆ complete' ∧ (∀ key, key ∈ l → key ∈ complete') ∧
      set_Forall grounded complete'
  | (_, Err e) => e = PlanRejected DependencyCycle ∧ cyclic
  end.
Proof.
  revert complete. induction l as [|key l IH]; intros complete Hf Hg; [set_solver|].
  cbn [for_each]. unfold mbind, stM_bind.
  pose proof (Hf key complete ltac:(set_solver) Hg) as Hv.
  destruct (f key (visiting, complete)) as [[v' c'] [[]|e]]; [|done].
  destruct Hv as (-> & Hsub & Hkey & Hg').
  specialize (IH c' ltac:(set_solver) Hg').
  destruct (for_each f l (visiting, c')) as [[v'' c''] [[]|e]]; [|done].
  destruct IH as (-> & ? & ? & ?). set_solver.
Qed.

Lemma visit_spec (fuel : nat) (key : str) (visiting complete : gset str) :
  closed → key ∈ job_keys → (size (job_keys ∖ visiting) < fuel)%nat →
  (∀ v, v ∈ visiting → tc needs v key) → set_Forall grounded complete →
  visited key visiting complete (visit fuel jobs key (visiting, complete)).
Proof.
  intros Hclosed. revert key visiting complete.
  induction fuel as [|fuel IH]; intros key visiting complete Hkey Hfuel Hpath Hg; [lia|].
  cbn [visit]. unfold mbind at 1, stM_bind at 1, getM. cbn beta iota.
  case_bool_decide as Hc; [by split_and!|].
  unfold mbind at 1, stM_bind at 1, liftM at 1, plan_reject. cbn beta iota.
  case_bool_decide as Hv; cbn [reject]; [split; [done|by exists key; apply Hpath]|].
  unfold mbind at 1, stM_bind at 1, visit_mark. cbn beta iota.
  apply find_job_is_Some in Hkey as [job Hjob]. rewrite Hjob.
  unfold mbind at 1, stM_bind at 1, liftM at 1, ok_or. cbn beta iota.
  unfold mbind at 1, stM_bind at 1.
  apply find_job_Some in Hjob as Hin. destruct Hin as [Hin Hkj].
  assert (∀ d, d ∈ needs_of job → needs key d) as Hneeds by (intros; by exists job).
  assert (∀ d c, d ∈ needs_of job → set_Forall grounded c →
    visited d ({[key]} ∪ visiting) c (visit fuel jobs d ({[key]} ∪ visiting, c))) as Hdeps.
  { intros d c Hd Hgc. apply IH; [by eapply Hclosed| | |done].
    - assert (key ∈ job_keys) by (apply find_job_is_Some; eauto).
      assert (job_keys ∖ ({[key]} ∪ visiting) ⊂ job_keys ∖ visiting) as Hss by set_solver.
      apply subset_size in Hss. lia.
    - intros v [->%elem_of_singleton|Hv']%elem_of_union; [by apply tc_once, Hneeds|].
      eapply tc_r; [by apply Hpath|by apply Hneeds]. }
  pose proof (visits_spec (visit fuel jobs) (needs_of job) _ complete Hdeps Hg) as Hl.
  destruct (for_each _ _ _) as [[v' c'] [[]|e]]; cbn beta iota; [|done].
  destruct Hl as (-> & Hsub & Hall & Hg').
  unfold visited, visit_finish. split_and!; [set_solver..|].
  intros k [->%elem_of_singleton|Hk]%elem_of_union; [|by apply Hg'].
  constructor. intros d (j & Hj & Hd). rewrite Hjob in Hj. simplify_eq. by apply Hg', Hall.
Qed.

Lemma size_keys : (size job_keys ≤ length jobs)%nat.
Proof.
  unfold job_keys. rewrite <- (length_map key_of jobs). induction (map key_of jobs) as [|k l IH].
  - rewrite list_to_set_nil, size_empty. lia.
  - rewrite list_to_set_cons. cbn [length]. rewrite size_union_alt, size_singleton.
    assert (list_to_set l ∖ {[k]} ⊆ (list_to_set l : gset str)) as Hs by set_solver.
    apply subseteq_size in Hs. lia.
Qed.

(** The search accepts exactly the graphs without cycles, and never fails
    in another way. *)
Lemma validate_acyclic_spec :
  closed →
  match validate_acyclic jobs with
  | Ok _ => ∀ k, k ∈ job_keys → grounded k
  | Err e => e = PlanRejected DependencyCycle ∧ cyclic
  end.
Proof.
  intros Hclosed. unfold validate_acyclic.
  assert (∀ key c, key ∈ map key_of jobs → set_Forall grounded c →
    visited key ∅ c (visit (visit_fuel jobs) jobs key (∅, c))) as Hv.
  { intros key c Hkey Hg. apply visit_spec; [done|unfold job_keys; set_solver| |set_solver|done].
    rewrite difference_empty_L. unfold visit_fuel. pose proof size_keys. lia. }
  pose proof (visits_spec _ _ ∅ ∅ Hv (set_Forall_empty _)) as Hl.
  destruct (for_each _ _ _) as [[v c] [[]|e]]; cbn [snd]; [|done].
  destruct Hl as (_ & _ & Hall & Hg). intros k Hk. apply Hg, Hall.
  unfold job_keys in Hk. set_solver.
Qed.

Lemma validate_acyclic_grounded :
  closed → validate_acyclic jobs = Ok tt → ∀ k, k ∈ job_keys → grounded k.
Proof. intros Hc Hv. pose proof (validate_acyclic_spec Hc) as H. by rewrite Hv in H. Qed.

Lemma cyclic_key : cyclic → ∃ k, k ∈ job_keys ∧ tc needs k k.
Proof.
  intros [k Hk]. exists k. split; [|done]. apply find_job_is_Some.
  inversion Hk as [? ? (j & Hj & _)|? ? ? (j & Hj & _) _]; eauto.
Qed.

Lemma validate_acyclic_iff : closed → validate_acyclic jobs = Ok tt ↔ ¬ cyclic.
Proof.
  intros Hc. pose proof (validate_acyclic_spec Hc) as H.
  destruct (validate_acyclic jobs) as [[]|e]; [|naive_solver].
  split; [|done]. intros _ (k & Hk & Ht)%cyclic_key. by eapply grounded_no_cycle; [apply H|].
Qed.

(** A graph that is grounded has a next job until all of them are done. *)
Lemma grounded_progress (complete : gset str) (k : str) :
  grounded k → closed → k ∈ job_keys → k ∉ complete →
  ∃ job, job ∈ jobs ∧ (key_of job ∉ complete) ∧ (∀ d, d ∈ needs_of job → d ∈ complete).
Proof.
  intros Hk Hc. induction Hk as [k _ IH]. intros Hin Hn.
  apply find_job_is_Some in Hin as [job Hjob].
  destruct (decide (Forall (λ d, d ∈ complete) (needs_of job))) as [Hall|Hno].
  - exists job. apply find_job_Some in Hjob as [? <-]. rewrite Forall_forall in Hall. done.
  - apply not_Forall_Exists, Exists_exists in Hno as (d & Hd & Hnd); [|apply _].
    apply (IH d); [by exists job| |done]. eapply Hc; [by apply find_job_Some in Hjob as [? _]|done].
Qed.
End Graph.

(** ** Well-formed graphs *)

(** The result exists: its job does, and declares the output it names. *)
Definition resolves (jobs : list LogicalJobTemplate) (reference : LogicalResultReference) : Prop :=
  ∃ job, find_job jobs (reference_job reference) = Some job ∧
    match reference_value reference with
    | ResultOutput output =>
        ∃ item, item ∈ job_outputs job ∧ located_value (output_key item) = output
    | ResultConclusion => True
    end.

Definition references_of (job : LogicalJobTemplate) : list LogicalResultReference :=
  map located_value (job_result_references job).

Record well_formed_graph (jobs : list LogicalJobTemplate) : Prop := MkWellFormedGraph {
  graph_known : ∀ job d, job ∈ jobs → d ∈ needs_of job → d ∈ job_keys jobs ∧ d ≠ key_of job;
  graph_results : ∀ job r, job ∈ jobs → r ∈ references_of job →
    reference_job r ∈ needs_of job ∧ resolves jobs r;
  graph_acyclic : ¬ cyclic jobs
}.

Section CheckAll.
Context {E A : Type}.

Lemma check_all_Ok (f : A → result E unit) (l : list A) :
  check_all f l = Ok tt ↔ ∀ a, a ∈ l → f a = Ok tt.
Proof.
  unfold check_all. induction l as [|a l IH]; cbn [try_fold]; [set_solver|].
  destruct (f a) as [[]|e] eqn:Ha; cbn.
  - rewrite IH. set_solver.
  - split; [done|]. intros H. specialize (H a ltac:(set_solver)). congruence.
Qed.

Lemma check_all_Err (f : A → result E unit) (l : list A) (e : E) :
  check_all f l = Err e → ∃ a, a ∈ l ∧ f a = Err e.
Proof.
  unfold check_all. induction l as [|a l IH]; cbn [try_fold]; [done|].
  destruct (f a) as [[]|e'] eqn:Ha; cbn; [|intros [= <-]; set_solver].
  intros (b & ? & ?)%IH. set_solver.
Qed.
End CheckAll.

(** A check that fails does so with an error of the plan. *)
Definition answers {A : Type} (m : result PlanFailure A) : Prop :=
  match m with Err PlanPanicked | Err PlanOutOfFuel => False | _ => True end.

Lemma answers_bind {A B : Type} (m : result PlanFailure A) (k : A → result PlanFailure B) :
  answers m → (∀ a, m = Ok a → answers (k a)) → answers (x ← m; k x).
Proof. destruct m as [a|[]]; cbn; eauto. Qed.

Lemma answers_reject (c : bool) (e : WorkflowPlanError) : answers (plan_reject c e).
Proof. by destruct c. Qed.

Lemma answers_check_all {A : Type} (f : A → result PlanFailure unit) (l : list A) :
  (∀ a, a ∈ l → answers (f a)) → answers (check_all f l).
Proof.
  intros H. destruct (check_all f l) as [[]|e] eqn:E; [done|].
  apply check_all_Err in E as (a & Ha & He). specialize (H a Ha). by rewrite He in H.
Qed.

Lemma answers_map_err {A : Type} (m : result WorkflowPlanError A) :
  answers (map_err PlanRejected m).
Proof. by destruct m. Qed.

Create HintDb answers.
#[export] Hint Resolve answers_reject answers_map_err : answers.

Lemma declares_output_iff (job : LogicalJobTemplate) (output : str) :
  declares_output job output = true ↔
  ∃ item, item ∈ job_outputs job ∧ located_value (output_key item) = output.
Proof.
  unfold declares_output. rewrite existsb_exists. unfold str_eqb.
  setoid_rewrite bool_decide_eq_true. by setoid_rewrite list_elem_of_In.
Qed.

Lemma validate_result_reference_iff (r : LogicalResultReference)
    (jobs : list LogicalJobTemplate) :
  validate_result_reference r jobs = Ok tt ↔ resolves jobs r.
Proof.
  unfold validate_result_reference, resolves.
  destruct (find_job _ _) as [job|]; [|naive_solver].
  destruct (reference_value r) as [|output]; [naive_solver|].
  unfold plan_reject. rewrite reject_passes, negb_false_iff, declares_output_iff. naive_solver.
Qed.

Lemma both_Ok {E : Type} (m k : result E unit) : (_ ← m; k) = Ok tt ↔ m = Ok tt ∧ k = Ok tt.
Proof. destruct m as [[]|e]; cbn; naive_solver. Qed.

Lemma plan_reject_Ok (c : bool) (e : WorkflowPlanError) : plan_reject c e = Ok tt ↔ c = false.
Proof. apply reject_passes. Qed.

Lemma str_eqb_false_iff (s t : str) : str_eqb s t = false ↔ s ≠ t.
Proof. unfold str_eqb. by rewrite bool_decide_eq_false. Qed.

Lemma check_job_links_iff (jobs : list LogicalJobTemplate) (job : LogicalJobTemplate) :
  check_job_links (job_keys jobs) jobs job = Ok tt ↔
  (∀ d, d ∈ needs_of job → d ∈ job_keys jobs ∧ d ≠ key_of job) ∧
  (∀ r, r ∈ references_of job →
     reference_job r ∈ job_keys jobs ∧ reference_job r ∈ needs_of job ∧ resolves jobs r).
Proof.
  unfold check_job_links. rewrite both_Ok, !check_all_Ok.
  apply Morphisms_Prop.and_iff_morphism.
  - apply forall_proper; intros d. unfold check_dependency.
    rewrite both_Ok, !plan_reject_Ok, str_eqb_false_iff, negb_false_iff, bool_decide_eq_true. tauto.
  - apply forall_proper; intros r. unfold check_result.
    rewrite !both_Ok, !plan_reject_Ok, !negb_false_iff, bool_decide_eq_true,
      validate_result_reference_iff, existsb_exists.
    unfold str_eqb. setoid_rewrite bool_decide_eq_true. setoid_rewrite <- list_elem_of_In.
    naive_solver.
Qed.

Lemma links_answer (keys : gset str) (jobs : list LogicalJobTemplate) (job : LogicalJobTemplate) :
  answers (check_job_links keys jobs job).
Proof.
  apply answers_bind; intros; apply answers_check_all; intros d _.
  - apply answers_bind; auto with answers.
  - apply answers_bind; [auto with answers|intros _ _].
    apply answers_bind; [auto with answers|intros _ _].
    unfold validate_result_reference. destruct (find_job _ _); [|done].
    destruct (reference_value d); auto with answers. done.
Qed.

Lemma links_no_cycle (keys : gset str) (jobs : list LogicalJobTemplate)
    (job : LogicalJobTemplate) :
  check_job_links keys jobs job ≠ Err (PlanRejected DependencyCycle).
Proof.
  unfold check_job_links. intros [H|(_ & _ & H)]%bind_Err_inv;
    apply check_all_Err in H as (d & _ & H).
  - unfold check_dependency, plan_reject in H.
    apply bind_Err_inv in H as [H|(_ & _ & H)]; apply reject_Err in H as [_ H]; done.
  - unfold check_result, validate_result_reference, plan_reject in H.
    apply bind_Err_inv in H as [H|(_ & _ & H)]; [by apply reject_Err in H as [_ H]|].
    apply bind_Err_inv in H as [H|(_ & _ & H)]; [by apply reject_Err in H as [_ H]|].
    destruct (find_job _ _); [|done]. destruct (reference_value d); [done|].
    by apply reject_Err in H as [_ H].
Qed.

(** Validation of the graph decides well-formedness and always answers. *)
Lemma graph_validation_spec (jobs : list LogicalJobTemplate) :
  match validate_logical_graph jobs (job_keys jobs) with
  | Ok _ => well_formed_graph jobs
  | Err (PlanRejected e) => ¬ well_formed_graph jobs ∧ (e = DependencyCycle → cyclic jobs)
  | Err _ => False
  end.
Proof.
  unfold validate_logical_graph.
  destruct (check_all (check_job_links (job_keys jobs) jobs) jobs) as [[]|e] eqn:E; cbn.
  - rewrite check_all_Ok in E. setoid_rewrite check_job_links_iff in E.
    assert (closed jobs) as Hc by (intros job d Hj Hd; by apply (E job Hj)).
    pose proof (validate_acyclic_spec jobs Hc) as Ha.
    pose proof (validate_acyclic_iff jobs Hc) as Hi.
    destruct (validate_acyclic jobs) as [[]|e] eqn:Ea.
    + constructor; [naive_solver..|by apply Hi].
    + destruct Ha as [-> Hcyc]. split; [by intros []|done].
  - destruct (check_all_Err _ _ _ E) as (job & Hjob & Hl).
    pose proof (links_answer (job_keys jobs) jobs job) as Han. rewrite Hl in Han.
    destruct e as [e| |]; [|done..]. split.
    + intros [Hk Hr _]. enough (check_job_links (job_keys jobs) jobs job = Ok tt) by congruence.
      apply check_job_links_iff. split; [by auto|]. intros r Hin.
      destruct (Hr job r Hjob Hin) as [Hn Hres]. split; [by eapply Hk|done].
    + intros ->. by apply links_no_cycle in Hl.
Qed.

(** ** Accepted plans *)

Lemma insert_fresh_Ok {S E : Type} (keys keys' : gset str) (key : str) (e : E) (s t : S) :
  insert_fresh keys key e s = (t, Ok keys') ↔ t = s ∧ (key ∉ keys) ∧ keys' = {[key]} ∪ keys.
Proof.
  unfold insert_fresh. rewrite bind_st_Ok. setoid_rewrite liftM_reject_Ok.
  setoid_rewrite bool_decide_eq_false. setoid_rewrite mret_st_Ok.
  split; [naive_solver|]. intros (-> & ? & ->). exists s, tt. naive_solver.
Qed.

(** The jobs are at their places and their keys are new and distinct. *)
Lemma check_jobs_Ok (source_id : str) (jobs : list LogicalJobTemplate) (n n' : nat)
    (keys keys' : gset str) (b b' : LogicalPlanBudget) :
  fold_st (check_job source_id) (n, keys) jobs b = (b', Ok (n', keys')) →
  keys' = job_keys jobs ∪ keys ∧ NoDup (map key_of jobs) ∧
  (∀ job, job ∈ jobs → key_of job ∉ keys) ∧
  (∀ i job, jobs !! i = Some job → job_source_order job = Z.of_nat (n + i)).
Proof.
  revert n keys b. induction jobs as [|job jobs IH]; intros n keys b; cbn [fold_st].
  - rewrite mret_st_Ok. intros [_ [= <- <-]]. unfold job_keys. cbn.
    split_and!; [set_solver|constructor|set_solver|done].
  - rewrite bind_st_Ok. intros (b1 & [m k] & Hj & H). apply IH in H as (-> & Hnd & Hfresh & Hord).
    unfold check_job in Hj. apply bind_st_Ok in Hj as (? & [] & Ho & Hj).
    apply bind_st_Ok in Hj as (? & k1 & Hk & Hj). apply insert_fresh_Ok in Hk as (_ & Hnew & ->).
    apply bind_st_Ok in Hj as (? & [] & _ & Hj). apply mret_st_Ok in Hj as [_ [= -> ->]].
    unfold refuse in Ho. apply liftM_reject_Ok in Ho as [_ Ho]. apply negb_false_iff in Ho.
    unfold job_keys in *. cbn [map list_to_set]. split_and!.
    + set_solver.
    + constructor; [|done]. intros (j & Hj & Hin)%list_elem_of_fmap. specialize (Hfresh j Hin).
      set_solver.
    + set_solver.
    + intros [|i] j; cbn [lookup list_lookup].
      * intros [= <-]. lia.
      * intros Hi. rewrite (Hord i j Hi). lia.
Qed.

Lemma logical_plan_check_keys (self : LogicalWorkflowPlan) (source_id : str) (keys : gset str) :
  (logical_plan_check self source_id plan_budget_new).2 = Ok keys →
  keys = job_keys (plan_jobs self) ∧ NoDup (map key_of (plan_jobs self)) ∧
  (∀ i job, plan_jobs self !! i = Some job → job_source_order job = Z.of_nat i).
Proof.
  destruct (logical_plan_check _ _ _) as [b r] eqn:E. cbn. intros ->.
  unfold logical_plan_check in E.
  do 10 (apply bind_st_Ok in E as (? & ? & _ & E)).
  apply bind_st_Ok in E as (? & [n k] & E & Hk). apply mret_st_Ok in Hk as [_ ->].
  apply check_jobs_Ok in E as (-> & Hnd & _ & Hord). split_and!; [set_solver|done|done].
Qed.

Lemma text_answers (l : list (str * str)) : answers (check_all check_bounded l).
Proof. apply answers_check_all. intros a _. apply answers_reject. Qed.

Lemma filled_answers (l : list (str * str)) : answers (check_all check_filled l).
Proof. apply answers_check_all. intros a _. apply answers_reject. Qed.

Lemma envelope_answers (self : WorkflowPlan) : answers (validate_envelope self).
Proof.
  unfold validate_envelope.
  apply (answers_bind (check_all _ _)); [apply text_answers|intros _ _].
  apply (answers_bind (check_all _ _)); [apply text_answers|intros _ _].
  apply (answers_bind (check_all _ _)); [|intros _ _].
  { apply answers_check_all. intros [f [v|]] _; [apply answers_reject|done]. }
  apply answers_bind; [|intros _ _].
  { destruct (event_configured_trigger_span _); [apply answers_reject|done]. }
  destruct (workflow_name self); [|done].
  apply answers_bind; intros; apply answers_reject.
Qed.

Lemma body_answers (self : LogicalWorkflowPlan) (source_id : str) :
  answers (logical_plan_validate self source_id).
Proof.
  unfold logical_plan_validate. apply answers_bind; [apply answers_map_err|intros keys Hkeys].
  destruct (logical_plan_check _ _ _).2 as [k|] eqn:E in Hkeys; [|done]. simplify_eq/=.
  apply logical_plan_check_keys in E as (-> & _ & _).
  apply answers_bind; [|intros _ _].
  - pose proof (graph_validation_spec (plan_jobs self)) as H.
    by destruct (validate_logical_graph _ _) as [|[]].
  - apply answers_check_all. intros r _. unfold validate_result_reference.
    destruct (find_job _ _); [|done]. destruct (reference_value r); [done|apply answers_reject].
Qed.

(** Validating a workflow plan always answers, whatever the plan: it never
    reaches the [expect] in the search for cycles, and the search ends. *)
Lemma plan_validation_answers (plan : WorkflowPlan) : answers (workflow_plan_validate plan).
Proof.
  unfold workflow_plan_validate.
  do 3 (apply answers_bind; [apply answers_reject|intros _ _]).
  apply (answers_bind (check_all _ _)); [apply filled_answers|intros _ _].
  do 4 (apply answers_bind; [apply answers_reject|intros _ _]).
  unfold validate_logical_plan.
  apply answers_bind; [apply envelope_answers|intros _ _].
  apply answers_bind; [apply answers_reject|intros _ _]. apply body_answers.
Qed.

(** What an accepted plan is. *)
Lemma accepted_plan_graph (plan : WorkflowPlan) :
  workflow_plan_validate plan = Ok tt →
  let jobs := plan_jobs (workflow_logical plan) in
  NoDup (map key_of jobs) ∧
  (∀ i job, jobs !! i = Some job → job_source_order job = Z.of_nat i) ∧
  well_formed_graph jobs ∧
  (∀ r, r ∈ contract_references (workflow_logical plan) → resolves jobs r).
Proof.
  intros H. unfold workflow_plan_validate in H.
  repeat (apply both_Ok in H as [_ H]). unfold validate_logical_plan in H.
  repeat (apply both_Ok in H as [_ H]). unfold logical_plan_validate in H.
  apply bind_Ok_inv in H as (keys & Hkeys & H).
  destruct (logical_plan_check _ _ _).2 as [k|] eqn:E in Hkeys; [|done]. simplify_eq/=.
  apply logical_plan_check_keys in E as (-> & Hnd & Hord).
  apply both_Ok in H as [Hg Hr].
  pose proof (graph_validation_spec (plan_jobs (workflow_logical plan))) as Hex.
  rewrite Hg in Hex. split_and!; [done..|].
  rewrite check_all_Ok in Hr. intros r Hin. by apply validate_result_reference_iff, Hr.
Qed.

(** C25: An accepted plan can be run to its end: whatever jobs are complete,
    while one is not there is a job that is not complete and whose
    prerequisites all are. *)
Theorem accepted_plans_can_run (plan : WorkflowPlan) (complete : gset str)
    (waiting : LogicalJobTemplate) :
  workflow_plan_validate plan = Ok tt →
  waiting ∈ plan_jobs (workflow_logical plan) → key_of waiting ∉ complete →
  ∃ job, job ∈ plan_jobs (workflow_logical plan) ∧ (key_of job ∉ complete) ∧
    (∀ d, d ∈ needs_of job → d ∈ complete).
Proof.
  intros (_ & _ & [Hk _ Hac] & _)%accepted_plan_graph Hw Hn.
  assert (closed (plan_jobs (workflow_logical plan))) as Hc
    by (intros job d Hj Hd; by apply (Hk job)).
  assert (key_of waiting ∈ job_keys (plan_jobs (workflow_logical plan))) as Hkey
    by (unfold job_keys; set_solver).
  apply (grounded_progress _ complete (key_of waiting)); [|done..].
  apply validate_acyclic_grounded; [done| |done]. by apply validate_acyclic_iff.
Qed.

(** C10: Validation of the graph is exact: with the set of the jobs' keys it
    accepts exactly when every prerequisite is another job, every result read
    is a declared one of a direct prerequisite, and no chain of prerequisites
    returns to where it began; it answers a cycle only when there is one, and
    it neither panics nor runs without end. *)
Theorem graph_validation_is_exact (jobs : list LogicalJobTemplate) :
  match validate_logical_graph jobs (job_keys jobs) with
  | Ok _ => well_formed_graph jobs
  | Err (PlanRejected e) => ¬ well_formed_graph jobs ∧ (e = DependencyCycle → cyclic jobs)
  | Err _ => False
  end.
Proof. apply graph_validation_spec. Qed.

(** ** A plan *)

Definition example_span : PlanSourceSpan :=
  MkSpan (lit "ci") (MkLocation 0 1 1) (MkLocation 90 9 1).
Definition here {T : Type} (value : T) : Located T := MkLocated value example_span.

Definition example_job (order : Z) (key : str) (prerequisites : list str) : LogicalJobTemplate :=
  let step :=
    MkStepTemplate (here (lit "build")) None None None value_map_default None None
      (StepRun (MkRunStep (here (ValueLiteral (lit "make"))) None None)) example_span in
  let runner := MkRunnerTemplate None [here (ValueLiteral (lit "linux"))] example_span in
  MkJob (here key) order None (map here prerequisites) [] None None None None value_map_default
    run_defaults_default None None [] None
    (JobSteps (step_job_new runner [step] example_span)) example_span.

Definition example_plan (jobs : list LogicalJobTemplate) : WorkflowPlan :=
  MkWorkflowPlan plan_version_current
    (MkSourceProvenance (lit "github") (lit "ci") (OriginMemory (lit "test")))
    (MkEventProvenance (lit "github") (lit "push") None None None None None) None
    (MkLogicalPlan None None None value_map_default run_defaults_default None jobs example_span)
    example_span.

Definition diamond : list LogicalJobTemplate :=
  [example_job 0 (lit "test") [lit "build"; lit "lint"]; example_job 1 (lit "build") [];
   example_job 2 (lit "lint") [lit "build"]].

(** Two jobs that need each other are refused, and so is an unknown one. *)
Example cycles_are_refused :
  workflow_plan_validate
    (example_plan [example_job 0 (lit "a") [lit "b"]; example_job 1 (lit "b") [lit "a"]]) =
    Err (PlanRejected DependencyCycle) ∧
  workflow_plan_validate (example_plan [example_job 0 (lit "a") [lit "b"]]) =
    Err (PlanRejected (UnknownDependency (lit "a") (lit "b"))).
Proof. split; vm_compute; reflexivity. Qed.

(** In the diamond, with only [build] complete, [lint] is next. *)
Lemma accepted_plans_can_run_witness :
  workflow_plan_validate (example_plan diamond) = Ok tt ∧
  ∃ job, job ∈ diamond ∧ (key_of job ∉ ({[lit "build"]} : gset str)) ∧
    (∀ d, d ∈ needs_of job → d ∈ ({[lit "build"]} : gset str)).
Proof.
  assert (workflow_plan_validate (example_plan diamond) = Ok tt) as H
    by (vm_compute; reflexivity).
  split; [exact H|].
  apply (accepted_plans_can_run (example_plan diamond) {[lit "build"]}
           (example_job 0 (lit "test") [lit "build"; lit "lint"]) H).
  - apply list_elem_of_here.
  - apply not_elem_of_singleton. discriminate.
Defined.
