(* ===== verification/JobActivation.v ===== *)
(** * JobActivation: activating a logical job

    Models the rest of
    [crates/automata-ci-workflow-service/src/activation.rs]: the validated
    plan and request, the condition and strategy of a job, and the instances
    [activate] makes of it, each with its identity, runtime context, runner,
    resources and timeout; with the selectors of
    [crates/automata-ci-core/src/capability/selector.rs]. Hashing, the JSON
    and protobuf encoders and the lowercasing of text are the operations of
    the classes [Sha256], [ActivationEncoding] and [StrLowercase]. *)

From S2P Require Import Prelude Text Float64 Capability Log ManagedSecret WorkflowTemplate.
From S2P Require Import WorkflowStrategy RuntimeContext MatrixExpansion WorkflowLogical.
From S2P Require Import WorkflowGraph.

Open Scope Z_scope.

(** ** What is not of this repository *)

(** [str::to_lowercase], with its rule for the final sigma. *)
Class StrLowercase := str_to_lowercase : str → str.

(** [serde_json::to_vec] of a matrix, and the encoded bytes of a runtime
    context under the limits of activation. *)
Class ActivationEncoding (J P : Type) := {
  matrix_to_vec : ContextValue → result J (list Z);
  encode_job_runtime_context : JobRuntimeContext → result P (list Z)
}.

(** ** Selectors *)

Definition MAX_SELECTOR_LENGTH : Z := 256.

Inductive SelectorError :=
| SelectorEmpty (kind : str)
| SurroundingWhitespace (kind : str)
| SelectorTooLong (kind : str) (max : Z)
| ControlCharacter (kind : str).

Definition selector_length_rejection (characters : Z) (kind : str) : option SelectorError :=
  if MAX_SELECTOR_LENGTH <? characters then Some (SelectorTooLong kind MAX_SELECTOR_LENGTH)
  else None.

(** The constructor the macro [canonical_selector] generates; a length counts
    characters. *)
Definition selector_new {L : StrLowercase} (description value : str) : result SelectorError str :=
  _ ← reject (str_is_empty value) (SelectorEmpty description);
  _ ← reject (negb (str_eqb (trim value) value)) (SurroundingWhitespace description);
  _ ← match selector_length_rejection (len value) description with
      | Some rejection => Err rejection
      | None => Ok tt
      end;
  _ ← reject (existsb is_control value) (ControlCharacter description);
  Ok (str_to_lowercase value).

Definition runner_label_new {L : StrLowercase} (value : str) : result SelectorError RunnerLabel :=
  selector_new (lit "runner label") value.
Definition runner_group_new {L : StrLowercase} (value : str) : result SelectorError RunnerGroup :=
  selector_new (lit "runner group") value.

(** ** Plans and requests *)

Definition MAX_ACTIVATION_OUTPUT_BYTES : Z := 67108864.
Definition MAX_DEPLOYMENT_ENVIRONMENT_NAME_BYTES : Z := 255.
Definition MATRIX_DIGEST_DOMAIN : list Z := lit "automata-ci/matrix-instance/v1" ++ [0].

Definition activation_output_byte_rejection (observed : Z) : bool :=
  MAX_ACTIVATION_OUTPUT_BYTES <? observed.

Inductive LogicalActivationRequestError :=
| InvalidPlan (source : PlanFailure)
| UnknownLogicalJob.

(** A plan that [new] accepted. *)
Record ValidatedLogicalPlan := MkValidatedPlan { validated_plan : WorkflowPlan }.

Definition validated_plan_new (plan : WorkflowPlan) :
    result LogicalActivationRequestError ValidatedLogicalPlan :=
  _ ← map_err InvalidPlan (workflow_plan_validate plan);
  Ok (MkValidatedPlan plan).

Record ValidatedLogicalJob := MkValidatedJob {
  job_plan : WorkflowPlan;
  validated_job : LogicalJobTemplate
}.

Definition validated_plan_job (self : ValidatedLogicalPlan) (key : str) :
    result LogicalActivationRequestError ValidatedLogicalJob :=
  job ← ok_or (find_job (plan_jobs (workflow_logical (validated_plan self))) key)
          UnknownLogicalJob;
  Ok (MkValidatedJob (validated_plan self) job).

Record ActivateLogicalJobRequest := MkActivateRequest {
  request_job : ValidatedLogicalJob;
  request_inputs : ContextValue;
  request_vars : ContextValue;
  request_needs : TextMap NeedContext;
  request_secrets : TextMap SecretBinding;
  request_status : ActivationStatus
}.

Definition request_template (self : ActivateLogicalJobRequest) : LogicalJobTemplate :=
  validated_job (request_job self).
Definition request_key (self : ActivateLogicalJobRequest) : str :=
  located_value (job_key (request_template self)).

(** ** Results *)

Record ActivatedRunnerSelection := MkActivatedRunner {
  activated_group : option RunnerGroup;
  activated_labels : list RunnerLabel
}.

Record ActivatedResourceVector := MkActivatedVector {
  activated_cpu_millis : option Z;
  activated_memory_bytes : option Z;
  activated_ephemeral_storage_bytes : option Z;
  activated_gpu_count : option Z
}.

Record ActivatedJobResources := MkActivatedResources {
  activated_requests : option ActivatedResourceVector;
  activated_limits : option ActivatedResourceVector
}.

Record ActivatedJobInstance := MkActivatedInstance {
  instance_identity : JobInstanceIdentity;
  instance_runtime_context : JobRuntimeContext;
  instance_name : str;
  instance_deployment_environment : option str;
  instance_runner : option ActivatedRunnerSelection;
  instance_resources : option ActivatedJobResources;
  instance_timeout_seconds : option Z;
  instance_continue_on_error : bool
}.

Record LogicalJobActivation := MkActivation {
  condition_matched : bool;
  activation_instances : list ActivatedJobInstance;
  requested_max_parallel : option Z
}.

Record ResolvedActivationStrategy := MkResolvedStrategy {
  strategy_matrices : list MatrixCombination;
  resolved_fail_fast : bool;
  resolved_max_parallel : option Z;
  resolved_expansion_limit : Z;
  has_strategy : bool
}.

(** [ActivatedDeploymentEnvironment::new]: the accepted text itself. *)
Definition deployment_environment_new (value : str) : option str :=
  if str_is_empty value || negb (str_eqb (trim value) value) || existsb is_control value
     || (MAX_DEPLOYMENT_ENVIRONMENT_NAME_BYTES <? str_len value)
  then None else Some value.

Section Activation.
Context {E J P : Type} {hasher : Sha256} {encoding : ActivationEncoding J P} {L : StrLowercase}.

Let error : Type := LogicalActivationError E J P.

(** ** The request *)

Definition validate_request (request : ActivateLogicalJobRequest) : result error unit :=
  let expected := bset_from (map located_value (job_needs (request_template request))) in
  let needs := request_needs request in
  _ ← try_fold (λ _ key, reject (negb (tmap_contains_key needs key)) (MissingNeed key)) tt
        (elems expected);
  _ ← reject (existsb (λ key, negb (bset_contains expected key)) (tmap_keys needs))
        UnexpectedNeed;
  _ ← reject (bool_decide (request_status request = ActivationSuccess)
              && existsb (λ need, negb (bool_decide (need_result need.2 = ConclusionSuccess))) needs)
        InconsistentAggregateStatus;
  strategy ← map_err ActivationRuntimeContext (strategy_context_new true 0 1 1);
  _ ← map_err ActivationRuntimeContext
        (runtime_context_new (request_inputs request) (request_vars request)
           context_empty_object strategy needs (request_secrets request));
  Ok tt.

(** ** Output *)

Definition matrix_digest (job_key : str) (matrix : ContextValue) : result error Sha256Digest :=
  encoded ← map_err MatrixDigestEncoding (matrix_to_vec matrix);
  let key := as_bytes job_key in
  Ok (sha256 (MATRIX_DIGEST_DOMAIN ++ be_bytes 8 (Z.min (len key) u64_max) ++ key ++
              be_bytes 8 (Z.min (len encoded) u64_max) ++ encoded)).

Definition charge_runtime_context_output (output_bytes : Z) (context : JobRuntimeContext) :
    result error Z :=
  let limit := ActivationLimitExceeded (lit "activation output bytes") MAX_ACTIVATION_OUTPUT_BYTES in
  encoded ← map_err RuntimeContextEncoding (encode_job_runtime_context context);
  output_bytes ← ok_or (checked_add u64_max output_bytes (len encoded)) limit;
  _ ← reject (activation_output_byte_rejection output_bytes) limit;
  Ok output_bytes.

(** What an instance may know of a prerequisite. *)
Definition public_need (need : NeedContext) : result error NeedContext :=
  map_err ActivationRuntimeContext
    (need_new (need_result need)
       (List.filter (λ output, is_some (public_value output.2)) (need_outputs need))).

Definition public_runtime_needs (needs : TextMap NeedContext) :
    result error (TextMap NeedContext) :=
  try_map (λ '(job, need), need ← public_need need; Ok (job, need)) needs.

(** ** Templates *)

Section Session.
Context `{session : !LogicalActivationSession E}.

Definition resolve_boolean (template : option CompiledBooleanTemplate) (default : bool)
    (context : ActivationEvaluationContext) (site : ActivationEvaluationSite) :
    result error bool :=
  match template with
  | None => Ok default
  | Some (BooleanLiteral value) => Ok value
  | Some (BooleanExpression expression) => evaluate_boolean expression context site
  end.

Definition resolve_string (template : option CompiledValueTemplate) (default : str)
    (context : ActivationEvaluationContext) (site : ActivationEvaluationSite) :
    result error str :=
  match template with
  | None => Ok default
  | Some (ValueLiteral value) => Ok value
  | Some (ValueExpression expression) => evaluate_string expression context site
  end.

Definition resolve_positive_integer (template : option CompiledPositiveIntegerTemplate)
    (context : ActivationEvaluationContext) (site : ActivationEvaluationSite) :
    result error (option Z) :=
  match template with
  | None => Ok None
  | Some template =>
      value ← match template with
              | IntegerLiteral value => Ok value
              | IntegerExpression expression => evaluate_positive_integer expression context site
              end;
      _ ← reject (value =? 0) (ActivatedZeroPositiveInteger site);
      Ok (Some value)
  end.

Definition evaluate_reusable_input_template (template : CompiledValueTemplate)
    (context : ActivationEvaluationContext) : result error ActivationValue :=
  match template with
  | ValueLiteral value => Ok (ActivationString value)
  | ValueExpression expression =>
      let site := SiteReusableWorkflowInput in
      match plan_expression_segments (template_expression expression) with
      | [SegEvaluation _] => evaluate_value expression context site
      | _ => value ← evaluate_string expression context site; Ok (ActivationString value)
      end
  end.

(** ** Fields of an instance *)

Definition resolve_selector (kind : str → result SelectorError str)
    (context : ActivationEvaluationContext) (site : ActivationEvaluationSite)
    (template : Located CompiledValueTemplate) : result error str :=
  value ← resolve_string (Some (located_value template)) [] context site;
  map_err (λ _, InvalidActivatedRunnerSelector) (kind value).

Definition resolve_runner (job : LogicalJobTemplate) (context : ActivationEvaluationContext) :
    result error (option ActivatedRunnerSelection) :=
  match job_execution job with
  | JobReusableWorkflow _ => Ok None
  | JobSteps step_job =>
      let runner := step_job_runner step_job in
      group ← try_option (resolve_selector runner_group_new context SiteRunnerGroup)
                (runner_group runner);
      labels ← try_map (resolve_selector runner_label_new context SiteRunnerLabel)
                 (runner_labels runner);
      _ ← reject (negb (is_some group) && Nat.eqb (length labels) 0)
            InvalidActivatedRunnerSelector;
      Ok (Some (MkActivatedRunner group labels))
  end.

(** [resolve_positive_integer] gives a value for a template; the [expect] on it
    cannot fail. *)
Definition resolve_timeout (job : LogicalJobTemplate) (context : ActivationEvaluationContext) :
    result error (option Z) :=
  match job_timeout job with
  | None => Ok None
  | Some timeout =>
      value ← resolve_positive_integer (Some (timeout_value (located_value timeout))) context
                SiteJobTimeout;
      seconds ← ok_or (value ← value;
                       checked_mul u32_max value
                         (seconds_multiplier (timeout_unit (located_value timeout))))
                  ActivatedTimeoutScaleOverflow;
      Ok (Some seconds)
  end.

Definition resolve_quantity (resource : str) (parse : str → option Z)
    (context : ActivationEvaluationContext) (template : Located CompiledValueTemplate) :
    result error Z :=
  value ← resolve_string (Some (located_value template)) [] context SiteJobResourceQuantity;
  ok_or (parse value) (InvalidActivatedResourceQuantity resource).

Definition as_option {X A : Type} (m : result X A) : option A :=
  match m with Ok a => Some a | Err _ => None end.

Definition parse_gpu_count (value : str) : option Z :=
  count ← parse_uint u16_max value; if 0 <? count then Some count else None.

Definition resolve_resource_vector (values : LogicalResourceVectorTemplate)
    (context : ActivationEvaluationContext) : result error ActivatedResourceVector :=
  cpu ← try_option (resolve_quantity (lit "cpu") (λ value, as_option (parse_cpu_quantity value))
                      context) (resource_cpu values);
  memory ← try_option (resolve_quantity (lit "memory")
                         (λ value, as_option (parse_storage_quantity value)) context)
             (resource_memory values);
  ephemeral ← try_option (resolve_quantity (lit "ephemeral-storage")
                            (λ value, as_option (parse_storage_quantity value)) context)
                (resource_ephemeral_storage values);
  gpu ← try_option (resolve_quantity (lit "gpu") parse_gpu_count context) (resource_gpu values);
  Ok (MkActivatedVector cpu memory ephemeral gpu).

Definition resolve_resources (job : LogicalJobTemplate) (context : ActivationEvaluationContext) :
    result error (option ActivatedJobResources) :=
  match job_execution job with
  | JobReusableWorkflow _ => Ok None
  | JobSteps step_job =>
      try_option (λ resources,
        requests ← try_option (λ values, resolve_resource_vector values context)
                     (resources_requests resources);
        limits ← try_option (λ values, resolve_resource_vector values context)
                   (resources_limits resources);
        Ok (MkActivatedResources requests limits)) (step_job_resources step_job)
  end.

Definition resolve_deployment (job : LogicalJobTemplate) (context : ActivationEvaluationContext) :
    result error (option str) :=
  try_option (λ deployment,
    value ← resolve_string (Some (located_value (deployment_name deployment))) [] context
              SiteDeploymentEnvironment;
    ok_or (deployment_environment_new value) InvalidActivatedDeploymentEnvironment)
    (job_deployment job).

Definition resolve_name (job : LogicalJobTemplate) (context : ActivationEvaluationContext) :
    result error str :=
  name ← resolve_string (option_map located_value (job_name job)) (located_value (job_key job))
           context SiteJobName;
  _ ← reject (str_is_empty (trim name) || (MAX_LOGICAL_FIELD_BYTES <? str_len name)
              || existsb is_control name) InvalidActivatedJobName;
  Ok name.

(** ** Condition and strategy *)

Definition resolve_condition (request : ActivateLogicalJobRequest)
    (context : ActivationEvaluationContext) : result error bool :=
  match job_condition (request_template request) with
  | Some condition => activation_condition (located_value condition) context SiteJobCondition
  | None => Ok (bool_decide (request_status request = ActivationSuccess))
  end.

Definition resolve_strategy (request : ActivateLogicalJobRequest)
    (context : ActivationEvaluationContext) : result error ResolvedActivationStrategy :=
  match job_strategy (request_template request) with
  | None => Ok (MkResolvedStrategy [combination_default] true None 1 false)
  | Some strategy =>
      fail_fast ← resolve_boolean (option_map located_value (strategy_fail_fast strategy)) true
                    context SiteStrategyFailFast;
      max_parallel ← resolve_positive_integer
                       (option_map located_value (strategy_max_parallel strategy)) context
                       SiteStrategyMaxParallel;
      let expansion_limit := strategy_expansion_limit strategy in
      matrices ← resolve_matrix (strategy_matrix strategy) expansion_limit context;
      Ok (MkResolvedStrategy matrices fail_fast max_parallel expansion_limit true)
  end.

(** ** Instances *)

Definition base_evaluation_context (request : ActivateLogicalJobRequest) :
    ActivationEvaluationContext :=
  MkEvaluationContext (request_key request) (request_inputs request) (request_vars request)
    (request_needs request) (request_status request) None None.

Definition instance_evaluation_context (request : ActivateLogicalJobRequest)
    (resolved : ResolvedActivationStrategy) (matrix : ContextValue) (strategy : StrategyContext) :
    ActivationEvaluationContext :=
  MkEvaluationContext (request_key request) (request_inputs request) (request_vars request)
    (request_needs request) (request_status request)
    (if has_strategy resolved then Some matrix else None)
    (if has_strategy resolved then Some strategy else None).

(** One pass of the loop: the instance at [index] of [total]. *)
Definition activate_instance (request : ActivateLogicalJobRequest)
    (resolved : ResolvedActivationStrategy) (total index : Z) (combination : MatrixCombination) :
    result error ActivatedJobInstance :=
  let job := request_template request in
  matrix ← into_context_value combination;
  _ ← reject (u32_max <? index)
        (MatrixExpansionLimitExceeded (resolved_expansion_limit resolved));
  strategy ← map_err ActivationRuntimeContext
               (strategy_context_new (resolved_fail_fast resolved) index total
                  (default total (resolved_max_parallel resolved)));
  let context := instance_evaluation_context request resolved matrix strategy in
  name ← resolve_name job context;
  deployment_environment ← resolve_deployment job context;
  runner ← resolve_runner job context;
  resources ← resolve_resources job context;
  timeout_seconds ← resolve_timeout job context;
  continue_on_error ← resolve_boolean (option_map located_value (job_continue_on_error job)) false
                        context SiteJobContinueOnError;
  digest ← matrix_digest (request_key request) matrix;
  identity ← map_err ActivationJobIdentity
               (job_identity_new (request_key request) index total digest);
  public_needs ← public_runtime_needs (request_needs request);
  runtime_context ← map_err ActivationRuntimeContext
    (runtime_context_new (request_inputs request) (request_vars request) matrix strategy
       public_needs (request_secrets request));
  Ok (MkActivatedInstance identity runtime_context name deployment_environment runner resources
        timeout_seconds continue_on_error).

Definition activate_step (request : ActivateLogicalJobRequest)
    (resolved : ResolvedActivationStrategy) (total : Z)
    (state : Z * list ActivatedJobInstance) (combination : MatrixCombination) :
    result error (Z * list ActivatedJobInstance) :=
  let '(output_bytes, instances) := state in
  activated ← activate_instance request resolved total (len instances) combination;
  output_bytes ← charge_runtime_context_output output_bytes (instance_runtime_context activated);
  Ok (output_bytes, instances ++ [activated]).

Definition activate_instances (request : ActivateLogicalJobRequest)
    (resolved : ResolvedActivationStrategy) : result error LogicalJobActivation :=
  let total := len (strategy_matrices resolved) in
  _ ← reject (u32_max <? total)
        (MatrixExpansionLimitExceeded (resolved_expansion_limit resolved));
  '(_, instances) ← try_fold (activate_step request resolved total) (0, [])
                      (strategy_matrices resolved);
  Ok (MkActivation true instances (resolved_max_parallel resolved)).

(** [activate] once the session is prepared. *)
Definition activate_in_session (request : ActivateLogicalJobRequest) :
    result error LogicalJobActivation :=
  let base_context := base_evaluation_context request in
  condition_matched ← resolve_condition request base_context;
  if negb condition_matched then Ok (MkActivation false [] None)
  else
    strategy ← resolve_strategy request base_context;
    if Nat.eqb (length (strategy_matrices strategy)) 0
    then Ok (MkActivation true [] (resolved_max_parallel strategy))
    else
      _ ← reject (resolved_expansion_limit strategy <? len (strategy_matrices strategy))
            (MatrixExpansionLimitExceeded (resolved_expansion_limit strategy));
      activate_instances request strategy.

End Session.

(** ** The activator *)

(** The trait [LogicalActivationEvaluator]: it prepares a session. *)
Class LogicalActivationEvaluator :=
  evaluator_prepare : ActivationEvaluationContext → result E (LogicalActivationSession E).

Definition activate {evaluator : LogicalActivationEvaluator}
    (request : ActivateLogicalJobRequest) : result error LogicalJobActivation :=
  _ ← validate_request request;
  session ← map_err Preparation (evaluator_prepare (base_evaluation_context request));
  activate_in_session (session := session) request.

(** [ActivationEvaluationContext::activated_instance]. *)
Definition activated_instance (job_key : str) (runtime : JobRuntimeContext)
    (status : ActivationStatus) (include_instance : bool) : ActivationEvaluationContext :=
  MkEvaluationContext job_key (runtime_inputs runtime) (runtime_vars runtime)
    (runtime_needs runtime) status
    (if include_instance then Some (runtime_matrix runtime) else None)
    (if include_instance then Some (runtime_strategy runtime) else None).

Definition evaluate_activated_string {evaluator : LogicalActivationEvaluator}
    (expression : CompiledExpressionTemplate) (job_key : str) (runtime : JobRuntimeContext)
    (status : ActivationStatus) (site : ActivationEvaluationSite) : result error str :=
  session ← map_err Preparation
              (evaluator_prepare (activated_instance job_key runtime status false));
  evaluate_string (session := session) expression
    (activated_instance job_key runtime status true) site.

End Activation.
