(* ===== verification/ActivationTheorems.v ===== *)
(** * ActivationTheorems: what activating a job promises

    For every provider: the instances of an activation are numbered, bounded
    and carry valid contexts without outputs derived from secrets, and a job
    without a condition runs only after the success of its prerequisites. For
    the provider of GitHub: an output derived from a secret reaches no
    expression, so that it changes nothing of what is activated. *)

From S2P Require Import Prelude Text Float64 Capability Log ManagedSecret ExpressionProgram.
From S2P Require Import ExpressionValue ExpressionFunctions ExpressionEvaluator ExpressionParser.
From S2P Require Import WorkflowTemplate WorkflowStrategy RuntimeContext MatrixExpansion.
From S2P Require Import GithubActivation WorkflowLogical WorkflowGraph JobActivation.

Open Scope Z_scope.

(** The implementation of [LogicalActivationEvaluator]. *)
#[export] Instance github_evaluator {T : CaseTable} {L : LowerCaseTable} {S : SerdeJson}
    (self : GithubLogicalActivationEvaluator) :
    LogicalActivationEvaluator (E := GithubActivationEvaluationError) :=
  λ context, session ← github_prepare self context; Ok (github_session session).

(** ** Prerequisites that look the same *)

Definition public_part (need : NeedContext) : list (str * NeedOutput) :=
  List.filter (λ output, is_some (public_value output.2)) (need_outputs need).

Definition same_public (x y : str * NeedContext) : Prop :=
  x.1 = y.1 ∧ need_result x.2 = need_result y.2 ∧ public_part x.2 = public_part y.2.

(** The same request with other prerequisites. *)
Definition with_needs (request : ActivateLogicalJobRequest) (needs : TextMap NeedContext) :
    ActivateLogicalJobRequest :=
  MkActivateRequest (request_job request) (request_inputs request) (request_vars request) needs
    (request_secrets request) (request_status request).

Definition same_overlays (c d : ActivationEvaluationContext) : Prop :=
  evaluation_matrix c = evaluation_matrix d ∧ evaluation_strategy c = evaluation_strategy d.

(** ** Sessions that see a context only through its overlays *)

Lemma collect_st_ext {S E A B : Type} (f g : A → stM S E B) (l : list A) (s : S) :
  (∀ x t, f x t = g x t) → collect_st f l s = collect_st g l s.
Proof.
  intros Hfg. revert s. induction l as [|x l IH]; intros s; [done|].
  cbn. unfold mbind, stM_bind. rewrite Hfg. destruct (g x s) as [t [y|e]]; [|done]. by rewrite IH.
Qed.

Lemma bind_st_ext {S E A B : Type} (m n : stM S E A) (k h : A → stM S E B) (s : S) :
  m s = n s → (∀ x t, k x t = h x t) → (x ← m; k x) s = (x ← n; h x) s.
Proof.
  intros Hmn Hkh. unfold mbind, stM_bind. rewrite Hmn. by destruct (n s) as [t [x|e]].
Qed.

Lemma bind_ext {E A B : Type} (m n : result E A) (k h : A → result E B) :
  m = n → (∀ x, k x = h x) → (x ← m; k x) = (x ← n; h x).
Proof. intros -> Hkh. destruct n; cbn; [apply Hkh|done]. Qed.

Section Blind.
Context {E J P : Type} `{session : !LogicalActivationSession E}.

Class BlindSession : Prop := {
  value_blind : ∀ e c d, same_overlays c d → session_evaluate_value e c = session_evaluate_value e d;
  string_blind : ∀ e c d,
    same_overlays c d → session_evaluate_string e c = session_evaluate_string e d;
  condition_blind : ∀ e c d,
    same_overlays c d → session_evaluate_condition e c = session_evaluate_condition e d;
  boolean_blind : ∀ e c d,
    same_overlays c d → session_evaluate_boolean e c = session_evaluate_boolean e d;
  integer_blind : ∀ e c d,
    same_overlays c d →
    session_evaluate_positive_integer e c = session_evaluate_positive_integer e d
}.
Context `{blind : !BlindSession}.
Context (c d : ActivationEvaluationContext) (Hcd : same_overlays c d).

Lemma evaluate_at_blind {A : Type} method (e : CompiledExpressionTemplate) site :
  (∀ e, method e c = method e d) →
  (evaluate_at method e c site : result (LogicalActivationError E J P) A)
  = evaluate_at method e d site.
Proof. intros Hm. unfold evaluate_at. by rewrite Hm. Qed.

Lemma evaluate_value_blind e site :
  (evaluate_value e c site : result (LogicalActivationError E J P) _) = evaluate_value e d site.
Proof. apply evaluate_at_blind. intros. by apply value_blind. Qed.

Lemma resolve_boolean_blind t b site :
  (resolve_boolean t b c site : result (LogicalActivationError E J P) _)
  = resolve_boolean t b d site.
Proof.
  destruct t as [[]|]; [done| |done]. apply evaluate_at_blind. intros. by apply boolean_blind.
Qed.

Lemma resolve_string_blind t s site :
  (resolve_string t s c site : result (LogicalActivationError E J P) _)
  = resolve_string t s d site.
Proof.
  destruct t as [[]|]; [done| |done]. apply evaluate_at_blind. intros. by apply string_blind.
Qed.

Lemma resolve_positive_integer_blind t site :
  (resolve_positive_integer t c site : result (LogicalActivationError E J P) _)
  = resolve_positive_integer t d site.
Proof.
  destruct t as [[]|]; [done| |done]. cbn. apply bind_ext; [|done]. apply evaluate_at_blind.
  intros. by apply integer_blind.
Qed.

Lemma resolve_selector_blind kind site t :
  (resolve_selector kind c site t : result (LogicalActivationError E J P) _)
  = resolve_selector kind d site t.
Proof. apply bind_ext; [apply resolve_string_blind|done]. Qed.

Lemma resolve_quantity_blind name parse t :
  (resolve_quantity name parse c t : result (LogicalActivationError E J P) _)
  = resolve_quantity name parse d t.
Proof. apply bind_ext; [apply resolve_string_blind|done]. Qed.

Lemma resolve_runner_blind {L : StrLowercase} job :
  (resolve_runner job c : result (LogicalActivationError E J P) _) = resolve_runner job d.
Proof.
  unfold resolve_runner. destruct (job_execution job); [|done].
  apply bind_ext; [apply try_option_ext; intros; apply resolve_selector_blind|intros group].
  apply bind_ext; [apply try_map_ext; intros; apply resolve_selector_blind|done].
Qed.

Lemma resolve_timeout_blind job :
  (resolve_timeout job c : result (LogicalActivationError E J P) _) = resolve_timeout job d.
Proof.
  unfold resolve_timeout. destruct (job_timeout job); [|done].
  apply bind_ext; [apply resolve_positive_integer_blind|done].
Qed.

Lemma resolve_resource_vector_blind values :
  (resolve_resource_vector values c : result (LogicalActivationError E J P) _)
  = resolve_resource_vector values d.
Proof.
  unfold resolve_resource_vector.
  repeat (apply bind_ext; [apply try_option_ext; intros; apply resolve_quantity_blind|intros ?]).
  done.
Qed.

Lemma resolve_resources_blind job :
  (resolve_resources job c : result (LogicalActivationError E J P) _) = resolve_resources job d.
Proof.
  unfold resolve_resources. destruct (job_execution job); [|done].
  apply try_option_ext. intros resources.
  repeat (apply bind_ext; [apply try_option_ext; apply resolve_resource_vector_blind|intros ?]).
  done.
Qed.

Lemma resolve_deployment_blind job :
  (resolve_deployment job c : result (LogicalActivationError E J P) _) = resolve_deployment job d.
Proof.
  apply try_option_ext. intros deployment. apply bind_ext; [apply resolve_string_blind|done].
Qed.

Lemma resolve_name_blind job :
  (resolve_name job c : result (LogicalActivationError E J P) _) = resolve_name job d.
Proof. apply bind_ext; [apply resolve_string_blind|done]. Qed.

Lemma resolve_value_template_blind t site b :
  (resolve_value_template t c site : stM _ (LogicalActivationError E J P) _) b
  = resolve_value_template t d site b.
Proof.
  apply bind_st_ext; [|done]. unfold liftM. f_equal. destruct t as [v|e]; [done|].
  apply bind_ext; [apply evaluate_value_blind|done].
Qed.

Lemma resolve_patch_set_blind patches new axes site b :
  (resolve_patch_set patches new axes c site : stM _ (LogicalActivationError E J P) _) b
  = resolve_patch_set patches new axes d site b.
Proof.
  apply bind_st_ext; [|done]. destruct patches as [patches|e].
  - apply collect_st_ext. intros patch t. apply collect_st_ext. intros [k v] t'.
    apply bind_st_ext; [apply resolve_value_template_blind|done].
  - apply bind_st_ext; [|done]. unfold liftM. f_equal. apply evaluate_value_blind.
Qed.

Lemma resolve_axis_blind axis b :
  (resolve_axis c axis : stM _ (LogicalActivationError E J P) _) b = resolve_axis d axis b.
Proof.
  apply bind_st_ext; [|done]. destruct (axis_values axis) as [values|e].
  - apply collect_st_ext. intros. apply resolve_value_template_blind.
  - apply bind_st_ext; [|done]. unfold liftM. f_equal. apply evaluate_value_blind.
Qed.

Lemma resolve_matrix_blind matrix limit :
  (resolve_matrix matrix limit c : result (LogicalActivationError E J P) _)
  = resolve_matrix matrix limit d.
Proof.
  apply bind_ext; [|done]. destruct (matrix_expression matrix) as [e|].
  - apply bind_ext; [apply evaluate_value_blind|done].
  - unfold resolve_structured_matrix. f_equal.
    apply bind_st_ext; [apply collect_st_ext; intros; apply resolve_axis_blind|intros axes t].
    apply bind_st_ext; [apply resolve_patch_set_blind|intros include t'].
    apply bind_st_ext; [apply resolve_patch_set_blind|done].
Qed.

End Blind.

Arguments BlindSession {E} session.

(** ** Activations that look the same *)

Lemma public_need_same {E J P : Type} (x y : str * NeedContext) :
  same_public x y →
  (public_need x.2 : result (LogicalActivationError E J P) _) = public_need y.2.
Proof.
  intros (_ & Hr & Hp). unfold public_need. fold (public_part x.2). fold (public_part y.2).
  by rewrite Hr, Hp.
Qed.

Lemma public_runtime_needs_same {E J P : Type} (n m : TextMap NeedContext) :
  Forall2 same_public n m →
  (public_runtime_needs n : result (LogicalActivationError E J P) _) = public_runtime_needs m.
Proof.
  intros H. unfold public_runtime_needs. induction H as [|[k x] [k' y] n m Hxy H IH]; [done|].
  cbn. pose proof (public_need_same (E := E) (J := J) (P := P) _ _ Hxy) as Hneed. cbn in Hneed.
  rewrite Hneed. destruct Hxy as [Hk _]. cbn in Hk. subst k'. destruct (public_need y); [|done].
  cbn. by rewrite IH.
Qed.

Section Same.
Context {E J P : Type} {hasher : Sha256} {encoding : ActivationEncoding J P} {L : StrLowercase}.
Context `{session : !LogicalActivationSession E} `{blind : !BlindSession session}.
Context (request : ActivateLogicalJobRequest) (needs : TextMap NeedContext).
Context (Hneeds : Forall2 same_public (request_needs request) needs).

Lemma activate_instance_same resolved total index combination :
  (activate_instance request resolved total index combination
    : result (LogicalActivationError E J P) _)
  = activate_instance (with_needs request needs) resolved total index combination.
Proof.
  unfold activate_instance. apply bind_ext; [done|intros matrix].
  apply bind_ext; [done|intros _]. apply bind_ext; [done|intros strategy].
  set (c := instance_evaluation_context request resolved matrix strategy).
  set (d := instance_evaluation_context (with_needs request needs) resolved matrix strategy).
  assert (same_overlays c d) as Hcd by done.
  apply bind_ext; [by apply resolve_name_blind|intros name].
  apply bind_ext; [by apply resolve_deployment_blind|intros deployment].
  apply bind_ext; [by apply resolve_runner_blind|intros runner].
  apply bind_ext; [by apply resolve_resources_blind|intros resources].
  apply bind_ext; [by apply resolve_timeout_blind|intros timeout].
  apply bind_ext; [by apply resolve_boolean_blind|intros continue].
  apply bind_ext; [done|intros digest]. apply bind_ext; [done|intros identity].
  apply bind_ext; [by apply public_runtime_needs_same|done].
Qed.

Lemma activate_in_session_same :
  (activate_in_session request : result (LogicalActivationError E J P) _)
  = activate_in_session (with_needs request needs).
Proof.
  unfold activate_in_session.
  assert (same_overlays (base_evaluation_context request)
    (base_evaluation_context (with_needs request needs))) as Hcd by done.
  apply bind_ext.
  { unfold resolve_condition. cbn [request_template with_needs request_job].
    destruct (job_condition _); [|done]. apply evaluate_at_blind.
    intros. by apply condition_blind. }
  intros [|]; [|reflexivity]. apply bind_ext.
  { unfold resolve_strategy. cbn [request_template with_needs request_job].
    destruct (job_strategy _) as [strategy|]; [|done].
    apply bind_ext; [by apply resolve_boolean_blind|intros fail_fast].
    apply bind_ext; [by apply resolve_positive_integer_blind|intros max_parallel].
    apply bind_ext; [by apply resolve_matrix_blind|done]. }
  intros resolved. destruct (Nat.eqb _ 0); [done|]. apply bind_ext; [done|intros _].
  unfold activate_instances. apply bind_ext; [done|intros _]. apply bind_ext; [|done].
  apply try_fold_ext. intros [bytes instances] combination. unfold activate_step.
  apply bind_ext; [apply activate_instance_same|done].
Qed.

End Same.

(** ** The provider of GitHub *)

Section Github.
Context {T : CaseTable} {L : LowerCaseTable} {S : SerdeJson}.

Lemma session_context_blind (self : GithubActivationSession) c d :
  same_overlays c d → session_context self c = session_context self d.
Proof.
  intros [Hm Hs]. unfold session_context, overlay_values. by rewrite Hm, Hs.
Qed.

#[export] Instance github_session_blind (self : GithubActivationSession) :
  BlindSession (github_session self).
Proof.
  split; intros e c d Hcd; cbn;
    unfold github_evaluate_value, github_evaluate_string, github_evaluate_condition,
      github_evaluate_boolean, github_evaluate_positive_integer, evaluate_single;
    by rewrite (session_context_blind self c d Hcd).
Qed.

Lemma public_outputs_part (outputs : TextMap NeedOutput) :
  public_outputs outputs =
    public_outputs (List.filter (λ output, is_some (public_value output.2)) outputs).
Proof.
  unfold public_outputs. induction outputs as [|[k o] outputs IH]; [done|].
  cbn -[public_value]. destruct (public_value o) as [v|] eqn:Ho; cbn -[public_value]; [|exact IH].
  rewrite Ho. cbn -[public_value]. by f_equal.
Qed.

Lemma needs_value_same (n m : TextMap NeedContext) (s : Z) :
  Forall2 same_public n m → needs_value n s = needs_value m s.
Proof.
  intros H. apply bind_st_ext; [|done]. revert s.
  induction H as [|[k x] [k' y] n m (Hk & Hr & Hp) H IH]; intros s; [done|].
  cbn in Hk, Hr, Hp. subst k'. apply bind_st_ext; [|intros entry t].
  - apply bind_st_ext; [|by rewrite Hr]. f_equal.
    rewrite (public_outputs_part (need_outputs x)), (public_outputs_part (need_outputs y)).
    by unfold public_part in Hp; rewrite Hp.
  - apply bind_st_ext; [apply IH|done].
Qed.

Lemma github_prepare_same (self : GithubLogicalActivationEvaluator)
    (request : ActivateLogicalJobRequest) (needs : TextMap NeedContext) :
  Forall2 same_public (request_needs request) needs →
  github_prepare self (base_evaluation_context request)
  = github_prepare self (base_evaluation_context (with_needs request needs)).
Proof.
  intros Hneeds. unfold github_prepare. cbn [base_evaluation_context evaluation_matrix
    evaluation_strategy evaluation_status with_needs request_status].
  apply bind_ext; [done|intros _].
  set (c := base_evaluation_context request).
  set (d := base_evaluation_context (with_needs request needs)).
  assert (∀ s, base_values self c s = base_values self d s) as ->; [|done].
  intros s. apply bind_st_ext; [done|intros inputs t]. apply bind_st_ext; [done|intros vars t'].
  apply bind_st_ext; [by apply needs_value_same|done].
Qed.

(** C8: Secrets of prerequisites do not reach an activation: when the outputs
    of the prerequisites differ only in those derived from secrets and both
    requests are valid, the job is activated alike, with the same instances
    or the same error. *)
Theorem secret_outputs_do_not_interfere {J P : Type} {hasher : Sha256}
    {encoding : ActivationEncoding J P} {W : StrLowercase}
    (self : GithubLogicalActivationEvaluator) (request : ActivateLogicalJobRequest)
    (needs : TextMap NeedContext) :
  Forall2 same_public (request_needs request) needs →
  (validate_request request
    : result (LogicalActivationError GithubActivationEvaluationError J P) _) = Ok tt →
  (validate_request (with_needs request needs)
    : result (LogicalActivationError GithubActivationEvaluationError J P) _) = Ok tt →
  (activate (evaluator := github_evaluator self) request
    : result (LogicalActivationError GithubActivationEvaluationError J P) _)
  = activate (evaluator := github_evaluator self) (with_needs request needs).
Proof.
  intros Hneeds H1 H2. unfold activate. rewrite H1, H2, !bind_Ok.
  unfold evaluator_prepare, github_evaluator.
  rewrite (github_prepare_same self request needs Hneeds).
  destruct (github_prepare self _) as [session|e]; [|reflexivity]. rewrite !bind_Ok.
  by apply activate_in_session_same.
Qed.

End Github.

(** ** Every provider *)

Lemma map_err_Ok {E F A : Type} (f : E → F) (m : result E A) (x : A) :
  map_err f m = Ok x ↔ m = Ok x.
Proof. destruct m; cbn; split; congruence. Qed.

(** No output derived from a secret is in the prerequisites. *)
Definition public_only (needs : TextMap NeedContext) : Prop :=
  ∀ job need key output, (job, need) ∈ needs → (key, output) ∈ need_outputs need →
    need_output_sensitivity output = SensitivityPublic.

Lemma public_runtime_needs_public {E J P : Type} (needs m : TextMap NeedContext) :
  (public_runtime_needs needs : result (LogicalActivationError E J P) _) = Ok m → public_only m.
Proof.
  intros H%try_map_Ok job need key output Hneed Hout.
  apply list_elem_of_lookup in Hneed as [i Hi].
  destruct (Forall2_lookup_r _ _ _ _ _ H Hi) as ([job' need'] & _ & Hn).
  apply bind_Ok_inv in Hn as (need'' & Hn & [= -> ->]).
  apply map_err_Ok in Hn. unfold need_new in Hn. apply bind_Ok_inv in Hn as (_ & _ & [= <-]).
  apply list_elem_of_In, filter_In in Hout as [_ Hout]. cbn in Hout. unfold public_value in Hout.
  by case_bool_decide.
Qed.

Section Every.
Context {E J P : Type} {hasher : Sha256} {encoding : ActivationEncoding J P} {L : StrLowercase}.

(** What an instance is. *)
Record well_activated `{session : !LogicalActivationSession E}
    (request : ActivateLogicalJobRequest) (total index : Z) (combination : MatrixCombination)
    (activated : ActivatedJobInstance) : Prop := MkWellActivated {
  activated_matrix :
    (into_context_value combination : result (LogicalActivationError E J P) _)
    = Ok (runtime_matrix (instance_runtime_context activated));
  activated_identity : ∃ digest,
    (matrix_digest (request_key request) (runtime_matrix (instance_runtime_context activated))
      : result (LogicalActivationError E J P) _) = Ok digest ∧
    instance_identity activated = MkInstanceIdentity (request_key request) index total digest;
  activated_context_valid :
    runtime_context_validate (instance_runtime_context activated) = Ok tt;
  activated_inputs : runtime_inputs (instance_runtime_context activated) = request_inputs request;
  activated_vars : runtime_vars (instance_runtime_context activated) = request_vars request;
  activated_secrets :
    runtime_secrets (instance_runtime_context activated) = request_secrets request;
  activated_needs : public_only (runtime_needs (instance_runtime_context activated));
  activated_position :
    context_job_index (runtime_strategy (instance_runtime_context activated)) = index ∧
    context_job_total (runtime_strategy (instance_runtime_context activated)) = total
}.

Lemma activate_instance_well `{session : !LogicalActivationSession E}
    (request : ActivateLogicalJobRequest) resolved (total index : Z) combination activated :
  (activate_instance request resolved total index combination
    : result (LogicalActivationError E J P) _) = Ok activated →
  well_activated request total index combination activated.
Proof.
  unfold activate_instance. intros (matrix & Hmatrix & H)%bind_Ok_inv.
  apply bind_Ok_inv in H as (_ & _ & H).
  apply bind_Ok_inv in H as (strategy & Hstrategy & H).
  do 6 (apply bind_Ok_inv in H as (? & _ & H)).
  apply bind_Ok_inv in H as (digest & Hdigest & H).
  apply bind_Ok_inv in H as (identity & Hidentity & H).
  apply bind_Ok_inv in H as (needs & Hneeds & H).
  apply bind_Ok_inv in H as (context & Hcontext & [= <-]).
  apply map_err_Ok in Hstrategy, Hidentity, Hcontext.
  unfold runtime_context_new in Hcontext. apply bind_Ok_inv in Hcontext as ([] & Hvalid & [= <-]).
  unfold job_identity_new in Hidentity. apply bind_Ok_inv in Hidentity as (_ & _ & [= <-]).
  unfold strategy_context_new in Hstrategy.
  do 3 (apply bind_Ok_inv in Hstrategy as (_ & _ & Hstrategy)). injection Hstrategy as <-.
  split; try done; [by exists digest|by eapply public_runtime_needs_public].
Qed.

Lemma activate_steps `{session : !LogicalActivationSession E}
    (request : ActivateLogicalJobRequest) resolved (total : Z) cs bytes bytes' prior activated :
  (try_fold (activate_step request resolved total) (bytes, prior) cs
    : result (LogicalActivationError E J P) _) = Ok (bytes', activated) →
  ∃ rest, activated = prior ++ rest ∧ length rest = length cs ∧
    ∀ i a, rest !! i = Some a → ∃ c, cs !! i = Some c ∧
      (activate_instance request resolved total (len prior + Z.of_nat i) c
        : result (LogicalActivationError E J P) _) = Ok a.
Proof.
  revert bytes prior. induction cs as [|c cs IH]; intros bytes prior H; cbn in H.
  { injection H as _ <-. exists []. by rewrite app_nil_r. }
  apply bind_Ok_inv in H as ([bytes1 prior1] & Hstep & H).
  unfold activate_step in Hstep. apply bind_Ok_inv in Hstep as (a & Ha & Hstep).
  apply bind_Ok_inv in Hstep as (bytes2 & _ & [= <- <-]).
  apply IH in H as (rest & -> & Hlen & Hrest). exists (a :: rest).
  rewrite <- app_assoc. split_and!; [done|cbn; lia|]. intros [|i] b Hi.
  - injection Hi as <-. exists c. by rewrite Z.add_0_r.
  - apply Hrest in Hi as (c' & Hc & Hb). exists c'. split; [done|].
    unfold len in *. rewrite length_app in Hb. cbn [length] in Hb.
    by replace (Z.of_nat (length prior) + Z.of_nat (S i)) with
      (Z.of_nat (length prior + 1) + Z.of_nat i) by lia.
Qed.

Definition instance_limit (request : ActivateLogicalJobRequest) : Z :=
  match job_strategy (request_template request) with
  | Some strategy => strategy_expansion_limit strategy
  | None => 1
  end.

Lemma resolve_strategy_limit `{session : !LogicalActivationSession E} request context resolved :
  (resolve_strategy request context : result (LogicalActivationError E J P) _) = Ok resolved →
  resolved_expansion_limit resolved = instance_limit request.
Proof.
  unfold resolve_strategy, instance_limit. destruct (job_strategy _); [|by intros [= <-]].
  intros (? & _ & H)%bind_Ok_inv. apply bind_Ok_inv in H as (? & _ & H).
  by apply bind_Ok_inv in H as (? & _ & [= <-]).
Qed.

(** C9: An activation makes one instance for each combination of the strategy,
    at most as many as its limit: each carries the combination of its place
    as its matrix, an identity with its place, the total and the digest of
    the matrix, and a valid runtime context with the inputs, variables and
    secret bindings of the request and no output derived from a secret. *)
Theorem instances_follow_the_matrix {evaluator : LogicalActivationEvaluator (E := E)}
    (request : ActivateLogicalJobRequest) (activation : LogicalJobActivation) index activated :
  (activate request : result (LogicalActivationError E J P) _) = Ok activation →
  activation_instances activation !! index = Some activated →
  ∃ session resolved combination,
    evaluator_prepare (base_evaluation_context request) = Ok session ∧
    (resolve_strategy (session := session) request (base_evaluation_context request)
      : result (LogicalActivationError E J P) _) = Ok resolved ∧
    strategy_matrices resolved !! index = Some combination ∧
    len (activation_instances activation) = len (strategy_matrices resolved) ∧
    len (activation_instances activation) ≤ instance_limit request ∧
    well_activated (session := session) request (len (activation_instances activation))
      (Z.of_nat index) combination activated.
Proof.
  intros (_ & _ & (session & Hsession%map_err_Ok & H)%bind_Ok_inv)%bind_Ok_inv Hi.
  unfold activate_in_session in H. apply bind_Ok_inv in H as (matched & _ & H).
  destruct matched; cbn [negb] in H; [|by injection H as <-].
  apply bind_Ok_inv in H as (resolved & Hresolved & H).
  destruct (Nat.eqb _ 0) in H; [by injection H as <-|].
  apply bind_Ok_inv in H as ([] & Hlimit%reject_passes%Z.ltb_ge & H).
  unfold activate_instances in H. apply bind_Ok_inv in H as (_ & _ & H).
  apply bind_Ok_inv in H as ([bytes activateds] & Hfold & [= <-]). cbn in Hi.
  apply activate_steps in Hfold as (rest & -> & Hlen & Hrest). cbn in Hi.
  destruct (Hrest _ _ Hi) as (combination & Hc & Ha).
  exists session, resolved, combination. rewrite (resolve_strategy_limit _ _ _ Hresolved) in Hlimit.
  assert (len rest = len (strategy_matrices resolved)) as Heq by (unfold len; by rewrite Hlen).
  cbn [activation_instances app]. rewrite Heq. split_and!; [done..|].
  by eapply activate_instance_well.
Qed.

Lemma tmap_get_elem {V : Type} (m : TextMap V) (key : str) (v : V) :
  tmap_get m key = Some v → (key, v) ∈ m.
Proof.
  unfold tmap_get. intros ([k w] & Hfind & [= ->])%fmap_Some.
  apply find_some in Hfind as [Hin Heq]. cbn in Heq. apply eqb_eq in Heq as ->.
  by apply list_elem_of_In.
Qed.

(** A valid request has every prerequisite, and no failed one with a status of
    success. *)
Lemma validate_request_needs request :
  (validate_request request : result (LogicalActivationError E J P) _) = Ok tt →
  (∀ d, d ∈ needs_of (request_template request) →
     ∃ need, tmap_get (request_needs request) d = Some need) ∧
  (request_status request = ActivationSuccess →
     ∀ d need, tmap_get (request_needs request) d = Some need →
     need_result need = ConclusionSuccess).
Proof.
  unfold validate_request. intros H. apply bind_Ok_inv in H as ([] & Hneeds & H).
  apply bind_Ok_inv in H as (_ & _ & H). apply bind_Ok_inv in H as (_ & Hstatus%reject_passes & _).
  split.
  - assert (∀ d, d ∈ elems (bset_from (needs_of (request_template request))) →
      tmap_contains_key (request_needs request) d = true) as Hd.
    { refine (try_fold_inv (λ visited _, ∀ d, d ∈ visited →
        tmap_contains_key (request_needs request) d = true) _ _ _ _ _ _ Hneeds); [set_solver|].
      intros visited x [] [] _ Hinv Hx%reject_passes%negb_false_iff d [Hd|Hd]%elem_of_app;
        [by apply Hinv|]. by apply list_elem_of_singleton in Hd as ->. }
    intros d Hin. specialize (Hd d). unfold tmap_contains_key in Hd.
    destruct (tmap_get (request_needs request) d) as [need|]; [by exists need|].
    exfalso. enough (is_some (None : option NeedContext) = true) by done. apply Hd.
    by apply elem_of_bset_from.
  - intros Hs d need Hget%tmap_get_elem. rewrite Hs, bool_decide_true in Hstatus by done.
    cbn in Hstatus.
    destruct (decide (need_result need = ConclusionSuccess)) as [|Hne]; [done|].
    assert (existsb (λ need, negb (bool_decide (need_result need.2 = ConclusionSuccess)))
      (request_needs request) = true); [|congruence].
    apply existsb_exists. exists (d, need). split; [by apply list_elem_of_In|].
    cbn. by rewrite bool_decide_false.
Qed.

(** A job without a condition of its own runs only after success: when an
    activation makes an instance of it, each of its prerequisites is there and
    has succeeded. *)
Lemma default_condition_needs_success {evaluator : LogicalActivationEvaluator (E := E)}
    (request : ActivateLogicalJobRequest) (activation : LogicalJobActivation) (d : str) :
  (activate request : result (LogicalActivationError E J P) _) = Ok activation →
  job_condition (request_template request) = None →
  activation_instances activation ≠ [] →
  d ∈ needs_of (request_template request) →
  ∃ need, tmap_get (request_needs request) d = Some need ∧
    need_result need = ConclusionSuccess.
Proof.
  intros ([] & Hvalid & (session & _ & H)%bind_Ok_inv)%bind_Ok_inv Hnone Hsome Hd.
  destruct (validate_request_needs request Hvalid) as [Hneeds Hresults].
  destruct (Hneeds d Hd) as [need Hneed]. exists need. split; [done|].
  apply (Hresults) with d; [|done].
  unfold activate_in_session in H. apply bind_Ok_inv in H as (matched & Hmatched & H).
  unfold resolve_condition in Hmatched. rewrite Hnone in Hmatched. injection Hmatched as <-.
  destruct (decide (request_status request = ActivationSuccess)) as [|Hne]; [done|].
  rewrite bool_decide_false in H by done. by injection H as <-.
Qed.

End Every.

(** ** An activation

    A job on two platforms after a build that hands out a public address and
    a token derived from a secret. *)

Definition byte_sum : Sha256 := {| sha256 bytes := [foldr Z.add 0 bytes mod 256] |}.
Definition short_encoding : ActivationEncoding unit unit :=
  {| matrix_to_vec _ := Ok []; encode_job_runtime_context _ := Ok [0; 0] |}.
Definition ascii_lowercase : StrLowercase := map to_ascii_lowercase.
Definition no_json : SerdeJson := {| json_document _ := (DFail, true); json_string s := s |}.

Definition deploy_program : ExpressionProgram :=
  MkProgram EXPRESSION_PROGRAM_SCHEMA_VERSION (MkDialect DIALECT 1) (lit "${{ matrix.os }}")
    [INamedValue (lit "matrix"); ILiteral (LitString (lit "os")); IIndex].

(** [deploy ${{ matrix.os }}] *)
Definition deploy_name : CompiledExpressionTemplate :=
  MkExpressionTemplate WorkflowTemplate.JobActivation
    (MkPlanExpression expression_version_current (lit "deploy ${{ matrix.os }}")
       [SegLiteral (lit "deploy "); SegEvaluation (lit "${{ matrix.os }}")])
    [deploy_program] [CtxMatrix].

Definition deploy_matrix : MatrixTemplate :=
  MkMatrix
    [MkAxis (here (lit "os"))
       (AxisStatic [here (TemplateLiteral (MatrixString (lit "linux")));
                    here (TemplateLiteral (MatrixString (lit "windows")))]) example_span]
    (PatchesStatic []) (PatchesStatic []) None example_span.

Definition deploy_job : LogicalJobTemplate :=
  let job := example_job 1 (lit "deploy") [lit "build"] in
  MkJob (job_key job) 1 (Some (here (ValueExpression deploy_name))) (job_needs job) [] None
    (Some (strategy_new None None deploy_matrix 4 example_span)) None None value_map_default
    run_defaults_default None None [] None (job_execution job) example_span.

Definition build_need (token : str) : TextMap NeedContext :=
  [(lit "build",
    MkNeed ConclusionSuccess
      [(lit "token", MkNeedOutput token SensitivitySecretDerived);
       (lit "url", MkNeedOutput (lit "https://example.org") SensitivityPublic)])].

Definition deploy_request (token : str) : ActivateLogicalJobRequest :=
  MkActivateRequest
    (MkValidatedJob (example_plan [example_job 0 (lit "build") []; deploy_job]) deploy_job)
    context_empty_object context_empty_object (build_need token) [] ActivationSuccess.

Definition bare_github : GithubLogicalActivationEvaluator :=
  MkGithubEvaluator evaluation_limits_default
    (MkGithubContext (VObject (MkObject (Given 0) [] ∅))).

#[local] Existing Instance byte_sum.
#[local] Existing Instance short_encoding.
#[local] Existing Instance ascii_lowercase.
#[local] Existing Instance no_json.
#[local] Existing Instance ascii_case_table.
#[local] Existing Instance ascii_lower_case_table.

Definition deploy (token : str) :
    result (LogicalActivationError GithubActivationEvaluationError unit unit)
      LogicalJobActivation :=
  activate (evaluator := github_evaluator bare_github) (deploy_request token).

(** The plan is valid and the activation names the platforms. *)
Example deploys_by_platform :
  workflow_plan_validate (example_plan [example_job 0 (lit "build") []; deploy_job]) = Ok tt ∧
  match deploy (lit "t0ken") with
  | Ok activation =>
      map instance_name (activation_instances activation)
      = [lit "deploy linux"; lit "deploy windows"]
  | Err _ => False
  end.
Proof. split; vm_compute; reflexivity. Qed.

Lemma secret_outputs_do_not_interfere_witness :
  deploy (lit "t0ken") = deploy (lit "another") ∧ is_ok (deploy (lit "t0ken")) = true ∧
  build_need (lit "t0ken") ≠ build_need (lit "another").
Proof.
  split.
  - assert (Forall2 same_public (build_need (lit "t0ken")) (build_need (lit "another"))) as H.
    { constructor; [split; [reflexivity|split; vm_compute; reflexivity]|constructor]. }
    exact (secret_outputs_do_not_interfere bare_github (deploy_request (lit "t0ken"))
      (build_need (lit "another")) H ltac:(vm_compute; reflexivity) ltac:(vm_compute; reflexivity)).
  - split; [vm_compute; reflexivity|discriminate].
Defined.

Lemma instances_follow_the_matrix_witness :
  ∃ activation activated,
    deploy (lit "t0ken") = Ok activation ∧
    activation_instances activation !! 1%nat = Some activated ∧
    context_job_index (runtime_strategy (instance_runtime_context activated)) = 1 ∧
    context_job_total (runtime_strategy (instance_runtime_context activated)) = 2 ∧
    public_only (runtime_needs (instance_runtime_context activated)).
Proof.
  destruct (deploy (lit "t0ken")) as [activation|e] eqn:E; [|vm_compute in E; discriminate E].
  assert (len (activation_instances activation) = 2) as Htotal.
  { vm_compute in E. injection E as <-. reflexivity. }
  destruct (activation_instances activation !! 1%nat) as [activated|] eqn:Hi;
    [|apply lookup_ge_None in Hi; unfold len in Htotal; lia].
  exists activation, activated. split; [reflexivity|]. split; [exact Hi|].
  destruct (instances_follow_the_matrix (evaluator := github_evaluator bare_github)
    (deploy_request (lit "t0ken")) activation 1 activated E Hi)
    as (session & resolved & combination & _ & _ & _ & _ & _ & Hwell).
  destruct (activated_position _ _ _ _ _ Hwell) as [Hindex Hcount].
  split; [exact Hindex|]. split; [rewrite <- Htotal; exact Hcount|].
  exact (activated_needs _ _ _ _ _ Hwell).
Defined.

