(* ===== verification/Permission.v ===== *)
(** * Permission: what a job may ask of the provider, and what is left of it

    Models the permission catalog ([crates/automata-ci-actions-permissions]),
    the permission request of a job
    ([crates/automata-ci-core/src/job/permission.rs]), the repository's
    expansions of the shorthands ([WorkflowPermissionPolicy] of
    [crates/automata-ci-store/src/workflow_runtime_policy.rs]), the ceiling of
    a called workflow ([reusable_workflow_runtime.rs] of the same crate) and
    the part of
    [crates/automata-ci-workflow-service/src/logical_projection.rs] that
    resolves the request of a job under ceiling and trust. *)

From stdpp Require Import gmap.
From S2P Require Import Prelude Text Capability ManagedSecret WorkflowTemplate WorkflowStrategy.
From S2P Require Import RuntimeContext MatrixExpansion WorkflowLogical WorkflowGraph JobActivation.
From S2P Require Import Trust.

Open Scope Z_scope.

(** ** The catalog *)

Inductive ActionsDefaultWorkflowPermission := DefaultRead | DefaultWrite.

Definition default_permission_as_str (self : ActionsDefaultWorkflowPermission) : str :=
  match self with DefaultRead => lit "read" | DefaultWrite => lit "write" end.

Record ActionsWorkflowPermission := MkCatalogPermission {
  catalog_name : str;
  allows_read : bool;
  allows_write : bool
}.

Definition ACTIONS_WORKFLOW_PERMISSIONS : list ActionsWorkflowPermission :=
  [MkCatalogPermission (lit "actions") true true;
   MkCatalogPermission (lit "artifact-metadata") true true;
   MkCatalogPermission (lit "attestations") true true;
   MkCatalogPermission (lit "checks") true true;
   MkCatalogPermission (lit "code-quality") true true;
   MkCatalogPermission (lit "contents") true true;
   MkCatalogPermission (lit "deployments") true true;
   MkCatalogPermission (lit "discussions") true true;
   MkCatalogPermission (lit "id-token") false true;
   MkCatalogPermission (lit "issues") true true;
   MkCatalogPermission (lit "models") true false;
   MkCatalogPermission (lit "packages") true true;
   MkCatalogPermission (lit "pages") true true;
   MkCatalogPermission (lit "pull-requests") true true;
   MkCatalogPermission (lit "security-events") true true;
   MkCatalogPermission (lit "statuses") true true;
   MkCatalogPermission (lit "vulnerability-alerts") true false].

(** The binary search of a table whose names ascend. *)
Definition actions_workflow_permission (name : str) : option ActionsWorkflowPermission :=
  List.find (λ permission, eqb name (catalog_name permission)) ACTIONS_WORKFLOW_PERMISSIONS.

(** ** The request of a job *)

#[export] Instance permission_level_eq_dec : EqDecision PermissionLevel.
Proof. solve_decision. Defined.

Definition MAX_JOB_PERMISSION_GRANTS : Z := 64.
Definition MAX_JOB_PERMISSION_NAME_BYTES : Z := 64.
Definition ID_TOKEN_PERMISSION : str := lit "id-token".

Definition job_permission_grant_rejection (observed : Z) : bool :=
  MAX_JOB_PERMISSION_GRANTS <? observed.
Definition job_permission_name_byte_rejection (observed : Z) : bool :=
  MAX_JOB_PERMISSION_NAME_BYTES <? observed.

(** The errors of [JobValidationError] that permissions give. *)
Inductive JobPermissionError :=
| TooManyPermissionGrants (maximum : Z)
| InvalidPermissionName
| NonCanonicalPermissionMapping
| IdTokenReadPermission.

Record JobPermissionGrant := MkJobGrant {
  permission_name : str;
  permission_level : PermissionLevel
}.
#[export] Instance job_permission_grant_eq_dec : EqDecision JobPermissionGrant.
Proof. solve_decision. Defined.

Inductive JobPermissionRequest :=
| RequestProviderDefault
| RequestReadAll
| RequestWriteAll
| RequestMapping (grants : list JobPermissionGrant).

(** [JobPermissionRequest::mapping]. *)
Definition mapping (grants : list JobPermissionGrant) : JobPermissionRequest :=
  RequestMapping (sort_by_key permission_name grants).

Definition request_grants (self : JobPermissionRequest) : option (list JobPermissionGrant) :=
  match self with RequestMapping grants => Some grants | _ => None end.

(** The bytes after the first. *)
Fixpoint canonical_name_tail (previous_hyphen : bool) (bytes : list Z) : bool :=
  match bytes with
  | [] => negb previous_hyphen
  | byte :: bytes =>
      if byte =? 45 then if previous_hyphen then false else canonical_name_tail true bytes
      else if is_ascii_lowercase byte || is_ascii_digit byte then canonical_name_tail false bytes
      else false
  end.

Definition canonical_permission_name (value : str) : bool :=
  if str_is_empty value || job_permission_name_byte_rejection (str_len value) then false
  else match as_bytes value with
       | first :: bytes => is_ascii_lowercase first && canonical_name_tail false bytes
       | [] => false
       end.

Fixpoint validate_grants (previous : option str) (grants : list JobPermissionGrant) :
    result JobPermissionError unit :=
  match grants with
  | [] => Ok tt
  | grant :: grants =>
      let name := permission_name grant in
      _ ← reject (negb (canonical_permission_name name)) InvalidPermissionName;
      _ ← reject (match previous with Some previous => leb name previous | None => false end)
            NonCanonicalPermissionMapping;
      _ ← reject (str_eqb name ID_TOKEN_PERMISSION
                  && bool_decide (permission_level grant = PermissionRead)) IdTokenReadPermission;
      validate_grants (Some name) grants
  end.

Definition request_validate (self : JobPermissionRequest) : result JobPermissionError unit :=
  match self with
  | RequestMapping grants =>
      _ ← reject (job_permission_grant_rejection (len grants))
            (TooManyPermissionGrants MAX_JOB_PERMISSION_GRANTS);
      validate_grants None grants
  | _ => Ok tt
  end.

(** [binary_search_by] for a name. *)
Definition find_grant (grants : list JobPermissionGrant) (name : str) :
    option JobPermissionGrant :=
  List.find (λ grant, eqb name (permission_name grant)) grants.

(** The search runs on a mapping that validates, whose names ascend. *)
Definition requested_level (self : JobPermissionRequest) (name : str) : option PermissionLevel :=
  match self with
  | RequestProviderDefault => None
  | RequestReadAll => Some PermissionRead
  | RequestWriteAll => Some PermissionWrite
  | RequestMapping grants =>
      match request_validate self with
      | Err _ => None
      | Ok _ => permission_level <$> find_grant grants name
      end
  end.

(** ** The expansions of a repository *)

Inductive WorkflowRuntimePolicyValueError := InvalidPermissionPolicy.

Record WorkflowPermissionPolicy := MkPermissionPolicy {
  policy_provider_default : TextMap PermissionLevel;
  policy_read_all : TextMap PermissionLevel;
  policy_write_all : TextMap PermissionLevel
}.

Definition catalog_read_all : TextMap PermissionLevel :=
  tmap_from (map (λ permission, (catalog_name permission, PermissionRead))
               (List.filter allows_read ACTIONS_WORKFLOW_PERMISSIONS)).

Definition catalog_write_all : TextMap PermissionLevel :=
  tmap_from (omap (λ permission,
               if allows_write permission then Some (catalog_name permission, PermissionWrite)
               else if allows_read permission then Some (catalog_name permission, PermissionRead)
               else None) ACTIONS_WORKFLOW_PERMISSIONS).

Definition restricted_provider_default : TextMap PermissionLevel :=
  tmap_from [(lit "contents", PermissionRead); (lit "packages", PermissionRead)].

Definition provider_default_permissions (provider_default : ActionsDefaultWorkflowPermission) :
    TextMap PermissionLevel :=
  match provider_default with
  | DefaultRead => restricted_provider_default
  | DefaultWrite => catalog_write_all
  end.

Definition matches_provider_default (provider_default : TextMap PermissionLevel) : bool :=
  bool_decide (provider_default = restricted_provider_default)
  || bool_decide (provider_default = catalog_write_all).

(** The levels a catalogued permission accepts. *)
Definition permission_allows (permission : ActionsWorkflowPermission) (level : PermissionLevel) :
    bool :=
  match level with
  | PermissionRead => allows_read permission
  | PermissionWrite => allows_write permission
  | PermissionNone => true
  end.

Definition catalog_allows (name : str) (level : PermissionLevel) : bool :=
  match actions_workflow_permission name with
  | Some permission => permission_allows permission level
  | None => false
  end.

(** The store repeats [canonical_permission_name] with the same limit. *)
Definition policy_permission_name (value : str) : bool := canonical_permission_name value.

Definition validate_permission_map (permissions : TextMap PermissionLevel) :
    result WorkflowRuntimePolicyValueError unit :=
  _ ← reject (Nat.eqb (length permissions) 0 || (MAX_JOB_PERMISSION_GRANTS <? len permissions))
        InvalidPermissionPolicy;
  try_for (λ '(name, level),
    reject (negb (policy_permission_name name) || bool_decide (level = PermissionNone)
            || negb (catalog_allows name level)) InvalidPermissionPolicy) permissions.

Definition permission_policy_new (provider_default read_all write_all : TextMap PermissionLevel) :
    result WorkflowRuntimePolicyValueError WorkflowPermissionPolicy :=
  _ ← validate_permission_map provider_default;
  _ ← validate_permission_map read_all;
  _ ← validate_permission_map write_all;
  _ ← reject (negb (bool_decide (read_all = catalog_read_all))
              || negb (bool_decide (write_all = catalog_write_all))
              || negb (matches_provider_default provider_default)
              || existsb (λ '(name, level), negb (catalog_allows name level)) provider_default)
        InvalidPermissionPolicy;
  Ok (MkPermissionPolicy provider_default read_all write_all).

Definition from_provider_default (provider_default : TextMap PermissionLevel) :
    result WorkflowRuntimePolicyValueError WorkflowPermissionPolicy :=
  permission_policy_new provider_default catalog_read_all catalog_write_all.

Definition from_github_default (provider_default : ActionsDefaultWorkflowPermission) :
    result WorkflowRuntimePolicyValueError WorkflowPermissionPolicy :=
  from_provider_default (provider_default_permissions provider_default).

Definition github_default (self : WorkflowPermissionPolicy) : ActionsDefaultWorkflowPermission :=
  if bool_decide (policy_provider_default self = restricted_provider_default) then DefaultRead
  else DefaultWrite.

Definition permission_policy_resolve (self : WorkflowPermissionPolicy)
    (request : JobPermissionRequest) : JobPermissionRequest :=
  let expand permissions :=
    mapping (map (λ '(name, level), MkJobGrant name level) permissions) in
  match request with
  | RequestProviderDefault => expand (policy_provider_default self)
  | RequestReadAll => expand (policy_read_all self)
  | RequestWriteAll => expand (policy_write_all self)
  | RequestMapping _ => request
  end.

(** ** The ceiling of a called workflow *)

Record ReusableWorkflowPermissionSnapshot := MkPermissionSnapshot {
  ceiling_default_level : PermissionLevel;
  ceiling_grants : TextMap PermissionLevel;
  ceiling_digest : Sha256Digest
}.

Definition ceiling_level (self : ReusableWorkflowPermissionSnapshot) (name : str) :
    PermissionLevel :=
  default (ceiling_default_level self) (tmap_get (ceiling_grants self) name).

(** ** Resolution *)

(** The errors of [LogicalJobProjectionError] that these functions give. *)
Inductive LogicalJobProjectionError :=
| MissingTrustSnapshot
| TrustDeniedRuntimeSecrets
| TrustDeniedEnvironment
| UnrepresentableTrustCeiling
| UnrepresentablePermissionCeiling
| InvalidPermissionRequest.

Definition minimum_permission (left right : PermissionLevel) : PermissionLevel :=
  match left, right with
  | PermissionNone, _ | _, PermissionNone => PermissionNone
  | PermissionRead, _ | _, PermissionRead => PermissionRead
  | PermissionWrite, PermissionWrite => PermissionWrite
  end.

Definition source_permission_request (request : option PermissionSnapshotRequest) :
    JobPermissionRequest :=
  match request with
  | None => RequestProviderDefault
  | Some request =>
      match request_permissions request with
      | ReadAll _ => RequestReadAll
      | WriteAll _ => RequestWriteAll
      | PermissionMapping grants =>
          mapping (map (λ grant, MkJobGrant (located_value (grant_name grant))
                                   (located_value (grant_level grant))) grants)
      end
  end.

Definition validate_resolved_grant (grant : JobPermissionGrant) :
    result LogicalJobProjectionError unit :=
  permission ← ok_or (actions_workflow_permission (permission_name grant))
                 InvalidPermissionRequest;
  reject (negb (permission_allows permission (permission_level grant))) InvalidPermissionRequest.

Definition validate_resolved_permission_request (request : JobPermissionRequest) :
    result LogicalJobProjectionError unit :=
  match request with
  | RequestMapping grants => try_for validate_resolved_grant grants
  | _ => Err InvalidPermissionRequest
  end.

(** What a ceiling leaves of one grant. *)
Definition reduce_grant (default_level : PermissionLevel)
    (grants : TextMap PermissionLevel) (grant : JobPermissionGrant) :
    option JobPermissionGrant :=
  let ceiling := default default_level (tmap_get grants (permission_name grant)) in
  let level := minimum_permission (permission_level grant) ceiling in
  if bool_decide (level = PermissionNone) then None
  else Some (MkJobGrant (permission_name grant) level).

Definition reduce_permission_request (request : JobPermissionRequest)
    (default_level : PermissionLevel) (grants : TextMap PermissionLevel) :
    result LogicalJobProjectionError JobPermissionRequest :=
  match request with
  | RequestMapping requested => Ok (mapping (omap (reduce_grant default_level grants) requested))
  | _ => Err UnrepresentablePermissionCeiling
  end.

(** What read-only trust leaves of one grant. *)
Definition read_only_grant (grant : JobPermissionGrant) : option JobPermissionGrant :=
  permission ← actions_workflow_permission (permission_name grant);
  match permission_level grant with
  | PermissionRead => Some grant
  | PermissionWrite =>
      if allows_read permission then Some (MkJobGrant (permission_name grant) PermissionRead)
      else None
  | PermissionNone => None
  end.

Definition reduce_permission_request_for_trust (request : JobPermissionRequest)
    (authority : TrustPermissionAuthority) :
    result LogicalJobProjectionError JobPermissionRequest :=
  match authority with
  | PermissionsRequested => Ok request
  | PermissionsDenyAll => Ok (mapping [])
  | PermissionsReadOnly =>
      match request with
      | RequestMapping grants => Ok (mapping (omap read_only_grant grants))
      | _ => Err UnrepresentableTrustCeiling
      end
  end.

Definition resolved_permission_request (request : option PermissionSnapshotRequest)
    (policy : WorkflowPermissionPolicy) (ceiling : option ReusableWorkflowPermissionSnapshot)
    (trust_authority : TrustPermissionAuthority) :
    result LogicalJobProjectionError JobPermissionRequest :=
  let request := permission_policy_resolve policy (source_permission_request request) in
  _ ← validate_resolved_permission_request request;
  request ← match ceiling with
            | Some ceiling =>
                request ← reduce_permission_request request (ceiling_default_level ceiling)
                            (ceiling_grants ceiling);
                _ ← validate_resolved_permission_request request;
                Ok request
            | None => Ok request
            end;
  request ← reduce_permission_request_for_trust request trust_authority;
  _ ← validate_resolved_permission_request request;
  Ok request.

(** The runner feature a job with OIDC tokens needs. *)
Definition permission_requirements (requirements : RunnerRequirements)
    (request : JobPermissionRequest) : RunnerRequirements :=
  if negb (bool_decide (requested_level request ID_TOKEN_PERMISSION = Some PermissionWrite))
  then requirements
  else req_with_features (elems (bset_insert (lit "automata.core/oidc-tokens@v1")
                                   (req_features requirements))) requirements.

(** ** Trust at run time *)

Definition validate_trust_runtime_authority (snapshot : TrustSnapshot)
    (instance : ActivatedJobInstance) : result LogicalJobProjectionError unit :=
  let authority := authority_of snapshot in
  _ ← reject (bool_decide (authority_secrets authority = SecretsDenied)
              && negb (Nat.eqb (length (runtime_secrets (instance_runtime_context instance))) 0))
        TrustDeniedRuntimeSecrets;
  reject (bool_decide (authority_environment authority = EnvironmentDenied)
          && is_some (instance_deployment_environment instance)) TrustDeniedEnvironment.

Definition required_trust_snapshot (snapshot : option TrustSnapshot)
    (instance : ActivatedJobInstance) : result LogicalJobProjectionError TrustSnapshot :=
  snapshot ← ok_or snapshot MissingTrustSnapshot;
  _ ← reject (construction_placeholder snapshot) MissingTrustSnapshot;
  _ ← validate_trust_runtime_authority snapshot instance;
  Ok snapshot.

(** ** Facts *)

Abbreviation names_of grants := (map permission_name grants) (only parsing).

(** The level a mapping names, if its names do not repeat. *)
Definition mapped_level (grants : list JobPermissionGrant) (name : str) : PermissionLevel :=
  match find_grant grants name with
  | Some grant => permission_level grant
  | None => PermissionNone
  end.

Lemma find_grant_Some (grants : list JobPermissionGrant) (name : str)
    (grant : JobPermissionGrant) :
  NoDup (names_of grants) →
  find_grant grants name = Some grant ↔ grant ∈ grants ∧ permission_name grant = name.
Proof.
  unfold find_grant. induction grants as [|g grants IH]; simpl.
  { intros _. split; [done|]. intros [Hin _]. set_solver. }
  rewrite NoDup_cons. intros [Hg Hnd]. destruct (eqb name (permission_name g)) eqn:E.
  - apply eqb_eq in E as ->. split; [intros [= ->]; split; [apply list_elem_of_here|done]|].
    intros [[->|Hin]%elem_of_cons Heq]; [done|].
    destruct Hg. rewrite <- Heq. by apply list_elem_of_fmap_2.
  - apply eqb_neq in E. rewrite IH by done. rewrite elem_of_cons. naive_solver.
Qed.

Lemma find_grant_None (grants : list JobPermissionGrant) (name : str) :
  find_grant grants name = None ↔ name ∉ names_of grants.
Proof.
  unfold find_grant. induction grants as [|g grants IH]; simpl; [set_solver|].
  destruct (eqb name (permission_name g)) eqn:E.
  - apply eqb_eq in E as ->. split; [done|]. intros Hn. destruct Hn. apply list_elem_of_here.
  - apply eqb_neq in E. rewrite IH, elem_of_cons. naive_solver.
Qed.

(** Filtering that keeps names, sorted by name. *)
Section Filtering.
Context (f : JobPermissionGrant → option JobPermissionGrant).
Hypothesis f_name : ∀ grant grant', f grant = Some grant' →
  permission_name grant' = permission_name grant.

Lemma elem_of_filtered (grants : list JobPermissionGrant) (grant' : JobPermissionGrant) :
  grant' ∈ sort_by_key permission_name (omap f grants) ↔
  ∃ grant, grant ∈ grants ∧ f grant = Some grant'.
Proof. by rewrite elem_of_sort_by_key, list_elem_of_omap. Qed.

Lemma filtered_NoDup (grants : list JobPermissionGrant) :
  NoDup (names_of grants) → NoDup (names_of (sort_by_key permission_name (omap f grants))).
Proof.
  intros H. change (NoDup (permission_name <$> sort_by_key permission_name (omap f grants))).
  rewrite sort_by_key_perm. induction grants as [|g grants IH]; csimpl; [constructor|].
  simpl in H. apply NoDup_cons in H as [Hg Hnd].
  destruct (f g) as [g'|] eqn:Hf; csimpl; [|by apply IH].
  apply NoDup_cons. split; [|by apply IH]. rewrite (f_name _ _ Hf).
  intros (g1 & Hn & (g0 & Hg0 & Hf0)%list_elem_of_omap)%list_elem_of_fmap.
  apply Hg. rewrite Hn, (f_name _ _ Hf0). by apply list_elem_of_fmap_2.
Qed.

Lemma mapped_level_filtered (grants : list JobPermissionGrant) (name : str) :
  NoDup (names_of grants) →
  mapped_level (sort_by_key permission_name (omap f grants)) name =
  match find_grant grants name with
  | Some grant => match f grant with
                  | Some grant' => permission_level grant'
                  | None => PermissionNone
                  end
  | None => PermissionNone
  end.
Proof.
  intros Hnd. unfold mapped_level.
  destruct (find_grant grants name) as [g|] eqn:Hg.
  - apply find_grant_Some in Hg as [Hin Hn]; [|done].
    destruct (f g) as [g'|] eqn:Hf.
    + assert (Hfind : find_grant (sort_by_key permission_name (omap f grants)) name = Some g').
      { apply find_grant_Some; [by apply filtered_NoDup|].
        split; [|by rewrite (f_name _ _ Hf)]. apply elem_of_filtered. eauto. }
      by rewrite Hfind.
    + destruct (find_grant (sort_by_key _ _) name) as [g'|] eqn:Hg'; [|done].
      apply find_grant_Some in Hg' as [(g0 & Hin0 & Hf0)%elem_of_filtered Hn'];
        [|by apply filtered_NoDup].
      assert (g0 = g) as ->.
      { apply (NoDup_fmap_inj permission_name grants); [done..|].
        rewrite Hn, <- Hn'. symmetry. by apply f_name. }
      congruence.
  - destruct (find_grant (sort_by_key _ _) name) as [g'|] eqn:Hg'; [|done].
    apply find_grant_Some in Hg' as [(g0 & Hin0 & Hf0)%elem_of_filtered Hn'];
      [|by apply filtered_NoDup].
    apply find_grant_None in Hg. destruct Hg.
    rewrite <- Hn', (f_name _ _ Hf0). by apply list_elem_of_fmap_2.
Qed.
End Filtering.

Lemma reduce_grant_name (default_level : PermissionLevel) (ceiling : TextMap PermissionLevel)
    (grant grant' : JobPermissionGrant) :
  reduce_grant default_level ceiling grant = Some grant' →
  permission_name grant' = permission_name grant.
Proof. unfold reduce_grant. case_bool_decide; [done|]. by intros [= <-]. Qed.

Lemma read_only_grant_name (grant grant' : JobPermissionGrant) :
  read_only_grant grant = Some grant' → permission_name grant' = permission_name grant.
Proof.
  unfold read_only_grant. destruct (actions_workflow_permission _); simpl; [|done].
  destruct (permission_level grant); [by intros [= <-]| |done].
  destruct (allows_read _); [by intros [= <-]|done].
Qed.

(** *** Validation *)

Lemma validate_resolved_Ok (grants : list JobPermissionGrant) :
  validate_resolved_permission_request (RequestMapping grants) = Ok tt ↔
  ∀ grant, grant ∈ grants → catalog_allows (permission_name grant) (permission_level grant) = true.
Proof.
  simpl. rewrite try_for_Ok. unfold validate_resolved_grant, catalog_allows.
  split; intros H grant Hg; specialize (H grant Hg);
    (destruct (actions_workflow_permission _) as [p|]; simpl in *; [|done]);
    by destruct (permission_allows p _).
Qed.

Lemma validate_resolved_Err (request : JobPermissionRequest) (e : LogicalJobProjectionError) :
  validate_resolved_permission_request request = Err e → e = InvalidPermissionRequest.
Proof.
  destruct request as [| | |grants]; simpl; try by intros [= <-].
  induction grants as [|g grants IH]; simpl; [done|].
  unfold validate_resolved_grant at 1.
  destruct (actions_workflow_permission _) as [p|]; simpl; [|by intros [= <-]].
  destruct (permission_allows p _); simpl; [done|by intros [= <-]].
Qed.

Definition catalog_names : list str := map catalog_name ACTIONS_WORKFLOW_PERMISSIONS.

Lemma catalog_allows_name (name : str) (level : PermissionLevel) :
  catalog_allows name level = true → name ∈ catalog_names.
Proof.
  unfold catalog_allows, actions_workflow_permission.
  destruct (List.find _ _) as [p|] eqn:H; [|done]. intros _.
  apply List.find_some in H as [Hin Heq]. apply eqb_eq in Heq as ->.
  apply list_elem_of_fmap_2. by apply list_elem_of_In.
Qed.

Lemma catalog_names_canonical (name : str) :
  name ∈ catalog_names → canonical_permission_name name = true.
Proof.
  assert (H : forallb canonical_permission_name catalog_names = true) by (vm_compute; reflexivity).
  rewrite forallb_forall in H. intros Hin. by apply H, list_elem_of_In.
Qed.

Lemma id_token_not_readable (name : str) :
  catalog_allows name PermissionRead = true → name ≠ ID_TOKEN_PERMISSION.
Proof. intros H ->. by vm_compute in H. Qed.

Lemma validate_grants_Ok (previous : option str) (grants : list JobPermissionGrant) :
  strict_sorted (names_of grants) = true →
  (∀ name, previous = Some name → ∀ grant, grant ∈ grants → lt name (permission_name grant)) →
  (∀ grant, grant ∈ grants → catalog_allows (permission_name grant) (permission_level grant) = true) →
  validate_grants previous grants = Ok tt.
Proof.
  revert previous. induction grants as [|g grants IH]; intros previous; [done|].
  change (names_of (g :: grants)) with (permission_name g :: names_of grants).
  rewrite strict_sorted_cons. intros [Hg Hs] Hp Hc. simpl.
  assert (Hcg := Hc g (list_elem_of_here _ _)).
  rewrite catalog_names_canonical by by eapply catalog_allows_name. simpl.
  assert (Hprev : match previous with Some previous => leb (permission_name g) previous
                  | None => false end = false).
  { destruct previous as [previous|]; [|done].
    apply not_true_iff_false. rewrite leb_le. intros Hle.
    apply (lt_irrefl previous). destruct (proj1 (le_lt_eq _ _) Hle) as [Hlt|Heq].
    - eapply lt_trans; [|exact Hlt]. apply (Hp previous eq_refl g), list_elem_of_here.
    - rewrite <- Heq at 2. apply (Hp previous eq_refl g), list_elem_of_here. }
  rewrite Hprev. simpl.
  assert (Hid : str_eqb (permission_name g) ID_TOKEN_PERMISSION
                && bool_decide (permission_level g = PermissionRead) = false).
  { destruct (bool_decide_reflect (permission_level g = PermissionRead)) as [E|E];
      [|apply andb_false_r]. rewrite E in Hcg. apply id_token_not_readable in Hcg.
    unfold str_eqb. by rewrite bool_decide_eq_false_2. }
  rewrite Hid. simpl. apply IH; [done| |].
  - intros name [= <-] grant Hin. apply Hg. by apply list_elem_of_fmap_2.
  - intros grant Hin. apply Hc. by apply elem_of_cons; right.
Qed.

Lemma sorted_names_strict (grants : list JobPermissionGrant) :
  NoDup (names_of grants) →
  strict_sorted (names_of (sort_by_key permission_name grants)) = true.
Proof.
  intros Hnd. assert (Hnd' : NoDup (names_of (sort_by_key permission_name grants))).
  { change (NoDup (permission_name <$> sort_by_key permission_name grants)).
    by rewrite sort_by_key_perm. }
  pose proof (sort_by_key_sorted permission_name grants) as Hs. revert Hs Hnd'.
  generalize (sort_by_key permission_name grants). clear. intros l Hs.
  induction Hs as [|g l Hs IH Hall]; [done|].
  change (names_of (g :: l)) with (permission_name g :: names_of l).
  rewrite NoDup_cons, strict_sorted_cons. intros [Hg Hnd]. split; [|auto].
  intros y (g' & -> & Hg')%list_elem_of_fmap. rewrite Forall_forall in Hall.
  specialize (Hall g' Hg'). apply le_lt_eq in Hall as [|Heq]; [done|].
  destruct Hg. rewrite Heq. by apply list_elem_of_fmap_2.
Qed.

(** What resolution accepts is a valid request, and its levels are read off. *)
Lemma resolved_mapping_valid (grants : list JobPermissionGrant) :
  NoDup (names_of grants) →
  (∀ grant, grant ∈ grants → catalog_allows (permission_name grant) (permission_level grant) = true) →
  request_validate (mapping grants) = Ok tt.
Proof.
  intros Hnd Hc. unfold mapping, request_validate.
  set (sorted := sort_by_key permission_name grants).
  assert (Hcs : ∀ grant, grant ∈ sorted →
            catalog_allows (permission_name grant) (permission_level grant) = true).
  { intros grant. unfold sorted. rewrite elem_of_sort_by_key. apply Hc. }
  assert (Hlen : (length sorted <= length catalog_names)%nat).
  { rewrite <- (length_map permission_name sorted). apply submseteq_length, NoDup_submseteq.
    - apply strict_sorted_NoDup. by apply sorted_names_strict.
    - intros name (grant & -> & Hin)%list_elem_of_fmap.
      by eapply catalog_allows_name, Hcs. }
  change (length catalog_names) with 17%nat in Hlen.
  unfold job_permission_grant_rejection, MAX_JOB_PERMISSION_GRANTS, len.
  destruct (Z.ltb_spec 64 (Z.of_nat (length sorted))) as [|]; [lia|]. simpl.
  apply validate_grants_Ok; [by apply sorted_names_strict|done|done].
Qed.

Lemma requested_level_mapped (grants : list JobPermissionGrant) (name : str) :
  request_validate (RequestMapping grants) = Ok tt →
  default PermissionNone (requested_level (RequestMapping grants) name) = mapped_level grants name.
Proof.
  intros H. unfold requested_level, mapped_level. rewrite H.
  by destruct (find_grant grants name).
Qed.

(** *** The request before it is reduced *)

Definition grants_of_map (permissions : TextMap PermissionLevel) : list JobPermissionGrant :=
  map (λ '(name, level), MkJobGrant name level) permissions.

(** The grants a request asks for, shorthands expanded. *)
Definition asked (policy : WorkflowPermissionPolicy)
    (request : option PermissionSnapshotRequest) : list JobPermissionGrant :=
  match request with
  | None => grants_of_map (policy_provider_default policy)
  | Some request =>
      match request_permissions request with
      | ReadAll _ => grants_of_map (policy_read_all policy)
      | WriteAll _ => grants_of_map (policy_write_all policy)
      | PermissionMapping grants =>
          map (λ grant, MkJobGrant (located_value (grant_name grant))
                          (located_value (grant_level grant))) grants
      end
  end.

Lemma resolve_asked (policy : WorkflowPermissionPolicy)
    (request : option PermissionSnapshotRequest) :
  permission_policy_resolve policy (source_permission_request request)
  = mapping (asked policy request).
Proof. destruct request as [[[] ?]|]; done. Qed.

Lemma names_of_map (permissions : TextMap PermissionLevel) :
  names_of (grants_of_map permissions) = tmap_keys permissions.
Proof.
  unfold grants_of_map, tmap_keys. rewrite map_map. apply map_ext. by intros [].
Qed.

(** The maps of an accepted policy are the catalog's. *)
Lemma policy_keys_NoDup (provider_default read_all write_all : TextMap PermissionLevel)
    (policy : WorkflowPermissionPolicy) :
  permission_policy_new provider_default read_all write_all = Ok policy →
  NoDup (tmap_keys (policy_provider_default policy)) ∧
  NoDup (tmap_keys (policy_read_all policy)) ∧ NoDup (tmap_keys (policy_write_all policy)).
Proof.
  unfold permission_policy_new. intros H. ok_inv. simpl.
  apply orb_false_iff in H3 as [[[Hr Hw]%orb_false_iff Hd]%orb_false_iff _].
  apply negb_false_iff in Hr, Hw, Hd. apply bool_decide_eq_true in Hr as ->, Hw as ->.
  assert (Hcatalog : NoDup (tmap_keys catalog_read_all) ∧ NoDup (tmap_keys catalog_write_all) ∧
                     NoDup (tmap_keys restricted_provider_default)).
  { repeat split; apply strict_sorted_NoDup; vm_compute; reflexivity. }
  destruct Hcatalog as (Hcr & Hcw & Hcd). split; [|done].
  unfold matches_provider_default in Hd.
  by apply orb_true_iff in Hd as [->%bool_decide_eq_true| ->%bool_decide_eq_true].
Qed.

(** The names of a validated declaration do not repeat. *)
Definition declaration_valid (request : option PermissionSnapshotRequest) : Prop :=
  ∀ declared, request = Some declared →
    ∃ budget budget',
      permissions_validate (request_permissions declared) budget = (budget', Ok tt).

Lemma fold_fresh_NoDup (f : gset str → PermissionGrant → Charge (gset str))
    (grants : list PermissionGrant) (names names' : gset str) (budget budget' : LogicalPlanBudget) :
  (∀ names grant b b' names', f names grant b = (b', Ok names') →
     (located_value (grant_name grant) ∉ names) ∧
     names' = {[located_value (grant_name grant)]} ∪ names) →
  fold_st f names grants budget = (budget', Ok names') →
  NoDup (map (λ grant, located_value (grant_name grant)) grants) ∧
  ∀ grant, grant ∈ grants → located_value (grant_name grant) ∉ names.
Proof.
  intros Hf. revert names budget. induction grants as [|g grants IH]; intros names budget.
  { intros _. split; [constructor|set_solver]. }
  cbn [fold_st]. rewrite bind_st_Ok. intros (b1 & k1 & [Hnew ->]%Hf & Hrest).
  destruct (IH _ _ Hrest) as [Hnd Hfresh]. split.
  - apply NoDup_cons. split; [|done]. intros (g' & Heq & Hg')%list_elem_of_fmap.
    apply (Hfresh g' Hg'). cbn beta in Heq. rewrite <- Heq. set_solver.
  - intros grant [->|Hin]%elem_of_cons; [done|]. specialize (Hfresh grant Hin). set_solver.
Qed.

Lemma asked_NoDup (provider_default read_all write_all : TextMap PermissionLevel)
    (policy : WorkflowPermissionPolicy) (request : option PermissionSnapshotRequest) :
  permission_policy_new provider_default read_all write_all = Ok policy →
  declaration_valid request → NoDup (names_of (asked policy request)).
Proof.
  intros (Hd & Hr & Hw)%policy_keys_NoDup Hv. unfold asked.
  destruct request as [declared|]; [|by rewrite names_of_map].
  destruct (Hv declared eq_refl) as (budget & budget' & Hb).
  destruct (request_permissions declared) as [?|?|grants]; [by rewrite names_of_map..|].
  rewrite map_map. unfold permissions_validate in Hb.
  apply bind_st_Ok in Hb as (b & names & Hf & _).
  apply fold_fresh_NoDup in Hf as [? _]; [done|]. clear.
  intros names grant b b' names' H. apply bind_st_Ok in H as (? & [] & _ & H).
  by apply insert_fresh_Ok in H as (_ & ? & ->).
Qed.

(** *** What is left of a grant *)

(** The level a ceiling leaves. *)
Definition under_ceiling (ceiling : option ReusableWorkflowPermissionSnapshot) (name : str)
    (level : PermissionLevel) : PermissionLevel :=
  match ceiling with
  | Some ceiling => minimum_permission level (ceiling_level ceiling name)
  | None => level
  end.

(** The level a trust decision leaves. *)
Definition under_trust (trust : TrustPermissionAuthority) (name : str) (level : PermissionLevel) :
    PermissionLevel :=
  match trust, level with
  | PermissionsRequested, _ => level
  | PermissionsDenyAll, _ | _, PermissionNone => PermissionNone
  | PermissionsReadOnly, _ =>
      if catalog_allows name PermissionRead then PermissionRead else PermissionNone
  end.

(** The catalog knows the grant, as it is asked and under the ceiling. *)
Definition grantable (ceiling : option ReusableWorkflowPermissionSnapshot)
    (grant : JobPermissionGrant) : bool :=
  catalog_allows (permission_name grant) (permission_level grant)
  && catalog_allows (permission_name grant)
       (under_ceiling ceiling (permission_name grant) (permission_level grant)).

Lemma catalog_allows_none (name : str) (level : PermissionLevel) :
  catalog_allows name level = true → catalog_allows name PermissionNone = true.
Proof. unfold catalog_allows. by destruct (actions_workflow_permission name). Qed.

(** Under a ceiling: the mapping that is left, or the grant that stops it. *)
Lemma reduced_by_ceiling (c : ReusableWorkflowPermissionSnapshot)
    (grants : list JobPermissionGrant) :
  (∀ g, g ∈ grants → catalog_allows (permission_name g) (permission_level g) = true) →
  (∀ g', g' ∈ sort_by_key permission_name
                 (omap (reduce_grant (ceiling_default_level c) (ceiling_grants c)) grants) →
     catalog_allows (permission_name g') (permission_level g') = true) ↔
  ∀ g, g ∈ grants → grantable (Some c) g = true.
Proof.
  intros Hc. unfold grantable, under_ceiling, ceiling_level. split.
  - intros H g Hg. rewrite (Hc g Hg). simpl.
    set (level := minimum_permission _ _).
    destruct (decide (level = PermissionNone)) as [->|Hl];
      [by eapply catalog_allows_none, Hc|].
    apply (H (MkJobGrant (permission_name g) level)). apply elem_of_filtered.
    exists g. split; [done|]. unfold reduce_grant. fold level. by rewrite bool_decide_eq_false_2.
  - intros H g' (g & Hg & Hr)%elem_of_filtered. specialize (H g Hg).
    apply andb_true_iff in H as [_ H]. unfold reduce_grant in Hr.
    case_bool_decide; [done|]. by injection Hr as <-.
Qed.

Lemma read_only_allowed (grant grant' : JobPermissionGrant) :
  catalog_allows (permission_name grant) (permission_level grant) = true →
  read_only_grant grant = Some grant' →
  catalog_allows (permission_name grant') (permission_level grant') = true.
Proof.
  unfold read_only_grant, catalog_allows.
  destruct (actions_workflow_permission (permission_name grant)) as [p|] eqn:Hp; simpl; [|done].
  destruct (permission_level grant) eqn:Hl; simpl; intros Hall.
  - intros [= <-]. by rewrite Hp, Hl.
  - destruct (allows_read p) eqn:Hr; [|done]. intros [= <-]. simpl. by rewrite Hp.
  - done.
Qed.

Lemma mapped_level_reduced (c : ReusableWorkflowPermissionSnapshot)
    (grants : list JobPermissionGrant) (name : str) :
  NoDup (names_of grants) →
  mapped_level (sort_by_key permission_name
    (omap (reduce_grant (ceiling_default_level c) (ceiling_grants c)) grants)) name
  = under_ceiling (Some c) name (mapped_level grants name).
Proof.
  intros Hnd. rewrite mapped_level_filtered; [|apply reduce_grant_name|done].
  unfold mapped_level, under_ceiling, ceiling_level.
  destruct (find_grant grants name) as [g|] eqn:Hg; [|done].
  apply find_grant_Some in Hg as [_ <-]; [|done]. unfold reduce_grant.
  by case_bool_decide.
Qed.

Lemma mapped_level_read_only (grants : list JobPermissionGrant) (name : str) :
  NoDup (names_of grants) →
  (∀ g, g ∈ grants → catalog_allows (permission_name g) (permission_level g) = true) →
  mapped_level (sort_by_key permission_name (omap read_only_grant grants)) name
  = under_trust PermissionsReadOnly name (mapped_level grants name).
Proof.
  intros Hnd Hc. rewrite mapped_level_filtered; [|apply read_only_grant_name|done].
  unfold mapped_level, under_trust.
  destruct (find_grant grants name) as [g|] eqn:Hg; [|done].
  apply find_grant_Some in Hg as [Hin <-]; [|done]. specialize (Hc g Hin).
  unfold read_only_grant, catalog_allows in *.
  destruct (actions_workflow_permission _) as [p|]; simpl in *; [|done].
  destruct (permission_level g) eqn:Hl; simpl in *; rewrite ?Hl, ?Hc; [done| |done].
  by destruct (allows_read p).
Qed.

(** *** The steps of a resolution *)

Lemma Ok_bind {E A B : Type} (a : A) (k : A → result E B) : Ok a ≫= k = k a.
Proof. done. Qed.

Definition all_allowed (grants : list JobPermissionGrant) : Prop :=
  ∀ grant, grant ∈ grants → catalog_allows (permission_name grant) (permission_level grant) = true.

Lemma find_unmet {A : Type} (f : A → bool) (l : list A) :
  (∀ x, x ∈ l → f x = true) ∨ (∃ x, x ∈ l ∧ f x = false).
Proof.
  destruct (forallb f l) eqn:H.
  - left. intros x Hx. rewrite forallb_forall in H. by apply H, list_elem_of_In.
  - right. induction l as [|x l IH]; [done|]. simpl in H. destruct (f x) eqn:Hx.
    + destruct (IH H) as (y & ? & ?). exists y. split; [by apply elem_of_cons; right|done].
    + exists x. split; [apply list_elem_of_here|done].
Qed.

Lemma mapped_level_sorted (grants : list JobPermissionGrant) (name : str) :
  NoDup (names_of grants) →
  mapped_level (sort_by_key permission_name grants) name = mapped_level grants name.
Proof.
  intros Hnd. unfold mapped_level.
  assert (Hnd' : NoDup (names_of (sort_by_key permission_name grants)))
    by (apply strict_sorted_NoDup; by apply sorted_names_strict).
  destruct (find_grant grants name) as [g|] eqn:Hg.
  - apply find_grant_Some in Hg as [Hin Hn]; [|done].
    by rewrite (proj2 (find_grant_Some (sort_by_key permission_name grants) name g Hnd'))
      by (by rewrite elem_of_sort_by_key).
  - destruct (find_grant (sort_by_key _ _) name) as [g|] eqn:Hg'; [|done].
    apply find_grant_Some in Hg' as [Hin Hn]; [|done]. apply find_grant_None in Hg.
    destruct Hg. rewrite <- Hn. rewrite elem_of_sort_by_key in Hin. by apply list_elem_of_fmap_2.
Qed.

Lemma validate_mapping (grants : list JobPermissionGrant) :
  all_allowed grants → validate_resolved_permission_request (mapping grants) = Ok tt.
Proof.
  intros Hall. apply validate_resolved_Ok. intros g. rewrite elem_of_sort_by_key. apply Hall.
Qed.

Lemma refuse_mapping (grants : list JobPermissionGrant) (grant : JobPermissionGrant) :
  grant ∈ grants → catalog_allows (permission_name grant) (permission_level grant) = false →
  validate_resolved_permission_request (mapping grants) = Err InvalidPermissionRequest.
Proof.
  intros Hin Hg. destruct (validate_resolved_permission_request _) as [[]|e] eqn:H.
  - apply validate_resolved_Ok with (grant := grant) in H; [congruence|].
    by apply elem_of_sort_by_key.
  - by apply validate_resolved_Err in H as ->.
Qed.

(** A mapping of the catalog's grants is a valid request that says what it says. *)
Lemma mapping_says (grants : list JobPermissionGrant) :
  NoDup (names_of grants) → all_allowed grants →
  (_ ← validate_resolved_permission_request (mapping grants); Ok (mapping grants))
    = Ok (mapping grants) ∧
  request_validate (mapping grants) = Ok tt ∧
  ∀ name, default PermissionNone (requested_level (mapping grants) name)
          = mapped_level grants name.
Proof.
  intros Hnd Hall. pose proof (resolved_mapping_valid grants Hnd Hall) as Hv.
  rewrite validate_mapping by done. split; [done|]. split; [done|]. intros name.
  rewrite <- (mapped_level_sorted grants) by done. by apply requested_level_mapped.
Qed.

(** What trust leaves of it. *)
Lemma trust_step (grants : list JobPermissionGrant) (trust : TrustPermissionAuthority) :
  NoDup (names_of grants) → all_allowed grants →
  ∃ resolved,
    (request ← reduce_permission_request_for_trust (mapping grants) trust;
     (_ ← validate_resolved_permission_request request; Ok request)) = Ok resolved ∧
    request_validate resolved = Ok tt ∧
    ∀ name, default PermissionNone (requested_level resolved name) =
            under_trust trust name (mapped_level grants name).
Proof.
  intros Hnd Hall. set (sorted := sort_by_key permission_name grants).
  assert (Hnd' : NoDup (names_of sorted))
    by (apply strict_sorted_NoDup; by apply sorted_names_strict).
  assert (Hall' : all_allowed sorted).
  { intros g. unfold sorted. rewrite elem_of_sort_by_key. apply Hall. }
  destruct trust; unfold mapping at 1; fold sorted; cbn [reduce_permission_request_for_trust];
    rewrite Ok_bind.
  - destruct (mapping_says grants Hnd Hall) as (H1 & H2 & H3). eauto.
  - exists (mapping (omap read_only_grant sorted)).
    assert (Hro : all_allowed (sort_by_key permission_name (omap read_only_grant sorted))).
    { intros g' (g & Hg & Hr)%elem_of_filtered. eapply read_only_allowed; [|exact Hr]. by apply Hall'. }
    assert (Hr : all_allowed (omap read_only_grant sorted)).
    { intros g Hg. apply Hro. by apply elem_of_sort_by_key. }
    rewrite validate_mapping by done. split; [done|].
    assert (Hndr : NoDup (names_of (sort_by_key permission_name (omap read_only_grant sorted))))
      by (apply filtered_NoDup; [apply read_only_grant_name|done]).
    assert (Hndo : NoDup (names_of (omap read_only_grant sorted))).
    { change (NoDup (permission_name <$> omap read_only_grant sorted)).
      by rewrite <- (sort_by_key_perm permission_name (omap read_only_grant sorted)). }
    destruct (mapping_says _ Hndo Hr) as (_ & Hv & Hl). split; [done|]. intros name.
    rewrite Hl, <- (mapped_level_sorted _ _ Hndo), mapped_level_read_only by done.
    unfold sorted. by rewrite mapped_level_sorted.
  - exists (mapping []). split; [done|]. split; [done|]. intros name. by destruct (mapped_level _ _).
Qed.

Lemma ceiling_step (c : ReusableWorkflowPermissionSnapshot) (grants : list JobPermissionGrant) :
  NoDup (names_of grants) → all_allowed grants →
  let reduced :=
    omap (reduce_grant (ceiling_default_level c) (ceiling_grants c))
      (sort_by_key permission_name grants) in
  NoDup (names_of reduced) ∧
  (∀ name, mapped_level reduced name = under_ceiling (Some c) name (mapped_level grants name)) ∧
  (all_allowed reduced ↔ ∀ g, g ∈ grants → grantable (Some c) g = true).
Proof.
  intros Hnd Hall reduced. set (f := reduce_grant _ _) in reduced.
  set (sorted := sort_by_key permission_name grants) in *.
  assert (Hnd' : NoDup (names_of sorted))
    by (apply strict_sorted_NoDup; by apply sorted_names_strict).
  assert (Hin : ∀ g, g ∈ sorted ↔ g ∈ grants) by (intros; apply elem_of_sort_by_key).
  assert (Hndr : NoDup (names_of (sort_by_key permission_name reduced)))
    by (apply filtered_NoDup; [apply reduce_grant_name|done]).
  assert (Hndo : NoDup (names_of reduced)).
  { change (NoDup (permission_name <$> reduced)).
    by rewrite <- (sort_by_key_perm permission_name reduced). }
  split; [done|]. split.
  - intros name. rewrite <- (mapped_level_sorted _ _ Hndo). unfold reduced, f.
    rewrite mapped_level_reduced by done. unfold sorted. by rewrite mapped_level_sorted.
  - unfold all_allowed. setoid_rewrite <- (elem_of_sort_by_key permission_name _ reduced).
    unfold reduced, f. rewrite reduced_by_ceiling.
    + by setoid_rewrite Hin.
    + intros g Hg. apply Hall. by apply Hin.
Qed.

Lemma resolution_steps (grants : list JobPermissionGrant)
    (ceiling : option ReusableWorkflowPermissionSnapshot) (trust : TrustPermissionAuthority) :
  NoDup (names_of grants) →
  match
    _ ← validate_resolved_permission_request (mapping grants);
    (request ← match ceiling with
               | Some ceiling =>
                   request ← reduce_permission_request (mapping grants)
                               (ceiling_default_level ceiling) (ceiling_grants ceiling);
                   (_ ← validate_resolved_permission_request request; Ok request)
               | None => Ok (mapping grants)
               end;
     (request ← reduce_permission_request_for_trust request trust;
      (_ ← validate_resolved_permission_request request; Ok request)))
  with
  | Ok resolved =>
      (∀ grant, grant ∈ grants → grantable ceiling grant = true) ∧
      request_validate resolved = Ok tt ∧
      ∀ name, default PermissionNone (requested_level resolved name) =
              under_trust trust name (under_ceiling ceiling name (mapped_level grants name))
  | Err e =>
      e = InvalidPermissionRequest ∧ ∃ grant, grant ∈ grants ∧ grantable ceiling grant = false
  end.
Proof.
  intros Hnd.
  destruct (find_unmet (λ g, catalog_allows (permission_name g) (permission_level g)) grants)
    as [Hall|(g & Hg & Hbad)].
  2: { rewrite (refuse_mapping _ g) by done. simpl. split; [done|]. exists g.
       split; [done|]. unfold grantable. by rewrite Hbad. }
  rewrite validate_mapping by done.
  destruct ceiling as [c|].
  - destruct (ceiling_step c grants Hnd Hall) as (Hndr & Hl & Hok).
    unfold mapping at 1. cbn [reduce_permission_request]. revert Hndr Hl Hok.
    generalize (omap (reduce_grant (ceiling_default_level c) (ceiling_grants c))
                  (sort_by_key permission_name grants)). intros reduced Hndr Hl Hok.
    rewrite !Ok_bind.
    destruct (find_unmet (λ g, catalog_allows (permission_name g) (permission_level g)) reduced)
      as [Har|(g & Hg & Hbad)].
    + destruct (trust_step _ trust Hndr Har) as (resolved & Hres & Hv & Hlev).
      rewrite validate_mapping, !Ok_bind, Hres by done.
      split; [by apply Hok|]. split; [done|]. intros name. by rewrite Hlev, Hl.
    + rewrite (refuse_mapping _ g) by done. cbn. split; [done|].
      destruct (find_unmet (grantable (Some c)) grants) as [Hgood|]; [|done].
      apply Hok in Hgood. specialize (Hgood g Hg). congruence.
  - destruct (trust_step grants trust Hnd Hall) as (resolved & Hres & Hv & Hl).
    rewrite !Ok_bind, Hres. split; [|done]. intros g Hg. unfold grantable. simpl.
    by rewrite (Hall g Hg).
Qed.

(** ** Properties *)

(** C14: Resolving the permissions of a job is exact. It succeeds exactly when
    the catalog knows every grant that is asked for, as it is asked and as the
    ceiling leaves it, and then the request is valid and gives every name the
    level asked for, lowered to the ceiling of the call and to what the trust
    decision leaves, and nothing else. *)
Theorem resolved_permissions_are_exact
    (provider_default read_all write_all : TextMap PermissionLevel)
    (policy : WorkflowPermissionPolicy) (request : option PermissionSnapshotRequest)
    (ceiling : option ReusableWorkflowPermissionSnapshot) (trust : TrustPermissionAuthority) :
  permission_policy_new provider_default read_all write_all = Ok policy →
  declaration_valid request →
  match resolved_permission_request request policy ceiling trust with
  | Ok resolved =>
      (∀ grant, grant ∈ asked policy request → grantable ceiling grant = true) ∧
      request_validate resolved = Ok tt ∧
      ∀ name, default PermissionNone (requested_level resolved name) =
              under_trust trust name
                (under_ceiling ceiling name (mapped_level (asked policy request) name))
  | Err e =>
      e = InvalidPermissionRequest ∧
      ∃ grant, grant ∈ asked policy request ∧ grantable ceiling grant = false
  end.
Proof.
  intros Hpol Hdecl. pose proof (asked_NoDup _ _ _ _ _ Hpol Hdecl) as Hnd.
  unfold resolved_permission_request. rewrite resolve_asked.
  apply (resolution_steps (asked policy request) ceiling trust Hnd).
Qed.

(** The repository whose default is to write. *)
Definition example_permission_policy : WorkflowPermissionPolicy :=
  MkPermissionPolicy catalog_write_all catalog_read_all catalog_write_all.

Definition read_ceiling : ReusableWorkflowPermissionSnapshot :=
  MkPermissionSnapshot PermissionRead [] [].

Definition ask_contents : PermissionSnapshotRequest :=
  MkPermissionRequest
    (PermissionMapping [MkGrant (here (lit "contents")) (here PermissionWrite);
                        MkGrant (here (lit "issues")) (here PermissionNone)]) example_span.

Lemma resolved_permissions_are_exact_witness :
  (∀ grant, grant ∈ asked example_permission_policy (Some ask_contents) →
     grantable (Some read_ceiling) grant = true) ∧
  request_validate (RequestMapping [MkJobGrant (lit "contents") PermissionRead]) = Ok tt ∧
  ∀ name, default PermissionNone
            (requested_level (RequestMapping [MkJobGrant (lit "contents") PermissionRead]) name) =
          under_trust PermissionsReadOnly name
            (under_ceiling (Some read_ceiling) name
               (mapped_level (asked example_permission_policy (Some ask_contents)) name)).
Proof.
  refine (resolved_permissions_are_exact catalog_write_all catalog_read_all catalog_write_all
            example_permission_policy (Some ask_contents) (Some read_ceiling) PermissionsReadOnly
            _ _).
  - vm_compute. reflexivity.
  - intros declared [= <-]. exists plan_budget_new, plan_budget_new. vm_compute. reflexivity.
Defined.

(** A caller that reads all stops a callee whose default is to write: the
    ceiling turns the OIDC grant into one the catalog does not know, where
    trust would drop it. *)
Lemma read_ceiling_stops_default :
  resolved_permission_request None example_permission_policy (Some read_ceiling)
    PermissionsRequested = Err InvalidPermissionRequest ∧
  is_ok (resolved_permission_request None example_permission_policy None PermissionsReadOnly)
    = true.
Proof. split; vm_compute; reflexivity. Qed.

(** C15: An accepted job with secrets or a protected environment belongs to a
    trusted event: a decoded snapshot lets an activated instance with either
    through only if some policy evaluated it from trusted evidence. *)
Theorem custody_needs_trust {hasher : Sha256} {encoding : TrustEncoding}
    (bytes : list Z) (digest : Sha256Digest) (snapshot accepted : TrustSnapshot)
    (instance : ActivatedJobInstance) :
  from_canonical_bytes bytes digest = Ok snapshot →
  required_trust_snapshot (Some snapshot) instance = Ok accepted →
  runtime_secrets (instance_runtime_context instance) ≠ [] ∨
  is_some (instance_deployment_environment instance) = true →
  accepted = snapshot ∧
  ∃ revision forks dispatch evidence,
    let policy := trust_policy_new revision forks dispatch in
    trust_evaluate policy evidence = Ok snapshot ∧ trusted policy evidence.
Proof.
  intros (_ & _ & revision & forks & dispatch & evidence & Hev)%decoded_evaluates Hreq Hcustody.
  unfold required_trust_snapshot in Hreq. ok_inv. split; [done|].
  exists revision, forks, dispatch, evidence. split; [done|].
  apply (eligible_is_trusted _ _ _ Hev).
  match goal with H : validate_trust_runtime_authority _ _ = _ |- _ =>
    unfold validate_trust_runtime_authority in H; ok_inv end.
  destruct Hcustody as [Hs|He].
  - left. destruct (authority_secrets _); [done|]. simpl in *.
    by destruct (runtime_secrets _).
  - right. destruct (authority_environment _); [done|]. simpl in *. congruence.
Qed.

(** An instance with one secret and an environment. *)
Definition example_custody : ActivatedJobInstance :=
  MkActivatedInstance (MkInstanceIdentity (lit "deploy") 0 1 [])
    (MkRuntimeContext 1 context_empty_object context_empty_object context_empty_object
       (MkStrategyContext true 0 1 1) [] [(lit "TOKEN", MkSecretBinding (lit "g1") None)])
    (lit "deploy") (Some (lit "production")) None None None false.

Lemma custody_needs_trust_witness :
  example_snapshot = example_snapshot ∧
  ∃ revision forks dispatch evidence,
    let policy := trust_policy_new (hasher := demo_sha256) (encoding := example_encoding)
                    revision forks dispatch in
    trust_evaluate (hasher := demo_sha256) (encoding := example_encoding) policy evidence
    = Ok example_snapshot ∧ trusted policy evidence.
Proof.
  apply (custody_needs_trust (hasher := demo_sha256) (encoding := example_encoding) [0]
           (snapshot_digest example_snapshot) example_snapshot example_snapshot example_custody).
  - vm_compute. reflexivity.
  - vm_compute. reflexivity.
  - left. discriminate.
Defined.
