(* ===== verification/PlanEquality.v ===== *)
(** * PlanEquality: the derived equality of workflow plans

    The types of a plan derive [PartialEq] and [Eq]
    ([crates/automata-ci-core/src/workflow]); here are the decisions the
    recompilation check of [ReusableExpansion] evaluates. *)

From stdpp Require Import gmap.
From S2P Require Import Prelude Text Capability ExpressionProgram ExpressionParser.
From S2P Require Import WorkflowTemplate WorkflowStrategy RuntimeContext WorkflowLogical.
From S2P Require Import WorkflowGraph Permission.

(** ** Literal matrix values *)

Fixpoint matrix_value_dec (x y : MatrixValue) : {x = y} + {x ≠ y}.
Proof.
  destruct x as [|a|a|a|l|l], y as [|b|b|b|k|k]; try (right; discriminate).
  - by left.
  - destruct (decide (a = b)) as [->|]; [by left|right; congruence].
  - destruct (decide (a = b)) as [->|]; [by left|right; congruence].
  - destruct (decide (a = b)) as [->|]; [by left|right; congruence].
  - assert (H : {l = k} + {l ≠ k}); [|destruct H as [->|]; [by left|right; congruence]].
    revert k. induction l as [|x l IH]; intros [|y k]; try (right; discriminate); [by left|].
    destruct (matrix_value_dec x y) as [->|]; [|right; congruence].
    destruct (IH k) as [->|]; [by left|right; congruence].
  - assert (H : {l = k} + {l ≠ k}); [|destruct H as [->|]; [by left|right; congruence]].
    revert k. induction l as [|[n x] l IH]; intros [|[m y] k]; try (right; discriminate); [by left|].
    destruct (decide (n = m)) as [->|]; [|right; congruence].
    destruct (matrix_value_dec x y) as [->|]; [|right; congruence].
    destruct (IH k) as [->|]; [by left|right; congruence].
Defined.

#[export] Instance matrix_value_eq_dec : EqDecision MatrixValue := matrix_value_dec.

(** ** Spans and templates *)

#[export] Instance source_location_eq_dec : EqDecision PlanSourceLocation.
Proof. solve_decision. Defined.
#[export] Instance source_span_eq_dec : EqDecision PlanSourceSpan.
Proof. solve_decision. Defined.
#[export] Instance located_eq_dec {T : Type} `{!EqDecision T} : EqDecision (Located T).
Proof. solve_decision. Defined.
#[export] Instance expression_segment_eq_dec : EqDecision ExpressionSegment.
Proof. solve_decision. Defined.
#[export] Instance plan_expression_eq_dec : EqDecision PlanExpression.
Proof. solve_decision. Defined.
#[export] Instance plan_phase_eq_dec : EqDecision PlanEvaluationPhase.
Proof. solve_decision. Defined.
#[export] Instance program_dialect_eq_dec : EqDecision ExpressionDialect.
Proof. solve_decision. Defined.
#[export] Instance program_eq_dec : EqDecision ExpressionProgram.
Proof. solve_decision. Defined.
#[export] Instance expression_template_eq_dec : EqDecision CompiledExpressionTemplate.
Proof. solve_decision. Defined.
#[export] Instance value_template_eq_dec : EqDecision CompiledValueTemplate.
Proof. solve_decision. Defined.
#[export] Instance boolean_template_eq_dec : EqDecision CompiledBooleanTemplate.
Proof. solve_decision. Defined.
#[export] Instance integer_template_eq_dec : EqDecision CompiledPositiveIntegerTemplate.
Proof. solve_decision. Defined.

(** ** Strategies *)

#[export] Instance matrix_value_template_eq_dec : EqDecision MatrixValueTemplate.
Proof. solve_decision. Defined.
#[export] Instance matrix_axis_values_eq_dec : EqDecision MatrixAxisValues.
Proof. solve_decision. Defined.
#[export] Instance matrix_axis_eq_dec : EqDecision MatrixAxis.
Proof. solve_decision. Defined.
#[export] Instance matrix_patch_eq_dec : EqDecision MatrixPatch.
Proof. solve_decision. Defined.
#[export] Instance matrix_patch_set_eq_dec : EqDecision MatrixPatchSet.
Proof. solve_decision. Defined.
#[export] Instance matrix_template_eq_dec : EqDecision MatrixTemplate.
Proof. solve_decision. Defined.
#[export] Instance strategy_template_eq_dec : EqDecision WorkflowStrategyTemplate.
Proof. solve_decision. Defined.

(** ** Jobs *)

#[export] Instance logical_timeout_unit_dec : EqDecision LogicalTimeoutUnit.
Proof. solve_decision. Defined.
#[export] Instance logical_timeout_template_dec : EqDecision LogicalTimeoutTemplate.
Proof. solve_decision. Defined.
#[export] Instance template_value_map_dec : EqDecision TemplateValueMap.
Proof. solve_decision. Defined.
#[export] Instance queue_policy_dec : EqDecision QueuePolicy.
Proof. solve_decision. Defined.
#[export] Instance permission_grant_dec : EqDecision PermissionGrant.
Proof. solve_decision. Defined.
#[export] Instance workflow_permissions_dec : EqDecision WorkflowPermissions.
Proof. solve_decision. Defined.
#[export] Instance permission_snapshot_request_dec : EqDecision PermissionSnapshotRequest.
Proof. solve_decision. Defined.
#[export] Instance logical_concurrency_template_dec : EqDecision LogicalConcurrencyTemplate.
Proof. solve_decision. Defined.
#[export] Instance logical_run_defaults_template_dec : EqDecision LogicalRunDefaultsTemplate.
Proof. solve_decision. Defined.
#[export] Instance logical_runner_template_dec : EqDecision LogicalRunnerTemplate.
Proof. solve_decision. Defined.
#[export] Instance logical_resource_vector_template_dec : EqDecision LogicalResourceVectorTemplate.
Proof. solve_decision. Defined.
#[export] Instance logical_job_resources_template_dec : EqDecision LogicalJobResourcesTemplate.
Proof. solve_decision. Defined.
#[export] Instance logical_run_step_template_dec : EqDecision LogicalRunStepTemplate.
Proof. solve_decision. Defined.
#[export] Instance logical_uses_step_template_dec : EqDecision LogicalUsesStepTemplate.
Proof. solve_decision. Defined.
#[export] Instance logical_step_kind_dec : EqDecision LogicalStepKind.
Proof. solve_decision. Defined.
#[export] Instance logical_step_template_dec : EqDecision LogicalStepTemplate.
Proof. solve_decision. Defined.
#[export] Instance container_port_dec : EqDecision ContainerPort.
Proof. solve_decision. Defined.
#[export] Instance logical_service_container_template_dec : EqDecision LogicalServiceContainerTemplate.
Proof. solve_decision. Defined.
#[export] Instance step_job_template_dec : EqDecision StepJobTemplate.
Proof. solve_decision. Defined.
#[export] Instance reusable_input_binding_dec : EqDecision ReusableInputBinding.
Proof. solve_decision. Defined.
#[export] Instance reusable_secret_binding_dec : EqDecision ReusableSecretBinding.
Proof. solve_decision. Defined.
#[export] Instance reusable_secret_forwarding_dec : EqDecision ReusableSecretForwarding.
Proof. solve_decision. Defined.
#[export] Instance reusable_workflow_invocation_dec : EqDecision ReusableWorkflowInvocation.
Proof. solve_decision. Defined.
#[export] Instance logical_job_output_source_dec : EqDecision LogicalJobOutputSource.
Proof. solve_decision. Defined.
#[export] Instance logical_job_output_definition_dec : EqDecision LogicalJobOutputDefinition.
Proof. solve_decision. Defined.
#[export] Instance logical_job_kind_dec : EqDecision LogicalJobKind.
Proof. solve_decision. Defined.
#[export] Instance deployment_selection_dec : EqDecision DeploymentSelection.
Proof. solve_decision. Defined.
#[export] Instance logical_job_template_dec : EqDecision LogicalJobTemplate.
Proof. solve_decision. Defined.

(** ** Contracts and plans *)

#[export] Instance invocation_input_default_dec : EqDecision InvocationInputDefault.
Proof. solve_decision. Defined.
#[export] Instance invocation_input_definition_dec : EqDecision InvocationInputDefinition.
Proof. solve_decision. Defined.
#[export] Instance invocation_secret_definition_dec : EqDecision InvocationSecretDefinition.
Proof. solve_decision. Defined.
#[export] Instance workflow_output_definition_dec : EqDecision WorkflowOutputDefinition.
Proof. solve_decision. Defined.
#[export] Instance workflow_invocation_contract_dec : EqDecision WorkflowInvocationContract.
Proof. solve_decision. Defined.
#[export] Instance logical_workflow_plan_dec : EqDecision LogicalWorkflowPlan.
Proof. solve_decision. Defined.
#[export] Instance git_object_algorithm_dec : EqDecision GitObjectAlgorithm.
Proof. solve_decision. Defined.
#[export] Instance git_object_id_dec : EqDecision GitObjectId.
Proof. solve_decision. Defined.
#[export] Instance plan_source_origin_dec : EqDecision PlanSourceOrigin.
Proof. solve_decision. Defined.
#[export] Instance workflow_source_provenance_dec : EqDecision WorkflowSourceProvenance.
Proof. solve_decision. Defined.
#[export] Instance workflow_event_provenance_dec : EqDecision WorkflowEventProvenance.
Proof. solve_decision. Defined.
#[export] Instance workflow_plan_dec : EqDecision WorkflowPlan.
Proof. solve_decision. Defined.
