(* ===== verification/ReusableWorkflow.v ===== *)
(** * ReusableWorkflow: calls of repository-local workflows

    Models the first half of
    [crates/automata-ci-workflow-service/src/reusable_workflow.rs]: limits and
    errors, the permissions of an invocation, the catalog of workflows of one
    revision, the bindings of a call (inputs, secrets, outputs) and the
    depth-first traversal of the calls, which is generic in what it computes:
    the Rust trait [CredentialTraversalPolicy] is the class of that name, and
    the [&mut self] of its methods a state of their own. The traversal and the
    reachability loop recurse on counters; [ReusableAnswers] shows that they
    suffice. The parser and compiler of workflows are the class
    [WorkflowFrontend], serde_json is the class [PlanEncoding]. *)

From stdpp Require Import gmap.
From S2P Require Import Prelude Text Utf8 Capability ManagedSecret WorkflowTemplate.
From S2P Require Import WorkflowStrategy RuntimeContext ExpressionProgram WorkflowLogical.
From S2P Require Import WorkflowGraph Permission PlanEquality.

Open Scope Z_scope.

(** ** Limits and errors *)

Definition MAX_REUSABLE_WORKFLOW_CATALOG_ENTRIES : Z := 50.
Definition MAX_REUSABLE_WORKFLOW_DEPTH : Z := 9.
Definition MAX_REUSABLE_WORKFLOW_INVOCATIONS : Z := 256.
Definition MAX_REUSABLE_WORKFLOW_EXPANDED_JOBS : Z := 4096.
Definition MAX_REUSABLE_WORKFLOW_PATH_BYTES : Z := 1024.
Definition MAX_REUSABLE_WORKFLOW_SOURCE_BYTES : Z := 16777216.
Definition MAX_PERMISSION_NAME_BYTES : Z := 256.
Definition MAX_PERMISSION_GRANTS : Z := 256.

Inductive ReusableWorkflowExpansionError :=
| ReuseInvalidLimits
| ReuseInvalidRepositoryCoordinate
| ReuseInvalidWorkflowPath
| ReuseNonLocalReference
| ReuseCatalogLimitExceeded
| ReuseDuplicateCatalogPath (path : str)
| ReuseMissingCatalogPath (path : str)
| ReuseInvalidSourceEncoding
| ReuseInvalidSourceSize
| ReuseFrontendRejected (codes : str)
| ReuseCompilationRejected (codes : str)
| ReusePlanSerialization
| ReuseRootPlanMismatch
| ReuseMissingInvocationContract (path : str)
| ReuseCycle (path : str)
| ReuseDepthLimitExceeded
| ReuseInvocationLimitExceeded
| ReuseJobLimitExceeded
| ReuseMatrixCallUnsupported
| ReuseUnknownInput (target : str)
| ReuseMissingRequiredInput (target : str)
| ReuseInputTypeMismatch (target : str)
| ReuseUnknownSecret (target : str)
| ReuseUnavailableSecret (source : str)
| ReuseMissingRequiredSecret (target : str)
| ReuseUnknownOutput (key : str)
| ReuseOutputSensitivityReduction (key : str)
| ReuseInvalidPermissionName
| ReuseDuplicatePermission (name : str)
| ReusePermissionLimitExceeded
| ReuseSourceOrderOverflow
| ReuseIdentityCollision
| ReuseInvalidIdentity
| ReuseCredentialRequirements
| ReuseCancelled.

(** How an expansion can end other than well: with an error, or, were the code
    wrong, out of the bounds of a vector or without end. *)
Inductive ReuseFailure :=
| ReuseRejected (error : ReusableWorkflowExpansionError)
| ReusePanicked
| ReuseOutOfFuel.

Definition reuse_reject (c : bool) (e : ReusableWorkflowExpansionError) :
    result ReuseFailure unit := reject c (ReuseRejected e).

Definition validate_reusable_catalog_entry_count (observed : Z) : result ReuseFailure unit :=
  reuse_reject (MAX_REUSABLE_WORKFLOW_CATALOG_ENTRIES <? observed) ReuseCatalogLimitExceeded.
Definition validate_reusable_workflow_depth (observed maximum : Z) : result ReuseFailure unit :=
  reuse_reject (maximum <? observed) ReuseDepthLimitExceeded.
Definition validate_reusable_workflow_invocation_count (observed maximum : Z) :
    result ReuseFailure unit :=
  reuse_reject (maximum <? observed) ReuseInvocationLimitExceeded.
Definition validate_reusable_workflow_job_count (observed maximum : Z) :
    result ReuseFailure unit :=
  reuse_reject (maximum <? observed) ReuseJobLimitExceeded.
Definition validate_reusable_workflow_source_bytes (observed : Z) : result ReuseFailure unit :=
  reuse_reject (MAX_REUSABLE_WORKFLOW_SOURCE_BYTES <? observed) ReuseInvalidSourceSize.
Definition validate_reusable_workflow_path_bytes (observed : Z) : result ReuseFailure unit :=
  reuse_reject (MAX_REUSABLE_WORKFLOW_PATH_BYTES <? observed) ReuseInvalidWorkflowPath.
Definition validate_reusable_repository_coordinate_bytes (observed : Z) :
    result ReuseFailure unit :=
  reuse_reject (MAX_REUSABLE_WORKFLOW_PATH_BYTES <? observed) ReuseInvalidRepositoryCoordinate.
Definition validate_reusable_permission_name_bytes (observed : Z) : result ReuseFailure unit :=
  reuse_reject (MAX_PERMISSION_NAME_BYTES <? observed) ReuseInvalidPermissionName.
Definition validate_reusable_permission_grant_count (observed : Z) : result ReuseFailure unit :=
  reuse_reject (MAX_PERMISSION_GRANTS <? observed) ReusePermissionLimitExceeded.

Record ReusableWorkflowLimits := MkReusableLimits {
  maximum_depth : Z;
  maximum_invocations : Z;
  maximum_jobs : Z
}.

Definition reusable_limits_new (depth invocations jobs : Z) :
    result ReuseFailure ReusableWorkflowLimits :=
  _ ← reuse_reject (MAX_REUSABLE_WORKFLOW_DEPTH <? depth) ReuseInvalidLimits;
  _ ← reuse_reject ((invocations =? 0) || (MAX_REUSABLE_WORKFLOW_INVOCATIONS <? invocations))
        ReuseInvalidLimits;
  _ ← reuse_reject ((jobs =? 0) || (MAX_REUSABLE_WORKFLOW_EXPANDED_JOBS <? jobs))
        ReuseInvalidLimits;
  Ok (MkReusableLimits depth invocations jobs).

Definition reusable_limits_default : ReusableWorkflowLimits :=
  MkReusableLimits MAX_REUSABLE_WORKFLOW_DEPTH MAX_REUSABLE_WORKFLOW_INVOCATIONS
    MAX_REUSABLE_WORKFLOW_EXPANDED_JOBS.

(** ** Permissions *)

Record ReusableWorkflowPermissions := MkReusablePermissions {
  reusable_default : PermissionLevel;
  reusable_grants : TextMap PermissionLevel
}.

Definition clean_text (value : str) : bool :=
  negb (str_is_empty value || negb (str_eqb (trim value) value) || existsb is_control value).

Definition validate_permission_name (name : str) : result ReuseFailure unit :=
  _ ← validate_reusable_permission_name_bytes (str_len name);
  reuse_reject (negb (clean_text name)) ReuseInvalidPermissionName.

(** One entry of the loop of [new]. *)
Definition add_permission (normalized : TextMap PermissionLevel) (grant : str * PermissionLevel) :
    result ReuseFailure (TextMap PermissionLevel) :=
  projected ← ok_or (checked_add u64_max (len normalized) 1)
                (ReuseRejected ReusePermissionLimitExceeded);
  _ ← validate_reusable_permission_grant_count projected;
  _ ← validate_permission_name grant.1;
  _ ← reuse_reject (tmap_contains_key normalized grant.1) (ReuseDuplicatePermission grant.1);
  Ok (tmap_insert grant.1 grant.2 normalized).

Definition reusable_permissions_new (default : PermissionLevel)
    (grants : list (str * PermissionLevel)) :
    result ReuseFailure ReusableWorkflowPermissions :=
  normalized ← try_fold add_permission [] grants;
  Ok (MkReusablePermissions default
        (List.filter (λ grant, negb (bool_decide (grant.2 = default))) normalized)).

Definition reusable_level (self : ReusableWorkflowPermissions) (name : str) : PermissionLevel :=
  default (reusable_default self) (tmap_get (reusable_grants self) name).

Definition permissions_from_request (permissions : WorkflowPermissions) :
    ReusableWorkflowPermissions :=
  match permissions with
  | ReadAll _ => MkReusablePermissions PermissionRead []
  | WriteAll _ => MkReusablePermissions PermissionWrite []
  | PermissionMapping grants =>
      MkReusablePermissions PermissionNone
        (tmap_from
           (List.filter (λ grant, negb (bool_decide (grant.2 = PermissionNone)))
              (map (λ grant, (located_value (grant_name grant), located_value (grant_level grant)))
                 grants)))
  end.

(** This file of the source has its own copy of [minimum_permission]. *)
Definition reusable_minimum_permission (left right : PermissionLevel) : PermissionLevel :=
  minimum_permission left right.

Definition intersect_permissions (left right : ReusableWorkflowPermissions) :
    ReusableWorkflowPermissions :=
  let base := reusable_minimum_permission (reusable_default left) (reusable_default right) in
  let names := bset_from (tmap_keys (reusable_grants left) ++ tmap_keys (reusable_grants right)) in
  MkReusablePermissions base
    (tmap_from (omap (λ name,
       let level :=
         reusable_minimum_permission (reusable_level left name) (reusable_level right name) in
       if bool_decide (level = base) then None else Some (name, level)) (elems names))).

Definition reduce_permissions (self : ReusableWorkflowPermissions)
    (request : option PermissionSnapshotRequest) : ReusableWorkflowPermissions :=
  match request with
  | None => self
  | Some request =>
      intersect_permissions self (permissions_from_request (request_permissions request))
  end.

(** ** Paths and references *)

Inductive RepositoryWorkflowLocation := LocationAutomata | LocationGithub.
Inductive CatalogSourceAuthority := GithubDelivery | LocalGithubArchive.

Definition authority_provider (self : CatalogSourceAuthority) : str :=
  match self with GithubDelivery => lit "github" | LocalGithubArchive => lit "local" end.
Definition workflow_location (self : CatalogSourceAuthority) : RepositoryWorkflowLocation :=
  match self with GithubDelivery => LocationAutomata | LocalGithubArchive => LocationGithub end.

Definition workflow_directory (location : RepositoryWorkflowLocation) : str :=
  match location with LocationAutomata => lit ".ci" | LocationGithub => lit ".github" end.

(** [Path::new(file).extension()] of one component: what follows the last dot,
    unless the dot is the first character. *)
Definition path_extension (file : str) : option str :=
  if str_eqb file (lit "..") || str_eqb file (lit ".") then None
  else match rsplit_once (lit ".") file with
       | Some ([], _) | None => None
       | Some (_, extension) => Some extension
       end.

Definition ends_with_slash (value : str) : bool :=
  match last value with Some c => c =? 47 | None => false end.

Definition canonical_workflow_path (value : str) (location : RepositoryWorkflowLocation) :
    result ReuseFailure str :=
  let invalid := ReuseRejected ReuseInvalidWorkflowPath in
  _ ← validate_reusable_workflow_path_bytes (str_len value);
  _ ← reject (str_is_empty value || starts_with 47 value || ends_with_slash value
              || str_contains value 92 || existsb is_control value) invalid;
  match split 47 value with
  | [dot_ci; workflows; file] =>
      _ ← reject (negb (str_eqb dot_ci (workflow_directory location))
                  || negb (str_eqb workflows (lit "workflows"))
                  || str_is_empty file || str_eqb file (lit ".") || str_eqb file (lit "..")
                  || negb (bool_decide (path_extension file = Some (lit "yml"))
                           || bool_decide (path_extension file = Some (lit "yaml")))) invalid;
      Ok value
  | _ => Err invalid
  end.

(** [trim_start_matches("./")]. *)
Fixpoint trim_dot_slash (s : str) : str :=
  match s with
  | 46 :: 47 :: rest => trim_dot_slash rest
  | _ => s
  end.

Definition resolve_local_reference (reference : str) (location : RepositoryWorkflowLocation) :
    result ReuseFailure str :=
  let non_local := ReuseRejected ReuseNonLocalReference in
  let prefix :=
    match location with
    | LocationAutomata => lit "./.ci/workflows/"
    | LocationGithub => lit "./.github/workflows/"
    end in
  file ← ok_or (strip_prefix prefix reference) non_local;
  _ ← reject (str_is_empty file || str_contains file 47 || str_contains file 92) non_local;
  map_err (λ _, non_local) (canonical_workflow_path (trim_dot_slash reference) location).

Definition validate_coordinate (value : str) : result ReuseFailure unit :=
  _ ← validate_reusable_repository_coordinate_bytes (str_len value);
  reuse_reject (negb (clean_text value)) ReuseInvalidRepositoryCoordinate.

(** ** The catalog *)

Inductive CatalogSourceIdentity :=
| IdentityGit (repository : str) (revision : GitObjectId)
| IdentityArchive (snapshot_digest : Sha256Digest).

Definition validate_plan_origin (plan : WorkflowPlan) (authority : CatalogSourceAuthority)
    (identity : CatalogSourceIdentity) (path : str) : result ReuseFailure unit :=
  let source := workflow_source plan in
  let origin_matches :=
    match identity, source_origin source with
    | IdentityGit repository revision, OriginRepository plan_repository plan_revision plan_path =>
        str_eqb plan_repository repository && bool_decide (plan_revision = revision)
        && str_eqb plan_path path
    | IdentityArchive snapshot_digest, OriginArchive plan_digest plan_path =>
        bool_decide (plan_digest = snapshot_digest) && str_eqb plan_path path
    | _, _ => false
    end in
  reuse_reject (negb (str_eqb (source_provider source) (authority_provider authority))
                || negb (str_eqb (source_identity source) path) || negb origin_matches)
    ReuseRootPlanMismatch.

Record RepositoryWorkflowSource := MkWorkflowSource {
  candidate_path : str;
  candidate_source : list Z
}.

Record CatalogedReusableWorkflow := MkCataloged {
  cataloged_path : str;
  cataloged_source : list Z;
  cataloged_source_digest : Sha256Digest;
  cataloged_plan : WorkflowPlan;
  cataloged_plan_digest : Sha256Digest
}.

Record GithubReusableWorkflowCatalog := MkGithubCatalog {
  catalog_repository : str;
  catalog_revision : GitObjectId;
  catalog_entries : TextMap CatalogedReusableWorkflow
}.

Record ResolvedCatalogEntry := MkResolvedEntry {
  resolved_path : str;
  resolved_source_digest : Sha256Digest;
  resolved_plan_digest : Sha256Digest;
  resolved_plan : WorkflowPlan
}.

Class ReusableWorkflowCatalogResolver := {
  catalog_authority : CatalogSourceAuthority;
  catalog_source_identity : CatalogSourceIdentity;
  catalog_resolve : str → result ReuseFailure ResolvedCatalogEntry
}.

#[export] Instance github_catalog_resolver (self : GithubReusableWorkflowCatalog) :
    ReusableWorkflowCatalogResolver := {|
  catalog_authority := GithubDelivery;
  catalog_source_identity := IdentityGit (catalog_repository self) (catalog_revision self);
  catalog_resolve reference :=
    path ← resolve_local_reference reference (workflow_location GithubDelivery);
    entry ← ok_or (tmap_get (catalog_entries self) path)
              (ReuseRejected (ReuseMissingCatalogPath path));
    Ok (MkResolvedEntry (cataloged_path entry) (cataloged_source_digest entry)
          (cataloged_plan_digest entry) (cataloged_plan entry))
|}.

(** What the front end returns for an archive: its getters. *)
Record LocalReusableWorkflow := MkLocalReusable {
  local_path : str;
  local_source_digest : Sha256Digest;
  local_plan : WorkflowPlan
}.
Record LocalGithubArchiveCompilation := MkLocalCompilation {
  archive_snapshot_digest : Sha256Digest;
  archive_selected_path : str;
  archive_root_plan : WorkflowPlan;
  archive_root_source_digest : Sha256Digest;
  archive_reusable_workflows : list LocalReusableWorkflow
}.

Record LocalReusableWorkflowCatalog := MkLocalCatalog {
  local_compilation : LocalGithubArchiveCompilation;
  local_plan_digests : TextMap Sha256Digest
}.

#[export] Instance local_catalog_resolver (self : LocalReusableWorkflowCatalog) :
    ReusableWorkflowCatalogResolver := {|
  catalog_authority := LocalGithubArchive;
  catalog_source_identity := IdentityArchive (archive_snapshot_digest (local_compilation self));
  catalog_resolve reference :=
    path ← resolve_local_reference reference (workflow_location LocalGithubArchive);
    workflow ← ok_or (List.find (λ workflow, str_eqb (local_path workflow) path)
                        (archive_reusable_workflows (local_compilation self)))
                 (ReuseRejected (ReuseMissingCatalogPath path));
    plan_digest ← ok_or (tmap_get (local_plan_digests self) path)
                    (ReuseRejected ReuseInvalidIdentity);
    Ok (MkResolvedEntry (local_path workflow) (local_source_digest workflow) plan_digest
          (local_plan workflow))
|}.

(** [serde_json::to_vec] of a plan and of what inputs are bound to. *)
Class PlanEncoding := {
  plan_to_vec : WorkflowPlan → option (list Z);
  template_to_vec : CompiledValueTemplate → option (list Z);
  input_default_to_vec : InvocationInputDefault → option (list Z)
}.

(** [GithubWorkflowFrontend::parse] of a source in a repository and
    [GithubWorkflowCompiler::compile]: the plan, if there is one, whether the
    outcome is accepted, and the joined codes of the diagnostics. *)
Record FrontendOutcome (P : Type) := MkOutcome {
  outcome_plan : option P;
  outcome_accepted : bool;
  outcome_codes : str
}.
Arguments MkOutcome {P}.
Arguments outcome_plan {P}.
Arguments outcome_accepted {P}.
Arguments outcome_codes {P}.

Inductive ReusableCompilationSelection :=
| GithubPreselected (event : WorkflowEventProvenance)
| GithubWorkflowCall.

Class WorkflowFrontend := {
  WorkflowSourcePlan : Type;
  frontend_parse : str → GitObjectId → str → str → FrontendOutcome WorkflowSourcePlan;
  compile_preselected :
    WorkflowSourcePlan → WorkflowEventProvenance → FrontendOutcome WorkflowPlan;
  compile_for_event : WorkflowSourcePlan → WorkflowEventProvenance → FrontendOutcome WorkflowPlan
}.

(** [WorkflowEventProvenance::new(..).with_commit_sha(revision)]. *)
Definition workflow_call_event (revision : GitObjectId) : WorkflowEventProvenance :=
  MkEventProvenance (lit "github") (lit "workflow_call") None (Some revision) None None None.

Section Catalog.
Context {hasher : Sha256} {frontend : WorkflowFrontend} {encoding : PlanEncoding}.

Definition compile_source (repository : str) (revision : GitObjectId) (path : str)
    (source : list Z) (selection : ReusableCompilationSelection) :
    result ReuseFailure WorkflowPlan :=
  source ← ok_or (from_utf8 source) (ReuseRejected ReuseInvalidSourceEncoding);
  let parsed := frontend_parse repository revision path source in
  _ ← reuse_reject (negb (outcome_accepted parsed)) (ReuseFrontendRejected (outcome_codes parsed));
  source_plan ← ok_or (outcome_plan parsed) (ReuseRejected (ReuseFrontendRejected (lit "no plan")));
  let compiled :=
    match selection with
    | GithubPreselected event => compile_preselected source_plan event
    | GithubWorkflowCall => compile_for_event source_plan (workflow_call_event revision)
    end in
  _ ← reuse_reject (negb (outcome_accepted compiled))
        (ReuseCompilationRejected (outcome_codes compiled));
  ok_or (outcome_plan compiled) (ReuseRejected (ReuseCompilationRejected (lit "no plan"))).

Definition compile_reusable_source (repository : str) (revision : GitObjectId) (path : str)
    (source : list Z) : result ReuseFailure WorkflowPlan :=
  compile_source repository revision path source GithubWorkflowCall.

Definition recompile_root_source (repository : str) (revision : GitObjectId) (path : str)
    (source : list Z) (event : WorkflowEventProvenance) : result ReuseFailure WorkflowPlan :=
  compile_source repository revision path source (GithubPreselected event).

Definition digest_plan (plan : WorkflowPlan) : result ReuseFailure Sha256Digest :=
  bytes ← ok_or (plan_to_vec plan) (ReuseRejected ReusePlanSerialization);
  Ok (sha256 bytes).

Definition local_catalog_new (compilation : LocalGithubArchiveCompilation) :
    result ReuseFailure LocalReusableWorkflowCatalog :=
  digests ← try_map (λ workflow,
              digest ← digest_plan (local_plan workflow); Ok (local_path workflow, digest))
              (archive_reusable_workflows compilation);
  Ok (MkLocalCatalog compilation (tmap_from digests)).

(** Compiling one entry: a workflow that can be called. *)
Definition compile_entry (repository : str) (revision : GitObjectId) (path : str)
    (source : list Z) : result ReuseFailure CatalogedReusableWorkflow :=
  plan ← compile_reusable_source repository revision path source;
  _ ← reuse_reject (negb (is_some (plan_invocation (workflow_logical plan))))
        (ReuseMissingInvocationContract path);
  plan_digest ← digest_plan plan;
  Ok (MkCataloged path source (sha256 source) plan plan_digest).

Definition catalog_source (repository : str) (revision : GitObjectId)
    (entries : TextMap CatalogedReusableWorkflow) (source : RepositoryWorkflowSource) :
    result ReuseFailure (TextMap CatalogedReusableWorkflow) :=
  path ← canonical_workflow_path (candidate_path source) LocationAutomata;
  _ ← reuse_reject (Nat.eqb (length (candidate_source source)) 0) ReuseInvalidSourceSize;
  _ ← validate_reusable_workflow_source_bytes (len (candidate_source source));
  _ ← reuse_reject (tmap_contains_key entries path) (ReuseDuplicateCatalogPath path);
  entry ← compile_entry repository revision path (candidate_source source);
  Ok (tmap_insert path entry entries).

(** [GithubReusableWorkflowCatalog::compile]. *)
Definition catalog_compile (repository : str) (revision : GitObjectId)
    (sources : list RepositoryWorkflowSource) :
    result ReuseFailure GithubReusableWorkflowCatalog :=
  _ ← validate_coordinate repository;
  _ ← validate_reusable_catalog_entry_count (len sources);
  entries ← try_fold (catalog_source repository revision) [] sources;
  Ok (MkGithubCatalog repository revision entries).

Definition call_references (plan : WorkflowPlan) : list str :=
  omap (λ job, match job_execution job with
               | JobReusableWorkflow call => Some (located_value (invocation_reference call))
               | JobSteps _ => None
               end) (plan_jobs (workflow_logical plan)).

Definition collect_source (available : TextMap (list Z)) (source : RepositoryWorkflowSource) :
    result ReuseFailure (TextMap (list Z)) :=
  path ← canonical_workflow_path (candidate_path source) LocationAutomata;
  if Nat.eqb (length (candidate_source source)) 0
     || negb (is_ok (validate_reusable_workflow_source_bytes (len (candidate_source source))))
  then Ok available
  else
    _ ← reuse_reject (tmap_contains_key available path) (ReuseDuplicateCatalogPath path);
    Ok (tmap_insert path (candidate_source source) available).

(** The reachability loop. The vector is a stack whose top is the head of the
    list; a new entry spends one unit of the counter, everything else shortens
    the stack. *)
Fixpoint reachable_loop (fuel : nat) (repository : str) (revision : GitObjectId)
    (root_path : str) (available : TextMap (list Z)) :
    list str → TextMap CatalogedReusableWorkflow →
    result ReuseFailure (TextMap CatalogedReusableWorkflow) :=
  fix drain pending entries :=
    match pending with
    | [] => Ok entries
    | reference :: pending =>
        path ← resolve_local_reference reference LocationAutomata;
        if str_eqb path root_path then Err (ReuseRejected (ReuseCycle path))
        else if tmap_contains_key entries path then drain pending entries
        else
          projected ← ok_or (checked_add u64_max (len entries) 1)
                        (ReuseRejected ReuseCatalogLimitExceeded);
          _ ← validate_reusable_catalog_entry_count projected;
          source ← ok_or (tmap_get available path) (ReuseRejected (ReuseMissingCatalogPath path));
          entry ← compile_entry repository revision path source;
          match fuel with
          | O => Err ReuseOutOfFuel
          | S fuel =>
              reachable_loop fuel repository revision root_path available
                (rev (call_references (cataloged_plan entry)) ++ pending)
                (tmap_insert path entry entries)
          end
    end.

Definition reachable_fuel : nat := Z.to_nat MAX_REUSABLE_WORKFLOW_CATALOG_ENTRIES.

Definition catalog_compile_reachable (repository : str) (revision : GitObjectId)
    (root_plan : WorkflowPlan) (sources : list RepositoryWorkflowSource) :
    result ReuseFailure GithubReusableWorkflowCatalog :=
  _ ← validate_coordinate repository;
  root_path ← match source_origin (workflow_source root_plan) with
              | OriginRepository _ _ path => Ok path
              | _ => Err (ReuseRejected ReuseRootPlanMismatch)
              end;
  root_path ← canonical_workflow_path root_path LocationAutomata;
  _ ← validate_plan_origin root_plan GithubDelivery (IdentityGit repository revision) root_path;
  available ← try_fold collect_source [] sources;
  entries ← reachable_loop reachable_fuel repository revision root_path available
              (rev (call_references root_plan)) [];
  Ok (MkGithubCatalog repository revision entries).

End Catalog.

(** ** The bindings of a call *)

Inductive ReusableInputBindingSource :=
| BindingCaller (value : CompiledValueTemplate)
| BindingDefault (value : InvocationInputDefault)
| BindingImplicit.

Record ExpandedReusableInput := MkExpandedInput {
  expanded_input_target : str;
  expanded_input_type : InvocationInputType;
  expanded_input_source : ReusableInputBindingSource
}.

Record ExpandedReusableSecret := MkExpandedSecret {
  expanded_secret_target : str;
  expanded_secret_source : str
}.

Record ExpandedReusableOutput := MkExpandedOutput {
  expanded_output_key : str;
  expanded_output_sensitivity : OutputSensitivity
}.

Record ExpandedReusableOutputMapping := MkOutputMapping {
  mapping_parent_key : str;
  mapping_child_key : str;
  mapping_sensitivity : OutputSensitivity
}.

Definition statically_known_input_type (value : CompiledValueTemplate) :
    option InvocationInputType :=
  match value with
  | ValueLiteral _ => Some InputString
  | ValueExpression expression =>
      match plan_expression_segments (template_expression expression) with
      | [SegEvaluation _] =>
          match template_programs expression with
          | [program] =>
              match program_instructions program with
              | [ILiteral (LitBoolean _)] => Some InputBoolean
              | [ILiteral (LitNumber _)] => Some InputNumber
              | [ILiteral (LitString _)] => Some InputString
              | _ => None
              end
          | _ => None
          end
      | _ => Some InputString
      end
  end.

(** One binding of the call: its target and value. *)
Definition supplied_input (definitions : TextMap InvocationInputDefinition)
    (binding : ReusableInputBinding) : result ReuseFailure (str * CompiledValueTemplate) :=
  let target := located_value (input_binding_target binding) in
  let value := located_value (input_binding_value binding) in
  definition ← ok_or (tmap_get definitions target) (ReuseRejected (ReuseUnknownInput target));
  _ ← reuse_reject (match statically_known_input_type value with
                    | Some known => negb (bool_decide (known = located_value (input_type definition)))
                    | None => false
                    end) (ReuseInputTypeMismatch target);
  Ok (target, value).

Definition bound_input (supplied : TextMap CompiledValueTemplate)
    (definition : InvocationInputDefinition) : result ReuseFailure ExpandedReusableInput :=
  let target := located_value (input_key definition) in
  source ← match tmap_get supplied target, input_default definition with
           | Some value, _ => Ok (BindingCaller value)
           | None, Some value => Ok (BindingDefault (located_value value))
           | None, None =>
               _ ← reuse_reject (input_required definition) (ReuseMissingRequiredInput target);
               Ok BindingImplicit
           end;
  Ok (MkExpandedInput target (located_value (input_type definition)) source).

Definition validate_inputs (call : ReusableWorkflowInvocation)
    (contract : WorkflowInvocationContract) : result ReuseFailure (list ExpandedReusableInput) :=
  let definitions :=
    tmap_from (map (λ definition, (located_value (input_key definition), definition))
                 (contract_inputs contract)) in
  supplied ← try_map (supplied_input definitions) (invocation_inputs call);
  try_map (bound_input (tmap_from supplied)) (contract_inputs contract).

(** [BTreeMap::remove]. *)
Definition tmap_remove {V : Type} (key : str) (m : TextMap V) : TextMap V :=
  List.filter (λ entry, negb (str_eqb entry.1 key)) m.

(** The first available name that a name matches without regard to case. *)
Definition available_secret (available : BTreeSet str) (name : str) : option str :=
  List.find (λ candidate, eq_ignore_ascii_case candidate name) (elems available).

Definition map_secret (definitions : TextMap InvocationSecretDefinition)
    (available : BTreeSet str) (supplied : TextMap str) (binding : ReusableSecretBinding) :
    result ReuseFailure (TextMap str) :=
  let target := located_value (secret_binding_target binding) in
  let source := located_value (secret_binding_source binding) in
  _ ← reuse_reject (negb (tmap_contains_key definitions target)) (ReuseUnknownSecret target);
  source ← ok_or (available_secret available source)
             (ReuseRejected (ReuseUnavailableSecret source));
  Ok (tmap_insert target source supplied).

Definition inherit_secret (available : BTreeSet str) (supplied : TextMap str)
    (definition : InvocationSecretDefinition) : TextMap str :=
  let target := located_value (secret_key definition) in
  match available_secret available target with
  | None => supplied
  | Some source => tmap_insert target source (tmap_remove source supplied)
  end.

Definition validate_secrets (call : ReusableWorkflowInvocation)
    (contract : WorkflowInvocationContract) (available : BTreeSet str) :
    result ReuseFailure (list ExpandedReusableSecret) :=
  let definitions :=
    tmap_from (map (λ definition, (located_value (secret_key definition), definition))
                 (contract_secrets contract)) in
  supplied ← match invocation_secrets call with
             | SecretMapping bindings => try_fold (map_secret definitions available) [] bindings
             | SecretInherit _ =>
                 let inherited :=
                   foldl (λ m source, tmap_insert source source m) [] (elems available) in
                 Ok (foldl (inherit_secret available) inherited (contract_secrets contract))
             end;
  _ ← try_for (λ definition,
        let target := located_value (secret_key definition) in
        reuse_reject (secret_required definition && negb (tmap_contains_key supplied target))
          (ReuseMissingRequiredSecret target)) (contract_secrets contract);
  Ok (map (λ '(target, source), MkExpandedSecret target source) supplied).

Definition call_output (outputs : TextMap WorkflowOutputDefinition)
    (output : LogicalJobOutputDefinition) : result ReuseFailure ExpandedReusableOutputMapping :=
  let parent_key := located_value (output_key output) in
  match output_source output with
  | OutputTemplate _ => Err (ReuseRejected (ReuseUnknownOutput parent_key))
  | InvocationOutput source =>
      let key := located_value source in
      callee ← ok_or (tmap_get outputs key) (ReuseRejected (ReuseUnknownOutput key));
      _ ← reuse_reject (bool_decide (output_sensitivity output = SensitivityPublic)
                        && bool_decide (workflow_output_sensitivity callee
                                        = SensitivitySecretDerived))
            (ReuseOutputSensitivityReduction key);
      Ok (MkOutputMapping parent_key key (output_sensitivity output))
  end.

Definition validate_call_outputs (call_outputs : list LogicalJobOutputDefinition)
    (contract : WorkflowInvocationContract) :
    result ReuseFailure (list ExpandedReusableOutputMapping) :=
  let outputs :=
    tmap_from (map (λ output, (located_value (workflow_output_key output), output))
                 (contract_outputs contract)) in
  try_map (call_output outputs) call_outputs.

(** [contract_outputs] of the source, whose name is a field's here. *)
Definition expanded_contract_outputs (contract : WorkflowInvocationContract) :
    list ExpandedReusableOutput :=
  map (λ output, MkExpandedOutput (located_value (workflow_output_key output))
                   (workflow_output_sensitivity output)) (contract_outputs contract).

(** ** The traversal *)

Record TraversalCounts := MkCounts {
  counts_limits : ReusableWorkflowLimits;
  invocation_count : Z;
  job_count : Z
}.

Record TraversalNode := MkNode {
  node_workflow_path : str;
  node_plan : WorkflowPlan;
  node_depth : Z;
  node_source_digest : Sha256Digest;
  node_plan_digest : Sha256Digest;
  node_root : bool
}.

Record TraversalEdge := MkEdge {
  edge_job : LogicalJobTemplate;
  edge_call : ReusableWorkflowInvocation;
  edge_callee : ResolvedCatalogEntry;
  edge_contract : WorkflowInvocationContract;
  edge_inputs : list ExpandedReusableInput;
  edge_outputs : list ExpandedReusableOutputMapping
}.

Class CredentialTraversalPolicy (Policy Seed State Edge Output : Type) := {
  enter : TraversalNode → Seed → stM Policy ReuseFailure State;
  prepare_edge : State → TraversalEdge → stM Policy ReuseFailure (State * (Seed * Edge));
  finish_edge : State → Edge → Output → stM Policy ReuseFailure State;
  policy_finish : State → stM Policy ReuseFailure Output
}.

(** What the [&mut] arguments of the traversal hold. [active_paths] has its
    last element at the head; [polls] counts the calls of [cancellation], a
    closure whose answers may change. *)
Record TraversalWorld (Policy : Type) := MkWorld {
  world_policy : Policy;
  world_counts : TraversalCounts;
  active_paths : list str;
  polls : nat
}.
Arguments MkWorld {Policy}.
Arguments world_policy {Policy}.
Arguments world_counts {Policy}.
Arguments active_paths {Policy}.
Arguments polls {Policy}.

Section Traversal.
Context {Policy Seed State Edge Output : Type}.
Context {policy : CredentialTraversalPolicy Policy Seed State Edge Output}.
Context (catalog : ReusableWorkflowCatalogResolver) (cancellation : nat → bool).

Abbreviation world := (TraversalWorld Policy).
Abbreviation traversal := (stM world ReuseFailure).

Definition run_policy {A : Type} (m : stM Policy ReuseFailure A) : traversal A := λ w,
  let '(p, r) := m (world_policy w) in
  (MkWorld p (world_counts w) (active_paths w) (polls w), r).

Definition set_paths (paths : list str) (w : world) : world :=
  MkWorld (world_policy w) (world_counts w) paths (polls w).
Definition set_counts (counts : TraversalCounts) (w : world) : world :=
  MkWorld (world_policy w) counts (active_paths w) (polls w).

(** [if cancellation() { return Err(Cancelled) }]. *)
Definition check_cancelled : traversal unit := λ w,
  (MkWorld (world_policy w) (world_counts w) (active_paths w) (S (polls w)),
   reuse_reject (cancellation (polls w)) ReuseCancelled).

(** The two counters are advanced before they are compared. *)
Definition count_node (node : TraversalNode) : traversal unit :=
  w ← getM;
  let counts := world_counts w in
  let limits := counts_limits counts in
  _ ← liftM (validate_reusable_workflow_depth (node_depth node) (maximum_depth limits));
  invocations ← liftM (ok_or (checked_add u64_max (invocation_count counts) 1)
                         (ReuseRejected ReuseInvocationLimitExceeded));
  _ ← modifyM (set_counts (MkCounts limits invocations (job_count counts)));
  _ ← liftM (validate_reusable_workflow_invocation_count invocations (maximum_invocations limits));
  jobs ← liftM (ok_or (checked_add u64_max (job_count counts)
                         (len (plan_jobs (workflow_logical (node_plan node)))))
                  (ReuseRejected ReuseJobLimitExceeded));
  _ ← modifyM (set_counts (MkCounts limits invocations jobs));
  liftM (validate_reusable_workflow_job_count jobs (maximum_jobs limits)).

Definition check_inactive (path : str) : traversal unit :=
  w ← getM;
  liftM (reuse_reject (existsb (λ active, str_eqb active path) (active_paths w)) (ReuseCycle path)).

(** What is read off a call before the policy sees it. *)
Definition checked_edge (job : LogicalJobTemplate) (call : ReusableWorkflowInvocation)
    (callee : ResolvedCatalogEntry) : result ReuseFailure TraversalEdge :=
  _ ← validate_plan_origin (resolved_plan callee) catalog_authority catalog_source_identity
        (resolved_path callee);
  contract ← ok_or (plan_invocation (workflow_logical (resolved_plan callee)))
               (ReuseRejected (ReuseMissingInvocationContract (resolved_path callee)));
  inputs ← validate_inputs call contract;
  outputs ← validate_call_outputs (job_outputs job) contract;
  Ok (MkEdge job call callee contract inputs outputs).

Definition child_node (node : TraversalNode) (callee : ResolvedCatalogEntry) : TraversalNode :=
  MkNode (resolved_path callee) (resolved_plan callee) (node_depth node + 1)
    (resolved_source_digest callee) (resolved_plan_digest callee) false.

(** One job of the loop, the traversal of the callee given. *)
Definition visit_job (recurse : TraversalNode → Seed → traversal Output) (node : TraversalNode)
    (state : State) (job : LogicalJobTemplate) : traversal State :=
  _ ← check_cancelled;
  match job_execution job with
  | JobSteps _ => mret state
  | JobReusableWorkflow call =>
      _ ← liftM (reuse_reject (is_some (job_strategy job)) ReuseMatrixCallUnsupported);
      callee ← liftM (catalog_resolve (located_value (invocation_reference call)));
      _ ← check_inactive (resolved_path callee);
      edge ← liftM (checked_edge job call callee);
      prepared ← run_policy (prepare_edge state edge);
      let '(state, (seed, prepared_edge)) := prepared in
      child ← recurse (child_node node callee) seed;
      run_policy (finish_edge state prepared_edge child)
  end.

(** The closure whose result is kept until the path is popped. *)
Definition visit_node (recurse : TraversalNode → Seed → traversal Output) (node : TraversalNode)
    (seed : Seed) : traversal Output :=
  state ← run_policy (enter node seed);
  state ← fold_st (visit_job recurse node) state (plan_jobs (workflow_logical (node_plan node)));
  run_policy (policy_finish state).

(** [active_paths.pop()] whatever the outcome. *)
Definition with_active_path {A : Type} (path : str) (m : traversal A) : traversal A := λ w,
  let '(w, r) := m (set_paths (path :: active_paths w) w) in
  (set_paths (tail (active_paths w)) w, r).

Fixpoint traverse_reusable_invocation (fuel : nat) (node : TraversalNode) (seed : Seed) :
    traversal Output :=
  match fuel with
  | O => liftM (Err ReuseOutOfFuel)
  | S fuel =>
      _ ← check_cancelled;
      _ ← count_node node;
      _ ← check_inactive (node_workflow_path node);
      with_active_path (node_workflow_path node)
        (visit_node (traverse_reusable_invocation fuel) node seed)
  end.

End Traversal.

(** A node deeper than the limit is refused, so a call per level and one for
    the refusal are enough. *)
Definition traversal_fuel (limits : ReusableWorkflowLimits) : nat :=
  Z.to_nat (maximum_depth limits) + 2.
