(* ===== verification/ReusableExpansion.v ===== *)
(** * ReusableExpansion: the ledger of a run's invocations

    Models the second half of
    [crates/automata-ci-workflow-service/src/reusable_workflow.rs]: the policy
    of the traversal that materializes invocations, the identities derived for
    invocations and jobs, the digest that binds the ledger, and
    [expand_reusable_workflow]. Of
    [crates/automata-ci-store/src/logical_orchestration.rs] it uses the check of
    an identity. The cloned [Seed] and the borrowed [ExpansionContext] are plain
    values and the state of the policy. *)

From stdpp Require Import gmap.
From S2P Require Import Prelude Text Capability ManagedSecret WorkflowTemplate WorkflowStrategy.
From S2P Require Import RuntimeContext WorkflowLogical WorkflowGraph Permission PlanEquality.
From S2P Require Import ReusableWorkflow.

Open Scope Z_scope.

Definition REUSABLE_INVOCATION_ID_DOMAIN : list Z :=
  lit "automata.reusable-workflow.invocation.v1" ++ [0].
Definition REUSABLE_JOB_ID_DOMAIN : list Z := lit "automata.reusable-workflow.job.v1" ++ [0].
Definition ROOT_JOB_ID_DOMAIN : list Z := lit "automata.admission.logical-job.v1" ++ [0].
Definition EXPANSION_DIGEST_DOMAIN : list Z :=
  lit "automata.reusable-workflow.expansion.v1" ++ [0].

(** ** Hashed parts *)

Definition hash_u64 (value : Z) : list Z := be_bytes 8 value.
Definition hash_part (value : list Z) : list Z :=
  be_bytes 8 (Z.min (len value) u64_max) ++ value.

(** ** Identities *)

(** A [uuid::Uuid] is its sixteen bytes. *)
Definition uuid_is_nil (value : list Z) : bool := forallb (λ byte, byte =? 0) value.

(** [from_uuid] of the identities of the store. *)
Definition logical_id (value : list Z) : result ReuseFailure (list Z) :=
  _ ← reuse_reject (uuid_is_nil value) ReuseInvalidIdentity;
  Ok value.

Section Identities.
Context {hasher : Sha256}.

(** The version is 8, the variant that of RFC 9562. *)
Definition derived_uuid (domain : list Z) (components : list (list Z)) : list Z :=
  let digest := sha256 (domain ++ mjoin (map hash_part components)) in
  let bytes := take 16 digest in
  let bytes := alter (λ byte, Z.lor (Z.land byte 15) 128) 6%nat bytes in
  alter (λ byte, Z.lor (Z.land byte 63) 128) 8%nat bytes.

Definition logical_job_id (value : list Z) : result ReuseFailure (list Z) := logical_id value.

Definition derived_root_job_id (run_id : list Z) (key : str) : result ReuseFailure (list Z) :=
  logical_job_id (derived_uuid ROOT_JOB_ID_DOMAIN [run_id; as_bytes key]).

Definition derived_job_id (run_id invocation_id : list Z) (key : str) :
    result ReuseFailure (list Z) :=
  logical_job_id (derived_uuid REUSABLE_JOB_ID_DOMAIN [run_id; invocation_id; as_bytes key]).

Definition derived_invocation_id (run_id parent_id caller_job_id : list Z) (path : str)
    (source_digest : Sha256Digest) : result ReuseFailure (list Z) :=
  logical_id (derived_uuid REUSABLE_INVOCATION_ID_DOMAIN
                [run_id; parent_id; caller_job_id; as_bytes path; source_digest]).

End Identities.

(** ** The ledger *)

Record ExpandedReusableJob := MkExpandedJob {
  expanded_job_id : list Z;
  expanded_job_key : str;
  expanded_source_order : Z;
  expanded_reusable : bool;
  expanded_prerequisites : list (list Z)
}.

Record ReusableWorkflowInvocationExpansion := MkInvocation {
  expanded_id : list Z;
  expanded_parent_id : option (list Z);
  expanded_caller_job_id : option (list Z);
  expanded_depth : Z;
  expanded_path : str;
  expanded_source_digest : Sha256Digest;
  expanded_plan_digest : Sha256Digest;
  expanded_permissions : ReusableWorkflowPermissions;
  expanded_inputs : list ExpandedReusableInput;
  expanded_secrets : list ExpandedReusableSecret;
  expanded_outputs : list ExpandedReusableOutput;
  expanded_caller_outputs : list ExpandedReusableOutputMapping;
  expanded_jobs_of : list ExpandedReusableJob
}.

Record ReusableWorkflowExpansion := MkExpansion {
  expansion_run_id : list Z;
  expansion_root_invocation_id : list Z;
  expansion_ledger_digest : Sha256Digest;
  expansion_invocations : list ReusableWorkflowInvocationExpansion
}.

Record ExpansionContext := MkExpansionContext {
  context_run_id : list Z;
  context_invocation_ids : gset (list Z);
  context_job_ids : gset (list Z);
  context_invocations : list ReusableWorkflowInvocationExpansion
}.

Definition set_invocation_ids (ids : gset (list Z)) (c : ExpansionContext) : ExpansionContext :=
  MkExpansionContext (context_run_id c) ids (context_job_ids c) (context_invocations c).
Definition set_job_ids (ids : gset (list Z)) (c : ExpansionContext) : ExpansionContext :=
  MkExpansionContext (context_run_id c) (context_invocation_ids c) ids (context_invocations c).
Definition push_invocation (invocation : ReusableWorkflowInvocationExpansion)
    (c : ExpansionContext) : ExpansionContext :=
  MkExpansionContext (context_run_id c) (context_invocation_ids c) (context_job_ids c)
    (context_invocations c ++ [invocation]).

Abbreviation expanding := (stM ExpansionContext ReuseFailure).

Section Expansion.
Context {hasher : Sha256}.

Definition job_identity (run_id invocation_id : list Z) (root : bool) (key : str) :
    result ReuseFailure (list Z) :=
  if root then derived_root_job_id run_id key else derived_job_id run_id invocation_id key.

(** The identity of one job, which must be new. *)
Definition identify_job (invocation_id : list Z) (root : bool) (ids : TextMap (list Z))
    (job : LogicalJobTemplate) : expanding (TextMap (list Z)) :=
  context ← getM;
  let key := located_value (job_key job) in
  id ← liftM (job_identity (context_run_id context) invocation_id root key);
  _ ← modifyM (set_job_ids ({[id]} ∪ context_job_ids context));
  _ ← liftM (reuse_reject (bool_decide (id ∈ context_job_ids context)) ReuseIdentityCollision);
  mret (tmap_insert key id ids).

Definition is_call (job : LogicalJobTemplate) : bool :=
  match job_execution job with JobReusableWorkflow _ => true | JobSteps _ => false end.

Definition expand_job (ids : TextMap (list Z)) (job : LogicalJobTemplate) :
    result ReuseFailure ExpandedReusableJob :=
  let invalid := ReuseRejected ReuseInvalidIdentity in
  let key := located_value (job_key job) in
  id ← ok_or (tmap_get ids key) invalid;
  prerequisites ← try_map (λ need, ok_or (tmap_get ids (located_value need)) invalid)
                    (job_needs job);
  _ ← reuse_reject (u16_max <? job_source_order job) ReuseSourceOrderOverflow;
  Ok (MkExpandedJob id key (job_source_order job)
        (is_call job)
        prerequisites).

Definition expanded_jobs (invocation_id : list Z) (plan : WorkflowPlan) (root : bool) :
    expanding (list ExpandedReusableJob) :=
  let jobs := plan_jobs (workflow_logical plan) in
  ids ← fold_st (identify_job invocation_id root) [] jobs;
  liftM (try_map (expand_job ids) jobs).

Record MaterializedTraversalSeed := MkSeed {
  seed_id : list Z;
  seed_parent_id : option (list Z);
  seed_caller_job_id : option (list Z);
  seed_permissions : ReusableWorkflowPermissions;
  seed_inputs : list ExpandedReusableInput;
  seed_secrets : list ExpandedReusableSecret;
  seed_available_secret_names : BTreeSet str;
  seed_outputs : list ExpandedReusableOutput;
  seed_caller_outputs : list ExpandedReusableOutputMapping
}.

Record MaterializedTraversalState := MkState {
  state_invocation_index : nat;
  state_id : list Z;
  state_permissions : ReusableWorkflowPermissions;
  state_available_secret_names : BTreeSet str
}.

Definition materialized_enter (node : TraversalNode) (seed : MaterializedTraversalSeed) :
    expanding MaterializedTraversalState :=
  jobs ← expanded_jobs (seed_id seed) (node_plan node) (node_root node);
  context ← getM;
  _ ← liftM (reuse_reject (u16_max <? node_depth node) ReuseDepthLimitExceeded);
  _ ← modifyM (push_invocation
        (MkInvocation (seed_id seed) (seed_parent_id seed) (seed_caller_job_id seed)
           (node_depth node) (node_workflow_path node) (node_source_digest node)
           (node_plan_digest node) (seed_permissions seed) (seed_inputs seed) (seed_secrets seed)
           (seed_outputs seed) (seed_caller_outputs seed) jobs));
  mret (MkState (length (context_invocations context)) (seed_id seed) (seed_permissions seed)
          (seed_available_secret_names seed)).

Definition materialized_prepare (parent : MaterializedTraversalState) (edge : TraversalEdge) :
    expanding (MaterializedTraversalState * (MaterializedTraversalSeed * unit)) :=
  let callee := edge_callee edge in
  secrets ← liftM (validate_secrets (edge_call edge) (edge_contract edge)
                     (state_available_secret_names parent));
  let available := bset_from (map expanded_secret_target secrets) in
  context ← getM;
  invocation ← liftM (ok_or (context_invocations context !! state_invocation_index parent)
                        ReusePanicked);
  caller ← liftM (ok_or (List.find (λ expanded,
                           str_eqb (expanded_job_key expanded)
                             (located_value (job_key (edge_job edge))))
                           (expanded_jobs_of invocation)) (ReuseRejected ReuseInvalidIdentity));
  invocation_id ← liftM (derived_invocation_id (context_run_id context) (state_id parent)
                           (expanded_job_id caller) (resolved_path callee)
                           (resolved_source_digest callee));
  _ ← modifyM (set_invocation_ids ({[invocation_id]} ∪ context_invocation_ids context));
  _ ← liftM (reuse_reject (bool_decide (invocation_id ∈ context_invocation_ids context))
               ReuseIdentityCollision);
  let permissions :=
    reduce_permissions
      (reduce_permissions (state_permissions parent) (job_permissions (edge_job edge)))
      (plan_permissions (workflow_logical (resolved_plan callee))) in
  mret (parent,
        (MkSeed invocation_id (Some (state_id parent)) (Some (expanded_job_id caller)) permissions
           (edge_inputs edge) secrets available
           (expanded_contract_outputs (edge_contract edge)) (edge_outputs edge), tt)).

#[export] Instance materialized_policy :
    CredentialTraversalPolicy ExpansionContext MaterializedTraversalSeed
      MaterializedTraversalState unit unit := {|
  enter := materialized_enter;
  prepare_edge := materialized_prepare;
  finish_edge parent _ _ := mret parent;
  policy_finish _ := mret tt
|}.

(** ** The digest *)

Context {encoding : PlanEncoding}.

Definition permission_level_name (level : PermissionLevel) : list Z :=
  match level with
  | PermissionNone => lit "none"
  | PermissionRead => lit "read"
  | PermissionWrite => lit "write"
  end.

Definition input_type_name (type : InvocationInputType) : list Z :=
  match type with
  | InputBoolean => lit "boolean"
  | InputNumber => lit "number"
  | InputString => lit "string"
  end.

Definition sensitivity_name (sensitivity : OutputSensitivity) : list Z :=
  match sensitivity with
  | SensitivityPublic => lit "public"
  | SensitivitySecretDerived => lit "secret_derived"
  end.

Definition hash_optional_uuid (value : option (list Z)) : list Z :=
  match value with Some value => 1 :: hash_part value | None => [0] end.

(** A vector: its length and its elements. *)
Definition hash_list {A : Type} (f : A → list Z) (l : list A) : list Z :=
  hash_u64 (len l) ++ mjoin (map f l).

Definition hash_permissions (permissions : ReusableWorkflowPermissions) : list Z :=
  hash_part (permission_level_name (reusable_default permissions)) ++
  hash_list (λ '(name, level), hash_part (as_bytes name) ++ hash_part (permission_level_name level))
    (reusable_grants permissions).

Definition hash_source (source : ReusableInputBindingSource) : result ReuseFailure (list Z) :=
  let failed := ReuseRejected ReusePlanSerialization in
  match source with
  | BindingCaller value =>
      encoded ← ok_or (template_to_vec value) failed;
      Ok (hash_part (lit "caller") ++ hash_part encoded)
  | BindingDefault value =>
      encoded ← ok_or (input_default_to_vec value) failed;
      Ok (hash_part (lit "default") ++ hash_part encoded)
  | BindingImplicit => Ok (hash_part (lit "implicit"))
  end.

Definition hash_input (input : ExpandedReusableInput) : result ReuseFailure (list Z) :=
  source ← hash_source (expanded_input_source input);
  Ok (hash_part (as_bytes (expanded_input_target input)) ++
      hash_part (input_type_name (expanded_input_type input)) ++ source).

Definition hash_inputs (inputs : list ExpandedReusableInput) : result ReuseFailure (list Z) :=
  hashed ← try_map hash_input inputs;
  Ok (hash_u64 (len inputs) ++ mjoin hashed).

Definition hash_secret (secret : ExpandedReusableSecret) : list Z :=
  hash_part (as_bytes (expanded_secret_target secret)) ++
  hash_part (as_bytes (expanded_secret_source secret)).

Definition hash_output (output : ExpandedReusableOutput) : list Z :=
  hash_part (as_bytes (expanded_output_key output)) ++
  hash_part (sensitivity_name (expanded_output_sensitivity output)).

Definition hash_mapping (mapping : ExpandedReusableOutputMapping) : list Z :=
  hash_part (as_bytes (mapping_parent_key mapping)) ++
  hash_part (as_bytes (mapping_child_key mapping)) ++
  hash_part (sensitivity_name (mapping_sensitivity mapping)).

Definition hash_job (job : ExpandedReusableJob) : list Z :=
  hash_part (expanded_job_id job) ++ hash_part (as_bytes (expanded_job_key job)) ++
  be_bytes 2 (expanded_source_order job) ++ [if expanded_reusable job then 1 else 0] ++
  hash_list hash_part (expanded_prerequisites job).

Definition hash_invocation (invocation : ReusableWorkflowInvocationExpansion) :
    result ReuseFailure (list Z) :=
  inputs ← hash_inputs (expanded_inputs invocation);
  Ok (hash_part (expanded_id invocation) ++ hash_optional_uuid (expanded_parent_id invocation) ++
      hash_optional_uuid (expanded_caller_job_id invocation) ++
      be_bytes 2 (expanded_depth invocation) ++ hash_part (as_bytes (expanded_path invocation)) ++
      hash_part (expanded_source_digest invocation) ++
      hash_part (expanded_plan_digest invocation) ++
      hash_permissions (expanded_permissions invocation) ++ inputs ++
      hash_list hash_secret (expanded_secrets invocation) ++
      hash_list hash_output (expanded_outputs invocation) ++
      hash_list hash_mapping (expanded_caller_outputs invocation) ++
      hash_list hash_job (expanded_jobs_of invocation)).

(** The bytes fed to the hasher. *)
Definition expansion_bytes (run_id root_id : list Z)
    (invocations : list ReusableWorkflowInvocationExpansion) : result ReuseFailure (list Z) :=
  hashed ← try_map hash_invocation invocations;
  Ok (EXPANSION_DIGEST_DOMAIN ++ hash_part run_id ++ hash_part root_id ++
      hash_u64 (len invocations) ++ mjoin hashed).

Definition expansion_digest (run_id root_id : list Z)
    (invocations : list ReusableWorkflowInvocationExpansion) : result ReuseFailure Sha256Digest :=
  bytes ← expansion_bytes run_id root_id invocations;
  Ok (sha256 bytes).

(** ** Expansion *)

Context {frontend : WorkflowFrontend}.

Record ExpandReusableWorkflowRequest := MkExpandRequest {
  request_run_id : list Z;
  request_root_invocation_id : list Z;
  request_root_path : str;
  request_root_source : list Z;
  request_root_plan : WorkflowPlan;
  request_catalog : GithubReusableWorkflowCatalog;
  request_root_secret_names : BTreeSet str;
  request_root_permissions : ReusableWorkflowPermissions
}.

(** The root's source must compile to the plan of the request. *)
Definition root_mismatch (failure : ReuseFailure) : ReuseFailure :=
  match failure with
  | ReuseRejected (ReuseFrontendRejected _) | ReuseRejected (ReuseCompilationRejected _) =>
      ReuseRejected ReuseRootPlanMismatch
  | other => other
  end.

Definition check_root_source (request : ExpandReusableWorkflowRequest) : result ReuseFailure str :=
  let catalog := request_catalog request in
  let plan := request_root_plan request in
  root_path ← canonical_workflow_path (request_root_path request) LocationAutomata;
  _ ← reuse_reject (Nat.eqb (length (request_root_source request)) 0) ReuseInvalidSourceSize;
  _ ← validate_reusable_workflow_source_bytes (len (request_root_source request));
  _ ← validate_plan_origin plan GithubDelivery
        (IdentityGit (catalog_repository catalog) (catalog_revision catalog)) root_path;
  recompiled ← map_err root_mismatch
                 (recompile_root_source (catalog_repository catalog) (catalog_revision catalog)
                    root_path (request_root_source request) (workflow_event plan));
  _ ← reuse_reject (negb (bool_decide (recompiled = plan))) ReuseRootPlanMismatch;
  Ok root_path.

Definition root_node (request : ExpandReusableWorkflowRequest) (root_path : str)
    (plan_digest : Sha256Digest) : TraversalNode :=
  MkNode root_path (request_root_plan request) 0 (sha256 (request_root_source request)) plan_digest
    true.

Definition root_seed (request : ExpandReusableWorkflowRequest) : MaterializedTraversalSeed :=
  let logical := workflow_logical (request_root_plan request) in
  MkSeed (request_root_invocation_id request) None None
    (reduce_permissions (request_root_permissions request) (plan_permissions logical)) [] []
    (request_root_secret_names request)
    match plan_invocation logical with
    | Some contract => expanded_contract_outputs contract
    | None => []
    end [].

Definition root_world (request : ExpandReusableWorkflowRequest) (limits : ReusableWorkflowLimits) :
    TraversalWorld ExpansionContext :=
  MkWorld (MkExpansionContext (request_run_id request) {[request_root_invocation_id request]} ∅ [])
    (MkCounts limits 0 0) [] 0.

Definition expand_reusable_workflow (request : ExpandReusableWorkflowRequest)
    (limits : ReusableWorkflowLimits) : result ReuseFailure ReusableWorkflowExpansion :=
  root_path ← check_root_source request;
  plan_digest ← digest_plan (request_root_plan request);
  let '(world, outcome) :=
    traverse_reusable_invocation (github_catalog_resolver (request_catalog request)) (λ _, false)
      (traversal_fuel limits) (root_node request root_path plan_digest) (root_seed request)
      (root_world request limits) in
  _ ← outcome;
  let invocations := context_invocations (world_policy world) in
  digest ← expansion_digest (request_run_id request) (request_root_invocation_id request)
             invocations;
  Ok (MkExpansion (request_run_id request) (request_root_invocation_id request) digest invocations).

End Expansion.
