(* ===== verification/ReusableCallTree.v ===== *)
(** * ReusableCallTree: what an expansion is, without the machine

    The specification of [ReusableExpansion]: a relation that unfolds a
    workflow into the list of its invocations, parents first, with no counter,
    no shared set of identities, no stack of active paths and no index; and the
    lemmas that take the stateful operations to it. *)

From stdpp Require Import gmap.
From S2P Require Import Prelude Text Capability ManagedSecret WorkflowTemplate WorkflowStrategy.
From S2P Require Import RuntimeContext WorkflowLogical WorkflowGraph Permission PlanEquality.
From S2P Require Import ReusableWorkflow ReusableExpansion.

Open Scope Z_scope.

(** ** Maps of texts *)

Lemma eqb_self (key : str) : eqb key key = true.
Proof. by apply eqb_eq. Qed.

Lemma tmap_get_cons {V : Type} (m : TextMap V) (key key' : str) (value : V) :
  tmap_get ((key, value) :: m) key' =
  if bool_decide (key' = key) then Some value else tmap_get m key'.
Proof.
  unfold tmap_get. simpl. case_bool_decide as H; [subst; by rewrite eqb_self|].
  by apply eqb_neq in H as ->.
Qed.

Lemma tmap_get_insert {V : Type} (m : TextMap V) (key key' : str) (value : V) :
  tmap_get (tmap_insert key value m) key' =
  if bool_decide (key' = key) then Some value else tmap_get m key'.
Proof.
  induction m as [|[k v] m IH]; cbn [tmap_insert]; [by rewrite tmap_get_cons|].
  destruct (cmp key k) eqn:E; rewrite !tmap_get_cons; [|done|].
  - apply cmp_eq_iff in E as <-. by case_bool_decide.
  - rewrite IH. repeat case_bool_decide; subst; try done. by rewrite cmp_refl in E.
Qed.

(** A map built from entries holds the value of every key, if the entries of a
    key agree. *)
Lemma tmap_get_from {V : Type} (P : str → V → Prop) (entries : list (str * V)) (key : str)
    (value : V) :
  (∀ k v v', P k v → P k v' → v = v') → (∀ k v, (k, v) ∈ entries → P k v) →
  tmap_get (tmap_from entries) key = Some value ↔ key ∈ map fst entries ∧ P key value.
Proof.
  intros Hfun Hall. unfold tmap_from.
  enough (∀ m, tmap_get (foldl (λ m '(key, value), tmap_insert key value m) m entries) key
                 = Some value ↔
               key ∈ map fst entries ∧ P key value ∨
               (key ∉ map fst entries) ∧ tmap_get m key = Some value) as H.
  { rewrite H. unfold tmap_get. simpl. naive_solver. }
  induction entries as [|[k v] entries IH]; intros m; simpl; [set_solver|].
  assert (P k v) by (apply Hall; apply list_elem_of_here).
  rewrite IH by (intros; apply Hall; by apply list_elem_of_further).
  rewrite tmap_get_insert, elem_of_cons.
  case_bool_decide as Hk; [subst k|tauto].
  assert (Some v = Some value ↔ P key value) as Hv.
  { split; [by intros [= <-]|]. intros Hp. by rewrite (Hfun key v value). }
  destruct (decide (key ∈ map fst entries)); tauto.
Qed.

Lemma try_map_ext_in {E A B : Type} (f g : A → result E B) (l : list A) :
  (∀ x, x ∈ l → f x = g x) → try_map f l = try_map g l.
Proof.
  induction l as [|x l IH]; cbn; intros Hfg; [done|].
  rewrite (Hfg x) by apply list_elem_of_here. rewrite IH; [done|].
  intros y Hy. apply Hfg. by apply list_elem_of_further.
Qed.

(** ** Permissions *)

(** Intersection is the meet of the two levels, name by name. *)
Lemma intersect_level (left right : ReusableWorkflowPermissions) (name : str) :
  reusable_level (intersect_permissions left right) name =
  minimum_permission (reusable_level left name) (reusable_level right name).
Proof.
  unfold intersect_permissions, reusable_minimum_permission. set (base := minimum_permission _ _).
  set (level name := minimum_permission (reusable_level left name) (reusable_level right name)).
  set (names := bset_from _). set (entries := omap _ _).
  assert (Hin : ∀ k v, (k, v) ∈ entries ↔ k ∈ elems names ∧ v = level k ∧ v ≠ base).
  { intros k v. unfold entries. rewrite list_elem_of_omap. split.
    - intros (n & Hn & H). case_bool_decide; [done|]. by injection H as -> <-.
    - intros (Hk & -> & Hb). exists k. split; [done|]. by rewrite bool_decide_eq_false_2. }
  assert (Hget : ∀ v, tmap_get (tmap_from entries) name = Some v ↔
                      name ∈ elems names ∧ v = level name ∧ v ≠ base).
  { intros v. rewrite (tmap_get_from (λ k v, v = level k)).
    - split.
      + intros [([k w] & -> & Hkw)%list_elem_of_fmap ->]. apply Hin in Hkw as (? & -> & ?). done.
      + intros (? & -> & ?). split; [|done]. apply list_elem_of_fmap.
        exists (name, level name). split; [done|]. by apply Hin.
    - by intros k w w' -> ->.
    - intros k w Hkw. by apply Hin in Hkw as (? & ? & ?). }
  unfold reusable_level at 1. simpl.
  destruct (tmap_get (tmap_from entries) name) as [v|].
  { by destruct (proj1 (Hget v) eq_refl) as (_ & -> & _). }
  destruct (decide (name ∈ elems names)) as [Hn|Hn].
  - destruct (decide (level name = base)) as [Hb|Hb]; [by rewrite <- Hb|].
    discriminate (proj2 (Hget (level name)) (conj Hn (conj eq_refl Hb))).
  - assert (Hno : name ∉ tmap_keys (reusable_grants left) ++ tmap_keys (reusable_grants right)).
    { intros H. apply Hn. by apply elem_of_bset_from in H. }
    rewrite elem_of_app in Hno.
    assert (Hd : ∀ p, name ∉ tmap_keys (reusable_grants p) → reusable_level p name = reusable_default p).
    { intros p Hp. unfold reusable_level. destruct (tmap_get _ name) as [v|] eqn:Ev; [|done].
      destruct Hp. unfold tmap_get in Ev. apply fmap_Some in Ev as ([k w] & Hf & ->).
      apply find_some in Hf as [Hf Hk]. simpl in Hk. apply eqb_eq in Hk as ->.
      apply list_elem_of_fmap. exists (k, w). split; [done|]. by apply list_elem_of_In. }
    unfold level. rewrite !Hd by tauto. done.
Qed.

(** ** The entry of an invocation *)

Section Spec.
Context {hasher : Sha256}.

(** A job, of a workflow whose jobs have the keys. *)
Definition described_job (identity : str → result ReuseFailure (list Z)) (keys : list str)
    (job : LogicalJobTemplate) : result ReuseFailure ExpandedReusableJob :=
  id ← identity (located_value (job_key job));
  prerequisites ← try_map (λ need,
      _ ← reuse_reject (negb (bool_decide (located_value need ∈ keys))) ReuseInvalidIdentity;
      identity (located_value need)) (job_needs job);
  _ ← reuse_reject (u16_max <? job_source_order job) ReuseSourceOrderOverflow;
  Ok (MkExpandedJob id (located_value (job_key job)) (job_source_order job) (is_call job)
        prerequisites).

Definition job_keys (jobs : list LogicalJobTemplate) : list str :=
  map (λ job, located_value (job_key job)) jobs.

Lemma elem_of_job_keys (jobs : list LogicalJobTemplate) (job : LogicalJobTemplate) :
  job ∈ jobs → located_value (job_key job) ∈ job_keys jobs.
Proof. intros H. by apply (list_elem_of_fmap_2 (λ job, located_value (job_key job))). Qed.

Definition jobs_of (node : TraversalNode) : list LogicalJobTemplate :=
  plan_jobs (workflow_logical (node_plan node)).

Definition described_jobs (run_id : list Z) (node : TraversalNode) (invocation_id : list Z) :
    result ReuseFailure (list ExpandedReusableJob) :=
  try_map (described_job (job_identity run_id invocation_id (node_root node))
             (job_keys (jobs_of node))) (jobs_of node).

Definition entry_of (run_id : list Z) (node : TraversalNode) (seed : MaterializedTraversalSeed) :
    result ReuseFailure ReusableWorkflowInvocationExpansion :=
  jobs ← described_jobs run_id node (seed_id seed);
  _ ← reuse_reject (u16_max <? node_depth node) ReuseDepthLimitExceeded;
  Ok (MkInvocation (seed_id seed) (seed_parent_id seed) (seed_caller_job_id seed)
        (node_depth node) (node_workflow_path node) (node_source_digest node)
        (node_plan_digest node) (seed_permissions seed) (seed_inputs seed) (seed_secrets seed)
        (seed_outputs seed) (seed_caller_outputs seed) jobs).

(** What a call hands to its callee. *)
Definition child_seed (run_id : list Z) (node : TraversalNode) (seed : MaterializedTraversalSeed)
    (edge : TraversalEdge) : result ReuseFailure MaterializedTraversalSeed :=
  let callee := edge_callee edge in
  secrets ← validate_secrets (edge_call edge) (edge_contract edge)
              (seed_available_secret_names seed);
  caller ← job_identity run_id (seed_id seed) (node_root node)
             (located_value (job_key (edge_job edge)));
  id ← derived_invocation_id run_id (seed_id seed) caller (resolved_path callee)
         (resolved_source_digest callee);
  Ok (MkSeed id (Some (seed_id seed)) (Some caller)
        (reduce_permissions
           (reduce_permissions (seed_permissions seed) (job_permissions (edge_job edge)))
           (plan_permissions (workflow_logical (resolved_plan callee))))
        (edge_inputs edge) secrets (bset_from (map expanded_secret_target secrets))
        (expanded_contract_outputs (edge_contract edge)) (edge_outputs edge)).

(** The unfolding of a workflow below a chain of active paths: its own entry and
    the unfolding of each of its calls, in the order of its jobs. *)
Section CallTree.
Context (catalog : ReusableWorkflowCatalogResolver) (maximum_depth : Z) (run_id : list Z).

Inductive call_tree : list str → TraversalNode → MaterializedTraversalSeed →
    list ReusableWorkflowInvocationExpansion → Prop :=
| call_tree_intro chain node seed entry below :
    node_depth node ≤ maximum_depth →
    node_workflow_path node ∉ chain →
    entry_of run_id node seed = Ok entry →
    call_forest (node_workflow_path node :: chain) node seed (jobs_of node) below →
    call_tree chain node seed (entry :: below)
with call_forest : list str → TraversalNode → MaterializedTraversalSeed →
    list LogicalJobTemplate → list ReusableWorkflowInvocationExpansion → Prop :=
| call_forest_nil chain node seed : call_forest chain node seed [] []
| call_forest_steps chain node seed job jobs below :
    is_call job = false →
    call_forest chain node seed jobs below →
    call_forest chain node seed (job :: jobs) below
| call_forest_call chain node seed job jobs call callee edge child tree below :
    job_execution job = JobReusableWorkflow call →
    job_strategy job = None →
    catalog_resolve (located_value (invocation_reference call)) = Ok callee →
    resolved_path callee ∉ chain →
    checked_edge catalog job call callee = Ok edge →
    child_seed run_id node seed edge = Ok child →
    call_tree chain (child_node node callee) child tree →
    call_forest chain node seed jobs below →
    call_forest chain node seed (job :: jobs) (tree ++ below).

Scheme call_tree_ind' := Minimality for call_tree Sort Prop
  with call_forest_ind' := Minimality for call_forest Sort Prop.

End CallTree.

(** ** The identities of the jobs of an invocation *)

Definition job_ids_of (invocation : ReusableWorkflowInvocationExpansion) : list (list Z) :=
  map expanded_job_id (expanded_jobs_of invocation).

Section JobIdentities.
Context (run_id invocation_id : list Z) (root : bool).
Abbreviation identity := (job_identity run_id invocation_id root).

(** The first loop: an identity for each job, none of them known. *)
Lemma identify_jobs (jobs : list LogicalJobTemplate) (ids ids' : TextMap (list Z))
    (c c' : ExpansionContext) :
  context_run_id c = run_id →
  fold_st (identify_job invocation_id root) ids jobs c = (c', Ok ids') ↔
  ∃ new, try_map identity (job_keys jobs) = Ok new ∧
    NoDup new ∧ (∀ id, id ∈ new → id ∉ context_job_ids c) ∧
    c' = set_job_ids (list_to_set new ∪ context_job_ids c) c ∧
    ids' = foldl (λ m '(key, id), tmap_insert key id m) ids (zip (job_keys jobs) new).
Proof.
  revert ids c. induction jobs as [|job jobs IH]; intros ids c Hrun; simpl.
  { rewrite mret_st_Ok. split.
    - intros [-> ->]. exists []. split_and!; [done|constructor|set_solver| |done].
      destruct c; unfold set_job_ids; simpl; f_equal; set_solver.
    - intros (new & [= <-] & _ & _ & -> & ->). split; [|done].
      destruct c; unfold set_job_ids; simpl; f_equal; set_solver. }
  rewrite bind_st_Ok. split.
  - intros (c1 & ids1 & Hjob & Hrest). unfold identify_job in Hjob.
    apply bind_st_Ok in Hjob as (c0 & ctx & [= <- <-] & Hjob).
    apply bind_st_Ok in Hjob as (c0 & id & [-> Hid]%liftM_Ok & Hjob).
    apply bind_st_Ok in Hjob as (c2 & [] & [= <-] & Hjob).
    apply bind_st_Ok in Hjob as (c3 & [] & [-> Hfresh]%liftM_reject_Ok & Hjob).
    apply bool_decide_eq_false in Hfresh.
    apply mret_st_Ok in Hjob as [-> ->]. rewrite Hrun in Hid.
    apply IH in Hrest as (new & Hnew & Hnd & Hno & -> & ->); [|done].
    exists (id :: new). rewrite Hid. simpl. rewrite Hnew. simpl.
    simpl in Hno. split_and!; [done|constructor; set_solver|set_solver| |done].
    destruct c; unfold set_job_ids; simpl; f_equal; set_solver.
  - intros (new0 & Hnew & Hnd & Hno & -> & ->).
    apply bind_Ok_inv in Hnew as (id & Hid & Hnew).
    apply bind_Ok_inv in Hnew as (new & Hnew & [= <-]).
    apply NoDup_cons in Hnd as [Hn Hnd].
    exists (set_job_ids ({[id]} ∪ context_job_ids c) c), (tmap_insert (located_value (job_key job)) id ids).
    split.
    + unfold identify_job. apply bind_st_Ok. exists c, c. split; [done|].
      apply bind_st_Ok. exists c, id. rewrite Hrun, liftM_Ok. split; [done|].
      apply bind_st_Ok. eexists _, tt. split; [done|].
      apply bind_st_Ok. eexists _, tt. split; [|done]. apply liftM_reject_Ok. split; [done|].
      apply bool_decide_eq_false. set_solver.
    + apply IH; [done|]. exists new. split_and!; [done..|simpl; set_solver| |done].
      destruct c; unfold set_job_ids; simpl; f_equal; set_solver.
Qed.

(** The map of identities agrees with the function on the keys of the jobs. *)
Lemma identity_map (keys : list str) (new : list (list Z)) (key : str) :
  try_map identity keys = Ok new →
  ok_or (tmap_get (tmap_from (zip keys new)) key) (ReuseRejected ReuseInvalidIdentity) =
  (_ ← reuse_reject (negb (bool_decide (key ∈ keys))) ReuseInvalidIdentity; identity key).
Proof.
  intros Hnew%try_map_Ok.
  assert (Hfst : map fst (zip keys new) = keys).
  { apply Forall2_length in Hnew. apply fst_zip. lia. }
  assert (Hget : ∀ id, tmap_get (tmap_from (zip keys new)) key = Some id ↔
                       key ∈ keys ∧ identity key = Ok id).
  { intros id. rewrite (tmap_get_from (λ k v, identity k = Ok v)); [by rewrite Hfst|congruence|].
    intros k v Hkv. apply list_elem_of_lookup in Hkv as (i & Hi).
    apply lookup_zip_with_Some in Hi as (k' & v' & [= <- <-] & Hk & Hv).
    exact (Forall2_lookup_lr _ _ _ _ _ _ Hnew Hk Hv). }
  destruct (decide (key ∈ keys)) as [Hk|Hk].
  - rewrite bool_decide_eq_true_2 by done.
    apply list_elem_of_lookup in Hk as (i & Hi).
    destruct (Forall2_lookup_l _ _ _ _ _ Hnew Hi) as (id & _ & Hid).
    rewrite (proj2 (Hget id)); [by rewrite Hid|]. split; [by eapply list_elem_of_lookup_2|done].
  - rewrite bool_decide_eq_false_2 by done.
    destruct (tmap_get _ key) as [id|] eqn:E; [|done]. by destruct (proj1 (Hget id) eq_refl).
Qed.

Lemma expand_described (jobs : list LogicalJobTemplate) (new : list (list Z))
    (job : LogicalJobTemplate) :
  try_map identity (job_keys jobs) = Ok new → job ∈ jobs →
  expand_job (tmap_from (zip (job_keys jobs) new)) job =
  described_job identity (job_keys jobs) job.
Proof.
  intros Hnew Hjob. unfold expand_job, described_job.
  rewrite (identity_map _ _ _ Hnew), bool_decide_eq_true_2 by (by apply elem_of_job_keys).
  simpl. destruct (identity _) as [id|e]; [|done]. simpl. f_equal.
  apply try_map_ext. intros need. apply (identity_map _ _ _ Hnew).
Qed.

End JobIdentities.

Lemma expanded_jobs_Ok (run_id : list Z) (node : TraversalNode) (invocation_id : list Z)
    (c c' : ExpansionContext) (jobs : list ExpandedReusableJob) :
  context_run_id c = run_id →
  expanded_jobs invocation_id (node_plan node) (node_root node) c = (c', Ok jobs) ↔
  described_jobs run_id node invocation_id = Ok jobs ∧
  NoDup (map expanded_job_id jobs) ∧
  (∀ id, id ∈ map expanded_job_id jobs → id ∉ context_job_ids c) ∧
  c' = set_job_ids (list_to_set (map expanded_job_id jobs) ∪ context_job_ids c) c.
Proof.
  intros Hrun. unfold expanded_jobs, described_jobs. fold (jobs_of node).
  set (identity := job_identity run_id invocation_id (node_root node)).
  set (keys := job_keys (jobs_of node)).
  assert (Hids : ∀ jobs, try_map (described_job identity keys) (jobs_of node) = Ok jobs →
                   try_map identity keys = Ok (map expanded_job_id jobs)).
  { intros es Hes%try_map_Ok. apply try_map_Ok. unfold keys, job_keys.
    apply Forall2_fmap. eapply Forall2_impl; [exact Hes|]. intros job e He.
    unfold described_job in He. apply bind_Ok_inv in He as (id & Hid & He). ok_inv. exact Hid. }
  rewrite bind_st_Ok. split.
  - intros (c1 & ids & Hfold & [-> Hjobs]%liftM_Ok).
    apply (identify_jobs run_id) in Hfold as (new & Hnew & Hnd & Hno & -> & ->); [|done].
    change (foldl _ [] ?l) with (tmap_from l) in Hjobs.
    rewrite (try_map_ext_in _ (described_job identity keys)) in Hjobs
      by (intros job Hj; by apply expand_described).
    pose proof (Hids _ Hjobs) as Hnew'. fold identity keys in Hnew. rewrite Hnew in Hnew'.
    injection Hnew' as ->. done.
  - intros (Hjobs & Hnd & Hno & ->). pose proof (Hids _ Hjobs) as Hnew.
    eexists _, _. split.
    { apply (identify_jobs run_id); [done|]. by exists (map expanded_job_id jobs). }
    apply liftM_Ok. split; [done|]. rewrite <- Hjobs. symmetry. apply try_map_ext_in.
    intros job Hj. symmetry. by apply expand_described.
Qed.

(** ** The state of the policy *)

(** A context that has taken up identities and entries. *)
Definition grow (c : ExpansionContext) (ids : list (list Z))
    (entries : list ReusableWorkflowInvocationExpansion) : ExpansionContext :=
  MkExpansionContext (context_run_id c) (list_to_set ids ∪ context_invocation_ids c)
    (list_to_set (entries ≫= job_ids_of) ∪ context_job_ids c)
    (context_invocations c ++ entries).

(** None of them repeats or is known. *)
Definition fresh (c : ExpansionContext) (ids : list (list Z))
    (entries : list ReusableWorkflowInvocationExpansion) : Prop :=
  NoDup ids ∧ (∀ id, id ∈ ids → id ∉ context_invocation_ids c) ∧
  NoDup (entries ≫= job_ids_of) ∧
  (∀ id, id ∈ entries ≫= job_ids_of → id ∉ context_job_ids c).

Lemma grow_grow (c : ExpansionContext) (ids ids' : list (list Z))
    (entries entries' : list ReusableWorkflowInvocationExpansion) :
  grow (grow c ids entries) ids' entries' = grow c (ids ++ ids') (entries ++ entries').
Proof.
  unfold grow. simpl. rewrite bind_app, !list_to_set_app_L, <- app_assoc. f_equal; set_solver.
Qed.

Lemma grow_nil (c : ExpansionContext) : grow c [] [] = c.
Proof.
  destruct c. unfold grow. simpl. rewrite app_nil_r. f_equal; set_solver.
Qed.

Lemma fresh_nil (c : ExpansionContext) : fresh c [] [].
Proof. unfold fresh. simpl. split_and!; [constructor|set_solver|constructor|set_solver]. Qed.

Lemma fresh_app (c : ExpansionContext) (ids ids' : list (list Z))
    (entries entries' : list ReusableWorkflowInvocationExpansion) :
  fresh c (ids ++ ids') (entries ++ entries') ↔
  fresh c ids entries ∧ fresh (grow c ids entries) ids' entries'.
Proof.
  unfold fresh. rewrite bind_app, !NoDup_app. simpl. split.
  - intros ((H1 & H2 & H3) & H4 & (H5 & H6 & H7) & H8). split_and!; set_solver.
  - intros ((H1 & H2 & H3 & H4) & (H5 & H6 & H7 & H8)). split_and!; set_solver.
Qed.

Definition state_of (index : nat) (seed : MaterializedTraversalSeed) : MaterializedTraversalState :=
  MkState index (seed_id seed) (seed_permissions seed) (seed_available_secret_names seed).

Section Policy.
Context (run_id : list Z).

Lemma enter_Ok (node : TraversalNode) (seed : MaterializedTraversalSeed) (c c' : ExpansionContext)
    (state : MaterializedTraversalState) :
  context_run_id c = run_id →
  materialized_enter node seed c = (c', Ok state) ↔
  ∃ entry, entry_of run_id node seed = Ok entry ∧ fresh c [] [entry] ∧
    c' = grow c [] [entry] ∧ state = state_of (length (context_invocations c)) seed.
Proof.
  intros Hrun. unfold materialized_enter, entry_of. rewrite bind_st_Ok. split.
  - intros (c1 & jobs & Hjobs & Hrest).
    apply (expanded_jobs_Ok run_id) in Hjobs as (Hd & Hnd & Hno & ->); [|done].
    apply bind_st_Ok in Hrest as (c0 & ctx & [= <- <-] & Hrest).
    apply bind_st_Ok in Hrest as (c0 & [] & [-> Hdepth]%liftM_reject_Ok & Hrest).
    apply bind_st_Ok in Hrest as (c2 & [] & [= <-] & [-> ->]%mret_st_Ok).
    rewrite Hd. unfold reuse_reject. rewrite Hdepth. eexists. split; [reflexivity|].
    unfold fresh, grow, push_invocation, job_ids_of. simpl. rewrite !app_nil_r.
    split_and!; [constructor|set_solver|done|done| |done]. f_equal; set_solver.
  - intros (entry & Hentry & (_ & _ & Hnd & Hno) & -> & ->).
    apply bind_Ok_inv in Hentry as (jobs & Hd & Hentry).
    apply bind_Ok_inv in Hentry as ([] & Hdepth%reject_passes & [= <-]).
    unfold job_ids_of in *. simpl in *. rewrite app_nil_r in *.
    eexists _, jobs. split; [by apply (expanded_jobs_Ok run_id)|].
    apply bind_st_Ok. eexists _, _. split; [done|].
    apply bind_st_Ok. eexists _, tt. split; [by apply liftM_reject_Ok|].
    apply bind_st_Ok. eexists _, tt. split; [done|].
    unfold mret, stM_ret, grow, push_invocation. simpl. rewrite app_nil_r. repeat f_equal.
    set_solver.
Qed.

(** The caller's identity is read from its entry. *)
Lemma caller_identity (node : TraversalNode) (seed : MaterializedTraversalSeed)
    (entry : ReusableWorkflowInvocationExpansion) (job : LogicalJobTemplate) :
  entry_of run_id node seed = Ok entry → job ∈ jobs_of node →
  ∃ caller,
    List.find (λ expanded, str_eqb (expanded_job_key expanded) (located_value (job_key job)))
      (expanded_jobs_of entry) = Some caller ∧
    job_identity run_id (seed_id seed) (node_root node) (located_value (job_key job)) =
    Ok (expanded_job_id caller).
Proof.
  intros Hentry Hjob.
  apply bind_Ok_inv in Hentry as (jobs & Hd & Hentry).
  apply bind_Ok_inv in Hentry as ([] & _ & [= <-]). simpl.
  apply try_map_Ok in Hd.
  assert (Hof : ∀ job e, described_job (job_identity run_id (seed_id seed) (node_root node))
                  (job_keys (jobs_of node)) job = Ok e →
                expanded_job_key e = located_value (job_key job) ∧
                job_identity run_id (seed_id seed) (node_root node) (expanded_job_key e) =
                Ok (expanded_job_id e)).
  { intros j e He. unfold described_job in He. ok_inv. done. }
  destruct (List.find _ jobs) as [caller|] eqn:Hfind.
  - exists caller. split; [done|]. apply find_some in Hfind as [Hin Hkey].
    apply bool_decide_eq_true in Hkey as <-. apply list_elem_of_In, list_elem_of_lookup in Hin as (i & Hi).
    destruct (Forall2_lookup_r _ _ _ _ _ Hd Hi) as (j & _ & Hj). by apply (Hof j).
  - exfalso. apply list_elem_of_lookup in Hjob as (i & Hi).
    destruct (Forall2_lookup_l _ _ _ _ _ Hd Hi) as (e & He & Hj).
    apply list_elem_of_lookup_2, list_elem_of_In in He.
    pose proof (find_none _ _ Hfind e He) as Hne. destruct (Hof _ _ Hj) as [Hk _]. by apply bool_decide_eq_false in Hne.
Qed.

Lemma prepare_Ok (node : TraversalNode) (seed : MaterializedTraversalSeed) (index : nat)
    (entry : ReusableWorkflowInvocationExpansion) (edge : TraversalEdge) (c c' : ExpansionContext)
    (prepared : MaterializedTraversalState * (MaterializedTraversalSeed * unit)) :
  context_run_id c = run_id → context_invocations c !! index = Some entry →
  entry_of run_id node seed = Ok entry → edge_job edge ∈ jobs_of node →
  materialized_prepare (state_of index seed) edge c = (c', Ok prepared) ↔
  ∃ child, child_seed run_id node seed edge = Ok child ∧ fresh c [seed_id child] [] ∧
    c' = grow c [seed_id child] [] ∧ prepared = (state_of index seed, (child, tt)).
Proof.
  intros Hrun Hindex Hentry Hjob.
  destruct (caller_identity _ _ _ _ Hentry Hjob) as (caller & Hfind & Hid).
  unfold materialized_prepare, child_seed. simpl. rewrite Hid.
  destruct (validate_secrets _ _ _) as [secrets|e]; [|split; [done|by intros (? & ? & _)]].
  rewrite Ok_bind. rewrite bind_st_Ok. split.
  - intros (c0 & s & [= <- <-] & H).
    apply bind_st_Ok in H as (c0 & ctx & [= <- <-] & H). rewrite Hindex in H.
    apply bind_st_Ok in H as (c0 & inv & [= <- <-] & H). rewrite Hfind in H.
    apply bind_st_Ok in H as (c0 & cl & [= <- <-] & H).
    apply bind_st_Ok in H as (c0 & id & [-> Hd]%liftM_Ok & H).
    apply bind_st_Ok in H as (c1 & [] & [= <-] & H).
    apply bind_st_Ok in H as (c0 & [] & [-> Hnew%bool_decide_eq_false]%liftM_reject_Ok & H).
    apply mret_st_Ok in H as [-> ->]. rewrite Hrun in Hd.
    rewrite Ok_bind, Hd, Ok_bind. eexists. split; [reflexivity|]. simpl in *.
    unfold fresh, grow, set_invocation_ids. simpl. rewrite app_nil_r.
    split_and!; [|set_solver|constructor|set_solver| |done].
    { apply NoDup_cons. split; [set_solver|constructor]. }
    destruct c. simpl. f_equal; set_solver.
  - intros (child & Hchild & (_ & Hno & _) & -> & ->). rewrite Ok_bind in Hchild.
    apply bind_Ok_inv in Hchild as (id & Hd & [= <-]). simpl in *.
    eexists _, secrets. split; [done|].
    apply bind_st_Ok. eexists _, _. split; [done|]. rewrite Hindex.
    apply bind_st_Ok. eexists _, entry. split; [done|]. rewrite Hfind.
    apply bind_st_Ok. eexists _, caller. split; [done|]. rewrite Hrun, Hd.
    apply bind_st_Ok. eexists _, id. split; [done|].
    apply bind_st_Ok. eexists _, tt. split; [done|].
    apply bind_st_Ok. eexists _, tt. split.
    { apply liftM_reject_Ok. split; [done|]. apply bool_decide_eq_false. set_solver. }
    unfold mret, stM_ret, grow, set_invocation_ids. simpl. rewrite app_nil_r. repeat f_equal.
    + set_solver.
    + set_solver.
Qed.

End Policy.
End Spec.
