(* ===== verification/ReusableTheorems.v ===== *)
(** * ReusableTheorems: what the expansion of called workflows promises

    The traversal succeeds exactly on the workflows that unfold within its
    limits, and then its ledger is the unfolding; and no call reaches an
    authority its caller does not have. *)

From stdpp Require Import gmap.
From S2P Require Import Prelude Text Capability ManagedSecret WorkflowTemplate WorkflowStrategy.
From S2P Require Import RuntimeContext WorkflowLogical WorkflowGraph Permission PlanEquality.
From S2P Require Import ReusableWorkflow ReusableExpansion ReusableCallTree.

Open Scope Z_scope.

(** ** The steps of the traversal *)

Section Traversal.
Context {hasher : Sha256} (catalog : ReusableWorkflowCatalogResolver).
Context (limits : ReusableWorkflowLimits) (run_id : list Z).
Hypothesis invocations_u64 : maximum_invocations limits ≤ u64_max.
Hypothesis jobs_u64 : maximum_jobs limits ≤ u64_max.

Abbreviation world := (TraversalWorld ExpansionContext).
Abbreviation never := (λ _ : nat, false).
Abbreviation traverse := (traverse_reusable_invocation catalog never).
Abbreviation visit fuel := (visit_job catalog never (traverse fuel)).
Abbreviation tree := (call_tree catalog (maximum_depth limits) run_id).
Abbreviation forest := (call_forest catalog (maximum_depth limits) run_id).

(** The jobs of some entries. *)
Definition entry_jobs (entries : list ReusableWorkflowInvocationExpansion) : Z :=
  len (entries ≫= job_ids_of).

Lemma entry_jobs_cons (entry : ReusableWorkflowInvocationExpansion)
    (entries : list ReusableWorkflowInvocationExpansion) :
  entry_jobs (entry :: entries) = len (job_ids_of entry) + entry_jobs entries.
Proof. unfold entry_jobs, len. csimpl. rewrite length_app. lia. Qed.

Lemma entry_jobs_app (entries entries' : list ReusableWorkflowInvocationExpansion) :
  entry_jobs (entries ++ entries') = entry_jobs entries + entry_jobs entries'.
Proof. unfold entry_jobs, len. rewrite bind_app, length_app. lia. Qed.

(** The world in which the traversal stands, and how it moves on. *)
Definition well_placed (w : world) (chain : list str) : Prop :=
  context_run_id (world_policy w) = run_id ∧ counts_limits (world_counts w) = limits ∧
  active_paths w = chain ∧ 0 ≤ invocation_count (world_counts w) ∧
  0 ≤ job_count (world_counts w).

Definition fits (w : world) (entries : list ReusableWorkflowInvocationExpansion) : Prop :=
  invocation_count (world_counts w) + len entries ≤ maximum_invocations limits ∧
  job_count (world_counts w) + entry_jobs entries ≤ maximum_jobs limits.

Definition advanced (w w' : world) (ids : list (list Z))
    (entries : list ReusableWorkflowInvocationExpansion) : Prop :=
  world_policy w' = grow (world_policy w) ids entries ∧
  world_counts w' =
    MkCounts limits (invocation_count (world_counts w) + len entries)
      (job_count (world_counts w) + entry_jobs entries) ∧
  active_paths w' = active_paths w.

Lemma advanced_placed (w w' : world) (chain : list str) (ids : list (list Z))
    (entries : list ReusableWorkflowInvocationExpansion) :
  advanced w w' ids entries → well_placed w chain → well_placed w' chain.
Proof.
  intros (Hp & Hc & Ha) (Hr & Hl & Hch & Hi & Hj). unfold well_placed.
  rewrite Hp, Hc, Ha. simpl. unfold entry_jobs, len. split_and!; try done; lia.
Qed.

Lemma advanced_trans (w w' w'' : world) (ids ids' : list (list Z))
    (entries entries' : list ReusableWorkflowInvocationExpansion) :
  advanced w w' ids entries → advanced w' w'' ids' entries' →
  advanced w w'' (ids ++ ids') (entries ++ entries').
Proof.
  intros (Hp & Hc & Ha) (Hp' & Hc' & Ha'). unfold advanced.
  rewrite Hp', Hc', Ha', Hp, Hc, Ha, grow_grow, entry_jobs_app. simpl.
  unfold len. rewrite length_app. split_and!; [done|f_equal; lia|done].
Qed.

Lemma fits_app (w w' : world) (ids : list (list Z))
    (entries entries' : list ReusableWorkflowInvocationExpansion) :
  advanced w w' ids entries →
  fits w (entries ++ entries') ↔ fits w entries ∧ fits w' entries'.
Proof.
  intros (_ & Hc & _). unfold fits. rewrite Hc, entry_jobs_app. simpl.
  unfold len, entry_jobs, len. rewrite length_app. lia.
Qed.

Lemma check_cancelled_Ok (w w' : world) (u : unit) :
  check_cancelled never w = (w', Ok u) ↔
  w' = MkWorld (world_policy w) (world_counts w) (active_paths w) (S (polls w)).
Proof. unfold check_cancelled. destruct u. simpl. naive_solver. Qed.

Lemma check_inactive_Ok (path : str) (w w' : world) (u : unit) :
  check_inactive path w = (w', Ok u) ↔ w' = w ∧ path ∉ active_paths w.
Proof.
  unfold check_inactive. rewrite bind_st_Ok. split.
  - intros (w0 & s & [= <- <-] & [-> H%not_true_iff_false]%liftM_reject_Ok).
    split; [done|]. intros Hin. apply H, existsb_exists. exists path.
    split; [by apply list_elem_of_In|]. by apply bool_decide_eq_true.
  - intros [-> Hno]. exists w, w. split; [done|]. apply liftM_reject_Ok. split; [done|].
    apply not_true_iff_false. intros (p & Hp & Heq%bool_decide_eq_true)%existsb_exists.
    subst p. by apply Hno, list_elem_of_In.
Qed.

Lemma run_policy_Ok {A : Type} (m : stM ExpansionContext ReuseFailure A) (w w' : world) (a : A) :
  run_policy m w = (w', Ok a) ↔
  ∃ p, m (world_policy w) = (p, Ok a) ∧
       w' = MkWorld p (world_counts w) (active_paths w) (polls w).
Proof. unfold run_policy. destruct (m _) as [p [b|e]]; naive_solver. Qed.

Lemma count_node_Ok (node : TraversalNode) (w w' : world) (chain : list str) (u : unit) :
  well_placed w chain →
  count_node node w = (w', Ok u) ↔
  node_depth node ≤ maximum_depth limits ∧
  invocation_count (world_counts w) + 1 ≤ maximum_invocations limits ∧
  job_count (world_counts w) + len (jobs_of node) ≤ maximum_jobs limits ∧
  w' = set_counts (MkCounts limits (invocation_count (world_counts w) + 1)
                     (job_count (world_counts w) + len (jobs_of node))) w.
Proof.
  intros (_ & Hl & _ & Hi & Hj). unfold count_node.
  set (n := len (jobs_of node)). assert (Hn : 0 ≤ n) by (unfold n, len; lia). split.
  - intros (w0 & s & [= <- <-] & H)%bind_st_Ok. rewrite Hl in H.
    apply bind_st_Ok in H as (w0 & [] & [-> Hd%Z.ltb_ge]%liftM_reject_Ok & H).
    apply bind_st_Ok in H as (w0 & i & [-> (-> & _)%ok_or_Ok%checked_add_Some]%liftM_Ok & H).
    apply bind_st_Ok in H as (w0 & [] & [= <-] & H).
    apply bind_st_Ok in H as (w0 & [] & [-> Hi'%Z.ltb_ge]%liftM_reject_Ok & H).
    apply bind_st_Ok in H as (w0 & j & [-> (-> & _)%ok_or_Ok%checked_add_Some]%liftM_Ok & H).
    apply bind_st_Ok in H as (w0 & [] & [= <-] & [-> Hj'%Z.ltb_ge]%liftM_reject_Ok).
    split_and!; [done..|]. by destruct w.
  - intros (Hd & Hi' & Hj' & ->).
    apply bind_st_Ok. exists w, w. split; [done|]. rewrite Hl.
    apply bind_st_Ok. exists w, tt. split; [apply liftM_reject_Ok; split; [done|]; by apply Z.ltb_ge|].
    apply bind_st_Ok. eexists w, _. split.
    { apply liftM_Ok. split; [done|]. apply ok_or_Ok, checked_add_Some. split; [reflexivity|lia]. }
    apply bind_st_Ok. eexists _, tt. split; [done|].
    apply bind_st_Ok. eexists _, tt. split; [apply liftM_reject_Ok; split; [done|]; by apply Z.ltb_ge|].
    apply bind_st_Ok. eexists _, _. split.
    { apply liftM_Ok. split; [done|]. apply ok_or_Ok, checked_add_Some. split; [reflexivity|].
      change (job_count (world_counts w) + n ≤ u64_max). lia. }
    apply bind_st_Ok. eexists _, tt. split; [done|].
    apply liftM_reject_Ok. split; [by destruct w|]. apply Z.ltb_ge. done.
Qed.

(** ** Soundness *)

Lemma entry_of_facts (node : TraversalNode) (seed : MaterializedTraversalSeed)
    (entry : ReusableWorkflowInvocationExpansion) :
  entry_of run_id node seed = Ok entry →
  expanded_id entry = seed_id seed ∧ len (job_ids_of entry) = len (jobs_of node).
Proof.
  intros Hentry. apply bind_Ok_inv in Hentry as (jobs & Hd & Hentry).
  apply bind_Ok_inv in Hentry as ([] & _ & [= <-]). split; [done|].
  apply try_map_Ok, Forall2_length in Hd. unfold len, job_ids_of. simpl. by rewrite length_map, Hd.
Qed.

(** A pushed path is popped again. *)
Lemma with_active_path_Ok {A : Type} (path : str) (m : stM world ReuseFailure A) (w w' : world)
    (a : A) :
  with_active_path path m w = (w', Ok a) ↔
  ∃ w1, m (set_paths (path :: active_paths w) w) = (w1, Ok a) ∧
        w' = set_paths (tail (active_paths w1)) w1.
Proof. unfold with_active_path. destruct (m _) as [w1 r]. naive_solver. Qed.

(** Everything taken up on the way from one world to another is new and within
    the limits. *)
Definition progress (w w' : world) (ids : list (list Z))
    (entries : list ReusableWorkflowInvocationExpansion) : Prop :=
  fresh (world_policy w) ids entries ∧ fits w entries ∧ advanced w w' ids entries.

Lemma progress_trans (w w' w'' : world) (ids ids' : list (list Z))
    (entries entries' : list ReusableWorkflowInvocationExpansion) :
  progress w w' ids entries → progress w' w'' ids' entries' →
  progress w w'' (ids ++ ids') (entries ++ entries').
Proof.
  intros (Hf & Hl & Ha) (Hf' & Hl' & Ha'). split_and!.
  - apply fresh_app. split; [done|]. by rewrite <- (proj1 Ha).
  - by apply (fits_app _ _ _ _ _ Ha).
  - by eapply advanced_trans.
Qed.

(** A step that leaves policy, counts and paths alone. *)
Lemma progress_same (w w' : world) (chain : list str) :
  well_placed w chain → fits w [] → world_policy w' = world_policy w →
  world_counts w' = world_counts w → active_paths w' = active_paths w →
  progress w w' [] [].
Proof.
  intros (_ & Hl & _) Hf Hp Hc Ha. split_and!; [apply fresh_nil|done|].
  unfold advanced. rewrite grow_nil, Hp, Hc, Ha. unfold entry_jobs, len. simpl.
  rewrite !Z.add_0_r, <- Hl. by destruct (world_counts w).
Qed.

Lemma progress_fits (w w' : world) (ids : list (list Z))
    (entries : list ReusableWorkflowInvocationExpansion) :
  progress w w' ids entries → fits w' [].
Proof.
  intros (_ & Hf & Ha). apply (fits_app _ _ _ _ [] Ha). by rewrite app_nil_r.
Qed.

Lemma progress_placed (w w' : world) (chain : list str) (ids : list (list Z))
    (entries : list ReusableWorkflowInvocationExpansion) :
  progress w w' ids entries → well_placed w chain → well_placed w' chain.
Proof. intros (_ & _ & Ha). by apply (advanced_placed _ _ _ _ _ Ha). Qed.

(** Entries stay where they are. *)
Lemma progress_lookup (w w' : world) (ids : list (list Z))
    (entries : list ReusableWorkflowInvocationExpansion) (index : nat)
    (entry : ReusableWorkflowInvocationExpansion) :
  progress w w' ids entries → context_invocations (world_policy w) !! index = Some entry →
  context_invocations (world_policy w') !! index = Some entry.
Proof. intros (_ & _ & Hp & _) H. rewrite Hp. by apply lookup_app_l_Some. Qed.

Abbreviation recursion :=
  (TraversalNode → MaterializedTraversalSeed → stM world ReuseFailure unit).

(** What the traversal of one node must do for the loop over the jobs. *)
Definition sound_at (recurse : recursion) : Prop :=
  ∀ node seed w w' chain u, well_placed w chain → fits w [] → recurse node seed w = (w', Ok u) →
  ∃ entry below,
    tree chain node seed (entry :: below) ∧ expanded_id entry = seed_id seed ∧
    progress w w' (map expanded_id below) (entry :: below).

Section Sound.
Context (recurse : recursion) (node : TraversalNode) (seed : MaterializedTraversalSeed).
Context (index : nat) (entry : ReusableWorkflowInvocationExpansion).
Hypothesis recurse_sound : sound_at recurse.
Hypothesis entry_is : entry_of run_id node seed = Ok entry.

Lemma visit_call_sound (job : LogicalJobTemplate) (call : ReusableWorkflowInvocation)
    (w w' : world) (chain : list str) (state : MaterializedTraversalState) :
  well_placed w chain → fits w [] → job ∈ jobs_of node →
  context_invocations (world_policy w) !! index = Some entry →
  job_execution job = JobReusableWorkflow call →
  visit_job catalog never recurse node (state_of index seed) job w = (w', Ok state) →
  ∃ callee edge child below,
    job_strategy job = None ∧
    catalog_resolve (located_value (invocation_reference call)) = Ok callee ∧
    (resolved_path callee ∉ chain) ∧ checked_edge catalog job call callee = Ok edge ∧
    child_seed run_id node seed edge = Ok child ∧
    tree chain (child_node node callee) child below ∧ state = state_of index seed ∧
    progress w w' (map expanded_id below) below.
Proof.
  intros Hw Hfit Hjob Hindex Hexec Hvisit. unfold visit_job in Hvisit. rewrite Hexec in Hvisit.
  apply bind_st_Ok in Hvisit as (w0 & [] & Hpoll%check_cancelled_Ok & Hvisit).
  assert (Hsame : progress w w0 [] []) by (subst w0; by eapply progress_same).
  clear Hpoll. pose proof (progress_placed _ _ _ _ _ Hsame Hw) as Hw0.
  pose proof (progress_fits _ _ _ _ Hsame) as Hf0.
  apply (progress_lookup _ _ _ _ _ _ Hsame) in Hindex.
  apply bind_st_Ok in Hvisit as (x & [] & [-> Hstrategy]%liftM_reject_Ok & Hvisit).
  apply bind_st_Ok in Hvisit as (x & callee & [-> Hres]%liftM_Ok & Hvisit).
  apply bind_st_Ok in Hvisit as (x & [] & [-> Hno]%check_inactive_Ok & Hvisit).
  apply bind_st_Ok in Hvisit as (x & edge & [-> Hedge]%liftM_Ok & Hvisit).
  assert (edge_job edge = job) as Hej by (unfold checked_edge in Hedge; by ok_inv).
  apply bind_st_Ok in Hvisit as (w1 & prepared & (c1 & Hprep & Hw1)%run_policy_Ok & Hvisit).
  pose proof Hw0 as (Hrun & Hl & Hch & Hpos).
  apply (prepare_Ok run_id node seed index entry) in Hprep
    as (child & Hchild & Hfresh & -> & ->); [|done|done|done|by rewrite Hej].
  assert (Hstep : progress w0 w1 [seed_id child] []).
  { subst w1. split_and!; [done|done|]. unfold advanced, entry_jobs, len. simpl.
    rewrite !Z.add_0_r, <- Hl. by destruct (world_counts w0). }
  apply bind_st_Ok in Hvisit as (w2 & [] & Hrec & Hvisit).
  pose proof (progress_placed _ _ _ _ _ Hstep Hw0) as Hw1p.
  apply (recurse_sound _ _ _ _ _ _ Hw1p (progress_fits _ _ _ _ Hstep)) in Hrec
    as (head & below & Htree & Hid & Hprog).
  apply run_policy_Ok in Hvisit as (c2 & [-> ->]%mret_st_Ok & ->).
  exists callee, edge, child, (head :: below).
  split_and!; try done.
  - by destruct (job_strategy job).
  - by rewrite <- Hch.
  - cbn [map]. rewrite Hid.
    pose proof (progress_trans _ _ _ _ _ _ _ Hsame (progress_trans _ _ _ _ _ _ _ Hstep Hprog)) as H.
    by destruct w2.
Qed.

Lemma visit_jobs_sound (jobs : list LogicalJobTemplate) (w w' : world) (chain : list str)
    (state : MaterializedTraversalState) :
  well_placed w chain → fits w [] → (∀ job, job ∈ jobs → job ∈ jobs_of node) →
  context_invocations (world_policy w) !! index = Some entry →
  fold_st (visit_job catalog never recurse node) (state_of index seed) jobs w = (w', Ok state) →
  ∃ below, forest chain node seed jobs below ∧ state = state_of index seed ∧
    progress w w' (map expanded_id below) below.
Proof.
  revert w. induction jobs as [|job jobs IH]; intros w Hw Hfit Hjobs Hindex Hfold; simpl in Hfold.
  { apply mret_st_Ok in Hfold as [-> ->]. exists [].
    split_and!; [constructor|done|]. by eapply progress_same. }
  assert (Htl : ∀ j, j ∈ jobs → j ∈ jobs_of node)
    by (intros j Hj; apply Hjobs; by apply list_elem_of_further).
  apply bind_st_Ok in Hfold as (w1 & st & Hvisit & Hrest).
  destruct (job_execution job) as [steps|call] eqn:Hexec.
  - unfold visit_job in Hvisit. rewrite Hexec in Hvisit.
    apply bind_st_Ok in Hvisit as (w0 & [] & Hpoll%check_cancelled_Ok & [-> ->]%mret_st_Ok).
    assert (Hsame : progress w w0 [] []) by (subst w0; by eapply progress_same).
    apply IH in Hrest as (below & Hforest & -> & Hprog);
      eauto using progress_placed, progress_fits, progress_lookup.
    exists below. split_and!; [|done|by apply (progress_trans _ _ _ _ _ _ _ Hsame Hprog)].
    constructor; [unfold is_call; by rewrite Hexec|done].
  - apply (visit_call_sound job call _ _ chain) in Hvisit
      as (callee & edge & child & sub & ? & ? & ? & ? & ? & ? & -> & Hsub); try done;
      [|apply Hjobs, list_elem_of_here].
    apply IH in Hrest as (below & Hforest & -> & Hprog);
      eauto using progress_placed, progress_fits, progress_lookup.
    exists (sub ++ below). rewrite map_app.
    split_and!; [by eapply call_forest_call|done|by apply (progress_trans _ _ _ _ _ _ _ Hsub Hprog)].
Qed.
End Sound.

Lemma traverse_sound (fuel : nat) : sound_at (traverse fuel).
Proof.
  induction fuel as [|fuel IH]; intros node seed w w' chain u Hw Hfit H; simpl in H; [done|].
  apply bind_st_Ok in H as (w0 & [] & Hpoll%check_cancelled_Ok & H).
  assert (Hsame : progress w w0 [] []) by (subst w0; by eapply progress_same).
  clear Hpoll. pose proof (progress_placed _ _ _ _ _ Hsame Hw) as Hw0.
  apply bind_st_Ok in H as (w1 & [] & Hcount & H).
  apply (count_node_Ok _ _ _ chain) in Hcount as (Hd & Hi & Hj & ->); [|done].
  apply bind_st_Ok in H as (x & [] & [-> Hno]%check_inactive_Ok & H).
  apply with_active_path_Ok in H as (w2 & H & ->). unfold visit_node in H.
  apply bind_st_Ok in H as (w3 & state & (c & Henter & ->)%run_policy_Ok & H). simpl in Henter.
  pose proof Hw0 as (Hrun & Hl & Hch & Hpos & Hpos').
  apply (enter_Ok run_id) in Henter as (entry & Hentry & Hfresh & -> & ->); [|done].
  destruct (entry_of_facts _ _ _ Hentry) as [Hid Hlen].
  apply bind_st_Ok in H as (w4 & st & Hfold & (c & [-> ->]%mret_st_Ok & ->)%run_policy_Ok).
  set (w5 := MkWorld (grow (world_policy w0) [] [entry])
               (MkCounts limits (invocation_count (world_counts w0) + 1)
                  (job_count (world_counts w0) + len (jobs_of node)))
               (node_workflow_path node :: active_paths w0) (polls w0)).
  change (fold_st (visit fuel node) (state_of (length (context_invocations (world_policy w0))) seed)
            (jobs_of node) w5 = (w4, Ok st)) in Hfold.
  assert (Hstep : progress w0 (set_paths (active_paths w0) w5) [] [entry]).
  { split_and!; [done| |].
    - unfold fits. rewrite entry_jobs_cons, Hlen. unfold entry_jobs, len at 1 3. simpl. lia.
    - unfold advanced. rewrite entry_jobs_cons, Hlen. unfold entry_jobs, len at 1 3. simpl.
      split_and!; [done|f_equal; lia|done]. }
  apply (visit_jobs_sound _ node seed _ entry IH Hentry) with (chain := node_workflow_path node :: chain)
    in Hfold as (below & Hforest & -> & Hprog); try done.
  - exists entry, below. split_and!; [|done|].
    + constructor; try done. by rewrite <- Hch.
    + apply (progress_trans _ _ _ _ _ _ _ Hsame).
      apply (progress_trans _ _ _ _ (map expanded_id below) _ below Hstep).
      destruct Hprog as (Hfr & Hfi & Hp & Hc & Ha). split_and!; [done..|].
      unfold advanced. simpl. by rewrite Hp, Hc, Ha.
  - unfold well_placed, w5, len in *. simpl. rewrite Hch. split_and!; try done; lia.
  - exact (progress_fits _ _ _ _ Hstep).
  - simpl. by rewrite lookup_app_r, Nat.sub_diag by done.
Qed.

(** ** Completeness *)

Lemma tree_head (chain : list str) (node : TraversalNode) (seed : MaterializedTraversalSeed)
    (entries : list ReusableWorkflowInvocationExpansion) :
  tree chain node seed entries →
  ∃ entry below, entries = entry :: below ∧ entry_of run_id node seed = Ok entry ∧
    expanded_id entry = seed_id seed.
Proof.
  intros H. inversion H; subst. eexists _, _. split_and!; [done|done|].
  by eapply entry_of_facts.
Qed.

Lemma poll (w : world) :
  ∃ w0, check_cancelled never w = (w0, Ok tt) ∧ world_policy w0 = world_policy w ∧
    world_counts w0 = world_counts w ∧ active_paths w0 = active_paths w.
Proof. eexists. split; [done|]. done. Qed.

Lemma same_policy (w w0 : world) (chain : list str)
    (entries : list ReusableWorkflowInvocationExpansion) :
  world_policy w0 = world_policy w → world_counts w0 = world_counts w →
  active_paths w0 = active_paths w → well_placed w chain → fits w entries →
  well_placed w0 chain ∧ fits w0 entries.
Proof. unfold well_placed, fits. by intros -> -> ->. Qed.

Definition tree_complete (chain : list str) (node : TraversalNode)
    (seed : MaterializedTraversalSeed)
    (entries : list ReusableWorkflowInvocationExpansion) : Prop :=
  ∀ fuel w, well_placed w chain → fits w entries →
    fresh (world_policy w) (map expanded_id (tail entries)) entries →
    maximum_depth limits - node_depth node < Z.of_nat fuel →
  ∃ w', traverse fuel node seed w = (w', Ok tt) ∧
    advanced w w' (map expanded_id (tail entries)) entries.

Definition forest_complete (chain : list str) (node : TraversalNode)
    (seed : MaterializedTraversalSeed) (jobs : list LogicalJobTemplate)
    (entries : list ReusableWorkflowInvocationExpansion) : Prop :=
  ∀ fuel w index entry, well_placed w chain →
    context_invocations (world_policy w) !! index = Some entry →
    entry_of run_id node seed = Ok entry → (∀ job, job ∈ jobs → job ∈ jobs_of node) →
    fits w entries → fresh (world_policy w) (map expanded_id entries) entries →
    maximum_depth limits - node_depth node ≤ Z.of_nat fuel →
  ∃ w', fold_st (visit fuel node) (state_of index seed) jobs w =
          (w', Ok (state_of index seed)) ∧
    advanced w w' (map expanded_id entries) entries.

Lemma same_advanced (w w0 w' : world) (ids : list (list Z))
    (entries : list ReusableWorkflowInvocationExpansion) :
  world_policy w0 = world_policy w → world_counts w0 = world_counts w →
  active_paths w0 = active_paths w → advanced w0 w' ids entries → advanced w w' ids entries.
Proof. unfold advanced. by intros -> -> ->. Qed.

Lemma complete_node (chain : list str) (node : TraversalNode) (seed : MaterializedTraversalSeed)
    (entry : ReusableWorkflowInvocationExpansion)
    (below : list ReusableWorkflowInvocationExpansion) :
  node_depth node ≤ maximum_depth limits → node_workflow_path node ∉ chain →
  entry_of run_id node seed = Ok entry →
  forest_complete (node_workflow_path node :: chain) node seed (jobs_of node) below →
  tree_complete chain node seed (entry :: below).
Proof.
  intros Hd Hno Hentry Hforest [|fuel] w Hw Hfit Hfresh Hfuel; [lia|].
  destruct (entry_of_facts _ _ _ Hentry) as [Hid Hlen].
  destruct (poll w) as (w0 & Hpoll & Hp & Hc & Ha).
  destruct (same_policy _ _ _ _ Hp Hc Ha Hw Hfit) as [Hw0 Hfit0].
  pose proof Hw0 as (Hrun & Hl & Hch & Hpos & Hpos'). rewrite <- Hp in Hfresh.
  apply (fresh_app _ [] _ [entry]) in Hfresh as [Hfresh Hbelow].
  pose proof Hfit0 as [Hi Hj]. rewrite entry_jobs_cons, Hlen in Hj.
  assert (0 ≤ entry_jobs below ∧ 0 ≤ len below ∧ 0 ≤ len (jobs_of node)) as (? & ? & ?)
    by (unfold entry_jobs, len; lia).
  assert (len (entry :: below) = 1 + len below) as Hlb by (unfold len; simpl; lia).
  set (counts := MkCounts limits (invocation_count (world_counts w0) + 1)
                   (job_count (world_counts w0) + len (jobs_of node))).
  set (w5 := MkWorld (grow (world_policy w0) [] [entry]) counts
               (node_workflow_path node :: active_paths w0) (polls w0)).
  destruct (Hforest fuel w5 (length (context_invocations (world_policy w0))) entry)
    as (w6 & Hfold & Hadv); try done.
  - unfold well_placed, w5, counts. simpl. rewrite Hch. split_and!; try done; lia.
  - unfold w5. simpl. by rewrite lookup_app_r, Nat.sub_diag by done.
  - unfold fits, w5, counts. simpl. lia.
  - lia.
  - exists (set_paths (tail (active_paths w6)) w6). split.
    + simpl. apply bind_st_Ok. exists w0, tt. split; [done|].
      apply bind_st_Ok. exists (set_counts counts w0), tt. split.
      { apply (count_node_Ok node w0 _ chain); [done|]. split_and!; [done|lia|lia|done]. }
      apply bind_st_Ok. exists (set_counts counts w0), tt. split.
      { apply check_inactive_Ok. split; [done|]. simpl. by rewrite Hch. }
      apply with_active_path_Ok. exists w6. split; [|done].
      apply bind_st_Ok. exists w5, (state_of (length (context_invocations (world_policy w0))) seed).
      split.
      { apply run_policy_Ok. eexists. split; [|done]. simpl. by apply (enter_Ok run_id); [|eauto]. }
      apply bind_st_Ok. eexists w6, _. split; [exact Hfold|].
      apply run_policy_Ok. exists (world_policy w6). split; [done|]. by destruct w6.
    + apply (same_advanced w w0); [done..|]. destruct Hadv as (Hp6 & Hc6 & Ha6).
      unfold advanced. simpl. rewrite Hp6, Hc6, Ha6. unfold w5, counts. simpl.
      rewrite (grow_grow _ [] _ [entry]), entry_jobs_cons, Hlen, Hlb.
      split_and!; [done|f_equal; lia|done].
Qed.

Lemma complete_steps (chain : list str) (node : TraversalNode) (seed : MaterializedTraversalSeed)
    (job : LogicalJobTemplate) (jobs : list LogicalJobTemplate)
    (below : list ReusableWorkflowInvocationExpansion) :
  is_call job = false → forest_complete chain node seed jobs below →
  forest_complete chain node seed (job :: jobs) below.
Proof.
  intros Hsteps Hforest fuel w index entry Hw Hindex Hentry Hjobs Hfit Hfresh Hfuel.
  destruct (poll w) as (w0 & Hpoll & Hp & Hc & Ha).
  destruct (same_policy _ _ _ _ Hp Hc Ha Hw Hfit) as [Hw0 Hfit0].
  rewrite <- Hp in Hindex, Hfresh.
  destruct (Hforest fuel w0 index entry Hw0 Hindex Hentry) as (w' & Hfold & Hadv); try done.
  { intros j Hj. apply Hjobs. by apply list_elem_of_further. }
  exists w'. split; [|by apply (same_advanced w w0)]. simpl.
  apply bind_st_Ok. exists w0, (state_of index seed). split; [|done].
  unfold visit_job. apply bind_st_Ok. exists w0, tt. split; [done|].
  unfold is_call in Hsteps. by destruct (job_execution job).
Qed.

Lemma complete_call (chain : list str) (node : TraversalNode) (seed : MaterializedTraversalSeed)
    (job : LogicalJobTemplate) (jobs : list LogicalJobTemplate)
    (call : ReusableWorkflowInvocation) (callee : ResolvedCatalogEntry) (edge : TraversalEdge)
    (child : MaterializedTraversalSeed)
    (sub below : list ReusableWorkflowInvocationExpansion) :
  job_execution job = JobReusableWorkflow call → job_strategy job = None →
  catalog_resolve (located_value (invocation_reference call)) = Ok callee →
  resolved_path callee ∉ chain → checked_edge catalog job call callee = Ok edge →
  child_seed run_id node seed edge = Ok child →
  tree chain (child_node node callee) child sub →
  tree_complete chain (child_node node callee) child sub →
  forest_complete chain node seed jobs below →
  forest_complete chain node seed (job :: jobs) (sub ++ below).
Proof.
  intros Hexec Hstrategy Hres Hno Hedge Hchild Htree Hsub Hforest
    fuel w index entry Hw Hindex Hentry Hjobs Hfit Hfresh Hfuel.
  destruct (poll w) as (w0 & Hpoll & Hp & Hc & Ha).
  destruct (same_policy _ _ _ _ Hp Hc Ha Hw Hfit) as [Hw0 Hfit0].
  rewrite <- Hp in Hindex, Hfresh. pose proof Hw0 as (Hrun & Hl & Hch & Hpos).
  destruct (tree_head _ _ _ _ Htree) as (head & tb & -> & _ & Hid).
  assert (edge_job edge = job) as Hej by (unfold checked_edge in Hedge; by ok_inv).
  rewrite map_app in Hfresh. cbn [map] in Hfresh. rewrite Hid in Hfresh.
  apply (fresh_app _ [seed_id child] (map expanded_id tb ++ map expanded_id below) []) in Hfresh
    as [Hfc Hfresh].
  apply (fresh_app _ (map expanded_id tb) (map expanded_id below) (head :: tb)) in Hfresh
    as [Hft Hfb].
  set (w1 := MkWorld (grow (world_policy w0) [seed_id child] []) (world_counts w0)
               (active_paths w0) (polls w0)).
  assert (Hstep : advanced w0 w1 [seed_id child] []).
  { unfold advanced, entry_jobs, len. simpl. rewrite !Z.add_0_r, <- Hl.
    by destruct (world_counts w0). }
  pose proof (advanced_placed _ _ _ _ _ Hstep Hw0) as Hw1.
  apply (fits_app _ _ _ [] _ Hstep) in Hfit0 as [_ Hfit1].
  assert (Hdepth : node_depth (child_node node callee) = node_depth node + 1) by done.
  assert (Hfit2 : fits w1 (head :: tb)).
  { destruct Hfit1 as [Hi Hj]. rewrite entry_jobs_app in Hj. unfold fits, entry_jobs, len in *.
    rewrite length_app in Hi. lia. }
  destruct (Hsub fuel w1 Hw1 Hfit2 Hft) as (w2 & Htrav & Hadv); [lia|].
  pose proof (advanced_placed _ _ _ _ _ Hadv Hw1) as Hw2.
  apply (fits_app _ _ _ (head :: tb) _ Hadv) in Hfit1 as [_ Hfit3].
  destruct (Hforest fuel w2 index entry Hw2) as (w3 & Hfold & Hadv3); try done.
  { rewrite (proj1 Hadv). simpl. rewrite app_nil_r. by apply lookup_app_l_Some. }
  { intros j Hj. apply Hjobs. by apply list_elem_of_further. }
  { by rewrite (proj1 Hadv). }
  exists w3. split.
  - simpl. apply bind_st_Ok. exists w2, (state_of index seed). split; [|done].
    unfold visit_job. rewrite Hexec. apply bind_st_Ok. exists w0, tt. split; [done|].
    apply bind_st_Ok. exists w0, tt. rewrite Hstrategy. split; [done|].
    apply bind_st_Ok. exists w0, callee. rewrite Hres. split; [done|].
    apply bind_st_Ok. exists w0, tt. split; [apply check_inactive_Ok; by rewrite Hch|].
    apply bind_st_Ok. exists w0, edge. rewrite Hedge. split; [done|].
    apply bind_st_Ok. exists w1, (state_of index seed, (child, tt)). split.
    { apply run_policy_Ok. eexists. split; [|done].
      apply (prepare_Ok run_id node seed index entry); try done.
      { rewrite Hej. apply Hjobs, list_elem_of_here. }
      by exists child. }
    apply bind_st_Ok. exists w2, tt. split; [done|].
    apply run_policy_Ok. exists (world_policy w2). split; [done|]. by destruct w2.
  - apply (same_advanced w w0); [done..|]. rewrite map_app. cbn [map]. rewrite Hid.
    exact (advanced_trans _ _ _ _ _ _ _ Hstep (advanced_trans _ _ _ _ _ _ _ Hadv Hadv3)).
Qed.

Lemma traverse_complete (chain : list str) (node : TraversalNode)
    (seed : MaterializedTraversalSeed) (entries : list ReusableWorkflowInvocationExpansion) :
  tree chain node seed entries → tree_complete chain node seed entries.
Proof.
  intros H. revert chain node seed entries H.
  apply (call_tree_ind' catalog (maximum_depth limits) run_id) with (P0 := forest_complete).
  - intros chain node seed entry below Hd Hno Hentry _ Hforest. by apply complete_node.
  - intros chain node seed fuel w index entry Hw _ _ _ _ _ _. exists w. split; [done|].
    destruct Hw as (_ & Hl & _). unfold advanced. rewrite grow_nil. unfold entry_jobs, len. simpl.
    rewrite !Z.add_0_r, <- Hl. by destruct (world_counts w).
  - intros chain node seed job jobs below Hsteps _. by apply complete_steps.
  - intros. by eapply complete_call.
Qed.

End Traversal.

(** ** The ledger as a whole *)

Lemma limits_new_Ok (depth invocations jobs : Z) (limits : ReusableWorkflowLimits) :
  reusable_limits_new depth invocations jobs = Ok limits →
  limits = MkReusableLimits depth invocations jobs ∧ invocations ≤ 256 ∧ jobs ≤ 4096.
Proof.
  unfold reusable_limits_new, reuse_reject, MAX_REUSABLE_WORKFLOW_INVOCATIONS,
    MAX_REUSABLE_WORKFLOW_EXPANDED_JOBS.
  intros H. ok_inv.
  repeat match goal with
  | H : _ || _ = false |- _ => apply orb_false_iff in H as [? ?]
  | H : (_ <? _) = false |- _ => apply Z.ltb_ge in H
  end. done.
Qed.

Section Ledger.
Context {hasher : Sha256} {encoding : PlanEncoding} {frontend : WorkflowFrontend}.

(** What an accepted request unfolds to. *)
Definition unfolds_to (request : ExpandReusableWorkflowRequest) (depth : Z)
    (entries : list ReusableWorkflowInvocationExpansion) : Prop :=
  ∃ root_path plan_digest,
    check_root_source request = Ok root_path ∧ digest_plan (request_root_plan request) = Ok plan_digest ∧
    call_tree (github_catalog_resolver (request_catalog request)) depth (request_run_id request) []
      (root_node request root_path plan_digest) (root_seed request) entries.

Lemma expand_ledger (depth invocations jobs : Z) (limits : ReusableWorkflowLimits)
    (request : ExpandReusableWorkflowRequest) (expansion : ReusableWorkflowExpansion) :
  0 ≤ invocations → 0 ≤ jobs → reusable_limits_new depth invocations jobs = Ok limits →
  expand_reusable_workflow request limits = Ok expansion ↔
  ∃ entries digest,
    unfolds_to request depth entries ∧
    NoDup (map expanded_id entries) ∧ NoDup (entries ≫= job_ids_of) ∧
    len entries ≤ invocations ∧ entry_jobs entries ≤ jobs ∧
    expansion_digest (request_run_id request) (request_root_invocation_id request) entries =
      Ok digest ∧
    expansion = MkExpansion (request_run_id request) (request_root_invocation_id request) digest
                  entries.
Proof.
  intros Hi0 Hj0 (-> & Hi & Hj)%limits_new_Ok. set (limits := MkReusableLimits depth invocations jobs).
  assert (Hiu : maximum_invocations limits ≤ u64_max) by (simpl; unfold u64_max; lia).
  assert (Hju : maximum_jobs limits ≤ u64_max) by (simpl; unfold u64_max; lia).
  set (catalog := github_catalog_resolver (request_catalog request)).
  assert (Hw : well_placed limits (request_run_id request) (root_world request limits) [])
    by (by split_and!).
  assert (Hsplit : ∀ head below, expanded_id head = request_root_invocation_id request →
    fresh (world_policy (root_world request limits)) (map expanded_id below) (head :: below) ↔
    NoDup (map expanded_id (head :: below)) ∧ NoDup ((head :: below) ≫= job_ids_of)).
  { intros head below Hid. unfold fresh. simpl. rewrite NoDup_cons, Hid. set_solver. }
  unfold expand_reusable_workflow, unfolds_to. fold catalog. split.
  - intros H. apply bind_Ok_inv in H as (root_path & Hroot & H).
    apply bind_Ok_inv in H as (plan_digest & Hdigest & H).
    destruct (traverse_reusable_invocation _ _ _ _ _ _) as [w' [[]|e]] eqn:Htrav; [|done].
    rewrite Ok_bind in H. apply bind_Ok_inv in H as (digest & Hd & [= <-]).
    assert (Hfit : fits limits (root_world request limits) []) by (by split).
    pose proof (traverse_sound catalog limits (request_run_id request) Hiu Hju _ _ _ _ _ [] tt Hw Hfit
                  Htrav) as (head & below & Htree & Hid & Hfresh & Hfits & Hp & _).
    rewrite Hp in *. simpl in *. exists (head :: below), digest.
    apply (Hsplit head below Hid) in Hfresh as [Hnd Hndj]. unfold fits in Hfits. simpl in Hfits.
    split_and!; [by exists root_path, plan_digest|done..| | |done|done]; lia.
  - intros (entries & digest & (root_path & plan_digest & Hroot & Hdigest & Htree) & Hnd & Hndj &
            Hni & Hnj & Hd & ->).
    rewrite Hroot, Ok_bind, Hdigest, Ok_bind.
    pose proof (tree_head catalog limits _ _ _ _ _ Htree) as (head & below & -> & _ & Hid).
    destruct (traverse_complete catalog limits (request_run_id request) Hiu Hju _ _ _ _ Htree
                (traversal_fuel limits) (root_world request limits)) as (w' & Htrav & Hp & _).
    + done.
    + by split.
    + by apply Hsplit.
    + unfold traversal_fuel. simpl. lia.
    + rewrite Htrav, Ok_bind, Hp. simpl in *. by rewrite Hd, Ok_bind.
Qed.

End Ledger.

(** ** Authority *)

Definition level_le (a b : PermissionLevel) : Prop := minimum_permission a b = a.

Lemma level_le_refl (a : PermissionLevel) : level_le a a.
Proof. by destruct a. Qed.

Lemma level_le_trans (a b c : PermissionLevel) : level_le a b → level_le b c → level_le a c.
Proof. unfold level_le. by destruct a, b, c. Qed.

Lemma minimum_le_left (a b : PermissionLevel) : level_le (minimum_permission a b) a.
Proof. by destruct a, b. Qed.

Lemma reduce_level_le (permissions : ReusableWorkflowPermissions)
    (request : option PermissionSnapshotRequest) (name : str) :
  level_le (reusable_level (reduce_permissions permissions request) name)
    (reusable_level permissions name).
Proof.
  destruct request as [request|]; simpl; [|apply level_le_refl].
  rewrite intersect_level. apply minimum_le_left.
Qed.

(** Every secret of a call is one the caller has. *)
Definition all_available (available : BTreeSet str) (supplied : TextMap str) : Prop :=
  ∀ target source, (target, source) ∈ supplied → source ∈ available.

Lemma available_secret_in (available : BTreeSet str) (name source : str) :
  available_secret available name = Some source → source ∈ available.
Proof. unfold available_secret. intros [H _]%find_some. by apply list_elem_of_In in H. Qed.

Lemma all_available_insert (available : BTreeSet str) (supplied : TextMap str)
    (target source : str) :
  all_available available supplied → source ∈ available →
  all_available available (tmap_insert target source supplied).
Proof.
  intros Hall Hs. unfold all_available in *.
  induction supplied as [|[k v] supplied IH]; cbn [tmap_insert]; intros t s.
  { rewrite list_elem_of_singleton. by intros [= -> ->]. }
  assert (Hk : v ∈ available) by (apply (Hall k); apply list_elem_of_here).
  assert (Htl : ∀ t s, (t, s) ∈ supplied → s ∈ available)
    by (intros t' s' H; apply (Hall t'); by apply list_elem_of_further).
  destruct (cmp target k); rewrite ?elem_of_cons.
  - intros [[= -> ->]|H]; [done|by apply (Htl t)].
  - intros [[= -> ->]|[[= -> ->]|H]]; [done..|by apply (Htl t)].
  - intros [[= -> ->]|H]; [done|]. by apply (IH Htl t).
Qed.

Lemma all_available_remove (available : BTreeSet str) (supplied : TextMap str) (key : str) :
  all_available available supplied → all_available available (tmap_remove key supplied).
Proof.
  intros Hall t s H. apply (Hall t). apply list_elem_of_In, filter_In in H as [H _].
  by apply list_elem_of_In.
Qed.

Lemma validate_secrets_available (call : ReusableWorkflowInvocation)
    (contract : WorkflowInvocationContract) (available : BTreeSet str)
    (secrets : list ExpandedReusableSecret) (secret : ExpandedReusableSecret) :
  validate_secrets call contract available = Ok secrets → secret ∈ secrets →
  expanded_secret_source secret ∈ available.
Proof.
  unfold validate_secrets. intros H. apply bind_Ok_inv in H as (supplied & Hsup & H).
  apply bind_Ok_inv in H as ([] & _ & [= <-]).
  enough (all_available available supplied) as Hall.
  { intros ([t s] & -> & Hin)%list_elem_of_fmap. by apply (Hall t). }
  destruct (invocation_secrets call) as [bindings|span].
  - revert Hsup. apply (try_fold_inv (λ _ s, all_available available s)).
    { intros ? ? []%not_elem_of_nil. }
    intros _ binding t t' _ Ht Hmap. unfold map_secret in Hmap. ok_inv.
    apply all_available_insert; [done|]. by eapply available_secret_in.
  - injection Hsup as <-.
    assert (Hinh : ∀ l m, (∀ x, x ∈ l → x ∈ available) → all_available available m →
              all_available available (foldl (λ m source, tmap_insert source source m) m l)).
    { induction l as [|x l IH]; simpl; intros m Hl Hm; [done|]. apply IH.
      - intros y Hy. apply Hl. by apply list_elem_of_further.
      - apply all_available_insert; [done|]. apply Hl, list_elem_of_here. }
    assert (H0 : all_available available
              (foldl (λ m source, tmap_insert source source m) [] (elems available))).
    { apply Hinh; [done|]. intros ? ? []%not_elem_of_nil. }
    revert H0. generalize (foldl (λ m source, tmap_insert source source m) [] (elems available)).
    induction (contract_secrets contract) as [|d ds IH]; simpl; intros m Hm; [done|].
    apply IH. unfold inherit_secret. destruct (available_secret _ _) as [source|] eqn:E; [|done].
    apply all_available_insert; [by apply all_available_remove|]. by eapply available_secret_in.
Qed.

Section Authority.
Context {hasher : Sha256} (catalog : ReusableWorkflowCatalogResolver).
Context (maximum_depth : Z) (run_id : list Z).

Abbreviation secret_targets entry := (map expanded_secret_target (expanded_secrets entry)).

(** An entry below another takes no permission and no secret but the other's. *)
Definition below_entry (entry parent : ReusableWorkflowInvocationExpansion) : Prop :=
  expanded_parent_id entry = Some (expanded_id parent) ∧
  expanded_depth entry = expanded_depth parent + 1 ∧
  (∀ name, level_le (reusable_level (expanded_permissions entry) name)
             (reusable_level (expanded_permissions parent) name)) ∧
  (∀ secret, secret ∈ expanded_secrets entry → expanded_secret_source secret ∈ secret_targets parent).

(** The same for the workflow that is being unfolded, by its seed. *)
Definition below_seed (entry : ReusableWorkflowInvocationExpansion) (node : TraversalNode)
    (seed : MaterializedTraversalSeed) : Prop :=
  expanded_parent_id entry = Some (seed_id seed) ∧
  expanded_depth entry = node_depth node + 1 ∧
  (∀ name, level_le (reusable_level (expanded_permissions entry) name)
             (reusable_level (seed_permissions seed) name)) ∧
  (∀ secret, secret ∈ expanded_secrets entry →
     expanded_secret_source secret ∈ seed_available_secret_names seed).

Definition entries_linked (node : TraversalNode) (seed : MaterializedTraversalSeed)
    (entries : list ReusableWorkflowInvocationExpansion) : Prop :=
  ∀ entry, entry ∈ entries →
    node_depth node < expanded_depth entry ∧
    (below_seed entry node seed ∨ ∃ parent, parent ∈ entries ∧ below_entry entry parent).

Lemma entry_of_Ok (node : TraversalNode) (seed : MaterializedTraversalSeed)
    (entry : ReusableWorkflowInvocationExpansion) :
  entry_of run_id node seed = Ok entry →
  expanded_id entry = seed_id seed ∧ expanded_parent_id entry = seed_parent_id seed ∧
  expanded_depth entry = node_depth node ∧ expanded_permissions entry = seed_permissions seed ∧
  expanded_secrets entry = seed_secrets seed.
Proof.
  intros Hentry. apply bind_Ok_inv in Hentry as (jobs & _ & Hentry).
  by apply bind_Ok_inv in Hentry as ([] & _ & [= <-]).
Qed.

Lemma child_seed_Ok (node : TraversalNode) (seed child : MaterializedTraversalSeed)
    (edge : TraversalEdge) :
  child_seed run_id node seed edge = Ok child →
  seed_parent_id child = Some (seed_id seed) ∧
  (∀ name, level_le (reusable_level (seed_permissions child) name)
             (reusable_level (seed_permissions seed) name)) ∧
  (∀ secret, secret ∈ seed_secrets child →
     expanded_secret_source secret ∈ seed_available_secret_names seed) ∧
  seed_available_secret_names child = bset_from (map expanded_secret_target (seed_secrets child)).
Proof.
  unfold child_seed. intros H. apply bind_Ok_inv in H as (secrets & Hsecrets & H). ok_inv. simpl.
  split_and!; [done| | |done].
  - intros name. eapply level_le_trans; apply reduce_level_le.
  - intros secret. by eapply validate_secrets_available.
Qed.

Lemma tree_linked (chain : list str) (node : TraversalNode) (seed : MaterializedTraversalSeed)
    (entries : list ReusableWorkflowInvocationExpansion) :
  call_tree catalog maximum_depth run_id chain node seed entries →
  (∃ head below, entries = head :: below ∧ entry_of run_id node seed = Ok head) ∧
  entries_linked node seed (tail entries).
Proof.
  intros H. revert chain node seed entries H.
  apply (call_tree_ind' catalog maximum_depth run_id)
    with (P0 := λ _ node seed _ entries, entries_linked node seed entries).
  - intros chain node seed entry below _ _ Hentry _ Hlinked. split; [by exists entry, below|done].
  - intros chain node seed entry []%not_elem_of_nil.
  - done.
  - intros chain node seed job jobs call callee edge child sub below _ _ _ _ _ Hchild _
      [(head & tb & -> & Hhead) Hsub] _ Hbelow. simpl in Hsub.
    apply child_seed_Ok in Hchild as (Hparent & Hperm & Hsec & Havail).
    apply entry_of_Ok in Hhead as (Hid & Hpar & Hdep & Hper & Hse).
    intros entry. rewrite elem_of_app, elem_of_cons. intros [[->|Hin]|Hin].
    + rewrite Hdep. split; [simpl; lia|]. left. unfold below_seed. rewrite Hpar, Hparent, Hdep, Hper, Hse. by split_and!.
    + destruct (Hsub entry Hin) as [Hdeeper Hlinks].
      split; [simpl in Hdeeper; lia|]. right.
      destruct Hlinks as [(Hp & Hd & Hl & Hs)|(parent & Hp & Hlink)].
      * exists head. split; [set_solver|]. unfold below_entry. rewrite Hp, Hid, Hd, Hdep, Hper, Hse.
        split_and!; [done..|]. intros secret Hsecret. apply Hs in Hsecret. rewrite Havail in Hsecret.
        exact (proj1 (elem_of_bset_from _ _) Hsecret).
      * exists parent. split; [set_solver|done].
    + destruct (Hbelow entry Hin) as [Hdeeper [Hs|(parent & Hp & Hlink)]];
        (split; [done|]); [by left|right].
      exists parent. split; [set_solver|done].
Qed.

End Authority.

(** The name of a secret is handed down to an entry from a name of the root. *)
Inductive secret_origin (root_names : BTreeSet str)
    (entries : list ReusableWorkflowInvocationExpansion) :
    ReusableWorkflowInvocationExpansion → str → str → Prop :=
| origin_root entry root source :
    root ∈ entries → expanded_parent_id root = None →
    expanded_parent_id entry = Some (expanded_id root) → source ∈ root_names →
    secret_origin root_names entries entry source source
| origin_step entry parent secret name :
    parent ∈ entries → expanded_parent_id entry = Some (expanded_id parent) →
    secret ∈ expanded_secrets parent →
    secret_origin root_names entries parent (expanded_secret_source secret) name →
    secret_origin root_names entries entry (expanded_secret_target secret) name.

Section LedgerAuthority.
Context {hasher : Sha256} {encoding : PlanEncoding} {frontend : WorkflowFrontend}.
Context (request : ExpandReusableWorkflowRequest) (depth : Z).
Context (entries : list ReusableWorkflowInvocationExpansion).
Hypothesis unfolded : unfolds_to request depth entries.

(** What the entries of a ledger are below: the root, or each other. *)
Lemma ledger_linked :
  ∃ root below, entries = root :: below ∧
    expanded_parent_id root = None ∧ expanded_depth root = 0 ∧ expanded_secrets root = [] ∧
    (∀ name, level_le (reusable_level (expanded_permissions root) name)
               (reusable_level (request_root_permissions request) name)) ∧
    ∀ entry, entry ∈ below → 0 < expanded_depth entry ∧ ∃ parent, parent ∈ entries ∧
      expanded_parent_id entry = Some (expanded_id parent) ∧
      expanded_depth entry = expanded_depth parent + 1 ∧
      (∀ name, level_le (reusable_level (expanded_permissions entry) name)
                 (reusable_level (expanded_permissions parent) name)) ∧
      ∀ secret, secret ∈ expanded_secrets entry →
        parent = root ∧ expanded_secret_source secret ∈ request_root_secret_names request ∨
        expanded_secret_source secret ∈ map expanded_secret_target (expanded_secrets parent).
Proof.
  destruct unfolded as (root_path & plan_digest & _ & _ & Htree).
  apply tree_linked in Htree as [(root & below & Heq & Hroot) Hlinked].
  rewrite Heq in *. simpl in Hlinked. apply entry_of_Ok in Hroot as (Hid & Hpar & Hdep & Hper & Hse).
  exists root, below. rewrite Hpar, Hdep, Hper, Hse. split_and!; try done.
  { intros name. apply reduce_level_le. }
  intros entry Hin. destruct (Hlinked entry Hin) as [Hd Hlinks]. simpl in Hd. split; [done|].
  destruct Hlinks as [(Hp & Hdd & Hl & Hs)|(parent & Hp & Hpp & Hdd & Hl & Hs)].
  - exists root. rewrite Hper, Hdep, Hid, Hp. split_and!; [set_solver|done..|].
    intros secret Hsecret. left. split; [done|]. by apply Hs.
  - exists parent. split_and!; [set_solver|done..|]. intros secret Hsecret. right. by apply Hs.
Qed.

Lemma permissions_below_root (entry : ReusableWorkflowInvocationExpansion) (name : str) :
  entry ∈ entries →
  level_le (reusable_level (expanded_permissions entry) name)
    (reusable_level (request_root_permissions request) name).
Proof.
  destruct ledger_linked as (root & below & Heq & _ & Hrd & _ & Hroot & Hlinked).
  remember (Z.to_nat (expanded_depth entry)) as n eqn:En.
  revert entry En. induction n as [|n IH]; intros entry En Hin; rewrite Heq in Hin;
    apply elem_of_cons in Hin as [->|Hin]; try apply Hroot;
    destruct (Hlinked entry Hin) as (Hpos & parent & Hp & _ & Hd & Hl & _); [lia|].
  eapply level_le_trans; [apply Hl|]. apply IH; [lia|done].
Qed.

Lemma secrets_from_root (entry : ReusableWorkflowInvocationExpansion)
    (secret : ExpandedReusableSecret) :
  entry ∈ entries → secret ∈ expanded_secrets entry →
  ∃ name, name ∈ request_root_secret_names request ∧
    secret_origin (request_root_secret_names request) entries entry
      (expanded_secret_source secret) name.
Proof.
  destruct ledger_linked as (root & below & Heq & Hrp & Hrd & Hrs & _ & Hlinked).
  remember (Z.to_nat (expanded_depth entry)) as n eqn:En.
  revert entry secret En. induction n as [|n IH]; intros entry secret En Hin Hsecret;
    rewrite Heq in Hin; apply elem_of_cons in Hin as [->|Hin];
    try (rewrite Hrs in Hsecret; by apply not_elem_of_nil in Hsecret);
    destruct (Hlinked entry Hin) as (Hpos & parent & Hp & Hpp & Hd & _ & Hs); [lia|].
  destruct (Hs secret Hsecret) as [[-> Hname]|(s & Hs' & Hin')%list_elem_of_fmap].
  - exists (expanded_secret_source secret). split; [done|]. by apply origin_root with root.
  - destruct (IH parent s) as (name & Hname & Horigin); [lia|done..|].
    exists name. split; [done|]. rewrite Hs'. by apply origin_step with parent.
Qed.

Lemma parents_bound_children (entry parent : ReusableWorkflowInvocationExpansion) :
  NoDup (map expanded_id entries) → entry ∈ entries → parent ∈ entries →
  expanded_parent_id entry = Some (expanded_id parent) →
  expanded_depth entry = expanded_depth parent + 1 ∧
  ∀ name, level_le (reusable_level (expanded_permissions entry) name)
            (reusable_level (expanded_permissions parent) name).
Proof.
  intros Hnd Hin Hpin Hparent.
  destruct ledger_linked as (root & below & Heq & Hrp & _ & _ & _ & Hlinked).
  assert (entry ∈ below) as Hb.
  { rewrite Heq in Hin. apply elem_of_cons in Hin as [->|Hin]; [congruence|done]. }
  destruct (Hlinked entry Hb) as (_ & parent' & Hp & Hpp & Hd & Hl & _).
  rewrite Hparent in Hpp. injection Hpp as Hpp.
  by rewrite (NoDup_fmap_inj expanded_id entries parent parent') by done.
Qed.
End LedgerAuthority.
