(* ===== verification/ReusableAnswers.v ===== *)
(** * ReusableAnswers: compiling a catalog and expanding calls always answers

    No index is out of bounds and no recursion without end: the counters that
    the loop of [catalog_compile_reachable] and the traversal recurse on are
    never used up. Then the properties of the three files. *)

From stdpp Require Import gmap.
From S2P Require Import Prelude Text Capability ManagedSecret WorkflowTemplate WorkflowStrategy.
From S2P Require Import RuntimeContext WorkflowLogical WorkflowGraph Permission PlanEquality.
From S2P Require Import ReusableWorkflow ReusableExpansion ReusableCallTree ReusableTheorems.

Open Scope Z_scope.

(** ** Answers *)

(** A result that is a value or an error of the code. *)
Definition answers {A : Type} (m : result ReuseFailure A) : Prop :=
  ∀ failure, m = Err failure → ∃ error, failure = ReuseRejected error.

Create HintDb answers.

Lemma answers_Ok {A : Type} (a : A) : answers (Ok a).
Proof. done. Qed.
Lemma answers_Err {A : Type} (e : ReusableWorkflowExpansionError) :
  answers (Err (ReuseRejected e) : result ReuseFailure A).
Proof. intros failure [= <-]. by exists e. Qed.
Lemma tree_answers_reject (c : bool) (e : ReusableWorkflowExpansionError) :
  answers (reject c (ReuseRejected e)).
Proof. destruct c; [apply answers_Err|done]. Qed.
Lemma answers_reuse_reject (c : bool) (e : ReusableWorkflowExpansionError) :
  answers (reuse_reject c e).
Proof. apply tree_answers_reject. Qed.
Lemma answers_ok_or {A : Type} (o : option A) (e : ReusableWorkflowExpansionError) :
  answers (ok_or o (ReuseRejected e)).
Proof. destruct o; [done|apply answers_Err]. Qed.
Lemma tree_answers_bind {A B : Type} (m : result ReuseFailure A) (k : A → result ReuseFailure B) :
  answers m → (∀ a, answers (k a)) → answers (a ← m; k a).
Proof. intros Hm Hk. destruct m as [a|e]; [apply Hk|]. intros failure [= <-]. by apply Hm. Qed.
Lemma answers_try_map {A B : Type} (f : A → result ReuseFailure B) (l : list A) :
  (∀ a, answers (f a)) → answers (try_map f l).
Proof.
  intros Hf. induction l as [|a l IH]; simpl; [done|].
  apply tree_answers_bind; [done|]. intros b. apply tree_answers_bind; [done|]. intros bs. done.
Qed.
Lemma answers_try_fold {A S : Type} (f : S → A → result ReuseFailure S) (l : list A) (s : S) :
  (∀ s a, answers (f s a)) → answers (try_fold f s l).
Proof.
  intros Hf. revert s. induction l as [|a l IH]; simpl; intros s; [done|].
  apply tree_answers_bind; [done|]. intros t. apply IH.
Qed.
Lemma answers_try_for {A : Type} (f : A → result ReuseFailure unit) (l : list A) :
  (∀ a, answers (f a)) → answers (try_for f l).
Proof.
  intros Hf. induction l as [|a l IH]; simpl; [done|]. apply tree_answers_bind; [done|]. by intros [].
Qed.

#[export] Hint Resolve answers_Ok answers_Err tree_answers_reject answers_reuse_reject answers_ok_or
  : answers.

(** Goes down a term that is made of the operations above. *)
Ltac answer :=
  cbv zeta;
  lazymatch goal with
  | |- answers (mbind _ _) => apply tree_answers_bind; [answer|let x := fresh "x" in intros x; answer]
  | |- answers (match ?x with _ => _ end) => destruct x; answer
  | |- answers (try_map _ _) => apply answers_try_map; intros ?; answer
  | |- answers (try_fold _ _ _) => apply answers_try_fold; intros ? ?; answer
  | |- answers (try_for _ _) => apply answers_try_for; intros ?; answer
  | |- _ => eauto with answers
  end.

Lemma answers_canonical_path (value : str) (location : RepositoryWorkflowLocation) :
  answers (canonical_workflow_path value location).
Proof.
  unfold canonical_workflow_path, validate_reusable_workflow_path_bytes. answer.
Qed.

Lemma answers_local_reference (reference : str) (location : RepositoryWorkflowLocation) :
  answers (resolve_local_reference reference location).
Proof.
  unfold resolve_local_reference. answer. destruct (canonical_workflow_path _ _); simpl; answer.
Qed.

Lemma answers_coordinate (value : str) : answers (validate_coordinate value).
Proof.
  unfold validate_coordinate, validate_reusable_repository_coordinate_bytes. answer.
Qed.

Lemma answers_origin (plan : WorkflowPlan) (authority : CatalogSourceAuthority)
    (identity : CatalogSourceIdentity) (path : str) :
  answers (validate_plan_origin plan authority identity path).
Proof. unfold validate_plan_origin. answer. Qed.

#[export] Hint Resolve answers_canonical_path answers_local_reference answers_coordinate
  answers_origin : answers.

Section Compilation.
Context {hasher : Sha256} {encoding : PlanEncoding} {frontend : WorkflowFrontend}.

Lemma answers_digest_plan (plan : WorkflowPlan) : answers (digest_plan plan).
Proof. unfold digest_plan. answer. Qed.
#[local] Hint Resolve answers_digest_plan : answers.

Lemma answers_compile_source (repository : str) (revision : GitObjectId) (path : str)
    (source : list Z) (selection : ReusableCompilationSelection) :
  answers (compile_source repository revision path source selection).
Proof. unfold compile_source. answer. Qed.
#[local] Hint Resolve answers_compile_source : answers.

Lemma answers_compile_entry (repository : str) (revision : GitObjectId) (path : str)
    (source : list Z) : answers (compile_entry repository revision path source).
Proof. unfold compile_entry, compile_reusable_source. answer. Qed.
#[local] Hint Resolve answers_compile_entry : answers.

Lemma length_tmap_insert {V : Type} (m : TextMap V) (key : str) (value : V) :
  tmap_contains_key m key = false → length (tmap_insert key value m) = S (length m).
Proof.
  unfold tmap_contains_key. induction m as [|[k v] m IH]; cbn [tmap_insert]; [done|].
  rewrite tmap_get_cons. case_bool_decide as Hk; [done|]. intros Hget.
  destruct (cmp key k) eqn:E; simpl; [by apply cmp_eq_iff in E|done|by rewrite IH].
Qed.

(** A new entry takes one unit, and there are at most fifty. *)
Lemma reachable_answers (fuel : nat) (repository : str) (revision : GitObjectId)
    (root_path : str) (available : TextMap (list Z)) (pending : list str)
    (entries : TextMap CatalogedReusableWorkflow) :
  MAX_REUSABLE_WORKFLOW_CATALOG_ENTRIES ≤ Z.of_nat fuel + len entries →
  answers (reachable_loop fuel repository revision root_path available pending entries).
Proof.
  revert pending entries.
  induction fuel as [|fuel IH]; (induction pending as [|reference pending IHp]; intros entries Hfuel;
    simpl; [done|]; apply tree_answers_bind; [apply answers_local_reference|]; intros path;
    destruct (str_eqb path root_path); [apply answers_Err|];
    destruct (tmap_contains_key entries path) eqn:Hnew; [by apply IHp|]).
  - unfold checked_add. destruct (_ <=? u64_max); simpl; [|apply answers_Err].
    unfold validate_reusable_catalog_entry_count, reuse_reject.
    assert ((MAX_REUSABLE_WORKFLOW_CATALOG_ENTRIES <? len entries + 1) = true) as ->
      by (apply Z.ltb_lt; lia).
    apply answers_Err.
  - answer. 1: unfold validate_reusable_catalog_entry_count; answer.
    apply IH. unfold len in *. rewrite length_tmap_insert by done. lia.
Qed.

Lemma compile_reachable_answers (repository : str) (revision : GitObjectId)
    (root_plan : WorkflowPlan) (sources : list RepositoryWorkflowSource) :
  answers (catalog_compile_reachable repository revision root_plan sources).
Proof.
  unfold catalog_compile_reachable. answer.
  - unfold collect_source. answer.
  - apply reachable_answers. unfold reachable_fuel, len. simpl. lia.
Qed.

End Compilation.

(** ** The traversal *)

Definition answers_at {S A : Type} (m : stM S ReuseFailure A) (s : S) : Prop :=
  answers (m s).2.

Lemma answers_at_bind {S A B : Type} (m : stM S ReuseFailure A) (k : A → stM S ReuseFailure B) (s : S) :
  answers_at m s → (∀ t a, m s = (t, Ok a) → answers_at (k a) t) → answers_at (a ← m; k a) s.
Proof.
  unfold answers_at, mbind, stM_bind. destruct (m s) as [t [a|e]]; simpl; [naive_solver|].
  intros Hm _ failure [= <-]. by apply Hm.
Qed.

Lemma answers_at_lift {S A : Type} (m : result ReuseFailure A) (s : S) : answers m → answers_at (liftM m) s.
Proof. done. Qed.

Lemma answers_at_fold {S A X : Type} (f : X → A → stM S ReuseFailure X) (l : list A) :
  (∀ x a s, answers_at (f x a) s) → ∀ x s, answers_at (fold_st f x l) s.
Proof.
  intros Hf. induction l as [|a l IH]; intros x s; simpl; [done|].
  apply answers_at_bind; [done|]. intros t y _. apply IH.
Qed.

Section Policy.
Context {hasher : Sha256}.

Lemma answers_logical_id (value : list Z) : answers (logical_id value).
Proof. unfold logical_id. answer. Qed.
#[local] Hint Resolve answers_logical_id : answers.

Lemma answers_job_identity (run_id invocation_id : list Z) (root : bool) (key : str) :
  answers (job_identity run_id invocation_id root key).
Proof.
  unfold job_identity, derived_root_job_id, derived_job_id, logical_job_id. answer.
Qed.
#[local] Hint Resolve answers_job_identity : answers.

Lemma answers_secrets (call : ReusableWorkflowInvocation) (contract : WorkflowInvocationContract)
    (available : BTreeSet str) : answers (validate_secrets call contract available).
Proof. unfold validate_secrets, map_secret. answer. Qed.
#[local] Hint Resolve answers_secrets : answers.

Lemma answers_edge (catalog : ReusableWorkflowCatalogResolver) (job : LogicalJobTemplate)
    (call : ReusableWorkflowInvocation) (callee : ResolvedCatalogEntry) :
  answers (checked_edge catalog job call callee).
Proof.
  unfold checked_edge, validate_inputs, supplied_input, bound_input, validate_call_outputs,
    call_output. answer.
Qed.

Lemma answers_enter (node : TraversalNode) (seed : MaterializedTraversalSeed)
    (c : ExpansionContext) : answers_at (materialized_enter node seed) c.
Proof.
  unfold materialized_enter, expanded_jobs.
  apply answers_at_bind.
  - apply answers_at_bind.
    + apply answers_at_fold. intros ids job s. unfold identify_job.
      apply answers_at_bind; [done|]. intros t a _.
      apply answers_at_bind; [apply answers_at_lift; answer|]. intros t' a' _.
      apply answers_at_bind; [done|]. intros t'' a'' _.
      apply answers_at_bind; [apply answers_at_lift; answer|]. done.
    + intros t ids _. apply answers_at_lift. unfold expand_job. answer.
  - intros t jobs _. apply answers_at_bind; [done|]. intros t' a _.
    apply answers_at_bind; [apply answers_at_lift; answer|]. intros t'' a' _.
    by apply answers_at_bind.
Qed.

Lemma answers_prepare (state : MaterializedTraversalState) (edge : TraversalEdge)
    (c : ExpansionContext) (entry : ReusableWorkflowInvocationExpansion) :
  context_invocations c !! state_invocation_index state = Some entry →
  answers_at (materialized_prepare state edge) c.
Proof.
  intros Hindex. unfold materialized_prepare.
  apply answers_at_bind; [apply answers_at_lift; answer|]. intros t secrets [-> _]%liftM_Ok.
  apply answers_at_bind; [done|]. intros t a [= <- <-]. rewrite Hindex.
  apply answers_at_bind; [done|]. intros t a _.
  apply answers_at_bind; [apply answers_at_lift; answer|]. intros t' a' _.
  apply answers_at_bind; [apply answers_at_lift; unfold derived_invocation_id; answer|]. intros t1 a1 _.
  apply answers_at_bind; [done|]. intros t2 a2 _.
  by apply answers_at_bind; [apply answers_at_lift; answer|].
Qed.

(** ** Enough fuel *)

Context (catalog : ReusableWorkflowCatalogResolver).
Context (limits : ReusableWorkflowLimits) (run_id : list Z).
Hypothesis invocations_u64 : maximum_invocations limits ≤ u64_max.
Hypothesis jobs_u64 : maximum_jobs limits ≤ u64_max.
Hypothesis resolve_answers : ∀ reference, answers (catalog_resolve reference).

Abbreviation never := (λ _ : nat, false).
Abbreviation traverse := (traverse_reusable_invocation catalog never).

Definition answers_below (recurse : TraversalNode → MaterializedTraversalSeed →
    stM (TraversalWorld ExpansionContext) ReuseFailure unit) (depth : Z) : Prop :=
  ∀ node seed w chain, node_depth node = depth → well_placed limits run_id w chain →
    fits limits w [] → answers_at (recurse node seed) w.

Lemma run_policy_answers {A : Type} (m : stM ExpansionContext ReuseFailure A)
    (w : TraversalWorld ExpansionContext) :
  answers_at m (world_policy w) → answers_at (run_policy m) w.
Proof. unfold answers_at, run_policy. by destruct (m _). Qed.

Lemma active_path_answers {A : Type} (path : str)
    (m : stM (TraversalWorld ExpansionContext) ReuseFailure A)
    (w : TraversalWorld ExpansionContext) :
  answers_at m (set_paths (path :: active_paths w) w) → answers_at (with_active_path path m) w.
Proof. unfold answers_at, with_active_path. by destruct (m _). Qed.

Lemma visit_answers (fuel : nat) (node : TraversalNode) (seed : MaterializedTraversalSeed)
    (index : nat) (entry : ReusableWorkflowInvocationExpansion) (job : LogicalJobTemplate)
    (w : TraversalWorld ExpansionContext) (chain : list str) :
  answers_below (traverse fuel) (node_depth node + 1) →
  well_placed limits run_id w chain → fits limits w [] → job ∈ jobs_of node →
  context_invocations (world_policy w) !! index = Some entry →
  entry_of run_id node seed = Ok entry →
  answers_at (visit_job catalog never (traverse fuel) node (state_of index seed) job) w.
Proof.
  intros Hrec Hw Hfit Hjob Hindex Hentry. unfold visit_job.
  apply answers_at_bind; [done|]. intros w0 [] Hpoll%check_cancelled_Ok.
  assert (Hsame : progress limits w w0 [] []) by (subst w0; by eapply progress_same).
  clear Hpoll. pose proof (progress_placed _ run_id _ _ _ _ _ Hsame Hw) as Hw0.
  pose proof (progress_fits _ _ _ _ _ Hsame) as Hf0.
  apply (progress_lookup _ _ _ _ _ _ _ Hsame) in Hindex.
  destruct (job_execution job) as [steps|call]; [done|].
  apply answers_at_bind; [apply answers_at_lift; answer|]. intros x [] [-> _]%liftM_Ok.
  apply answers_at_bind; [apply answers_at_lift, resolve_answers|]. intros x callee [-> _]%liftM_Ok.
  apply answers_at_bind.
  { apply answers_at_bind; [done|]. intros t a _. apply answers_at_lift. answer. }
  intros x [] [-> _]%check_inactive_Ok.
  apply answers_at_bind; [apply answers_at_lift, answers_edge|]. intros x edge [-> Hedge]%liftM_Ok.
  assert (edge_job edge = job) as Hej by (unfold checked_edge in Hedge; by ok_inv).
  apply answers_at_bind; [by apply run_policy_answers, (answers_prepare _ _ _ entry)|].
  intros w1 prepared (c1 & Hprep & Hw1)%run_policy_Ok.
  pose proof Hw0 as (Hrun & Hl & Hch & Hpos).
  apply (prepare_Ok run_id node seed index entry) in Hprep
    as (child & Hchild & Hfresh & -> & ->); [|done|done|done|by rewrite Hej].
  assert (Hstep : progress limits w0 w1 [seed_id child] []).
  { subst w1. split_and!; [done|done|]. unfold advanced, entry_jobs, len. simpl.
    rewrite !Z.add_0_r, <- Hl. by destruct (world_counts w0). }
  apply answers_at_bind.
  - apply (Hrec _ _ _ chain); [done|by apply (progress_placed _ run_id _ _ _ _ _ Hstep)|].
    by apply (progress_fits _ _ _ _ _ Hstep).
  - done.
Qed.

Lemma visit_jobs_answer (fuel : nat) (node : TraversalNode) (seed : MaterializedTraversalSeed)
    (index : nat) (entry : ReusableWorkflowInvocationExpansion) (jobs : list LogicalJobTemplate)
    (w : TraversalWorld ExpansionContext) (chain : list str) :
  answers_below (traverse fuel) (node_depth node + 1) →
  entry_of run_id node seed = Ok entry → (∀ job, job ∈ jobs → job ∈ jobs_of node) →
  well_placed limits run_id w chain → fits limits w [] →
  context_invocations (world_policy w) !! index = Some entry →
  answers_at (fold_st (visit_job catalog never (traverse fuel) node) (state_of index seed) jobs) w.
Proof.
  intros Hrec Hentry. revert w.
  induction jobs as [|job jobs IH]; intros w Hjobs Hw Hfit Hindex; simpl; [done|].
  apply answers_at_bind.
  { eapply visit_answers; eauto. apply Hjobs, list_elem_of_here. }
  intros w1 state Hvisit.
  destruct (visit_jobs_sound catalog limits run_id (traverse fuel) node seed index entry
              (traverse_sound catalog limits run_id invocations_u64 jobs_u64 fuel) Hentry [job]
              w w1 chain state) as (below & _ & -> & Hprog); try done.
  { intros j ->%list_elem_of_singleton. apply Hjobs, list_elem_of_here. }
  { simpl. apply bind_st_Ok. by exists w1, state. }
  apply IH.
  - intros j Hj. apply Hjobs. by apply list_elem_of_further.
  - by apply (progress_placed _ run_id _ _ _ _ _ Hprog).
  - by apply (progress_fits _ _ _ _ _ Hprog).
  - by apply (progress_lookup _ _ _ _ _ _ _ Hprog).
Qed.

(** One call per level that is left, and one that is refused. *)
Lemma traverse_answers (fuel : nat) (depth : Z) :
  depth ≤ maximum_depth limits + 1 → maximum_depth limits + 2 - depth ≤ Z.of_nat fuel →
  answers_below (traverse fuel) depth.
Proof.
  revert depth. induction fuel as [|fuel IH]; intros depth Hdepth Hfuel node seed w chain Hnode Hw Hfit;
    [lia|]. simpl.
  apply answers_at_bind; [done|]. intros w0 [] Hpoll%check_cancelled_Ok.
  assert (Hsame : progress limits w w0 [] []) by (subst w0; by eapply progress_same).
  clear Hpoll. pose proof (progress_placed _ run_id _ _ _ _ _ Hsame Hw) as Hw0.
  pose proof Hw0 as (Hrun & Hl & Hch & Hpos & Hpos').
  apply answers_at_bind.
  { unfold count_node. apply answers_at_bind; [done|]. intros t a _.
    repeat (apply answers_at_bind; [first [done|apply answers_at_lift; answer]|intros ? ? _]).
    apply answers_at_lift. unfold validate_reusable_workflow_job_count. answer. }
  intros w1 [] (Hd & Hi & Hj & ->)%(count_node_Ok limits run_id invocations_u64 jobs_u64 _ _ _ chain);
    [|done].
  apply answers_at_bind.
  { apply answers_at_bind; [done|]. intros t a _. apply answers_at_lift. answer. }
  intros x [] [-> Hno]%check_inactive_Ok.
  apply active_path_answers. match goal with |- answers_at _ ?x => set (w5 := x) end.
  unfold visit_node. apply answers_at_bind; [apply run_policy_answers, answers_enter|].
  intros w6 state (c & Henter & ->)%run_policy_Ok. simpl in Henter.
  apply (enter_Ok run_id) in Henter as (entry & Hentry & Hfresh & -> & ->); [|done].
  assert (Hnn : 0 ≤ len (jobs_of node)) by (unfold len; lia).
  apply answers_at_bind; [|done]. fold (jobs_of node).
  apply (visit_jobs_answer _ _ _ _ entry) with (chain := node_workflow_path node :: chain); try done.
  - apply IH; lia.
  - unfold well_placed, w5, set_paths, set_counts. simpl. rewrite Hch. split_and!; try done; lia.
  - unfold fits, w5, entry_jobs, len in *. simpl. lia.
  - simpl. by rewrite lookup_app_r, Nat.sub_diag by done.
Qed.

End Policy.

Section Expansion.
Context {hasher : Sha256} {encoding : PlanEncoding} {frontend : WorkflowFrontend}.

Lemma github_resolve_answers (catalog : GithubReusableWorkflowCatalog) (reference : str) :
  answers (catalog_resolve (ReusableWorkflowCatalogResolver := github_catalog_resolver catalog)
             reference).
Proof. simpl. answer. Qed.

Lemma check_root_source_answers (request : ExpandReusableWorkflowRequest) : answers (check_root_source request).
Proof.
  unfold check_root_source, validate_reusable_workflow_source_bytes, recompile_root_source. answer.
  pose proof (answers_compile_source (catalog_repository (request_catalog request))
    (catalog_revision (request_catalog request)) x (request_root_source request)
    (GithubPreselected (workflow_event (request_root_plan request)))) as H.
  destruct (compile_source _ _ _ _ _) as [plan|e]; simpl; [done|].
  destruct (H e eq_refl) as (error & ->). destruct error; apply answers_Err.
Qed.

Lemma expansion_digest_answers (run_id root_id : list Z)
    (entries : list ReusableWorkflowInvocationExpansion) :
  answers (expansion_digest run_id root_id entries).
Proof.
  unfold expansion_digest, expansion_bytes, hash_invocation, hash_inputs, hash_input, hash_source. answer.
Qed.

Lemma expand_answers (depth invocations jobs : Z) (limits : ReusableWorkflowLimits)
    (request : ExpandReusableWorkflowRequest) :
  0 ≤ depth → 0 ≤ invocations → 0 ≤ jobs →
  reusable_limits_new depth invocations jobs = Ok limits →
  answers (expand_reusable_workflow request limits).
Proof.
  intros Hd0 Hi0 Hj0 (-> & Hi & Hj)%limits_new_Ok. unfold expand_reusable_workflow.
  apply tree_answers_bind; [apply check_root_source_answers|]. intros root_path.
  apply tree_answers_bind; [apply answers_digest_plan|]. intros plan_digest.
  set (limits := MkReusableLimits depth invocations jobs).
  pose proof (traverse_answers (github_catalog_resolver (request_catalog request)) limits
    (request_run_id request) ltac:(simpl; unfold u64_max; lia) ltac:(simpl; unfold u64_max; lia)
    (github_resolve_answers _) (traversal_fuel limits) 0 ltac:(simpl; lia)
    ltac:(unfold traversal_fuel; simpl; lia) (root_node request root_path plan_digest)
    (root_seed request) (root_world request limits) [] eq_refl ltac:(by split_and!)
    ltac:(by split)) as H.
  unfold answers_at in H. destruct (traverse_reusable_invocation _ _ _ _ _ _) as [w outcome].
  apply tree_answers_bind; [exact H|]. intros []. apply tree_answers_bind; [apply expansion_digest_answers|].
  done.
Qed.

Lemma compile_answers (repository : str) (revision : GitObjectId)
    (sources : list RepositoryWorkflowSource) :
  answers (catalog_compile repository revision sources).
Proof.
  unfold catalog_compile, catalog_source, validate_reusable_catalog_entry_count,
    validate_reusable_workflow_source_bytes. answer. apply answers_compile_entry.
Qed.

End Expansion.

(** ** An example *)

Definition example_revision : GitObjectId := MkGitObject GitSha1 [1; 2; 3].

Definition example_workflow (path : str) (contract : option WorkflowInvocationContract)
    (permissions : option PermissionSnapshotRequest) (jobs : list LogicalJobTemplate) :
    WorkflowPlan :=
  MkWorkflowPlan plan_version_current
    (MkSourceProvenance (lit "github") path
       (OriginRepository (lit "acme/app") example_revision path))
    (MkEventProvenance (lit "github") (lit "push") None None None None None) None
    (MkLogicalPlan contract None permissions value_map_default run_defaults_default None jobs
       example_span) example_span.

(** Publishes with a token, and may only read. *)
Definition example_callee : WorkflowPlan :=
  example_workflow (lit ".ci/workflows/publish.yml")
    (Some (MkInvocationContract []
             [MkInvocationSecret (here (lit "TOKEN")) true None example_span] [] example_span))
    (Some (MkPermissionRequest (ReadAll example_span) example_span))
    [example_job 0 (lit "publish") []].

Definition example_call : LogicalJobTemplate :=
  MkJob (here (lit "release")) 1 None [here (lit "build")] [] None None None None value_map_default
    run_defaults_default None None [] None
    (JobReusableWorkflow
       (MkReusableInvocation (here (lit "./.ci/workflows/publish.yml")) []
          (SecretMapping [MkReusableSecretBinding (here (lit "TOKEN")) (here (lit "deploy_key"))])
          example_span)) example_span.

Definition example_caller : WorkflowPlan :=
  example_workflow (lit ".ci/workflows/main.yml") None None
    [example_job 0 (lit "build") []; example_call].

(** The front end that knows the two sources by their first byte. *)
Definition example_frontend : WorkflowFrontend := {|
  WorkflowSourcePlan := WorkflowPlan;
  frontend_parse _ _ _ source :=
    MkOutcome (Some (if bool_decide (source = lit "main") then example_caller else example_callee))
      true [];
  compile_preselected plan _ := MkOutcome (Some plan) true [];
  compile_for_event plan _ := MkOutcome (Some plan) true []
|}.

Definition example_plan_encoding : PlanEncoding := {|
  plan_to_vec plan := Some (as_bytes (source_identity (workflow_source plan)));
  template_to_vec _ := Some [];
  input_default_to_vec _ := Some []
|}.

Definition example_sources : list RepositoryWorkflowSource :=
  [MkWorkflowSource (lit ".ci/workflows/publish.yml") (lit "publish");
   MkWorkflowSource (lit ".ci/workflows/unused.yml") (lit "unused")].

Definition example_catalog : GithubReusableWorkflowCatalog :=
  match catalog_compile_reachable (hasher := demo_sha256) (frontend := example_frontend)
          (encoding := example_plan_encoding) (lit "acme/app") example_revision example_caller
          example_sources with
  | Ok catalog => catalog
  | Err _ => MkGithubCatalog [] example_revision []
  end.

Definition example_request : ExpandReusableWorkflowRequest :=
  MkExpandRequest [1] [2] (lit ".ci/workflows/main.yml") (lit "main") example_caller
    example_catalog (bset_from [lit "DEPLOY_KEY"; lit "OTHER"])
    (MkReusablePermissions PermissionWrite []).

Definition example_expansion : ReusableWorkflowExpansion :=
  match expand_reusable_workflow (hasher := demo_sha256) (frontend := example_frontend)
          (encoding := example_plan_encoding) example_request reusable_limits_default with
  | Ok expansion => expansion
  | Err _ => MkExpansion [] [] [] []
  end.

Lemma example_expands :
  expand_reusable_workflow (hasher := demo_sha256) (frontend := example_frontend)
    (encoding := example_plan_encoding) example_request reusable_limits_default =
  Ok example_expansion.
Proof. vm_compute. reflexivity. Qed.

(** The ledger: the root, and the call with its one secret. *)
Example example_ledger :
  map (λ entry, (expanded_depth entry, expanded_path entry, expanded_secrets entry))
    (expansion_invocations example_expansion) =
  [(0, lit ".ci/workflows/main.yml", []);
   (1, lit ".ci/workflows/publish.yml",
    [MkExpandedSecret (lit "TOKEN") (lit "DEPLOY_KEY")])] ∧
  len (catalog_entries example_catalog) = 1.
Proof. split; vm_compute; reflexivity. Qed.

(** ** Properties *)

(** C16: The expansion of a workflow is its tree of calls. Under validated limits
    it succeeds exactly when the root's source compiles to its plan, the calls
    unfold (each local and catalogued, not below itself, with bindings its
    callee declares), no deeper than the limit, into invocations and jobs with
    distinct identities that are not too many; and the ledger it returns lists,
    parents first and in the order of the jobs, exactly these invocations. *)
Theorem expansion_is_the_call_tree {hasher : Sha256} {encoding : PlanEncoding}
    {frontend : WorkflowFrontend} (depth invocations jobs : Z) (limits : ReusableWorkflowLimits)
    (request : ExpandReusableWorkflowRequest) (expansion : ReusableWorkflowExpansion) :
  0 ≤ invocations → 0 ≤ jobs → reusable_limits_new depth invocations jobs = Ok limits →
  expand_reusable_workflow request limits = Ok expansion ↔
  ∃ entries digest,
    unfolds_to request depth entries ∧
    NoDup (map expanded_id entries) ∧ NoDup (entries ≫= job_ids_of) ∧
    len entries ≤ invocations ∧ entry_jobs entries ≤ jobs ∧
    expansion_digest (request_run_id request) (request_root_invocation_id request) entries =
      Ok digest ∧
    expansion = MkExpansion (request_run_id request) (request_root_invocation_id request) digest
                  entries.
Proof. apply expand_ledger. Qed.

Lemma expansion_is_the_call_tree_witness :
  unfolds_to (hasher := demo_sha256) (frontend := example_frontend)
    (encoding := example_plan_encoding) example_request 9
    (expansion_invocations example_expansion).
Proof.
  destruct (proj1 (expansion_is_the_call_tree (hasher := demo_sha256)
                     (frontend := example_frontend) (encoding := example_plan_encoding) 9 256 4096
                     reusable_limits_default example_request example_expansion
                     ltac:(lia) ltac:(lia) eq_refl) example_expands)
    as (entries & digest & H & _ & _ & _ & _ & _ & ->).
  exact H.
Defined.

(** C17: Authority never grows down the calls of an expansion. No invocation has
    a permission beyond those the run was given, nor beyond those of the
    invocation that calls it, which is one level above; and every secret of an
    invocation is handed down, call by call, from a secret name of the root. *)
Theorem authority_never_grows {hasher : Sha256} {encoding : PlanEncoding}
    {frontend : WorkflowFrontend} (depth invocations jobs : Z) (limits : ReusableWorkflowLimits)
    (request : ExpandReusableWorkflowRequest) (expansion : ReusableWorkflowExpansion)
    (entry : ReusableWorkflowInvocationExpansion) :
  0 ≤ invocations → 0 ≤ jobs → reusable_limits_new depth invocations jobs = Ok limits →
  expand_reusable_workflow request limits = Ok expansion →
  entry ∈ expansion_invocations expansion →
  (∀ name, level_le (reusable_level (expanded_permissions entry) name)
             (reusable_level (request_root_permissions request) name)) ∧
  (∀ parent, parent ∈ expansion_invocations expansion →
     expanded_parent_id entry = Some (expanded_id parent) →
     expanded_depth entry = expanded_depth parent + 1 ∧
     ∀ name, level_le (reusable_level (expanded_permissions entry) name)
               (reusable_level (expanded_permissions parent) name)) ∧
  (∀ secret, secret ∈ expanded_secrets entry →
     ∃ name, name ∈ request_root_secret_names request ∧
       secret_origin (request_root_secret_names request) (expansion_invocations expansion) entry
         (expanded_secret_source secret) name).
Proof.
  intros Hi0 Hj0 Hlimits Hexpand.
  apply (expand_ledger _ _ _ _ _ _ Hi0 Hj0 Hlimits) in Hexpand
    as (entries & digest & Hun & Hnd & _ & _ & _ & _ & ->). simpl. intros Hin.
  split_and!.
  - intros name. by eapply permissions_below_root.
  - intros parent Hp Hpar. by eapply parents_bound_children.
  - intros secret. by eapply secrets_from_root.
Qed.

(** The called workflow of the example. *)
Definition example_called : ReusableWorkflowInvocationExpansion :=
  match expansion_invocations example_expansion with
  | [_; called] => called
  | _ => MkInvocation [] None None 0 [] [] [] (MkReusablePermissions PermissionNone []) [] [] [] [] []
  end.

Lemma authority_never_grows_witness :
  level_le (reusable_level (expanded_permissions example_called) (lit "contents"))
    (reusable_level (request_root_permissions example_request) (lit "contents")) ∧
  ∃ name, name ∈ request_root_secret_names example_request ∧
    secret_origin (request_root_secret_names example_request)
      (expansion_invocations example_expansion) example_called (lit "DEPLOY_KEY") name.
Proof.
  assert (example_called ∈ expansion_invocations example_expansion) as Hin.
  { apply (list_elem_of_lookup_2 _ 1). vm_compute. reflexivity. }
  destruct (authority_never_grows (hasher := demo_sha256) (frontend := example_frontend)
              (encoding := example_plan_encoding) 9 256 4096 reusable_limits_default
              example_request example_expansion example_called ltac:(lia) ltac:(lia) eq_refl
              example_expands Hin) as (Hlevel & _ & Hsecret).
  split; [apply Hlevel|].
  apply (Hsecret (MkExpandedSecret (lit "TOKEN") (lit "DEPLOY_KEY"))). vm_compute.
  apply list_elem_of_here.
Defined.

(** C24: Compiling the workflows a plan reaches and expanding its calls always
    come to an answer: a catalog, a ledger or an error of the code. Cyclic or
    endless calls, whatever the repository holds, neither exhaust the traversal
    nor take it to an entry that is not there. *)
Theorem expansions_always_answer {hasher : Sha256} {encoding : PlanEncoding}
    {frontend : WorkflowFrontend} :
  (∀ repository revision sources failure,
     catalog_compile repository revision sources = Err failure →
     ∃ error, failure = ReuseRejected error) ∧
  (∀ repository revision root_plan sources failure,
     catalog_compile_reachable repository revision root_plan sources = Err failure →
     ∃ error, failure = ReuseRejected error) ∧
  (∀ depth invocations jobs limits request failure,
     0 ≤ depth → 0 ≤ invocations → 0 ≤ jobs →
     reusable_limits_new depth invocations jobs = Ok limits →
     expand_reusable_workflow request limits = Err failure →
     ∃ error, failure = ReuseRejected error).
Proof.
  split_and!.
  - intros repository revision sources. apply compile_answers.
  - intros repository revision root_plan sources. apply compile_reachable_answers.
  - intros depth invocations jobs limits request failure Hd Hi Hj Hlimits.
    by apply (expand_answers depth invocations jobs).
Qed.

(** A workflow that calls itself. *)
Definition example_recursive : WorkflowPlan :=
  example_workflow (lit ".ci/workflows/publish.yml") None None [example_call].

Lemma expansions_always_answer_witness :
  ∃ error, ReuseRejected (ReuseCycle (lit ".ci/workflows/publish.yml")) = ReuseRejected error.
Proof.
  destruct (expansions_always_answer (hasher := demo_sha256) (frontend := example_frontend)
              (encoding := example_plan_encoding)) as (_ & H & _).
  apply (H (lit "acme/app") example_revision example_recursive example_sources).
  vm_compute. reflexivity.
Defined.
