(* ===== verification/ReusableLedger.v ===== *)
(** * ReusableLedger: the digest binds the whole ledger

    The bytes that [expansion_digest] hashes determine the run, the root and
    every field of every invocation: each part carries its length, so that the
    concatenation can be read only one way. *)

From stdpp Require Import gmap.
From S2P Require Import Prelude Text Utf8 Capability ManagedSecret WorkflowTemplate.
From S2P Require Import WorkflowStrategy RuntimeContext WorkflowLogical WorkflowGraph Permission.
From S2P Require Import PlanEquality ReusableWorkflow ReusableExpansion ReusableCallTree.
From S2P Require Import ReusableTheorems ReusableAnswers.

Open Scope Z_scope.

(** ** Codes that can be read only one way *)

(** What is coded, and where the code ends, shows in any text that begins with
    the code. *)
Definition unambiguous {A : Type} (code : A → list Z) (typed : A → Prop) : Prop :=
  ∀ a b r s, typed a → typed b → code a ++ r = code b ++ s → a = b ∧ r = s.

(** The same for a code that may fail. *)
Definition readable {A : Type} (code : A → result ReuseFailure (list Z)) (typed : A → Prop) : Prop :=
  ∀ a b x y r s, typed a → typed b → code a = Ok x → code b = Ok y → x ++ r = y ++ s →
    a = b ∧ r = s.

Lemma be_bytes_length (n : nat) (value : Z) : length (be_bytes n value) = n.
Proof.
  revert value. induction n as [|n IH]; intros value; simpl; [done|].
  rewrite length_app, IH. simpl. lia.
Qed.

Lemma be_bytes_inj (n : nat) (v w : Z) :
  0 ≤ v < 256 ^ Z.of_nat n → 0 ≤ w < 256 ^ Z.of_nat n → be_bytes n v = be_bytes n w → v = w.
Proof.
  revert v w. induction n as [|n IH]; intros v w Hv Hw; simpl.
  { change (256 ^ Z.of_nat 0) with 1 in *. lia. }
  rewrite Nat2Z.inj_succ, Z.pow_succ_r in Hv, Hw by lia.
  intros [H [= Hlast]]%app_inj_2; [|done].
  apply IH in H; [| |].
  - rewrite (Z.div_mod v 256), (Z.div_mod w 256) by lia. lia.
  - split; [apply Z.div_pos; lia|apply Z.div_lt_upper_bound; lia].
  - split; [apply Z.div_pos; lia|apply Z.div_lt_upper_bound; lia].
Qed.

Definition typed_uint (n : nat) (value : Z) : Prop := 0 ≤ value < 256 ^ Z.of_nat n.
Definition typed_bytes (value : list Z) : Prop := len value ≤ u64_max.
Definition typed_text (value : str) : Prop :=
  forallb is_scalar value = true ∧ typed_bytes (as_bytes value).
Definition typed_list {A : Type} (typed : A → Prop) (l : list A) : Prop :=
  len l ≤ u64_max ∧ ∀ a, a ∈ l → typed a.

Lemma uint_unambiguous (n : nat) : unambiguous (be_bytes n) (typed_uint n).
Proof.
  intros a b r s Ha Hb [H Hrs]%app_inj_1; [|by rewrite !be_bytes_length].
  split; [by apply (be_bytes_inj n)|done].
Qed.

Lemma length_typed {A : Type} (l : list A) : len l ≤ u64_max → typed_uint 8 (len l).
Proof. unfold typed_uint, len, u64_max. change (256 ^ Z.of_nat 8) with (2 ^ 64). lia. Qed.

Lemma part_unambiguous : unambiguous hash_part typed_bytes.
Proof.
  intros a b r s Ha Hb. unfold hash_part, typed_bytes in *. rewrite !Z.min_l by done.
  rewrite <- !app_assoc. intros H.
  apply (uint_unambiguous 8) in H as [Hlen H]; [|by apply length_typed..].
  apply app_inj_1 in H; [done|]. unfold len in Hlen. lia.
Qed.

Lemma text_unambiguous : unambiguous (λ value, hash_part (as_bytes value)) typed_text.
Proof.
  intros a b r s [Ha Ha'] [Hb Hb'] H. apply part_unambiguous in H as [H ->]; [|done..].
  split; [|done]. apply (f_equal from_utf8) in H.
  rewrite !from_utf8_as_bytes in H by done. by injection H.
Qed.

Lemma elements_readable {A : Type} (code : A → result ReuseFailure (list Z)) (typed : A → Prop)
    (l k : list A) (xs ys : list (list Z)) (r s : list Z) :
  readable code typed → (∀ a, a ∈ l → typed a) → (∀ a, a ∈ k → typed a) → length l = length k →
  try_map code l = Ok xs → try_map code k = Ok ys → mjoin xs ++ r = mjoin ys ++ s →
  l = k ∧ r = s.
Proof.
  intros Hcode Hl Hk Hlen Hxs%try_map_Ok Hys%try_map_Ok. revert k ys Hlen Hk Hys.
  induction Hxs as [|a x l xs Hx Hxs IH]; intros [|b k] ys Hlen Hk Hys; try discriminate Hlen.
  { apply Forall2_nil_inv_l in Hys as ->. done. }
  apply Forall2_cons_inv_l in Hys as (y & ys' & Hy & Hys & ->). simpl. rewrite <- !app_assoc.
  intros H. eapply Hcode in H as [-> H]; [|apply Hl, list_elem_of_here|apply Hk, list_elem_of_here|
    done|done].
  assert (Hl' : ∀ c, c ∈ l → typed c) by (intros c Hc; apply Hl; by apply list_elem_of_further).
  assert (Hk' : ∀ c, c ∈ k → typed c) by (intros c Hc; apply Hk; by apply list_elem_of_further).
  injection Hlen as Hlen. by destruct (IH Hl' k ys' Hlen Hk' Hys H) as [-> ->].
Qed.

Lemma try_map_total {A B : Type} (f : A → B) (l : list A) :
  try_map (λ a, Ok (f a) : result ReuseFailure B) l = Ok (map f l).
Proof. induction l as [|a l IH]; cbn; [done|]. by rewrite IH. Qed.

Lemma list_unambiguous {A : Type} (code : A → list Z) (typed : A → Prop) :
  unambiguous code typed → unambiguous (hash_list code) (typed_list typed).
Proof.
  intros Hcode l k r s [Hl Htl] [Hk Htk]. unfold hash_list, hash_u64. rewrite <- !app_assoc.
  intros H. apply (uint_unambiguous 8) in H as [Hlen H]; [|by apply length_typed..].
  apply (elements_readable (λ a, Ok (code a)) typed l k (map code l) (map code k)) in H; try done.
  - intros a b x y r' s' Ha Hb [= <-] [= <-]. by apply Hcode.
  - unfold len in Hlen. lia.
  - apply try_map_total.
  - apply try_map_total.
Qed.

#[local] Arguments hash_part : simpl never.
#[local] Arguments hash_list : simpl never.
#[local] Arguments be_bytes : simpl never.

(** A name out of a fixed table. *)
Lemma name_unambiguous {A : Type} (name : A → list Z) :
  (∀ a b, name a = name b → a = b) → (∀ a, typed_bytes (name a)) →
  unambiguous (λ a, hash_part (name a)) (λ _, True).
Proof.
  intros Hinj Hsmall a b r s _ _ H. apply part_unambiguous in H as [H ->]; [|done..].
  split; [by apply Hinj|done].
Qed.

Lemma level_unambiguous : unambiguous (λ a, hash_part (permission_level_name a)) (λ _, True).
Proof. apply name_unambiguous; [by intros [] []|by intros []]. Qed.
Lemma input_type_unambiguous : unambiguous (λ a, hash_part (input_type_name a)) (λ _, True).
Proof. apply name_unambiguous; [by intros [] []|by intros []]. Qed.
Lemma sensitivity_unambiguous : unambiguous (λ a, hash_part (sensitivity_name a)) (λ _, True).
Proof. apply name_unambiguous; [by intros [] []|by intros []]. Qed.

(** ** The parts of an invocation *)

Definition typed_option {A : Type} (typed : A → Prop) (o : option A) : Prop :=
  match o with Some a => typed a | None => True end.

Lemma optional_unambiguous : unambiguous hash_optional_uuid (typed_option typed_bytes).
Proof.
  intros [a|] [b|] r s Ha Hb H; try discriminate H; apply (f_equal tail) in H.
  - change (hash_part a ++ r = hash_part b ++ s) in H. by apply part_unambiguous in H as [-> ->].
  - done.
Qed.

Definition typed_permissions (permissions : ReusableWorkflowPermissions) : Prop :=
  typed_list (λ grant, typed_text grant.1) (reusable_grants permissions).

Lemma permissions_unambiguous : unambiguous hash_permissions typed_permissions.
Proof.
  intros [d l] [d' l'] r s Ha Hb H. unfold hash_permissions, typed_permissions in *.
  cbn [reusable_default reusable_grants] in *.
  rewrite <- !app_assoc in H. apply level_unambiguous in H as [-> H]; [|done..].
  apply (list_unambiguous _ (λ grant, typed_text grant.1)) in H as [-> ->]; [done| |done..].
  clear. intros [n v] [n' v'] r s Ha Hb H. cbv beta iota in H. rewrite <- !app_assoc in H.
  apply text_unambiguous in H as [-> H]; [|done..].
  by apply level_unambiguous in H as [-> ->].
Qed.

Definition typed_secret (secret : ExpandedReusableSecret) : Prop :=
  typed_text (expanded_secret_target secret) ∧ typed_text (expanded_secret_source secret).

Lemma secret_unambiguous : unambiguous hash_secret typed_secret.
Proof.
  intros [t u] [t' u'] r s [Ha Ha'] [Hb Hb'] H. unfold hash_secret in H. rewrite <- !app_assoc in H.
  apply text_unambiguous in H as [Ht H]; [|done..].
  apply text_unambiguous in H as [Hu ->]; [|done..]. simpl in *. by subst.
Qed.

Definition typed_output (output : ExpandedReusableOutput) : Prop :=
  typed_text (expanded_output_key output).

Lemma output_unambiguous : unambiguous hash_output typed_output.
Proof.
  intros [k v] [k' v'] r s Ha Hb H. unfold hash_output in H. rewrite <- !app_assoc in H.
  apply text_unambiguous in H as [Hk H]; [|done..].
  apply sensitivity_unambiguous in H as [Hv ->]; [|done..]. simpl in *. by subst.
Qed.

Definition typed_mapping (mapping : ExpandedReusableOutputMapping) : Prop :=
  typed_text (mapping_parent_key mapping) ∧ typed_text (mapping_child_key mapping).

Lemma mapping_unambiguous : unambiguous hash_mapping typed_mapping.
Proof.
  intros [k c v] [k' c' v'] r s [Ha Ha'] [Hb Hb'] H. unfold hash_mapping in H.
  rewrite <- !app_assoc in H.
  apply text_unambiguous in H as [Hk H]; [|done..].
  apply text_unambiguous in H as [Hc H]; [|done..].
  apply sensitivity_unambiguous in H as [Hv ->]; [|done..]. simpl in *. by subst.
Qed.

Definition typed_job (job : ExpandedReusableJob) : Prop :=
  typed_bytes (expanded_job_id job) ∧ typed_text (expanded_job_key job) ∧
  typed_uint 2 (expanded_source_order job) ∧
  typed_list typed_bytes (expanded_prerequisites job).

Lemma job_unambiguous : unambiguous hash_job typed_job.
Proof.
  intros [i k o c p] [i' k' o' c' p'] r s (Hi & Hk & Ho & Hp) (Hi' & Hk' & Ho' & Hp') H.
  unfold hash_job in H. rewrite <- !app_assoc in H.
  cbn [expanded_job_id expanded_job_key expanded_source_order expanded_reusable
       expanded_prerequisites] in *.
  apply part_unambiguous in H as [-> H]; [|done..].
  apply text_unambiguous in H as [-> H]; [|done..].
  apply (uint_unambiguous 2) in H as [-> H]; [|done..].
  apply app_inj_1 in H as [[= Hc] H]; [|done].
  apply (list_unambiguous _ _ part_unambiguous) in H as [-> ->]; [|done..].
  by destruct c, c'.
Qed.

(** What the expansion relies on: the text of a value reads back. *)
Class PlanEncodingLaws (encoding : PlanEncoding) : Prop := {
  template_text_inj value value' bytes :
    template_to_vec value = Some bytes → template_to_vec value' = Some bytes → value = value';
  default_text_inj value value' bytes :
    input_default_to_vec value = Some bytes → input_default_to_vec value' = Some bytes →
    value = value';
  template_text_small value bytes : template_to_vec value = Some bytes → typed_bytes bytes;
  default_text_small value bytes : input_default_to_vec value = Some bytes → typed_bytes bytes
}.

Section Encoded.
Context {hasher : Sha256} {encoding : PlanEncoding} {laws : PlanEncodingLaws encoding}.

Definition typed_input (input : ExpandedReusableInput) : Prop :=
  typed_text (expanded_input_target input).

(** The first part says which source it is. *)
Lemma source_readable : readable hash_source (λ _, True).
Proof.
  intros src src' x y r s _ _ Hx Hy H.
  assert (Htag : ∀ a b p q, typed_bytes a → typed_bytes b → hash_part a ++ p = hash_part b ++ q →
            a = b ∧ p = q) by (intros; by apply part_unambiguous).
  destruct src as [u|u|], src' as [u'|u'|]; unfold hash_source in *;
    repeat match goal with
    | H : mbind _ _ = Ok _ |- _ => apply bind_Ok_inv in H as (? & ?%ok_or_Ok & H)
    | H : Ok _ = Ok ?z |- _ => apply Ok_inj in H; subst z
    end; rewrite <- ?app_assoc in H; apply Htag in H as [Hname H]; try done.
  - apply Htag in H as [<- ->]; [|by eapply template_text_small..].
    split; [|done]. f_equal. by eapply template_text_inj.
  - apply Htag in H as [<- ->]; [|by eapply default_text_small..].
    split; [|done]. f_equal. by eapply default_text_inj.
Qed.

Lemma input_readable : readable hash_input typed_input.
Proof.
  intros [t ty src] [t' ty' src'] x y r s Ha Hb Hx Hy H. unfold hash_input in *.
  cbn [expanded_input_target expanded_input_type expanded_input_source] in *.
  apply bind_Ok_inv in Hx as (v & Hv & <-%Ok_inj). apply bind_Ok_inv in Hy as (v' & Hv' & <-%Ok_inj).
  rewrite <- !app_assoc in H.
  apply text_unambiguous in H as [-> H]; [|done..].
  apply input_type_unambiguous in H as [-> H]; [|done..].
  by destruct (source_readable src src' v v' r s I I Hv Hv' H) as [-> ->].
Qed.

Definition typed_invocation (invocation : ReusableWorkflowInvocationExpansion) : Prop :=
  typed_bytes (expanded_id invocation) ∧ typed_option typed_bytes (expanded_parent_id invocation) ∧
  typed_option typed_bytes (expanded_caller_job_id invocation) ∧
  typed_uint 2 (expanded_depth invocation) ∧ typed_text (expanded_path invocation) ∧
  typed_bytes (expanded_source_digest invocation) ∧
  typed_bytes (expanded_plan_digest invocation) ∧
  typed_permissions (expanded_permissions invocation) ∧
  typed_list typed_input (expanded_inputs invocation) ∧
  typed_list typed_secret (expanded_secrets invocation) ∧
  typed_list typed_output (expanded_outputs invocation) ∧
  typed_list typed_mapping (expanded_caller_outputs invocation) ∧
  typed_list typed_job (expanded_jobs_of invocation).

Lemma inputs_readable : readable hash_inputs (typed_list typed_input).
Proof.
  intros l k x y r s [Hl Htl] [Hk Htk] Hx Hy H. unfold hash_inputs, hash_u64 in *.
  apply bind_Ok_inv in Hx as (xs & Hxs & <-%Ok_inj). apply bind_Ok_inv in Hy as (ys & Hys & <-%Ok_inj).
  rewrite <- !app_assoc in H.
  apply (uint_unambiguous 8) in H as [Hlen H]; [|by apply length_typed..].
  apply (elements_readable hash_input typed_input l k xs ys) in H; try done.
  - exact input_readable.
  - unfold len in Hlen. lia.
Qed.

Lemma invocation_readable : readable hash_invocation typed_invocation.
Proof.
  intros a b x y r s (?&?&?&?&?&?&?&?&?&?&?&?&?) (?&?&?&?&?&?&?&?&?&?&?&?&?) Hx Hy Heq.
  unfold hash_invocation in *.
  apply bind_Ok_inv in Hx as (v & Hv & <-%Ok_inj). apply bind_Ok_inv in Hy as (v' & Hv' & <-%Ok_inj).
  rewrite <- !app_assoc in Heq.
  apply part_unambiguous in Heq as [? Heq]; [|done..].
  apply optional_unambiguous in Heq as [? Heq]; [|done..].
  apply optional_unambiguous in Heq as [? Heq]; [|done..].
  apply (uint_unambiguous 2) in Heq as [? Heq]; [|done..].
  apply text_unambiguous in Heq as [? Heq]; [|done..].
  apply part_unambiguous in Heq as [? Heq]; [|done..].
  apply part_unambiguous in Heq as [? Heq]; [|done..].
  apply permissions_unambiguous in Heq as [? Heq]; [|done..].
  apply (inputs_readable (expanded_inputs a) (expanded_inputs b)) in Heq as [? Heq]; [|done..].
  apply (list_unambiguous _ _ secret_unambiguous) in Heq as [? Heq]; [|done..].
  apply (list_unambiguous _ _ output_unambiguous) in Heq as [? Heq]; [|done..].
  apply (list_unambiguous _ _ mapping_unambiguous) in Heq as [? Heq]; [|done..].
  apply (list_unambiguous _ _ job_unambiguous) in Heq as [? ->]; [|done..].
  split; [|done]. destruct a, b. simpl in *. congruence.
Qed.

Definition typed_ledger (run_id root_id : list Z)
    (invocations : list ReusableWorkflowInvocationExpansion) : Prop :=
  typed_bytes run_id ∧ typed_bytes root_id ∧ typed_list typed_invocation invocations.

Lemma ledger_readable (run_id root_id run_id' root_id' bytes : list Z)
    (l k : list ReusableWorkflowInvocationExpansion) :
  typed_ledger run_id root_id l → typed_ledger run_id' root_id' k →
  expansion_bytes run_id root_id l = Ok bytes → expansion_bytes run_id' root_id' k = Ok bytes →
  run_id = run_id' ∧ root_id = root_id' ∧ l = k.
Proof.
  intros (Hr & Hi & Hl & Htl) (Hr' & Hi' & Hk & Htk) Hx Hy. unfold expansion_bytes in *.
  apply bind_Ok_inv in Hx as (xs & Hxs & Hx%Ok_inj). apply bind_Ok_inv in Hy as (ys & Hys & Hy%Ok_inj).
  rewrite <- Hy in Hx. apply app_inv_head in Hx.
  apply part_unambiguous in Hx as [-> H]; [|done..].
  apply part_unambiguous in H as [-> H]; [|done..]. unfold hash_u64 in H.
  apply (uint_unambiguous 8) in H as [Hlen H]; [|by apply length_typed..].
  split; [done|]. split; [done|].
  apply (elements_readable hash_invocation typed_invocation l k xs ys [] []); try done.
  - exact invocation_readable.
  - unfold len in Hlen. lia.
  - by rewrite H.
Qed.

End Encoded.

(** ** The property *)

(** C18: The digest binds the ledger: it is the SHA-256 of bytes that are equal
    for two well-typed ledgers exactly when the runs, the roots and all
    invocations with their permissions, bindings, outputs and jobs are. No
    field can be moved into its neighbour, dropped or repeated unseen. *)
Theorem digest_binds_the_ledger {hasher : Sha256} {encoding : PlanEncoding}
    (laws : PlanEncodingLaws encoding) (run_id root_id run_id' root_id' bytes bytes' : list Z)
    (l l' : list ReusableWorkflowInvocationExpansion) :
  typed_ledger run_id root_id l → typed_ledger run_id' root_id' l' →
  expansion_bytes run_id root_id l = Ok bytes → expansion_bytes run_id' root_id' l' = Ok bytes' →
  expansion_digest run_id root_id l = Ok (sha256 bytes) ∧
  (bytes = bytes' ↔ run_id = run_id' ∧ root_id = root_id' ∧ l = l').
Proof.
  intros Hl Hl' Hb Hb'. split; [unfold expansion_digest; by rewrite Hb|]. split.
  - intros <-. by eapply ledger_readable.
  - intros (<- & <- & <-). rewrite Hb in Hb'. by injection Hb'.
Qed.

(** Literal text and Booleans are written; other values are refused. *)
Definition example_text_encoding : PlanEncoding := {|
  plan_to_vec _ := None;
  template_to_vec value :=
    match value with
    | ValueLiteral text => if len text <=? u64_max then Some text else None
    | ValueExpression _ => None
    end;
  input_default_to_vec value :=
    match value with DefaultBoolean flag => Some [if flag then 1 else 0] | _ => None end
|}.

Lemma example_text_encoding_laws : PlanEncodingLaws example_text_encoding.
Proof.
  split; simpl.
  - intros [t|e] [t'|e'] bytes; try discriminate.
    destruct (len t <=? u64_max), (len t' <=? u64_max); congruence.
  - intros [b|z|t] [b'|z'|t'] bytes; try discriminate. destruct b, b'; congruence.
  - intros [t|e] bytes; [|discriminate]. destruct (Z.leb_spec (len t) u64_max); [|discriminate].
    by intros [= <-].
  - intros [b|z|t] bytes; try discriminate. by intros [= <-].
Qed.

Definition example_entry (target source : str) : ReusableWorkflowInvocationExpansion :=
  MkInvocation [1] None None 0 (lit "ci") [] [] (MkReusablePermissions PermissionRead [])
    [MkExpandedInput (lit "dry") InputBoolean (BindingDefault (DefaultBoolean true))]
    [MkExpandedSecret target source] [] [] [].

(** The two ledgers differ in where a name ends only. *)
Definition example_left : list ReusableWorkflowInvocationExpansion :=
  [example_entry (lit "TOKEN") (lit "KEY")].
Definition example_right : list ReusableWorkflowInvocationExpansion :=
  [example_entry (lit "TOKENK") (lit "EY")].

Lemma example_entry_typed (target source : str) :
  typed_text target → typed_text source → typed_ledger [7] [1] [example_entry target source].
Proof.
  intros Ht Hs.
  assert (Hnil : ∀ (A : Type) (typed : A → Prop), typed_list typed [])
    by (intros A typed; split; [done|]; by intros a Ha%not_elem_of_nil).
  assert (Hone : ∀ (A : Type) (typed : A → Prop) a, typed a → typed_list typed [a])
    by (intros A typed a Ha; split; [done|]; by intros b ->%list_elem_of_singleton).
  split_and!; [done..|]. apply Hone. unfold typed_invocation, typed_permissions. simpl.
  split_and!; first [done|exact (Hnil _ _)|by apply Hone].
Qed.

Lemma digest_binds_the_ledger_witness :
  expansion_bytes (encoding := example_text_encoding) [7] [1] example_left ≠
  expansion_bytes (encoding := example_text_encoding) [7] [1] example_right.
Proof.
  destruct (expansion_bytes (encoding := example_text_encoding) [7] [1] example_left)
    as [bytes|e] eqn:E; [|vm_compute in E; discriminate E].
  destruct (expansion_bytes (encoding := example_text_encoding) [7] [1] example_right)
    as [bytes'|e] eqn:E'; [|vm_compute in E'; discriminate E'].
  destruct (digest_binds_the_ledger (hasher := demo_sha256) example_text_encoding_laws
              [7] [1] [7] [1] bytes bytes' example_left example_right) as [_ [H _]].
  - by apply example_entry_typed.
  - by apply example_entry_typed.
  - exact E.
  - exact E'.
  - intros [= Heq]. apply H in Heq as (_ & _ & Heq). discriminate Heq.
Defined.
